(* ===== verification/_CoqProject ===== *)
-Q . S2P
Prelude.v
Loops.v
Heap.v
Varint.v
InternalKey.v
Batch.v
Membership.v
RaftTypes.v
RaftNode.v
RaftLog.v
RaftSpec.v
RaftRefine.v
RaftProps.v
RaftFindings.v
RaftCluster.v
Crc32c.v
Files.v
Wal.v
WalProofs.v
Codec.v
Parser.v
Hlc.v
Txn.v
Command.v
Sha256.v
MvccStore.v
MemTable.v
MemTableProofs.v
MemTableProps.v
SSTable.v
SSTableBlock.v
SSTableFormat.v
SSTableWriter.v
SSTableReader.v
SSTableLayout.v
SSTableReads.v
SSTableIterators.v
SSTableRoundTrip.v
SSTableOpen.v
SSTableCorrupt.v
SSTableProps.v
Merge.v
MergeProofs.v
MergeInputs.v
Manifest.v
ManifestCodec.v
ManifestVersion.v
ManifestApply.v
ManifestProps.v
ManifestStore.v
ManifestOpen.v
ManifestDurable.v
ManifestRewrite.v
ManifestReplay.v
Compaction.v
CompactionPlan.v
CompactionBuild.v
CompactionProps.v
StateMachine.v
StateSnapshot.v
RefEngine.v
RangeSpec.v
RangeEngine.v
RangeRefine.v
RangeProps.v
RangeSnapshot.v
EngineRead.v
EngineView.v
TableCache.v
TableCacheProofs.v
EngineReadProofs.v
EngineScan.v
EngineReadProps.v
TableCacheProps.v
