(* ===== verification/Prelude.v ===== *)
(** * RivetDB: a verification of its storage engine, Raft core and ranges

    RivetDB is a replicated, transactional key-value store written in Go.
    This library models the packages under src/internal that decide whether
    data is kept and answers are right, and proves what they promise.

    ** The program and its parts

    A range is a replicated state machine.  Its commands go through a Raft log
    (raft), the committed ones are applied in order (replicatedrange), and the
    application reads and writes versions of keys in a storage engine
    (storage).  The engine appends batches to a write-ahead log (storage/wal),
    keeps recent versions in skip lists (storage/memtable), flushes them to
    sorted tables (storage/sstable), merges tables (storage/compaction), and
    records which tables are live in a manifest (storage/manifest), itself a
    log in the format of storage/wal.  Reads (storage/engine) merge the
    memtables and the live tables, whose open files a cache holds.
    Timestamps come from a hybrid logical clock (mvcc); transactions (txn)
    prepare, decide and resolve through the commands of the ranges they touch.

    ** Files

    Each Go package or file is a Module or a file here, its structs are
    records, its enumerations inductive types, its methods definitions of the
    same name.

    - Shared: Prelude (results, machine integers, byte strings), Loops, Codec,
      Parser, Files (the file interfaces with their laws), and what the code
      uses of the Go library: Varint (encoding/binary), Crc32c (hash/crc32),
      Sha256 (crypto/sha256), Heap (container/heap).
    - storage: InternalKey (internal_key.go), Batch (batch.go), and MvccStore,
      the specification of a versioned store that all storage components are
      related to: a list of entries sorted by internal key, with the reads
      [candidate] and [visible].
    - raft: Membership (membership.go), RaftTypes (types.go, memory_store.go),
      RaftNode (node.go, every method in a state monad whose outcomes are
      values, errors and panics).  RaftLog is the invariant of a log, RaftSpec
      the abstract participant, RaftRefine the simulation, RaftProps and
      RaftCluster the consequences for a node and for a group, RaftFindings
      concrete runs at the edges.
    - storage/wal: Wal (format.go, writer.go, reader.go, recovery.go) and
      WalProofs.
    - storage/memtable: MemTable (the heap of linked nodes), MemTableProofs
      (its invariant), MemTableProps.
    - storage/sstable: SSTable (format.go, block.go, bloom.go, decoder.go),
      SSTableWriter (writer.go), SSTableReader (reader.go, iterator.go);
      SSTableBlock, SSTableFormat, SSTableLayout, SSTableReads,
      SSTableIterators, SSTableRoundTrip, SSTableOpen, SSTableCorrupt and
      SSTableProps hold the proofs.
    - storage/manifest: Manifest (edit.go), ManifestVersion (version.go),
      ManifestStore and ManifestOpen (store.go, recovery.go, current.go);
      ManifestCodec, ManifestApply, ManifestProps, ManifestDurable,
      ManifestRewrite and ManifestReplay hold the proofs.
    - storage/compaction: Merge (merge.go) with MergeInputs and MergeProofs;
      Compaction (plan.go, state.go, executor.go) with CompactionPlan,
      CompactionBuild and CompactionProps.
    - storage/engine: EngineRead (read.go) with EngineView, EngineReadProofs,
      EngineScan and EngineReadProps; TableCache (table_cache.go) with
      TableCacheProofs and TableCacheProps.
    - mvcc: Hlc (timestamp.go).  txn: Txn (types.go, codec.go).
    - replicatedrange: Command (command.go, split.go), StateMachine
      (state_machine.go), StateSnapshot and RangeSnapshot
      (state_snapshot.go).  RangeSpec is the abstract protocol, RangeEngine
      and RangeRefine the simulation, RangeProps the safety properties.

    ** Conventions

    A Go [uint64] is a [Z] with its wrap-around written out ([u64]), a byte
    string a [list byte], a pair [(T, error)] a [result].  An error is the list
    of the sentinels [errors.Is] finds in it.  [None] is a panic where the
    result of an operation is an option.  Pointers that are shared (skip-list
    nodes, cached tables and their leases) are addresses in an explicit heap;
    elsewhere a clone is the identity.  A method that holds a mutex for its
    whole effect is one step.

    Code outside the modelled packages is an interface with laws: the store,
    state machine and random source of a Raft node ([RaftEnv], [StoreLaws]),
    files and their publication ([WritableFile], [FileLaws], [Publication]),
    the iterators a merge reads ([EntryIterator], [IteratorLaws]) and the
    storage engine of a range ([MvccEngine], [EngineLaws]).  Each has an
    instance: the memory store, a disk with failures, the iterators of tables
    and memtables, and the reference engine of RefEngine.

    ** What the theorems show

    - Raft, as long as log indexes stay below the largest one: for messages
      as nodes send them, every operation of a node is a sequence of steps of
      the abstract participant, each durable before it takes effect; terms,
      votes and committed entries survive any failure; local operations do
      not panic; at most one node leads a term, with any loss, duplication,
      reordering and crashes, for a fixed membership; quorums of consecutive
      configurations intersect.  RaftFindings has runs outside these bounds,
      where the node panics.
    - Range: [Apply] implements the abstract protocol, on first application
      and on replay.  Decisions and resolutions are final, a resolution is
      atomic, the first committer wins between two starts of a range, the
      final fence of a split freezes the parent, and an installed snapshot
      adds the versions of the range that took it and replaces the
      transaction state.  Two defects are proved in general: a snapshot loses
      the fences of a split, and the replay of a rejected prepare records it
      as prepared.
    - Storage: what was synced survives a crash (log and manifest); one
      changed byte of a log or table is detected; memtables, tables and merges
      denote the versioned store of MvccStore and their reads are its reads;
      tables round-trip; versions stay well formed; a compaction keeps the
      contents whatever fails; the reads of the engine return what the merged
      store holds; under the locking of the engine the table cache is
      transparent and leaks no reader.
    - Formats: the decoders of keys, batches, commands, intents, operations
      and snapshots accept exactly what their encoders write.

    ** Fuel

    Loops that are not structural run on fuel that is shown to suffice:
    searches of a skip list on the number of nodes, the point read on the
    number of entries of its sources, a merge on the entries its inputs
    declare, the plan of a compaction on the number of tables (each pass that
    does not finish selects one more), the eviction loop of the cache on the
    length of its list (each eviction shortens it), log readers on the bytes
    that are left.  Where a theorem says that an operation returns, running
    out of fuel is excluded by it.

    ** What is not modelled

    - The write pipeline and the rest of the engine (storage/pipeline,
      engine.go, reclamation.go): goroutines and channels; the range is proved
      against the engine's laws instead.
    - The file store of Raft and its simulator, the replica that composes
      node and state machine, and everything above one range (multiraft:
      metadata, routing, splits, migration, rebalancing, the transaction
      coordinator).
    - Opening files by path, loggers, counters, test hooks, clocks and
      packages without state of the database (advisor, chaos, clock,
      invariant, rlog, testutil).
    - Liveness: no theorem says that a leader is elected or that a command is
      eventually committed. *)

From stdpp Require Export base list numbers gmap sorting.
From coqutil Require Export Byte.
From coqutil Require Import Word.LittleEndianList.
From Stdlib Require Export ZArith Lia.

#[global] Open Scope Z_scope.

(** ** Results of fallible Go functions

    A Go function that returns [(T, error)] is a function into
    [result E T].  An [error] value is represented by the sentinels
    [errors.Is] finds in it (the message text is dropped), so [E] is
    usually a [list] of the package's sentinel errors. *)

Inductive result (E A : Type) : Type :=
  | Ok (a : A)
  | Err (e : E).
Arguments Ok {E A} a.
Arguments Err {E A} e.

#[export] Instance result_ret {E} : MRet (result E) := fun A a => Ok a.
#[export] Instance result_bind {E} : MBind (result E) := fun A B f m =>
  match m with Ok a => f a | Err e => Err e end.

(** [if !b { return e }] *)
Definition require {E} (b : bool) (e : E) : result E unit :=
  if b then Ok tt else Err e.

Definition is_ok {E A} (r : result E A) : bool :=
  match r with Ok _ => true | Err _ => false end.

#[export] Instance result_eq_dec {E A} `{EqDecision E, EqDecision A} :
  EqDecision (result E A).
Proof. solve_decision. Defined.

Lemma bind_ok {E A B} (m : result E A) (f : A -> result E B) b :
  m ≫= f = Ok b <-> exists a, m = Ok a /\ f a = Ok b.
Proof. destruct m; cbn; split; [eauto|by intros (? & [= ->] & ?)|done|by intros (? & ? & ?)]. Qed.

Lemma Ok_inj {E A} (a b : A) : @Ok E A a = Ok b -> a = b.
Proof. by intros [= ->]. Qed.

Lemma require_ok {E} b (e : E) u : require b e = Ok u <-> b = true.
Proof. destruct b, u; cbn; split; congruence. Qed.

Lemma require_bind {E A} b (e : E) (k : unit -> result E A) :
  require b e ≫= k = if b then k tt else Err e.
Proof. by destruct b. Qed.

(** Opens a successful computation [H : m = Ok _], bind by bind. *)
Ltac ok_step H :=
  lazymatch type of H with
  | _ ≫= _ = Ok _ => let x := fresh "x" in let Hx := fresh "Hx" in apply bind_ok in H as (x & Hx & H)
  | (let (_, _) := ?p in _) = Ok _ => destruct p
  end.
Ltac ok_inv H := cbn beta zeta in H; repeat (ok_step H; cbn beta zeta in H).

(** ** Machine integers *)

Definition two64 : Z := 2 ^ 64.
Definition MaxUint64 : Z := two64 - 1.
Definition MaxUint32 : Z := 2 ^ 32 - 1.

(** The value of a Go unsigned conversion or wrap-around operation. *)
Definition u64 (z : Z) : Z := z mod 2 ^ 64.
Definition u32 (z : Z) : Z := z mod 2 ^ 32.
Definition u16 (z : Z) : Z := z mod 2 ^ 16.

Definition is_u64 (z : Z) : Prop := 0 <= z < 2 ^ 64.
Definition is_u32 (z : Z) : Prop := 0 <= z < 2 ^ 32.

Lemma u64_id z : is_u64 z -> u64 z = z.
Proof. apply Z.mod_small. Qed.
Lemma u64_range z : is_u64 (u64 z).
Proof. by apply Z.mod_pos_bound. Qed.
Lemma u32_id z : is_u32 z -> u32 z = z.
Proof. apply Z.mod_small. Qed.

(** Go's [^x] on [uint64]. *)
Definition u64_not (z : Z) : Z := u64 (Z.lnot z).

Lemma u64_not_sub z : is_u64 z -> u64_not z = 2 ^ 64 - 1 - z.
Proof.
  unfold is_u64, u64_not, u64, Z.lnot. intros Hz. symmetry.
  apply (Z.mod_unique _ _ (-1)); lia.
Qed.
Lemma u64_not_involutive z : is_u64 z -> u64_not (u64_not z) = z.
Proof.
  intros Hz. rewrite (u64_not_sub (u64_not z)); [|apply u64_range].
  rewrite u64_not_sub by done. lia.
Qed.

Lemma lor_disjoint_shift x b s :
  0 <= s -> 0 <= x < 2 ^ s -> Z.lor x (Z.shiftl b s) = x + b * 2 ^ s.
Proof.
  intros Hs Hx. rewrite <- Z.shiftl_mul_pow2 by done. symmetry.
  apply Z.add_nocarry_lor. apply Z.bits_inj'. intros n Hn.
  rewrite Z.land_spec, Z.bits_0, Z.shiftl_spec by done.
  destruct (Z.ltb_spec n s).
  - rewrite (Z.testbit_neg_r b) by lia. apply andb_false_r.
  - replace x with (x mod 2 ^ s) by (by apply Z.mod_small).
    by rewrite Z.mod_pow2_bits_high by lia.
Qed.

(** ** Byte strings *)

Abbreviation bytes := (list byte).

#[export] Instance byte_eq_dec : EqDecision byte := Byte.byte_eq_dec.
#[export] Instance byte_inhabited : Inhabited byte := populate Byte.x00.
Lemma byte_code_inj (b : byte) : Some (byte.of_Z (Z.of_N (Z.to_N (byte.unsigned b)))) = Some b.
Proof. f_equal. pose proof (byte.unsigned_range b). rewrite Z2N.id by lia. apply byte.of_Z_unsigned. Qed.
#[export] Instance byte_countable : Countable byte :=
  inj_countable (fun b => Z.to_N (byte.unsigned b)) (fun n => Some (byte.of_Z (Z.of_N n))) byte_code_inj.

(** Go's [len]. *)
Definition len {A} (l : list A) : Z := Z.of_nat (length l).

Lemma len_nonneg {A} (l : list A) : 0 <= len l.
Proof. unfold len. lia. Qed.
Lemma len_take {A} k (l : list A) : (k <= length l)%nat -> len (take k l) = Z.of_nat k.
Proof. intros. unfold len. rewrite length_take. lia. Qed.
Lemma len_app {A} (l k : list A) : len (l ++ k) = len l + len k.
Proof. unfold len. rewrite length_app. lia. Qed.
Lemma len_cons {A} (x : A) l : len (x :: l) = 1 + len l.
Proof. unfold len. cbn [length]. lia. Qed.
Lemma len_nil {A} : len (@nil A) = 0.
Proof. done. Qed.
Lemma len_to_nat {A} (l : list A) : Z.to_nat (len l) = length l.
Proof. unfold len. lia. Qed.

(** Go's slice expression [s[a:b]] (for [a <= b <= len s]). *)
Definition slice {A} (a b : nat) (s : list A) : list A := take (b - a) (drop a s).

(** [bytes.Compare]: [Lt], [Eq] and [Gt] stand for -1, 0 and +1. *)
Fixpoint bytes_compare (a b : bytes) : comparison :=
  match a, b with
  | [], [] => Eq
  | [], _ :: _ => Lt
  | _ :: _, [] => Gt
  | x :: a', y :: b' =>
      match byte.unsigned x ?= byte.unsigned y with
      | Eq => bytes_compare a' b'
      | c => c
      end
  end.

Lemma byte_unsigned_inj (x y : byte) : byte.unsigned x = byte.unsigned y -> x = y.
Proof.
  intros H. rewrite <- (byte.of_Z_unsigned x), <- (byte.of_Z_unsigned y).
  by rewrite H.
Qed.

Lemma bytes_compare_refl a : bytes_compare a a = Eq.
Proof. induction a; cbn; [done|]. by rewrite Z.compare_refl. Qed.

Lemma bytes_compare_eq a b : bytes_compare a b = Eq <-> a = b.
Proof.
  split; [|intros ->; apply bytes_compare_refl].
  revert b. induction a as [|x a IH]; intros [|y b]; cbn; try done.
  destruct (Z.compare_spec (byte.unsigned x) (byte.unsigned y)); try done.
  intros ?%IH. f_equal; [by apply byte_unsigned_inj|done].
Qed.

Lemma bytes_compare_antisym a b : bytes_compare b a = CompOpp (bytes_compare a b).
Proof.
  revert b. induction a as [|x a IH]; intros [|y b]; cbn; try done.
  rewrite (Z.compare_antisym (byte.unsigned x)).
  by destruct (byte.unsigned x ?= byte.unsigned y); cbn.
Qed.

Lemma bytes_compare_lt_trans a b c :
  bytes_compare a b = Lt -> bytes_compare b c = Lt -> bytes_compare a c = Lt.
Proof.
  revert b c. induction a as [|x a IH]; intros [|y b] [|z c]; cbn; try done.
  destruct (Z.compare_spec (byte.unsigned x) (byte.unsigned y)),
    (Z.compare_spec (byte.unsigned y) (byte.unsigned z));
    destruct (Z.compare_spec (byte.unsigned x) (byte.unsigned z));
    try done; try lia. apply IH.
Qed.

Definition bytes_ltb (a b : bytes) : bool :=
  match bytes_compare a b with Lt => true | _ => false end.
Definition bytes_leb (a b : bytes) : bool :=
  match bytes_compare a b with Gt => false | _ => true end.
(** [bytes.Equal] *)
Definition bytes_eqb (a b : bytes) : bool :=
  match bytes_compare a b with Eq => true | _ => false end.

Lemma bytes_eqb_eq a b : bytes_eqb a b = true <-> a = b.
Proof.
  unfold bytes_eqb. rewrite <- bytes_compare_eq. by destruct (bytes_compare a b).
Qed.
Lemma bytes_eqb_refl a : bytes_eqb a a = true.
Proof. by apply bytes_eqb_eq. Qed.
Lemma bytes_eqb_neq a b : bytes_eqb a b = false <-> a <> b.
Proof. rewrite <- bytes_eqb_eq. by destruct (bytes_eqb a b). Qed.

(** The strict order on byte strings. *)
Definition bytes_lt (a b : bytes) : Prop := bytes_compare a b = Lt.
#[export] Instance bytes_lt_strict : StrictOrder bytes_lt.
Proof.
  split; [|intros a b c; apply bytes_compare_lt_trans].
  intros a. unfold complement, bytes_lt. by rewrite bytes_compare_refl.
Qed.
Lemma bytes_leb_false a b : bytes_leb a b = false -> bytes_lt b a.
Proof.
  unfold bytes_leb, bytes_lt. rewrite (bytes_compare_antisym a b). by destruct (bytes_compare a b).
Qed.
Lemma bytes_leb_lt a b : bytes_leb a b = true <-> ~ bytes_lt b a.
Proof.
  unfold bytes_leb, bytes_lt. rewrite (bytes_compare_antisym a b). by destruct (bytes_compare a b).
Qed.
Lemma bytes_ltb_lt a b : bytes_ltb a b = true <-> bytes_lt a b.
Proof. unfold bytes_ltb, bytes_lt. by destruct (bytes_compare a b). Qed.
Lemma bytes_lt_cases a b : bytes_lt a b \/ a = b \/ bytes_lt b a.
Proof.
  unfold bytes_lt. rewrite (bytes_compare_antisym a b), <- bytes_compare_eq. destruct (bytes_compare a b); auto.
Qed.
Lemma bytes_lt_le_trans a b c : bytes_lt a b -> ~ bytes_lt c b -> bytes_lt a c.
Proof. intros Hab Hcb. destruct (bytes_lt_cases b c) as [H|[<-|H]]; [by transitivity b|done..]. Qed.
Lemma bytes_le_lt_trans a b c : ~ bytes_lt b a -> bytes_lt b c -> bytes_lt a c.
Proof. intros Hab Hbc. destruct (bytes_lt_cases a b) as [H|[->|H]]; [by transitivity b|done..]. Qed.
Lemma sorted_NoDup {A} (R : A -> A -> Prop) `{!Irreflexive R} l : StronglySorted R l -> NoDup l.
Proof.
  induction 1 as [|x l Hs IH Hf]; constructor; [|done]. rewrite Forall_forall in Hf.
  intros Hin. by apply (irreflexivity R x), Hf.
Qed.

(** Two byte strings of equal length with a common prefix compare as their
    suffixes do. *)
Lemma bytes_compare_app p a b : bytes_compare (p ++ a) (p ++ b) = bytes_compare a b.
Proof. induction p; cbn; [done|]. by rewrite Z.compare_refl. Qed.

(** ** Fixed-width encodings ([encoding/binary]) *)

(** [LittleEndian.PutUintN] and [BigEndian.PutUintN] on [n] bytes. *)
Definition le_put (n : nat) (z : Z) : bytes := le_split n z.
Definition be_put (n : nat) (z : Z) : bytes := rev (le_split n z).
(** [LittleEndian.UintN] and [BigEndian.UintN]. *)
Definition le_get (b : bytes) : Z := le_combine b.
Definition be_get (b : bytes) : Z := le_combine (rev b).

Lemma le_put_length n z : length (le_put n z) = n.
Proof. apply length_le_split. Qed.
Lemma be_put_length n z : length (be_put n z) = n.
Proof. unfold be_put. rewrite length_rev. apply length_le_split. Qed.

Lemma le_get_put n z : le_get (le_put n z) = z mod 2 ^ (Z.of_nat n * 8).
Proof. apply le_combine_split. Qed.
Lemma be_get_put n z : be_get (be_put n z) = z mod 2 ^ (Z.of_nat n * 8).
Proof. unfold be_get, be_put. rewrite rev_involutive. apply le_combine_split. Qed.

Lemma le_put_get b n : length b = n -> le_put n (le_get b) = b.
Proof. intros <-. apply split_le_combine. Qed.
Lemma be_put_get b n : length b = n -> be_put n (be_get b) = b.
Proof.
  intros <-. unfold be_put, be_get. rewrite <- length_rev, split_le_combine.
  apply rev_involutive.
Qed.

Lemma le_get_range b : 0 <= le_get b < 2 ^ (8 * Z.of_nat (length b)).
Proof. apply le_combine_bound. Qed.
Lemma be_get_range b : 0 <= be_get b < 2 ^ (8 * Z.of_nat (length b)).
Proof. unfold be_get. rewrite <- length_rev. apply le_combine_bound. Qed.

Lemma be_get_cons x b :
  be_get (x :: b) = byte.unsigned x * 2 ^ (8 * Z.of_nat (length b)) + be_get b.
Proof.
  unfold be_get. cbn [rev]. rewrite le_combine_app, length_rev, le_combine_1.
  replace (Z.of_nat (length b) * 8) with (8 * Z.of_nat (length b)) by lia.
  rewrite <- Z.shiftl_mul_pow2 by lia. rewrite Z.add_comm. symmetry.
  apply Z.add_nocarry_lor, Z.bits_inj'. intros n Hn.
  rewrite Z.land_spec, Z.bits_0, Z.shiftl_spec by done.
  pose proof (le_combine_bound (rev b)) as Hb. rewrite length_rev in Hb.
  destruct (Z.ltb_spec n (8 * Z.of_nat (length b))).
  - rewrite (Z.testbit_neg_r (byte.unsigned x)) by lia. apply andb_false_r.
  - rewrite <- (Z.mod_small _ _ Hb), Z.mod_pow2_bits_high by lia. done.
Qed.

(** Big-endian integers of equal width compare as their bytes do. *)
Lemma bytes_compare_be p q r s :
  length p = length q ->
  bytes_compare (p ++ r) (q ++ s) =
    match be_get p ?= be_get q with Eq => bytes_compare r s | c => c end.
Proof.
  revert q. induction p as [|x p IH]; intros [|y q]; try done.
  intros [= Hlen]. cbn [app bytes_compare]. rewrite !be_get_cons, <- Hlen, (IH q Hlen).
  pose proof (be_get_range p) as Hp. pose proof (be_get_range q) as Hq. rewrite <- Hlen in Hq.
  set (P := 2 ^ (8 * Z.of_nat (length p))) in *. clearbody P.
  destruct (Z.compare_spec (byte.unsigned x) (byte.unsigned y)) as [Hxy|Hxy|Hxy].
  - rewrite Hxy. by rewrite Z.add_compare_mono_l.
  - rewrite (proj2 (Z.compare_lt_iff _ _)); [done|nia].
  - rewrite (proj2 (Z.compare_gt_iff _ _)); [done|nia].
Qed.

Lemma le_get_put64 z : is_u64 z -> le_get (le_put 8 z) = z.
Proof. intros. rewrite le_get_put. by apply Z.mod_small. Qed.
Lemma be_get_put64 z : is_u64 z -> be_get (be_put 8 z) = z.
Proof. intros. rewrite be_get_put. by apply Z.mod_small. Qed.
Lemma le_get_put32 z : is_u32 z -> le_get (le_put 4 z) = z.
Proof. intros. rewrite le_get_put. by apply Z.mod_small. Qed.
Lemma be_get_put32 z : is_u32 z -> be_get (be_put 4 z) = z.
Proof. intros. rewrite be_get_put. by apply Z.mod_small. Qed.
Lemma le_get_u64 b : length b = 8%nat -> is_u64 (le_get b).
Proof. intros H. pose proof (le_get_range b). by rewrite H in *. Qed.
Lemma be_get_u64 b : length b = 8%nat -> is_u64 (be_get b).
Proof. intros H. pose proof (be_get_range b). by rewrite H in *. Qed.
Lemma le_get_u32 b : length b = 4%nat -> is_u32 (le_get b).
Proof. intros H. pose proof (le_get_range b). by rewrite H in *. Qed.
Lemma be_get_u32 b : length b = 4%nat -> is_u32 (be_get b).
Proof. intros H. pose proof (be_get_range b). by rewrite H in *. Qed.

#[global] Opaque le_put be_put le_get be_get.

(** ** Maps filled from lists *)

Lemma fold_insert_lookup `{Countable K} {A B} (f : A -> K) (g : A -> B) (l : list A) : forall (m : gmap K B) k x,
  NoDup (f <$> l) ->
  foldl (fun m a => <[f a := g a]> m) m l !! k = Some x <->
    (exists a, a ∈ l /\ f a = k /\ g a = x) \/ (k ∉ (f <$> l) /\ m !! k = Some x).
Proof.
  induction l as [|a l IH]; intros m k x Hnd; cbn.
  { split; [right; split; [apply not_elem_of_nil|done]|]. intros [(a & Ha & _)|[_ ?]]; [by apply not_elem_of_nil in Ha|done]. }
  cbn in Hnd. apply NoDup_cons in Hnd as [Hnin Hnd]. rewrite IH by done. rewrite not_elem_of_cons.
  setoid_rewrite elem_of_cons. split.
  - intros [(b & Hb & Hf & Hg)|[Hk Hl]]; [left; exists b; auto|]. apply lookup_insert_Some in Hl as [[<- <-]|[Hne Hl]].
    + left. exists a. auto.
    + right. auto.
  - intros [(b & [->|Hb] & Hf & Hg)|[[Hne Hk] Hl]].
    + subst k x. right. split; [done|apply lookup_insert_eq].
    + left. exists b. auto.
    + right. split; [done|]. by rewrite lookup_insert_ne.
Qed.
Lemma fold_insert_Some `{Countable K} {A B} (f : A -> K) (g : A -> B) (l : list A) k x : NoDup (f <$> l) ->
  foldl (fun m a => <[f a := g a]> m) (∅ : gmap K B) l !! k = Some x <-> exists a, a ∈ l /\ f a = k /\ g a = x.
Proof. intros Hnd. rewrite fold_insert_lookup by done. rewrite lookup_empty. naive_solver. Qed.
Lemma NoDup_fmap_filter {A B} (f : A -> B) (P : A -> Prop) `{!forall x, Decision (P x)} (l : list A) :
  NoDup (f <$> l) -> NoDup (f <$> filter P l).
Proof.
  induction l as [|a l IH]; [done|]. rewrite fmap_cons. intros [Hnin Hnd]%NoDup_cons. rewrite filter_cons. case_decide; [|by apply IH].
  cbn. constructor; [|by apply IH]. intros (b & Hb & [_ Hin]%list_elem_of_filter)%list_elem_of_fmap.
  apply Hnin. rewrite Hb. by apply list_elem_of_fmap_2.
Qed.

(** ** Filters of lists *)

Section filters.
Context {A : Type} (P : A -> Prop) `{!forall x, Decision (P x)}.
Lemma filter_all l : Forall P l -> filter P l = l.
Proof. induction 1 as [|x l Hx Hl IH]; [done|]. by rewrite filter_cons_True, IH. Qed.
Lemma filter_none l : Forall (fun x => ~ P x) l -> filter P l = [].
Proof. induction 1 as [|x l Hx Hl IH]; [done|]. by rewrite filter_cons_False. Qed.
Lemma filter_Forall l : Forall P (filter P l).
Proof. apply Forall_forall. by intros x [? _]%list_elem_of_filter. Qed.
Lemma sorted_filter (R : A -> A -> Prop) l : StronglySorted R l -> StronglySorted R (filter P l).
Proof.
  induction 1 as [|x l Hs IH Hf]; [constructor|]. rewrite filter_cons. case_decide; [|done].
  constructor; [done|]. rewrite Forall_forall in *. intros y [_ Hy]%list_elem_of_filter. by apply Hf.
Qed.
(** A downward closed property cuts a sorted list in two. *)
Lemma sorted_cut (R : A -> A -> Prop) l : (forall x y, R x y -> P y -> P x) -> StronglySorted R l ->
  l = filter P l ++ filter (fun x => ~ P x) l.
Proof.
  intros Hdown. induction 1 as [|x l Hs IH Hf]; [done|]. destruct (decide (P x)) as [Hx|Hx].
  - rewrite filter_cons_True, filter_cons_False by tauto. cbn. by rewrite <- IH.
  - assert (Forall (fun y => ~ P y) (x :: l)) as Hno.
    { constructor; [done|]. eapply Forall_impl; [exact Hf|]. cbn. intros y Hxy Hy. by apply Hx, (Hdown x y). }
    rewrite (filter_none (x :: l)) by done. cbn [app]. symmetry.
    clear -Hno. induction Hno as [|y l' Hy Hl IH]; [done|]. by rewrite filter_cons_True, IH.
Qed.
End filters.
Lemma filter_iff_Forall {A} (P Q : A -> Prop) `{!forall x, Decision (P x)} `{!forall x, Decision (Q x)} l :
  Forall (fun x => P x <-> Q x) l -> filter P l = filter Q l.
Proof.
  induction 1 as [|x l Hx Hl IH]; [done|]. rewrite !filter_cons. rewrite IH. repeat case_decide; tauto.
Qed.
