(* ===== verification/Loops.v ===== *)
(** * Loops over slices

    [for _, x := range l] with early error returns, the search loops of
    package slices, and [slices.SortFunc], with the lemmas the storage
    components use. *)

From S2P Require Import Prelude.

(** ** Loops that may return an error *)

Section loops.
Context {E A S : Type} (step : S -> A -> result E S).

Fixpoint foldM (s : S) (l : list A) : result E S :=
  match l with
  | [] => Ok s
  | a :: l => s ← step s a; foldM s l
  end.
Lemma foldM_app l k : forall s, foldM s (l ++ k) = (s ← foldM s l; foldM s k).
Proof. induction l as [|a l IH]; intros s; cbn; [done|]. destruct (step s a); cbn; [apply IH|done]. Qed.
(** A loop that keeps an invariant ends in it. *)
Lemma foldM_inv (P : S -> Prop) l : forall s s',
  (forall s a s', a ∈ l -> P s -> step s a = Ok s' -> P s') -> P s -> foldM s l = Ok s' -> P s'.
Proof.
  induction l as [|a l IH]; intros s s' Hstep Hs H; cbn in H; [by injection H as <-|].
  apply bind_ok in H as (s1 & H1 & H). eapply IH; [|by eapply Hstep; [left| |]|done].
  intros ????. by apply Hstep; right.
Qed.
End loops.

(** ** Loops that collect distinct numbers *)

Section visits.
Context {E A : Type} (check : A -> result E unit) (number : A -> Z) (duplicate : E).

(** [check(a)], then [if seen[a] { return duplicate }; seen[a] = true]. *)
Definition visit (seen : gset Z) (a : A) : result E (gset Z) :=
  _ ← check a;
  if bool_decide (number a ∈ seen) then Err duplicate else Ok ({[number a]} ∪ seen).

Lemma visit_ok seen a seen' : visit seen a = Ok seen' <->
  check a = Ok tt /\ number a ∉ seen /\ seen' = {[number a]} ∪ seen.
Proof.
  unfold visit. rewrite bind_ok. split.
  - intros ([] & Ha & H). case_bool_decide; [done|]. by injection H as <-.
  - intros (Ha & Hn & ->). exists tt. by rewrite bool_decide_false.
Qed.
Lemma visits_ok l : forall seen seen', foldM visit seen l = Ok seen' <->
  Forall (fun a => check a = Ok tt) l /\ NoDup (number <$> l) /\ (forall n, n ∈ number <$> l -> n ∉ seen) /\
  seen' = list_to_set (number <$> l) ∪ seen.
Proof.
  induction l as [|a l IH]; intros seen seen'; cbn.
  { rewrite union_empty_l_L. split; [intros [= <-]|intros (_ & _ & _ & ->); done].
    split_and!; [done|constructor|by intros n ?%not_elem_of_nil|done]. }
  rewrite bind_ok, Forall_cons, NoDup_cons. setoid_rewrite visit_ok. setoid_rewrite IH. split.
  - intros (s1 & (Ha & Hn & ->) & Hl & Hnd & Hdis & ->). split_and!; [done..| |done| |set_solver].
    + intros Hin. specialize (Hdis _ Hin). set_solver.
    + intros n [->|Hin]%elem_of_cons; [done|]. specialize (Hdis _ Hin). set_solver.
  - intros ((Ha & Hl) & (Hnin & Hnd) & Hdis & ->). eexists. split; [split_and!; [done| |done]; apply Hdis; left|].
    split_and!; [done..| |set_solver]. intros n Hin. assert (n ∉ seen) by (apply Hdis; by right). set_solver.
Qed.
End visits.

(** ** [slices.IndexFunc] and [slices.Delete] *)

Section search.
Context {A : Type} (p : A -> bool).
(** The index of the first element that satisfies [p], -1 being [None]. *)
Fixpoint IndexFunc (l : list A) : option nat :=
  match l with
  | [] => None
  | a :: l => if p a then Some O else S <$> IndexFunc l
  end.
Lemma IndexFunc_Some l i : IndexFunc l = Some i -> exists a, l !! i = Some a /\ p a = true.
Proof.
  revert i. induction l as [|a l IH]; intros i; cbn; [done|]. destruct (p a) eqn:Ha; [intros [= <-]; by exists a|].
  destruct (IndexFunc l); cbn; [|done]. intros [= <-]. by apply IH.
Qed.
Lemma IndexFunc_None l : IndexFunc l = None <-> forall a, a ∈ l -> p a = false.
Proof.
  induction l as [|a l IH]; cbn; [split; [by intros _ a ?%not_elem_of_nil|done]|].
  setoid_rewrite elem_of_cons. destruct (p a) eqn:Ha; [split; [done|intros H; rewrite H in Ha; [done|by left]]|].
  destruct (IndexFunc l); cbn.
  - split; [done|]. intros H. exfalso. enough (Some n = None) by done. apply IH. auto.
  - split; [|done]. intros _ b [->|Hb]; [done|]. by apply IH.
Qed.
End search.

(** ** [sort.Search] *)

Section binary.
Context (f : nat -> bool).
Fixpoint search_loop (fuel i j : nat) : nat :=
  match fuel with
  | O => i
  | S fuel' =>
      if (i <? j)%nat then
        let h := ((i + j) / 2)%nat in
        if negb (f h) then search_loop fuel' (S h) j else search_loop fuel' i h
      else i
  end.
Definition Search (n : nat) : nat := search_loop n 0 n.
Lemma search_loop_spec fuel : forall i j n, (j - i <= fuel)%nat -> (i <= j <= n)%nat ->
  (forall k, (k < i)%nat -> f k = false) -> (forall k, (j <= k < n)%nat -> f k = true) ->
  (forall k l, (k <= l < n)%nat -> f k = true -> f l = true) ->
  let r := search_loop fuel i j in (r <= n)%nat /\ (forall k, (k < r)%nat -> f k = false) /\ (forall k, (r <= k < n)%nat -> f k = true).
Proof.
  induction fuel as [|fuel IH]; intros i j n Hf Hij Hlo Hhi Hmono; cbn [search_loop].
  { split; [lia|]. split; [done|]. intros k Hk. apply Hhi. lia. }
  destruct (Nat.ltb_spec i j) as [Hlt|Hge].
  - pose proof (Nat.div_lt_upper_bound (i + j) 2 j ltac:(lia) ltac:(lia)) as Hh1. pose proof (Nat.div_le_lower_bound (i + j) 2 i ltac:(lia) ltac:(lia)) as Hh2.
    set (h := ((i + j) / 2)%nat) in *. destruct (f h) eqn:Hfh; cbn [negb].
    + apply IH; [lia|lia|done| |done]. intros k Hk. apply (Hmono h k); [lia|done].
    + apply IH; [lia|lia| |done|done]. intros k Hk. destruct (f k) eqn:Hfk; [|done]. rewrite (Hmono k h) in Hfh; [done|lia|done].
  - split; [lia|]. split; [done|]. intros k Hk. apply Hhi. lia.
Qed.
Lemma Search_spec n : (forall k l, (k <= l < n)%nat -> f k = true -> f l = true) ->
  (Search n <= n)%nat /\ (forall k, (k < Search n)%nat -> f k = false) /\ (forall k, (Search n <= k < n)%nat -> f k = true).
Proof. intros Hm. apply (search_loop_spec n 0 n n); [lia|lia|lia|lia|done]. Qed.
End binary.

(** [slices.Delete(l, i, i+1)] *)
Definition Delete {A} (i : nat) (l : list A) : list A := take i l ++ drop (S i) l.
Lemma Delete_Permutation {A} (l : list A) i a : l !! i = Some a -> l ≡ₚ a :: Delete i l.
Proof. intros H. unfold Delete. rewrite <- (take_drop_middle l i a H) at 1. symmetry. apply Permutation_middle. Qed.

(** ** [slices.SortFunc]

    The comparator decides a relation [R]; on the slices that are sorted it
    never ties two different elements, so the result is determined by the
    comparator and any sorting algorithm gives it. *)
Definition SortFunc {A} (compare : A -> A -> comparison) (l : list A) : list A :=
  merge_sort (fun a b => compare a b <> Gt) l.

Section sort.
Context {A : Type} (compare : A -> A -> comparison).
Abbreviation le := (fun a b => compare a b <> Gt).

Lemma SortFunc_Permutation l : SortFunc compare l ≡ₚ l.
Proof. apply merge_sort_Permutation. Qed.

Context (antisym : forall a b, compare b a = CompOpp (compare a b)).
Context (trans : forall a b c, compare a b <> Gt -> compare b c <> Gt -> compare a c <> Gt).
#[local] Instance compare_total : Total le.
Proof using antisym. intros a b. rewrite (antisym a b). destruct (compare a b); cbn; auto. Qed.
#[local] Instance compare_trans : Transitive le.
Proof using trans. intros a b c. apply trans. Qed.
Lemma SortFunc_sorted l : StronglySorted le (SortFunc compare l).
Proof using antisym trans. apply StronglySorted_merge_sort; apply _. Qed.

(** Where ties are equalities, the sorted permutation is unique. *)
Lemma sorted_unique l k : (forall a b, a ∈ l -> b ∈ l -> compare a b = Eq -> a = b) ->
  StronglySorted le l -> StronglySorted le k -> l ≡ₚ k -> l = k.
Proof using antisym.
  intros Hties Hl. revert k. induction Hl as [|a l Hl IH Ha]; intros k Hk Hp.
  { by apply Permutation_nil in Hp. }
  destruct Hk as [|b k Hk Hb]; [by apply Permutation_nil_r in Hp|].
  rewrite Forall_forall in Ha, Hb. assert (a = b) as <-.
  { assert (b ∈ a :: l) as Hbl by (rewrite Hp; left). assert (a ∈ b :: k) as Hak by (rewrite <- Hp; left).
    apply elem_of_cons in Hbl as [->|Hbl]; [done|]. apply elem_of_cons in Hak as [->|Hak]; [done|].
    specialize (Ha b Hbl). specialize (Hb a Hak). cbn in Ha, Hb. apply Hties; [left|by right|].
    rewrite (antisym a b) in Hb. destruct (compare a b); cbn in *; [done|by destruct Hb|by destruct Ha]. }
  f_equal. apply IH; [|done|by apply Permutation_cons_inv in Hp].
  intros x y Hx Hy. apply Hties; by right.
Qed.
Lemma SortFunc_unique l k : (forall a b, a ∈ l -> b ∈ l -> compare a b = Eq -> a = b) ->
  StronglySorted le k -> l ≡ₚ k -> SortFunc compare l = k.
Proof using antisym trans.
  intros Hties Hk Hp. apply sorted_unique; [|apply SortFunc_sorted|done|by rewrite SortFunc_Permutation].
  intros a b. rewrite !SortFunc_Permutation. apply Hties.
Qed.
End sort.

(** Comparators by several keys: the next decides ties. *)
Definition then_by (c d : comparison) : comparison := match c with Eq => d | _ => c end.
Lemma then_by_opp c d : CompOpp (then_by c d) = then_by (CompOpp c) (CompOpp d).
Proof. by destruct c. Qed.
Lemma then_by_Eq c d : then_by c d = Eq <-> c = Eq /\ d = Eq.
Proof. destruct c; naive_solver. Qed.

(** ** Slices of slices *)

Section concat.
Context {A : Type}.
Lemma elem_of_concat (x : A) ls : x ∈ concat ls <-> exists l, l ∈ ls /\ x ∈ l.
Proof.
  induction ls as [|l ls IH]; cbn.
  - split; [by intros ?%not_elem_of_nil|by intros (? & ?%not_elem_of_nil & _)].
  - rewrite elem_of_app, IH. setoid_rewrite elem_of_cons. naive_solver.
Qed.
Lemma concat_fmap {B} (f : A -> B) (ls : list (list A)) : (f <$> concat ls : list B) = concat (list_fmap _ _ (list_fmap _ _ f) ls).
Proof. induction ls as [|l ls IH]; cbn; [done|]. by rewrite fmap_app, IH. Qed.
Lemma concat_filter (P : A -> Prop) `{!forall x, Decision (P x)} (ls : list (list A)) :
  filter P (concat ls) = concat (list_fmap _ _ (fun l => filter P l) ls).
Proof. induction ls as [|l ls IH]; cbn; [done|]. by rewrite filter_app, IH. Qed.
Lemma concat_Permutation (ls ks : list (list A)) : Forall2 Permutation ls ks -> concat ls ≡ₚ concat ks.
Proof. induction 1 as [|l k ls ks Hl Hls IH]; cbn; [done|]. by rewrite Hl, IH. Qed.
End concat.
