(* ===== verification/Heap.v ===== *)
(** * Binary heaps (container/heap)

    The package of the standard library that the merge of the storage engine
    uses: a slice in heap order, [Push] and [Pop] with their sift loops. *)

From S2P Require Import Prelude.

Module heap.

Section heap.
Context {A : Type} (less : A -> A -> bool).

(** [h.Less(i, j)] and [h.Swap(i, j)] of a slice; out of range panics, which
    the loops never do. *)
Definition Less (h : list A) (i j : nat) : bool :=
  match h !! i, h !! j with Some x, Some y => less x y | _, _ => false end.
Definition Swap (h : list A) (i j : nat) : list A :=
  match h !! i, h !! j with Some x, Some y => <[i:=y]> (<[j:=x]> h) | _, _ => h end.

Definition parent (j : nat) : nat := ((j - 1) / 2)%nat.
Fixpoint up (fuel : nat) (h : list A) (j : nat) : list A :=
  match fuel with
  | O => h
  | S fuel' =>
      let i := parent j in
      if Nat.eqb i j || negb (Less h j i) then h else up fuel' (Swap h i j) i
  end.
(** The child the loop of [down] looks at. *)
Definition child (h : list A) (i n : nat) : nat :=
  let j1 := (2 * i + 1)%nat in
  let j2 := (j1 + 1)%nat in
  if Nat.ltb j2 n && Less h j2 j1 then j2 else j1.
Fixpoint down (fuel : nat) (h : list A) (i n : nat) : list A :=
  match fuel with
  | O => h
  | S fuel' =>
      if Nat.leb n (2 * i + 1) then h
      else
        let j := child h i n in
        if negb (Less h j i) then h else down fuel' (Swap h i j) j n
  end.

Definition Push (x : A) (h : list A) : list A :=
  let h := h ++ [x] in up (length h) h (length h - 1).
(** [None] is the panic of an empty heap. *)
Definition Pop (h : list A) : option (A * list A) :=
  let n := (length h - 1)%nat in
  let h := down (length h) (Swap h 0 n) 0 n in
  x ← h !! n; Some (x, take n h).
End heap.

(** ** Heap order *)

Section proofs.
Context {A : Type} (less : A -> A -> bool).
Definition le (x y : A) : Prop := less y x = false.
Context (le_trans : forall x y z, le x y -> le y z -> le x z).
Context (less_le : forall x y, less x y = true -> le x y).

Lemma le_refl x : le x x.
Proof. destruct (less x x) eqn:He; [by apply less_le|done]. Qed.
Lemma Swap_lookup (h : list A) i j k x y : h !! i = Some x -> h !! j = Some y -> Swap h i j !! k = if decide (k = i) then Some y else if decide (k = j) then Some x else h !! k.
Proof.
  intros Hi Hj. unfold Swap. rewrite Hi, Hj. apply lookup_lt_Some in Hi, Hj. destruct (decide (k = i)) as [->|Hk].
  - rewrite list_lookup_insert_eq; [done|]. by rewrite length_insert.
  - rewrite list_lookup_insert_ne by done. destruct (decide (k = j)) as [->|Hk']; [by rewrite list_lookup_insert_eq|by rewrite list_lookup_insert_ne].
Qed.
Lemma Swap_length (h : list A) i j : length (Swap h i j) = length h.
Proof. unfold Swap. repeat case_match; by rewrite ?length_insert. Qed.
Lemma Swap_perm (h : list A) i j : Swap h i j ≡ₚ h.
Proof.
  destruct (h !! i) as [x|] eqn:Hi; [|unfold Swap; by rewrite Hi]. destruct (h !! j) as [y|] eqn:Hj; [|unfold Swap; by rewrite Hi, Hj].
  apply Permutation_inj. rewrite Swap_length. split; [done|]. exists (fun k => if decide (k = i) then j else if decide (k = j) then i else k).
  split.
  - intros a b. repeat case_decide; congruence.
  - intros k. rewrite (Swap_lookup h i j k x y) by done. repeat case_decide; congruence.
Qed.
Lemma Less_spec h i j x y : h !! i = Some x -> h !! j = Some y -> Less less h i j = less x y.
Proof. intros Hi Hj. unfold Less. by rewrite Hi, Hj. Qed.

(** The element at [k] is not below its parent. *)
Definition above (h : list A) (k : nat) : Prop := forall x y, h !! parent k = Some x -> h !! k = Some y -> le x y.
Definition heap_ok (n : nat) (h : list A) : Prop := forall k, (0 < k < n)%nat -> above h k.
(** The order fails at most between [j] and its parent, and the parent of [j]
    is below the children of [j]. *)
Definition up_ok (h : list A) (j : nat) : Prop :=
  (forall k, (0 < k)%nat -> k <> j -> above h k) /\
  forall k x y, (0 < j)%nat -> (0 < k)%nat -> parent k = j -> h !! parent j = Some x -> h !! k = Some y -> le x y.
(** The order of the first [n] fails at most between [i] and its children. *)
Definition down_ok (n : nat) (h : list A) (i : nat) : Prop :=
  (forall k, (0 < k < n)%nat -> parent k <> i -> above h k) /\
  forall k x y, (0 < i)%nat -> (0 < k < n)%nat -> parent k = i -> h !! parent i = Some x -> h !! k = Some y -> le x y.

Lemma parent_lt k : (0 < k)%nat -> (parent k < k)%nat.
Proof. intros. unfold parent. apply Nat.Div0.div_lt_upper_bound. lia. Qed.
Lemma parent_child k i : (0 < k)%nat -> parent k = i <-> (k = 2 * i + 1 \/ k = 2 * i + 2)%nat.
Proof.
  intros Hk. unfold parent. pose proof (Nat.div_mod_eq (k - 1) 2). pose proof (Nat.mod_upper_bound (k - 1) 2). split; lia.
Qed.

Lemma up_step h j x y : up_ok h j -> (0 < j)%nat -> h !! parent j = Some x -> h !! j = Some y -> less y x = true -> up_ok (Swap h (parent j) j) (parent j).
Proof.
  intros [H1 H2] Hj Hx Hy Hl. pose proof (parent_lt j Hj). apply less_le in Hl. set (i := parent j) in *. split.
  - intros k Hk Hki a b. pose proof (parent_lt k Hk). rewrite !(Swap_lookup h i j _ x y) by done. rewrite (decide_False (P := k = i)) by done.
    destruct (decide (k = j)) as [->|Hkj].
    + change (parent j) with i. rewrite decide_True by done. by intros [= <-] [= <-].
    + destruct (decide (parent k = i)) as [Hp|Hp]; [intros [= <-] Hb|destruct (decide (parent k = j)) as [Hp'|Hp']; [intros [= <-] Hb|]].
      * apply (le_trans _ x); [done|]. apply (H1 k Hk Hkj); [by rewrite Hp|done].
      * by apply (H2 k x b).
      * by apply (H1 k).
  - intros k a b Hi Hk Hp. pose proof (parent_lt i Hi). rewrite !(Swap_lookup h i j _ x y) by done. rewrite (decide_False (P := parent i = i)), (decide_False (P := parent i = j)) by lia.
    assert (k <> i) by (intros ->; lia). rewrite (decide_False (P := k = i)) by done. intros Ha.
    assert (le a x) as Hax by (apply (H1 i); [done|lia|done|done]). destruct (decide (k = j)) as [->|Hkj]; [by intros [= <-]|].
    intros Hb. apply (le_trans _ x); [done|]. apply (H1 k); [done|done|by rewrite Hp|done].
Qed.
Lemma up_spec fuel : forall h j, (j < fuel)%nat -> (j < length h)%nat -> up_ok h j -> up less fuel h j ≡ₚ h /\ heap_ok (length h) (up less fuel h j).
Proof.
  induction fuel as [|fuel IH]; intros h j Hf Hj Ho; [lia|]. cbn [up]. destruct (Nat.eqb_spec (parent j) j) as [He|He]; cbn [orb].
  - split; [done|]. intros k Hk. apply Ho; [lia|]. intros ->. pose proof (parent_lt j). lia.
  - assert (0 < j)%nat as H0 by (destruct j; [done|lia]). pose proof (parent_lt j H0). destruct (lookup_lt_is_Some_2 h j Hj) as [y Hy].
    destruct (lookup_lt_is_Some_2 h (parent j)) as [x Hx]; [lia|]. rewrite (Less_spec _ _ _ _ _ Hy Hx). destruct (less y x) eqn:Hl; cbn [negb].
    + pose proof (up_step h j x y Ho H0 Hx Hy Hl) as Ho'. destruct (IH (Swap h (parent j) j) (parent j)) as [Hp Hh]; [lia|rewrite Swap_length; lia|done|].
      rewrite Swap_length in Hh. split; [|done]. by rewrite Hp, Swap_perm.
    + split; [done|]. intros k Hk. destruct (decide (k = j)) as [->|Hkj]; [|apply Ho; [lia|done]]. intros a b Ha Hb.
      assert (a = x) as -> by congruence. by assert (b = y) as -> by congruence.
Qed.
Lemma Push_spec x h : heap_ok (length h) h -> Push less x h ≡ₚ x :: h /\ heap_ok (length (Push less x h)) (Push less x h).
Proof.
  intros Hh. unfold Push. rewrite !length_app. cbn [length]. replace (length h + 1 - 1)%nat with (length h) by lia.
  destruct (up_spec (length h + 1) (h ++ [x]) (length h)) as [Hp Ho]; [lia|rewrite length_app; cbn; lia| |].
  - split.
    + intros k Hk Hn a b. pose proof (parent_lt k Hk). destruct (decide (k < length h)%nat) as [Hl|Hl].
      * rewrite !lookup_app_l by lia. apply Hh. lia.
      * intros _ Hb. apply lookup_lt_Some in Hb. rewrite length_app in Hb. cbn in Hb. lia.
    + intros k a b Hj Hk Hp _ Hb. pose proof (parent_lt k Hk). apply lookup_lt_Some in Hb. rewrite length_app in Hb. cbn in Hb. lia.
  - rewrite (Permutation_length Hp), length_app. cbn [length]. rewrite length_app in Ho. split; [rewrite Hp; symmetry; apply Permutation_cons_append|done].
Qed.

Lemma child_spec h i n : (2 * i + 1 < n)%nat -> (n <= length h)%nat ->
  let j := child less h i n in (j < n)%nat /\ (0 < j)%nat /\ parent j = i /\ (i < j)%nat /\
  forall k x y, (0 < k < n)%nat -> parent k = i -> h !! j = Some x -> h !! k = Some y -> le x y.
Proof.
  intros Hi Hn. unfold child. assert (0 < 2 * i + 1)%nat as H1 by lia. assert (0 < 2 * i + 1 + 1)%nat as H2 by lia.
  destruct (lookup_lt_is_Some_2 h (2 * i + 1)) as [a Ha]; [lia|].
  pose proof le_refl as le_refl.
  destruct (Nat.ltb_spec (2 * i + 1 + 1) n) as [Hlt|Hge]; cbn [andb].
  - destruct (lookup_lt_is_Some_2 h (2 * i + 1 + 1)) as [b Hb]; [lia|]. rewrite (Less_spec _ _ _ _ _ Hb Ha).
    destruct (less b a) eqn:Hl; cbn zeta; (split; [lia|]; split; [lia|]; split; [apply parent_child; lia|]; split; [lia|]);
      intros k x y Hk [-> | ->]%parent_child Hx Hy; try lia; replace (2 * i + 2)%nat with (2 * i + 1 + 1)%nat in * by lia; simplify_eq; auto.
  - cbn zeta. split; [lia|]. split; [lia|]. split; [apply parent_child; lia|]. split; [lia|].
    intros k x y Hk [-> | ->]%parent_child Hx Hy; [|lia..]. simplify_eq. auto.
Qed.
Lemma down_step n h i x y : (n <= length h)%nat -> down_ok n h i -> (2 * i + 1 < n)%nat -> let j := child less h i n in
  h !! i = Some x -> h !! j = Some y -> less y x = true -> down_ok n (Swap h i j) j.
Proof.
  intros Hn [H1 H2] Hi j Hx Hy Hl. destruct (child_spec h i n Hi Hn) as (Hjn & Hj0 & Hjp & Hij & Hmin). fold j in Hjn, Hj0, Hjp, Hij, Hmin.
  apply less_le in Hl. split.
  - intros k Hk Hp a b. pose proof (parent_lt k). rewrite !(Swap_lookup h i j _ x y) by done. rewrite (decide_False (P := parent k = j)) by done.
    destruct (decide (parent k = i)) as [Hpi|Hpi].
    + intros [= <-]. rewrite (decide_False (P := k = i)) by lia. destruct (decide (k = j)) as [->|Hkj]; [by intros [= <-]|]. intros Hb. by apply (Hmin k).
    + destruct (decide (k = i)) as [->|Hki]; [intros Ha Hb; injection Hb as Hb; subst b; apply (H2 j a y); [lia|lia|done|done|done]|]. rewrite (decide_False (P := k = j)) by congruence. by apply (H1 k).
  - intros k a b _ Hk Hp. pose proof (parent_lt k). rewrite !(Swap_lookup h i j _ x y) by done. rewrite (decide_True (P := parent j = i)) by done.
    rewrite (decide_False (P := k = i)), (decide_False (P := k = j)) by lia. intros [= <-] Hb. apply (H1 k); [done|lia|by rewrite Hp|done].
Qed.
Lemma down_spec fuel : forall n h i, (n <= length h)%nat -> (n < fuel + i)%nat -> (i <= n)%nat -> down_ok n h i ->
  down less fuel h i n ≡ₚ h /\ heap_ok n (down less fuel h i n) /\ forall k, (n <= k)%nat -> down less fuel h i n !! k = h !! k.
Proof.
  induction fuel as [|fuel IH]; intros n h i Hn Hf Hi Ho; [lia|]. cbn [down]. destruct (Nat.leb_spec n (2 * i + 1)) as [Hle|Hgt].
  - split; [done|]. split; [|done]. intros k Hk. apply Ho; [done|]. intros Hp%parent_child; lia.
  - destruct (child_spec h i n Hgt Hn) as (Hjn & Hj0 & Hjp & Hij & Hmin). set (j := child less h i n) in *.
    destruct (lookup_lt_is_Some_2 h i) as [x Hx]; [lia|]. destruct (lookup_lt_is_Some_2 h j) as [y Hy]; [lia|].
    rewrite (Less_spec _ _ _ _ _ Hy Hx). destruct (less y x) eqn:Hl; cbn [negb].
    + pose proof (down_step n h i x y Hn Ho Hgt Hx Hy Hl) as Ho'. fold j in Ho'.
      destruct (IH n (Swap h i j) j) as (Hp & Hh & Hk); [by rewrite Swap_length|lia|lia|done|]. split; [by rewrite Hp, Swap_perm|].
      split; [done|]. intros k Hnk. rewrite Hk, (Swap_lookup h i j k x y) by done. by rewrite !decide_False by lia.
    + split; [done|]. split; [|done]. intros k Hk. destruct (decide (parent k = i)) as [Hpk|Hpk]; [|by apply Ho]. intros a b Ha Hb.
      apply (le_trans _ y); [|by apply (Hmin k)]. rewrite Hpk in Ha. by assert (a = x) as -> by congruence.
Qed.

Lemma root_least n h x : heap_ok n h -> h !! 0%nat = Some x -> forall k y, (k < n)%nat -> h !! k = Some y -> le x y.
Proof.
  intros Hh Hx k. pose proof le_refl as Hr.
  induction k as [k IH] using lt_wf_ind. intros y Hk Hy. destruct (decide (k = 0)%nat) as [->|H0]; [by assert (y = x) as -> by congruence|].
  pose proof (parent_lt k). destruct (lookup_lt_is_Some_2 h (parent k)) as [z Hz]; [apply lookup_lt_Some in Hy; lia|].
  apply (le_trans _ z); [apply (IH (parent k)); [lia|lia|done]|]. apply (Hh k); [lia|done|done].
Qed.
(** [Pop] removes a least element. *)
Lemma Pop_spec h : heap_ok (length h) h -> h <> [] ->
  exists x h', Pop less h = Some (x, h') /\ h ≡ₚ x :: h' /\ heap_ok (length h') h' /\ Forall (le x) h.
Proof.
  intros Hh Hne. unfold Pop. assert (0 < length h)%nat as Hl by (destruct h; [done|cbn; lia]). set (n := (length h - 1)%nat).
  destruct (lookup_lt_is_Some_2 h 0 Hl) as [x Hx]. destruct (lookup_lt_is_Some_2 h n) as [y Hy]; [lia|].
  destruct (down_spec (length h) n (Swap h 0 n) 0) as (Hp & Ho & Hk); [rewrite Swap_length; lia|lia|lia| |].
  - split; [|intros; lia]. intros k Hk Hp a b. rewrite !(Swap_lookup h 0 n _ x y) by done. pose proof (parent_lt k).
    rewrite !decide_False by lia. apply Hh. lia.
  - set (d := down less (length h) (Swap h 0 n) 0 n) in *. assert (length d = length h) as Hd by (rewrite (Permutation_length Hp); apply Swap_length).
    assert (d !! n = Some x) as Hdn.
    { rewrite Hk, (Swap_lookup h 0 n n x y) by done. destruct (decide (n = 0)%nat) as [E|]; [rewrite E in Hy; congruence|by rewrite decide_True]. }
    cbn zeta. rewrite Hdn. cbn [mbind option_bind]. exists x, (take n d). split; [done|].
    rewrite length_take, Hd. split; [|split].
    + rewrite <- (Swap_perm h 0 n), <- Hp. rewrite <- (take_drop n d) at 1. rewrite (drop_S d x n Hdn), drop_ge by lia.
      symmetry. apply Permutation_cons_append.
    + intros k Hkn a b. pose proof (parent_lt k). rewrite !lookup_take_lt by lia. apply Ho. lia.
    + apply Forall_lookup_2. intros k z Hz. apply (root_least (length h) h x Hh Hx k z); [by apply lookup_lt_Some in Hz|done].
Qed.
End proofs.
End heap.
