(* ===== verification/Varint.v ===== *)
(** * LEB128 variable-length integers ([encoding/binary] Uvarint)

    The unsigned varint codec the storage formats use, as the Go standard
    library writes it: [binary.AppendUvarint] / [binary.PutUvarint] and
    [binary.Uvarint] with its two failure codes (0 for a truncated buffer,
    a negative count for a value over 64 bits). *)

From S2P Require Import Prelude.

(** [binary.MaxVarintLen64] *)
Definition MaxVarintLen64 : Z := 10.

(** The loop [for x >= 0x80 { append(byte(x)|0x80); x >>= 7 }; append(byte(x))].
    Nine continuation bytes are enough for any [uint64]. *)
Fixpoint put_uvarint_loop (fuel : nat) (x : Z) : bytes :=
  match fuel with
  | O => [byte.of_Z x]
  | S f =>
      if 128 <=? x
      then byte.of_Z (Z.lor x 128) :: put_uvarint_loop f (Z.shiftr x 7)
      else [byte.of_Z x]
  end.
Definition put_uvarint (x : Z) : bytes := put_uvarint_loop 9 x.

(** [uvarintLen] of storage/batch.go *)
Definition uvarint_len (x : Z) : Z := len (put_uvarint x).

(** The loop of [binary.Uvarint]: index [i], accumulator [x], shift [s]. *)
Fixpoint uvarint_loop (buf : bytes) (i x s : Z) : Z * Z :=
  match buf with
  | [] => (0, 0)
  | b :: buf' =>
      let b := byte.unsigned b in
      if i =? MaxVarintLen64 then (0, - (i + 1))
      else if b <? 128 then
        if (i =? MaxVarintLen64 - 1) && (1 <? b) then (0, - (i + 1))
        else (Z.lor x (u64 (Z.shiftl b s)), i + 1)
      else uvarint_loop buf' (i + 1) (Z.lor x (u64 (Z.shiftl (Z.land b 127) s))) (s + 7)
  end.
Definition uvarint (buf : bytes) : Z * Z := uvarint_loop buf 0 0 0.

Example uvarint_300 : put_uvarint 300 = [Byte.xac; Byte.x02].
Proof. reflexivity. Qed.
Example uvarint_max :
  uvarint (put_uvarint MaxUint64) = (MaxUint64, 10).
Proof. reflexivity. Qed.
Example uvarint_overflow :
  uvarint [Byte.xff;Byte.xff;Byte.xff;Byte.xff;Byte.xff;Byte.xff;Byte.xff;Byte.xff;Byte.xff;Byte.x02]
  = (0, -10).
Proof. reflexivity. Qed.

(** ** Arithmetic of the 7-bit groups *)

Lemma land_127 b : Z.land b 127 = b mod 128.
Proof. change 127 with (Z.ones 7). by rewrite Z.land_ones. Qed.

Lemma shiftr_7 x : Z.shiftr x 7 = x / 128.
Proof. by rewrite Z.shiftr_div_pow2. Qed.

Lemma unsigned_byte_small z : 0 <= z < 256 -> byte.unsigned (byte.of_Z z) = z.
Proof.
  intros. rewrite byte.unsigned_of_Z. unfold byte.wrap. by apply Z.mod_small.
Qed.

Lemma unsigned_continuation x :
  0 <= x -> byte.unsigned (byte.of_Z (Z.lor x 128)) = 128 + x mod 128.
Proof.
  intros. rewrite byte.unsigned_of_Z. unfold byte.wrap.
  transitivity (Z.lor (x mod 2 ^ 7) (Z.shiftl 1 7)).
  - apply Z.bits_inj'. intros n Hn.
    rewrite <- !Z.land_ones, !Z.lor_spec, !Z.land_spec, !Z.testbit_ones_nonneg by lia.
    change 128 with (2 ^ 7). change (Z.shiftl 1 7) with (2 ^ 7).
    rewrite Z.lor_spec, Z.pow2_bits_eqb by lia.
    destruct (Z.eqb_spec 7 n); subst; [cbn; by rewrite !orb_true_r|].
    destruct (Z.ltb_spec n 8), (Z.ltb_spec n 7); try lia;
      by rewrite ?andb_true_r, ?andb_false_r, ?orb_false_r.
  - rewrite lor_disjoint_shift by (try apply Z.mod_pos_bound; lia).
    change (2 ^ 7) with 128. lia.
Qed.

(** ** The codec is exact and the encoding is unique *)

Lemma uvarint_put_loop f i y x rest :
  Z.of_nat f = 9 - i -> 0 <= i -> 0 <= y -> 0 <= x < 2 ^ (7 * i) ->
  x + y * 2 ^ (7 * i) < 2 ^ 64 ->
  uvarint_loop (put_uvarint_loop f y ++ rest) i x (7 * i)
  = (x + y * 2 ^ (7 * i), i + len (put_uvarint_loop f y)).
Proof.
  revert i y x. induction f as [|f IH]; intros i y x Hf Hi Hy Hx Hv.
  - assert (i = 9) as -> by lia.
    assert (y = 0 \/ y = 1) as Hy' by (change (2 ^ (7 * 9)) with (2 ^ 63) in *; lia).
    cbn [put_uvarint_loop app uvarint_loop].
    rewrite unsigned_byte_small by lia. unfold MaxVarintLen64.
    rewrite (proj2 (Z.ltb_lt y 128)), (proj2 (Z.ltb_ge 1 y)) by lia. cbn [Z.eqb andb].
    rewrite u64_id; [by rewrite lor_disjoint_shift by lia|].
    unfold is_u64. destruct Hy' as [-> | ->]; by cbn.
  - assert (0 < 2 ^ (7 * i)) as Hpow by (apply Z.pow_pos_nonneg; lia).
    assert (2 ^ (7 * (i + 1)) = 128 * 2 ^ (7 * i)) as Hpow'.
    { replace (7 * (i + 1)) with (7 + 7 * i) by lia. by rewrite Z.pow_add_r by lia. }
    assert (forall b, 0 <= b <= y -> Z.lor x (u64 (Z.shiftl b (7 * i))) = x + b * 2 ^ (7 * i)) as Hlor.
    { intros b Hb. rewrite u64_id; [by apply lor_disjoint_shift; lia|].
      rewrite Z.shiftl_mul_pow2 by lia. unfold is_u64. nia. }
    cbn [put_uvarint_loop]. destruct (Z.leb_spec 128 y) as [Hge|Hlt].
    + cbn [app uvarint_loop]. rewrite unsigned_continuation, land_127 by lia.
      unfold MaxVarintLen64. rewrite (proj2 (Z.eqb_neq i 10)) by lia.
      pose proof (Z.mod_pos_bound y 128 eq_refl).
      pose proof (Z.div_mod y 128 ltac:(done)) as Hdm.
      rewrite (proj2 (Z.ltb_ge _ 128)) by lia.
      replace ((128 + y mod 128) mod 128) with (y mod 128)
        by (rewrite Z.add_mod, Z.mod_same, Z.add_0_l, !Z.mod_mod by done; done).
      rewrite Hlor by lia. replace (7 * i + 7) with (7 * (i + 1)) by lia.
      rewrite shiftr_7. assert (0 <= y / 128) by (apply Z.div_pos; lia).
      assert (0 <= x + y mod 128 * 2 ^ (7 * i) < 2 ^ (7 * (i + 1))) by nia.
      assert (x + y mod 128 * 2 ^ (7 * i) + y / 128 * 2 ^ (7 * (i + 1))
              = x + y * 2 ^ (7 * i)) as Heq by (rewrite Hpow'; nia).
      rewrite IH by lia. rewrite Heq, len_cons. f_equal. lia.
    + cbn [app uvarint_loop]. rewrite unsigned_byte_small by lia.
      unfold MaxVarintLen64. rewrite (proj2 (Z.eqb_neq i 10)) by lia.
      rewrite (proj2 (Z.ltb_lt y 128)), (proj2 (Z.eqb_neq i _)) by lia. cbn [andb].
      by rewrite Hlor by lia.
Qed.

Lemma uvarint_put x rest :
  is_u64 x -> uvarint (put_uvarint x ++ rest) = (x, uvarint_len x).
Proof.
  intros Hx. unfold uvarint, put_uvarint.
  pose proof (uvarint_put_loop 9 0 x 0 rest) as H.
  change (7 * 0) with 0 in H. change (2 ^ 0) with 1 in H.
  unfold is_u64 in Hx. rewrite H by lia. rewrite Z.mul_1_r. done.
Qed.

Lemma put_uvarint_loop_length f x : (1 <= length (put_uvarint_loop f x) <= S f)%nat.
Proof.
  revert x. induction f as [|f IH]; intros x; cbn; [lia|].
  destruct (128 <=? x); cbn; [specialize (IH (Z.shiftr x 7))|]; lia.
Qed.
Lemma uvarint_len_range x : 1 <= uvarint_len x <= MaxVarintLen64.
Proof. pose proof (put_uvarint_loop_length 9 x). unfold uvarint_len, MaxVarintLen64, len, put_uvarint. lia. Qed.

(** What a successful decode read: [n] bytes denoting [y]; when the encoder
    would use as many bytes for [y], they are the encoder's bytes. *)
Lemma uvarint_loop_inv buf f i x v w :
  Z.of_nat f = 9 - i -> 0 <= i -> 0 <= x < 2 ^ (7 * i) ->
  uvarint_loop buf i x (7 * i) = (v, w) -> 0 < w ->
  exists y n, (1 <= n <= length buf)%nat /\ 0 <= y /\ v = x + y * 2 ^ (7 * i) /\ v < 2 ^ 64 /\
    w = i + Z.of_nat n /\
    (length (put_uvarint_loop f y) = n -> take n buf = put_uvarint_loop f y).
Proof.
  revert f i x v w. induction buf as [|b buf IH]; intros f i x v w Hf Hi Hx Hrun Hw;
    cbn [uvarint_loop] in Hrun; [simplify_eq; lia|].
  unfold MaxVarintLen64 in Hrun. rewrite (proj2 (Z.eqb_neq i 10)) in Hrun by lia.
  pose proof (byte.unsigned_range b) as Hb. change (2 ^ 8) with 256 in Hb.
  assert (0 < 2 ^ (7 * i)) as Hpow by (apply Z.pow_pos_nonneg; lia).
  assert (2 ^ (7 * i) <= 2 ^ 63) as Hpow63 by (apply Z.pow_le_mono_r; lia).
  assert (i < 9 -> 2 ^ (7 * i) <= 2 ^ 56) as Hpow56 by (intros; apply Z.pow_le_mono_r; lia).
  assert (forall c, 0 <= c < 128 -> (i = 9 -> c <= 1) ->
    Z.lor x (u64 (Z.shiftl c (7 * i))) = x + c * 2 ^ (7 * i) /\ x + c * 2 ^ (7 * i) < 2 ^ 64) as Hlor.
  { intros c Hc H9. destruct (decide (i = 9)) as [->|].
    - change (2 ^ (7 * 9)) with (2 ^ 63) in *. specialize (H9 eq_refl).
      rewrite u64_id; [rewrite lor_disjoint_shift by (cbn; lia); change (2 ^ (7 * 9)) with (2 ^ 63); lia|].
      rewrite Z.shiftl_mul_pow2 by lia. change (2 ^ (7 * 9)) with (2 ^ 63). unfold is_u64. lia.
    - rewrite u64_id; [rewrite lor_disjoint_shift by lia|
        rewrite Z.shiftl_mul_pow2 by lia; unfold is_u64]; nia. }
  destruct (Z.ltb_spec (byte.unsigned b) 128) as [Hlt|Hge].
  - exists (byte.unsigned b), 1%nat. cbn [length].
    change (10 - 1) with 9 in Hrun.
    destruct (Z.eqb_spec i 9), (Z.ltb_spec 1 (byte.unsigned b)); cbn [andb] in Hrun;
      injection Hrun as <- <-; try lia;
      (destruct (Hlor (byte.unsigned b)) as [-> ?]; [lia|lia|]);
      (split_and!; [lia|lia|lia|done|lia|lia|]); intros _; cbn [take];
      (destruct f; cbn [put_uvarint_loop]; [|rewrite (proj2 (Z.leb_gt 128 _)) by lia]);
      by rewrite byte.of_Z_unsigned.
  - rewrite land_127 in Hrun. destruct f as [|f].
    { exfalso. assert (i = 9) as -> by lia.
      destruct buf as [|b' buf]; cbn [uvarint_loop] in Hrun;
        [|change (9 + 1 =? MaxVarintLen64) with true in Hrun; cbv iota in Hrun];
        injection Hrun as <- <-; lia. }
    destruct (Hlor (byte.unsigned b mod 128)) as [Heq Hsmall];
      [pose proof (Z.mod_pos_bound (byte.unsigned b) 128 eq_refl); lia|lia|].
    rewrite Heq in Hrun. replace (7 * i + 7) with (7 * (i + 1)) in Hrun by lia.
    assert (byte.unsigned b mod 128 = byte.unsigned b - 128) as Hmod.
    { symmetry. apply (Z.mod_unique _ _ 1); lia. }
    assert (2 ^ (7 * (i + 1)) = 128 * 2 ^ (7 * i)) as Hpow'.
    { replace (7 * (i + 1)) with (7 + 7 * i) by lia. by rewrite Z.pow_add_r by lia. }
    assert (0 <= x + byte.unsigned b mod 128 * 2 ^ (7 * i) < 2 ^ (7 * (i + 1))) by nia.
    apply (IH f) in Hrun as (y & n & Hn & Hy & -> & Hv & -> & Htake); [|lia..|lia].
    exists (byte.unsigned b mod 128 + 128 * y), (S n).
    split_and!; [cbn; lia|cbn; lia|lia|rewrite Hpow'; lia|done|lia|].
    intros Hlen. cbn [put_uvarint_loop] in Hlen |- *.
    destruct (Z.leb_spec 128 (byte.unsigned b mod 128 + 128 * y)) as [_|?].
    2: { cbn in Hlen. lia. }
    assert (Z.shiftr (byte.unsigned b mod 128 + 128 * y) 7 = y) as Hsh.
    { rewrite shiftr_7. symmetry. apply (Z.div_unique_pos _ _ _ (byte.unsigned b mod 128)); lia. }
    rewrite Hsh in Hlen |- *. cbn [length take] in *. f_equal; [|apply Htake; lia].
    apply byte_unsigned_inj. rewrite unsigned_continuation by lia.
    rewrite Z.add_comm, (Z.mul_comm 128), Z.mod_add, Z.mod_mod by done. lia.
Qed.

(** A decoded varint whose width is the canonical one is byte for byte the
    encoder's output. *)
Lemma uvarint_canonical buf v w :
  uvarint buf = (v, w) -> 0 < w ->
  is_u64 v /\ w <= len buf /\
  (w = uvarint_len v -> take (Z.to_nat w) buf = put_uvarint v).
Proof.
  intros Hrun Hw. unfold uvarint in Hrun.
  apply (uvarint_loop_inv buf 9 0 0) in Hrun as (y & n & Hn & Hy & -> & Hv & -> & Htake);
    [|cbn; lia..].
  change (2 ^ (7 * 0)) with 1 in *. rewrite Z.mul_1_r, !Z.add_0_l in *.
  unfold is_u64, len in *. split_and!; [lia|lia|lia|].
  unfold uvarint_len, put_uvarint, len. intros Heq.
  replace (Z.to_nat (Z.of_nat n)) with n by lia. apply Htake. lia.
Qed.

Arguments put_uvarint : simpl never.
Arguments uvarint : simpl never.
Arguments uvarint_len : simpl never.
