(* ===== verification/InternalKey.v ===== *)
(** * Internal keys (storage/internal_key.go)

    The key every sorted storage component uses: its encoding
    [user_key || BE64(^sequence) || kind], and the one ordering
    [CompareInternal] (user key ascending, sequence descending, kind
    ascending).  The theorems show that the encoding is a bijection onto
    the strings the decoder accepts, that the comparator is a strict total
    order, and that on equal user keys it is the order of the encoded
    bytes, which it is not in general. *)

From S2P Require Import Prelude.

(** Sentinel errors of package storage (internal_key.go, errors.go). *)
Inductive storage_error :=
  | ErrInternalKeyTooShort
  | ErrInvalidValueKind
  | ErrInvalidBatch
  | ErrEmptyBatch
  | ErrBatchTooLarge
  | ErrSequenceOverflow
  | errTruncatedLength
  | errOverflowLength
  | errOutOfBoundsLength
  | errNonCanonicalLength.

#[export] Instance storage_error_eq_dec : EqDecision storage_error.
Proof. solve_decision. Defined.

(** [type ValueKind uint8]: any byte; the format uses four of them. *)
Abbreviation ValueKind := byte.
Definition KindDelete : ValueKind := Byte.x00.
Definition KindValue : ValueKind := Byte.x01.
Definition KindTxnAbort : ValueKind := Byte.x02.
Definition KindIntent : ValueKind := Byte.x03.

Definition kind_valid (k : ValueKind) : bool :=
  byte.unsigned k <=? byte.unsigned KindIntent.
Definition CarriesValue (k : ValueKind) : bool :=
  Byte.eqb k KindValue || Byte.eqb k KindIntent.

Record InternalKey := {
  userKey : bytes;
  sequence : Z;
  kind : ValueKind
}.

#[export] Instance InternalKey_eq_dec : EqDecision InternalKey.
Proof. solve_decision. Defined.

Definition internalKeyTrailerLen : Z := 9.

Definition NewInternalKey (userKey : bytes) (sequence : Z) (kind : ValueKind)
    : result (list storage_error) InternalKey :=
  _ ← require (kind_valid kind) [ErrInvalidValueKind];
  Ok {| userKey := userKey; sequence := sequence; kind := kind |}.

Definition DecodeInternalKey (encoded : bytes) : result (list storage_error) InternalKey :=
  _ ← require (internalKeyTrailerLen <=? len encoded) [ErrInternalKeyTooShort];
  let trailer := Z.to_nat (len encoded - internalKeyTrailerLen) in
  let kind := default Byte.x00 (last encoded) in
  _ ← require (kind_valid kind) [ErrInvalidValueKind];
  Ok {| userKey := take trailer encoded;
        sequence := u64_not (be_get (slice trailer (trailer + 8) encoded));
        kind := kind |}.

Definition Encode (k : InternalKey) : bytes :=
  userKey k ++ be_put 8 (u64_not (sequence k)) ++ [kind k].

Definition CompareInternal (a b : InternalKey) : comparison :=
  match bytes_compare (userKey a) (userKey b) with
  | Eq =>
      if sequence b <? sequence a then Lt
      else if sequence a <? sequence b then Gt
      else if byte.unsigned (kind a) <? byte.unsigned (kind b) then Lt
      else if byte.unsigned (kind b) <? byte.unsigned (kind a) then Gt
      else Eq
  | userOrder => userOrder
  end.

(** The values the package's constructors build: a [uint64] sequence and a
    kind of the format. *)
Definition key_wf (k : InternalKey) : Prop :=
  is_u64 (sequence k) /\ kind_valid (kind k) = true.

Lemma NewInternalKey_wf u s k ik :
  is_u64 s -> NewInternalKey u s k = Ok ik -> key_wf ik.
Proof.
  unfold NewInternalKey. rewrite require_bind.
  destruct (kind_valid k) eqn:E; [|done]. intros ? [= <-]. done.
Qed.

Lemma Encode_length k : length (Encode k) = (length (userKey k) + 9)%nat.
Proof. unfold Encode. rewrite !length_app, be_put_length. cbn. lia. Qed.

(** ** Encoding *)

(** Decoding the encoding of a key gives the key back. *)
Lemma key_decode_encode k : key_wf k -> DecodeInternalKey (Encode k) = Ok k.
Proof.
  intros [Hseq Hkind]. unfold DecodeInternalKey, internalKeyTrailerLen, len.
  rewrite Encode_length, require_bind, (proj2 (Z.leb_le _ _)) by lia.
  replace (Z.to_nat _) with (length (userKey k)) by lia.
  unfold Encode. rewrite app_assoc, last_snoc, <- app_assoc.
  cbn [from_option id]. rewrite require_bind, Hkind. unfold slice.
  rewrite take_app_length, drop_app_length.
  replace (length (userKey k) + 8 - length (userKey k))%nat with 8%nat by lia.
  rewrite take_app_length' by (by rewrite be_put_length).
  rewrite be_get_put64 by apply u64_range.
  rewrite u64_not_involutive by done. by destruct k.
Qed.

(** The encoding is canonical. *)
Lemma key_encode_decode b k : DecodeInternalKey b = Ok k -> key_wf k /\ Encode k = b.
Proof.
  unfold DecodeInternalKey, internalKeyTrailerLen. rewrite require_bind.
  destruct (Z.leb_spec 9 (len b)) as [Hlen|]; [|done].
  replace (Z.to_nat (len b - 9)) with (length b - 9)%nat by (unfold len in *; lia).
  assert (9 <= length b)%nat as Hlen' by (unfold len in *; lia). clear Hlen.
  destruct b as [|x b] using rev_ind; [cbn in Hlen'; lia|]. clear IHb.
  rewrite length_app in *. cbn [length] in *.
  replace (length b + 1 - 9)%nat with (length b - 8)%nat by lia.
  rewrite last_snoc. cbn [from_option id].
  rewrite require_bind. destruct (kind_valid x) eqn:Hx; [|done]. intros [= <-].
  unfold slice. replace (length b - 8 + 8 - (length b - 8))%nat with 8%nat by lia.
  rewrite take_app_le, drop_app_le by lia.
  assert (length (drop (length b - 8) b) = 8%nat) as H8 by (rewrite length_drop; lia).
  rewrite take_app_le, (take_ge (drop _ _)) by lia.
  assert (is_u64 (be_get (drop (length b - 8) b))) by (by apply be_get_u64).
  split; [split; [apply u64_range|done]|]. unfold Encode; cbn.
  rewrite u64_not_involutive, be_put_get by done.
  by rewrite app_assoc, take_drop.
Qed.

(** C28. [DecodeInternalKey] accepts exactly the encodings of well-formed keys,
    whatever bytes the user key contains, and inverts [Encode] on them. *)
Theorem internal_key_codec b k : DecodeInternalKey b = Ok k <-> key_wf k /\ Encode k = b.
Proof. split; [apply key_encode_decode|]. intros [Hwf <-]. by apply key_decode_encode. Qed.

(** ** Ordering *)

Lemma compare_refl a : CompareInternal a a = Eq.
Proof.
  unfold CompareInternal. by rewrite bytes_compare_refl, !Z.ltb_irrefl.
Qed.

Lemma compare_eq a b : CompareInternal a b = Eq <-> a = b.
Proof.
  split; [|intros ->; apply compare_refl].
  unfold CompareInternal. destruct (bytes_compare _ _) eqn:Eu; try done.
  apply bytes_compare_eq in Eu. repeat case_match; try done. intros _.
  destruct a as [ua sa ka], b as [ub sb kb]; cbn in *.
  f_equal; [done|lia|]. apply byte_unsigned_inj. lia.
Qed.

Lemma compare_antisym a b : CompareInternal b a = CompOpp (CompareInternal a b).
Proof.
  unfold CompareInternal. rewrite (bytes_compare_antisym (userKey a)).
  destruct (bytes_compare (userKey a) (userKey b)); cbn; try done.
  repeat case_match; try done; lia.
Qed.

Lemma compare_lt_trans a b c :
  CompareInternal a b = Lt -> CompareInternal b c = Lt -> CompareInternal a c = Lt.
Proof.
  unfold CompareInternal. intros Hab Hbc.
  destruct (bytes_compare (userKey a) (userKey b)) eqn:Eab;
    destruct (bytes_compare (userKey b) (userKey c)) eqn:Ebc; try done.
  - apply bytes_compare_eq in Eab as ->, Ebc as ->. rewrite bytes_compare_refl.
    repeat case_match; try done; lia.
  - apply bytes_compare_eq in Eab as ->. by rewrite Ebc.
  - apply bytes_compare_eq in Ebc as <-. by rewrite Eab.
  - by rewrite (bytes_compare_lt_trans _ _ _ Eab Ebc).
Qed.

(** The comparator as relations, for the sorted structures built on it. *)
Definition key_lt (a b : InternalKey) : Prop := CompareInternal a b = Lt.
Definition key_le (a b : InternalKey) : Prop := CompareInternal a b <> Gt.

#[export] Instance key_lt_dec : RelDecision key_lt.
Proof. intros a b. unfold key_lt. solve_decision. Defined.
#[export] Instance key_le_dec : RelDecision key_le.
Proof. intros a b. unfold key_le. solve_decision. Defined.
#[export] Instance key_lt_strict : StrictOrder key_lt.
Proof.
  split; [|exact compare_lt_trans].
  intros a H. unfold key_lt in H. by rewrite compare_refl in H.
Qed.

Lemma key_le_lt_eq a b : key_le a b <-> key_lt a b \/ a = b.
Proof.
  unfold key_le, key_lt. rewrite <- compare_eq.
  destruct (CompareInternal a b); naive_solver.
Qed.
#[export] Instance key_le_total : TotalOrder key_le.
Proof.
  split; [split; [split|]|].
  - intros a. unfold key_le. by rewrite compare_refl.
  - intros a b c. rewrite !key_le_lt_eq. intros [H1| ->] [H2| ->]; auto.
    left. by transitivity b.
  - intros a b. rewrite !key_le_lt_eq. intros [H1| ->] [H2|H2]; auto.
    exfalso. eapply (irreflexivity key_lt a). by transitivity b.
  - intros a b. unfold key_lt, strict, key_le. rewrite <- compare_eq.
    rewrite (compare_antisym a b). destruct (CompareInternal a b); cbn; naive_solver.
Qed.

Lemma key_lt_not_le a b : key_lt a b <-> ~ key_le b a.
Proof.
  unfold key_lt, key_le. rewrite (compare_antisym a b).
  destruct (CompareInternal a b); cbn; naive_solver.
Qed.

(** [CompareInternal] is one strict total order on internal keys:
    equality of the comparator is equality of keys, swapping the operands
    swaps the sign, and "less" is transitive. *)
Theorem compare_internal_order :
  (forall a b, CompareInternal a b = Eq <-> a = b) /\
  (forall a b, CompareInternal b a = CompOpp (CompareInternal a b)) /\
  (forall a b c, CompareInternal a b = Lt -> CompareInternal b c = Lt ->
     CompareInternal a c = Lt).
Proof.
  split; [exact compare_eq|]. split; [exact compare_antisym|exact compare_lt_trans].
Qed.

(** For equal user keys the encoded bytes compare exactly as the keys
    do, so the complemented big-endian sequence puts the newest version
    first. *)
Theorem encode_order_same_user a b :
  key_wf a -> key_wf b -> userKey a = userKey b ->
  bytes_compare (Encode a) (Encode b) = CompareInternal a b.
Proof.
  intros [Ha _] [Hb _] Hu. unfold Encode, CompareInternal.
  rewrite Hu, bytes_compare_app, bytes_compare_refl.
  rewrite bytes_compare_be by (by rewrite !be_put_length).
  rewrite !be_get_put64, !u64_not_sub by (done || apply u64_range).
  destruct (Z.compare_spec (2 ^ 64 - 1 - sequence a) (2 ^ 64 - 1 - sequence b)) as [H|H|H].
  - rewrite !(proj2 (Z.ltb_ge _ _)) by lia. cbn.
    destruct (Z.compare_spec (byte.unsigned (kind a)) (byte.unsigned (kind b)));
      repeat case_match; try done; lia.
  - by rewrite (proj2 (Z.ltb_lt _ _)) by lia.
  - rewrite (proj2 (Z.ltb_ge _ _)) by lia. by rewrite (proj2 (Z.ltb_lt _ _)) by lia.
Qed.

Lemma encode_order_same_user_witness :
  bytes_compare (Encode {| userKey := [Byte.x61]; sequence := 9; kind := KindValue |})
                (Encode {| userKey := [Byte.x61]; sequence := 8; kind := KindDelete |}) = Lt.
Proof. rewrite encode_order_same_user; by vm_compute. Defined.

(** The encoding is self-parsing but not order-preserving across user keys. *)
Lemma encode_not_order_preserving :
  exists a b, key_wf a /\ key_wf b /\ CompareInternal a b = Lt /\
    bytes_compare (Encode a) (Encode b) = Gt.
Proof.
  exists {| userKey := []; sequence := 0; kind := KindValue |},
    {| userKey := [Byte.x01]; sequence := 0; kind := KindValue |}.
  by vm_compute.
Qed.
