(* ===== verification/Batch.v ===== *)
(** * Write batches (storage/batch.go)

    The payload of one WAL record: a header with the first sequence number
    and the mutation count, then length-prefixed mutations.  The theorems
    show that the decoder inverts the encoder on everything the encoder
    accepts, that it accepts nothing but the encoder's output, and that both
    respect the record-size and sequence bounds. *)

From S2P Require Import Prelude Varint InternalKey.

Definition batchHeaderLen : Z := 12.
(** storage/limits.go *)
Definition MaxRecordSize : Z := Z.shiftl 64 20.

Record Mutation := { mKey : bytes; mValue : bytes; mKind : ValueKind }.
Record WriteBatch := { FirstSequence : Z; Mutations : list Mutation }.

#[export] Instance Mutation_eq_dec : EqDecision Mutation.
Proof. solve_decision. Defined.
#[export] Instance WriteBatch_eq_dec : EqDecision WriteBatch.
Proof. solve_decision. Defined.

(** ** Encoder *)

(** The size pass of [EncodeWriteBatch]: validates every kind and adds up
    the encoded size, starting from the header. *)
Fixpoint batch_size (ms : list Mutation) (size : Z) : result (list storage_error) Z :=
  match ms with
  | [] => Ok size
  | m :: ms' =>
      _ ← require (kind_valid (mKind m)) [ErrInvalidValueKind];
      let keySize := 1 + uvarint_len (len (mKey m)) + len (mKey m) in
      _ ← require (keySize <=? MaxRecordSize - size) [ErrBatchTooLarge];
      let size := size + keySize in
      if CarriesValue (mKind m) then
        let valueSize := uvarint_len (len (mValue m)) + len (mValue m) in
        _ ← require (valueSize <=? MaxRecordSize - size) [ErrBatchTooLarge];
        batch_size ms' (size + valueSize)
      else batch_size ms' size
  end.

(** The body of the append pass. *)
Definition append_mutation (encoded : bytes) (m : Mutation) : bytes :=
  let encoded := encoded ++ [mKind m] in
  let encoded := encoded ++ put_uvarint (len (mKey m)) in
  let encoded := encoded ++ mKey m in
  if CarriesValue (mKind m) then
    let encoded := encoded ++ put_uvarint (len (mValue m)) in
    encoded ++ mValue m
  else encoded.

Definition EncodeWriteBatch (batch : WriteBatch) : result (list storage_error) bytes :=
  let count := len (Mutations batch) in
  _ ← require (negb (count =? 0)) [ErrEmptyBatch];
  _ ← require (count <=? MaxUint32) [ErrBatchTooLarge];
  _ ← require (FirstSequence batch <=? MaxUint64 - (count - 1)) [ErrSequenceOverflow];
  _ ← batch_size (Mutations batch) batchHeaderLen;
  let encoded := le_put 8 (FirstSequence batch) ++ le_put 4 (u32 count) in
  Ok (foldl append_mutation encoded (Mutations batch)).

(** ** Decoder *)

Definition decodeLengthPrefixed (encoded : bytes) (offset : nat)
    : result (list storage_error) (bytes * nat) :=
  let '(length, width) := uvarint (drop offset encoded) in
  if width =? 0 then Err [errTruncatedLength]
  else if width <? 0 then Err [errOverflowLength]
  else if negb (width =? uvarint_len length) then Err [errNonCanonicalLength]
  else
    let start := (offset + Z.to_nat width)%nat in
    let remaining := len encoded - Z.of_nat start in
    if remaining <? length then Err [errOutOfBoundsLength]
    else
      let end_ := (start + Z.to_nat length)%nat in
      Ok (slice start end_ encoded, end_).

(** A wrapped error: [fmt.Errorf("%w: ...: %w", ErrInvalidBatch, err)]. *)
Definition invalid_batch {A} (r : result (list storage_error) A)
    : result (list storage_error) A :=
  match r with Ok a => Ok a | Err e => Err (ErrInvalidBatch :: e) end.

(** [n] iterations of the decode loop from [offset]. *)
Fixpoint decode_mutations (n : nat) (encoded : bytes) (offset : nat) (mutations : list Mutation)
    : result (list storage_error) (list Mutation * nat) :=
  match n with
  | O => Ok (mutations, offset)
  | S n' =>
      match encoded !! offset with
      | None => Err [ErrInvalidBatch]
      | Some kind =>
          _ ← require (kind_valid kind) [ErrInvalidBatch; ErrInvalidValueKind];
          '(key, next) ← invalid_batch (decodeLengthPrefixed encoded (S offset));
          if CarriesValue kind then
            '(value, valueNext) ← invalid_batch (decodeLengthPrefixed encoded next);
            decode_mutations n' encoded valueNext
              (mutations ++ [{| mKey := key; mValue := value; mKind := kind |}])
          else
            decode_mutations n' encoded next
              (mutations ++ [{| mKey := key; mValue := []; mKind := kind |}])
      end
  end.

Definition DecodeWriteBatch (encoded : bytes) : result (list storage_error) WriteBatch :=
  _ ← require (len encoded <=? MaxRecordSize) [ErrBatchTooLarge];
  _ ← require (batchHeaderLen <=? len encoded) [ErrInvalidBatch];
  let first := le_get (slice 0 8 encoded) in
  let count := le_get (slice 8 12 encoded) in
  _ ← require (negb (count =? 0)) [ErrInvalidBatch; ErrEmptyBatch];
  _ ← require (first <=? MaxUint64 - u32 (count - 1)) [ErrInvalidBatch; ErrSequenceOverflow];
  let remainingBytes := len encoded - batchHeaderLen in
  _ ← require (count <=? remainingBytes / 2) [ErrInvalidBatch];
  '(mutations, offset) ← decode_mutations (Z.to_nat count) encoded (Z.to_nat batchHeaderLen) [];
  _ ← require (Nat.eqb offset (length encoded)) [ErrInvalidBatch];
  Ok {| FirstSequence := first; Mutations := mutations |}.

(** The batch the format can carry: a marker kind has no value field. *)
Definition stored_mutation (m : Mutation) : Mutation :=
  {| mKey := mKey m; mValue := if CarriesValue (mKind m) then mValue m else [];
     mKind := mKind m |}.
Definition stored_batch (b : WriteBatch) : WriteBatch :=
  {| FirstSequence := FirstSequence b; Mutations := stored_mutation <$> Mutations b |}.

(** ** The encoder's output *)

Definition field (b : bytes) : bytes := put_uvarint (len b) ++ b.
Arguments field : simpl never.
Definition encode_mutation (m : Mutation) : bytes :=
  mKind m :: field (mKey m) ++ (if CarriesValue (mKind m) then field (mValue m) else []).

Lemma foldl_append_mutation ms enc :
  foldl append_mutation enc ms = enc ++ flat_map encode_mutation ms.
Proof.
  revert enc. induction ms as [|m ms IH]; intros enc; cbn [foldl flat_map]; [by rewrite app_nil_r|].
  rewrite IH. unfold append_mutation, encode_mutation, field.
  destruct (CarriesValue (mKind m)); rewrite <- !app_assoc; cbn; by rewrite <- ?app_assoc, ?app_nil_r.
Qed.

Lemma field_len b : len (field b) = uvarint_len (len b) + len b.
Proof. unfold field. by rewrite len_app. Qed.

Lemma encode_mutation_len m :
  len (encode_mutation m) = 1 + uvarint_len (len (mKey m)) + len (mKey m)
    + (if CarriesValue (mKind m) then uvarint_len (len (mValue m)) + len (mValue m) else 0).
Proof.
  unfold encode_mutation. rewrite len_cons, len_app, field_len.
  destruct (CarriesValue _); rewrite ?field_len, ?len_nil; lia.
Qed.

(** What the size pass guarantees of one mutation. *)
Definition mutation_fits (m : Mutation) : Prop :=
  kind_valid (mKind m) = true /\ len (encode_mutation m) <= MaxRecordSize.

Lemma mutation_fits_u64 m :
  mutation_fits m -> is_u64 (len (mKey m)) /\ (CarriesValue (mKind m) = true -> is_u64 (len (mValue m))).
Proof.
  intros [_ H]. rewrite encode_mutation_len in H. change MaxRecordSize with 67108864 in H.
  pose proof (uvarint_len_range (len (mKey m))). pose proof (uvarint_len_range (len (mValue m))).
  pose proof (len_nonneg (mKey m)). pose proof (len_nonneg (mValue m)). unfold is_u64.
  destruct (CarriesValue (mKind m)); split; intros; try done; lia.
Qed.

Lemma batch_size_ok ms size total :
  0 <= size <= MaxRecordSize ->
  batch_size ms size = Ok total <->
  total = size + len (flat_map encode_mutation ms) /\ total <= MaxRecordSize /\
  Forall (fun m => kind_valid (mKind m) = true) ms.
Proof.
  revert size. induction ms as [|m ms IH]; intros size Hsize; cbn [batch_size flat_map].
  { rewrite len_nil, Z.add_0_r. split; [intros [= <-]; split_and!; auto; lia|intros (-> & _); done]. }
  rewrite !require_bind, len_app, encode_mutation_len.
  pose proof (uvarint_len_range (len (mKey m))). pose proof (uvarint_len_range (len (mValue m))).
  pose proof (len_nonneg (mKey m)). pose proof (len_nonneg (mValue m)).
  pose proof (len_nonneg (flat_map encode_mutation ms)).
  rewrite Forall_cons. destruct (kind_valid (mKind m)); [|split; [done|by intros (_ & _ & [? _])]].
  destruct (Z.leb_spec (1 + uvarint_len (len (mKey m)) + len (mKey m)) (MaxRecordSize - size)) as [Hk|Hk].
  - destruct (CarriesValue (mKind m)).
    + destruct (Z.leb_spec (uvarint_len (len (mValue m)) + len (mValue m))
        (MaxRecordSize - (size + (1 + uvarint_len (len (mKey m)) + len (mKey m))))) as [Hv|Hv].
      * rewrite IH by lia. split; intros (-> & Ha & Hb); split_and!; first [lia | tauto].
      * split; [done|]. intros (-> & Ha & _). lia.
    + rewrite IH by lia. split; intros (-> & Ha & Hb); split_and!; first [lia | tauto].
  - split; [done|]. intros (-> & Ha & _). destruct (CarriesValue (mKind m)); lia.
Qed.

Lemma flat_map_fits ms :
  len (flat_map encode_mutation ms) <= MaxRecordSize ->
  Forall (fun m => kind_valid (mKind m) = true) ms -> Forall mutation_fits ms.
Proof.
  induction 2 as [|m ms Hk Hms IH]; constructor; cbn [flat_map] in *; rewrite len_app in *;
    pose proof (len_nonneg (encode_mutation m)); pose proof (len_nonneg (flat_map encode_mutation ms)).
  - split; [done|lia].
  - apply IH. lia.
Qed.

(** ** One length-prefixed field *)

Lemma decodeLengthPrefixed_field pre b rest :
  is_u64 (len b) ->
  decodeLengthPrefixed (pre ++ field b ++ rest) (length pre)
  = Ok (b, (length pre + length (field b))%nat).
Proof.
  intros Hb. unfold decodeLengthPrefixed, field.
  rewrite drop_app_length, <- app_assoc, uvarint_put by done.
  pose proof (uvarint_len_range (len b)). pose proof (len_nonneg b).
  rewrite (proj2 (Z.eqb_neq _ 0)), (proj2 (Z.ltb_ge _ 0)), Z.eqb_refl by lia. cbn [negb].
  unfold uvarint_len. rewrite !len_to_nat, !length_app. unfold slice.
  rewrite (proj2 (Z.ltb_ge _ _)) by (unfold len; rewrite !length_app; lia).
  f_equal. f_equal; [|lia].
  replace (length pre + length (put_uvarint (len b)) + length b - _)%nat with (length b) by lia.
  rewrite (app_assoc pre), drop_app_length' by (rewrite length_app; lia).
  by rewrite take_app_length.
Qed.

Lemma decodeLengthPrefixed_inv encoded offset b next :
  decodeLengthPrefixed encoded offset = Ok (b, next) -> (offset <= length encoded)%nat ->
  (next <= length encoded)%nat /\ drop offset encoded = field b ++ drop next encoded.
Proof.
  unfold decodeLengthPrefixed. destruct (uvarint (drop offset encoded)) as [n w] eqn:Hu.
  intros Hdec Hoff. destruct (Z.eqb_spec w 0), (Z.ltb_spec w 0); try done.
  destruct (Z.eqb_spec w (uvarint_len n)) as [Hw|]; [cbn [negb] in Hdec|done].
  destruct (uvarint_canonical _ _ _ Hu ltac:(lia)) as (Hn & Hle & Htake).
  specialize (Htake Hw). unfold len in Hle. rewrite length_drop in Hle. unfold is_u64 in Hn.
  destruct (Z.ltb_spec (len encoded - Z.of_nat (offset + Z.to_nat w)) n) as [|Hrem]; [done|].
  injection Hdec as <- <-. unfold len in Hrem. split; [lia|].
  unfold slice, field.
  set (k := Z.to_nat w) in *. set (m := Z.to_nat n) in *.
  replace (offset + k + m - (offset + k))%nat with m by lia.
  assert (length (take m (drop (offset + k) encoded)) = m) as Hlen
    by (rewrite length_take, length_drop; lia).
  unfold len. rewrite Hlen. replace (Z.of_nat m) with n by lia.
  assert (drop (offset + k + m) encoded = drop m (drop k (drop offset encoded))) as ->
    by (rewrite !drop_drop; f_equal; lia).
  assert (drop (offset + k) encoded = drop k (drop offset encoded)) as ->
    by (by rewrite drop_drop).
  by rewrite <- Htake, <- app_assoc, !take_drop.
Qed.

(** ** The mutation loop *)

Lemma decode_mutations_encode ms pre rest acc :
  Forall mutation_fits ms ->
  decode_mutations (length ms) (pre ++ flat_map encode_mutation ms ++ rest) (length pre) acc
  = Ok (acc ++ (stored_mutation <$> ms), (length pre + length (flat_map encode_mutation ms))%nat).
Proof.
  intros Hms. revert pre acc. induction Hms as [|m ms Hm Hms IH]; intros pre acc;
    cbn [length flat_map decode_mutations fmap list_fmap].
  { rewrite app_nil_r. do 2 f_equal. cbn; lia. }
  destruct (mutation_fits_u64 m Hm) as [Hk Hv]. destruct Hm as [Hkind _].
  unfold stored_mutation at 1. unfold encode_mutation.
  set (tail := flat_map _ ms) in *.
  rewrite lookup_app_r, Nat.sub_diag by lia. cbn [app lookup list_lookup].
  rewrite require_bind, Hkind.
  assert (forall vs : bytes,
    pre ++ mKind m :: (field (mKey m) ++ vs) ++ tail ++ rest
    = (pre ++ [mKind m]) ++ field (mKey m) ++ vs ++ tail ++ rest) as Hsplit
    by (intros; by rewrite <- !app_assoc).
  assert (forall vs : bytes, S (length pre) = length (pre ++ [mKind m])) as HS
    by (intros; rewrite length_app; cbn; lia).
  rewrite <- app_assoc, Hsplit, (HS []), decodeLengthPrefixed_field by done. cbn [invalid_batch mbind result_bind].
  destruct (CarriesValue (mKind m)).
  - specialize (Hv eq_refl).
    rewrite (app_assoc (pre ++ _)), <- length_app, decodeLengthPrefixed_field by done.
    cbn [invalid_batch mbind result_bind].
    rewrite app_assoc, <- length_app, IH, <- app_assoc. do 2 f_equal.
    rewrite !length_app. cbn [length]. rewrite !length_app. lia.
  - rewrite app_nil_l, (app_assoc (pre ++ _)), <- length_app, IH, <- app_assoc. do 2 f_equal.
    rewrite !length_app. cbn [length]. rewrite !length_app. cbn. lia.
Qed.

Lemma decode_mutations_inv n encoded offset acc ms final :
  decode_mutations n encoded offset acc = Ok (ms, final) -> (offset <= length encoded)%nat ->
  exists ms', ms = acc ++ ms' /\ length ms' = n /\ (final <= length encoded)%nat /\
    drop offset encoded = flat_map encode_mutation ms' ++ drop final encoded /\
    Forall (fun m => kind_valid (mKind m) = true) ms' /\ stored_mutation <$> ms' = ms'.
Proof.
  revert offset acc. induction n as [|n IH]; intros offset acc Hdec Hoff; cbn in Hdec.
  { injection Hdec as <- <-. exists []. rewrite app_nil_r. split_and!; auto. }
  destruct (encoded !! offset) as [k|] eqn:Hk; [|done].
  rewrite require_bind in Hdec. destruct (kind_valid k) eqn:Hvalid; [|done].
  apply lookup_lt_Some in Hk as Hlt. apply drop_S in Hk.
  destruct (decodeLengthPrefixed encoded (S offset)) as [[key next]|] eqn:Hkey; [|done].
  cbn [invalid_batch mbind result_bind] in Hdec.
  apply decodeLengthPrefixed_inv in Hkey as [Hnext Hdrop]; [|lia].
  destruct (CarriesValue k) eqn:Hcv.
  - destruct (decodeLengthPrefixed encoded next) as [[value vnext]|] eqn:Hval; [|done].
    cbn [invalid_batch mbind result_bind] in Hdec.
    apply decodeLengthPrefixed_inv in Hval as [Hvnext Hvdrop]; [|lia].
    apply IH in Hdec as (ms' & -> & <- & Hfin & Hrest & Hkinds & Hst); [|lia].
    exists ({| mKey := key; mValue := value; mKind := k |} :: ms'). rewrite <- app_assoc. cbn [flat_map]. unfold encode_mutation at 1. cbn.
    rewrite Hcv, Hk, Hdrop, Hvdrop, Hrest, <- !app_assoc. split_and!; [done|done|done|done|by constructor|].
    rewrite Hst. unfold stored_mutation; cbn. by rewrite Hcv.
  - apply IH in Hdec as (ms' & -> & <- & Hfin & Hrest & Hkinds & Hst); [|lia].
    exists ({| mKey := key; mValue := []; mKind := k |} :: ms'). rewrite <- app_assoc. cbn [flat_map]. unfold encode_mutation at 1. cbn.
    rewrite Hcv, Hk, Hdrop, Hrest, <- !app_assoc. split_and!; [done|done|done|done|by constructor|].
    rewrite Hst. unfold stored_mutation; cbn. by rewrite Hcv.
Qed.

(** ** The batch codec *)

(** The condition [EncodeWriteBatch] checks, and what it returns under it. *)
Lemma EncodeWriteBatch_ok b e :
  EncodeWriteBatch b = Ok e <->
  1 <= len (Mutations b) <= MaxUint32 /\
  FirstSequence b + (len (Mutations b) - 1) <= MaxUint64 /\
  Forall (fun m => kind_valid (mKind m) = true) (Mutations b) /\
  e = le_put 8 (FirstSequence b) ++ le_put 4 (len (Mutations b)) ++
      flat_map encode_mutation (Mutations b) /\
  len e <= MaxRecordSize.
Proof.
  unfold EncodeWriteBatch. rewrite !require_bind.
  pose proof (len_nonneg (Mutations b)).
  destruct (Z.eqb_spec (len (Mutations b)) 0); cbn [negb]; [split; [done|intros; lia]|].
  destruct (Z.leb_spec (len (Mutations b)) MaxUint32); [|split; [done|intros; lia]].
  destruct (Z.leb_spec (FirstSequence b) (MaxUint64 - (len (Mutations b) - 1)));
    [|split; [done|intros; lia]].
  rewrite foldl_append_mutation, u32_id by (unfold is_u32, MaxUint32 in *; lia).
  rewrite <- app_assoc, bind_ok.
  setoid_rewrite batch_size_ok; [|vm_compute; split; discriminate].
  assert (forall e, e = le_put 8 (FirstSequence b) ++ le_put 4 (len (Mutations b)) ++
      flat_map encode_mutation (Mutations b) ->
    len e = batchHeaderLen + len (flat_map encode_mutation (Mutations b))) as Hlen.
  { intros ? ->. rewrite !len_app. unfold len at 1 2. rewrite !le_put_length.
    unfold batchHeaderLen. lia. }
  split.
  - intros (? & (-> & ? & ?) & [= <-]). split_and!; try lia; try done. by rewrite (Hlen _ eq_refl).
  - intros (_ & _ & ? & -> & Hmax). rewrite (Hlen _ eq_refl) in Hmax. eauto 6.
Qed.

Lemma header_slices (a b rest : bytes) :
  length a = 8%nat -> length b = 4%nat ->
  slice 0 8 (a ++ b ++ rest) = a /\ slice 8 12 (a ++ b ++ rest) = b.
Proof.
  intros Ha Hb. unfold slice. split.
  - rewrite drop_0. by apply take_app_length'.
  - rewrite drop_app_length' by lia. by apply take_app_length'.
Qed.

Lemma encode_mutation_two m : 2 <= len (encode_mutation m).
Proof.
  rewrite encode_mutation_len. pose proof (uvarint_len_range (len (mKey m))).
  pose proof (uvarint_len_range (len (mValue m))).
  pose proof (len_nonneg (mKey m)). pose proof (len_nonneg (mValue m)).
  destruct (CarriesValue _); lia.
Qed.
Lemma flat_map_two ms : 2 * len ms <= len (flat_map encode_mutation ms).
Proof.
  induction ms as [|m ms IH]; cbn [flat_map]; [done|]. rewrite len_cons, len_app.
  pose proof (encode_mutation_two m). lia.
Qed.

(** Round trip: whatever [EncodeWriteBatch] accepts, [DecodeWriteBatch]
    reads back, up to the value of a marker kind, which the format does not
    carry. *)
Lemma batch_decode_encode b e :
  0 <= FirstSequence b -> EncodeWriteBatch b = Ok e ->
  DecodeWriteBatch e = Ok (stored_batch b) /\ len e <= MaxRecordSize.
Proof.
  intros Hfirst (Hcount & Hseq & Hkinds & He & Hmax)%EncodeWriteBatch_ok.
  split; [|done].
  unfold MaxUint64, two64, MaxUint32 in *. pose proof (flat_map_two (Mutations b)) as Htwo.
  destruct (header_slices (le_put 8 (FirstSequence b)) (le_put 4 (len (Mutations b)))
    (flat_map encode_mutation (Mutations b))) as [Hs1 Hs2]; [by rewrite le_put_length..|].
  assert (len e = 12 + len (flat_map encode_mutation (Mutations b))) as Hlen.
  { rewrite He, !len_app. unfold len at 1 2. rewrite !le_put_length. lia. }
  unfold DecodeWriteBatch, batchHeaderLen. rewrite !require_bind.
  rewrite (proj2 (Z.leb_le _ _) Hmax), (proj2 (Z.leb_le 12 _)) by lia.
  rewrite <- He in Hs1, Hs2. rewrite Hs1, Hs2.
  rewrite le_get_put64, le_get_put32 by (unfold is_u64, is_u32; lia).
  rewrite u32_id by (unfold is_u32; lia).
  rewrite (proj2 (Z.eqb_neq _ 0)) by lia. cbn [negb].
  rewrite (proj2 (Z.leb_le (FirstSequence b) _)) by (unfold MaxUint64, two64; lia).
  rewrite (proj2 (Z.leb_le _ (_ / 2))) by (apply Z.div_le_lower_bound; lia).
  rewrite len_to_nat.
  pose proof (decode_mutations_encode (Mutations b)
    (le_put 8 (FirstSequence b) ++ le_put 4 (len (Mutations b))) [] []) as Hdec.
  rewrite app_nil_r, <- app_assoc, <- He in Hdec.
  rewrite length_app, !le_put_length in Hdec.
  change (Z.to_nat 12) with (8 + 4)%nat. rewrite Hdec; [|apply flat_map_fits; [lia|done]].
  cbn [mbind result_bind]. rewrite require_bind, (proj2 (Nat.eqb_eq _ _)); [done|].
  unfold len in Hlen. lia.
Qed.

(** Canonicality: a string [DecodeWriteBatch] accepts is the encoding of
    the batch it returns (so no two strings decode to one batch), its
    sequence range does not wrap, and marker kinds carry no value. *)
Lemma batch_encode_decode e b :
  DecodeWriteBatch e = Ok b -> EncodeWriteBatch b = Ok e /\ stored_batch b = b.
Proof.
  unfold DecodeWriteBatch, batchHeaderLen. rewrite !require_bind.
  destruct (Z.leb_spec (len e) MaxRecordSize) as [Hmax|]; [|done].
  destruct (Z.leb_spec 12 (len e)) as [H12|]; [|done].
  assert (length (slice 0 8 e) = 8%nat) as H8
    by (unfold slice, len in *; rewrite length_take, length_drop; lia).
  assert (length (slice 8 12 e) = 4%nat) as H4
    by (unfold slice, len in *; rewrite length_take, length_drop; lia).
  pose proof (le_get_u64 _ H8) as Hfirst. pose proof (le_get_u32 _ H4) as Hcount.
  set (first := le_get (slice 0 8 e)) in *. set (count := le_get (slice 8 12 e)) in *.
  unfold is_u64, is_u32 in *.
  destruct (Z.eqb_spec count 0); [done|]. cbn [negb].
  rewrite u32_id by (unfold is_u32; lia).
  destruct (Z.leb_spec first (MaxUint64 - (count - 1))) as [Hseq|]; [|done].
  destruct (count <=? (len e - 12) / 2); [|done].
  destruct (decode_mutations _ _ _ _) as [[ms final]|] eqn:Hdec; [|done].
  cbn [mbind result_bind]. rewrite require_bind.
  destruct (Nat.eqb_spec final (length e)) as [->|]; [|done]. intros [= <-].
  apply decode_mutations_inv in Hdec as (ms' & -> & Hlen & _ & Hdrop & Hkinds & Hst);
    [|unfold len in *; lia].
  rewrite drop_all, app_nil_r in Hdrop.
  split; [|unfold stored_batch; cbn; by rewrite Hst].
  rewrite EncodeWriteBatch_ok. cbn [Mutations FirstSequence app].
  assert (len ms' = count) as Hc by (unfold len; lia). rewrite Hc.
  split_and!; try done; try lia; try (unfold MaxUint32; lia).
  subst first count. rewrite !le_put_get by done. rewrite <- Hdrop.
  unfold slice. change (Z.to_nat 12) with (8 + 4)%nat. rewrite drop_0, <- drop_drop.
  change (8 - 0)%nat with 8%nat. change (12 - 8)%nat with 4%nat. by rewrite !take_drop.
Qed.

Lemma decoded_first e b : DecodeWriteBatch e = Ok b -> 0 <= FirstSequence b.
Proof.
  unfold DecodeWriteBatch. rewrite !require_bind. repeat (destruct (_ <=? _); [|done]). destruct (negb _); [|done].
  repeat (destruct (_ <=? _); [|done]). destruct (decode_mutations _ _ _ _) as [[ms final]|]; [|done].
  cbn [mbind result_bind]. rewrite require_bind. destruct (_ =? _)%nat; [|done]. intros [= <-]. apply le_get_range.
Qed.

(** C29. [DecodeWriteBatch] accepts exactly the strings [EncodeWriteBatch]
    produces, within the record bound, and inverts it; the batches it returns
    have a sequence range that does not wrap and no value on marker kinds. *)
Theorem batch_codec e b :
  DecodeWriteBatch e = Ok b <-> EncodeWriteBatch b = Ok e /\ stored_batch b = b /\ 0 <= FirstSequence b.
Proof.
  split.
  - intros Hd. destruct (batch_encode_decode e b Hd) as [He Hs]. split_and!; [done|done|by eapply decoded_first].
  - intros (He & Hs & Hf). destruct (batch_decode_encode b e Hf He) as [Hd _]. by rewrite Hs in Hd.
Qed.
