(* ===== verification/Membership.v ===== *)
(** * Raft membership (raft/membership.go and the configuration parts of
    raft/types.go)

    Configurations with joint consensus: validation, voters, learners,
    members, quorums, the wire encoding of a membership entry, and the
    relation between a committed configuration and the next one.  The main
    theorem is that quorums of two configurations related by a legal
    transition always share a voter. *)

From S2P Require Import Prelude.

(** Sentinel errors of package raft (errors.go, membership.go);
    [ErrExternal] stands for an error of an injected dependency (store hook,
    state machine). *)
Inductive raft_error :=
  | ErrInvalidConfig | ErrInvalidMessage | ErrInvalidState | ErrNotLeader
  | ErrStopped | ErrPersistence | ErrApply | ErrCompacted | ErrUnavailable
  | ErrCorruptStore | ErrUnsupportedVersion | ErrResourceLimit
  | ErrLeadershipTransfer | ErrConfigTransition | ErrExternal.

#[export] Instance raft_error_eq_dec : EqDecision raft_error.
Proof. solve_decision. Defined.

Abbreviation NodeID := Z.

Record Configuration := {
  Version : Z;
  OldVoters : list NodeID;
  NewVoters : list NodeID;
  Learners : list NodeID
}.
#[export] Instance Configuration_eq_dec : EqDecision Configuration.
Proof. solve_decision. Defined.

(** ** Library functions on node-ID slices *)

(** [slices.Sort] *)
Definition sort_ids (l : list NodeID) : list NodeID := merge_sort Z.le l.
(** [slices.Contains] *)
Definition contains (l : list NodeID) (id : NodeID) : bool := bool_decide (id ∈ l).
(** [slices.Compact]: drops an element equal to its predecessor. *)
Fixpoint compact_after (prev : NodeID) (l : list NodeID) : list NodeID :=
  match l with
  | [] => []
  | x :: l' => if x =? prev then compact_after prev l' else x :: compact_after x l'
  end.
Definition compact (l : list NodeID) : list NodeID :=
  match l with [] => [] | x :: l' => x :: compact_after x l' end.

(** ** Configurations *)

Definition normalizeConfiguration (value : Configuration) : Configuration :=
  {| Version := Version value;
     OldVoters := sort_ids (OldVoters value);
     NewVoters := sort_ids (NewVoters value);
     Learners := sort_ids (Learners value) |}.

(** The closure [check] of [validateConfiguration]: [None] is its [false]
    result, [Some seen] is [true] with the updated map.  [prev] is
    [ids[index-1]] when [index > 0]. *)
Fixpoint check_ids (prev : option NodeID) (ids : list NodeID) (overlapVoters : bool)
    (seen : gset NodeID) : option (gset NodeID) :=
  match ids with
  | [] => Some seen
  | id :: ids' =>
      if (id =? 0) || bool_decide (prev = Some id) then None
      else if bool_decide (id ∈ seen) && negb overlapVoters then None
      else check_ids (Some id) ids' overlapVoters ({[id]} ∪ seen)
  end.

(** The two loops over the new voters and the learners; [bad id] is the
    membership test of the learner loop. *)
Fixpoint check_loop (bad : NodeID -> bool) (prev : option NodeID) (ids : list NodeID) : bool :=
  match ids with
  | [] => true
  | id :: ids' =>
      if (id =? 0) || bool_decide (prev = Some id) || bad id then false
      else check_loop bad (Some id) ids'
  end.

Definition validateConfiguration (value : Configuration) : result (list raft_error) unit :=
  if (Version value =? 0) || (len (OldVoters value) =? 0) then Err [ErrInvalidConfig]
  else
    let value := normalizeConfiguration value in
    match check_ids None (OldVoters value) false ∅ with
    | None => Err [ErrInvalidConfig]
    | Some seen =>
        if negb (check_loop (fun _ => false) None (NewVoters value)) then Err [ErrInvalidConfig]
        else if negb (check_loop
                 (fun id => contains (OldVoters value) id || contains (NewVoters value) id)
                 None (Learners value)) then Err [ErrInvalidConfig]
        else Ok tt
    end.

Definition Joint (c : Configuration) : bool := negb (len (NewVoters c) =? 0).
Definition Voter (c : Configuration) (id : NodeID) : bool :=
  contains (OldVoters c) id || contains (NewVoters c) id.
Definition Learner (c : Configuration) (id : NodeID) : bool := contains (Learners c) id.
Definition Members (c : Configuration) : list NodeID :=
  compact (sort_ids (OldVoters c ++ NewVoters c ++ Learners c)).

(** [Quorum] of types.go: the size of a majority. *)
Definition quorum_size (nodes : Z) : Z := if nodes <=? 0 then 0 else nodes / 2 + 1.

Definition majorityAcknowledged (voters : list NodeID) (acknowledged : NodeID -> bool) : bool :=
  let count := foldl (fun count id => if acknowledged id then count + 1 else count) 0 voters in
  quorum_size (len voters) <=? count.

Definition Quorum (c : Configuration) (acknowledged : NodeID -> bool) : bool :=
  if negb (majorityAcknowledged (OldVoters c) acknowledged) then false
  else negb (Joint c) || majorityAcknowledged (NewVoters c) acknowledged.

(** ** Wire format of a membership entry *)

Definition membershipEncodingVersion : byte := Byte.x01.

Definition EncodeConfiguration (value : Configuration) : result (list raft_error) bytes :=
  let value := normalizeConfiguration value in
  _ ← validateConfiguration value;
  _ ← require (negb ((255 <? len (OldVoters value)) || (255 <? len (NewVoters value))
                     || (255 <? len (Learners value)))) [ErrResourceLimit];
  Ok ([membershipEncodingVersion; byte.of_Z (len (OldVoters value));
       byte.of_Z (len (NewVoters value)); byte.of_Z (len (Learners value))]
      ++ le_put 8 (Version value)
      ++ flat_map (le_put 8) (OldVoters value)
      ++ flat_map (le_put 8) (NewVoters value)
      ++ flat_map (le_put 8) (Learners value)).

(** [count] iterations of the inner decode loop from [offset]. *)
Fixpoint decode_ids (count : nat) (encoded : bytes) (offset : nat) : list NodeID :=
  match count with
  | O => []
  | S n => le_get (slice offset (offset + 8) encoded) :: decode_ids n encoded (offset + 8)
  end.

Definition DecodeConfiguration (encoded : bytes) : result (list raft_error) Configuration :=
  _ ← require ((12 <=? len encoded) &&
               Byte.eqb (default Byte.x00 (encoded !! 0%nat)) membershipEncodingVersion)
              [ErrInvalidConfig];
  let count i := byte.unsigned (default Byte.x00 (encoded !! i)) in
  let c0 := count 1%nat in
  let c1 := count 2%nat in
  let c2 := count 3%nat in
  _ ← require (len encoded =? 12 + 8 * (c0 + c1 + c2)) [ErrInvalidConfig];
  let n0 := Z.to_nat c0 in
  let n1 := Z.to_nat c1 in
  let result := {|
    Version := le_get (slice 4 12 encoded);
    OldVoters := decode_ids n0 encoded 12;
    NewVoters := decode_ids n1 encoded (12 + 8 * n0);
    Learners := decode_ids (Z.to_nat c2) encoded (12 + 8 * n0 + 8 * n1) |} in
  _ ← validateConfiguration result;
  Ok (normalizeConfiguration result).

Definition validateEncodedConfiguration (encoded : bytes) : result (list raft_error) unit :=
  _ ← DecodeConfiguration encoded; Ok tt.

Definition validateConfigurationTransition (from to : Configuration)
    : result (list raft_error) unit :=
  let from := normalizeConfiguration from in
  let to := normalizeConfiguration to in
  _ ← validateConfiguration from;
  _ ← validateConfiguration to;
  if negb (Version to =? u64 (Version from + 1)) then Err [ErrConfigTransition]
  else if Joint from then
    if Joint to || negb (bool_decide (OldVoters to = NewVoters from))
    then Err [ErrConfigTransition] else Ok tt
  else if Joint to then
    if negb (bool_decide (OldVoters to = OldVoters from))
    then Err [ErrConfigTransition] else Ok tt
  else if negb (bool_decide (OldVoters to = OldVoters from))
  then Err [ErrConfigTransition] else Ok tt.

(** ** Sorting and membership *)

Lemma sort_ids_perm l : sort_ids l ≡ₚ l.
Proof. apply merge_sort_Permutation. Qed.
Lemma sort_ids_sorted l : StronglySorted Z.le (sort_ids l).
Proof. apply Sorted_StronglySorted; [apply _|]. apply Sorted_merge_sort; apply _. Qed.
Lemma sort_ids_id l : StronglySorted Z.le l -> sort_ids l = l.
Proof.
  intros Hl. apply (StronglySorted_unique Z.le);
    auto using sort_ids_sorted, sort_ids_perm.
Qed.
Lemma sort_ids_idem l : sort_ids (sort_ids l) = sort_ids l.
Proof. apply sort_ids_id, sort_ids_sorted. Qed.
Lemma sort_ids_len l : len (sort_ids l) = len l.
Proof. unfold len. by rewrite sort_ids_perm. Qed.
Lemma elem_of_sort_ids id l : id ∈ sort_ids l <-> id ∈ l.
Proof. by rewrite sort_ids_perm. Qed.

Lemma normalize_idem c : normalizeConfiguration (normalizeConfiguration c) = normalizeConfiguration c.
Proof. unfold normalizeConfiguration; cbn. by rewrite !sort_ids_idem. Qed.

Lemma contains_spec l id : contains l id = true <-> id ∈ l.
Proof. apply bool_decide_eq_true. Qed.
Lemma contains_perm l k id : l ≡ₚ k -> contains l id = contains k id.
Proof. intros H. unfold contains. apply bool_decide_ext. by rewrite H. Qed.

Lemma Voter_spec c id : Voter c id = true <-> id ∈ OldVoters c \/ id ∈ NewVoters c.
Proof. unfold Voter. by rewrite orb_true_iff, !contains_spec. Qed.
Lemma Voter_normalize c id : Voter (normalizeConfiguration c) id = Voter c id.
Proof. unfold Voter; cbn. by rewrite !(contains_perm (sort_ids _) _ _ (sort_ids_perm _)). Qed.
Lemma Joint_normalize c : Joint (normalizeConfiguration c) = Joint c.
Proof. unfold Joint; cbn. by rewrite sort_ids_len. Qed.

Lemma elem_of_compact_after p l id :
  id ∈ p :: compact_after p l <-> id ∈ p :: l.
Proof.
  revert p. induction l as [|x l IH]; intros p; cbn; [done|].
  destruct (Z.eqb_spec x p) as [->|].
  - rewrite IH. set_solver.
  - rewrite elem_of_cons, IH. set_solver.
Qed.
Lemma elem_of_Members c id :
  id ∈ Members c <-> id ∈ OldVoters c \/ id ∈ NewVoters c \/ id ∈ Learners c.
Proof.
  unfold Members. rewrite <- !elem_of_app.
  etransitivity; [|apply elem_of_sort_ids].
  destruct (sort_ids _) as [|x l]; [done|]. apply elem_of_compact_after.
Qed.

Lemma compact_after_sorted p l :
  StronglySorted Z.le (p :: l) -> StronglySorted Z.lt (p :: compact_after p l).
Proof.
  revert p. induction l as [|x l IH]; intros p Hs; cbn; [repeat constructor|].
  inversion Hs as [|?? Hs' Hall]; subst. inversion Hall; subst.
  destruct (Z.eqb_spec x p) as [->|]; [by apply IH|].
  specialize (IH x Hs'). constructor; [done|]. constructor; [lia|].
  inversion IH; subst. eapply Forall_impl; [done|]. cbn; intros; lia.
Qed.
Lemma Members_NoDup c : NoDup (Members c).
Proof.
  unfold Members. pose proof (sort_ids_sorted (OldVoters c ++ NewVoters c ++ Learners c)) as Hs.
  destruct (sort_ids _) as [|x l]; cbn; [constructor|].
  apply compact_after_sorted in Hs. revert Hs. generalize (x :: compact_after x l).
  intros k. induction 1 as [|y k Hk IH Hall]; constructor; [|done].
  rewrite Forall_forall in Hall. intros Hin%Hall. lia.
Qed.

(** ** Validity *)

(** What [validateConfiguration] establishes. *)
Record config_ok (c : Configuration) : Prop := {
  config_version : Version c <> 0;
  config_voters : OldVoters c <> [];
  config_old_nodup : NoDup (OldVoters c);
  config_new_nodup : NoDup (NewVoters c);
  config_learners_nodup : NoDup (Learners c);
  config_nonzero : forall id, id ∈ OldVoters c \/ id ∈ NewVoters c \/ id ∈ Learners c -> id <> 0;
  config_disjoint : forall id, id ∈ Learners c -> Voter c id = false
}.

(** On a sorted list the adjacent-duplicate test decides [NoDup]. *)
Lemma check_loop_spec bad prev l :
  StronglySorted Z.le l -> (forall p, prev = Some p -> Forall (Z.le p) l) ->
  check_loop bad prev l = true <->
  NoDup l /\ (forall id, id ∈ l -> id <> 0 /\ bad id = false /\ prev <> Some id).
Proof.
  intros Hs. revert prev. induction Hs as [|x l Hs IH Hall]; intros prev Hprev; cbn.
  { split; [intros _; split; [constructor|set_solver]|done]. }
  destruct (Z.eqb_spec x 0) as [->|Hx]; cbn.
  { split; [done|]. intros [_ H]. destruct (H 0); [left|done]. }
  destruct (bool_decide_reflect (prev = Some x)) as [->|Hp]; cbn.
  { split; [done|]. intros [_ H]. destruct (H x) as (_ & _ & ?); [left|done]. }
  destruct (bad x) eqn:Hbad; cbn.
  { split; [done|]. intros [_ H]. destruct (H x) as (_ & ? & _); [left|congruence]. }
  rewrite IH by (intros ? [= <-]; done). rewrite NoDup_cons. split.
  - intros [Hnd Hin]. split; [split; [|done]|].
    + intros Hxl. by destruct (Hin x Hxl) as (_ & _ & ?).
    + intros id [->|Hid]%elem_of_cons; [done|]. destruct (Hin id Hid) as (? & ? & ?).
      split_and!; [done|done|]. intros ->. specialize (Hprev id eq_refl).
      apply Forall_cons in Hprev as [Hle _]. rewrite Forall_forall in Hall.
      specialize (Hall _ Hid). assert (x = id) by lia. congruence.
  - intros [[Hnin Hnd] Hin]. split; [done|]. intros id Hid.
    destruct (Hin id) as (? & ? & ?); [by right|]. split_and!; [done|done|]. congruence.
Qed.

Lemma check_ids_sound prev l seen :
  is_Some (check_ids prev l false seen) -> check_loop (fun _ => false) prev l = true.
Proof.
  revert prev seen. induction l as [|x l IH]; intros prev seen; cbn; [done|].
  destruct (x =? 0); cbn; [by intros [? ?]|].
  destruct (bool_decide (prev = Some x)); cbn; [by intros [? ?]|].
  destruct (bool_decide (x ∈ seen)); cbn; [by intros [? ?]|]. apply IH.
Qed.
Lemma check_ids_complete prev l seen :
  (forall id, id ∈ seen -> id ∉ l) -> NoDup l ->
  check_loop (fun _ => false) prev l = true -> is_Some (check_ids prev l false seen).
Proof.
  revert prev seen. induction l as [|x l IH]; intros prev seen Hseen Hnd; cbn; [by eauto|].
  apply NoDup_cons in Hnd as [Hx Hnd].
  destruct (x =? 0); cbn; [done|].
  destruct (bool_decide (prev = Some x)); cbn; [done|].
  rewrite bool_decide_eq_false_2 by (intros Hin; apply (Hseen x Hin); left). cbn.
  apply IH; [|done]. intros id Hid Hl. apply elem_of_union in Hid as [->%elem_of_singleton|Hid]; [done|].
  apply (Hseen id Hid). by right.
Qed.

Lemma validateConfiguration_spec c : validateConfiguration c = Ok tt <-> config_ok c.
Proof.
  unfold validateConfiguration.
  assert (forall bad l, check_loop bad None (sort_ids l) = true <->
    NoDup l /\ (forall id, id ∈ l -> id <> 0 /\ bad id = false)) as Hloop.
  { intros bad l. rewrite check_loop_spec by (done || apply sort_ids_sorted).
    rewrite sort_ids_perm. setoid_rewrite elem_of_sort_ids.
    split; intros [? H]; (split; [done|]); intros id Hid; pose proof (H id Hid); split_and?; (done || tauto). }
  assert (is_Some (check_ids None (sort_ids (OldVoters c)) false ∅) <->
    check_loop (fun _ => false) None (sort_ids (OldVoters c)) = true) as Hcheck.
  { split; [apply check_ids_sound|]. intros H. apply check_ids_complete; [set_solver| |done].
    apply Hloop in H as [H _]. by rewrite sort_ids_perm. }
  destruct (Z.eqb_spec (Version c) 0) as [Hv|Hv]; cbn [orb].
  { split; [done|]. by intros []. }
  destruct (Z.eqb_spec (len (OldVoters c)) 0) as [Hn|Hn].
  { split; [done|]. intros []. destruct (OldVoters c); [done|]. rewrite len_cons in Hn.
    pose proof (len_nonneg l). lia. }
  cbn [normalizeConfiguration OldVoters NewVoters Learners].
  destruct (check_ids _ _ _ _) eqn:Hc.
  2: { split; [done|]. intros []. destruct Hcheck as [_ Hcheck].
       destruct Hcheck as [? ?]; [|congruence]. apply Hloop. split; [done|]. auto. }
  destruct Hcheck as [Hcheck _]. specialize (Hcheck (mk_is_Some _ _ eq_refl)). apply Hloop in Hcheck as [Hnd Hnz].
  destruct (check_loop _ None (sort_ids (NewVoters c))) eqn:Hnew; cbn [negb].
  2: { split; [done|]. intros []. rewrite <- not_true_iff_false, Hloop in Hnew.
       destruct Hnew. split; [done|]. auto. }
  apply Hloop in Hnew as [Hnd2 Hnz2].
  assert (forall id, contains (sort_ids (OldVoters c)) id || contains (sort_ids (NewVoters c)) id
    = Voter c id) as HV by (intros; apply (Voter_normalize c)).
  destruct (check_loop _ None (sort_ids (Learners c))) eqn:Hl; cbn [negb].
  - apply Hloop in Hl as [Hnd3 Hnz3]. setoid_rewrite HV in Hnz3. split; [|done]. intros _.
    split; try done; [by destruct (OldVoters c)| |intros id Hid; by apply Hnz3].
    intros id [Hid|[Hid|Hid]]; [by apply Hnz|by apply Hnz2|by apply Hnz3].
  - split; [done|]. intros []. rewrite <- not_true_iff_false, Hloop in Hl.
    setoid_rewrite HV in Hl. destruct Hl. split; [done|]. auto.
Qed.

Lemma config_ok_normalize c : config_ok (normalizeConfiguration c) <-> config_ok c.
Proof.
  rewrite <- !validateConfiguration_spec. unfold validateConfiguration.
  rewrite normalize_idem. cbn. by rewrite sort_ids_len.
Qed.

(** ** Quorums *)

Lemma foldl_count (f : NodeID -> bool) l n :
  foldl (fun count id => if f id then count + 1 else count) n l
  = n + len (filter (fun id => f id = true) l).
Proof.
  revert n. induction l as [|x l IH]; intros n; cbn [foldl]; [by rewrite Z.add_0_r|].
  rewrite IH, filter_cons. destruct (f x); [|by rewrite decide_False].
  rewrite decide_True, len_cons by done. lia.
Qed.

Lemma majority_spec voters f :
  voters <> [] ->
  majorityAcknowledged voters f = true <->
  len voters < 2 * len (filter (fun id => f id = true) voters).
Proof.
  intros Hne. unfold majorityAcknowledged, quorum_size. rewrite foldl_count, Z.add_0_l.
  assert (0 < len voters) by (destruct voters; [done|]; rewrite len_cons; pose proof (len_nonneg voters); lia).
  rewrite (proj2 (Z.leb_gt _ 0)), Z.leb_le by done.
  pose proof (Z.div_mod (len voters) 2 ltac:(done)). pose proof (Z.mod_pos_bound (len voters) 2 eq_refl). lia.
Qed.

(** Two sets of more than half of one list of voters meet. *)
Lemma filter_pigeonhole (f g : NodeID -> bool) l :
  len l < len (filter (fun id => f id = true) l) + len (filter (fun id => g id = true) l) ->
  exists id, id ∈ l /\ f id = true /\ g id = true.
Proof.
  induction l as [|x l IH]; [done|]. rewrite !filter_cons, len_cons. intros H.
  destruct (decide (f x = true)), (decide (g x = true)); rewrite ?len_cons in H;
    [exists x; split_and!; [left|done..]|..];
    (destruct IH as (id & ? & ?); [lia|exists id; split; [by right|done]]).
Qed.

Lemma majority_ext l f g : (forall i, f i = g i) -> majorityAcknowledged l f = majorityAcknowledged l g.
Proof.
  intros Hfg. unfold majorityAcknowledged. f_equal. generalize 0.
  induction l as [|x l IH]; intros z; cbn; [done|]. by rewrite Hfg, IH.
Qed.
Lemma majority_perm l k f : l ≡ₚ k -> majorityAcknowledged l f = majorityAcknowledged k f.
Proof.
  intros H. unfold majorityAcknowledged. rewrite !foldl_count. unfold len. by rewrite H.
Qed.

Lemma majority_intersect l k f g :
  l ≡ₚ k -> l <> [] ->
  majorityAcknowledged l f = true -> majorityAcknowledged k g = true ->
  exists id, id ∈ l /\ f id = true /\ g id = true.
Proof.
  intros Hp Hne Hf Hg. rewrite <- (majority_perm _ _ g Hp) in Hg.
  apply majority_spec in Hf, Hg; [|done..]. apply filter_pigeonhole. lia.
Qed.

Lemma Quorum_spec c f :
  Quorum c f = true <->
  majorityAcknowledged (OldVoters c) f = true /\
  (Joint c = true -> majorityAcknowledged (NewVoters c) f = true).
Proof.
  unfold Quorum. destruct (majorityAcknowledged (OldVoters c) f), (Joint c),
    (majorityAcknowledged (NewVoters c) f); cbn; naive_solver.
Qed.

Lemma Quorum_ext c f g : (forall i, f i = g i) -> Quorum c f = Quorum c g.
Proof. intros Hfg. unfold Quorum. by rewrite !(majority_ext _ f g Hfg). Qed.

Lemma majority_mono l f g :
  (forall i, i ∈ l -> f i = true -> g i = true) ->
  majorityAcknowledged l f = true -> majorityAcknowledged l g = true.
Proof.
  intros Hfg. unfold majorityAcknowledged. rewrite !Z.leb_le, !foldl_count, !Z.add_0_l. intros Hq.
  etransitivity; [exact Hq|]. clear Hq. induction l as [|x l IH]; [done|]. rewrite !filter_cons.
  specialize (IH ltac:(intros; apply Hfg; [by right|done])).
  destruct (decide (f x = true)) as [Hf|], (decide (g x = true)) as [Hg|Hg]; rewrite ?len_cons; try lia.
  destruct Hg. apply Hfg; [by left|done].
Qed.
Lemma Quorum_mono c f g :
  (forall i, Voter c i = true -> f i = true -> g i = true) -> Quorum c f = true -> Quorum c g = true.
Proof.
  intros Hfg. rewrite !Quorum_spec. setoid_rewrite Voter_spec in Hfg. intros [Ho Hn].
  split; [|intros Hj; specialize (Hn Hj)]; (eapply majority_mono; [|done]); auto.
Qed.

(** Two quorums of a configuration share a voter. *)
Lemma quorum_common c f g :
  config_ok c -> Quorum c f = true -> Quorum c g = true ->
  exists id, Voter c id = true /\ f id = true /\ g id = true.
Proof.
  intros [_ Hne _ _ _ _ _] [Hf _]%Quorum_spec [Hg _]%Quorum_spec.
  destruct (majority_intersect _ _ _ _ (reflexivity _) Hne Hf Hg) as (id & ? & ? & ?).
  exists id. rewrite Voter_spec. auto.
Qed.

Lemma Joint_spec c : Joint c = true <-> NewVoters c <> [].
Proof.
  unfold Joint. destruct (NewVoters c) as [|x l]; cbn; [done|].
  rewrite len_cons, negb_true_iff, Z.eqb_neq. pose proof (len_nonneg l). split; [done|lia].
Qed.

(** Quorum intersection: in a valid configuration, joint or not, any two
    acknowledgement sets that [Quorum] accepts share a voter. *)
Theorem quorum_intersection c f g :
  validateConfiguration c = Ok tt -> Quorum c f = true -> Quorum c g = true ->
  exists id, Voter c id = true /\ f id = true /\ g id = true.
Proof. rewrite validateConfiguration_spec. apply quorum_common. Qed.

Definition joint_example : Configuration :=
  {| Version := 2; OldVoters := [1;2;3]; NewVoters := [3;4;5]; Learners := [] |}.

Lemma quorum_intersection_witness :
  exists id, Voter joint_example id = true /\ contains [1;3;4] id = true /\ contains [2;3;5] id = true.
Proof. apply quorum_intersection; vm_compute; reflexivity. Defined.

Lemma transition_ok from to :
  validateConfigurationTransition from to = Ok tt ->
  config_ok from /\ config_ok to /\ Version to = u64 (Version from + 1) /\
  (if Joint from then Joint to = false /\ OldVoters to ≡ₚ NewVoters from
   else OldVoters to ≡ₚ OldVoters from).
Proof.
  unfold validateConfigurationTransition.
  rewrite bind_ok. intros ([] & Hfrom & Hrest). apply bind_ok in Hrest as ([] & Hto & Hrest).
  apply validateConfiguration_spec, (proj1 (config_ok_normalize _)) in Hfrom, Hto.
  cbn [normalizeConfiguration Version OldVoters NewVoters] in Hrest.
  rewrite !Joint_normalize in Hrest.
  destruct (Z.eqb_spec (Version to) (u64 (Version from + 1))); [|done]. cbn [negb] in Hrest.
  assert (forall l k, sort_ids l = sort_ids k -> l ≡ₚ k) as Hperm
    by (intros l k H; by rewrite <- (sort_ids_perm l), H, sort_ids_perm).
  destruct (Joint from), (Joint to); cbn [orb] in Hrest; try done;
    match type of Hrest with context [bool_decide ?P] => destruct (bool_decide_reflect P) end;
    try done; auto 6.
Qed.

(** C25. Joint consensus: when [to] is a configuration the transition rule
    allows after [from], every quorum of [from] and every quorum of [to]
    share a node that votes in both. *)
Theorem transition_quorums_intersect from to f g :
  validateConfigurationTransition from to = Ok tt ->
  Quorum from f = true -> Quorum to g = true ->
  exists id, Voter from id = true /\ Voter to id = true /\ f id = true /\ g id = true.
Proof.
  intros (Hfrom & Hto & _ & Htr)%transition_ok [Hf HfJ]%Quorum_spec [Hg _]%Quorum_spec.
  setoid_rewrite Voter_spec. destruct (Joint from).
  - destruct Htr as [_ Hp].
    destruct (majority_intersect _ _ g f Hp (config_voters _ Hto) Hg (HfJ eq_refl)) as (id & Hid & ? & ?).
    exists id. rewrite <- Hp. auto.
  - destruct (majority_intersect _ _ g f Htr (config_voters _ Hto) Hg Hf) as (id & Hid & ? & ?).
    exists id. rewrite <- Htr. auto.
Qed.

Lemma transition_quorums_intersect_witness :
  exists id, Voter joint_example id = true /\
    Voter {| Version := 3; OldVoters := [5;4;3]; NewVoters := []; Learners := [1] |} id = true /\
    contains [1;3;4] id = true /\ contains [3;5] id = true.
Proof. apply transition_quorums_intersect; vm_compute; reflexivity. Defined.

(** ** Encoding round trip *)

Lemma flat_map_le8_length (l : list NodeID) : length (flat_map (le_put 8) l) = (8 * length l)%nat.
Proof. induction l as [|x l IH]; cbn [flat_map length]; [done|]. rewrite length_app, le_put_length, IH. lia. Qed.

Lemma decode_ids_put l pre rest :
  Forall is_u64 l ->
  decode_ids (length l) (pre ++ flat_map (le_put 8) l ++ rest) (length pre) = l.
Proof.
  intros Hl. revert pre. induction Hl as [|x l Hx Hl IH]; intros pre; cbn [length decode_ids flat_map]; [done|].
  f_equal.
  - unfold slice. rewrite drop_app_length, <- app_assoc, take_app_length'; [by apply le_get_put64|].
    rewrite le_put_length. lia.
  - rewrite <- app_assoc, app_assoc.
    replace (length pre + 8)%nat with (length (pre ++ le_put 8 x)) by (rewrite length_app, le_put_length; lia).
    apply IH.
Qed.

(** The fields of a Go [Configuration] are 64-bit. *)
Definition config_u64 (c : Configuration) : Prop :=
  is_u64 (Version c) /\ Forall is_u64 (OldVoters c) /\ Forall is_u64 (NewVoters c) /\ Forall is_u64 (Learners c).

Section layout.
Context (n : Configuration).
Let hdr : bytes := [membershipEncodingVersion; byte.of_Z (len (OldVoters n));
     byte.of_Z (len (NewVoters n)); byte.of_Z (len (Learners n))].
Let ver : bytes := le_put 8 (Version n).
Let fo : bytes := flat_map (le_put 8) (OldVoters n).
Let fn : bytes := flat_map (le_put 8) (NewVoters n).
Let fl : bytes := flat_map (le_put 8) (Learners n).

Definition config_bytes : bytes := hdr ++ ver ++ fo ++ fn ++ fl.

Lemma config_bytes_len :
  len config_bytes = 12 + 8 * (len (OldVoters n) + len (NewVoters n) + len (Learners n)).
Proof.
  unfold config_bytes, len. rewrite !length_app. unfold ver, fo, fn, fl.
  rewrite le_put_length, !flat_map_le8_length. cbn [length hdr]. lia.
Qed.

Lemma config_bytes_version : is_u64 (Version n) -> le_get (slice 4 12 config_bytes) = Version n.
Proof.
  intros Hv. unfold config_bytes, slice. rewrite drop_app_length' by done.
  rewrite take_app_length' by (by unfold ver; rewrite le_put_length). by apply le_get_put64.
Qed.

Lemma config_bytes_ids :
  Forall is_u64 (OldVoters n) -> Forall is_u64 (NewVoters n) -> Forall is_u64 (Learners n) ->
  let no := length (OldVoters n) in
  let nn := length (NewVoters n) in
  decode_ids no config_bytes 12 = OldVoters n /\
  decode_ids nn config_bytes (12 + 8 * no) = NewVoters n /\
  decode_ids (length (Learners n)) config_bytes (12 + 8 * no + 8 * nn) = Learners n.
Proof.
  intros Ho Hn Hl no nn.
  assert (length ver = 8%nat) as Hlv by (unfold ver; by rewrite le_put_length).
  pose proof (decode_ids_put (OldVoters n) (hdr ++ ver) (fn ++ fl) Ho) as E1.
  pose proof (decode_ids_put (NewVoters n) (hdr ++ ver ++ fo) fl Hn) as E2.
  pose proof (decode_ids_put (Learners n) (hdr ++ ver ++ fo ++ fn) [] Hl) as E3.
  rewrite app_nil_r in E3. unfold fo, fn in E2, E3.
  rewrite <- !app_assoc, !length_app, Hlv in E1.
  rewrite <- !app_assoc, !length_app, !flat_map_le8_length, Hlv in E2.
  rewrite <- !app_assoc, !length_app, !flat_map_le8_length, Hlv in E3.
  split_and!; [exact E1|etransitivity; [|exact E2]|etransitivity; [|exact E3]];
    unfold no, nn; cbn [length hdr]; f_equal; lia.
Qed.
End layout.

(** Round trip of a membership entry: what [EncodeConfiguration] writes,
    [DecodeConfiguration] reads back as the normalized configuration. *)
Theorem config_decode_encode c e :
  config_u64 c -> EncodeConfiguration c = Ok e ->
  DecodeConfiguration e = Ok (normalizeConfiguration c).
Proof.
  intros (Hver & Hold & Hnew & Hlrn). unfold EncodeConfiguration.
  rewrite bind_ok. intros ([] & Hvalid & Henc). rewrite require_bind in Henc.
  set (n := normalizeConfiguration c) in *.
  assert (Forall is_u64 (OldVoters n) /\ Forall is_u64 (NewVoters n) /\ Forall is_u64 (Learners n)) as (Ho & Hn & Hl)
    by (subst n; cbn; by rewrite !sort_ids_perm).
  assert (normalizeConfiguration n = n) as Hidem by apply normalize_idem.
  change (is_u64 (Version n)) in Hver. clearbody n.
  destruct (Z.ltb_spec 255 (len (OldVoters n))), (Z.ltb_spec 255 (len (NewVoters n))),
    (Z.ltb_spec 255 (len (Learners n))); try done. cbn [orb negb] in Henc.
  change (Ok (config_bytes n) = Ok e :> result (list raft_error) bytes) in Henc.
  assert (e = config_bytes n) as -> by congruence. clear Henc.
  assert (forall l : list NodeID, len l <= 255 -> byte.unsigned (byte.of_Z (len l)) = len l) as Hb.
  { intros l Hle. rewrite byte.unsigned_of_Z. apply Z.mod_small. pose proof (len_nonneg l). lia. }
  unfold DecodeConfiguration. rewrite require_bind.
  rewrite config_bytes_len, config_bytes_version by done.
  pose proof (len_nonneg (OldVoters n)); pose proof (len_nonneg (NewVoters n)); pose proof (len_nonneg (Learners n)).
  rewrite (proj2 (Z.leb_le 12 _)) by lia.
  change (config_bytes n !! 0%nat) with (Some membershipEncodingVersion).
  change (config_bytes n !! 1%nat) with (Some (byte.of_Z (len (OldVoters n)))).
  change (config_bytes n !! 2%nat) with (Some (byte.of_Z (len (NewVoters n)))).
  change (config_bytes n !! 3%nat) with (Some (byte.of_Z (len (Learners n)))).
  cbn [from_option id andb Byte.eqb membershipEncodingVersion].
  rewrite !Hb, require_bind, Z.eqb_refl, !len_to_nat by done.
  destruct (config_bytes_ids n Ho Hn Hl) as (-> & -> & ->).
  change (validateConfiguration _) with (validateConfiguration n).
  rewrite Hvalid. cbn [mbind result_bind]. f_equal.
  etransitivity; [|exact Hidem]. by destruct n.
Qed.

Lemma config_decode_encode_witness :
  DecodeConfiguration (config_bytes joint_example) = Ok joint_example.
Proof.
  apply (config_decode_encode joint_example); [|vm_compute; reflexivity].
  repeat split; repeat constructor; unfold is_u64; cbn; lia.
Defined.
