(* ===== verification/RaftTypes.v ===== *)
(** * Raft data (raft/types.go) and the in-memory store
    (raft/memory_store.go)

    Entries, snapshots, persistent state and messages of the single-group
    Raft core, the validation of a persistent state, and [MemoryStore] with
    its injected failures.  A loaded state is always valid: [MemoryStore]
    refuses every other one. *)

From S2P Require Import Prelude Membership.

Definition MaxCommandBytes : Z := Z.shiftl 16 20.

Inductive Role := Follower | Candidate | Leader.
#[export] Instance Role_eq_dec : EqDecision Role.
Proof. solve_decision. Defined.

(** [type EntryType uint8] and [type MessageType uint8]: any byte. *)
Abbreviation EntryType := byte.
Definition EntryNoOp : EntryType := Byte.x01.
Definition EntryCommand : EntryType := Byte.x02.
Definition EntryConfig : EntryType := Byte.x03.

Record Entry := {
  Index : Z;
  Term : Z;
  EType : EntryType;
  Command : bytes
}.
#[export] Instance Entry_eq_dec : EqDecision Entry.
Proof. solve_decision. Defined.

Record HardState := { hsTerm : Z; VotedFor : NodeID }.
#[export] Instance HardState_eq_dec : EqDecision HardState.
Proof. solve_decision. Defined.

Record Snapshot := {
  snapIndex : Z;
  snapTerm : Z;
  snapData : bytes;
  snapConfig : Configuration
}.
#[export] Instance Snapshot_eq_dec : EqDecision Snapshot.
Proof. solve_decision. Defined.

Record PersistentState := {
  psHard : HardState;
  psSnapshot : Snapshot;
  psConfig : Configuration;
  psEntries : list Entry
}.
#[export] Instance PersistentState_eq_dec : EqDecision PersistentState.
Proof. solve_decision. Defined.

(** Zero values of the Go structs. *)
Definition zero_config : Configuration :=
  {| Version := 0; OldVoters := []; NewVoters := []; Learners := [] |}.
Definition zero_snapshot : Snapshot :=
  {| snapIndex := 0; snapTerm := 0; snapData := []; snapConfig := zero_config |}.
Definition zero_state : PersistentState :=
  {| psHard := {| hsTerm := 0; VotedFor := 0 |}; psSnapshot := zero_snapshot;
     psConfig := zero_config; psEntries := [] |}.

Abbreviation MessageType := byte.
Definition RequestVote : MessageType := Byte.x01.
Definition RequestVoteResponse : MessageType := Byte.x02.
Definition AppendEntries : MessageType := Byte.x03.
Definition AppendEntriesResponse : MessageType := Byte.x04.
Definition InstallSnapshot : MessageType := Byte.x05.
Definition InstallSnapshotResponse : MessageType := Byte.x06.
Definition TimeoutNow : MessageType := Byte.x07.

Record Message := {
  mType : MessageType;
  mFrom : NodeID;
  mTo : NodeID;
  mTerm : Z;
  CandidateLastIndex : Z;
  CandidateLastTerm : Z;
  VoteGranted : bool;
  PrevLogIndex : Z;
  PrevLogTerm : Z;
  mEntries : list Entry;
  LeaderCommit : Z;
  Success : bool;
  MatchIndex : Z;
  RejectHint : Z;
  mSnapshot : Snapshot
}.

(** A message literal with the fields that every message sets; the others
    hold their zero values. *)
Definition new_message (kind : MessageType) (from to : NodeID) (term : Z) : Message :=
  {| mType := kind; mFrom := from; mTo := to; mTerm := term;
     CandidateLastIndex := 0; CandidateLastTerm := 0; VoteGranted := false;
     PrevLogIndex := 0; PrevLogTerm := 0; mEntries := []; LeaderCommit := 0;
     Success := false; MatchIndex := 0; RejectHint := 0; mSnapshot := zero_snapshot |}.

Definition validEntryType (kind : EntryType) : bool :=
  Byte.eqb kind EntryNoOp || Byte.eqb kind EntryCommand || Byte.eqb kind EntryConfig.

(** ** Validation of a persistent state *)

(** The entry loop of [validatePersistent]: [want] is the expected index and
    [lastTerm] the previous entry's term; returns the final [lastTerm]. *)
Fixpoint validate_entries (want lastTerm hardTerm : Z) (entries : list Entry)
    : result (list raft_error) Z :=
  match entries with
  | [] => Ok lastTerm
  | e :: rest =>
      if negb (Index e =? want) || (Term e =? 0) || (Term e <? lastTerm) || (hardTerm <? Term e)
         || negb (validEntryType (EType e)) || (MaxCommandBytes <? len (Command e))
      then Err [ErrInvalidState]
      else if (Byte.eqb (EType e) EntryNoOp && negb (len (Command e) =? 0))
              || (Byte.eqb (EType e) EntryConfig && negb (is_ok (validateEncodedConfiguration (Command e))))
      then Err [ErrInvalidState]
      else validate_entries (u64 (want + 1)) (Term e) hardTerm rest
  end.

Definition validatePersistent (state : PersistentState) : result (list raft_error) unit :=
  let snap := psSnapshot state in
  let hard := psHard state in
  _ ← require ((Version (psConfig state) =? 0) || is_ok (validateConfiguration (psConfig state)))
        [ErrInvalidState];
  _ ← require (negb ((hsTerm hard =? 0) && negb (VotedFor hard =? 0))) [ErrInvalidState];
  _ ← require (negb ((snapIndex snap =? 0) && negb (snapTerm snap =? 0)
                     || negb (snapIndex snap =? 0) && (snapTerm snap =? 0))) [ErrInvalidState];
  _ ← require (len (snapData snap) <=? MaxCommandBytes) [ErrInvalidState];
  _ ← require ((Version (snapConfig snap) =? 0) || is_ok (validateConfiguration (snapConfig snap)))
        [ErrInvalidState];
  _ ← require (snapIndex snap <=? u64 (MaxUint64 - len (psEntries state))) [ErrInvalidState];
  lastTerm ← validate_entries (u64 (snapIndex snap + 1)) (snapTerm snap) (hsTerm hard) (psEntries state);
  require (negb ((hsTerm hard <? lastTerm) || (hsTerm hard <? snapTerm snap))) [ErrInvalidState].

(** ** Outcomes of the node's methods: a value, an error or a panic *)

Inductive outcome (A : Type) : Type :=
  | Ret (a : A)
  | Fail (e : list raft_error)
  | Panic (invariant : nat).
Arguments Ret {A} a.
Arguments Fail {A} e.
Arguments Panic {A} invariant.

(** Panics: RAFT-n for the named invariants, and the two run-time panics. *)
Definition index_out_of_range : nat := 100.
Definition nil_map_write : nat := 101.
Definition make_negative : nat := 102.

#[export] Instance outcome_ret : MRet outcome := fun A a => Ret a.
#[export] Instance outcome_bind : MBind outcome := fun A B f m =>
  match m with Ret a => f a | Fail e => Fail e | Panic p => Panic p end.

(** ** The log of a persistent state

    The methods [lastIndex], [lastTerm], [termAt], [entryAt], [entriesFrom]
    and [firstIndexOfTerm] of node.go only read [n.persistent]; here they are
    functions of it. *)

Definition ps_lastIndex (p : PersistentState) : Z :=
  match last (psEntries p) with
  | None => snapIndex (psSnapshot p)
  | Some e => Index e
  end.
Definition ps_lastTerm (p : PersistentState) : Z :=
  match last (psEntries p) with
  | None => snapTerm (psSnapshot p)
  | Some e => Term e
  end.

(** [n.persistent.Entries[index-n.persistent.Snapshot.Index-1]] *)
Definition ps_slot (p : PersistentState) (index : Z) : outcome Entry :=
  match psEntries p !! Z.to_nat (u64 (index - snapIndex (psSnapshot p) - 1)) with
  | Some e => Ret e
  | None => Panic index_out_of_range
  end.

Definition ps_termAt (p : PersistentState) (index : Z) : outcome Z :=
  if index =? snapIndex (psSnapshot p) then Ret (snapTerm (psSnapshot p))
  else if index <? snapIndex (psSnapshot p) then Fail [ErrCompacted]
  else if ps_lastIndex p <? index then Fail [ErrUnavailable]
  else e ← ps_slot p index; Ret (Term e).

Definition ps_entryAt (p : PersistentState) (index : Z) : outcome Entry :=
  if index <=? snapIndex (psSnapshot p) then Fail [ErrCompacted]
  else if ps_lastIndex p <? index then Fail [ErrUnavailable]
  else ps_slot p index.

Definition ps_entriesFrom (p : PersistentState) (index : Z) : outcome (list Entry) :=
  if index <=? snapIndex (psSnapshot p) then Fail [ErrCompacted]
  else if u64 (ps_lastIndex p + 1) <? index then Fail [ErrUnavailable]
  else if index =? u64 (ps_lastIndex p + 1) then Ret []
  else
    let cut := Z.to_nat (u64 (index - snapIndex (psSnapshot p) - 1)) in
    if Nat.leb cut (length (psEntries p)) then Ret (drop cut (psEntries p))
    else Panic index_out_of_range.

Fixpoint first_index_loop (fuel : nat) (p : PersistentState) (index term : Z) : outcome Z :=
  match fuel with
  | O => Ret index
  | S f =>
      if snapIndex (psSnapshot p) <? index then
        match ps_termAt p (index - 1) with
        | Panic q => Panic q
        | Fail _ => Ret index
        | Ret previous => if previous =? term then first_index_loop f p (index - 1) term else Ret index
        end
      else Ret index
  end.
(** The loop runs at most [index - snapshot index] times. *)
Definition ps_firstIndexOfTerm (p : PersistentState) (index term : Z) : outcome Z :=
  first_index_loop (Z.to_nat (index - snapIndex (psSnapshot p))) p index term.

(** ** MemoryStore *)

Record MemoryStore := {
  msState : PersistentState;
  saveErr : option (list raft_error);
  saveHook : option (PersistentState -> option (list raft_error))
}.

Definition NewMemoryStore : MemoryStore :=
  {| msState := zero_state; saveErr := None; saveHook := None |}.

Definition NewMemoryStoreFrom (state : PersistentState) : result (list raft_error) MemoryStore :=
  _ ← validatePersistent state;
  Ok {| msState := state; saveErr := None; saveHook := None |}.

Definition MemoryStore_Load (s : MemoryStore) : result (list raft_error) PersistentState :=
  Ok (msState s).

(** [Save] returns the store after the call and the error, if any. *)
Definition MemoryStore_Save (s : MemoryStore) (state : PersistentState)
    : MemoryStore * option (list raft_error) :=
  match validatePersistent state with
  | Err e => (s, Some e)
  | Ok _ =>
      match saveHook s ≫= (fun hook => hook state) with
      | Some e => (s, Some e)
      | None =>
          match saveErr s with
          | Some e => (s, Some e)
          | None => ({| msState := state; saveErr := saveErr s; saveHook := saveHook s |}, None)
          end
      end
  end.

Definition SetSaveError (s : MemoryStore) (err : option (list raft_error)) : MemoryStore :=
  {| msState := msState s; saveErr := err; saveHook := saveHook s |}.
Definition SetSaveHook (s : MemoryStore)
    (hook : option (PersistentState -> option (list raft_error))) : MemoryStore :=
  {| msState := msState s; saveErr := saveErr s; saveHook := hook |}.
