(* ===== verification/RaftNode.v ===== *)
(** * The Raft node (raft/node.go)

    The deterministic Raft core: a node is a record with the fields of the
    Go struct, every method is a computation in a small state monad whose
    outcome is a value, an error or a panic (a failed [invariant.Assert], an
    index out of range, or a write to a nil map).  A method that returns an
    error keeps the mutations it made before.  The store, the state machine
    and the random source are the interfaces of the Go code, here fields of
    the class [RaftEnv]; the store's contract is the class [StoreLaws], which
    [MemoryStore] satisfies. *)

From S2P Require Import Prelude Membership RaftTypes.

(** ** Injected interfaces: [StateMachine], [Store] and the random source *)

Class RaftEnv := {
  SM : Type;
  sm_apply : SM -> Entry -> SM * option (list raft_error);
  sm_snapshot : SM -> result (list raft_error) bytes;
  sm_restore : SM -> bytes -> SM * option (list raft_error);
  St : Type;
  st_load : St -> result (list raft_error) PersistentState;
  st_save : St -> PersistentState -> St * option (list raft_error);
  Rng : Type;
  uint64N : Rng -> Z -> Z * Rng
}.

(** What the node relies on: a successful save is what a later load returns;
    a failed one leaves the old state or the new one. *)
Class StoreLaws `{RaftEnv} := {
  save_ok : forall s p s', st_save s p = (s', None) ->
    st_load s' = Ok p /\ validatePersistent p = Ok tt;
  save_err : forall s p s' e, st_save s p = (s', Some e) ->
    st_load s' = st_load s \/ st_load s' = Ok p
}.

Section node.
Context `{RaftEnv}.

Record Node := mkNode {
  id : NodeID;
  peers : list NodeID;
  configuration : Configuration;
  electionMin : Z;
  electionMax : Z;
  heartbeatInterval : Z;
  random : Rng;
  store : St;
  stateMachine : SM;
  persistent : PersistentState;
  role : Role;
  leaderID : NodeID;
  commitIndex : Z;
  lastApplied : Z;
  electionElapsed : Z;
  electionTimeout : Z;
  heartbeatElapsed : Z;
  transferElapsed : Z;
  transferring : bool;
  votes : option (gmap NodeID bool);
  nextIndex : option (gmap NodeID Z);
  matchIndex : option (gmap NodeID Z);
  stopped : bool;
  fatal : option (list raft_error)
}.

(** Field updates. *)
Definition node_eta (n : Node) : Node :=
  mkNode (id n) (peers n) (configuration n) (electionMin n) (electionMax n)
    (heartbeatInterval n) (random n) (store n) (stateMachine n) (persistent n)
    (role n) (leaderID n) (commitIndex n) (lastApplied n) (electionElapsed n)
    (electionTimeout n) (heartbeatElapsed n) (transferElapsed n) (transferring n)
    (votes n) (nextIndex n) (matchIndex n) (stopped n) (fatal n).

Ltac update proj n v :=
  let e := eval cbv [node_eta] in (node_eta n) in
  match e with context C [proj n] => let t := context C [v] in exact t end.

Definition set_peers (v : list NodeID) (n : Node) : Node := ltac:(update peers n v).
Definition set_configuration (v : Configuration) (n : Node) : Node := ltac:(update configuration n v).
Definition set_random (v : Rng) (n : Node) : Node := ltac:(update random n v).
Definition set_store (v : St) (n : Node) : Node := ltac:(update store n v).
Definition set_stateMachine (v : SM) (n : Node) : Node := ltac:(update stateMachine n v).
Definition set_persistent (v : PersistentState) (n : Node) : Node := ltac:(update persistent n v).
Definition set_role (v : Role) (n : Node) : Node := ltac:(update role n v).
Definition set_leaderID (v : NodeID) (n : Node) : Node := ltac:(update leaderID n v).
Definition set_commitIndex (v : Z) (n : Node) : Node := ltac:(update commitIndex n v).
Definition set_lastApplied (v : Z) (n : Node) : Node := ltac:(update lastApplied n v).
Definition set_electionElapsed (v : Z) (n : Node) : Node := ltac:(update electionElapsed n v).
Definition set_electionTimeout (v : Z) (n : Node) : Node := ltac:(update electionTimeout n v).
Definition set_heartbeatElapsed (v : Z) (n : Node) : Node := ltac:(update heartbeatElapsed n v).
Definition set_transferElapsed (v : Z) (n : Node) : Node := ltac:(update transferElapsed n v).
Definition set_transferring (v : bool) (n : Node) : Node := ltac:(update transferring n v).
Definition set_votes (v : option (gmap NodeID bool)) (n : Node) : Node := ltac:(update votes n v).
Definition set_nextIndex (v : option (gmap NodeID Z)) (n : Node) : Node := ltac:(update nextIndex n v).
Definition set_matchIndex (v : option (gmap NodeID Z)) (n : Node) : Node := ltac:(update matchIndex n v).
Definition set_stopped (v : bool) (n : Node) : Node := ltac:(update stopped n v).
Definition set_fatal (v : option (list raft_error)) (n : Node) : Node := ltac:(update fatal n v).

(** Parts of the persistent state. *)
Definition entries_of (n : Node) : list Entry := psEntries (persistent n).
Definition set_entries (v : list Entry) (n : Node) : Node :=
  set_persistent {| psHard := psHard (persistent n); psSnapshot := psSnapshot (persistent n);
    psConfig := psConfig (persistent n); psEntries := v |} n.
Definition set_hard (v : HardState) (n : Node) : Node :=
  set_persistent {| psHard := v; psSnapshot := psSnapshot (persistent n);
    psConfig := psConfig (persistent n); psEntries := psEntries (persistent n) |} n.
Definition set_psConfig (v : Configuration) (n : Node) : Node :=
  set_persistent {| psHard := psHard (persistent n); psSnapshot := psSnapshot (persistent n);
    psConfig := v; psEntries := psEntries (persistent n) |} n.
Definition snapshot_of (n : Node) : Snapshot := psSnapshot (persistent n).

(** ** The method monad *)

Definition M (A : Type) : Type := Node -> outcome A * Node.
#[global] Instance M_ret : MRet M := fun A a n => (Ret a, n).
#[global] Instance M_bind : MBind M := fun A B f m n =>
  match m n with
  | (Ret a, n') => f a n'
  | (Fail e, n') => (Fail e, n')
  | (Panic p, n') => (Panic p, n')
  end.

Definition get : M Node := fun n => (Ret n, n).
Definition modify (f : Node -> Node) : M unit := fun n => (Ret tt, f n).
Definition throw {A} (e : list raft_error) : M A := fun n => (Fail e, n).
Definition panic {A} (p : nat) : M A := fun n => (Panic p, n).
Definition lift {A} (o : outcome A) : M A := fun n => (o, n).
(** [invariant.Assert] *)
Definition assert_ (b : bool) (p : nat) : M unit := if b then mret tt else panic p.

(** Reads of Go maps (absent keys and nil maps give the zero value). *)
Definition map_get (m : option (gmap NodeID Z)) (k : NodeID) : Z :=
  default 0 (m ≫= (fun m => m !! k)).
Definition vote_get (m : option (gmap NodeID bool)) (k : NodeID) : bool :=
  default false (m ≫= (fun m => m !! k)).
(** Writes; a nil map panics. *)
Definition put_nextIndex (k : NodeID) (v : Z) : M unit := n ← get;
  match nextIndex n with
  | Some m => modify (set_nextIndex (Some (<[k := v]> m)))
  | None => panic nil_map_write
  end.
Definition put_matchIndex (k : NodeID) (v : Z) : M unit := n ← get;
  match matchIndex n with
  | Some m => modify (set_matchIndex (Some (<[k := v]> m)))
  | None => panic nil_map_write
  end.
Definition put_vote (k : NodeID) : M unit := n ← get;
  match votes n with
  | Some m => modify (set_votes (Some (<[k := true]> m)))
  | None => panic nil_map_write
  end.

(** ** Log access *)

Definition term (n : Node) : Z := hsTerm (psHard (persistent n)).
Definition lastIndex (n : Node) : Z := ps_lastIndex (persistent n).
Definition lastTerm (n : Node) : Z := ps_lastTerm (persistent n).
Definition termAt (n : Node) (index : Z) : outcome Z := ps_termAt (persistent n) index.
Definition entryAt (n : Node) (index : Z) : outcome Entry := ps_entryAt (persistent n) index.
Definition entriesFrom (n : Node) (index : Z) : outcome (list Entry) :=
  ps_entriesFrom (persistent n) index.

Definition truncateSuffix (index : Z) : M unit :=
  n ← get;
  assert_ (commitIndex n <? index) 4%nat;;
  let cut := Z.to_nat (u64 (index - snapIndex (snapshot_of n) - 1)) in
  if Nat.leb cut (length (entries_of n)) then modify (set_entries (take cut (entries_of n)))
  else panic index_out_of_range.

Definition firstIndexOfTerm (n : Node) (index term : Z) : outcome Z :=
  ps_firstIndexOfTerm (persistent n) index term.

Definition logUpToDate (n : Node) (index term : Z) : bool :=
  (lastTerm n <? term) || (term =? lastTerm n) && (lastIndex n <=? index).

(** ** Failure, persistence, timers *)

Definition usable : M unit :=
  n ← get;
  match fatal n with
  | Some e => throw (ErrStopped :: e)
  | None => if stopped n then throw [ErrStopped] else mret tt
  end.

(** [n.fail(err)] *)
Definition fail_ {A} (e : list raft_error) : M A :=
  modify (fun n => set_stopped true (set_fatal (Some e) n));; throw e.

Definition save (state : PersistentState) : M unit :=
  n ← get;
  let '(st', err) := st_save (store n) state in
  modify (set_store st');;
  match err with
  | Some e => fail_ (ErrPersistence :: e)
  | None => mret tt
  end.
Definition persist : M unit := n ← get; save (persistent n).

Definition resetElectionTimer : M unit :=
  modify (set_electionElapsed 0);;
  n ← get;
  let span := u64 (u64 (electionMax n - electionMin n) + 1) in
  modify (set_electionTimeout (electionMin n));;
  if 1 <? span then
    let '(v, rng) := uint64N (random n) span in
    modify (set_random rng);;
    modify (set_electionTimeout (u64 (electionMin n + v)))
  else mret tt.

Definition becomeFollower (leader : NodeID) : M unit :=
  modify (set_role Follower);;
  modify (set_leaderID leader);;
  modify (fun n => set_matchIndex None (set_nextIndex None (set_votes None n)));;
  modify (set_heartbeatElapsed 0);;
  modify (fun n => set_transferElapsed 0 (set_transferring false n));;
  resetElectionTimer.

Definition advanceTerm (t : Z) : M unit :=
  n ← get;
  assert_ (term n <? t) 6%nat;;
  modify (set_hard {| hsTerm := t; VotedFor := 0 |});;
  becomeFollower 0;;
  persist.

(** ** Configuration changes *)

(** The two loops over [n.peers] and [n.nextIndex]. *)
Fixpoint add_new_peers (last : Z) (ps : list NodeID) : M unit :=
  match ps with
  | [] => mret tt
  | p :: rest =>
      n ← get;
      match nextIndex n ≫= (fun m => m !! p) with
      | Some _ => mret tt
      | None =>
          put_nextIndex p (u64 (last + 1));;
          put_matchIndex p (snapIndex (snapshot_of n))
      end;;
      add_new_peers last rest
  end.
Definition drop_old_peers : M unit :=
  modify (fun n =>
    match nextIndex n with
    | None => n
    | Some m =>
        let keepNext (kv : NodeID * Z) := kv.1 ∈ peers n in
        let keepMatch (kv : NodeID * Z) := is_Some (m !! kv.1) -> kv.1 ∈ peers n in
        set_matchIndex (filter keepMatch <$> matchIndex n) (set_nextIndex (Some (filter keepNext m)) n)
    end).

Definition installConfiguration (next : Configuration) : M unit :=
  modify (set_configuration (normalizeConfiguration next));;
  modify (fun n => set_peers (Members (configuration n)) n);;
  n ← get;
  (if bool_decide (role n = Leader) then
     add_new_peers (lastIndex n) (peers n);;
     drop_old_peers
   else mret tt);;
  n ← get;
  if negb (Voter (configuration n) (id n)) && negb (bool_decide (role n = Follower))
  then becomeFollower 0 else mret tt.

(** ** Commit and apply *)

(** One iteration's [switch entry.Type]. *)
Definition apply_entry (entry : Entry) : M unit :=
  if Byte.eqb (EType entry) EntryCommand then
    n ← get;
    let '(sm', err) := sm_apply (stateMachine n) entry in
    modify (set_stateMachine sm');;
    match err with
    | Some e => fail_ (ErrApply :: e)
    | None => mret tt
    end
  else if Byte.eqb (EType entry) EntryConfig then
    match DecodeConfiguration (Command entry) with
    | Err e => fail_ (ErrApply :: ErrConfigTransition :: e)
    | Ok next =>
        n ← get;
        if Version (configuration n) <? Version next then
          if negb (is_ok (validateConfigurationTransition (configuration n) next))
          then fail_ [ErrApply; ErrConfigTransition]
          else
            installConfiguration next;;
            modify (set_psConfig next);;
            persist
        else mret tt
    end
  else mret tt.

Fixpoint apply_loop (fuel : nat) : M unit :=
  match fuel with
  | O => mret tt
  | S f =>
      n ← get;
      if lastApplied n <? commitIndex n then
        let index := u64 (lastApplied n + 1) in
        match entryAt n index with
        | Panic p => panic p
        | Fail e => fail_ (ErrApply :: e)
        | Ret entry =>
            apply_entry entry;;
            modify (set_lastApplied index);;
            apply_loop f
        end
      else mret tt
  end.
(** Every iteration advances [lastApplied] by one and none moves
    [commitIndex], so the difference bounds the loop. *)
Definition applyCommitted : M unit :=
  n ← get;
  apply_loop (Z.to_nat (commitIndex n - lastApplied n));;
  n ← get;
  assert_ (lastApplied n <=? commitIndex n) 7%nat.

(** The loop from [lastIndex] down to [commitIndex+1]. *)
Fixpoint commit_loop (fuel : nat) (index : Z) : M unit :=
  match fuel with
  | O => mret tt
  | S f =>
      n ← get;
      t ← lift (termAt n index);
      if negb (t =? term n) then commit_loop f (index - 1)
      else if Quorum (configuration n) (fun peer => index <=? map_get (matchIndex n) peer) then
        modify (set_commitIndex index);;
        applyCommitted
      else commit_loop f (index - 1)
  end.
Definition advanceCommit : M unit :=
  n ← get;
  if bool_decide (role n = Leader)
  then commit_loop (Z.to_nat (lastIndex n - commitIndex n)) (lastIndex n)
  else mret tt.

(** ** Replication *)

Definition replicationMessage (n : Node) (peer : NodeID) : outcome Message :=
  let next := map_get (nextIndex n) peer in
  if next <=? snapIndex (snapshot_of n) then
    Ret {| mType := InstallSnapshot; mFrom := id n; mTo := peer; mTerm := term n;
           CandidateLastIndex := 0; CandidateLastTerm := 0; VoteGranted := false;
           PrevLogIndex := 0; PrevLogTerm := 0; mEntries := []; LeaderCommit := commitIndex n;
           Success := false; MatchIndex := 0; RejectHint := 0; mSnapshot := snapshot_of n |}
  else
    let previous := next - 1 in
    match termAt n previous with
    | Panic p => Panic p
    | Fail _ => Panic 3
    | Ret previousTerm =>
        match entriesFrom n next with
        | Panic p => Panic p
        | Fail _ => Panic 3
        | Ret entries =>
            Ret {| mType := AppendEntries; mFrom := id n; mTo := peer; mTerm := term n;
                   CandidateLastIndex := 0; CandidateLastTerm := 0; VoteGranted := false;
                   PrevLogIndex := previous; PrevLogTerm := previousTerm; mEntries := entries;
                   LeaderCommit := commitIndex n;
                   Success := false; MatchIndex := 0; RejectHint := 0; mSnapshot := zero_snapshot |}
        end
    end.

Fixpoint replication_loop (n : Node) (ps : list NodeID) : outcome (list Message) :=
  match ps with
  | [] => Ret []
  | p :: rest =>
      if p =? id n then replication_loop n rest
      else
        m ← replicationMessage n p;
        ms ← replication_loop n rest;
        Ret (m :: ms)
  end.
(** [make([]Message, 0, len(n.peers)-1)] panics without peers. *)
Definition replicationMessages : M (list Message) :=
  n ← get;
  if len (peers n) =? 0 then panic make_negative
  else lift (replication_loop n (peers n)).

Definition appendResponse (n : Node) (to : NodeID) (success : bool) (match_ hint : Z) : Message :=
  {| mType := AppendEntriesResponse; mFrom := id n; mTo := to; mTerm := term n;
     CandidateLastIndex := 0; CandidateLastTerm := 0; VoteGranted := false;
     PrevLogIndex := 0; PrevLogTerm := 0; mEntries := []; LeaderCommit := 0;
     Success := success; MatchIndex := match_; RejectHint := hint; mSnapshot := zero_snapshot |}.
Definition snapshotResponse (n : Node) (to : NodeID) (success : bool) (match_ : Z) : Message :=
  {| mType := InstallSnapshotResponse; mFrom := id n; mTo := to; mTerm := term n;
     CandidateLastIndex := 0; CandidateLastTerm := 0; VoteGranted := false;
     PrevLogIndex := 0; PrevLogTerm := 0; mEntries := []; LeaderCommit := 0;
     Success := success; MatchIndex := match_; RejectHint := 0; mSnapshot := zero_snapshot |}.

(** ** Elections *)

(** [for _, peer := range n.peers { nextIndex[peer] = next; matchIndex[peer] = ... }]
    on two freshly made maps. *)
Definition init_peers (ps : list NodeID) (v : Z) : gmap NodeID Z :=
  foldl (fun m p => <[p := v]> m) ∅ ps.

(** [n.persistent.Entries = append(n.persistent.Entries, entry)] and persist,
    then record the leader's own progress and try to commit. *)
Definition append_own (entry : Entry) : M unit :=
  modify (fun n => set_entries (entries_of n ++ [entry]) n);;
  persist;;
  n ← get;
  put_matchIndex (id n) (Index entry);;
  put_nextIndex (id n) (u64 (Index entry + 1));;
  advanceCommit.

Definition becomeLeader : M (list Message) :=
  n ← get;
  if lastIndex n =? MaxUint64 then fail_ [ErrResourceLimit]
  else
    modify (fun n => set_leaderID (id n) (set_role Leader n));;
    modify (set_votes None);;
    modify (set_heartbeatElapsed 0);;
    let next := u64 (lastIndex n + 1) in
    modify (set_nextIndex (Some (init_peers (peers n) next)));;
    modify (set_matchIndex (Some (init_peers (peers n) (snapIndex (snapshot_of n)))));;
    append_own {| Index := next; Term := term n; EType := EntryNoOp; Command := [] |};;
    replicationMessages.

Definition startElection : M (list Message) :=
  n ← get;
  if negb (Voter (configuration n) (id n)) then mret []
  else
    modify (fun n => set_leaderID 0 (set_role Candidate n));;
    if term n =? MaxUint64 then fail_ [ErrResourceLimit]
    else
      modify (fun n => set_hard {| hsTerm := u64 (term n + 1); VotedFor := id n |} n);;
      modify (fun n => set_votes (Some {[id n := true]}) n);;
      modify (fun n => set_matchIndex None (set_nextIndex None n));;
      resetElectionTimer;;
      persist;;
      n ← get;
      if Quorum (configuration n) (fun i => i =? id n) then becomeLeader
      else if len (peers n) =? 0 then panic make_negative
      else
        mret (map (fun peer =>
          {| mType := RequestVote; mFrom := id n; mTo := peer; mTerm := term n;
             CandidateLastIndex := lastIndex n; CandidateLastTerm := lastTerm n; VoteGranted := false;
             PrevLogIndex := 0; PrevLogTerm := 0; mEntries := []; LeaderCommit := 0;
             Success := false; MatchIndex := 0; RejectHint := 0; mSnapshot := zero_snapshot |})
          (filter (fun peer => peer <> id n /\ Voter (configuration n) peer = true)
             (Members (configuration n)))).

(** ** Message handlers *)

Definition handleRequestVote (message : Message) : M (list Message) :=
  if mTerm message <? CandidateLastTerm message then throw [ErrInvalidMessage]
  else
    n ← get;
    let votedFor := VotedFor (psHard (persistent n)) in
    let granted :=
      Voter (configuration n) (id n) && Voter (configuration n) (mFrom message)
      && (mTerm message =? term n)
      && logUpToDate n (CandidateLastIndex message) (CandidateLastTerm message)
      && ((votedFor =? 0) || (votedFor =? mFrom message)) in
    (if granted then
       (if negb (votedFor =? mFrom message) then
          modify (fun n => set_hard {| hsTerm := term n; VotedFor := mFrom message |} n);;
          persist
        else mret tt);;
       resetElectionTimer
     else mret tt);;
    n ← get;
    mret [{| mType := RequestVoteResponse; mFrom := id n; mTo := mFrom message; mTerm := term n;
             CandidateLastIndex := 0; CandidateLastTerm := 0; VoteGranted := granted;
             PrevLogIndex := 0; PrevLogTerm := 0; mEntries := []; LeaderCommit := 0;
             Success := false; MatchIndex := 0; RejectHint := 0; mSnapshot := zero_snapshot |}].

Definition handleVoteResponse (message : Message) : M (list Message) :=
  n ← get;
  if (mTerm message <? term n) || negb (bool_decide (role n = Candidate))
     || negb (mTerm message =? term n) then mret []
  else
    (if VoteGranted message then put_vote (mFrom message) else mret tt);;
    n ← get;
    if Quorum (configuration n) (fun i => vote_get (votes n) i) then becomeLeader
    else mret [].

(** The loop of [validateAppend]. *)
Fixpoint validate_append_loop (want previousTerm msgTerm : Z) (entries : list Entry) : bool :=
  match entries with
  | [] => true
  | e :: rest =>
      if negb (Index e =? want) || (Term e =? 0) || (Term e <? previousTerm) || (msgTerm <? Term e)
         || negb (validEntryType (EType e)) || (MaxCommandBytes <? len (Command e))
         || Byte.eqb (EType e) EntryNoOp && negb (len (Command e) =? 0)
      then false
      else validate_append_loop (u64 (want + 1)) (Term e) msgTerm rest
  end.
Definition validateAppend (message : Message) : bool :=
  if u64 (MaxUint64 - PrevLogIndex message) <? len (mEntries message) then false
  else validate_append_loop (u64 (PrevLogIndex message + 1)) (PrevLogTerm message)
         (mTerm message) (mEntries message).

(** The loop over [message.Entries]; the argument is [message.Entries[offset:]]
    and the result is [changed]. *)
Fixpoint append_loop (incoming : list Entry) : M bool :=
  match incoming with
  | [] => mret false
  | e :: rest =>
      n ← get;
      match entryAt n (Index e) with
      | Panic p => panic p
      | Ret local =>
          if Term local =? Term e then
            assert_ (Byte.eqb (EType local) (EType e) && bytes_eqb (Command local) (Command e)) 3%nat;;
            append_loop rest
          else if Index e <=? commitIndex n then panic 4%nat
          else
            truncateSuffix (Index e);;
            modify (fun n => set_entries (entries_of n ++ incoming) n);;
            mret true
      | Fail err =>
          if bool_decide (ErrUnavailable ∈ err) then
            modify (fun n => set_entries (entries_of n ++ incoming) n);;
            mret true
          else throw err
      end
  end.

Definition handleAppendEntries (message : Message) : M (list Message) :=
  n ← get;
  if mTerm message <? term n then
    mret [appendResponse n (mFrom message) false 0 (u64 (lastIndex n + 1))]
  else
    assert_ (negb (bool_decide (role n = Leader) && negb (mFrom message =? id n))) 1%nat;;
    (if negb (bool_decide (role n = Follower)) || negb (leaderID n =? mFrom message)
     then becomeFollower (mFrom message) else resetElectionTimer);;
    if negb (validateAppend message) then throw [ErrInvalidMessage]
    else
      n ← get;
      if PrevLogIndex message <? snapIndex (snapshot_of n) then
        let hint := snapIndex (snapshot_of n) in
        let hint := if hint <? MaxUint64 then hint + 1 else hint in
        mret [appendResponse n (mFrom message) false 0 hint]
      else
        match termAt n (PrevLogIndex message) with
        | Panic p => panic p
        | Fail err =>
            if bool_decide (ErrUnavailable ∈ err) then
              mret [appendResponse n (mFrom message) false 0 (u64 (lastIndex n + 1))]
            else throw err
        | Ret previousTerm =>
            if negb (previousTerm =? PrevLogTerm message) then
              hint ← lift (firstIndexOfTerm n (PrevLogIndex message) previousTerm);
              mret [appendResponse n (mFrom message) false 0 hint]
            else
              changed ← append_loop (mEntries message);
              (if changed : bool then persist else mret tt);;
              let lastCovered := u64 (PrevLogIndex message + len (mEntries message)) in
              n ← get;
              (if commitIndex n <? LeaderCommit message then
                 modify (set_commitIndex (Z.min (LeaderCommit message) lastCovered));;
                 applyCommitted
               else mret tt);;
              n ← get;
              mret [appendResponse n (mFrom message) true lastCovered 0]
        end.

Definition handleAppendResponse (message : Message) : M (list Message) :=
  n ← get;
  if (mTerm message <? term n) || negb (bool_decide (role n = Leader))
     || negb (mTerm message =? term n) then mret []
  else if Success message then
    if lastIndex n <? MatchIndex message then throw [ErrInvalidMessage]
    else
      (if map_get (matchIndex n) (mFrom message) <? MatchIndex message then
         put_matchIndex (mFrom message) (MatchIndex message);;
         put_nextIndex (mFrom message) (u64 (MatchIndex message + 1))
       else mret tt);;
      let before := commitIndex n in
      advanceCommit;;
      n ← get;
      if negb (commitIndex n =? before) then replicationMessages else mret []
  else
    let current := map_get (nextIndex n) (mFrom message) in
    let hint := RejectHint message in
    let maximumNext := if lastIndex n <? MaxUint64 then lastIndex n + 1 else lastIndex n in
    if (current <? hint) && (hint <=? maximumNext) then
      put_nextIndex (mFrom message) hint;;
      n ← get;
      m ← lift (replicationMessage n (mFrom message));
      mret [m]
    else
      let hint :=
        if (hint =? 0) || (current <=? hint) then
          if 1 <? current then current - 1 else 1
        else hint in
      put_nextIndex (mFrom message) hint;;
      n ← get;
      m ← lift (replicationMessage n (mFrom message));
      mret [m].

(** The guard of [handleInstallSnapshot]. *)
Definition snapshot_message_ok (message : Message) : bool :=
  let snap := mSnapshot message in
  negb ((snapIndex snap =? 0) || (snapTerm snap =? 0) || (mTerm message <? snapTerm snap)
        || (MaxCommandBytes <? len (snapData snap))
        || negb (Version (snapConfig snap) =? 0)
           && negb (is_ok (validateConfiguration (snapConfig snap)))).

Definition handleInstallSnapshot (message : Message) : M (list Message) :=
  n ← get;
  let snap := mSnapshot message in
  if mTerm message <? term n then
    mret [snapshotResponse n (mFrom message) false (snapIndex (snapshot_of n))]
  else if negb (snapshot_message_ok message) then throw [ErrInvalidMessage]
  else
    assert_ (negb (bool_decide (role n = Leader) && negb (mFrom message =? id n))) 1%nat;;
    becomeFollower (mFrom message);;
    n ← get;
    if (snapIndex snap <=? snapIndex (snapshot_of n)) || (snapIndex snap <=? commitIndex n) then
      let covered := Z.max (snapIndex snap) (snapIndex (snapshot_of n)) in
      mret [snapshotResponse n (mFrom message) true (Z.min covered (lastIndex n))]
    else
      suffix ← (match termAt n (snapIndex snap) with
                | Panic p => panic p
                | Fail _ => mret []
                | Ret t =>
                    if t =? snapTerm snap then lift (entriesFrom n (u64 (snapIndex snap + 1)))
                    else mret []
                end);
      let candidate := {|
        psHard := psHard (persistent n);
        psSnapshot := snap;
        psConfig := if Version (psConfig (persistent n)) <? Version (snapConfig snap)
                    then snapConfig snap else psConfig (persistent n);
        psEntries := suffix |} in
      save candidate;;
      n ← get;
      let '(sm', err) := sm_restore (stateMachine n) (snapData snap) in
      modify (set_stateMachine sm');;
      match err with
      | Some e => fail_ (ErrApply :: e)
      | None =>
          modify (set_persistent candidate);;
          n ← get;
          (if Version (configuration n) <? Version (psConfig candidate)
           then installConfiguration (psConfig candidate) else mret tt);;
          modify (fun n => set_commitIndex (Z.max (commitIndex n) (snapIndex snap)) n);;
          modify (set_lastApplied (snapIndex snap));;
          n ← get;
          mret [snapshotResponse n (mFrom message) true (snapIndex snap)]
      end.

Definition handleSnapshotResponse (message : Message) : M (list Message) :=
  n ← get;
  if (mTerm message <? term n) || negb (bool_decide (role n = Leader))
     || negb (mTerm message =? term n) then mret []
  else if negb (Success message) then mret []
  else if lastIndex n <? MatchIndex message then throw [ErrInvalidMessage]
  else
    let m := Z.max (map_get (matchIndex n) (mFrom message)) (MatchIndex message) in
    put_matchIndex (mFrom message) m;;
    put_nextIndex (mFrom message) (u64 (m + 1));;
    n ← get;
    m ← lift (replicationMessage n (mFrom message));
    mret [m].

Definition handleTimeoutNow (message : Message) : M (list Message) :=
  n ← get;
  if negb (mTerm message =? term n) || negb (bool_decide (role n = Follower))
     || negb (leaderID n =? mFrom message) || negb (Voter (configuration n) (id n)) then mret []
  else startElection.

Definition validMessageType (kind : MessageType) : bool :=
  (byte.unsigned RequestVote <=? byte.unsigned kind)
  && (byte.unsigned kind <=? byte.unsigned TimeoutNow).

Definition Step (message : Message) : M (list Message) :=
  usable;;
  n ← get;
  if negb (mTo message =? id n) || (mFrom message =? 0)
     || negb (contains (peers n) (mFrom message)) || negb (validMessageType (mType message))
  then throw [ErrInvalidMessage]
  else
    (if term n <? mTerm message then advanceTerm (mTerm message) else mret tt);;
    if Byte.eqb (mType message) RequestVote then handleRequestVote message
    else if Byte.eqb (mType message) RequestVoteResponse then handleVoteResponse message
    else if Byte.eqb (mType message) AppendEntries then handleAppendEntries message
    else if Byte.eqb (mType message) AppendEntriesResponse then handleAppendResponse message
    else if Byte.eqb (mType message) InstallSnapshot then handleInstallSnapshot message
    else if Byte.eqb (mType message) InstallSnapshotResponse then handleSnapshotResponse message
    else if Byte.eqb (mType message) TimeoutNow then handleTimeoutNow message
    else throw [ErrInvalidMessage].

(** ** Client and runtime operations *)

Definition Tick : M (list Message) :=
  usable;;
  n ← get;
  if bool_decide (role n = Leader) then
    (if transferring n then
       modify (fun n => set_transferElapsed (u64 (transferElapsed n + 1)) n);;
       n ← get;
       if electionTimeout n <=? transferElapsed n
       then modify (fun n => set_transferElapsed 0 (set_transferring false n)) else mret tt
     else mret tt);;
    modify (fun n => set_heartbeatElapsed (u64 (heartbeatElapsed n + 1)) n);;
    n ← get;
    if heartbeatElapsed n <? heartbeatInterval n then mret []
    else
      modify (set_heartbeatElapsed 0);;
      replicationMessages
  else if negb (Voter (configuration n) (id n)) then
    modify (set_electionElapsed 0);;
    mret []
  else
    modify (fun n => set_electionElapsed (u64 (electionElapsed n + 1)) n);;
    n ← get;
    if electionElapsed n <? electionTimeout n then mret []
    else startElection.

(** The common admission checks of the proposal methods. *)
Definition allow_proposal : M unit :=
  usable;;
  n ← get;
  if negb (bool_decide (role n = Leader)) then throw [ErrNotLeader]
  else if transferring n then throw [ErrLeadershipTransfer]
  else mret tt.

Definition ProposeConfiguration (next : Configuration) : M (Z * list Message) :=
  allow_proposal;;
  n ← get;
  match validateConfigurationTransition (configuration n) next with
  | Err e => throw e
  | Ok _ =>
      if existsb (fun e => (commitIndex n <? Index e) && Byte.eqb (EType e) EntryConfig) (entries_of n)
      then throw [ErrConfigTransition]
      else
        match EncodeConfiguration next with
        | Err e => throw e
        | Ok encoded =>
            let entry := {| Index := u64 (lastIndex n + 1); Term := term n;
                            EType := EntryConfig; Command := encoded |} in
            append_own entry;;
            ms ← replicationMessages;
            mret (Index entry, ms)
        end
  end.

Definition Propose (command : bytes) : M (Z * list Message) :=
  allow_proposal;;
  n ← get;
  if MaxCommandBytes <? len command then throw [ErrResourceLimit]
  else if lastIndex n =? MaxUint64 then throw [ErrResourceLimit]
  else
    let entry := {| Index := u64 (lastIndex n + 1); Term := term n;
                    EType := EntryCommand; Command := command |} in
    append_own entry;;
    ms ← replicationMessages;
    mret (Index entry, ms).

Definition ProposeNoOp : M (Z * list Message) :=
  allow_proposal;;
  n ← get;
  if lastIndex n =? MaxUint64 then throw [ErrResourceLimit]
  else
    let entry := {| Index := u64 (lastIndex n + 1); Term := term n;
                    EType := EntryNoOp; Command := [] |} in
    append_own entry;;
    ms ← replicationMessages;
    mret (Index entry, ms).

Definition TransferLeadership (target : NodeID) : M (list Message) :=
  usable;;
  n ← get;
  if negb (bool_decide (role n = Leader)) || (target =? id n)
     || negb (Voter (configuration n) target) || (map_get (matchIndex n) target <? lastIndex n)
  then throw [ErrLeadershipTransfer]
  else
    modify (fun n => set_transferElapsed 0 (set_transferring true n));;
    mret [new_message TimeoutNow (id n) target (term n)].

Definition CreateSnapshot : M Snapshot :=
  usable;;
  n ← get;
  if (lastApplied n =? 0) || (lastApplied n <=? snapIndex (snapshot_of n)) then throw [ErrUnavailable]
  else
    t ← lift (termAt n (lastApplied n));
    match sm_snapshot (stateMachine n) with
    | Err e => throw (ErrApply :: e)
    | Ok data =>
        let snap := {| snapIndex := lastApplied n; snapTerm := t; snapData := data;
                       snapConfig := configuration n |} in
        remaining ← lift (entriesFrom n (u64 (snapIndex snap + 1)));
        let candidate := {| psHard := psHard (persistent n); psSnapshot := snap;
                            psConfig := psConfig (persistent n); psEntries := remaining |} in
        save candidate;;
        modify (set_persistent candidate);;
        mret snap
    end.

Definition Stop : M unit := modify (set_stopped true).

(** ** Construction *)

Record Config := {
  cfgID : NodeID;
  cfgPeers : list NodeID;
  ElectionTimeoutMin : Z;
  ElectionTimeoutMax : Z;
  HeartbeatInterval : Z;
  cfgRandom : Rng;
  cfgStore : St;
  cfgStateMachine : SM;
  InitialConfig : Configuration;
  BootstrapLearner : bool
}.

(** The adjacent-duplicate loop of [validateConfig]. *)
Fixpoint no_adjacent_dup (l : list NodeID) : bool :=
  match l with
  | x :: (y :: _) as rest => negb (y =? x) && no_adjacent_dup rest
  | _ => true
  end.
(** The store, state machine and random source are never nil here. *)
Definition validateConfig (config : Config) : result (list raft_error) unit :=
  _ ← require (negb ((cfgID config =? 0) || (ElectionTimeoutMin config =? 0)
        || (ElectionTimeoutMax config <? ElectionTimeoutMin config)
        || (HeartbeatInterval config =? 0)
        || (ElectionTimeoutMin config <=? HeartbeatInterval config)
        || (len (cfgPeers config) =? 0))) [ErrInvalidConfig];
  let peers := sort_ids (cfgPeers config) in
  _ ← require (negb ((default 0 (head peers) =? 0) || negb (contains peers (cfgID config))))
        [ErrInvalidConfig];
  require (no_adjacent_dup peers) [ErrInvalidConfig].

(** [initial] after the three assignments and the normalization. *)
Definition initial_configuration (config : Config) (state : PersistentState) : Configuration :=
  let initial := InitialConfig config in
  let initial := if Version initial =? 0
    then {| Version := 1; OldVoters := cfgPeers config; NewVoters := []; Learners := [] |}
    else initial in
  let initial := if negb (Version (psConfig state) =? 0) then psConfig state else initial in
  normalizeConfiguration initial.

Definition NewNode (config : Config) : outcome Node :=
  match validateConfig config with
  | Err e => Fail e
  | Ok _ =>
  match st_load (cfgStore config) with
  | Err e => Fail e
  | Ok state =>
  match validatePersistent state with
  | Err e => Fail e
  | Ok _ =>
      let initial := initial_configuration config state in
      if negb (is_ok (validateConfiguration initial))
         || negb (BootstrapLearner config) && negb (Voter initial (cfgID config))
            && negb (Learner initial (cfgID config))
      then Fail [ErrInvalidConfig]
      else if negb (VotedFor (psHard state) =? 0) && negb (Voter initial (VotedFor (psHard state)))
      then Fail [ErrInvalidState]
      else
        let n := mkNode (cfgID config) (Members initial) initial
          (ElectionTimeoutMin config) (ElectionTimeoutMax config) (HeartbeatInterval config)
          (cfgRandom config) (cfgStore config) (cfgStateMachine config)
          {| psHard := psHard state; psSnapshot := psSnapshot state; psConfig := initial;
             psEntries := psEntries state |}
          Follower 0 (snapIndex (psSnapshot state)) (snapIndex (psSnapshot state))
          0 0 0 0 false None None None false None in
        let '(sm', err) :=
          if negb (snapIndex (psSnapshot state) =? 0)
          then sm_restore (stateMachine n) (snapData (psSnapshot state))
          else (stateMachine n, None) in
        match err with
        | Some e => Fail (ErrApply :: e)
        | None =>
            match resetElectionTimer (set_stateMachine sm' n) with
            | (Ret _, n') => Ret n'
            | (Fail e, _) => Fail e
            | (Panic p, _) => Panic p
            end
        end
  end end end.

End node.

Arguments Node {_}.
Arguments Config {_}.

(** ** The node over [MemoryStore] *)

Section memory_env.
Context (S : Type) (apply : S -> Entry -> S * option (list raft_error))
  (snap : S -> result (list raft_error) bytes) (restore : S -> bytes -> S * option (list raft_error))
  (R : Type) (draw : R -> Z -> Z * R).

Definition memory_env : RaftEnv := {|
  SM := S; sm_apply := apply; sm_snapshot := snap; sm_restore := restore;
  St := MemoryStore; st_load := MemoryStore_Load; st_save := MemoryStore_Save;
  Rng := R; uint64N := draw |}.

#[global] Instance memory_store_laws : @StoreLaws memory_env.
Proof.
  split; cbn; unfold MemoryStore_Save, MemoryStore_Load; intros s p s'.
  - destruct (validatePersistent p) as [[]|]; [|done].
    destruct (saveHook s ≫= _); [done|]. by destruct (saveErr s); [|intros [= <-]].
  - intros e. destruct (validatePersistent p); [|intros [= <- _]; auto].
    destruct (saveHook s ≫= _); [intros [= <- _]; auto|].
    destruct (saveErr s); intros [= <- _]; auto.
Qed.
End memory_env.

(** A concrete environment for the witnesses: the state machine records the
    commands it is given, and the random source always draws zero. *)
Definition test_env : RaftEnv :=
  memory_env (list bytes) (fun s e => (s ++ [Command e], None)) (fun s => Ok (concat s))
    (fun _ b => ([b], None)) unit (fun g _ => (0, g)).

Definition test_config (i : NodeID) (ids : list NodeID) : @Config test_env := @Build_Config test_env
  i ids 5 5 1 tt NewMemoryStore ([] : list bytes) zero_config false.
Definition test_node (i : NodeID) (ids : list NodeID) : option (@Node test_env) :=
  match @NewNode test_env (test_config i ids) with Ret n => Some n | _ => None end.

(** A three-node election: node 1 times out, node 2 grants its vote, node 1
    leads term 1, commits its no-op once node 2 has it, and the command
    proposed next is applied. *)
Definition election_run : option (Role * Z * Z * list bytes) :=
  n1 ← test_node 1 [1;2;3];
  n2 ← test_node 2 [1;2;3];
  let run {A} (m : M A) (n : Node) : option (A * Node) :=
    match m n with (Ret a, n') => Some (a, n') | _ => None end in
  '(ms, n1) ← run startElection n1;
  vote ← head ms;
  '(ms, n2) ← run (Step vote) n2;
  grant ← head ms;
  '(ms, n1) ← run (Step grant) n1;
  app ← head ms;
  '(ms, n2) ← run (Step app) n2;
  ack ← head ms;
  '(_, n1) ← run (Step ack) n1;
  '(_, n1) ← run (Propose [Byte.x2a]) n1;
  '(ms, n1) ← run Tick n1;
  app ← head ms;
  '(ms, n2) ← run (Step app) n2;
  ack ← head ms;
  '(_, n1) ← run (Step ack) n1;
  Some (role n1, term n1, commitIndex n1, stateMachine n1).

Example election_run_ok : election_run = Some (Leader, 1, 2, [[Byte.x2a]]).
Proof. vm_compute. reflexivity. Qed.
