(* ===== verification/RaftLog.v ===== *)
(** * Well-formed Raft logs

    The invariant of a persistent state that [validatePersistent] checks
    (contiguous indices above the snapshot, terms that never decrease and
    never exceed the hard-state term), and what the log accessors of node.go
    return under it. *)

From S2P Require Import Prelude Membership RaftTypes.

(** The values of Go's unsigned fields. *)
Definition entry_typed (e : Entry) : Prop := is_u64 (Index e) /\ is_u64 (Term e).
Definition snapshot_typed (s : Snapshot) : Prop := is_u64 (snapIndex s) /\ is_u64 (snapTerm s).
Definition ps_typed (p : PersistentState) : Prop :=
  is_u64 (hsTerm (psHard p)) /\ is_u64 (VotedFor (psHard p)) /\
  snapshot_typed (psSnapshot p) /\ Forall entry_typed (psEntries p) /\
  len (psEntries p) <= MaxUint64.

(** The entry at a log index, and the term at an index the log covers (the
    snapshot boundary included). *)
Definition log_entry (p : PersistentState) (i : Z) : option Entry :=
  if snapIndex (psSnapshot p) <? i
  then psEntries p !! Z.to_nat (i - snapIndex (psSnapshot p) - 1) else None.
Definition log_term (p : PersistentState) (i : Z) : option Z :=
  if i =? snapIndex (psSnapshot p) then Some (snapTerm (psSnapshot p))
  else Term <$> log_entry p i.

(** Entries starting at index [i] after an entry of term [t], all of terms up
    to [hi]. *)
Inductive chain (hi : Z) : Z -> Z -> list Entry -> Prop :=
  | chain_nil i t : chain hi i t []
  | chain_cons i t e es :
      Index e = i -> t <= Term e -> 0 < Term e <= hi ->
      chain hi (i + 1) (Term e) es -> chain hi i t (e :: es).

Record log_wf (p : PersistentState) : Prop := {
  lw_term : is_u64 (hsTerm (psHard p));
  lw_snap : 0 <= snapIndex (psSnapshot p);
  lw_snapterm : 0 <= snapTerm (psSnapshot p) <= hsTerm (psHard p);
  lw_room : snapIndex (psSnapshot p) + len (psEntries p) <= MaxUint64;
  lw_chain : chain (hsTerm (psHard p)) (snapIndex (psSnapshot p) + 1)
               (snapTerm (psSnapshot p)) (psEntries p)
}.

(** ** Chains *)

Lemma chain_index hi i t es k e : chain hi i t es -> es !! k = Some e -> Index e = i + Z.of_nat k.
Proof.
  intros Hc. revert k. induction Hc as [|i t e0 es Hi Ht Hhi Hc IH]; intros [|k]; cbn; try done.
  - intros [= <-]. lia.
  - intros Hk%IH. lia.
Qed.

Lemma chain_app hi i t es1 es2 :
  chain hi i t (es1 ++ es2) <->
  chain hi i t es1 /\ chain hi (i + len es1) (default t (Term <$> last es1)) es2.
Proof.
  revert i t. induction es1 as [|e es1 IH]; intros i t; cbn [app].
  { rewrite len_nil, Z.add_0_r. cbn. split; [intros; split; [constructor|done]|by intros []]. }
  rewrite len_cons. split.
  - intros Hc; inversion Hc as [|???? ? ? ? Hc']; subst. apply IH in Hc' as [? Hc'].
    split; [by constructor|]. rewrite last_cons.
    replace (Index e + (1 + len es1)) with (Index e + 1 + len es1) by lia.
    by destruct (last es1).
  - intros [Hc Hc2]. inversion Hc as [|???? ? ? ? Hc']; subst. constructor; try done.
    apply IH. split; [done|]. rewrite last_cons in Hc2.
    replace (Index e + (1 + len es1)) with (Index e + 1 + len es1) in Hc2 by lia.
    by destruct (last es1).
Qed.

Lemma chain_mono hi hi' i t es : hi <= hi' -> chain hi i t es -> chain hi' i t es.
Proof. intros Hle. induction 1; constructor; try done. lia. Qed.

(** Lower bound of the terms. *)
Lemma chain_term_ge hi i t es : chain hi i t es -> Forall (fun e => t <= Term e <= hi) es.
Proof.
  induction 1 as [|i t e es Hi Ht Hhi Hc IH]; constructor; [lia|].
  eapply Forall_impl; [done|]. cbn. lia.
Qed.
Lemma chain_weaken hi i t t' es : t' <= t -> chain hi i t es -> chain hi i t' es.
Proof. intros Hle Hc. inversion Hc; subst; constructor; try done. lia. Qed.

(** ** Accessors on a well-formed log *)

Section accessors.
Context (p : PersistentState) (Hwf : log_wf p).

Lemma lastIndex_eq : ps_lastIndex p = snapIndex (psSnapshot p) + len (psEntries p).
Proof using Hwf.
  unfold ps_lastIndex. destruct (last (psEntries p)) as [e|] eqn:Hl.
  - rewrite last_lookup in Hl. pose proof (lookup_lt_Some _ _ _ Hl).
    apply (chain_index _ _ _ _ _ _ (lw_chain _ Hwf)) in Hl as ->. unfold len. lia.
  - apply last_None in Hl as ->. rewrite len_nil. lia.
Qed.

Lemma log_bounds :
  0 <= snapIndex (psSnapshot p) <= ps_lastIndex p /\ ps_lastIndex p <= MaxUint64.
Proof using Hwf.
  rewrite lastIndex_eq. pose proof (len_nonneg (psEntries p)). destruct Hwf. lia.
Qed.

Lemma log_entry_Some i e :
  log_entry p i = Some e -> snapIndex (psSnapshot p) < i <= ps_lastIndex p /\ Index e = i.
Proof using Hwf.
  unfold log_entry. rewrite lastIndex_eq. case_match eqn:Hi; [|done]. intros Hl.
  pose proof (lookup_lt_Some _ _ _ Hl). apply (chain_index _ _ _ _ _ _ (lw_chain _ Hwf)) in Hl.
  unfold len. lia.
Qed.

Lemma log_entry_is_Some i :
  snapIndex (psSnapshot p) < i <= ps_lastIndex p -> is_Some (log_entry p i).
Proof using Hwf.
  rewrite lastIndex_eq. intros Hi. unfold log_entry.
  rewrite (proj2 (Z.ltb_lt _ _)) by lia. apply lookup_lt_is_Some. unfold len in Hi. lia.
Qed.

Lemma slot_eq i :
  snapIndex (psSnapshot p) < i <= ps_lastIndex p ->
  ps_slot p i = match log_entry p i with Some e => Ret e | None => Panic index_out_of_range end.
Proof using Hwf.
  intros Hi. unfold ps_slot, log_entry. destruct log_bounds. unfold MaxUint64, two64 in *.
  rewrite (proj2 (Z.ltb_lt _ _)) by lia. rewrite u64_id by (unfold is_u64; lia). done.
Qed.

Lemma entryAt_eq i :
  ps_entryAt p i =
    if i <=? snapIndex (psSnapshot p) then Fail [ErrCompacted]
    else match log_entry p i with Some e => Ret e | None => Fail [ErrUnavailable] end.
Proof using Hwf.
  unfold ps_entryAt. destruct (Z.leb_spec i (snapIndex (psSnapshot p))); [done|].
  destruct (Z.ltb_spec (ps_lastIndex p) i).
  - destruct (log_entry p i) eqn:He; [|done]. apply log_entry_Some in He. lia.
  - rewrite slot_eq by lia. destruct (log_entry_is_Some i) as [e ->]; [lia|done].
Qed.

Lemma termAt_eq i :
  ps_termAt p i =
    if i <? snapIndex (psSnapshot p) then Fail [ErrCompacted]
    else match log_term p i with Some t => Ret t | None => Fail [ErrUnavailable] end.
Proof using Hwf.
  unfold ps_termAt, log_term. destruct (Z.eqb_spec i (snapIndex (psSnapshot p))) as [->|].
  { by rewrite Z.ltb_irrefl. }
  destruct (Z.ltb_spec i (snapIndex (psSnapshot p))); [done|].
  destruct (Z.ltb_spec (ps_lastIndex p) i).
  - destruct (log_entry p i) eqn:He; [|done]. apply log_entry_Some in He. lia.
  - rewrite slot_eq by lia. destruct (log_entry_is_Some i) as [e ->]; [lia|done].
Qed.

Lemma log_term_range i :
  is_Some (log_term p i) <-> snapIndex (psSnapshot p) <= i <= ps_lastIndex p.
Proof using Hwf.
  unfold log_term. destruct log_bounds.
  destruct (Z.eqb_spec i (snapIndex (psSnapshot p))) as [->|]; [split; [lia|eauto]|].
  rewrite fmap_is_Some. split.
  - intros [e He%log_entry_Some]. lia.
  - intros. apply log_entry_is_Some. lia.
Qed.

Lemma lastTerm_eq : log_term p (ps_lastIndex p) = Some (ps_lastTerm p).
Proof using Hwf.
  unfold log_term, ps_lastTerm. rewrite lastIndex_eq. destruct (psEntries p) as [|e es] eqn:He using rev_ind.
  - by rewrite len_nil, Z.add_0_r, Z.eqb_refl.
  - rewrite last_snoc, len_app, len_cons, len_nil. pose proof (len_nonneg es).
    rewrite (proj2 (Z.eqb_neq _ _)) by lia. unfold log_entry. rewrite He.
    rewrite (proj2 (Z.ltb_lt _ _)) by lia.
    replace (Z.to_nat _) with (length es) by (unfold len; lia).
    by rewrite lookup_app_r, Nat.sub_diag by lia.
Qed.

(** With room above the last index, [entriesFrom] never fails inside the log. *)
Lemma entriesFrom_eq i :
  ps_lastIndex p < MaxUint64 -> snapIndex (psSnapshot p) < i <= ps_lastIndex p + 1 ->
  ps_entriesFrom p i = Ret (drop (Z.to_nat (i - 1 - snapIndex (psSnapshot p))) (psEntries p)).
Proof using Hwf.
  intros Hmax Hi. pose proof log_bounds. unfold MaxUint64, two64 in *. unfold ps_entriesFrom.
  rewrite (proj2 (Z.leb_gt _ _)) by lia. rewrite (u64_id (ps_lastIndex p + 1)) by (unfold is_u64; lia).
  rewrite (proj2 (Z.ltb_ge _ _)) by lia. rewrite lastIndex_eq in *. unfold len in *.
  destruct (Z.eqb_spec i (snapIndex (psSnapshot p) + Z.of_nat (length (psEntries p)) + 1)) as [->|].
  { by rewrite drop_ge by lia. }
  rewrite u64_id by (unfold is_u64; lia). rewrite (proj2 (Nat.leb_le _ _)) by lia.
  do 2 f_equal. lia.
Qed.

Lemma log_entry_elem i e : log_entry p i = Some e -> e ∈ psEntries p.
Proof. unfold log_entry. case_match; [|done]. apply list_elem_of_lookup_2. Qed.

Lemma log_entry_term i e : log_entry p i = Some e -> 0 < Term e <= hsTerm (psHard p).
Proof using Hwf.
  intros He%log_entry_elem. pose proof (lw_chain _ Hwf) as Hc. clear -He Hc.
  induction Hc; [by apply not_elem_of_nil in He|].
  apply elem_of_cons in He as [->|]; auto.
Qed.

Lemma log_term_bound i t : log_term p i = Some t -> 0 <= t <= hsTerm (psHard p).
Proof using Hwf.
  unfold log_term. case_match; [intros [= <-]; apply (lw_snapterm _ Hwf)|].
  intros Hf. apply fmap_Some in Hf as (e & He & ->). apply log_entry_term in He. lia.
Qed.

Lemma lastTerm_bound : 0 <= ps_lastTerm p <= hsTerm (psHard p).
Proof using Hwf. exact (log_term_bound _ _ lastTerm_eq). Qed.
End accessors.

(** ** Changes of the durable state *)

Definition with_hard (h : HardState) (p : PersistentState) : PersistentState :=
  {| psHard := h; psSnapshot := psSnapshot p; psConfig := psConfig p; psEntries := psEntries p |}.
Definition with_entries (es : list Entry) (p : PersistentState) : PersistentState :=
  {| psHard := psHard p; psSnapshot := psSnapshot p; psConfig := psConfig p; psEntries := es |}.
Definition with_config (c : Configuration) (p : PersistentState) : PersistentState :=
  {| psHard := psHard p; psSnapshot := psSnapshot p; psConfig := c; psEntries := psEntries p |}.
(** A snapshot at [snapIndex snap] with the log that remains above it. *)
Definition with_snapshot (snap : Snapshot) (c : Configuration) (p : PersistentState)
    : PersistentState :=
  {| psHard := psHard p; psSnapshot := snap; psConfig := c;
     psEntries :=
       if bool_decide (log_term p (snapIndex snap) = Some (snapTerm snap))
       then drop (Z.to_nat (snapIndex snap - snapIndex (psSnapshot p))) (psEntries p) else [] |}.

(** The log after the entries of an AppendEntries request, [None] when they
    contradict an entry that is committed or equal in term. *)
Fixpoint accept_log (p : PersistentState) (commit : Z) (incoming : list Entry)
    : option (list Entry) :=
  match incoming with
  | [] => Some (psEntries p)
  | e :: rest =>
      match log_entry p (Index e) with
      | Some local =>
          if Term local =? Term e then
            if bool_decide (local = e) then accept_log p commit rest else None
          else if Index e <=? commit then None
          else Some (take (Z.to_nat (Index e - snapIndex (psSnapshot p) - 1)) (psEntries p) ++ incoming)
      | None => Some (psEntries p ++ incoming)
      end
  end.

(** The log holds the request's previous entry and all its entries. *)
Definition log_covers (p : PersistentState) (m : Message) : Prop :=
  log_term p (PrevLogIndex m) = Some (PrevLogTerm m) /\
  forall e, e ∈ mEntries m -> log_entry p (Index e) = Some e.

(** The log and its tail at an index. *)
Section changes.
Context (p : PersistentState) (Hwf : log_wf p).
Local Abbreviation snap := (snapIndex (psSnapshot p)).
Local Abbreviation cut j := (Z.to_nat (j - snap)).

Lemma cut_le j : snap <= j <= ps_lastIndex p -> (cut j <= length (psEntries p))%nat.
Proof using Hwf. rewrite (lastIndex_eq p Hwf). unfold len. lia. Qed.

Lemma take_len j : snap <= j <= ps_lastIndex p -> len (take (cut j) (psEntries p)) = j - snap.
Proof using Hwf. intros Hj. pose proof (cut_le j Hj). unfold len. rewrite length_take. lia. Qed.

Lemma log_term_take j :
  snap <= j <= ps_lastIndex p ->
  log_term p j = Some (default (snapTerm (psSnapshot p)) (Term <$> last (take (cut j) (psEntries p)))).
Proof using Hwf.
  intros Hj. unfold log_term. destruct (Z.eqb_spec j snap) as [->|Hne].
  { by rewrite Z.sub_diag. }
  pose proof (cut_le j Hj). destruct (log_entry_is_Some p Hwf j) as [e He]; [lia|].
  rewrite He. unfold log_entry in He. rewrite (proj2 (Z.ltb_lt _ _)) in He by lia.
  rewrite last_lookup, length_take, Nat.min_l by lia. rewrite lookup_take_lt by lia.
  replace (pred (cut j)) with (Z.to_nat (j - snap - 1)) by lia. by rewrite He.
Qed.

Lemma chain_cut j :
  snap <= j <= ps_lastIndex p ->
  chain (hsTerm (psHard p)) (snap + 1) (snapTerm (psSnapshot p)) (take (cut j) (psEntries p)) /\
  chain (hsTerm (psHard p)) (j + 1) (default 0 (log_term p j)) (drop (cut j) (psEntries p)).
Proof using Hwf.
  intros Hj. pose proof (lw_chain p Hwf) as Hc.
  rewrite <- (take_drop (cut j) (psEntries p)) in Hc. apply chain_app in Hc as [Hc1 Hc2].
  rewrite take_len in Hc2 by done. rewrite log_term_take by done. split; [done|].
  by replace (snap + 1 + (j - snap)) with (j + 1) in Hc2 by lia.
Qed.

Lemma with_hard_wf h : hsTerm (psHard p) <= hsTerm h -> is_u64 (hsTerm h) -> log_wf (with_hard h p).
Proof using Hwf.
  intros Hle Hh. destruct Hwf. split; cbn; try done; [lia|]. by eapply chain_mono.
Qed.

(** Replacing the log above [j]. *)
Lemma splice_wf j es :
  snap <= j <= ps_lastIndex p -> j + len es <= MaxUint64 ->
  chain (hsTerm (psHard p)) (j + 1) (default 0 (log_term p j)) es ->
  log_wf (with_entries (take (cut j) (psEntries p) ++ es) p).
Proof using Hwf.
  intros Hj Hroom Hc. pose proof (chain_cut j Hj) as [Hc1 _]. pose proof Hwf as [].
  split; cbn; try done.
  - rewrite len_app, take_len by done. lia.
  - apply chain_app. split; [done|]. rewrite take_len by done.
    rewrite log_term_take in Hc by done. cbn [default from_option id] in Hc.
    by replace (snap + 1 + (j - snap)) with (j + 1) by lia.
Qed.

Lemma splice_entry j es i :
  snap <= j <= ps_lastIndex p ->
  log_entry (with_entries (take (cut j) (psEntries p) ++ es) p) i =
    if i <=? j then log_entry p i else es !! Z.to_nat (i - j - 1).
Proof using Hwf.
  intros Hj. pose proof (cut_le j Hj). unfold log_entry; cbn.
  destruct (Z.ltb_spec snap i); destruct (Z.leb_spec i j); try lia; try done.
  - rewrite lookup_app_l by (rewrite length_take; lia). by rewrite lookup_take_lt by lia.
  - rewrite lookup_app_r by (rewrite length_take; lia). rewrite length_take. f_equal. lia.
Qed.
End changes.

(** ** Appending, accepting, compacting *)

Lemma take_all_last p : log_wf p -> take (Z.to_nat (ps_lastIndex p - snapIndex (psSnapshot p))) (psEntries p) = psEntries p.
Proof. intros Hwf. apply take_ge. rewrite (lastIndex_eq p Hwf). unfold len. lia. Qed.

Lemma log_entry_with_entries_same p i : log_entry (with_entries (psEntries p) p) i = log_entry p i.
Proof. done. Qed.

Lemma append_wf p e :
  log_wf p -> Index e = ps_lastIndex p + 1 -> Index e <= MaxUint64 ->
  ps_lastTerm p <= Term e -> 0 < Term e <= hsTerm (psHard p) ->
  log_wf (with_entries (psEntries p ++ [e]) p).
Proof.
  intros Hwf Hi Hmax Ht Hhi. pose proof (log_bounds p Hwf).
  rewrite <- (take_all_last p Hwf) at 1. apply splice_wf; [done|lia|..].
  - rewrite len_cons, len_nil. lia.
  - rewrite (lastTerm_eq p Hwf). repeat constructor; try done; lia.
Qed.

(** The split of an accepted request: a prefix the log already holds and a
    suffix that replaces the log from index [j + 1]. *)
Record accepted (p : PersistentState) (commit i : Z) (incoming es : list Entry) (j : Z)
    (pre suf : list Entry) : Prop := {
  ac_split : incoming = pre ++ suf;
  ac_pre : forall e, e ∈ pre -> log_entry p (Index e) = Some e;
  ac_index : j = i + len pre - 1;
  ac_range : snapIndex (psSnapshot p) <= j <= ps_lastIndex p;
  ac_commit : commit <= j;
  ac_term : default 0 (log_term p j) = default (default 0 (log_term p (i - 1))) (Term <$> last pre);
  ac_es : es = take (Z.to_nat (j - snapIndex (psSnapshot p))) (psEntries p) ++ suf
}.

Lemma accept_log_split p commit hi incoming i t es :
  log_wf p -> chain hi i t incoming ->
  snapIndex (psSnapshot p) <= i - 1 <= ps_lastIndex p -> commit <= ps_lastIndex p ->
  accept_log p commit incoming = Some es ->
  (es = psEntries p /\ forall e, e ∈ incoming -> log_entry p (Index e) = Some e) \/
  exists j pre suf, accepted p commit i incoming es j pre suf.
Proof.
  intros Hwf. revert i t. induction incoming as [|e rest IH]; intros i t Hc Hi Hcm; cbn.
  { intros [= <-]. left. split; [done|]. by intros e ?%not_elem_of_nil. }
  inversion Hc as [|???? He Ht Hhi Hc']; subst. destruct (log_entry p (Index e)) as [local|] eqn:Hl.
  - pose proof (log_entry_Some p Hwf _ _ Hl) as [Hr _].
    destruct (Z.eqb_spec (Term local) (Term e)) as [Heq|Hne].
    + case_bool_decide as Hsame; [subst local|done]. intros Hacc.
      destruct (IH _ _ Hc' ltac:(lia) Hcm Hacc) as [[-> Hall]|(j & pre & suf & [])].
      * left. split; [done|]. intros e' [->|?]%elem_of_cons; auto.
      * right. exists j, (e :: pre), suf. split; try done.
        -- by subst rest.
        -- intros e' [->|?]%elem_of_cons; auto.
        -- rewrite len_cons. lia.
        -- rewrite ac_term0, last_cons, Z.add_simpl_r. destruct (last pre); [done|]. cbn.
           unfold log_term. rewrite (proj2 (Z.eqb_neq _ _)), Hl by lia. done.
    + destruct (Z.leb_spec (Index e) commit); [done|]. intros [= <-]. right.
      exists (Index e - 1), [], (e :: rest). split; try done; try (rewrite ?len_nil; lia).
      * by intros ? ?%not_elem_of_nil.
      * f_equal. f_equal. lia.
  - intros [= <-]. right. assert (Index e - 1 = ps_lastIndex p) as Hlast.
    { destruct (decide (Index e <= ps_lastIndex p)); [|lia].
      destruct (log_entry_is_Some p Hwf (Index e)); [lia|congruence]. }
    exists (Index e - 1), [], (e :: rest). split; try done; try (rewrite ?len_nil; lia).
    + by intros ? ?%not_elem_of_nil.
    + by rewrite Hlast, take_all_last.
Qed.

Lemma chain_suffix hi i t pre suf :
  chain hi i t (pre ++ suf) -> chain hi (i + len pre) (default t (Term <$> last pre)) suf.
Proof. by intros [_ ?]%chain_app. Qed.

(** What an accepted request does to the log: it stays well formed, holds the
    request's entries, keeps every entry up to the commit index and never
    drops an entry except above the request's first conflict. *)
Lemma accept_log_spec p commit incoming i t es :
  log_wf p -> chain (hsTerm (psHard p)) i t incoming -> log_term p (i - 1) = Some t ->
  commit <= ps_lastIndex p -> i - 1 + len incoming <= MaxUint64 ->
  accept_log p commit incoming = Some es ->
  let p' := with_entries es p in
  log_wf p' /\
  (forall e, e ∈ incoming -> log_entry p' (Index e) = Some e) /\
  (forall k, k <= Z.max commit (i - 1) -> log_entry p' k = log_entry p k) /\
  ps_lastIndex p' <= Z.max (ps_lastIndex p) (i - 1 + len incoming) /\
  commit <= ps_lastIndex p' /\ i - 1 + len incoming <= ps_lastIndex p' /\
  log_term p' (i - 1) = Some t.
Proof.
  intros Hwf Hc Ht Hcm Hroom Hacc p'.
  assert (snapIndex (psSnapshot p) <= i - 1 <= ps_lastIndex p) as Hi.
  { apply (log_term_range p Hwf). eauto. }
  destruct (accept_log_split _ _ _ _ _ _ _ Hwf Hc Hi Hcm Hacc) as [[-> Hall]|(j & pre & suf & [])].
  { assert (p' = p) as -> by by destruct p. split_and!; try done; [lia|].
    destruct incoming as [|e inc _] using rev_ind; [rewrite len_nil; lia|].
    assert (log_entry p (Index e) = Some e) as Hl by (apply Hall; set_solver).
    apply (log_entry_Some p Hwf) in Hl as [Hl _]. revert Hc; intros [_ Hc]%chain_app.
    inversion Hc; subst. rewrite len_app, len_cons, len_nil. lia. }
  assert (chain (hsTerm (psHard p)) (j + 1) (default 0 (log_term p j)) suf) as Hsuf.
  { rewrite ac_term0, Ht. subst incoming. apply chain_suffix in Hc. cbn.
    by replace (j + 1) with (i + len pre) by lia. }
  assert (len incoming = len pre + len suf) as Hlen by (subst; apply len_app).
  assert (log_wf p') as Hwf'.
  { subst p' es. apply splice_wf; try done. lia. }
  assert (ps_lastIndex p' = j + len suf) as Hlast'.
  { rewrite (lastIndex_eq p' Hwf'). subst p' es. cbn. rewrite len_app, take_len by done. lia. }
  assert (forall k, log_entry p' k = if k <=? j then log_entry p k else suf !! Z.to_nat (k - j - 1)) as Hlk.
  { intros k. subst p' es. by apply splice_entry. }
  pose proof (len_nonneg suf). pose proof (len_nonneg pre).
  split_and!; try done; try lia.
  - intros e. subst incoming. rewrite elem_of_app. intros [Hpre|Hin].
    + pose proof (ac_pre0 e Hpre) as Hl. rewrite Hlk.
      apply list_elem_of_lookup in Hpre as [k Hk]. apply chain_app in Hc as [Hc _].
      pose proof (chain_index _ _ _ _ _ _ Hc Hk). apply lookup_lt_Some in Hk.
      rewrite (proj2 (Z.leb_le _ _)); [done|]. unfold len in *. lia.
    + apply list_elem_of_lookup in Hin as [k Hk]. rewrite Hlk.
      pose proof (chain_index _ _ _ _ _ _ Hsuf Hk) as ->.
      rewrite (proj2 (Z.leb_gt _ _)) by lia. by replace (Z.to_nat _) with k by lia.
  - intros k Hk. rewrite Hlk. by rewrite (proj2 (Z.leb_le _ _)) by lia.
  - unfold log_term in *. cbn. rewrite Hlk, (proj2 (Z.leb_le _ _)) by lia. done.
Qed.

Lemma with_snapshot_wf p snap c :
  log_wf p -> snapIndex (psSnapshot p) <= snapIndex snap <= MaxUint64 ->
  0 <= snapTerm snap <= hsTerm (psHard p) ->
  log_wf (with_snapshot snap c p) /\
  ps_lastIndex (with_snapshot snap c p) =
    (if bool_decide (log_term p (snapIndex snap) = Some (snapTerm snap))
     then ps_lastIndex p else snapIndex snap).
Proof.
  intros Hwf Hi Ht. pose proof (log_bounds p Hwf).
  assert (log_wf (with_snapshot snap c p)) as Hwf'.
  { pose proof Hwf as []. split; cbn; try done; try lia.
    - case_bool_decide as Hb; [|rewrite len_nil; lia].
      assert (snapIndex (psSnapshot p) <= snapIndex snap <= ps_lastIndex p) as Hr.
      { apply log_term_range; eauto. }
      rewrite (lastIndex_eq p Hwf) in Hr. unfold len in *. rewrite length_drop. lia.
    - case_bool_decide as Hb; [|constructor].
      assert (snapIndex (psSnapshot p) <= snapIndex snap <= ps_lastIndex p) as Hr.
      { apply log_term_range; eauto. }
      pose proof (chain_cut p Hwf _ Hr) as [_ Hc]. by rewrite Hb in Hc. }
  split; [done|]. rewrite (lastIndex_eq _ Hwf'). cbn.
  case_bool_decide as Hb; [|rewrite len_nil; lia].
  assert (snapIndex (psSnapshot p) <= snapIndex snap <= ps_lastIndex p) as Hr.
  { apply log_term_range; eauto. }
  rewrite (lastIndex_eq p Hwf) in *. unfold len in *. rewrite length_drop. lia.
Qed.

(** Entries above the snapshot survive compaction. *)
Lemma with_snapshot_entry p snap c i :
  log_wf p -> snapIndex (psSnapshot p) <= snapIndex snap ->
  log_term p (snapIndex snap) = Some (snapTerm snap) -> snapIndex snap < i ->
  log_entry (with_snapshot snap c p) i = log_entry p i.
Proof.
  intros Hwf Hle Ht Hi. unfold log_entry. cbn. rewrite bool_decide_true by done.
  rewrite !(proj2 (Z.ltb_lt _ _)) by lia. rewrite lookup_drop. f_equal. lia.
Qed.

(** ** Validation establishes the invariant *)

Lemma validate_entries_chain want lastTerm hardTerm es r :
  validate_entries (u64 want) lastTerm hardTerm es = Ok r ->
  0 < want -> want - 1 + len es <= MaxUint64 -> 0 <= lastTerm -> chain hardTerm want lastTerm es.
Proof.
  revert want lastTerm. induction es as [|e es IH]; cbn; intros want lastTerm Hv Hw Hmax H0; [constructor|].
  destruct (_ || _ || _ || _ || _ || _) eqn:Hg; [done|].
  rewrite !orb_false_iff in Hg. destruct Hg as [[[[[Hi Ht0] Hlt] Hhi] _] _].
  destruct (_ || _) eqn:Hg2 in Hv; [done|]. pose proof (len_nonneg es).
  rewrite len_cons in Hmax. unfold MaxUint64, two64 in Hmax.
  rewrite (u64_id want) in * by (unfold is_u64; lia).
  constructor; [lia..|]. apply IH; [done|lia|unfold MaxUint64, two64; lia|lia].
Qed.

Lemma validatePersistent_wf p : ps_typed p -> validatePersistent p = Ok tt -> log_wf p.
Proof.
  intros (Ht & _ & [Hsi Hst] & _ & Hl). unfold validatePersistent.
  rewrite !require_bind. do 5 (case_match; [|done]).
  destruct (Z.leb_spec (snapIndex (psSnapshot p)) (u64 (MaxUint64 - len (psEntries p)))) as [Hr|]; [|done].
  intros (r & Hv & Hreq)%bind_ok. apply require_ok in Hreq.
  pose proof (len_nonneg (psEntries p)). unfold is_u64 in *.
  rewrite u64_id in Hr by (unfold is_u64, MaxUint64, two64 in *; lia).
  apply validate_entries_chain in Hv; [|lia..]. split; [done|lia| |lia|done].
  apply negb_true_iff, orb_false_iff in Hreq. lia.
Qed.
