(* ===== verification/RaftSpec.v ===== *)
(** * The abstract Raft participant

    What the methods of raft/node.go promise, as a transition system.  An
    abstract state holds the protocol state of a node (durable state, role,
    indices, votes, replication progress, state machine) without timers and
    without the store; an atomic action changes it together with the durable
    write the change needs.  [wf] is the invariant of a participant, and every
    action preserves it. *)

From S2P Require Import Prelude Membership RaftTypes RaftLog RaftNode.

(** Replication progress after a configuration change. *)
Fixpoint grow_maps (next snap : Z) (ps : list NodeID) (nx mt : gmap NodeID Z)
    : gmap NodeID Z * gmap NodeID Z :=
  match ps with
  | [] => (nx, mt)
  | p :: rest =>
      match nx !! p with
      | Some _ => grow_maps next snap rest nx mt
      | None => grow_maps next snap rest (<[p := next]> nx) (<[p := snap]> mt)
      end
  end.

Section spec.
Context `{RaftEnv}.

Record AState := mkA {
  a_id : NodeID;
  a_config : Configuration;
  a_ps : PersistentState;
  a_role : Role;
  a_leader : NodeID;
  a_commit : Z;
  a_applied : Z;
  a_votes : option (gmap NodeID bool);
  a_next : option (gmap NodeID Z);
  a_match : option (gmap NodeID Z);
  a_sm : SM
}.

Definition a_term (s : AState) : Z := hsTerm (psHard (a_ps s)).
Definition a_vote (s : AState) : NodeID := VotedFor (psHard (a_ps s)).
Definition a_last (s : AState) : Z := ps_lastIndex (a_ps s).
Definition a_snap (s : AState) : Z := snapIndex (psSnapshot (a_ps s)).
Definition a_peers (s : AState) : list NodeID := Members (a_config s).

(** ** State changes *)

Definition put_ps (p : PersistentState) (s : AState) : AState :=
  mkA (a_id s) (a_config s) p (a_role s) (a_leader s) (a_commit s) (a_applied s)
    (a_votes s) (a_next s) (a_match s) (a_sm s).
Definition follow (l : NodeID) (s : AState) : AState :=
  mkA (a_id s) (a_config s) (a_ps s) Follower l (a_commit s) (a_applied s) None None None (a_sm s).
Definition new_term (t : Z) (s : AState) : AState :=
  follow 0 (put_ps (with_hard {| hsTerm := t; VotedFor := 0 |} (a_ps s)) s).
Definition vote_for (c : NodeID) (s : AState) : AState :=
  put_ps (with_hard {| hsTerm := a_term s; VotedFor := c |} (a_ps s)) s.
Definition campaign (s : AState) : AState :=
  mkA (a_id s) (a_config s)
    (with_hard {| hsTerm := a_term s + 1; VotedFor := a_id s |} (a_ps s))
    Candidate 0 (a_commit s) (a_applied s) (Some {[a_id s := true]}) None None (a_sm s).
Definition count_vote (c : NodeID) (s : AState) : AState :=
  mkA (a_id s) (a_config s) (a_ps s) (a_role s) (a_leader s) (a_commit s) (a_applied s)
    (<[c := true]> <$> a_votes s) (a_next s) (a_match s) (a_sm s).
Definition lead (s : AState) : AState :=
  mkA (a_id s) (a_config s) (a_ps s) Leader (a_id s) (a_commit s) (a_applied s) None
    (Some (init_peers (a_peers s) (a_last s + 1))) (Some (init_peers (a_peers s) (a_snap s))) (a_sm s).
Definition append_entry (e : Entry) (s : AState) : AState :=
  put_ps (with_entries (psEntries (a_ps s) ++ [e]) (a_ps s)) s.
Definition put_progress (p : NodeID) (m nx : Z) (s : AState) : AState :=
  mkA (a_id s) (a_config s) (a_ps s) (a_role s) (a_leader s) (a_commit s) (a_applied s)
    (a_votes s) (<[p := nx]> <$> a_next s) (<[p := m]> <$> a_match s) (a_sm s).
Definition put_next (p : NodeID) (nx : Z) (s : AState) : AState :=
  mkA (a_id s) (a_config s) (a_ps s) (a_role s) (a_leader s) (a_commit s) (a_applied s)
    (a_votes s) (<[p := nx]> <$> a_next s) (a_match s) (a_sm s).
Definition put_commit (i : Z) (s : AState) : AState :=
  mkA (a_id s) (a_config s) (a_ps s) (a_role s) (a_leader s) i (a_applied s)
    (a_votes s) (a_next s) (a_match s) (a_sm s).
Definition put_applied (i : Z) (sm : SM) (s : AState) : AState :=
  mkA (a_id s) (a_config s) (a_ps s) (a_role s) (a_leader s) (a_commit s) i
    (a_votes s) (a_next s) (a_match s) sm.

(** Progress maps of a leader restricted to the members of [c]. *)
Definition reconfigure_maps (c : Configuration) (s : AState)
    : option (gmap NodeID Z) * option (gmap NodeID Z) :=
  match a_role s, a_next s, a_match s with
  | Leader, Some nx, Some mt =>
      let '(nx', mt') := grow_maps (a_last s + 1) (a_snap s) (Members c) nx mt in
      (Some (filter (fun kv => kv.1 ∈ Members c) nx'),
       Some (filter (fun kv => is_Some (nx' !! kv.1) -> kv.1 ∈ Members c) mt'))
  | _, nx, mt => (nx, mt)
  end.
Definition reconfigure (next : Configuration) (s : AState) : AState :=
  let c := normalizeConfiguration next in
  let '(nx, mt) := reconfigure_maps c s in
  let s' := mkA (a_id s) c (a_ps s) (a_role s) (a_leader s) (a_commit s) (a_applied s)
              (a_votes s) nx mt (a_sm s) in
  if negb (Voter c (a_id s)) && negb (bool_decide (a_role s = Follower)) then follow 0 s' else s'.

(** The state after installing a snapshot received from a leader. *)
Definition snapshot_config (snap : Snapshot) (p : PersistentState) : Configuration :=
  if Version (psConfig p) <? Version (snapConfig snap) then snapConfig snap else psConfig p.
Definition install (snap : Snapshot) (s : AState) : AState :=
  let c := snapshot_config snap (a_ps s) in
  let s1 := put_ps (with_snapshot snap c (a_ps s)) s in
  let s2 := if Version (a_config s1) <? Version c then reconfigure c s1 else s1 in
  put_applied (snapIndex snap) (fst (sm_restore (a_sm s) (snapData snap)))
    (put_commit (Z.max (a_commit s2) (snapIndex snap)) s2).

(** ** Atomic actions

    [inp] is what the running operation was given. *)

Inductive input :=
  | OnMessage (m : Message)
  | OnConfiguration (c : Configuration)
  | OnNothing.

Definition vote_message_ok (m : Message) (s : AState) : Prop :=
  mType m = RequestVote /\ mTerm m = a_term s /\
  Voter (a_config s) (a_id s) = true /\ Voter (a_config s) (mFrom m) = true /\
  (ps_lastTerm (a_ps s) < CandidateLastTerm m \/
   CandidateLastTerm m = ps_lastTerm (a_ps s) /\ a_last s <= CandidateLastIndex m) /\
  (a_vote s = 0 \/ a_vote s = mFrom m).

(** A positive acknowledgement of the log up to [v] by [p]. *)
Definition acknowledges (m : Message) (p : NodeID) (v : Z) (s : AState) : Prop :=
  (mType m = AppendEntriesResponse \/ mType m = InstallSnapshotResponse) /\
  mFrom m = p /\ mTerm m = a_term s /\ Success m = true /\ MatchIndex m = v.

Definition sm_applied (e : Entry) (s : AState) (sm' : SM) : Prop :=
  if Byte.eqb (EType e) EntryCommand then sm_apply (a_sm s) e = (sm', None)
  else sm' = a_sm s /\
    (EType e = EntryConfig ->
     exists c, DecodeConfiguration (Command e) = Ok c /\ Version c <= Version (a_config s)).

Inductive act (inp : input) (s : AState) : AState -> Prop :=
  | act_follow l : act inp s (follow l s)
  | act_new_term m :
      inp = OnMessage m -> a_term s < mTerm m -> is_u64 (mTerm m) ->
      act inp s (new_term (mTerm m) s)
  | act_vote m :
      inp = OnMessage m -> vote_message_ok m s -> act inp s (vote_for (mFrom m) s)
  | act_campaign :
      Voter (a_config s) (a_id s) = true -> a_term s < MaxUint64 -> act inp s (campaign s)
  | act_count_vote m :
      inp = OnMessage m -> mType m = RequestVoteResponse -> mTerm m = a_term s ->
      mTo m = a_id s -> VoteGranted m = true -> a_role s = Candidate -> act inp s (count_vote (mFrom m) s)
  | act_lead :
      a_role s = Candidate -> Quorum (a_config s) (vote_get (a_votes s)) = true ->
      act inp s (lead s)
  | act_append e :
      a_role s = Leader -> Index e = a_last s + 1 -> Index e < MaxUint64 -> Term e = a_term s ->
      (EType e = EntryConfig -> exists c, inp = OnConfiguration c) ->
      act inp s (append_entry e s)
  | act_progress p v :
      a_role s = Leader -> 0 <= v <= a_last s ->
      p = a_id s \/ v = map_get (a_match s) p \/ (exists m, inp = OnMessage m /\ acknowledges m p v s) ->
      act inp s (put_progress p v (v + 1) s)
  | act_next p v :
      a_role s = Leader -> 1 <= v <= a_last s + 1 -> act inp s (put_next p v s)
  | act_commit_leader i :
      a_role s = Leader -> a_commit s < i <= a_last s ->
      log_term (a_ps s) i = Some (a_term s) ->
      Quorum (a_config s) (fun p => i <=? map_get (a_match s) p) = true ->
      act inp s (put_commit i s)
  | act_accept m es :
      inp = OnMessage m -> mType m = AppendEntries -> mTerm m = a_term s -> a_role s = Follower ->
      validateAppend m = true -> log_term (a_ps s) (PrevLogIndex m) = Some (PrevLogTerm m) ->
      accept_log (a_ps s) (a_commit s) (mEntries m) = Some es ->
      act inp s (put_ps (with_entries es (a_ps s)) s)
  | act_commit_follower m :
      inp = OnMessage m -> mType m = AppendEntries -> mTerm m = a_term s -> a_role s = Follower ->
      log_covers (a_ps s) m -> a_commit s < LeaderCommit m ->
      LeaderCommit m <= PrevLogIndex m + len (mEntries m) ->
      LeaderCommit m <= a_last s ->
      act inp s (put_commit (LeaderCommit m) s)
  | act_apply e sm' :
      a_applied s < a_commit s -> log_entry (a_ps s) (a_applied s + 1) = Some e ->
      sm_applied e s sm' -> act inp s (put_applied (a_applied s + 1) sm' s)
  | act_reconfigure e next :
      a_applied s < a_commit s -> log_entry (a_ps s) (a_applied s + 1) = Some e ->
      EType e = EntryConfig -> DecodeConfiguration (Command e) = Ok next ->
      Version (a_config s) < Version next ->
      validateConfigurationTransition (a_config s) next = Ok tt ->
      act inp s (put_ps (with_config next (a_ps s)) (reconfigure next s))
  | act_compact t data :
      a_snap s < a_applied s -> log_term (a_ps s) (a_applied s) = Some t ->
      sm_snapshot (a_sm s) = Ok data ->
      act inp s (put_ps (with_snapshot
        {| snapIndex := a_applied s; snapTerm := t; snapData := data; snapConfig := a_config s |}
        (psConfig (a_ps s)) (a_ps s)) s)
  | act_install m :
      inp = OnMessage m -> mType m = InstallSnapshot -> mTerm m = a_term s -> a_role s = Follower ->
      snapshot_message_ok m = true -> a_commit s < snapIndex (mSnapshot m) < MaxUint64 ->
      act inp s (install (mSnapshot m) s).

(** ** The invariant of a participant *)

(** Every member has a next index, and the indices stay within the log. *)
Record progress_ok (last : Z) (ps : list NodeID) (nx mt : gmap NodeID Z) : Prop := {
  po_dom : forall p, p ∈ ps -> is_Some (nx !! p);
  po_next : forall p v, nx !! p = Some v -> 1 <= v <= last + 1;
  po_match : forall p v, mt !! p = Some v -> 0 <= v <= last
}.

Definition role_ok (s : AState) : Prop :=
  match a_role s with
  | Follower => a_next s = None
  | Candidate => is_Some (a_votes s) /\ a_next s = None
  | Leader => exists nx mt, a_next s = Some nx /\ a_match s = Some mt /\
                progress_ok (a_last s) (a_peers s) nx mt
  end /\
  (a_role s <> Follower ->
   a_vote s = a_id s /\ 0 < a_term s /\ Voter (a_config s) (a_id s) = true).

Record wf (s : AState) : Prop := {
  wf_log : log_wf (a_ps s);
  wf_room : a_last s < MaxUint64;
  wf_index : a_snap s <= a_applied s <= a_commit s /\ a_commit s <= a_last s;
  wf_config : config_ok (a_config s);
  wf_version : Version (psConfig (a_ps s)) <= Version (a_config s) /\ 0 < Version (a_config s);
  wf_role : role_ok s
}.

End spec.
Arguments AState {_}.

(** Arithmetic on the indices and terms of abstract states. *)
Ltac raft_lia :=
  unfold a_last, a_snap, a_term, MaxUint64, two64, is_u64 in *; cbn -[ps_lastIndex] in *; lia.

Create HintDb raft.
#[export] Hint Resolve wf_log : raft.

(** ** Preservation of the invariant *)

(** Messages with Go-typed fields whose indices leave room below the largest
    one, and whose leader commit index is covered by what they carry.  node.go
    does not check this of what it receives; every message it sends satisfies
    it ([emitted_ok]), since a sender attaches its whole log suffix. *)
Definition message_ok (m : Message) : Prop :=
  is_u64 (mTerm m) /\ is_u64 (PrevLogIndex m) /\ is_u64 (PrevLogTerm m) /\
  is_u64 (MatchIndex m) /\ is_u64 (RejectHint m) /\ snapshot_typed (mSnapshot m) /\
  (mType m = AppendEntries ->
     PrevLogIndex m + len (mEntries m) < MaxUint64 /\
     LeaderCommit m <= PrevLogIndex m + len (mEntries m)) /\
  (mType m = InstallSnapshot -> snapIndex (mSnapshot m) < MaxUint64).

Lemma validate_append_chain want t hi es :
  validate_append_loop (u64 want) t hi es = true ->
  0 < want -> want - 1 + len es <= MaxUint64 -> 0 <= t -> chain hi want t es.
Proof.
  revert want t. induction es as [|e es IH]; cbn; intros want t Hv Hw Hmax H0; [constructor|].
  destruct (_ || _ || _ || _ || _ || _ || _) eqn:Hg; [done|].
  rewrite !orb_false_iff in Hg. destruct Hg as [[[[[[Hi Ht0] Hlt] Hhi] _] _] _].
  rewrite len_cons in Hmax. pose proof (len_nonneg es). unfold MaxUint64, two64 in Hmax.
  rewrite (u64_id want) in * by (unfold is_u64; lia).
  constructor; [lia..|]. apply IH; [done|lia|unfold MaxUint64, two64; lia|lia].
Qed.

Lemma validateAppend_chain m :
  is_u64 (PrevLogIndex m) -> is_u64 (PrevLogTerm m) -> validateAppend m = true ->
  chain (mTerm m) (PrevLogIndex m + 1) (PrevLogTerm m) (mEntries m) /\
  PrevLogIndex m + len (mEntries m) <= MaxUint64.
Proof.
  intros Hi Ht. unfold validateAppend. unfold is_u64 in *.
  destruct (Z.ltb_spec (u64 (MaxUint64 - PrevLogIndex m)) (len (mEntries m))) as [|Hl]; [done|].
  rewrite u64_id in Hl by (unfold is_u64, MaxUint64, two64; lia).
  intros Hv. split; [|lia]. apply validate_append_chain; [done|lia..].
Qed.

(** ** Progress maps *)

Lemma init_peers_lookup ps v p : init_peers ps v !! p = if bool_decide (p ∈ ps) then Some v else None.
Proof.
  unfold init_peers. enough (forall m, foldl (fun m p => <[p:=v]> m) m ps !! p =
    if bool_decide (p ∈ ps) then Some v else m !! p) as -> by done.
  induction ps as [|q ps IH]; intros m; cbn; [done|]. rewrite IH.
  case_bool_decide as Hin; [by rewrite bool_decide_true by set_solver|].
  destruct (decide (p = q)) as [->|Hne].
  - rewrite lookup_insert_eq. by rewrite bool_decide_true by set_solver.
  - rewrite lookup_insert_ne by done. by rewrite bool_decide_false by set_solver.
Qed.

Lemma init_progress_ok last snap ps :
  0 <= snap <= last -> progress_ok last ps (init_peers ps (last + 1)) (init_peers ps snap).
Proof.
  intros Hs. split; intros p; rewrite !init_peers_lookup.
  - intros Hp. rewrite bool_decide_true by done. eauto.
  - intros v. case_bool_decide; [intros [= <-]|done]. lia.
  - intros v. case_bool_decide; [intros [= <-]|done]. lia.
Qed.

Lemma grow_maps_ok last snap ps nx mt :
  0 <= snap <= last ->
  (forall p v, nx !! p = Some v -> 1 <= v <= last + 1) ->
  (forall p v, mt !! p = Some v -> 0 <= v <= last) ->
  let '(nx', mt') := grow_maps (last + 1) snap ps nx mt in
  (forall p, p ∈ ps \/ is_Some (nx !! p) -> is_Some (nx' !! p)) /\
  (forall p v, nx' !! p = Some v -> 1 <= v <= last + 1) /\
  (forall p v, mt' !! p = Some v -> 0 <= v <= last).
Proof.
  intros Hs. revert nx mt. induction ps as [|q ps IH]; intros nx mt Hn Hm; cbn.
  { split_and!; try done. intros p [Hp|?]; [by apply not_elem_of_nil in Hp|done]. }
  destruct (nx !! q) as [w|] eqn:Hq.
  - specialize (IH nx mt Hn Hm). destruct (grow_maps _ _ _ _ _) as [nx' mt'].
    destruct IH as (Hd & ? & ?). split_and!; try done.
    intros p [[->|]%elem_of_cons|]; eauto.
  - specialize (IH (<[q:=last + 1]> nx) (<[q:=snap]> mt)).
    destruct (grow_maps _ _ _ _ _) as [nx' mt']. destruct IH as (Hd & ? & ?).
    { intros p v [[-> <-]|[? Hv]]%lookup_insert_Some; [lia|eauto]. }
    { intros p v [[-> <-]|[? Hv]]%lookup_insert_Some; [lia|eauto]. }
    split_and!; try done. intros p Hp. apply Hd. rewrite lookup_insert_is_Some'.
    rewrite elem_of_cons in Hp. destruct Hp as [[->|]|]; auto.
Qed.

Lemma progress_ok_mono last last' ps nx mt :
  last <= last' -> progress_ok last ps nx mt -> progress_ok last' ps nx mt.
Proof.
  intros Hle [Hd Hn Hm]. split; [done| |]; intros p v Hv.
  - specialize (Hn _ _ Hv). lia.
  - specialize (Hm _ _ Hv). lia.
Qed.

Lemma progress_ok_next last ps nx mt p v :
  1 <= v <= last + 1 -> progress_ok last ps nx mt -> progress_ok last ps (<[p := v]> nx) mt.
Proof.
  intros Hv [Hd Hn Hm]. split; [|intros q w [[-> <-]|[? ?]]%lookup_insert_Some; eauto|done].
  intros q Hq. rewrite lookup_insert_is_Some'. right. auto.
Qed.
Lemma progress_ok_match last ps nx mt p v :
  0 <= v <= last -> progress_ok last ps nx mt -> progress_ok last ps nx (<[p := v]> mt).
Proof.
  intros Hv [Hd Hn Hm]. split; [done|done|].
  intros q w [[-> <-]|[? ?]]%lookup_insert_Some; eauto.
Qed.

Section preservation.
Context `{RaftEnv}.
Implicit Types s : AState.

Lemma follow_wf l s : wf s -> wf (follow l s).
Proof. intros []. split; try done. Qed.

Lemma lookup_keep (P : NodeID * Z -> Prop) `{!forall x, Decision (P x)} (m : gmap NodeID Z) p v :
  filter P m !! p = Some v -> m !! p = Some v.
Proof. by intros [? _]%map_lookup_filter_Some. Qed.

Lemma reconfigure_wf next s :
  wf s -> config_ok next -> Version (a_config s) <= Version next -> wf (reconfigure next s).
Proof.
  intros [Hlog Hroom Hidx Hcfg Hver [Hrole Hcand]] Hok Hv.
  assert (config_ok (normalizeConfiguration next)) as Hok' by by apply config_ok_normalize.
  unfold reconfigure. destruct (reconfigure_maps _ s) as [nx mt] eqn:Hm.
  set (s' := mkA _ _ _ _ _ _ _ _ _ _ _).
  assert (wf (follow 0 s')) as Hf by (split; cbn in *; try done; try lia; by split).
  destruct (negb _ && _) eqn:Hd; [done|]. destruct Hf. split; cbn in *; try done.
  assert (a_role s <> Follower -> Voter (normalizeConfiguration next) (a_id s) = true) as Hvoter.
  { intros Hr. rewrite (bool_decide_false _ Hr) in Hd. cbn in Hd.
    by destruct (Voter (normalizeConfiguration next) (a_id s)). }
  split; [|cbn; intros Hr; destruct (Hcand Hr) as (? & ? & ?); auto]. cbn.
  unfold reconfigure_maps in Hm. destruct (a_role s) eqn:Hr; [by injection Hm as <- <-..|].
  destruct Hrole as (nx0 & mt0 & Hn0 & Hm0 & [Hd0 Hnx Hmt]). rewrite Hn0, Hm0 in Hm.
  pose proof (log_bounds _ Hlog) as [Hb _].
  pose proof (grow_maps_ok (a_last s) (a_snap s) (Members (normalizeConfiguration next)) nx0 mt0 Hb Hnx Hmt) as Hg.
  destruct (grow_maps _ _ _ _ _) as [nx1 mt1]. destruct Hg as (Hgd & Hgn & Hgm).
  injection Hm as <- <-. eexists _, _. split_and!; [done|done|]. split.
  - intros p Hp. destruct (Hgd p (or_introl Hp)) as [v Hv']. exists v.
    by apply map_lookup_filter_Some.
  - intros p v Hl%lookup_keep. eauto.
  - intros p v Hl%lookup_keep. eauto.
Qed.

Lemma reconfigure_ps next s : a_ps (reconfigure next s) = a_ps s.
Proof. unfold reconfigure. destruct (reconfigure_maps _ s). by case_match. Qed.
Lemma reconfigure_commit next s : a_commit (reconfigure next s) = a_commit s.
Proof. unfold reconfigure. destruct (reconfigure_maps _ s). by case_match. Qed.
Lemma reconfigure_applied next s : a_applied (reconfigure next s) = a_applied s.
Proof. unfold reconfigure. destruct (reconfigure_maps _ s). by case_match. Qed.
Lemma reconfigure_sm next s : a_sm (reconfigure next s) = a_sm s.
Proof. unfold reconfigure. destruct (reconfigure_maps _ s). by case_match. Qed.
Lemma reconfigure_id next s : a_id (reconfigure next s) = a_id s.
Proof. unfold reconfigure. destruct (reconfigure_maps _ s). by case_match. Qed.
Lemma reconfigure_config next s : a_config (reconfigure next s) = normalizeConfiguration next.
Proof. unfold reconfigure. destruct (reconfigure_maps _ s). by case_match. Qed.
Lemma reconfigure_role next s : a_role (reconfigure next s) = a_role s \/ a_role (reconfigure next s) = Follower.
Proof. unfold reconfigure. destruct (reconfigure_maps _ s). case_match; auto. Qed.

Lemma reconfigure_follower next s :
  a_role s = Follower -> a_role (reconfigure next s) = Follower /\ a_next (reconfigure next s) = a_next s.
Proof. intros Hr. unfold reconfigure, reconfigure_maps. rewrite Hr. by rewrite andb_false_r. Qed.

(** Changing the durable state of a follower, or growing a log. *)
Lemma put_ps_wf p s :
  wf s -> log_wf p -> ps_lastIndex p < MaxUint64 ->
  snapIndex (psSnapshot p) <= a_applied s -> a_commit s <= ps_lastIndex p ->
  Version (psConfig p) <= Version (a_config s) ->
  (a_role s = Follower \/ psHard p = psHard (a_ps s) /\ a_last s <= ps_lastIndex p) ->
  wf (put_ps p s).
Proof.
  intros [Hlog Hroom [[Hi1 Hi2] Hi3] Hcfg [Hver Hv0] [Hrole Hcand]] ? ? ? ? ? Hr.
  split; try (split_and?; done). split; cbn in *.
  - destruct (a_role s); [done|done|]. destruct Hr as [|[_ Hle]]; [done|].
    destruct Hrole as (nx & mt & ? & ? & Hp). exists nx, mt. split_and!; try done.
    by eapply progress_ok_mono.
  - intros Hne. destruct Hr as [|[Hh _]]; [done|]. unfold a_vote, a_term in *. cbn.
    rewrite Hh. auto.
Qed.

Lemma new_term_wf t s : wf s -> a_term s < t -> is_u64 t -> wf (new_term t s).
Proof.
  intros Hwf Ht Hu. assert (wf (follow 0 s)) as Hf by by apply follow_wf.
  apply (put_ps_wf (with_hard {| hsTerm := t; VotedFor := 0 |} (a_ps s)) (follow 0 s)); try apply Hwf; auto.
  apply with_hard_wf; [apply Hwf|cbn; raft_lia|done].
Qed.

Lemma campaign_wf s :
  wf s -> Voter (a_config s) (a_id s) = true -> a_term s < MaxUint64 -> wf (campaign s).
Proof.
  intros [Hlog Hroom Hi Hcfg Hver Hrole] Hv Ht. pose proof (lw_term _ Hlog) as Hu. unfold a_term in *.
  split; cbn; try done.
  - apply with_hard_wf; cbn; [done|raft_lia..].
  - split; cbn; [eauto|]. intros _. split_and!; try done. raft_lia.
Qed.

Lemma append_entry_wf e s :
  wf s -> a_role s = Leader -> Index e = a_last s + 1 -> Index e < MaxUint64 -> Term e = a_term s ->
  wf (append_entry e s).
Proof.
  intros Hwf Hr Hi Hmax Ht. pose proof Hwf as [Hlog Hroom [_ Hc] _ _ [_ Hl]].
  destruct Hl as (_ & Htm & _); [by rewrite Hr|].
  assert (log_wf (with_entries (psEntries (a_ps s) ++ [e]) (a_ps s))) as Hw.
  { unfold a_term in *. apply append_wf; [done|done|lia| |lia].
    rewrite Ht. apply (lastTerm_bound _ Hlog). }
  assert (ps_lastIndex (with_entries (psEntries (a_ps s) ++ [e]) (a_ps s)) = a_last s + 1) as Hlast.
  { unfold ps_lastIndex. cbn. by rewrite last_snoc. }
  apply put_ps_wf; try done; cbn -[ps_lastIndex]; try lia; try apply Hwf.
  right. split; [done|]. lia.
Qed.

Lemma put_progress_wf p v nx s :
  wf s -> a_role s = Leader -> 0 <= v <= a_last s -> 1 <= nx <= a_last s + 1 ->
  wf (put_progress p v nx s).
Proof.
  intros [? ? ? ? ? [Hrole Hcand]] Hr Hv Hn. split; try done. split; cbn; [|done].
  rewrite Hr in *. destruct Hrole as (nx0 & mt0 & -> & -> & Hp). eexists _, _. split_and!; try done.
  apply progress_ok_next; [done|]. by apply progress_ok_match.
Qed.
Lemma put_next_wf p nx s :
  wf s -> a_role s = Leader -> 1 <= nx <= a_last s + 1 -> wf (put_next p nx s).
Proof.
  intros [? ? ? ? ? [Hrole Hcand]] Hr Hn. split; try done. split; cbn; [|done].
  rewrite Hr in *. destruct Hrole as (nx0 & mt0 & -> & -> & Hp). eexists _, _. split_and!; try done.
  by apply progress_ok_next.
Qed.

Lemma lead_wf s : wf s -> a_role s = Candidate -> wf (lead s).
Proof.
  intros [Hlog ? ? ? ? [_ Hcand]] Hr. split; try done. split; cbn; [|intros _; apply Hcand; by rewrite Hr].
  eexists _, _. split_and!; [done|done|]. apply init_progress_ok. apply (log_bounds _ Hlog).
Qed.

Lemma accept_chain m s :
  message_ok m -> mTerm m = a_term s -> validateAppend m = true ->
  chain (hsTerm (psHard (a_ps s))) (PrevLogIndex m + 1) (PrevLogTerm m) (mEntries m) /\
  PrevLogIndex m + 1 - 1 + len (mEntries m) <= MaxUint64.
Proof.
  intros (_ & Hi & Ht & _) Hterm Hv. destruct (validateAppend_chain m Hi Ht Hv) as [Hc Hl].
  rewrite Hterm in Hc. split; [done|lia].
Qed.

Lemma accept_wf m es s :
  wf s -> message_ok m -> mType m = AppendEntries -> mTerm m = a_term s -> a_role s = Follower ->
  validateAppend m = true -> log_term (a_ps s) (PrevLogIndex m) = Some (PrevLogTerm m) ->
  accept_log (a_ps s) (a_commit s) (mEntries m) = Some es ->
  wf (put_ps (with_entries es (a_ps s)) s).
Proof.
  intros Hwf Hm Hty Hterm Hr Hv Hprev Hacc. pose proof Hwf as [Hlog Hroom [Hi Hc] Hcfg Hver Hrole].
  destruct (accept_chain m s Hm Hterm Hv) as [Hch Hl].
  destruct Hm as (_ & _ & _ & _ & _ & _ & Hroom' & _). specialize (Hroom' Hty) as [Hroom' _].
  rewrite <- (Z.add_simpl_r (PrevLogIndex m) 1) in Hprev.
  destruct (accept_log_spec _ _ _ _ _ _ Hlog Hch Hprev Hc Hl Hacc) as (? & _ & _ & ? & ? & _).
  apply put_ps_wf; try done; try raft_lia. by left.
Qed.

Lemma compact_wf t data s :
  wf s -> a_snap s < a_applied s -> log_term (a_ps s) (a_applied s) = Some t ->
  wf (put_ps (with_snapshot
    {| snapIndex := a_applied s; snapTerm := t; snapData := data; snapConfig := a_config s |}
    (psConfig (a_ps s)) (a_ps s)) s).
Proof.
  intros Hwf Hlt Ht. pose proof Hwf as [Hlog Hroom [Hi Hc] Hcfg Hver Hrole].
  set (snap := Build_Snapshot _ _ _ _).
  destruct (with_snapshot_wf (a_ps s) snap (psConfig (a_ps s)) Hlog) as [Hw Hl].
  - cbn. raft_lia.
  - cbn. apply (log_term_bound _ Hlog) in Ht. lia.
  - rewrite bool_decide_true in Hl by done. apply put_ps_wf; try done; cbn; try raft_lia.
    right. split; [done|]. raft_lia.
Qed.

Lemma install_wf m s :
  wf s -> message_ok m -> mTerm m = a_term s -> a_role s = Follower ->
  snapshot_message_ok m = true -> a_commit s < snapIndex (mSnapshot m) < MaxUint64 ->
  wf (install (mSnapshot m) s).
Proof.
  intros Hwf (_ & _ & _ & _ & _ & [Hs1 Hs2] & _) Hterm Hr Hok Hi.
  pose proof Hwf as [Hlog Hroom [Hi1 Hi2] Hcfg [Hver Hv0] Hrole].
  set (snap := mSnapshot m) in *. set (c := snapshot_config snap (a_ps s)).
  assert (snapTerm snap <= a_term s /\
          (Version (snapConfig snap) <> 0 -> config_ok (snapConfig snap))) as [Hst Hsc].
  { unfold snapshot_message_ok in Hok. apply negb_true_iff in Hok. rewrite !orb_false_iff in Hok.
    destruct Hok as [[[[_ _] Ht] _] Hcf]. fold snap in Ht; split; [lia|]. intros Hne. fold snap in Hcf.
    rewrite (proj2 (Z.eqb_neq _ _) Hne) in Hcf. cbn in Hcf. apply negb_false_iff in Hcf.
    apply validateConfiguration_spec. by destruct (validateConfiguration _) as [[]|]. }
  destruct (with_snapshot_wf (a_ps s) snap c Hlog) as [Hw Hl]; [raft_lia|raft_lia|].
  assert (a_next s = None) as Hnone by (destruct Hrole as [Hro _]; by rewrite Hr in Hro).
  assert (forall s', a_role s' = Follower -> a_next s' = None -> a_ps s' = with_snapshot snap c (a_ps s) ->
     a_commit s' = a_commit s -> config_ok (a_config s') -> Version c <= Version (a_config s') -> 0 < Version (a_config s') ->
     wf (put_applied (snapIndex snap) (fst (sm_restore (a_sm s) (snapData snap)))
           (put_commit (Z.max (a_commit s') (snapIndex snap)) s'))) as Hgen.
  { intros s' Hr' Hn' Hp' Hc' Hcok' Hv' Hv0'. split; cbn; try rewrite Hp'; try done.
    - unfold a_last. cbn -[ps_lastIndex]. rewrite Hp', Hl. case_bool_decide; raft_lia.
    - unfold a_snap, a_last. cbn -[ps_lastIndex]. rewrite Hp', Hl, Hc'. cbn.
      case_bool_decide as Hb; [|raft_lia].
      assert (is_Some (log_term (a_ps s) (snapIndex snap))) as Hsome by eauto.
      apply (log_term_range _ Hlog) in Hsome. raft_lia.
    - unfold role_ok. cbn. by rewrite Hr'. }
  unfold install. fold c. cbn [a_config put_ps].
  destruct (Z.ltb_spec (Version (a_config s)) (Version c)) as [Hlt|Hge]; [|by apply Hgen].
  destruct (reconfigure_follower c (put_ps (with_snapshot snap c (a_ps s)) s) Hr) as [Hr' Hn'].
  apply Hgen; [done|by rewrite Hn'|..].
  - by rewrite reconfigure_ps.
  - by rewrite reconfigure_commit.
  - rewrite reconfigure_config. apply config_ok_normalize. revert Hlt. unfold c, snapshot_config.
    destruct (Z.ltb_spec (Version (psConfig (a_ps s))) (Version (snapConfig snap))); [|lia].
    intros Hlt. apply Hsc. lia.
  - by rewrite reconfigure_config.
  - rewrite reconfigure_config. cbn. lia.
Qed.
End preservation.

(** ** What an action may change *)

(** Hard states only move forward: to a later term, or from no vote to a vote
    within a term. *)
Definition hard_le (h h' : HardState) : Prop :=
  hsTerm h < hsTerm h' \/
  hsTerm h = hsTerm h' /\ (VotedFor h = 0 \/ VotedFor h = VotedFor h').

#[export] Instance hard_le_preorder : PreOrder hard_le.
Proof.
  split; [intros h; right; auto|]. unfold hard_le. intros h1 h2 h3 [?|[? [?|?]]] [?|[? [?|?]]]; try lia.
Qed.

Section evolution.
Context `{RaftEnv}.
Implicit Types s : AState.

(** The identity is fixed, the hard state, the commit index, the applied
    index and the snapshot index only grow, and the committed entries that
    are still in the log do not change. *)
Record evolves (s s' : AState) : Prop := {
  ev_id : a_id s' = a_id s;
  ev_hard : hard_le (psHard (a_ps s)) (psHard (a_ps s'));
  ev_commit : a_commit s <= a_commit s';
  ev_applied : a_applied s <= a_applied s';
  ev_snap : a_snap s <= a_snap s';
  ev_version : Version (a_config s) <= Version (a_config s');
  ev_log : forall i, a_snap s' < i <= a_commit s -> log_entry (a_ps s') i = log_entry (a_ps s) i
}.

#[export] Instance evolves_preorder : PreOrder evolves.
Proof.
  split; [by split; try reflexivity|]. intros s1 s2 s3 [] []. split; try congruence; try lia.
  - by etransitivity.
  - intros i Hi. rewrite ev_log1, ev_log0 by lia. done.
Qed.

(** Changes outside the durable state. *)
Lemma evolves_ps s s' :
  a_id s' = a_id s -> a_ps s' = a_ps s -> a_config s' = a_config s ->
  a_commit s <= a_commit s' -> a_applied s <= a_applied s' -> evolves s s'.
Proof. intros Hid Hps Hcf Hc Ha. split; unfold a_snap; rewrite ?Hps, ?Hcf; done. Qed.

(** Changes of the durable state only. *)
Lemma evolves_put_ps p s :
  hard_le (psHard (a_ps s)) (psHard p) -> a_snap s <= snapIndex (psSnapshot p) ->
  (forall i, snapIndex (psSnapshot p) < i <= a_commit s -> log_entry p i = log_entry (a_ps s) i) ->
  evolves s (put_ps p s).
Proof. intros. split; cbn; try done; lia. Qed.

Lemma accept_evolves m es s :
  wf s -> message_ok m -> mTerm m = a_term s ->
  validateAppend m = true -> log_term (a_ps s) (PrevLogIndex m) = Some (PrevLogTerm m) ->
  accept_log (a_ps s) (a_commit s) (mEntries m) = Some es ->
  evolves s (put_ps (with_entries es (a_ps s)) s).
Proof.
  intros Hwf Hm Hterm Hv Hprev Hacc. pose proof Hwf as [Hlog Hroom [Hi Hc] _ _ _].
  destruct (accept_chain m s Hm Hterm Hv) as [Hch Hl].
  rewrite <- (Z.add_simpl_r (PrevLogIndex m) 1) in Hprev.
  destruct (accept_log_spec _ _ _ _ _ _ Hlog Hch Hprev Hc Hl Hacc) as (_ & _ & Hkeep & _).
  apply evolves_put_ps; cbn; [done|done|]. intros i Hr. apply Hkeep. lia.
Qed.

Lemma install_fields snap s :
  a_id (install snap s) = a_id s /\
  a_ps (install snap s) = with_snapshot snap (snapshot_config snap (a_ps s)) (a_ps s) /\
  a_commit (install snap s) = Z.max (a_commit s) (snapIndex snap) /\
  a_applied (install snap s) = snapIndex snap /\
  Version (a_config s) <= Version (a_config (install snap s)).
Proof.
  unfold install. cbn [a_config put_ps put_applied put_commit a_id a_ps a_commit a_applied].
  destruct (Z.ltb_spec (Version (a_config s)) (Version (snapshot_config snap (a_ps s))));
    rewrite ?reconfigure_id, ?reconfigure_ps, ?reconfigure_commit, ?reconfigure_config; split_and!; try done.
  cbn. lia.
Qed.

Lemma install_role snap s : a_role s = Follower -> a_role (install snap s) = Follower.
Proof.
  intros Hr. unfold install. cbn [a_role put_applied put_commit a_config put_ps]. case_match; [|done].
  by apply reconfigure_follower.
Qed.

(** Every action preserves the invariant and is an evolution. *)
Lemma act_sound inp s s' :
  (forall m, inp = OnMessage m -> message_ok m) -> act inp s s' -> wf s -> wf s' /\ evolves s s'.
Proof.
  intros Hm Hact Hwf. pose proof Hwf as [Hlog Hroom [Hi Hc] Hcfg [Hver Hv0] Hrole].
  pose proof (log_bounds _ Hlog) as Hb.
  destruct Hact as [l|m -> Ht Hu|m -> Hv| |m -> _ Ht _ Hg Hr| |e Hr Hi' Hmax Ht _|p v Hr Hv _|p v Hr Hv
    |i Hr Hci _ _|m es -> Hty Ht Hr Hva Hprev Hacc|m -> Hty Ht Hr Hcov Hlt Hlc Hlast
    |e sm' Hlt He Hsm|e next Hlt He Hty Hd Hv Htr|t data Hlt Ht Hsnap|m -> Hty Ht Hr Hok Hidx].
  - split; [by apply follow_wf|by apply evolves_ps].
  - split; [by apply new_term_wf|]. split; cbn; try done; try lia. left. raft_lia.
  - destruct Hv as (_ & Ht & _ & Hvo & _ & Hvf). split.
    + apply put_ps_wf; try done; try raft_lia; [apply with_hard_wf; [done|cbn; raft_lia|apply (lw_term _ Hlog)]|].
      destruct (decide (a_role s = Follower)) as [|Hne]; [by left|right].
      destruct Hrole as [_ Hl]. destruct (Hl Hne) as (Hvid & _ & Hvot). split; [|apply Z.le_refl].
      unfold a_vote, a_term in *. cbn.
      assert (a_id s <> 0).
      { apply Voter_spec in Hvot. apply (config_nonzero _ Hcfg). tauto. }
      destruct (psHard (a_ps s)) as [t v]. cbn in *. f_equal. destruct Hvf; congruence.
    + apply evolves_put_ps; cbn; try done. right. unfold a_vote, a_term in *. cbn. tauto.
  - split; [by apply campaign_wf|]. split; cbn; try done; try lia. left. raft_lia.
  - split; [|by apply evolves_ps]. split; try done. destruct Hrole as [Hro Hl].
    unfold role_ok in *. cbn in *. rewrite Hr in *. by rewrite fmap_is_Some.
  - split; [by apply lead_wf|by apply evolves_ps].
  - split; [by apply append_entry_wf|]. apply evolves_put_ps; cbn; try done.
    intros i Hr'. rewrite <- (take_all_last _ Hlog) at 1. rewrite splice_entry by (auto; raft_lia).
    by rewrite (proj2 (Z.leb_le _ _)) by raft_lia.
  - split; [apply put_progress_wf; auto; lia|by apply evolves_ps].
  - split; [by apply put_next_wf|by apply evolves_ps].
  - split; [|apply evolves_ps; cbn; try done; lia]. split; try done; raft_lia.
  - split; [eapply accept_wf; eauto|eapply accept_evolves; eauto].
  - split; [|apply evolves_ps; cbn; try done; lia]. split; try done; raft_lia.
  - split; [|apply evolves_ps; cbn; try done; lia]. split; try done; raft_lia.
  - assert (config_ok next) as Hok by by apply (transition_ok _ _ Htr).
    assert (wf (reconfigure next s)) as Hwf' by (apply reconfigure_wf; auto; lia).
    split.
    + apply put_ps_wf; auto; cbn; try rewrite reconfigure_applied; try rewrite reconfigure_commit;
        try rewrite reconfigure_config; try raft_lia; try done.
      { destruct Hlog; by split. }
      right. unfold a_last. by rewrite reconfigure_ps.
    + split; cbn; rewrite ?reconfigure_id, ?reconfigure_commit, ?reconfigure_applied,
        ?reconfigure_config; try done. cbn. lia.
  - split; [by apply compact_wf|]. apply evolves_put_ps; cbn; [done|raft_lia|].
    intros i Hr. apply with_snapshot_entry; cbn; try done; raft_lia.
  - split; [apply install_wf; auto|]. destruct (install_fields (mSnapshot m) s) as (? & Hp & Hcm & Ha & ?).
    split; rewrite ?Hp, ?Hcm, ?Ha; cbn; try done; try raft_lia.
    + unfold a_snap. rewrite Hp. cbn. raft_lia.
    + intros i Hr'. unfold a_snap in Hr'. rewrite Hp in Hr'. cbn in Hr'. lia.
Qed.
End evolution.

(** ** Messages a participant may send

    [s] is the state in which the handled event began and [s'] the state the
    message is built from. *)

Section messages.
Context `{RaftEnv}.
Implicit Types s : AState.

Definition message_of (s : AState) (kind : MessageType) (to : NodeID)
    (lastI lastT : Z) (granted : bool) (prev prevT : Z) (es : list Entry) (commit : Z)
    (ok : bool) (mt hint : Z) (snap : Snapshot) : Message :=
  {| mType := kind; mFrom := a_id s; mTo := to; mTerm := a_term s;
     CandidateLastIndex := lastI; CandidateLastTerm := lastT; VoteGranted := granted;
     PrevLogIndex := prev; PrevLogTerm := prevT; mEntries := es; LeaderCommit := commit;
     Success := ok; MatchIndex := mt; RejectHint := hint; mSnapshot := snap |}.

Definition vote_request s to :=
  message_of s RequestVote to (a_last s) (ps_lastTerm (a_ps s)) false 0 0 [] 0 false 0 0 zero_snapshot.
Definition vote_response s to granted :=
  message_of s RequestVoteResponse to 0 0 granted 0 0 [] 0 false 0 0 zero_snapshot.
Definition append_request s to prev prevT :=
  message_of s AppendEntries to 0 0 false prev prevT
    (drop (Z.to_nat (prev - a_snap s)) (psEntries (a_ps s))) (a_commit s) false 0 0 zero_snapshot.
Definition append_response s to ok mt hint :=
  message_of s AppendEntriesResponse to 0 0 false 0 0 [] 0 ok mt hint zero_snapshot.
Definition snapshot_request s to :=
  message_of s InstallSnapshot to 0 0 false 0 0 [] (a_commit s) false 0 0 (psSnapshot (a_ps s)).
Definition snapshot_response s to ok mt :=
  message_of s InstallSnapshotResponse to 0 0 false 0 0 [] 0 ok mt 0 zero_snapshot.
Definition timeout_now s to :=
  message_of s TimeoutNow to 0 0 false 0 0 [] 0 false 0 0 zero_snapshot.

Inductive emitted (inp : input) (s s' : AState) : Message -> Prop :=
  | em_vote_request to : a_role s' = Candidate -> emitted inp s s' (vote_request s' to)
  | em_vote_response m granted :
      inp = OnMessage m -> mType m = RequestVote ->
      (granted = true -> a_vote s' = mFrom m /\ mFrom m <> 0) ->
      emitted inp s s' (vote_response s' (mFrom m) granted)
  | em_append to prev prevT :
      a_role s' = Leader -> log_term (a_ps s') prev = Some prevT ->
      emitted inp s s' (append_request s' to prev prevT)
  | em_append_refused to hint :
      is_u64 hint -> emitted inp s s' (append_response s' to false 0 hint)
  | em_append_accepted m :
      inp = OnMessage m -> mType m = AppendEntries -> mTerm m = a_term s' -> log_covers (a_ps s') m ->
      emitted inp s s' (append_response s' (mFrom m) true (PrevLogIndex m + len (mEntries m)) 0)
  | em_snapshot to :
      a_role s' = Leader \/ Version (a_config s) < Version (a_config s') ->
      emitted inp s s' (snapshot_request s' to)
  | em_snapshot_response to ok mt :
      0 <= mt <= a_commit s' -> emitted inp s s' (snapshot_response s' to ok mt)
  | em_timeout to : a_role s' = Leader -> emitted inp s s' (timeout_now s' to).

Lemma emitted_earlier inp s0 s s' m :
  Version (a_config s0) <= Version (a_config s) -> emitted inp s s' m -> emitted inp s0 s' m.
Proof. intros Hv []; econstructor; eauto. destruct H0; [by left|right; lia]. Qed.

Lemma emitted_ok inp s s' m :
  (forall m, inp = OnMessage m -> message_ok m) -> wf s' -> emitted inp s s' m -> message_ok m.
Proof.
  intros Hinp Hwf Hem. pose proof Hwf as [Hlog Hroom [Hi Hc] _ _ _].
  pose proof (log_bounds _ Hlog). pose proof (lw_term _ Hlog) as Ht.
  assert (is_u64 0) as Hz0 by done. assert (snapshot_typed zero_snapshot) as Hz by done.
  destruct Hem; unfold message_ok; cbn -[is_u64]; split_and!; try done; try (intros [=]).
  all: try (raft_lia; fail).
  - assert (is_Some (log_term (a_ps s') prev)) as Hr%(log_term_range _ Hlog) by eauto. raft_lia.
  - match goal with Hl : log_term _ _ = _ |- _ => apply (log_term_bound _ Hlog) in Hl end. raft_lia.
  - assert (is_Some (log_term (a_ps s') prev)) as Hr%(log_term_range _ Hlog) by eauto.
    unfold a_last in *. rewrite (lastIndex_eq _ Hlog) in *. unfold len in *. rewrite length_drop.
    unfold a_snap. lia.
  - destruct (Hinp m) as (_ & Hp & _ & _ & _ & _ & Hap & _); [done|]. pose proof (len_nonneg (mEntries m)).
    destruct (Hap ltac:(done)). raft_lia.
  - pose proof (lw_snapterm _ Hlog). split; raft_lia.
Qed.
End messages.
