(* ===== verification/RaftRefine.v ===== *)
(** * The Raft node refines the abstract participant

    Every operation of raft/node.go, run on a node whose store holds its
    durable state, is a sequence of atomic actions of [RaftSpec], each with
    its durable write done; the messages it returns are ones the reached
    state may send.  When the operation fails and poisons the node, the store
    still holds the durable state of some point of that sequence, which is
    what a restarted node continues from. *)

From S2P Require Import Prelude Membership RaftTypes RaftLog RaftNode RaftSpec.

(** Runs the monad's combinators on a node. *)
Ltac run :=
  cbv beta iota zeta delta [mbind M_bind mret M_ret get modify throw panic lift fail_ assert_].

Lemma config_members c : config_ok c -> Members c <> [].
Proof.
  intros Hok Hm. destruct (OldVoters c) as [|v vs] eqn:Hv; [by apply (config_voters _ Hok)|].
  assert (v ∈ Members c) as Hin by (apply elem_of_Members; rewrite Hv; set_solver).
  rewrite Hm in Hin. by apply not_elem_of_nil in Hin.
Qed.

Section refine.
Context `{Env : RaftEnv, Laws : !StoreLaws}.
Implicit Types (n : Node) (s : AState).

Definition view n : AState :=
  mkA (id n) (configuration n) (persistent n) (role n) (leaderID n) (commitIndex n)
    (lastApplied n) (votes n) (nextIndex n) (matchIndex n) (stateMachine n).

(** The stored state agrees with the one in memory; a node that has not yet
    saved anything may hold its initial configuration in memory only. *)
Definition ps_sync (p q : PersistentState) : Prop :=
  psHard p = psHard q /\ psSnapshot p = psSnapshot q /\ psEntries p = psEntries q /\
  (normalizeConfiguration (psConfig p) = normalizeConfiguration (psConfig q) \/
   Version (psConfig p) = 0).
Definition stored n s : Prop := exists p, st_load (store n) = Ok p /\ ps_sync p (a_ps s).

Definition live n s : Prop := view n = s /\ peers n = a_peers s /\ fatal n = None.

(** ** Specifications of methods *)

Section methods.
Context (inp : input) (Hinp : forall m, inp = OnMessage m -> message_ok m).

(** Why a panic may happen: two leaders in a term, or a leader's log that
    contradicts this one. *)
Definition panic_cause s (p : nat) : Prop :=
  exists m, inp = OnMessage m /\ mTerm m = a_term s /\
    match p with
    | 1%nat => (mType m = AppendEntries \/ mType m = InstallSnapshot) /\
               a_role s = Leader /\ mFrom m <> a_id s
    | 3%nat | 4%nat =>
               mType m = AppendEntries /\ validateAppend m = true /\
               log_term (a_ps s) (PrevLogIndex m) = Some (PrevLogTerm m) /\
               accept_log (a_ps s) (a_commit s) (mEntries m) = None
    | _ => False
    end.

Definition post {A} s (P : A -> AState -> Prop) (o : outcome A) n' : Prop :=
  exists s', rtc (act inp) s s' /\ stored n' s' /\
    match o with
    | Ret a => live n' s' /\ P a s'
    | Fail _ => live n' s' \/ is_Some (fatal n')
    | Panic p => panic_cause s' p
    end.

Definition spec {A} s (m : M A) (P : A -> AState -> Prop) : Prop :=
  forall n, live n s -> stored n s -> wf s -> let '(o, n') := m n in post s P o n'.

Lemma rtc_sound s s' : rtc (act inp) s s' -> wf s -> wf s' /\ evolves s s'.
Proof using Hinp.
  induction 1 as [|s1 s2 s3 H1 _ IH]; intros Hwf; [by split|].
  destruct (act_sound _ _ _ Hinp H1 Hwf) as [Hwf2 He]. destruct (IH Hwf2). split; [done|].
  by etransitivity.
Qed.

Lemma spec_ret {A} s (a : A) (P : A -> AState -> Prop) : P a s -> spec s (mret a) P.
Proof using. intros HP n Hl Hs _. cbn. exists s. split; [apply rtc_refl|auto]. Qed.

Lemma spec_throw {A} s e (P : A -> AState -> Prop) : spec s (throw e) P.
Proof using. intros n Hl Hs _. cbn. exists s. split; [apply rtc_refl|auto]. Qed.

Lemma spec_fail {A} s e (P : A -> AState -> Prop) : spec s (fail_ e) P.
Proof using. intros n Hl Hs _. cbn. exists s. split; [apply rtc_refl|]. cbn. eauto. Qed.

Lemma spec_bind {A B} s (m : M A) (f : A -> M B) P Q :
  spec s m P -> (forall a s', rtc (act inp) s s' -> wf s' -> P a s' -> spec s' (f a) Q) ->
  spec s (m ≫= f) Q.
Proof using Hinp.
  intros Hm Hf n Hl Hs Hwf. specialize (Hm n Hl Hs Hwf). unfold mbind, M_bind.
  destruct (m n) as [[a|e|p] n']; destruct Hm as (s' & Hr & Hs' & Hpost).
  - destruct Hpost as [Hl' HP]. destruct (rtc_sound _ _ Hr Hwf) as [Hwf' _].
    specialize (Hf a s' Hr Hwf' HP n' Hl' Hs' Hwf'). destruct (f a n') as [o n''].
    destruct Hf as (s'' & Hr' & ?). exists s''. split; [by eapply rtc_trans|done].
  - exists s'. auto.
  - exists s'. auto.
Qed.

Lemma spec_get s (P : Node -> AState -> Prop) : (forall n, live n s -> P n s) -> spec s get P.
Proof using. intros HP n Hl Hs _. cbn. exists s. split; [apply rtc_refl|auto]. Qed.

(** Reading the node and continuing with it. *)
Lemma spec_read {B} s (f : Node -> M B) Q : (forall n, live n s -> wf s -> spec s (f n) Q) -> spec s (n ← get; f n) Q.
Proof using.
  intros Hf n Hl Hs Hwf. cbn. apply Hf; done.
Qed.

Lemma spec_wf {A} s (m : M A) P : (wf s -> spec s m P) -> spec s m P.
Proof using. intros Hm n Hl Hs Hwf. by apply Hm. Qed.

Lemma spec_mono {A} s (m : M A) (P Q : A -> AState -> Prop) :
  spec s m P -> (forall a s', rtc (act inp) s s' -> wf s' -> P a s' -> Q a s') -> spec s m Q.
Proof using Hinp.
  intros Hm HPQ n Hl Hs Hwf. specialize (Hm n Hl Hs Hwf). destruct (m n) as [[a|e|p] n'];
    destruct Hm as (s' & Hr & Hs' & Hpost); exists s'; (split; [done|]; split; [done|]); try done.
  destruct Hpost as [? HP]. destruct (rtc_sound _ _ Hr Hwf). auto.
Qed.

(** A change of timers and flags only. *)
Definition same_protocol n n' : Prop :=
  view n' = view n /\ peers n' = peers n /\ store n' = store n /\ fatal n' = fatal n.

Lemma live_same n n' s : same_protocol n n' -> live n s -> live n' s.
Proof using. intros (Hv & Hp & _ & Hf) (? & ? & ?). split_and!; congruence. Qed.
Lemma stored_same n n' s : same_protocol n n' -> stored n s -> stored n' s.
Proof using. intros (_ & _ & Hst & _) (p & ? & ?). exists p. by rewrite Hst. Qed.

Lemma spec_modify s f (P : unit -> AState -> Prop) :
  (forall n, same_protocol n (f n)) -> P tt s -> spec s (modify f) P.
Proof using.
  intros Hf HP n Hl Hs _. cbn. exists s. split; [apply rtc_refl|].
  split; [by eapply stored_same|]. split; [by eapply live_same|done].
Qed.

(** A change of the abstract state that is not durable. *)
Lemma spec_act s f s' (P : unit -> AState -> Prop) :
  (forall n, live n s -> view (f n) = s' /\ peers (f n) = a_peers s' /\ store (f n) = store n /\ fatal (f n) = fatal n) ->
  act inp s s' -> a_ps s' = a_ps s -> P tt s' -> spec s (modify f) P.
Proof using.
  intros Hf Hact Hps HP n Hl Hs _. cbn. destruct (Hf n Hl) as (Hv & Hp & Hst & Hfa).
  exists s'. split; [by apply rtc_once|]. split.
  - destruct Hs as (p & ? & ?). exists p. by rewrite Hst, Hps.
  - split; [|done]. split_and!; try done. rewrite Hfa. apply Hl.
Qed.

(** A change followed by its save: on failure the store holds the old or the
    new state. *)
Lemma save_post {A} n s p (P : A -> AState -> Prop) (k : M A) s' :
  stored n s -> fatal n = None -> rtc (act inp) s s' -> a_ps s' = p ->
  (forall st', st_load st' = Ok p -> stored (set_store st' n) s' ->
     let '(o, n') := k (set_store st' n) in post s P o n') ->
  let '(o, n') := (save p;; k) n in post s P o n'.
Proof using Laws.
  intros (q & Hq & Hsync) Hfatal Hr Hp Hk. unfold save. run.
  destruct (st_save (store n) p) as [st' [e|]] eqn:Hsave.
  - destruct (save_err _ _ _ _ Hsave) as [Hold|Hnew].
    + exists s. split; [apply rtc_refl|]. split; [|cbn; eauto].
      exists q. cbn. by rewrite Hold.
    + exists s'. split; [done|]. split; [|cbn; eauto].
      exists p. cbn. split; [done|]. subst p. split_and!; auto.
  - destruct (save_ok _ _ _ Hsave) as [Hl _]. apply Hk; [done|].
    exists p. cbn. split; [done|]. subst p. split_and!; auto.
Qed.

(** The judgement inside a method, where the node is ahead of [s]. *)
Definition spec_at {A} n s (m : M A) (P : A -> AState -> Prop) : Prop :=
  let '(o, n') := m n in post s P o n'.

Lemma spec_at_run {A B} n n1 s (m : M A) a (f : A -> M B) P :
  m n = (Ret a, n1) -> spec_at n1 s (f a) P -> spec_at n s (m ≫= f) P.
Proof using. unfold spec_at. run. by intros ->. Qed.

Lemma spec_at_modify {B} n s g (f : unit -> M B) P :
  spec_at (g n) s (f tt) P -> spec_at n s (modify g ≫= f) P.
Proof using. done. Qed.

Lemma spec_at_read {B} n s (f : Node -> M B) P : spec_at n s (f n) P -> spec_at n s (get ≫= f) P.
Proof using. done. Qed.

Lemma spec_at_step {A} n s s' (m : M A) P :
  rtc (act inp) s s' -> wf s -> live n s' -> stored n s' -> spec s' m P -> spec_at n s m P.
Proof using Hinp.
  intros Hr Hwf Hl Hs Hm. unfold spec_at. specialize (Hm n Hl Hs (proj1 (rtc_sound _ _ Hr Hwf))).
  destruct (m n) as [o n']. destruct Hm as (s'' & Hr' & ?). exists s''. split; [|done].
  by eapply rtc_trans.
Qed.

Lemma spec_at_persist {A} n s s' (k : M A) P :
  stored n s -> rtc (act inp) s s' -> live n s' -> wf s -> spec s' k P ->
  spec_at n s (persist;; k) P.
Proof using Hinp Laws.
  intros Hs Hr Hl Hwf Hk. pose proof Hl as (Hv & Hp & Hf).
  assert (a_ps s' = persistent n) as Hps by (by rewrite <- Hv).
  pose proof (save_post n s (persistent n) P k s' Hs Hf Hr Hps) as Hpost.
  unfold spec_at, persist. apply Hpost. intros st' Hst Hs'.
  apply (spec_at_step (set_store st' n) s s' k P Hr Hwf); try done.
Qed.

Lemma spec_at_persist_end n s s' P :
  stored n s -> rtc (act inp) s s' -> live n s' -> wf s -> P tt s' -> spec_at n s persist P.
Proof using Hinp Laws.
  intros Hs Hr Hl Hwf HP.
  assert (spec_at n s (persist;; mret tt) P) as Hp
    by (eapply spec_at_persist; eauto; by apply spec_ret).
  revert Hp. unfold spec_at. run. destruct (persist n) as [[[]| |] n']; done.
Qed.

Lemma spec_unfold {A} s (m : M A) P :
  (forall n, live n s -> stored n s -> wf s -> spec_at n s m P) <-> spec s m P.
Proof using. done. Qed.

(** ** Timers and roles *)

Lemma resetElectionTimer_run n : exists n', resetElectionTimer n = (Ret tt, n') /\ same_protocol n n'.
Proof using.
  unfold resetElectionTimer. run. case_match; [|eexists; split; [done|by split_and!]].
  destruct (uint64N _ _) as [v rng]. eexists. split; [done|by split_and!].
Qed.

Lemma becomeFollower_run l n : exists n',
  becomeFollower l n = (Ret tt, n') /\ view n' = follow l (view n) /\
  peers n' = peers n /\ store n' = store n /\ fatal n' = fatal n.
Proof using.
  unfold becomeFollower. cbv beta iota delta [mbind M_bind modify].
  match goal with |- context [resetElectionTimer ?x] =>
    destruct (resetElectionTimer_run x) as (n' & -> & Hv & Hp & Hs & Hf) end.
  eexists. split; [done|]. rewrite Hv, Hp, Hs, Hf. done.
Qed.

Lemma spec_resetElectionTimer s : spec s resetElectionTimer (fun _ s' => s' = s).
Proof using.
  intros n Hl Hs _. destruct (resetElectionTimer_run n) as (n' & -> & Hsame).
  exists s. split; [apply rtc_refl|]. split; [by eapply stored_same|].
  split; [by eapply live_same|done].
Qed.

Lemma spec_becomeFollower l s : spec s (becomeFollower l) (fun _ s' => s' = follow l s).
Proof using.
  intros n (Hv & Hp & Hf) Hs _. destruct (becomeFollower_run l n) as (n' & -> & Hv' & Hp' & Hst & Hf').
  exists (follow l s). split; [apply rtc_once, act_follow|]. split.
  - destruct Hs as (p & ? & ?). exists p. by rewrite Hst.
  - split; [|done]. rewrite Hv in Hv'. split_and!; [done| |congruence]. by rewrite Hp'.
Qed.

Lemma spec_advanceTerm m s :
  inp = OnMessage m -> a_term s < mTerm m ->
  spec s (advanceTerm (mTerm m)) (fun _ s' => s' = new_term (mTerm m) s).
Proof using Hinp Laws.
  intros Hm Ht. apply spec_unfold. intros n Hl Hs Hwf. pose proof Hl as (Hv & Hp & Hf).
  destruct (Hinp m Hm) as [Hu _]. unfold advanceTerm. apply spec_at_read.
  assert (term n = a_term s) as Hterm by by rewrite <- Hv.
  rewrite Hterm, (proj2 (Z.ltb_lt _ _) Ht). eapply spec_at_run; [done|]. apply spec_at_modify.
  set (n1 := set_hard _ n). destruct (becomeFollower_run 0 n1) as (n2 & Hrun & Hv2 & Hp2 & Hs2 & Hf2).
  eapply spec_at_run; [exact Hrun|].
  assert (view n2 = new_term (mTerm m) s) as Hview by (rewrite Hv2, <- Hv; done).
  apply (spec_at_persist_end _ _ (new_term (mTerm m) s)); [| | |done|done].
  - destruct Hs as (p & ? & ?). exists p. by rewrite Hs2.
  - apply rtc_once. by apply act_new_term.
  - split_and!; [done| |by rewrite Hf2]. rewrite Hp2. done.
Qed.

(** ** Configuration changes *)

Lemma add_new_peers_run last ps n nx mt :
  nextIndex n = Some nx -> matchIndex n = Some mt -> is_u64 (last + 1) ->
  let '(nx', mt') := grow_maps (last + 1) (snapIndex (snapshot_of n)) ps nx mt in
  add_new_peers last ps n = (Ret tt, set_matchIndex (Some mt') (set_nextIndex (Some nx') n)).
Proof using.
  intros Hn Hm Hu. revert n nx mt Hn Hm. induction ps as [|p ps IH]; intros n nx mt Hn Hm; cbn.
  { run. f_equal. destruct n; cbn in Hn, Hm. subst. done. }
  run. rewrite Hn. cbn. destruct (nx !! p) as [v|] eqn:Hp; [by apply IH|].
  unfold put_nextIndex, put_matchIndex. rewrite (u64_id (last + 1)) by done. run. rewrite Hn.
  cbn [matchIndex set_nextIndex]. rewrite Hm. set (n1 := set_matchIndex _ _).
  specialize (IH n1 (<[p:=last + 1]> nx) (<[p:=snapIndex (snapshot_of n)]> mt) eq_refl eq_refl).
  change (snapIndex (snapshot_of n1)) with (snapIndex (snapshot_of n)) in IH.
  destruct (grow_maps _ _ _ _ _) as [nx' mt']. by rewrite IH.
Qed.

Lemma installConfiguration_run next n :
  role_ok (view n) -> is_u64 (lastIndex n + 1) -> exists n',
  installConfiguration next n = (Ret tt, n') /\ view n' = reconfigure next (view n) /\
  peers n' = Members (normalizeConfiguration next) /\ store n' = store n /\ fatal n' = fatal n.
Proof using.
  intros [Hrole _] Hu. set (c := normalizeConfiguration next).
  assert (exists n1, (n ← get; (if bool_decide (role n = Leader) then
       add_new_peers (lastIndex n) (peers n);; drop_old_peers else mret tt))
       (set_peers (Members c) (set_configuration c n)) = (Ret tt, n1) /\
     view n1 = (let '(nx, mt) := reconfigure_maps c (view n) in
       mkA (id n) c (persistent n) (role n) (leaderID n) (commitIndex n) (lastApplied n)
         (votes n) nx mt (stateMachine n)) /\
     peers n1 = Members c /\ store n1 = store n /\ fatal n1 = fatal n) as (n1 & Hrun & Hv1 & Hp1 & Hs1 & Hf1).
  { unfold reconfigure_maps. cbn [a_role view a_next a_match]. cbn in Hrole.
    run. cbn [role set_peers set_configuration]. destruct (role n) eqn:Hr; cbn [bool_decide].
    1,2: eexists; split; [reflexivity|]; split_and!; try done; unfold view; cbn; by rewrite Hr.
    destruct Hrole as (nx & mt & Hn & Hm & _). cbn in Hn, Hm.
    set (n0 := set_peers _ _).
    pose proof (add_new_peers_run (lastIndex n) (Members c) n0 nx mt Hn Hm Hu) as Hadd.
    change (snapIndex (snapshot_of n0)) with (a_snap (view n)) in Hadd.
    change (lastIndex n0) with (lastIndex n). change (peers n0) with (Members c).
    rewrite Hn, Hm. change (a_last (view n)) with (lastIndex n).
    destruct (grow_maps _ _ _ _ _) as [nx' mt']. rewrite bool_decide_true, Hadd by done. unfold drop_old_peers. run. cbn.
    eexists; split; [reflexivity|]. split_and!; try done. unfold view; cbn. by rewrite Hr. }
  assert (id n1 = id n /\ role n1 = role n /\ configuration n1 = c) as (Hid & Hr & Hc).
  { split_and!; [change (a_id (view n1) = id n)|change (a_role (view n1) = role n)|
      change (a_config (view n1) = c)]; rewrite Hv1; by destruct (reconfigure_maps c (view n)). }
  unfold installConfiguration. revert Hrun. run.
  cbn [configuration set_configuration set_peers]. fold c.
  intros Hrun.
  rewrite Hrun. rewrite Hid, Hr, Hc. unfold reconfigure. fold c.
  destruct (reconfigure_maps c (view n)) as [nx mt]. cbn [a_id a_role view].
  destruct (negb (Voter c (id n)) && negb (bool_decide (role n = Follower))).
  - destruct (becomeFollower_run 0 n1) as (n2 & -> & Hv2 & Hp2 & Hs2 & Hf2).
    exists n2. rewrite Hv2, Hv1. split_and!; congruence || done.
  - exists n1. split_and!; done.
Qed.

(** ** Commit and apply *)

(** The effect of a committed entry, and of a run of them, on the state
    machine. *)
Definition sm_step (sm : SM) (e : Entry) : SM :=
  if Byte.eqb (EType e) EntryCommand then fst (sm_apply sm e) else sm.
Definition log_range s (i j : Z) : list Entry :=
  take (Z.to_nat (j - i)) (drop (Z.to_nat (i - a_snap s)) (psEntries (a_ps s))).

Lemma log_range_cons s i j e :
  a_snap s <= i < j -> log_entry (a_ps s) (i + 1) = Some e ->
  log_range s i j = e :: log_range s (i + 1) j.
Proof using.
  intros Hi He. unfold log_entry in He. rewrite (proj2 (Z.ltb_lt _ _)) in He by (unfold a_snap in Hi; lia).
  fold (a_snap s) in He. unfold log_range.
  replace (Z.to_nat (i + 1 - a_snap s - 1)) with (Z.to_nat (i - a_snap s)) in He by lia.
  rewrite (drop_S _ e (Z.to_nat (i - a_snap s))) by done.
  replace (Z.to_nat (j - i)) with (S (Z.to_nat (j - (i + 1)))) by lia. cbn.
  by replace (Z.to_nat (i + 1 - a_snap s)) with (S (Z.to_nat (i - a_snap s))) by lia.
Qed.

(** The log, the vote and the role stay as they are, unless a committed
    configuration change is applied on the way. *)
Record quiet s s' : Prop := {
  q_id : a_id s' = a_id s;
  q_hard : psHard (a_ps s') = psHard (a_ps s);
  q_snap : psSnapshot (a_ps s') = psSnapshot (a_ps s);
  q_entries : psEntries (a_ps s') = psEntries (a_ps s);
  q_commit : a_commit s <= a_commit s';
  q_role : a_role s' = a_role s /\ a_config s' = a_config s
           \/ Version (a_config s) < Version (a_config s') /\
              (a_role s' = a_role s \/ a_role s' = Follower)
}.

#[local] Instance quiet_preorder : PreOrder quiet.
Proof using.
  split; [by split; auto; try lia|]. intros s1 s2 s3 [] []. split; try congruence; try lia.
  destruct q_role0 as [[Hr Hc]|[Hc Hr]], q_role1 as [[Hr' Hc']|[Hc' Hr']].
  - left. split; congruence.
  - right. by rewrite Hc, Hr in *.
  - right. by rewrite Hc', Hr'.
  - right. split; [lia|]. destruct Hr' as [-> | ->]; auto.
Qed.

Lemma quiet_log s s' : quiet s s' ->
  (forall i, log_entry (a_ps s') i = log_entry (a_ps s) i) /\
  (forall i, log_term (a_ps s') i = log_term (a_ps s) i) /\
  a_last s' = a_last s /\ ps_lastTerm (a_ps s') = ps_lastTerm (a_ps s) /\
  a_term s' = a_term s /\ a_vote s' = a_vote s /\ a_snap s' = a_snap s.
Proof using.
  intros []. unfold log_term, log_entry, a_last, a_term, a_vote, a_snap, ps_lastIndex, ps_lastTerm.
  by rewrite q_hard0, q_snap0, q_entries0.
Qed.

Lemma spec_at_assoc {A B C} n s (a : M A) (f : A -> M B) (g : B -> M C) P :
  spec_at n s (a ≫= (fun x => f x ≫= g)) P -> spec_at n s ((a ≫= f) ≫= g) P.
Proof using. unfold spec_at. run. by destruct (a n) as [[] ?]. Qed.

Lemma spec_at_failed {A B} n s e (f : A -> M B) P :
  stored n s -> spec_at n s (fail_ e ≫= f) P.
Proof using. intros Hs. exists s. split; [apply rtc_refl|]. split; [done|]. cbn. eauto. Qed.

Lemma reconfigure_quiet next s :
  wf s -> Version (a_config s) < Version next ->
  quiet s (put_ps (with_config next (a_ps s)) (reconfigure next s)).
Proof using.
  intros Hwf Hv. split; cbn; rewrite ?reconfigure_id, ?reconfigure_commit, ?reconfigure_config; try done.
  right. split; [done|apply reconfigure_role].
Qed.

Lemma put_applied_quiet i sm s : quiet s (put_applied i sm s).
Proof using. split; cbn; auto; lia. Qed.

Lemma spec_apply_reconfigure {A} e next s (k : M A) P n :
  live n s -> stored n s -> wf s ->
  a_applied s < a_commit s -> log_entry (a_ps s) (a_applied s + 1) = Some e ->
  EType e = EntryConfig -> DecodeConfiguration (Command e) = Ok next ->
  Version (a_config s) < Version next ->
  validateConfigurationTransition (a_config s) next = Ok tt ->
  (forall s', rtc (act inp) s s' -> quiet s s' -> a_applied s' = a_applied s + 1 ->
     a_commit s' = a_commit s -> a_sm s' = sm_step (a_sm s) e -> spec s' k P) ->
  spec_at n s (installConfiguration next;; modify (set_psConfig next);; persist;;
    modify (set_lastApplied (a_applied s + 1));; k) P.
Proof using Hinp Laws.
  intros (Hv & Hp & Hf) Hs Hwf Hlt He Hty Hd Hver Htr Hk.
  pose proof Hwf as [Hlog Hroom _ _ _ Hrole]. pose proof (log_bounds _ Hlog).
  destruct (installConfiguration_run next n) as (n1 & Hrun & Hv1 & Hp1 & Hs1 & Hf1).
  { by rewrite Hv. }
  { subst s. change (lastIndex n) with (a_last (view n)). raft_lia. }
  eapply spec_at_run; [exact Hrun|]. apply spec_at_modify.
  set (s1 := put_ps (with_config next (a_ps s)) (reconfigure next s)).
  set (n2 := set_psConfig next n1).
  assert (view n2 = s1) as Hv2.
  { transitivity (put_ps (with_config next (a_ps (view n1))) (view n1)); [done|].
    by rewrite Hv1, reconfigure_ps, Hv. }
  assert (act inp s s1) as Hact by by eapply act_reconfigure.
  pose proof (reconfigure_quiet next s Hwf Hver) as Hq. fold s1 in Hq.
  apply (spec_at_persist n2 s s1); [|by apply rtc_once| |done|].
  - destruct Hs as (p & ? & ?). exists p. change (store n2) with (store n1). by rewrite Hs1.
  - split_and!; [done| |cbn; congruence]. cbn. rewrite Hp1. unfold a_peers. cbn.
    by rewrite reconfigure_config.
  - assert (a_applied s1 = a_applied s) as Ha by apply reconfigure_applied.
    assert (a_commit s1 = a_commit s) as Hc by apply reconfigure_commit.
    set (s2 := put_applied (a_applied s + 1) (a_sm s1) s1).
    assert (act inp s1 s2) as Hact2.
    { unfold s2. rewrite <- Ha. apply (act_apply inp s1 e); [lia|by rewrite Ha|].
      unfold sm_applied. rewrite Hty. cbn. split; [done|]. intros _. exists next.
      split; [done|]. unfold s1. cbn. rewrite reconfigure_config. cbn. lia. }
    eapply (spec_bind _ _ _ (fun _ s' => s' = s2)).
    + apply (spec_act s1 _ s2); [|done|done|done]. intros m (Hvm & Hpm & ?).
      split_and!; try done.
      transitivity (put_applied (a_applied s + 1) (a_sm (view m)) (view m)); [done|by rewrite Hvm].
    + intros [] s' _ _ ->. apply Hk; [|transitivity s1; [done|apply put_applied_quiet]|done|done|].
      * eapply rtc_l; [done|]. by apply rtc_once.
      * cbn. rewrite reconfigure_sm. unfold sm_step. by rewrite Hty.
Qed.

Lemma spec_apply_one {A} e s (k : M A) P :
  a_applied s < a_commit s -> log_entry (a_ps s) (a_applied s + 1) = Some e ->
  (forall s', rtc (act inp) s s' -> quiet s s' -> a_applied s' = a_applied s + 1 ->
     a_commit s' = a_commit s -> a_sm s' = sm_step (a_sm s) e -> spec s' k P) ->
  spec s (apply_entry e;; modify (set_lastApplied (a_applied s + 1));; k) P.
Proof using Hinp Laws.
  intros Hlt He Hk. apply spec_unfold. intros n Hl Hs Hwf. pose proof Hl as (Hv & Hp & Hf).
  assert (forall n' sm', live n' (put_applied (a_applied s) sm' s) -> stored n' s ->
            sm_applied e s sm' ->
            spec_at n' s (modify (set_lastApplied (a_applied s + 1));; k) P) as Hdone.
  { intros n' sm' (Hv' & Hp' & Hf') Hs' Hsm. apply spec_at_modify.
    set (s' := put_applied (a_applied s + 1) sm' s).
    assert (rtc (act inp) s s') as Hr by (apply rtc_once; by eapply act_apply).
    apply (spec_at_step _ s s'); [done|done| |done|].
    - split_and!; try done.
      transitivity (put_applied (a_applied s + 1) (a_sm (view n')) (view n')); [done|].
      by rewrite Hv'.
    - apply Hk; try done; [apply put_applied_quiet|]. unfold sm_step, sm_applied in *. cbn.
      destruct (Byte.eqb (EType e) EntryCommand); [by rewrite Hsm|apply Hsm]. }
  unfold apply_entry. destruct (Byte.eqb (EType e) EntryCommand) eqn:Hcmd.
  - apply spec_at_assoc, spec_at_read.
    assert (stateMachine n = a_sm s) as -> by (by rewrite <- Hv).
    destruct (sm_apply (a_sm s) e) as [sm' [err|]] eqn:Hap.
    + apply spec_at_assoc, spec_at_modify, spec_at_failed. done.
    + apply spec_at_assoc, spec_at_modify. eapply spec_at_run; [done|]. apply (Hdone _ sm'); [|done|].
      * split_and!; try done. subst s. done.
      * unfold sm_applied. by rewrite Hcmd.
  - destruct (Byte.eqb (EType e) EntryConfig) eqn:Hcfg.
    + apply Byte.byte_dec_bl in Hcfg.
      destruct (DecodeConfiguration (Command e)) as [next|err] eqn:Hd; [|by apply spec_at_failed].
      apply spec_at_assoc, spec_at_read.
      assert (configuration n = a_config s) as -> by (by rewrite <- Hv).
      destruct (Z.ltb_spec (Version (a_config s)) (Version next)).
      * destruct (validateConfigurationTransition (a_config s) next) as [[]|] eqn:Htr;
          cbn [is_ok negb]; [|by apply spec_at_failed].
        apply spec_at_assoc. apply (spec_apply_reconfigure e next s _ P n); auto.
      * eapply spec_at_run; [done|]. apply (Hdone _ (a_sm s)); [|done|].
        -- split_and!; try done. by subst s.
        -- unfold sm_applied. rewrite Hcmd. split; [done|]. intros _. exists next. split; [done|lia].
    + eapply spec_at_run; [done|]. apply (Hdone _ (a_sm s)); [|done|].
      * split_and!; try done. by subst s.
      * unfold sm_applied. rewrite Hcmd. split; [done|]. intros Hty. by rewrite Hty in Hcfg.
Qed.

Lemma spec_apply_loop fuel s :
  Z.of_nat fuel = a_commit s - a_applied s ->
  spec s (apply_loop fuel) (fun _ s' => quiet s s' /\ a_commit s' = a_commit s /\ a_applied s' = a_commit s' /\
    a_sm s' = foldl sm_step (a_sm s) (log_range s (a_applied s) (a_commit s))).
Proof using Hinp Laws.
  revert s. induction fuel as [|f IH]; intros s Hfuel; cbn [apply_loop].
  { apply spec_ret. split_and!; [reflexivity|done|lia|].
    unfold log_range. by replace (Z.to_nat _) with 0%nat by lia. }
  apply spec_read. intros n (Hv & _ & _) Hwf. pose proof Hwf as [Hlog Hroom [Hi Hc] _ _ _].
  pose proof (log_bounds _ Hlog).
  assert (commitIndex n = a_commit s /\ lastApplied n = a_applied s /\ entryAt n = ps_entryAt (a_ps s))
    as (-> & -> & ->) by by rewrite <- Hv.
  rewrite (proj2 (Z.ltb_lt _ _)), (u64_id (a_applied s + 1)) by raft_lia.
  rewrite (entryAt_eq _ Hlog), (proj2 (Z.leb_gt _ _)) by raft_lia.
  destruct (log_entry_is_Some _ Hlog (a_applied s + 1)) as [e He]; [raft_lia|]. rewrite He.
  apply spec_apply_one; [lia|done|]. intros s' _ Hq Ha Hc' Hsm.
  eapply spec_mono; [apply IH; lia|]. intros [] s'' _ _ (Hq' & Hc'' & ? & Hsm'').
  split_and!; [by transitivity s'|congruence|done|].
  rewrite (log_range_cons s (a_applied s) (a_commit s) e) by (done || lia). cbn.
  rewrite Hsm'', Hsm, Ha, Hc'. unfold log_range, a_snap. by rewrite (q_entries _ _ Hq), (q_snap _ _ Hq).
Qed.

Lemma spec_applyCommitted s :
  spec s applyCommitted
    (fun _ s' => quiet s s' /\ a_commit s' = a_commit s /\ a_applied s' = a_commit s' /\
       a_sm s' = foldl sm_step (a_sm s) (log_range s (a_applied s) (a_commit s))).
Proof using Hinp Laws.
  unfold applyCommitted. apply spec_read. intros n (Hv & _ & _) Hwf.
  assert (commitIndex n = a_commit s /\ lastApplied n = a_applied s) as [-> ->] by by rewrite <- Hv.
  pose proof (wf_index _ Hwf). eapply spec_bind; [apply spec_apply_loop; lia|].
  intros [] s' _ _ Hs'. apply spec_read. intros n' (Hv' & _ & _) Hwf'.
  assert (commitIndex n' = a_commit s' /\ lastApplied n' = a_applied s') as [-> ->] by by rewrite <- Hv'.
  rewrite (proj2 (Z.leb_le _ _)) by apply (wf_index _ Hwf'). by apply spec_ret.
Qed.

(** What a live node's fields are. *)
Lemma live_fields n s : live n s ->
  id n = a_id s /\ configuration n = a_config s /\ persistent n = a_ps s /\ role n = a_role s /\
  leaderID n = a_leader s /\ commitIndex n = a_commit s /\ lastApplied n = a_applied s /\
  votes n = a_votes s /\ nextIndex n = a_next s /\ matchIndex n = a_match s /\
  stateMachine n = a_sm s /\ peers n = a_peers s.
Proof using. intros (<- & Hp & _). split_and!; done. Qed.

Lemma put_commit_quiet i s : a_commit s <= i -> quiet s (put_commit i s).
Proof using. intros. split; cbn; auto. Qed.

Lemma spec_commit_loop fuel index s :
  a_role s = Leader -> index = a_commit s + Z.of_nat fuel -> index <= a_last s ->
  spec s (commit_loop fuel index) (fun _ s' => quiet s s').
Proof using Hinp Laws.
  intros Hr. revert index. induction fuel as [|f IH]; intros index Hi Hlast; cbn [commit_loop].
  { apply spec_ret. reflexivity. }
  apply spec_read. intros n Hl Hwf. pose proof Hwf as [Hlog Hroom [Hidx Hc] _ _ _].
  pose proof (live_fields n s Hl) as (_ & Hcfg & Hps & _ & _ & _ & _ & _ & _ & Hmt & _).
  unfold termAt, term. rewrite Hps, (termAt_eq _ Hlog), (proj2 (Z.ltb_ge _ _)) by raft_lia.
  destruct (proj2 (log_term_range _ Hlog index)) as [t Ht]; [raft_lia|]. rewrite Ht.
  eapply (spec_bind _ _ _ (fun a s' => a = t /\ s' = s)).
  { intros n' Hl' Hs' _. exists s. split; [apply rtc_refl|]. auto. }
  intros ? s' _ _ [-> ->]. destruct (Z.eqb_spec t (hsTerm (psHard (a_ps s)))) as [->|]; cbn [negb];
    [|apply IH; lia].
  rewrite Hcfg, Hmt. destruct (Quorum _ _) eqn:Hq; [|apply IH; lia].
  set (s1 := put_commit index s). eapply (spec_bind _ _ _ (fun _ s' => s' = s1)).
  - apply (spec_act s _ s1); [|apply act_commit_leader; auto; lia|done|done].
    intros m (<- & Hp & Hf). split_and!; done.
  - intros [] s' _ _ ->. eapply spec_mono; [apply spec_applyCommitted|].
    intros [] s' _ _ (Hq' & _). transitivity s1; [apply put_commit_quiet; lia|done].
Qed.

Lemma spec_advanceCommit s : spec s advanceCommit (fun _ s' => quiet s s').
Proof using Hinp Laws.
  unfold advanceCommit. apply spec_read. intros n Hl Hwf.
  pose proof (live_fields n s Hl) as (_ & _ & Hps & -> & _ & -> & _). unfold lastIndex. rewrite Hps.
  case_bool_decide; [|apply spec_ret; reflexivity].
  pose proof (wf_index _ Hwf). apply spec_commit_loop; [done|raft_lia|unfold a_last; lia].
Qed.

(** ** Replication messages *)

Lemma replicationMessage_emitted s0 n s p :
  live n s -> wf s -> (a_role s = Leader -> p ∈ a_peers s) ->
  a_role s = Leader \/ a_role s = Follower /\ Version (a_config s0) < Version (a_config s) ->
  exists m, replicationMessage n p = Ret m /\ emitted inp s0 s m.
Proof using.
  intros Hl Hwf Hin Hrole. pose proof (live_fields n s Hl) as (Hid & _ & Hps & _ & _ & Hc & _ & _ & Hn & _).
  pose proof Hwf as [Hlog Hroom [Hidx Hcm] _ _ [Hro _]]. pose proof (log_bounds _ Hlog).
  assert (emitted inp s0 s (snapshot_request s p)) as Hsnap by (apply em_snapshot; tauto).
  unfold replicationMessage, snapshot_of, term, termAt, entriesFrom. rewrite Hid, Hps, Hc, Hn.
  destruct (Z.leb_spec (map_get (a_next s) p) (snapIndex (psSnapshot (a_ps s)))) as [|Hgt]; [eauto|].
  destruct Hrole as [Hr|[Hr _]]; rewrite Hr in Hro; [|rewrite Hro in Hgt; cbn in Hgt; lia].
  destruct Hro as (nx & mt & Hnx & _ & Hpo). rewrite Hnx in *.
  destruct (po_dom _ _ _ _ Hpo p (Hin Hr)) as [v Hv]. pose proof (po_next _ _ _ _ Hpo _ _ Hv) as Hb.
  assert (map_get (Some nx) p = v) as Hg by (unfold map_get; cbn; by rewrite Hv). rewrite Hg in *.
  rewrite (termAt_eq _ Hlog), (proj2 (Z.ltb_ge _ _)) by lia.
  destruct (proj2 (log_term_range _ Hlog (v - 1))) as [t Ht]; [raft_lia|]. rewrite Ht.
  rewrite (entriesFrom_eq _ Hlog) by raft_lia. eexists. split; [done|].
  by apply (em_append inp s0 s p (v - 1) t).
Qed.

Definition may_replicate s0 s : Prop :=
  a_role s = Leader \/ a_role s = Follower /\ Version (a_config s0) < Version (a_config s).

Lemma quiet_may_replicate s0 s : a_role s0 = Leader -> quiet s0 s -> may_replicate s0 s.
Proof using.
  intros Hr [_ _ _ _ _ [[Hr' _]|[Hv [Hr'|Hr']]]]; [left; congruence..|by right].
Qed.

Lemma spec_replicationMessages s0 s :
  may_replicate s0 s ->
  spec s replicationMessages (fun ms s' => s' = s /\ Forall (emitted inp s0 s) ms).
Proof using Hinp Laws.
  intros Hrep n Hl Hs Hwf. unfold replicationMessages. run.
  pose proof (live_fields n s Hl) as (_ & _ & _ & _ & _ & _ & _ & _ & _ & _ & _ & Hp).
  assert ((len (peers n) =? 0) = false) as ->.
  { rewrite Hp. apply Z.eqb_neq. unfold len. pose proof (config_members _ (wf_config _ Hwf)) as Hne.
    unfold a_peers. destruct (Members (a_config s)); [done|cbn; lia]. }
  enough (forall ps, ps ⊆ peers n -> exists ms, replication_loop n ps = Ret ms /\ Forall (emitted inp s0 s) ms)
    as Hall.
  { destruct (Hall (peers n)) as (ms & -> & Hms); [done|]. exists s. split; [apply rtc_refl|]. auto. }
  induction ps as [|p ps IH]; intros Hsub; cbn [replication_loop]; [eauto|].
  destruct IH as (ms & Hms & Hf); [set_solver|]. destruct (p =? id n); [by eauto|].
  destruct (replicationMessage_emitted s0 n s p Hl Hwf) as (m & -> & Hm); [|done|].
  { intros _. rewrite <- Hp. set_solver. }
  cbn. rewrite Hms. cbn. eauto.
Qed.

(** ** Elections *)

(** Messages returned by a method begun in [s]. *)
Definition sends s (ms : list Message) s' : Prop := Forall (emitted inp s s') ms.

Lemma sends_earlier s0 s ms s' : wf s0 -> rtc (act inp) s0 s -> sends s ms s' -> sends s0 ms s'.
Proof using Hinp.
  intros Hwf Hr. destruct (rtc_sound _ _ Hr Hwf) as [_ Hev].
  intros Hms. eapply Forall_impl; [exact Hms|]. intros m. apply emitted_earlier, Hev.
Qed.

(** Continues after a step: what is sent from the later state counts. *)
Lemma spec_continue {B} s (m : M B) (f : B -> M (list Message)) P :
  wf s -> spec s m P ->
  (forall b s', rtc (act inp) s s' -> wf s' -> P b s' -> spec s' (f b) (sends s')) ->
  spec s (m ≫= f) (sends s).
Proof using Hinp.
  intros Hwf Hm Hf. eapply spec_bind; [done|]. intros b s' Hr Hwf' HP.
  eapply spec_mono; [by apply Hf|]. intros ms s'' _ _. by apply sends_earlier.
Qed.

Lemma spec_put_progress {A} p v s (k : M A) P :
  a_role s = Leader -> 0 <= v <= a_last s ->
  p = a_id s \/ v = map_get (a_match s) p \/ (exists m, inp = OnMessage m /\ acknowledges m p v s) ->
  spec (put_progress p v (v + 1) s) k P ->
  spec s (put_matchIndex p v;; put_nextIndex p (u64 (v + 1));; k) P.
Proof using Hinp.
  intros Hr Hv Hj Hk. apply spec_unfold. intros n Hl Hs Hwf. pose proof Hwf as [_ Hroom _ _ _ [Hro _]].
  rewrite Hr in Hro. destruct Hro as (nx & mt & Hn & Hm & _).
  pose proof Hl as (<- & Hp & Hf). cbn in Hn, Hm. rewrite (u64_id (v + 1)) by raft_lia.
  unfold put_matchIndex, put_nextIndex. apply spec_at_assoc, spec_at_read. rewrite Hm.
  apply spec_at_modify, spec_at_assoc, spec_at_read. cbn [nextIndex set_matchIndex]. rewrite Hn.
  apply spec_at_modify.
  apply (spec_at_step _ _ (put_progress p v (v + 1) (view n))); [|done| |exact Hs|exact Hk].
  - apply rtc_once. by apply act_progress.
  - split_and!; try done. unfold view, put_progress. cbn. by rewrite Hn, Hm.
Qed.

Lemma spec_append_own e s :
  a_role s = Leader -> Index e = a_last s + 1 -> Index e < MaxUint64 -> Term e = a_term s ->
  (EType e = EntryConfig -> exists c, inp = OnConfiguration c) ->
  spec s (append_own e) (fun _ s' => quiet (append_entry e s) s').
Proof using Hinp Laws.
  intros Hr Hi Hmax Ht Hcfg. apply spec_unfold. intros n Hl Hs Hwf. pose proof Hl as (Hv & Hp & Hf).
  unfold append_own. apply spec_at_modify. set (s1 := append_entry e s).
  assert (rtc (act inp) s s1) as Hr1 by (apply rtc_once; by apply act_append).
  apply (spec_at_persist _ s s1); [done|done| |done|].
  { split_and!; try done. by subst s. }
  apply spec_read. intros n' Hl' Hwf'. pose proof (live_fields _ _ Hl') as (-> & _).
  assert (a_last s1 = Index e) as Hlast.
  { unfold a_last, ps_lastIndex. cbn. by rewrite last_snoc. }
  pose proof (log_bounds _ (wf_log _ Hwf)).
  apply spec_put_progress; [done|raft_lia|by left|].
  eapply spec_mono; [apply spec_advanceCommit|]. intros [] s' _ _ Hq.
  etransitivity; [|exact Hq]. split; cbn; auto; lia.
Qed.

(** The log can grow by an entry and stay below the largest index.  At the
    largest index itself a new leader panics and a proposed configuration
    poisons the node (RaftFindings.v), so the operations are specified below
    it. *)
Definition room s : Prop := a_last s + 1 < MaxUint64.

Lemma spec_becomeLeader s :
  a_role s = Candidate -> Quorum (a_config s) (vote_get (a_votes s)) = true -> room s ->
  spec s becomeLeader (sends s).
Proof using Hinp Laws.
  intros Hr Hq Hroom. apply spec_unfold. intros n Hl Hs Hwf.
  pose proof (live_fields _ _ Hl) as (Hid & Hcfg & Hps & _ & _ & _ & _ & _ & _ & _ & _ & Hp).
  pose proof (log_bounds _ (wf_log _ Hwf)) as Hb. unfold room, a_last in Hroom.
  unfold becomeLeader. apply spec_at_read. unfold lastIndex, term, snapshot_of. rewrite Hps, Hp.
  rewrite (proj2 (Z.eqb_neq _ _)) by raft_lia. rewrite (u64_id (_ + 1)) by raft_lia.
  do 5 apply spec_at_modify. set (e := {| Index := _ |}).
  assert (rtc (act inp) s (lead s)) as Hr1 by (apply rtc_once; by apply act_lead).
  eapply (spec_at_step _ s (lead s)); [done|done| |done|].
  { destruct Hl as (<- & _ & Hf). split_and!; try done. }
  eapply spec_mono; [|intros ms s' _ _; by apply (sends_earlier s (lead s))].
  destruct (rtc_sound _ _ Hr1 Hwf) as [Hwf1 _]. eapply spec_bind; [by apply spec_append_own|].
  intros [] s' Hr' Hwf' Hq'. eapply spec_mono.
  - apply (spec_replicationMessages (append_entry e (lead s))). by apply quiet_may_replicate.
  - intros ms s'' _ _ [-> Hms]. eapply Forall_impl; [exact Hms|].
    intros m. by apply emitted_earlier.
Qed.

Lemma spec_at_fail {A} n s e (P : A -> AState -> Prop) : stored n s -> spec_at n s (fail_ e) P.
Proof using. intros Hs. exists s. split; [apply rtc_refl|]. split; [done|]. cbn. eauto. Qed.

Lemma sends_nil s s' : sends s [] s'.
Proof using. constructor. Qed.

Lemma vote_requests_sent s n :
  live n s -> a_role s = Candidate ->
  spec s (mret (map (fun peer =>
    {| mType := RequestVote; mFrom := id n; mTo := peer; mTerm := term n;
       CandidateLastIndex := lastIndex n; CandidateLastTerm := lastTerm n; VoteGranted := false;
       PrevLogIndex := 0; PrevLogTerm := 0; mEntries := []; LeaderCommit := 0;
       Success := false; MatchIndex := 0; RejectHint := 0; mSnapshot := zero_snapshot |})
    (filter (fun peer => peer <> id n /\ Voter (configuration n) peer = true)
       (Members (configuration n))))) (sends s).
Proof using.
  intros Hl Hr. apply spec_ret. apply Forall_fmap, Forall_true. intros p.
  destruct Hl as (<- & _). by apply (em_vote_request inp (view n) (view n) p).
Qed.

Lemma spec_startElection s : room s -> spec s startElection (sends s).
Proof using Hinp Laws.
  intros Hroom. apply spec_unfold. intros n Hl Hs Hwf.
  pose proof (live_fields _ _ Hl) as (Hid & Hcfg & Hps & _ & _ & _ & _ & _ & _ & _ & _ & Hp).
  unfold startElection. apply spec_at_read. unfold term. rewrite Hid, Hcfg, Hps.
  destruct (Voter (a_config s) (a_id s)) eqn:Hvot; cbn [negb];
    [|eapply (spec_at_step n s s); [apply rtc_refl|done..|apply spec_ret, sends_nil]].
  apply spec_at_modify. destruct (Z.eqb_spec (hsTerm (psHard (a_ps s))) MaxUint64) as [|Hne].
  { by apply spec_at_fail. }
  pose proof (lw_term _ (wf_log _ Hwf)) as Hu.
  do 3 apply spec_at_modify.
  match goal with |- spec_at ?x _ _ _ => set (n1 := x);
    destruct (resetElectionTimer_run x) as (n2 & Hrun & Hv2 & Hp2 & Hst2 & Hf2) end.
  eapply spec_at_run; [exact Hrun|].
  assert (rtc (act inp) s (campaign s)) as Hr1 by (apply rtc_once, act_campaign; [done|raft_lia]).
  apply (spec_at_persist n2 s (campaign s)); [|done| |done|].
  - destruct Hs as (p & ? & ?). exists p. by rewrite Hst2.
  - destruct Hl as (Hv & _ & Hf). split_and!; [|by rewrite Hp2|by rewrite Hf2].
    rewrite Hv2. subst s. unfold view, campaign, a_term, n1. cbn. rewrite u64_id by raft_lia. done.
  - eapply spec_mono; [|intros ms s' _ _; by apply (sends_earlier s (campaign s))].
    apply spec_read. intros n' Hl' Hwf'.
    pose proof (live_fields _ _ Hl') as (Hid' & Hcfg' & _ & _ & _ & _ & _ & Hvo' & _ & _ & _ & Hp').
    destruct (Quorum (configuration n') _) eqn:Hq.
    + apply spec_becomeLeader; [done| |done]. rewrite <- Hq, Hcfg', Hid'. apply Quorum_ext. intros i.
      unfold vote_get, campaign. cbn [a_votes a_id mbind option_bind].
      destruct (Z.eqb_spec i (a_id s)) as [->|]; by simplify_map_eq.
    + assert ((len (peers n') =? 0) = false) as ->.
      { rewrite Hp'. apply Z.eqb_neq. pose proof (config_members _ (wf_config _ Hwf')) as Hm.
        unfold a_peers, len. destruct (Members _); [done|cbn; lia]. }
      by apply vote_requests_sent.
Qed.

Lemma spec_handleRequestVote m s :
  inp = OnMessage m -> mType m = RequestVote -> spec s (handleRequestVote m) (sends s).
Proof using Hinp Laws.
  intros Hm Hty. unfold handleRequestVote.
  destruct (Z.ltb_spec (mTerm m) (CandidateLastTerm m)); [apply spec_throw|].
  apply spec_read. intros n Hl Hwf.
  pose proof (live_fields _ _ Hl) as (Hid & Hcfg & Hps & _).
  unfold logUpToDate, term, lastTerm, lastIndex. rewrite Hid, Hcfg, Hps.
  set (granted := _ && _ && _ && _ && _).
  apply (spec_continue s _ _ (fun _ s' => granted = true -> a_vote s' = mFrom m /\ mFrom m <> 0)); [done| |].
  - destruct granted eqn:Hg; [|by apply spec_ret]. subst granted.
    apply andb_true_iff in Hg as [Hg Hvf]. apply andb_true_iff in Hg as [Hg Hup].
    apply andb_true_iff in Hg as [Hg Ht]. apply andb_true_iff in Hg as [Hv1 Hv2].
    assert (vote_message_ok m s) as Hok.
    { unfold vote_message_ok, a_term, a_vote, a_last. split_and!; try done; lia. }
    assert (mFrom m <> 0) as Hnz.
    { apply Voter_spec in Hv2. apply (config_nonzero _ (wf_config _ Hwf)). tauto. }
    eapply (spec_bind _ _ _ (fun _ s' => a_vote s' = mFrom m)).
    + destruct (Z.eqb_spec (VotedFor (psHard (a_ps s))) (mFrom m)) as [He|He]; cbn [negb];
        [by apply spec_ret|].
      apply spec_unfold. intros n' Hl' Hs' _. apply spec_at_modify.
      apply (spec_at_persist_end _ _ (vote_for (mFrom m) s)); [done| | |done|done].
      * apply rtc_once. by apply act_vote.
      * destruct Hl' as (<- & ? & ?). by split_and!.
    + intros [] s' _ _ Hvo. eapply spec_mono; [apply spec_resetElectionTimer|].
      intros [] s'' _ _ -> _. done.
  - intros [] s' _ _ Hgr. apply spec_read. intros n' Hl' _. apply spec_ret.
    repeat constructor. destruct Hl' as (<- & _).
    by apply (em_vote_response inp (view n') (view n') m granted).
Qed.

Lemma spec_handleVoteResponse m s :
  inp = OnMessage m -> mType m = RequestVoteResponse -> mTo m = a_id s -> room s ->
  spec s (handleVoteResponse m) (sends s).
Proof using Hinp Laws.
  intros Hm Hty Hto Hroom. unfold handleVoteResponse. apply spec_read. intros n Hl Hwf.
  pose proof (live_fields _ _ Hl) as (_ & _ & Hps & -> & _). unfold term. rewrite Hps.
  destruct (_ || _ || _) eqn:Hg; [apply spec_ret, sends_nil|].
  rewrite !orb_false_iff, !negb_false_iff, bool_decide_eq_true in Hg. destruct Hg as [[_ Hr] Ht].
  pose proof (wf_role _ Hwf) as [Hro _]. rewrite Hr in Hro. destruct Hro as [[vs Hvs] _].
  apply (spec_continue s _ _ (fun _ s' => a_role s' = Candidate /\ a_last s' = a_last s)); [done| |].
  - destruct (VoteGranted m) eqn:Hvg; [|by apply spec_ret].
    apply spec_unfold. intros n' Hl' Hs' _. unfold put_vote. apply spec_at_read.
    pose proof (live_fields _ _ Hl') as (_ & _ & _ & _ & _ & _ & _ & -> & _). rewrite Hvs.
    apply (spec_act s _ (count_vote (mFrom m) s)); try done.
    + intros n'' (<- & Hp'' & _). split_and!; try done. unfold view, count_vote. cbn. cbn in Hvs.
      by rewrite Hvs.
    + apply act_count_vote; try done. unfold a_term. lia.
  - intros [] s' _ _ [Hr' Hlast]. apply spec_read. intros n' Hl' _.
    pose proof (live_fields _ _ Hl') as (_ & -> & _ & _ & _ & _ & _ & -> & _).
    destruct (Quorum _ _) eqn:Hq; [|apply spec_ret, sends_nil].
    apply spec_becomeLeader; try done. unfold room. by rewrite Hlast.
Qed.

(** ** Log replication on a follower *)

Lemma set_entries_id n : set_entries (psEntries (persistent n)) n = n.
Proof using. by destruct n as [????????? []]. Qed.

Lemma entry_same (a b : Entry) :
  Index a = Index b -> Term a = Term b ->
  Byte.eqb (EType a) (EType b) && bytes_eqb (Command a) (Command b) = bool_decide (a = b).
Proof using.
  intros Hi Ht. destruct a as [ia ta ya ca], b as [ib tb yb cb]. cbn in *. subst.
  apply eq_bool_prop_intro. rewrite Is_true_true, andb_true_iff, bytes_eqb_eq, bool_decide_spec.
  split.
  - intros [->%Byte.byte_dec_bl ->]. done.
  - intros [= -> ->]. split; [by apply Byte.byte_dec_lb|done].
Qed.

Lemma append_loop_run hi i t inc n :
  log_wf (persistent n) -> chain hi i t inc -> snapIndex (psSnapshot (persistent n)) < i ->
  match accept_log (persistent n) (commitIndex n) inc with
  | Some es => exists changed, append_loop inc n = (Ret changed, set_entries es n) /\
                 (changed = false -> es = entries_of n)
  | None => exists p, append_loop inc n = (Panic p, n) /\ (p = 3%nat \/ p = 4%nat)
  end.
Proof using.
  intros Hlog. revert i t. induction inc as [|e rest IH]; intros i t Hc Hi; cbn.
  { exists false. run. by rewrite set_entries_id. }
  inversion Hc as [|???? He Ht Hhi Hc']; subst. specialize (IH _ _ Hc' ltac:(lia)).
  run. unfold entryAt. rewrite (entryAt_eq _ Hlog), (proj2 (Z.leb_gt (Index e) (snapIndex _))) by lia.
  pose proof (log_bounds _ Hlog).
  destruct (log_entry (persistent n) (Index e)) as [local|] eqn:Hl.
  - apply (log_entry_Some _ Hlog) in Hl as [Hr Hli].
    destruct (Z.eqb_spec (Term local) (Term e)) as [Heq|Hne].
    + rewrite entry_same by done. case_bool_decide; [done|]. exists 3%nat. auto.
    + destruct (Z.leb_spec (Index e) (commitIndex n)) as [|Hgt]; [exists 4%nat; auto|].
      unfold truncateSuffix, snapshot_of. run. rewrite (proj2 (Z.ltb_lt _ _)) by lia.
      unfold MaxUint64, two64 in *. rewrite u64_id by (unfold is_u64; lia).
      unfold entries_of at 1. rewrite (lastIndex_eq _ Hlog) in *. unfold len in *.
      rewrite (proj2 (Nat.leb_le _ _)) by lia. exists true. split; [|done]. done.
  - exists true. split; [|done]. done.
Qed.

Lemma first_index_loop_ok fuel p index t :
  log_wf p -> index <= ps_lastIndex p -> 0 <= index ->
  exists r, first_index_loop fuel p index t = Ret r /\ 0 <= r <= index.
Proof using.
  intros Hwf. revert index. induction fuel as [|f IH]; intros index Hi H0; cbn; [exists index; split; [done|lia]|].
  pose proof (log_bounds p Hwf).
  destruct (Z.ltb_spec (snapIndex (psSnapshot p)) index); [|exists index; split; [done|lia]].
  rewrite (termAt_eq p Hwf), (proj2 (Z.ltb_ge _ _)) by lia.
  destruct (proj2 (log_term_range p Hwf (index - 1))) as [t' ->]; [lia|].
  case_match; [|exists index; split; [done|lia]].
  destruct (IH (index - 1)) as (r & -> & ?); [lia..|]. exists r. split; [done|lia].
Qed.

Lemma sends_one s m : emitted inp s s m -> sends s [m] s.
Proof using. by repeat constructor. Qed.

Lemma spec_refuse_append s n to hint :
  live n s -> is_u64 hint -> spec s (mret [appendResponse n to false 0 hint]) (sends s).
Proof using.
  intros Hl Hu. apply spec_ret, sends_one. destruct Hl as (<- & _).
  by apply (em_append_refused inp (view n) (view n) to hint).
Qed.

(** The end of [handleAppendEntries], once the log holds the request. *)
Lemma spec_append_commit m s :
  inp = OnMessage m -> mType m = AppendEntries -> mTerm m = a_term s -> a_role s = Follower ->
  log_covers (a_ps s) m -> PrevLogIndex m + len (mEntries m) <= a_last s ->
  spec s (let lastCovered := u64 (PrevLogIndex m + len (mEntries m)) in
          n ← get;
          (if commitIndex n <? LeaderCommit m then
             modify (set_commitIndex (Z.min (LeaderCommit m) lastCovered));;
             applyCommitted
           else mret tt);;
          n ← get;
          mret [appendResponse n (mFrom m) true lastCovered 0]) (sends s).
Proof using Hinp Laws.
  intros Hm Hty Ht Hr Hcov Hlast. destruct (Hinp m Hm) as (_ & Hpi & _ & _ & _ & _ & Hap & _).
  specialize (Hap Hty) as [Hroom Hlc]. pose proof (len_nonneg (mEntries m)).
  rewrite (u64_id (_ + _)) by raft_lia. cbv zeta. apply spec_read. intros n Hl Hwf.
  pose proof (live_fields _ _ Hl) as (_ & _ & _ & _ & _ & -> & _).
  eapply (spec_continue s _ _ (fun _ s' => quiet s s')); [done| |].
  - destruct (Z.ltb_spec (a_commit s) (LeaderCommit m)); [|apply spec_ret; reflexivity].
    rewrite Z.min_l by lia. set (s1 := put_commit (LeaderCommit m) s).
    eapply (spec_bind _ _ _ (fun _ s' => s' = s1)).
    + apply (spec_act s _ s1); try done; [|apply act_commit_follower; auto; lia].
      intros n' (<- & ? & ?). by split_and!.
    + intros [] s' _ _ ->. eapply spec_mono; [apply spec_applyCommitted|].
      intros [] s' _ _ (Hq & _). transitivity s1; [apply put_commit_quiet; lia|done].
  - intros [] s' _ _ Hq. apply spec_read. intros n' Hl' _. apply spec_ret, sends_one.
    destruct (quiet_log s s' Hq) as (He & Hte & _ & _ & Htm & _).
    destruct Hl' as (<- & _). apply (em_append_accepted inp (view n') (view n') m); try done.
    + congruence.
    + destruct Hcov as [Hc1 Hc2]. split; [by rewrite Hte|]. intros e ?. rewrite He. auto.
Qed.

Lemma put_ps_same s : put_ps (with_entries (psEntries (a_ps s)) (a_ps s)) s = s.
Proof using. by destruct s as [?? []]. Qed.

(** From the log check on: the request's previous entry matches. *)
Lemma spec_append_accept m s :
  inp = OnMessage m -> mType m = AppendEntries -> mTerm m = a_term s -> a_role s = Follower ->
  validateAppend m = true -> log_term (a_ps s) (PrevLogIndex m) = Some (PrevLogTerm m) ->
  spec s (changed ← append_loop (mEntries m);
          (if changed : bool then persist else mret tt);;
          let lastCovered := u64 (PrevLogIndex m + len (mEntries m)) in
          n ← get;
          (if commitIndex n <? LeaderCommit m then
             modify (set_commitIndex (Z.min (LeaderCommit m) lastCovered));;
             applyCommitted
           else mret tt);;
          n ← get;
          mret [appendResponse n (mFrom m) true lastCovered 0]) (sends s).
Proof using Hinp Laws.
  intros Hm Hty Ht Hr Hva Hprev. apply spec_unfold. intros n Hl Hs Hwf.
  pose proof Hwf as [Hlog Hroom [Hi Hc] _ _ _].
  pose proof (live_fields _ _ Hl) as (_ & _ & Hps & _ & _ & Hcm & _).
  destruct (accept_chain m s (Hinp m Hm) Ht Hva) as [Hch Hl1].
  assert (snapIndex (psSnapshot (persistent n)) < PrevLogIndex m + 1) as Hsnap.
  { rewrite Hps. assert (is_Some (log_term (a_ps s) (PrevLogIndex m))) as Hsome by eauto.
    apply (log_term_range _ Hlog) in Hsome. lia. }
  pose proof (append_loop_run _ _ _ (mEntries m) n ltac:(by rewrite Hps) Hch Hsnap) as Hrun.
  rewrite Hps, Hcm in Hrun.
  destruct (accept_log (a_ps s) (a_commit s) (mEntries m)) as [es|] eqn:Hacc.
  - destruct Hrun as (changed & Hrun & Hch'). eapply spec_at_run; [exact Hrun|].
    set (s1 := put_ps (with_entries es (a_ps s)) s).
    assert (act inp s s1) as Hact by by eapply act_accept.
    assert (live (set_entries es n) s1) as Hl'.
    { destruct Hl as (<- & ? & ?). by split_and!. }
    rewrite <- (Z.add_simpl_r (PrevLogIndex m) 1) in Hprev.
    destruct (accept_log_spec _ _ _ _ _ _ Hlog Hch Hprev Hc Hl1 Hacc) as (_ & Hin & _ & _ & _ & Hcv & Hpt).
    rewrite Z.add_simpl_r in Hcv, Hpt.
    assert (spec s1 _ (sends s1)) as Hk by (apply (spec_append_commit m s1); auto; by split).
    assert (rtc (act inp) s s1) as Hr1 by by apply rtc_once.
    eapply spec_mono in Hk; [|intros ms s' _ _; by apply (sends_earlier s s1)].
    destruct changed.
    + by apply (spec_at_persist _ s s1).
    + eapply spec_at_run; [done|]. apply (spec_at_step _ s s1); try done.
      unfold s1. rewrite (Hch' eq_refl). unfold entries_of. rewrite Hps, put_ps_same. done.
  - destruct Hrun as (p & Hrun & Hp). unfold spec_at. run. rewrite Hrun.
    exists s. split; [apply rtc_refl|]. split; [done|]. exists m. split; [done|]. split; [done|].
    destruct Hp as [->| ->]; done.
Qed.

Lemma spec_assert_leader {B} m s (k : M B) P :
  inp = OnMessage m -> mTerm m = a_term s -> mType m = AppendEntries \/ mType m = InstallSnapshot ->
  (a_role s <> Leader \/ mFrom m = a_id s -> spec s k P) ->
  spec s (assert_ (negb (bool_decide (a_role s = Leader) && negb (mFrom m =? a_id s))) 1%nat;; k) P.
Proof using.
  intros Hm Ht Hty Hk. destruct (negb _) eqn:Hb.
  - intros n Hl Hs Hwf. apply Hk; try done. rewrite negb_true_iff, andb_false_iff in Hb.
    rewrite bool_decide_eq_false, negb_false_iff in Hb. lia || (destruct Hb; [by left|right; lia]).
  - intros n Hl Hs Hwf. exists s. split; [apply rtc_refl|]. split; [done|]. exists m. split; [done|].
    split; [done|]. rewrite negb_false_iff, andb_true_iff, bool_decide_eq_true, negb_true_iff in Hb.
    destruct Hb. split_and!; auto. lia.
Qed.

Lemma spec_handleAppendEntries m s :
  inp = OnMessage m -> mType m = AppendEntries -> mTerm m <= a_term s ->
  spec s (handleAppendEntries m) (sends s).
Proof using Hinp Laws.
  intros Hm Hty Hle. unfold handleAppendEntries. apply spec_read. intros n Hl Hwf.
  pose proof (live_fields _ _ Hl) as (Hid & _ & Hps & Hro & Hle' & _).
  pose proof (log_bounds _ (wf_log _ Hwf)) as Hb. pose proof (wf_room _ Hwf) as Hroom.
  unfold term, lastIndex. rewrite Hps, Hid, Hro, Hle'.
  destruct (Z.ltb_spec (mTerm m) (hsTerm (psHard (a_ps s)))) as [|Hge].
  { apply spec_refuse_append; [done|apply u64_range]. }
  assert (mTerm m = a_term s) as Ht by (unfold a_term in *; lia).
  apply (spec_assert_leader m); auto. intros _.
  apply (spec_continue s _ _ (fun _ s' => a_role s' = Follower /\ a_ps s' = a_ps s)); [done| |].
  { destruct (bool_decide_reflect (a_role s = Follower)) as [Hf|Hf]; cbn [negb orb].
    - destruct (a_leader s =? mFrom m); cbn [negb].
      + eapply spec_mono; [apply spec_resetElectionTimer|]. by intros [] ? _ _ ->.
      + eapply spec_mono; [apply spec_becomeFollower|]. by intros [] ? _ _ ->.
    - eapply spec_mono; [apply spec_becomeFollower|]. by intros [] ? _ _ ->. }
  intros [] s1 _ Hwf1 [Hr1 Hps1]. assert (mTerm m = a_term s1) as Ht1 by (unfold a_term; by rewrite Hps1).
  destruct (validateAppend m) eqn:Hva; [|apply spec_throw]. cbn [negb].
  apply spec_read. intros n1 Hl1 _. pose proof (live_fields _ _ Hl1) as (_ & _ & Hp1 & _).
  unfold a_last in Hroom. rewrite <- Hps1 in Hb. rewrite <- Hps1 in Hroom. unfold snapshot_of, termAt, lastIndex, firstIndexOfTerm. rewrite Hp1.
  pose proof (wf_log _ Hwf1) as Hlog1.
  destruct (Z.ltb_spec (PrevLogIndex m) (snapIndex (psSnapshot (a_ps s1)))) as [|Hsn].
  { apply spec_refuse_append; [done|]. case_match; raft_lia. }
  rewrite (termAt_eq _ Hlog1), (proj2 (Z.ltb_ge _ _)) by done.
  destruct (log_term (a_ps s1) (PrevLogIndex m)) as [t|] eqn:Hpt.
  - destruct (Z.eqb_spec t (PrevLogTerm m)) as [->|]; cbn [negb].
    + by apply spec_append_accept.
    + assert (is_Some (log_term (a_ps s1) (PrevLogIndex m))) as Hsome by eauto.
      apply (log_term_range _ Hlog1) in Hsome. unfold ps_firstIndexOfTerm.
      destruct (first_index_loop_ok (Z.to_nat (PrevLogIndex m - snapIndex (psSnapshot (a_ps s1))))
        (a_ps s1) (PrevLogIndex m) t Hlog1) as (r & -> & Hr); [lia..|].
      eapply (spec_bind _ _ _ (fun a s' => a = r /\ s' = s1)).
      * intros n' Hl' Hs' _. exists s1. split; [apply rtc_refl|]. auto.
      * intros ? ? _ _ [-> ->]. apply spec_refuse_append; [done|raft_lia].
  - rewrite bool_decide_true by set_solver. apply spec_refuse_append; [done|apply u64_range].
Qed.

(** ** The leader's side *)

Lemma spec_replicate_one s0 p s :
  a_role s = Leader -> p ∈ a_peers s ->
  spec s (n ← get; m ← lift (replicationMessage n p); mret [m]) (sends s0).
Proof using.
  intros Hr Hp n Hl Hs Hwf. run.
  destruct (replicationMessage_emitted s0 n s p Hl Hwf) as (m & -> & Hm); [done|by left|].
  exists s. split; [apply rtc_refl|]. split; [done|]. split; [done|]. by repeat constructor.
Qed.

Lemma spec_put_next {A} p v s (k : M A) P :
  a_role s = Leader -> 1 <= v <= a_last s + 1 ->
  spec (put_next p v s) k P -> spec s (put_nextIndex p v;; k) P.
Proof using Hinp.
  intros Hr Hv Hk. apply spec_unfold. intros n Hl Hs Hwf. pose proof Hwf as [_ Hroom _ _ _ [Hro _]].
  rewrite Hr in Hro. destruct Hro as (nx & mt & Hn & Hm & _).
  pose proof Hl as (<- & Hp & Hf). cbn in Hn, Hm.
  unfold put_nextIndex. apply spec_at_assoc, spec_at_read. rewrite Hn.
  apply spec_at_modify. apply (spec_at_step _ _ (put_next p v (view n))); [|done| |exact Hs|exact Hk].
  - apply rtc_once. by apply act_next.
  - split_and!; try done. unfold view, put_next. cbn. by rewrite Hn.
Qed.

Lemma match_bounds s p : wf s -> a_role s = Leader -> 0 <= map_get (a_match s) p <= a_last s.
Proof using.
  intros Hwf Hr. pose proof Hwf as [Hlog _ _ _ _ [Hro _]]. pose proof (log_bounds _ Hlog).
  rewrite Hr in Hro. destruct Hro as (nx & mt & _ & -> & Hp). unfold map_get. cbn.
  destruct (mt !! p) as [v|] eqn:Hv; cbn; [by apply (po_match _ _ _ _ Hp) in Hv|raft_lia].
Qed.
Lemma next_bounds s p : wf s -> a_role s = Leader -> 0 <= map_get (a_next s) p <= a_last s + 1.
Proof using.
  intros Hwf Hr. pose proof Hwf as [Hlog _ _ _ _ [Hro _]]. pose proof (log_bounds _ Hlog).
  rewrite Hr in Hro. destruct Hro as (nx & mt & -> & _ & Hp). unfold map_get. cbn.
  destruct (nx !! p) as [v|] eqn:Hv; cbn; [|raft_lia]. apply (po_next _ _ _ _ Hp) in Hv. lia.
Qed.

Lemma spec_commit_and_replicate s0 s :
  a_role s = Leader -> Version (a_config s0) <= Version (a_config s) ->
  spec s (advanceCommit;; n ← get; if negb (commitIndex n =? a_commit s) then replicationMessages else mret [])
    (sends s0).
Proof using Hinp Laws.
  intros Hr Hv. eapply spec_bind; [apply spec_advanceCommit|]. intros [] s' _ Hwf' Hq.
  apply spec_read. intros n _ _. case_match; [|apply spec_ret, sends_nil].
  eapply spec_mono; [apply (spec_replicationMessages s); by apply quiet_may_replicate|].
  intros ms ? _ _ [-> Hms]. eapply Forall_impl; [exact Hms|]. intros m. by apply emitted_earlier.
Qed.

Lemma spec_unit s (m : M unit) P : spec s (m;; mret tt) P -> spec s m P.
Proof using.
  intros Hm n Hl Hs Hwf. specialize (Hm n Hl Hs Hwf). revert Hm. run.
  by destruct (m n) as [[[]| |] n'].
Qed.

Lemma bind_assoc {A B C} (a : M A) (f : A -> M B) (g : B -> M C) n :
  ((a ≫= f) ≫= g) n = (a ≫= (fun x => f x ≫= g)) n.
Proof using. run. by destruct (a n) as [[] ?]. Qed.

Lemma spec_progress p v s :
  a_role s = Leader -> 0 <= v <= a_last s ->
  p = a_id s \/ v = map_get (a_match s) p \/ (exists m, inp = OnMessage m /\ acknowledges m p v s) ->
  spec s (put_matchIndex p v;; put_nextIndex p (u64 (v + 1)))
    (fun _ s' => s' = put_progress p v (v + 1) s).
Proof using Hinp.
  intros Hr Hv Hj. apply spec_unit. intros n Hl Hs Hwf. rewrite bind_assoc.
  revert n Hl Hs Hwf. apply spec_put_progress; try done. by apply spec_ret.
Qed.

Lemma spec_handleAppendResponse m s :
  inp = OnMessage m -> mType m = AppendEntriesResponse -> mFrom m ∈ a_peers s ->
  spec s (handleAppendResponse m) (sends s).
Proof using Hinp Laws.
  intros Hm Hty Hp. unfold handleAppendResponse. apply spec_read. intros n Hl Hwf.
  pose proof (live_fields _ _ Hl) as (_ & _ & Hps & Hro & _ & Hcm & _ & _ & Hnx & Hmt & _).
  destruct (Hinp m Hm) as (_ & _ & _ & Hum & Huh & _).
  unfold term, lastIndex. rewrite Hps, Hro, Hcm, Hnx, Hmt.
  destruct (_ || _ || _) eqn:Hg; [apply spec_ret, sends_nil|].
  rewrite !orb_false_iff, !negb_false_iff, bool_decide_eq_true in Hg. destruct Hg as [[_ Hr] Ht].
  pose proof (wf_room _ Hwf) as Hroom. pose proof (log_bounds _ (wf_log _ Hwf)) as Hb.
  destruct (Success m) eqn:Hsucc.
  - destruct (Z.ltb_spec (ps_lastIndex (a_ps s)) (MatchIndex m)); [apply spec_throw|].
    apply (spec_continue s _ _ (fun _ s' => a_role s' = Leader /\ a_commit s' = a_commit s)); [done| |].
    + case_match; [|by apply spec_ret]. eapply spec_mono; [apply spec_progress|].
      * done.
      * raft_lia.
      * right. right. exists m. split; [done|]. split_and!; auto. unfold a_term. lia.
      * by intros [] ? _ _ ->.
    + intros [] s' _ _ [Hr' <-]. by apply spec_commit_and_replicate.
  - pose proof (next_bounds s (mFrom m) Hwf Hr) as Hnb.
    assert (forall v, 1 <= v <= a_last s + 1 ->
      spec s (put_nextIndex (mFrom m) v;; n ← get; m ← lift (replicationMessage n (mFrom m)); mret [m]) (sends s))
      as Hset.
    { intros v Hv. apply spec_put_next; try done. by apply spec_replicate_one. }
    destruct (_ && _) eqn:Hh; apply Hset.
    + rewrite (proj2 (Z.ltb_lt (ps_lastIndex _) MaxUint64)) in Hh by raft_lia. raft_lia.
    + unfold is_u64 in *. destruct (_ || _) eqn:Ho; [destruct (Z.ltb_spec 1 (map_get (a_next s) (mFrom m)))|]; raft_lia.
Qed.

Lemma spec_handleSnapshotResponse m s :
  inp = OnMessage m -> mType m = InstallSnapshotResponse -> mFrom m ∈ a_peers s ->
  spec s (handleSnapshotResponse m) (sends s).
Proof using Hinp Laws.
  intros Hm Hty Hp. unfold handleSnapshotResponse. apply spec_read. intros n Hl Hwf.
  pose proof (live_fields _ _ Hl) as (_ & _ & Hps & Hro & _ & _ & _ & _ & _ & Hmt & _).
  destruct (Hinp m Hm) as (_ & _ & _ & Hum & _).
  unfold term, lastIndex. rewrite Hps, Hro, Hmt.
  destruct (_ || _ || _) eqn:Hg; [apply spec_ret, sends_nil|].
  rewrite !orb_false_iff, !negb_false_iff, bool_decide_eq_true in Hg. destruct Hg as [[_ Hr] Ht].
  destruct (Success m) eqn:Hsucc; cbn [negb]; [|apply spec_ret, sends_nil].
  destruct (Z.ltb_spec (ps_lastIndex (a_ps s)) (MatchIndex m)); [apply spec_throw|].
  pose proof (match_bounds s (mFrom m) Hwf Hr) as Hmb.
  apply spec_put_progress; [done|raft_lia| |].
  - right. destruct (Z.max_spec (map_get (a_match s) (mFrom m)) (MatchIndex m)) as [[? ->]|[? ->]];
      [right|by left]. exists m. split; [done|]. split_and!; auto. unfold a_term. lia.
  - by apply spec_replicate_one.
Qed.

Lemma spec_handleTimeoutNow m s : room s -> spec s (handleTimeoutNow m) (sends s).
Proof using Hinp Laws.
  intros Hroom. unfold handleTimeoutNow. apply spec_read. intros n Hl Hwf.
  case_match; [apply spec_ret, sends_nil|by apply spec_startElection].
Qed.

(** ** Snapshots from a leader *)

Lemma suffix_run snap n s :
  live n s -> wf s -> snapIndex snap < MaxUint64 -> a_snap s < snapIndex snap ->
  (match termAt n (snapIndex snap) with
   | Panic p => panic p
   | Fail _ => mret []
   | Ret t =>
       if t =? snapTerm snap then lift (entriesFrom n (u64 (snapIndex snap + 1))) else mret []
   end) n = (Ret (psEntries (with_snapshot snap (snapshot_config snap (a_ps s)) (a_ps s))), n).
Proof using.
  intros Hl Hwf Hmax Hlt. pose proof (live_fields _ _ Hl) as (_ & _ & Hps & _).
  pose proof Hwf as [Hlog Hroom _ _ _ _]. pose proof (log_bounds _ Hlog).
  unfold termAt, entriesFrom. rewrite Hps, (termAt_eq _ Hlog), (proj2 (Z.ltb_ge _ _)) by raft_lia.
  cbn [with_snapshot psEntries]. destruct (log_term (a_ps s) (snapIndex snap)) as [t|] eqn:Ht;
    [|by rewrite bool_decide_false].
  destruct (Z.eqb_spec t (snapTerm snap)) as [->|Hne];
    [rewrite bool_decide_true by done|rewrite bool_decide_false; [done|congruence]].
  assert (is_Some (log_term (a_ps s) (snapIndex snap))) as Hsome by eauto.
  apply (log_term_range _ Hlog) in Hsome. rewrite u64_id by raft_lia.
  rewrite (entriesFrom_eq _ Hlog) by raft_lia. run. do 4 f_equal. lia.
Qed.

(** After the save of the candidate state. *)
Definition install_rest (m : Message) (candidate : PersistentState) : M (list Message) :=
  let snap := mSnapshot m in
  n ← get;
  let '(sm', err) := sm_restore (stateMachine n) (snapData snap) in
  modify (set_stateMachine sm');;
  match err with
  | Some e => fail_ (ErrApply :: e)
  | None =>
      modify (set_persistent candidate);;
      n ← get;
      (if Version (configuration n) <? Version (psConfig candidate)
       then installConfiguration (psConfig candidate) else mret tt);;
      modify (fun n => set_commitIndex (Z.max (commitIndex n) (snapIndex snap)) n);;
      modify (set_lastApplied (snapIndex snap));;
      n ← get;
      mret [snapshotResponse n (mFrom m) true (snapIndex snap)]
  end.

Lemma install_config_run snap n s c sm' :
  live n s -> wf s -> a_role s = Follower -> a_snap s <= snapIndex snap < MaxUint64 ->
  0 <= snapTerm snap <= a_term s -> c = snapshot_config snap (a_ps s) ->
  sm' = fst (sm_restore (a_sm s) (snapData snap)) ->
  exists n', (n ← get; if Version (configuration n) <? Version c then installConfiguration c else mret tt)
    (set_persistent (with_snapshot snap c (a_ps s)) (set_stateMachine sm' n)) = (Ret tt, n') /\
  view (set_lastApplied (snapIndex snap) (set_commitIndex (Z.max (commitIndex n') (snapIndex snap)) n'))
    = install snap s /\
  peers n' = a_peers (install snap s) /\ store n' = store n /\ fatal n' = fatal n.
Proof using.
  intros (Hv & Hp & Hf) Hwf Hr Hi Hst Hc Hsm. set (n0 := set_persistent _ _). run.
  pose proof Hwf as [Hlog Hroom _ _ _ [Hro _]]. rewrite Hr in Hro.
  assert (configuration n0 = a_config s) as -> by by rewrite <- Hv.
  unfold install. rewrite <- Hc. cbn [a_config put_ps].
  destruct (Z.ltb_spec (Version (a_config s)) (Version c)).
  - destruct (installConfiguration_run c n0) as (n' & -> & Hv' & Hp' & Hs' & Hf').
    + split; cbn; [|change (role n) with (a_role (view n)); by rewrite Hv, Hr].
      change (role n) with (a_role (view n)). change (nextIndex n) with (a_next (view n)).
      by rewrite Hv, Hr.
    + change (lastIndex n0) with (ps_lastIndex (with_snapshot snap c (a_ps s))).
      destruct (with_snapshot_wf (a_ps s) snap c Hlog) as [Hw Hlast]; [raft_lia|raft_lia|].
      rewrite Hlast. pose proof (log_bounds _ Hlog). case_match; raft_lia.
    + exists n'. split; [done|]. split_and!; try done.
      * transitivity (put_applied (snapIndex snap) (a_sm (view n'))
          (put_commit (Z.max (a_commit (view n')) (snapIndex snap)) (view n'))); [done|].
        rewrite Hv'. subst s sm'.
        set (v := put_ps _ _).
        assert (view n0 = put_applied (a_applied v) (fst (sm_restore (a_sm (view n)) (snapData snap))) v) as -> by done.
        unfold reconfigure, reconfigure_maps. cbn [a_role put_applied a_id a_ps a_next a_match].
        destruct (match a_role v with Leader => _ | _ => _ end) as [nx mt]. by case_match.
      * rewrite Hp'. unfold a_peers. cbn. by rewrite reconfigure_config.
  - exists n0. split; [done|]. subst s sm'. split_and!; done.
Qed.

Lemma spec_install m s :
  inp = OnMessage m -> mType m = InstallSnapshot -> mTerm m = a_term s -> a_role s = Follower ->
  snapshot_message_ok m = true -> a_commit s < snapIndex (mSnapshot m) ->
  let candidate := with_snapshot (mSnapshot m) (snapshot_config (mSnapshot m) (a_ps s)) (a_ps s) in
  spec s (save candidate;; install_rest m candidate) (sends s).
Proof using Hinp Laws.
  intros Hm Hty Ht Hr Hok Hlt candidate. set (snap := mSnapshot m) in *.
  destruct (Hinp m Hm) as (_ & _ & _ & _ & _ & [_ Hu2] & _ & Hmax). specialize (Hmax Hty).
  intros n Hl Hs Hwf. pose proof Hwf as [Hlog _ [Hi _] _ _ _].
  assert (act inp s (install snap s)) as Hact by (apply act_install; auto).
  assert (0 <= snapTerm snap <= a_term s) as Hst.
  { unfold snapshot_message_ok in Hok. fold snap in Hok, Hu2. unfold is_u64 in Hu2. lia. }
  pose proof (install_fields snap s) as (_ & Hps & Hcm & _).
  apply (save_post n s candidate (sends s) _ (install snap s)); [done|apply Hl|by apply rtc_once|done|].
  intros st' _ Hs'. unfold install_rest. fold snap. set (n1 := set_store st' n).
  assert (live n1 s) as Hl1 by by destruct Hl as (<- & ? & ?).
  pose proof (live_fields _ _ Hl1) as (_ & _ & _ & _ & _ & _ & _ & _ & _ & _ & Hsm & _).
  change (spec_at n1 s (install_rest m candidate) (sends s)). unfold install_rest. fold snap.
  apply spec_at_read. rewrite Hsm.
  destruct (sm_restore (a_sm s) (snapData snap)) as [sm' err] eqn:Hre. apply spec_at_modify.
  destruct err as [e|].
  { exists (install snap s). split; [by apply rtc_once|]. split; [done|]. cbn. eauto. }
  apply spec_at_modify.
  destruct (install_config_run snap n1 s (psConfig candidate) sm') as (n2 & Hrun & Hv2 & Hp2 & Hs2 & Hf2);
    try done; [fold snap in Hmax; raft_lia|by rewrite Hre|].
  change (with_snapshot snap (psConfig candidate) (a_ps s)) with candidate in Hrun.
  assert (forall k : M (list Message), spec_at n2 s k (sends s) ->
    spec_at (set_persistent candidate (set_stateMachine sm' n1)) s
      (n ← get; (if Version (configuration n) <? Version (psConfig candidate)
         then installConfiguration (psConfig candidate) else mret tt);; k) (sends s)) as Hstep.
  { intros k Hk. unfold spec_at in *. revert Hrun. run. intros Hrun. by rewrite Hrun. }
  apply Hstep. do 2 apply spec_at_modify. apply spec_at_read. set (n3 := set_lastApplied _ _) in *.
  exists (install snap s). split; [by apply rtc_once|]. split.
  { destruct Hs' as (p & Hp & ?). exists p. split; [|done]. change (store n3) with (store n2). by rewrite Hs2. }
  split; [split_and!; [done|done|]|].
  - change (fatal n3) with (fatal n2). rewrite Hf2. apply Hl1.
  - constructor; [|constructor]. rewrite <- Hv2.
    apply (em_snapshot_response inp s (view n3) (mFrom m) true). rewrite Hv2, Hcm. fold snap in Hlt.
    pose proof (log_bounds _ Hlog). raft_lia.
Qed.

Lemma spec_handleInstallSnapshot m s :
  inp = OnMessage m -> mType m = InstallSnapshot -> mTerm m <= a_term s ->
  spec s (handleInstallSnapshot m) (sends s).
Proof using Hinp Laws.
  intros Hm Hty Hle. unfold handleInstallSnapshot. apply spec_read. intros n Hl Hwf.
  pose proof (live_fields _ _ Hl) as (Hid & _ & Hps & Hro & _).
  pose proof Hwf as [Hlog _ [Hi Hc] _ _ _]. pose proof (log_bounds _ Hlog).
  unfold term, snapshot_of. rewrite Hps, Hid, Hro.
  destruct (Z.ltb_spec (mTerm m) (hsTerm (psHard (a_ps s)))).
  { apply spec_ret, sends_one. destruct Hl as (<- & _).
    apply (em_snapshot_response inp (view n) (view n) (mFrom m) false). raft_lia. }
  destruct (snapshot_message_ok m) eqn:Hok; [|apply spec_throw]. cbn [negb].
  assert (mTerm m = a_term s) as Ht by (unfold a_term in *; lia).
  apply (spec_assert_leader m); auto. intros _.
  apply (spec_continue s _ _ (fun _ s' => s' = follow (mFrom m) s)); [done|apply spec_becomeFollower|].
  intros [] ? _ Hwf1 ->. set (s1 := follow (mFrom m) s) in *.
  apply spec_read. intros n1 Hl1 _.
  pose proof (live_fields _ _ Hl1) as (_ & _ & Hps1 & _ & _ & Hc1 & _).
  rewrite Hps1, Hc1. unfold lastIndex. rewrite Hps1.
  destruct (Hinp m Hm) as (_ & _ & _ & _ & _ & [Hu1 _] & _ & Hmax). specialize (Hmax Hty).
  destruct (_ || _) eqn:Hcov.
  { apply spec_ret, sends_one. destruct Hl1 as (Hv1 & _). rewrite <- Hv1.
    apply (em_snapshot_response inp (view n1) (view n1) (mFrom m) true). rewrite Hv1.
    unfold s1 in *. raft_lia. }
  apply orb_false_iff in Hcov as [Hc2 Hc3].
  intros n' Hl' Hs' Hwf'.
  change (spec_at n' s1 (suffix ← (match termAt n1 (snapIndex (mSnapshot m)) with
                | Panic p => panic p
                | Fail _ => mret []
                | Ret t => if t =? snapTerm (mSnapshot m)
                    then lift (entriesFrom n1 (u64 (snapIndex (mSnapshot m) + 1))) else mret []
                end);
      let candidate := {|
        psHard := psHard (a_ps s1);
        psSnapshot := mSnapshot m;
        psConfig := snapshot_config (mSnapshot m) (a_ps s1);
        psEntries := suffix |} in
      save candidate;; install_rest m candidate) (sends s1)).
  assert (persistent n1 = persistent n') as Hpe by (rewrite Hps1; by destruct Hl' as (<- & _)).
  eapply spec_at_run.
  { unfold termAt, entriesFrom. rewrite Hpe. apply (suffix_run _ _ s1); auto. raft_lia. }
  apply (spec_install m s1); auto. unfold s1 in *. cbn. cbn in Hc3. lia.
Qed.

(** ** Entry points *)

Lemma spec_usable s : spec s usable (fun _ s' => s' = s).
Proof using.
  unfold usable. apply spec_read. intros n (_ & _ & Hf) _. rewrite Hf.
  case_match; [apply spec_throw|by apply spec_ret].
Qed.

Lemma contains_peers n s i : live n s -> contains (peers n) i = true -> i ∈ a_peers s.
Proof using. intros (_ & <- & _). by rewrite contains_spec. Qed.

Lemma spec_Step m s : inp = OnMessage m -> room s -> spec s (Step m) (sends s).
Proof using Hinp Laws.
  intros Hm Hroom. apply spec_wf. intros Hwf. unfold Step. apply (spec_continue s _ _ (fun _ s' => s' = s)); [done|apply spec_usable|].
  intros [] ? _ _ ->. apply spec_read. intros n Hl _.
  destruct (_ || _ || _ || _) eqn:Hg; [apply spec_throw|].
  rewrite !orb_false_iff, !negb_false_iff in Hg. destruct Hg as [[[Hto _] Hfrom] _].
  apply (contains_peers _ _ _ Hl) in Hfrom.
  pose proof (live_fields _ _ Hl) as (Hid & _ & Hps & _). unfold term. rewrite Hps, Hid in *.
  apply (spec_continue s _ _ (fun _ s' => mTerm m <= a_term s' /\ a_last s' = a_last s /\
    a_peers s' = a_peers s /\ a_id s' = a_id s)); [done| |].
  - destruct (Z.ltb_spec (hsTerm (psHard (a_ps s))) (mTerm m)).
    + eapply spec_mono; [by apply spec_advanceTerm|]. intros [] ? _ _ ->. split_and!; try done.
    + apply spec_ret. split_and!; try done.
  - intros [] s1 _ _ (Ht & Hlast & Hp & Hi). rewrite <- Hp in Hfrom. rewrite <- Hi in Hto.
    assert (room s1) as Hroom1 by (unfold room; by rewrite Hlast).
    repeat (match goal with |- spec _ (if Byte.eqb (mType m) ?k then _ else _) _ =>
      destruct (Byte.eqb (mType m) k) eqn:?Hty; [apply Byte.byte_dec_bl in Hty|clear Hty] end).
    + by apply spec_handleRequestVote.
    + apply spec_handleVoteResponse; try done. lia.
    + by apply spec_handleAppendEntries.
    + by apply spec_handleAppendResponse.
    + by apply spec_handleInstallSnapshot.
    + by apply spec_handleSnapshotResponse.
    + by apply spec_handleTimeoutNow.
    + apply spec_throw.
Qed.

Lemma spec_Tick s : room s -> spec s Tick (sends s).
Proof using Hinp Laws.
  intros Hroom. apply spec_wf. intros Hwf. unfold Tick. apply (spec_continue s _ _ (fun _ s' => s' = s)); [done|apply spec_usable|].
  intros [] ? _ _ ->. apply spec_read. intros n Hl _.
  pose proof (live_fields _ _ Hl) as (Hid & Hcfg & _ & Hro & _). rewrite Hid, Hcfg, Hro.
  assert (forall f (k : unit -> M (list Message)), (forall n, same_protocol n (f n)) ->
    spec s (k tt) (sends s) -> spec s (modify f ≫= k) (sends s)) as Hmod.
  { intros f k Hf Hk. apply (spec_bind _ _ _ (fun _ s' => s' = s)); [by apply spec_modify|].
    by intros [] ? _ _ ->. }
  case_bool_decide as Hr.
  - apply (spec_continue s _ _ (fun _ s' => s' = s)); [done| |].
    + destruct (transferring n); [|by apply spec_ret].
      apply (spec_bind _ _ _ (fun _ s' => s' = s)); [by apply spec_modify|]. intros [] ? _ _ ->.
      apply spec_read. intros n1 _ _. case_match; [by apply spec_modify|by apply spec_ret].
    + intros [] ? _ _ ->. apply Hmod; [done|]. apply spec_read. intros n1 _ _.
      case_match; [apply spec_ret, sends_nil|]. apply Hmod; [done|].
      eapply spec_mono; [by apply (spec_replicationMessages s); left|]. by intros ms ? _ _ [-> ?].
  - destruct (negb _); [apply Hmod; [done|apply spec_ret, sends_nil]|].
    apply Hmod; [done|]. apply spec_read. intros n1 _ _.
    case_match; [apply spec_ret, sends_nil|by apply spec_startElection].
Qed.

(** Proposals share the admission checks and the append. *)
Lemma spec_allow_proposal s : spec s allow_proposal (fun _ s' => s' = s /\ a_role s = Leader).
Proof using Hinp.
  unfold allow_proposal. apply (spec_bind _ _ _ (fun _ s' => s' = s)); [apply spec_usable|].
  intros [] ? _ _ ->. apply spec_read. intros n Hl _.
  pose proof (live_fields _ _ Hl) as (_ & _ & _ & -> & _).
  case_bool_decide; cbn [negb]; [|apply spec_throw]. case_match; [apply spec_throw|by apply spec_ret].
Qed.

(** A proposal returns the index of its entry, which is the next one. *)
Definition proposes s (r : Z * list Message) s' : Prop :=
  r.1 = a_last s + 1 /\ sends s r.2 s' /\ a_last s' = a_last s + 1.

Lemma spec_propose_entry kind command s :
  a_role s = Leader -> room s -> (kind = EntryConfig -> exists c, inp = OnConfiguration c) ->
  let entry := {| Index := a_last s + 1; Term := a_term s; EType := kind; Command := command |} in
  spec s (append_own entry;; ms ← replicationMessages; mret (Index entry, ms)) (proposes s).
Proof using Hinp Laws.
  intros Hr Hroom Hkind entry. eapply spec_bind; [by apply spec_append_own|]. intros [] s1 Hr1 Hwf1 Hq.
  eapply spec_bind; [by apply (spec_replicationMessages (append_entry entry s)), quiet_may_replicate|].
  intros ms ? _ _ [-> Hms]. apply spec_ret. split_and!; [done| |].
  - eapply Forall_impl; [exact Hms|]. intros m. by apply emitted_earlier.
  - destruct (quiet_log _ _ Hq) as (_ & _ & -> & _). unfold a_last, ps_lastIndex. cbn.
    by rewrite last_snoc.
Qed.

Lemma u64_next s : wf s -> room s -> u64 (ps_lastIndex (a_ps s) + 1) = a_last s + 1.
Proof using.
  intros Hwf Hroom. pose proof (log_bounds _ (wf_log _ Hwf)). apply u64_id. unfold room in *. raft_lia.
Qed.

Lemma spec_Propose command s : room s -> spec s (Propose command) (proposes s).
Proof using Hinp Laws.
  intros Hroom. unfold Propose. eapply spec_bind; [apply spec_allow_proposal|].
  intros [] ? _ Hwf [-> Hr]. apply spec_read. intros n Hl _.
  pose proof (live_fields _ _ Hl) as (_ & _ & Hps & _). unfold lastIndex, term. rewrite Hps.
  case_match; [apply spec_throw|]. case_match; [apply spec_throw|].
  rewrite u64_next by done. by apply spec_propose_entry.
Qed.

Lemma spec_ProposeNoOp s : room s -> spec s ProposeNoOp (proposes s).
Proof using Hinp Laws.
  intros Hroom. unfold ProposeNoOp. eapply spec_bind; [apply spec_allow_proposal|].
  intros [] ? _ Hwf [-> Hr]. apply spec_read. intros n Hl _.
  pose proof (live_fields _ _ Hl) as (_ & _ & Hps & _). unfold lastIndex, term. rewrite Hps.
  case_match; [apply spec_throw|]. rewrite u64_next by done. by apply spec_propose_entry.
Qed.

Lemma spec_ProposeConfiguration next s : inp = OnConfiguration next -> room s -> spec s (ProposeConfiguration next) (proposes s).
Proof using Hinp Laws.
  intros Hnext Hroom. unfold ProposeConfiguration. eapply spec_bind; [apply spec_allow_proposal|].
  intros [] ? _ Hwf [-> Hr]. apply spec_read. intros n Hl _.
  pose proof (live_fields _ _ Hl) as (_ & _ & Hps & _). unfold lastIndex, term. rewrite Hps.
  do 3 (case_match; [try apply spec_throw|try apply spec_throw]).
  all: try apply spec_throw. rewrite u64_next by done. apply spec_propose_entry; eauto.
Qed.

Lemma spec_TransferLeadership target s : spec s (TransferLeadership target) (sends s).
Proof using Hinp Laws.
  unfold TransferLeadership. apply (spec_bind _ _ _ (fun _ s' => s' = s)); [apply spec_usable|].
  intros [] ? _ _ ->. apply spec_read. intros n Hl _.
  destruct (_ || _ || _ || _) eqn:Hg; [apply spec_throw|].
  rewrite !orb_false_iff, !negb_false_iff, bool_decide_eq_true in Hg. destruct Hg as [[[Hr _] _] _].
  apply (spec_bind _ _ _ (fun _ s' => s' = s)); [by apply spec_modify|].
  intros [] ? _ _ ->. apply spec_ret, sends_one. destruct Hl as (<- & _).
  by apply (em_timeout inp (view n) (view n) target).
Qed.

Lemma spec_CreateSnapshot s :
  spec s CreateSnapshot (fun snap s' => snap = psSnapshot (a_ps s') /\ snapIndex snap = a_applied s).
Proof using Hinp Laws.
  unfold CreateSnapshot. apply (spec_bind _ _ _ (fun _ s' => s' = s)); [apply spec_usable|].
  intros [] ? _ _ ->. apply spec_read. intros n Hl Hwf.
  pose proof (live_fields _ _ Hl) as (_ & Hcfg & Hps & _ & _ & _ & Ha & _ & _ & _ & Hsm & _).
  pose proof Hwf as [Hlog Hroom [Hi Hc] _ _ _]. pose proof (log_bounds _ Hlog).
  unfold snapshot_of, termAt, entriesFrom. rewrite Hps, Ha, Hcfg, Hsm.
  destruct (_ || _) eqn:Hg; [apply spec_throw|]. apply orb_false_iff in Hg as [_ Hg].
  rewrite (termAt_eq _ Hlog), (proj2 (Z.ltb_ge _ _)) by lia.
  destruct (proj2 (log_term_range _ Hlog (a_applied s))) as [t Ht]; [raft_lia|]. rewrite Ht.
  eapply (spec_bind _ _ _ (fun a s' => a = t /\ s' = s)).
  { intros n' Hl' Hs' _. exists s. split; [apply rtc_refl|]. auto. }
  intros ? ? _ _ [-> ->]. destruct (sm_snapshot (a_sm s)) as [data|] eqn:Hdata; [|apply spec_throw].
  set (snap := {| snapIndex := a_applied s |}). rewrite (u64_id (_ + 1)) by (cbn; raft_lia).
  rewrite (entriesFrom_eq _ Hlog) by (cbn; raft_lia).
  eapply (spec_bind _ _ _ (fun a s' => a = psEntries (with_snapshot snap (psConfig (a_ps s)) (a_ps s)) /\ s' = s)).
  { intros n' Hl' Hs' _. exists s. split; [apply rtc_refl|]. split; [done|]. split; [done|].
    split; [|done]. cbn. rewrite bool_decide_true by done. do 2 f_equal. lia. }
  intros ? ? _ _ [-> ->]. set (candidate := {| psHard := _ |}).
  assert (act inp s (put_ps candidate s)) as Hact by (apply act_compact; auto; raft_lia).
  intros n' Hl' Hs' _. apply (save_post n' s candidate _ _ (put_ps candidate s)); try done.
  { apply Hl'. } { by apply rtc_once. }
  intros st' _ Hs1. exists (put_ps candidate s). split; [by apply rtc_once|]. split; [done|].
  split; [|done]. destruct Hl' as (<- & ? & ?). by split_and!.
Qed.

End methods.

(** ** The operations of a node *)

Inductive op :=
  | OpStep (m : Message)
  | OpTick
  | OpPropose (command : bytes)
  | OpProposeNoOp
  | OpProposeConfiguration (next : Configuration)
  | OpTransferLeadership (target : NodeID)
  | OpCreateSnapshot
  | OpStop.

(** The messages an operation returns. *)
Definition run_op (o : op) : M (list Message) :=
  match o with
  | OpStep m => Step m
  | OpTick => Tick
  | OpPropose c => r ← Propose c; mret r.2
  | OpProposeNoOp => r ← ProposeNoOp; mret r.2
  | OpProposeConfiguration c => r ← ProposeConfiguration c; mret r.2
  | OpTransferLeadership t => TransferLeadership t
  | OpCreateSnapshot => CreateSnapshot;; mret []
  | OpStop => Stop;; mret []
  end.
Definition op_input (o : op) : input :=
  match o with
  | OpStep m => OnMessage m
  | OpProposeConfiguration c => OnConfiguration c
  | _ => OnNothing
  end.

(** A node between operations: well formed, not poisoned, durable. *)
Record node_ok n : Prop := {
  no_wf : wf (view n);
  no_peers : peers n = Members (configuration n);
  no_fatal : fatal n = None;
  no_stored : stored n (view n)
}.

Lemma node_ok_live n : node_ok n -> live n (view n) /\ stored n (view n) /\ wf (view n).
Proof using. intros []. split_and!; done. Qed.

Lemma run_op_spec o s :
  (forall m, o = OpStep m -> message_ok m) -> room s ->
  spec (op_input o) s (run_op o) (sends (op_input o) s).
Proof using Laws.
  intros Hok Hroom.
  assert (forall m, op_input o = OnMessage m -> message_ok m) as Hinp.
  { destruct o; cbn; try done. intros ? [= <-]. auto. }
  assert (forall A (m : M A) (P : A -> AState -> Prop) (f : A -> list Message),
    (forall a s', P a s' -> sends (op_input o) s (f a) s') -> spec (op_input o) s m P ->
    spec (op_input o) s (r ← m; mret (f r)) (sends (op_input o) s)) as Hret.
  { intros A m P f Hf Hm. eapply spec_bind; [done|exact Hm|]. intros a s' _ _ HP. apply spec_ret. auto. }
  destruct o; cbn [run_op op_input] in *.
  - by apply spec_Step.
  - by apply spec_Tick.
  - eapply Hret; [|by apply spec_Propose]. by intros ? ? (_ & ? & _).
  - eapply Hret; [|by apply spec_ProposeNoOp]. by intros ? ? (_ & ? & _).
  - eapply Hret; [|by apply spec_ProposeConfiguration]. by intros ? ? (_ & ? & _).
  - by apply spec_TransferLeadership.
  - apply (Hret _ CreateSnapshot _ (fun _ => []) (fun _ _ _ => sends_nil OnNothing s _) (spec_CreateSnapshot OnNothing Hinp s)).
  - apply (Hret _ Stop (fun _ _ => True) (fun _ => []) (fun _ _ _ => sends_nil OnNothing s _)). 
    by apply spec_modify.
Qed.

Lemma node_ok_intro n s : live n s -> stored n s -> wf s -> node_ok n /\ view n = s.
Proof using. intros (<- & Hp & Hf) Hs Hwf. split; [by split|done]. Qed.

(** C2. Refinement: on a healthy node whose last log index is at least two
    below the largest one, and for a handled message whose indexes are below
    the largest one and whose leader commit index its entries reach
    ([message_ok]), every operation is a sequence of atomic actions of the
    abstract participant, with every durable write of the sequence in the
    store.  A normal or error return leaves a healthy node in the state
    reached, unless the node poisoned itself; the messages returned are ones
    the reached state may send and satisfy [message_ok] again, so that the
    assumption holds among nodes that run this code; the store holds the
    durable part of the reached state in all cases, and a panic happens only
    when the handled message shows a second leader of the term or a log that
    contradicts this one.  Without the two bounds the node can also panic
    (RaftFindings.v). *)
Theorem node_refines o n :
  node_ok n -> room (view n) -> (forall m, o = OpStep m -> message_ok m) ->
  let '(r, n') := run_op o n in
  exists s', rtc (act (op_input o)) (view n) s' /\ wf s' /\ stored n' s' /\
    match r with
    | Ret ms => node_ok n' /\ view n' = s' /\ Forall (emitted (op_input o) (view n) s') ms /\ Forall message_ok ms
    | Fail _ => (node_ok n' /\ view n' = s') \/ is_Some (fatal n')
    | Panic p => panic_cause (op_input o) s' p
    end.
Proof using Laws.
  intros Hok Hroom Hmsg. destruct (node_ok_live n Hok) as (Hl & Hs & Hwf).
  assert (forall m, op_input o = OnMessage m -> message_ok m) as Hinp.
  { destruct o; cbn; try done. intros ? [= <-]. auto. }
  pose proof (run_op_spec o (view n) Hmsg Hroom n Hl Hs Hwf) as Hspec.
  destruct (run_op o n) as [r n']. destruct Hspec as (s' & Hr & Hs' & Hpost).
  destruct (rtc_sound _ Hinp _ _ Hr Hwf) as [Hwf' _]. exists s'. do 3 (split; [done|]).
  destruct r as [ms|e|p]; [| |done].
  - destruct Hpost as [Hl' Hms]. destruct (node_ok_intro n' s' Hl' Hs' Hwf'). split_and!; try done.
    eapply Forall_impl; [exact Hms|]. intros m. by apply emitted_ok.
  - destruct Hpost as [Hl'|]; [left|by right]. by apply node_ok_intro.
Qed.

End refine.
