(* ===== verification/RaftProps.v ===== *)
(** * Properties of the Raft node

    Consequences of the refinement of [RaftRefine]: what survives crashes,
    what never changes once committed, which operations can panic, and the
    order in which the state machine sees the log. *)

From S2P Require Import Prelude Membership RaftTypes RaftLog RaftNode RaftSpec RaftRefine.

Section props.
Context `{Env : RaftEnv, Laws : !StoreLaws}.
Implicit Types (n : Node) (s : AState).

(** ** Construction *)

(** Values of Go-typed configuration versions. *)
Definition config_typed (cfg : Config) (p : PersistentState) : Prop :=
  0 <= Version (InitialConfig cfg) /\ 0 <= Version (psConfig p).

Lemma NewNode_ok cfg n p :
  st_load (cfgStore cfg) = Ok p -> (validatePersistent p = Ok tt -> log_wf p) ->
  ps_lastIndex p < MaxUint64 -> config_typed cfg p ->
  NewNode cfg = Ret n ->
  node_ok n /\ psHard (persistent n) = psHard p /\ psEntries (persistent n) = psEntries p /\
  psSnapshot (persistent n) = psSnapshot p /\ role n = Follower /\
  id n = cfgID cfg /\ configuration n = initial_configuration cfg p /\
  psConfig (persistent n) = initial_configuration cfg p.
Proof using Laws.
  intros Hload Hval Hroom [Hi0 Hp0]. unfold NewNode. rewrite Hload.
  destruct (validateConfig cfg) as [[]|]; [|done].
  destruct (validatePersistent p) as [[]|] eqn:Hv; [|done]. pose proof (Hval eq_refl) as Hlog.
  set (initial := initial_configuration cfg p). destruct (_ || _) eqn:Hg; [done|].
  apply orb_false_iff in Hg as [Hcok _]. rewrite negb_false_iff in Hcok.
  assert (config_ok initial) as Hok.
  { apply validateConfiguration_spec. by destruct (validateConfiguration initial) as [[]|]. }
  destruct (_ && _) eqn:Hvf; [done|]. set (n0 := mkNode _ _ _ _ _ _ _ _ _ _ _ _ _ _ _ _ _ _ _ _ _ _ _ _).
  destruct (if negb _ then _ else _) as [sm' [e|]]; [done|].
  destruct (resetElectionTimer_run (set_stateMachine sm' n0)) as (n' & -> & Hvw & Hpe & Hst & Hf).
  intros [= <-].
  assert (log_wf (a_ps (view n'))) as Hlog' by (rewrite Hvw; destruct Hlog; by split).
  pose proof (log_bounds p Hlog). 
  assert (0 < Version initial) as Hver.
  { pose proof (config_version _ Hok). enough (0 <= Version initial) by lia. unfold initial, initial_configuration.
    cbn. repeat case_match; done || lia. }
  split; [|split_and!].
  - split.
    + rewrite Hvw in *. split; try done.
      change (a_last (view (set_stateMachine sm' n0))) with (ps_lastIndex p). unfold a_snap. cbn. lia.
    + change (configuration n') with (a_config (view n')). rewrite Hpe, Hvw. done.
    + by rewrite Hf.
    + exists p. rewrite Hst. split; [done|]. rewrite Hvw. split_and!; try done.
      destruct (Z.eqb_spec (Version (psConfig p)) 0); [by right|left]. cbn.
      unfold initial, initial_configuration. rewrite (proj2 (Z.eqb_neq _ _)) by done.
      cbn [negb]. by rewrite normalize_idem.
  - change (persistent n') with (a_ps (view n')). by rewrite Hvw.
  - change (persistent n') with (a_ps (view n')). by rewrite Hvw.
  - change (persistent n') with (a_ps (view n')). by rewrite Hvw.
  - change (role n') with (a_role (view n')). by rewrite Hvw.
  - change (id n') with (a_id (view n')). by rewrite Hvw.
  - change (configuration n') with (a_config (view n')). by rewrite Hvw.
  - change (persistent n') with (a_ps (view n')). by rewrite Hvw.
Qed.

(** The common consequence of the refinement: what the store and the node
    hold after any operation. *)
Lemma run_op_evolves o n :
  node_ok n -> room (view n) -> (forall m, o = OpStep m -> message_ok m) ->
  let '(r, n') := run_op o n in
  exists s', evolves (view n) s' /\ wf s' /\ stored n' s' /\
    (fatal n' = None -> (forall p, r <> Panic p) -> node_ok n' /\ view n' = s').
Proof using Laws.
  intros Hok Hroom Hmsg. destruct (node_ok_live n Hok) as (Hl & Hs & Hwf).
  assert (forall m, op_input o = OnMessage m -> message_ok m) as Hinp.
  { destruct o; cbn; try done. intros ? [= <-]. auto. }
  pose proof (run_op_spec o (view n) Hmsg Hroom n Hl Hs Hwf) as Hspec.
  destruct (run_op o n) as [r n']. destruct Hspec as (s' & Hr & Hs' & Hpost).
  destruct (rtc_sound _ Hinp _ _ Hr Hwf) as [Hwf' Hev]. exists s'. do 3 (split; [done|]).
  intros Hf Hnp. destruct r as [ms|e|p]; [| |by destruct (Hnp p)].
  - destruct Hpost as [Hl' _]. by apply node_ok_intro.
  - destruct Hpost as [Hl'|[? ?]]; [by apply node_ok_intro|congruence].
Qed.

(** C3. Durability: below the largest log index and for messages as nodes send
    them ([message_ok]), whatever an operation does (return, fail, poison the
    node or panic), the stored state keeps the promises made before it: the stored
    term and vote only move forward, and every entry committed before is
    still stored unless it is below the stored snapshot. *)
Theorem durable_promises o n :
  node_ok n -> room (view n) -> (forall m, o = OpStep m -> message_ok m) ->
  let n' := snd (run_op o n) in
  exists p, st_load (store n') = Ok p /\
    hard_le (psHard (persistent n)) (psHard p) /\
    commitIndex n <= ps_lastIndex p /\
    forall i, snapIndex (psSnapshot p) < i <= commitIndex n ->
      log_entry p i = log_entry (persistent n) i.
Proof using Laws.
  intros Hok Hroom Hmsg. pose proof (run_op_evolves o n Hok Hroom Hmsg) as Hev.
  destruct (run_op o n) as [r n']. destruct Hev as (s' & Hev & Hwf' & (p & Hp & Hh & Hsn & He & _) & _).
  exists p. split; [done|]. pose proof (wf_index _ Hwf') as [_ Hlast]. destruct Hev.
  assert (forall i, log_entry p i = log_entry (a_ps s') i) as Hlk.
  { intros i. unfold log_entry. by rewrite Hsn, He. }
  split_and!.
  - by rewrite Hh.
  - unfold a_last, ps_lastIndex in *. rewrite Hsn, He. cbn in ev_commit. lia.
  - intros i Hi. rewrite Hlk. apply ev_log. unfold a_snap. by rewrite <- Hsn.
Qed.

(** C4. Committed state is stable in memory: below the largest log index and
    for messages as nodes send them, an operation that returns (with
    or without an error) and does not poison the node keeps the node healthy,
    never lowers the term, the commit index or the applied index, and leaves
    every committed entry that is still in the log as it was. *)
Theorem committed_stable o n :
  node_ok n -> room (view n) -> (forall m, o = OpStep m -> message_ok m) ->
  let '(r, n') := run_op o n in
  fatal n' = None -> (forall p, r <> Panic p) ->
  node_ok n' /\ id n' = id n /\ term n <= term n' /\
  commitIndex n <= commitIndex n' /\ lastApplied n <= lastApplied n' /\
  forall i, snapIndex (snapshot_of n') < i <= commitIndex n ->
    log_entry (persistent n') i = log_entry (persistent n) i.
Proof using Laws.
  intros Hok Hroom Hmsg. pose proof (run_op_evolves o n Hok Hroom Hmsg) as Hev.
  destruct (run_op o n) as [r n']. destruct Hev as (s' & Hev & _ & _ & Hret).
  intros Hf Hnp. destruct (Hret Hf Hnp) as [Hok' <-]. destruct Hev as [Hid Hh Hc Ha _ _ Hl].
  split_and!; try done. destruct Hh as [Hh|[Hh _]]; cbn in Hh; unfold term; lia.
Qed.

(** C23. Only messages can panic a healthy node whose last log index is at
    least two below the largest one: there ticks, proposals, configuration
    proposals, leadership transfers, snapshots and stops never reach a failed
    invariant, an out-of-range index or a nil map.  At the largest index a
    tick can panic ([last_index_panics_tick] of RaftFindings.v). *)
Theorem local_operations_never_panic o n :
  node_ok n -> lastIndex n + 1 < MaxUint64 -> (forall m, o <> OpStep m) ->
  forall p, fst (run_op o n) <> Panic p.
Proof using Laws.
  intros Hok Hroom Hin p Hp. destruct (node_ok_live n Hok) as (Hl & Hs & Hwf).
  assert (forall m, o = OpStep m -> message_ok m) as Hmsg by (intros m ->; by destruct (Hin m)).
  pose proof (run_op_spec o (view n) Hmsg Hroom n Hl Hs Hwf) as Hspec.
  destruct (run_op o n) as [r n']. cbn in Hp. subst r.
  destruct Hspec as (s' & _ & _ & m & Hm & _). destruct o; try done. by destruct (Hin m0).
Qed.

(** C24. In-order application: when applying the committed entries succeeds,
    the state machine has seen exactly the commands between the applied and
    the commit index, each once and in log order, and the applied index has
    caught up with the commit index. *)
Theorem apply_in_order n :
  node_ok n ->
  let '(r, n') := applyCommitted n in
  r = Ret tt ->
  commitIndex n' = commitIndex n /\ lastApplied n' = commitIndex n /\
  stateMachine n' = foldl sm_step (stateMachine n) (log_range (view n) (lastApplied n) (commitIndex n)).
Proof using Laws.
  intros Hok. destruct (node_ok_live n Hok) as (Hl & Hs & Hwf).
  pose proof (spec_applyCommitted OnNothing ltac:(done) (view n) n Hl Hs Hwf) as Hspec.
  destruct (applyCommitted n) as [r n']. intros ->.
  destruct Hspec as (s' & _ & _ & (<- & _) & _ & Hc & Ha & Hsm). cbn in *. split_and!; congruence.
Qed.

(** Fail-stop: a poisoned node refuses every operation with [ErrStopped]
    and the original error, and changes nothing. *)
Theorem fail_stop o n e :
  fatal n = Some e -> o <> OpStop -> run_op o n = (Fail (ErrStopped :: e), n).
Proof using.
  intros Hf Ho. destruct o; try done; cbn [run_op];
    unfold Step, Tick, Propose, ProposeNoOp, ProposeConfiguration, TransferLeadership, CreateSnapshot,
      allow_proposal, usable; run; by rewrite Hf.
Qed.
End props.

(** ** Witnesses

    A fresh node of a three-node group receives the first entry of a leader
    together with the news that it is committed. *)

Definition fresh_node : @Node test_env :=
  @mkNode test_env 1 [1;2;3] {| Version := 1; OldVoters := [1;2;3]; NewVoters := []; Learners := [] |}
    5 5 1 tt NewMemoryStore []
    {| psHard := {| hsTerm := 0; VotedFor := 0 |}; psSnapshot := zero_snapshot;
       psConfig := {| Version := 1; OldVoters := [1;2;3]; NewVoters := []; Learners := [] |};
       psEntries := [] |}
    Follower 0 0 0 0 5 0 0 false None None None false None.

Definition first_entry : Entry := {| Index := 1; Term := 1; EType := EntryCommand; Command := [Byte.x2a] |}.
Definition first_append : Message :=
  {| mType := AppendEntries; mFrom := 2; mTo := 1; mTerm := 1;
     CandidateLastIndex := 0; CandidateLastTerm := 0; VoteGranted := false;
     PrevLogIndex := 0; PrevLogTerm := 0; mEntries := [first_entry]; LeaderCommit := 1;
     Success := false; MatchIndex := 0; RejectHint := 0; mSnapshot := zero_snapshot |}.
Definition informed_reply : list Message :=
  [{| mType := AppendEntriesResponse; mFrom := 1; mTo := 2; mTerm := 1;
      CandidateLastIndex := 0; CandidateLastTerm := 0; VoteGranted := false;
      PrevLogIndex := 0; PrevLogTerm := 0; mEntries := []; LeaderCommit := 0;
      Success := true; MatchIndex := 1; RejectHint := 0; mSnapshot := zero_snapshot |}].

Lemma fresh_node_ok : node_ok fresh_node.
Proof.
  assert (ps_typed zero_state) as Hty.
  { unfold ps_typed, snapshot_typed. split_and!; try (unfold is_u64; cbn; lia); [constructor|by vm_compute]. }
  refine (proj1 (NewNode_ok (Env:=test_env) (test_config 1 [1;2;3]) fresh_node zero_state eq_refl
    (validatePersistent_wf _ Hty) _ _ _)).
  - by vm_compute.
  - split; by vm_compute.
  - reflexivity.
Qed.
Lemma first_append_ok m : OpStep first_append = OpStep m -> message_ok m.
Proof.
  intros [= <-]. unfold message_ok, snapshot_typed, is_u64. cbn. split_and!; try lia; [|done].
  intros _. by vm_compute.
Qed.
Lemma fresh_room : room (view fresh_node).
Proof. by vm_compute. Qed.
Lemma informed_run :
  fst (@run_op test_env (OpStep first_append) fresh_node) = Ret informed_reply /\
  fatal (snd (@run_op test_env (OpStep first_append) fresh_node)) = None.
Proof. split; vm_compute; reflexivity. Qed.

Lemma node_refines_witness :
  let '(r, n') := @run_op test_env (OpStep first_append) fresh_node in
  exists s', rtc (act (OnMessage first_append)) (view fresh_node) s' /\ wf s' /\ stored n' s' /\
    match r with
    | Ret ms => node_ok n' /\ view n' = s' /\ Forall (emitted (OnMessage first_append) (view fresh_node) s') ms /\ Forall message_ok ms
    | Fail _ => (node_ok n' /\ view n' = s') \/ is_Some (fatal n')
    | Panic p => panic_cause (OnMessage first_append) s' p
    end.
Proof.
  exact (node_refines (Env:=test_env) (OpStep first_append) fresh_node fresh_node_ok fresh_room first_append_ok).
Defined.

Lemma durable_promises_witness :
  exists p, st_load (store (snd (@run_op test_env (OpStep first_append) fresh_node))) = Ok p /\
    hard_le (psHard (persistent fresh_node)) (psHard p) /\
    commitIndex fresh_node <= ps_lastIndex p /\
    forall i, snapIndex (psSnapshot p) < i <= commitIndex fresh_node ->
      log_entry p i = log_entry (persistent fresh_node) i.
Proof.
  exact (durable_promises (Env:=test_env) (OpStep first_append) fresh_node fresh_node_ok fresh_room first_append_ok).
Defined.

Lemma committed_stable_witness :
  let n' := snd (@run_op test_env (OpStep first_append) fresh_node) in
  node_ok n' /\ term fresh_node <= term n' /\ commitIndex fresh_node <= commitIndex n'.
Proof.
  pose proof (committed_stable (Env:=test_env) (OpStep first_append) fresh_node fresh_node_ok fresh_room
    first_append_ok) as Hst.
  destruct informed_run as [Hr Hf]. destruct (run_op (OpStep first_append) fresh_node) as [r n'].
  cbn in Hr, Hf |- *. destruct (Hst Hf) as (? & _ & ? & ? & _); [by rewrite Hr|done].
Defined.

Lemma local_operations_never_panic_witness :
  fst (@run_op test_env OpTick fresh_node) <> Panic 3 /\ fst (@run_op test_env OpCreateSnapshot fresh_node) <> Panic 100.
Proof.
  split; apply (local_operations_never_panic (Env:=test_env)); try done; exact fresh_node_ok || exact fresh_room.
Defined.

(** A restarted node that holds the entry, just told that it is committed. *)
Definition pending_state : PersistentState :=
  {| psHard := {| hsTerm := 1; VotedFor := 0 |}; psSnapshot := zero_snapshot;
     psConfig := psConfig (persistent fresh_node); psEntries := [first_entry] |}.
Definition pending_node : @Node test_env :=
  @mkNode test_env 1 [1;2;3] (configuration fresh_node) 5 5 1 tt
    {| msState := pending_state; saveErr := None; saveHook := None |} [] pending_state
    Follower 0 1 0 0 5 0 0 false None None None false None.

Lemma pending_node_ok : node_ok pending_node.
Proof.
  assert (log_wf pending_state) as Hlog.
  { apply validatePersistent_wf; [|by vm_compute]. unfold ps_typed, snapshot_typed, entry_typed.
    split_and!; try (unfold is_u64; cbn; lia); [|by vm_compute]. repeat constructor; cbn; lia. }
  destruct fresh_node_ok as [[_ _ _ Hcfg Hver _] _ _ _].
  assert (stored pending_node (view pending_node)) as Hst.
  { exists pending_state. unfold ps_sync. split; [done|]. split_and!; auto. }
  split; [|done|done|done]. split; [done|by vm_compute|by vm_compute|done|done|]. split; done.
Qed.

Lemma apply_in_order_witness : stateMachine (snd (@applyCommitted test_env pending_node)) = [[Byte.x2a]].
Proof.
  pose proof (apply_in_order (Env:=test_env) pending_node pending_node_ok) as Hin.
  assert (fst (@applyCommitted test_env pending_node) = Ret tt) as Hr by (vm_compute; reflexivity).
  destruct (applyCommitted pending_node) as [r n']. destruct (Hin Hr) as (_ & _ & Hsm).
  cbn [snd]. rewrite Hsm. vm_compute. reflexivity.
Defined.

Lemma fail_stop_witness :
  @run_op test_env OpTick (set_fatal (Some [ErrPersistence]) fresh_node)
  = (Fail [ErrStopped; ErrPersistence], set_fatal (Some [ErrPersistence]) fresh_node).
Proof. apply (fail_stop (Env:=test_env)); [reflexivity|discriminate]. Defined.
