(* ===== verification/RaftFindings.v ===== *)
(** * Behaviour at the edges of the Raft node

    Concrete runs of raft/node.go where the code does not do what its guards
    or documentation intend: the largest log index, a leader that removes
    itself, and a leader commit index that the request does not cover. *)

From S2P Require Import Prelude Membership RaftTypes RaftNode.

Definition exec {A} (m : @M test_env A) (n : @Node test_env) : option (A * @Node test_env) :=
  match m n with (Ret a, n') => Some (a, n') | _ => None end.
Definition response (kind : MessageType) (from : NodeID) (t : Z) (ok : bool) (i : Z) : Message :=
  {| mType := kind; mFrom := from; mTo := 1; mTerm := t;
     CandidateLastIndex := 0; CandidateLastTerm := 0; VoteGranted := ok;
     PrevLogIndex := 0; PrevLogTerm := 0; mEntries := []; LeaderCommit := 0;
     Success := ok; MatchIndex := i; RejectHint := 0; mSnapshot := zero_snapshot |}.

(** A node restarted from a snapshot one below the largest index. *)
Definition full_state : PersistentState :=
  {| psHard := {| hsTerm := 1; VotedFor := 0 |};
     psSnapshot := {| snapIndex := MaxUint64 - 1; snapTerm := 1; snapData := []; snapConfig := zero_config |};
     psConfig := zero_config; psEntries := [] |}.
Definition full_node (ids : list NodeID) : option (@Node test_env) :=
  match NewMemoryStoreFrom full_state with
  | Err _ => None
  | Ok st =>
      match @NewNode test_env (@Build_Config test_env 1 ids 5 5 1 tt st ([] : list bytes) zero_config false) with
      | Ret n => Some n
      | _ => None
      end
  end.

(** The guard of [becomeLeader] lets the entry of index [MaxUint64] in, and
    then [entriesFrom] computes [lastIndex()+1 = 0]: the new leader panics on
    RAFT-3 as soon as it has a peer to replicate to. *)
Example last_index_panics_leader :
  (n ← full_node [1;2;3];
   '(_, n) ← exec startElection n;
   Some (fst (Step (response RequestVoteResponse 2 2 true 0) n)))
  = Some (Panic 3).
Proof. vm_compute. reflexivity. Qed.

(** The same without a message: the only voter of a group with a learner
    elects itself when its election timer fires, and panics in [Tick]. *)
Definition with_learner : Configuration := {| Version := 1; OldVoters := [1]; NewVoters := []; Learners := [2] |}.
Definition full_voter : option (@Node test_env) :=
  match NewMemoryStoreFrom
    {| psHard := psHard full_state; psConfig := with_learner; psEntries := [];
       psSnapshot := {| snapIndex := MaxUint64 - 1; snapTerm := 1; snapData := []; snapConfig := with_learner |} |} with
  | Err _ => None
  | Ok st =>
      match @NewNode test_env (@Build_Config test_env 1 [1] 5 5 1 tt st ([] : list bytes) zero_config false) with
      | Ret n => Some n
      | _ => None
      end
  end.
Fixpoint tick_until (fuel : nat) (n : @Node test_env) : outcome (list Message) :=
  match fuel, Tick n with
  | S fuel', (Ret _, n') => tick_until fuel' n'
  | _, (r, _) => r
  end.
Example last_index_panics_tick : (n ← full_voter; Some (tick_until 12 n)) = Some (Panic 3).
Proof. vm_compute. reflexivity. Qed.

(** A single-node leader at the largest index: [Propose] refuses with
    [ErrResourceLimit], [ProposeConfiguration] has no such guard, appends an
    entry of index 0 and poisons the node. *)
Definition grow : Configuration :=
  {| Version := 2; OldVoters := [1]; NewVoters := [1;2]; Learners := [] |}.
Example last_index_configuration_poisons :
  (n ← full_node [1];
   '(_, n) ← exec startElection n;
   Some (fst (Propose [] n), fst (ProposeConfiguration grow n), fatal (snd (ProposeConfiguration grow n))))
  = Some (Fail [ErrResourceLimit], Fail [ErrPersistence; ErrInvalidState],
          Some [ErrPersistence; ErrInvalidState]).
Proof. vm_compute. reflexivity. Qed.

(** A leader whose removal commits steps down inside [applyCommitted], which
    clears [nextIndex]; [handleAppendResponse] still builds its replication
    messages, which become [InstallSnapshot] requests with no snapshot, sent
    by a follower, in place of the entries and the commit index. *)
Definition removal_run : option (Role * list (MessageType * NodeID * Z)) :=
  n ← test_node 1 [1;2;3];
  '(_, n) ← exec startElection n;
  '(_, n) ← exec (Step (response RequestVoteResponse 2 1 true 0)) n;
  '(_, n) ← exec (ProposeConfiguration
     {| Version := 2; OldVoters := [1;2;3]; NewVoters := [2;3]; Learners := [] |}) n;
  '(_, n) ← exec (Step (response AppendEntriesResponse 2 1 true 2)) n;
  '(_, n) ← exec (Step (response AppendEntriesResponse 3 1 true 2)) n;
  '(_, n) ← exec (ProposeConfiguration
     {| Version := 3; OldVoters := [2;3]; NewVoters := []; Learners := [] |}) n;
  '(_, n) ← exec (Step (response AppendEntriesResponse 2 1 true 3)) n;
  '(ms, n) ← exec (Step (response AppendEntriesResponse 3 1 true 3)) n;
  Some (role n, map (fun m => (mType m, mTo m, snapIndex (mSnapshot m))) ms).
Example removed_leader_sends_empty_snapshots :
  removal_run = Some (Follower, [(InstallSnapshot, 2, 0); (InstallSnapshot, 3, 0)]).
Proof. vm_compute. reflexivity. Qed.

(** [handleAppendEntries] sets [commitIndex] to the smaller of the leader's
    commit index and the last index the request covers, without comparing it
    to the present one: a request that covers less than this node has applied
    lowers [commitIndex] and panics on RAFT-7. *)
Definition append (prev prevTerm : Z) (es : list Entry) (commit : Z) : Message :=
  {| mType := AppendEntries; mFrom := 2; mTo := 1; mTerm := 1;
     CandidateLastIndex := 0; CandidateLastTerm := 0; VoteGranted := false;
     PrevLogIndex := prev; PrevLogTerm := prevTerm; mEntries := es; LeaderCommit := commit;
     Success := false; MatchIndex := 0; RejectHint := 0; mSnapshot := zero_snapshot |}.
Example commit_index_regression_panics :
  (n ← test_node 1 [1;2;3];
   '(_, n) ← exec (Step (append 0 0
      [{| Index := 1; Term := 1; EType := EntryNoOp; Command := [] |}] 1)) n;
   Some (commitIndex n, fst (Step (append 0 0 [] 2) n)))
  = Some (1, Panic 7).
Proof. vm_compute. reflexivity. Qed.
