(* ===== verification/RaftCluster.v ===== *)
(** * A Raft group: election safety

    Nodes of raft/node.go that exchange messages through a network that may
    lose, duplicate, delay and reorder them, that crash at any time (also in
    the middle of an operation, whose durable writes may or may not have
    happened) and restart from their stores.  The membership is fixed: no
    configuration entry is proposed.  At most one node leads a term. *)

From S2P Require Import Prelude Membership RaftTypes RaftLog RaftNode RaftSpec RaftRefine RaftProps.

Section cluster.
Context `{Env : RaftEnv, Laws : !StoreLaws}.
(** The configuration every node is started with. *)
Context (C : Configuration) (HC : config_ok C) (HCv : 0 < Version C).
Implicit Types (n : Node) (s : AState).

Inductive Process := Up (n : Node) | Down (st : St).
Record World := { procs : gmap NodeID Process; net : list Message }.

Definition disk (pr : Process) : St := match pr with Up n => store n | Down st => st end.

(** How node [i] is started on a store. *)
Definition node_config (i : NodeID) (st : St) (c : Config) : Prop :=
  cfgID c = i /\ cfgStore c = st /\ InitialConfig c = C.

(** A process that panics is down with the store it leaves. *)
Definition after (r : outcome (list Message)) n : Process :=
  match r with Panic _ => Down (store n) | _ => Up n end.
Definition outputs (r : outcome (list Message)) : list Message :=
  match r with Ret ms => ms | _ => [] end.

Inductive wstep (w : World) : World -> Prop :=
  | w_op i n o r n' :
      procs w !! i = Some (Up n) ->
      (forall m, o = OpStep m -> m ∈ net w) -> (forall c, o <> OpProposeConfiguration c) ->
      room (view n) -> run_op o n = (r, n') ->
      wstep w {| procs := <[i := after r n']> (procs w); net := net w ++ outputs r |}
  | w_crash i n :
      procs w !! i = Some (Up n) ->
      wstep w {| procs := <[i := Down (store n)]> (procs w); net := net w |}
  | w_restart i st c n :
      procs w !! i = Some (Down st) -> node_config i st c -> NewNode c = Ret n ->
      wstep w {| procs := <[i := Up n]> (procs w); net := net w |}.

(** Every store starts empty. *)
Definition initial (w : World) : Prop :=
  net w = [] /\
  forall i pr, procs w !! i = Some pr -> exists st, pr = Down st /\ st_load st = Ok zero_state.

Definition reachable (w : World) : Prop := exists w0, initial w0 /\ rtc wstep w0 w.

(** ** Fixed membership *)

Local Abbreviation C' := (normalizeConfiguration C).

Definition plain (es : list Entry) : Prop := Forall (fun e => EType e <> EntryConfig) es.
Definition static_ps (p : PersistentState) : Prop :=
  plain (psEntries p) /\ Version (snapConfig (psSnapshot p)) <= Version C.
Definition static s : Prop :=
  a_config s = C' /\ normalizeConfiguration (psConfig (a_ps s)) = C' /\ static_ps (a_ps s).
Definition static_message (m : Message) : Prop :=
  plain (mEntries m) /\ Version (snapConfig (mSnapshot m)) <= Version C.

Lemma accept_log_plain p commit inc es :
  plain (psEntries p) -> plain inc -> accept_log p commit inc = Some es -> plain es.
Proof using.
  intros Hp. induction inc as [|e inc IH]; cbn; intros Hinc; [by intros [= <-]|].
  inversion Hinc; subst. case_match; [case_match; [case_match; [auto|done]|]|].
  - case_match; [done|]. intros [= <-]. apply Forall_app. split; [by apply Forall_take|done].
  - intros [= <-]. by apply Forall_app.
Qed.

Lemma with_snapshot_plain snap c p : plain (psEntries p) -> plain (psEntries (with_snapshot snap c p)).
Proof using. intros Hp. cbn. case_match; [by apply Forall_drop|constructor]. Qed.

Lemma act_static inp s s' :
  (forall c, inp <> OnConfiguration c) -> (forall m, inp = OnMessage m -> static_message m) ->
  wf s -> static s -> act inp s s' -> static s'.
Proof using.
  intros Hnc Hm Hwf (Hc & Hpc & Hpl & Hv) Hact. pose proof (wf_version _ Hwf) as [Hver _].
  destruct Hact as [| | | | | |e Hr Hi Hmax Ht Hk| | | |m es -> _ _ _ _ _ Hacc| | |e next Hlt He Hty _ _ _
    |t data _ _ _|m -> _ _ _ _ _]; try done.
  - split_and!; try done. split; [|done]. apply Forall_app. split; [done|]. constructor; [|constructor].
    intros Hty. destruct (Hk Hty) as [c Hcc]. by destruct (Hnc c).
  - split_and!; try done. split; [|done]. destruct (Hm m eq_refl). by eapply accept_log_plain.
  - apply log_entry_elem in He. unfold plain in Hpl. rewrite Forall_forall in Hpl. by destruct (Hpl e He).
  - split_and!; try done. split; [by apply with_snapshot_plain|]. cbn. by rewrite Hc.
  - destruct (Hm m eq_refl) as [_ Hsv]. destruct (install_fields (mSnapshot m) s) as (_ & Hp & _).
    assert (snapshot_config (mSnapshot m) (a_ps s) = psConfig (a_ps s)) as Hsc.
    { unfold snapshot_config. apply (f_equal Version) in Hpc. cbn in Hpc.
      by rewrite (proj2 (Z.ltb_ge _ _)) by lia. }
    rewrite Hsc in Hp. unfold static. rewrite Hp. split_and!; [|done|split; [by apply with_snapshot_plain|done]].
    unfold install. rewrite Hsc. cbn [a_config put_ps put_applied put_commit].
    by rewrite (proj2 (Z.ltb_ge _ _)).
Qed.

Lemma rtc_static inp s s' :
  (forall c, inp <> OnConfiguration c) ->
  (forall m, inp = OnMessage m -> message_ok m /\ static_message m) ->
  wf s -> static s -> rtc (act inp) s s' -> static s'.
Proof using.
  intros Hnc Hm Hwf Hs Hr. induction Hr as [|s s1 s' Hact Hr IH]; [done|]. apply IH.
  - apply (act_sound inp s s1); [intros m ?; by apply Hm|done|done].
  - eapply act_static; eauto. intros m ?. by apply Hm.
Qed.

(** ** Ballots

    [V] records the vote each node has stored in each term. *)

Abbreviation ballots := (gmap (NodeID * Z) NodeID).
Implicit Types V : ballots.

(** A quorum has voted for [c] in term [t]; [me] counts as a voter too. *)
Definition elected V (t : Z) (c : NodeID) (me : bool) : Prop :=
  Quorum C' (fun k => bool_decide (V !! (k, t) = Some c \/ me = true /\ k = c)) = true.

(** The votes a candidate has counted, and the election of a leader. *)
Definition earned V s (me : bool) : Prop :=
  match a_role s with
  | Follower => True
  | Candidate => forall k, vote_get (a_votes s) k = true ->
      V !! (k, a_term s) = Some (a_id s) \/ me = true /\ k = a_id s
  | Leader => elected V (a_term s) (a_id s) me
  end.

Definition ballot_message V (m : Message) : Prop :=
  (mType m = RequestVoteResponse -> VoteGranted m = true -> V !! (mFrom m, mTerm m) = Some (mTo m)) /\
  (mType m = AppendEntries \/ mType m = InstallSnapshot -> elected V (mTerm m) (mFrom m) false).

Lemma act_earned V inp s s' :
  (forall m, inp = OnMessage m -> ballot_message V m) ->
  static s -> static s' -> act inp s s' -> earned V s true -> earned V s' true.
Proof using.
  intros Hm (Hc & _) (Hc' & _) Hact He.
  destruct Hact as [|m -> _ _|m -> Hv| |m -> Hty Ht Hto Hg Hr|Hr Hq|e Hr| | | | | | |e next _ _ _ _ Hv _| |m -> _ _ Hr]; try done.
  - unfold earned. cbn. intros k Hk. right. split; [done|]. revert Hk.
    unfold vote_get. cbn. destruct (decide (k = a_id s)) as [->|]; [done|]. by simplify_map_eq.
  - unfold earned in *. cbn. rewrite Hr in *. intros k. unfold vote_get. cbn.
    destruct (a_votes s) as [vs|]; cbn; [|done].
    destruct (decide (k = mFrom m)) as [->|]; [|rewrite lookup_insert_ne by done; apply He].
    intros _. left. change (V !! (mFrom m, a_term s) = Some (a_id s)). rewrite <- Hto, <- Ht. by apply (Hm m eq_refl).
  - unfold earned in *. cbn. rewrite Hr in He. unfold elected. rewrite Hc in Hq.
    eapply Quorum_mono; [|exact Hq]. intros k _ Hk. apply bool_decide_eq_true, He, Hk.
  - exfalso. cbn in Hc'. rewrite reconfigure_config in Hc'. apply (f_equal Version) in Hc', Hc.
    cbn in Hc', Hc. lia.
  - unfold earned. by rewrite install_role.
Qed.

Lemma rtc_earned V inp s s' :
  (forall c, inp <> OnConfiguration c) ->
  (forall m, inp = OnMessage m -> message_ok m /\ static_message m /\ ballot_message V m) ->
  wf s -> static s -> rtc (act inp) s s' -> earned V s true -> earned V s' true.
Proof using.
  intros Hnc Hm Hwf Hs Hr.
  assert (forall m, inp = OnMessage m -> message_ok m) as Hm1 by (intros m Hi; apply (Hm m Hi)).
  assert (forall m, inp = OnMessage m -> static_message m) as Hm2 by (intros m Hi; apply (Hm m Hi)).
  assert (forall m, inp = OnMessage m -> ballot_message V m) as Hm3 by (intros m Hi; apply (Hm m Hi)).
  induction Hr as [|s s1 s' Hact Hr IH]; [done|]. intros He.
  assert (static s1) as Hs1 by by eapply act_static.
  apply IH; [|done|].
  - by apply (act_sound inp s s1).
  - by apply (act_earned V inp s s1).
Qed.

Lemma elected_mono V V' t c me : V ⊆ V' -> elected V t c me -> elected V' t c me.
Proof using.
  intros Hsub. unfold elected. apply Quorum_mono. intros k _. rewrite !bool_decide_eq_true.
  intros [Hk|?]; [left|by right]. by eapply lookup_weaken.
Qed.
Lemma earned_mono V V' s me : V ⊆ V' -> earned V s me -> earned V' s me.
Proof using.
  intros Hsub. unfold earned. destruct (a_role s); [done| |by apply elected_mono].
  intros He k Hk. destruct (He k Hk); [left; by eapply lookup_weaken|by right].
Qed.
Lemma ballot_message_mono V V' m : V ⊆ V' -> ballot_message V m -> ballot_message V' m.
Proof using.
  intros Hsub [H1 H2]. split; [|intros ?; eapply elected_mono; eauto].
  intros ? ?. eapply lookup_weaken; eauto.
Qed.

(** Once the own vote is recorded it need not be counted apart. *)
Lemma earned_settle V s :
  earned V s true -> (a_role s <> Follower -> V !! (a_id s, a_term s) = Some (a_id s)) -> earned V s false.
Proof using.
  unfold earned. destruct (a_role s); intros He Hv; [done| |].
  - intros k Hk. left. destruct (He k Hk) as [|[_ ->]]; [done|by apply Hv].
  - eapply Quorum_mono; [|exact He]. intros k _. rewrite !bool_decide_eq_true.
    intros [|[_ ->]]; [by left|left; by apply Hv].
Qed.
Lemma earned_weaken V s : earned V s false -> earned V s true.
Proof using.
  unfold earned. destruct (a_role s); intros He; [done| |].
  - intros k Hk. destruct (He k Hk) as [|[? _]]; [by left|done].
  - eapply Quorum_mono; [|exact He]. intros k _. rewrite !bool_decide_eq_true. intros [|[? _]]; [by left|done].
Qed.

(** ** The invariant of a group *)

Record disk_ok V (i : NodeID) (p : PersistentState) : Prop := {
  do_log : log_wf p;
  do_room : ps_lastIndex p < MaxUint64;
  do_static : static_ps p;
  do_config : Version (psConfig p) = 0 \/ normalizeConfiguration (psConfig p) = C';
  do_ballots : forall t c, V !! (i, t) = Some c ->
    c <> 0 /\ (t < hsTerm (psHard p) \/ t = hsTerm (psHard p) /\ VotedFor (psHard p) = c);
  do_vote : VotedFor (psHard p) <> 0 -> V !! (i, hsTerm (psHard p)) = Some (VotedFor (psHard p))
}.

Definition proc_ok V (i : NodeID) (pr : Process) : Prop :=
  (exists p, st_load (disk pr) = Ok p /\ disk_ok V i p) /\
  match pr with
  | Up n => fatal n = None -> node_ok n /\ id n = i /\ static (view n) /\ earned V (view n) false
  | Down _ => True
  end.

Definition net_ok V (ms : list Message) : Prop :=
  forall m, m ∈ ms -> message_ok m /\ static_message m /\ ballot_message V m.

Record Inv V (w : World) : Prop := {
  inv_procs : forall i pr, procs w !! i = Some pr -> proc_ok V i pr;
  inv_net : net_ok V (net w)
}.

(** The ballots after node [i] has stored the vote of [s]. *)
Definition record V (i : NodeID) s : ballots :=
  if a_vote s =? 0 then V else <[(i, a_term s) := a_vote s]> V.

Lemma record_sub V i p s : disk_ok V i p -> hard_le (psHard p) (psHard (a_ps s)) -> V ⊆ record V i s.
Proof using.
  intros Hd Hh. unfold record. destruct (Z.eqb_spec (a_vote s) 0) as [|Hne]; [done|].
  apply map_subseteq_spec. intros k c Hc. destruct (decide (k = (i, a_term s))) as [->|].
  - rewrite lookup_insert_eq. destruct (do_ballots _ _ _ Hd _ _ Hc) as [Hc0 Hcc]. f_equal.
    unfold a_term, a_vote, hard_le in *. lia.
  - by rewrite lookup_insert_ne.
Qed.

Lemma record_disk V i p s p' :
  disk_ok V i p -> hard_le (psHard p) (psHard (a_ps s)) ->
  wf s -> static s -> ps_sync p' (a_ps s) -> disk_ok (record V i s) i p'.
Proof using.
  intros Hd Hh [Hlog Hroom _ _ _ _] (_ & Hpc & Hpl & Hsv) (Hhe & Hsn & Hen & Hcf).
  assert (ps_lastIndex p' = a_last s) as Hlast by (unfold a_last, ps_lastIndex; by rewrite Hsn, Hen).
  split.
  - destruct Hlog. split; rewrite ?Hhe, ?Hsn, ?Hen; done.
  - by rewrite Hlast.
  - split; [by rewrite Hen|by rewrite Hsn].
  - destruct Hcf as [Hcf|]; [right; congruence|by left].
  - intros t c. rewrite Hhe. fold (a_term s) (a_vote s). unfold record.
    destruct (Z.eqb_spec (a_vote s) 0) as [Hz|Hne].
    + intros Hc. destruct (do_ballots _ _ _ Hd _ _ Hc) as [? Hcc]. split; [done|].
      unfold a_term, a_vote, hard_le in *. lia.
    + intros [[[= <-] <-]|[Hk Hc]]%lookup_insert_Some; [split; [done|by right]|].
      destruct (do_ballots _ _ _ Hd _ _ Hc) as [? Hcc]. split; [done|].
      unfold a_term, a_vote, hard_le in *. lia.
  - rewrite Hhe. fold (a_term s) (a_vote s). intros Hne. unfold record.
    rewrite (proj2 (Z.eqb_neq _ _) Hne). by rewrite lookup_insert_eq.
Qed.

Lemma record_other V i j s p : i <> j -> disk_ok V j p -> disk_ok (record V i s) j p.
Proof using.
  intros Hij []. unfold record. case_match; split; try done.
  - intros t c. rewrite lookup_insert_ne by congruence. auto.
  - intros ?. rewrite lookup_insert_ne by congruence. auto.
Qed.

Lemma record_own V i s : a_vote s <> 0 -> record V i s !! (i, a_term s) = Some (a_vote s).
Proof using. intros Hne. unfold record. rewrite (proj2 (Z.eqb_neq _ _) Hne). by rewrite lookup_insert_eq. Qed.

(** What the messages of an operation establish. *)
Lemma emitted_ballot V inp s s' m :
  wf s' -> static s -> static s' -> earned V s' false ->
  (a_vote s' <> 0 -> V !! (a_id s', a_term s') = Some (a_vote s')) ->
  emitted inp s s' m -> static_message m /\ ballot_message V m.
Proof using HCv.
  intros Hwf (Hc0 & _) (Hc & _ & Hpl & Hsv) He Hv Hem.
  assert (static_message (timeout_now s' 0)) as [Hz1 Hz2] by (split; [constructor|cbn; lia]). cbn in Hz1, Hz2.
  destruct Hem as [to Hr|m granted _ _ Hg|to prev t Hr _|to hint _|m _ _ _ _|to Hl|to ok mt _|to Hr];
    (split; [split; [try done|try done; try lia]|split; cbn; try (intros [=]; done); try (intros [[=]|[=]]; done)]).
  - intros _ ->. destruct (Hg eq_refl) as [Hvo Hne]. rewrite <- Hvo. apply Hv. by rewrite Hvo.
  - cbn. by apply Forall_drop.
  - intros _. unfold earned in He. by rewrite Hr in He.
  - intros _. destruct Hl as [Hr|Hlt]; [unfold earned in He; by rewrite Hr in He|].
    rewrite Hc0, Hc in Hlt. lia.
Qed.

(** ** Preservation *)

(** A poisoned node does nothing. *)
Lemma poisoned_op o n e r n' :
  fatal n = Some e -> run_op o n = (r, n') ->
  outputs r = [] /\ after r n' = Up n' /\ store n' = store n /\ fatal n' = Some e.
Proof using.
  intros Hf. destruct o; cbn [run_op];
    unfold Step, Tick, Propose, ProposeNoOp, ProposeConfiguration, TransferLeadership, CreateSnapshot, Stop,
      allow_proposal, usable; run; rewrite ?Hf; intros [= <- <-]; done.
Qed.

Lemma proc_ok_poisoned V i n n' e :
  proc_ok V i (Up n) -> store n' = store n -> fatal n' = Some e -> proc_ok V i (Up n').
Proof using. intros [Hd _] Hs Hf. split; [cbn; by rewrite Hs|]. cbn. by rewrite Hf. Qed.

(** One operation of a healthy node: the state it reaches, with the ballots
    that include the vote it stores. *)
Record reached V (i : NodeID) n (o : op) (n' : Node) s' (V' : ballots) : Prop := {
  re_path : rtc (act (op_input o)) (view n) s';
  re_wf : wf s';
  re_static : static s';
  re_earned : earned V' s' false;
  re_sub : V ⊆ V';
  re_other : forall j p, i <> j -> disk_ok V j p -> disk_ok V' j p;
  re_disk : exists p', st_load (store n') = Ok p' /\ ps_sync p' (a_ps s') /\ disk_ok V' i p';
  re_id : a_id s' = i;
  re_vote : a_vote s' <> 0 -> V' !! (a_id s', a_term s') = Some (a_vote s')
}.

Lemma op_reaches V i n o r n' (ms : list Message) :
  proc_ok V i (Up n) -> fatal n = None -> net_ok V ms ->
  (forall m, o = OpStep m -> m ∈ ms) -> (forall c, o <> OpProposeConfiguration c) ->
  room (view n) -> run_op o n = (r, n') ->
  exists s' V', reached V i n o n' s' V' /\
    match r with
    | Ret out => live n' s' /\ sends (op_input o) (view n) out s'
    | Fail _ => live n' s' \/ is_Some (fatal n')
    | Panic p => panic_cause (op_input o) s' p
    end.
Proof using Laws.
  intros [Hdisk Hup] Hf Hnet Hin Hnc Hroom Hrun. destruct (Hup Hf) as (Hok & Hid & Hst & He). clear Hup.
  destruct (node_ok_live n Hok) as (Hl & Hs & Hwf).
  assert (forall m, op_input o = OnMessage m -> message_ok m /\ static_message m /\ ballot_message V m) as Hinp.
  { destruct o; cbn; try done. intros ? [= <-]. apply Hnet. by apply Hin. }
  assert (forall m, op_input o = OnMessage m -> message_ok m) as Hinp1 by (intros m Hi; apply (Hinp m Hi)).
  assert (forall m, o = OpStep m -> message_ok m) as Hok1 by (intros m ->; by apply Hinp1).
  assert (forall c, op_input o <> OnConfiguration c) as Hnc'.
  { intros c Hc. destruct o; try done. by destruct (Hnc next). }
  pose proof (run_op_spec o (view n) Hok1 Hroom n Hl Hs Hwf) as Hspec. rewrite Hrun in Hspec.
  destruct Hspec as (s' & Hr & (p' & Hp' & Hsync) & Hpost).
  destruct (rtc_sound _ Hinp1 _ _ Hr Hwf) as [Hwf' Hev].
  assert (static s') as Hst'.
  { apply (rtc_static (op_input o) (view n) s'); try done.
    intros m Hi. destruct (Hinp m Hi) as (? & ? & _). by split. }
  destruct Hs as (p0 & Hp0 & Hh0 & _). destruct Hdisk as (p & Hp & Hd). cbn in Hp.
  assert (p0 = p) as -> by congruence.
  assert (hard_le (psHard p) (psHard (a_ps s'))) as Hh by (rewrite Hh0; apply Hev).
  assert (a_id s' = i) as Hid' by (rewrite (ev_id _ _ Hev); exact Hid).
  set (V' := record V i s'). exists s', V'. split; [|done].
  assert (V ⊆ V') as Hsub by (eapply record_sub; eauto).
  assert (a_vote s' <> 0 -> V' !! (a_id s', a_term s') = Some (a_vote s')) as Hown.
  { rewrite Hid'. apply record_own. }
  split; try done.
  - apply earned_settle.
    { eapply earned_mono; [done|]. apply (rtc_earned V (op_input o) (view n) s'); try done.
      by apply earned_weaken. }
    intros Hr'. pose proof (wf_role _ Hwf') as [_ Hvr]. destruct (Hvr Hr') as (Hvid & _ & Hvot).
    rewrite <- Hvid at 2. apply Hown. rewrite Hvid. apply Voter_spec in Hvot.
    apply (config_nonzero _ (wf_config _ Hwf')). tauto.
  - intros j q Hij. by apply record_other.
  - exists p'. split_and!; try done. by eapply record_disk.
Qed.

Lemma op_preserves V i n o r n' (ms : list Message) :
  proc_ok V i (Up n) -> fatal n = None -> net_ok V ms ->
  (forall m, o = OpStep m -> m ∈ ms) -> (forall c, o <> OpProposeConfiguration c) ->
  room (view n) -> run_op o n = (r, n') ->
  exists V', V ⊆ V' /\ (forall j p, i <> j -> disk_ok V j p -> disk_ok V' j p) /\
    proc_ok V' i (after r n') /\ net_ok V' (outputs r).
Proof using Laws HCv.
  intros Hpr Hf Hnet Hin Hnc Hroom Hrun.
  destruct (op_reaches V i n o r n' ms Hpr Hf Hnet Hin Hnc Hroom Hrun) as (s' & V' & Hre & Hpost).
  destruct Hpr as [_ Hup]. destruct (Hup Hf) as (_ & _ & Hst & _).
  destruct Hre as [Hr Hwf' Hst' He' Hsub Hoth (p' & Hp' & Hsync & Hd') Hid' Hown].
  exists V'. split; [done|]. split; [done|]. split.
  - split; [exists p'; split; [by destruct r|done]|].
    assert (live n' s' -> node_ok n' /\ id n' = i /\ static (view n') /\ earned V' (view n') false) as Hlive.
    { intros Hl'. destruct (node_ok_intro n' s' Hl' ltac:(by exists p') Hwf') as [? Hv'].
      rewrite Hv'. split_and!; try done. change (id n') with (a_id (view n')). by rewrite Hv'. }
    destruct r as [out|e|q]; cbn; [|intros Hfn|done].
    + intros _. apply Hlive, Hpost.
    + destruct Hpost as [Hl'|[? Hf']]; [by apply Hlive|congruence].
  - destruct r as [out| |]; cbn; [|by intros m ?%not_elem_of_nil..]. intros m Hm.
    destruct Hpost as [_ Hms]. unfold sends in Hms. rewrite Forall_forall in Hms. specialize (Hms m Hm).
    split; [|by eapply (emitted_ballot V' (op_input o) (view n) s' m)].
    eapply emitted_ok; [|done|done]. destruct o; cbn; try done. intros ? [= <-]. apply Hnet. by apply Hin.
Qed.

Lemma proc_ok_mono V V' j pr :
  V ⊆ V' -> (forall p, disk_ok V j p -> disk_ok V' j p) -> proc_ok V j pr -> proc_ok V' j pr.
Proof using.
  intros Hsub Hd [(p & Hp & Hdp) Hup]. split; [exists p; auto|]. destruct pr as [n|]; [|done].
  intros Hf. destruct (Hup Hf) as (? & ? & ? & ?). split_and!; try done. by eapply earned_mono.
Qed.

Lemma net_ok_mono V V' ms : V ⊆ V' -> net_ok V ms -> net_ok V' ms.
Proof using.
  intros Hsub Hn m Hm. destruct (Hn m Hm) as (? & ? & ?). split_and!; try done. by eapply ballot_message_mono.
Qed.

(** A restart from a store the group left behind. *)
Lemma restart_ok V i st c n :
  proc_ok V i (Down st) -> node_config i st c -> NewNode c = Ret n -> proc_ok V i (Up n).
Proof using Laws HCv.
  intros [(p & Hp & Hd) _] (Hid & Hst & Hc) Hnew. cbn in Hp. pose proof Hd as [Hlog Hroom [Hpl Hsv] Hcf _ _].
  assert (Version (psConfig p) = 0 \/ Version (psConfig p) = Version C) as Hver.
  { destruct Hcf as [|Hcf]; [by left|right]. by apply (f_equal Version) in Hcf. }
  destruct (NewNode_ok c n p) as (Hok & Hh & He & Hsn & Hro & Hi & Hcfg & Hpcf); try done.
  { by rewrite Hst. }
  { split; [rewrite Hc; lia|lia]. }
  assert (initial_configuration c p = C') as Hinit.
  { unfold initial_configuration. rewrite Hc. rewrite (proj2 (Z.eqb_neq (Version C) 0)) by lia.
    destruct (Z.eqb_spec (Version (psConfig p)) 0) as [Hz|Hz]; [done|]. by destruct Hcf. }
  rewrite Hinit in *. split.
  - destruct (no_stored _ Hok) as (q & Hq & Hqh & Hqs & Hqe & Hqc). cbn in Hqh, Hqs, Hqe, Hqc.
    exists q. split; [done|]. destruct Hd. split; rewrite ?Hqh, ?Hh; try done.
    + destruct Hlog. split; rewrite ?Hqh, ?Hqs, ?Hqe, ?Hh, ?Hsn, ?He; done.
    + unfold ps_lastIndex in *. by rewrite Hqe, Hqs, He, Hsn.
    + split; [by rewrite Hqe, He|by rewrite Hqs, Hsn].
    + destruct Hqc as [Hqc|]; [right|by left]. rewrite Hqc, Hpcf. apply normalize_idem.
  - intros _. split_and!; [done|congruence| |by unfold earned; cbn; rewrite Hro].
    split; [done|]. cbn. rewrite Hpcf. split; [apply normalize_idem|]. split; [by rewrite He|by rewrite Hsn].
Qed.

Lemma Inv_update V V' w i pr ms :
  Inv V w -> V ⊆ V' -> (forall j p, i <> j -> disk_ok V j p -> disk_ok V' j p) ->
  proc_ok V' i pr -> net_ok V' ms ->
  Inv V' {| procs := <[i := pr]> (procs w); net := net w ++ ms |}.
Proof using.
  intros [Hp Hn] Hsub Hoth Hpr Hms. split; cbn.
  - intros j pr' [[<- <-]|[Hij Hj]]%lookup_insert_Some; [done|].
    eapply proc_ok_mono; [done| |by apply Hp]. intros p. by apply Hoth.
  - intros m [Hm|Hm]%elem_of_app; [by apply (net_ok_mono V V' (net w))|by apply Hms].
Qed.

Lemma Inv_step V w w' : Inv V w -> wstep w w' -> exists V', Inv V' w'.
Proof using Laws HCv.
  intros Hinv Hstep. pose proof Hinv as [Hp Hn].
  assert (forall i pr, proc_ok V i pr -> Inv V {| procs := <[i := pr]> (procs w); net := net w |}) as Hone.
  { intros i pr Hpr. rewrite <- (app_nil_r (net w)). apply (Inv_update V V); auto.
    by intros m ?%not_elem_of_nil. }
  destruct Hstep as [i n o r n' Hi Hin Hnc Hroom Hrun|i n Hi|i st c n Hi Hc Hnew].
  - destruct (fatal n) as [e|] eqn:Hf.
    + destruct (poisoned_op o n e r n' Hf Hrun) as (-> & -> & Hst & Hf'). exists V. rewrite app_nil_r.
      apply Hone. eapply proc_ok_poisoned; eauto.
    + destruct (op_preserves V i n o r n' (net w)) as (V' & ? & ? & ? & ?); auto.
      exists V'. by apply (Inv_update V V').
  - exists V. apply Hone. destruct (Hp _ _ Hi) as [Hd _]. by split.
  - exists V. apply Hone. eapply restart_ok; eauto.
Qed.

Lemma Inv_reachable w : reachable w -> exists V, Inv V w.
Proof using Laws HCv.
  intros (w0 & [Hn Hp] & Hr).
  assert (exists V, Inv V w0) as Hinv.
  { exists ∅. split; [|rewrite Hn; by intros m ?%not_elem_of_nil].
    intros i pr Hi. destruct (Hp i pr Hi) as (st & -> & Hst). split; [|done].
    exists zero_state. split; [done|]. split; try done.
    - split; cbn; try done; constructor.
    - split; [constructor|cbn; lia].
    - by left. }
  clear Hn Hp. induction Hr as [|w0 w1 w Hstep Hr IH]; [done|]. apply IH.
  destruct Hinv as [V HV]. by eapply Inv_step.
Qed.

(** ** Election safety *)

Lemma elected_unique V t c c' : elected V t c false -> elected V t c' false -> c = c'.
Proof using HC.
  intros H1 H2. destruct (quorum_common C' _ _ (proj2 (config_ok_normalize C) HC) H1 H2) as (k & _ & Hk & Hk').
  apply bool_decide_eq_true in Hk, Hk'. destruct Hk as [Hk|[? _]]; [|done].
  destruct Hk' as [Hk'|[? _]]; [|done]. congruence.
Qed.

Lemma leader_elected V w i n :
  Inv V w -> procs w !! i = Some (Up n) -> fatal n = None -> role n = Leader -> elected V (term n) i false.
Proof using.
  intros Hinv Hi Hf Hr. destruct (inv_procs _ _ Hinv _ _ Hi) as [_ Hup].
  destruct (Hup Hf) as (_ & <- & _ & He). unfold earned in He. cbn in He. by rewrite Hr in He.
Qed.

(** C1. Election safety: in every reachable state of a group with fixed
    membership, whose logs stay below the largest index, at most one healthy
    node leads a term. *)
Theorem election_safety w i j n1 n2 :
  reachable w -> procs w !! i = Some (Up n1) -> procs w !! j = Some (Up n2) ->
  fatal n1 = None -> fatal n2 = None -> role n1 = Leader -> role n2 = Leader ->
  term n1 = term n2 -> i = j.
Proof using Laws HC HCv.
  intros [V Hinv]%Inv_reachable Hi Hj Hf1 Hf2 Hr1 Hr2 Ht.
  eapply elected_unique; [by eapply leader_elected|]. rewrite Ht. by eapply leader_elected.
Qed.

Definition from_leader (m : Message) : Prop := mType m = AppendEntries \/ mType m = InstallSnapshot.

(** C22. All replication messages of a term come from one node, over the whole
    history of the network. *)
Theorem leader_messages_agree w m1 m2 :
  reachable w -> m1 ∈ net w -> m2 ∈ net w -> from_leader m1 -> from_leader m2 ->
  mTerm m1 = mTerm m2 -> mFrom m1 = mFrom m2.
Proof using Laws HC HCv.
  intros [V [_ Hn]]%Inv_reachable H1 H2 Hl1 Hl2 Ht.
  destruct (Hn m1 H1) as (_ & _ & _ & He1). destruct (Hn m2 H2) as (_ & _ & _ & He2).
  specialize (He1 Hl1). specialize (He2 Hl2). rewrite Ht in He1. by eapply elected_unique.
Qed.

(** The invariant RAFT-1 is never violated at run time: no delivery of a
    message of the network makes a node panic because it sees a second leader
    of its own term. *)
Theorem raft1_never_fires w i n o :
  reachable w -> procs w !! i = Some (Up n) -> fatal n = None ->
  (forall m, o = OpStep m -> m ∈ net w) -> (forall c, o <> OpProposeConfiguration c) ->
  room (view n) -> fst (run_op o n) <> Panic 1.
Proof using Laws HC HCv.
  intros [V Hinv]%Inv_reachable Hi Hf Hin Hnc Hroom Hpan. pose proof Hinv as [Hp Hn].
  destruct (run_op o n) as [r n'] eqn:Hrun. cbn in Hpan. subst r.
  destruct (op_reaches V i n o (Panic 1) n' (net w)) as (s' & V' & Hre & m & Hm & Ht & Hty & Hr & Hfrom); auto.
  apply Hfrom. destruct Hre as [_ _ _ He Hsub _ _ _ _].
  assert (m ∈ net w) as Hmn by (destruct o; try done; injection Hm as <-; by apply Hin).
  destruct (Hn m Hmn) as (_ & _ & _ & Hel). specialize (Hel Hty).
  unfold earned in He. rewrite Hr in He. rewrite Ht in Hel.
  eapply elected_unique; [eapply elected_mono; [|exact Hel]; done|exact He].
Qed.
End cluster.

(** ** An executable schedule, for the witnesses *)

Inductive sched :=
  | Run (i : NodeID) (o : op)
  | Deliver (k : nat)
  | Crash (i : NodeID)
  | Restart (i : NodeID).

Definition test_cluster : Configuration :=
  {| Version := 1; OldVoters := [1;2;3]; NewVoters := []; Learners := [] |}.
Definition test_start (i : NodeID) (st : @St test_env) : @Config test_env :=
  @Build_Config test_env i [1;2;3] 5 5 1 tt st ([] : list bytes) test_cluster false.

(** Room and membership are checked before an operation runs. *)
Definition allowed (o : op) (n : @Node test_env) : bool :=
  (lastIndex n + 1 <? MaxUint64) && match o with OpProposeConfiguration _ | OpStep _ => false | _ => true end.
Definition run_on (i : NodeID) (o : op) (n : @Node test_env) (w : @World test_env) : @World test_env :=
  let '(r, n') := run_op o n in
  {| procs := <[i := after r n']> (procs w); net := net w ++ outputs r |}.
Definition exec_step (w : @World test_env) (c : sched) : option World :=
  match c with
  | Run i o =>
      match procs w !! i with
      | Some (Up n) => if allowed o n then Some (run_on i o n w) else None
      | _ => None
      end
  | Deliver k =>
      m ← net w !! k;
      match procs w !! mTo m with
      | Some (Up n) => if lastIndex n + 1 <? MaxUint64 then Some (run_on (mTo m) (OpStep m) n w) else None
      | _ => None
      end
  | Crash i =>
      match procs w !! i with
      | Some (Up n) => Some {| procs := <[i := Down (store n)]> (procs w); net := net w |}
      | _ => None
      end
  | Restart i =>
      match procs w !! i with
      | Some (Down st) =>
          match NewNode (test_start i st) with
          | Ret n => Some {| procs := <[i := Up n]> (procs w); net := net w |}
          | _ => None
          end
      | _ => None
      end
  end.
Fixpoint exec_all (w : @World test_env) (cs : list sched) : option World :=
  match cs with
  | [] => Some w
  | c :: cs' => match exec_step w c with Some w' => exec_all w' cs' | None => None end
  end.

Lemma exec_step_sound w c w' : exec_step w c = Some w' -> wstep test_cluster w w'.
Proof.
  destruct c as [i o|k|i|i]; cbn [exec_step].
  - destruct (procs w !! i) as [[n|]|] eqn:Hi; [|done..]. destruct (allowed o n) eqn:Ha; [|done].
    apply andb_true_iff in Ha as [Hroom Ho]. unfold run_on. destruct (run_op o n) as [r n'] eqn:Hr.
    intros [= <-]. eapply w_op; eauto; [by intros m ->|by intros c ->|]. apply Z.ltb_lt, Hroom.
  - destruct (net w !! k) as [m|] eqn:Hm; [|done]. cbn.
    destruct (procs w !! mTo m) as [[n|]|] eqn:Hi; [|done..].
    destruct (Z.ltb_spec (lastIndex n + 1) MaxUint64); [|done]. unfold run_on.
    destruct (run_op (OpStep m) n) as [r n'] eqn:Hr. intros [= <-].
    eapply w_op; eauto; [|done]. intros ? [= <-]. by eapply list_elem_of_lookup_2.
  - destruct (procs w !! i) as [[n|]|] eqn:Hi; [|done..]. intros [= <-]. by apply w_crash.
  - destruct (procs w !! i) as [[|st]|] eqn:Hi; [done| |done].
    destruct (NewNode (test_start i st)) as [n| |] eqn:Hn; [|done..]. intros [= <-].
    eapply w_restart; eauto. by split_and!.
Qed.

Definition cold : @World test_env :=
  {| procs := <[1 := Down (NewMemoryStore : @St test_env)]> (<[2 := Down (NewMemoryStore : @St test_env)]>
       (<[3 := Down (NewMemoryStore : @St test_env)]> ∅)); net := [] |}.

Lemma exec_reachable cs w : exec_all cold cs = Some w -> reachable test_cluster w.
Proof.
  intros Hex. exists cold. split.
  - split; [done|]. intros i pr. cbn. rewrite !lookup_insert_Some.
    intros [[_ <-]|[_ [[_ <-]|[_ [[_ <-]|[_ ?]]]]]]; [eauto..|by rewrite lookup_empty in *].
  - revert Hex. generalize cold. induction cs as [|c cs IH]; intros w0; cbn [exec_all].
    { intros [= <-]. apply rtc_refl. }
    destruct (exec_step w0 c) as [w1|] eqn:Hs; [|done]. intros Hex.
    eapply rtc_l; [by apply exec_step_sound in Hs|auto].
Qed.

(** Nodes 1 and 2 start, node 1 times out and is elected with the vote of
    node 2, and node 2 crashes and restarts. *)
Definition election_schedule : list sched :=
  [Restart 1; Restart 2; Run 1 OpTick; Run 1 OpTick; Run 1 OpTick; Run 1 OpTick; Run 1 OpTick;
   Deliver 0; Deliver 2; Crash 2; Restart 2].

(** What the witnesses read off the world the schedule reaches. *)
Definition up_fields (w : @World test_env) (i : NodeID) : option (Role * Z * bool) :=
  match procs w !! i with
  | Some (Up n) => Some (role n, term n, match fatal n with None => true | _ => false end)
  | _ => None
  end.
Definition after_election : option (Role * Z * bool) :=
  match exec_all cold election_schedule with Some w => up_fields w 1 | None => None end.

Lemma after_election_value : after_election = Some (Leader, 1, true).
Proof. vm_compute. reflexivity. Qed.

Lemma test_cluster_ok : config_ok test_cluster.
Proof. apply validateConfiguration_spec. vm_compute. reflexivity. Qed.

(** The elected world, its leader and two of its messages. *)
Lemma elected_world : exists (w : @World test_env) (n : @Node test_env) (m : Message),
  reachable test_cluster w /\ procs w !! 1 = Some (Up n) /\ fatal n = None /\ role n = Leader /\
  room (view n) /\ m ∈ net w /\ from_leader m.
Proof.
  pose proof after_election_value as Hv.
  assert (match exec_all cold election_schedule with
          | Some w => (map mType (net w) !! 4%nat, lastIndex <$> match procs w !! 1 with Some (Up n) => Some n | _ => None end)
          | None => (None, None) end = (Some AppendEntries, Some 1)) as Hm by (vm_compute; reflexivity).
  unfold after_election in Hv. destruct (exec_all cold election_schedule) as [w|] eqn:He; [|done].
  unfold up_fields in Hv. destruct (procs w !! 1) as [[n|]|] eqn:Hn; [|done..].
  injection Hm as Hm Hlast. change (map mType (net w)) with (mType <$> net w) in Hm. rewrite list_lookup_fmap in Hm. apply fmap_Some in Hm as (m & Hm & Hty).
  exists w, n, m. split; [by eapply exec_reachable|]. injection Hv as Hr Ht Hf.
  split_and!; [done|by destruct (fatal n)|done| |by eapply list_elem_of_lookup_2|by left].
  unfold room. change (a_last (view n)) with (lastIndex n). rewrite Hlast. vm_compute. done.
Qed.

Lemma election_safety_witness : exists (w : @World test_env) (n : @Node test_env),
  reachable test_cluster w /\ procs w !! 1 = Some (Up n) /\ role n = Leader /\
  forall j n', procs w !! j = Some (Up n') -> fatal n' = None -> role n' = Leader -> term n = term n' -> 1 = j.
Proof.
  destruct elected_world as (w & n & _ & Hw & Hn & Hf & Hr & _). exists w, n. split_and!; try done.
  intros j n' Hj Hf' Hr' Ht.
  exact (election_safety test_cluster test_cluster_ok eq_refl w 1 j n n' Hw Hn Hj Hf Hf' Hr Hr' Ht).
Defined.

Lemma leader_messages_agree_witness : exists (w : @World test_env) (m : Message),
  reachable test_cluster w /\ m ∈ net w /\ from_leader m /\
  forall m', m' ∈ net w -> from_leader m' -> mTerm m = mTerm m' -> mFrom m = mFrom m'.
Proof.
  destruct elected_world as (w & n & m & Hw & _ & _ & _ & _ & Hm & Hl). exists w, m. split_and!; try done.
  intros m' Hm' Hl' Ht. exact (leader_messages_agree test_cluster test_cluster_ok eq_refl w m m' Hw Hm Hm' Hl Hl' Ht).
Defined.

Lemma raft1_never_fires_witness : exists (w : @World test_env) (n : @Node test_env),
  reachable test_cluster w /\ procs w !! 1 = Some (Up n) /\
  fst (run_op OpTick n) <> Panic 1.
Proof.
  destruct elected_world as (w & n & _ & Hw & Hn & Hf & _ & Hroom & _). exists w, n. split_and!; try done.
  apply (raft1_never_fires test_cluster test_cluster_ok eq_refl w 1 n OpTick Hw Hn Hf); [done|done|exact Hroom].
Defined.
