(* ===== verification/Crc32c.v ===== *)
(** * CRC-32C (hash/crc32 with the Castagnoli table)

    The checksum of WAL fragments, table blocks, manifest records and Raft
    state files.  [crc32_update] is Go's simple table algorithm; the entries
    of the table are computed by [table_entry].  The main fact is that a
    change of one byte of the input always changes the checksum. *)

From S2P Require Import Prelude.

(** The reversed Castagnoli polynomial. *)
Definition Castagnoli : Z := 0x82f63b78.

Definition poly_step (crc : Z) : Z :=
  if Z.testbit crc 0 then Z.lxor (Z.shiftr crc 1) Castagnoli else Z.shiftr crc 1.
(** Entry [i] of [crc32.MakeTable(crc32.Castagnoli)]. *)
Definition table_entry (i : Z) : Z := Nat.iter 8 poly_step i.

(** [^crc] on uint32. *)
Definition u32_not (z : Z) : Z := Z.lxor z MaxUint32.

(** One byte: [tab[byte(crc)^v] ^ (crc >> 8)]. *)
Definition crc_byte (crc : Z) (v : byte) : Z :=
  Z.lxor (table_entry (Z.lxor (Z.land crc 255) (byte.unsigned v))) (Z.shiftr crc 8).
Definition crc32_update (crc : Z) (p : bytes) : Z := u32_not (foldl crc_byte (u32_not crc) p).
Definition crc32_checksum (p : bytes) : Z := crc32_update 0 p.

(** The check value of CRC-32C. *)
Example crc32_check : crc32_checksum (map (fun z => byte.of_Z z) [49;50;51;52;53;54;55;56;57]) = 0xe3069283.
Proof. vm_compute. reflexivity. Qed.

(** [Update] continues a checksum. *)
Lemma u32_not_involutive z : u32_not (u32_not z) = z.
Proof. unfold u32_not. by rewrite Z.lxor_assoc, Z.lxor_nilpotent, Z.lxor_0_r. Qed.

Lemma crc32_update_app crc a b : crc32_update (crc32_update crc a) b = crc32_update crc (a ++ b).
Proof. unfold crc32_update. by rewrite u32_not_involutive, foldl_app. Qed.

(** ** Range *)

(** A number below [2 ^ n] is one without bits from [n] on. *)
Lemma bits_below z n : 0 <= n -> 0 <= z -> (forall i, n <= i -> Z.testbit z i = false) -> z < 2 ^ n.
Proof.
  intros Hn Hz Hb. destruct (Z.eq_dec z 0) as [->|Hne]; [apply Z.pow_pos_nonneg; lia|].
  apply Z.log2_lt_pow2; [lia|]. destruct (Z.lt_ge_cases (Z.log2 z) n) as [|Hge]; [done|].
  specialize (Hb _ Hge). rewrite Z.bit_log2 in Hb by lia. done.
Qed.
Lemma testbit_above z n i : 0 <= z < 2 ^ n -> n <= i -> Z.testbit z i = false.
Proof.
  intros Hz Hi. destruct (Z.lt_ge_cases n 0) as [Hn|Hn].
  { rewrite Z.pow_neg_r in Hz by lia. lia. }
  rewrite <- (Z.mod_small z (2 ^ n)) by done. by apply Z.mod_pow2_bits_high.
Qed.
Lemma lxor_range a b n : 0 <= n -> 0 <= a < 2 ^ n -> 0 <= b < 2 ^ n -> 0 <= Z.lxor a b < 2 ^ n.
Proof.
  intros Hn Ha Hb. assert (0 <= Z.lxor a b) as H0 by (apply Z.lxor_nonneg; lia).
  split; [done|]. apply bits_below; [done|done|]. intros i Hi. rewrite Z.lxor_spec.
  by rewrite !(testbit_above _ n) by done.
Qed.

Lemma poly_step_range z : is_u32 z -> is_u32 (poly_step z).
Proof.
  unfold is_u32, poly_step. intros Hz. assert (0 <= Z.shiftr z 1 < 2 ^ 32) as Hs.
  { rewrite Z.shiftr_div_pow2 by lia. change (2 ^ 1) with 2. split; [apply Z.div_pos; lia|].
    apply Z.div_lt_upper_bound; lia. }
  destruct (Z.testbit z 0); [|done]. by apply lxor_range.
Qed.
Lemma table_entry_range z : is_u32 z -> is_u32 (table_entry z).
Proof. intros Hz. unfold table_entry. cbn [Nat.iter]. by repeat apply poly_step_range. Qed.

Lemma low_byte_range crc v : 0 <= Z.lxor (Z.land crc 255) (byte.unsigned v) < 256.
Proof.
  apply (lxor_range _ _ 8); [lia| |apply byte.unsigned_range].
  change 255 with (Z.ones 8). rewrite Z.land_ones by lia. by apply Z.mod_pos_bound.
Qed.
Lemma shiftr8_range crc : is_u32 crc -> 0 <= Z.shiftr crc 8 < 2 ^ 24.
Proof.
  intros [H0 H1]. rewrite Z.shiftr_div_pow2 by lia. split; [by apply Z.div_pos|].
  apply Z.div_lt_upper_bound; lia.
Qed.
Lemma crc_byte_range crc v : is_u32 crc -> is_u32 (crc_byte crc v).
Proof.
  intros Hc. unfold crc_byte. pose proof (low_byte_range crc v). pose proof (shiftr8_range crc Hc).
  apply lxor_range; [done| |lia]. apply table_entry_range. unfold is_u32. lia.
Qed.
Lemma u32_not_range z : is_u32 z -> is_u32 (u32_not z).
Proof. intros Hz. by apply lxor_range. Qed.
Lemma foldl_crc_range crc p : is_u32 crc -> is_u32 (foldl crc_byte crc p).
Proof. revert crc. induction p as [|v p IH]; intros crc Hc; [done|]. cbn. by apply IH, crc_byte_range. Qed.
Lemma crc32_update_range crc p : is_u32 crc -> is_u32 (crc32_update crc p).
Proof. intros Hc. by apply u32_not_range, foldl_crc_range, u32_not_range. Qed.
Lemma crc32_checksum_range p : is_u32 (crc32_checksum p).
Proof. by apply crc32_update_range. Qed.

(** ** A single changed byte is always detected *)

(** The top bytes of the 256 table entries are distinct. *)
Definition top_byte (i : nat) : Z := Z.shiftr (table_entry (Z.of_nat i)) 24.
Lemma top_bytes_distinct : NoDup (map top_byte (seq 0 256)).
Proof. apply (bool_decide_unpack _). vm_compute. exact I. Qed.

Lemma table_entry_inj a b :
  0 <= a < 256 -> 0 <= b < 256 ->
  Z.shiftr (table_entry a) 24 = Z.shiftr (table_entry b) 24 -> a = b.
Proof.
  intros Ha Hb He. pose proof top_bytes_distinct as Hd. rewrite NoDup_alt in Hd.
  assert (forall c, 0 <= c < 256 ->
    map top_byte (seq 0 256) !! Z.to_nat c = Some (Z.shiftr (table_entry c) 24)) as Hl.
  { intros c Hc. change (map top_byte (seq 0 256)) with (top_byte <$> seq 0 256).
    rewrite list_lookup_fmap, lookup_seq_lt by lia. cbn. unfold top_byte. by rewrite Z2Nat.id by lia. }
  pose proof (Hl a Ha) as H1. pose proof (Hl b Hb) as H2. rewrite <- He in H2.
  specialize (Hd _ _ _ H1 H2). lia.
Qed.

Lemma crc_byte_top crc v :
  is_u32 crc -> Z.shiftr (crc_byte crc v) 24 = Z.shiftr (table_entry (Z.lxor (Z.land crc 255) (byte.unsigned v))) 24.
Proof.
  intros Hc. unfold crc_byte. rewrite Z.shiftr_lxor, Z.shiftr_shiftr by lia.
  rewrite (Z.shiftr_div_pow2 crc) by lia. rewrite (Z.div_small crc) by apply Hc. apply Z.lxor_0_r.
Qed.

(** The state after a byte determines the state before, and the byte. *)
Lemma lxor_cancel_l a b c : Z.lxor a b = Z.lxor a c -> b = c.
Proof.
  intros H. apply (f_equal (Z.lxor a)) in H. by rewrite <- !Z.lxor_assoc, Z.lxor_nilpotent, !Z.lxor_0_l in H.
Qed.
Lemma crc_byte_inj c1 c2 v1 v2 :
  is_u32 c1 -> is_u32 c2 -> crc_byte c1 v1 = crc_byte c2 v2 ->
  Z.lxor (Z.land c1 255) (byte.unsigned v1) = Z.lxor (Z.land c2 255) (byte.unsigned v2) /\
  Z.shiftr c1 8 = Z.shiftr c2 8.
Proof.
  intros H1 H2 He. assert (Z.lxor (Z.land c1 255) (byte.unsigned v1) = Z.lxor (Z.land c2 255) (byte.unsigned v2)) as Hi.
  { apply table_entry_inj; [apply low_byte_range..|]. by rewrite <- !crc_byte_top, He. }
  split; [done|]. unfold crc_byte in He. rewrite Hi in He. by apply lxor_cancel_l in He.
Qed.

Lemma crc_byte_state_inj c1 c2 v : is_u32 c1 -> is_u32 c2 -> crc_byte c1 v = crc_byte c2 v -> c1 = c2.
Proof.
  intros H1 H2 He. destruct (crc_byte_inj c1 c2 v v H1 H2 He) as [Hl Hh].
  rewrite !(Z.lxor_comm _ (byte.unsigned v)) in Hl. apply lxor_cancel_l in Hl.
  change 255 with (Z.ones 8) in Hl. rewrite !Z.land_ones in Hl by lia.
  rewrite !Z.shiftr_div_pow2 in Hh by lia. rewrite (Z.div_mod c1 (2 ^ 8)), (Z.div_mod c2 (2 ^ 8)) by done. lia.
Qed.
Lemma foldl_crc_inj c1 c2 p : is_u32 c1 -> is_u32 c2 -> foldl crc_byte c1 p = foldl crc_byte c2 p -> c1 = c2.
Proof.
  revert c1 c2. induction p as [|v p IH]; intros c1 c2 H1 H2 He; [done|]. cbn in He.
  apply IH in He; [|by apply crc_byte_range..]. by eapply crc_byte_state_inj.
Qed.

Lemma u32_not_inj a b : u32_not a = u32_not b -> a = b.
Proof. intros H. by rewrite <- (u32_not_involutive a), H, u32_not_involutive. Qed.

(** Two inputs that differ in exactly one byte have different CRC-32C
    checksums, whatever precedes and follows that byte. *)
Lemma crc32_detects_byte_error crc pre post a b :
  is_u32 crc -> a <> b -> crc32_update crc (pre ++ a :: post) <> crc32_update crc (pre ++ b :: post).
Proof.
  intros Hc Hne He. apply Hne. unfold crc32_update in He. apply u32_not_inj in He.
  rewrite !foldl_app in He. cbn in He. set (c := foldl crc_byte (u32_not crc) pre) in *.
  assert (is_u32 c) as Hcc by (apply foldl_crc_range; by apply u32_not_range).
  apply foldl_crc_inj in He; [|by apply crc_byte_range..].
  apply crc_byte_inj in He as [He _]; [|done..]. apply lxor_cancel_l in He. by apply byte_unsigned_inj.
Qed.

Lemma crc32_checksum_update p : crc32_checksum p = crc32_update 0 p.
Proof. done. Qed.

#[global] Opaque crc32_update crc32_checksum.
