(* ===== verification/Files.v ===== *)
(** * Files as the storage packages see them

    The interfaces [writableFile] and [syncCloser] that storage/wal and
    storage/sstable write through, with the documented behaviour of
    [io.Writer] and [os.File] as laws, and the [io.ReaderAt] that
    storage/sstable reads through. *)

From S2P Require Import Prelude.

(** The interfaces [writableFile] and [syncCloser]: [Write] returns a count
    and whether there was an error. *)
Class WritableFile := {
  File : Type;
  Dir : Type;
  file_write : File -> bytes -> File * (Z * bool);
  file_sync : File -> File * bool;
  file_close : File -> File * bool;
  dir_sync : Dir -> bool;
  dir_close : Dir -> bool
}.

(** What the writer relies on ([io.Writer], [os.File]): the first [n] bytes
    are appended; [Sync] and [Close] keep the contents.  [durable] is how many bytes survive a crash of the machine:
    it never shrinks, and a successful [Sync] makes it cover the file. *)
Class FileLaws `{WritableFile} := {
  contents : File -> bytes;
  durable : File -> Z;
  write_contents : forall f data f' n err, file_write f data = (f', (n, err)) ->
    0 <= n <= len data /\ contents f' = contents f ++ take (Z.to_nat n) data /\ durable f <= durable f';
  sync_contents : forall f f' err, file_sync f = (f', err) ->
    contents f' = contents f /\ durable f <= durable f' /\
    (err = false -> durable f' = len (contents f));
  close_contents : forall f f' err, file_close f = (f', err) ->
    contents f' = contents f /\ durable f <= durable f'
}.

(** ** [io.ReaderAt]

    A file of known contents whose reads may fail: [Impossible] is a count
    outside of the buffer, [Failed] an error that is not an end of file,
    [Truncated] a short read.  Without a fault, [os.File.ReadAt] fills the
    buffer or reports an end of file.  The faults may change once: [ra_later]
    are those of the reads after the file was opened and validated. *)
Inductive read_fault := Impossible | Failed | Truncated.
Record randomAccessFile := { ra_bytes : bytes; ra_fault : Z -> Z -> option read_fault; ra_later : Z -> Z -> option read_fault }.
Definition ReadAt (f : randomAccessFile) (offset n : Z) : bytes + read_fault :=
  match ra_fault f offset n with
  | Some fault => inr fault
  | None =>
      if offset + n <=? len (ra_bytes f) then inl (slice (Z.to_nat offset) (Z.to_nat (offset + n)) (ra_bytes f))
      else inr Truncated
  end.
(** A file that is read without faults. *)
Definition healthy (b : bytes) : randomAccessFile := {| ra_bytes := b; ra_fault := fun _ _ => None; ra_later := fun _ _ => None |}.
(** The file as it is read from then on. *)
Definition later (f : randomAccessFile) : randomAccessFile := {| ra_bytes := ra_bytes f; ra_fault := ra_later f; ra_later := ra_later f |}.

(** ** A file on a disk of bounded capacity *)

Record disk := { d_bytes : bytes; d_synced : Z; d_capacity : Z }.
Definition disk_file : WritableFile := {|
  File := disk;
  Dir := unit;
  file_write f data :=
    let n := Z.max 0 (Z.min (len data) (d_capacity f - len (d_bytes f))) in
    ({| d_bytes := d_bytes f ++ take (Z.to_nat n) data; d_synced := d_synced f; d_capacity := d_capacity f |},
     (n, n <? len data));
  file_sync f := ({| d_bytes := d_bytes f; d_synced := Z.max (d_synced f) (len (d_bytes f)); d_capacity := d_capacity f |},
     len (d_bytes f) <? d_synced f);
  file_close f := (f, false);
  dir_sync _ := false;
  dir_close _ := false
|}.
Program Definition disk_laws : @FileLaws disk_file := {| contents := d_bytes; durable := d_synced |}.
Next Obligation.
  intros f dat f' n e [= <- <- <-]. cbn. pose proof (len_nonneg dat). split_and!; [lia..|done|lia].
Qed.
Next Obligation.
  intros f f' e [= <- <-]. cbn. split_and!; [done|lia|lia].
Qed.
Next Obligation. by intros f f' e [= <- <-]. Qed.
