(* ===== verification/Wal.v ===== *)
(** * The write-ahead log (storage/wal)

    Physical format (format.go), writer (writer.go), reader (reader.go) and
    recovery (recovery.go).  A record is cut into fragments of 32 KiB blocks,
    each with a checksummed header; the unusable end of a block is zero
    padding.  The writer's file is the injected interface [writableFile]; the
    reader's source is a byte string with injected read errors. *)

From S2P Require Import Prelude Batch Crc32c Files.

(** ** format.go, errors.go *)

Definition BlockSize : Z := Z.shiftl 32 10.
Definition HeaderSize : Z := 11.
Definition formatVersion : byte := Byte.x00.

Inductive wal_error :=
  | ErrHeaderChecksumMismatch | ErrChecksumMismatch | ErrUnsupportedVersion
  | ErrInvalidFragmentType | ErrInvalidLength | ErrInvalidPadding | ErrRecordTooLarge
  | ErrTruncatedTail | ErrNoTruncatedTail | ErrRecoveryStateChanged | ErrClosedWriter
  | ErrWriterFailed | ErrInvalidDurability | ErrInvalidReader | ErrInvalidSize
  | ErrShortWrite | ErrUnexpectedEOF | ErrIO | ErrConsume.
#[export] Instance wal_error_eq_dec : EqDecision wal_error.
Proof. solve_decision. Defined.

(** [fragmentKind]: a byte; the four kinds are 1 to 4. *)
Definition fragmentFull : Z := 1.
Definition fragmentFirst : Z := 2.
Definition fragmentMiddle : Z := 3.
Definition fragmentLast : Z := 4.

(** The last three header bytes (length and kind), which the header checksum
    covers. *)
Definition header_tail (payload : bytes) (kind : Z) : bytes :=
  le_put 2 (u16 (len payload)) ++ [byte.of_Z (Z.lor kind (Z.shiftl (byte.unsigned formatVersion) 4))].
Definition makeHeader (payload : bytes) (kind : Z) : bytes :=
  let tail := header_tail payload kind in
  let headerCRC := crc32_checksum tail in
  let contentCRC := crc32_update headerCRC payload in
  le_put 4 contentCRC ++ le_put 4 headerCRC ++ tail.

(** ** writer.go *)

(** [type Durability uint8] *)

Definition SyncBatch : Z := 0.
Definition SyncNone : Z := 1.
Definition durability_valid (d : Z) : bool := (d =? SyncBatch) || (d =? SyncNone).

Record Position := { Start : Z; End : Z }.
#[export] Instance Position_eq_dec : EqDecision Position.
Proof. solve_decision. Defined.

Section writer.
Context `{WritableFile}.

Record Writer := mkWriter {
  file : File;
  directory : option Dir;
  offset : Z;
  durability : Z;
  closed : bool;
  failed : option (list wal_error);
  closeErr : option (list wal_error)
}.

Definition newWriterWithDirectory (f : File) (d : option Dir) (o : Z) (dur : Z) : Writer :=
  mkWriter f d o dur false None None.
Definition newWriter (f : File) (o : Z) (dur : Z) : Writer := newWriterWithDirectory f None o dur.

Definition set_file (f : File) (o : Z) (w : Writer) : Writer :=
  mkWriter f (directory w) o (durability w) (closed w) (failed w) (closeErr w).
Definition set_directory (d : option Dir) (w : Writer) : Writer :=
  mkWriter (file w) d (offset w) (durability w) (closed w) (failed w) (closeErr w).
Definition poison (cause : list wal_error) (w : Writer) : Writer * list wal_error :=
  let e := ErrWriterFailed :: cause in
  (mkWriter (file w) (directory w) (offset w) (durability w) (closed w) (Some e) (closeErr w), e).

(** [writeAll]; [None] is success.  Every iteration that does not return
    writes at least one byte. *)
Fixpoint write_loop (fuel : nat) (data : bytes) (w : Writer) : Writer * option (list wal_error) :=
  match fuel with
  | O => (w, None)
  | S fu =>
      match data with
      | [] => (w, None)
      | _ =>
          let '(f', (n, err)) := file_write (file w) data in
          if (n <? 0) || (len data <? n) then
            let '(w', e) := poison [ErrShortWrite] (set_file f' (offset w) w) in (w', Some e)
          else
            let w1 := set_file f' (offset w + n) w in
            let data' := drop (Z.to_nat n) data in
            if err : bool then let '(w', e) := poison [ErrIO] w1 in (w', Some e)
            else if n =? 0 then let '(w', e) := poison [ErrShortWrite] w1 in (w', Some e)
            else write_loop fu data' w1
      end
  end.
Definition writeAll (data : bytes) (w : Writer) : Writer * option (list wal_error) :=
  write_loop (length data) data w.

Definition syncLocked (w : Writer) : Writer * option (list wal_error) :=
  let '(f', err) := file_sync (file w) in
  let w := set_file f' (offset w) w in
  if err : bool then let '(w', e) := poison [ErrIO] w in (w', Some e)
  else
    match directory w with
    | None => (w, None)
    | Some d =>
        if dir_sync d then let '(w', e) := poison [ErrIO] w in (w', Some e)
        else
          let w := set_directory None w in
          if dir_close d then let '(w', e) := poison [ErrIO] w in (w', Some e)
          else (w, None)
    end.

Definition chooseFragmentKind (first last : bool) : Z :=
  if first && last then fragmentFull
  else if first then fragmentFirst
  else if last then fragmentLast
  else fragmentMiddle.

(** The loop of [Append]: [rest] is [payload[consumed:]]. *)
Fixpoint append_fragments (fuel : nat) (first : bool) (start : Z) (rest : bytes) (w : Writer)
    : Writer * result (list wal_error) Z :=
  match fuel with
  | O => (w, Ok start)
  | S fu =>
      if negb first && (len rest =? 0) then (w, Ok start)
      else
        let blockRemaining := BlockSize - offset w mod BlockSize in
        let '(w, err, blockRemaining) :=
          if blockRemaining <? HeaderSize then
            let '(w, err) := writeAll (replicate (Z.to_nat blockRemaining) Byte.x00) w in
            (w, err, BlockSize)
          else (w, None, blockRemaining) in
        match err with
        | Some e => (w, Err e)
        | None =>
            let start := if first then offset w else start in
            let fragmentLength := Z.min (len rest) (blockRemaining - HeaderSize) in
            let last := fragmentLength =? len rest in
            let kind := chooseFragmentKind first last in
            let fragment := take (Z.to_nat fragmentLength) rest in
            match writeAll (makeHeader fragment kind) w with
            | (w, Some e) => (w, Err e)
            | (w, None) =>
                match writeAll fragment w with
                | (w, Some e) => (w, Err e)
                | (w, None) =>
                    append_fragments fu false start (drop (Z.to_nat fragmentLength) rest) w
                end
            end
        end
  end.

(** A fragment may be empty only at the end of a block, so the loop runs at
    most twice per byte, plus the first fragments. *)
Definition append_fuel (payload : bytes) : nat := 2 * length payload + 2.

Definition Append (payload : bytes) (w : Writer) : Writer * result (list wal_error) Position :=
  if MaxRecordSize <? len payload then (w, Err [ErrRecordTooLarge])
  else if closed w then (w, Err [ErrClosedWriter])
  else
    match failed w with
    | Some e => (w, Err e)
    | None =>
        match append_fragments (append_fuel payload) true 0 payload w with
        | (w, Err e) => (w, Err e)
        | (w, Ok start) =>
            let position := {| Start := start; End := offset w |} in
            if durability w =? SyncBatch then
              match syncLocked w with
              | (w, Some e) => (w, Err e)
              | (w, None) => (w, Ok position)
              end
            else (w, Ok position)
        end
    end.

Definition Sync (w : Writer) : Writer * option (list wal_error) :=
  if closed w then (w, Some [ErrClosedWriter])
  else
    match failed w with
    | Some e => (w, Some e)
    | None => syncLocked w
    end.

(** The joined error of the close calls that failed, [None] when none did. *)
Definition Close (w : Writer) : Writer * option (list wal_error) :=
  if closed w then (w, closeErr w)
  else
    let '(f', e1) := file_close (file w) in
    let e2 := match directory w with Some d => dir_close d | None => false end in
    let errs := (if e1 : bool then [ErrIO] else []) ++ (if e2 : bool then [ErrIO] else []) in
    let err := match errs with [] => None | _ => Some errs end in
    (mkWriter f' None (offset w) (durability w) true (failed w) err, err).

End writer.
Arguments Writer {_}.

(** ** reader.go *)

Inductive scan_error :=
  | Corruption (at_ : Z) (cause : wal_error)
  | ReadFailed (at_ : Z) (cause : wal_error).

Record WalRecord := { Payload : bytes; recordPosition : Position; Number : Z }.
Definition zero_record : WalRecord :=
  {| Payload := []; recordPosition := {| Start := 0; End := 0 |}; Number := 0 |}.
Record Tail := { tailStart : Z; tailEnd : Z }.

(** The source of a reader: its bytes, and the reads that fail. *)
Record Source := { data : bytes; fault : Z -> Z -> bool }.

Record Reader := mkReader {
  reader : Source;
  size : Z;
  closer : option bool;
  r_offset : Z;
  validEnd : Z;
  record : WalRecord;
  number : Z;
  assembly : bytes;
  assembling : bool;
  recordAt : Z;
  tail : option Tail;
  err : option scan_error;
  done_ : bool;
  r_closed : bool;
  r_closeErr : option wal_error
}.

(** [newReader]: the source is never nil here. *)
Definition newReader (src : Source) (size : Z) (closer : option bool) : result (list wal_error) Reader :=
  if size <? 0 then Err [ErrInvalidSize]
  else Ok (mkReader src size closer 0 0 zero_record 0 [] false 0 None None false false None).
Definition NewReader (src : Source) (size : Z) : result (list wal_error) Reader := newReader src size None.

Definition r_set_offset (o : Z) (r : Reader) : Reader :=
  mkReader (reader r) (size r) (closer r) o (validEnd r) (record r) (number r) (assembly r) (assembling r)
    (recordAt r) (tail r) (err r) (done_ r) (r_closed r) (r_closeErr r).
Definition r_set_err (e : scan_error) (r : Reader) : Reader :=
  mkReader (reader r) (size r) (closer r) (r_offset r) (validEnd r) (record r) (number r) (assembly r) (assembling r)
    (recordAt r) (tail r) (Some e) (done_ r) (r_closed r) (r_closeErr r).
Definition r_set_assembly (a : bytes) (b : bool) (at_ : Z) (r : Reader) : Reader :=
  mkReader (reader r) (size r) (closer r) (r_offset r) (validEnd r) (record r) (number r) a b
    at_ (tail r) (err r) (done_ r) (r_closed r) (r_closeErr r).
Definition r_finish (r : Reader) : Reader :=
  mkReader (reader r) (size r) (closer r) (r_offset r) (validEnd r) (record r) (number r) (assembly r) (assembling r)
    (recordAt r) (tail r) (err r) true (r_closed r) (r_closeErr r).

Definition markTail (start : Z) (r : Reader) : Reader :=
  mkReader (reader r) (size r) (closer r) (r_offset r) (validEnd r) (record r) (number r) (assembly r) (assembling r)
    (recordAt r) (Some {| tailStart := start; tailEnd := size r |}) (err r) true (r_closed r) (r_closeErr r).

Definition incompleteStart (r : Reader) : Z := if assembling r then recordAt r else validEnd r.

(** [readFullAt]: [n] bytes at [o], or the error. *)
Definition readFullAt (n o : Z) (r : Reader) : result scan_error bytes :=
  if n =? 0 then Ok []
  else if fault (reader r) o n then Err (ReadFailed o ErrIO)
  else if o + n <=? len (data (reader r))
  then Ok (slice (Z.to_nat o) (Z.to_nat (o + n)) (data (reader r)))
  else Err (ReadFailed o ErrUnexpectedEOF).

Definition consumePadding (blockRemaining : Z) (r : Reader) : Reader * bool :=
  let available := Z.min blockRemaining (size r - r_offset r) in
  match readFullAt available (r_offset r) r with
  | Err e => (r_set_err e r, false)
  | Ok padding =>
      if negb (bytes_eqb padding (replicate (length padding) Byte.x00))
      then (r_set_err (Corruption (r_offset r) ErrInvalidPadding) r, false)
      else
        let r := r_set_offset (r_offset r + available) r in
        if available <? blockRemaining then (markTail (incompleteStart r) r, false)
        else (r, true)
  end.

Definition appendFragment (payload : bytes) (fragmentAt : Z) (r : Reader) : Reader * bool :=
  if MaxRecordSize - len (assembly r) <? len payload
  then (r_set_err (Corruption fragmentAt ErrRecordTooLarge) r, false)
  else (r_set_assembly (assembly r ++ payload) (assembling r) (recordAt r) r, true).

Definition finishRecord (payload : bytes) (start : Z) (r : Reader) : Reader * bool :=
  if MaxRecordSize <? len payload then (r_set_err (Corruption start ErrRecordTooLarge) r, false)
  else
    (mkReader (reader r) (size r) (closer r) (r_offset r) (r_offset r)
       {| Payload := payload; recordPosition := {| Start := start; End := r_offset r |}; Number := number r |}
       (u64 (number r + 1)) (assembly r) (assembling r) (recordAt r) (tail r) (err r) (done_ r)
       (r_closed r) (r_closeErr r), true).

Definition acceptFragment (kind : Z) (payload : bytes) (fragmentAt : Z) (r : Reader) : Reader * bool :=
  if kind =? fragmentFull then
    if assembling r then (r_set_err (Corruption fragmentAt ErrInvalidFragmentType) r, false)
    else finishRecord payload fragmentAt r
  else if kind =? fragmentFirst then
    if assembling r then (r_set_err (Corruption fragmentAt ErrInvalidFragmentType) r, false)
    else (r_set_assembly payload true fragmentAt r, false)
  else if kind =? fragmentMiddle then
    if negb (assembling r) then (r_set_err (Corruption fragmentAt ErrInvalidFragmentType) r, false)
    else (fst (appendFragment payload fragmentAt r), false)
  else if kind =? fragmentLast then
    if negb (assembling r) then (r_set_err (Corruption fragmentAt ErrInvalidFragmentType) r, false)
    else
      match appendFragment payload fragmentAt r with
      | (r, false) => (r, false)
      | (r, true) => finishRecord (assembly r) (recordAt r) (r_set_assembly [] false (recordAt r) r)
      end
  else (r, false).

(** One fragment at [r.offset], from its header to [acceptFragment]; [None]
    means that the loop of [Next] goes on. *)
Definition read_fragment (blockRemaining : Z) (r : Reader) : Reader * option bool :=
  let fragmentAt := r_offset r in
  match readFullAt HeaderSize (r_offset r) r with
  | Err e => (r_set_err e r, Some false)
  | Ok header =>
      let storedHeaderCRC := le_get (slice 4 8 header) in
      let actualHeaderCRC := crc32_checksum (slice 8 11 header) in
      if negb (storedHeaderCRC =? actualHeaderCRC)
      then (r_set_err (Corruption fragmentAt ErrHeaderChecksumMismatch) r, Some false)
      else
        let encodedType := byte.unsigned (default Byte.x00 (header !! 10%nat)) in
        if negb (Z.shiftr encodedType 4 =? byte.unsigned formatVersion)
        then (r_set_err (Corruption fragmentAt ErrUnsupportedVersion) r, Some false)
        else
          let kind := Z.land encodedType 15 in
          if (kind <? fragmentFull) || (fragmentLast <? kind)
          then (r_set_err (Corruption fragmentAt ErrInvalidFragmentType) r, Some false)
          else
            let length := le_get (slice 8 10 header) in
            if blockRemaining - HeaderSize <? length
            then (r_set_err (Corruption fragmentAt ErrInvalidLength) r, Some false)
            else
              let payloadAt := r_offset r + HeaderSize in
              if size r - payloadAt <? length then (markTail (incompleteStart r) r, Some false)
              else
                match readFullAt length payloadAt r with
                | Err e => (r_set_err e r, Some false)
                | Ok payload =>
                    let storedContentCRC := le_get (slice 0 4 header) in
                    if negb (storedContentCRC =? crc32_update actualHeaderCRC payload)
                    then (r_set_err (Corruption fragmentAt ErrChecksumMismatch) r, Some false)
                    else
                      let '(r, ok) := acceptFragment kind payload fragmentAt (r_set_offset (payloadAt + length) r) in
                      (r, if ok : bool then Some true
                          else match err r with Some _ => Some false | None => None end)
                end
  end.

(** The loop of [Next]; every iteration that goes on advances the offset. *)
Fixpoint next_loop (fuel : nat) (r : Reader) : Reader * bool :=
  match fuel with
  | O => (r, false)
  | S fu =>
      if r_offset r =? size r then
        (if assembling r then markTail (recordAt r) r else r_finish r, false)
      else
        let blockRemaining := BlockSize - r_offset r mod BlockSize in
        if blockRemaining <? HeaderSize then
          match consumePadding blockRemaining r with
          | (r, false) => (r, false)
          | (r, true) => next_loop fu r
          end
        else if size r - r_offset r <? HeaderSize then (markTail (incompleteStart r) r, false)
        else
          match read_fragment blockRemaining r with
          | (r, Some b) => (r, b)
          | (r, None) => next_loop fu r
          end
  end.
Definition next_fuel (r : Reader) : nat := S (Z.to_nat (size r - r_offset r)).
Definition Next (r : Reader) : Reader * bool :=
  if done_ r || (match err r with Some _ => true | None => false end) || r_closed r then (r, false)
  else next_loop (next_fuel r) r.

Definition Reader_Close (r : Reader) : Reader * option wal_error :=
  if r_closed r then (r, r_closeErr r)
  else
    let e := match closer r with Some true => Some ErrIO | _ => r_closeErr r end in
    (mkReader (reader r) (size r) (closer r) (r_offset r) (validEnd r) (record r) (number r) (assembly r)
       (assembling r) (recordAt r) (tail r) (err r) (done_ r) true e, e).

(** ** recovery.go *)

Record RecoveryResult := { ValidEnd : Z; FileEnd : Z; Records : Z; TailTruncated : bool }.
#[export] Instance RecoveryResult_eq_dec : EqDecision RecoveryResult.
Proof. solve_decision. Defined.

(** The scan of [recoverFromReader]; [consume] threads the callback's state
    and may fail.  Each record takes at least one byte. *)
Section recover.
Context {S : Type} (consume : S -> WalRecord -> S * bool).

Fixpoint recover_loop (fuel : nat) (records : Z) (s : S) (r : Reader)
    : S * Reader * (RecoveryResult * option scan_error) :=
  match fuel with
  | O => (s, r, ({| ValidEnd := validEnd r; FileEnd := size r; Records := records; TailTruncated := false |}, None))
  | Datatypes.S fu =>
      match Next r with
      | (r, true) =>
          match consume s (record r) with
          | (s, true) =>
              (s, r, ({| ValidEnd := validEnd r; FileEnd := size r; Records := records;
                         TailTruncated := false |}, Some (ReadFailed (validEnd r) ErrConsume)))
          | (s, false) => recover_loop fu (u64 (records + 1)) s r
          end
      | (r, false) =>
          (s, r, ({| ValidEnd := validEnd r; FileEnd := size r; Records := records;
                     TailTruncated := match tail r with Some _ => true | None => false end |}, err r))
      end
  end.
Definition recoverFromReader (s : S) (r : Reader) : S * (RecoveryResult * option scan_error) :=
  let '(s, _, res) := recover_loop (Datatypes.S (Z.to_nat (size r - r_offset r))) 0 s r in (s, res).
End recover.

(** The records a scan of a file's bytes yields. *)
Definition file_source (b : bytes) : Source := {| data := b; fault := fun _ _ => false |}.
Definition start_reader (b : bytes) : Reader :=
  mkReader (file_source b) (len b) None 0 0 zero_record 0 [] false 0 None None false false None.
Definition collect (s : list bytes) (rec : WalRecord) : list bytes * bool := (s ++ [Payload rec], false).
Definition Recover (b : bytes) : list bytes * (RecoveryResult * option scan_error) :=
  recoverFromReader collect [] (start_reader b).

(** The system calls that fail while a log is opened or repaired; a read fails
    by its offset and length. *)
Record os_faults := {
  fails_open : bool; fails_directory : bool; fails_stat : bool; fails_seek : bool;
  fails_truncate : bool; fails_sync : bool; fails_close : bool; fails_directory_close : bool; fails_read : Z -> Z -> bool
}.
Definition no_faults : os_faults :=
  {| fails_open := false; fails_directory := false; fails_stat := false; fails_seek := false;
     fails_truncate := false; fails_sync := false; fails_close := false; fails_directory_close := false; fails_read := fun _ _ => false |}.
(** The reader of an opened file. *)
Definition scan_reader (os : os_faults) (b : bytes) : Reader :=
  mkReader {| data := b; fault := fails_read os |} (len b) None 0 0 zero_record 0 [] false 0 None None false false None.
(** [errors.Join(err, closeErr)] *)
Definition join_close (e : list wal_error) (closeErr : bool) : list wal_error :=
  e ++ (if closeErr then [ErrIO] else []).
Definition scan_cause (e : scan_error) : wal_error :=
  match e with Corruption _ c | ReadFailed _ c => c end.

(** [RepairTail] on the bytes of the file: the bytes it leaves and the errors;
    a failed [Truncate] leaves the file as it was. *)
Definition RepairTail (b : bytes) (recovered : RecoveryResult) (os : os_faults)
    : bytes * option (list wal_error) :=
  let closeErr := fails_close os in
  if negb (TailTruncated recovered) then (b, Some [ErrNoTruncatedTail])
  else if fails_open os then (b, Some [ErrIO])
  else if fails_stat os then (b, Some (join_close [ErrIO] closeErr))
  else
    let '(_, (actual, scanErr)) := recoverFromReader (fun s _ => (s, false)) tt (scan_reader os b) in
    match scanErr with
    | Some e => (b, Some (join_close [scan_cause e] closeErr))
    | None =>
        if negb (bool_decide (actual = recovered)) || negb (TailTruncated actual)
        then (b, Some (join_close [ErrRecoveryStateChanged] closeErr))
        else if fails_truncate os then (b, Some (join_close [ErrIO] closeErr))
        else
          let b' := take (Z.to_nat (ValidEnd recovered)) b in
          if fails_sync os then (b', Some (join_close [ErrIO] closeErr))
          else if closeErr then (b', Some [ErrIO])
          else (b', None)
    end.

(** [for reader.Next() {}] *)
Fixpoint drain (fuel : nat) (r : Reader) : Reader :=
  match fuel with
  | O => r
  | S fu => match Next r with (r, true) => drain fu r | (r, false) => r end
  end.

(** [closeOpened] *)
Definition closeOpened {D} (d : option D) (os : os_faults) : list wal_error :=
  (if fails_close os then [ErrIO] else []) ++ (match d with Some _ => if fails_directory_close os then [ErrIO] else [] | None => [] end).

(** [OpenWriter] on a file [f] whose bytes are [b]; [d] is the directory to
    sync when the file was created. *)
Definition OpenWriter `{WritableFile} (f : File) (d : option Dir) (b : bytes) (dur : Z) (os : os_faults)
    : result (list wal_error) Writer :=
  if negb (durability_valid dur) then Err [ErrInvalidDurability]
  else if fails_open os then Err [ErrIO]
  else if (match d with Some _ => fails_directory os | None => false end) then Err (join_close [ErrIO] (fails_close os))
  else if fails_stat os then Err (ErrIO :: closeOpened d os)
  else
    let r := drain (S (length b)) (scan_reader os b) in
    match err r with
    | Some e => Err (scan_cause e :: closeOpened d os)
    | None =>
        match tail r with
        | Some _ => Err (ErrTruncatedTail :: closeOpened d os)
        | None =>
            if fails_seek os then Err (ErrIO :: closeOpened d os)
            else Ok (newWriterWithDirectory f d (len b) dur)
        end
    end.
