(* ===== verification/WalProofs.v ===== *)
(** * Crash recovery of the write-ahead log

    The bytes the writer produces for a list of records, what the reader
    finds in them and in every prefix of them, and what survives when writes
    fail part way. *)

From S2P Require Import Prelude Batch Crc32c Files Wal.

(** ** The bytes of a record *)

Definition zeros (n : Z) : bytes := replicate (Z.to_nat n) Byte.x00.
Definition fragment_bytes (payload : bytes) (kind : Z) : bytes := makeHeader payload kind ++ payload.

(** Padding in front of a fragment that starts at [off], the offset after it
    and the room for its payload. *)
Definition block_left (off : Z) : Z := BlockSize - off mod BlockSize.
Definition pad_of (off : Z) : Z := if block_left off <? HeaderSize then block_left off else 0.
Definition room_of (off : Z) : Z :=
  (if block_left off <? HeaderSize then BlockSize else block_left off) - HeaderSize.

Fixpoint encode_loop (fuel : nat) (first : bool) (off : Z) (rest : bytes) : bytes :=
  match fuel with
  | O => []
  | S fu =>
      if negb first && (len rest =? 0) then []
      else
        let n := Z.min (len rest) (room_of off) in
        let f := take (Z.to_nat n) rest in
        zeros (pad_of off) ++ fragment_bytes f (chooseFragmentKind first (n =? len rest)) ++
        encode_loop fu false (off + pad_of off + HeaderSize + n) (drop (Z.to_nat n) rest)
  end.
Definition encode_record (off : Z) (p : bytes) : bytes := encode_loop (append_fuel p) true off p.
Fixpoint encode_all (off : Z) (ps : list bytes) : bytes :=
  match ps with
  | [] => []
  | p :: ps' => encode_record off p ++ encode_all (off + len (encode_record off p)) ps'
  end.


(** ** Arithmetic of blocks *)

Ltac wal_lia := change BlockSize with 32768 in *; change HeaderSize with 11 in *; lia.

Lemma block_left_range off : 0 < block_left off <= BlockSize.
Proof. unfold block_left. pose proof (Z.mod_pos_bound off BlockSize eq_refl). wal_lia. Qed.
Lemma pad_of_range off : 0 <= pad_of off < HeaderSize.
Proof. unfold pad_of. pose proof (block_left_range off). destruct (Z.ltb_spec (block_left off) HeaderSize); wal_lia. Qed.
Lemma room_of_range off : 0 <= room_of off <= BlockSize - HeaderSize.
Proof.
  unfold room_of. pose proof (block_left_range off).
  destruct (Z.ltb_spec (block_left off) HeaderSize); wal_lia.
Qed.

(** After the padding the block has room for the header and [room_of]. *)
Lemma block_left_padded off : block_left (off + pad_of off) = room_of off + HeaderSize.
Proof.
  unfold pad_of, room_of. destruct (Z.ltb_spec (block_left off) HeaderSize) as [Hlt|Hge].
  - unfold block_left. replace (off + (BlockSize - off mod BlockSize)) with ((off / BlockSize + 1) * BlockSize).
    + rewrite Z.mod_mul by done. lia.
    + pose proof (Z.div_mod off BlockSize ltac:(done)). lia.
  - rewrite Z.add_0_r. lia.
Qed.

(** ** Headers *)

Lemma header_tail_length f kind : length (header_tail f kind) = 3%nat.
Proof. unfold header_tail. by rewrite length_app, le_put_length. Qed.
Lemma makeHeader_length f kind : length (makeHeader f kind) = 11%nat.
Proof. unfold makeHeader. by rewrite !length_app, !le_put_length, header_tail_length. Qed.
Lemma fragment_len f kind : len (fragment_bytes f kind) = HeaderSize + len f.
Proof. unfold fragment_bytes, len. rewrite length_app, makeHeader_length. unfold HeaderSize. lia. Qed.

Lemma slice_mid {A} (a b c : list A) i j :
  i = length a -> j = (length a + length b)%nat -> slice i j (a ++ b ++ c) = b.
Proof.
  intros -> ->. unfold slice. rewrite drop_app_length. by replace (_ - _)%nat with (length b) by lia; rewrite take_app_length.
Qed.

(** The fields of a header whose three parts are [c], [h] and [t]. *)
Lemma header_fields (c h t : bytes) :
  length c = 4%nat -> length h = 4%nat -> length t = 3%nat ->
  slice 0 4 (c ++ h ++ t) = c /\ slice 4 8 (c ++ h ++ t) = h /\ slice 8 11 (c ++ h ++ t) = t /\
  slice 8 10 (c ++ h ++ t) = take 2 t /\ (c ++ h ++ t) !! 10%nat = t !! 2%nat.
Proof.
  intros Hc Hh Ht. split_and!.
  - by apply (slice_mid [] c).
  - apply (slice_mid c h); lia.
  - rewrite app_assoc, <- (app_nil_r t) at 1. apply (slice_mid (c ++ h)); rewrite length_app; lia.
  - rewrite app_assoc. unfold slice. rewrite drop_app_length' by (rewrite length_app; lia). done.
  - rewrite !lookup_app_r by (rewrite ?Hc, ?Hh; lia). by rewrite Hc, Hh.
Qed.
Lemma header_tail_fields f kind :
  take 2 (header_tail f kind) = le_put 2 (u16 (len f)) /\
  header_tail f kind !! 2%nat = Some (byte.of_Z (Z.lor kind 0)).
Proof.
  unfold header_tail. rewrite lookup_app_r, le_put_length by (rewrite le_put_length; lia).
  by rewrite take_app_length' by by rewrite le_put_length.
Qed.

Lemma kind_byte kind : 1 <= kind <= 4 ->
  byte.unsigned (byte.of_Z (Z.lor kind 0)) = kind /\ Z.shiftr kind 4 = 0 /\ Z.land kind 15 = kind.
Proof.
  intros Hk. assert (kind = 1 \/ kind = 2 \/ kind = 3 \/ kind = 4) as Hc by lia.
  destruct Hc as [->|[->|[->| ->]]]; done.
Qed.

(** ** Reading one fragment *)

(** A reader of [b] at [off] that has not stopped. *)
Record ready (r : Reader) (b : bytes) (off : Z) : Prop := {
  rd_source : reader r = file_source b;
  rd_size : size r = len b;
  rd_offset : r_offset r = off;
  rd_err : err r = None;
  rd_done : done_ r = false;
  rd_closed : r_closed r = false;
  rd_tail : tail r = None
}.

Lemma readFullAt_ok r b off n mid o :
  ready r b off -> o = len b - len (drop (Z.to_nat o) b) -> 0 <= o ->
  take (Z.to_nat n) (drop (Z.to_nat o) b) = mid -> len mid = n -> readFullAt n o r = Ok mid.
Proof.
  intros [Hs _ _ _ _ _ _] Ho Ho0 Hm Hn. unfold readFullAt. rewrite Hs. cbn.
  destruct (Z.eqb_spec n 0) as [->|Hne]; [by destruct mid|].
  assert (0 <= n) by (subst n; apply len_nonneg).
  assert (o + n <= len b) as Hle.
  { subst mid. unfold len in *. rewrite length_take, length_drop in *. lia. }
  rewrite (proj2 (Z.leb_le _ _) Hle). f_equal. rewrite <- Hm. unfold slice. f_equal. lia.
Qed.

Lemma readFullAt_at r b off pre mid post n :
  ready r b off -> b = pre ++ mid ++ post -> len mid = n -> readFullAt n (len pre) r = Ok mid.
Proof.
  intros Hr -> Hn. apply (readFullAt_ok r (pre ++ mid ++ post) off); [done| | |..].
  - rewrite len_to_nat, drop_app_length. rewrite !len_app. lia.
  - apply len_nonneg.
  - rewrite len_to_nat, drop_app_length. subst n. by rewrite len_to_nat, take_app_length.
  - done.
Qed.

(** A fragment whose header checksum [h] does not match. *)
Lemma read_fragment_header r b pre c h t post bl :
  length c = 4%nat -> length h = 4%nat -> length t = 3%nat ->
  b = pre ++ (c ++ h ++ t) ++ post -> ready r b (len pre) -> le_get h <> crc32_checksum t ->
  read_fragment bl r = (r_set_err (Corruption (len pre) ErrHeaderChecksumMismatch) r, Some false).
Proof.
  intros Hc Hh Ht Hb Hr Hne. unfold read_fragment. rewrite (rd_offset _ _ _ Hr).
  rewrite (readFullAt_at r b (len pre) pre (c ++ h ++ t) post) by (done || (unfold len, HeaderSize; rewrite !length_app; lia)).
  destruct (header_fields c h t Hc Hh Ht) as (_ & -> & -> & _). by rewrite (proj2 (Z.eqb_neq _ _)).
Qed.

(** A fragment whose header is intact: the content checksum [c] decides. *)
Lemma read_fragment_content r b pre c f0 f kind post :
  length c = 4%nat -> len f = len f0 ->
  b = pre ++ (c ++ le_put 4 (crc32_checksum (header_tail f0 kind)) ++ header_tail f0 kind) ++ f ++ post ->
  ready r b (len pre) -> 1 <= kind <= 4 -> len f <= block_left (len pre) - HeaderSize ->
  read_fragment (block_left (len pre)) r =
    if negb (le_get c =? crc32_update (crc32_checksum (header_tail f0 kind)) f)
    then (r_set_err (Corruption (len pre) ErrChecksumMismatch) r, Some false)
    else
      let '(r', ok) := acceptFragment kind f (len pre) (r_set_offset (len pre + HeaderSize + len f) r) in
      (r', if ok : bool then Some true else match err r' with Some _ => Some false | None => None end).
Proof.
  intros Hc Hlf Hb Hr Hk Hroom. set (t := header_tail f0 kind) in *. set (h := le_put 4 (crc32_checksum t)) in *.
  assert (length h = 4%nat) as Hh by apply le_put_length.
  assert (length t = 3%nat) as Ht by apply header_tail_length.
  destruct (header_fields c h t Hc Hh Ht) as (H04 & H48 & H811 & H810 & H10).
  destruct (header_tail_fields f0 kind) as [Ht2 Htk]. fold t in Ht2, Htk. rewrite Ht2 in H810. rewrite Htk in H10.
  pose proof (kind_byte kind Hk) as (Hkb & Hsh & Hla). pose proof (block_left_range (len pre)).
  pose proof (len_nonneg f). assert (is_u32 (crc32_checksum t)) as Hcr by apply crc32_checksum_range.
  assert (len (c ++ h ++ t) = HeaderSize) as Hhl by (unfold len; rewrite !length_app, Hc, Hh, Ht; done).
  unfold read_fragment. rewrite (rd_offset _ _ _ Hr).
  rewrite (readFullAt_at r b (len pre) pre (c ++ h ++ t) (f ++ post)) by done.
  rewrite H04, H48, H811, H810, H10. cbn [default from_option id].
  unfold h at 1. rewrite (le_get_put32 _ Hcr), Z.eqb_refl. cbn [negb]. rewrite Hkb, Hsh, Hla. cbn [negb].
  change (0 =? byte.unsigned formatVersion) with true. cbn [negb].
  rewrite (proj2 (orb_false_iff _ _)) by (unfold fragmentFull, fragmentLast; lia).
  assert (le_get (le_put 2 (u16 (len f0))) = len f) as ->.
  { rewrite le_get_put, Hlf. unfold u16. rewrite Zmod_mod. apply Z.mod_small. wal_lia. }
  rewrite (proj2 (Z.ltb_ge _ _)) by lia.
  assert ((size r - (len pre + HeaderSize) <? len f) = false) as ->.
  { rewrite (rd_size _ _ _ Hr), Hb, !(len_app pre), (len_app (c ++ h ++ t)), Hhl, len_app.
    pose proof (len_nonneg post). lia. }
  replace (len pre + HeaderSize) with (len (pre ++ c ++ h ++ t)) by (rewrite len_app; lia).
  rewrite (readFullAt_at r b (len pre) (pre ++ c ++ h ++ t) f post); [done|done| |done].
  by rewrite Hb, <- !app_assoc.
Qed.

(** The check of one complete fragment leads to [acceptFragment]. *)
Lemma read_fragment_ok r b pre f kind post :
  b = pre ++ fragment_bytes f kind ++ post -> ready r b (len pre) ->
  1 <= kind <= 4 -> len f <= block_left (len pre) - HeaderSize ->
  read_fragment (block_left (len pre)) r =
    let '(r', ok) := acceptFragment kind f (len pre) (r_set_offset (len pre + HeaderSize + len f) r) in
    (r', if ok : bool then Some true else match err r' with Some _ => Some false | None => None end).
Proof.
  intros Hb Hr Hk Hroom. unfold fragment_bytes, makeHeader in Hb. rewrite <- app_assoc in Hb.
  rewrite (read_fragment_content r b pre _ f f kind post) by (done || by rewrite le_put_length).
  rewrite le_get_put32, Z.eqb_refl; [done|]. apply crc32_update_range, crc32_checksum_range.
Qed.

(** ** Padding *)

Lemma ready_set_offset r b off off' : ready r b off -> ready (r_set_offset off' r) b off'.
Proof. intros []. by split. Qed.

Lemma zeros_len n : 0 <= n -> len (zeros n) = n.
Proof. intros. unfold len, zeros. rewrite length_replicate. lia. Qed.
Lemma zeros_check n : bytes_eqb (zeros n) (replicate (length (zeros n)) Byte.x00) = true.
Proof. apply bytes_eqb_eq. unfold zeros. by rewrite length_replicate. Qed.

Lemma consumePadding_ok r b pre post :
  b = pre ++ zeros (block_left (len pre)) ++ post -> ready r b (len pre) ->
  consumePadding (block_left (len pre)) r = (r_set_offset (len pre + block_left (len pre)) r, true).
Proof.
  intros Hb Hr. pose proof (block_left_range (len pre)) as Hl. pose proof (len_nonneg post).
  set (n := block_left (len pre)) in *. unfold consumePadding.
  rewrite (rd_offset _ _ _ Hr), (rd_size _ _ _ Hr).
  assert (len b = len pre + n + len post) as Hlen by (rewrite Hb, !len_app, zeros_len by lia; lia).
  rewrite Z.min_l by lia. rewrite (readFullAt_at r b (len pre) pre (zeros n) post);
    [|done|done|apply zeros_len; lia].
  rewrite zeros_check. cbn [negb]. by rewrite Z.ltb_irrefl.
Qed.

(** A block tail that the file ends in. *)
Lemma consumePadding_short r b pre k :
  b = pre ++ zeros k -> 0 < k < block_left (len pre) -> ready r b (len pre) ->
  consumePadding (block_left (len pre)) r = (markTail (incompleteStart r) (r_set_offset (len b) r), false).
Proof.
  intros Hb Hk Hr. unfold consumePadding. rewrite (rd_offset _ _ _ Hr), (rd_size _ _ _ Hr).
  assert (len b = len pre + k) as Hlen by (rewrite Hb, len_app, zeros_len by lia; lia).
  replace (Z.min (block_left (len pre)) (len b - len pre)) with k by lia.
  rewrite (readFullAt_at r b (len pre) pre (zeros k) []); [|done|by rewrite app_nil_r|apply zeros_len; lia].
  rewrite zeros_check. cbn [negb]. rewrite (proj2 (Z.ltb_lt _ _)) by lia. by rewrite Hlen.
Qed.

(** ** One iteration of the reader *)

(** The loop on a complete fragment, with its padding. *)
Lemma next_loop_fragment fuel r b pre f kind post :
  b = pre ++ zeros (pad_of (len pre)) ++ fragment_bytes f kind ++ post ->
  ready r b (len pre) -> 1 <= kind <= 4 -> len f <= room_of (len pre) ->
  size r - len pre < Z.of_nat fuel ->
  let off' := len pre + pad_of (len pre) + HeaderSize + len f in
  exists fuel', size r - off' < Z.of_nat fuel' /\
  next_loop fuel r =
    let '(r', ok) := acceptFragment kind f (len pre + pad_of (len pre)) (r_set_offset off' r) in
    if ok : bool then (r', true)
    else match err r' with Some _ => (r', false) | None => next_loop fuel' r' end.
Proof.
  intros Hb Hr Hk Hroom Hfuel off'. pose proof (pad_of_range (len pre)) as Hpad.
  pose proof (room_of_range (len pre)) as Hrr. pose proof (len_nonneg f). pose proof (len_nonneg post).
  set (pad := pad_of (len pre)) in *.
  assert (len b = len pre + pad + HeaderSize + len f + len post) as Hlen.
  { rewrite Hb, !len_app, fragment_len, zeros_len by lia. lia. }
  (* the fragment at its own offset *)
  assert (forall fu r1, ready r1 b (len pre + pad) -> r_set_offset off' r1 = r_set_offset off' r ->
    next_loop (S fu) r1 =
    let '(r', ok) := acceptFragment kind f (len pre + pad) (r_set_offset off' r) in
    if ok : bool then (r', true)
    else match err r' with Some _ => (r', false) | None => next_loop fu r' end) as Hfrag.
  { intros fu r1 Hr1 Hset. cbn [next_loop]. rewrite (rd_offset _ _ _ Hr1), (rd_size _ _ _ Hr1).
    fold (block_left (len pre + pad)). unfold pad. rewrite block_left_padded. fold pad.
    rewrite (proj2 (Z.eqb_neq _ _)) by wal_lia.
    rewrite (proj2 (Z.ltb_ge (room_of (len pre) + HeaderSize) HeaderSize)) by wal_lia.
    rewrite (proj2 (Z.ltb_ge _ _)) by wal_lia.
    assert (len (pre ++ zeros pad) = len pre + pad) as Hpl by (rewrite len_app, zeros_len by lia; done).
    rewrite <- (block_left_padded (len pre)). fold pad. rewrite <- Hpl.
    rewrite (read_fragment_ok r1 b (pre ++ zeros pad) f kind post).
    - rewrite Hpl. change (len pre + pad + HeaderSize + len f) with off'. rewrite Hset.
      destruct (acceptFragment _ _ _ _) as [r' []]; [done|]. by destruct (err r').
    - by rewrite Hb, <- app_assoc.
    - by rewrite Hpl.
    - done.
    - rewrite Hpl. unfold pad. rewrite block_left_padded. lia. }
  destruct fuel as [|fu]; [rewrite (rd_size _ _ _ Hr) in Hfuel; wal_lia|].
  rewrite (rd_size _ _ _ Hr) in *.
  destruct (Z.ltb_spec (block_left (len pre)) HeaderSize) as [Hlt|Hge].
  - assert (pad = block_left (len pre)) as Hpe by (unfold pad, pad_of; by rewrite (proj2 (Z.ltb_lt _ _))).
    destruct fu as [|fu]; [wal_lia|]. exists fu. split; [wal_lia|].
    rewrite <- (Hfrag fu (r_set_offset (len pre + pad) r)); [|by eapply ready_set_offset|done].
    cbn [next_loop]. rewrite (rd_offset _ _ _ Hr), (rd_size _ _ _ Hr). fold (block_left (len pre)).
    rewrite (proj2 (Z.eqb_neq _ _)) by wal_lia. rewrite (proj2 (Z.ltb_lt _ _) Hlt).
    rewrite (consumePadding_ok r b pre (fragment_bytes f kind ++ post)); [|by rewrite <- Hpe|done].
    by rewrite <- Hpe.
  - assert (pad = 0) as Hp0 by (unfold pad, pad_of; by rewrite (proj2 (Z.ltb_ge _ _))).
    exists fu. split; [wal_lia|]. apply Hfrag; [|done]. by rewrite Hp0, Z.add_0_r.
Qed.

(** ** Reading a whole record *)

(** How many fragments [rest] can still take. *)
Definition fragments_left (first : bool) (off : Z) (rest : bytes) : nat :=
  2 * length rest + (if room_of off =? 0 then 1 else 0) + (if first && (len rest =? 0) then 1 else 0).

Lemma append_fuel_enough off p : (fragments_left true off p <= append_fuel p)%nat.
Proof. unfold fragments_left, append_fuel. repeat case_match; lia. Qed.

Lemma room_after_full off : room_of off = 0 -> room_of (off + pad_of off + HeaderSize) <> 0.
Proof.
  intros H0. assert (block_left off = HeaderSize) as Hb.
  { unfold room_of in H0. pose proof (block_left_range off).
    destruct (Z.ltb_spec (block_left off) HeaderSize); wal_lia. }
  assert (pad_of off = 0) as -> by (unfold pad_of; by rewrite Hb).
  assert (block_left (off + 0 + HeaderSize) = BlockSize) as Hb'.
  { unfold block_left in *. rewrite Z.add_0_r.
    replace (off + HeaderSize) with ((off / BlockSize + 1) * BlockSize);
      [rewrite Z.mod_mul by done; lia|].
    pose proof (Z.div_mod off BlockSize ltac:(done)). lia. }
  unfold room_of. rewrite Hb'. done.
Qed.

Lemma chooseFragmentKind_range first last : 1 <= chooseFragmentKind first last <= 4.
Proof. by destruct first, last. Qed.

(** The state of a reader in front of the next fragment of a record. *)
Definition mid (first : bool) (acc : bytes) (start : Z) (r : Reader) : Prop :=
  if first then assembling r = false /\ acc = []
  else assembling r = true /\ assembly r = acc /\ recordAt r = start.

(** A reader that has just returned a record. *)
Record returned (r r' : Reader) (payload : bytes) (start off : Z) : Prop := {
  rt_record : record r' = {| Payload := payload; recordPosition := {| Start := start; End := off |}; Number := number r |};
  rt_assembling : assembling r' = false;
  rt_validEnd : validEnd r' = off;
  rt_number : number r' = u64 (number r + 1)
}.

(** What a fragment does to the reader: the last one returns the record,
    another one extends the assembly. *)
Lemma accept_last first acc start r b off f at_ :
  mid first acc start r -> ready r b off -> len acc + len f <= MaxRecordSize ->
  exists r', acceptFragment (chooseFragmentKind first true) f at_ r = (r', true) /\
    ready r' b off /\ returned r r' (acc ++ f) (if first then at_ else start) off.
Proof.
  intros Hm [Hs Hsz Ho He Hd Hc Ht] Hmax. pose proof (len_nonneg acc). destruct first; cbn in Hm |- *.
  - destruct Hm as [Ha ->]. unfold acceptFragment. cbn. rewrite Ha. unfold finishRecord.
    rewrite (proj2 (Z.ltb_ge _ _)) by lia. eexists. split; [done|].
    split; [by split|]. split; cbn; by rewrite ?Ho.
  - destruct Hm as (Ha & Hacc & Hat). unfold acceptFragment. cbn. rewrite Ha. cbn. unfold appendFragment.
    rewrite Hacc, (proj2 (Z.ltb_ge _ _)) by lia. unfold finishRecord. cbn.
    rewrite len_app, (proj2 (Z.ltb_ge _ _)) by lia. eexists. split; [done|].
    split; [by split|]. split; cbn; by rewrite ?Ho, ?Hat.
Qed.

Lemma accept_more first acc start r b off f at_ :
  mid first acc start r -> ready r b off -> len acc + len f <= MaxRecordSize ->
  exists r', acceptFragment (chooseFragmentKind first false) f at_ r = (r', false) /\
    ready r' b off /\ mid false (acc ++ f) (if first then at_ else start) r' /\
    number r' = number r /\ validEnd r' = validEnd r.
Proof.
  intros Hm [Hs Hsz Ho He Hd Hc Ht] Hmax. pose proof (len_nonneg acc). destruct first; cbn in Hm |- *.
  - destruct Hm as [Ha ->]. unfold acceptFragment. cbn. rewrite Ha. eexists. split; [done|].
    split; [by split|]. done.
  - destruct Hm as (Ha & Hacc & Hat). unfold acceptFragment. cbn. rewrite Ha. cbn. unfold appendFragment.
    rewrite Hacc, (proj2 (Z.ltb_ge _ _)) by lia. cbn. eexists. split; [done|]. split; [by split|].
    split; [|done]. by split_and!.
Qed.

(** Splitting off the first fragment of the encoding. *)
Lemma encode_loop_step fu first off rest :
  negb first && (len rest =? 0) = false ->
  let n := Z.min (len rest) (room_of off) in
  let f := take (Z.to_nat n) rest in
  encode_loop (S fu) first off rest =
    zeros (pad_of off) ++ fragment_bytes f (chooseFragmentKind first (n =? len rest)) ++
    encode_loop fu false (off + pad_of off + HeaderSize + n) (drop (Z.to_nat n) rest) /\
  len f = n /\ 0 <= n <= room_of off /\ ((n =? len rest) = true -> f = rest /\ drop (Z.to_nat n) rest = []).
Proof.
  intros Hc n f. pose proof (len_nonneg rest). pose proof (room_of_range off).
  split_and!.
  - cbn [encode_loop]. by rewrite Hc.
  - unfold f, len in *. rewrite length_take. lia.
  - lia.
  - lia.
  - intros Hn. apply Z.eqb_eq in Hn. rewrite Hn, len_to_nat. subst f. rewrite Hn, len_to_nat.
    split; [apply take_ge; lia|apply drop_ge; lia].
Qed.
Lemma fragments_left_step first off rest :
  negb first && (len rest =? 0) = false ->
  let n := Z.min (len rest) (room_of off) in n <> len rest ->
  (fragments_left false (off + pad_of off + HeaderSize + n) (drop (Z.to_nat n) rest)
   < fragments_left first off rest)%nat.
Proof.
  intros Hc n Hn. pose proof (len_nonneg rest) as Hlr. pose proof (room_of_range off) as Hrr. unfold fragments_left.
  rewrite length_drop. cbn [andb]. assert (n = room_of off) as Hr by lia.
  destruct (Z.eqb_spec (room_of off) 0) as [H0|Hne].
  - rewrite Hr, H0, Z.add_0_r. rewrite (proj2 (Z.eqb_neq _ _)) by by apply room_after_full.
    assert ((len rest =? 0) = false) as -> by lia. rewrite andb_false_r. cbn. unfold len in *. lia.
  - unfold len in *. repeat case_match; lia.
Qed.

Lemma next_record fu : forall fuel first rest pre post acc start r b,
  (fragments_left first (len pre) rest <= fu)%nat -> negb first && (len rest =? 0) = false ->
  b = pre ++ encode_loop fu first (len pre) rest ++ post -> ready r b (len pre) ->
  size r - len pre < Z.of_nat fuel -> mid first acc start r -> len acc + len rest <= MaxRecordSize ->
  let off' := len pre + len (encode_loop fu first (len pre) rest) in
  exists r', next_loop fuel r = (r', true) /\ ready r' b off' /\
    returned r r' (acc ++ rest) (if first then len pre + pad_of (len pre) else start) off'.
Proof.
  induction fu as [|fu IH]; intros fuel first rest pre post acc start r b Hfu Hc Hb Hr Hfuel Hm Hmax off'.
  { exfalso. unfold fragments_left, len in Hfu, Hc. destruct first, rest; simpl in Hfu, Hc;
    try done; repeat case_match; try lia. }
  destruct (encode_loop_step fu first (len pre) rest Hc) as (Henc & Hlf & Hn & Hlast).
  set (n := Z.min (len rest) (room_of (len pre))) in *. set (f := take (Z.to_nat n) rest) in *.
  set (kind := chooseFragmentKind first (n =? len rest)) in *.
  set (more := encode_loop fu false _ _) in *. pose proof (pad_of_range (len pre)) as Hpad.
  destruct (next_loop_fragment fuel r b pre f kind (more ++ post)) as (fuel' & Hfuel' & Hnl); try done.
  { rewrite Hb, Henc. by rewrite <- !app_assoc. }
  { apply chooseFragmentKind_range. }
  { lia. }
  set (pad := pad_of (len pre)) in *. set (o1 := len pre + pad + HeaderSize + len f) in *.
  assert (ready (r_set_offset o1 r) b o1) as Hr1 by by eapply ready_set_offset.
  assert (mid first acc start (r_set_offset o1 r)) as Hm1 by (by destruct first).
  assert (off' = o1 + len more) as Hoff.
  { unfold off'. rewrite Henc, !len_app, fragment_len, zeros_len by lia. lia. }
  rewrite Hnl. unfold kind. destruct (n =? len rest) eqn:Hnr.
  - destruct (Hlast eq_refl) as [Hf Hd]. rewrite Hf in *.
    assert (more = []) as Hmore.
    { unfold more. rewrite Hd. by destruct fu. }
    rewrite Hmore, len_nil, Z.add_0_r in Hoff.
    destruct (accept_last first acc start _ b o1 rest (len pre + pad) Hm1 Hr1 Hmax) as (r' & Hacc & Hr' & Hret).
    rewrite Hacc. exists r'. rewrite Hoff. split_and!; try done. destruct Hret. by split.
  - apply Z.eqb_neq in Hnr.
    assert (len f + len (drop (Z.to_nat n) rest) = len rest) as Hsplit.
    { unfold f, len. rewrite length_take, length_drop. lia. }
    pose proof (len_nonneg (drop (Z.to_nat n) rest)).
    destruct (accept_more first acc start _ b o1 f (len pre + pad) Hm1 Hr1 ltac:(lia))
      as (r' & Hacc & Hr' & Hm' & Hnum & _).
    rewrite Hacc, (rd_err _ _ _ Hr').
    assert (len (pre ++ zeros pad ++ fragment_bytes f kind) = o1) as Hpre.
    { rewrite !len_app, fragment_len, zeros_len by lia. unfold o1. lia. }
    destruct (IH fuel' false (drop (Z.to_nat n) rest) (pre ++ zeros pad ++ fragment_bytes f kind) post
      (acc ++ f) (if first then len pre + pad else start) r' b) as (r2 & Hn2 & Hr2 & Hret2).
    + rewrite Hpre. unfold o1. rewrite Hlf. pose proof (fragments_left_step first (len pre) rest Hc Hnr) as Hst.
      fold pad n in Hst. lia.
    + cbn. apply Z.eqb_neq. unfold len in *. rewrite length_drop. lia.
    + rewrite Hpre. unfold o1. rewrite Hlf. fold more. rewrite Hb, Henc. by rewrite <- !app_assoc.
    + by rewrite Hpre.
    + rewrite Hpre, (rd_size _ _ _ Hr'), <- (rd_size _ _ _ Hr). done.
    + done.
    + rewrite len_app. lia.
    + rewrite Hpre in *. assert (encode_loop fu false o1 (drop (Z.to_nat n) rest) = more) as Hmo
        by (unfold o1; by rewrite Hlf).
      rewrite Hmo in *. exists r2. rewrite Hoff. split_and!; try done.
      destruct Hret2. rewrite <- app_assoc in *. unfold f in *. rewrite take_drop in *.
      split; rewrite ?Hnum in *; done.
Qed.

(** ** Reading a torn record *)

(** A reader that stopped without an error at the end of the file. *)
Record stopped (r r' : Reader) (torn : bool) : Prop := {
  st_err : err r' = None;
  st_done : done_ r' = true;
  st_validEnd : validEnd r' = validEnd r;
  st_size : size r' = size r;
  st_tail : (match tail r' with Some _ => true | None => false end) = torn
}.

Lemma stopped_mark r at_ o : err r = None -> stopped r (markTail at_ (r_set_offset o r)) true.
Proof. by split. Qed.

(** The loop skips a complete padding. *)
Lemma next_loop_padding fuel r b pre post :
  b = pre ++ zeros (pad_of (len pre)) ++ post -> ready r b (len pre) ->
  size r - len pre < Z.of_nat fuel ->
  let o := len pre + pad_of (len pre) in
  exists fuel', size r - o < Z.of_nat fuel' /\ next_loop fuel r = next_loop fuel' (r_set_offset o r).
Proof.
  intros Hb Hr Hfuel o. pose proof (pad_of_range (len pre)) as Hpad. pose proof (len_nonneg post).
  unfold o, pad_of in *. destruct (Z.ltb_spec (block_left (len pre)) HeaderSize) as [Hlt|Hge].
  - destruct fuel as [|fu].
    { rewrite (rd_size _ _ _ Hr) in Hfuel. rewrite Hb, !len_app, zeros_len in Hfuel by lia. lia. }
    pose proof (block_left_range (len pre)).
    exists fu. split; [lia|]. cbn [next_loop]. rewrite (rd_offset _ _ _ Hr). fold (block_left (len pre)).
    rewrite (proj2 (Z.eqb_neq _ _)), (proj2 (Z.ltb_lt _ _) Hlt).
    + by rewrite (consumePadding_ok r b pre post).
    + rewrite (rd_size _ _ _ Hr), Hb, !len_app, zeros_len by lia. lia.
  - exists fuel. rewrite Z.add_0_r. split; [lia|]. f_equal.
    destruct Hr as [_ _ <- _ _ _ _]. by destruct r.
Qed.

Lemma next_loop_eof fuel r b off :
  ready r b off -> off = len b -> size r - off < Z.of_nat fuel ->
  exists r', next_loop fuel r = (r', false) /\ stopped r r' (assembling r).
Proof.
  intros Hr -> Hfuel. destruct fuel as [|fu]; [rewrite (rd_size _ _ _ Hr) in Hfuel; lia|].
  cbn [next_loop]. rewrite (rd_offset _ _ _ Hr), (rd_size _ _ _ Hr), Z.eqb_refl. eexists. split; [done|].
  destruct Hr. destruct (assembling r); split; try done. cbn. by rewrite rd_tail0.
Qed.

(** A file that ends inside a fragment's header or payload. *)
Lemma read_fragment_torn r b pre f kind k :
  b = pre ++ take k (fragment_bytes f kind) -> ready r b (len pre) ->
  1 <= kind <= 4 -> len f <= block_left (len pre) - HeaderSize ->
  HeaderSize <= Z.of_nat k < HeaderSize + len f ->
  read_fragment (block_left (len pre)) r = (markTail (incompleteStart r) r, Some false).
Proof.
  intros Hb Hr Hk Hroom Hkk. 
  destruct (header_fields (le_put 4 (crc32_update (crc32_checksum (header_tail f kind)) f))
    (le_put 4 (crc32_checksum (header_tail f kind))) (header_tail f kind))
    as (_ & H48 & H811 & H810 & H10); [apply le_put_length..|apply header_tail_length|].
  destruct (header_tail_fields f kind) as [Ht2 Htk]. rewrite Ht2 in H810. rewrite Htk in H10.
  fold (makeHeader f kind) in H48, H811, H810, H10.
  pose proof (kind_byte kind Hk) as (Hkb & Hsh & Hla). pose proof (block_left_range (len pre)).
  assert (is_u32 (crc32_checksum (header_tail f kind))) as Hh by apply crc32_checksum_range.
  assert (b = pre ++ makeHeader f kind ++ take (k - 11) f) as Hb'.
  { rewrite Hb. unfold fragment_bytes. rewrite take_app, makeHeader_length, take_ge; [done|].
    rewrite makeHeader_length. unfold HeaderSize in *. lia. }
  unfold read_fragment. rewrite (rd_offset _ _ _ Hr).
  rewrite (readFullAt_at r b (len pre) pre (makeHeader f kind) (take (k - 11) f)); [|done|done|].
  2: { unfold len. by rewrite makeHeader_length. }
  rewrite H48, H811, H810, H10. cbn [default from_option id].
  rewrite (le_get_put32 _ Hh), Z.eqb_refl. cbn [negb]. rewrite Hkb, Hsh, Hla. cbn [negb].
  change (0 =? byte.unsigned formatVersion) with true. cbn [negb].
  rewrite (proj2 (orb_false_iff _ _)) by (unfold fragmentFull, fragmentLast; lia).
  assert (le_get (le_put 2 (u16 (len f))) = len f) as ->.
  { rewrite le_get_put. unfold u16. rewrite Zmod_mod. apply Z.mod_small. pose proof (len_nonneg f). wal_lia. }
  rewrite (proj2 (Z.ltb_ge _ _)) by lia.
  rewrite (proj2 (Z.ltb_lt _ _)); [done|].
  rewrite (rd_size _ _ _ Hr), Hb', !len_app. unfold len, HeaderSize in *.
  rewrite makeHeader_length, length_take. lia.
Qed.

(** A file that ends inside a padding. *)
Lemma next_loop_torn_padding fuel r b pre k :
  b = pre ++ zeros k -> ready r b (len pre) -> 0 < k < pad_of (len pre) ->
  size r - len pre < Z.of_nat fuel ->
  exists r', next_loop fuel r = (r', false) /\ stopped r r' true.
Proof.
  intros Hb Hr Hk Hfuel. pose proof (rd_size _ _ _ Hr) as Hsize. pose proof (pad_of_range (len pre)).
  assert (len b = len pre + k) as Hlb by (rewrite Hb, len_app, zeros_len; lia).
  assert (k < block_left (len pre) < HeaderSize) as Hlt.
  { unfold pad_of in *. destruct (Z.ltb_spec (block_left (len pre)) HeaderSize); lia. }
  destruct fuel as [|fu]; [lia|].
  cbn [next_loop]. rewrite (rd_offset _ _ _ Hr), Hsize. fold (block_left (len pre)).
  rewrite (proj2 (Z.eqb_neq (len pre) _)), (proj2 (Z.ltb_lt _ _) (proj2 Hlt)) by lia.
  rewrite (consumePadding_short r b pre k) by (done || lia).
  eexists. split; [done|]. apply stopped_mark, (rd_err _ _ _ Hr).
Qed.

(** Every way of stopping inside one padded fragment. *)
Lemma next_loop_torn fuel r b pre f kind k :
  b = pre ++ take k (zeros (pad_of (len pre)) ++ fragment_bytes f kind) ->
  ready r b (len pre) -> 1 <= kind <= 4 -> len f <= room_of (len pre) ->
  Z.of_nat k < pad_of (len pre) + HeaderSize + len f -> size r - len pre < Z.of_nat fuel ->
  exists r', next_loop fuel r = (r', false) /\
    stopped r r' (assembling r || negb ((Z.of_nat k =? 0) || (Z.of_nat k =? pad_of (len pre)))).
Proof.
  intros Hb Hr Hk Hroom Hkk Hfuel. pose proof (pad_of_range (len pre)) as Hpad.
  set (pad := pad_of (len pre)) in *. pose proof (rd_size _ _ _ Hr) as Hsize.
  destruct (decide (k = 0%nat)) as [->|Hk0].
  { rewrite take_0, app_nil_r in Hb. cbn. rewrite orb_false_r. apply (next_loop_eof fuel r b (len pre)); congruence. }
  rewrite (proj2 (Z.eqb_neq (Z.of_nat k) 0)) by lia. cbn [orb].
  assert (length (zeros pad) = Z.to_nat pad) as Hzl by (unfold zeros; apply length_replicate).
  destruct (decide (Z.of_nat k < pad)) as [Hin|Hout].
  { rewrite (proj2 (Z.eqb_neq _ _)) by lia. rewrite orb_true_r.
    apply (next_loop_torn_padding fuel r b pre (Z.of_nat k)); try done; [|lia].
    rewrite Hb, take_app_le by lia. f_equal. unfold zeros. rewrite take_replicate. f_equal. lia. }
  assert (b = pre ++ zeros pad ++ take (k - Z.to_nat pad) (fragment_bytes f kind)) as Hb'.
  { rewrite Hb, take_app, Hzl, take_ge by lia. done. }
  destruct (next_loop_padding fuel r b pre _ Hb' Hr Hfuel) as (fuel' & Hf' & ->). fold pad in Hf' |- *.
  assert (len (pre ++ zeros pad) = len pre + pad) as Hpl by (rewrite len_app, zeros_len by lia; done).
  set (r1 := r_set_offset (len pre + pad) r).
  assert (ready r1 b (len pre + pad)) as Hr1 by by eapply ready_set_offset.
  set (k' := (k - Z.to_nat pad)%nat) in *.
  assert (len b = len pre + pad + Z.of_nat k') as Hlb.
  { rewrite Hb', app_assoc, len_app, Hpl. unfold len at 2. rewrite length_take.
    pose proof (fragment_len f kind) as Hfl. unfold len in Hfl at 1. lia. }
  destruct (decide (k' = 0%nat)) as [Hk'|Hk'].
  { rewrite (proj2 (Z.eqb_eq _ _)) by lia. rewrite orb_false_r.
    destruct (next_loop_eof fuel' r1 b (len pre + pad)) as (r' & Hn & []); [done|lia|done|].
    exists r'. by split. }
  rewrite (proj2 (Z.eqb_neq _ _)) by lia. rewrite orb_true_r.
  destruct fuel' as [|fu]; [rewrite Hsize in Hf'; lia|].
  cbn [next_loop]. rewrite (rd_offset _ _ _ Hr1), (rd_size _ _ _ Hr1).
  fold (block_left (len pre + pad)). pose proof (block_left_padded (len pre)) as Hbl. fold pad in Hbl.
  pose proof (room_of_range (len pre)).
  rewrite (proj2 (Z.eqb_neq _ _)) by lia. rewrite (proj2 (Z.ltb_ge (block_left _) _)) by lia.
  destruct (Z.ltb_spec (len b - (len pre + pad)) HeaderSize) as [Hs|Hs].
  { eexists. split; [done|]. apply stopped_mark, (rd_err _ _ _ Hr). }
  rewrite <- Hpl, (read_fragment_torn r1 b (pre ++ zeros pad) f kind k');
    [|by rewrite <- app_assoc|by rewrite Hpl|done|rewrite Hpl; lia|lia].
  eexists. split; [done|]. apply stopped_mark, (rd_err _ _ _ Hr).
Qed.

Lemma mid_assembling first acc start r : mid first acc start r -> assembling r = negb first.
Proof. by destruct first; intros []. Qed.

Lemma next_record_torn fu : forall fuel first rest pre acc start r b k,
  negb first && (len rest =? 0) = false ->
  (k < length (encode_loop fu first (len pre) rest))%nat ->
  b = pre ++ take k (encode_loop fu first (len pre) rest) -> ready r b (len pre) ->
  size r - len pre < Z.of_nat fuel -> mid first acc start r -> len acc + len rest <= MaxRecordSize ->
  exists r', next_loop fuel r = (r', false) /\
    stopped r r' (negb (first && ((Z.of_nat k =? 0) || (Z.of_nat k =? pad_of (len pre))))).
Proof.
  induction fu as [|fu IH]; intros fuel first rest pre acc start r b k Hc Hk Hb Hr Hfuel Hm Hmax;
    [cbn in Hk; lia|].
  destruct (encode_loop_step fu first (len pre) rest Hc) as (Henc & Hlf & Hn & Hlast).
  set (n := Z.min (len rest) (room_of (len pre))) in *. set (f := take (Z.to_nat n) rest) in *.
  set (kind := chooseFragmentKind first (n =? len rest)) in *.
  set (more := encode_loop fu false _ _) in *. pose proof (pad_of_range (len pre)) as Hpad.
  set (pad := pad_of (len pre)) in *. rewrite Henc, app_assoc in Hb, Hk.
  set (frag := zeros pad ++ fragment_bytes f kind) in *.
  assert (len frag = pad + HeaderSize + n) as Hfl by (unfold frag; rewrite len_app, zeros_len, fragment_len; lia).
  assert (Z.of_nat (length frag) = pad + HeaderSize + n) as Hfl' by done.
  destruct (decide (k < length frag)%nat) as [Hin|Hout].
  { rewrite take_app_le in Hb by lia. rewrite negb_andb, <- (mid_assembling _ _ _ _ Hm).
    apply (next_loop_torn fuel r b pre f kind k); try done; [apply chooseFragmentKind_range|lia|].
    fold pad. lia. }
  rewrite take_app_ge in Hb by lia. rewrite length_app in Hk.
  destruct (next_loop_fragment fuel r b pre f kind (take (k - length frag) more)) as (fuel' & Hfuel' & Hnl);
    try done; [by rewrite Hb; unfold frag; rewrite <- !app_assoc|apply chooseFragmentKind_range|lia|].
  fold pad in Hfuel', Hnl. set (o1 := len pre + pad + HeaderSize + len f) in *.
  assert ((n =? len rest) = false) as Hnr.
  { destruct (n =? len rest) eqn:Hnr; [|done]. destruct (Hlast eq_refl) as [_ Hd]. exfalso.
    assert (more = []) as Hmo by (unfold more; rewrite Hd; by destruct fu).
    rewrite Hmo, length_nil in Hk. lia. }
  assert (len f + len (drop (Z.to_nat n) rest) = len rest) as Hsplit.
  { unfold f, len. rewrite length_take, length_drop. unfold len in *. lia. }
  destruct (accept_more first acc start (r_set_offset o1 r) b o1 f (len pre + pad))
    as (r' & Hacc & Hr' & Hm' & _ & Hv); [by destruct first|by eapply ready_set_offset|
    pose proof (len_nonneg (drop (Z.to_nat n) rest)); lia|].
  rewrite Hnl. unfold kind. rewrite Hnr, Hacc, (rd_err _ _ _ Hr').
  assert (len (pre ++ frag) = o1) as Hpre by (rewrite len_app; unfold o1; lia).
  destruct (IH fuel' false (drop (Z.to_nat n) rest) (pre ++ frag) (acc ++ f)
    (if first then len pre + pad else start) r' b (k - length frag)%nat) as (r2 & Hn2 & Hst).
  - apply Z.eqb_neq in Hnr. cbn. apply Z.eqb_neq. unfold len in *. rewrite length_drop. lia.
  - rewrite Hpre. unfold o1. rewrite Hlf. fold more. lia.
  - rewrite Hpre. unfold o1. rewrite Hlf. fold more. by rewrite Hb, <- app_assoc.
  - by rewrite Hpre.
  - rewrite Hpre, (rd_size _ _ _ Hr'), <- (rd_size _ _ _ Hr). done.
  - done.
  - rewrite len_app. lia.
  - exists r2. split; [done|]. rewrite (proj2 (Z.eqb_neq (Z.of_nat k) 0)) by wal_lia.
    rewrite (proj2 (Z.eqb_neq (Z.of_nat k) pad)) by wal_lia. rewrite andb_false_r.
    destruct Hst. split; [done|done| | |done].
    + by rewrite st_validEnd0, Hv.
    + by rewrite st_size0, (rd_size _ _ _ Hr'), (rd_size _ _ _ Hr).
Qed.

(** ** Scanning a log *)

Lemma encode_all_app off ps qs :
  encode_all off (ps ++ qs) = encode_all off ps ++ encode_all (off + len (encode_all off ps)) qs.
Proof.
  revert off. induction ps as [|p ps IH]; intros off; cbn; [by rewrite Z.add_0_r|].
  rewrite IH, <- app_assoc, len_app. do 3 f_equal. lia.
Qed.

Lemma encode_record_nonempty off p : 0 < len (encode_record off p).
Proof.
  unfold encode_record, append_fuel. rewrite Nat.add_comm. cbn [Nat.add].
  destruct (encode_loop_step (S (2 * length p)) true off p eq_refl) as (-> & _ & _ & _).
  pose proof (pad_of_range off). rewrite !len_app, zeros_len, fragment_len by lia.
  pose proof (len_nonneg (encode_loop (S (2 * length p)) false (off + pad_of off + HeaderSize +
    Z.min (len p) (room_of off)) (drop (Z.to_nat (Z.min (len p) (room_of off))) p))).
  pose proof (len_nonneg (take (Z.to_nat (Z.min (len p) (room_of off))) p)). wal_lia.
Qed.

(** Records the writer accepts. *)
Definition writable (p : bytes) : Prop := len p <= MaxRecordSize.

(** A reader between two records. *)
Definition between (r : Reader) (b : bytes) (off n : Z) : Prop :=
  ready r b off /\ assembling r = false /\ validEnd r = off /\ number r = u64 n.

Lemma Next_record p pre post r b n :
  b = pre ++ encode_record (len pre) p ++ post -> writable p -> between r b (len pre) n ->
  let off' := len pre + len (encode_record (len pre) p) in
  exists r', Next r = (r', true) /\ Payload (record r') = p /\
    Number (record r') = u64 n /\ between r' b off' (n + 1).
Proof.
  intros Hb Hp (Hr & Ha & Hv & Hn) off'. unfold Next.
  rewrite (rd_done _ _ _ Hr), (rd_err _ _ _ Hr), (rd_closed _ _ _ Hr). cbn [orb].
  destruct (next_record (append_fuel p) (next_fuel r) true p pre post [] 0 r b)
    as (r' & Hnx & Hr' & [Hrec Has Hve Hnum]); try done.
  - apply append_fuel_enough.
  - unfold next_fuel. rewrite (rd_offset _ _ _ Hr). lia.
  - exists r'. rewrite Hrec. do 2 (split; [done|]). split; [exact Hn|]. do 3 (split; [done|]).
    rewrite Hnum, Hn. unfold u64. by rewrite Zplus_mod_idemp_l.
Qed.

(** The callback takes every record of [ps] without an error. *)
Fixpoint accepts {S} (consume : S -> WalRecord -> S * bool) (s : S) (ps : list bytes) : Prop :=
  match ps with
  | [] => True
  | p :: ps => forall rec, Payload rec = p -> snd (consume s rec) = false /\ accepts consume (fst (consume s rec)) ps
  end.
Lemma accepts_all {S} (consume : S -> WalRecord -> S * bool) ps : (forall s rec, snd (consume s rec) = false) -> forall s, accepts consume s ps.
Proof. intros H. induction ps as [|p ps IH]; intros s; cbn; auto. Qed.

(** The scan of complete records goes on behind them. *)
Lemma recover_records {S} (consume : S -> WalRecord -> S * bool) ps : forall fuel pre post r b n s,
  accepts consume s ps -> Forall writable ps ->
  b = pre ++ encode_all (len pre) ps ++ post -> between r b (len pre) n ->
  size r - len pre < Z.of_nat fuel ->
  let off' := len pre + len (encode_all (len pre) ps) in
  exists fuel' r' recs, recover_loop consume fuel (u64 n) s r =
    recover_loop consume fuel' (u64 (n + Z.of_nat (length ps))) (foldl (fun s rec => fst (consume s rec)) s recs) r' /\
    Payload <$> recs = ps /\ between r' b off' (n + Z.of_nat (length ps)) /\ size r - off' < Z.of_nat fuel'.
Proof.
  induction ps as [|p ps IH]; intros fuel pre post r b n s Hcons Hps Hb Hbt Hfuel off'.
  { exists fuel, r, []. unfold off'. cbn. by rewrite !Z.add_0_r. }
  apply Forall_cons in Hps as [Hp Hps]. cbn [encode_all] in Hb, off'. rewrite <- app_assoc in Hb.
  destruct (Next_record p pre _ r b n Hb Hp Hbt) as (r1 & Hnx & Hpay & _ & Hbt1).
  pose proof (encode_record_nonempty (len pre) p) as Hne.
  assert (size r = len b) as Hsz by apply (rd_size _ _ _ (proj1 Hbt)).
  assert (size r1 = len b) as Hsz1 by apply (rd_size _ _ _ (proj1 Hbt1)).
  assert (len pre <= len b) as Hle by (rewrite Hb, len_app; pose proof (len_nonneg (encode_record (len pre) p ++ encode_all (len pre + len (encode_record (len pre) p)) ps ++ post)); lia).
  destruct fuel as [|fu]; [lia|]. cbn [recover_loop]. rewrite Hnx.
  destruct (Hcons (record r1) Hpay) as [He1 Hcons1].
  destruct (consume s (record r1)) as [s1 e1] eqn:Hc. cbn in He1, Hcons1. subst e1.
  assert (u64 (u64 n + 1) = u64 (n + 1)) as -> by (unfold u64; by rewrite Zplus_mod_idemp_l).
  destruct (IH fu (pre ++ encode_record (len pre) p) post r1 b (n + 1) s1) as (fu' & r' & recs & Hrec & Hpays & Hbt' & Hf').
  - done.
  - done.
  - by rewrite len_app, <- app_assoc.
  - by rewrite len_app.
  - rewrite len_app. lia.
  - rewrite len_app in *. exists fu', r', (record r1 :: recs). rewrite Hrec. cbn. rewrite Hc. cbn.
    replace (n + 1 + Z.of_nat (length ps)) with (n + Z.of_nat (Datatypes.S (length ps))) in * by lia.
    split_and!; [done|by rewrite Hpay, Hpays| |].
    + unfold off'. rewrite len_app, Z.add_assoc. done.
    + unfold off'. rewrite len_app. lia.
Qed.

(** ** Torn logs *)

(** The complete records of a log and the first [k] bytes of one more. *)
Definition torn_log (ps : list bytes) (p : bytes) (k : nat) : bytes :=
  encode_all 0 ps ++ take k (encode_record (len (encode_all 0 ps)) p).
Definition is_torn (ps : list bytes) (k : nat) : bool :=
  negb ((Z.of_nat k =? 0) || (Z.of_nat k =? pad_of (len (encode_all 0 ps)))).
Definition torn_ok (ps : list bytes) (p : bytes) (k : nat) : Prop :=
  Forall writable ps /\ writable p /\ (k < length (encode_record (len (encode_all 0 ps)) p))%nat.
Definition torn_result (ps : list bytes) (p : bytes) (k : nat) : RecoveryResult :=
  {| ValidEnd := len (encode_all 0 ps); FileEnd := len (torn_log ps p k);
     Records := u64 (Z.of_nat (length ps)); TailTruncated := is_torn ps k |}.

Lemma recover_loop_torn {S} (consume : S -> WalRecord -> S * bool) ps p k s :
  accepts consume s ps -> torn_ok ps p k ->
  let b := torn_log ps p k in
  exists r' recs, recover_loop consume (Datatypes.S (length b)) 0 s (start_reader b) =
      (foldl (fun s rec => fst (consume s rec)) s recs, r', (torn_result ps p k, None)) /\
    Payload <$> recs = ps /\ err r' = None /\
    (match tail r' with Some _ => true | None => false end) = is_torn ps k.
Proof.
  intros Hcons (Hps & Hp & Hk) b.
  destruct (recover_records consume ps (Datatypes.S (length b)) [] (take k (encode_record (len (encode_all 0 ps)) p))
    (start_reader b) b 0 s) as (fuel' & r1 & recs & Hrec & Hpay & (Hr1 & Ha1 & Hv1 & Hn1) & Hf'); try done.
  { cbn. unfold len. lia. }
  change (len []) with 0 in *. rewrite !Z.add_0_l in *. change (u64 0) with 0 in Hrec. rewrite Hrec.
  destruct fuel' as [|fu]; [cbn in Hf'; unfold b, torn_log in Hf'; rewrite len_app in Hf';
    pose proof (len_nonneg (take k (encode_record (len (encode_all 0 ps)) p))); lia|].
  cbn [recover_loop]. unfold Next. rewrite (rd_done _ _ _ Hr1), (rd_err _ _ _ Hr1), (rd_closed _ _ _ Hr1). cbn [orb].
  destruct (next_record_torn (append_fuel p) (next_fuel r1) true p (encode_all 0 ps) [] 0 r1 b k)
    as (r' & -> & [He Hd Hv Hs Ht]); try done.
  { unfold next_fuel. rewrite (rd_offset _ _ _ Hr1). lia. }
  cbn [andb] in Ht. fold (is_torn ps k) in Ht.
  exists r', recs. rewrite He, Hv, Hs, Ht, Hv1, (rd_size _ _ _ Hr1). done.
Qed.

Lemma collect_all recs : forall s, foldl (fun s rec => fst (collect s rec)) s recs = s ++ (Payload <$> recs).
Proof. induction recs as [|rec recs IH]; intros s; cbn; [by rewrite app_nil_r|]. by rewrite IH, <- app_assoc. Qed.

Lemma Recover_torn ps p k : torn_ok ps p k -> Recover (torn_log ps p k) = (ps, (torn_result ps p k, None)).
Proof.
  intros Hok. unfold Recover, recoverFromReader. cbn [size r_offset start_reader].
  rewrite Z.sub_0_r, len_to_nat.
  destruct (recover_loop_torn collect ps p k [] (accepts_all collect ps ltac:(done) []) Hok) as (r' & recs & -> & Hpay & _).
  by rewrite collect_all, Hpay.
Qed.

Lemma torn_log_nil ps : torn_log ps [] 0 = encode_all 0 ps.
Proof. unfold torn_log. by rewrite take_0, app_nil_r. Qed.
Lemma torn_ok_nil ps : Forall writable ps -> torn_ok ps [] 0.
Proof.
  intros H. split; [done|]. split; [unfold writable; by vm_compute|].
  pose proof (encode_record_nonempty (len (encode_all 0 ps)) []). unfold len at 1 in H0. lia.
Qed.

(** The records of [ps], written from [off], that are complete in a file of
    [k] bytes. *)
Fixpoint fitting (off k : Z) (ps : list bytes) : list bytes :=
  match ps with
  | [] => []
  | p :: ps' =>
      let e := off + len (encode_record off p) in
      if e <=? k then p :: fitting e k ps' else []
  end.

Lemma take_encode_all off ps k : Forall writable ps -> (k <= length (encode_all off ps))%nat ->
  let qs := fitting off (off + Z.of_nat k) ps in
  exists p k', writable p /\ Forall writable qs /\
    (k' < length (encode_record (off + len (encode_all off qs)) p))%nat /\
    take k (encode_all off ps) = encode_all off qs ++ take k' (encode_record (off + len (encode_all off qs)) p) /\
    qs `prefix_of` ps.
Proof.
  revert off k. induction ps as [|p ps IH]; intros off k Hps Hk qs.
  { exists [], 0%nat. cbn [encode_all qs fitting] in *. unfold qs. cbn [encode_all fitting].
    pose proof (encode_record_nonempty (off + len (@nil byte)) []) as Hne. unfold len in Hne at 1.
    rewrite take_nil, take_0. split_and!; try done. lia. }
  apply Forall_cons in Hps as [Hp Hps]. cbn [encode_all fitting] in *.
  unfold qs. destruct (Z.leb_spec (off + len (encode_record off p)) (off + Z.of_nat k)) as [Hle|Hgt].
  - rewrite length_app in Hk. set (e := encode_record off p) in *. unfold len in Hle at 1.
    destruct (IH (off + len e) (k - length e)%nat) as (p' & k' & Hp' & Hq & Hk' & Htk & Hpre); [done|lia|].
    replace (off + len e + Z.of_nat (k - length e)) with (off + Z.of_nat k) in * by (unfold len; lia).
    exists p', k'. cbn [encode_all]. fold e. rewrite len_app, Z.add_assoc.
    split_and!; [done|by constructor|done| |by apply prefix_cons].
    by rewrite take_app_ge, Htk, <- app_assoc by lia.
  - exists p, k. cbn [encode_all]. change (len []) with 0. rewrite Z.add_0_r. unfold len in Hgt.
    split_and!; [done|done|lia| |apply prefix_nil]. by rewrite take_app_le by lia.
Qed.

(** A crash image of a log, as a torn log. *)
Lemma log_prefix_torn ps k : Forall writable ps -> (k <= length (encode_all 0 ps))%nat ->
  let qs := fitting 0 (Z.of_nat k) ps in
  exists p k', torn_ok qs p k' /\ take k (encode_all 0 ps) = torn_log qs p k' /\ qs `prefix_of` ps.
Proof.
  intros Hps Hk. destruct (take_encode_all 0 ps k Hps Hk) as (p & k' & Hp & Hq & Hk' & Htk & Hpre).
  rewrite !Z.add_0_l in *. by exists p, k'.
Qed.

Lemma torn_FileEnd ps p k : FileEnd (torn_result ps p k) = len (torn_log ps p k).
Proof. done. Qed.

(** ** Writing *)

Section writing.
Context `{Laws : FileLaws}.

(** What a step of the writer leaves: a prefix of [data] was appended, the
    whole of it unless the writer is poisoned. *)
Record wrote (w w' : Writer) (data : bytes) (ok : bool) : Prop := {
  wr_contents : exists k, (k <= length data)%nat /\ (ok = true -> k = length data) /\
    contents (file w') = contents (file w) ++ take k data /\ offset w' = offset w + Z.of_nat k;
  wr_durable : durable (file w) <= durable (file w');
  wr_durability : durability w' = durability w;
  wr_closed : closed w' = closed w;
  wr_failed : if ok then failed w' = failed w else is_Some (failed w')
}.

Lemma wrote_refl w : wrote w w [] true.
Proof. split; try done. exists 0%nat. rewrite app_nil_r. split_and!; try done. lia. Qed.
Lemma wrote_full w w' data : wrote w w' data true ->
  contents (file w') = contents (file w) ++ data /\ offset w' = offset w + len data.
Proof.
  intros [(k & _ & Hk & Hc & Ho) _ _ _ _]. rewrite (Hk eq_refl), firstn_all in *.
  split; [done|]. by rewrite Ho.
Qed.
(** Writing one string after another. *)
Lemma wrote_seq w w' w'' d1 d2 ok : wrote w w' d1 true -> wrote w' w'' d2 ok -> wrote w w'' (d1 ++ d2) ok.
Proof.
  intros H1 [(k & Hk & Hkk & Hc & Ho) Hd2 Hu2 Hc2 Hf2]. pose proof (wrote_full _ _ _ H1) as [Hc1 Ho1].
  destruct H1 as [_ Hd1 Hu1 Hcl1 Hf1]. split; [|lia|congruence|congruence|].
  - exists (length d1 + k)%nat. rewrite length_app. split_and!; [lia|intros; rewrite Hkk by done; lia| |].
    + rewrite Hc, Hc1, take_app_add, <- app_assoc. done.
    + rewrite Ho, Ho1. unfold len. lia.
  - destruct ok; [congruence|done].
Qed.
Lemma wrote_stop w w' d1 d2 : wrote w w' d1 false -> wrote w w' (d1 ++ d2) false.
Proof.
  intros [(k & Hk & _ & Hc & Ho) ? ? ? ?]. split; try done. exists k. rewrite length_app, take_app_le by lia.
  split_and!; try done. lia.
Qed.

Definition no_error {E} (e : option E) : bool := match e with None => true | Some _ => false end.

Lemma write_loop_wrote fuel : forall data w, (length data <= fuel)%nat ->
  let '(w', e) := write_loop fuel data w in wrote w w' data (no_error e).
Proof.
  induction fuel as [|fu IH]; intros data w Hfuel.
  { destruct data; [apply wrote_refl|cbn in Hfuel; lia]. }
  destruct data as [|x data]; [apply wrote_refl|]. cbn [write_loop]. set (xs := x :: data) in *.
  destruct (file_write (file w) xs) as [f' [n e]] eqn:Hw.
  destruct (write_contents _ _ _ _ _ Hw) as (Hn & Hc & Hd).
  rewrite (proj2 (orb_false_iff (n <? 0) _)) by lia.
  assert (forall c, wrote w (fst (poison c (set_file f' (offset w + n) w))) xs false) as Hfail.
  { intros c. split; try done. exists (Z.to_nat n). split_and!; [unfold len in Hn; lia|done|done|cbn; lia]. }
  destruct e; [apply (Hfail [ErrIO])|].
  destruct (Z.eqb_spec n 0) as [Hn0|Hn0]; [apply (Hfail [ErrShortWrite])|].
  specialize (IH (drop (Z.to_nat n) xs) (set_file f' (offset w + n) w) ltac:(rewrite length_drop; cbn in *; lia)).
  destruct (write_loop _ _ _) as [w' e']. rewrite <- (take_drop (Z.to_nat n) xs).
  eapply wrote_seq; [|exact IH]. split; try done. exists (Z.to_nat n).
  unfold len in Hn. rewrite length_take, take_take. split_and!; [lia|lia|by rewrite Nat.min_id|cbn; lia].
Qed.
Lemma writeAll_wrote data w : let '(w', e) := writeAll data w in wrote w w' data (no_error e).
Proof. by apply write_loop_wrote. Qed.

(** The writer's loop writes the encoding of the record. *)
Lemma append_fragments_wrote fu : forall first start rest w,
  let '(w', res) := append_fragments fu first start rest w in
  wrote w w' (encode_loop fu first (offset w) rest) (is_ok res).
Proof.
  induction fu as [|fu IH]; intros first start rest w; [apply wrote_refl|].
  cbn [append_fragments encode_loop]. destruct (negb first && (len rest =? 0)) eqn:Hc;
    [apply wrote_refl|].
  fold (block_left (offset w)).
  set (pw := if block_left (offset w) <? HeaderSize then _ else _).
  assert (exists w1 e1 br, pw = (w1, e1, br) /\ wrote w w1 (zeros (pad_of (offset w))) (no_error e1) /\
    br - HeaderSize = room_of (offset w)) as (w1 & e1 & br & -> & Hw1 & Hbr).
  { unfold pw, pad_of, room_of. destruct (block_left (offset w) <? HeaderSize).
    - pose proof (writeAll_wrote (replicate (Z.to_nat (block_left (offset w))) Byte.x00) w) as Hpw.
      destruct (writeAll _ w) as [w1 e1]. by exists w1, e1, BlockSize.
    - exists w, None, (block_left (offset w)). split; [done|]. split; [apply wrote_refl|done]. }
  destruct e1 as [e1|]; [by apply wrote_stop|]. cbn [no_error] in Hw1. rewrite Hbr.
  set (n := Z.min (len rest) (room_of (offset w))). set (f := take (Z.to_nat n) rest).
  set (kind := chooseFragmentKind first (n =? len rest)).
  pose proof (writeAll_wrote (makeHeader f kind) w1) as Hw2.
  destruct (writeAll (makeHeader f kind) w1) as [w2 [e2|]]; cbn [no_error] in Hw2.
  { eapply wrote_seq; [done|]. unfold fragment_bytes. rewrite <- app_assoc. by apply wrote_stop. }
  pose proof (writeAll_wrote f w2) as Hw3. destruct (writeAll f w2) as [w3 [e3|]]; cbn [no_error] in Hw3.
  { eapply wrote_seq; [done|]. unfold fragment_bytes. rewrite <- app_assoc.
    eapply wrote_seq; [done|]. by apply wrote_stop. }
  assert (offset w3 = offset w + pad_of (offset w) + HeaderSize + n) as Ho.
  { rewrite (proj2 (wrote_full _ _ _ Hw3)), (proj2 (wrote_full _ _ _ Hw2)), (proj2 (wrote_full _ _ _ Hw1)).
    rewrite zeros_len by apply pad_of_range. unfold len at 1. rewrite makeHeader_length.
    apply (encode_loop_step fu first (offset w) rest) in Hc as (_ & Hlf & _). fold n f in Hlf. rewrite Hlf. done. }
  specialize (IH false (if first then offset w1 else start) (drop (Z.to_nat n) rest) w3). rewrite Ho in IH.
  destruct (append_fragments fu false _ _ w3) as [w4 res]. 
  eapply wrote_seq; [done|]. unfold fragment_bytes. rewrite <- app_assoc.
  eapply wrote_seq; [done|]. by eapply wrote_seq.
Qed.

Lemma syncLocked_wrote w : let '(w', e) := syncLocked w in
  wrote w w' [] (no_error e) /\ (e = None -> durable (file w') = len (contents (file w'))).
Proof.
  unfold syncLocked. destruct (file_sync (file w)) as [f' err] eqn:Hs.
  destruct (sync_contents _ _ _ Hs) as (Hc & Hd & Hl).
  assert (forall w' ok, file w' = f' -> offset w' = offset w -> durability w' = durability w ->
    closed w' = closed w -> (if ok : bool then failed w' = failed w else is_Some (failed w')) -> wrote w w' [] ok) as Hwr.
  { intros w' ok Hf Ho Hu Hcl Hfl. split; try congruence; rewrite ?Hf; try done.
    exists 0%nat. rewrite app_nil_r. split_and!; [done|done|done|lia]. }
  assert (forall c w', file w' = f' -> offset w' = offset w -> durability w' = durability w ->
    closed w' = closed w -> wrote w (fst (poison c w')) [] false) as Hpo by (intros; by apply Hwr; [..|eexists]).
  destruct err; [split; [by apply (Hpo [ErrIO])|done]|].
  destruct (directory _) as [d|]; [|split; [by apply Hwr|cbn; rewrite Hc; intros; by apply Hl]].
  destruct (dir_sync d); [split; [by apply (Hpo [ErrIO])|done]|].
  destruct (dir_close d); [split; [by apply (Hpo [ErrIO])|done]|].
  split; [by apply Hwr|cbn; rewrite Hc; intros; by apply Hl].
Qed.

(** [Append], on every branch. *)
Lemma Append_spec p w : let '(w', res) := Append p w in
  (w' = w /\ is_ok res = false) \/
  (writable p /\ failed w = None /\ wrote w w' (encode_record (offset w) p) (is_ok res) /\
   (is_ok res = true -> durability w = SyncBatch -> durable (file w') = len (contents (file w')))).
Proof.
  unfold Append. destruct (Z.ltb_spec MaxRecordSize (len p)) as [Hp|Hp]; [by left|].
  destruct (closed w) eqn:Hcl; [by left|]. destruct (failed w) as [e|] eqn:Hf; [by left|].
  pose proof (append_fragments_wrote (append_fuel p) true 0 p w) as Haf. fold (encode_record (offset w) p) in Haf.
  destruct (append_fragments _ true 0 p w) as [w1 res]. rename Haf into Hw1.
  destruct res as [start|e]; cbn [is_ok] in Hw1; [|by right].
  rewrite (wr_durability _ _ _ _ Hw1).
  destruct (Z.eqb_spec (durability w) SyncBatch) as [Hsb|Hsb]; [|by right].
  pose proof (syncLocked_wrote w1) as Hsy. destruct (syncLocked w1) as [w2 e]. destruct Hsy as [Hw2 Hd2].
  rewrite <- (app_nil_r (encode_record _ _)).
  destruct e; right; (do 2 (split; [done|])); (split; [by eapply wrote_seq|]); cbn; [done|].
  intros. by apply Hd2.
Qed.

(** ** Histories of a writer *)

Inductive wal_op := WAppend (p : bytes) | WSync | WClose.

(** The writer, the records it has acknowledged and those acknowledged at the
    last successful sync. *)
Record history := { writer : Writer; acked : list bytes; synced : list bytes }.

Definition wal_step (o : wal_op) (h : history) : history :=
  match o with
  | WAppend p =>
      let '(w', res) := Append p (writer h) in
      if is_ok res then
        let a := acked h ++ [p] in
        {| writer := w'; acked := a; synced := if durability (writer h) =? SyncBatch then a else synced h |}
      else {| writer := w'; acked := acked h; synced := synced h |}
  | WSync =>
      let '(w', e) := Sync (writer h) in
      {| writer := w'; acked := acked h; synced := if no_error e then acked h else synced h |}
  | WClose => {| writer := fst (Close (writer h)); acked := acked h; synced := synced h |}
  end.
Definition wal_run (ops : list wal_op) (h : history) : history := foldl (fun h o => wal_step o h) h ops.

Record wal_inv (h : history) : Prop := {
  wi_writable : Forall writable (acked h);
  wi_synced : synced h `prefix_of` acked h;
  wi_durable : len (encode_all 0 (synced h)) <= durable (file (writer h));
  wi_offset : offset (writer h) = len (contents (file (writer h)));
  wi_contents : exists p k, writable p /\
    (k <= length (encode_record (len (encode_all 0 (acked h))) p))%nat /\
    contents (file (writer h)) = torn_log (acked h) p k /\
    (failed (writer h) = None -> is_torn (acked h) k = false)
}.

(** A record written behind a complete padding is the record written before
    it. *)
Lemma pad_of_padded off : pad_of (off + pad_of off) = 0 /\ room_of (off + pad_of off) = room_of off.
Proof.
  pose proof (block_left_padded off) as Hb. pose proof (room_of_range off).
  unfold pad_of at 1, room_of at 1. rewrite Hb.
  rewrite (proj2 (Z.ltb_ge _ _)) by lia. lia.
Qed.
Lemma encode_record_padded off p :
  encode_record off p = zeros (pad_of off) ++ encode_record (off + pad_of off) p.
Proof.
  unfold encode_record, append_fuel. rewrite Nat.add_comm. cbn [Nat.add encode_loop negb andb].
  destruct (pad_of_padded off) as [-> ->]. by rewrite Z.add_0_r.
Qed.

Lemma torn_log_append ps p k q j : is_torn ps k = false ->
  (k <= length (encode_record (len (encode_all 0 ps)) p))%nat ->
  torn_log ps p k ++ take j (encode_record (len (torn_log ps p k)) q) = torn_log ps q (k + j).
Proof.
  unfold is_torn, torn_log. intros Hk Hle. apply negb_false_iff, orb_true_iff in Hk as [Hk|Hk]; apply Z.eqb_eq in Hk.
  - destruct k; [|lia]. rewrite take_0, app_nil_r. done.
  - set (off := len (encode_all 0 ps)) in *. pose proof (pad_of_range off).
    assert (forall q, take k (encode_record off q) = zeros (pad_of off)) as Htk.
    { intros q'. rewrite encode_record_padded, <- (Nat2Z.id k), Hk.
      rewrite take_app_le, take_ge by (unfold zeros; rewrite length_replicate; lia). done. }
    rewrite Htk, len_app, zeros_len, <- app_assoc by lia. f_equal. fold off.
    rewrite (encode_record_padded off q). replace k with (length (zeros (pad_of off)))
      by (unfold zeros; rewrite length_replicate; lia).
    by rewrite take_app_add.
Qed.
Lemma torn_log_full ps p k : k = length (encode_record (len (encode_all 0 ps)) p) ->
  torn_log ps p k = encode_all 0 (ps ++ [p]).
Proof. intros ->. unfold torn_log. rewrite firstn_all, encode_all_app. cbn. by rewrite app_nil_r. Qed.

Lemma torn_log_length ps p k q : is_torn ps k = false ->
  (k <= length (encode_record (len (encode_all 0 ps)) p))%nat ->
  (k + length (encode_record (len (torn_log ps p k)) q))%nat = length (encode_record (len (encode_all 0 ps)) q).
Proof.
  intros Hk Hle. pose proof Hk as Hk'. unfold is_torn in Hk'. apply negb_false_iff, orb_true_iff in Hk'.
  assert (len (torn_log ps p k) = len (encode_all 0 ps) + Z.of_nat k) as ->.
  { unfold torn_log. by rewrite len_app, len_take. }
  destruct Hk' as [Hk'|Hk']; apply Z.eqb_eq in Hk'.
  - rewrite Hk', Z.add_0_r. lia.
  - rewrite Hk', (encode_record_padded (len (encode_all 0 ps)) q), length_app. f_equal.
    unfold zeros. rewrite length_replicate. lia.
Qed.

(** A step that wrote (part of) a record. *)
Lemma wal_inv_wrote h w' p ok : wal_inv h -> writable p -> failed (writer h) = None ->
  wrote (writer h) w' (encode_record (offset (writer h)) p) ok ->
  (if ok then acked h ++ [p] else acked h) `prefix_of` acked h ++ [p] /\
  forall s, s `prefix_of` (if ok then acked h ++ [p] else acked h) ->
    len (encode_all 0 s) <= durable (file w') ->
    wal_inv {| writer := w'; acked := if ok then acked h ++ [p] else acked h; synced := s |}.
Proof.
  intros [Hw Hs Hd Ho (q & k & Hq & Hk & Hc & Ht)] Hp Hf Hwr. specialize (Ht Hf).
  split; [destruct ok; [done|by apply prefix_app_r]|]. intros s Hsp Hsd.
  destruct Hwr as [(j & Hj & Hjf & Hc' & Ho') _ _ _ Hf']. rewrite Ho, Hc in *.
  pose proof (torn_log_append (acked h) q k p j Ht Hk) as Happ. rewrite Happ in Hc'.
  pose proof (torn_log_length (acked h) q k p Ht Hk) as Hlen.
  assert (offset w' = len (contents (file w'))) as Hoff.
  { by rewrite Ho', Hc', <- Happ, len_app, len_take. }
  destruct ok; split; try done; cbn [acked writer synced].
  - by apply Forall_app; split; [|constructor].
  - exists [], 0%nat. rewrite torn_log_nil, Hc'. split; [by apply Z.leb_le|]. split; [lia|]. split; [|done].
    apply torn_log_full. by rewrite (Hjf eq_refl).
  - exists p, (k + j)%nat. split; [done|]. split; [lia|]. split; [done|]. intros Hn. rewrite Hn in Hf'. by destruct Hf'.
Qed.

(** A step that left the contents alone. *)
Lemma wal_inv_same h w' s : wal_inv h -> contents (file w') = contents (file (writer h)) ->
  offset w' = offset (writer h) -> (failed w' = None -> failed (writer h) = None) ->
  s `prefix_of` acked h -> len (encode_all 0 s) <= durable (file w') ->
  wal_inv {| writer := w'; acked := acked h; synced := s |}.
Proof.
  intros [Hw Hs Hd Ho (q & k & Hq & Hk & Hc & Ht)] Hc' Ho' Hf' Hsp Hsd. split; cbn; try done; [congruence|].
  exists q, k. rewrite Hc'. naive_solver.
Qed.

Lemma acked_contents h : wal_inv h -> len (encode_all 0 (acked h)) <= len (contents (file (writer h))).
Proof.
  intros [_ _ _ _ (q & k & _ & _ & -> & _)]. unfold torn_log. rewrite len_app.
  pose proof (len_nonneg (take k (encode_record (len (encode_all 0 (acked h))) q))). lia.
Qed.

Lemma wal_step_inv o h : wal_inv h -> wal_inv (wal_step o h).
Proof.
  intros Hi. pose proof (wi_durable _ Hi) as Hd. destruct o as [p| |]; cbn [wal_step].
  - pose proof (Append_spec p (writer h)) as Ha. destruct (Append p (writer h)) as [w' res].
    destruct Ha as [[-> ->]|(Hp & Hf & Hwr & Hsy)]; [by destruct h|].
    destruct (wal_inv_wrote h w' p (is_ok res) Hi Hp Hf Hwr) as [_ Hinv].
    pose proof (wr_durable _ _ _ _ Hwr) as Hdu. pose proof (wi_synced _ Hi) as Hs.
    destruct (is_ok res); [|by apply Hinv; [|lia]].
    destruct (Z.eqb_spec (durability (writer h)) SyncBatch) as [Hsb|_]; cbn in *.
    + apply Hinv; [done|]. rewrite (Hsy eq_refl Hsb). apply (acked_contents {| writer := w'; acked := _; synced := [] |}).
      apply Hinv; [apply prefix_nil|]. rewrite (Hsy eq_refl Hsb). apply len_nonneg.
    + apply Hinv; [by apply prefix_app_r|lia].
  - unfold Sync. destruct (closed (writer h)); [by destruct h|]. destruct (failed (writer h)) eqn:Hf; [by destruct h|].
    pose proof (syncLocked_wrote (writer h)) as Hsy. destruct (syncLocked (writer h)) as [w' e].
    destruct Hsy as [[(k & Hk & _ & Hc & Ho) Hdu _ _ _] Hsd]. cbn in Hk.
    assert (k = 0%nat) as -> by lia. rewrite app_nil_r in Hc.
    apply wal_inv_same; try done; [lia| |].
    + destruct e; [apply Hi|done].
    + destruct e; cbn; [lia|]. rewrite Hsd, Hc by done. by apply acked_contents.
  - unfold Close. destruct (closed (writer h)); [by destruct h|].
    destruct (file_close (file (writer h))) as [f' e] eqn:Hcl. destruct (close_contents _ _ _ Hcl) as [Hc Hdu].
    apply wal_inv_same; try done; [apply Hi|cbn; lia].
Qed.
Lemma wal_run_inv ops h : wal_inv h -> wal_inv (wal_run ops h).
Proof. revert h. induction ops as [|o ops IH]; intros h Hi; [done|]. apply IH, wal_step_inv, Hi. Qed.

(** ** Scans of a file whose reads may fail

    A scan with faults does what the scan without them does, or stops with an
    error. *)
Definition calm (r : Reader) : Reader :=
  mkReader (file_source (data (reader r))) (size r) (closer r) (r_offset r) (validEnd r) (record r) (number r) (assembly r) (assembling r)
    (recordAt r) (tail r) (err r) (done_ r) (r_closed r) (r_closeErr r).
Lemma readFullAt_calm n o r : readFullAt n o (calm r) = readFullAt n o r \/ exists e, readFullAt n o r = Err e.
Proof. unfold readFullAt. destruct (n =? 0); [by left|]. destruct (fault (reader r) o n); [right; eauto|by left]. Qed.
Lemma consumePadding_calm br r : let '(r', b) := consumePadding br r in
  consumePadding br (calm r) = (calm r', b) \/ b = false /\ is_Some (err r').
Proof.
  unfold consumePadding. cbn [size r_offset calm]. destruct (readFullAt_calm (Z.min br (size r - r_offset r)) (r_offset r) r) as [->|[e ->]]; [|right; eauto].
  destruct (readFullAt _ _ r) as [pad|e]; [|by left]. destruct (negb _); [by left|]. destruct (_ <? _); by left.
Qed.
Lemma acceptFragment_calm kind p at_ r : acceptFragment kind p at_ (calm r) = (calm (acceptFragment kind p at_ r).1, (acceptFragment kind p at_ r).2).
Proof.
  unfold acceptFragment, finishRecord, appendFragment. cbn [assembling assembly calm].
  repeat (match goal with |- context [if ?b then _ else _] => destruct b end; cbn [assembly assembling recordAt calm r_set_assembly r_set_err]); done.
Qed.
Lemma read_fragment_calm br r : let '(r', b) := read_fragment br r in
  read_fragment br (calm r) = (calm r', b) \/ b = Some false /\ is_Some (err r').
Proof.
  unfold read_fragment. cbn [size r_offset calm]. destruct (readFullAt_calm HeaderSize (r_offset r) r) as [->|[e ->]]; [|right; eauto].
  destruct (readFullAt HeaderSize _ r) as [h|e]; [|by left]. destruct (negb _); [by left|]. destruct (negb _); [by left|]. destruct (_ || _); [by left|]. destruct (_ <? _); [by left|]. destruct (_ <? _); [by left|].
  destruct (readFullAt_calm (le_get (slice 8 10 h)) (r_offset r + HeaderSize) r) as [->|[e ->]]; [|right; eauto].
  destruct (readFullAt _ (r_offset r + HeaderSize) r) as [p|e]; [|by left]. destruct (negb _); [by left|].
  change (r_set_offset ?o (calm r)) with (calm (r_set_offset o r)). rewrite acceptFragment_calm. destruct (acceptFragment _ _ _ _) as [r' b]. by left.
Qed.
Lemma next_loop_calm fuel : forall r, let '(r', b) := next_loop fuel r in
  next_loop fuel (calm r) = (calm r', b) \/ b = false /\ is_Some (err r').
Proof.
  induction fuel as [|fu IH]; intros r; cbn [next_loop]; [by left|]. cbn [size r_offset calm assembling recordAt]. fold (calm r).
  destruct (r_offset r =? size r); [left; by destruct (assembling r)|]. destruct (_ <? HeaderSize).
  - pose proof (consumePadding_calm (BlockSize - r_offset r mod BlockSize) r) as Hc. destruct (consumePadding _ r) as [r' b].
    destruct Hc as [->|[-> He]]; [|by right]. destruct b; [apply IH|by left].
  - destruct (size r - r_offset r <? HeaderSize); [by left|].
    pose proof (read_fragment_calm (BlockSize - r_offset r mod BlockSize) r) as Hc. destruct (read_fragment _ r) as [r' b].
    destruct Hc as [->|[-> He]]; [|by right]. destruct b; [by left|apply IH].
Qed.
Lemma Next_calm r : let '(r', b) := Next r in Next (calm r) = (calm r', b) \/ b = false /\ is_Some (err r').
Proof. unfold Next. cbn [done_ err r_closed calm]. destruct (_ || _); [by left|]. apply (next_loop_calm (next_fuel r)). Qed.
Lemma drain_calm fuel : forall r, drain fuel (calm r) = calm (drain fuel r) \/ is_Some (err (drain fuel r)).
Proof.
  induction fuel as [|fu IH]; intros r; cbn [drain]; [by left|]. pose proof (Next_calm r) as Hn. destruct (Next r) as [r' b].
  destruct Hn as [->|[-> He]]; [|by right]. destruct b; [apply IH|by left].
Qed.
Lemma recover_calm {S} (consume : S -> WalRecord -> S * bool) fuel : forall n s r, let '(s', r', (res, e)) := recover_loop consume fuel n s r in
  recover_loop consume fuel n s (calm r) = (s', calm r', (res, e)) \/ is_Some e.
Proof.
  induction fuel as [|fu IH]; intros n s r; cbn [recover_loop]; [by left|]. pose proof (Next_calm r) as Hn. destruct (Next r) as [r' b].
  destruct Hn as [->|[-> He]]; [|by right]. destruct b; [|by left]. change (record (calm r')) with (record r').
  destruct (consume s (record r')) as [s' []]; [by left|apply IH].
Qed.

(** Opening a writer: torn logs are refused, the others continued. *)
Lemma drain_recover fuel : forall n r,
  drain fuel r = snd (fst (recover_loop (fun s _ => (s, false)) fuel n tt r)).
Proof.
  induction fuel as [|fu IH]; intros n r; [done|]. cbn. destruct (Next r) as [r' []]; [apply IH|done].
Qed.
Lemma OpenWriter_torn f d ps p k dur : torn_ok ps p k -> durability_valid dur = true ->
  OpenWriter f d (torn_log ps p k) dur no_faults =
    if is_torn ps k then Err [ErrTruncatedTail]
    else Ok (newWriterWithDirectory f d (len (torn_log ps p k)) dur).
Proof.
  intros Hok Hdur. unfold OpenWriter. rewrite Hdur. cbn [negb fails_open fails_directory fails_stat no_faults].
  change (scan_reader no_faults ?b) with (start_reader b). rewrite (drain_recover _ 0).
  destruct (recover_loop_torn (fun s _ => (s, false)) ps p k tt (accepts_all (fun s _ => (s, false)) ps ltac:(done) tt) Hok) as (r' & recs & -> & _ & He & Ht).
  cbn. rewrite He. destruct d, (tail r'); by rewrite <- Ht.
Qed.
(** Whatever fails, only a log that is not torn is opened. *)
Lemma OpenWriter_ok f d ps p k dur os w : torn_ok ps p k ->
  OpenWriter f d (torn_log ps p k) dur os = Ok w ->
  is_torn ps k = false /\ w = newWriterWithDirectory f d (len (torn_log ps p k)) dur.
Proof.
  intros Hok. unfold OpenWriter. destruct (err (drain _ (scan_reader os _))) as [e|] eqn:Hscan; [by repeat case_match|].
  destruct (drain_calm (Datatypes.S (length (torn_log ps p k))) (scan_reader os (torn_log ps p k))) as [Hd|[e Hd]]; [|congruence].
  change (tail (drain ?n ?r)) with (tail (calm (drain n r))). rewrite <- Hd.
  change (calm (scan_reader os ?b)) with (start_reader b). rewrite (drain_recover _ 0).
  destruct (recover_loop_torn (fun s _ => (s, false)) ps p k tt (accepts_all (fun s _ => (s, false)) ps ltac:(done) tt) Hok) as (r' & recs & -> & _ & He & Ht).
  cbn [fst snd]. rewrite <- Ht. destruct (tail r'); repeat case_match; naive_solver.
Qed.

End writing.

(** ** What survives *)

Lemma fitting_prefix ss : forall off k ps, ss `prefix_of` ps -> off + len (encode_all off ss) <= k ->
  ss `prefix_of` fitting off k ps.
Proof.
  induction ss as [|p ss IH]; intros off k ps Hpre Hk; [apply prefix_nil|].
  destruct ps as [|q ps]; [by apply prefix_nil_not in Hpre|].
  pose proof (prefix_cons_inv_1 _ _ _ _ Hpre) as <-. apply prefix_cons_inv_2 in Hpre.
  cbn [encode_all] in Hk. rewrite len_app in Hk. cbn [fitting].
  pose proof (len_nonneg (encode_all (off + len (encode_record off p)) ss)).
  rewrite (proj2 (Z.leb_le _ _)) by lia. apply prefix_cons, IH; [done|lia].
Qed.

(** Crash recovery is exact.  Cut the file of any list of records at any
    byte: [Recover] returns the records that were completely written, in
    order, [ValidEnd] is the end of the last of them, and no corruption is
    reported. *)
Theorem recover_every_prefix ps k : Forall writable ps -> (k <= length (encode_all 0 ps))%nat ->
  let qs := fitting 0 (Z.of_nat k) ps in
  exists torn, Recover (take k (encode_all 0 ps)) =
    (qs, ({| ValidEnd := len (encode_all 0 qs); FileEnd := Z.of_nat k;
             Records := u64 (Z.of_nat (length qs)); TailTruncated := torn |}, None)) /\
    (k = length (encode_all 0 ps) -> qs = ps /\ torn = false).
Proof.
  intros Hps Hk qs. destruct (decide (k = length (encode_all 0 ps))) as [->|Hne].
  - assert (qs = ps) as Hqs.
    { apply (anti_symm prefix); [|by apply fitting_prefix; [|unfold len; lia]].
      by destruct (log_prefix_torn ps _ Hps Hk) as (_ & _ & _ & _ & Hpre). }
    exists false. split; [|done]. rewrite Hqs, firstn_all, <- (torn_log_nil ps), Recover_torn by by apply torn_ok_nil.
    unfold torn_result. by rewrite torn_log_nil.
  - destruct (log_prefix_torn ps k Hps Hk) as (p & k' & Hok & Htk & _). fold qs in Hok, Htk.
    exists (is_torn qs k'). split; [|done]. rewrite Htk, Recover_torn by done. unfold torn_result.
    by rewrite <- Htk, len_take.
Qed.

Lemma RepairTail_torn ps p k : torn_ok ps p k -> is_torn ps k = true ->
  RepairTail (torn_log ps p k) (torn_result ps p k) no_faults = (encode_all 0 ps, None).
Proof.
  intros Hok Ht. unfold RepairTail, recoverFromReader. change (scan_reader no_faults ?b) with (start_reader b). cbn [TailTruncated torn_result fails_open fails_stat no_faults]. rewrite Ht. cbn [negb].
  cbn [size r_offset start_reader]. rewrite Z.sub_0_r, len_to_nat.
  destruct (recover_loop_torn (fun s _ => (s, false)) ps p k tt (accepts_all (fun s _ => (s, false)) ps ltac:(done) tt) Hok) as (r' & recs & -> & _).
  rewrite bool_decide_true by done. cbn [negb orb TailTruncated torn_result ValidEnd]. rewrite Ht. cbn [negb].
  unfold torn_log. rewrite len_to_nat. by rewrite take_app_length.
Qed.

(** C27. Repair.  When [Recover] reports a torn tail in a crash image,
    [RepairTail] with the reported result leaves exactly the complete
    records, and [OpenWriter] refuses the image before the repair and accepts
    it, at its end, after. *)
Theorem repair_reopens `{WritableFile} ps k f d dur qs res :
  Forall writable ps -> (k <= length (encode_all 0 ps))%nat -> durability_valid dur = true ->
  Recover (take k (encode_all 0 ps)) = (qs, (res, None)) -> TailTruncated res = true ->
  OpenWriter f d (take k (encode_all 0 ps)) dur no_faults = Err [ErrTruncatedTail] /\
  RepairTail (take k (encode_all 0 ps)) res no_faults = (encode_all 0 qs, None) /\
  OpenWriter f d (encode_all 0 qs) dur no_faults = Ok (newWriterWithDirectory f d (len (encode_all 0 qs)) dur).
Proof.
  intros Hps Hk Hdur Hrec Htorn. destruct (log_prefix_torn ps k Hps Hk) as (p & k' & Hok & Htk & _).
  set (q := fitting 0 (Z.of_nat k) ps) in *. rewrite Htk in *. rewrite Recover_torn in Hrec by done.
  injection Hrec as <- <-. cbn in Htorn.
  split; [|split].
  - by rewrite OpenWriter_torn, Htorn.
  - by apply RepairTail_torn.
  - by rewrite <- (torn_log_nil q), OpenWriter_torn by (done || apply torn_ok_nil, Hok).
Qed.

(** C15. Durability of the log.  Open a writer on any crash image and run any
    appends, syncs and closes, with the file failing or short-writing as it
    likes.  Whatever prefix of the file a crash leaves, as long as it keeps
    what was synced, recovery reports no error, returns every record
    acknowledged before the last successful sync (with [SyncBatch], every
    acknowledged record), and nothing but acknowledged records and at most
    the one whose write was cut; if the whole file is there, every
    acknowledged record is returned. *)
Theorem wal_durability `{FileLaws} base p0 k0 f d dur os w ops k :
  torn_ok base p0 k0 -> contents f = torn_log base p0 k0 -> 0 <= durable f ->
  OpenWriter f d (contents f) dur os = Ok w ->
  let h := wal_run ops {| writer := w; acked := base; synced := [] |} in
  let b := contents (file (writer h)) in
  durable (file (writer h)) <= Z.of_nat k -> (k <= length b)%nat ->
  exists qs res p, Recover (take k b) = (qs, (res, None)) /\ synced h `prefix_of` qs /\
    qs `prefix_of` acked h ++ [p] /\ (k = length b -> acked h `prefix_of` qs).
Proof.
  intros Hok Hc Hd0 Hopen h b Hd Hk. rewrite Hc in Hopen.
  apply OpenWriter_ok in Hopen as [Ht ->]; [|done].
  assert (wal_inv h) as [Hw Hs Hsd _ (p & j & Hp & Hj & Hb & _)].
  { apply wal_run_inv. destruct Hok as (Hps & Hp & Hk0). split; cbn [acked writer synced]; [done|apply prefix_nil|done| |].
    - by cbn; rewrite Hc.
    - exists p0, k0. split_and!; [done|lia|done|done]. }
  assert (b = take (length b) (encode_all 0 (acked h ++ [p]))) as Hpre.
  { unfold b. rewrite Hb. unfold torn_log. rewrite encode_all_app, length_app, take_app_add. cbn.
    rewrite app_nil_r, length_take, Nat.min_l by done. done. }
  assert (length b <= length (encode_all 0 (acked h ++ [p])))%nat as Hlb by (rewrite Hpre, length_take; lia).
  assert (take k b = take k (encode_all 0 (acked h ++ [p]))) as Htk.
  { rewrite Hpre, take_take. by rewrite Nat.min_l. }
  assert (Forall writable (acked h ++ [p])) as Hall by (by apply Forall_app; split; [|constructor]).
  destruct (log_prefix_torn (acked h ++ [p]) k Hall ltac:(lia)) as (p' & k' & Hok' & Htk' & Hpq).
  exists (fitting 0 (Z.of_nat k) (acked h ++ [p])). eexists. exists p.
  rewrite Htk, Htk', Recover_torn by done. split_and!; [done| |done|].
  - apply fitting_prefix; [by apply prefix_app_r|lia].
  - intros ->. apply fitting_prefix; [by apply prefix_app_r|]. unfold b. rewrite Hb. unfold torn_log.
    rewrite length_app. unfold len. lia.
Qed.

(** ** Corruption *)

(** [g] is [e] with one byte changed. *)
Definition flipped (e g : bytes) : Prop :=
  exists a x y c, e = a ++ x :: c /\ g = a ++ y :: c /\ x <> y.

Lemma flipped_length e g : flipped e g -> length g = length e.
Proof. intros (a & x & y & c & -> & -> & _). by rewrite !length_app. Qed.
Lemma flipped_neq e g : flipped e g -> g <> e.
Proof. intros (a & x & y & c & -> & -> & Hne) Heq. apply app_inv_head in Heq. congruence. Qed.
Lemma flipped_nil g : ~ flipped [] g.
Proof. intros (a & x & y & c & He & _). by destruct a. Qed.
Lemma flipped_app e1 e2 g : flipped (e1 ++ e2) g ->
  (exists g1, g = g1 ++ e2 /\ flipped e1 g1) \/ (exists g2, g = e1 ++ g2 /\ flipped e2 g2).
Proof.
  intros (a & x & y & c & He & -> & Hne).
  apply app_eq_inv in He as [(k & -> & He)|(k & -> & He)].
  - destruct k as [|z k]; cbn in He.
    + subst e2. right. exists (y :: c). rewrite app_nil_r. split; [done|]. by exists [], x, y, c.
    + injection He as <- ->. left. exists (a ++ y :: k). rewrite <- app_assoc. split; [done|]. by exists a, x, y, k.
  - subst e2. right. exists (k ++ y :: c). rewrite <- app_assoc. split; [done|]. by exists k, x, y, c.
Qed.
Lemma flipped_crc crc e g : is_u32 crc -> flipped e g -> crc32_update crc g <> crc32_update crc e.
Proof. intros Hc (a & x & y & c & -> & -> & Hne). apply crc32_detects_byte_error; congruence. Qed.
Lemma flipped_le_get n z g : flipped (le_put n z) g -> le_get g <> z.
Proof.
  intros Hf <-. apply (flipped_neq _ _ Hf). symmetry. apply le_put_get.
  by rewrite (flipped_length _ _ Hf), le_put_length.
Qed.

(** A changed byte in a fragment fails a checksum. *)
Lemma read_fragment_flipped r b pre f kind g post :
  flipped (fragment_bytes f kind) g -> b = pre ++ g ++ post -> ready r b (len pre) ->
  1 <= kind <= 4 -> len f <= block_left (len pre) - HeaderSize ->
  exists e, read_fragment (block_left (len pre)) r = (r_set_err (Corruption (len pre) e) r, Some false).
Proof.
  intros Hg Hb Hr Hk Hroom. unfold fragment_bytes, makeHeader in Hg. rewrite <- !app_assoc in Hg.
  set (t := header_tail f kind) in *. pose proof (header_tail_length f kind) as Ht. fold t in Ht.
  assert (is_u32 (crc32_checksum t)) as Hcr by apply crc32_checksum_range.
  pose proof (le_put_length 4) as L4.
  apply flipped_app in Hg as [(c & -> & Hc)|(g1 & -> & Hg)].
  - pose proof (flipped_length _ _ Hc) as Hcl. rewrite L4 in Hcl. exists ErrChecksumMismatch.
    rewrite (read_fragment_content r b pre c f f kind post) by (done || by rewrite Hb, <- !app_assoc). fold t.
    rewrite (proj2 (Z.eqb_neq _ _)); [done|]. by apply (flipped_le_get 4).
  - apply flipped_app in Hg as [(h & -> & Hh)|(g2 & -> & Hg)].
    + pose proof (flipped_length _ _ Hh) as Hhl. rewrite L4 in Hhl. exists ErrHeaderChecksumMismatch.
      apply (read_fragment_header r b pre (le_put 4 (crc32_update (crc32_checksum t) f)) h t (f ++ post)); [apply L4|done|done|by rewrite Hb, <- !app_assoc|done|].
      by apply (flipped_le_get 4).
    + apply flipped_app in Hg as [(t' & -> & Ht')|(f' & -> & Hf')].
      * pose proof (flipped_length _ _ Ht') as Htl. exists ErrHeaderChecksumMismatch.
        apply (read_fragment_header r b pre (le_put 4 (crc32_update (crc32_checksum t) f))
          (le_put 4 (crc32_checksum t)) t' (f ++ post)); [apply L4|apply L4|lia|by rewrite Hb, <- !app_assoc|done|].
        rewrite le_get_put32 by done. rewrite (crc32_checksum_update t), (crc32_checksum_update t'). apply not_eq_sym, flipped_crc; [unfold is_u32; lia|done].
      * pose proof (flipped_length _ _ Hf') as Hfl. exists ErrChecksumMismatch.
        assert (len f' = len f) as Hlen by (unfold len; by rewrite Hfl).
        rewrite (read_fragment_content r b pre (le_put 4 (crc32_update (crc32_checksum t) f)) f f' kind post);
          [|apply L4|done|by rewrite Hb, <- !app_assoc|done|done|lia].
        fold t. rewrite le_get_put32 by by apply crc32_update_range.
        rewrite (proj2 (Z.eqb_neq _ _)); [done|]. by apply not_eq_sym, flipped_crc.
Qed.

(** A reader that stopped at a corruption. *)
Definition corrupted (r r' : Reader) : Prop :=
  validEnd r' = validEnd r /\ exists at_ e, err r' = Some (Corruption at_ e).

Lemma corrupted_set_err r o at_ e : corrupted r (r_set_err (Corruption at_ e) (r_set_offset o r)).
Proof. split; [done|]. by exists at_, e. Qed.

Lemma next_loop_padding_flipped fuel r b pre g post :
  flipped (zeros (pad_of (len pre))) g -> b = pre ++ g ++ post -> ready r b (len pre) ->
  size r - len pre < Z.of_nat fuel ->
  exists r', next_loop fuel r = (r', false) /\ corrupted r r'.
Proof.
  intros Hg Hb Hr Hfuel. pose proof (flipped_length _ _ Hg) as Hgl. pose proof (flipped_neq _ _ Hg) as Hgn.
  pose proof (pad_of_range (len pre)) as Hpad. pose proof (len_nonneg post).
  assert (len g = pad_of (len pre)) as Hlg by (unfold len at 1; rewrite Hgl; apply zeros_len; lia).
  assert (0 < pad_of (len pre)) as Hpos.
  { destruct (Z.eq_dec (pad_of (len pre)) 0) as [He|]; [|lia]. rewrite He in Hg. by apply flipped_nil in Hg. }
  assert (pad_of (len pre) = block_left (len pre) /\ block_left (len pre) < HeaderSize) as [Hpe Hlt].
  { unfold pad_of in *. destruct (Z.ltb_spec (block_left (len pre)) HeaderSize); lia. }
  assert (len b = len pre + block_left (len pre) + len post) as Hlb by (rewrite Hb, !len_app; lia).
  rewrite (rd_size _ _ _ Hr) in Hfuel. destruct fuel as [|fu]; [lia|].
  cbn [next_loop]. rewrite (rd_offset _ _ _ Hr), (rd_size _ _ _ Hr). fold (block_left (len pre)).
  rewrite (proj2 (Z.eqb_neq (len pre) _)), (proj2 (Z.ltb_lt _ _) Hlt) by lia.
  unfold consumePadding. rewrite (rd_offset _ _ _ Hr), (rd_size _ _ _ Hr), Z.min_l by lia.
  rewrite (readFullAt_at r b (len pre) pre g post) by (done || lia).
  assert (bytes_eqb g (replicate (length g) Byte.x00) = false) as ->.
  { apply bytes_eqb_neq. rewrite Hgl. unfold zeros in Hgn |- *. by rewrite length_replicate. }
  cbn [negb]. eexists. split; [done|]. split; [done|]. by eexists _, _.
Qed.

Lemma next_loop_fragment_flipped fuel r b pre f kind g post :
  flipped (fragment_bytes f kind) g -> b = pre ++ zeros (pad_of (len pre)) ++ g ++ post ->
  ready r b (len pre) -> 1 <= kind <= 4 -> len f <= room_of (len pre) ->
  size r - len pre < Z.of_nat fuel ->
  exists r', next_loop fuel r = (r', false) /\ corrupted r r'.
Proof.
  intros Hg Hb Hr Hk Hroom Hfuel. pose proof (pad_of_range (len pre)) as Hpad.
  pose proof (flipped_length _ _ Hg) as Hgl. pose proof (fragment_len f kind) as Hfl.
  pose proof (len_nonneg post). pose proof (len_nonneg f). pose proof (room_of_range (len pre)).
  destruct (next_loop_padding fuel r b pre _ Hb Hr Hfuel) as (fuel' & Hf' & ->).
  set (pad := pad_of (len pre)) in *. set (r1 := r_set_offset (len pre + pad) r).
  assert (ready r1 b (len pre + pad)) as Hr1 by by eapply ready_set_offset.
  assert (len (pre ++ zeros pad) = len pre + pad) as Hpl by (rewrite len_app, zeros_len by lia; done).
  assert (len b = len pre + pad + HeaderSize + len f + len post) as Hlb.
  { rewrite Hb, app_assoc, len_app, Hpl, len_app. unfold len at 2. rewrite Hgl. fold (len (fragment_bytes f kind)). lia. }
  rewrite (rd_size _ _ _ Hr) in Hf'. destruct fuel' as [|fu]; [wal_lia|].
  cbn [next_loop]. rewrite (rd_offset _ _ _ Hr1), (rd_size _ _ _ Hr1). fold (block_left (len pre + pad)).
  pose proof (block_left_padded (len pre)) as Hbl. fold pad in Hbl.
  rewrite (proj2 (Z.eqb_neq _ _)), (proj2 (Z.ltb_ge (block_left _) _)), (proj2 (Z.ltb_ge _ _)) by wal_lia.
  destruct (read_fragment_flipped r1 b (pre ++ zeros pad) f kind g post) as [e He];
    [done|by rewrite <- app_assoc|by rewrite Hpl|done|rewrite Hpl; lia|].
  rewrite Hpl in He. rewrite He. eexists. split; [done|]. apply corrupted_set_err.
Qed.

(** A changed byte anywhere in a record stops the reader in that record. *)
Lemma next_record_flipped fu : forall fuel first rest pre post acc start r b g,
  negb first && (len rest =? 0) = false ->
  flipped (encode_loop fu first (len pre) rest) g ->
  b = pre ++ g ++ post -> ready r b (len pre) ->
  size r - len pre < Z.of_nat fuel -> mid first acc start r -> len acc + len rest <= MaxRecordSize ->
  exists r', next_loop fuel r = (r', false) /\ corrupted r r'.
Proof.
  induction fu as [|fu IH]; intros fuel first rest pre post acc start r b g Hc Hg Hb Hr Hfuel Hm Hmax;
    [by apply flipped_nil in Hg|].
  destruct (encode_loop_step fu first (len pre) rest Hc) as (Henc & Hlf & Hn & Hlast).
  set (n := Z.min (len rest) (room_of (len pre))) in *. set (f := take (Z.to_nat n) rest) in *.
  set (kind := chooseFragmentKind first (n =? len rest)) in *. set (more := encode_loop fu false _ _) in *.
  pose proof (pad_of_range (len pre)) as Hpad. set (pad := pad_of (len pre)) in *. rewrite Henc in Hg.
  pose proof (chooseFragmentKind_range first (n =? len rest)) as Hk. fold kind in Hk.
  apply flipped_app in Hg as [(z & -> & Hz)|(g1 & -> & Hg)].
  { apply (next_loop_padding_flipped fuel r b pre z ((fragment_bytes f kind ++ more) ++ post)); try done.
    by rewrite Hb, <- !app_assoc. }
  apply flipped_app in Hg as [(fr & -> & Hfr)|(g2 & -> & Hg)].
  { apply (next_loop_fragment_flipped fuel r b pre f kind fr (more ++ post)); try done; [|lia].
    by rewrite Hb, <- !app_assoc. }
  destruct (next_loop_fragment fuel r b pre f kind (g2 ++ post)) as (fuel' & Hfuel' & Hnl); try done.
  { by rewrite Hb, <- !app_assoc. }
  { lia. }
  fold pad in Hfuel', Hnl. set (o1 := len pre + pad + HeaderSize + len f) in *.
  assert ((n =? len rest) = false) as Hnr.
  { destruct (n =? len rest) eqn:Hnr; [|done]. destruct (Hlast eq_refl) as [_ Hd]. exfalso.
    assert (more = []) as Hmo by (unfold more; rewrite Hd; by destruct fu).
    rewrite Hmo in Hg. by apply flipped_nil in Hg. }
  assert (len f + len (drop (Z.to_nat n) rest) = len rest) as Hsplit.
  { unfold f, len. rewrite length_take, length_drop. unfold len in *. lia. }
  destruct (accept_more first acc start (r_set_offset o1 r) b o1 f (len pre + pad))
    as (r' & Hacc & Hr' & Hm' & _ & Hv); [by destruct first|by eapply ready_set_offset|
    pose proof (len_nonneg (drop (Z.to_nat n) rest)); lia|].
  rewrite Hnl. unfold kind. rewrite Hnr, Hacc, (rd_err _ _ _ Hr').
  set (pre' := pre ++ zeros pad ++ fragment_bytes f kind).
  assert (len pre' = o1) as Hpre by (unfold pre'; rewrite !len_app, fragment_len, zeros_len by lia; unfold o1; lia).
  destruct (IH fuel' false (drop (Z.to_nat n) rest) pre' post (acc ++ f)
    (if first then len pre + pad else start) r' b g2) as (r2 & Hn2 & Hv2 & He2).
  - apply Z.eqb_neq in Hnr. cbn. apply Z.eqb_neq. unfold len in *. rewrite length_drop. lia.
  - rewrite Hpre. unfold o1. by rewrite Hlf.
  - unfold pre'. by rewrite Hb, <- !app_assoc.
  - by rewrite Hpre.
  - rewrite Hpre, (rd_size _ _ _ Hr'), <- (rd_size _ _ _ Hr). done.
  - done.
  - rewrite len_app. lia.
  - exists r2. split; [done|]. split; [|done]. by rewrite Hv2, Hv.
Qed.

(** The byte at position [len a] lies in the record [p], which is stored
    changed; the records before it are stored as they were. *)
Lemma changed_encode_all ps : forall off a x y c, encode_all off ps = a ++ x :: c -> x <> y ->
  exists qs p rs g post, ps = qs ++ p :: rs /\ a ++ y :: c = encode_all off qs ++ g ++ post /\
    flipped (encode_record (off + len (encode_all off qs)) p) g /\
    len (encode_all off qs) <= len a < len (encode_all off qs) + len g.
Proof.
  induction ps as [|p ps IH]; intros off a x y c He Hne; cbn [encode_all] in He; [by destruct a|].
  assert (forall k z, encode_record off p = a ++ z :: k -> z <> y -> forall post, a ++ y :: c = (a ++ y :: k) ++ post ->
    exists qs q rs g post, p :: ps = qs ++ q :: rs /\ a ++ y :: c = encode_all off qs ++ g ++ post /\
      flipped (encode_record (off + len (encode_all off qs)) q) g /\ len (encode_all off qs) <= len a < len (encode_all off qs) + len g) as Hhere.
  { intros k z Hk Hz post Hg. exists [], p, ps, (a ++ y :: k), post. cbn [encode_all]. change (len []) with 0. rewrite Z.add_0_r, len_app, len_cons.
    pose proof (len_nonneg a). pose proof (len_nonneg k). split_and!; [done|done| |lia..]. by exists a, z, y, k. }
  assert (forall k, a = encode_record off p ++ k -> encode_all (off + len (encode_record off p)) ps = k ++ x :: c ->
    exists qs q rs g post, p :: ps = qs ++ q :: rs /\ a ++ y :: c = encode_all off qs ++ g ++ post /\
      flipped (encode_record (off + len (encode_all off qs)) q) g /\ len (encode_all off qs) <= len a < len (encode_all off qs) + len g) as Hlater.
  { intros k -> Hk. destruct (IH _ _ _ y _ Hk Hne) as (qs & q & rs & g & post & -> & Hg & Hf & Hl).
    exists (p :: qs), q, rs, g, post. cbn [encode_all]. rewrite !len_app, Z.add_assoc, <- !app_assoc, Hg. split_and!; [done..|lia|lia]. }
  apply app_eq_inv in He as [(k & Hk & He)|(k & Hk & He)]; [|by apply (Hlater k)].
  destruct k as [|z k]; cbn in He; [apply (Hlater []); [by rewrite app_nil_r in Hk |- *|done]|].
  injection He as <- ->. apply (Hhere k x Hk Hne (encode_all (off + len (encode_record off p)) ps)). by rewrite <- app_assoc.
Qed.

(** C26. Corruption is detected where it is.  Change the byte at any one
    position of the file of a list of records: [Recover] reports a
    corruption, after having returned exactly the records that end before the
    changed byte, and its valid end is where the record with the changed byte
    starts. *)
Theorem corruption_detected ps a x y c : Forall writable ps -> encode_all 0 ps = a ++ x :: c -> x <> y ->
  exists qs p rs res at_ e, Recover (a ++ y :: c) = (qs, (res, Some (Corruption at_ e))) /\
    ps = qs ++ p :: rs /\ ValidEnd res = len (encode_all 0 qs) /\
    len (encode_all 0 qs) <= len a < len (encode_all 0 (qs ++ [p])).
Proof.
  intros Hps He Hne. destruct (changed_encode_all ps 0 a x y c He Hne) as (qs & p & rs & g' & post & -> & -> & Hg' & Hpos).
  rewrite Z.add_0_l in Hg'. set (b := encode_all 0 qs ++ g' ++ post).
  apply Forall_app in Hps as [Hqs Hrs]. apply Forall_cons in Hrs as [Hp _].
  unfold Recover, recoverFromReader. cbn [size r_offset start_reader]. rewrite Z.sub_0_r, len_to_nat.
  destruct (recover_records collect qs (Datatypes.S (length b)) [] (g' ++ post) (start_reader b) b 0 [])
    as (fuel' & r1 & recs & Hrec & Hpay & (Hr1 & Ha1 & Hv1 & Hn1) & Hf'); try done.
  { by apply accepts_all. }
  { cbn. unfold len. lia. }
  change (len []) with 0 in *. rewrite !Z.add_0_l in *. change (u64 0) with 0 in Hrec. rewrite Hrec.
  destruct fuel' as [|fu]; [cbn in Hf'; unfold b in Hf'; rewrite len_app in Hf';
    pose proof (len_nonneg (g' ++ post)); lia|].
  cbn [recover_loop]. unfold Next. rewrite (rd_done _ _ _ Hr1), (rd_err _ _ _ Hr1), (rd_closed _ _ _ Hr1). cbn [orb].
  destruct (next_record_flipped (append_fuel p) (next_fuel r1) true p (encode_all 0 qs) post [] 0 r1 b g')
    as (r' & -> & Hv & at_ & e & Hre); try done.
  { unfold next_fuel. rewrite (rd_offset _ _ _ Hr1). lia. }
  rewrite Hre, Hv, Hv1, collect_all, Hpay. exists qs, p, rs. eexists _, at_, e. split_and!; [done..|lia|].
  rewrite encode_all_app, len_app, Z.add_0_l. cbn [encode_all]. rewrite app_nil_r.
  pose proof (flipped_length _ _ Hg') as Hlen. unfold len in *. lia.
Qed.

Lemma corruption_detected_witness :
  exists qs p rs res at_ e,
    Recover (<[24%nat := Byte.xff]> (encode_all 0 [[Byte.x61; Byte.x62]; [Byte.x63]])) =
      (qs, (res, Some (Corruption at_ e))) /\
    [[Byte.x61; Byte.x62]; [Byte.x63]] = qs ++ p :: rs /\ ValidEnd res = len (encode_all 0 qs) /\
    len (encode_all 0 qs) <= 24 < len (encode_all 0 (qs ++ [p])).
Proof.
  apply (corruption_detected [[Byte.x61; Byte.x62]; [Byte.x63]] (take 24 (encode_all 0 [[Byte.x61; Byte.x62]; [Byte.x63]]))
    Byte.x63 Byte.xff (drop 25 (encode_all 0 [[Byte.x61; Byte.x62]; [Byte.x63]]))).
  - repeat constructor; by apply Z.leb_le.
  - by vm_compute.
  - discriminate.
Defined.

(** ** A disk that fills up *)

#[local] Existing Instances disk_file disk_laws.

Definition two_records : list bytes := [[Byte.x61; Byte.x62]; [Byte.x63]].

Lemma recover_every_prefix_witness :
  exists torn, Recover (take 20 (encode_all 0 two_records)) =
    ([[Byte.x61; Byte.x62]], ({| ValidEnd := 13; FileEnd := 20; Records := 1; TailTruncated := torn |}, None)) /\
    (20%nat = length (encode_all 0 two_records) -> [[Byte.x61; Byte.x62]] = two_records /\ torn = false).
Proof.
  apply (recover_every_prefix two_records 20).
  - repeat constructor; by apply Z.leb_le.
  - by apply Nat.leb_le; vm_compute.
Defined.

Lemma repair_reopens_witness :
  OpenWriter (H := disk_file) {| d_bytes := []; d_synced := 0; d_capacity := 0 |} None
    (take 20 (encode_all 0 two_records)) SyncBatch no_faults = Err [ErrTruncatedTail] /\
  RepairTail (take 20 (encode_all 0 two_records)) {| ValidEnd := 13; FileEnd := 20; Records := 1; TailTruncated := true |}
    no_faults = (encode_all 0 [[Byte.x61; Byte.x62]], None) /\
  OpenWriter (H := disk_file) {| d_bytes := []; d_synced := 0; d_capacity := 0 |} None
    (encode_all 0 [[Byte.x61; Byte.x62]]) SyncBatch no_faults =
    Ok (newWriterWithDirectory {| d_bytes := []; d_synced := 0; d_capacity := 0 |} None
      (len (encode_all 0 [[Byte.x61; Byte.x62]])) SyncBatch).
Proof.
  apply (repair_reopens two_records 20).
  - repeat constructor; by apply Z.leb_le.
  - by apply Nat.leb_le; vm_compute.
  - done.
  - by vm_compute.
  - done.
Defined.

(** A disk of 30 bytes: the first record is acknowledged, the second is cut by
    the end of the disk, the rest is refused. *)
Definition small_disk : disk := {| d_bytes := []; d_synced := 0; d_capacity := 30 |}.
Definition small_ops : list wal_op := [WAppend [Byte.x61; Byte.x62]; WAppend [Byte.x63; Byte.x64; Byte.x65; Byte.x66; Byte.x67; Byte.x68; Byte.x69]; WAppend []; WSync; WClose].

Lemma wal_durability_witness :
  let h := wal_run small_ops {| writer := newWriter small_disk 0 SyncBatch; acked := []; synced := [] |} in
  let b := contents (file (writer h)) in
  length b = 30%nat /\ synced h = [[Byte.x61; Byte.x62]] /\
  exists qs res p, Recover (take 25 b) = (qs, (res, None)) /\ synced h `prefix_of` qs /\
    qs `prefix_of` acked h ++ [p] /\ (25%nat = length b -> acked h `prefix_of` qs).
Proof.
  intros h b. split; [by vm_compute|]. split; [by vm_compute|].
  apply (@wal_durability disk_file disk_laws [] [] 0 small_disk None SyncBatch no_faults _ small_ops 25).
  - apply torn_ok_nil. constructor.
  - by vm_compute.
  - done.
  - by vm_compute.
  - by apply Z.leb_le; vm_compute.
  - by apply Nat.leb_le; vm_compute.
Defined.
