(* ===== verification/Codec.v ===== *)
(** * Fixed-layout binary formats

    Lemmas and tactics for formats made of fields at known offsets: reading a
    field of a concatenation, and putting a string together again from its
    fields. *)

From S2P Require Import Prelude.

(** [encoded[i]] as an integer. *)
Definition byte_at (i : nat) (encoded : bytes) : Z := byte.unsigned (default Byte.x00 (encoded !! i)).

Lemma byte_at_range i e : 0 <= byte_at i e < 256.
Proof. apply byte.unsigned_range. Qed.
Lemma unsigned_of_Z_small z : 0 <= z < 256 -> byte.unsigned (byte.of_Z z) = z.
Proof. intros. rewrite byte.unsigned_of_Z. by apply Z.mod_small. Qed.
Lemma of_Z_byte_at i e x : e !! i = Some x -> byte.of_Z (byte_at i e) = x.
Proof. unfold byte_at. intros ->. apply byte.of_Z_unsigned. Qed.

#[global] Arguments slice : simpl never.
#[global] Arguments byte_at : simpl never.

(** ** Fields of a concatenation *)

Section fields.
Context {A : Type}.
Implicit Types (x y s : list A).

Lemma slice_skip n x y a b : length x = n -> (n <= a)%nat -> slice a b (x ++ y) = slice (a - n) (b - n) y.
Proof.
  intros <- Ha. unfold slice. rewrite drop_app_ge by lia. f_equal. lia.
Qed.
Lemma slice_here n x y : length x = n -> slice 0 n (x ++ y) = x.
Proof. intros <-. unfold slice. rewrite drop_0, Nat.sub_0_r. apply take_app_length. Qed.
Lemma slice_exact n x : length x = n -> slice 0 n x = x.
Proof. intros <-. unfold slice. rewrite drop_0, Nat.sub_0_r. by apply firstn_all. Qed.
Lemma drop_skip n x y a : length x = n -> (n <= a)%nat -> drop a (x ++ y) = drop (a - n) y.
Proof. intros <- Ha. apply drop_app_ge. lia. Qed.
Lemma lookup_skip n x y i : length x = n -> (n <= i)%nat -> (x ++ y) !! i = y !! (i - n)%nat.
Proof. intros <- Hi. by apply lookup_app_r. Qed.

Lemma slice_length a b s : (a <= b)%nat -> (b <= length s)%nat -> length (slice a b s) = (b - a)%nat.
Proof. intros. unfold slice. rewrite length_take, length_drop. lia. Qed.
Lemma slice_join a b c s : (a <= b)%nat -> (b <= c)%nat -> slice a b s ++ slice b c s = slice a c s.
Proof.
  intros Hab Hbc. unfold slice. replace (drop b s) with (drop (b - a) (drop a s)) by (rewrite drop_drop; f_equal; lia).
  rewrite <- (take_drop (b - a) (take (c - a) (drop a s))) at 1.
  rewrite take_take, skipn_firstn_comm, Nat.min_l by lia. do 2 f_equal. lia.
Qed.
Lemma slice_drop a s : slice a (length s) s = drop a s.
Proof. unfold slice. apply take_ge. rewrite length_drop. lia. Qed.
Lemma slice_join_drop a b s : (a <= b)%nat -> slice a b s ++ drop b s = drop a s.
Proof.
  intros Hab. unfold slice. replace (drop b s) with (drop (b - a) (drop a s)) by (rewrite drop_drop; f_equal; lia).
  apply take_drop.
Qed.
Lemma slice_one i s (x : A) : s !! i = Some x -> slice i (S i) s = [x].
Proof.
  intros Hi. unfold slice. replace (S i - i)%nat with 1%nat by lia.
  rewrite (drop_S _ x) by done. done.
Qed.
End fields.

Lemma byte_at_skip n x y i : length x = n -> (n <= i)%nat -> byte_at i (x ++ y) = byte_at (i - n) y.
Proof. intros. unfold byte_at. by erewrite lookup_skip. Qed.
Lemma byte_at_here i x y : (i < length x)%nat -> byte_at i (x ++ y) = byte_at i x.
Proof. intros. unfold byte_at. by rewrite lookup_app_l. Qed.
Lemma byte_at_0 x l : byte_at 0 (x :: l) = byte.unsigned x.
Proof. done. Qed.
Lemma byte_at_S i x l : byte_at (S i) (x :: l) = byte_at i l.
Proof. done. Qed.
Lemma byte_at_slice i e : (i < length e)%nat -> [byte.of_Z (byte_at i e)] = slice i (S i) e.
Proof. intros Hi. apply lookup_lt_is_Some in Hi as [x Hx]. by rewrite (of_Z_byte_at _ _ _ Hx), (slice_one _ _ x). Qed.

Lemma len_be_put n z : len (be_put n z) = Z.of_nat n.
Proof. unfold len. by rewrite be_put_length. Qed.
Lemma len_le_put n z : len (le_put n z) = Z.of_nat n.
Proof. unfold len. by rewrite le_put_length. Qed.

(** The length of a field, from its form or from the context. *)
Ltac field_size x :=
  lazymatch x with
  | be_put ?n _ => constr:(n)
  | le_put ?n _ => constr:(n)
  | _ :: _ => let n := eval cbv in (length x) in constr:(n)
  | _ => match goal with H : length x = ?n |- _ => constr:(n) end
  end.
Ltac field_len := first [reflexivity | apply be_put_length | apply le_put_length | assumption | lia].
(** Reads the fields of concatenations in the goal. *)
Ltac fields :=
  repeat match goal with
  | |- context [slice ?a ?b (?x ++ ?y)] =>
      let n := field_size x in
      first [ rewrite (slice_skip n x y a b) by (field_len || lia); cbn [Nat.sub]
            | rewrite (slice_here n x y) by field_len ]
  | |- context [drop ?a (?x ++ ?y)] =>
      let n := field_size x in rewrite (drop_skip n x y a) by (field_len || lia); cbn [Nat.sub]
  | |- context [byte_at ?i (?x ++ ?y)] =>
      let n := field_size x in rewrite (byte_at_skip n x y i) by (field_len || lia); cbn [Nat.sub]
  | |- context [byte_at ?i (?x ++ ?y)] => rewrite (byte_at_here i x y) by (cbn; lia)
  | |- context [byte_at ?i (?x :: ?y)] => first [rewrite (byte_at_0 x y) | rewrite byte_at_S]
  | |- context [slice 0 ?n ?x] => rewrite (slice_exact n x) by field_len
  | |- context [drop 0 ?x] => rewrite (drop_0 x)
  end.



(** ** Putting a string together again *)

Lemma slice_bytes4 i e a b c d : (i + 4 <= length e)%nat ->
  byte_at i e = a -> byte_at (i + 1) e = b -> byte_at (i + 2) e = c -> byte_at (i + 3) e = d ->
  [byte.of_Z a; byte.of_Z b; byte.of_Z c; byte.of_Z d] = slice i (i + 4) e.
Proof.
  intros Hl <- <- <- <-. rewrite <- (slice_join i (i + 1)), <- (slice_join (i + 1) (i + 2)), <- (slice_join (i + 2) (i + 3)) by lia.
  replace (i + 1)%nat with (S i) by lia. replace (i + 2)%nat with (S (S i)) by lia.
  replace (i + 3)%nat with (S (S (S i))) by lia. replace (i + 4)%nat with (S (S (S (S i)))) by lia.
  rewrite <- !byte_at_slice by lia. done.
Qed.

(** Turns integers that were read from [e] back into the bytes they were read
    from, and joins adjacent fields. *)
Ltac join_fields :=
  repeat first
    [ rewrite be_put_get by (rewrite slice_length; lia)
    | rewrite le_put_get by (rewrite slice_length; lia)
    | rewrite slice_join_drop by lia ].
