(* ===== verification/Parser.v ===== *)
(** * Sequential decoders

    Decoders that consume a prefix of their input (the [stateImageDecoder] of
    the range snapshots and the like).  [exact p enc ok] says that [p] accepts
    exactly the encodings of the values that satisfy [ok] and leaves what
    follows them; the lemmas build exact decoders from parts. *)

From S2P Require Import Prelude Codec.

Section parser.
Context {E : Type}.

Definition parser (A : Type) : Type := bytes -> result E (A * bytes).

Definition exact {A} (p : parser A) (enc : A -> bytes) (ok : A -> Prop) : Prop :=
  forall s a rest, p s = Ok (a, rest) <-> ok a /\ s = enc a ++ rest.

Lemma exact_ok {A} (p : parser A) enc ok a rest : exact p enc ok -> ok a -> p (enc a ++ rest) = Ok (a, rest).
Proof. intros Hp Ha. by apply Hp. Qed.
Lemma exact_ok_nil {A} (p : parser A) enc ok a : exact p enc ok -> ok a -> p (enc a) = Ok (a, []).
Proof. intros Hp Ha. apply Hp. by rewrite app_nil_r. Qed.

Lemma bind_exact {A B} (p : parser A) enc ok (k : A -> bytes -> result E B) s r : exact p enc ok ->
  ('(a, s) ← p s; k a s) = Ok r <-> exists a s', ok a /\ s = enc a ++ s' /\ k a s' = Ok r.
Proof.
  intros Hp. rewrite bind_ok. split.
  - intros ([a s'] & Ha & Hk). apply Hp in Ha as [Ha ->]. by exists a, s'.
  - intros (a & s' & Ha & -> & Hk). exists (a, s'). split; [by apply Hp|done].
Qed.

(** [d.take(n)]: refuses a negative count and one beyond the end. *)
Definition take_bytes (error : E) (n : Z) : parser bytes := fun s =>
  if (n <? 0) || (len s <? n) then Err error else Ok (take (Z.to_nat n) s, drop (Z.to_nat n) s).
Lemma take_bytes_exact error n : 0 <= n -> exact (take_bytes error n) (fun b => b) (fun b => len b = n).
Proof.
  intros Hn s a rest. unfold take_bytes. rewrite (proj2 (Z.ltb_ge n 0)) by lia. cbn [orb].
  destruct (Z.ltb_spec (len s) n) as [Hlt|Hge].
  - split; [done|]. intros [Ha ->]. rewrite len_app in Hlt. pose proof (len_nonneg rest). lia.
  - split.
    + intros [= <- <-]. rewrite take_drop. split; [|done]. rewrite len_take by (unfold len in *; lia). lia.
    + intros [Ha ->]. assert (Z.to_nat n = length a) as -> by (unfold len in Ha; lia).
      by rewrite take_app_length, drop_app_length.
Qed.

Definition le_value (error : E) (n : nat) : parser Z := fun s =>
  '(b, s) ← take_bytes error (Z.of_nat n) s; Ok (le_get b, s).
Lemma le_value_exact error n : exact (le_value error n) (le_put n) (fun z => 0 <= z < 2 ^ (Z.of_nat n * 8)).
Proof.
  intros s a rest. unfold le_value. rewrite bind_ok. split.
  - intros ([b s'] & Hb & [= <- <-]). apply take_bytes_exact in Hb as [Hlen ->]; [|lia].
    assert (length b = n) as Hn by (unfold len in Hlen; lia). split; [|by rewrite le_put_get].
    rewrite <- Hn, Z.mul_comm. apply le_get_range.
  - intros [Ha ->]. exists (le_put n a, rest). split.
    + apply take_bytes_exact; [lia|]. by rewrite len_le_put.
    + rewrite le_get_put, Z.mod_small by done. done.
Qed.

(** [count] values in a row. *)
Fixpoint many {A} (p : parser A) (count : nat) : parser (list A) := fun s =>
  match count with
  | O => Ok ([], s)
  | S count' =>
      match p s with
      | Err e => Err e
      | Ok (a, s) => '(l, s) ← many p count' s; Ok (a :: l, s)
      end
  end.
Lemma many_exact {A} (p : parser A) enc ok count : exact p enc ok ->
  exact (many p count) (flat_map enc) (fun l => length l = count /\ Forall ok l).
Proof.
  intros Hp. induction count as [|count IH]; intros s l rest; cbn [many].
  - split; [intros [= <- <-]; by split|]. intros [[Hl _] ->]. by destruct l.
  - destruct (p s) as [[a s']|e] eqn:Hps.
    + apply Hp in Hps as [Ha ->]. rewrite bind_ok. split.
      * intros ([l' s''] & Hl' & [= <- <-]). apply IH in Hl' as [[Hlen Hf] ->]. cbn. rewrite <- app_assoc.
        by split; [split; [congruence|constructor]|].
      * intros [[Hlen Hf] Heq]. destruct l as [|x l]; [done|]. apply Forall_cons in Hf as [Hx Hf].
        cbn in Heq. rewrite <- app_assoc in Heq.
        assert (p (enc a ++ s') = Ok (a, s')) as Hpa by by apply Hp. rewrite Heq in Hpa.
        rewrite (exact_ok _ _ _ _ _ Hp Hx) in Hpa. injection Hpa as -> <-.
        exists (l, rest). split; [apply IH; split; [split; [by injection Hlen|done]|done]|done].
    + split; [done|]. intros [[Hlen Hf] Heq]. destruct l as [|x l]; [done|]. apply Forall_cons in Hf as [Hx Hf].
      cbn in Heq. rewrite <- app_assoc in Heq. subst s. by rewrite (exact_ok _ _ _ _ _ Hp Hx) in Hps.
Qed.
End parser.
