(* ===== verification/Hlc.v ===== *)
(** * Hybrid logical clock (mvcc/timestamp.go)

    Timestamps (48 bits of physical milliseconds, 16 logical bits), their
    encoding, and the range-scoped clock.  The reading of the physical clock
    is an input of [Now].  The theorems show that the clock never repeats or
    goes back, stays above everything it observed and the physical time, and
    fails only when time is out of range or exhausted. *)

From S2P Require Import Prelude Codec.

Definition LogicalBits : Z := 16.
Definition MaxLogical : Z := u16 (Z.shiftl 1 LogicalBits - 1).
Definition MaxPhysical : Z := u64 (Z.shiftl 1 48 - 1).

Inductive mvcc_error := ErrInvalidTimestamp | ErrTimestampExhausted.
#[export] Instance mvcc_error_eq_dec : EqDecision mvcc_error.
Proof. solve_decision. Defined.

(** [type Timestamp uint64] *)
Abbreviation Timestamp := Z.

Definition NewTimestamp (physical logical : Z) : result mvcc_error Timestamp :=
  if MaxPhysical <? physical then Err ErrInvalidTimestamp
  else Ok (Z.lor (u64 (Z.shiftl physical LogicalBits)) logical).
Definition Physical (t : Timestamp) : Z := Z.shiftr t LogicalBits.
Definition Logical (t : Timestamp) : Z := u16 t.
Definition Timestamp_Encode (t : Timestamp) (dst : bytes) : bytes := dst ++ be_put 8 t.
Definition DecodeTimestamp (encoded : bytes) : result mvcc_error Timestamp :=
  if negb (len encoded =? 8) then Err ErrInvalidTimestamp else Ok (be_get encoded).

(** The clock: its state is [last]. *)
Record Clock := { last : Timestamp }.
Definition NewClock (floor : Timestamp) : Clock := {| last := floor |}.
Definition Observe (value : Timestamp) (c : Clock) : Clock :=
  if last c <? value then {| last := value |} else c.

(** [millis] is [physical.Now().UnixMilli()]. *)
Definition Now (millis : Z) (c : Clock) : Clock * result mvcc_error Timestamp :=
  if (millis <? 0) || (MaxPhysical <? millis) then (c, Err ErrTimestampExhausted)
  else
    let physical := millis in
    let lastPhysical := Physical (last c) in
    let lastLogical := Logical (last c) in
    if lastPhysical <? physical then
      let t := u64 (Z.shiftl physical LogicalBits) in
      let t := if t =? 0 then 1 else t in
      ({| last := t |}, Ok t)
    else if negb (lastLogical =? MaxLogical) then
      let t := u64 (last c + 1) in ({| last := t |}, Ok t)
    else if lastPhysical =? MaxPhysical then (c, Err ErrTimestampExhausted)
    else
      let t := u64 (Z.shiftl (lastPhysical + 1) LogicalBits) in ({| last := t |}, Ok t).

Definition NextAfter (value : Timestamp) : result mvcc_error Timestamp :=
  if value =? u64_not 0 then Err ErrTimestampExhausted else Ok (u64 (value + 1)).

(** ** Fields *)

Ltac hlc_lia :=
  change MaxLogical with 65535 in *; change MaxPhysical with 281474976710655 in *;
  unfold is_u64, LogicalBits in *; lia.

Lemma Physical_div t : Physical t = t / 2 ^ 16.
Proof. unfold Physical, LogicalBits. by rewrite Z.shiftr_div_pow2. Qed.
Lemma Logical_mod t : Logical t = t mod 2 ^ 16.
Proof. done. Qed.
Lemma shift_logical p : Z.shiftl p LogicalBits = p * 2 ^ 16.
Proof. unfold LogicalBits. by rewrite Z.shiftl_mul_pow2. Qed.
Lemma timestamp_split t : t = Physical t * 2 ^ 16 + Logical t.
Proof. rewrite Physical_div, Logical_mod. pose proof (Z.div_mod t (2 ^ 16) ltac:(done)). lia. Qed.
Lemma Logical_range t : 0 <= Logical t <= MaxLogical.
Proof. rewrite Logical_mod. pose proof (Z.mod_pos_bound t (2 ^ 16) ltac:(done)). hlc_lia. Qed.
Lemma Physical_range t : is_u64 t -> 0 <= Physical t <= MaxPhysical.
Proof.
  intros Ht. rewrite Physical_div. unfold is_u64 in Ht.
  split; [apply Z.div_pos; lia|]. pose proof (Z.div_lt_upper_bound t (2 ^ 16) (2 ^ 48)). hlc_lia.
Qed.
Lemma Physical_shift p l : 0 <= l <= MaxLogical -> Physical (p * 2 ^ 16 + l) = p /\ Logical (p * 2 ^ 16 + l) = l.
Proof.
  intros Hl. rewrite Physical_div, Logical_mod. rewrite Z.add_comm, Z.div_add, Z.mod_add by done.
  rewrite Z.div_small, Z.mod_small by hlc_lia. lia.
Qed.

(** [NewTimestamp] packs its two fields: they are read back by [Physical]
    and [Logical], and the order of timestamps is the lexicographic order of
    the fields. *)
Lemma timestamp_fields p l p' l' t t' :
  0 <= p -> 0 <= p' -> 0 <= l <= MaxLogical -> 0 <= l' <= MaxLogical ->
  NewTimestamp p l = Ok t -> NewTimestamp p' l' = Ok t' ->
  is_u64 t /\ Physical t = p /\ Logical t = l /\
  (t < t' <-> p < p' \/ (p = p' /\ l < l')).
Proof.
  intros Hp Hp' Hl Hl' Ht Ht'.
  assert (forall p l t, 0 <= p -> 0 <= l <= MaxLogical -> NewTimestamp p l = Ok t ->
    t = p * 2 ^ 16 + l /\ p <= MaxPhysical) as Hnew.
  { clear. intros p l t Hp Hl. unfold NewTimestamp. destruct (Z.ltb_spec MaxPhysical p) as [|Hm]; [done|].
    rewrite shift_logical, u64_id by hlc_lia. intros [= <-]. split; [|done].
    rewrite <- shift_logical. unfold LogicalBits. rewrite Z.lor_comm, lor_disjoint_shift by hlc_lia.
    rewrite Z.shiftl_mul_pow2 by done. lia. }
  apply Hnew in Ht as [-> Hm]; [|done..]. apply Hnew in Ht' as [-> Hm']; [|done..].
  destruct (Physical_shift p l Hl) as [-> ->]. split; [hlc_lia|]. split; [done|]. split; [done|]. hlc_lia.
Qed.

(** ** The clock *)

(** One reading, on every branch. *)
Lemma Now_spec millis c : is_u64 (last c) ->
  let '(c', res) := Now millis c in
  match res with
  | Ok t => last c' = t /\ last c < t /\ is_u64 t /\ millis <= Physical t /\
      Physical t <= Z.max millis (Physical (last c) + 1) /\ 0 <= millis <= MaxPhysical
  | Err e => c' = c /\ e = ErrTimestampExhausted /\ (millis < 0 \/ MaxPhysical < millis \/ last c = MaxUint64)
  end.
Proof.
  intros Hu. pose proof (Physical_range _ Hu) as Hp. pose proof (Logical_range (last c)) as Hl.
  pose proof (timestamp_split (last c)) as Hs. unfold Now.
  destruct (Z.ltb_spec millis 0); [cbn; auto|]. destruct (Z.ltb_spec MaxPhysical millis); [cbn; auto|]. cbn [orb].
  set (P := Physical (last c)) in *. set (L := Logical (last c)) in *.
  destruct (Z.ltb_spec P millis).
  - rewrite shift_logical, u64_id by hlc_lia. rewrite (proj2 (Z.eqb_neq _ _)) by hlc_lia. cbn [last].
    destruct (Physical_shift millis 0 ltac:(hlc_lia)) as [Hph _]. rewrite Z.add_0_r in Hph. rewrite Hph. hlc_lia.
  - destruct (Z.eqb_spec L MaxLogical) as [HL|HL]; cbn [negb].
    + destruct (Z.eqb_spec P MaxPhysical).
      { split; [done|]. split; [done|]. right. right. unfold MaxUint64, two64. hlc_lia. }
      rewrite shift_logical, u64_id by hlc_lia. cbn [last].
      destruct (Physical_shift (P + 1) 0 ltac:(hlc_lia)) as [Hph _]. rewrite Z.add_0_r in Hph. rewrite Hph. hlc_lia.
    + rewrite u64_id by hlc_lia. cbn [last].
      destruct (Physical_shift P (L + 1) ltac:(hlc_lia)) as [Hph _]. replace (last c + 1) with (P * 2 ^ 16 + (L + 1)) by lia.
      rewrite Hph. hlc_lia.
Qed.

(** Histories of a clock: readings of the physical clock and observed
    timestamps. *)
Inductive event := ENow (millis : Z) | EObserve (value : Timestamp).
Definition clock_step (c : Clock) (e : event) : Clock * option Timestamp :=
  match e with
  | ENow millis => let '(c', res) := Now millis c in (c', match res with Ok t => Some t | Err _ => None end)
  | EObserve value => (Observe value c, Some value)
  end.
(** The timestamps issued and observed, in order. *)
Fixpoint clock_run (c : Clock) (es : list event) : Clock * list (event * Timestamp) :=
  match es with
  | [] => (c, [])
  | e :: es' =>
      let '(c', t) := clock_step c e in
      let '(c'', ts) := clock_run c' es' in
      (c'', match t with Some t => (e, t) :: ts | None => ts end)
  end.
Definition event_ok (e : event) : Prop := match e with ENow _ => True | EObserve v => is_u64 v end.

Lemma clock_step_spec c e : is_u64 (last c) -> event_ok e ->
  let '(c', t) := clock_step c e in
  is_u64 (last c') /\ last c <= last c' /\
  forall t', t = Some t' -> t' <= last c' /\ (forall m, e = ENow m -> last c < t' /\ m <= Physical t').
Proof.
  intros Hu He. destruct e as [m|v]; cbn [clock_step].
  - pose proof (Now_spec m c Hu) as Hn. destruct (Now m c) as [c' [t|err]]; cbn in Hn |- *.
    + destruct Hn as (<- & Hlt & Hut & Hm & _). split; [done|]. split; [lia|]. intros t' [= <-].
      split; [lia|]. intros m' [= <-]. done.
    + destruct Hn as (-> & _). split; [done|]. split; [lia|]. done.
  - unfold Observe. destruct (Z.ltb_spec (last c) v); cbn; (split; [done|]); (split; [lia|]); intros t' [= <-];
      (split; [lia|done]).
Qed.

Lemma clock_run_floor es : forall c, is_u64 (last c) -> Forall event_ok es ->
  Forall (fun et => forall m, et.1 = ENow m -> last c < et.2 /\ m <= Physical et.2) (clock_run c es).2.
Proof.
  induction es as [|e es IH]; intros c Hu Hok; [constructor|]. apply Forall_cons in Hok as [He Hok].
  cbn [clock_run]. pose proof (clock_step_spec c e Hu He) as Hs. destruct (clock_step c e) as [c' t].
  destruct Hs as (Hu' & Hle & Ht). pose proof (IH c' Hu' Hok) as Hr.
  destruct (clock_run c' es) as [c'' ts]. cbn in Hr |- *.
  assert (Forall (fun et => forall m, et.1 = ENow m -> last c < et.2 /\ m <= Physical et.2) ts) as Hts.
  { eapply Forall_impl; [exact Hr|]. intros et Het m Hm. specialize (Het m Hm). lia. }
  destruct t as [t|]; [|done]. constructor; [|done]. cbn. intros m ->. by apply (proj2 (Ht t eq_refl) m eq_refl).
Qed.

(** C37. Causality.  In any history of a clock, a timestamp issued by [Now] is
    strictly larger than every timestamp issued or observed before it, and
    not before the physical time of its reading. *)
Theorem clock_causal c es i j e et et' :
  is_u64 (last c) -> Forall event_ok es ->
  (clock_run c es).2 !! i = Some (e, et) -> (clock_run c es).2 !! j = Some et' ->
  forall m, et'.1 = ENow m -> m <= Physical et'.2 /\ ((i < j)%nat -> et < et'.2).
Proof.
  intros Hu Hok. revert c i j Hu. induction es as [|ev es IH]; intros c i j Hu Hi Hj m Hm; [done|].
  apply Forall_cons in Hok as [He Hok]. specialize (IH Hok). cbn [clock_run] in Hi, Hj.
  pose proof (clock_step_spec c ev Hu He) as Hs. destruct (clock_step c ev) as [c' t].
  destruct Hs as (Hu' & Hle & Ht). pose proof (clock_run_floor es c' Hu' Hok) as Hfl.
  specialize (IH c'). destruct (clock_run c' es) as [c'' ts]. cbn in Hi, Hj, Hfl, IH.
  destruct t as [t|]; [|by eapply IH].
  destruct j as [|j]; cbn in Hj.
  - injection Hj as <-. cbn in Hm |- *. split; [|lia]. by apply (proj2 (Ht t eq_refl) m Hm).
  - destruct i as [|i]; cbn in Hi.
    + injection Hi as -> ->. destruct (Ht et eq_refl) as [Hte _].
      rewrite Forall_lookup in Hfl. specialize (Hfl j et' Hj m Hm). lia.
    + destruct (IH i j Hu' Hi Hj m Hm) as [Hph Hlt]. split; [done|]. intros. apply Hlt. lia.
Qed.

Lemma clock_causal_witness :
  5 <= Physical (5 * 65536 + 8) /\ ((2 < 3)%nat -> 5 * 65536 + 7 < 5 * 65536 + 8).
Proof.
  apply (clock_causal (NewClock 0) [ENow 5; ENow 5; EObserve (5 * 65536 + 7); ENow 5; ENow (-1)] 2 3
    (EObserve (5 * 65536 + 7)) (5 * 65536 + 7) (ENow 5, 5 * 65536 + 8)).
  - unfold is_u64. cbn. lia.
  - repeat constructor; unfold event_ok, is_u64; lia.
  - by vm_compute.
  - by vm_compute.
  - done.
Defined.

(** A reading fails exactly when the physical time is out of range or the
    last timestamp is exhausted, it then leaves the clock alone, and the
    physical part runs at most one millisecond ahead of the larger of the
    physical time and the last timestamp. *)
Theorem clock_now millis c : is_u64 (last c) ->
  let '(c', res) := Now millis c in
  match res with
  | Ok t => last c' = t /\ last c < t /\ is_u64 t /\ millis <= Physical t /\
      Physical t <= Z.max millis (Physical (last c) + 1)
  | Err e => c' = c /\ e = ErrTimestampExhausted
  end /\
  (is_ok res = false <-> millis < 0 \/ MaxPhysical < millis \/ last c = MaxUint64).
Proof.
  intros Hu. pose proof (Now_spec millis c Hu) as Hn. destruct (Now millis c) as [c' [t|e]]; cbn.
  - destruct Hn as (? & ? & Hut & ? & ? & ?). split; [done|]. split; [done|].
    intros [?|[?|Hm]]; [exfalso; lia..|exfalso]. unfold MaxUint64, two64 in Hm. unfold is_u64 in Hut. lia.
  - destruct Hn as (? & ? & Hc). split; [done|]. done.
Qed.

Lemma clock_now_witness :
  let '(c', res) := Now 7 (NewClock MaxUint64) in
  match res with
  | Ok t => last c' = t /\ MaxUint64 < t /\ is_u64 t /\ 7 <= Physical t /\
      Physical t <= Z.max 7 (Physical MaxUint64 + 1)
  | Err e => c' = NewClock MaxUint64 /\ e = ErrTimestampExhausted
  end /\
  (is_ok res = false <-> 7 < 0 \/ MaxPhysical < 7 \/ MaxUint64 = MaxUint64).
Proof. apply (clock_now 7 (NewClock MaxUint64)). unfold is_u64; cbn [last NewClock]; unfold MaxUint64, two64. lia. Defined.
