(* ===== verification/Txn.v ===== *)
(** * Transaction values and their wire format (txn/types.go, txn/codec.go)

    The durable values of the transaction protocol: records, participant
    records, operations, intents; the checks on operations and the encodings
    of operations and intents.  The theorems show that both encodings are
    bijections between the values the validators accept and the strings the
    decoders accept. *)

From S2P Require Import Prelude Codec.

Definition IDSize : nat := 16.
Definition MaxWrites : Z := 1024.
Definition MaxParticipants : Z := 64.
Definition MaxWriteBytes : Z := Z.shiftl 8 20.

Inductive txn_error :=
  | ErrInvalid | ErrTooLarge | ErrProtocolConflict | ErrWriteConflict | ErrIntentConflict
  | ErrAlreadyCommitted | ErrAlreadyAborted | ErrTxnClosed | ErrReadOnly.
#[export] Instance txn_error_eq_dec : EqDecision txn_error.
Proof. solve_decision. Defined.

(** [type ID [16]byte] *)
Abbreviation ID := bytes.
Definition IsZero (id : ID) : bool := bytes_eqb id (replicate IDSize Byte.x00).

(** [type Status uint8], [type ParticipantStatus uint8],
    [type OperationType uint8] *)
Definition StatusPending : Z := 1.
Definition StatusCommitted : Z := 2.
Definition StatusAborted : Z := 3.
Definition Status_Valid (s : Z) : bool := (s =? StatusPending) || (s =? StatusCommitted) || (s =? StatusAborted).
Definition Terminal (s : Z) : bool := (s =? StatusCommitted) || (s =? StatusAborted).

Definition ParticipantPrepared : Z := 1.
Definition ParticipantRejected : Z := 2.
Definition ParticipantCommitted : Z := 3.
Definition ParticipantAborted : Z := 4.
Definition ParticipantStatus_Valid (s : Z) : bool := (ParticipantPrepared <=? s) && (s <=? ParticipantAborted).

Record Participant := { RangeID : Z; Generation : Z }.
#[export] Instance Participant_eq_dec : EqDecision Participant.
Proof. solve_decision. Defined.

Record Write := { wKey : bytes; wValue : bytes; wDelete : bool }.
#[export] Instance Write_eq_dec : EqDecision Write.
Proof. solve_decision. Defined.

Record TxnRecord := {
  rID : ID; rStatus : Z; rReadTime : Z; rCommitTime : Z; rEpoch : Z;
  rHome : Participant; rParticipants : list Participant
}.
#[export] Instance TxnRecord_eq_dec : EqDecision TxnRecord.
Proof. solve_decision. Defined.

Record ParticipantRecord := {
  pID : ID; pStatus : Z; pReadTime : Z; pCommitTime : Z; pEpoch : Z;
  pHome : Participant; pWrites : list Write; pReason : bytes
}.
#[export] Instance ParticipantRecord_eq_dec : EqDecision ParticipantRecord.
Proof. solve_decision. Defined.

Definition OpCreate : Z := 1.
Definition OpPrepare : Z := 2.
Definition OpCommit : Z := 3.
Definition OpAbort : Z := 4.
Definition OpTakeover : Z := 5.
Definition OpResolveCommit : Z := 6.
Definition OpResolveAbort : Z := 7.

Record Operation := {
  oType : Z; oID : ID; oReadTime : Z; oCommitTime : Z; oEpoch : Z;
  oHome : Participant; oParticipants : list Participant; oWrites : list Write
}.
#[export] Instance Operation_eq_dec : EqDecision Operation.
Proof. solve_decision. Defined.

Record Intent := {
  iID : ID; iReadTime : Z; iCommitTime : Z; iEpoch : Z; iHome : Participant;
  iDelete : bool; iValue : bytes
}.
#[export] Instance Intent_eq_dec : EqDecision Intent.
Proof. solve_decision. Defined.

(** Cloning is the identity on values; the comparisons of types.go. *)
Fixpoint EqualWrites (left right : list Write) : bool :=
  match left, right with
  | [], [] => true
  | l :: left', r :: right' =>
      negb (negb (Bool.eqb (wDelete l) (wDelete r)) || negb (bytes_eqb (wKey l) (wKey r))
            || negb (bytes_eqb (wValue l) (wValue r))) && EqualWrites left' right'
  | _, _ => false
  end.
Definition EqualRecord (left right : TxnRecord) : bool :=
  bool_decide (rID left = rID right) && (rStatus left =? rStatus right) && (rReadTime left =? rReadTime right)
  && (rCommitTime left =? rCommitTime right) && (rEpoch left =? rEpoch right)
  && bool_decide (rHome left = rHome right) && bool_decide (rParticipants left = rParticipants right).

(** ** codec.go *)

Definition operationMagic : bytes := [Byte.x52; Byte.x56; Byte.x54; Byte.x58].
Definition intentMagic : bytes := [Byte.x52; Byte.x56; Byte.x49; Byte.x4e].
Definition codecVersion : Z := 1.
Definition opHeaderSize : Z := 72.
Definition intentHeaderSize : Z := 64.

(** The loop over [operation.Participants] with [operation.Participants[index-1]]. *)
Fixpoint check_participants (previous : option Participant) (ps : list Participant) : bool :=
  match ps with
  | [] => true
  | p :: ps' =>
      negb ((RangeID p =? 0) || (Generation p =? 0)
            || match previous with Some q => RangeID p <=? RangeID q | None => false end)
      && check_participants (Some p) ps'
  end.
(** The loop over [operation.Writes]. *)
Fixpoint check_writes (previous : option Write) (total : Z) (ws : list Write) : result txn_error unit :=
  match ws with
  | [] => Ok tt
  | w :: ws' =>
      if (wDelete w && negb (len (wValue w) =? 0))
         || match previous with Some q => bytes_leb (wKey w) (wKey q) | None => false end
      then Err ErrInvalid
      else
        let total := total + (len (wKey w) + len (wValue w)) in
        if MaxWriteBytes <? total then Err ErrTooLarge else check_writes (Some w) total ws'
  end.
Definition operation_shape (op : Operation) : bool :=
  let np := len (oParticipants op) in
  let nw := len (oWrites op) in
  if oType op =? OpCreate then negb ((np =? 0) || negb (nw =? 0))
  else if oType op =? OpPrepare then negb (negb (np =? 0) || (nw =? 0))
  else if (oType op =? OpCommit) || (oType op =? OpAbort) || (oType op =? OpTakeover)
          || (oType op =? OpResolveCommit) || (oType op =? OpResolveAbort)
  then negb (negb (np =? 0) || negb (nw =? 0))
  else false.
Definition ValidateOperation (op : Operation) : result txn_error unit :=
  if IsZero (oID op) || (oEpoch op =? 0) || (RangeID (oHome op) =? 0) || (Generation (oHome op) =? 0)
     || (oReadTime op =? 0) || (oCommitTime op <=? oReadTime op)
  then Err ErrInvalid
  else if negb (operation_shape op) then Err ErrInvalid
  else if (MaxParticipants <? len (oParticipants op)) || (MaxWrites <? len (oWrites op)) then Err ErrTooLarge
  else if negb (check_participants None (oParticipants op)) then Err ErrInvalid
  else check_writes None 0 (oWrites op).

Definition encode_participant (p : Participant) : bytes := be_put 8 (RangeID p) ++ be_put 8 (Generation p).
Definition encode_write (w : Write) : bytes :=
  [if wDelete w then Byte.x01 else Byte.x00] ++ be_put 4 (u32 (len (wKey w))) ++ be_put 4 (u32 (len (wValue w)))
  ++ wKey w ++ wValue w.
Definition operation_size (op : Operation) : Z :=
  foldl (fun size w => size + (9 + len (wKey w) + len (wValue w)))
    (opHeaderSize + len (oParticipants op) * 16) (oWrites op).
Definition operation_bytes (op : Operation) : bytes :=
  operationMagic ++ [byte.of_Z codecVersion; byte.of_Z (oType op); Byte.x00; Byte.x00] ++ oID op
  ++ be_put 8 (oReadTime op) ++ be_put 8 (oCommitTime op) ++ be_put 8 (oEpoch op)
  ++ be_put 8 (RangeID (oHome op)) ++ be_put 8 (Generation (oHome op))
  ++ be_put 4 (u32 (len (oParticipants op))) ++ be_put 4 (u32 (len (oWrites op)))
  ++ flat_map encode_participant (oParticipants op) ++ flat_map encode_write (oWrites op).
Definition EncodeOperation (op : Operation) : result txn_error bytes :=
  _ ← ValidateOperation op;
  if MaxWriteBytes <? operation_size op then Err ErrTooLarge else Ok (operation_bytes op).

(** [count] iterations of the participant loop on [encoded[offset:]]; the rest
    is what remains. *)
Fixpoint decode_participants (count : nat) (rest : bytes) : list Participant * bytes :=
  match count with
  | O => ([], rest)
  | S n =>
      let p := {| RangeID := be_get (slice 0 8 rest); Generation := be_get (slice 8 16 rest) |} in
      let '(ps, rest') := decode_participants n (drop 16 rest) in (p :: ps, rest')
  end.
(** [count] iterations of the write loop. *)
Fixpoint decode_writes (count : nat) (rest : bytes) : result txn_error (list Write * bytes) :=
  match count with
  | O => Ok ([], rest)
  | S n =>
      if len rest <? 9 then Err ErrInvalid
      else
        let flags := byte_at 0 rest in
        if 1 <? flags then Err ErrInvalid
        else
          let keyLength := be_get (slice 1 5 rest) in
          let valueLength := be_get (slice 5 9 rest) in
          let rest := drop 9 rest in
          let remaining := len rest in
          if (remaining <? keyLength) || (remaining - keyLength <? valueLength) then Err ErrInvalid
          else
            let keyEnd := Z.to_nat keyLength in
            let valueEnd := (keyEnd + Z.to_nat valueLength)%nat in
            let w := {| wKey := slice 0 keyEnd rest; wValue := slice keyEnd valueEnd rest; wDelete := flags =? 1 |} in
            '(ws, rest') ← decode_writes n (drop valueEnd rest); Ok (w :: ws, rest')
  end.
Definition DecodeOperation (encoded : bytes) : result txn_error Operation :=
  if (len encoded <? opHeaderSize) || (MaxWriteBytes <? len encoded)
     || negb (bytes_eqb (slice 0 4 encoded) operationMagic) || negb (byte_at 4 encoded =? codecVersion)
     || negb (byte_at 6 encoded =? 0) || negb (byte_at 7 encoded =? 0)
  then Err ErrInvalid
  else
    let participantCount := be_get (slice 64 68 encoded) in
    let writeCount := be_get (slice 68 72 encoded) in
    if (MaxParticipants <? participantCount) || (MaxWrites <? writeCount) then Err ErrTooLarge
    else
      let rest := drop (Z.to_nat opHeaderSize) encoded in
      if len rest / 16 <? participantCount then Err ErrInvalid
      else
        let '(ps, rest) := decode_participants (Z.to_nat participantCount) rest in
        '(ws, rest) ← decode_writes (Z.to_nat writeCount) rest;
        if negb (len rest =? 0) then Err ErrInvalid
        else
          let op := {|
            oType := byte_at 5 encoded; oID := slice 8 24 encoded;
            oReadTime := be_get (slice 24 32 encoded); oCommitTime := be_get (slice 32 40 encoded);
            oEpoch := be_get (slice 40 48 encoded);
            oHome := {| RangeID := be_get (slice 48 56 encoded); Generation := be_get (slice 56 64 encoded) |};
            oParticipants := ps; oWrites := ws |} in
          _ ← ValidateOperation op; Ok op.

Definition intent_fields_invalid (i : Intent) : bool :=
  IsZero (iID i) || (iReadTime i =? 0) || (iCommitTime i <=? iReadTime i) || (iEpoch i =? 0)
  || (RangeID (iHome i) =? 0) || (Generation (iHome i) =? 0) || (iDelete i && negb (len (iValue i) =? 0)).
Definition intent_bytes (i : Intent) : bytes :=
  intentMagic ++ [byte.of_Z codecVersion; if iDelete i then Byte.x01 else Byte.x00; Byte.x00; Byte.x00] ++ iID i
  ++ be_put 8 (iReadTime i) ++ be_put 8 (iCommitTime i) ++ be_put 8 (iEpoch i)
  ++ be_put 8 (RangeID (iHome i)) ++ be_put 8 (Generation (iHome i)) ++ iValue i.
Definition EncodeIntent (i : Intent) : result txn_error bytes :=
  if intent_fields_invalid i || (MaxWriteBytes <? len (iValue i)) then Err ErrInvalid else Ok (intent_bytes i).
Definition DecodeIntent (encoded : bytes) : result txn_error Intent :=
  if (len encoded <? intentHeaderSize) || (intentHeaderSize + MaxWriteBytes <? len encoded)
     || negb (bytes_eqb (slice 0 4 encoded) intentMagic) || negb (byte_at 4 encoded =? codecVersion)
     || (1 <? byte_at 5 encoded) || negb (byte_at 6 encoded =? 0) || negb (byte_at 7 encoded =? 0)
  then Err ErrInvalid
  else
    let i := {|
      iID := slice 8 24 encoded; iDelete := byte_at 5 encoded =? 1;
      iReadTime := be_get (slice 24 32 encoded); iCommitTime := be_get (slice 32 40 encoded);
      iEpoch := be_get (slice 40 48 encoded);
      iHome := {| RangeID := be_get (slice 48 56 encoded); Generation := be_get (slice 56 64 encoded) |};
      iValue := drop (Z.to_nat intentHeaderSize) encoded |} in
    if intent_fields_invalid i then Err ErrInvalid else Ok i.

(** ** Typing *)

Definition participant_typed (p : Participant) : Prop := is_u64 (RangeID p) /\ is_u64 (Generation p).
Record operation_typed (op : Operation) : Prop := {
  ot_type : 0 <= oType op < 256;
  ot_id : length (oID op) = IDSize;
  ot_read : is_u64 (oReadTime op);
  ot_commit : is_u64 (oCommitTime op);
  ot_epoch : is_u64 (oEpoch op);
  ot_home : participant_typed (oHome op);
  ot_participants : Forall participant_typed (oParticipants op)
}.
Record intent_typed (i : Intent) : Prop := {
  it_id : length (iID i) = IDSize;
  it_read : is_u64 (iReadTime i);
  it_commit : is_u64 (iCommitTime i);
  it_epoch : is_u64 (iEpoch i);
  it_home : participant_typed (iHome i)
}.

(** ** Participants *)

Lemma encode_participant_length p : length (encode_participant p) = 16%nat.
Proof. unfold encode_participant. by rewrite length_app, !be_put_length. Qed.
Lemma participants_len ps : len (flat_map encode_participant ps) = 16 * len ps.
Proof.
  induction ps as [|p ps IH]; [done|]. cbn [flat_map]. rewrite len_app, len_cons, IH. unfold len at 1.
  rewrite encode_participant_length. lia.
Qed.

Lemma decode_participants_encode ps rest : Forall participant_typed ps ->
  decode_participants (length ps) (flat_map encode_participant ps ++ rest) = (ps, rest).
Proof.
  induction 1 as [|[r g] ps [Hr Hg] _ IH]; [done|]. cbn [length decode_participants flat_map].
  rewrite <- app_assoc. set (t := flat_map encode_participant ps ++ rest) in *.
  unfold encode_participant. rewrite <- !app_assoc. cbn [RangeID Generation] in *.
  fields. rewrite IH, !be_get_put64 by done. done.
Qed.
Lemma decode_participants_inv n : forall rest ps rest', (16 * n <= length rest)%nat ->
  decode_participants n rest = (ps, rest') ->
  rest = flat_map encode_participant ps ++ rest' /\ length ps = n /\ Forall participant_typed ps.
Proof.
  induction n as [|n IH]; intros rest ps rest' Hlen Hd; cbn in Hd; [by injection Hd as <- <-|].
  destruct (decode_participants n (drop 16 rest)) as [ps1 rest1] eqn:Hd1. injection Hd as <- <-.
  apply IH in Hd1 as (Hrest & Hl & Hty); [|rewrite length_drop; lia].
  cbn [flat_map length]. unfold encode_participant at 1. cbn [RangeID Generation].
  assert (length (slice 0 8 rest) = 8%nat) as H8 by (rewrite slice_length; lia).
  assert (length (slice 8 16 rest) = 8%nat) as H16 by (rewrite slice_length; lia).
  split_and!; [|by rewrite Hl|].
  - rewrite !be_put_get by done. rewrite <- !app_assoc, <- Hrest, slice_join_drop by lia. by rewrite slice_join_drop by lia.
  - constructor; [|done]. by split; apply be_get_u64.
Qed.

(** ** Writes *)

Definition write_small (w : Write) : Prop := is_u32 (len (wKey w)) /\ is_u32 (len (wValue w)).

Lemma encode_write_len w : len (encode_write w) = 9 + len (wKey w) + len (wValue w).
Proof.
  unfold encode_write. rewrite !len_app. unfold len. rewrite !be_put_length. cbn [length]. lia.
Qed.
Lemma operation_size_eq op :
  operation_size op = 72 + 16 * len (oParticipants op) + len (flat_map encode_write (oWrites op)).
Proof.
  unfold operation_size. change opHeaderSize with 72.
  cut (forall ws z, foldl (fun size w => size + (9 + len (wKey w) + len (wValue w))) z ws =
    z + len (flat_map encode_write ws)); [intros ->; lia|].
  induction ws as [|w ws IH]; intros z; cbn [foldl flat_map]; [change (len []) with 0; lia|].
  rewrite IH, len_app, encode_write_len. lia.
Qed.
Lemma check_writes_small ws : forall prev total, 0 <= total -> check_writes prev total ws = Ok tt ->
  Forall write_small ws.
Proof.
  induction ws as [|w ws IH]; intros prev total Ht Hc; [constructor|]. cbn in Hc.
  pose proof (len_nonneg (wKey w)). pose proof (len_nonneg (wValue w)). destruct (_ || _); [done|].
  destruct (Z.ltb_spec MaxWriteBytes (total + (len (wKey w) + len (wValue w)))) as [|Hle]; [done|].
  change MaxWriteBytes with 8388608 in Hle. constructor; [split; unfold is_u32; lia|]. by eapply IH; [|exact Hc]; lia.
Qed.

Lemma decode_writes_encode ws rest : Forall write_small ws ->
  decode_writes (length ws) (flat_map encode_write ws ++ rest) = Ok (ws, rest).
Proof.
  induction 1 as [|[k v d] ws [Hk Hv] _ IH]; [done|]. cbn [length decode_writes flat_map].
  cbn [wKey wValue] in Hk, Hv. rewrite <- app_assoc. set (t := flat_map encode_write ws ++ rest) in *.
  pose proof (len_nonneg k). pose proof (len_nonneg v). pose proof (len_nonneg t).
  rewrite (proj2 (Z.ltb_ge _ _)) by (rewrite len_app, encode_write_len; cbn [wKey wValue]; lia).
  unfold encode_write. cbn [wKey wValue wDelete]. rewrite <- !app_assoc.
  assert (byte_at 0 ([if d then Byte.x01 else Byte.x00] ++
    be_put 4 (u32 (len k)) ++ be_put 4 (u32 (len v)) ++ k ++ v ++ t) =
    if d then 1 else 0) as -> by by destruct d.
  rewrite (proj2 (Z.ltb_ge 1 _)) by (destruct d; lia). fields.
  rewrite !be_get_put32, !u32_id by (try apply u64_range; rewrite ?u32_id; done).
  rewrite !len_app.
  rewrite (proj2 (orb_false_iff _ _)) by (rewrite !Z.ltb_ge; lia). rewrite !len_to_nat.
  rewrite (slice_here (length k)), (slice_skip (length k) k), Nat.sub_diag by lia.
  replace (length k + length v - length k)%nat with (length v) by lia. rewrite (slice_here (length v)) by done.
  rewrite app_assoc, drop_app_length' by by rewrite length_app. rewrite IH. by destruct d.
Qed.

Lemma decode_writes_inv n : forall rest ws rest', decode_writes n rest = Ok (ws, rest') ->
  rest = flat_map encode_write ws ++ rest' /\ length ws = n.
Proof.
  induction n as [|n IH]; intros rest ws rest' Hd; cbn [decode_writes] in Hd; [by injection Hd as <- <-|].
  destruct (Z.ltb_spec (len rest) 9) as [|H9]; [done|]. unfold len in H9.
  destruct (Z.ltb_spec 1 (byte_at 0 rest)) as [|Hfl]; [done|].
  set (k := be_get (slice 1 5 rest)) in *. set (v := be_get (slice 5 9 rest)) in *.
  assert (is_u32 k /\ is_u32 v) as [Hk Hv] by (split; apply be_get_u32; rewrite slice_length; lia).
  destruct (Z.ltb_spec (len (drop 9 rest)) k) as [|Hkr]; [done|].
  destruct (Z.ltb_spec (len (drop 9 rest) - k) v) as [|Hvr]; [done|]. cbn [orb] in Hd.
  rewrite bind_ok in Hd. destruct Hd as ([ws1 rest1] & Hd & Heq). injection Heq as <- <-.
  apply IH in Hd as [Hrest Hl]. cbn [flat_map length]. split; [|by rewrite Hl].
  unfold encode_write at 1. cbn [wKey wValue wDelete]. set (s := drop 9 rest) in *.
  unfold is_u32 in Hk, Hv. unfold len in Hkr, Hvr.
  assert (len (slice 0 (Z.to_nat k) s) = k) as Hlk by (unfold len; rewrite slice_length; lia).
  assert (len (slice (Z.to_nat k) (Z.to_nat k + Z.to_nat v) s) = v) as Hlv by (unfold len; rewrite slice_length; lia).
  rewrite Hlk, Hlv, !u32_id by done. unfold k, v. rewrite <- !app_assoc, <- Hrest.
  rewrite slice_join_drop by lia. rewrite slice_join_drop by lia. unfold s. rewrite drop_0.
  rewrite !be_put_get by (rewrite slice_length; lia).
  assert ([if byte_at 0 rest =? 1 then Byte.x01 else Byte.x00] = slice 0 1 rest) as ->.
  { rewrite <- byte_at_slice by lia. pose proof (byte_at_range 0 rest).
    assert (byte_at 0 rest = 0 \/ byte_at 0 rest = 1) as [-> | ->] by lia; done. }
  rewrite slice_join_drop by lia. rewrite slice_join_drop by lia. by rewrite slice_join_drop by lia.
Qed.

(** ** Operations *)

Lemma ValidateOperation_bounds op : ValidateOperation op = Ok tt ->
  len (oParticipants op) <= MaxParticipants /\ len (oWrites op) <= MaxWrites /\ Forall write_small (oWrites op).
Proof.
  unfold ValidateOperation. destruct (_ || _); [done|]. destruct (negb (operation_shape op)); [done|].
  destruct (Z.ltb_spec MaxParticipants (len (oParticipants op))); [done|].
  destruct (Z.ltb_spec MaxWrites (len (oWrites op))); [done|]. cbn [orb].
  destruct (negb _); [done|]. intros Hc. split_and!; [done|done|]. by eapply check_writes_small; [|exact Hc].
Qed.
Lemma operation_bytes_len op : length (oID op) = IDSize -> len (operation_bytes op) = operation_size op.
Proof.
  intros Hid. rewrite operation_size_eq. unfold operation_bytes. rewrite !len_app.
  rewrite !len_be_put, participants_len. replace (len (oID op)) with 16 by (unfold len; by rewrite Hid).
  change (len operationMagic) with 4. rewrite !len_cons, len_nil. lia.
Qed.

Lemma operation_decode_encode op e :
  operation_typed op -> EncodeOperation op = Ok e -> DecodeOperation e = Ok op.
Proof.
  intros [Hty Hid Hrt Hct Hep [Hh1 Hh2] Hps]. unfold EncodeOperation. rewrite bind_ok. intros ([] & Hval & Henc).
  destruct (Z.ltb_spec MaxWriteBytes (operation_size op)) as [|Hsize]; [done|]. injection Henc as <-.
  destruct (ValidateOperation_bounds op Hval) as (Hnp & Hnw & Hws).
  pose proof (operation_bytes_len op Hid) as Hlen. pose proof (operation_size_eq op) as Hseq.
  pose proof (len_nonneg (oParticipants op)). pose proof (len_nonneg (oWrites op)).
  pose proof (len_nonneg (flat_map encode_write (oWrites op))).
  assert (is_u32 (len (oParticipants op)) /\ is_u32 (len (oWrites op))) as [Hup Huw].
  { change MaxParticipants with 64 in Hnp. change MaxWrites with 1024 in Hnw. unfold is_u32. lia. }
  unfold DecodeOperation. rewrite Hlen, (proj2 (Z.ltb_ge _ opHeaderSize)), (proj2 (Z.ltb_ge _ (operation_size op)))
    by (change opHeaderSize with 72; lia).
  unfold operation_bytes. change (Z.to_nat opHeaderSize) with 72%nat. unfold IDSize in Hid. assert (length operationMagic = 4%nat) as Hm by done. fields.
  rewrite (unsigned_of_Z_small (oType op)), !be_get_put64 by done.
  rewrite !be_get_put32 by (rewrite u32_id; done). rewrite !u32_id by done.
  cbn [orb negb codecVersion].
  rewrite (proj2 (Z.ltb_ge MaxParticipants _)), (proj2 (Z.ltb_ge MaxWrites _)) by done. cbn [orb].
  rewrite len_app, participants_len, (proj2 (Z.ltb_ge _ (len (oParticipants op)))).
  2: { apply Z.div_le_lower_bound; lia. }
  rewrite !len_to_nat, decode_participants_encode by done.
  rewrite <- (app_nil_r (flat_map encode_write (oWrites op))), decode_writes_encode by done. cbn [mbind result_bind].
  change (negb (len [] =? 0)) with false. rewrite bytes_eqb_refl.
  change (byte.unsigned (byte.of_Z codecVersion) =? codecVersion) with true.
  change (byte.unsigned Byte.x00 =? 0) with true. cbn [negb orb].
  destruct op as [ty id rt ct ep [hr hg] ps ws].
  cbn [oType oID oReadTime oCommitTime oEpoch oHome oParticipants oWrites RangeID Generation]. by rewrite Hval.
Qed.

Lemma operation_encode_decode e op : DecodeOperation e = Ok op -> operation_typed op /\ EncodeOperation op = Ok e.
Proof.
  unfold DecodeOperation. destruct (Z.ltb_spec (len e) opHeaderSize) as [|H72]; [done|].
  destruct (Z.ltb_spec MaxWriteBytes (len e)) as [|Hmax]; [done|]. change opHeaderSize with 72 in H72. unfold len in H72. cbn [orb].
  destruct (bytes_eqb (slice 0 4 e) operationMagic) eqn:Hmagic; [|done]. apply bytes_eqb_eq in Hmagic.
  destruct (Z.eqb_spec (byte_at 4 e) codecVersion) as [H4|]; [|done].
  destruct (Z.eqb_spec (byte_at 6 e) 0) as [H6|]; [|done]. destruct (Z.eqb_spec (byte_at 7 e) 0) as [H7|]; [|done].
  cbn [negb orb]. set (np := be_get (slice 64 68 e)). set (nw := be_get (slice 68 72 e)).
  destruct (_ || _); [done|]. change (Z.to_nat opHeaderSize) with 72%nat.
  destruct (Z.ltb_spec (len (drop 72 e) / 16) np) as [|Hnp]; [done|].
  assert (is_u32 np /\ is_u32 nw) as [Hup Huw] by (split; apply be_get_u32; rewrite slice_length; lia).
  destruct (decode_participants _ _) as [ps rest] eqn:Hps.
  apply decode_participants_inv in Hps as (Hr1 & Hl1 & Hty1).
  2: { unfold is_u32 in Hup. pose proof (Z.mul_div_le (len (drop 72 e)) 16). unfold len in *. lia. }
  rewrite bind_ok. intros ([ws rest2] & Hws & Hd). apply decode_writes_inv in Hws as [Hr2 Hl2].
  destruct (Z.eqb_spec (len rest2) 0) as [Hr3|]; [|done]. destruct rest2; [|unfold len in Hr3; cbn in Hr3; lia].
  cbn [negb] in Hd. rewrite bind_ok in Hd. destruct Hd as ([] & Hval & [= <-]).
  assert (length (slice 8 24 e) = IDSize) as Hid by (rewrite slice_length; unfold IDSize; lia).
  split.
  { split; cbn [oType oID oReadTime oCommitTime oEpoch oHome oParticipants]; try done.
    - apply byte_at_range.
    - apply be_get_u64; rewrite slice_length; lia.
    - apply be_get_u64; rewrite slice_length; lia.
    - apply be_get_u64; rewrite slice_length; lia.
    - split; apply be_get_u64; rewrite slice_length; lia. }
  unfold EncodeOperation. rewrite Hval. cbn [mbind result_bind]. set (op := Build_Operation _ _ _ _ _ _ _ _) in *.
  rewrite <- operation_bytes_len by done.
  assert (operation_bytes op = e) as ->; [|by rewrite (proj2 (Z.ltb_ge _ _))].
  unfold operation_bytes, op. cbn [oType oID oReadTime oCommitTime oEpoch oHome oParticipants oWrites RangeID Generation].
  rewrite app_nil_r in Hr2. rewrite <- Hr2, <- Hr1.
  replace (len ps) with np by (unfold len, is_u32 in *; lia). replace (len ws) with nw by (unfold len, is_u32 in *; lia).
  rewrite !u32_id by done. unfold np, nw. join_fields.
  change [byte.of_Z codecVersion; byte.of_Z (byte_at 5 e); Byte.x00; Byte.x00] with
    [byte.of_Z codecVersion; byte.of_Z (byte_at 5 e); byte.of_Z 0; byte.of_Z 0].
  rewrite (slice_bytes4 4 e) by (done || lia). change (4 + 4)%nat with 8%nat. rewrite <- Hmagic. by join_fields.
Qed.

(** The encoding of operations is a bijection: a string decodes to an
    operation exactly when it is the encoding of that (well-typed) operation.
    So decoding inverts encoding, and no operation has two encodings. *)
Theorem operation_codec e op :
  DecodeOperation e = Ok op <-> operation_typed op /\ EncodeOperation op = Ok e.
Proof. split; [apply operation_encode_decode|]. intros [Hty He]. by apply operation_decode_encode. Qed.

(** ** Intents *)

Lemma intent_decode_encode i e : intent_typed i -> EncodeIntent i = Ok e -> DecodeIntent e = Ok i.
Proof.
  intros [Hid Hrt Hct Hep [Hh1 Hh2]]. unfold EncodeIntent. destruct (intent_fields_invalid i) eqn:Hinv; [done|].
  destruct (Z.ltb_spec MaxWriteBytes (len (iValue i))) as [|Hmax]; [done|]. intros [= <-]. unfold IDSize in Hid.
  assert (len (intent_bytes i) = 64 + len (iValue i)) as Hlen.
  { unfold intent_bytes. rewrite !len_app, !len_be_put, !len_cons, len_nil.
    replace (len (iID i)) with 16 by (unfold len; by rewrite Hid). change (len intentMagic) with 4. lia. }
  pose proof (len_nonneg (iValue i)). unfold DecodeIntent. rewrite Hlen. change intentHeaderSize with 64.
  rewrite (proj2 (Z.ltb_ge _ 64)), (proj2 (Z.ltb_ge (64 + MaxWriteBytes) _)) by lia. change (Z.to_nat 64) with 64%nat.
  assert (length intentMagic = 4%nat) as Hm by done. unfold intent_bytes. fields.
  rewrite !be_get_put64, bytes_eqb_refl by done.
  change (byte.unsigned (byte.of_Z codecVersion) =? codecVersion) with true.
  change (byte.unsigned Byte.x00 =? 0) with true.
  destruct i as [id rt ct ep [hr hg] [] v];
    cbn [iID iReadTime iCommitTime iEpoch iHome iDelete iValue RangeID Generation negb orb] in *.
  - change (1 <? byte.unsigned Byte.x01) with false. change (byte.unsigned Byte.x01 =? 1) with true. by rewrite Hinv.
  - change (1 <? byte.unsigned Byte.x00) with false. change (byte.unsigned Byte.x00 =? 1) with false. by rewrite Hinv.
Qed.
Lemma intent_encode_decode e i : DecodeIntent e = Ok i -> intent_typed i /\ EncodeIntent i = Ok e.
Proof.
  unfold DecodeIntent. change intentHeaderSize with 64. destruct (Z.ltb_spec (len e) 64) as [|H64]; [done|].
  destruct (Z.ltb_spec (64 + MaxWriteBytes) (len e)) as [|Hmax]; [done|]. unfold len in H64. cbn [orb].
  destruct (bytes_eqb (slice 0 4 e) intentMagic) eqn:Hmagic; [|done]. apply bytes_eqb_eq in Hmagic.
  destruct (Z.eqb_spec (byte_at 4 e) codecVersion) as [H4|]; [|done].
  destruct (Z.ltb_spec 1 (byte_at 5 e)) as [|H5]; [done|].
  destruct (Z.eqb_spec (byte_at 6 e) 0) as [H6|]; [|done]. destruct (Z.eqb_spec (byte_at 7 e) 0) as [H7|]; [|done].
  cbn [negb orb]. change (Z.to_nat 64) with 64%nat. set (i' := Build_Intent _ _ _ _ _ _ _).
  destruct (intent_fields_invalid i') eqn:Hinv; [done|]. intros [= <-]. split.
  { split; unfold i'; cbn [iID iReadTime iCommitTime iEpoch iHome].
    - rewrite slice_length; unfold IDSize; lia.
    - apply be_get_u64; rewrite slice_length; lia.
    - apply be_get_u64; rewrite slice_length; lia.
    - apply be_get_u64; rewrite slice_length; lia.
    - split; apply be_get_u64; rewrite slice_length; lia. }
  unfold EncodeIntent. rewrite Hinv. rewrite (proj2 (Z.ltb_ge _ _)).
  2: { unfold i', len in *. cbn [iValue]. rewrite length_drop. lia. }
  cbn [orb]. f_equal. unfold intent_bytes, i'. cbn [iID iReadTime iCommitTime iEpoch iHome iDelete iValue RangeID Generation].
  join_fields. assert ([byte.of_Z codecVersion; if byte_at 5 e =? 1 then Byte.x01 else Byte.x00; Byte.x00; Byte.x00] =
    slice 4 8 e) as ->.
  { change (slice 4 8 e) with (slice 4 (4 + 4) e). rewrite <- (slice_bytes4 4 e codecVersion (byte_at 5 e) 0 0) by (done || lia). pose proof (byte_at_range 5 e).
    assert (byte_at 5 e = 0 \/ byte_at 5 e = 1) as [-> | ->] by lia; done. }
  rewrite <- Hmagic. by join_fields.
Qed.

(** The encoding of intents is a bijection in the same sense. *)
Theorem intent_codec e i : DecodeIntent e = Ok i <-> intent_typed i /\ EncodeIntent i = Ok e.
Proof. split; [apply intent_encode_decode|]. intros [Hty He]. by apply intent_decode_encode. Qed.
