(* ===== verification/Command.v ===== *)
(** * Commands of a replicated range (replicatedrange/command.go, split.go)

    The commands that go through a range's Raft log: single writes,
    transaction operations and split operations, with their validation and
    encodings.  The theorems show that both encodings are bijections between
    the values the validators accept and the strings the decoders accept. *)

From S2P Require Import Prelude Codec InternalKey RaftTypes Txn.

(** sstable/format.go *)
Definition MaxUserKeySize : Z := Z.shiftl 1 20.
Definition MaxValueSize : Z := Z.shiftl 64 20.

(** Sentinels of package replicatedrange, and the errors it wraps. *)
Inductive range_error :=
  | ErrInvalidCommand | ErrUnsupportedCommand | ErrCommandTooLarge | ErrKeyOutOfRange
  | ErrMVCCRegression | ErrRangeNotServing | ErrSplitFenced | ErrSplitReplayOrder
  | ErrInvalidOptions | ErrSnapshotBehind
  | TxnError (e : txn_error) | StorageError (e : storage_error) | ErrEngine | ErrAlreadyApplied | ErrNotFound.
#[export] Instance range_error_eq_dec : EqDecision range_error.
Proof. solve_decision. Defined.

(** ** split.go *)

Definition LifecycleActive : Z := 1.
Definition LifecycleShadow : Z := 2.
Definition LifecycleRetired : Z := 3.
Definition LifecycleLearner : Z := 4.

Definition SplitOpBegin : Z := 1.
Definition SplitOpBootstrapBarrier : Z := 2.
Definition SplitOpBootstrapVersion : Z := 3.
Definition SplitOpReplayVersion : Z := 4.
Definition SplitOpReplayAdvance : Z := 5.
Definition SplitOpFinalFence : Z := 6.
Definition SplitOpActivate : Z := 7.
Definition SplitOpRetire : Z := 8.
Definition SplitOpAbort : Z := 9.

Record SplitOperation := {
  sType : Z; SplitID : Z; sEpoch : Z; ParentRangeID : Z; ParentGeneration : Z; ParentIndex : Z;
  sTimestamp : Z; sKind : ValueKind; CommandDigest : bytes; ImageDigest : bytes; sValue : bytes
}.
#[export] Instance SplitOperation_eq_dec : EqDecision SplitOperation.
Proof. solve_decision. Defined.

Definition splitOperationMagic : bytes := [Byte.x52; Byte.x56; Byte.x53; Byte.x50].
(** [[32]byte{}] *)
Definition zero_digest : bytes := replicate 32 Byte.x00.

Definition validateSplitOperation (op : SplitOperation) : result (list range_error) unit :=
  if (sType op <? SplitOpBegin) || (SplitOpAbort <? sType op) || (SplitID op =? 0) || (sEpoch op =? 0)
     || (ParentRangeID op =? 0) || (ParentGeneration op =? 0)
  then Err [ErrInvalidCommand]
  else
    let version := (sType op =? SplitOpBootstrapVersion) || (sType op =? SplitOpReplayVersion) in
    if version then
      if (sTimestamp op =? 0) || (byte.unsigned KindIntent <? byte.unsigned (sKind op))
      then Err [ErrInvalidCommand; StorageError ErrInvalidValueKind]
      else if (sType op =? SplitOpReplayVersion)
              && ((ParentIndex op =? 0) || bytes_eqb (CommandDigest op) zero_digest)
      then Err [ErrInvalidCommand]
      else Ok tt
    else if negb (len (sValue op) =? 0) || negb (byte.unsigned (sKind op) =? 0)
            || (negb (sTimestamp op =? 0) && negb (sType op =? SplitOpBootstrapBarrier)
                && negb (sType op =? SplitOpReplayAdvance))
    then Err [ErrInvalidCommand]
    else Ok tt.

Definition split_bytes (op : SplitOperation) : bytes :=
  splitOperationMagic ++ [Byte.x01; byte.of_Z (sType op); sKind op; Byte.x00]
  ++ le_put 8 (SplitID op) ++ le_put 8 (sEpoch op) ++ le_put 8 (ParentRangeID op)
  ++ le_put 8 (ParentGeneration op) ++ le_put 8 (ParentIndex op) ++ le_put 8 (sTimestamp op)
  ++ CommandDigest op ++ ImageDigest op ++ le_put 4 (u32 (len (sValue op))) ++ sValue op.
Definition EncodeSplitOperation (op : SplitOperation) : result (list range_error) bytes :=
  _ ← validateSplitOperation op; Ok (split_bytes op).

Definition DecodeSplitOperation (data : bytes) : result (list range_error) SplitOperation :=
  if (len data <? 124) || negb (bytes_eqb (slice 0 4 data) splitOperationMagic)
     || negb (byte_at 4 data =? 1) || negb (byte_at 7 data =? 0)
  then Err [ErrInvalidCommand]
  else
    let length := le_get (slice 120 124 data) in
    if negb (length =? len (drop 124 data)) then Err [ErrInvalidCommand]
    else
      let op := {|
        sType := byte_at 5 data; sKind := default Byte.x00 (data !! 6%nat);
        SplitID := le_get (slice 8 16 data); sEpoch := le_get (slice 16 24 data);
        ParentRangeID := le_get (slice 24 32 data); ParentGeneration := le_get (slice 32 40 data);
        ParentIndex := le_get (slice 40 48 data); sTimestamp := le_get (slice 48 56 data);
        CommandDigest := slice 56 88 data; ImageDigest := slice 88 120 data; sValue := drop 124 data |} in
      _ ← validateSplitOperation op; Ok op.

(** ** command.go *)

Definition commandHeaderSize : Z := 16.
Definition mvccCommandHeaderSize : Z := 24.
Definition commandVersion : Z := 1.
Definition mvccCommandVersion : Z := 2.
Definition commandMagic : bytes := [Byte.x52; Byte.x56; Byte.x43; Byte.x4d].

(** [type CommandType uint8] *)
Definition CommandPut : Z := 1.
Definition CommandDelete : Z := 2.
Definition CommandTxnBarrier : Z := 3.
Definition CommandTxnCreate : Z := 4.
Definition CommandTxnPrepare : Z := 5.
Definition CommandTxnCommit : Z := 6.
Definition CommandTxnAbort : Z := 7.
Definition CommandTxnTakeover : Z := 8.
Definition CommandTxnResolveCommit : Z := 9.
Definition CommandTxnResolveAbort : Z := 10.
Definition CommandSplit : Z := 11.

Record RangeCommand := { cType : Z; cKey : bytes; cValue : bytes; cTimestamp : Z }.
#[export] Instance RangeCommand_eq_dec : EqDecision RangeCommand.
Proof. solve_decision. Defined.

(** The map literal of [validateCommand]; a missing key gives 0. *)
Definition wanted_operation (t : Z) : Z :=
  if t =? CommandTxnCreate then OpCreate else if t =? CommandTxnPrepare then OpPrepare
  else if t =? CommandTxnCommit then OpCommit else if t =? CommandTxnAbort then OpAbort
  else if t =? CommandTxnTakeover then OpTakeover else if t =? CommandTxnResolveCommit then OpResolveCommit
  else if t =? CommandTxnResolveAbort then OpResolveAbort else 0.

Definition header_size (timestamp : Z) : Z :=
  if negb (timestamp =? 0) then mvccCommandHeaderSize else commandHeaderSize.

Definition validateCommand (c : RangeCommand) : result (list range_error) unit :=
  if (cType c <? CommandPut) || (CommandSplit <? cType c) then Err [ErrInvalidCommand]
  else if (MaxUserKeySize <? len (cKey c)) || (MaxValueSize <? len (cValue c)) then Err [ErrCommandTooLarge]
  else
    let headerSize := header_size (cTimestamp c) in
    if (MaxCommandBytes - headerSize <? len (cKey c)) || (MaxCommandBytes - headerSize - len (cKey c) <? len (cValue c))
    then Err [ErrCommandTooLarge]
    else if ((cType c =? CommandDelete) || (cType c =? CommandTxnBarrier)) && negb (len (cValue c) =? 0)
    then Err [ErrInvalidCommand]
    else if (CommandTxnBarrier <=? cType c) && (cType c <? CommandSplit) && (cTimestamp c =? 0)
    then Err [ErrInvalidCommand]
    else
      _ ← (if (CommandTxnBarrier <? cType c) && (cType c <? CommandSplit) then
             match DecodeOperation (cValue c) with
             | Err e => Err [ErrInvalidCommand; TxnError e]
             | Ok op =>
                 if negb (oType op =? wanted_operation (cType c)) || negb (oCommitTime op =? cTimestamp c)
                 then Err [ErrInvalidCommand] else Ok tt
             end
           else Ok tt);
      if cType c =? CommandSplit then
        match DecodeSplitOperation (cValue c) with
        | Err _ => Err [ErrInvalidCommand]
        | Ok op => if negb (sTimestamp op =? cTimestamp c) then Err [ErrInvalidCommand] else Ok tt
        end
      else Ok tt.

Definition command_bytes (c : RangeCommand) : bytes :=
  let version := if negb (cTimestamp c =? 0) then mvccCommandVersion else commandVersion in
  commandMagic ++ [byte.of_Z version; byte.of_Z (cType c); Byte.x00; Byte.x00]
  ++ (if negb (cTimestamp c =? 0) then be_put 8 (cTimestamp c) else [])
  ++ le_put 4 (u32 (len (cKey c))) ++ le_put 4 (u32 (len (cValue c))) ++ cKey c ++ cValue c.
Definition EncodeCommand (c : RangeCommand) : result (list range_error) bytes :=
  _ ← validateCommand c; Ok (command_bytes c).

(** The part of [DecodeCommand] after the header size, the offset of the
    lengths and the timestamp are known. *)
Definition decode_command_body (encoded : bytes) (headerSize lengthOffset : nat) (timestamp : Z)
    : result (list range_error) RangeCommand :=
  let keyLength := le_get (slice lengthOffset (lengthOffset + 4) encoded) in
  let valueLength := le_get (slice (lengthOffset + 4) (lengthOffset + 8) encoded) in
  if (MaxUserKeySize <? keyLength) || (MaxValueSize <? valueLength) then Err [ErrCommandTooLarge]
  else if MaxCommandBytes - Z.of_nat headerSize <? keyLength + valueLength then Err [ErrCommandTooLarge]
  else if negb (keyLength + valueLength =? len encoded - Z.of_nat headerSize) then Err [ErrInvalidCommand]
  else
    let keyEnd := (headerSize + Z.to_nat keyLength)%nat in
    let c := {| cType := byte_at 5 encoded; cTimestamp := timestamp;
                cKey := slice headerSize keyEnd encoded; cValue := drop keyEnd encoded |} in
    _ ← validateCommand c; Ok c.
Definition DecodeCommand (encoded : bytes) : result (list range_error) RangeCommand :=
  if (len encoded <? commandHeaderSize) || negb (bytes_eqb (slice 0 4 encoded) commandMagic)
  then Err [ErrInvalidCommand]
  else
    let version := byte_at 4 encoded in
    if negb (version =? commandVersion) && negb (version =? mvccCommandVersion) then Err [ErrUnsupportedCommand]
    else if negb (byte_at 6 encoded =? 0) || negb (byte_at 7 encoded =? 0) then Err [ErrInvalidCommand]
    else if version =? mvccCommandVersion then
      if len encoded <? mvccCommandHeaderSize then Err [ErrInvalidCommand]
      else
        let timestamp := be_get (slice 8 16 encoded) in
        if timestamp =? 0 then Err [ErrInvalidCommand] else decode_command_body encoded 24 16 timestamp
    else decode_command_body encoded 16 8 0.

(** ** Split operations *)

Record split_typed (op : SplitOperation) : Prop := {
  spt_type : 0 <= sType op < 256;
  spt_id : is_u64 (SplitID op);
  spt_epoch : is_u64 (sEpoch op);
  spt_parent : is_u64 (ParentRangeID op);
  spt_generation : is_u64 (ParentGeneration op);
  spt_index : is_u64 (ParentIndex op);
  spt_timestamp : is_u64 (sTimestamp op);
  spt_command : length (CommandDigest op) = 32%nat;
  spt_image : length (ImageDigest op) = 32%nat;
  spt_value : is_u32 (len (sValue op))
}.

Lemma split_decode_encode op e : split_typed op -> EncodeSplitOperation op = Ok e -> DecodeSplitOperation e = Ok op.
Proof.
  intros [Hty H1 H2 H3 H4 H5 H6 Hcd Hid Hv]. unfold EncodeSplitOperation. rewrite bind_ok. intros ([] & Hval & [= <-]).
  assert (len (split_bytes op) = 124 + len (sValue op)) as Hlen.
  { unfold split_bytes. rewrite !len_app, !len_le_put, !len_cons, len_nil. unfold len at 2 3. rewrite Hcd, Hid.
    change (len splitOperationMagic) with 4. lia. }
  pose proof (len_nonneg (sValue op)). unfold DecodeSplitOperation. rewrite Hlen, (proj2 (Z.ltb_ge _ 124)) by lia.
  assert (length splitOperationMagic = 4%nat) as Hm by done. unfold split_bytes.
  assert (forall l : bytes, (splitOperationMagic ++ [Byte.x01; byte.of_Z (sType op); sKind op; Byte.x00] ++ l) !! 6%nat =
    Some (sKind op)) as -> by done.
  fields. rewrite !le_get_put64, !le_get_put32, !u32_id, unsigned_of_Z_small, bytes_eqb_refl, Z.eqb_refl by (rewrite ?u32_id; done).
  change (byte.unsigned Byte.x01 =? 1) with true. change (byte.unsigned Byte.x00 =? 0) with true.
  cbn [negb orb default from_option id]. destruct op.
  cbn [sType SplitID sEpoch ParentRangeID ParentGeneration ParentIndex sTimestamp sKind CommandDigest ImageDigest sValue] in *.
  by rewrite Hval, Z.eqb_refl.
Qed.
Lemma split_encode_decode e op : DecodeSplitOperation e = Ok op -> split_typed op /\ EncodeSplitOperation op = Ok e.
Proof.
  unfold DecodeSplitOperation. destruct (Z.ltb_spec (len e) 124) as [|Hl]; [done|]. unfold len in Hl. cbn [orb].
  destruct (bytes_eqb (slice 0 4 e) splitOperationMagic) eqn:Hmagic; [|done]. apply bytes_eqb_eq in Hmagic.
  destruct (Z.eqb_spec (byte_at 4 e) 1) as [H4|]; [|done]. destruct (Z.eqb_spec (byte_at 7 e) 0) as [H7|]; [|done].
  cbn [negb orb]. destruct (Z.eqb_spec (le_get (slice 120 124 e)) (len (drop 124 e))) as [Hv|]; [|done]. cbn [negb].
  rewrite bind_ok. intros ([] & Hval & [= <-]).
  assert (is_u32 (len (drop 124 e))) as Hu by (rewrite <- Hv; apply le_get_u32; rewrite slice_length; lia).
  split.
  { split; cbn [sType SplitID sEpoch ParentRangeID ParentGeneration ParentIndex sTimestamp CommandDigest ImageDigest sValue];
      [apply byte_at_range|apply le_get_u64; rewrite slice_length; lia..|rewrite slice_length; lia|
       rewrite slice_length; lia|done]. }
  unfold EncodeSplitOperation. rewrite Hval. cbn [mbind result_bind]. f_equal. unfold split_bytes.
  cbn [sType SplitID sEpoch ParentRangeID ParentGeneration ParentIndex sTimestamp sKind CommandDigest ImageDigest sValue].
  rewrite (u32_id _ Hu), <- Hv. join_fields.
  assert ([Byte.x01; byte.of_Z (byte_at 5 e); default Byte.x00 (e !! 6%nat); Byte.x00] = slice 4 8 e) as ->.
  { change (slice 4 8 e) with (slice 4 (4 + 4) e). rewrite <- (slice_bytes4 4 e 1 (byte_at 5 e) (byte_at 6 e) 0) by (done || lia).
    repeat f_equal. unfold byte_at. by rewrite byte.of_Z_unsigned. }
  rewrite <- Hmagic. by join_fields.
Qed.

(** The encoding of split operations is a bijection: a string decodes to
    an operation exactly when it is the encoding of that (well-typed)
    operation. *)
Theorem split_codec e op :
  DecodeSplitOperation e = Ok op <-> split_typed op /\ EncodeSplitOperation op = Ok e.
Proof. split; [apply split_encode_decode|]. intros [Hty He]. by apply split_decode_encode. Qed.

(** ** Commands *)

Record command_typed (c : RangeCommand) : Prop := {
  ct_type : 0 <= cType c < 256;
  ct_timestamp : is_u64 (cTimestamp c)
}.

Lemma validateCommand_bounds c : validateCommand c = Ok tt ->
  len (cKey c) <= MaxUserKeySize /\ len (cValue c) <= MaxValueSize /\
  len (cKey c) + len (cValue c) <= MaxCommandBytes - header_size (cTimestamp c).
Proof.
  unfold validateCommand. destruct (_ || _); [done|].
  destruct (Z.ltb_spec MaxUserKeySize (len (cKey c))); [done|].
  destruct (Z.ltb_spec MaxValueSize (len (cValue c))); [done|]. cbn [orb].
  destruct (Z.ltb_spec (MaxCommandBytes - header_size (cTimestamp c)) (len (cKey c))); [done|].
  destruct (Z.ltb_spec (MaxCommandBytes - header_size (cTimestamp c) - len (cKey c)) (len (cValue c))); [done|]. lia.
Qed.

(** The body behind a header of [n] bytes. *)
Lemma decode_command_body_ok c hd n e : length hd = n -> (8 <= n)%nat ->
  e = hd ++ le_put 4 (u32 (len (cKey c))) ++ le_put 4 (u32 (len (cValue c))) ++ cKey c ++ cValue c ->
  byte_at 5 e = cType c -> validateCommand c = Ok tt -> Z.of_nat (n + 8) = header_size (cTimestamp c) ->
  decode_command_body e (n + 8) n (cTimestamp c) = Ok c.
Proof.
  intros Hn Hn8 He Ht Hval Hh. destruct (validateCommand_bounds c Hval) as (Hk & Hv & Hkv).
  pose proof (len_nonneg (cKey c)). pose proof (len_nonneg (cValue c)).
  assert (is_u32 (len (cKey c)) /\ is_u32 (len (cValue c))) as [Huk Huv].
  { change MaxUserKeySize with 1048576 in Hk. change MaxValueSize with 67108864 in Hv. unfold is_u32. lia. }
  assert (len e = Z.of_nat (n + 8) + len (cKey c) + len (cValue c)) as Hlen.
  { rewrite He, !len_app, !len_le_put. unfold len at 1. lia. }
  set (lk := le_put 4 (u32 (len (cKey c)))) in *. set (lv := le_put 4 (u32 (len (cValue c)))) in *.
  assert (length lk = 4%nat /\ length lv = 4%nat) as [Hlk Hlv] by by split; apply le_put_length.
  assert (le_get lk = len (cKey c) /\ le_get lv = len (cValue c)) as [Hgk Hgv].
  { unfold lk, lv. by rewrite !le_get_put32, !u32_id by (rewrite ?u32_id; done). }
  clearbody lk lv. unfold decode_command_body. rewrite Ht, Hlen, He.
  rewrite !(slice_skip n hd), !(drop_skip n hd), Nat.sub_diag by lia.
  replace (n + 4 - n)%nat with 4%nat by lia. replace (n + 8 - n)%nat with 8%nat by lia. fields. rewrite Hgk, Hgv.
  rewrite (proj2 (Z.ltb_ge _ (len (cKey c)))), (proj2 (Z.ltb_ge _ (len (cValue c)))) by done. cbn [orb].
  rewrite (proj2 (Z.ltb_ge _ _)) by lia. rewrite (proj2 (Z.eqb_eq _ _)) by lia. cbn [negb]. rewrite len_to_nat.
  replace (n + 8 + length (cKey c) - n - 4 - 4)%nat with (length (cKey c)) by lia.
  rewrite slice_here, drop_app_length by done.
  destruct c. cbn [cType cKey cValue cTimestamp] in *. by rewrite Hval.
Qed.
Lemma command_decode_encode c e : command_typed c -> EncodeCommand c = Ok e -> DecodeCommand e = Ok c.
Proof.
  intros [Hty Hts]. unfold EncodeCommand. rewrite bind_ok. intros ([] & Hval & [= <-]).
  pose proof (len_nonneg (cKey c)). pose proof (len_nonneg (cValue c)).
  unfold DecodeCommand, command_bytes. assert (length commandMagic = 4%nat) as Hm by done.
  destruct (Z.eqb_spec (cTimestamp c) 0) as [Hz|Hz]; cbn [negb].
  - rewrite app_nil_l. set (e := _ ++ _). assert (16 <= len e) as Hl.
    { unfold e. rewrite !len_app, !len_le_put, !len_cons, len_nil. change (len commandMagic) with 4. lia. }
    rewrite (proj2 (Z.ltb_ge _ _)) by done.
    assert (byte_at 5 e = cType c) as H5 by (unfold e; fields; by apply unsigned_of_Z_small).
    assert (slice 0 4 e = commandMagic) as -> by (unfold e; by fields). rewrite bytes_eqb_refl.
    change (byte_at 4 e) with 1. change (byte_at 6 e) with 0. change (byte_at 7 e) with 0.
    cbn [orb negb andb Z.eqb commandVersion mvccCommandVersion]. rewrite <- Hz.
    apply (decode_command_body_ok c (commandMagic ++ [byte.of_Z commandVersion; byte.of_Z (cType c); Byte.x00; Byte.x00]) 8 e);
      [done|lia|unfold e; by rewrite <- app_assoc|done|done|]. unfold header_size. by rewrite Hz.
  - set (e := _ ++ _). assert (24 <= len e) as Hl.
    { unfold e. rewrite !len_app, !len_le_put, len_be_put, !len_cons, len_nil. change (len commandMagic) with 4. lia. }
    rewrite (proj2 (Z.ltb_ge _ _)) by (change commandHeaderSize with 16; lia).
    assert (byte_at 5 e = cType c) as H5 by (unfold e; fields; by apply unsigned_of_Z_small).
    assert (slice 8 16 e = be_put 8 (cTimestamp c)) as H8 by (unfold e; by fields).
    assert (slice 0 4 e = commandMagic) as -> by (unfold e; by fields). rewrite bytes_eqb_refl.
    change (byte_at 4 e) with 2. change (byte_at 6 e) with 0. change (byte_at 7 e) with 0.
    cbn [orb negb andb Z.eqb commandVersion mvccCommandVersion]. change (2 =? mvccCommandVersion) with true. cbn match.
    rewrite (proj2 (Z.ltb_ge _ _)), H8, be_get_put64, (proj2 (Z.eqb_neq _ _)) by done.
    apply (decode_command_body_ok c (commandMagic ++ [byte.of_Z mvccCommandVersion; byte.of_Z (cType c); Byte.x00; Byte.x00]
      ++ be_put 8 (cTimestamp c)) 16 e);
      [by rewrite !length_app, be_put_length|lia|unfold e; by rewrite <- !app_assoc|done|done|].
    unfold header_size. by rewrite (proj2 (Z.eqb_neq _ _)).
Qed.
Lemma decode_command_body_inv e n timestamp c : (8 <= n)%nat -> (n + 8 <= length e)%nat -> is_u64 timestamp ->
  decode_command_body e (n + 8) n timestamp = Ok c ->
  command_typed c /\ cTimestamp c = timestamp /\ cType c = byte_at 5 e /\ validateCommand c = Ok tt /\
  le_put 4 (u32 (len (cKey c))) ++ le_put 4 (u32 (len (cValue c))) ++ cKey c ++ cValue c = drop n e.
Proof.
  intros Hn Hl Hts. unfold decode_command_body. set (k := le_get (slice n (n + 4) e)). set (v := le_get (slice (n + 4) (n + 8) e)).
  assert (is_u32 k /\ is_u32 v) as [Hk Hv] by (split; apply le_get_u32; rewrite slice_length; lia).
  destruct (_ || _); [done|]. destruct (_ <? _); [done|].
  destruct (Z.eqb_spec (k + v) (len e - Z.of_nat (n + 8))) as [Hkv|]; [|done]. cbn [negb].
  rewrite bind_ok. intros ([] & Hval & [= <-]). cbn [cType cKey cValue cTimestamp].
  split; [split; [apply byte_at_range|done]|]. split; [done|]. split; [done|]. split; [done|].
  unfold is_u32 in Hk, Hv. unfold len in Hkv.
  replace (len (slice (n + 8) (n + 8 + Z.to_nat k) e)) with k by (unfold len; rewrite slice_length; lia).
  replace (len (drop (n + 8 + Z.to_nat k) e)) with v by (unfold len; rewrite length_drop; lia).
  rewrite !u32_id by done. unfold k at 1, v. rewrite !le_put_get by (rewrite slice_length; lia).
  rewrite !slice_join_drop by lia. done.
Qed.
Lemma command_encode_decode e c : DecodeCommand e = Ok c -> command_typed c /\ EncodeCommand c = Ok e.
Proof.
  unfold DecodeCommand. change commandHeaderSize with 16. destruct (Z.ltb_spec (len e) 16) as [|Hl]; [done|]. unfold len in Hl.
  destruct (bytes_eqb (slice 0 4 e) commandMagic) eqn:Hmagic; [|done]. apply bytes_eqb_eq in Hmagic. cbn [negb orb].
  destruct (negb _ && negb _) eqn:Hver; [done|].
  destruct (Z.eqb_spec (byte_at 6 e) 0) as [H6|]; [|done]. destruct (Z.eqb_spec (byte_at 7 e) 0) as [H7|]; [|done]. cbn [negb orb].
  assert (forall v c, byte_at 4 e = v -> cType c = byte_at 5 e ->
    [byte.of_Z v; byte.of_Z (cType c); Byte.x00; Byte.x00] = slice 4 8 e) as Hhead.
  { intros v c' H4 ->. change (slice 4 8 e) with (slice 4 (4 + 4) e).
    rewrite <- (slice_bytes4 4 e v (byte_at 5 e) 0 0) by (done || lia). done. }
  unfold EncodeCommand. destruct (Z.eqb_spec (byte_at 4 e) mvccCommandVersion) as [H4|H4].
  - change mvccCommandHeaderSize with 24. destruct (Z.ltb_spec (len e) 24) as [|Hl']; [done|]. unfold len in Hl'.
    set (ts := be_get (slice 8 16 e)). destruct (Z.eqb_spec ts 0) as [|Hz]; [done|]. intros Hd.
    apply (decode_command_body_inv e 16 ts) in Hd as (Hty & Hts & Ht & Hval & Hbody);
      [|lia|lia|apply be_get_u64; rewrite slice_length; lia].
    split; [done|]. rewrite Hval. cbn [mbind result_bind]. f_equal. unfold command_bytes. rewrite Hbody, Hts.
    rewrite (proj2 (Z.eqb_neq _ _)) by done. cbn [negb]. rewrite (Hhead mvccCommandVersion c) by done.
    unfold ts. join_fields. rewrite <- Hmagic. by join_fields.
  - destruct (Z.eqb_spec (byte_at 4 e) commandVersion) as [H4'|]; [|done]. intros Hd.
    apply (decode_command_body_inv e 8 0) in Hd as (Hty & Hts & Ht & Hval & Hbody); [|lia|lia|done].
    split; [done|]. rewrite Hval. cbn [mbind result_bind]. f_equal. unfold command_bytes. rewrite Hbody, Hts.
    cbn [Z.eqb negb]. rewrite (Hhead commandVersion c), app_nil_l by done. rewrite <- Hmagic. by join_fields.
Qed.

(** C36. The encoding of commands is a bijection: a string decodes to a command
    exactly when it is the encoding of that (well-typed) command, in either
    header version. *)
Theorem command_codec e c : DecodeCommand e = Ok c <-> command_typed c /\ EncodeCommand c = Ok e.
Proof. split; [apply command_encode_decode|]. intros [Hty He]. by apply command_decode_encode. Qed.

(** An encoded command fits into a Raft entry. *)
Lemma command_fits e c : DecodeCommand e = Ok c -> len e <= MaxCommandBytes.
Proof.
  intros Hd. apply command_encode_decode in Hd as [_ Henc]. unfold EncodeCommand in Henc. rewrite bind_ok in Henc.
  destruct Henc as ([] & Hval & [= <-]). destruct (validateCommand_bounds c Hval) as (_ & _ & Hkv).
  unfold command_bytes, header_size in *. rewrite !len_app, !len_le_put, !len_cons, len_nil. change (len commandMagic) with 4.
  change commandHeaderSize with 16 in *. change mvccCommandHeaderSize with 24 in *.
  destruct (negb _); [rewrite len_be_put|change (len []) with 0]; lia.
Qed.
