(* ===== verification/Sha256.v ===== *)
(** * SHA-256 (crypto/sha256)

    The hash function of the Go standard library, as FIPS 180-4 defines it:
    the round constants, the message schedule, the compression function and
    the padding.  Split commands and snapshot batches are identified by their
    digests. *)

From S2P Require Import Prelude.

(** The constants are the first 32 fractional bits of roots of the first
    primes: cube roots of 64 of them for the rounds, square roots of eight for
    the initial state. *)
Definition is_prime (n : nat) : bool :=
  (2 <=? n)%nat && forallb (fun d => negb (n mod d =? 0)%nat) (seq 2 (n - 2)).
Definition first_primes (count : nat) : list Z :=
  Z.of_nat <$> take count (List.filter is_prime (seq 0 312)).
(** The integer cube root, bit by bit from bit [n]. *)
Fixpoint cube_root (n : nat) (x r : Z) : Z :=
  match n with
  | O => r
  | S n' =>
      let r' := r + Z.shiftl 1 (Z.of_nat n') in
      cube_root n' x (if r' * r' * r' <=? x then r' else r)
  end.
Definition K256 : list Z :=
  Eval vm_compute in (fun p => u32 (cube_root 36 (Z.shiftl p 96) 0)) <$> first_primes 64.
Definition H256 : list Z :=
  Eval vm_compute in (fun p => u32 (Z.sqrt (Z.shiftl p 64))) <$> first_primes 8.

Definition rotr (n x : Z) : Z := Z.lor (Z.shiftr x n) (u32 (Z.shiftl x (32 - n))).
Definition sigma (a b c x : Z) : Z := Z.lxor (Z.lxor (rotr a x) (rotr b x)) (Z.shiftr x c).
Definition Sigma (a b c x : Z) : Z := Z.lxor (Z.lxor (rotr a x) (rotr b x)) (rotr c x).

(** The schedule, newest word first. *)
Fixpoint schedule (n : nat) (ws : list Z) : list Z :=
  match n with
  | O => ws
  | S n' =>
      let w i := default 0 (ws !! i) in
      schedule n' (u32 (sigma 17 19 10 (w 1%nat) + w 6%nat + sigma 7 18 3 (w 14%nat) + w 15%nat) :: ws)
  end.
Definition round (s : list Z) (kw : Z * Z) : list Z :=
  match s with
  | [a; b; c; d; e; f; g; h] =>
      let ch := Z.lxor (Z.land e f) (Z.land (Z.lxor e MaxUint32) g) in
      let maj := Z.lxor (Z.lxor (Z.land a b) (Z.land a c)) (Z.land b c) in
      let t1 := h + Sigma 6 11 25 e + ch + kw.1 + kw.2 in
      let t2 := Sigma 2 13 22 a + maj in
      [u32 (t1 + t2); a; b; c; u32 (d + t1); e; f; g]
  | _ => s
  end.
Fixpoint words (n : nat) (b : bytes) : list Z :=
  match n with O => [] | S n' => be_get (take 4 b) :: words n' (drop 4 b) end.
Definition compress (s : list Z) (block : bytes) : list Z :=
  let ws := rev (schedule 48 (rev (words 16 block))) in
  zip_with (fun x y => u32 (x + y)) s (foldl round s (combine K256 ws)).
Fixpoint blocks (n : nat) (b : bytes) : list bytes :=
  match n with O => [] | S n' => take 64 b :: blocks n' (drop 64 b) end.

Definition sha256_pad (b : bytes) : bytes :=
  b ++ Byte.x80 :: replicate (Z.to_nat ((55 - len b) mod 64)) Byte.x00 ++ be_put 8 (u64 (8 * len b)).
Definition Sum256 (b : bytes) : bytes :=
  let p := sha256_pad b in
  flat_map (be_put 4) (foldl compress H256 (blocks (length p / 64) p)).

(** The published digest of the string abc. *)
Example sha256_abc : be_get (Sum256 [Byte.x61; Byte.x62; Byte.x63]) =
  0xba7816bf8f01cfea414140de5dae2223b00361a396177a9cb410ff61f20015ad.
Proof. by vm_compute. Qed.

(** A digest has 32 bytes. *)
Lemma compress_length s b : length s = 8%nat -> length (compress s b) = 8%nat.
Proof.
  intros Hs. unfold compress. rewrite length_zip_with.
  assert (forall kws s, length s = 8%nat -> length (foldl round s kws) = 8%nat) as Hf.
  { induction kws as [|kw kws IH]; intros s' Hs'; [done|]. cbn. apply IH.
    do 8 (destruct s' as [|? s']; [done|]). by destruct s'. }
  rewrite Hf, Hs by done. done.
Qed.
Lemma Sum256_length b : length (Sum256 b) = 32%nat.
Proof.
  unfold Sum256. set (s := foldl compress H256 _). assert (length s = 8%nat) as Hs.
  { unfold s. generalize (blocks (length (sha256_pad b) / 64) (sha256_pad b)).
    cut (forall bs h, length h = 8%nat -> length (foldl compress h bs) = 8%nat); [intros H bs; by apply H|].
    induction bs as [|x bs IH]; intros h Hh; [done|]. apply IH. by apply compress_length. }
  clearbody s. do 8 (destruct s as [|? s]; [done|]). destruct s; [|done]. cbn [flat_map].
  rewrite !length_app, !be_put_length. done.
Qed.

#[global] Opaque Sum256.
