(* ===== verification/MvccStore.v ===== *)
(** * The versioned store, abstractly

    The contents of a storage engine as one list of internal entries, strictly
    sorted by [CompareInternal]: what a MemTable, an SSTable, a merge of them
    and the whole engine denote.  [put] adds a version, [candidate] and
    [visible] are the point reads (engine/read.go: newest version at or below
    a target, smallest kind first, aborted versions skipped). *)

From S2P Require Import Prelude InternalKey Batch.

Abbreviation entry := (InternalKey * bytes)%type.
Abbreviation store := (list entry).

Definition entry_lt (a b : entry) : Prop := key_lt a.1 b.1.
Definition store_sorted (l : store) : Prop := StronglySorted entry_lt l.

(** Insert or replace one internal key. *)
Fixpoint put (k : InternalKey) (v : bytes) (l : store) : store :=
  match l with
  | [] => [(k, v)]
  | e :: r =>
      match CompareInternal k e.1 with
      | Lt => (k, v) :: l
      | Eq => (k, v) :: r
      | Gt => e :: put k v r
      end
  end.
(** Exact lookup. *)
Fixpoint get (k : InternalKey) (l : store) : option bytes :=
  match l with
  | [] => None
  | e :: r => match CompareInternal k e.1 with Eq => Some e.2 | Lt => None | Gt => get k r end
  end.
(** The first entry at or above a key. *)
Fixpoint lower_bound (k : InternalKey) (l : store) : store :=
  match l with
  | [] => []
  | e :: r => match CompareInternal e.1 k with Lt => lower_bound k r | _ => l end
  end.

(** Does [k] hold a version of [key] at or below [target]? *)
Definition relevant (key : bytes) (target : Z) (k : InternalKey) : bool :=
  bytes_eqb (userKey k) key && (sequence k <=? target).

(** The newest entry of [key] at or below [target], uninterpreted. *)
Fixpoint candidate (key : bytes) (target : Z) (l : store) : option entry :=
  match l with
  | [] => None
  | e :: r => if relevant key target e.1 then Some e else candidate key target r
  end.
(** The visible entry: aborted versions are skipped to older history. *)
Fixpoint visible (key : bytes) (target : Z) (l : store) : option entry :=
  match l with
  | [] => None
  | e :: r =>
      if relevant key target e.1 then
        if Byte.eqb (kind e.1) KindTxnAbort then
          if sequence e.1 =? 0 then None else visible key (sequence e.1 - 1) r
        else Some e
      else visible key target r
  end.

(** ** Finite-map laws *)

Lemma key_lt_irrefl a : ~ key_lt a a.
Proof. unfold key_lt. by rewrite compare_refl. Qed.
Lemma key_lt_trans a b c : key_lt a b -> key_lt b c -> key_lt a c.
Proof. apply compare_lt_trans. Qed.
#[export] Instance entry_lt_trans : Transitive entry_lt.
Proof. intros a b c. apply key_lt_trans. Qed.
Lemma compare_gt_lt a b : CompareInternal a b = Gt -> key_lt b a.
Proof. unfold key_lt. rewrite (compare_antisym a b). by intros ->. Qed.

Lemma put_Forall (P : entry -> Prop) k v l : P (k, v) -> Forall P l -> Forall P (put k v l).
Proof.
  intros Hp. induction 1 as [|e r He Hr IH]; cbn; [by constructor|].
  case_match; by repeat constructor.
Qed.
Lemma put_sorted k v l : store_sorted l -> store_sorted (put k v l).
Proof.
  induction 1 as [|e r Hs IH Hf]; cbn; [by repeat constructor|].
  destruct (CompareInternal k e.1) eqn:Hc.
  - apply compare_eq in Hc. constructor; [done|]. eapply Forall_impl; [exact Hf|]. intros x. unfold entry_lt. by rewrite Hc.
  - constructor; [by constructor|]. constructor; [done|]. eapply Forall_impl; [exact Hf|].
    intros x Hx. by eapply key_lt_trans.
  - constructor; [done|]. apply put_Forall; [by apply compare_gt_lt|done].
Qed.
Lemma elem_of_put k v l : store_sorted l ->
  forall k' v', (k', v') ∈ put k v l <-> (k' = k /\ v' = v) \/ (k' <> k /\ (k', v') ∈ l).
Proof.
  induction 1 as [|e r Hs IH Hf]; intros k' v'; cbn.
  { rewrite list_elem_of_singleton. set_solver. }
  rewrite Forall_forall in Hf. destruct (CompareInternal k e.1) eqn:Hc.
  - apply compare_eq in Hc. rewrite !elem_of_cons. destruct e as [ke ve]. cbn in *. subst ke.
    assert ((k', v') ∈ r -> k' <> k) as Hne.
    { intros Hin ->. specialize (Hf _ Hin). by apply key_lt_irrefl in Hf. }
    naive_solver.
  - rewrite elem_of_cons. assert ((k', v') ∈ e :: r -> k' <> k) as Hne.
    { intros Hin ->. apply elem_of_cons in Hin as [<-|Hin]; [by apply key_lt_irrefl in Hc|].
      specialize (Hf _ Hin). apply (key_lt_irrefl k). by eapply key_lt_trans. }
    naive_solver.
  - rewrite !elem_of_cons, IH. destruct e as [ke ve]. cbn in *.
    assert (ke <> k) by (intros ->; by rewrite compare_refl in Hc). naive_solver.
Qed.
Lemma store_key_unique l k v v' : store_sorted l -> (k, v) ∈ l -> (k, v') ∈ l -> v = v'.
Proof.
  induction 1 as [|e r Hs IH Hf]; [set_solver|]. rewrite Forall_forall in Hf.
  rewrite !elem_of_cons. intros [<-|H1] [H2|H2]; [congruence|..].
  - exfalso. by apply (key_lt_irrefl k), (Hf (k, v')).
  - subst e. exfalso. by apply (key_lt_irrefl k), (Hf (k, v)).
  - by apply IH.
Qed.
Lemma get_Some l k v : store_sorted l -> get k l = Some v <-> (k, v) ∈ l.
Proof.
  induction 1 as [|e r Hs IH Hf]; cbn; [set_solver|]. rewrite Forall_forall in Hf. rewrite elem_of_cons.
  destruct (CompareInternal k e.1) eqn:Hc.
  - apply compare_eq in Hc. subst k. destruct e as [ke ve]. cbn in *. split; [intros [= ->]; by left|].
    intros [[= ->]|Hin]; [done|]. exfalso. by apply (key_lt_irrefl ke), (Hf (ke, v)).
  - split; [done|]. intros [<-|Hin]; [by rewrite compare_refl in Hc|].
    specialize (Hf _ Hin). exfalso. apply (key_lt_irrefl k). by eapply key_lt_trans.
  - rewrite IH. split; [by right|]. intros [<-|?]; [by rewrite compare_refl in Hc|done].
Qed.

(** ** Visibility, declaratively *)

Lemma key_lt_same_user a b : userKey a = userKey b ->
  key_lt a b <-> sequence b < sequence a \/ (sequence a = sequence b /\ byte.unsigned (kind a) < byte.unsigned (kind b)).
Proof.
  intros Hu. unfold key_lt, CompareInternal. rewrite Hu, bytes_compare_refl.
  repeat case_match; try done; split; try done; lia.
Qed.

(** Among the entries of its version, [k] has the smallest kind. *)
Definition leads (l : store) (k : InternalKey) : Prop :=
  forall k' v', (k', v') ∈ l -> userKey k' = userKey k -> sequence k' = sequence k ->
    byte.unsigned (kind k) <= byte.unsigned (kind k').
(** The version of [key] at [s] was aborted. *)
Definition aborted (l : store) (key : bytes) (s : Z) : Prop :=
  exists k v, (k, v) ∈ l /\ userKey k = key /\ sequence k = s /\ kind k = KindTxnAbort /\ leads l k.
(** [e] is the entry of [key] that a read at [target] sees. *)
Record sees (l : store) (key : bytes) (target : Z) (e : entry) : Prop := {
  see_in : e ∈ l;
  see_user : userKey e.1 = key;
  see_target : sequence e.1 <= target;
  see_kind : kind e.1 <> KindTxnAbort;
  see_leads : leads l e.1;
  see_newest : forall k' v', (k', v') ∈ l -> userKey k' = key -> sequence e.1 < sequence k' <= target ->
    aborted l key (sequence k')
}.

Lemma relevant_spec key target k : relevant key target k = true <-> userKey k = key /\ sequence k <= target.
Proof. unfold relevant. by rewrite andb_true_iff, bytes_eqb_eq, Z.leb_le. Qed.

(** An entry of another key or above the target does not matter. *)
Lemma leads_irrelevant e r k : (userKey e.1 <> userKey k \/ sequence e.1 <> sequence k) ->
  leads (e :: r) k <-> leads r k.
Proof.
  intros Hne. split; intros Hl k' v' Hin; [apply (Hl k' v'); by right|].
  apply elem_of_cons in Hin as [<-|Hin]; [|by eapply Hl]. intros. naive_solver.
Qed.
Lemma aborted_irrelevant e r key s : (userKey e.1 <> key \/ sequence e.1 <> s) ->
  aborted (e :: r) key s <-> aborted r key s.
Proof.
  intros Hne. unfold aborted. split; intros (k & v & Hin & Hu & Hs & Hk & Hl); exists k, v.
  - apply elem_of_cons in Hin as [<-|Hin]; [cbn in Hne; naive_solver|].
    split_and!; try done. eapply leads_irrelevant; [|exact Hl]. by rewrite Hu, Hs.
  - split_and!; try done; [by right|]. eapply leads_irrelevant; [|exact Hl]. by rewrite Hu, Hs.
Qed.
Lemma sees_irrelevant e r key target x : relevant key target e.1 = false ->
  sees (e :: r) key target x <-> sees r key target x.
Proof.
  intros Hirr. assert (forall s, s <= target -> userKey e.1 <> key \/ sequence e.1 <> s) as Hne.
  { intros s Hs. destruct (decide (userKey e.1 = key)) as [Hu|]; [|by left]. right. intros Heq.
    rewrite (proj2 (relevant_spec key target e.1)) in Hirr; [done|]. split; [done|lia]. }
  split; intros [Hin Hu Ht Hk Hl Hn]; split; try done.
  - apply elem_of_cons in Hin as [->|Hin]; [|done]. specialize (Hne (sequence e.1) Ht). naive_solver.
  - eapply leads_irrelevant; [|exact Hl]. rewrite Hu. by apply Hne.
  - intros k' v' Hin' Hu' Hs'. eapply aborted_irrelevant; [apply Hne; lia|]. eapply Hn; [by right|done|done].
  - by right.
  - eapply leads_irrelevant; [|exact Hl]. rewrite Hu. by apply Hne.
  - intros k' v' Hin' Hu' Hs'. apply elem_of_cons in Hin' as [<-|Hin'].
    + exfalso. cbn in *. destruct (Hne (sequence k')); [lia|done|done].
    + eapply aborted_irrelevant; [apply Hne; lia|]. by eapply Hn.
Qed.

Lemma head_in (e : entry) r : (e.1, e.2) ∈ e :: r.
Proof. destruct e. by left. Qed.

(** In a sorted list, the first relevant entry leads the newest version. *)
Lemma head_newest e r k' v' : store_sorted (e :: r) -> (k', v') ∈ r -> userKey k' = userKey e.1 ->
  sequence k' < sequence e.1 \/ (sequence k' = sequence e.1 /\ byte.unsigned (kind e.1) < byte.unsigned (kind k')).
Proof.
  intros Hs Hin Hu. apply StronglySorted_inv in Hs as [_ Hf]. rewrite Forall_forall in Hf.
  specialize (Hf _ Hin). unfold entry_lt in Hf. cbn in Hf. apply key_lt_same_user in Hf; [lia|done].
Qed.
Lemma head_leads e r : store_sorted (e :: r) -> leads (e :: r) e.1.
Proof.
  intros Hs k' v' Hin Hu Hq. apply elem_of_cons in Hin as [<-|Hin]; [cbn; lia|].
  pose proof (head_newest e r k' v' Hs Hin Hu). lia.
Qed.
Lemma head_aborted e r : store_sorted (e :: r) -> kind e.1 = KindTxnAbort -> aborted (e :: r) (userKey e.1) (sequence e.1).
Proof. intros Hs Hk. exists e.1, e.2. split_and!; try done; [apply head_in|by apply head_leads]. Qed.

Lemma sees_head e r key target : store_sorted (e :: r) -> relevant key target e.1 = true -> kind e.1 <> KindTxnAbort ->
  forall x, sees (e :: r) key target x <-> x = e.
Proof.
  intros Hs Hr Hk x. apply relevant_spec in Hr as [Hu Ht]. split.
  - intros [Hin Hux Htx Hkx Hl Hn]. apply elem_of_cons in Hin as [->|Hin]; [done|]. exfalso. destruct x as [kx vx]. cbn in *.
    destruct (head_newest e r kx vx Hs Hin) as [Hlt|[Heq Hlt]]; [congruence|..].
    + destruct (Hn e.1 e.2) as (k & v & Hink & Huk & Hsk & Hkk & Hlk); [apply head_in|done|lia|].
      assert (byte.unsigned (kind k) <= byte.unsigned (kind e.1)) as Hle
        by (apply (Hlk e.1 e.2); [apply head_in|congruence|lia]).
      apply elem_of_cons in Hink as [<-|Hink]; [done|].
      destruct (head_newest e r k v Hs Hink) as [?|[? ?]]; [congruence|lia|lia].
    + specialize (Hl e.1 e.2 ltac:(apply head_in) ltac:(congruence) ltac:(congruence)). lia.
  - intros ->. split; try done; [by left|by apply head_leads|].
    intros k' v' Hin Hu' Hq. apply elem_of_cons in Hin as [<-|Hin]; [cbn in *; lia|].
    destruct (head_newest e r k' v' Hs Hin); [congruence|lia|lia].
Qed.

Lemma sees_abort e r key target : store_sorted (e :: r) -> relevant key target e.1 = true -> kind e.1 = KindTxnAbort ->
  forall x, sees (e :: r) key target x <-> sees r key (sequence e.1 - 1) x.
Proof.
  intros Hs Hr Hk x. apply relevant_spec in Hr as [Hu Ht]. split.
  - intros [Hin Hux Htx Hkx Hl Hn]. apply elem_of_cons in Hin as [->|Hin]; [done|]. destruct x as [kx vx]. cbn in *.
    assert (sequence kx < sequence e.1) as Hlt.
    { destruct (head_newest e r kx vx Hs Hin) as [Hlt|[Heq Hlt]]; [congruence|done|].
      specialize (Hl e.1 e.2 ltac:(apply head_in) ltac:(congruence) ltac:(congruence)). lia. }
    split; cbn; try done; [lia| |].
    + eapply leads_irrelevant; [|exact Hl]. right. lia.
    + intros k' v' Hin' Hu' Hq. eapply (aborted_irrelevant e); [right; lia|]. eapply Hn; [by right|done|lia].
  - intros [Hin Hux Htx Hkx Hl Hn]. split; try done; [by right|lia| |].
    + apply leads_irrelevant; [right; lia|done].
    + intros k' v' Hin' Hu' Hq. apply elem_of_cons in Hin' as [<-|Hin'].
      { rewrite <- Hu'. by apply (head_aborted (k', v')). }
      destruct (head_newest e r k' v' Hs Hin') as [?|[Heq _]]; [congruence|..].
      * apply aborted_irrelevant; [right; lia|]. eapply Hn; [done|done|lia].
      * rewrite Heq, <- Hu. by apply head_aborted.
Qed.

(** [visible] finds exactly the entry that is seen. *)
Lemma visible_sees l : forall key target, store_sorted l -> Forall (fun e => 0 <= sequence e.1) l ->
  forall e, visible key target l = Some e <-> sees l key target e.
Proof.
  induction l as [|x r IH]; intros key target Hs Hpos e; cbn [visible].
  { split; [done|]. intros [Hin _ _ _ _ _]. set_solver. }
  pose proof (proj1 (StronglySorted_inv Hs)) as Hsr. apply Forall_cons in Hpos as [Hx Hpos].
  destruct (relevant key target x.1) eqn:Hrel; [|rewrite sees_irrelevant by done; by apply IH].
  destruct (Byte.eqb (kind x.1) KindTxnAbort) eqn:Hk.
  - assert (kind x.1 = KindTxnAbort) as Hk' by by apply Byte.byte_dec_bl.
    rewrite (sees_abort x r) by done. destruct (Z.eqb_spec (sequence x.1) 0) as [Hz|Hz]; [|by apply IH].
    split; [done|]. intros [Hin _ Ht _ _ _]. rewrite Forall_forall in Hpos. specialize (Hpos _ Hin). cbn in Hpos. lia.
  - assert (kind x.1 <> KindTxnAbort) as Hk' by (intros Heq; by rewrite Heq in Hk).
    rewrite (sees_head x r) by done. naive_solver.
Qed.

Definition store_ok (l : store) : Prop := store_sorted l /\ Forall (fun e => 0 <= sequence e.1) l.

Lemma put_ok k v l : 0 <= sequence k -> store_ok l -> store_ok (put k v l).
Proof. intros Hk [Hs Hp]. split; [by apply put_sorted|by apply put_Forall]. Qed.

(** Reads depend only on the entries of their key at or below their target. *)
Lemma sees_ext l l' key target e :
  (forall k v, userKey k = key -> sequence k <= target -> (k, v) ∈ l <-> (k, v) ∈ l') ->
  sees l key target e -> sees l' key target e.
Proof.
  intros Hext [Hin Hu Ht Hk Hl Hn]. destruct e as [ke ve]. cbn in *.
  assert (forall k, userKey k = key -> sequence k <= target -> leads l k -> leads l' k) as Hlead.
  { intros k Hku Hkt Hlk k' v' Hin' Hu' Hq'. apply (Hlk k' v'); [apply Hext; [congruence|lia|done]|done|done]. }
  split; cbn; try done; [by apply Hext|by apply Hlead|].
  intros k' v' Hin' Hu' Hq. destruct (Hn k' v') as (k & v & Hik & Hku & Hsq & Hkk & Hlk); [by apply Hext; [|lia|]|done|done|].
  exists k, v. split_and!; try done; [apply Hext; [done|lia|done]|apply Hlead; [done|lia|done]].
Qed.
Lemma visible_ext l l' key target : store_ok l -> store_ok l' ->
  (forall k v, userKey k = key -> sequence k <= target -> (k, v) ∈ l <-> (k, v) ∈ l') ->
  visible key target l = visible key target l'.
Proof.
  intros [Hs Hp] [Hs' Hp'] Hext. apply option_eq. intros e. rewrite !visible_sees by done.
  split; apply sees_ext; [done|]. intros k v Hu Ht. by rewrite Hext.
Qed.

(** No version of [key] at [ts]. *)
Definition fresh_version (l : store) (key : bytes) (ts : Z) : Prop :=
  forall k v, (k, v) ∈ l -> userKey k = key -> sequence k <> ts.

(** An aborted provisional version leaves no trace in reads. *)
Lemma visible_abort l key ts value target : store_ok l -> 0 <= ts -> fresh_version l key ts ->
  let intent := {| userKey := key; sequence := ts; kind := KindIntent |} in
  let abort := {| userKey := key; sequence := ts; kind := KindTxnAbort |} in
  visible key target (put abort [] (put intent value l)) = visible key target l.
Proof.
  intros [Hs Hp] Hts Hfresh intent abort. pose proof (put_ok intent value l Hts (conj Hs Hp)) as [Hs1 Hp1].
  pose proof (put_ok abort [] _ Hts (conj Hs1 Hp1)) as [Hs2 Hp2].
  assert (forall k v, (k, v) ∈ put abort [] (put intent value l) <->
    (k = abort /\ v = []) \/ (k = intent /\ v = value) \/ (k, v) ∈ l) as Hin.
  { intros k v. rewrite elem_of_put by done. rewrite elem_of_put by done. split; [naive_solver|].
    intros [[-> ->]|[[-> ->]|Hkv]]; [by left|right; by split; [|left]|].
    assert (k <> abort /\ k <> intent) as [? ?] by (split; intros ->; by apply (Hfresh _ _ Hkv)). naive_solver. }
  set (l2 := put abort [] (put intent value l)) in *.
  assert (forall k v, (k, v) ∈ l -> userKey k = key -> leads l2 k <-> leads l k) as Hlead.
  { intros k v Hk Hu. split; intros Hl k' v' Hk' Hu' Hq'; [apply (Hl k' v'); [apply Hin; by right; right|done|done]|].
    apply Hin in Hk' as [[-> ->]|[[-> ->]|Hk']]; [exfalso; by apply (Hfresh _ _ Hk)..|by eapply Hl]. }
  assert (forall s, s <> ts -> aborted l2 key s <-> aborted l key s) as Hab.
  { intros s Hne. split; intros (k & v & Hk & Hu & Hq & Hkk & Hl); exists k, v.
    - apply Hin in Hk as [[-> ->]|[[-> ->]|Hk]]; [done..|]. split_and!; try done. by eapply Hlead.
    - split_and!; try done; [apply Hin; by right; right|by eapply Hlead]. }
  assert (aborted l2 key ts) as Habts.
  { exists abort, []. split_and!; try done; [apply Hin; by left|]. intros k' v' Hk' Hu' Hq'.
    apply Hin in Hk' as [[-> ->]|[[-> ->]|Hk']]; [done|by vm_compute|exfalso; by apply (Hfresh _ _ Hk')]. }
  apply option_eq. intros [ke ve]. rewrite !visible_sees by done. split; intros [Hi Hu Ht Hk Hl Hn]; cbn in *.
  - apply Hin in Hi as [[-> ->]|[[-> ->]|Hi]]; [done|exfalso|].
    { specialize (Hl abort [] ltac:(apply Hin; by left) eq_refl eq_refl). by vm_compute in Hl. }
    split; cbn; try done; [by eapply Hlead|]. intros k' v' Hk' Hu' Hq'.
    apply Hab; [by apply (Hfresh _ _ Hk')|]. apply (Hn k' v'); [apply Hin; by right; right|done|done].
  - split; cbn; try done; [apply Hin; by right; right|by eapply Hlead|]. intros k' v' Hk' Hu' Hq'.
    apply Hin in Hk' as [[-> ->]|[[-> ->]|Hk']]; [done..|].
    apply Hab; [by apply (Hfresh _ _ Hk')|]. by eapply Hn.
Qed.

(** A committed version is seen by every read that no newer version shadows. *)
Lemma visible_commit l key ts kd value intent_value target : store_ok l -> 0 <= ts <= target -> fresh_version l key ts ->
  (kd = KindValue \/ kd = KindDelete) ->
  (forall k v, (k, v) ∈ l -> userKey k = key -> ~ ts < sequence k <= target) ->
  let intent := {| userKey := key; sequence := ts; kind := KindIntent |} in
  let final := {| userKey := key; sequence := ts; kind := kd |} in
  visible key target (put final value (put intent intent_value l)) = Some (final, value).
Proof.
  intros Hok Hts Hfresh Hkd Hnew intent final. assert (store_ok (put final value (put intent intent_value l))) as [Hs2 Hp2].
  { apply put_ok; [cbn; lia|]. apply put_ok; [cbn; lia|done]. }
  apply visible_sees; [done|done|].
  assert (forall k v, (k, v) ∈ put final value (put intent intent_value l) ->
    (k = final /\ v = value) \/ (k = intent /\ v = intent_value) \/ (k, v) ∈ l) as Hin.
  { intros k v. rewrite elem_of_put by (apply put_sorted, Hok). rewrite elem_of_put by apply Hok. naive_solver. }
  split; cbn; try done; try lia.
  - apply elem_of_put; [apply put_sorted, Hok|by left].
  - by destruct Hkd as [-> | ->].
  - intros k' v' Hk' Hu' Hq'. apply Hin in Hk' as [[-> ->]|[[-> ->]|Hk']]; [done| |exfalso; by apply (Hfresh _ _ Hk')].
    by destruct Hkd as [-> | ->].
  - intros k' v' Hk' Hu' Hq'. exfalso.
    apply Hin in Hk' as [[-> ->]|[[-> ->]|Hk']]; [cbn in Hq'; lia..|]. by apply (Hnew _ _ Hk').
Qed.

(** ** Batches at one version *)

Definition version_key (ts : Z) (m : Mutation) : InternalKey :=
  {| userKey := mKey m; sequence := ts; kind := mKind m |}.
Definition put_all (ts : Z) (ms : list Mutation) (l : store) : store :=
  foldl (fun l m => put (version_key ts m) (mValue m) l) l ms.

Lemma put_all_ok ts ms : forall l, 0 <= ts -> store_ok l -> store_ok (put_all ts ms l).
Proof. induction ms as [|m ms IH]; intros l Hts Hok; [done|]. apply IH; [done|]. by apply put_ok. Qed.
Lemma put_all_other ts ms key : forall l, store_ok l -> 0 <= ts -> key ∉ (mKey <$> ms) ->
  forall k v, userKey k = key -> (k, v) ∈ put_all ts ms l <-> (k, v) ∈ l.
Proof.
  induction ms as [|m ms IH]; intros l Hok Hts Hnin k v Hu; [done|]. cbn in Hnin |- *. rewrite not_elem_of_cons in Hnin.
  destruct Hnin as [Hne Hnin]. etransitivity; [apply IH; [by apply put_ok|done|done|done]|].
  rewrite elem_of_put by apply Hok. split; [|right]; [intros [[-> _]|[_ ?]]; [by destruct Hne|done]|].
  split; [|done]. intros ->. by destruct Hne.
Qed.
Lemma put_all_at ts ms m : forall l, store_ok l -> 0 <= ts -> NoDup (mKey <$> ms) -> m ∈ ms ->
  forall k v, userKey k = mKey m -> (k, v) ∈ put_all ts ms l <-> (k, v) ∈ put (version_key ts m) (mValue m) l.
Proof.
  induction ms as [|m' ms IH]; intros l Hok Hts Hnd Hin k v Hu; [by apply not_elem_of_nil in Hin|].
  cbn in Hnd |- *. apply NoDup_cons in Hnd as [Hnin Hnd]. apply elem_of_cons in Hin as [<-|Hin].
  - by apply put_all_other with (key := mKey m); [by apply put_ok|..].
  - etransitivity; [apply IH; [by apply put_ok|done|done|done|done]|].
    assert (mKey m' <> mKey m) as Hne by (intros Heq; apply Hnin; rewrite Heq; by apply list_elem_of_fmap_2).
    rewrite !elem_of_put by first [apply Hok|apply put_sorted, Hok]. split; [intros [?|[? [[-> _]|[_ ?]]]]|intros [?|[? ?]]]; try naive_solver.
Qed.

(** A read that finds nothing passed only aborted versions. *)
Lemma visible_None l : forall key target, store_sorted l -> Forall (fun e => 0 <= sequence e.1) l ->
  visible key target l = None -> forall k v, (k, v) ∈ l -> userKey k = key -> sequence k <= target ->
  aborted l key (sequence k).
Proof.
  induction l as [|x r IH]; intros key target Hs Hpos; [set_solver|]. cbn [visible].
  pose proof (proj1 (StronglySorted_inv Hs)) as Hsr. apply Forall_cons in Hpos as [Hx Hpos].
  destruct (relevant key target x.1) eqn:Hrel.
  - destruct (Byte.eqb (kind x.1) KindTxnAbort) eqn:Hk; [|done]. apply Byte.byte_dec_bl in Hk.
    apply relevant_spec in Hrel as [Hu Ht]. pose proof (head_aborted x r Hs Hk) as Hab. rewrite Hu in Hab.
    intros Hnone k v Hin Huk Htk. apply elem_of_cons in Hin as [<-|Hin]; [done|].
    destruct (head_newest x r k v Hs Hin) as [Hlt|[-> _]]; [congruence| |done].
    destruct (Z.eqb_spec (sequence x.1) 0) as [Hz|_].
    { rewrite Forall_forall in Hpos. specialize (Hpos _ Hin). cbn in Hpos. lia. }
    apply aborted_irrelevant; [right; lia|]. eapply IH; [done|done|exact Hnone|done|done|lia].
  - intros Hnone k v Hin Huk Htk. apply elem_of_cons in Hin as [<-|Hin].
    { cbn in Hrel. rewrite (proj2 (relevant_spec key target k)) in Hrel; done. }
    apply aborted_irrelevant; [|by eapply IH].
    destruct (decide (userKey x.1 = key)) as [Hux|]; [|by left]. right. intros Heq.
    rewrite (proj2 (relevant_spec key target x.1)) in Hrel; [done|]. split; [done|lia].
Qed.

(** ** Versions that stay *)

(** [key] has a version at [ts] that was not aborted. *)
Definition occupied (l : store) (key : bytes) (ts : Z) : Prop :=
  (exists k v, (k, v) ∈ l /\ userKey k = key /\ sequence k = ts) /\ ~ aborted l key ts.

Lemma occupied_put l k v key ts : store_sorted l -> occupied l key ts ->
  (userKey k = key -> sequence k = ts -> kind k <> KindTxnAbort) -> occupied (put k v l) key ts.
Proof.
  intros Hs [(k0 & v0 & Hin & Hu & Hq) Hna] Hk. split.
  - destruct (decide (k0 = k)) as [->|Hne]; [exists k, v|exists k0, v0]; rewrite elem_of_put by done; naive_solver.
  - intros (ka & va & Ha & Hua & Hqa & Hka & Hl). apply Hna. exists ka, va.
    apply elem_of_put in Ha as [[-> ->]|[Hne Ha]]; [by destruct Hk|..|done]. split_and!; try done.
    intros k' v' Hin' Hu' Hq'. destruct (decide (k' = k)) as [->|Hne'];
      [apply (Hl k v)|apply (Hl k' v')]; rewrite ?elem_of_put by done; naive_solver.
Qed.
Lemma occupied_put_all ts ms key ct : forall l, store_ok l -> 0 <= ts -> occupied l key ct ->
  (ts = ct -> forall m, m ∈ ms -> mKey m = key -> mKind m <> KindTxnAbort) -> occupied (put_all ts ms l) key ct.
Proof.
  induction ms as [|m ms IH]; intros l Hok Hts Hocc Hk; [done|]. cbn.
  apply IH; [by apply put_ok|done| |intros Heq m' Hm'; apply Hk; [done|by right]].
  apply occupied_put; [apply Hok|done|]. intros Hu Hq. apply (Hk Hq m); [by left|done].
Qed.
(** A version installed where there was none is not aborted. *)
Lemma occupied_put_fresh l k v : store_sorted l -> fresh_version l (userKey k) (sequence k) -> kind k <> KindTxnAbort ->
  occupied (put k v l) (userKey k) (sequence k).
Proof.
  intros Hs Hf Hk. split; [exists k, v; split_and!; [apply elem_of_put; [done|by left]|done..]|].
  intros (ka & va & Ha & Hua & Hqa & Hka & _). apply elem_of_put in Ha as [[-> ->]|[_ Ha]]; [done| |done].
  by apply (Hf _ _ Ha).
Qed.
Lemma fresh_put l k v key ts : store_sorted l -> userKey k <> key -> fresh_version l key ts -> fresh_version (put k v l) key ts.
Proof. intros Hs Hne Hf k' v' Hin Hu. apply elem_of_put in Hin as [[-> ->]|[_ Hin]]; [done|by apply (Hf _ _ Hin)|done]. Qed.
Lemma occupied_put_all_fresh ts ms m : forall l, store_ok l -> 0 <= ts -> NoDup (mKey <$> ms) -> m ∈ ms ->
  fresh_version l (mKey m) ts -> mKind m <> KindTxnAbort -> occupied (put_all ts ms l) (mKey m) ts.
Proof.
  induction ms as [|m' ms IH]; intros l Hok Hts Hnd Hin Hf Hk; [by apply not_elem_of_nil in Hin|]. cbn.
  cbn in Hnd. apply NoDup_cons in Hnd as [Hnin Hnd]. apply elem_of_cons in Hin as [<-|Hin].
  - apply occupied_put_all; [by apply put_ok|done| |].
    + apply (occupied_put_fresh l (version_key ts m)); [apply Hok|done|done].
    + intros _ m2 Hm2 Heq. exfalso. apply Hnin. rewrite <- Heq. by apply list_elem_of_fmap_2.
  - apply IH; [by apply put_ok|done|done|done| |done]. apply fresh_put; [apply Hok| |done].
    intros Heq. apply Hnin. cbn in Heq. rewrite Heq. by apply list_elem_of_fmap_2.
Qed.
(** Reads above an occupied version see it or something newer. *)
Lemma visible_occupied l key ts target : store_ok l -> occupied l key ts -> ts <= target ->
  exists e, visible key target l = Some e /\ ts <= sequence e.1.
Proof.
  intros [Hs Hp] [(k & v & Hin & Hu & Hq) Hna] Ht. destruct (visible key target l) as [e|] eqn:Hv.
  - exists e. split; [done|]. apply visible_sees in Hv as [_ _ _ _ _ Hn]; [|done|done].
    destruct (Z.le_gt_cases ts (sequence e.1)); [done|]. exfalso. apply Hna. rewrite <- Hq. apply (Hn k v); [done|done|lia].
  - exfalso. apply Hna. rewrite <- Hq. eapply visible_None; [done|done|exact Hv|done|done|lia].
Qed.

(** ** Resolving a provisional version *)

(** The version of [key] at [ts] is an intent. *)
Definition provisional (l : store) (key : bytes) (ts : Z) : Prop :=
  (exists v, ({| userKey := key; sequence := ts; kind := KindIntent |}, v) ∈ l) /\
  (forall k v, (k, v) ∈ l -> userKey k = key -> sequence k = ts -> kind k = KindIntent).
(** The store without the versions of [key] at [ts]. *)
Definition strip (key : bytes) (ts : Z) (l : store) : store :=
  filter (fun e => ~ (userKey e.1 = key /\ sequence e.1 = ts)) l.

Lemma filter_sorted (P : entry -> Prop) `{!forall x, Decision (P x)} l : store_sorted l -> store_sorted (filter P l).
Proof.
  induction 1 as [|e r Hs IH Hf]; [constructor|]. rewrite filter_cons. case_decide; [|done]. constructor; [done|].
  apply Forall_forall. intros x Hx. rewrite Forall_forall in Hf. apply Hf. apply list_elem_of_filter in Hx. tauto.
Qed.
Lemma strip_ok key ts l : store_ok l -> store_ok (strip key ts l).
Proof.
  intros [Hs Hp]. split; [by apply filter_sorted|]. rewrite Forall_forall in Hp |- *.
  intros x Hx. apply list_elem_of_filter in Hx. apply Hp. tauto.
Qed.
Lemma elem_of_strip key ts l k v : (k, v) ∈ strip key ts l <-> (k, v) ∈ l /\ ~ (userKey k = key /\ sequence k = ts).
Proof. unfold strip. rewrite list_elem_of_filter. cbn. tauto. Qed.
Lemma strip_fresh key ts l : fresh_version (strip key ts l) key ts.
Proof. intros k v Hin Hu Hq. apply elem_of_strip in Hin. tauto. Qed.
Lemma provisional_strip l key ts : store_ok l -> 0 <= ts -> provisional l key ts ->
  exists v, forall k x, userKey k = key ->
    (k, x) ∈ l <-> (k, x) ∈ put {| userKey := key; sequence := ts; kind := KindIntent |} v (strip key ts l).
Proof.
  intros Hok Hts [[v Hv] Honly]. exists v. intros k x Hu. rewrite elem_of_put by by apply strip_ok. rewrite elem_of_strip.
  split.
  - intros Hin. destruct (decide (sequence k = ts)) as [Hq|Hq]; [left|].
    + pose proof (Honly _ _ Hin Hu Hq) as Hk. assert (k = {| userKey := key; sequence := ts; kind := KindIntent |}) as ->
        by (destruct k; cbn in *; congruence).
      split; [done|]. eapply store_key_unique; [apply Hok|done|done].
    + right. split; [intros ->; by apply Hq|]. split; [done|tauto].
  - intros [[-> ->]|[_ [? _]]]; done.
Qed.
Lemma visible_via k v key target l l' : store_ok l -> store_ok l' -> 0 <= sequence k ->
  (forall k' x, userKey k' = key -> (k', x) ∈ l <-> (k', x) ∈ l') ->
  visible key target (put k v l) = visible key target (put k v l').
Proof.
  intros Hok Hok' Hk Hext. apply visible_ext; [by apply put_ok..|]. intros k' x Hu _.
  rewrite !elem_of_put by first [apply Hok|apply Hok']. by rewrite Hext.
Qed.
Lemma resolve_abort l key ts target : store_ok l -> 0 <= ts -> provisional l key ts ->
  visible key target (put {| userKey := key; sequence := ts; kind := KindTxnAbort |} [] l)
  = visible key target (strip key ts l).
Proof.
  intros Hok Hts Hprov. destruct (provisional_strip l key ts Hok Hts Hprov) as [v Hext].
  pose proof (strip_ok key ts l Hok) as Hsok.
  rewrite (visible_via {| userKey := key; sequence := ts; kind := KindTxnAbort |} [] key target l _ Hok
    (put_ok {| userKey := key; sequence := ts; kind := KindIntent |} v _ Hts Hsok) Hts Hext).
  apply visible_abort; [done|done|apply strip_fresh].
Qed.
Lemma resolve_commit l key ts kd value target : store_ok l -> 0 <= ts <= target -> provisional l key ts ->
  (kd = KindValue \/ kd = KindDelete) ->
  (forall k v, (k, v) ∈ l -> userKey k = key -> ~ ts < sequence k <= target) ->
  visible key target (put {| userKey := key; sequence := ts; kind := kd |} value l)
  = Some ({| userKey := key; sequence := ts; kind := kd |}, value).
Proof.
  intros Hok Hts Hprov Hkd Hnew. assert (0 <= ts) as Hts0 by lia. destruct (provisional_strip l key ts Hok Hts0 Hprov) as [v Hext].
  pose proof (strip_ok key ts l Hok) as Hsok.
  rewrite (visible_via {| userKey := key; sequence := ts; kind := kd |} value key target l _ Hok
    (put_ok {| userKey := key; sequence := ts; kind := KindIntent |} v _ Hts0 Hsok) Hts0 Hext).
  apply visible_commit; [done|done|apply strip_fresh|done|].
  intros k x Hin. apply elem_of_strip in Hin as [Hin _]. by apply (Hnew _ _ Hin).
Qed.
(** Reads of a batch: other keys and older targets are unaffected. *)
Lemma visible_put_all_other ts ms l key target : store_ok l -> 0 <= ts -> (key ∉ (mKey <$> ms) \/ target < ts) ->
  visible key target (put_all ts ms l) = visible key target l.
Proof.
  intros Hok Hts Hor. apply visible_ext; [by apply put_all_ok|done|]. intros k v Hu Ht. destruct Hor as [Hnin|Hlt].
  - by eapply put_all_other.
  - assert (sequence k <> ts) as Hne by lia. clear -Hne Hok Hts. revert l Hok. induction ms as [|m ms IH]; intros l Hok; [done|].
    cbn. etransitivity; [apply IH; by apply put_ok|]. rewrite elem_of_put by apply Hok.
    split; [intros [[-> _]|[_ ?]]; done|right]. split; [by intros ->|done].
Qed.
Lemma visible_put_all_at ts ms m l target : store_ok l -> 0 <= ts -> NoDup (mKey <$> ms) -> m ∈ ms ->
  visible (mKey m) target (put_all ts ms l) = visible (mKey m) target (put (version_key ts m) (mValue m) l).
Proof.
  intros Hok Hts Hnd Hin. apply visible_ext; [by apply put_all_ok|by apply put_ok|].
  intros k v Hu _. by apply put_all_at.
Qed.

(** ** Stores as sets *)

Lemma elem_of_put_all ts ms : forall l k v, store_ok l -> 0 <= ts -> NoDup (version_key ts <$> ms) ->
  (k, v) ∈ put_all ts ms l <->
    (exists m, m ∈ ms /\ k = version_key ts m /\ v = mValue m) \/ (k ∉ (version_key ts <$> ms) /\ (k, v) ∈ l).
Proof.
  induction ms as [|m ms IH]; intros l k v Hok Hts Hnd; cbn.
  { change (put_all ts [] l) with l. split; [right; split; [apply not_elem_of_nil|done]|].
    intros [(m & Hm & _)|[_ ?]]; [by apply not_elem_of_nil in Hm|done]. }
  cbn in Hnd. apply NoDup_cons in Hnd as [Hnin Hnd].
  change (foldl _ _ ms) with (put_all ts ms (put (version_key ts m) (mValue m) l)).
  rewrite IH by (done || by apply put_ok). rewrite elem_of_put by apply Hok. rewrite not_elem_of_cons.
  setoid_rewrite elem_of_cons. split.
  - intros [(m' & Hm' & -> & ->)|[Hk [[-> ->]|[Hne Hin]]]]; [left; exists m'; by split; [right|]|left; exists m; by split; [left|]|by right].
  - intros [(m' & [->|Hm'] & -> & ->)|[[Hne Hk] Hin]]; [right|left; by exists m'|right].
    + split; [done|by left].
    + split; [done|by right].
Qed.
Lemma store_keys_NoDup l : store_sorted l -> NoDup l.*1.
Proof.
  induction 1 as [|e r Hs IH Hf]; cbn; [constructor|]. constructor; [|done]. rewrite Forall_forall in Hf.
  intros (x & Hx & Hin)%list_elem_of_fmap. specialize (Hf x Hin). unfold entry_lt in Hf. rewrite Hx in Hf. by apply key_lt_irrefl in Hf.
Qed.
(** A sorted store is determined by its entries. *)
Lemma store_eq l l' : store_sorted l -> store_sorted l' -> (forall e, e ∈ l <-> e ∈ l') -> l = l'.
Proof.
  intros Hs. revert l'. induction Hs as [|e r Hs IH Hf]; intros l' Hs' Heq.
  { destruct l' as [|x l']; [done|]. exfalso. apply (not_elem_of_nil x), Heq. by left. }
  destruct Hs' as [|e' r' Hs' Hf']; [exfalso; apply (not_elem_of_nil e), Heq; by left|].
  rewrite Forall_forall in Hf, Hf'. assert (e = e') as ->.
  { assert (e ∈ e' :: r') as He by (apply Heq; by left). assert (e' ∈ e :: r) as He' by (apply Heq; by left).
    apply elem_of_cons in He as [->|He]; [done|]. apply elem_of_cons in He' as [->|He']; [done|].
    exfalso. apply (key_lt_irrefl e.1). eapply key_lt_trans; [apply (Hf _ He')|apply (Hf' _ He)]. }
  f_equal. apply IH; [done|]. intros x. specialize (Heq x). rewrite !elem_of_cons in Heq.
  assert (x ∈ r -> x <> e') by (intros Hx ->; by apply (key_lt_irrefl e'.1), (Hf e')).
  assert (x ∈ r' -> x <> e') by (intros Hx ->; by apply (key_lt_irrefl e'.1), (Hf' e')). naive_solver.
Qed.
#[global] Arguments put_all : simpl never.
#[global] Arguments store_ok : simpl never.

(** ** Reads of a sorted store from a lower bound *)

(** The entries a scan that stops at [endKey] returns. *)
Definition before_end (endKey : option bytes) (e : entry) : bool :=
  match endKey with Some x => bytes_ltb (userKey e.1) x | None => true end.
Fixpoint upto (endKey : option bytes) (l : store) : store :=
  match l with [] => [] | e :: r => if before_end endKey e then e :: upto endKey r else [] end.
Lemma upto_None l : upto None l = l.
Proof. induction l; cbn; congruence. Qed.
Lemma get_lower_bound key l : store_sorted l ->
  (fun v => (key, v)) <$> get key l =
    match head (lower_bound key l) with
    | Some e => match CompareInternal e.1 key with Eq => Some e | _ => None end
    | None => None
    end.
Proof.
  induction 1 as [|e l Hs IH Hf]; [done|]. cbn. rewrite (compare_antisym e.1 key).
  destruct (CompareInternal e.1 key) eqn:Hc; cbn; [|done..|].
  - apply compare_eq in Hc as <-. by rewrite compare_refl, <- surjective_pairing.
  - by rewrite Hc.
Qed.
Definition seek_key (user : bytes) (target : Z) : InternalKey := {| userKey := user; sequence := target; kind := KindDelete |}.
(** The seek key sorts just before the versions of [user] at or below [target]. *)
Lemma seek_key_lt user target k :
  key_lt k (seek_key user target) <-> bytes_lt (userKey k) user \/ (userKey k = user /\ target < sequence k).
Proof.
  unfold key_lt, CompareInternal, bytes_lt. cbn [userKey sequence kind seek_key]. rewrite <- bytes_compare_eq.
  pose proof (byte.unsigned_range (kind k)) as Hk. change (byte.unsigned KindDelete) with 0.
  destruct (bytes_compare (userKey k) user); [|naive_solver..].
  repeat case_match; naive_solver lia.
Qed.
Lemma candidate_None user target l : Forall (fun e => relevant user target e.1 = false) l -> candidate user target l = None.
Proof. induction 1 as [|e l He Hl IH]; cbn; [done|]. by rewrite He. Qed.
Lemma candidate_lower_bound user target l : store_sorted l ->
  candidate user target l =
    match head (lower_bound (seek_key user target) l) with
    | Some e => if bytes_eqb (userKey e.1) user then Some e else None
    | None => None
    end.
Proof.
  induction 1 as [|e l Hs IH Hf]; [done|]. destruct (decide (key_lt e.1 (seek_key user target))) as [Hlt|Hge].
  - cbn [lower_bound]. unfold key_lt in Hlt. rewrite Hlt. rewrite <- IH. cbn.
    destruct (relevant _ _ _) eqn:Hr; [|done]. apply relevant_spec in Hr as [<- ?].
    apply seek_key_lt in Hlt as [?%(irreflexivity bytes_lt)|[_ ?]]; [done|lia].
  - replace (lower_bound _ (e :: l)) with (e :: l) by (cbn; unfold key_lt in Hge; by destruct (CompareInternal _ _)).
    rewrite seek_key_lt in Hge. cbn. unfold relevant. destruct (bytes_eqb _ _) eqn:Hu; cbn.
    + apply bytes_eqb_eq in Hu. rewrite (proj2 (Z.leb_le _ _)); [done|]. destruct (Z.le_gt_cases (sequence e.1) target); [done|]. naive_solver.
    + apply bytes_eqb_neq in Hu. apply candidate_None. eapply Forall_impl; [exact Hf|]. cbn. intros f Hef.
      unfold relevant. apply andb_false_iff. left. apply bytes_eqb_neq. intros Hfu. apply Hge. left.
      unfold entry_lt, key_lt, CompareInternal in Hef. rewrite Hfu in Hef. unfold bytes_lt.
      destruct (bytes_compare _ _) eqn:He; [by apply bytes_compare_eq in He|done..].
Qed.

(** A scan is the filter of the contents on user keys. *)
Definition in_range (start endKey : option bytes) (e : entry) : Prop :=
  match start with Some s => bytes_leb s (userKey e.1) = true | None => True end /\ before_end endKey e = true.
#[export] Instance in_range_dec start endKey e : Decision (in_range start endKey e).
Proof. unfold in_range. destruct start; solve_decision. Defined.
Lemma entry_lt_user a b : entry_lt a b -> ~ bytes_lt (userKey b.1) (userKey a.1).
Proof.
  unfold entry_lt, key_lt, CompareInternal, bytes_lt. rewrite (bytes_compare_antisym (userKey a.1)).
  by destruct (bytes_compare _ _).
Qed.
Lemma upto_filter endKey l : store_sorted l -> upto endKey l = filter (fun e => before_end endKey e = true) l.
Proof.
  induction 1 as [|e l Hs IH Hf]; [done|]. rewrite filter_cons. cbn [upto]. destruct (before_end endKey e) eqn:He.
  - rewrite decide_True by done. by rewrite IH.
  - rewrite decide_False by done. symmetry. apply filter_none. eapply Forall_impl; [exact Hf|]. cbn. intros f Hlt Hb.
    unfold before_end in *. destruct endKey as [x|]; [|done]. apply entry_lt_user in Hlt. apply bytes_ltb_lt in Hb.
    apply not_true_iff_false in He. rewrite bytes_ltb_lt in He. by apply He, (bytes_le_lt_trans _ (userKey f.1)).
Qed.
Lemma lower_bound_filter key l : store_sorted l -> lower_bound key l = filter (fun e => ~ key_lt e.1 key) l.
Proof.
  induction 1 as [|e l Hs IH Hf]; [done|]. destruct (decide (key_lt e.1 key)) as [He|He].
  - rewrite filter_cons_False by tauto. cbn. unfold key_lt in He. by rewrite He.
  - rewrite filter_all; [cbn; unfold key_lt in He; by destruct (CompareInternal _ _)|].
    constructor; [done|]. eapply Forall_impl; [exact Hf|]. intros f Hf' Hk. apply He. by eapply key_lt_trans.
Qed.
Lemma range_filter start endKey l : store_sorted l -> Forall (fun e => key_wf e.1) l ->
  upto endKey (match start with Some s => lower_bound (seek_key s MaxUint64) l | None => l end) =
    filter (in_range start endKey) l.
Proof.
  intros Hs Hwf. destruct start as [s|].
  - rewrite lower_bound_filter, upto_filter by (try apply sorted_filter; done). rewrite list_filter_filter.
    apply filter_iff_Forall. eapply Forall_impl; [exact Hwf|]. intros e [Hseq _]. unfold in_range. rewrite seek_key_lt, bytes_leb_lt.
    unfold is_u64, MaxUint64, two64 in *. split; [intros [? H]; split; [tauto|done]|]. intros [H ?]. split; [done|].
    intros [?|[_ ?]]; [tauto|lia].
  - rewrite upto_filter by done. apply list_filter_iff. unfold in_range. tauto.
Qed.
