(* ===== verification/MemTable.v ===== *)
(** * The MemTable skip list (storage/memtable)

    The heap of linked nodes is explicit: a node is an address, [next] holds
    addresses, and the table's methods read and update the heap as the Go code
    does through pointers.  [None] stands for a panic (a nil dereference, an
    index out of range, a failed [invariant.Assert]) or a loop that does not
    end; MemTableProofs.v shows that it never happens.  The draws of the random
    source and the build flag behind [invariant.Expensive] are parameters.
    Cloning of values is the identity.  Every method holds the mutex for its
    whole effect, so it is one atomic step and the mutex is not modelled. *)

From S2P Require Import Prelude InternalKey Batch MvccStore.

Module memtable.

Inductive mem_error := ErrFrozen | ErrNotFrozen | ErrDeleteHasValue | ErrInvalidRange | MemStorage (e : list storage_error).
#[export] Instance mem_error_eq_dec : EqDecision mem_error.
Proof. solve_decision. Defined.

Definition maxHeight : nat := 20.
Definition promotionMask : Z := 3.
Definition wordBytes : Z := 8.
Definition tableMetadataBytes : Z := 12 * wordBytes.
Definition nodeMetadataBytes : Z := 12 * wordBytes.
Definition emptyTableBytes : Z := tableMetadataBytes + nodeMetadataBytes + Z.of_nat maxHeight * wordBytes.

Abbreviation addr := nat.
Record node := { n_key : InternalKey; n_value : bytes; n_cap : Z; n_next : list (option addr); n_keyBytes : Z }.
Record MemTable := {
  t_heap : gmap addr node; t_random : nat; t_size : Z; t_count : Z; t_height : nat; t_frozen : bool
}.
(** [m.head]; its key is the zero value. *)
Definition head_addr : addr := 0%nat.
Definition zero_key : InternalKey := {| userKey := []; sequence := 0; kind := KindDelete |}.

Definition newWithRandom : MemTable := {|
  t_heap := {[ head_addr := {| n_key := zero_key; n_value := []; n_cap := 0; n_next := replicate maxHeight None; n_keyBytes := 0 |} ]};
  t_random := 0; t_size := emptyTableBytes; t_count := 0; t_height := 1; t_frozen := false |}.

Definition saturatingAdd (left right : Z) : Z := if MaxUint64 - left <? right then MaxUint64 else left + right.
Definition nodeSize (n : node) : Z :=
  let size := nodeMetadataBytes in
  let size := saturatingAdd size (n_keyBytes n) in
  let size := saturatingAdd size (n_cap n) in
  saturatingAdd size (u64 (len (n_next n) * wordBytes)).

(** [current.next[level]] *)
Definition next_at (h : gmap addr node) (a : addr) (level : nat) : option (option addr) :=
  n ← h !! a; n_next n !! level.
(** [p.next[level] = v] *)
Definition set_next (h : gmap addr node) (a : addr) (level : nat) (v : option addr) : option (gmap addr node) :=
  n ← h !! a;
  if (level <? length (n_next n))%nat then
    Some (<[a := {| n_key := n_key n; n_value := n_value n; n_cap := n_cap n;
                    n_next := <[level := v]> (n_next n); n_keyBytes := n_keyBytes n |}]> h)
  else None.

(** ** lowerBoundLocked *)

(** The inner loop at one level. *)
Fixpoint advance (fuel : nat) (h : gmap addr node) (key : InternalKey) (level : nat) (current : addr) : option addr :=
  match fuel with
  | O => None
  | S fuel' =>
      nx ← next_at h current level;
      match nx with
      | None => Some current
      | Some b =>
          n ← h !! b;
          match CompareInternal (n_key n) key with
          | Lt => advance fuel' h key level b
          | _ => Some current
          end
      end
  end.
(** The outer loop; the predecessors are listed from level 0. *)
Fixpoint descend (fuel : nat) (h : gmap addr node) (key : InternalKey) (levels : nat) (current : addr) (preds : list addr)
    : option (addr * list addr) :=
  match levels with
  | O => Some (current, preds)
  | S level => current ← advance fuel h key level current; descend fuel h key level current (current :: preds)
  end.
(** A bound on the steps of a loop along one level. *)
Definition heap_fuel (m : MemTable) : nat := S (size (t_heap m)).
Definition lowerBoundLocked (m : MemTable) (key : InternalKey) : option (option addr * list addr) :=
  '(current, preds) ← descend (heap_fuel m) (t_heap m) key (t_height m) head_addr [];
  nx ← next_at (t_heap m) current 0;
  Some (nx, preds).

(** ** Insertion *)

Definition set_value (h : gmap addr node) (a : addr) (n : node) (value : bytes) (cap : Z) : gmap addr node :=
  <[a := {| n_key := n_key n; n_value := value; n_cap := cap; n_next := n_next n; n_keyBytes := n_keyBytes n |}]> h.
Definition replaceValueLocked (a : addr) (value : bytes) (m : MemTable) : option MemTable :=
  n ← t_heap m !! a;
  Some (if len value <=? n_cap n then
          {| t_heap := set_value (t_heap m) a n value (n_cap n); t_random := t_random m; t_size := t_size m;
             t_count := t_count m; t_height := t_height m; t_frozen := t_frozen m |}
        else
          {| t_heap := set_value (t_heap m) a n value (len value); t_random := t_random m;
             t_size := saturatingAdd (t_size m) (len value - n_cap n);
             t_count := t_count m; t_height := t_height m; t_frozen := t_frozen m |}).

Fixpoint random_height (room : nat) (height : nat) (value : Z) : nat :=
  match room with
  | O => height
  | S room' => if Z.land value promotionMask =? 0 then random_height room' (S height) (Z.shiftr value 2) else height
  end.
(** [randomHeight] with the drawn value; [height] counts up to [maxHeight]. *)
Definition randomHeight (value : Z) : nat := random_height (maxHeight - 1) 1 value.

(** The loop that links a new node at every level below its height. *)
Fixpoint link_levels (levels level : nat) (n : addr) (preds : list addr) (h : gmap addr node) : option (gmap addr node) :=
  match levels with
  | O => Some h
  | S levels' =>
      p ← preds !! level;
      nx ← next_at h p level;
      h ← set_next h n level nx;
      h ← set_next h p level (Some n);
      link_levels levels' (S level) n preds h
  end.

Definition cloneKey (key : InternalKey) : option (InternalKey * Z) :=
  match NewInternalKey (userKey key) (sequence key) (kind key) with
  | Ok k => Some (k, len (userKey key))
  | Err _ => None
  end.

(** ** validateLocked (validate.go): [None] is a failed assertion *)

Definition assert (b : bool) : option unit := if b then Some tt else None.

(** What the walk along level zero accumulates. *)
Record survey := { v_seen : list addr; v_previous : option node; v_count : Z; v_height : nat; v_size : Z }.
Definition ordered_after (previous : option node) (n : node) : bool :=
  match previous with
  | None => true
  | Some p => match CompareInternal (n_key p) (n_key n) with Lt => true | _ => false end
  end.
Fixpoint validate_zero (fuel : nat) (h : gmap addr node) (current : option addr) (v : survey) : option survey :=
  match fuel with
  | O => None
  | S fuel' =>
      match current with
      | None => Some v
      | Some a =>
          n ← h !! a;
          _ ← assert (negb (bool_decide (a ∈ v_seen v)));
          _ ← assert ((1 <=? length (n_next n))%nat && (length (n_next n) <=? maxHeight)%nat);
          _ ← assert (n_keyBytes n =? len (userKey (n_key n)));
          _ ← assert (ordered_after (v_previous v) n);
          nx ← next_at h a 0;
          validate_zero fuel' h nx
            {| v_seen := a :: v_seen v; v_previous := Some n; v_count := v_count v + 1;
               v_height := if (v_height v <? length (n_next n))%nat then length (n_next n) else v_height v;
               v_size := saturatingAdd (v_size v) (nodeSize n) |}
      end
  end.
Fixpoint validate_level (fuel : nat) (h : gmap addr node) (level : nat) (zero seen : list addr) (previous : option node)
    (current : option addr) : option unit :=
  match fuel with
  | O => None
  | S fuel' =>
      match current with
      | None => Some tt
      | Some a =>
          n ← h !! a;
          _ ← assert (negb (bool_decide (a ∈ seen)));
          _ ← assert (bool_decide (a ∈ zero));
          _ ← assert (level <? length (n_next n))%nat;
          _ ← assert (ordered_after previous n);
          nx ← next_at h a level;
          validate_level fuel' h level zero (a :: seen) (Some n) nx
      end
  end.
(** [for level := from; level < maxHeight; level++], [levels] of them. *)
Fixpoint validate_levels (fuel : nat) (h : gmap addr node) (zero : list addr) (levels level : nat) : option unit :=
  match levels with
  | O => Some tt
  | S levels' =>
      first ← next_at h head_addr level;
      _ ← validate_level fuel h level zero [] None first;
      validate_levels fuel h zero levels' (S level)
  end.
Definition validateLocked (m : MemTable) : option unit :=
  head ← t_heap m !! head_addr;
  _ ← assert (length (n_next head) =? maxHeight)%nat;
  _ ← assert ((1 <=? t_height m)%nat && (t_height m <=? maxHeight)%nat);
  first ← next_at (t_heap m) head_addr 0;
  v ← validate_zero (heap_fuel m) (t_heap m) first
        {| v_seen := []; v_previous := None; v_count := 0; v_height := 1; v_size := emptyTableBytes |};
  _ ← assert (v_count v =? t_count m);
  _ ← assert (v_height v =? t_height m)%nat;
  _ ← assert (v_size v =? t_size m);
  validate_levels (heap_fuel m) (t_heap m) (v_seen v) (maxHeight - 1) 1.

Section table.
(** The values [m.random()] returns, and [invariant.Expensive()]. *)
Context (random : nat -> Z) (expensive : bool).

Definition validateIfEnabledLocked (m : MemTable) : option unit := if expensive then validateLocked m else Some tt.

(** The part of [insertLocked] after no equal key was found. *)
Definition insert_new (key : InternalKey) (value : bytes) (preds : list addr) (m : MemTable) : option MemTable :=
  '(ownedKey, keyBytes) ← cloneKey key;
  let height := randomHeight (random (t_random m)) in
  let preds := preds ++ replicate (height - t_height m) head_addr in
  let n := {| n_key := ownedKey; n_value := value; n_cap := len value; n_next := replicate height None; n_keyBytes := keyBytes |} in
  let a := fresh (dom (t_heap m)) in
  h ← link_levels height 0 a preds (<[a := n]> (t_heap m));
  Some {| t_heap := h; t_random := S (t_random m); t_size := saturatingAdd (t_size m) (nodeSize n);
          t_count := t_count m + 1; t_height := Nat.max height (t_height m); t_frozen := t_frozen m |}.
Definition insertLocked (key : InternalKey) (value : bytes) (m : MemTable) : option MemTable :=
  '(candidate, preds) ← lowerBoundLocked m key;
  match candidate with
  | Some c =>
      n ← t_heap m !! c;
      match CompareInternal (n_key n) key with
      | Eq => replaceValueLocked c value m
      | _ => insert_new key value preds m
      end
  | None => insert_new key value preds m
  end.

Abbreviation outcome := (option (MemTable * result mem_error unit)).

Definition Insert (key : InternalKey) (value : bytes) (m : MemTable) : outcome :=
  if t_frozen m then Some (m, Err ErrFrozen)
  else if negb (CarriesValue (kind key)) && negb (len value =? 0) then Some (m, Err ErrDeleteHasValue)
  else m ← insertLocked key value m; _ ← validateIfEnabledLocked m; Some (m, Ok tt).

Fixpoint insert_all (es : list entry) (m : MemTable) : option MemTable :=
  match es with
  | [] => Some m
  | e :: es' => m ← insertLocked e.1 e.2 m; insert_all es' m
  end.

(** The validation loops of [ApplyBatch] and [ApplyVersion]. *)
Fixpoint stage_batch (sequence : Z) (ms : list Mutation) : result mem_error (list entry) :=
  match ms with
  | [] => Ok []
  | mu :: ms' =>
      match NewInternalKey (mKey mu) sequence (mKind mu) with
      | Err e => Err (MemStorage e)
      | Ok key =>
          if negb (CarriesValue (mKind mu)) && negb (len (mValue mu) =? 0) then Err ErrDeleteHasValue
          else rest ← stage_batch (u64 (sequence + 1)) ms'; Ok ((key, mValue mu) :: rest)
      end
  end.
Fixpoint stage_version (version : Z) (ms : list Mutation) : result mem_error (list entry) :=
  match ms with
  | [] => Ok []
  | mu :: ms' =>
      match NewInternalKey (mKey mu) version (mKind mu) with
      | Err e => Err (MemStorage e)
      | Ok key =>
          if negb (CarriesValue (mKind mu)) && negb (len (mValue mu) =? 0) then Err ErrDeleteHasValue
          else rest ← stage_version version ms'; Ok ((key, mValue mu) :: rest)
      end
  end.
Definition apply_staged (staged : result mem_error (list entry)) (m : MemTable) : outcome :=
  match staged with
  | Err e => Some (m, Err e)
  | Ok es => if t_frozen m then Some (m, Err ErrFrozen) else m ← insert_all es m; _ ← validateIfEnabledLocked m; Some (m, Ok tt)
  end.
Definition ApplyBatch (batch : WriteBatch) (m : MemTable) : outcome :=
  if len (Mutations batch) =? 0 then Some (m, Err (MemStorage [ErrEmptyBatch]))
  else if MaxUint64 - (len (Mutations batch) - 1) <? FirstSequence batch then Some (m, Err (MemStorage [ErrSequenceOverflow]))
  else apply_staged (stage_batch (FirstSequence batch) (Mutations batch)) m.
Definition ApplyVersion (version : Z) (ms : list Mutation) (m : MemTable) : outcome :=
  if len ms =? 0 then Some (m, Err (MemStorage [ErrEmptyBatch]))
  else apply_staged (stage_version version ms) m.
Definition Freeze (m : MemTable) : option MemTable :=
  let m := {| t_heap := t_heap m; t_random := t_random m; t_size := t_size m; t_count := t_count m;
              t_height := t_height m; t_frozen := true |} in
  _ ← validateIfEnabledLocked m; Some m.
End table.

Definition ReachedSize (target : Z) (m : MemTable) : bool := target <=? t_size m.

(** ** Reads: the outer [option] is a panic, the inner one is [false] *)

Definition cloneEntry (n : node) : entry := (n_key n, n_value n).
(** The entry at the lower bound of [key]. *)
Definition lower_entry (m : MemTable) (key : InternalKey) : option (option entry) :=
  '(c, _) ← lowerBoundLocked m key;
  match c with None => Some None | Some a => n ← t_heap m !! a; Some (Some (cloneEntry n)) end.
Definition Get (key : InternalKey) (m : MemTable) : option (option entry) :=
  e ← lower_entry m key;
  Some (match e with
        | Some e => match CompareInternal e.1 key with Eq => Some e | _ => None end
        | None => None
        end).
Definition Seek (key : InternalKey) (m : MemTable) : option (option entry) := lower_entry m key.
Definition GetCandidate (user : bytes) (target : Z) (m : MemTable) : option (option entry) :=
  match NewInternalKey user target KindDelete with
  | Err _ => None
  | Ok seekKey =>
      e ← lower_entry m seekKey;
      Some (match e with
            | Some e => if bytes_eqb (userKey e.1) user then Some e else None
            | None => None
            end)
  end.

Fixpoint snapshot_loop (fuel : nat) (h : gmap addr node) (current : option addr) (endKey : option bytes) : option (list entry) :=
  match fuel with
  | O => None
  | S fuel' =>
      match current with
      | None => Some []
      | Some a =>
          n ← h !! a;
          if match endKey with Some e => negb (bytes_ltb (userKey (n_key n)) e) | None => false end then Some []
          else
            nx ← next_at h a 0;
            rest ← snapshot_loop fuel' h nx endKey;
            Some (cloneEntry n :: rest)
      end
  end.
Definition snapshotLocked (m : MemTable) (first : option addr) (endKey : option bytes) : option (list entry) :=
  snapshot_loop (heap_fuel m) (t_heap m) first endKey.

(** ** Snapshot iterators (iterator.go) *)

Record Iterator := { it_entries : list entry; it_index : Z; it_valid : bool }.
Definition newIterator (entries : list entry) : Iterator := {| it_entries := entries; it_index := -1; it_valid := false |}.
Definition Next (it : Iterator) : Iterator * bool :=
  if len (it_entries it) <=? it_index it then (it, false)
  else
    let index := it_index it + 1 in
    let valid := index <? len (it_entries it) in
    ({| it_entries := it_entries it; it_index := index; it_valid := valid |}, valid).
(** [Entry] and [BorrowedEntry]; the outer [option] is an index out of range. *)
Definition Entry (it : Iterator) : option (option entry) :=
  if it_valid it then
    if it_index it <? 0 then None else e ← it_entries it !! Z.to_nat (it_index it); Some (Some e)
  else Some None.

Definition Iterator_ (m : MemTable) : option Iterator :=
  first ← next_at (t_heap m) head_addr 0; es ← snapshotLocked m first None; Some (newIterator es).
Definition IteratorFrom (key : InternalKey) (m : MemTable) : option Iterator :=
  '(first, _) ← lowerBoundLocked m key; es ← snapshotLocked m first None; Some (newIterator es).
(** [start != nil && end != nil && bytes.Compare(start, end) > 0] *)
Definition invalid_range (start endKey : option bytes) : bool :=
  match start, endKey with Some s, Some e => negb (bytes_leb s e) | _, _ => false end.
Definition Range (start endKey : option bytes) (m : MemTable) : option (result mem_error Iterator) :=
  if invalid_range start endKey then Some (Err ErrInvalidRange)
  else
    first ← next_at (t_heap m) head_addr 0;
    first ← match start with
            | None => Some first
            | Some s =>
                match NewInternalKey s MaxUint64 KindDelete with
                | Err _ => None
                | Ok lower => '(first, _) ← lowerBoundLocked m lower; Some first
                end
            end;
    es ← snapshotLocked m first endKey;
    Some (Ok (newIterator es)).

(** ** The iterator of a frozen table (frozen_iterator.go) *)

Record FrozenIterator := { f_current : option addr; f_valid : bool }.
Definition FrozenIterator_ (m : MemTable) : result mem_error FrozenIterator :=
  if t_frozen m then Ok {| f_current := Some head_addr; f_valid := false |} else Err ErrNotFrozen.
Definition frozen_Next (h : gmap addr node) (it : FrozenIterator) : option (FrozenIterator * bool) :=
  match f_current it with
  | None => Some (it, false)
  | Some a =>
      nx ← next_at h a 0;
      let valid := match nx with Some _ => true | None => false end in
      Some ({| f_current := nx; f_valid := valid |}, valid)
  end.
Definition frozen_Entry (h : gmap addr node) (it : FrozenIterator) : option (option entry) :=
  if f_valid it then a ← f_current it; n ← h !! a; Some (Some (cloneEntry n)) else Some None.
End memtable.
