(* ===== verification/MemTableProofs.v ===== *)
(** * Correctness of the MemTable skip list

    The representation invariant [rep] relates the heap of linked nodes to the
    list of cells in key order: the chain of every level is the sublist of the
    cells that are tall enough.  The search finds the lower bound and the
    predecessors of every level, linking a new node and replacing a value
    preserve the invariant, and an insertion acts on the contents as [put]
    does, whatever heights the random source draws. *)

From S2P Require Import Prelude InternalKey Batch MvccStore MemTable.
Import memtable.

Arguments randomHeight : simpl never.

(** One node without its links. *)
Record cell := { c_addr : addr; c_key : InternalKey; c_value : bytes; c_cap : Z; c_height : nat }.
Definition cell_entry (c : cell) : entry := (c_key c, c_value c).
Definition cell_node (c : cell) (next : list (option addr)) : node :=
  {| n_key := c_key c; n_value := c_value c; n_cap := c_cap c; n_next := next; n_keyBytes := len (userKey (c_key c)) |}.
Definition tall (level : nat) (cs : list cell) : list cell := filter (fun c => (level < c_height c)%nat) cs.
Definition below (key : InternalKey) (cs : list cell) : list cell := filter (fun c => key_lt (c_key c) key) cs.
Definition above (key : InternalKey) (cs : list cell) : list cell := filter (fun c => ~ key_lt (c_key c) key) cs.
Arguments tall : simpl never.
Arguments below : simpl never.
Arguments above : simpl never.
(** The address reached after walking over [cs] from [a]. *)
Fixpoint walked (a : addr) (cs : list cell) : addr :=
  match cs with [] => a | c :: r => walked (c_addr c) r end.
(** The chain of [level] that starts at [a] is [cs]. *)
Fixpoint linked (h : gmap addr node) (level : nat) (a : addr) (cs : list cell) : Prop :=
  match cs with
  | [] => next_at h a level = Some None
  | c :: r => next_at h a level = Some (Some (c_addr c)) /\ linked h level (c_addr c) r
  end.
Definition cell_lt (a b : cell) : Prop := key_lt (c_key a) (c_key b).
#[export] Instance cell_lt_trans : Transitive cell_lt.
Proof. intros a b c. apply key_lt_trans. Qed.
Record cell_ok (c : cell) : Prop := {
  ok_key : key_wf (c_key c);
  ok_cap : len (c_value c) <= c_cap c;
  ok_height : (1 <= c_height c <= maxHeight)%nat
}.

(** The heap holds exactly the head and the cells. *)
Record heap_rep (h : gmap addr node) (cs : list cell) : Prop := {
  hr_head : exists n, h !! head_addr = Some n /\ length (n_next n) = maxHeight;
  hr_cells : forall c, c ∈ cs -> exists next, h !! c_addr c = Some (cell_node c next) /\ length next = c_height c;
  hr_addrs : NoDup (head_addr :: (c_addr <$> cs));
  hr_size : size h = S (length cs)
}.
(** The sizes the cells account for. *)
Definition cell_size (c : cell) : Z := nodeSize (cell_node c (replicate (c_height c) None)).
Definition table_size (cs : list cell) : Z := foldl (fun s c => saturatingAdd s (cell_size c)) emptyTableBytes cs.
Definition table_height (cs : list cell) : nat := foldr (fun c => Nat.max (c_height c)) 1%nat cs.

Record rep (m : MemTable) (cs : list cell) : Prop := {
  rep_heap : heap_rep (t_heap m) cs;
  rep_links : forall level, (level < maxHeight)%nat -> linked (t_heap m) level head_addr (tall level cs);
  rep_sorted : StronglySorted cell_lt cs;
  rep_ok : Forall cell_ok cs;
  rep_height : t_height m = table_height cs;
  rep_count : t_count m = len cs;
  rep_size : t_size m = table_size cs
}.
Definition wf (m : MemTable) : Prop := exists cs, rep m cs.
(** What the table holds: the entries its iterator would list. *)
Definition contents (m : MemTable) : store :=
  match Iterator_ m with Some it => it_entries it | None => [] end.

(** ** Chains *)

Lemma walked_app a xs ys : walked a (xs ++ ys) = walked (walked a xs) ys.
Proof. revert a. induction xs; cbn; auto. Qed.
Lemma linked_suffix h level xs ys : forall a, linked h level a (xs ++ ys) -> linked h level (walked a xs) ys.
Proof. induction xs as [|c xs IH]; cbn; [done|]. intros a [_ H]. by apply IH. Qed.
Lemma linked_next h level a cs : linked h level a cs -> next_at h a level = Some (c_addr <$> head cs).
Proof. destruct cs; cbn; [done|]. by intros [? _]. Qed.
Lemma linked_ext h h' level cs : forall a,
  (forall b, b ∈ a :: (c_addr <$> cs) -> next_at h' b level = next_at h b level) ->
  linked h level a cs -> linked h' level a cs.
Proof.
  induction cs as [|c cs IH]; cbn; intros a He.
  - by rewrite He by constructor.
  - intros [Ha Hl]. split; [by rewrite He by constructor|]. apply IH; [|done]. intros b Hb. apply He. by right.
Qed.
Lemma walked_in a cs : walked a cs ∈ a :: (c_addr <$> cs).
Proof. revert a. induction cs as [|c cs IH]; cbn; intros a; [constructor|]. right. apply IH. Qed.

Lemma below_Forall key cs : Forall (fun c => key_lt (c_key c) key) (below key cs).
Proof. apply Forall_forall. intros c [? _]%list_elem_of_filter. done. Qed.
Lemma tall_app level xs ys : tall level (xs ++ ys) = tall level xs ++ tall level ys.
Proof. apply filter_app. Qed.

Lemma cut key cs : StronglySorted cell_lt cs -> cs = below key cs ++ above key cs.
Proof. apply (sorted_cut (fun c => key_lt (c_key c) key)). intros x y ? ?. by eapply key_lt_trans. Qed.
Lemma below_cons key c cs : below key (c :: cs) = if decide (key_lt (c_key c) key) then c :: below key cs else below key cs.
Proof. unfold below. by rewrite filter_cons. Qed.
Lemma below_all key cs : Forall (fun c => key_lt (c_key c) key) cs -> below key cs = cs.
Proof. apply filter_all. Qed.
Lemma below_none key cs : Forall (fun c => ~ key_lt (c_key c) key) cs -> below key cs = [].
Proof. apply filter_none. Qed.
Lemma above_Forall key cs : Forall (fun c => ~ key_lt (c_key c) key) (above key cs).
Proof. apply (filter_Forall (fun c => ~ key_lt (c_key c) key)). Qed.
Lemma tall_sorted level cs : StronglySorted cell_lt cs -> StronglySorted cell_lt (tall level cs).
Proof. apply sorted_filter. Qed.
(** Walking over a sublist ends at the end of some prefix. *)
Lemma walked_tall level a cs : exists xs ys, cs = xs ++ ys /\ walked a (tall level cs) = walked a xs.
Proof.
  induction cs as [|c cs IH] using rev_ind; [by exists [], []|]. rewrite tall_app. unfold tall at 2. rewrite filter_cons.
  case_decide.
  - exists (cs ++ [c]), []. split; [by rewrite app_nil_r|]. by rewrite !walked_app.
  - destruct IH as (xs & ys & -> & Hw). exists xs, (ys ++ [c]). split; [by rewrite app_assoc|]. by rewrite app_nil_r.
Qed.
Lemma tall_tall level cs : tall (S level) (tall level cs) = tall (S level) cs.
Proof.
  unfold tall. rewrite list_filter_filter. apply list_filter_iff. intros c. lia.
Qed.
Lemma tall_below level key cs : tall level (below key cs) = below key (tall level cs).
Proof. unfold tall, below. rewrite !list_filter_filter. apply list_filter_iff. intros c. tauto. Qed.

(** ** The search *)

(** The last cell of [level] below [key], or the head. *)
Definition pred (cs : list cell) (key : InternalKey) (level : nat) : addr := walked head_addr (below key (tall level cs)).

Lemma advance_walks h key level cs : forall fuel a,
  (forall c, c ∈ cs -> exists next, h !! c_addr c = Some (cell_node c next)) ->
  StronglySorted cell_lt cs -> linked h level a cs -> (length cs < fuel)%nat ->
  advance fuel h key level a = Some (walked a (below key cs)).
Proof.
  induction cs as [|c cs IH]; intros [|fuel] a Hc Hs Hl Hf; cbn [advance linked length] in *; try lia; [by rewrite Hl|].
  destruct Hl as [-> Hl]. cbn. destruct (Hc c) as [next Hn]; [constructor|]. rewrite Hn. cbn.
  apply StronglySorted_cons in Hs as [Hlt Hs]. rewrite below_cons. case_decide as Hk.
  - unfold key_lt in Hk. rewrite Hk. cbn. apply IH; [|done..|lia]. intros d Hd. apply Hc. by right.
  - rewrite below_none; [unfold key_lt in Hk; by destruct (CompareInternal _ _)|]. eapply Forall_impl; [exact Hlt|]. intros d Hd Hdk. apply Hk. by eapply key_lt_trans.
Qed.

Lemma heap_rep_node h cs c : heap_rep h cs -> c ∈ cs -> exists next, h !! c_addr c = Some (cell_node c next).
Proof. intros Hr Hc. destruct (hr_cells _ _ Hr c Hc) as (next & ? & _). eauto. Qed.
Lemma tall_subset level cs c : c ∈ tall level cs -> c ∈ cs.
Proof. by intros [_ ?]%list_elem_of_filter. Qed.

Lemma advance_pred m cs key level : rep m cs -> (level < maxHeight)%nat ->
  advance (heap_fuel m) (t_heap m) key level (pred cs key (S level)) = Some (pred cs key level).
Proof.
  intros Hr Hlevel. pose proof (rep_links _ _ Hr level Hlevel) as Hl. pose proof (tall_sorted level _ (rep_sorted _ _ Hr)) as Hs.
  unfold pred at 1. rewrite <- tall_tall, <- tall_below.
  destruct (walked_tall (S level) head_addr (below key (tall level cs))) as (xs & ys & Hcut & ->).
  pose proof (cut key _ Hs) as Hall. rewrite Hcut, <- app_assoc in Hall.
  unfold pred. rewrite Hcut, walked_app. rewrite Hall in Hl, Hs.
  apply linked_suffix in Hl. apply StronglySorted_app_1_r in Hs.
  rewrite advance_walks with (cs := ys ++ above key (tall level cs)); [|..|done|done|].
  - f_equal. f_equal. unfold below. rewrite filter_app. fold (below key ys) (below key (above key (tall level cs))).
    rewrite below_all, below_none, app_nil_r; [done|apply above_Forall|].
    pose proof (below_Forall key (tall level cs)) as Hb. rewrite Hcut in Hb. by apply Forall_app in Hb as [_ ?].
  - intros c Hc. eapply heap_rep_node; [apply Hr|]. apply (tall_subset level). rewrite Hall. set_solver.
  - unfold heap_fuel. rewrite (hr_size _ _ (rep_heap _ _ Hr)).
    assert (length (tall level cs) <= length cs)%nat by apply length_filter.
    apply (f_equal length) in Hall. rewrite length_app in Hall. lia.
Qed.

Lemma descend_preds m cs key : rep m cs -> forall levels preds, (levels <= maxHeight)%nat ->
  descend (heap_fuel m) (t_heap m) key levels (pred cs key levels) preds =
    Some (pred cs key 0, (pred cs key <$> seq 0 levels) ++ preds).
Proof.
  intros Hr. induction levels as [|level IH]; intros preds Hle; cbn [descend]; [done|].
  rewrite (advance_pred m cs) by (done || lia). cbn -[seq]. rewrite IH by lia.
  by rewrite seq_S, fmap_app, <- app_assoc.
Qed.

Lemma table_height_ge cs c : c ∈ cs -> (c_height c <= table_height cs)%nat.
Proof. induction cs as [|d cs IH]; [set_solver|]. cbn. intros [->|H]%elem_of_cons; [lia|]. specialize (IH H). unfold table_height in IH. lia. Qed.
Lemma table_height_range cs : Forall cell_ok cs -> (1 <= table_height cs <= maxHeight)%nat.
Proof. induction 1 as [|c cs Hc Hcs IH]; cbn; [unfold maxHeight; lia|]. pose proof (ok_height _ Hc). unfold table_height in IH. lia. Qed.
Lemma tall_none level cs : (table_height cs <= level)%nat -> tall level cs = [].
Proof. intros Hl. apply filter_none, Forall_forall. intros c Hc. pose proof (table_height_ge cs c Hc). lia. Qed.
Lemma tall_zero cs : Forall cell_ok cs -> tall 0 cs = cs.
Proof. intros Hok. apply filter_all. eapply Forall_impl; [exact Hok|]. intros c Hc. pose proof (ok_height _ Hc). lia. Qed.

Lemma rep_height_range m cs : rep m cs -> (1 <= t_height m <= maxHeight)%nat.
Proof. intros Hr. rewrite (rep_height _ _ Hr). apply table_height_range, Hr. Qed.
Lemma pred_top m cs key : rep m cs -> pred cs key (t_height m) = head_addr.
Proof. intros Hr. unfold pred. by rewrite tall_none by (by rewrite (rep_height _ _ Hr)). Qed.
Lemma rep_links_cut m cs key level : rep m cs -> (level < maxHeight)%nat ->
  linked (t_heap m) level (pred cs key level) (tall level (above key cs)).
Proof.
  intros Hr Hlevel. pose proof (rep_links _ _ Hr level Hlevel) as Hl.
  rewrite (cut key cs), tall_app in Hl by apply Hr. rewrite tall_below in Hl. by apply linked_suffix.
Qed.

(** The search returns the first cell at or above the key, and the
    predecessors at every level in use. *)
Lemma lowerBound_spec m cs key : rep m cs ->
  lowerBoundLocked m key = Some (c_addr <$> head (above key cs), pred cs key <$> seq 0 (t_height m)).
Proof.
  intros Hr. pose proof (rep_height_range _ _ Hr). unfold lowerBoundLocked. rewrite <- (pred_top m cs key) at 1 by done.
  rewrite (descend_preds m cs) by (done || lia). cbn -[seq].
  rewrite (linked_next _ _ _ _ (rep_links_cut m cs key 0 Hr ltac:(unfold maxHeight; lia))). cbn -[seq].
  rewrite app_nil_r, tall_zero; [done|]. apply Forall_forall. intros c [_ Hc]%list_elem_of_filter.
  pose proof (rep_ok _ _ Hr) as Hok. rewrite Forall_forall in Hok. by apply Hok.
Qed.

(** ** Reads *)

Definition entries (cs : list cell) : store := cell_entry <$> cs.

Lemma snapshot_spec h endKey cs : forall fuel a,
  (forall c, c ∈ cs -> exists next, h !! c_addr c = Some (cell_node c next)) ->
  linked h 0 a cs -> (length cs < fuel)%nat ->
  snapshot_loop fuel h (c_addr <$> head cs) endKey = Some (upto endKey (entries cs)).
Proof.
  induction cs as [|c cs IH]; intros [|fuel] a Hc Hl Hf; cbn [length] in Hf; try lia; [done|].
  cbn [snapshot_loop head fmap option_fmap option_map]. destruct (Hc c) as [next Hn]; [constructor|].
  rewrite Hn. destruct Hl as [_ Hl]. rewrite (linked_next _ _ _ _ Hl).
  cbn. unfold before_end. destruct endKey as [e|]; [destruct (bytes_ltb _ _); [|done]|]; cbn;
    (erewrite IH; [done| |done|lia]); intros d Hd; apply Hc; by right.
Qed.
Lemma above_subset key cs c : c ∈ above key cs -> c ∈ cs.
Proof. by intros [_ ?]%list_elem_of_filter. Qed.
Lemma above_ok key cs : Forall cell_ok cs -> Forall cell_ok (above key cs).
Proof. rewrite !Forall_forall. intros H c ?%above_subset. by apply H. Qed.

Lemma snapshot_above m cs key endKey : rep m cs ->
  snapshotLocked m (c_addr <$> head (above key cs)) endKey = Some (upto endKey (entries (above key cs))).
Proof.
  intros Hr. unfold snapshotLocked. pose proof (rep_links_cut m cs key 0 Hr ltac:(unfold maxHeight; lia)) as Hl.
  rewrite tall_zero in Hl by apply above_ok, Hr. eapply snapshot_spec; [|exact Hl|].
  - intros c Hc%above_subset. eapply heap_rep_node; [apply Hr|done].
  - unfold heap_fuel. rewrite (hr_size _ _ (rep_heap _ _ Hr)). assert (length (above key cs) <= length cs)%nat by apply length_filter. lia.
Qed.
Lemma snapshot_all m cs endKey : rep m cs ->
  (first ← next_at (t_heap m) head_addr 0; snapshotLocked m first endKey) = Some (upto endKey (entries cs)).
Proof.
  intros Hr. pose proof (rep_links _ _ Hr 0%nat ltac:(unfold maxHeight; lia)) as Hl. rewrite tall_zero in Hl by apply Hr.
  rewrite (linked_next _ _ _ _ Hl). cbn [mbind option_bind]. eapply snapshot_spec; [|exact Hl|].
  - intros c Hc. eapply heap_rep_node; [apply Hr|done].
  - unfold heap_fuel. rewrite (hr_size _ _ (rep_heap _ _ Hr)). lia.
Qed.
Lemma contents_rep m cs : rep m cs -> contents m = entries cs.
Proof.
  intros Hr. pose proof (snapshot_all m cs None Hr) as Hs. unfold contents, Iterator_.
  destruct (next_at _ _ _) as [first|]; [|done]. cbn in *. rewrite Hs. cbn. apply upto_None.
Qed.
Lemma entries_sorted cs : StronglySorted cell_lt cs -> store_sorted (entries cs).
Proof. apply StronglySorted_fmap. done. Qed.
Lemma entries_above key cs : StronglySorted cell_lt cs -> entries (above key cs) = lower_bound key (entries cs).
Proof.
  induction 1 as [|c cs Hs IH Hf]; [done|]. destruct (decide (key_lt (c_key c) key)) as [Hc|Hc].
  - unfold above. rewrite filter_cons_False by tauto. cbn. unfold key_lt in Hc. by rewrite Hc.
  - unfold above. rewrite filter_all.
    + cbn. unfold key_lt in Hc. by destruct (CompareInternal _ _).
    + constructor; [done|]. eapply Forall_impl; [exact Hf|]. intros d Hd Hk. apply Hc. by eapply key_lt_trans.
Qed.

Lemma lower_entry_spec m cs key : rep m cs -> lower_entry m key = Some (head (lower_bound key (contents m))).
Proof.
  intros Hr. unfold lower_entry. rewrite (lowerBound_spec m cs) by done. cbn -[seq].
  rewrite (contents_rep m cs), <- entries_above by (done || apply Hr).
  destruct (above key cs) as [|c r] eqn:Ha; [done|]. cbn.
  destruct (heap_rep_node _ _ c (rep_heap _ _ Hr)) as [next ->]; [|done].
  apply (above_subset key). rewrite Ha. constructor.
Qed.
(** ** Links of a new node *)

Lemma set_next_spec h a level v n : h !! a = Some n -> (level < length (n_next n))%nat ->
  set_next h a level v = Some (<[a := {| n_key := n_key n; n_value := n_value n; n_cap := n_cap n;
    n_next := <[level := v]> (n_next n); n_keyBytes := n_keyBytes n |}]> h).
Proof. intros Hn Hl. unfold set_next. rewrite Hn. cbn [mbind option_bind]. by rewrite (proj2 (Nat.ltb_lt _ _)). Qed.
Lemma next_at_set h h' a level v b l : set_next h a level v = Some h' ->
  next_at h' b l = if decide (b = a /\ l = level) then Some v else next_at h b l.
Proof.
  unfold set_next, next_at. destruct (h !! a) as [n|] eqn:Hn; [|done]. cbn [mbind option_bind]. destruct (Nat.ltb_spec level (length (n_next n))); [|done].
  intros [= <-]. destruct (decide (b = a)) as [->|Hb].
  - rewrite lookup_insert_eq, Hn. cbn. destruct (decide (l = level)) as [->|Hl].
    + rewrite decide_True by done. by apply list_lookup_insert_eq.
    + rewrite decide_False by tauto. by apply list_lookup_insert_ne.
  - rewrite decide_False by tauto. by rewrite lookup_insert_ne.
Qed.
(** Updating a link changes no other part of the heap. *)
Definition skeleton (n : node) : InternalKey * bytes * Z * nat * Z :=
  (n_key n, n_value n, n_cap n, length (n_next n), n_keyBytes n).
Lemma set_next_skeleton h h' a level v b : set_next h a level v = Some h' -> skeleton <$> h' !! b = skeleton <$> h !! b.
Proof.
  unfold set_next. destruct (h !! a) as [n|] eqn:Hn; [|done]. cbn [mbind option_bind]. destruct (_ <? _)%nat; [|done]. intros [= <-].
  destruct (decide (b = a)) as [->|Hb]; [|by rewrite lookup_insert_ne]. rewrite lookup_insert_eq, Hn. cbn.
  unfold skeleton. cbn. by rewrite length_insert.
Qed.
Lemma set_next_defined h a level v n : h !! a = Some n -> (level < length (n_next n))%nat -> is_Some (set_next h a level v).
Proof. intros. rewrite (set_next_spec h a level v n); eauto. Qed.

(** Splicing a node into one chain: [p] is where the first part ends. *)
Lemma linked_splice h h' level (c : cell) xs ys : forall a,
  NoDup (a :: (c_addr <$> xs ++ ys)) -> c_addr c ∉ a :: (c_addr <$> xs ++ ys) ->
  (forall b, b <> c_addr c -> b <> walked a xs -> next_at h' b level = next_at h b level) ->
  next_at h' (walked a xs) level = Some (Some (c_addr c)) ->
  next_at h' (c_addr c) level = next_at h (walked a xs) level ->
  linked h level a (xs ++ ys) -> linked h' level a (xs ++ c :: ys).
Proof.
  induction xs as [|x xs IH]; intros a Hnd Hc Hother Hp Hn Hl; cbn in *.
  - split; [done|]. destruct ys as [|y ys]; cbn in *; [congruence|]. destruct Hl as [Ha Hl]. split; [congruence|].
    apply NoDup_cons in Hnd as [Ha' Hnd]. eapply linked_ext; [|exact Hl]. intros b Hb. apply Hother; set_solver.
  - destruct Hl as [Ha Hl]. apply NoDup_cons in Hnd as [Ha' Hnd]. split.
    + rewrite <- Ha. apply Hother; [set_solver|]. intros ->. apply Ha'.
      pose proof (walked_in (c_addr x) xs) as Hw. rewrite fmap_app. set_solver.
    + apply IH; [done|set_solver|done..].
Qed.

Section splice.
(** A new cell [c] between [lo] and [hi], and the heap in which it is allocated. *)
Context (lo hi : list cell) (c : cell) (h0 : gmap addr node).
Context (Haddrs : NoDup (head_addr :: (c_addr <$> lo ++ hi))) (Hc : c_addr c ∉ head_addr :: (c_addr <$> lo ++ hi)).
Context (Hheight : (c_height c <= maxHeight)%nat).
(** The heights the heap [h0] gives to addresses. *)
Context (Hhead : exists n, h0 !! head_addr = Some n /\ length (n_next n) = maxHeight).
Context (Hnew : exists n, h0 !! c_addr c = Some n /\ length (n_next n) = c_height c).
Context (Hcells : forall d, d ∈ lo -> exists n, h0 !! c_addr d = Some n /\ length (n_next n) = c_height d).

Definition splicing (level : nat) (h : gmap addr node) : Prop :=
  (forall b, skeleton <$> h !! b = skeleton <$> h0 !! b) /\
  (forall l, (l < level)%nat -> linked h l head_addr (tall l lo ++ c :: tall l hi)) /\
  (forall l, (level <= l < maxHeight)%nat -> linked h l head_addr (tall l lo ++ tall l hi)).

Lemma skeleton_height (h : gmap addr node) b n :
  (forall b, skeleton <$> h !! b = skeleton <$> h0 !! b) -> h0 !! b = Some n ->
  exists n', h !! b = Some n' /\ length (n_next n') = length (n_next n).
Proof.
  intros Hs Hn. specialize (Hs b). rewrite Hn in Hs. destruct (h !! b) as [n'|]; [|done]. exists n'. split; [done|].
  cbn in Hs. unfold skeleton in Hs. congruence.
Qed.
Lemma pred_height (h : gmap addr node) level : (forall b, skeleton <$> h !! b = skeleton <$> h0 !! b) -> (level < maxHeight)%nat ->
  exists n, h !! walked head_addr (tall level lo) = Some n /\ (level < length (n_next n))%nat.
Proof.
  intros Hs Hl. pose proof (walked_in head_addr (tall level lo)) as Hw.
  apply elem_of_cons in Hw as [->|(d & -> & [Hd1 Hd2]%list_elem_of_filter)%list_elem_of_fmap].
  - destruct Hhead as (n & Hn & Hlen). destruct (skeleton_height h _ n Hs Hn) as (n' & ? & ?). exists n'. split; [done|lia].
  - destruct (Hcells d Hd2) as (n & Hn & Hlen). destruct (skeleton_height h _ n Hs Hn) as (n' & ? & ?). exists n'. split; [done|lia].
Qed.
Lemma tall_addrs l : c_addr <$> (tall l lo ++ tall l hi) ⊆ c_addr <$> lo ++ hi.
Proof. rewrite <- tall_app. intros b (d & -> & Hd%tall_subset)%list_elem_of_fmap. by apply list_elem_of_fmap_2. Qed.
Lemma tall_addrs_NoDup l : NoDup (head_addr :: (c_addr <$> tall l lo ++ tall l hi)).
Proof.
  apply NoDup_cons in Haddrs as [Hh Hnd]. constructor; [intros ?%tall_addrs; done|].
  rewrite <- tall_app. by apply NoDup_fmap_filter.
Qed.
Lemma pred_not_new l : walked head_addr (tall l lo) <> c_addr c.
Proof.
  intros He. pose proof (walked_in head_addr (tall l lo)) as Hw. rewrite He in Hw. apply Hc.
  apply elem_of_cons in Hw as [->|Hw]; [constructor|]. right. apply (tall_addrs l). rewrite fmap_app. set_solver.
Qed.

Lemma splice_step level h : splicing level h -> (level < c_height c)%nat ->
  exists nx h1 h2, next_at h (walked head_addr (tall level lo)) level = Some nx /\
    set_next h (c_addr c) level nx = Some h1 /\
    set_next h1 (walked head_addr (tall level lo)) level (Some (c_addr c)) = Some h2 /\ splicing (S level) h2.
Proof.
  intros (Hs & Hdone & Htodo) Hlevel. set (p := walked head_addr (tall level lo)).
  pose proof (Htodo level ltac:(lia)) as Hl. pose proof (linked_next _ _ _ _ (linked_suffix _ _ _ _ _ Hl)) as Hnx. fold p in Hnx.
  destruct Hnew as (n & Hn & Hlen). destruct (skeleton_height h _ n Hs Hn) as (n' & Hn' & Hlen').
  destruct (set_next_defined h (c_addr c) level (c_addr <$> head (tall level hi)) n' Hn') as [h1 Hh1]; [lia|].
  pose proof (fun b => eq_trans (set_next_skeleton _ _ _ _ _ b Hh1) (Hs b)) as Hs1.
  destruct (pred_height h1 level Hs1) as (np & Hnp & Hlenp); [lia|].
  destruct (set_next_defined h1 p level (Some (c_addr c)) np Hnp Hlenp) as [h2 Hh2].
  exists (c_addr <$> head (tall level hi)), h1, h2. split_and!; [done..|].
  assert (forall b l, next_at h2 b l = if decide (b = p /\ l = level) then Some (Some (c_addr c)) else
    if decide (b = c_addr c /\ l = level) then next_at h p level else next_at h b l) as Hn2.
  { intros b l. rewrite (next_at_set _ _ _ _ _ b l Hh2), (next_at_set _ _ _ _ _ b l Hh1). by rewrite Hnx. }
  pose proof (pred_not_new level) as Hpc. fold p in Hpc.
  split; [intros b; by rewrite (set_next_skeleton _ _ _ _ _ b Hh2)|]. split.
  - intros l Hlt. destruct (decide (l = level)) as [->|Hne].
    + eapply linked_splice; [apply tall_addrs_NoDup| | | | |exact Hl]; fold p; [|intros b ? ?|..]; rewrite ?Hn2.
      * intros Hin. apply Hc. apply elem_of_cons in Hin as [->|Hin]; [constructor|]. right. by apply (tall_addrs level).
      * by rewrite !decide_False by tauto.
      * by rewrite decide_True.
      * rewrite decide_False by naive_solver. by rewrite decide_True.
    + eapply linked_ext; [|apply Hdone; lia]. intros b _. rewrite Hn2. by rewrite !decide_False by tauto.
  - intros l Hlt. eapply linked_ext; [|apply Htodo; lia]. intros b _. rewrite Hn2. rewrite !decide_False by lia. done.
Qed.

Lemma link_levels_splices preds : forall levels level h, splicing level h -> (level + levels = c_height c)%nat ->
  (forall l, (l < c_height c)%nat -> preds !! l = Some (walked head_addr (tall l lo))) ->
  exists h', link_levels levels level (c_addr c) preds h = Some h' /\ splicing (c_height c) h'.
Proof.
  induction levels as [|levels IH]; intros level h Hs Hle Hp; cbn [link_levels].
  - replace (c_height c) with level by lia. eauto.
  - destruct (splice_step level h Hs) as (nx & h1 & h2 & Hnx & Hh1 & Hh2 & Hs2); [lia|].
    rewrite Hp by lia. cbn [mbind option_bind]. rewrite Hnx. cbn [mbind option_bind]. rewrite Hh1. cbn [mbind option_bind]. rewrite Hh2.
    cbn [mbind option_bind]. apply IH; [done|lia|done].
Qed.
End splice.

(** ** Sizes *)

Lemma saturatingAdd_min l r : saturatingAdd l r = Z.min MaxUint64 (l + r).
Proof. unfold saturatingAdd. destruct (Z.ltb_spec (MaxUint64 - l) r); lia. Qed.
Definition cells_size (cs : list cell) : Z := foldr (fun c => Z.add (cell_size c)) 0 cs.
Lemma MaxUint64_pos : 0 < MaxUint64.
Proof. done. Qed.
Lemma cell_size_nonneg c : cell_ok c -> 0 <= cell_size c.
Proof.
  intros Hc. unfold cell_size, nodeSize. rewrite !saturatingAdd_min. cbn [cell_node n_keyBytes n_cap n_next].
  pose proof (ok_cap _ Hc). pose proof (len_nonneg (c_value c)). pose proof (len_nonneg (userKey (c_key c))). pose proof MaxUint64_pos.
  pose proof (u64_range (len (replicate (c_height c) (@None addr)) * wordBytes)) as [? _]. unfold nodeMetadataBytes, wordBytes in *. lia.
Qed.
Lemma cells_size_nonneg cs : Forall cell_ok cs -> 0 <= cells_size cs.
Proof. induction 1 as [|c cs Hc Hcs IH]; cbn; [done|]. pose proof (cell_size_nonneg c Hc). unfold cells_size in IH. lia. Qed.
Lemma cells_size_app xs ys : cells_size (xs ++ ys) = cells_size xs + cells_size ys.
Proof. induction xs; cbn; [done|]. unfold cells_size in *. lia. Qed.
Lemma table_size_min cs : Forall cell_ok cs -> table_size cs = Z.min MaxUint64 (emptyTableBytes + cells_size cs).
Proof.
  induction cs as [|c cs IH] using rev_ind; [done|]. rewrite Forall_app, Forall_singleton. intros [Hcs Hc]. unfold table_size.
  rewrite foldl_app. cbn [foldl]. fold (table_size cs). rewrite IH by done. rewrite saturatingAdd_min, cells_size_app. cbn.
  pose proof (cell_size_nonneg c Hc). lia.
Qed.
Lemma table_height_app xs ys : table_height (xs ++ ys) = Nat.max (table_height xs) (table_height ys).
Proof. induction xs as [|x xs IH]; cbn; [|unfold table_height in *; lia]. induction ys; cbn; lia. Qed.

(** ** Insertion *)

Lemma randomHeight_range z : (1 <= randomHeight z <= maxHeight)%nat.
Proof.
  assert (forall room height z, (height <= random_height room height z <= height + room)%nat) as H.
  { clear. induction room as [|room IH]; intros height z; cbn; [lia|]. case_match; [|lia]. specialize (IH (S height) (Z.shiftr z 2)). lia. }
  unfold randomHeight. specialize (H (maxHeight - 1)%nat 1%nat z). unfold maxHeight in *. lia.
Qed.
Lemma skeleton_dom (h h' : gmap addr node) : (forall b, skeleton <$> h !! b = skeleton <$> h' !! b) -> dom h = dom h'.
Proof.
  intros Hs. apply set_eq. intros b. rewrite !elem_of_dom. specialize (Hs b).
  destruct (h !! b), (h' !! b); cbn in Hs; try done; split; intros []; eauto; done.
Qed.
Lemma skeleton_node (h h' : gmap addr node) c next :
  (forall b, skeleton <$> h' !! b = skeleton <$> h !! b) -> h !! c_addr c = Some (cell_node c next) ->
  exists next', h' !! c_addr c = Some (cell_node c next') /\ length next' = length next.
Proof.
  intros Hs Hn. specialize (Hs (c_addr c)). rewrite Hn in Hs. destruct (h' !! c_addr c) as [n|]; [|done]. cbn in Hs.
  unfold skeleton in Hs. cbn in Hs. exists (n_next n). split; [|congruence]. f_equal. destruct n; cbn in *. unfold cell_node. congruence.
Qed.
(** The heap after linking a fresh cell between [lo] and [hi]. *)
Lemma heap_rep_splice h h' lo hi c : heap_rep h (lo ++ hi) -> c_addr c ∉ dom h ->
  (forall b, skeleton <$> h' !! b = skeleton <$> (<[c_addr c := cell_node c (replicate (c_height c) None)]> h) !! b) ->
  heap_rep h' (lo ++ c :: hi).
Proof.
  intros Hr Hc Hs. assert (forall d, d ∈ lo ++ hi -> c_addr d <> c_addr c) as Hne.
  { intros d Hd He. destruct (heap_rep_node _ _ d Hr Hd) as [next Hn]. apply Hc. rewrite <- He. apply elem_of_dom. eauto. }
  assert (c_addr c <> head_addr) as Hhead.
  { intros He. destruct (hr_head _ _ Hr) as (n & Hn & _). apply Hc. rewrite He. apply elem_of_dom. eauto. }
  assert (Permutation (lo ++ c :: hi) (c :: (lo ++ hi))) as Hp by (symmetry; apply Permutation_middle). split.
  - destruct (hr_head _ _ Hr) as (n & Hn & Hlen). specialize (Hs head_addr). rewrite lookup_insert_ne, Hn in Hs by done.
    destruct (h' !! head_addr) as [n'|]; [|done]. exists n'. split; [done|]. cbn in Hs. unfold skeleton in Hs. congruence.
  - intros d Hd. rewrite Hp in Hd. apply elem_of_cons in Hd as [->|Hd].
    + destruct (skeleton_node _ h' c (replicate (c_height c) None) Hs) as (next & ? & Hlen); [apply lookup_insert_eq|].
      exists next. split; [done|]. by rewrite Hlen, length_replicate.
    + destruct (hr_cells _ _ Hr d Hd) as (next & Hn & Hlen).
      destruct (skeleton_node _ h' d next Hs) as (next' & ? & ?); [by rewrite lookup_insert_ne by (by apply not_eq_sym, Hne)|].
      exists next'. split; [done|congruence].
  - rewrite Hp. pose proof (hr_addrs _ _ Hr) as Hnd. apply NoDup_cons in Hnd as [Hh Hnd]. constructor.
    { cbn. rewrite not_elem_of_cons. by split. }
    cbn. constructor; [|done]. intros (d & He & Hd)%list_elem_of_fmap. by apply (Hne d).
  - rewrite <- size_dom, (skeleton_dom _ _ Hs), size_dom, map_size_insert_None by (by apply not_elem_of_dom).
    rewrite (hr_size _ _ Hr), Hp. done.
Qed.

Section inserts.
Context (random : nat -> Z).

Lemma preds_lookup m cs key height l : rep m cs -> (l < height <= maxHeight)%nat ->
  ((pred cs key <$> seq 0 (t_height m)) ++ replicate (height - t_height m) head_addr) !! l =
    Some (walked head_addr (tall l (below key cs))).
Proof.
  intros Hr Hl. rewrite tall_below. fold (pred cs key l). rewrite lookup_app, list_lookup_fmap.
  destruct (Nat.lt_ge_cases l (t_height m)) as [Hlt|Hge].
  - by rewrite lookup_seq_lt by done.
  - rewrite lookup_seq_ge by done. cbn -[seq]. rewrite length_fmap, length_seq, lookup_replicate_2 by lia.
    unfold pred. by rewrite tall_none by (by rewrite <- (rep_height _ _ Hr)).
Qed.
(** No equal key: every cell at or above [key] is strictly above it. *)
Lemma above_strict key cs : StronglySorted cell_lt cs ->
  match head (above key cs) with Some c => c_key c <> key | None => True end ->
  Forall (fun c => key_lt key (c_key c)) (above key cs).
Proof.
  intros Hs Hne. pose proof (sorted_filter (fun c => ~ key_lt (c_key c) key) _ _ Hs) as Hsa. fold (above key cs) in Hsa.
  pose proof (above_Forall key cs) as Hab. destruct (above key cs) as [|c r]; [constructor|]. cbn in Hne.
  apply Forall_cons in Hab as [Hc _]. apply StronglySorted_cons in Hsa as [Hf _].
  assert (key_lt key (c_key c)) as Hlt.
  { apply key_lt_not_le. intros Hle. apply key_le_lt_eq in Hle as [?|?]; done. }
  constructor; [done|]. eapply Forall_impl; [exact Hf|]. intros d Hd. by eapply key_lt_trans.
Qed.
Lemma sorted_insert key cs c : StronglySorted cell_lt cs -> c_key c = key ->
  Forall (fun c => key_lt key (c_key c)) (above key cs) -> StronglySorted cell_lt (below key cs ++ c :: above key cs).
Proof.
  intros Hs Hk Ha. pose proof (below_Forall key cs) as Hb. rewrite Forall_forall in Ha, Hb. apply StronglySorted_app. split_and!.
  - intros x y Hx Hy. unfold cell_lt. apply elem_of_cons in Hy as [->|Hy]; [rewrite Hk; by apply Hb|].
    eapply key_lt_trans; [by apply Hb|by apply Ha].
  - by apply sorted_filter.
  - constructor; [by apply sorted_filter|]. apply Forall_forall. intros y Hy. unfold cell_lt. rewrite Hk. by apply Ha.
Qed.

Definition new_cell (key : InternalKey) (value : bytes) (m : MemTable) : cell :=
  {| c_addr := fresh (dom (t_heap m)); c_key := key; c_value := value; c_cap := len value;
     c_height := randomHeight (random (t_random m)) |}.
Lemma new_cell_ok key value m : key_wf key -> cell_ok (new_cell key value m).
Proof. intros Hk. split; [done|cbn; lia|apply randomHeight_range]. Qed.
Lemma tall_cons l c cs : tall l (c :: cs) = if decide (l < c_height c)%nat then c :: tall l cs else tall l cs.
Proof. unfold tall. by rewrite filter_cons. Qed.

Lemma alloc_splicing h lo hi c : heap_rep h (lo ++ hi) -> c_addr c ∉ dom h ->
  (forall l, (l < maxHeight)%nat -> linked h l head_addr (tall l (lo ++ hi))) ->
  splicing lo hi c (<[c_addr c := cell_node c (replicate (c_height c) None)]> h) 0
    (<[c_addr c := cell_node c (replicate (c_height c) None)]> h).
Proof.
  intros Hr Hc Hl. split; [done|]. split; [lia|]. intros l Hlt. eapply linked_ext; [|rewrite <- tall_app; apply Hl; lia].
  intros b Hb. unfold next_at. rewrite lookup_insert_ne; [done|]. intros <-. apply Hc, elem_of_dom.
  apply elem_of_cons in Hb as [->|(d & -> & Hd)%list_elem_of_fmap].
  - destruct (hr_head _ _ Hr) as (n & ? & _). eauto.
  - rewrite <- tall_app in Hd. destruct (heap_rep_node _ _ d Hr) as [next ?]; [by apply (tall_subset l)|eauto].
Qed.
Lemma insert_links h lo hi c preds : heap_rep h (lo ++ hi) -> c_addr c ∉ dom h -> (c_height c <= maxHeight)%nat ->
  (forall l, (l < maxHeight)%nat -> linked h l head_addr (tall l (lo ++ hi))) ->
  (forall l, (l < c_height c)%nat -> preds !! l = Some (walked head_addr (tall l lo))) ->
  exists h', link_levels (c_height c) 0 (c_addr c) preds (<[c_addr c := cell_node c (replicate (c_height c) None)]> h) = Some h' /\
    heap_rep h' (lo ++ c :: hi) /\ forall l, (l < maxHeight)%nat -> linked h' l head_addr (tall l (lo ++ c :: hi)).
Proof.
  intros Hr Hc Hheight Hl Hp. set (h0 := <[c_addr c := _]> h).
  pose proof (heap_rep_splice h h0 lo hi c Hr Hc (fun _ => eq_refl)) as Hr0.
  assert (NoDup (c_addr c :: head_addr :: (c_addr <$> lo ++ hi))) as Hnd.
  { pose proof (hr_addrs _ _ Hr0) as Hnd. rewrite <- Permutation_middle in Hnd. cbn in Hnd. rewrite !NoDup_cons in *. set_solver. }
  apply NoDup_cons in Hnd as [Hnin Hnd].
  assert (forall d, d ∈ lo ++ c :: hi -> exists n, h0 !! c_addr d = Some n /\ length (n_next n) = c_height d) as Hcells.
  { intros d Hd. destruct (hr_cells _ _ Hr0 d Hd) as (next & ? & ?). eexists. split; [done|done]. }
  destruct (link_levels_splices lo hi c h0 Hnd Hnin Hheight (hr_head _ _ Hr0) (Hcells c ltac:(set_solver))
    (fun d Hd => Hcells d ltac:(set_solver)) preds (c_height c) 0 h0 (alloc_splicing h lo hi c Hr Hc Hl)) as (h' & Hh' & Hs & Hdone & Htodo);
    [lia|done|].
  exists h'. split; [done|]. split; [by apply heap_rep_splice with h|]. intros l Hlt. rewrite tall_app, tall_cons. case_decide.
  - by apply Hdone.
  - apply Htodo. lia.
Qed.

Lemma insert_new_rep m cs key value : rep m cs -> key_wf key ->
  match head (above key cs) with Some c => c_key c <> key | None => True end ->
  exists m', insert_new random key value (pred cs key <$> seq 0 (t_height m)) m = Some m' /\
    t_frozen m' = t_frozen m /\ rep m' (below key cs ++ new_cell key value m :: above key cs).
Proof.
  intros Hr Hk Hne. set (c := new_cell key value m). pose proof (randomHeight_range (random (t_random m))) as Hh.
  pose proof (cut key cs (rep_sorted _ _ Hr)) as Hcut.
  destruct (insert_links (t_heap m) (below key cs) (above key cs) c
    ((pred cs key <$> seq 0 (t_height m)) ++ replicate (c_height c - t_height m) head_addr)) as (h & Hh' & Hhr & Hlinks).
  { rewrite <- Hcut. apply Hr. } { apply is_fresh. } { apply Hh. } { rewrite <- Hcut. apply Hr. }
  { intros l Hl. apply preds_lookup; [done|]. split; [done|apply Hh]. }
  unfold insert_new, cloneKey, NewInternalKey. rewrite require_bind. destruct Hk as [Hseq Hkind]. rewrite Hkind. cbn -[seq].
  replace {| userKey := _ |} with key by (by destruct key).
  change (link_levels _ _ _ _ _) with (link_levels (c_height c) 0 (c_addr c)
    ((pred cs key <$> seq 0 (t_height m)) ++ replicate (c_height c - t_height m) head_addr)
    (<[c_addr c := cell_node c (replicate (c_height c) None)]> (t_heap m))).
  rewrite Hh'. cbn -[seq]. eexists. split; [done|]. split; [done|].
  assert (cell_ok c) as Hcok by (by apply new_cell_ok). assert (Forall cell_ok (below key cs ++ c :: above key cs)) as Hok.
  { pose proof (rep_ok _ _ Hr) as Hok. rewrite Hcut, Forall_app in Hok. rewrite Forall_app, Forall_cons. tauto. }
  split; cbn; [done|done| |done|..].
  - apply sorted_insert; [apply Hr|done|]. by apply above_strict; [apply Hr|].
  - pose proof (f_equal table_height Hcut) as He. rewrite table_height_app in He.
    rewrite (rep_height _ _ Hr), table_height_app. cbn. unfold table_height in *. lia.
  - pose proof (f_equal len Hcut) as He. rewrite len_app in He. rewrite (rep_count _ _ Hr), len_app, len_cons. lia.
  - pose proof (f_equal cells_size Hcut) as He. rewrite cells_size_app in He.
    rewrite (rep_size _ _ Hr), !table_size_min, saturatingAdd_min, cells_size_app by (done || apply Hr).
    cbn [cells_size foldr]. fold (cells_size (above key cs)).
    change (nodeSize _) with (cell_size c). pose proof (cell_size_nonneg c Hcok). lia.
Qed.
End inserts.

(** ** Replacing a value *)

Lemma linked_addrs h level cs cs' : c_addr <$> cs = c_addr <$> cs' -> forall a, linked h level a cs -> linked h level a cs'.
Proof.
  revert cs'. induction cs as [|c cs IH]; intros [|c' cs']; cbn; try done. intros [= He Hes] a [Ha Hl].
  rewrite He in *. split; [done|]. by apply IH.
Qed.
Definition revalued (value : bytes) (c : cell) : cell :=
  {| c_addr := c_addr c; c_key := c_key c; c_value := value; c_cap := Z.max (c_cap c) (len value); c_height := c_height c |}.
Lemma revalued_size value c : cell_ok c -> cell_size c <= cell_size (revalued value c) /\
  Z.min MaxUint64 (cell_size c + (Z.max (c_cap c) (len value) - c_cap c)) = cell_size (revalued value c).
Proof.
  intros Hc. unfold cell_size, nodeSize. rewrite !saturatingAdd_min. cbn [cell_node n_keyBytes n_cap n_next revalued c_height c_cap c_key].
  pose proof (ok_cap _ Hc). pose proof (len_nonneg (c_value c)). pose proof (len_nonneg (userKey (c_key c))).
  pose proof (u64_range (len (replicate (c_height c) (@None addr)) * wordBytes)) as [? _]. unfold nodeMetadataBytes, wordBytes in *. lia.
Qed.
Lemma heap_rep_revalue h lo c hi value next : heap_rep h (lo ++ c :: hi) -> h !! c_addr c = Some (cell_node c next) ->
  heap_rep (<[c_addr c := cell_node (revalued value c) next]> h) (lo ++ revalued value c :: hi).
Proof.
  intros Hr Hn. assert (c_addr <$> lo ++ revalued value c :: hi = c_addr <$> lo ++ c :: hi) as Haddrs by (by rewrite !fmap_app).
  pose proof (hr_addrs _ _ Hr) as Hnd. rewrite <- Permutation_middle in Hnd. cbn in Hnd. rewrite !NoDup_cons in Hnd. destruct Hnd as (Hh & Hc & Hnd).
  split.
  - destruct (hr_head _ _ Hr) as (n & ? & ?). exists n. rewrite lookup_insert_ne by set_solver. done.
  - intros d Hd. assert (d = revalued value c \/ d ∈ lo ++ hi) as [->|Hin] by set_solver.
    + exists next. rewrite lookup_insert_eq. split; [done|]. destruct (hr_cells _ _ Hr c) as (next' & He & Hlen); [set_solver|].
      cbn. rewrite Hn in He. unfold cell_node in He. by simplify_eq.
    + destruct (hr_cells _ _ Hr d) as (next' & ? & ?); [set_solver|]. exists next'. rewrite lookup_insert_ne; [done|].
      intros He. apply Hc. rewrite He. by apply list_elem_of_fmap_2.
  - rewrite Haddrs. apply Hr.
  - rewrite map_size_insert_Some by eauto. rewrite (hr_size _ _ Hr), !length_app. done.
Qed.
Lemma rep_revalue m lo c hi value next : rep m (lo ++ c :: hi) -> t_heap m !! c_addr c = Some (cell_node c next) ->
  rep {| t_heap := <[c_addr c := cell_node (revalued value c) next]> (t_heap m); t_random := t_random m;
         t_size := saturatingAdd (t_size m) (Z.max (c_cap c) (len value) - c_cap c);
         t_count := t_count m; t_height := t_height m; t_frozen := t_frozen m |} (lo ++ revalued value c :: hi).
Proof.
  intros Hr Hn. pose proof (rep_ok _ _ Hr) as Hok. rewrite Forall_app, Forall_cons in Hok. destruct Hok as (Hlo & Hc & Hhi).
  assert (Forall cell_ok (lo ++ revalued value c :: hi)) as Hok.
  { rewrite Forall_app, Forall_cons. split_and!; [done| |done]. split; cbn; [apply Hc|lia|apply Hc]. }
  split; cbn; [apply heap_rep_revalue; [apply Hr|done]|..|done| | |].
  - intros l Hl. apply linked_addrs with (tall l (lo ++ c :: hi)).
    { rewrite !tall_app, !tall_cons, !fmap_app. cbn. by case_decide. }
    eapply linked_ext; [|by apply Hr]. intros b _. unfold next_at. destruct (decide (b = c_addr c)) as [->|].
    + by rewrite lookup_insert_eq, Hn.
    + by rewrite lookup_insert_ne.
  - pose proof (rep_sorted _ _ Hr) as Hs. rewrite !StronglySorted_app, !StronglySorted_cons in *.
    destruct Hs as (Hx & Hsl & Hf & Hsh). split_and!; try done. intros x y Hx' [->|Hy]%elem_of_cons.
    + apply (Hx x c); [done|set_solver].
    + apply Hx; [done|set_solver].
  - rewrite (rep_height _ _ Hr), !table_height_app. done.
  - rewrite (rep_count _ _ Hr). unfold len. by rewrite !length_app.
  - rewrite (rep_size _ _ Hr), !table_size_min, saturatingAdd_min by (done || apply Hr).
    rewrite !cells_size_app. cbn [cells_size foldr]. destruct (revalued_size value c Hc). pose proof (cell_size_nonneg c Hc).
    pose proof (cells_size_nonneg _ Hlo). pose proof (cells_size_nonneg _ Hhi). assert (0 <= emptyTableBytes) by done. unfold cells_size in *. lia.
Qed.
Lemma replace_rep m lo c hi value : rep m (lo ++ c :: hi) ->
  exists m', replaceValueLocked (c_addr c) value m = Some m' /\ t_frozen m' = t_frozen m /\ rep m' (lo ++ revalued value c :: hi).
Proof.
  intros Hr. destruct (heap_rep_node _ _ c (rep_heap _ _ Hr)) as [next Hn]; [set_solver|].
  pose proof (rep_revalue m lo c hi value next Hr Hn) as Hrep. unfold cell_node, revalued in Hrep. cbn in Hrep.
  unfold replaceValueLocked. rewrite Hn. cbn [mbind option_bind cell_node n_cap]. destruct (Z.leb_spec (len value) (c_cap c)).
  - eexists. split; [done|]. split; [done|]. rewrite !Z.max_l, Z.sub_diag, saturatingAdd_min in Hrep by done.
    unfold set_value, revalued. cbn. rewrite Z.max_l by done. replace (Z.min _ _) with (t_size m) in Hrep; [done|].
    rewrite (rep_size _ _ Hr), table_size_min by apply Hr. lia.
  - eexists. split; [done|]. split; [done|]. unfold set_value, revalued. cbn. rewrite !Z.max_r in Hrep by lia.
    by rewrite Z.max_r by lia.
Qed.

(** ** Writes *)

Lemma put_above k v lo hi : Forall (fun e => key_lt e.1 k) lo -> put k v (lo ++ hi) = lo ++ put k v hi.
Proof.
  induction 1 as [|e lo He Hlo IH]; [done|]. cbn. rewrite (compare_antisym e.1 k). unfold key_lt in He. rewrite He. cbn. by rewrite IH.
Qed.
Lemma put_front k v hi : Forall (fun e => key_lt k e.1) hi -> put k v hi = (k, v) :: hi.
Proof. destruct 1 as [|e hi He Hhi]; [done|]. cbn. unfold key_lt in He. by rewrite He. Qed.
Lemma put_same k v w hi : put k v ((k, w) :: hi) = (k, v) :: hi.
Proof. cbn. by rewrite compare_refl. Qed.
Lemma entries_app xs ys : entries (xs ++ ys) = entries xs ++ entries ys.
Proof. apply fmap_app. Qed.
Lemma entries_Forall (P : InternalKey -> Prop) cs : Forall (fun c => P (c_key c)) cs -> Forall (fun e => P e.1) (entries cs).
Proof. intros H. apply Forall_fmap. eapply Forall_impl; [exact H|]. done. Qed.

Lemma put_entries key value cs hi : StronglySorted cell_lt cs -> put key value (entries (above key cs)) = hi ->
  put key value (entries cs) = entries (below key cs) ++ hi.
Proof.
  intros Hs <-. rewrite <- put_above by apply (entries_Forall (fun k => key_lt k key)), below_Forall.
  by rewrite <- entries_app, <- cut.
Qed.

Section writes.
Context (random : nat -> Z) (expensive : bool).

Lemma insert_new_spec m cs key value : rep m cs -> key_wf key ->
  match head (above key cs) with Some c => c_key c <> key | None => True end ->
  exists m', insert_new random key value (pred cs key <$> seq 0 (t_height m)) m = Some m' /\
    wf m' /\ t_frozen m' = t_frozen m /\ contents m' = put key value (entries cs).
Proof.
  intros Hr Hk Hne. destruct (insert_new_rep random m cs key value Hr Hk Hne) as (m' & Hm' & Hf & Hr').
  exists m'. split; [done|]. split; [by eexists|]. split; [done|]. rewrite (contents_rep _ _ Hr'), entries_app. symmetry.
  apply put_entries; [apply Hr|]. rewrite put_front; [done|]. apply (entries_Forall (key_lt key)), above_strict; [apply Hr|done].
Qed.
(** One insertion puts the pair into the contents. *)
Lemma insertLocked_spec m key value : wf m -> key_wf key ->
  exists m', insertLocked random key value m = Some m' /\ wf m' /\ t_frozen m' = t_frozen m /\ contents m' = put key value (contents m).
Proof.
  intros [cs Hr] Hk. unfold insertLocked. rewrite (lowerBound_spec m cs) by done.
  cbn -[seq insert_new]. rewrite (contents_rep m cs) by done. pose proof (insert_new_spec m cs key value Hr Hk) as Hnew.
  destruct (above key cs) as [|c hi] eqn:Ha; cbn -[seq insert_new]; [by apply Hnew|].
  destruct (heap_rep_node _ _ c (rep_heap _ _ Hr)) as [next Hn].
  { apply (above_subset key). rewrite Ha. constructor. }
  rewrite Hn. cbn -[seq insert_new]. destruct (CompareInternal (c_key c) key) eqn:Hc; [|apply Hnew; cbn; intros He; by rewrite He, compare_refl in Hc..].
  apply compare_eq in Hc. pose proof (rep_sorted _ _ Hr) as Hs. pose proof Hr as Hr0. rewrite (cut key cs), Ha in Hr0 by done.
  destruct (replace_rep m _ c hi value Hr0) as (m' & Hm' & Hf & Hr').
  exists m'. split; [done|]. split; [by eexists|]. split; [done|]. rewrite (contents_rep _ _ Hr'), entries_app. symmetry.
  apply put_entries; [done|]. rewrite Ha. cbn. by rewrite <- Hc, compare_refl.
Qed.
End writes.
