(* ===== verification/MemTableProps.v ===== *)
(** * What the MemTable promises

    On a table that satisfies the representation invariant of MemTableProofs.v
    no method panics or loops and [Validate] accepts; the writes refine the
    abstract table (a sorted store and a frozen flag), the reads are the
    reference reads of MvccStore.v, and the size accounting is exact up to
    saturation. *)

From S2P Require Import Prelude InternalKey Batch MvccStore MemTable MemTableProofs.
Import memtable.

(** ** Validate accepts *)

Lemma nodeSize_cell c next : length next = c_height c -> nodeSize (cell_node c next) = cell_size c.
Proof. intros Hl. unfold cell_size, nodeSize, cell_node. cbn. unfold len. by rewrite Hl, length_replicate. Qed.
(** A node may follow the previous one of the walk. *)
Definition follows (previous : option node) (cs : list cell) : Prop :=
  match previous with Some p => Forall (fun c => key_lt (n_key p) (c_key c)) cs | None => True end.
Lemma follows_ordered previous c cs next : follows previous (c :: cs) -> ordered_after previous (cell_node c next) = true.
Proof.
  unfold follows, ordered_after. destruct previous as [p|]; [|done]. intros [Hp _]%Forall_cons. unfold key_lt in Hp. cbn. by rewrite Hp.
Qed.

Lemma validate_zero_spec h cs : forall fuel v a, (forall c, c ∈ cs -> exists next, h !! c_addr c = Some (cell_node c next) /\ length next = c_height c) ->
  linked h 0 a cs -> NoDup (c_addr <$> cs) -> (forall c, c ∈ cs -> c_addr c ∉ v_seen v) -> Forall cell_ok cs ->
  follows (v_previous v) cs -> StronglySorted cell_lt cs -> (length cs < fuel)%nat -> (1 <= v_height v)%nat ->
  exists v', validate_zero fuel h (c_addr <$> head cs) v = Some v' /\ v_count v' = v_count v + len cs /\
    v_height v' = Nat.max (v_height v) (table_height cs) /\
    v_size v' = foldl (fun s c => saturatingAdd s (cell_size c)) (v_size v) cs /\
    (forall b, b ∈ v_seen v' <-> b ∈ v_seen v \/ b ∈ c_addr <$> cs).
Proof.
  induction cs as [|c cs IH]; intros [|fuel] v a Hh Hl Hnd Hseen Hok Hprev Hs Hf Hv; cbn [length] in Hf; try lia.
  { exists v. cbn. split_and!; [done|unfold len; cbn; lia|lia|done|]. intros b. set_solver. }
  cbn [validate_zero head fmap option_fmap option_map]. destruct (Hh c) as (next & Hn & Hlen); [constructor|]. rewrite Hn. cbn [mbind option_bind].
  rewrite bool_decide_eq_false_2 by (apply Hseen; constructor). cbn [negb assert mbind option_bind].
  apply Forall_cons in Hok as [Hc Hok]. pose proof (ok_height _ Hc).
  cbn [cell_node n_next n_keyBytes n_key]. rewrite (proj2 (Nat.leb_le 1 _)), (proj2 (Nat.leb_le _ maxHeight)), Z.eqb_refl by lia.
  cbn [andb assert mbind option_bind]. fold (cell_node c next). rewrite (follows_ordered _ _ _ _ Hprev). cbn [assert mbind option_bind].
  destruct Hl as [_ Hl]. rewrite (linked_next _ _ _ _ Hl). cbn [mbind option_bind]. apply StronglySorted_cons in Hs as [Hlt Hs].
  cbn in Hnd. apply NoDup_cons in Hnd as [Hnin Hnd].
  match goal with |- context [validate_zero fuel h _ ?v1] => destruct (IH fuel v1 (c_addr c)) as (v' & Hv' & Hcount & Hheight & Hsize & Hin) end;
    try done; cbn [v_seen v_previous v_height v_count v_size] in *; [..|lia|case_match; lia|].
  - intros d Hd. apply Hh. by right.
  - intros d Hd. rewrite not_elem_of_cons. split; [|apply Hseen; by right]. intros He. apply Hnin. rewrite <- He. by apply list_elem_of_fmap_2.
  - exists v'. split; [done|]. rewrite Hcount, Hheight, Hsize, len_cons, nodeSize_cell by done. split_and!; [lia| |done|].
    + change (table_height (c :: cs)) with (Nat.max (c_height c) (table_height cs)). rewrite Hlen.
      destruct (Nat.ltb_spec (v_height v) (c_height c)); lia.
    + intros b. rewrite Hin. cbn. set_solver.
Qed.
Lemma validate_level_spec h level zero cs : forall fuel seen previous a, (forall c, c ∈ cs -> exists next, h !! c_addr c = Some (cell_node c next) /\ length next = c_height c) ->
  linked h level a cs -> NoDup (c_addr <$> cs) -> (forall c, c ∈ cs -> c_addr c ∉ seen /\ c_addr c ∈ zero /\ (level < c_height c)%nat) ->
  follows previous cs -> StronglySorted cell_lt cs -> (length cs < fuel)%nat ->
  validate_level fuel h level zero seen previous (c_addr <$> head cs) = Some tt.
Proof.
  induction cs as [|c cs IH]; intros [|fuel] seen previous a Hh Hl Hnd Hc Hprev Hs Hf; cbn [length] in Hf; try lia; [done|].
  cbn [validate_level head fmap option_fmap option_map]. destruct (Hh c) as (next & Hn & Hlen); [constructor|]. rewrite Hn. cbn [mbind option_bind].
  destruct (Hc c) as (Hseen & Hzero & Hheight); [constructor|].
  rewrite (bool_decide_eq_false_2 (c_addr c ∈ seen)), (bool_decide_eq_true_2 (c_addr c ∈ zero)) by done.
  cbn [negb assert mbind option_bind cell_node n_next]. rewrite (proj2 (Nat.ltb_lt _ _)) by lia. cbn [assert mbind option_bind].
  fold (cell_node c next). rewrite (follows_ordered _ _ _ _ Hprev). cbn [assert mbind option_bind].
  destruct Hl as [_ Hl]. rewrite (linked_next _ _ _ _ Hl). cbn [mbind option_bind]. apply StronglySorted_cons in Hs as [Hlt Hs].
  cbn in Hnd. apply NoDup_cons in Hnd as [Hnin Hnd]. eapply IH; try done; [..|lia].
  - intros d Hd. apply Hh. by right.
  - intros d Hd. destruct (Hc d) as (? & ? & ?); [by right|]. split_and!; [|done..]. rewrite not_elem_of_cons. split; [|done].
    intros He. apply Hnin. rewrite <- He. by apply list_elem_of_fmap_2.
Qed.
Lemma validate_levels_spec m cs zero : rep m cs -> (forall b, b ∈ c_addr <$> cs -> b ∈ zero) ->
  forall levels level, (level + levels <= maxHeight)%nat -> validate_levels (heap_fuel m) (t_heap m) zero levels level = Some tt.
Proof.
  intros Hr Hz. induction levels as [|levels IH]; intros level Hle; cbn [validate_levels]; [done|].
  pose proof (rep_links _ _ Hr level ltac:(lia)) as Hl. rewrite (linked_next _ _ _ _ Hl). cbn [mbind option_bind].
  pose proof (rep_heap _ _ Hr) as Hhr. rewrite (validate_level_spec _ _ _ (tall level cs) _ _ _ head_addr); try done.
  - cbn [mbind option_bind]. apply IH. lia.
  - intros c Hc. apply (hr_cells _ _ Hhr). by apply (tall_subset level).
  - apply NoDup_fmap_filter. pose proof (hr_addrs _ _ Hhr) as Hnd. by apply NoDup_cons in Hnd as [_ ?].
  - intros c [Hc1 Hc2]%list_elem_of_filter. split_and!; [set_solver| |done]. apply Hz. by apply list_elem_of_fmap_2.
  - apply tall_sorted, Hr.
  - unfold heap_fuel. rewrite (hr_size _ _ Hhr). assert (length (tall level cs) <= length cs)%nat by apply length_filter. lia.
Qed.
Lemma validate_wf m : wf m -> validateLocked m = Some tt.
Proof.
  intros [cs Hr]. pose proof (rep_heap _ _ Hr) as Hhr. destruct (hr_head _ _ Hhr) as (n & Hn & Hlen). pose proof (rep_height_range _ _ Hr).
  unfold validateLocked. rewrite Hn. cbn [mbind option_bind]. rewrite Hlen, Nat.eqb_refl. cbn [assert mbind option_bind].
  rewrite (proj2 (Nat.leb_le 1 _)), (proj2 (Nat.leb_le _ maxHeight)) by lia. cbn [andb assert mbind option_bind].
  pose proof (rep_links _ _ Hr 0%nat ltac:(unfold maxHeight; lia)) as Hl. rewrite tall_zero in Hl by apply Hr.
  rewrite (linked_next _ _ _ _ Hl). cbn [mbind option_bind]. pose proof (hr_addrs _ _ Hhr) as Hnd. apply NoDup_cons in Hnd as [_ Hnd].
  match goal with |- context [validate_zero ?f ?h _ ?v0] =>
    destruct (validate_zero_spec h cs f v0 head_addr) as (v & Hv & Hc & Hh & Hs & Hin) end;
    [apply Hhr|done|done|cbn; set_solver|apply Hr|done|apply Hr| |cbn; lia|].
  { unfold heap_fuel. rewrite (hr_size _ _ Hhr). lia. }
  rewrite Hv. cbn [mbind option_bind v_count v_height v_size v_seen] in *.
  rewrite Hc, Hh, Hs, (rep_count _ _ Hr), (rep_height _ _ Hr), (rep_size _ _ Hr). rewrite Z.eqb_refl. cbn [assert mbind option_bind].
  rewrite Nat.max_r by (apply table_height_range, Hr). rewrite Nat.eqb_refl. cbn [assert mbind option_bind].
  unfold table_size. rewrite Z.eqb_refl. cbn [assert mbind option_bind].
  apply (validate_levels_spec m cs); [done| |unfold maxHeight; lia]. intros b Hb. apply Hin. by right.
Qed.

(** ** The abstract table: a sorted store and a frozen flag *)

Inductive mem_op :=
  | OpInsert (key : InternalKey) (value : bytes)
  | OpBatch (batch : WriteBatch)
  | OpVersion (version : Z) (ms : list Mutation)
  | OpFreeze.
Definition op_ok (op : mem_op) : Prop :=
  match op with
  | OpInsert key _ => key_wf key
  | OpBatch batch => is_u64 (FirstSequence batch)
  | OpVersion version _ => is_u64 version
  | OpFreeze => True
  end.
(** The first mutation that may not be stored, with its error. *)
Definition bad_mutation (mu : Mutation) : option mem_error :=
  if negb (kind_valid (mKind mu)) then Some (MemStorage [ErrInvalidValueKind])
  else if negb (CarriesValue (mKind mu)) && negb (len (mValue mu) =? 0) then Some ErrDeleteHasValue
  else None.
Definition first_bad (ms : list Mutation) : option mem_error := head (omap bad_mutation ms).
(** One mutation per consecutive sequence number. *)
Fixpoint put_seq (sequence : Z) (ms : list Mutation) (l : store) : store :=
  match ms with [] => l | mu :: ms' => put_seq (sequence + 1) ms' (put (version_key sequence mu) (mValue mu) l) end.

Definition abs_table : Type := store * bool.
Definition abs_write (bad : option mem_error) (write : store -> store) (t : abs_table) : abs_table * result mem_error unit :=
  match bad with
  | Some e => (t, Err e)
  | None => if t.2 then (t, Err ErrFrozen) else ((write t.1, t.2), Ok tt)
  end.
Definition abs_op (op : mem_op) (t : abs_table) : abs_table * result mem_error unit :=
  match op with
  | OpInsert key value =>
      if t.2 then (t, Err ErrFrozen)
      else if negb (CarriesValue (kind key)) && negb (len value =? 0) then (t, Err ErrDeleteHasValue)
      else ((put key value t.1, t.2), Ok tt)
  | OpBatch batch =>
      if len (Mutations batch) =? 0 then (t, Err (MemStorage [ErrEmptyBatch]))
      else if MaxUint64 <? FirstSequence batch + len (Mutations batch) - 1 then (t, Err (MemStorage [ErrSequenceOverflow]))
      else abs_write (first_bad (Mutations batch)) (put_seq (FirstSequence batch) (Mutations batch)) t
  | OpVersion version ms =>
      if len ms =? 0 then (t, Err (MemStorage [ErrEmptyBatch]))
      else abs_write (first_bad ms) (put_all version ms) t
  | OpFreeze => ((t.1, true), Ok tt)
  end.
Fixpoint abs_ops (ops : list mem_op) (t : abs_table) : abs_table * list (result mem_error unit) :=
  match ops with
  | [] => (t, [])
  | op :: ops' => let '(t, r) := abs_op op t in let '(t, rs) := abs_ops ops' t in (t, r :: rs)
  end.

Fixpoint seq_entries (sequence : Z) (ms : list Mutation) : list entry :=
  match ms with [] => [] | mu :: ms' => (version_key sequence mu, mValue mu) :: seq_entries (sequence + 1) ms' end.
Definition version_entries (version : Z) (ms : list Mutation) : list entry := (fun mu => (version_key version mu, mValue mu)) <$> ms.

Lemma first_bad_cons mu ms : first_bad (mu :: ms) = match bad_mutation mu with Some e => Some e | None => first_bad ms end.
Proof. unfold first_bad. cbn. by destruct (bad_mutation mu). Qed.
Lemma stage_one {A} mu sequence (k : InternalKey -> result mem_error A) :
  match NewInternalKey (mKey mu) sequence (mKind mu) with
  | Err e => Err (MemStorage e)
  | Ok key => if negb (CarriesValue (mKind mu)) && negb (len (mValue mu) =? 0) then Err ErrDeleteHasValue else k key
  end = match bad_mutation mu with Some e => Err e | None => k (version_key sequence mu) end.
Proof.
  unfold NewInternalKey, bad_mutation. rewrite require_bind. destruct (kind_valid (mKind mu)); cbn; [|done].
  by destruct (CarriesValue (mKind mu)), (len (mValue mu) =? 0).
Qed.
Lemma stage_version_spec version ms : stage_version version ms =
  match first_bad ms with Some e => Err e | None => Ok (version_entries version ms) end.
Proof.
  induction ms as [|mu ms IH]; [done|]. cbn [stage_version]. rewrite stage_one, first_bad_cons.
  destruct (bad_mutation mu); [done|]. rewrite IH. by destruct (first_bad ms).
Qed.
Lemma stage_batch_spec ms : forall sequence, 0 <= sequence -> (ms = [] \/ sequence + len ms - 1 <= MaxUint64) -> stage_batch sequence ms =
  match first_bad ms with Some e => Err e | None => Ok (seq_entries sequence ms) end.
Proof.
  induction ms as [|mu ms IH]; intros sequence Hs Hle; [done|]. cbn [stage_batch]. rewrite stage_one, first_bad_cons.
  destruct (bad_mutation mu); [done|]. destruct Hle as [|Hle]; [done|]. rewrite len_cons in Hle. pose proof (len_nonneg ms).
  destruct ms as [|mu' ms]; [done|]. rewrite len_cons in *. pose proof (len_nonneg ms).
  rewrite u64_id by (unfold is_u64, MaxUint64, two64 in *; lia). rewrite IH; [|lia|right; lia]. by destruct (first_bad _).
Qed.
Lemma bad_kind mu : bad_mutation mu = None -> kind_valid (mKind mu) = true.
Proof. unfold bad_mutation. by destruct (kind_valid _). Qed.
Lemma version_entries_wf version ms : is_u64 version -> first_bad ms = None -> Forall (fun e => key_wf e.1) (version_entries version ms).
Proof.
  intros Hv. induction ms as [|mu ms IH]; [constructor|]. rewrite first_bad_cons. destruct (bad_mutation mu) eqn:Hb; [done|].
  intros H. constructor; [|by apply IH]. split; [done|by apply bad_kind].
Qed.
Lemma seq_entries_wf ms : forall sequence, 0 <= sequence -> sequence + len ms - 1 <= MaxUint64 -> first_bad ms = None ->
  Forall (fun e => key_wf e.1) (seq_entries sequence ms).
Proof.
  induction ms as [|mu ms IH]; intros sequence Hs Hle; [constructor|]. rewrite first_bad_cons, len_cons in *. pose proof (len_nonneg ms).
  destruct (bad_mutation mu) eqn:Hb; [done|]. intros H'. constructor; [|apply IH; [lia..|done]].
  split; [cbn; unfold is_u64, MaxUint64, two64 in *; lia|by apply bad_kind].
Qed.
Definition puts (es : list entry) (l : store) : store := foldl (fun l e => put e.1 e.2 l) l es.
Lemma puts_version version ms : forall l, puts (version_entries version ms) l = put_all version ms l.
Proof. induction ms as [|mu ms IH]; intros l; [done|]. apply IH. Qed.
Lemma puts_seq ms : forall sequence l, puts (seq_entries sequence ms) l = put_seq sequence ms l.
Proof. induction ms as [|mu ms IH]; intros sequence l; [done|]. apply IH. Qed.

(** ** Every operation refines the abstract one *)

Section operations.
Context (random : nat -> Z) (expensive : bool).

Definition run_op (op : mem_op) (m : MemTable) : option (MemTable * result mem_error unit) :=
  match op with
  | OpInsert key value => Insert random expensive key value m
  | OpBatch batch => ApplyBatch random expensive batch m
  | OpVersion version ms => ApplyVersion random expensive version ms m
  | OpFreeze => m ← Freeze expensive m; Some (m, Ok tt)
  end.
Fixpoint run_ops (ops : list mem_op) (m : MemTable) : option (MemTable * list (result mem_error unit)) :=
  match ops with
  | [] => Some (m, [])
  | op :: ops' => '(m, r) ← run_op op m; '(m, rs) ← run_ops ops' m; Some (m, r :: rs)
  end.
Definition abs_of (m : MemTable) : abs_table := (contents m, t_frozen m).

Lemma validated m : wf m -> validateIfEnabledLocked expensive m = Some tt.
Proof. intros Hwf. unfold validateIfEnabledLocked. destruct expensive; [by apply validate_wf|done]. Qed.
Lemma insert_all_spec es : forall m, wf m -> Forall (fun e => key_wf e.1) es ->
  exists m', insert_all random es m = Some m' /\ wf m' /\ abs_of m' = (puts es (contents m), t_frozen m).
Proof.
  induction es as [|e es IH]; intros m Hwf Hes; [by exists m|]. apply Forall_cons in Hes as [He Hes].
  destruct (insertLocked_spec random m e.1 e.2 Hwf He) as (m1 & Hm1 & Hwf1 & Hf1 & Hc1). cbn [insert_all]. rewrite Hm1. cbn [mbind option_bind].
  destruct (IH m1 Hwf1 Hes) as (m2 & Hm2 & Hwf2 & Ha2). exists m2. split_and!; [done..|]. by rewrite Ha2, Hc1, Hf1.
Qed.
Lemma apply_staged_spec bad es write m : wf m -> (bad = None -> Forall (fun e => key_wf e.1) es) -> (forall l, puts es l = write l) ->
  exists m', apply_staged random expensive (match bad with Some e => Err e | None => Ok es end) m = Some (m', snd (abs_write bad write (abs_of m))) /\
    wf m' /\ abs_of m' = fst (abs_write bad write (abs_of m)).
Proof.
  intros Hwf Hes Hw. destruct bad as [e|]; [by exists m|]. unfold apply_staged, abs_write. cbn [snd abs_of].
  destruct (t_frozen m) eqn:Hf; [by exists m|]. destruct (insert_all_spec es m Hwf (Hes eq_refl)) as (m' & Hm' & Hwf' & Ha').
  exists m'. rewrite Hm'. cbn [mbind option_bind]. rewrite validated by done. cbn. split_and!; [done..|]. by rewrite Ha', Hw, Hf.
Qed.

Lemma mem_op_spec op m : wf m -> op_ok op ->
  exists m', run_op op m = Some (m', snd (abs_op op (abs_of m))) /\ wf m' /\ abs_of m' = fst (abs_op op (abs_of m)).
Proof.
  intros Hwf Hok. destruct op as [key value|batch|version ms|]; cbn [run_op abs_op op_ok] in *.
  - unfold Insert. cbn [abs_of snd]. destruct (t_frozen m) eqn:Hf; [by exists m|]. destruct (_ && _); [exists m; unfold abs_of; by rewrite Hf|].
    destruct (insertLocked_spec random m key value Hwf Hok) as (m' & Hm' & Hwf' & Hf' & Hc').
    exists m'. rewrite Hm'. cbn [mbind option_bind]. rewrite validated by done. cbn. split_and!; [done..|]. unfold abs_of. by rewrite Hc', Hf', Hf.
  - unfold ApplyBatch. destruct (Z.eqb_spec (len (Mutations batch)) 0); [by exists m|].
    replace (MaxUint64 - (len (Mutations batch) - 1) <? FirstSequence batch) with (MaxUint64 <? FirstSequence batch + len (Mutations batch) - 1)
      by (destruct (Z.ltb_spec MaxUint64 (FirstSequence batch + len (Mutations batch) - 1)); symmetry; [apply Z.ltb_lt|apply Z.ltb_ge]; lia).
    destruct (Z.ltb_spec MaxUint64 (FirstSequence batch + len (Mutations batch) - 1)); [by exists m|]. destruct Hok as [Hpos _].
    rewrite stage_batch_spec by (done || (right; lia)).
    apply apply_staged_spec; [done|by apply seq_entries_wf|apply puts_seq].
  - unfold ApplyVersion. destruct (len ms =? 0); [by exists m|]. rewrite stage_version_spec.
    apply apply_staged_spec; [done|by apply version_entries_wf|apply puts_version].
  - set (m' := {| t_heap := t_heap m; t_random := t_random m; t_size := t_size m; t_count := t_count m; t_height := t_height m; t_frozen := true |}).
    assert (wf m') as Hwf' by (destruct Hwf as [cs [? ? ? ? ? ? ?]]; by exists cs).
    exists m'. unfold Freeze. fold m'. rewrite validated by done. done.
Qed.
Lemma mem_ops_spec ops : forall m, wf m -> Forall op_ok ops ->
  exists m', run_ops ops m = Some (m', snd (abs_ops ops (abs_of m))) /\ wf m' /\ abs_of m' = fst (abs_ops ops (abs_of m)).
Proof.
  induction ops as [|op ops IH]; intros m Hwf Hok; [by exists m|]. apply Forall_cons in Hok as [Hop Hok].
  destruct (mem_op_spec op m Hwf Hop) as (m1 & Hm1 & Hwf1 & Ha1). destruct (IH m1 Hwf1 Hok) as (m2 & Hm2 & Hwf2 & Ha2).
  exists m2. cbn [run_ops abs_ops]. rewrite Hm1. cbn [mbind option_bind]. rewrite Hm2, Ha1 in *. cbn [mbind option_bind].
  destruct (abs_op op (abs_of m)) as [t r]. cbn [fst snd] in *. destruct (abs_ops ops t) as [t' rs]. done.
Qed.
End operations.

Lemma new_wf : wf newWithRandom.
Proof.
  exists []. split; try done; [| |constructor].
  - split; [by eexists|intros c Hc; by apply not_elem_of_nil in Hc|apply NoDup_singleton|apply map_size_singleton].
  - intros l Hl. change (tall l []) with (@nil cell). cbn [linked]. unfold next_at, newWithRandom, t_heap.
    rewrite lookup_singleton_eq. cbn [mbind option_bind n_next]. by apply lookup_replicate_2.
Qed.
Lemma new_abs : abs_of newWithRandom = ([], false).
Proof. done. Qed.

(** C16. Whatever sequence of inserts, batches, versioned batches and freezes is
    applied to a new table, whatever the random heights, and with or without
    the expensive validation, no operation panics or loops, and the results
    and the final contents are those of the abstract table: a sorted store
    with a frozen flag, where a batch is validated completely before any of
    it is stored. *)
Theorem memtable_refines random expensive ops : Forall op_ok ops ->
  exists m, run_ops random expensive ops newWithRandom = Some (m, (abs_ops ops ([], false)).2) /\
    wf m /\ (contents m, t_frozen m) = (abs_ops ops ([], false)).1.
Proof. intros Hok. rewrite <- new_abs. by apply mem_ops_spec; [apply new_wf|]. Qed.

(** ** Reads *)

(** The entries a direct iterator of a frozen table returns before it is
    exhausted. *)
Fixpoint frozen_walk (fuel : nat) (h : gmap addr node) (it : FrozenIterator) : option (list entry) :=
  match fuel with
  | O => None
  | S fuel' =>
      match frozen_Next h it with
      | None => None
      | Some (it, true) => e ← frozen_Entry h it; rest ← frozen_walk fuel' h it; Some (option_list e ++ rest)
      | Some (_, false) => Some []
      end
  end.
(** The entries a snapshot iterator returns before it is exhausted. *)
Fixpoint walk (fuel : nat) (it : Iterator) : option (list entry) :=
  match fuel with
  | O => None
  | S fuel' =>
      let '(it, more) := Next it in
      if more then e ← Entry it; rest ← walk fuel' it; Some (option_list e ++ rest) else Some []
  end.

Definition table_walk (m : MemTable) : option (result mem_error (list entry)) :=
  match FrozenIterator_ m with
  | Err e => Some (Err e)
  | Ok it => es ← frozen_walk (heap_fuel m) (t_heap m) it; Some (Ok es)
  end.

Lemma frozen_walk_spec h cs : forall fuel a v, (forall c, c ∈ cs -> exists next, h !! c_addr c = Some (cell_node c next)) ->
  linked h 0 a cs -> (length cs < fuel)%nat -> frozen_walk fuel h {| f_current := Some a; f_valid := v |} = Some (entries cs).
Proof.
  induction cs as [|c cs IH]; intros [|fuel] a v Hc Hl Hf; cbn [length] in Hf; try lia; cbn [frozen_walk]; unfold frozen_Next; cbn [f_current].
  - cbn in Hl. by rewrite Hl.
  - destruct Hl as [Ha Hl]. rewrite Ha. cbn [mbind option_bind]. unfold frozen_Entry. cbn [f_valid f_current mbind option_bind].
    destruct (Hc c) as [next Hn]; [constructor|]. rewrite Hn. cbn [mbind option_bind]. rewrite IH; [done| |done|lia].
    intros d Hd. apply Hc. by right.
Qed.
Lemma walk_spec es : forall fuel i v, (0 <= i <= length es)%nat -> (length es - i < fuel)%nat ->
  walk fuel {| it_entries := es; it_index := Z.of_nat i - 1; it_valid := v |} = Some (drop i es).
Proof.
  induction fuel as [|fuel IH]; intros i v Hi Hf; [lia|]. cbn [walk]. unfold Next. cbn [it_entries it_index].
  destruct (Z.leb_spec (len es) (Z.of_nat i - 1)); [unfold len in *; lia|].
  replace (Z.of_nat i - 1 + 1) with (Z.of_nat i) by lia. destruct (Z.ltb_spec (Z.of_nat i) (len es)).
  - unfold Entry. cbn [it_valid it_index it_entries]. rewrite (proj2 (Z.ltb_ge _ _)), Nat2Z.id by lia.
    destruct (lookup_lt_is_Some_2 es i) as [e He]; [unfold len in *; lia|]. rewrite He. cbn [mbind option_bind].
    replace (Z.of_nat i) with (Z.of_nat (S i) - 1) at 1 by lia. rewrite IH by (unfold len in *; lia). cbn. f_equal. symmetry. by apply drop_S.
  - rewrite drop_ge by (unfold len in *; lia). done.
Qed.
Lemma contents_ok m cs : rep m cs -> store_sorted (contents m) /\ Forall (fun e => key_wf e.1) (contents m).
Proof.
  intros Hr. rewrite (contents_rep m cs) by done. split; [apply entries_sorted, Hr|]. apply entries_Forall.
  eapply Forall_impl; [apply Hr|]. intros c Hc. apply Hc.
Qed.
Lemma Range_spec m cs start endKey : rep m cs ->
  Range start endKey m = Some (
    if invalid_range start endKey then Err ErrInvalidRange
    else Ok (newIterator (filter (in_range start endKey) (contents m)))).
Proof.
  intros Hr. destruct (contents_ok m cs Hr) as [Hs Hwf]. pose proof (range_filter start endKey _ Hs Hwf) as Hf.
  pose proof (snapshot_all m cs endKey Hr) as Hall. unfold Range. destruct (invalid_range start endKey); [done|].
  rewrite (contents_rep m cs) in * by done. destruct start as [s|].
  - destruct (next_at (t_heap m) head_addr 0) as [first|]; [|done]. cbn -[seq snapshotLocked].
    change {| userKey := s; sequence := MaxUint64; kind := KindDelete |} with (seek_key s MaxUint64).
    rewrite (lowerBound_spec m cs) by done. cbn -[seq snapshotLocked]. rewrite (snapshot_above m cs) by done.
    rewrite entries_above by apply Hr. cbn. by rewrite Hf.
  - destruct (next_at (t_heap m) head_addr 0) as [first|]; [|done]. cbn -[snapshotLocked] in *. rewrite Hall. cbn. by rewrite Hf.
Qed.

Lemma GetCandidate_contents m user target : wf m -> GetCandidate user target m = Some (candidate user target (contents m)).
Proof.
  intros [cs Hr]. unfold GetCandidate. cbn. change {| userKey := user; sequence := target; kind := KindDelete |} with (seek_key user target).
  rewrite (lower_entry_spec m cs) by done. cbn. rewrite candidate_lower_bound; [done|]. by apply (contents_ok m cs).
Qed.

(** C30. On a reachable table every read returns what the reference read of the
    sorted contents returns: the exact entry, the lower bound, the newest
    version at or below a target, the entries from a key on, the entries of a
    user-key range (or [ErrInvalidRange]); and a frozen table, walked node by
    node, lists its contents. *)
Theorem memtable_reads m key user target start endKey : wf m ->
  Get key m = Some ((fun v => (key, v)) <$> get key (contents m)) /\
  Seek key m = Some (head (lower_bound key (contents m))) /\
  GetCandidate user target m = Some (candidate user target (contents m)) /\
  (it ← IteratorFrom key m; walk (S (length (it_entries it))) it) = Some (lower_bound key (contents m)) /\
  Range start endKey m = Some (
    if invalid_range start endKey then Err ErrInvalidRange
    else Ok (newIterator (filter (in_range start endKey) (contents m)))) /\
  table_walk m = Some (if t_frozen m then Ok (contents m) else Err ErrNotFrozen).
Proof.
  intros [cs Hr]. destruct (contents_ok m cs Hr) as [Hs Hwf]. split_and!.
  - unfold Get. rewrite (lower_entry_spec m cs) by done. cbn. by rewrite get_lower_bound.
  - unfold Seek. by apply (lower_entry_spec m cs).
  - apply GetCandidate_contents. by exists cs.
  - unfold IteratorFrom. rewrite (lowerBound_spec m cs) by done. cbn -[seq snapshotLocked walk]. rewrite (snapshot_above m cs) by done.
    rewrite upto_None, entries_above, <- (contents_rep m cs) by (done || apply Hr). cbn -[walk].
    apply (walk_spec (lower_bound key (contents m)) _ 0); cbn; lia.
  - by apply (Range_spec m cs).
  - unfold table_walk, FrozenIterator_. destruct (t_frozen m); [|done]. rewrite (contents_rep m cs) by done.
    rewrite (frozen_walk_spec _ cs); [done|..].
    + intros c Hc. eapply heap_rep_node; [apply Hr|done].
    + pose proof (rep_links _ _ Hr 0%nat ltac:(unfold maxHeight; lia)) as Hl. by rewrite tall_zero in Hl by apply Hr.
    + unfold heap_fuel. rewrite (hr_size _ _ (rep_heap _ _ Hr)). lia.
Qed.

(** ** Size accounting *)

(** The bytes the table owns for its entries, at least. *)
Definition payload (l : store) : Z :=
  foldr (fun e => Z.add (nodeMetadataBytes + wordBytes + len (userKey e.1) + len e.2)) 0 l.
Lemma payload_size cs : Forall cell_ok cs -> Z.min MaxUint64 (payload (entries cs)) <= Z.min MaxUint64 (cells_size cs).
Proof.
  induction 1 as [|c cs Hc Hcs IH]; [done|].
  change (payload (entries (c :: cs))) with (nodeMetadataBytes + wordBytes + len (userKey (c_key c)) + len (c_value c) + payload (entries cs)).
  change (cells_size (c :: cs)) with (cell_size c + cells_size cs). pose proof (ok_cap _ Hc) as Hcap. pose proof (ok_height _ Hc) as Hh.
  pose proof (cells_size_nonneg cs Hcs). pose proof (len_nonneg (c_value c)). pose proof (len_nonneg (userKey (c_key c))).
  assert (Z.min MaxUint64 (nodeMetadataBytes + wordBytes + len (userKey (c_key c)) + len (c_value c)) <= cell_size c) as Hs.
  { unfold cell_size, nodeSize. rewrite !saturatingAdd_min. cbn [cell_node n_keyBytes n_cap n_next].
    assert (len (replicate (c_height c) (@None addr)) = Z.of_nat (c_height c)) as -> by (unfold len; by rewrite length_replicate).
    rewrite u64_id; [unfold nodeMetadataBytes, wordBytes in *; lia|unfold is_u64, wordBytes, maxHeight in *; lia]. }
  pose proof MaxUint64_pos. unfold nodeMetadataBytes, wordBytes in *. lia.
Qed.
Lemma nodeSize_nonneg n : 0 <= n_keyBytes n -> 0 <= n_cap n -> 0 <= nodeSize n.
Proof.
  intros. unfold nodeSize. rewrite !saturatingAdd_min. pose proof (u64_range (len (n_next n) * wordBytes)) as [? _].
  pose proof MaxUint64_pos. unfold nodeMetadataBytes, wordBytes in *. lia.
Qed.
Section sizes.
Context (random : nat -> Z) (expensive : bool).
Lemma insert_new_grows key value preds m m' : t_size m <= MaxUint64 ->
  insert_new random key value preds m = Some m' -> t_size m <= t_size m' <= MaxUint64.
Proof.
  intros Hm. unfold insert_new. destruct (cloneKey key) as [[k kb]|] eqn:Hk; [|done]. cbn -[nodeSize].
  destruct (link_levels _ _ _ _ _) as [h|]; [|done]. cbn -[nodeSize]. intros [= <-]. cbn -[nodeSize]. rewrite saturatingAdd_min.
  match goal with |- context [nodeSize ?n] => pose proof (nodeSize_nonneg n) as Hn end. cbn -[nodeSize] in Hn.
  pose proof (len_nonneg value). assert (0 <= kb); [|lia]. unfold cloneKey in Hk. destruct (NewInternalKey _ _ _); [|done].
  injection Hk as _ <-. apply len_nonneg.
Qed.
Lemma insertLocked_grows key value m m' : t_size m <= MaxUint64 ->
  insertLocked random key value m = Some m' -> t_size m <= t_size m' <= MaxUint64.
Proof.
  intros Hm. unfold insertLocked. destruct (lowerBoundLocked m key) as [[[c|] preds]|]; cbn -[insert_new]; [|by apply insert_new_grows|done].
  destruct (t_heap m !! c) as [n|] eqn:Hn; [|done]. cbn -[insert_new]. destruct (CompareInternal _ _); [|by apply insert_new_grows..].
  unfold replaceValueLocked. rewrite Hn. cbn. intros [= <-]. destruct (Z.leb_spec (len value) (n_cap n)); cbn; [done|].
  rewrite saturatingAdd_min. lia.
Qed.
Lemma insert_all_grows es : forall m m', t_size m <= MaxUint64 -> insert_all random es m = Some m' -> t_size m <= t_size m' <= MaxUint64.
Proof.
  induction es as [|e es IH]; intros m m' Hm; cbn [insert_all]; [intros [= <-]; done|].
  destruct (insertLocked random e.1 e.2 m) as [m1|] eqn:Hm1; [|done]. cbn [mbind option_bind]. intros Hm'.
  apply insertLocked_grows in Hm1; [|done]. apply IH in Hm'; [|lia]. lia.
Qed.
Lemma apply_staged_grows staged m m' r : t_size m <= MaxUint64 ->
  apply_staged random expensive staged m = Some (m', r) -> t_size m <= t_size m' <= MaxUint64.
Proof.
  intros Hm. unfold apply_staged. destruct staged as [es|]; [|intros [= <- _]; done]. destruct (t_frozen m); [intros [= <- _]; done|].
  destruct (insert_all random es m) as [m1|] eqn:Hm1; [|done]. cbn [mbind option_bind]. destruct (validateIfEnabledLocked expensive m1); [|done].
  intros [= <- _]. by apply insert_all_grows in Hm1.
Qed.
Lemma run_op_grows op m m' r : t_size m <= MaxUint64 -> run_op random expensive op m = Some (m', r) -> t_size m <= t_size m' <= MaxUint64.
Proof.
  intros Hm. destruct op as [key value|batch|version ms|]; cbn [run_op].
  - unfold Insert. repeat case_match; try (intros [= <- _]; done). destruct (insertLocked random key value m) as [m1|] eqn:Hm1; [|done].
    cbn [mbind option_bind]. destruct (validateIfEnabledLocked expensive m1); [|done]. intros [= <- _]. by apply insertLocked_grows in Hm1.
  - unfold ApplyBatch. repeat case_match; try (intros [= <- _]; done). by apply apply_staged_grows.
  - unfold ApplyVersion. repeat case_match; try (intros [= <- _]; done). by apply apply_staged_grows.
  - unfold Freeze. match goal with |- context [validateIfEnabledLocked expensive ?m1] => destruct (validateIfEnabledLocked expensive m1) end; [|done].
    intros [= <- _]. done.
Qed.

(** C31. The size accounting of the table: after any operation the count is the
    number of distinct internal keys, the size saturates at [MaxUint64] instead
    of wrapping, is at least the bytes of the keys and values held plus the
    fixed overhead, and never shrinks, so a table that reached its target size
    stays there. *)
Theorem memtable_size op m m' r target : wf m -> op_ok op -> run_op random expensive op m = Some (m', r) ->
  t_count m' = len (contents m') /\
  Z.min MaxUint64 (emptyTableBytes + payload (contents m')) <= t_size m' <= MaxUint64 /\
  t_size m <= t_size m' /\ (ReachedSize target m = true -> ReachedSize target m' = true).
Proof.
  intros Hwf Hok Hrun. destruct (mem_op_spec random expensive op m Hwf Hok) as (m1 & Hm1 & [cs Hr] & _). rewrite Hrun in Hm1. injection Hm1 as <- _.
  assert (t_size m <= t_size m' <= MaxUint64) as [Hgrow Hmax].
  { apply (run_op_grows op m m' r); [|done]. destruct Hwf as [cs0 Hr0]. rewrite (rep_size _ _ Hr0), table_size_min by apply Hr0. lia. }
  rewrite (contents_rep _ _ Hr), (rep_count _ _ Hr). unfold ReachedSize. rewrite !Z.leb_le.
  pose proof (payload_size cs (rep_ok _ _ Hr)). assert (0 <= emptyTableBytes) by done.
  split_and!; [unfold len, entries; by rewrite length_fmap| |done|done|lia].
  rewrite (rep_size _ _ Hr), table_size_min by apply Hr. lia.
Qed.
End sizes.

(** ** A concrete table *)

Module Example.
Definition ukey : bytes := [Byte.x6b].
Definition batch : list Mutation := [{| mKey := ukey; mValue := [Byte.x76]; mKind := KindValue |}; {| mKey := [Byte.x61]; mValue := []; mKind := KindDelete |}].
Definition ops : list mem_op := [OpVersion 7 batch; OpVersion 5 batch; OpInsert {| userKey := ukey; sequence := 7; kind := KindValue |} [Byte.x77]; OpFreeze].
(** Draws that give heights 1, 2, 3, 1, ... *)
Definition draws (n : nat) : Z := match (n mod 3)%nat with O => 1 | S O => 4 | _ => 16 end.
Definition table : MemTable := match run_ops draws true ops newWithRandom with Some (m, _) => m | None => newWithRandom end.
Lemma ops_ok : Forall op_ok ops.
Proof. repeat constructor; try done; vm_compute; congruence. Qed.
Lemma table_wf : wf table.
Proof.
  destruct (mem_ops_spec draws true ops newWithRandom new_wf ops_ok) as (m & Hm & Hwf & _). unfold table. by rewrite Hm.
Qed.
End Example.
Import Example.

Lemma memtable_refines_witness : exists m, run_ops draws true ops newWithRandom = Some (m, [Ok tt; Ok tt; Ok tt; Ok tt]) /\
  (length (contents m), t_frozen m) = (4%nat, true).
Proof.
  destruct (memtable_refines draws true ops ops_ok) as (m & Hm & _ & Ha). exists m. split; [exact Hm|].
  injection Ha as -> ->. vm_compute. reflexivity.
Defined.
Lemma memtable_reads_witness : GetCandidate ukey 6 table = Some (Some ({| userKey := ukey; sequence := 5; kind := KindValue |}, [Byte.x76])) /\
  length (contents table) = 4%nat.
Proof.
  destruct (memtable_reads table {| userKey := ukey; sequence := 7; kind := KindValue |} ukey 6 None None table_wf) as (_ & _ & Hc & _).
  rewrite Hc. split; vm_compute; reflexivity.
Defined.
Lemma memtable_size_witness : exists m', run_op draws true (OpInsert {| userKey := ukey; sequence := 9; kind := KindValue |} [Byte.x77]) newWithRandom = Some (m', Ok tt) /\
  t_count m' = len (contents m').
Proof.
  eexists. split; [vm_compute; reflexivity|].
  refine (proj1 (memtable_size draws true (OpInsert {| userKey := ukey; sequence := 9; kind := KindValue |} [Byte.x77]) newWithRandom _ (Ok tt) 0 new_wf _ _));
    [split; [split; [done|reflexivity]|reflexivity]|vm_compute; reflexivity].
Defined.
