(* ===== verification/SSTable.v ===== *)
(** * Sorted tables: physical format (storage/sstable)

    Constants and handles (format.go), the prefix-compressed data block
    builder (block.go), the Bloom filter (bloom.go) and the decoders
    (decoder.go).  The writer is in SSTableWriter.v and the reader in
    SSTableReader.v. *)

From S2P Require Import Prelude Varint InternalKey Crc32c Codec MvccStore.

Module sstable.

(** errors.go; [ErrIO] stands for an error of the file system, [ErrShortWrite]
    and [ErrUnexpectedEOF] for those of package io. *)
Inductive sst_error :=
  | ErrInvalidFileNumber | ErrInvalidOptions | ErrFileExists | ErrOutOfOrder | ErrDuplicateKey
  | ErrDeleteHasValue | ErrKeyTooLarge | ErrValueTooLarge | ErrEntryTooLarge | ErrTableTooLarge
  | ErrTooManyBlocks | ErrEmptyTable | ErrWriterFailed | ErrFinished | ErrAborted | ErrCorruptTable
  | ErrChecksum | ErrUnsupportedVersion | ErrInvalidHandle | ErrInvalidBlock | ErrClosed | ErrNotFound
  | ErrInvalidRange | ErrResourceLimit | ErrIO | ErrShortWrite | ErrUnexpectedEOF.
#[export] Instance sst_error_eq_dec : EqDecision sst_error.
Proof. solve_decision. Defined.
Abbreviation errors := (list sst_error).
Abbreviation res := (result errors).
(** [corrupt] *)
Definition corrupt (class : sst_error) : errors := [ErrCorruptTable; class].

(** ** format.go *)

Definition FormatVersion : Z := 1.
Definition FooterSize : Z := 80.
Definition BlockTrailerSize : Z := 7.
Definition DefaultBlockSize : Z := Z.shiftl 4 10.
Definition DefaultRestartInterval : Z := 16.
Definition MaxUserKeySize : Z := Z.shiftl 1 20.
Definition MaxInternalKeySize : Z := MaxUserKeySize + 9.
Definition MaxValueSize : Z := Z.shiftl 64 20.
Definition MaxEntrySize : Z := MaxInternalKeySize + MaxValueSize + 30.
Definition MaxDataBlockSize : Z := MaxEntrySize + 8.
Definition MaxInt64 : Z := 2 ^ 63 - 1.
Definition MaxTableSize : Z := MaxInt64.
Definition MaxFileNumber : Z := 999999999999.
Definition compressionNone : Z := 0.
Definition blockVersion : Z := 1.
Definition footerFilterPresentFlag : Z := 1.
(** Little-endian bytes that spell RIVETSST. *)
Definition fileMagic : Z := 0x5453535445564952.

(** [type blockKind byte] *)
Inductive blockKind := blockData | blockIndex | blockMetadata | blockFilter.
Definition kind_byte (k : blockKind) : Z :=
  match k with blockData => 1 | blockIndex => 2 | blockMetadata => 3 | blockFilter => 4 end.

Record BlockHandle := { Offset : Z; Length : Z }.
#[export] Instance BlockHandle_eq_dec : EqDecision BlockHandle.
Proof. solve_decision. Defined.
Definition no_handle : BlockHandle := {| Offset := 0; Length := 0 |}.

(** The trailer before its checksum. *)
Definition block_tag (kind : blockKind) : bytes :=
  [byte.of_Z compressionNone; byte.of_Z (kind_byte kind); byte.of_Z blockVersion].
Definition appendBlockTrailer (payload : bytes) (kind : blockKind) : bytes :=
  let result := payload ++ block_tag kind in
  result ++ le_put 4 (crc32_checksum result).

(** The footer before and after its checksum field. *)
Definition footer_head (index metadata filter : BlockHandle) (dataEnd : Z) : bytes :=
  le_put 8 (Offset index) ++ le_put 8 (Length index) ++ le_put 8 (Offset metadata) ++ le_put 8 (Length metadata) ++
  le_put 8 (Offset filter) ++ le_put 8 (Length filter) ++ le_put 8 dataEnd ++ le_put 4 FormatVersion ++
  le_put 4 (if Length filter =? 0 then 0 else footerFilterPresentFlag) ++ le_put 4 0.
Definition footer_magic : bytes := le_put 8 fileMagic.
Definition encodeFooter (index metadata filter : BlockHandle) (dataEnd : Z) : bytes :=
  let head := footer_head index metadata filter dataEnd in
  head ++ le_put 4 (crc32_update (crc32_checksum head) footer_magic) ++ footer_magic.

(** [checkedAdd]: [None] is [false] *)
Definition checkedAdd (left right : Z) : option Z := if MaxUint64 - left <? right then None else Some (left + right).

(** ** block.go *)

Fixpoint commonPrefix (left right : bytes) : nat :=
  match left, right with
  | x :: left', y :: right' => if decide (x = y) then S (commonPrefix left' right') else O
  | _, _ => O
  end.
(** [uvarintLen]; nine shifts are enough for any [uint64]. *)
Fixpoint uvarint_len_loop (fuel : nat) (value length : Z) : Z :=
  match fuel with
  | O => length
  | S fuel' => if 0x80 <=? value then uvarint_len_loop fuel' (Z.shiftr value 7) (length + 1) else length
  end.
Definition uvarintLen (value : Z) : Z := uvarint_len_loop 9 value 1.

Record dataBlockBuilder := {
  b_buffer : bytes; b_restarts : list Z; b_previousKey : bytes; b_restartInterval : Z; b_entries : Z
}.
Definition newDataBlockBuilder (restartInterval : Z) : dataBlockBuilder :=
  {| b_buffer := []; b_restarts := []; b_previousKey := []; b_restartInterval := restartInterval; b_entries := 0 |}.
Definition builder_empty (b : dataBlockBuilder) : bool := b_entries b =? 0.
Definition at_restart (b : dataBlockBuilder) : bool := b_entries b mod b_restartInterval b =? 0.
Definition projectedSize (b : dataBlockBuilder) (key value : bytes) : Z :=
  let restart := at_restart b in
  let shared := if restart then O else commonPrefix (b_previousKey b) key in
  let unshared := len key - Z.of_nat shared in
  let restartCount := len (b_restarts b) + (if restart then 1 else 0) in
  len (b_buffer b) + uvarintLen (Z.of_nat shared) + uvarintLen unshared + uvarintLen (len value) + unshared + len value +
  restartCount * 4 + 4.
Definition builder_add (b : dataBlockBuilder) (key value : bytes) : dataBlockBuilder :=
  let restart := at_restart b in
  let shared := if restart then O else commonPrefix (b_previousKey b) key in
  {| b_restarts := if restart then b_restarts b ++ [u32 (len (b_buffer b))] else b_restarts b;
     b_buffer := b_buffer b ++ put_uvarint (Z.of_nat shared) ++ put_uvarint (len key - Z.of_nat shared) ++
                 put_uvarint (len value) ++ drop shared key ++ value;
     b_previousKey := key; b_restartInterval := b_restartInterval b; b_entries := b_entries b + 1 |}.
Definition builder_finish (b : dataBlockBuilder) : bytes :=
  b_buffer b ++ concat (le_put 4 <$> b_restarts b) ++ le_put 4 (u32 (len (b_restarts b))).
Definition builder_reset (b : dataBlockBuilder) : dataBlockBuilder := newDataBlockBuilder (b_restartInterval b).

(** ** bloom.go *)

Definition bloomAlgorithm : byte := Byte.x01.
Definition bloomProbes : byte := Byte.x07.
Definition bloomBitsPerKey : Z := 10.
Definition bloomHeaderSize : Z := 16.
Definition bloomSeed : Z := 0x9e3779b97f4a7c15.
Definition maxBloomBytes : Z := Z.shiftl 256 20.

Record bloomHash := { first : Z; delta : Z }.
Record bloomFilter := { bits : bytes; probes : Z }.
(** The zero value of a table without a filter. *)
Definition noBloom : bloomFilter := {| bits := []; probes := 0 |}.

Definition mixBloom (value : Z) : Z :=
  let value := Z.lxor value (Z.shiftr value 30) in
  let value := u64 (value * 0xbf58476d1ce4e5b9) in
  let value := Z.lxor value (Z.shiftr value 27) in
  let value := u64 (value * 0x94d049bb133111eb) in
  Z.lxor value (Z.shiftr value 31).
Definition hash_octet (value : Z) (octet : byte) : Z := u64 (Z.lxor value (byte.unsigned octet) * 1099511628211).
Definition hashBloomKey (key : bytes) : bloomHash :=
  let value := foldl hash_octet (Z.lxor 14695981039346656037 bloomSeed) key in
  {| first := value; delta := Z.lor (mixBloom (u64 (value + bloomSeed))) 1 |}.

Definition bit_count (f : bloomFilter) : Z := len (bits f) * 8.
Definition bloom_position (f : bloomFilter) (hash : bloomHash) (probe : Z) : Z :=
  u64 (first hash + u64 (probe * delta hash)) mod bit_count f.
(** [f.bits[position/8] |= 1 << (position % 8)] *)
Definition set_bit (position : Z) (b : bytes) : bytes :=
  alter (fun o => byte.of_Z (Z.lor (byte.unsigned o) (Z.shiftl 1 (position mod 8)))) (Z.to_nat (position / 8)) b.
Definition get_bit (position : Z) (b : bytes) : bool :=
  match b !! Z.to_nat (position / 8) with
  | Some o => negb (Z.land (byte.unsigned o) (Z.shiftl 1 (position mod 8)) =? 0)
  | None => false
  end.
(** [for probe := 0; probe < f.probes; probe++] *)
Definition probe_list (f : bloomFilter) : list Z := Z.of_nat <$> seq 0 (Z.to_nat (probes f)).
Definition bloom_add (f : bloomFilter) (hash : bloomHash) : bloomFilter :=
  {| bits := foldl (fun b probe => set_bit (bloom_position f hash probe) b) (bits f) (probe_list f); probes := probes f |}.
Definition mayContain (f : bloomFilter) (key : bytes) : bool :=
  (len (bits f) =? 0) || forallb (fun probe => get_bit (bloom_position f (hashBloomKey key) probe) (bits f)) (probe_list f).

Definition bloom_bit_count (hashes : list bloomHash) : Z :=
  let bitCount := len hashes * bloomBitsPerKey in
  let bitCount := if bitCount <? 64 then 64 else bitCount in
  Z.ldiff (bitCount + 7) 7.
Definition encodeBloom (hashes : list bloomHash) : res bytes :=
  if MaxUint32 / bloomBitsPerKey <? len hashes then Err [ErrResourceLimit]
  else
    let bitCount := bloom_bit_count hashes in
    let byteCount := bitCount / 8 in
    if (maxBloomBytes <? byteCount) || (MaxUint32 <? bitCount) then Err [ErrResourceLimit]
    else
      let filter := {| bits := replicate (Z.to_nat byteCount) Byte.x00; probes := byte.unsigned bloomProbes |} in
      Ok ([bloomAlgorithm; bloomProbes; Byte.x00; Byte.x00] ++ le_put 4 bitCount ++ le_put 8 bloomSeed ++
          bits (foldl bloom_add filter hashes)).
Definition decodeBloom (payload : bytes) : res bloomFilter :=
  if (len payload <? bloomHeaderSize) || negb (byte_at 0 payload =? byte.unsigned bloomAlgorithm) ||
     negb (byte_at 1 payload =? byte.unsigned bloomProbes) || negb (byte_at 2 payload =? 0) || negb (byte_at 3 payload =? 0) ||
     negb (le_get (slice 8 16 payload) =? bloomSeed) then Err (corrupt ErrInvalidBlock)
  else
    let bitCount := le_get (slice 4 8 payload) in
    if (bitCount <? 64) || negb (bitCount mod 8 =? 0) || (maxBloomBytes <? bitCount / 8) ||
       negb (len payload - bloomHeaderSize =? bitCount / 8) then Err (corrupt ErrInvalidBlock)
    else Ok {| bits := drop 16 payload; probes := byte.unsigned bloomProbes |}.

(** ** decoder.go *)

Record decodedEntry := { e_key : InternalKey; e_encoded : bytes; e_value : bytes }.
Record decodedRestart := { r_offset : Z; r_entryIndex : nat; r_key : InternalKey }.
Record decodedDataBlock := {
  k_handle : BlockHandle; k_restarts : list Z; k_restartEntries : list decodedRestart; k_entries : list decodedEntry
}.
Record decodedIndexEntry := { i_key : InternalKey; i_encoded : bytes; i_handle : BlockHandle }.
Record decodedMetadata := {
  m_entryCount : Z; m_deletionCount : Z; m_dataBlockCount : Z; m_rawKeyValueBytes : Z;
  m_smallestInternal : bytes; m_largestInternal : bytes; m_smallestUser : bytes; m_largestUser : bytes
}.

Definition readCanonicalUvarint (data : bytes) : res (Z * Z) :=
  let '(value, consumed) := uvarint data in
  if consumed <=? 0 then Err [ErrInvalidBlock]
  else
    let encoded := put_uvarint value in
    if negb (len encoded =? consumed) || negb (bytes_eqb (take (Z.to_nat consumed) encoded) (take (Z.to_nat consumed) data))
    then Err [ErrInvalidBlock] else Ok (value, consumed).

(** Every error of the decoders is a corruption of one class. *)
Definition or_corrupt {A B} (m : result A B) (class : sst_error) : res B :=
  match m with Ok b => Ok b | Err _ => Err (corrupt class) end.
Definition check (b : bool) : res unit := require b (corrupt ErrInvalidBlock).
(** [CompareInternal(a, b) >= 0] *)
Definition not_before (a b : InternalKey) : bool := match CompareInternal a b with Lt => false | _ => true end.

Definition minimumIndexEntry : Z := 1 + 9 + 16.
(** One iteration of the loop of [decodeIndex]. *)
Definition decode_index_entry (previous : option decodedIndexEntry) (remaining : bytes) : res (decodedIndexEntry * bytes) :=
  '(length, consumed) ← or_corrupt (readCanonicalUvarint remaining) ErrInvalidBlock;
  _ ← check ((9 <=? length) && (length <=? MaxInternalKeySize));
  let remaining := drop (Z.to_nat consumed) remaining in
  _ ← check ((length <=? len remaining) && (16 <=? len remaining - length));
  let encoded := take (Z.to_nat length) remaining in
  let remaining := drop (Z.to_nat length) remaining in
  key ← or_corrupt (DecodeInternalKey encoded) ErrInvalidBlock;
  let handle := {| Offset := le_get (slice 0 8 remaining); Length := le_get (slice 8 16 remaining) |} in
  _ ← check (match previous with Some p => negb (not_before (i_key p) key) | None => true end);
  Ok ({| i_key := key; i_encoded := encoded; i_handle := handle |}, drop 16 remaining).
Fixpoint decode_index_entries (count : nat) (previous : option decodedIndexEntry) (remaining : bytes)
    : res (list decodedIndexEntry * bytes) :=
  match count with
  | O => Ok ([], remaining)
  | S count' =>
      '(entry, remaining) ← decode_index_entry previous remaining;
      '(entries, remaining) ← decode_index_entries count' (Some entry) remaining;
      Ok (entry :: entries, remaining)
  end.
Definition decodeIndex (payload : bytes) : res (list decodedIndexEntry) :=
  _ ← check (4 <=? len payload);
  let count := le_get (slice 0 4 payload) in
  let remaining := drop 4 payload in
  _ ← check (negb (count =? 0) && (count <=? len remaining / minimumIndexEntry));
  '(entries, remaining) ← decode_index_entries (Z.to_nat count) None remaining;
  _ ← check (len remaining =? 0);
  Ok entries.

(** The loop over the restart offsets. *)
Fixpoint decode_restarts (raw : bytes) (count : nat) (previous : option Z) (entriesEnd : Z) : res (list Z) :=
  match count with
  | O => Ok []
  | S count' =>
      let restart := le_get (slice 0 4 raw) in
      _ ← check ((restart <? entriesEnd) && match previous with None => restart =? 0 | Some p => p <? restart end);
      rest ← decode_restarts (drop 4 raw) count' (Some restart) entriesEnd;
      Ok (restart :: rest)
  end.
Definition decodeRestartLayout (payload : bytes) : res (Z * list Z) :=
  _ ← check ((8 <=? len payload) && (len payload <=? MaxDataBlockSize));
  let restartCount := le_get (slice (length payload - 4) (length payload) payload) in
  _ ← check (negb (restartCount =? 0) && (restartCount <=? (len payload - 4) / 4));
  let entriesEnd := len payload - 4 - restartCount * 4 in
  _ ← check (negb (entriesEnd =? 0) && (entriesEnd <=? MaxUint32));
  let restartsRaw := slice (Z.to_nat entriesEnd) (length payload - 4) payload in
  restarts ← decode_restarts restartsRaw (Z.to_nat restartCount) None entriesEnd;
  Ok (entriesEnd, restarts).

(** [decodeDataEntry]: the entry, the next position and the shared length. *)
Definition region (payload : bytes) (position entriesEnd : Z) : bytes :=
  slice (Z.to_nat position) (Z.to_nat entriesEnd) payload.
(** The three lengths of an entry, and the position after them. *)
Definition decode_lengths (payload : bytes) (position entriesEnd : Z) : res (Z * Z * Z * Z) :=
  '(shared, consumed) ← or_corrupt (readCanonicalUvarint (region payload position entriesEnd)) ErrInvalidBlock;
  let position := position + consumed in
  '(unshared, consumed) ← or_corrupt (readCanonicalUvarint (region payload position entriesEnd)) ErrInvalidBlock;
  let position := position + consumed in
  '(valueLength, consumed) ← or_corrupt (readCanonicalUvarint (region payload position entriesEnd)) ErrInvalidBlock;
  Ok (shared, unshared, valueLength, position + consumed).
(** The key and the value, of these lengths, at [position]. *)
Definition decode_body (payload : bytes) (entriesEnd : Z) (previous : bytes) (shared unshared valueLength position : Z)
    : res (decodedEntry * Z * Z) :=
  _ ← check ((shared <=? len previous) && (unshared <=? MaxInternalKeySize) && (valueLength <=? MaxValueSize));
  _ ← check (match checkedAdd unshared valueLength with Some needed => needed <=? entriesEnd - position | None => false end);
  _ ← check (match checkedAdd shared unshared with Some n => (9 <=? n) && (n <=? MaxInternalKeySize) | None => false end);
  let keyBytes := take (Z.to_nat shared) previous ++ slice (Z.to_nat position) (Z.to_nat (position + unshared)) payload in
  let position := position + unshared in
  let value := slice (Z.to_nat position) (Z.to_nat (position + valueLength)) payload in
  let position := position + valueLength in
  key ← or_corrupt (DecodeInternalKey keyBytes) ErrInvalidBlock;
  _ ← check (CarriesValue (kind key) || (len value =? 0));
  Ok ({| e_key := key; e_encoded := keyBytes; e_value := value |}, position, shared).
Definition decodeDataEntry (payload : bytes) (position entriesEnd : Z) (previous : bytes) : res (decodedEntry * Z * Z) :=
  '(shared, unshared, valueLength, position) ← decode_lengths payload position entriesEnd;
  decode_body payload entriesEnd previous shared unshared valueLength position.

(** The loop of [decodeDataBlock]: [index] entries were decoded, [previous] is
    the last of them and [restarts] the offsets still to be met. *)
Fixpoint decode_entries (fuel : nat) (payload : bytes) (entriesEnd position : Z) (index : nat) (previous : option decodedEntry)
    (restarts : list Z) : res (list decodedEntry * list decodedRestart) :=
  if position <? entriesEnd then
    match fuel with
    | O => Err []
    | S fuel' =>
        '(entry, next, shared) ← decodeDataEntry payload position entriesEnd (match previous with Some p => e_encoded p | None => [] end);
        let isRestart := match restarts with r :: _ => r =? u32 position | [] => false end in
        _ ← check (negb (isRestart && negb (shared =? 0)));
        _ ← check (match previous with Some p => negb (not_before (e_key p) (e_key entry)) | None => true end);
        '(entries, rs) ← decode_entries fuel' payload entriesEnd next (S index) (Some entry) (if isRestart then tail restarts else restarts);
        Ok (entry :: entries,
            if isRestart then {| r_offset := u32 position; r_entryIndex := index; r_key := e_key entry |} :: rs else rs)
    end
  else
    _ ← check ((position =? entriesEnd) && negb (Nat.eqb index 0) && match restarts with [] => true | _ => false end);
    Ok ([], []).
Definition decodeDataBlock (payload : bytes) (handle : BlockHandle) : res decodedDataBlock :=
  '(entriesEnd, restarts) ← decodeRestartLayout payload;
  '(entries, restartEntries) ← decode_entries (length payload) payload entriesEnd 0 0 None restarts;
  Ok {| k_handle := handle; k_restarts := restarts; k_restartEntries := restartEntries; k_entries := entries |}.

(** The binary search of [seekDataBlock]: the first restart whose key is at or
    above the target. *)
Fixpoint search_restarts (fuel : nat) (payload : bytes) (entriesEnd : Z) (restarts : list Z) (target : InternalKey) (left right : nat)
    : res nat :=
  if (left <? right)%nat then
    match fuel with
    | O => Err []
    | S fuel' =>
        let middle := (left + (right - left) / 2)%nat in
        match decodeDataEntry payload (default 0 (restarts !! middle)) entriesEnd [] with
        | Err _ => Err (corrupt ErrInvalidBlock)
        | Ok (entry, _, shared) =>
            _ ← check (shared =? 0);
            if not_before (e_key entry) target then search_restarts fuel' payload entriesEnd restarts target left middle
            else search_restarts fuel' payload entriesEnd restarts target (S middle) right
        end
    end
  else Ok left.
(** The scan of the selected interval. *)
Fixpoint scan_interval (fuel : nat) (payload : bytes) (entriesEnd limit : Z) (target : InternalKey) (previous : bytes) (position : Z)
    : res (option decodedEntry) :=
  if position <? limit then
    match fuel with
    | O => Err []
    | S fuel' =>
        match decodeDataEntry payload position entriesEnd previous with
        | Err _ => Err (corrupt ErrInvalidBlock)
        | Ok (entry, next, shared) =>
            _ ← check (negb ((len previous =? 0) && negb (shared =? 0)));
            if not_before (e_key entry) target then Ok (Some entry)
            else scan_interval fuel' payload entriesEnd limit target (e_encoded entry) next
        end
    end
  else Ok None.
Definition seekDataBlock (payload : bytes) (target : InternalKey) : res (option decodedEntry) :=
  '(entriesEnd, restarts) ← decodeRestartLayout payload;
  left ← search_restarts (length restarts) payload entriesEnd restarts target 0 (length restarts);
  let restart := (left - 1)%nat in
  let limit := default entriesEnd (restarts !! S restart) in
  found ← scan_interval (length payload) payload entriesEnd limit target [] (default 0 (restarts !! restart));
  match found with
  | Some entry => Ok (Some entry)
  | None =>
      match restarts !! S restart with
      | None => Ok None
      | Some following =>
          match decodeDataEntry payload following entriesEnd [] with
          | Err _ => Err (corrupt ErrInvalidBlock)
          | Ok (entry, _, shared) =>
              _ ← check (shared =? 0);
              Ok (if not_before (e_key entry) target then Some entry else None)
          end
      end
  end.

(** One length-prefixed field of the metadata. *)
Definition decode_field (maximum : Z) (remaining : bytes) : res (bytes * bytes) :=
  _ ← check (4 <=? len remaining);
  let length := le_get (slice 0 4 remaining) in
  let remaining := drop 4 remaining in
  _ ← check ((length <=? maximum) && (length <=? len remaining));
  Ok (take (Z.to_nat length) remaining, drop (Z.to_nat length) remaining).
Definition decodeMetadata (payload : bytes) : res decodedMetadata :=
  _ ← check (28 <=? len payload);
  let entryCount := le_get (slice 0 8 payload) in
  let deletionCount := le_get (slice 8 16 payload) in
  let dataBlockCount := le_get (slice 16 20 payload) in
  '(smallestInternal, remaining) ← decode_field MaxInternalKeySize (drop 28 payload);
  '(largestInternal, remaining) ← decode_field MaxInternalKeySize remaining;
  '(smallestUser, remaining) ← decode_field MaxUserKeySize remaining;
  '(largestUser, remaining) ← decode_field MaxUserKeySize remaining;
  _ ← check (len remaining =? 0);
  _ ← check (negb (entryCount =? 0) && (deletionCount <=? entryCount) && negb (dataBlockCount =? 0));
  smallest ← or_corrupt (DecodeInternalKey smallestInternal) ErrInvalidBlock;
  largest ← or_corrupt (DecodeInternalKey largestInternal) ErrInvalidBlock;
  _ ← check (match CompareInternal smallest largest with Gt => false | _ => true end && bytes_leb smallestUser largestUser);
  Ok {| m_entryCount := entryCount; m_deletionCount := deletionCount; m_dataBlockCount := dataBlockCount;
        m_rawKeyValueBytes := le_get (slice 20 28 payload);
        m_smallestInternal := smallestInternal; m_largestInternal := largestInternal;
        m_smallestUser := smallestUser; m_largestUser := largestUser |}.

(** [block.lowerBound] *)
Fixpoint search (fuel : nat) (keys : list InternalKey) (target : InternalKey) (left right : nat) : nat :=
  match fuel with
  | O => left
  | S fuel' =>
      if (left <? right)%nat then
        let middle := (left + (right - left) / 2)%nat in
        match keys !! middle with
        | Some k => if not_before k target then search fuel' keys target left middle else search fuel' keys target (S middle) right
        | None => left
        end
      else left
  end.
(** [for position := start; position < end; position++] over the entries. *)
Fixpoint scan_entries (entries : list decodedEntry) (target : InternalKey) (position last : nat) : option nat :=
  match entries with
  | [] => None
  | e :: rest =>
      if (position <? last)%nat then
        if not_before (e_key e) target then Some position else scan_entries rest target (S position) last
      else None
  end.
Definition lowerBound (block : decodedDataBlock) (target : InternalKey) : nat :=
  let restart := (search (length (k_restartEntries block)) (r_key <$> k_restartEntries block) target 0 (length (k_restartEntries block)) - 1)%nat in
  let start := match k_restartEntries block !! restart with Some r => r_entryIndex r | None => O end in
  let last := match k_restartEntries block !! S restart with Some r => S (r_entryIndex r) | None => length (k_entries block) end in
  default (length (k_entries block)) (scan_entries (drop start (k_entries block)) target start last).
End sstable.
