(* ===== verification/SSTableBlock.v ===== *)
(** * Data blocks: searching and round trip

    Whatever payload [decodeDataBlock] accepts is a strictly sorted list of
    entries laid out one after the other, and [seekDataBlock], which decodes
    only the restarts it probes and one interval, finds in it the first entry
    at or above the target; so does [lowerBound] on the decoded block.  A
    block the builder finishes decodes to the entries that were added. *)

From S2P Require Import Prelude Varint InternalKey Crc32c MvccStore SSTable.
Import sstable.

(** ** One entry *)

Definition entry_of (e : decodedEntry) : entry := (e_key e, e_value e).

Lemma check_ok b u : check b = Ok u <-> b = true.
Proof. apply require_ok. Qed.
Lemma or_corrupt_ok {A B} (m : result A B) class b : or_corrupt m class = Ok b <-> m = Ok b.
Proof. destruct m; cbn; split; congruence. Qed.

Lemma readCanonical_ok data value consumed : readCanonicalUvarint data = Ok (value, consumed) <->
  is_u64 value /\ consumed = uvarint_len value /\ take (Z.to_nat consumed) data = put_uvarint value.
Proof.
  unfold readCanonicalUvarint. destruct (uvarint data) as [v c] eqn:Hu. split.
  - destruct (Z.leb_spec c 0); [done|]. destruct (negb (len (put_uvarint v) =? c) || _) eqn:Hb; [done|]. intros [= <- <-].
    apply orb_false_iff in Hb as [Hl _]. apply negb_false_iff, Z.eqb_eq in Hl. destruct (uvarint_canonical data v c) as (Hv & Hle & Ht); [done|lia|].
    unfold uvarint_len. split_and!; [done|done|]. by apply Ht.
  - intros (Hv & -> & Ht). pose proof (uvarint_len_range value) as Hr.
    rewrite <- (take_drop (Z.to_nat (uvarint_len value)) data), Ht, uvarint_put in Hu by done. injection Hu as <- <-.
    destruct (Z.leb_spec (uvarint_len value) 0); [lia|]. unfold uvarint_len in *. rewrite Z.eqb_refl. cbn.
    rewrite Ht, len_to_nat, firstn_all. by rewrite bytes_eqb_refl.
Qed.

Lemma slice_length_le {A} a b (s : list A) : (length (slice a b s) <= b - a)%nat.
Proof. unfold slice. rewrite length_take. lia. Qed.
Lemma checkedAdd_Some a b c : checkedAdd a b = Some c -> c = a + b.
Proof. unfold checkedAdd. case_match; congruence. Qed.

(** What a successful decoding of an entry establishes. *)
Record entry_ok (e : decodedEntry) : Prop := {
  eo_key : DecodeInternalKey (e_encoded e) = Ok (e_key e);
  eo_length : 9 <= len (e_encoded e) <= MaxInternalKeySize;
  eo_value : len (e_value e) <= MaxValueSize;
  eo_kind : CarriesValue (kind (e_key e)) = false -> e_value e = []
}.
Lemma decode_lengths_inv payload position entriesEnd shared unshared valueLength next :
  decode_lengths payload position entriesEnd = Ok (shared, unshared, valueLength, next) ->
  position < next /\ 0 <= shared /\ 0 <= unshared /\ 0 <= valueLength.
Proof.
  unfold decode_lengths. intros H. ok_inv H. injection H as <- <- <- <-. apply or_corrupt_ok in Hx, Hx0, Hx1.
  apply readCanonical_ok in Hx as (Hsh & -> & _), Hx0 as (Hun & -> & _), Hx1 as (Hvl & -> & _). unfold is_u64 in *.
  match goal with |- context [uvarint_len ?a] => pose proof (uvarint_len_range a) end.
  pose proof (uvarint_len_range z1). pose proof (uvarint_len_range z3). lia.
Qed.
Lemma decode_body_inv payload entriesEnd previous shared unshared valueLength position e next shared' :
  0 <= shared -> 0 <= unshared -> 0 <= valueLength ->
  decode_body payload entriesEnd previous shared unshared valueLength position = Ok (e, next, shared') ->
  position <= next <= entriesEnd /\ shared' = shared /\ entry_ok e.
Proof.
  intros Hsh Hun Hvl H. unfold decode_body in H. ok_inv H. injection H as <- <- <-. apply check_ok in Hx, Hx0, Hx1, Hx3. apply or_corrupt_ok in Hx2.
  rewrite !andb_true_iff, !Z.leb_le in Hx. destruct Hx as [[Hs1 Hs2] Hs3].
  destruct (checkedAdd unshared valueLength) as [needed|] eqn:Hc; [|done]. apply checkedAdd_Some in Hc. apply Z.leb_le in Hx0.
  destruct (checkedAdd shared unshared) as [kl|] eqn:Hc'; [|done]. apply checkedAdd_Some in Hc'.
  apply andb_true_iff in Hx1 as [Hk1%Z.leb_le Hk2%Z.leb_le]. split; [lia|]. split; [done|]. split; cbn.
  - done.
  - pose proof (key_encode_decode _ _ Hx2) as [_ He]. unfold len in *. split; [rewrite <- He, Encode_length; lia|].
    rewrite length_app, length_take. pose proof (slice_length_le (Z.to_nat position) (Z.to_nat (position + unshared)) payload). lia.
  - pose proof (slice_length_le (Z.to_nat (position + unshared)) (Z.to_nat (position + unshared + valueLength)) payload). unfold len. lia.
  - intros Hk. rewrite Hk in Hx3. cbn in Hx3. apply Z.eqb_eq in Hx3. by apply length_zero_iff_nil, Nat2Z.inj.
Qed.
Lemma decode_body_restart payload entriesEnd previous unshared valueLength position r :
  decode_body payload entriesEnd previous 0 unshared valueLength position = Ok r ->
  decode_body payload entriesEnd [] 0 unshared valueLength position = Ok r.
Proof.
  unfold decode_body. intros H. rewrite <- H. cbn [Z.to_nat take app len length Z.of_nat].
  destruct (0 <=? len previous) eqn:Hp; [done|]. apply Z.leb_gt in Hp. pose proof (len_nonneg previous). lia.
Qed.

Lemma decodeDataEntry_inv payload position entriesEnd previous e next shared :
  decodeDataEntry payload position entriesEnd previous = Ok (e, next, shared) ->
  position < next <= entriesEnd /\ (shared = 0 -> decodeDataEntry payload position entriesEnd [] = Ok (e, next, 0)) /\ entry_ok e.
Proof.
  unfold decodeDataEntry. intros H. destruct (decode_lengths payload position entriesEnd) as [[[[sh un] vl] pos]|] eqn:Hl; [|done].
  cbn in H. apply decode_lengths_inv in Hl as (Hpos & Hsh & Hun & Hvl). pose proof (decode_body_inv _ _ _ _ _ _ _ _ _ _ Hsh Hun Hvl H) as (Hn & -> & He).
  split; [lia|]. split; [|done]. intros ->. cbn. by eapply decode_body_restart.
Qed.

(** Where an entry ends does not depend on the previous key. *)
Lemma decode_body_next payload entriesEnd previous shared unshared valueLength position e next shared' :
  decode_body payload entriesEnd previous shared unshared valueLength position = Ok (e, next, shared') -> next = position + unshared + valueLength.
Proof. unfold decode_body. intros H. ok_inv H. by injection H as _ <- _. Qed.
Lemma decodeDataEntry_next payload position entriesEnd previous previous' e e' next next' shared shared' :
  decodeDataEntry payload position entriesEnd previous = Ok (e, next, shared) ->
  decodeDataEntry payload position entriesEnd previous' = Ok (e', next', shared') -> next = next'.
Proof.
  unfold decodeDataEntry. destruct (decode_lengths _ _ _) as [[[[sh un] vl] pos]|]; [|done]. cbn [mbind result_bind].
  intros ->%decode_body_next ->%decode_body_next. done.
Qed.

(** ** Binary search *)

Lemma not_before_true a b : not_before a b = true <-> ~ key_lt a b.
Proof. unfold not_before, key_lt. by destruct (CompareInternal a b). Qed.
Lemma not_before_false a b : not_before a b = false <-> key_lt a b.
Proof. unfold not_before, key_lt. by destruct (CompareInternal a b). Qed.

(** [n] is where [target] cuts the keys. *)
Definition cut_at (keys : list InternalKey) (target : InternalKey) (n : nat) : Prop :=
  (n <= length keys)%nat /\ (forall i k, (i < n)%nat -> keys !! i = Some k -> key_lt k target) /\
  (forall i k, (n <= i)%nat -> keys !! i = Some k -> ~ key_lt k target).

Lemma sorted_lookup_lt (keys : list InternalKey) i j k k' : StronglySorted key_lt keys ->
  (i < j)%nat -> keys !! i = Some k -> keys !! j = Some k' -> key_lt k k'.
Proof.
  intros Hs. revert i j. induction Hs as [|x keys Hs IH Hf]; [done|]. intros [|i] [|j] Hij Hi Hj; try lia; cbn in *.
  - simplify_eq. rewrite Forall_forall in Hf. apply Hf. by eapply list_elem_of_lookup_2.
  - apply (IH i j); [lia|done..].
Qed.
Lemma search_spec keys target : StronglySorted key_lt keys -> forall fuel left right,
  (right - left <= fuel)%nat -> (left <= right <= length keys)%nat ->
  (forall i k, (i < left)%nat -> keys !! i = Some k -> key_lt k target) ->
  (forall i k, (right <= i)%nat -> keys !! i = Some k -> ~ key_lt k target) ->
  cut_at keys target (search fuel keys target left right).
Proof.
  intros Hs. induction fuel as [|fuel IH]; intros left right Hf Hr Hlo Hhi; cbn [search].
  { assert (left = right) as -> by lia. split_and!; [lia|done..]. }
  destruct (Nat.ltb_spec left right) as [Hlt|Hge].
  2:{ assert (left = right) as -> by lia. split_and!; [lia|done..]. }
  set (middle := (left + (right - left) / 2)%nat).
  assert (left <= middle < right)%nat as Hm.
  { assert ((right - left) / 2 < right - left)%nat by (apply Nat.div_lt; lia). lia. }
  destruct (lookup_lt_is_Some_2 keys middle) as [km Hkm]; [lia|]. rewrite Hkm. destruct (not_before km target) eqn:Hn.
  - apply not_before_true in Hn. apply IH; [lia|lia|done|]. intros i k Hi Hk Hlt'. destruct (decide (i = middle)) as [->|]; [naive_solver|].
    apply Hn. eapply key_lt_trans; [|exact Hlt']. apply (sorted_lookup_lt keys middle i); [done|lia|done..].
  - apply not_before_false in Hn. apply IH; [lia|lia| |done]. intros i k Hi Hk. destruct (decide (i = middle)) as [->|]; [naive_solver|].
    eapply key_lt_trans; [|exact Hn]. apply (sorted_lookup_lt keys i middle); [done|lia|done..].
Qed.
Lemma search_all keys target : StronglySorted key_lt keys -> cut_at keys target (search (length keys) keys target 0 (length keys)).
Proof.
  intros Hs. apply search_spec; [done|lia|lia|lia|]. intros i k Hi Hk. apply lookup_lt_Some in Hk. lia.
Qed.

(** ** The layout of a block *)

Section layout.
Context (payload : bytes) (entriesEnd : Z).

(** The items from [position] on: each is decoded where the previous one
    ends, against its key. *)
Inductive laid : Z -> bytes -> list (Z * decodedEntry) -> Prop :=
  | laid_nil previous : laid entriesEnd previous []
  | laid_cons position previous e next shared items :
      position < entriesEnd -> decodeDataEntry payload position entriesEnd previous = Ok (e, next, shared) ->
      laid next (e_encoded e) items -> laid position previous ((position, e) :: items).
(** The restarts among the items, from index [index] on. *)
Inductive marks : nat -> list (Z * decodedEntry) -> list Z -> list decodedRestart -> Prop :=
  | marks_nil index : marks index [] [] []
  | marks_restart index position e next items rs rents :
      decodeDataEntry payload position entriesEnd [] = Ok (e, next, 0) -> marks (S index) items rs rents ->
      marks index ((position, e) :: items) (position :: rs)
        ({| r_offset := position; r_entryIndex := index; r_key := e_key e |} :: rents)
  | marks_skip index item items rs rents : marks (S index) items rs rents -> marks index (item :: items) rs rents.

Definition start_of (items : list (Z * decodedEntry)) : Z := match items with [] => entriesEnd | (p, _) :: _ => p end.
Definition item_lt (a b : Z * decodedEntry) : Prop := key_lt (e_key a.2) (e_key b.2).

Lemma laid_start position previous items : laid position previous items -> position = start_of items.
Proof. by destruct 1. Qed.
Lemma laid_advance position previous item items rest : laid position previous (item :: items ++ rest) -> position < start_of rest.
Proof.
  revert position previous item. induction items as [|i items IH]; intros position previous item Hl; inversion Hl as [|? ? e next shared ? Hlt Hd Hn]; subst;
    apply decodeDataEntry_inv in Hd as (Hp & _ & _).
  - apply laid_start in Hn. cbn in Hn. lia.
  - pose proof (laid_start _ _ _ Hn). specialize (IH _ _ _ Hn). lia.
Qed.
Lemma laid_length position previous items : laid position previous items -> Z.of_nat (length items) <= entriesEnd - position.
Proof.
  induction 1 as [|position previous e next shared items Hlt Hd Hl IH]; [cbn; lia|]. apply decodeDataEntry_inv in Hd as (? & _). cbn [length]. lia.
Qed.
Lemma laid_app position previous xs ys : laid position previous (xs ++ ys) -> exists previous', laid (start_of ys) previous' ys.
Proof.
  revert position previous. induction xs as [|x xs IH]; intros position previous Hl; cbn in Hl.
  - pose proof (laid_start _ _ _ Hl) as <-. eauto.
  - inversion Hl; subst. by eapply IH.
Qed.
Lemma laid_ok position previous items : laid position previous items -> Forall (fun i => entry_ok i.2) items.
Proof. induction 1 as [|position previous e next shared items Hlt Hd Hl IH]; constructor; [|done]. by apply decodeDataEntry_inv in Hd as (_ & _ & ?). Qed.

Lemma decode_entries_laid fuel : forall position index previous rs entries rents, entriesEnd <= MaxUint32 -> 0 <= position ->
  decode_entries fuel payload entriesEnd position index previous rs = Ok (entries, rents) ->
  exists items, items.*2 = entries /\ laid position (match previous with Some p => e_encoded p | None => [] end) items /\ marks index items rs rents /\
    StronglySorted item_lt items /\ match previous with Some p => Forall (fun i => key_lt (e_key p) (e_key i.2)) items | None => True end /\
    (index <> O \/ items <> []).
Proof.
  induction fuel as [|fuel IH]; intros position index previous rs entries rents HE Hpos H; cbn [decode_entries] in H;
    (destruct (Z.ltb_spec position entriesEnd) as [Hlt|Hge];
     [|ok_inv H; apply check_ok in Hx; rewrite !andb_true_iff in Hx; destruct Hx as [[->%Z.eqb_eq Hi] Hr]; destruct rs; [|done];
       injection H as <- <-; exists []; split_and!; try done; [constructor..|by destruct previous|left; by intros ->]]); [done|].
  ok_inv H. apply check_ok in Hx1, Hx0. rename d into e, z into next, z0 into shared, Hx into Hd. injection H as <- <-.
  pose proof (decodeDataEntry_inv _ _ _ _ _ _ _ Hd) as (Hn & Hrestart & Hok).
  apply IH in Hx2 as (items & <- & Hl & Hm & Hs & Hf & _); [|done|lia]. exists ((position, e) :: items).
  assert (u32 position = position) as Hu by (apply u32_id; unfold is_u32, MaxUint32 in *; lia). rewrite Hu in *.
  split_and!; [done|by econstructor| |by constructor| |by right].
  - destruct rs as [|r rs]; [by apply marks_skip|]. destruct (Z.eqb_spec r position) as [->|Hne]; [|by apply marks_skip].
    cbn in Hx1, Hm |- *. cbn in Hx0. rewrite negb_involutive in Hx0. apply Z.eqb_eq in Hx0 as ->. econstructor; [|done]. by apply Hrestart.
  - destruct previous as [p|]; [|done]. apply negb_true_iff, not_before_false in Hx1. constructor; [done|].
    eapply Forall_impl; [exact Hf|]. cbn. intros i Hi. by eapply key_lt_trans.
Qed.

(** The items before and after the [i]-th restart. *)
Lemma marks_split index items rs rents : marks index items rs rents -> forall i p, rs !! i = Some p ->
  exists pre e suf next, items = pre ++ (p, e) :: suf /\ decodeDataEntry payload p entriesEnd [] = Ok (e, next, 0) /\
    rents !! i = Some {| r_offset := p; r_entryIndex := index + length pre; r_key := e_key e |} /\
    marks (S (index + length pre)) suf (drop (S i) rs) (drop (S i) rents).
Proof.
  induction 1 as [index|index position e next items rs rents Hd Hm IH|index item items rs rents Hm IH]; intros i p Hi; [done|..].
  - destruct i as [|i]; cbn in Hi.
    + injection Hi as <-. exists [], e, items, next. cbn. rewrite Nat.add_0_r. split_and!; [done..|]. by rewrite !drop_0.
    + destruct (IH i p Hi) as (pre & e' & suf & next' & -> & Hd' & Hr & Hm'). exists ((position, e) :: pre), e', suf, next'. cbn.
      rewrite <- Nat.add_succ_comm. done.
  - destruct (IH i p Hi) as (pre & e' & suf & next' & -> & Hd' & Hr & Hm'). exists (item :: pre), e', suf, next'. cbn.
    rewrite <- Nat.add_succ_comm. done.
Qed.
Lemma marks_offsets index items rs rents : marks index items rs rents -> r_offset <$> rents = rs.
Proof. induction 1; cbn; congruence. Qed.
Lemma marks_keys index items rs rents : marks index items rs rents -> StronglySorted item_lt items ->
  StronglySorted key_lt (r_key <$> rents) /\ forall k, k ∈ r_key <$> rents -> exists i, i ∈ items /\ e_key i.2 = k.
Proof.
  induction 1 as [index|index position e next items rs rents Hd Hm IH|index item items rs rents Hm IH]; intros Hs.
  - split; [constructor|set_solver].
  - apply StronglySorted_cons in Hs as [Hf Hs]. destruct (IH Hs) as [Hk Hin]. split.
    + cbn. constructor; [done|]. apply Forall_forall. rewrite Forall_forall in Hf. intros k Hk'. destruct (Hin k Hk') as (i & Hi & <-). by apply (Hf i).
    + cbn. intros k [->|Hk']%elem_of_cons; [exists (position, e); split; [constructor|done]|]. destruct (Hin k Hk') as (i & Hi & <-).
      exists i. split; [by right|done].
  - apply StronglySorted_cons in Hs as [_ Hs]. destruct (IH Hs) as [Hk Hin]. split; [done|]. intros k Hk'.
    destruct (Hin k Hk') as (i & Hi & <-). exists i. split; [by right|done].
Qed.

(** The probes of [seekDataBlock] see the keys of the restarts. *)
Lemma search_restarts_spec items rs rents target : marks 0 items rs rents -> forall fuel left right,
  (right - left <= fuel)%nat -> (right <= length rs)%nat ->
  search_restarts fuel payload entriesEnd rs target left right = Ok (search fuel (r_key <$> rents) target left right).
Proof.
  intros Hm. induction fuel as [|fuel IH]; intros left right Hf Hr; cbn [search_restarts search].
  { rewrite (proj2 (Nat.ltb_ge left right)) by lia. done. }
  destruct (Nat.ltb_spec left right) as [Hlt|]; [|done]. set (middle := (left + (right - left) / 2)%nat).
  assert (left <= middle < right)%nat as Hmid.
  { assert ((right - left) / 2 < right - left)%nat by (apply Nat.div_lt; lia). lia. }
  destruct (lookup_lt_is_Some_2 rs middle) as [p Hp]; [lia|].
  destruct (marks_split _ _ _ _ Hm middle p Hp) as (pre & e & suf & next & -> & Hd & Hrent & _).
  rewrite list_lookup_fmap, Hrent, Hp. cbn. rewrite Hd. cbn. destruct (not_before (e_key e) target); apply IH; lia.
Qed.

(** The scan finds the first item at or above the target before the limit. *)
Lemma scan_interval_spec target rest items : forall fuel position previous, laid position previous (items ++ rest) ->
  (previous = [] -> forall i, head items = Some i -> exists next, decodeDataEntry payload position entriesEnd [] = Ok (i.2, next, 0)) ->
  (length items <= fuel)%nat ->
  scan_interval fuel payload entriesEnd (start_of rest) target previous position =
    Ok (head (filter (fun e => ~ key_lt (e_key e) target) items.*2)).
Proof.
  induction items as [|item items IH]; intros fuel position previous Hl Hfirst Hf.
  { apply laid_start in Hl. cbn in Hl. destruct fuel; cbn [scan_interval]; rewrite (proj2 (Z.ltb_ge _ _)) by lia; done. }
  pose proof (laid_advance _ _ _ _ _ Hl) as Hlt. destruct fuel as [|fuel]; [cbn in Hf; lia|]. cbn [scan_interval].
  rewrite (proj2 (Z.ltb_lt _ _)) by done. cbn in Hl. inversion Hl as [|? ? e next shared ? Hlt' Hd Hn]; subst. rewrite Hd.
  assert (negb ((len previous =? 0) && negb (shared =? 0)) = true) as ->.
  { destruct (Z.eqb_spec (len previous) 0) as [H0|]; [|done]. assert (previous = []) as -> by (by apply length_zero_iff_nil, Nat2Z.inj).
    destruct (Hfirst eq_refl _ eq_refl) as [next' Hd']. rewrite Hd in Hd'. injection Hd' as _ ->. done. }
  cbn [check require mbind result_bind fmap list_fmap snd]. rewrite filter_cons. destruct (not_before (e_key e) target) eqn:Hb.
  - apply not_before_true in Hb. by rewrite decide_True.
  - apply not_before_false in Hb. rewrite decide_False by tauto. apply IH; [done| |cbn in Hf; lia].
    intros He. apply decodeDataEntry_inv in Hd as (_ & _ & Hok). pose proof (eo_length _ Hok) as Hlen. rewrite He, len_nil in Hlen. lia.
Qed.
End layout.

(** ** Searching a block *)

Definition from_target (target : InternalKey) (es : list decodedEntry) : list decodedEntry :=
  filter (fun e => ~ key_lt (e_key e) target) es.
Arguments from_target : simpl never.
Lemma from_target_app target xs ys : from_target target (xs ++ ys) = from_target target xs ++ from_target target ys.
Proof. apply filter_app. Qed.
Lemma from_target_below target xs : Forall (fun e => key_lt (e_key e) target) xs -> from_target target xs = [].
Proof. intros H. apply filter_none. eapply Forall_impl; [exact H|]. tauto. Qed.
Lemma from_target_cons target e xs : from_target target (e :: xs) =
  if decide (~ key_lt (e_key e) target) then e :: from_target target xs else from_target target xs.
Proof. unfold from_target. by rewrite filter_cons. Qed.

Definition block_sorted (es : list decodedEntry) : Prop := StronglySorted (fun a b => key_lt (e_key a) (e_key b)) es.
Lemma from_target_sorted target e es : block_sorted (e :: es) -> ~ key_lt (e_key e) target -> from_target target (e :: es) = e :: es.
Proof.
  intros [Hf _]%StronglySorted_cons He. apply filter_all. constructor; [done|]. eapply Forall_impl; [exact Hf|]. cbn. intros x Hx Hlt.
  apply He. by eapply key_lt_trans.
Qed.
(** Scanning to the first entry that is not below the target. *)
Lemma scan_entries_spec target es : forall position last, match scan_entries es target position last with
  | Some j => exists i e, j = (position + i)%nat /\ es !! i = Some e /\ ~ key_lt (e_key e) target /\ Forall (fun e => key_lt (e_key e) target) (take i es)
  | None => Forall (fun e => key_lt (e_key e) target) (take (last - position) es)
  end.
Proof.
  induction es as [|e es IH]; intros position last; cbn [scan_entries]; [by rewrite take_nil|].
  destruct (Nat.ltb_spec position last); [|by replace (last - position)%nat with 0%nat by lia].
  destruct (not_before (e_key e) target) eqn:Hb.
  - apply not_before_true in Hb. exists 0%nat, e. rewrite Nat.add_0_r. done.
  - apply not_before_false in Hb. specialize (IH (S position) last). destruct (scan_entries es target (S position) last) as [j|].
    + destruct IH as (i & x & -> & Hi & Hx & Hf). exists (S i), x. rewrite Nat.add_succ_r. cbn. split_and!; [done..|by constructor].
    + replace (last - position)%nat with (S (last - S position)) by lia. by constructor.
Qed.

Lemma decode_restarts_inv raw count : forall previous entriesEnd rs, decode_restarts raw count previous entriesEnd = Ok rs ->
  length rs = count /\ (previous = None -> match rs with r :: _ => r = 0 | [] => True end).
Proof.
  revert raw. induction count as [|count IH]; intros raw previous entriesEnd rs H; cbn [decode_restarts] in H; ok_inv H.
  - injection H as <-. done.
  - injection H as <-. apply check_ok in Hx. apply IH in Hx0 as [Hl _]. split; [cbn; by rewrite Hl|]. intros ->. apply andb_true_iff in Hx as [_ Hz].
    by apply Z.eqb_eq.
Qed.
Lemma decodeRestartLayout_inv payload entriesEnd rs : decodeRestartLayout payload = Ok (entriesEnd, rs) ->
  0 < entriesEnd <= MaxUint32 /\ entriesEnd < len payload /\ head rs = Some 0.
Proof.
  unfold decodeRestartLayout. intros H. ok_inv H. apply check_ok in Hx, Hx0, Hx1. injection H as <- <-.
  set (count := le_get _) in *. rewrite !andb_true_iff, !negb_true_iff, !Z.eqb_neq, !Z.leb_le in *.
  pose proof (le_get_range (slice (length payload - 4) (length payload) payload)) as Hc. fold count in Hc. clearbody count.
  assert (count * 4 <= len payload - 4).
  { destruct Hx0 as [_ Hle]. pose proof (Z.mul_div_le (len payload - 4) 4). lia. }
  apply decode_restarts_inv in Hx2 as [Hl Hz]. split_and!; [lia..|]. destruct x2 as [|r x2]; [cbn in Hl; lia|]. cbn. by rewrite Hz.
Qed.

Section seeking.
Context (payload : bytes) (entriesEnd : Z) (items : list (Z * decodedEntry)) (rs : list Z) (rents : list decodedRestart) (target : InternalKey).
Context (Hlaid : laid payload entriesEnd 0 [] items) (Hmarks : marks payload entriesEnd 0 items rs rents)
  (Hsorted : StronglySorted item_lt items) (Hfirst : head rs = Some 0).

Let n := search (length rents) (r_key <$> rents) target 0 (length rents).

Lemma marks_length : length rents = length rs.
Proof. by rewrite <- (marks_offsets _ _ _ _ _ _ Hmarks), length_fmap. Qed.
Lemma search_cut : cut_at (r_key <$> rents) target n.
Proof.
  unfold n. replace (length rents) with (length (r_key <$> rents)) by apply length_fmap.
  apply search_all. by destruct (marks_keys _ _ _ _ _ _ Hmarks Hsorted).
Qed.
(** The selected interval: everything before it is below the target, and the
    restart after it, if any, is not (unless the interval starts there). *)
Lemma selected : exists pre p e mid rest next,
  items = pre ++ ((p, e) :: mid) ++ rest /\ rs !! (n - 1)%nat = Some p /\
  rents !! (n - 1)%nat = Some {| r_offset := p; r_entryIndex := length pre; r_key := e_key e |} /\
  decodeDataEntry payload p entriesEnd [] = Ok (e, next, 0) /\
  Forall (fun i => key_lt (e_key i.2) target) pre /\
  match rs !! S (n - 1) with
  | None => rents !! S (n - 1) = None /\ rest = []
  | Some q => exists e2 suf next2, rest = (q, e2) :: suf /\
      rents !! S (n - 1) = Some {| r_offset := q; r_entryIndex := length pre + S (length mid); r_key := e_key e2 |} /\
      decodeDataEntry payload q entriesEnd [] = Ok (e2, next2, 0) /\ (~ key_lt (e_key e) target \/ ~ key_lt (e_key e2) target)
  end.
Proof.
  pose proof marks_length as Hlen. destruct search_cut as (Hn & Hbelow & Habove). rewrite length_fmap in Hn.
  assert (0 < length rs)%nat by (destruct rs; [done|cbn; lia]).
  destruct (lookup_lt_is_Some_2 rs (n - 1)) as [p Hp]; [lia|].
  destruct (marks_split _ _ _ _ _ _ Hmarks _ _ Hp) as (pre & e & suf & next & Hitems & Hd & Hrent & Hm). cbn in Hrent, Hm.
  assert (Forall (fun i => key_lt (e_key i.2) target) pre) as Hpre.
  { destruct (decide (n = 0)%nat) as [Hz|Hnz].
    - rewrite Hz in Hp. assert (p = 0) as -> by (destruct rs; [done|]; cbn in Hp, Hfirst; congruence). destruct pre as [|i pre]; [constructor|].
      rewrite Hitems in Hlaid. apply laid_advance in Hlaid. cbn in Hlaid. lia.
    - assert (key_lt (e_key e) target) as He.
      { apply (Hbelow (n - 1)%nat); [lia|]. by rewrite list_lookup_fmap, Hrent. }
      apply Forall_forall. intros i Hi. eapply key_lt_trans; [|exact He]. rewrite Hitems in Hsorted.
      apply (StronglySorted_app_1_elem_of _ _ _ i (p, e) Hsorted Hi). constructor. }
  destruct (rs !! S (n - 1)) as [q|] eqn:Hq.
  - assert (drop (S (n - 1)) rs !! 0%nat = Some q) as Hq' by (by rewrite lookup_drop, Nat.add_0_r).
    destruct (marks_split _ _ _ _ _ _ Hm _ _ Hq') as (mid & e2 & suf2 & next2 & -> & Hd2 & Hrent2 & _).
    rewrite lookup_drop, Nat.add_0_r in Hrent2. exists pre, p, e, mid, ((q, e2) :: suf2), next. rewrite Hitems. split_and!; try done.
    exists e2, suf2, next2. rewrite Hrent2, <- Nat.add_succ_comm. split_and!; [done..|].
    destruct (decide (n = 0)%nat) as [Hz|Hnz].
    + left. apply (Habove 0%nat); [lia|]. rewrite Hz in Hrent. cbn in Hrent. by rewrite list_lookup_fmap, Hrent.
    + right. apply (Habove (S (n - 1))); [lia|]. by rewrite list_lookup_fmap, Hrent2.
  - exists pre, p, e, suf, [], next. rewrite Hitems, app_nil_r. split_and!; try done.
    apply lookup_ge_None. apply lookup_ge_None in Hq. lia.
Qed.

(** [seekDataBlock] after the layout is decoded. *)
Lemma seek_laid : entriesEnd < len payload -> 0 < entriesEnd ->
  (left ← search_restarts (length rs) payload entriesEnd rs target 0 (length rs);
   found ← scan_interval (length payload) payload entriesEnd (default entriesEnd (rs !! S (left - 1))) target [] (default 0 (rs !! (left - 1)%nat));
   match found with
   | Some entry => Ok (Some entry)
   | None =>
       match rs !! S (left - 1) with
       | None => Ok None
       | Some following =>
           match decodeDataEntry payload following entriesEnd [] with
           | Err _ => Err (corrupt ErrInvalidBlock)
           | Ok (entry, _, shared) => _ ← check (shared =? 0); Ok (if not_before (e_key entry) target then Some entry else None)
           end
       end
   end) = Ok (head (from_target target items.*2)).
Proof.
  intros Hend Hpos. rewrite (search_restarts_spec _ _ _ _ _ target Hmarks) by lia. cbn [mbind result_bind]. rewrite <- marks_length. fold n.
  destruct selected as (pre & p & e & mid & rest & next & Hitems & Hp & _ & Hd & Hpre & Hq). rewrite Hp. cbn [default from_option id].
  assert (default entriesEnd (rs !! S (n - 1)) = start_of entriesEnd rest) as Hlimit.
  { destruct (rs !! S (n - 1)) as [q|]; [destruct Hq as (e2 & suf & next2 & -> & _); done|]. destruct Hq as [_ ->]. done. }
  assert (exists previous, laid payload entriesEnd p previous (((p, e) :: mid) ++ rest)) as [previous Hl].
  { pose proof Hlaid as Hl. rewrite Hitems in Hl. apply laid_app in Hl. exact Hl. }
  assert (laid payload entriesEnd p [] (((p, e) :: mid) ++ rest)) as Hl0.
  { cbn in Hl |- *. inversion Hl as [|? ? ? next' ? ? Hlt Hd' Hrest]; subst. apply (laid_cons _ _ p [] e next 0); [done|done|].
    by rewrite (decodeDataEntry_next _ _ _ _ _ _ _ _ _ _ _ Hd Hd'). }
  rewrite Hlimit, (scan_interval_spec payload entriesEnd target rest ((p, e) :: mid)); [|done|intros _ i [= <-]; eauto|].
  2:{ pose proof (laid_length _ _ _ _ _ Hlaid) as Hle. rewrite Hitems, !length_app in Hle. unfold len in *. lia. }
  cbn [mbind result_bind]. fold (from_target target ((p, e) :: mid).*2).
  assert (items.*2 = pre.*2 ++ ((p, e) :: mid).*2 ++ rest.*2) as -> by (by rewrite Hitems, !fmap_app).
  assert (from_target target pre.*2 = []) as Hnone.
  { apply from_target_below, Forall_fmap. eapply Forall_impl; [exact Hpre|]. done. }
  rewrite !from_target_app, Hnone. cbn [app].
  destruct (from_target target ((p, e) :: mid).*2) as [|x r] eqn:Hf; [|done]. cbn [head app].
  destruct (rs !! S (n - 1)) as [q|]; [|destruct Hq as [_ ->]; done].
  destruct Hq as (e2 & suf & next2 & -> & _ & Hd2 & Hor). rewrite Hd2. cbn [check require mbind result_bind Z.eqb fmap list_fmap snd].
  rewrite from_target_cons. destruct (not_before (e_key e2) target) eqn:Hb.
  - apply not_before_true in Hb. by rewrite decide_True.
  - apply not_before_false in Hb. cbn in Hf. rewrite from_target_cons in Hf. destruct Hor as [Hor|]; [|done]. by rewrite decide_True in Hf.
Qed.

(** [lowerBound] on the decoded block. *)
Lemma lowerBound_laid handle :
  drop (lowerBound {| k_handle := handle; k_restarts := rs; k_restartEntries := rents; k_entries := items.*2 |} target) items.*2 =
    from_target target items.*2.
Proof.
  unfold lowerBound. cbn [k_restartEntries k_entries]. fold n.
  destruct selected as (pre & p & e & mid & rest & next & Hitems & _ & Hrent & _ & Hpre & Hq). rewrite Hrent. cbn [r_entryIndex].
  assert (items.*2 = pre.*2 ++ ((p, e) :: mid).*2 ++ rest.*2) as Hes by (by rewrite Hitems, !fmap_app).
  assert (from_target target pre.*2 = []) as Hnone.
  { apply from_target_below, Forall_fmap. eapply Forall_impl; [exact Hpre|]. done. }
  set (xs := ((p, e) :: mid).*2 ++ rest.*2) in *. rewrite Hes, from_target_app, Hnone. cbn [app].
  assert (block_sorted xs) as Hs.
  { pose proof (StronglySorted_fmap snd item_lt (fun a b => key_lt (e_key a) (e_key b)) items (fun _ _ H => H) Hsorted) as Hs.
    rewrite Hes in Hs. by apply StronglySorted_app_1_r in Hs. }
  replace (drop (length pre) (pre.*2 ++ xs)) with xs by (symmetry; apply drop_app_length'; by rewrite length_fmap).
  match goal with |- context [scan_entries xs target (length pre) ?l] => pose proof (scan_entries_spec target xs (length pre) l) as Hscan; destruct (scan_entries xs target (length pre) l) as [j|] end;
    cbn [default from_option id].
  - destruct Hscan as (i & x & -> & Hi & Hx & Hf). rewrite drop_app_add' by (by rewrite length_fmap).
    rewrite <- (take_drop i xs) at 2. rewrite from_target_app, (from_target_below target (take i xs)) by done. cbn [app].
    rewrite (drop_S _ _ _ Hi) in *. symmetry. apply from_target_sorted; [|done].
    rewrite <- (take_drop i xs), (drop_S _ _ _ Hi) in Hs. by apply StronglySorted_app_1_r in Hs.
  - rewrite drop_ge by done. symmetry. apply from_target_below. destruct (rs !! S (n - 1)) as [q|].
    + destruct Hq as (e2 & suf & next2 & -> & Hr2 & _ & Hor). rewrite Hr2 in Hscan. cbn [r_entryIndex] in Hscan. exfalso.
      replace (S (length pre + S (length mid)) - length pre)%nat with (length ((p, e) :: mid).*2 + 1)%nat in Hscan by (rewrite length_fmap; cbn; lia).
      unfold xs in Hscan. rewrite take_app_add in Hscan. cbn in Hscan. apply Forall_cons in Hscan as [He Hscan].
      apply Forall_app in Hscan as [_ Hscan]. apply Forall_cons in Hscan as [He2 _]. naive_solver.
    + destruct Hq as [Hr2 ->]. rewrite Hr2, take_ge in Hscan; [done|]. rewrite length_app, length_fmap. lia.
Qed.
End seeking.

(** Everything the block decoder and the two searches establish. *)
Record block_ok (payload : bytes) (block : decodedDataBlock) : Prop := {
  bo_sorted : block_sorted (k_entries block);
  bo_nonempty : k_entries block <> [];
  bo_entries : Forall entry_ok (k_entries block);
  bo_seek : forall target, seekDataBlock payload target = Ok (head (from_target target (k_entries block)));
  bo_lower : forall target, drop (lowerBound block target) (k_entries block) = from_target target (k_entries block)
}.
Lemma decodeDataBlock_ok payload handle block : decodeDataBlock payload handle = Ok block -> block_ok payload block.
Proof.
  unfold decodeDataBlock. intros H. ok_inv H. injection H as <-. rename z into entriesEnd, l into rs, Hx into Hlayout.
  pose proof (decodeRestartLayout_inv _ _ _ Hlayout) as (HE & Hlen & Hfirst).
  apply decode_entries_laid in Hx0 as (items & <- & Hl & Hm & Hs & _ & Hne); [|lia..]. split; cbn [k_entries].
  - by eapply (StronglySorted_fmap snd); [|exact Hs].
  - destruct Hne as [|Hne]; [done|]. by destruct items.
  - apply Forall_fmap. by apply laid_ok in Hl.
  - intros target. unfold seekDataBlock. rewrite Hlayout. cbn [mbind result_bind]. by eapply seek_laid; [..|lia|lia].
  - intros target. by eapply lowerBound_laid.
Qed.

(** ** Round trip of the block builder *)

Definition encode_entry (shared : nat) (e : decodedEntry) : bytes :=
  put_uvarint (Z.of_nat shared) ++ put_uvarint (len (e_encoded e) - Z.of_nat shared) ++ put_uvarint (len (e_value e)) ++
  drop shared (e_encoded e) ++ e_value e.
Definition add_entry (b : dataBlockBuilder) (e : decodedEntry) : dataBlockBuilder := builder_add b (e_encoded e) (e_value e).

Lemma region_app pre suf entriesEnd : len pre <= entriesEnd ->
  region (pre ++ suf) (len pre) entriesEnd = take (Z.to_nat entriesEnd - length pre) suf.
Proof. intros H. unfold region, slice. by rewrite len_to_nat, drop_app_length. Qed.
Lemma read_region pre v post entriesEnd : is_u64 v -> len pre + uvarint_len v <= entriesEnd ->
  readCanonicalUvarint (region (pre ++ put_uvarint v ++ post) (len pre) entriesEnd) = Ok (v, uvarint_len v).
Proof.
  intros Hv Hle. pose proof (uvarint_len_range v). rewrite region_app by lia. apply readCanonical_ok. split_and!; [done|done|].
  unfold uvarint_len in *. rewrite len_to_nat, take_take. rewrite Nat.min_l by (unfold len in *; lia). apply take_app_length.
Qed.
Lemma read_region' pre v post entriesEnd position : is_u64 v -> position = len pre -> len pre + uvarint_len v <= entriesEnd ->
  readCanonicalUvarint (region (pre ++ put_uvarint v ++ post) position entriesEnd) = Ok (v, uvarint_len v).
Proof. intros ? ->. by apply read_region. Qed.
Lemma slice_app_mid {A} (pre mid post : list A) a b : a = length pre -> b = (length pre + length mid)%nat ->
  slice a b (pre ++ mid ++ post) = mid.
Proof. intros -> ->. unfold slice. rewrite drop_app_length. replace (_ - _)%nat with (length mid) by lia. apply take_app_length. Qed.
Lemma slice_app_end {A} (pre mid : list A) a b : a = length pre -> b = (length pre + length mid)%nat -> slice a b (pre ++ mid) = mid.
Proof. intros -> ->. unfold slice. rewrite drop_app_length. apply take_ge. lia. Qed.
Lemma commonPrefix_le a b : (commonPrefix a b <= length a)%nat /\ (commonPrefix a b <= length b)%nat /\
  take (commonPrefix a b) a = take (commonPrefix a b) b.
Proof.
  revert b. induction a as [|x a IH]; intros [|y b]; cbn; [split_and!; done || lia..|]. case_decide as He; cbn; [|split_and!; done || lia].
  subst y. destruct (IH b) as (? & ? & H). rewrite H. split_and!; [lia|lia|done].
Qed.

Section entry.
Context (pre post : bytes) (entriesEnd : Z) (previous : bytes) (shared : nat) (e : decodedEntry).
Context (Hok : entry_ok e) (Hsp : (shared <= length previous)%nat) (Hse : (shared <= length (e_encoded e))%nat)
  (Hshared : take shared previous = take shared (e_encoded e)).

Lemma entry_lengths : is_u64 (Z.of_nat shared) /\ is_u64 (len (e_encoded e) - Z.of_nat shared) /\ is_u64 (len (e_value e)).
Proof.
  pose proof (eo_length _ Hok) as Hl. pose proof (eo_value _ Hok) as Hv. pose proof (len_nonneg (e_value e)).
  change MaxInternalKeySize with 1048585 in Hl. change MaxValueSize with 67108864 in Hv. unfold is_u64, len in *. lia.
Qed.
Lemma encode_entry_len : len (encode_entry shared e) =
  uvarint_len (Z.of_nat shared) + uvarint_len (len (e_encoded e) - Z.of_nat shared) + uvarint_len (len (e_value e)) +
  (len (e_encoded e) - Z.of_nat shared) + len (e_value e).
Proof. unfold encode_entry, uvarint_len. rewrite !len_app. unfold len. rewrite length_drop. lia. Qed.

Lemma decode_encoded_body head : len head + (len (e_encoded e) - Z.of_nat shared) + len (e_value e) <= entriesEnd ->
  decode_body (head ++ drop shared (e_encoded e) ++ e_value e ++ post) entriesEnd previous (Z.of_nat shared)
    (len (e_encoded e) - Z.of_nat shared) (len (e_value e)) (len head) =
  Ok (e, len head + (len (e_encoded e) - Z.of_nat shared) + len (e_value e), Z.of_nat shared).
Proof.
  intros Hle. pose proof (eo_length _ Hok) as Hl. pose proof (eo_value _ Hok) as Hv. pose proof (len_nonneg (e_value e)) as Hv0. pose proof (len_nonneg head) as Hh0.
  assert (MaxInternalKeySize + MaxValueSize < MaxUint64) as Hmax by done.
  assert (Z.of_nat shared <= len (e_encoded e)) as Hse' by (unfold len; lia).
  unfold decode_body, checkedAdd. rewrite (proj2 (Z.leb_le _ (len previous))) by (unfold len; lia).
  rewrite (proj2 (Z.leb_le _ MaxInternalKeySize)), (proj2 (Z.leb_le _ MaxValueSize)) by lia. cbn [andb check require mbind result_bind].
  rewrite !(proj2 (Z.ltb_ge (MaxUint64 - _) _)) by lia. rewrite (proj2 (Z.leb_le _ (entriesEnd - _))) by lia. cbn [check require mbind result_bind].
  replace (Z.of_nat shared + (len (e_encoded e) - Z.of_nat shared)) with (len (e_encoded e)) by lia.
  rewrite (proj2 (Z.leb_le 9 _)), (proj2 (Z.leb_le _ MaxInternalKeySize)) by lia. cbn [andb check require mbind result_bind].
  rewrite Nat2Z.id, Hshared. rewrite slice_app_mid by (rewrite ?length_drop; unfold len in *; lia). rewrite take_drop.
  rewrite (eo_key _ Hok). cbn [or_corrupt mbind result_bind].
  rewrite (app_assoc head). rewrite slice_app_mid by (rewrite ?length_app, ?length_drop; unfold len in *; lia).
  assert (CarriesValue (kind (e_key e)) || (len (e_value e) =? 0) = true) as ->.
  { destruct (CarriesValue (kind (e_key e))) eqn:Hk; [done|]. by rewrite (eo_kind _ Hok Hk). }
  cbn [check require mbind result_bind]. by destruct e.
Qed.
Lemma decode_encoded_entry : len pre + len (encode_entry shared e) <= entriesEnd ->
  decodeDataEntry (pre ++ encode_entry shared e ++ post) (len pre) entriesEnd previous =
    Ok (e, len pre + len (encode_entry shared e), Z.of_nat shared).
Proof.
  intros Hend. pose proof entry_lengths as (H1 & H2 & H3). pose proof encode_entry_len as Hlen. rewrite Hlen in Hend |- *.
  set (sh := Z.of_nat shared) in *. set (un := len (e_encoded e) - sh) in *. set (vl := len (e_value e)) in *.
  pose proof (uvarint_len_range sh). pose proof (uvarint_len_range un). pose proof (uvarint_len_range vl).
  unfold decodeDataEntry, decode_lengths, encode_entry. fold sh un vl. rewrite <- !app_assoc.
  rewrite read_region' by (done || (unfold is_u64 in *; lia)). cbn [or_corrupt mbind result_bind].
  rewrite (app_assoc pre). rewrite read_region' by (done || (rewrite ?len_app; unfold is_u64, uvarint_len in *; lia)). cbn [or_corrupt mbind result_bind].
  rewrite (app_assoc (pre ++ _)). rewrite read_region' by (done || (rewrite ?len_app; unfold is_u64, uvarint_len in *; lia)). cbn [or_corrupt mbind result_bind].
  rewrite (app_assoc ((pre ++ _) ++ _)). set (head := ((pre ++ put_uvarint sh) ++ put_uvarint un) ++ put_uvarint vl).
  assert (len pre + uvarint_len sh + uvarint_len un + uvarint_len vl = len head) as ->.
  { unfold head, uvarint_len. rewrite !len_app. lia. }
  unfold un, vl, sh in *. rewrite decode_encoded_body; [do 3 f_equal|]; unfold head; rewrite !len_app; unfold uvarint_len in *; lia.
Qed.
End entry.

Definition shared_of (b : dataBlockBuilder) (e : decodedEntry) : nat :=
  if at_restart b then O else commonPrefix (b_previousKey b) (e_encoded e).
(** The bytes and the restart offsets that adding [es] appends. *)
Fixpoint body (b : dataBlockBuilder) (es : list decodedEntry) : bytes :=
  match es with [] => [] | e :: es' => encode_entry (shared_of b e) e ++ body (add_entry b e) es' end.
Fixpoint offsets (b : dataBlockBuilder) (es : list decodedEntry) : list Z :=
  match es with
  | [] => []
  | e :: es' => (if at_restart b then [len (b_buffer b)] else []) ++ offsets (add_entry b e) es'
  end.
Definition add_entries (b : dataBlockBuilder) (es : list decodedEntry) : dataBlockBuilder := foldl add_entry b es.

Lemma add_entry_buffer b e : b_buffer (add_entry b e) = b_buffer b ++ encode_entry (shared_of b e) e.
Proof. done. Qed.
Lemma add_entries_buffer es : forall b, b_buffer (add_entries b es) = b_buffer b ++ body b es.
Proof.
  induction es as [|e es IH]; intros b; cbn [add_entries foldl body]; [by rewrite app_nil_r|]. fold (add_entries (add_entry b e) es).
  by rewrite IH, add_entry_buffer, app_assoc.
Qed.
Lemma add_entries_restarts es : forall b, len (b_buffer b ++ body b es) <= MaxUint32 ->
  b_restarts (add_entries b es) = b_restarts b ++ offsets b es.
Proof.
  induction es as [|e es IH]; intros b Hle; cbn [add_entries foldl body offsets] in *; [by rewrite app_nil_r|]. fold (add_entries (add_entry b e) es).
  rewrite IH by (by rewrite add_entry_buffer, <- app_assoc). rewrite len_app in Hle.
  pose proof (len_nonneg (b_buffer b)). pose proof (len_nonneg (encode_entry (shared_of b e) e ++ body (add_entry b e) es)).
  unfold add_entry at 1, builder_add. cbn [b_restarts]. destruct (at_restart b); [|done].
  rewrite u32_id by (unfold is_u32, MaxUint32 in *; lia). by rewrite <- app_assoc.
Qed.
Lemma encode_entry_pos shared e : 0 < len (encode_entry shared e).
Proof.
  unfold encode_entry. rewrite !len_app. pose proof (uvarint_len_range (Z.of_nat shared)). unfold uvarint_len in *.
  pose proof (len_nonneg (put_uvarint (len (e_encoded e) - Z.of_nat shared))). pose proof (len_nonneg (put_uvarint (len (e_value e)))).
  pose proof (len_nonneg (drop shared (e_encoded e))). pose proof (len_nonneg (e_value e)). lia.
Qed.
Lemma body_length es : forall b, (length es <= length (body b es))%nat.
Proof.
  induction es as [|e es IH]; intros b; cbn [length body]; [lia|]. rewrite length_app.
  pose proof (encode_entry_pos (shared_of b e) e). specialize (IH (add_entry b e)). unfold len in *. lia.
Qed.
Lemma offsets_range es : forall b, Forall (fun o => len (b_buffer b) <= o < len (b_buffer b ++ body b es)) (offsets b es) /\
  StronglySorted Z.lt (offsets b es).
Proof.
  induction es as [|e es IH]; intros b; cbn [offsets body]; [split; constructor|]. destruct (IH (add_entry b e)) as [Hr Hs].
  rewrite add_entry_buffer, <- app_assoc in Hr. pose proof (encode_entry_pos (shared_of b e) e) as Hpos.
  assert (Forall (fun o => len (b_buffer b) < o < len (b_buffer b ++ encode_entry (shared_of b e) e ++ body (add_entry b e) es)) (offsets (add_entry b e) es)) as Hr'.
  { eapply Forall_impl; [exact Hr|]. cbn. intros o. rewrite (len_app (b_buffer b) (encode_entry _ _)). lia. }
  split.
  - apply Forall_app. split; [|eapply Forall_impl; [exact Hr'|]; cbn; lia]. destruct (at_restart b); constructor; [|constructor].
    rewrite !len_app. pose proof (len_nonneg (body (add_entry b e) es)). lia.
  - destruct (at_restart b); [|done]. cbn. constructor; [done|]. eapply Forall_impl; [exact Hr'|]. cbn. lia.
Qed.
Lemma shared_of_ok b e : (shared_of b e <= length (b_previousKey b))%nat /\ (shared_of b e <= length (e_encoded e))%nat /\
  take (shared_of b e) (b_previousKey b) = take (shared_of b e) (e_encoded e).
Proof. unfold shared_of. destruct (at_restart b); [split_and!; done || lia|]. apply commonPrefix_le. Qed.

Lemma offsets_head b e es : match offsets b (e :: es) with r :: _ => r =? len (b_buffer b) | [] => false end = at_restart b.
Proof.
  cbn [offsets]. destruct (at_restart b); cbn; [apply Z.eqb_refl|]. destruct (offsets_range es (add_entry b e)) as [Hr _].
  destruct Hr as [|o l Ho _]; [done|]. rewrite add_entry_buffer, len_app in Ho. pose proof (encode_entry_pos (shared_of b e) e). apply Z.eqb_neq. lia.
Qed.
Lemma offsets_tail b e es : (if at_restart b then tail (offsets b (e :: es)) else offsets b (e :: es)) = offsets (add_entry b e) es.
Proof. cbn [offsets]. by destruct (at_restart b). Qed.

Lemma decode_added tail es : forall fuel b index previous, Forall entry_ok es -> block_sorted (option_list previous ++ es) ->
  match previous with Some p => e_encoded p | None => [] end = b_previousKey b -> (index <> O \/ es <> []) -> (length es <= fuel)%nat ->
  len (b_buffer b ++ body b es) <= MaxUint32 ->
  exists rents, decode_entries fuel (b_buffer b ++ body b es ++ tail) (len (b_buffer b ++ body b es)) (len (b_buffer b)) index previous (offsets b es) = Ok (es, rents).
Proof.
  induction es as [|e es IH]; intros fuel b index previous Hok Hs Hprev Hne Hf HE.
  { exists []. cbn [body offsets]. rewrite app_nil_r. destruct Hne as [Hne|]; [|done].
    destruct fuel; cbn [decode_entries]; rewrite Z.ltb_irrefl, Z.eqb_refl; (rewrite (proj2 (Nat.eqb_neq index 0)) by done); done. }
  destruct fuel as [|fuel]; [cbn in Hf; lia|]. apply Forall_cons in Hok as [He Hok]. destruct (shared_of_ok b e) as (Hs1 & Hs2 & Hs3).
  pose proof (encode_entry_pos (shared_of b e) e) as Hpos. cbn [body] in HE |- *. set (E := len (b_buffer b ++ encode_entry (shared_of b e) e ++ body (add_entry b e) es)) in *.
  assert (len (b_buffer b) + len (encode_entry (shared_of b e) e) <= E) as Hle.
  { unfold E. rewrite !len_app. pose proof (len_nonneg (body (add_entry b e) es)). lia. }
  cbn [decode_entries]. rewrite (proj2 (Z.ltb_lt _ _)) by lia. rewrite Hprev, <- (app_assoc (encode_entry _ _)).
  rewrite decode_encoded_entry by done. cbn [mbind result_bind].
  pose proof (len_nonneg (b_buffer b)). rewrite u32_id by (unfold is_u32, MaxUint32 in *; lia). rewrite offsets_head, offsets_tail.
  assert (at_restart b && negb (Z.of_nat (shared_of b e) =? 0) = false) as ->.
  { unfold shared_of. by destruct (at_restart b). }
  assert (match previous with Some p => negb (not_before (e_key p) (e_key e)) | None => true end = true) as ->.
  { destruct previous as [p|]; [|done]. cbn in Hs. apply StronglySorted_cons in Hs as [[Hpe _]%Forall_cons _]. by rewrite (proj2 (not_before_false _ _)). }
  cbn [negb check require mbind result_bind].
  destruct (IH fuel (add_entry b e) (S index) (Some e)) as [rents Hr]; [done| |done|by left|cbn in Hf; lia| |].
  - destruct previous; cbn in Hs |- *; [|done]. by apply StronglySorted_cons in Hs as [_ ?].
  - by rewrite add_entry_buffer, <- app_assoc.
  - rewrite add_entry_buffer, <- !app_assoc in Hr. fold E in Hr. rewrite len_app in Hr. rewrite Hr. cbn [mbind result_bind]. eauto.
Qed.

Lemma decode_restarts_encode entriesEnd rs : forall previous rest, entriesEnd <= MaxUint32 -> Forall (fun o => 0 <= o < entriesEnd) rs -> StronglySorted Z.lt rs ->
  match previous with Some p => Forall (Z.lt p) rs | None => match rs with r :: _ => r = 0 | [] => True end end ->
  decode_restarts (concat (le_put 4 <$> rs) ++ rest) (length rs) previous entriesEnd = Ok rs.
Proof.
  induction rs as [|r rs IH]; intros previous rest HE Hr Hs Hp; [done|]. apply Forall_cons in Hr as [Hr Hrs]. apply StronglySorted_cons in Hs as [Hlt Hs].
  cbn [length decode_restarts fmap list_fmap concat]. rewrite <- app_assoc.
  assert (slice 0 4 (le_put 4 r ++ concat (le_put 4 <$> rs) ++ rest) = le_put 4 r) as ->.
  { unfold slice. rewrite drop_0. by rewrite take_app_length' by (by rewrite le_put_length). }
  rewrite le_get_put32 by (unfold is_u32, MaxUint32 in *; lia). rewrite (proj2 (Z.ltb_lt _ _)) by lia.
  assert (match previous with Some p => p <? r | None => r =? 0 end = true) as ->.
  { destruct previous as [p|]; [apply Forall_cons in Hp as [Hp _]; by apply Z.ltb_lt|by apply Z.eqb_eq]. }
  cbn [andb check require mbind result_bind]. rewrite drop_app_length' by (by rewrite le_put_length). rewrite IH; done.
Qed.
Lemma concat_le_put4 rs : len (concat (le_put 4 <$> rs)) = len rs * 4.
Proof. induction rs as [|r rs IH]; [done|]. rewrite fmap_cons. cbn [concat]. rewrite len_app, len_cons, IH. unfold len. rewrite le_put_length. lia. Qed.
Lemma decodeRestartLayout_encode buffer rs : buffer <> [] -> head rs = Some 0 -> Forall (fun o => 0 <= o < len buffer) rs -> StronglySorted Z.lt rs ->
  len (buffer ++ concat (le_put 4 <$> rs) ++ le_put 4 (u32 (len rs))) <= MaxDataBlockSize ->
  decodeRestartLayout (buffer ++ concat (le_put 4 <$> rs) ++ le_put 4 (u32 (len rs))) = Ok (len buffer, rs).
Proof.
  intros Hb Hh Hr Hs Hmax. set (payload := buffer ++ _) in *. pose proof (len_nonneg rs).
  assert (0 < len buffer) by (destruct buffer; [done|rewrite len_cons; pose proof (len_nonneg buffer); lia]).
  assert (0 < len rs) by (destruct rs; [done|rewrite len_cons; pose proof (len_nonneg rs); lia]).
  assert (len payload = len buffer + len rs * 4 + 4) as Hlen.
  { unfold payload. rewrite !len_app, concat_le_put4. unfold len at 3. rewrite le_put_length. lia. }
  change MaxDataBlockSize with 68157487 in *. assert (u32 (len rs) = len rs) as Hu by (apply u32_id; unfold is_u32; lia).
  unfold decodeRestartLayout. rewrite (proj2 (Z.leb_le 8 _)), (proj2 (Z.leb_le _ MaxDataBlockSize)) by (change MaxDataBlockSize with 68157487; lia).
  cbn [andb check require mbind result_bind].
  assert (slice (length payload - 4) (length payload) payload = le_put 4 (len rs)) as ->.
  { unfold payload at 3. rewrite Hu, app_assoc. apply slice_app_end; unfold payload; rewrite !length_app, !le_put_length; lia. }
  rewrite le_get_put32 by (unfold is_u32; lia). rewrite (proj2 (Z.eqb_neq _ _)) by lia.
  rewrite (proj2 (Z.leb_le (len rs) _)) by (apply Z.div_le_lower_bound; lia). cbn [negb andb check require mbind result_bind].
  replace (len payload - 4 - len rs * 4) with (len buffer) by lia. rewrite (proj2 (Z.eqb_neq _ _)), (proj2 (Z.leb_le _ MaxUint32)) by (unfold MaxUint32; lia).
  cbn [negb andb check require mbind result_bind]. rewrite !len_to_nat.
  assert (slice (length buffer) (length payload - 4) payload = concat (le_put 4 <$> rs)) as ->.
  { apply slice_app_mid; [done|]. unfold payload. rewrite !length_app, le_put_length. lia. }
  rewrite <- (app_nil_r (concat _)), decode_restarts_encode; [done|unfold MaxUint32; lia|done|done|].
  destruct rs; [done|]. cbn in Hh. congruence.
Qed.
Lemma block_roundtrip interval es handle : es <> [] -> Forall entry_ok es -> block_sorted es ->
  len (builder_finish (add_entries (newDataBlockBuilder interval) es)) <= MaxDataBlockSize ->
  exists block, decodeDataBlock (builder_finish (add_entries (newDataBlockBuilder interval) es)) handle = Ok block /\
    k_entries block = es /\ k_handle block = handle.
Proof.
  intros Hne Hok Hs Hmax. set (b := newDataBlockBuilder interval) in *. unfold builder_finish in *.
  assert (len (body b es) <= MaxUint32) as HE.
  { rewrite add_entries_buffer, len_app in Hmax. change (b_buffer b) with (@nil byte) in Hmax. cbn [app] in Hmax. change MaxDataBlockSize with 68157487 in Hmax.
    match type of Hmax with _ + len ?x <= _ => pose proof (len_nonneg x) end. unfold MaxUint32. lia. }
  rewrite add_entries_restarts, add_entries_buffer in * by done. change (b_buffer b) with (@nil byte) in *. change (b_restarts b) with (@nil Z) in *.
  cbn [app] in *. destruct (offsets_range es b) as [Hr Hsr].
  assert (at_restart b = true) as Hb by (unfold at_restart; cbn [b b_entries b_restartInterval newDataBlockBuilder]; by rewrite Zmod_0_l).
  unfold decodeDataBlock. rewrite decodeRestartLayout_encode; [| | |done|done|done].
  - cbn [mbind result_bind].
    match goal with |- context [decode_entries ?f (body b es ++ ?t) _ _ _ _ _] => destruct (decode_added t es f b 0 None) as [rents Hd] end;
      [done|done|done|by right| |done|].
    { rewrite !length_app. pose proof (body_length es b). lia. }
    change (b_buffer b) with (@nil byte) in Hd. cbn [app] in Hd. rewrite len_nil in Hd. rewrite Hd. cbn [mbind result_bind]. eauto.
  - destruct es as [|e es]; [done|]. cbn [body]. pose proof (encode_entry_pos (shared_of b e) e) as Hp. intros [Hx _]%app_nil. rewrite Hx in Hp. done.
  - destruct es as [|e es]; [done|]. cbn [offsets]. by rewrite Hb.
Qed.
