(* ===== verification/SSTableFormat.v ===== *)
(** * Round trips of the table's structural blocks

    Bloom filter (no false negatives), index, metadata, block trailer and
    footer: what the writer encodes, the reader decodes. *)

From S2P Require Import Prelude Varint InternalKey Crc32c Codec MvccStore SSTable SSTableBlock.
Import sstable.

(** ** Bloom filter *)

Lemma set_bit_length q b : length (set_bit q b) = length b.
Proof. apply length_alter. Qed.
Lemma shiftl_one_range k : 0 <= k < 8 -> 0 <= Z.shiftl 1 k < 256.
Proof. intros Hk. rewrite Z.shiftl_1_l. split; [lia|]. change 256 with (2 ^ 8). apply Z.pow_lt_mono_r; lia. Qed.
Lemma lor_byte o k : 0 <= k < 8 -> byte.unsigned (byte.of_Z (Z.lor (byte.unsigned o) (Z.shiftl 1 k))) = Z.lor (byte.unsigned o) (Z.shiftl 1 k).
Proof.
  intros Hk. apply unsigned_byte_small. pose proof (byte.unsigned_range o) as Ho. pose proof (shiftl_one_range k Hk) as Hs.
  split; [apply Z.lor_nonneg; lia|]. change 256 with (2 ^ 8). apply bits_below; [done|apply Z.lor_nonneg; lia|]. intros i Hi.
  rewrite Z.lor_spec, !(testbit_above _ 8) by lia. done.
Qed.
Lemma land_shiftl_one z k : 0 <= k -> negb (Z.land z (Z.shiftl 1 k) =? 0) = Z.testbit z k.
Proof.
  intros Hk. rewrite Z.shiftl_1_l. destruct (Z.testbit z k) eqn:Hb.
  - apply negb_true_iff, Z.eqb_neq. intros H0. apply (f_equal (fun x => Z.testbit x k)) in H0.
    rewrite Z.land_spec, Z.pow2_bits_true, Hb, Z.bits_0 in H0 by done. done.
  - apply negb_false_iff, Z.eqb_eq, Z.bits_inj'. intros i Hi. rewrite Z.land_spec, Z.bits_0, Z.pow2_bits_eqb by done.
    destruct (Z.eqb_spec k i) as [<-|]; [by rewrite Hb|apply andb_false_r].
Qed.
(** A bit is set afterwards if it was, or if it is the one. *)
Lemma get_set_bit p q b : 0 <= p -> 0 <= q < len b * 8 -> get_bit p (set_bit q b) = (p =? q) || get_bit p b.
Proof.
  intros Hp Hq. unfold get_bit, set_bit. pose proof (Z.mod_pos_bound p 8 ltac:(lia)) as Hmp. pose proof (Z.mod_pos_bound q 8 ltac:(lia)) as Hmq.
  assert (0 <= p / 8) by (apply Z.div_pos; lia). assert (0 <= q / 8 < len b) as Hdq by (split; [apply Z.div_pos|apply Z.div_lt_upper_bound]; lia).
  destruct (decide (p / 8 = q / 8)) as [He|Hne].
  - rewrite He, list_lookup_alter_eq. destruct (lookup_lt_is_Some_2 b (Z.to_nat (q / 8))) as [o Ho]; [unfold len in *; lia|]. rewrite Ho. cbn.
    rewrite !land_shiftl_one, lor_byte, Z.lor_spec, Z.shiftl_1_l, Z.pow2_bits_eqb by lia. rewrite orb_comm. f_equal.
    destruct (Z.eqb_spec p q) as [->|Hpq]; [apply Z.eqb_refl|]. apply Z.eqb_neq. intros Hm. apply Hpq.
    rewrite (Z.div_mod p 8), (Z.div_mod q 8) by done. lia.
  - rewrite list_lookup_alter_ne by lia. destruct (Z.eqb_spec p q) as [->|]; done.
Qed.

Section bits.
Context (f : bloomFilter) (Hbits : 0 < len (bits f)).
Lemma position_range h probe : 0 <= bloom_position f h probe < len (bits f) * 8.
Proof. unfold bloom_position, bit_count. apply Z.mod_pos_bound. lia. Qed.
Lemma set_bits_spec h ps : forall b, length b = length (bits f) ->
  length (foldl (fun b probe => set_bit (bloom_position f h probe) b) b ps) = length b /\
  forall p, 0 <= p -> get_bit p (foldl (fun b probe => set_bit (bloom_position f h probe) b) b ps) =
    get_bit p b || existsb (fun probe => p =? bloom_position f h probe) ps.
Proof.
  induction ps as [|probe ps IH]; intros b Hb; cbn [foldl existsb]; [split; [done|intros; by rewrite orb_false_r]|].
  destruct (IH (set_bit (bloom_position f h probe) b)) as [Hl Hg]; [by rewrite set_bit_length|]. rewrite set_bit_length in Hl.
  split; [done|]. intros p Hp. rewrite Hg by done. pose proof (position_range h probe).
  rewrite get_set_bit by (unfold len in *; lia || done). destruct (p =? _), (get_bit p b); done.
Qed.
End bits.
Lemma bloom_add_spec f h : 0 < len (bits f) ->
  length (bits (bloom_add f h)) = length (bits f) /\ probes (bloom_add f h) = probes f /\
  (forall p, 0 <= p -> get_bit p (bits f) = true -> get_bit p (bits (bloom_add f h)) = true) /\
  (forall probe, probe ∈ probe_list f -> get_bit (bloom_position f h probe) (bits (bloom_add f h)) = true).
Proof.
  intros Hf. destruct (set_bits_spec f Hf h (probe_list f) (bits f) eq_refl) as [Hl Hg]. unfold bloom_add. cbn [bits probes].
  split_and!; [done|done|intros p Hp Hb; by rewrite Hg, Hb by done|]. intros probe Hin. pose proof (position_range f Hf h probe). rewrite Hg by lia.
  apply orb_true_iff. right. apply existsb_exists. exists probe. split; [by apply list_elem_of_In|apply Z.eqb_refl].
Qed.
Lemma position_length f g h probe : length (bits f) = length (bits g) -> bloom_position f h probe = bloom_position g h probe.
Proof. intros H. unfold bloom_position, bit_count, len. by rewrite H. Qed.
Lemma bloom_adds hashes : forall f, 0 < len (bits f) ->
  length (bits (foldl bloom_add f hashes)) = length (bits f) /\ probes (foldl bloom_add f hashes) = probes f /\
  (forall p, 0 <= p -> get_bit p (bits f) = true -> get_bit p (bits (foldl bloom_add f hashes)) = true) /\
  (forall h probe, h ∈ hashes -> probe ∈ probe_list f -> get_bit (bloom_position f h probe) (bits (foldl bloom_add f hashes)) = true).
Proof.
  induction hashes as [|h hashes IH]; intros f Hf; cbn [foldl]; [split_and!; try done; intros ? ? Hh; by apply not_elem_of_nil in Hh|].
  destruct (bloom_add_spec f h Hf) as (Hl & Hp & Hmono & Hset). destruct (IH (bloom_add f h)) as (Hl' & Hp' & Hmono' & Hset'); [unfold len in *; lia|].
  split_and!; [by rewrite Hl'|by rewrite Hp'|intros p Hpos Hb; apply Hmono', Hmono; done|]. intros h' probe [->|Hin]%elem_of_cons Hprobe.
  - apply Hmono'; [apply position_range; done|]. by apply Hset.
  - rewrite <- (position_length (bloom_add f h) f) by done. apply Hset'; [done|]. unfold probe_list. by rewrite Hp.
Qed.

Lemma bloom_bit_count_ok hashes : 64 <= bloom_bit_count hashes /\ bloom_bit_count hashes mod 8 = 0.
Proof.
  unfold bloom_bit_count. set (n := if _ <? 64 then 64 else _). assert (64 <= n) by (unfold n; destruct (Z.ltb_spec (len hashes * bloomBitsPerKey) 64); lia).
  clearbody n. rewrite Z.ldiff_ones_r_low || idtac. change 7 with (Z.ones 3). rewrite Z.ldiff_ones_r by done.
  rewrite Z.shiftl_mul_pow2, Z.shiftr_div_pow2 by done. change (2 ^ 3) with 8. split; [|by rewrite Z.mod_mul].
  change (Z.ones 3) with 7. pose proof (Z.div_mod (n + 7) 8). pose proof (Z.mod_pos_bound (n + 7) 8). lia.
Qed.
(** What the writer encodes decodes, and answers yes for every key added. *)
Lemma bloom_roundtrip hashes payload : encodeBloom hashes = Ok payload ->
  exists f, decodeBloom payload = Ok f /\ forall key, hashBloomKey key ∈ hashes -> mayContain f key = true.
Proof.
  unfold encodeBloom. destruct (MaxUint32 / bloomBitsPerKey <? len hashes); [done|]. destruct (bloom_bit_count_ok hashes) as [H64 H8].
  set (n := bloom_bit_count hashes) in *. destruct (Z.ltb_spec maxBloomBytes (n / 8)) as [|Hmax]; [done|]. destruct (Z.ltb_spec MaxUint32 n) as [|Hu]; [done|].
  cbn [orb]. set (f := {| bits := replicate _ _; probes := _ |}). intros <-%Ok_inj.
  assert (n = 8 * (n / 8)) as Hn by (rewrite (Z.div_mod n 8) at 1 by done; lia).
  assert (len (bits f) = n / 8) as Hlen by (unfold f, len; cbn [bits]; rewrite length_replicate; lia).
  destruct (bloom_adds hashes f) as (Hl & Hp & _ & Hset); [lia|]. set (g := foldl bloom_add f hashes) in *.
  exists {| bits := bits g; probes := byte.unsigned bloomProbes |}. split.
  - unfold decodeBloom. fields. rewrite !Z.eqb_refl.
    rewrite (proj2 (Z.ltb_ge _ bloomHeaderSize)).
    2:{ rewrite !len_app, !len_le_put, !len_cons, len_nil. pose proof (len_nonneg (bits g)). unfold bloomHeaderSize. lia. }
    cbn [orb negb].
    rewrite le_get_put32 by (unfold is_u32, MaxUint32 in *; lia).
    rewrite (proj2 (Z.ltb_ge n 64)), H8, (proj2 (Z.ltb_ge maxBloomBytes _)) by done. cbn [orb negb Z.eqb].
    rewrite !len_app, !len_le_put, !len_cons, len_nil. assert (len (bits g) = n / 8) as Hg by (unfold len in *; lia). rewrite Hg.
    replace (_ - bloomHeaderSize) with (n / 8) by (unfold bloomHeaderSize; lia). by rewrite Z.eqb_refl.
  - intros key Hin. unfold mayContain. cbn [bits]. apply orb_true_iff. right. apply forallb_forall. intros probe Hprobe%list_elem_of_In.
    rewrite <- (Hset (hashBloomKey key) probe Hin); [|done]. f_equal. by apply position_length.
Qed.
