(* ===== verification/SSTableWriter.v ===== *)
(** * The table writer (storage/sstable/writer.go)

    [Writer] is the record of the source; an operation is a function from the
    writer to the writer and a result.  The file is the interface of Files.v
    and the publication of the finished file ([rename], [remove],
    [openDirectory]) is an interface of its own.  Opening by path, and so
    [OpenWriter]'s checks of the directory, are not modelled; [newWriter] is
    the state it starts from. *)

From S2P Require Import Prelude Varint InternalKey Crc32c Files MvccStore SSTable.
Import sstable.

Module writer.

(** [publicationOps]; the booleans are errors. *)
Class Publication `{WritableFile} := {
  FS : Type;
  rename : FS -> FS * bool;
  remove : FS -> FS * option bool;    (* [Some true]: the path does not exist *)
  openDirectory : FS -> FS * option Dir
}.

Section writer.
Context `{Publication}.

Record Metadata := {
  SmallestInternal : InternalKey; LargestInternal : InternalKey; SmallestUser : bytes; LargestUser : bytes;
  FileNumber : Z; FileSize : Z; EntryCount : Z; DeletionCount : Z; RawKeyValueBytes : Z; DataBlockCount : Z
}.
Record indexEntry := { x_lastKey : bytes; x_handle : BlockHandle }.

Record Writer := mkWriter {
  file : File; fs : FS; fileNumber : Z; blockSize : Z; block : dataBlockBuilder; index : list indexEntry; offset : Z;
  entryCount : Z; deletionCount : Z; rawBytes : Z; lastKey : InternalKey; lastEncoded : bytes;
  smallestKey : InternalKey; smallestUser : bytes; largestUser : bytes; lastBloomUser : bytes; bloomHashes : list bloomHash;
  haveBloomUser : bool; enableBloom : bool; haveEntry : bool; failed : option errors; finished : bool; aborted : bool;
  fileClosed : bool; metadata : option Metadata; abortErr : option errors
}.
Definition writer_eta (w : Writer) : Writer :=
  mkWriter (file w) (fs w) (fileNumber w) (blockSize w) (block w) (index w) (offset w) (entryCount w) (deletionCount w) (rawBytes w)
    (lastKey w) (lastEncoded w) (smallestKey w) (smallestUser w) (largestUser w) (lastBloomUser w) (bloomHashes w) (haveBloomUser w)
    (enableBloom w) (haveEntry w) (failed w) (finished w) (aborted w) (fileClosed w) (metadata w) (abortErr w).
Ltac set_field proj w v :=
  let e := eval cbv [writer_eta] in (writer_eta w) in
  match e with context C [proj w] => let t := context C [v] in exact t end.
Definition set_file (v : File) (w : Writer) : Writer := ltac:(set_field file w v).
Definition set_fs (v : FS) (w : Writer) : Writer := ltac:(set_field fs w v).
Definition set_block (v : dataBlockBuilder) (w : Writer) : Writer := ltac:(set_field block w v).
Definition set_index (v : list indexEntry) (w : Writer) : Writer := ltac:(set_field index w v).
Definition set_offset (v : Z) (w : Writer) : Writer := ltac:(set_field offset w v).
Definition set_entryCount (v : Z) (w : Writer) : Writer := ltac:(set_field entryCount w v).
Definition set_deletionCount (v : Z) (w : Writer) : Writer := ltac:(set_field deletionCount w v).
Definition set_rawBytes (v : Z) (w : Writer) : Writer := ltac:(set_field rawBytes w v).
Definition set_lastKey (v : InternalKey) (w : Writer) : Writer := ltac:(set_field lastKey w v).
Definition set_lastEncoded (v : bytes) (w : Writer) : Writer := ltac:(set_field lastEncoded w v).
Definition set_smallestKey (v : InternalKey) (w : Writer) : Writer := ltac:(set_field smallestKey w v).
Definition set_smallestUser (v : bytes) (w : Writer) : Writer := ltac:(set_field smallestUser w v).
Definition set_largestUser (v : bytes) (w : Writer) : Writer := ltac:(set_field largestUser w v).
Definition set_lastBloomUser (v : bytes) (w : Writer) : Writer := ltac:(set_field lastBloomUser w v).
Definition set_bloomHashes (v : list bloomHash) (w : Writer) : Writer := ltac:(set_field bloomHashes w v).
Definition set_haveBloomUser (v : bool) (w : Writer) : Writer := ltac:(set_field haveBloomUser w v).
Definition set_haveEntry (v : bool) (w : Writer) : Writer := ltac:(set_field haveEntry w v).
Definition set_failed (v : option errors) (w : Writer) : Writer := ltac:(set_field failed w v).
Definition set_finished (v : bool) (w : Writer) : Writer := ltac:(set_field finished w v).
Definition set_aborted (v : bool) (w : Writer) : Writer := ltac:(set_field aborted w v).
Definition set_fileClosed (v : bool) (w : Writer) : Writer := ltac:(set_field fileClosed w v).
Definition set_metadata (v : option Metadata) (w : Writer) : Writer := ltac:(set_field metadata w v).
Definition set_abortErr (v : option errors) (w : Writer) : Writer := ltac:(set_field abortErr w v).

(** ** Operations on the writer *)

Definition M (A : Type) : Type := Writer -> Writer * res A.
#[local] Instance M_ret : MRet M := fun A a w => (w, Ok a).
#[local] Instance M_bind : MBind M := fun A B f m w =>
  match m w with (w', Ok a) => f a w' | (w', Err e) => (w', Err e) end.
Definition fails {A} (e : errors) : M A := fun w => (w, Err e).
Definition get : M Writer := fun w => (w, Ok w).
Definition modify (f : Writer -> Writer) : M unit := fun w => (f w, Ok tt).

Definition newWriter (f : File) (s : FS) (number size interval : Z) (bloom : bool) : Writer :=
  mkWriter f s number size (newDataBlockBuilder interval) [] 0 0 0 0 {| userKey := []; sequence := 0; kind := KindDelete |} []
    {| userKey := []; sequence := 0; kind := KindDelete |} [] [] [] [] false bloom false None false false false None None.

(** [return w.poison(cause)] *)
Definition poison {A} (cause : errors) : M A := fun w =>
  match failed w with
  | Some e => (w, Err e)
  | None => (set_failed (Some (ErrWriterFailed :: cause)) w, Err (ErrWriterFailed :: cause))
  end.
Definition stateError : M unit := fun w =>
  if finished w then (w, Err [ErrFinished]) else if aborted w then (w, Err [ErrAborted])
  else match failed w with Some e => (w, Err e) | None => (w, Ok tt) end.

(** [writeAll]; every iteration that does not return writes at least one byte. *)
Fixpoint write_loop (fuel : nat) (data : bytes) : M unit :=
  match fuel with
  | O => mret tt
  | S fuel' =>
      match data with
      | [] => mret tt
      | _ => fun w =>
          let '(f, (n, err)) := file_write (file w) data in
          let w := set_file f w in
          if (n <? 0) || (len data <? n) then poison [ErrShortWrite] w
          else
            let w := set_offset (u64 (offset w + n)) w in
            if err : bool then poison [ErrIO] w
            else if n =? 0 then poison [ErrShortWrite] w
            else write_loop fuel' (drop (Z.to_nat n) data) w
      end
  end.
Definition writeAll (data : bytes) : M unit := write_loop (length data) data.

Definition writeBlock (payload : bytes) (kind : blockKind) : M BlockHandle := fun w =>
  let encoded := appendBlockTrailer payload kind in
  let length := len encoded in
  if match checkedAdd (offset w) length with Some e => e <=? MaxTableSize - FooterSize | None => false end then
    let handle := {| Offset := offset w; Length := length |} in
    (_ ← writeAll encoded; mret handle) w
  else poison [ErrTableTooLarge] w.

Definition flushDataBlock : M unit := fun w =>
  if builder_empty (block w) then (w, Ok tt)
  else if MaxUint32 <=? len (index w) then poison [ErrTooManyBlocks] w
  else
    let payload := builder_finish (block w) in
    if MaxDataBlockSize <? len payload then poison [ErrEntryTooLarge] w
    else
      (handle ← writeBlock payload blockData;
       modify (fun w => set_block (builder_reset (block w))
                (set_index (index w ++ [{| x_lastKey := lastEncoded w; x_handle := handle |}]) w))) w.

Definition cloneInternalKey (k : InternalKey) : InternalKey := k.

(** The checks of [Add] that do not look at the writer. *)
Definition check_entry (key : InternalKey) (value : bytes) : res unit :=
  let encoded := Encode key in
  _ ← require (len (userKey key) <=? MaxUserKeySize) [ErrKeyTooLarge];
  _ ← require (len encoded <=? MaxInternalKeySize) [ErrKeyTooLarge];
  _ ← require (len value <=? MaxValueSize) [ErrValueTooLarge];
  _ ← require (CarriesValue (kind key) || (len value =? 0)) [ErrDeleteHasValue];
  match checkedAdd (len encoded) (len value) with
  | None => Err [ErrEntryTooLarge]
  | Some entrySize =>
      _ ← require (entrySize <=? MaxEntrySize) [ErrEntryTooLarge];
      match checkedAdd entrySize 30 with
      | None => Err [ErrEntryTooLarge]
      | Some entrySize => require (entrySize <=? MaxEntrySize) [ErrEntryTooLarge]
      end
  end.
(** The order check against the last key. *)
Definition check_order (w : Writer) (key : InternalKey) : res unit :=
  if haveEntry w then
    match CompareInternal (lastKey w) key with
    | Eq => Err [ErrDuplicateKey]
    | Gt => Err [ErrOutOfOrder]
    | Lt => Ok tt
    end
  else Ok tt.
Definition is_delete (key : InternalKey) : bool := Byte.eqb (kind key) KindDelete.
(** Counting the raw bytes of the entry that was added to the block. *)
Definition count_raw (n : Z) : M unit := fun w =>
  match checkedAdd (rawBytes w) n with
  | None => poison [ErrTableTooLarge] (set_rawBytes 0 w)
  | Some raw => (set_rawBytes raw w, Ok tt)
  end.
(** The bookkeeping at the end of [Add]. *)
Definition record_entry (key : InternalKey) (w : Writer) : Writer :=
  let w := if haveEntry w then w else set_haveEntry true (set_smallestUser (userKey key) (set_smallestKey (cloneInternalKey key) w)) in
  let w := set_largestUser (userKey key) (set_lastEncoded (Encode key) (set_lastKey (cloneInternalKey key) w)) in
  if negb (haveBloomUser w) || negb (bytes_eqb (lastBloomUser w) (userKey key)) then
    set_haveBloomUser true (set_lastBloomUser (userKey key) (set_bloomHashes (bloomHashes w ++ [hashBloomKey (userKey key)]) w))
  else w.
Definition Add (key : InternalKey) (value : bytes) : M unit :=
  _ ← stateError;
  _ ← (fun w => (w, check_entry key value));
  _ ← (fun w => (w, check_order w key));
  _ ← (fun w => if negb (builder_empty (block w)) && (blockSize w <? projectedSize (block w) (Encode key) value) then flushDataBlock w else (w, Ok tt));
  _ ← (fun w => if MaxDataBlockSize <? projectedSize (block w) (Encode key) value then (w, Err [ErrEntryTooLarge]) else (w, Ok tt));
  _ ← (fun w => if (entryCount w =? MaxUint64) || (is_delete key && (deletionCount w =? MaxUint64)) then poison [ErrTableTooLarge] w else (w, Ok tt));
  _ ← modify (fun w => set_block (builder_add (block w) (Encode key) value) w);
  _ ← modify (fun w => set_entryCount (entryCount w + 1) w);
  _ ← modify (fun w => if is_delete key then set_deletionCount (deletionCount w + 1) w else w);
  _ ← count_raw (len (Encode key));
  _ ← count_raw (len value);
  modify (record_entry key).

Definition encode_index_entry (e : indexEntry) : bytes :=
  put_uvarint (len (x_lastKey e)) ++ x_lastKey e ++ le_put 8 (Offset (x_handle e)) ++ le_put 8 (Length (x_handle e)).
Definition encodeIndex (w : Writer) : bytes := le_put 4 (u32 (len (index w))) ++ concat (encode_index_entry <$> index w).
Definition appendLengthPrefixed32 (destination value : bytes) : bytes := destination ++ le_put 4 (u32 (len value)) ++ value.
Definition encodeMetadata (w : Writer) : bytes :=
  let payload := le_put 8 (entryCount w) ++ le_put 8 (deletionCount w) ++ le_put 4 (u32 (len (index w))) ++ le_put 8 (rawBytes w) in
  let payload := appendLengthPrefixed32 payload (Encode (smallestKey w)) in
  let payload := appendLengthPrefixed32 payload (Encode (lastKey w)) in
  let payload := appendLengthPrefixed32 payload (smallestUser w) in
  appendLengthPrefixed32 payload (largestUser w).
Definition table_metadata (w : Writer) : Metadata := {|
  FileNumber := fileNumber w; FileSize := offset w; EntryCount := entryCount w; DeletionCount := deletionCount w;
  RawKeyValueBytes := rawBytes w; DataBlockCount := u32 (len (index w));
  SmallestInternal := cloneInternalKey (smallestKey w); LargestInternal := cloneInternalKey (lastKey w);
  SmallestUser := smallestUser w; LargestUser := largestUser w |}.

(** The filter block of [Finish]. *)
Definition write_filter : M BlockHandle := fun w =>
  if enableBloom w then
    match encodeBloom (bloomHashes w) with
    | Err e => poison e w
    | Ok payload => writeBlock payload blockFilter w
    end
  else (w, Ok no_handle).
(** Syncing, closing and publishing the file. *)
Definition sync_and_close : M unit := fun w =>
  let '(f, err) := file_sync (file w) in
  let w := set_file f w in
  if err : bool then poison [ErrIO] w
  else
    let '(f, err) := file_close (file w) in
    let w := set_fileClosed true (set_file f w) in
    if err : bool then poison [ErrIO] w else (w, Ok tt).
Definition publish : M unit := fun w =>
  let '(s, err) := rename (fs w) in
  let w := set_fs s w in
  if err : bool then poison [ErrIO] w
  else
    let '(s, directory) := openDirectory (fs w) in
    let w := set_fs s w in
    match directory with
    | None => poison [ErrIO] w
    | Some d => if dir_sync d then poison (ErrIO :: if dir_close d then [ErrIO] else []) w else if dir_close d then poison [ErrIO] w else (w, Ok tt)
    end.
Definition write_table : M unit :=
  _ ← flushDataBlock;
  dataEnd ← (fun w => (w, Ok (offset w)));
  indexHandle ← (fun w => writeBlock (encodeIndex w) blockIndex w);
  metadataHandle ← (fun w => writeBlock (encodeMetadata w) blockMetadata w);
  filterHandle ← write_filter;
  writeAll (encodeFooter indexHandle metadataHandle filterHandle dataEnd).
Definition set_result : M Metadata := fun w =>
  let m := table_metadata w in (set_finished true (set_metadata (Some m) w), Ok m).
Definition finish_new : M Metadata :=
  _ ← stateError;
  _ ← (fun w => if haveEntry w then (w, Ok tt) else (w, Err [ErrEmptyTable]));
  _ ← write_table;
  _ ← sync_and_close;
  _ ← publish;
  set_result.
Definition Finish : M Metadata := fun w =>
  match finished w, metadata w with true, Some m => (w, Ok m) | _, _ => finish_new w end.

Definition Abort : M unit := fun w =>
  if finished w then (w, Err [ErrFinished])
  else if aborted w then (w, match abortErr w with Some e => Err e | None => Ok tt end)
  else
    let w := set_aborted true w in
    let '(w, closing) :=
      if fileClosed w then (w, [])
      else let '(f, err) := file_close (file w) in (set_fileClosed true (set_file f w), if err : bool then [ErrIO] else []) in
    let '(s, r) := remove (fs w) in
    let w := set_fs s w in
    let cleanup := closing ++ match r with Some false => [ErrIO] | _ => [] end in
    let w := set_abortErr (match cleanup with [] => None | _ => Some cleanup end) w in
    (w, match abortErr w with Some e => Err e | None => Ok tt end).
End writer.

(** [Options] and [normalizeOptions] *)
Definition normalizeOptions (size interval : Z) : res (Z * Z) :=
  let size := if size =? 0 then DefaultBlockSize else size in
  let interval := if interval =? 0 then DefaultRestartInterval else interval in
  if (size <? 1) || (MaxDataBlockSize <? size) || (interval <? 1) || (2 ^ 16 - 1 <? interval) then Err [ErrInvalidOptions]
  else Ok (size, interval).
End writer.
