(* ===== verification/SSTableReader.v ===== *)
(** * The table reader (storage/sstable/reader.go, iterator.go)

    [openReader] validates a complete table; [Seek], [Get], [GetCandidate] and
    the iterators read it.  The file is the [io.ReaderAt] of Files.v, whose
    reads may fail.  The mutex is not modelled: a reader changes only when it
    is closed.  Opening by path is not modelled; the base name of the path is
    an argument of [openReader]. *)

From S2P Require Import Prelude Varint InternalKey Crc32c Codec Files MvccStore SSTable SSTableWriter.
Import sstable.

Module reader.
Import writer.

Definition DefaultMaxIndexBlockSize : Z := Z.shiftl 256 20.
Record Reader := {
  rd_file : randomAccessFile; rd_size : Z; rd_index : list decodedIndexEntry; rd_dataCRCs : list Z; rd_metadata : option Metadata;
  rd_bloom : bloomFilter; rd_maxIndex : Z; rd_closed : bool
}.

(** [%012d.sst] and back *)
Definition digit (z : Z) : byte := byte.of_Z (48 + z mod 10).
Fixpoint digits (n : nat) (z : Z) : bytes := match n with O => [] | S n' => digits n' (z / 10) ++ [digit z] end.
Definition suffix : bytes := [Byte.x2e; Byte.x73; Byte.x73; Byte.x74].
Definition FileName (fileNumber : Z) : bytes := digits 12 fileNumber ++ suffix.
(** [strconv.ParseUint] in base 10 on at most 19 digits: no overflow. *)
Fixpoint parse_uint (value : Z) (s : bytes) : option Z :=
  match s with
  | [] => Some value
  | b :: s' =>
      let d := byte.unsigned b - 48 in
      if (0 <=? d) && (d <=? 9) then parse_uint (value * 10 + d) s' else None
  end.
Definition parseFileNumber (base : bytes) : Z :=
  if negb (len base =? 16) || negb (bytes_eqb (drop 12 base) suffix) then 0
  else
    match parse_uint 0 (take 12 base) with
    | None => 0
    | Some number => if (number =? 0) || (MaxFileNumber <? number) then 0 else number
    end.

(** ** Reading blocks *)

Definition readAtExact (f : randomAccessFile) (n offset : Z) : res bytes :=
  if MaxInt64 <? offset then Err (corrupt ErrInvalidHandle)
  else
    match ReadAt f offset n with
    | inl buffer => Ok buffer
    | inr Impossible => Err [ErrUnexpectedEOF]
    | inr Failed => Err [ErrIO]
    | inr Truncated => Err (corrupt ErrInvalidBlock)
    end.

Definition validateHandle (h : BlockHandle) (limit minimumLength : Z) : res unit :=
  _ ← require (negb ((Length h <? minimumLength) || (limit <? Offset h) || (limit <? Length h))) (corrupt ErrInvalidHandle);
  match checkedAdd (Offset h) (Length h) with
  | None => Err (corrupt ErrInvalidHandle)
  | Some e => require (negb ((limit <? e) || (MaxInt64 <? Offset h) || (MaxInt64 <? Length h))) (corrupt ErrInvalidHandle)
  end.
Definition handleEndsAt (h : BlockHandle) (expected : Z) : bool :=
  match checkedAdd (Offset h) (Length h) with Some e => e =? expected | None => false end.

Definition is_data (k : blockKind) : bool := match k with blockData => true | _ => false end.
Definition readBlockUnlocked (f : randomAccessFile) (h : BlockHandle) (expected : blockKind) (regionEnd : Z) : res bytes :=
  _ ← validateHandle h regionEnd BlockTrailerSize;
  _ ← require (negb (is_data expected && (MaxDataBlockSize + BlockTrailerSize <? Length h))) (corrupt ErrInvalidHandle);
  buffer ← readAtExact f (Length h) (Offset h);
  let payloadEnd := (length buffer - 7)%nat in
  _ ← require (byte_at payloadEnd buffer =? compressionNone) [ErrUnsupportedVersion];
  _ ← require (byte_at (payloadEnd + 1) buffer =? kind_byte expected) (corrupt ErrInvalidBlock);
  _ ← require (byte_at (payloadEnd + 2) buffer =? blockVersion) [ErrUnsupportedVersion];
  let want := le_get (slice (payloadEnd + 3) (payloadEnd + 7) buffer) in
  _ ← require (crc32_checksum (take (payloadEnd + 3) buffer) =? want) (corrupt ErrChecksum);
  Ok (take payloadEnd buffer).
Definition blockPayloadChecksum (payload : bytes) (k : blockKind) : Z :=
  crc32_update (crc32_checksum payload) (block_tag k).

(** ** The footer *)

Record footerState := { f_index : BlockHandle; f_metadata : BlockHandle; f_filter : BlockHandle; f_dataEnd : Z }.
Definition handle_at (footer : bytes) (i : nat) : BlockHandle :=
  {| Offset := le_get (slice i (i + 8) footer); Length := le_get (slice (i + 8) (i + 16) footer) |}.
Definition decodeFooter (footer : bytes) (footerOffset : Z) : res footerState :=
  _ ← require (len footer =? FooterSize) (corrupt ErrInvalidHandle);
  let want := le_get (slice 68 72 footer) in
  _ ← require (crc32_update (crc32_checksum (take 68 footer)) (drop 72 footer) =? want) (corrupt ErrChecksum);
  _ ← require (le_get (slice 72 80 footer) =? fileMagic) (corrupt ErrInvalidBlock);
  _ ← require (le_get (slice 56 60 footer) =? FormatVersion) [ErrUnsupportedVersion];
  let flags := le_get (slice 60 64 footer) in
  _ ← require ((Z.ldiff flags footerFilterPresentFlag =? 0) && (le_get (slice 64 68 footer) =? 0)) [ErrUnsupportedVersion];
  let state := {| f_index := handle_at footer 0; f_metadata := handle_at footer 16; f_filter := handle_at footer 32;
                  f_dataEnd := le_get (slice 48 56 footer) |} in
  let present := negb (Z.land flags footerFilterPresentFlag =? 0) in
  _ ← require (Bool.eqb present (negb (bool_decide (f_filter state = no_handle)))) (corrupt ErrInvalidHandle);
  let metadataEnd := if present then Offset (f_filter state) else footerOffset in
  _ ← require ((f_dataEnd state =? Offset (f_index state)) && handleEndsAt (f_index state) (Offset (f_metadata state)) &&
               handleEndsAt (f_metadata state) metadataEnd && (negb present || handleEndsAt (f_filter state) footerOffset)) (corrupt ErrInvalidHandle);
  _ ← validateHandle (f_index state) footerOffset BlockTrailerSize;
  _ ← validateHandle (f_metadata state) footerOffset BlockTrailerSize;
  _ ← (if present then
         _ ← require (Length (f_filter state) <=? maxBloomBytes + bloomHeaderSize + BlockTrailerSize) [ErrResourceLimit];
         validateHandle (f_filter state) footerOffset (bloomHeaderSize + BlockTrailerSize)
       else Ok tt);
  Ok state.

(** ** Validating the data region *)

(** The loop of [validateDataHandles]. *)
Fixpoint validate_handles (index : list decodedIndexEntry) (dataEnd next : Z) : res Z :=
  match index with
  | [] => Ok next
  | e :: rest =>
      _ ← require (Offset (i_handle e) =? next) (corrupt ErrInvalidHandle);
      _ ← validateHandle (i_handle e) dataEnd BlockTrailerSize;
      validate_handles rest dataEnd (u64 (Offset (i_handle e) + Length (i_handle e)))
  end.
Definition validateDataHandles (index : list decodedIndexEntry) (dataEnd : Z) : res unit :=
  next ← validate_handles index dataEnd 0;
  require (negb (len index =? 0) && (next =? dataEnd)) (corrupt ErrInvalidHandle).

(** What [validateDataStream] has accumulated. *)
Record stream := { s_count : Z; s_deletions : Z; s_raw : Z; s_first : option decodedEntry; s_last : option decodedEntry; s_crcs : list Z }.
Definition validate_entry (bloom : bloomFilter) (s : stream) (e : decodedEntry) : res stream :=
  _ ← check (mayContain bloom (userKey (e_key e)));
  _ ← check (negb (s_count s =? MaxUint64));
  match checkedAdd (len (e_encoded e)) (len (e_value e)) with
  | None => Err (corrupt ErrInvalidBlock)
  | Some entryRaw =>
      match checkedAdd (s_raw s) entryRaw with
      | None => Err (corrupt ErrInvalidBlock)
      | Some raw =>
          Ok {| s_count := s_count s + 1; s_deletions := if is_delete (e_key e) then s_deletions s + 1 else s_deletions s;
                s_raw := raw; s_first := s_first s; s_last := s_last s; s_crcs := s_crcs s |}
      end
  end.
Fixpoint validate_entries (bloom : bloomFilter) (s : stream) (es : list decodedEntry) : res stream :=
  match es with [] => Ok s | e :: es' => s ← validate_entry bloom s e; validate_entries bloom s es' end.
(** One data block: its stored bytes, its place in the order and its index key. *)
Definition validate_block (f : randomAccessFile) (bloom : bloomFilter) (s : stream) (ie : decodedIndexEntry) : res stream :=
  payload ← readBlockUnlocked f (i_handle ie) blockData (u64 (Offset (i_handle ie) + Length (i_handle ie)));
  block ← decodeDataBlock payload (i_handle ie);
  match head (k_entries block), last (k_entries block) with
  | Some blockFirst, Some blockLast =>
      _ ← check (bytes_eqb (e_encoded blockLast) (i_encoded ie));
      _ ← check (match s_last s with Some l => negb (not_before (e_key l) (e_key blockFirst)) | None => true end);
      validate_entries bloom
        {| s_count := s_count s; s_deletions := s_deletions s; s_raw := s_raw s;
           s_first := match s_first s with None => Some blockFirst | some => some end; s_last := Some blockLast;
           s_crcs := s_crcs s ++ [blockPayloadChecksum payload blockData] |} (k_entries block)
  | _, _ => Err []
  end.
Fixpoint validate_blocks (f : randomAccessFile) (bloom : bloomFilter) (s : stream) (index : list decodedIndexEntry) : res stream :=
  match index with [] => Ok s | ie :: rest => s ← validate_block f bloom s ie; validate_blocks f bloom s rest end.
Definition empty_stream : stream := {| s_count := 0; s_deletions := 0; s_raw := 0; s_first := None; s_last := None; s_crcs := [] |}.
Definition validateDataStream (f : randomAccessFile) (bloom : bloomFilter) (index : list decodedIndexEntry) (disk : decodedMetadata)
    (number size : Z) : res (Metadata * list Z) :=
  s ← validate_blocks f bloom empty_stream index;
  match s_first s, s_last s with
  | Some first, Some last =>
      _ ← check ((s_count s =? m_entryCount disk) && (s_deletions s =? m_deletionCount disk) && (s_raw s =? m_rawKeyValueBytes disk) &&
                 bytes_eqb (e_encoded first) (m_smallestInternal disk) && bytes_eqb (e_encoded last) (m_largestInternal disk) &&
                 bytes_eqb (userKey (e_key first)) (m_smallestUser disk) && bytes_eqb (userKey (e_key last)) (m_largestUser disk));
      Ok ({| SmallestInternal := e_key first; LargestInternal := e_key last; SmallestUser := m_smallestUser disk;
             LargestUser := m_largestUser disk; FileNumber := number; FileSize := size; EntryCount := s_count s;
             DeletionCount := s_deletions s; RawKeyValueBytes := s_raw s; DataBlockCount := u32 (len index) |}, s_crcs s)
  | _, _ => Err (corrupt ErrInvalidBlock)
  end.

(** ** Opening *)

Definition maximumMetadata : Z := 28 + 4 * 4 + 2 * MaxInternalKeySize + 2 * MaxUserKeySize + BlockTrailerSize.
Definition openReader (f : randomAccessFile) (size : Z) (base : bytes) (maxIndexBlockSize : Z) : res Reader :=
  let maxIndex := if maxIndexBlockSize =? 0 then DefaultMaxIndexBlockSize else maxIndexBlockSize in
  _ ← require (BlockTrailerSize <=? maxIndex) [ErrResourceLimit];
  _ ← require ((FooterSize <=? size) && (size <=? MaxTableSize)) (corrupt ErrInvalidHandle);
  let footerOffset := size - FooterSize in
  footer ← readAtExact f FooterSize footerOffset;
  state ← decodeFooter footer footerOffset;
  _ ← require (Length (f_index state) <=? maxIndex) [ErrResourceLimit];
  _ ← require (Length (f_metadata state) <=? maximumMetadata) (corrupt ErrInvalidHandle);
  indexPayload ← readBlockUnlocked f (f_index state) blockIndex footerOffset;
  index ← decodeIndex indexPayload;
  metadataPayload ← readBlockUnlocked f (f_metadata state) blockMetadata footerOffset;
  diskMetadata ← decodeMetadata metadataPayload;
  _ ← check (len index =? m_dataBlockCount diskMetadata);
  bloom ← (if Length (f_filter state) =? 0 then Ok noBloom
           else filterPayload ← readBlockUnlocked f (f_filter state) blockFilter footerOffset; decodeBloom filterPayload);
  _ ← validateDataHandles index (f_dataEnd state);
  '(metadata, crcs) ← validateDataStream f bloom index diskMetadata (parseFileNumber base) size;
  Ok {| rd_file := f; rd_size := size; rd_index := index; rd_dataCRCs := crcs; rd_metadata := Some metadata; rd_bloom := bloom;
        rd_maxIndex := maxIndex; rd_closed := false |}.

(** ** Point reads *)

Definition readDataPayloadUnlocked (r : Reader) (position : nat) : res bytes :=
  match rd_index r !! position with
  | None => Err []
  | Some ie =>
      payload ← readBlockUnlocked (rd_file r) (i_handle ie) blockData (u64 (Offset (i_handle ie) + Length (i_handle ie)));
      _ ← require (negb ((len (rd_dataCRCs r) =? len (rd_index r)) &&
                         negb (blockPayloadChecksum payload blockData =? default 0 (rd_dataCRCs r !! position)))) (corrupt ErrChecksum);
      Ok payload
  end.
Definition loadDataBlockUnlocked (r : Reader) (position : nat) : res decodedDataBlock :=
  payload ← readDataPayloadUnlocked r position;
  match rd_index r !! position with None => Err [] | Some ie => decodeDataBlock payload (i_handle ie) end.
Definition lowerBoundIndex (index : list decodedIndexEntry) (target : InternalKey) : nat :=
  search (length index) (i_key <$> index) target 0 (length index).

Definition seekEntry (r : Reader) (target : InternalKey) : res decodedEntry :=
  _ ← require (negb (rd_closed r)) [ErrClosed];
  let blockIndex := lowerBoundIndex (rd_index r) target in
  if Nat.eqb blockIndex (length (rd_index r)) then Err [ErrNotFound]
  else
    payload ← readDataPayloadUnlocked r blockIndex;
    found ← seekDataBlock payload target;
    match found with
    | Some entry => Ok entry
    | None =>
        let blockIndex := S blockIndex in
        if Nat.eqb blockIndex (length (rd_index r)) then Err [ErrNotFound]
        else
          payload ← readDataPayloadUnlocked r blockIndex;
          found ← seekDataBlock payload target;
          match found with Some entry => Ok entry | None => Err [ErrNotFound] end
    end.
Definition cloneDecodedEntry (e : decodedEntry) : entry := (e_key e, e_value e).
Definition Seek (r : Reader) (target : InternalKey) : res entry := e ← seekEntry r target; Ok (cloneDecodedEntry e).
Definition Get (r : Reader) (target : InternalKey) : res entry :=
  e ← Seek r target;
  match CompareInternal e.1 target with Eq => Ok e | _ => Err [ErrNotFound] end.
Definition MayContain (r : Reader) (user : bytes) : res bool :=
  _ ← require (len user <=? MaxUserKeySize) [ErrKeyTooLarge];
  _ ← require (negb (rd_closed r)) [ErrClosed];
  Ok (mayContain (rd_bloom r) user).
Definition candidateSeekKey (user : bytes) (target : Z) : res InternalKey :=
  _ ← require (len user <=? MaxUserKeySize) [ErrKeyTooLarge];
  match NewInternalKey user target KindDelete with Ok k => Ok k | Err _ => Err [] end.
Definition GetCandidate (r : Reader) (user : bytes) (target : Z) : res entry :=
  may ← MayContain r user;
  if negb may then Err [ErrNotFound]
  else
    seekKey ← candidateSeekKey user target;
    e ← Seek r seekKey;
    if bytes_eqb (userKey e.1) user then Ok e else Err [ErrNotFound].
Definition ValidateAll (r : Reader) (base : bytes) : res unit :=
  _ ← require (negb (rd_closed r)) [ErrClosed];
  _ ← openReader (rd_file r) (rd_size r) base (rd_maxIndex r);
  Ok tt.
(** [closeError]: whether closing the file fails. *)
Definition Close (closeError : bool) (r : Reader) : Reader * res unit :=
  if rd_closed r then (r, Ok tt)
  else
    ({| rd_file := rd_file r; rd_size := rd_size r; rd_index := rd_index r; rd_dataCRCs := rd_dataCRCs r; rd_metadata := rd_metadata r;
        rd_bloom := rd_bloom r; rd_maxIndex := rd_maxIndex r; rd_closed := true |},
     if closeError then Err [ErrIO] else Ok tt).

(** ** Iterators (iterator.go); an [Iterator] reads through the reader it is given *)

Definition zero_block : decodedDataBlock := {| k_handle := no_handle; k_restarts := []; k_restartEntries := []; k_entries := [] |}.
Record Iterator := {
  it_block : decodedDataBlock; it_blockIndex : Z; it_entryIndex : Z; it_end : option bytes; it_started : bool; it_valid : bool;
  it_closed : bool; it_err : option errors
}.
Definition new_iterator (endKey : option bytes) : Iterator := {|
  it_block := zero_block; it_blockIndex := -1; it_entryIndex := -1; it_end := endKey; it_started := false; it_valid := false;
  it_closed := false; it_err := None |}.
(** An iterator that starts past the last block. *)
Definition exhausted (r : Reader) (endKey : option bytes) : Iterator := {|
  it_block := zero_block; it_blockIndex := len (rd_index r); it_entryIndex := -1; it_end := endKey; it_started := true; it_valid := false;
  it_closed := false; it_err := None |}.
(** An iterator whose next entry is [entryIndex] of [block]. *)
Definition positioned (block : decodedDataBlock) (blockIndex entryIndex : nat) (endKey : option bytes) (r : Reader) (rangeMode : bool) : Iterator :=
  let past := match endKey, k_entries block !! entryIndex with
              | Some e, Some x => rangeMode && negb (bytes_ltb (userKey (e_key x)) e)
              | _, _ => false
              end in
  {| it_block := if past then zero_block else block;
     it_blockIndex := if past then len (rd_index r) else Z.of_nat blockIndex; it_entryIndex := Z.of_nat entryIndex - 1; it_end := endKey;
     it_started := past; it_valid := false; it_closed := false; it_err := None |}.
Definition newIteratorAt (r : Reader) (target : option InternalKey) (rangeMode : bool) (endKey : option bytes) : res Iterator :=
  _ ← require (negb (rd_closed r)) [ErrClosed];
  match target with
  | None => Ok (new_iterator endKey)
  | Some target =>
      let blockIndex := lowerBoundIndex (rd_index r) target in
      if Nat.eqb blockIndex (length (rd_index r)) then Ok (exhausted r endKey)
      else
        block ← loadDataBlockUnlocked r blockIndex;
        let entryIndex := lowerBound block target in
        if Nat.eqb entryIndex (length (k_entries block)) then
          let blockIndex := S blockIndex in
          if Nat.eqb blockIndex (length (rd_index r)) then Ok (exhausted r endKey)
          else block ← loadDataBlockUnlocked r blockIndex; Ok (positioned block blockIndex 0 endKey r rangeMode)
        else Ok (positioned block blockIndex entryIndex endKey r rangeMode)
  end.
Definition NewIterator (r : Reader) : res Iterator := newIteratorAt r None false None.
Definition IteratorFrom (r : Reader) (target : InternalKey) : res Iterator := newIteratorAt r (Some target) false None.
Definition Range (r : Reader) (start endKey : option bytes) : res Iterator :=
  _ ← require ((len (default [] start) <=? MaxUserKeySize) && (len (default [] endKey) <=? MaxUserKeySize)) [ErrKeyTooLarge];
  _ ← require (match start, endKey with Some s, Some e => bytes_leb s e | _, _ => true end) [ErrInvalidRange];
  match start with
  | None => newIteratorAt r None true endKey
  | Some s =>
      match NewInternalKey s MaxUint64 KindDelete with
      | Ok key => newIteratorAt r (Some key) true endKey
      | Err _ => Err []
      end
  end.

Definition set_iterator (block : decodedDataBlock) (blockIndex entryIndex : Z) (valid : bool) (err : option errors) (it : Iterator) : Iterator :=
  {| it_block := block; it_blockIndex := blockIndex; it_entryIndex := entryIndex; it_end := it_end it; it_started := true; it_valid := valid;
     it_closed := it_closed it; it_err := err |}.
(** [loadBlock] of an iterator that is not valid. *)
Definition loadBlock (r : Reader) (position : Z) (it : Iterator) : Iterator * bool :=
  if rd_closed r then (set_iterator (it_block it) (it_blockIndex it) (it_entryIndex it) false (Some [ErrClosed]) it, false)
  else if len (rd_index r) <=? position then (set_iterator zero_block (len (rd_index r)) (it_entryIndex it) false (it_err it) it, false)
  else
    match loadDataBlockUnlocked r (Z.to_nat position) with
    | Err e => (set_iterator (it_block it) (it_blockIndex it) (it_entryIndex it) false (Some e) it, false)
    | Ok block => (set_iterator block position (it_entryIndex it) false (it_err it) it, true)
    end.
(** [for it.entryIndex >= len(it.block.entries)]: every iteration loads a
    further block. *)
Fixpoint skip_blocks (fuel : nat) (r : Reader) (it : Iterator) : Iterator * bool :=
  if it_entryIndex it <? len (k_entries (it_block it)) then (it, true)
  else
    match fuel with
    | O => (it, false)
    | S fuel' =>
        let '(it, ok) := loadBlock r (it_blockIndex it + 1) it in
        if ok : bool then skip_blocks fuel' r (set_iterator (it_block it) (it_blockIndex it) 0 false (it_err it) it) else (it, false)
    end.
Definition Next (r : Reader) (it : Iterator) : Iterator * bool :=
  if it_closed it || match it_err it with Some _ => true | None => false end then (it, false)
  else if rd_closed r then
    ({| it_block := it_block it; it_blockIndex := it_blockIndex it; it_entryIndex := it_entryIndex it; it_end := it_end it;
        it_started := it_started it; it_valid := false; it_closed := it_closed it; it_err := Some [ErrClosed] |}, false)
  else
    let '(it, ok) :=
      if negb (it_started it) && (len (k_entries (it_block it)) =? 0) then loadBlock r 0 it
      else (set_iterator (it_block it) (it_blockIndex it) (it_entryIndex it) false (it_err it) it, true) in
    if negb ok then (it, false)
    else
      let it := set_iterator (it_block it) (it_blockIndex it) (it_entryIndex it + 1) false (it_err it) it in
      let '(it, ok) := skip_blocks (S (length (rd_index r))) r it in
      if negb ok then (it, false)
      else
        match it_end it, k_entries (it_block it) !! Z.to_nat (it_entryIndex it) with
        | Some e, Some x =>
            if negb (bytes_ltb (userKey (e_key x)) e)
            then (set_iterator zero_block (it_blockIndex it) (it_entryIndex it) false (it_err it) it, false)
            else (set_iterator (it_block it) (it_blockIndex it) (it_entryIndex it) true (it_err it) it, true)
        | _, _ => (set_iterator (it_block it) (it_blockIndex it) (it_entryIndex it) true (it_err it) it, true)
        end.
Definition Entry (it : Iterator) : option entry :=
  if negb (it_valid it) || it_closed it then None
  else cloneDecodedEntry <$> k_entries (it_block it) !! Z.to_nat (it_entryIndex it).
Definition iterator_Close (it : Iterator) : Iterator :=
  if it_closed it then it
  else {| it_block := zero_block; it_blockIndex := it_blockIndex it; it_entryIndex := it_entryIndex it; it_end := it_end it;
          it_started := it_started it; it_valid := false; it_closed := true; it_err := it_err it |}.
End reader.

(** The reader with the file replaced: the same bytes, other failures. *)
Definition with_file (f : randomAccessFile) (r : reader.Reader) : reader.Reader :=
  {| reader.rd_file := f; reader.rd_size := reader.rd_size r; reader.rd_index := reader.rd_index r; reader.rd_dataCRCs := reader.rd_dataCRCs r;
     reader.rd_metadata := reader.rd_metadata r; reader.rd_bloom := reader.rd_bloom r; reader.rd_maxIndex := reader.rd_maxIndex r;
     reader.rd_closed := reader.rd_closed r |}.
