(* ===== verification/SSTableLayout.v ===== *)
(** * Round trips of the parts of a table file

    A block with its trailer, the footer, the index and the metadata: what
    the writer of storage/sstable encodes, the reader decodes. *)

From S2P Require Import Prelude Varint InternalKey Crc32c Codec Files MvccStore SSTable SSTableBlock SSTableFormat SSTableWriter SSTableReader.
Import sstable writer reader.

Lemma max_int64_uint64 : MaxInt64 < MaxUint64.
Proof. done. Qed.
Lemma checkedAdd_ok a b : a + b <= MaxUint64 -> checkedAdd a b = Some (a + b).
Proof. intros H. unfold checkedAdd. by rewrite (proj2 (Z.ltb_ge _ _)) by lia. Qed.
Lemma checkedAdd_inv a b c : checkedAdd a b = Some c -> c = a + b /\ a + b <= MaxUint64.
Proof. unfold checkedAdd. destruct (Z.ltb_spec (MaxUint64 - a) b); [done|]. intros [= <-]. lia. Qed.

(** ** Blocks *)

Lemma trailer_len payload k : len (appendBlockTrailer payload k) = len payload + BlockTrailerSize.
Proof. unfold appendBlockTrailer. rewrite !len_app, len_le_put. unfold block_tag, BlockTrailerSize. rewrite !len_cons, len_nil. lia. Qed.
Lemma validateHandle_ok h limit minimum : 0 <= Offset h -> 0 <= minimum <= Length h -> Offset h + Length h <= limit -> limit <= MaxInt64 ->
  validateHandle h limit minimum = Ok tt.
Proof.
  intros Ho Hm Hl Hmax. unfold validateHandle. rewrite (proj2 (Z.ltb_ge _ minimum)), !(proj2 (Z.ltb_ge limit _)) by lia. cbn.
  rewrite checkedAdd_ok by (pose proof max_int64_uint64; lia). rewrite (proj2 (Z.ltb_ge limit _)), !(proj2 (Z.ltb_ge MaxInt64 _)) by lia. done.
Qed.
Lemma readAtExact_ok pre middle post : len pre <= MaxInt64 ->
  readAtExact (healthy (pre ++ middle ++ post)) (len middle) (len pre) = Ok middle.
Proof.
  intros Hp. unfold readAtExact, ReadAt. rewrite (proj2 (Z.ltb_ge _ _)) by done. cbn [ra_fault healthy ra_bytes].
  rewrite !len_app, (proj2 (Z.leb_le _ _)) by (pose proof (len_nonneg post); lia). f_equal.
  apply slice_app_mid; unfold len; lia.
Qed.
Lemma read_written pre payload k post regionEnd : let encoded := appendBlockTrailer payload k in
  len pre + len encoded <= regionEnd -> regionEnd <= MaxInt64 -> (k = blockData -> len payload <= MaxDataBlockSize) ->
  readBlockUnlocked (healthy (pre ++ encoded ++ post)) {| Offset := len pre; Length := len encoded |} k regionEnd = Ok payload.
Proof.
  intros encoded Hle Hmax Hk. pose proof (len_nonneg pre). pose proof (len_nonneg payload). pose proof (trailer_len payload k) as Hlen. fold encoded in Hlen.
  unfold readBlockUnlocked. rewrite validateHandle_ok by (cbn [Offset Length]; unfold BlockTrailerSize in *; lia). cbn [mbind result_bind Offset Length].
  assert (is_data k && (MaxDataBlockSize + BlockTrailerSize <? len encoded) = false) as ->.
  { destruct k; cbn; [|done..]. apply Z.ltb_ge. specialize (Hk eq_refl). lia. }
  cbn [negb require mbind result_bind]. rewrite readAtExact_ok by (pose proof (len_nonneg encoded); lia). cbn [mbind result_bind].
  assert (length encoded - 7 = length payload)%nat as -> by (unfold BlockTrailerSize, len in *; lia).
  set (c := crc32_checksum (payload ++ block_tag k)).
  assert (encoded = payload ++ block_tag k ++ le_put 4 c) as He by (unfold encoded, appendBlockTrailer; by rewrite <- app_assoc).
  assert (length payload + 3 = length (payload ++ block_tag k))%nat as Hl3 by (by rewrite length_app).
  assert (take (length payload + 3) encoded = payload ++ block_tag k) as -> by (rewrite He, app_assoc, Hl3; apply take_app_length).
  assert (slice (length payload + 3) (length payload + 7) encoded = le_put 4 c) as ->.
  { rewrite He, app_assoc. apply slice_app_end; [done|]. rewrite !length_app, le_put_length. cbn. lia. }
  assert (forall i, (i < 3)%nat -> byte_at (length payload + i) encoded = byte_at i (block_tag k)) as Hb.
  { intros i Hi. rewrite He, (byte_at_skip (length payload)), byte_at_here by (done || cbn; lia). f_equal. lia. }
  rewrite <- (Nat.add_0_r (length payload)) at 1. rewrite !Hb by lia. rewrite le_get_put32 by apply crc32_checksum_range. unfold c. rewrite Z.eqb_refl.
  assert (take (length payload) encoded = payload) as -> by (rewrite He; apply take_app_length). by destruct k.
Qed.

(** ** The footer *)

Lemma handleEndsAt_ok h e : Offset h + Length h = e -> e <= MaxInt64 -> handleEndsAt h e = true.
Proof. intros <- Hm. unfold handleEndsAt. rewrite checkedAdd_ok by (pose proof max_int64_uint64; lia). apply Z.eqb_refl. Qed.

Record footer_ok (state : footerState) (footerOffset : Z) : Prop := {
  fo_data : f_dataEnd state = Offset (f_index state);
  fo_start : 0 <= f_dataEnd state;
  fo_index : Offset (f_index state) + Length (f_index state) = Offset (f_metadata state);
  fo_index_len : BlockTrailerSize <= Length (f_index state);
  fo_metadata_len : BlockTrailerSize <= Length (f_metadata state);
  fo_metadata : Offset (f_metadata state) + Length (f_metadata state) = (if Length (f_filter state) =? 0 then footerOffset else Offset (f_filter state));
  fo_filter : if Length (f_filter state) =? 0 then f_filter state = no_handle
              else Offset (f_filter state) + Length (f_filter state) = footerOffset /\
                   bloomHeaderSize + BlockTrailerSize <= Length (f_filter state) <= maxBloomBytes + bloomHeaderSize + BlockTrailerSize;
  fo_max : footerOffset <= MaxInt64
}.
Definition encode_state (s : footerState) : bytes := encodeFooter (f_index s) (f_metadata s) (f_filter s) (f_dataEnd s).
Lemma footer_len s : len (encode_state s) = FooterSize.
Proof. unfold encode_state, encodeFooter, footer_head, footer_magic. by rewrite !len_app, !len_le_put. Qed.
(** The fields of an encoded footer. *)
Record footer_layout (e : bytes) (s : footerState) : Prop := {
  fl_len : len e = FooterSize;
  fl_crc : crc32_update (crc32_checksum (take 68 e)) (drop 72 e) = le_get (slice 68 72 e);
  fl_magic : le_get (slice 72 80 e) = fileMagic;
  fl_version : le_get (slice 56 60 e) = FormatVersion;
  fl_flags : le_get (slice 60 64 e) = (if Length (f_filter s) =? 0 then 0 else footerFilterPresentFlag);
  fl_reserved : le_get (slice 64 68 e) = 0;
  fl_index : handle_at e 0 = f_index s;
  fl_metadata : handle_at e 16 = f_metadata s;
  fl_filter : handle_at e 32 = f_filter s;
  fl_data : le_get (slice 48 56 e) = f_dataEnd s
}.
Definition state_u64 (s : footerState) : Prop :=
  is_u64 (Offset (f_index s)) /\ is_u64 (Length (f_index s)) /\ is_u64 (Offset (f_metadata s)) /\ is_u64 (Length (f_metadata s)) /\
  is_u64 (Offset (f_filter s)) /\ is_u64 (Length (f_filter s)) /\ is_u64 (f_dataEnd s).
Lemma encode_state_layout s : state_u64 s -> footer_layout (encode_state s) s.
Proof.
  intros (? & ? & ? & ? & ? & ? & ?). split; [apply footer_len| |unfold handle_at, encode_state, encodeFooter, footer_head, footer_magic; rewrite <- !app_assoc; cbn [Nat.add]; fields;
    rewrite ?le_get_put64, ?le_get_put32 by (done || by destruct (Length (f_filter s) =? 0))..]; [|done|done|done|done|by destruct (f_index s)|by destruct (f_metadata s)|by destruct (f_filter s)|done].
  unfold encode_state, encodeFooter. set (head := footer_head (f_index s) (f_metadata s) (f_filter s) (f_dataEnd s)).
  assert (length head = 68%nat) as Hhead by (unfold head, footer_head; rewrite !length_app, !le_put_length; done).
  fields. rewrite <- Hhead, take_app_length. symmetry. apply le_get_put32, crc32_update_range, crc32_checksum_range.
Qed.
Lemma decodeFooter_layout e state footerOffset : footer_layout e state -> footer_ok state footerOffset -> decodeFooter e footerOffset = Ok state.
Proof.
  intros [Hlen Hcrc H1 H2 H3 H4 H5 H6 H7 H8] [Hd Hs Hi Hil Hml Hm Hf Hmax]. unfold decodeFooter.
  rewrite Hlen, Hcrc, H1, H2, H3, H4, H5, H6, H7, H8, !Z.eqb_refl. cbn [require mbind result_bind f_index f_metadata f_filter f_dataEnd].
  rewrite (proj2 (Z.eqb_eq _ _) Hd). unfold BlockTrailerSize, bloomHeaderSize in *. cbn [andb].
  assert (0 <= Offset (f_metadata state) + Length (f_metadata state) <= footerOffset) as Hmf.
  { revert Hm Hf. destruct (Z.eqb_spec (Length (f_filter state)) 0); intros; lia. }
  rewrite (handleEndsAt_ok (f_index state)), (validateHandle_ok (f_index state) footerOffset), (validateHandle_ok (f_metadata state) footerOffset) by lia.
  clear Hlen Hcrc H1 H2 H3 H4 H5 H6 H7 H8 e. revert Hm Hf. destruct (Z.eqb_spec (Length (f_filter state)) 0) as [H0|H0]; intros Hm Hf.
  - rewrite bool_decide_true by done. cbn. rewrite handleEndsAt_ok by done. cbn. by destruct state.
  - destruct Hf as [Hf1 Hf2]. rewrite bool_decide_false by (intros Hx; by rewrite Hx in H0).
    change (negb (Z.land footerFilterPresentFlag footerFilterPresentFlag =? 0)) with true. cbn [negb orb Bool.eqb].
    rewrite (handleEndsAt_ok (f_metadata state)), (handleEndsAt_ok (f_filter state)), (validateHandle_ok (f_filter state)), (proj2 (Z.leb_le _ (maxBloomBytes + _ + _))) by (done || lia).
    by destruct state.
Qed.
Lemma footer_ok_u64 state footerOffset : footer_ok state footerOffset -> state_u64 state.
Proof.
  intros [Hd Hs Hi Hil Hml Hm Hf Hmax]. pose proof max_int64_uint64 as Hmm.
  change MaxUint64 with (2 ^ 64 - 1) in Hmm. unfold state_u64, is_u64, BlockTrailerSize, bloomHeaderSize in *. revert Hm Hf.
  destruct (Z.eqb_spec (Length (f_filter state)) 0) as [H0|H0]; intros Hm Hf; [rewrite Hf; cbn|]; lia.
Qed.
Lemma decodeFooter_encode state footerOffset : footer_ok state footerOffset -> decodeFooter (encode_state state) footerOffset = Ok state.
Proof. intros Hok. apply decodeFooter_layout; [|done]. eapply encode_state_layout, footer_ok_u64, Hok. Qed.

(** ** The index *)

Definition index_entry (e : decodedIndexEntry) : indexEntry := {| x_lastKey := i_encoded e; x_handle := i_handle e |}.
Definition encode_index (es : list indexEntry) : bytes := le_put 4 (u32 (len es)) ++ concat (encode_index_entry <$> es).
Record index_entry_ok (e : decodedIndexEntry) : Prop := {
  io_key : DecodeInternalKey (i_encoded e) = Ok (i_key e);
  io_length : 9 <= len (i_encoded e) <= MaxInternalKeySize;
  io_offset : is_u64 (Offset (i_handle e));
  io_size : is_u64 (Length (i_handle e))
}.
Lemma readCanonical_app value rest : is_u64 value -> readCanonicalUvarint (put_uvarint value ++ rest) = Ok (value, uvarint_len value).
Proof. intros Hv. apply readCanonical_ok. split_and!; [done|done|]. unfold uvarint_len. rewrite len_to_nat. apply take_app_length. Qed.
Lemma decode_index_entry_encode previous e rest : index_entry_ok e ->
  match previous with Some p => key_lt (i_key p) (i_key e) | None => True end ->
  decode_index_entry previous (encode_index_entry (index_entry e) ++ rest) = Ok (e, rest).
Proof.
  intros [Hk Hl Ho Hs] Hp. unfold decode_index_entry, encode_index_entry, index_entry. cbn [x_lastKey x_handle]. rewrite <- !app_assoc.
  rewrite readCanonical_app by (unfold is_u64; change MaxInternalKeySize with 1048585 in Hl; lia). cbn [or_corrupt mbind result_bind].
  rewrite (proj2 (Z.leb_le 9 _)), (proj2 (Z.leb_le _ MaxInternalKeySize)) by lia. cbn [andb check require mbind result_bind].
  unfold uvarint_len. rewrite !len_to_nat.
  rewrite drop_app_length. set (tail := le_put 8 _ ++ le_put 8 _ ++ rest).
  assert (16 <= len tail) as Ht by (unfold tail; rewrite !len_app, !len_le_put; pose proof (len_nonneg rest); lia).
  rewrite len_app, (proj2 (Z.leb_le _ (_ + _))), (proj2 (Z.leb_le 16 _)) by lia. cbn [andb check require mbind result_bind].
  rewrite take_app_length, drop_app_length, Hk. cbn [or_corrupt mbind result_bind].
  assert (match previous with Some p => negb (not_before (i_key p) (i_key e)) | None => true end = true) as ->.
  { destruct previous as [p|]; [|done]. by rewrite (proj2 (not_before_false _ _)). }
  cbn [check require mbind result_bind]. unfold tail. fields. rewrite !le_get_put64 by done. by destruct e as [? ? []].
Qed.
Lemma decode_index_entries_encode es : forall previous, Forall index_entry_ok es -> StronglySorted key_lt (option_list (i_key <$> previous) ++ (i_key <$> es)) ->
  decode_index_entries (length es) previous (concat (encode_index_entry <$> (index_entry <$> es))) = Ok (es, []).
Proof.
  induction es as [|e es IH]; intros previous Hok Hs; [done|]. apply Forall_cons in Hok as [He Hok]. cbn [length decode_index_entries fmap list_fmap concat].
  rewrite decode_index_entry_encode; [|done|]. 2: { destruct previous as [p|]; [|done]. cbn in Hs. by apply StronglySorted_cons in Hs as [[? _]%Forall_cons _]. }
  cbn [mbind result_bind]. rewrite IH; [done|done|]. destruct previous; cbn in Hs |- *; [by apply StronglySorted_cons in Hs as [_ ?]|done].
Qed.
Lemma index_concat_len es : Forall index_entry_ok es -> minimumIndexEntry * len es <= len (concat (encode_index_entry <$> (index_entry <$> es))).
Proof.
  induction 1 as [|e es [_ Hl _ _] Hok IH]; [done|]. cbn [fmap list_fmap concat]. rewrite len_app, len_cons. unfold encode_index_entry at 1. cbn [index_entry x_lastKey].
  rewrite !len_app, !len_le_put. pose proof (uvarint_len_range (len (i_encoded e))) as Hu. unfold uvarint_len in Hu. unfold minimumIndexEntry in *. lia.
Qed.
Lemma decodeIndex_encode es : es <> [] -> len es <= MaxUint32 -> Forall index_entry_ok es -> StronglySorted key_lt (i_key <$> es) ->
  decodeIndex (encode_index (index_entry <$> es)) = Ok es.
Proof.
  intros Hne Hmax Hok Hs. pose proof (index_concat_len es Hok) as Hc. unfold minimumIndexEntry in Hc. unfold decodeIndex, encode_index.
  assert (len (index_entry <$> es) = len es) as -> by (unfold len; by rewrite length_fmap). pose proof (len_nonneg es).
  assert (0 < len es) by (destruct es; [done|rewrite len_cons; pose proof (len_nonneg es); lia]).
  assert (is_u32 (len es)) as Hu by (unfold is_u32, MaxUint32 in *; lia). rewrite (u32_id _ Hu).
  set (body := concat _) in *. rewrite len_app, len_le_put, (proj2 (Z.leb_le 4 _)) by (pose proof (len_nonneg body); lia). cbn [check require mbind result_bind].
  fields. rewrite le_get_put32 by done. rewrite (proj2 (Z.eqb_neq _ 0)), (proj2 (Z.leb_le (len es) _)) by (lia || (unfold minimumIndexEntry; apply Z.div_le_lower_bound; lia)).
  cbn [negb andb check require mbind result_bind]. rewrite len_to_nat. unfold body. rewrite decode_index_entries_encode by done. done.
Qed.

(** ** The metadata *)

Lemma decode_field_encode maximum value rest : len value <= maximum -> len value <= MaxUint32 ->
  decode_field maximum (le_put 4 (u32 (len value)) ++ value ++ rest) = Ok (value, rest).
Proof.
  intros Hm Hu. pose proof (len_nonneg value). pose proof (len_nonneg rest). assert (is_u32 (len value)) as Hu' by (unfold is_u32, MaxUint32 in *; lia). rewrite (u32_id _ Hu').
  unfold decode_field. rewrite !len_app, len_le_put, (proj2 (Z.leb_le 4 _)) by lia. cbn [check require mbind result_bind]. fields.
  rewrite le_get_put32 by done. rewrite (proj2 (Z.leb_le _ maximum)), (proj2 (Z.leb_le _ (len _))) by (rewrite ?len_app; lia). cbn [andb check require mbind result_bind].
  by rewrite len_to_nat, take_app_length, drop_app_length.
Qed.
Definition encode_metadata (m : decodedMetadata) : bytes :=
  le_put 8 (m_entryCount m) ++ le_put 8 (m_deletionCount m) ++ le_put 4 (m_dataBlockCount m) ++ le_put 8 (m_rawKeyValueBytes m) ++
  le_put 4 (u32 (len (m_smallestInternal m))) ++ m_smallestInternal m ++ le_put 4 (u32 (len (m_largestInternal m))) ++ m_largestInternal m ++
  le_put 4 (u32 (len (m_smallestUser m))) ++ m_smallestUser m ++ le_put 4 (u32 (len (m_largestUser m))) ++ m_largestUser m.
Record metadata_ok (m : decodedMetadata) (smallest largest : InternalKey) : Prop := {
  mo_entries : 0 < m_entryCount m < 2 ^ 64;
  mo_deletions : 0 <= m_deletionCount m <= m_entryCount m;
  mo_blocks : 0 < m_dataBlockCount m < 2 ^ 32;
  mo_raw : is_u64 (m_rawKeyValueBytes m);
  mo_smallest : DecodeInternalKey (m_smallestInternal m) = Ok smallest;
  mo_largest : DecodeInternalKey (m_largestInternal m) = Ok largest;
  mo_order : key_le smallest largest;
  mo_users : bytes_leb (m_smallestUser m) (m_largestUser m) = true;
  mo_smallest_len : len (m_smallestInternal m) <= MaxInternalKeySize;
  mo_largest_len : len (m_largestInternal m) <= MaxInternalKeySize;
  mo_smallest_user : len (m_smallestUser m) <= MaxUserKeySize;
  mo_largest_user : len (m_largestUser m) <= MaxUserKeySize
}.
Lemma encode_metadata_len m smallest largest : metadata_ok m smallest largest -> 28 <= len (encode_metadata m) <= maximumMetadata - BlockTrailerSize.
Proof.
  intros Hm. unfold encode_metadata, maximumMetadata. rewrite !len_app, !len_le_put. destruct Hm.
  pose proof (len_nonneg (m_smallestInternal m)). pose proof (len_nonneg (m_largestInternal m)). pose proof (len_nonneg (m_smallestUser m)). pose proof (len_nonneg (m_largestUser m)). lia.
Qed.
Lemma decodeMetadata_encode m smallest largest : metadata_ok m smallest largest -> decodeMetadata (encode_metadata m) = Ok m.
Proof.
  intros Hm. pose proof (encode_metadata_len m _ _ Hm) as [Hlen _]. destruct Hm as [He Hd Hb Hr Hs Hl Ho Hu Hs' Hl' Hsu Hlu].
  assert (MaxInternalKeySize <= MaxUint32 /\ MaxUserKeySize <= MaxUint32) as [Hmi Hmu] by done.
  unfold decodeMetadata. rewrite (proj2 (Z.leb_le 28 _)) by done. cbn [check require mbind result_bind]. clear Hlen. unfold encode_metadata. fields.
  rewrite decode_field_encode by lia. cbn [mbind result_bind]. rewrite decode_field_encode by lia. cbn [mbind result_bind].
  rewrite decode_field_encode by lia. cbn [mbind result_bind].
  pose proof (decode_field_encode MaxUserKeySize (m_largestUser m) [] Hlu ltac:(lia)) as Hend. rewrite app_nil_r in Hend. rewrite Hend. cbn [mbind result_bind].
  rewrite !le_get_put64, le_get_put32 by (unfold is_u64, is_u32; lia || done). change (len [] =? 0) with true. cbn [check require mbind result_bind].
  rewrite (proj2 (Z.eqb_neq (m_entryCount m) 0)), (proj2 (Z.eqb_neq (m_dataBlockCount m) 0)), (proj2 (Z.leb_le (m_deletionCount m) _)) by lia. cbn [negb andb check require mbind result_bind].
  rewrite Hs, Hl, Hu. cbn [or_corrupt mbind result_bind]. assert (match CompareInternal smallest largest with Gt => false | _ => true end = true) as ->.
  { unfold key_le in Ho. by destruct (CompareInternal smallest largest). }
  by destruct m.
Qed.
