(* ===== verification/SSTableReads.v ===== *)
(** * Reads of an opened table

    Whatever file [openReader] accepts is a strictly sorted table, and the
    reads of the reader (binary search in the index, one interval of one
    block, the Bloom filter) are the reference reads of its contents.  Reads
    after opening go through a file of the same bytes that may fail at any
    time: a read then returns an error of the file or the right answer. *)

From S2P Require Import Prelude Varint InternalKey Crc32c Codec Files MvccStore SSTable SSTableBlock SSTableFormat SSTableWriter SSTableReader.
Import sstable writer reader.

(** ** Reads that may fail *)

Definition io_failure (e : errors) : Prop := e = [ErrUnexpectedEOF] \/ e = [ErrIO] \/ e = corrupt ErrInvalidBlock.
(** A file that some reads of fail. *)
Definition faulty (f : randomAccessFile) : Prop := exists offset n, ra_fault f offset n <> None.
Lemma healthy_not_faulty b : ~ faulty (healthy b).
Proof. by intros (? & ? & ?). Qed.
(** [m] is [m0], or an error of the file [f] when it is faulty. *)
Definition flaky (f : randomAccessFile) {A} (m m0 : res A) : Prop := m = m0 \/ faulty f /\ exists e, m = Err e /\ io_failure e.

Lemma flaky_refl f {A} (m : res A) : flaky f m m.
Proof. by left. Qed.
Lemma flaky_bind f {A B} (m m0 : res A) (k k0 : A -> res B) : flaky f m m0 -> (forall a, m0 = Ok a -> flaky f (k a) (k0 a)) -> flaky f (m ≫= k) (m0 ≫= k0).
Proof.
  intros [->|(Hf & e & -> & He)] Hk; [|right; split; [done|]; by exists e]. destruct m0 as [a|e]; cbn; [by apply Hk|by left].
Qed.
#[export] Hint Resolve flaky_refl : core.

Definition same_bytes (f f' : randomAccessFile) : Prop := ra_bytes f = ra_bytes f'.
Lemma readAtExact_flaky f f' n offset b : same_bytes f f' -> readAtExact f n offset = Ok b -> flaky f' (readAtExact f' n offset) (Ok b).
Proof.
  unfold readAtExact, ReadAt. intros Hs. destruct (MaxInt64 <? offset); [done|].
  destruct (ra_fault f offset n) as [[]|]; try done. destruct (_ <=? _) eqn:Hle; [|done]. intros [= <-].
  rewrite <- Hs, Hle. destruct (ra_fault f' offset n) as [fault|] eqn:Hf; [right|by left].
  split; [exists offset, n; by rewrite Hf|]. destruct fault; eexists; (split; [done|]); unfold io_failure; auto.
Qed.
Lemma readBlock_flaky f f' h k regionEnd b : same_bytes f f' -> readBlockUnlocked f h k regionEnd = Ok b -> flaky f' (readBlockUnlocked f' h k regionEnd) (Ok b).
Proof.
  intros Hs Hr. rewrite <- Hr. unfold readBlockUnlocked in *. apply flaky_bind; [done|]. intros [] _. apply flaky_bind; [done|]. intros [] _.
  ok_inv Hr. apply flaky_bind; [|done]. rewrite Hx1. by eapply readAtExact_flaky.
Qed.

(** ** The blocks of a table *)

Record stored := { st_payload : bytes; st_block : decodedDataBlock }.
Definition region_end (ie : decodedIndexEntry) : Z := u64 (Offset (i_handle ie) + Length (i_handle ie)).
(** The block an index entry names. *)
Record block_at (f : randomAccessFile) (ie : decodedIndexEntry) (b : stored) : Prop := {
  ba_read : readBlockUnlocked f (i_handle ie) blockData (region_end ie) = Ok (st_payload b);
  ba_decode : decodeDataBlock (st_payload b) (i_handle ie) = Ok (st_block b);
  ba_last : e_encoded <$> last (k_entries (st_block b)) = Some (i_encoded ie)
}.
Definition all_entries (bs : list stored) : list decodedEntry := concat ((fun b => k_entries (st_block b)) <$> bs).

Lemma block_sorted_app xs ys : block_sorted (xs ++ ys) <-> block_sorted xs /\ block_sorted ys /\ forall x y, x ∈ xs -> y ∈ ys -> key_lt (e_key x) (e_key y).
Proof. unfold block_sorted. rewrite StronglySorted_app. tauto. Qed.
Lemma block_sorted_last_first xs ys x y : block_sorted xs -> block_sorted ys -> last xs = Some x -> head ys = Some y -> key_lt (e_key x) (e_key y) -> block_sorted (xs ++ ys).
Proof.
  intros Hx Hy Hl Hh Hlt. apply block_sorted_app. split_and!; [done..|]. intros a b Ha Hb.
  assert (a = x \/ key_lt (e_key a) (e_key x)) as Hax.
  { apply last_Some in Hl as [l ->]. apply elem_of_app in Ha as [Ha|Ha]; [right|left; set_solver].
    apply block_sorted_app in Hx as (_ & _ & Hx). apply Hx; set_solver. }
  assert (b = y \/ key_lt (e_key y) (e_key b)) as Hby.
  { destruct ys as [|y' ys]; [done|]. injection Hh as ->. apply elem_of_cons in Hb as [->|Hb]; [by left|right].
    apply StronglySorted_cons in Hy as [Hf _]. rewrite Forall_forall in Hf. by apply Hf. }
  destruct Hax as [->|Hax], Hby as [->|Hby]; [done|by eapply key_lt_trans..|]. eapply key_lt_trans; [exact Hax|]. by eapply key_lt_trans.
Qed.

Lemma validate_entries_inv bloom es : forall s s', validate_entries bloom s es = Ok s' ->
  s_crcs s' = s_crcs s /\ s_first s' = s_first s /\ s_last s' = s_last s /\ s_count s' = s_count s + len es /\ Forall (fun e => mayContain bloom (userKey (e_key e)) = true) es.
Proof.
  induction es as [|e es IH]; intros s s' H; cbn [validate_entries] in H; ok_inv H.
  { injection H as <-. rewrite len_nil, Z.add_0_r. done. }
  apply IH in H as (Hc & Hf & Hl & Hcount & Hall). unfold validate_entry in Hx. ok_inv Hx. apply check_ok in Hx0.
  destruct (checkedAdd _ _); [|done]. destruct (checkedAdd _ _); [|done]. injection Hx as <-. cbn in *. rewrite len_cons. split_and!; [done..|lia|]. by constructor.
Qed.
Lemma validate_blocks_inv f bloom index : forall s s', validate_blocks f bloom s index = Ok s' ->
  exists bs, Forall2 (block_at f) index bs /\ s_crcs s' = s_crcs s ++ ((fun b => blockPayloadChecksum (st_payload b) blockData) <$> bs) /\
    Forall (fun e => mayContain bloom (userKey (e_key e)) = true) (all_entries bs) /\ block_sorted (all_entries bs) /\
    match s_last s, head (all_entries bs) with Some l, Some e => key_lt (e_key l) (e_key e) | _, _ => True end /\
    s_first s' = match s_first s with Some e => Some e | None => head (all_entries bs) end /\
    s_last s' = match last (all_entries bs) with Some e => Some e | None => s_last s end /\
    s_count s' = s_count s + len (all_entries bs).
Proof.
  induction index as [|ie index IH]; intros s s' H; cbn [validate_blocks] in H; ok_inv H.
  { injection H as <-. exists []. cbn. rewrite app_nil_r. split_and!; try done; try (by constructor); [by destruct (s_last s)|by destruct (s_first s)|rewrite len_nil; lia]. }
  unfold validate_block in Hx. ok_inv Hx. rename x0 into payload, x1 into block, Hx0 into Hread, Hx1 into Hdec.
  destruct (head (k_entries block)) as [first|] eqn:Hfirst; [|done]. destruct (last (k_entries block)) as [blast|] eqn:Hlast; [|done].
  ok_inv Hx. apply check_ok in Hx0, Hx1. apply bytes_eqb_eq in Hx0. apply validate_entries_inv in Hx as (Hc & Hf & Hl & Hcount & Hall). cbn in Hc, Hl, Hf, Hcount.
  apply IH in H as (bs & Hbs & Hcrc & Hmay & Hs & Hord & Hf' & Hl' & Hcount'). rewrite Hl in Hord. rewrite Hc in Hcrc.
  pose proof (decodeDataBlock_ok _ _ _ Hdec) as Hb. exists ({| st_payload := payload; st_block := block |} :: bs).
  assert (all_entries ({| st_payload := payload; st_block := block |} :: bs) = k_entries block ++ all_entries bs) as Hae by done. rewrite Hae.
  split_and!.
  - constructor; [|done]. split; cbn; [done|done|]. rewrite Hlast. cbn. by rewrite Hx0.
  - rewrite Hcrc, <- app_assoc. done.
  - apply Forall_app. done.
  - destruct (all_entries bs) as [|e es] eqn:He; [rewrite app_nil_r; apply Hb|]. cbn in Hord.
    by eapply block_sorted_last_first; [apply Hb|done|done|done|].
  - destruct (s_last s) as [l|]; [|done]. destruct (k_entries block) as [|e es]; [done|]. cbn in Hfirst |- *. injection Hfirst as ->.
    apply negb_true_iff, not_before_false in Hx1. done.
  - rewrite Hf', Hf. destruct (s_first s); [done|]. destruct (k_entries block); [done|]. cbn in Hfirst |- *. by rewrite Hfirst.
  - rewrite Hl', Hl, last_app, Hlast. by destruct (last (all_entries bs)).
  - rewrite len_app. lia.
Qed.

(** ** An opened reader *)

Record table_ok (r : Reader) (bs : list stored) : Prop := {
  to_blocks : Forall2 (block_at (rd_file r)) (rd_index r) bs;
  to_keys : Forall (fun ie => DecodeInternalKey (i_encoded ie) = Ok (i_key ie)) (rd_index r);
  to_index : StronglySorted key_lt (i_key <$> rd_index r);
  to_crcs : rd_dataCRCs r = (fun b => blockPayloadChecksum (st_payload b) blockData) <$> bs;
  to_bloom : Forall (fun e => mayContain (rd_bloom r) (userKey (e_key e)) = true) (all_entries bs);
  to_sorted : block_sorted (all_entries bs);
  to_open : rd_closed r = false;
  to_metadata : exists meta, rd_metadata r = Some meta /\ e_key <$> head (all_entries bs) = Some (SmallestInternal meta) /\
    e_key <$> last (all_entries bs) = Some (LargestInternal meta) /\ EntryCount meta = len (all_entries bs)
}.

Lemma decode_index_entries_inv count : forall previous remaining entries rest, decode_index_entries count previous remaining = Ok (entries, rest) ->
  Forall (fun ie => DecodeInternalKey (i_encoded ie) = Ok (i_key ie)) entries /\ StronglySorted key_lt (i_key <$> entries) /\
  match previous with Some p => Forall (key_lt (i_key p)) (i_key <$> entries) | None => True end.
Proof.
  induction count as [|count IH]; intros previous remaining entries rest H; cbn [decode_index_entries] in H; ok_inv H; injection H as <- <-.
  { split_and!; [constructor..|destruct previous; constructor]. }
  apply IH in Hx0 as (Hk & Hs & Hp). unfold decode_index_entry in Hx. ok_inv Hx. apply Ok_inj in Hx.
  match goal with H : or_corrupt (DecodeInternalKey _) _ = Ok _ |- _ => apply or_corrupt_ok in H end.
  match goal with H : check (match previous with _ => _ end) = Ok _ |- _ => apply check_ok in H; rename H into Hx5 end.
  injection Hx as <- _. cbn [fmap list_fmap i_key] in *. split_and!; [by constructor|by constructor|]. destruct previous as [p|]; [|done].
  apply negb_true_iff, not_before_false in Hx5. constructor; [done|]. eapply Forall_impl; [exact Hp|]. intros k Hk'. by eapply key_lt_trans.
Qed.
Lemma decodeIndex_inv payload index : decodeIndex payload = Ok index ->
  Forall (fun ie => DecodeInternalKey (i_encoded ie) = Ok (i_key ie)) index /\ StronglySorted key_lt (i_key <$> index).
Proof. unfold decodeIndex. intros H. ok_inv H. injection H as <-. by destruct (decode_index_entries_inv _ _ _ _ _ Hx1) as (? & ? & _). Qed.
Lemma openReader_ok f size base maxIndex r : openReader f size base maxIndex = Ok r ->
  exists bs, table_ok r bs /\ rd_file r = f /\ rd_size r = size.
Proof.
  unfold openReader. intros H. ok_inv H. injection H as <-. rename Hx12 into Hstream, Hx6 into Hindex.
  unfold validateDataStream in Hstream. ok_inv Hstream. rename x12 into s. apply validate_blocks_inv in Hx6 as (bs & Hbs & Hcrc & Hmay & Hs & _ & Hf & Hl & Hcount).
  cbn in Hf, Hl, Hcrc, Hcount. destruct (s_first s) as [first|] eqn:Hfirst; [|done]. destruct (s_last s) as [last|] eqn:Hlast; [|done].
  ok_inv Hstream. apply Ok_inj in Hstream. injection Hstream as <- <-. exists bs. split; [|done].
  apply decodeIndex_inv in Hindex as [Hkeys Hsorted]. split; cbn; [done..|]. eexists. split; [done|]. cbn. rewrite <- Hf. split_and!; [done| |lia].
  destruct (list.last (all_entries bs)); [|done]. cbn. congruence.
Qed.

Section reads.
Context (r : Reader) (bs : list stored) (f : randomAccessFile) (Hok : table_ok r bs) (Hsame : same_bytes (rd_file r) f).

Lemma blocks_length : length bs = length (rd_index r).
Proof. symmetry. eapply Forall2_length, Hok. Qed.
Lemma block_lookup i b : bs !! i = Some b -> exists ie, rd_index r !! i = Some ie /\ block_at (rd_file r) ie b.
Proof. intros Hi. destruct (Forall2_lookup_r _ _ _ _ _ (to_blocks _ _ Hok) Hi) as (ie & ? & ?). eauto. Qed.
Lemma read_payload i b : bs !! i = Some b -> flaky f (readDataPayloadUnlocked (with_file f r) i) (Ok (st_payload b)).
Proof.
  intros Hi. destruct (block_lookup i b Hi) as (ie & Hie & Hb). unfold readDataPayloadUnlocked. cbn [rd_index rd_file rd_dataCRCs with_file].
  rewrite Hie. change (Ok (st_payload b)) with (Ok (st_payload b) ≫= fun p => @Ok errors _ p). apply flaky_bind.
  - eapply readBlock_flaky; [done|apply Hb].
  - intros payload [= <-]. rewrite (to_crcs _ _ Hok), list_lookup_fmap, Hi. cbn. rewrite Z.eqb_refl, andb_false_r. by left.
Qed.
Lemma load_block i b : bs !! i = Some b -> flaky f (loadDataBlockUnlocked (with_file f r) i) (Ok (st_block b)).
Proof.
  intros Hi. destruct (block_lookup i b Hi) as (ie & Hie & Hb). unfold loadDataBlockUnlocked.
  assert (@Ok errors _ (st_block b) = Ok (st_payload b) ≫= fun p => match rd_index (with_file f r) !! i with None => Err [] | Some ie => decodeDataBlock p (i_handle ie) end) as ->.
  { cbn. rewrite Hie. symmetry. apply Hb. }
  apply flaky_bind; [by apply read_payload|]. intros p _. by left.
Qed.

(** The key of an index entry is that of the last entry of its block. *)
Lemma index_key i b ie : bs !! i = Some b -> rd_index r !! i = Some ie -> exists e, last (k_entries (st_block b)) = Some e /\ e_key e = i_key ie.
Proof using Hok.
  clear f Hsame.
  intros Hi Hie. destruct (block_lookup i b Hi) as (ie' & Hie' & Hb). simplify_eq. pose proof (ba_last _ _ _ Hb) as Hl.
  destruct (last (k_entries (st_block b))) as [e|] eqn:He; [|done]. exists e. split; [done|]. injection Hl as Hl.
  pose proof (bo_entries _ _ (decodeDataBlock_ok _ _ _ (ba_decode _ _ _ Hb))) as Hall. rewrite Forall_forall in Hall.
  assert (e ∈ k_entries (st_block b)) as Hin by (apply last_Some in He as [l ->]; set_solver). pose proof (eo_key _ (Hall e Hin)) as Hk.
  pose proof (to_keys _ _ Hok) as Hks. rewrite Forall_forall in Hks. specialize (Hks ie ltac:(by eapply list_elem_of_lookup_2)). congruence.
Qed.
Lemma block_entries_in i b e : bs !! i = Some b -> e ∈ k_entries (st_block b) -> e ∈ all_entries bs.
Proof.
  intros Hi He. unfold all_entries. apply list_elem_of_In, in_concat. exists (k_entries (st_block b)). split; [|by apply list_elem_of_In].
  apply list_elem_of_In, list_elem_of_fmap. exists b. split; [done|]. by eapply list_elem_of_lookup_2.
Qed.
Lemma all_entries_split i b : bs !! i = Some b -> all_entries bs = all_entries (take i bs) ++ k_entries (st_block b) ++ all_entries (drop (S i) bs).
Proof. intros Hi. rewrite <- (take_drop_middle _ _ _ Hi) at 1. unfold all_entries. rewrite fmap_app, concat_app. done. Qed.
Lemma block_last_max i b e x : bs !! i = Some b -> last (k_entries (st_block b)) = Some x -> e ∈ k_entries (st_block b) -> e = x \/ key_lt (e_key e) (e_key x).
Proof using Hok.
  clear f Hsame.
  intros Hi Hx He. destruct (block_lookup i b Hi) as (ie & _ & Hb). pose proof (bo_sorted _ _ (decodeDataBlock_ok _ _ _ (ba_decode _ _ _ Hb))) as Hs.
  apply last_Some in Hx as [l Hl]. rewrite Hl in *. apply elem_of_app in He as [He|He]; [right|left; set_solver].
  apply block_sorted_app in Hs as (_ & _ & Hs). apply Hs; set_solver.
Qed.

Lemma seek_none target : lowerBoundIndex (rd_index r) target = length (rd_index r) -> from_target target (all_entries bs) = [].
Proof using Hok.
  clear f Hsame.
  intros Hn. pose proof (search_all _ target (to_index _ _ Hok)) as (_ & Hlo & _). rewrite length_fmap in Hlo. unfold lowerBoundIndex in Hn. rewrite Hn in Hlo.
  apply from_target_below, Forall_forall. intros e He. unfold all_entries in He. apply list_elem_of_In, in_concat in He as (es & Hes & He).
  apply list_elem_of_In, list_elem_of_fmap in Hes as (b & -> & Hb). apply list_elem_of_lookup_1 in Hb as [i Hi]. apply list_elem_of_In in He.
  destruct (block_lookup i b Hi) as (ie & Hie & _). destruct (index_key i b ie Hi Hie) as (x & Hx & Hkx).
  assert (key_lt (e_key x) target) as Hlt.
  { rewrite Hkx. apply (Hlo i); [by eapply lookup_lt_Some|]. by rewrite list_lookup_fmap, Hie. }
  destruct (block_last_max i b e x Hi Hx He) as [->|?]; [done|]. by eapply key_lt_trans.
Qed.
(** The block the index search selects holds the first entry at or above the
    target. *)
Lemma seek_some target b : lowerBoundIndex (rd_index r) target <> length (rd_index r) -> bs !! lowerBoundIndex (rd_index r) target = Some b ->
  exists e es, from_target target (k_entries (st_block b)) = e :: es /\
    from_target target (all_entries bs) = (e :: es) ++ all_entries (drop (S (lowerBoundIndex (rd_index r) target)) bs).
Proof using Hok.
  clear f Hsame.
  intros Hn Hb. pose proof (search_all _ target (to_index _ _ Hok)) as (Hle & Hlo & Hhi). rewrite length_fmap in *. fold (lowerBoundIndex (rd_index r) target) in *.
  set (n := lowerBoundIndex (rd_index r) target) in *. destruct (block_lookup n b Hb) as (ie & Hie & _). destruct (index_key n b ie Hb Hie) as (x & Hx & Hkx).
  assert (~ key_lt (e_key x) target) as Hge.
  { rewrite Hkx. apply (Hhi n); [done|]. by rewrite list_lookup_fmap, Hie. }
  assert (from_target target (all_entries (take n bs)) = []) as Hpre.
  { apply from_target_below, Forall_forall. intros e He. unfold all_entries in He. apply list_elem_of_In, in_concat in He as (es & Hes & He).
    apply list_elem_of_In, list_elem_of_fmap in Hes as (b' & -> & Hb'). apply list_elem_of_lookup_1 in Hb' as [i Hi]. apply lookup_take_Some in Hi as [Hi Hlt].
    apply list_elem_of_In in He. destruct (block_lookup i b' Hi) as (ie' & Hie' & _). destruct (index_key i b' ie' Hi Hie') as (x' & Hx' & Hkx').
    assert (key_lt (e_key x') target) by (rewrite Hkx'; apply (Hlo i); [done|]; by rewrite list_lookup_fmap, Hie').
    destruct (block_last_max i b' e x' Hi Hx' He) as [->|?]; [done|]. by eapply key_lt_trans. }
  pose proof (to_sorted _ _ Hok) as Hs. rewrite (all_entries_split n b Hb) in Hs |- *. apply block_sorted_app in Hs as (_ & Hs & _).
  apply last_Some in Hx as [l Hl]. rewrite !from_target_app, Hpre. cbn [app].
  assert (from_target target (all_entries (drop (S n) bs)) = all_entries (drop (S n) bs)) as ->.
  { apply filter_all, Forall_forall. intros e He Hlt. apply Hge. eapply key_lt_trans; [|exact Hlt]. apply block_sorted_app in Hs as (_ & _ & Hs).
    apply Hs; [rewrite Hl; set_solver|done]. }
  rewrite Hl, from_target_app. assert (from_target target [x] = [x]) as -> by (unfold from_target; by rewrite filter_cons_True).
  destruct (from_target target l) as [|e es]; cbn; eauto.
Qed.

Definition not_found {A} (o : option A) : res A := match o with Some a => Ok a | None => Err [ErrNotFound] end.
Lemma seekEntry_spec target : flaky f (seekEntry (with_file f r) target) (not_found (head (from_target target (all_entries bs)))).
Proof.
  unfold seekEntry. cbn [with_file rd_closed rd_index]. rewrite (to_open _ _ Hok). cbn [negb require mbind result_bind].
  destruct (Nat.eqb_spec (lowerBoundIndex (rd_index r) target) (length (rd_index r))) as [He|Hne]; [rewrite seek_none by done; by left|].
  pose proof (search_all _ target (to_index _ _ Hok)) as (Hle & _ & _). rewrite length_fmap in Hle. fold (lowerBoundIndex (rd_index r) target) in Hle.
  destruct (lookup_lt_is_Some_2 bs (lowerBoundIndex (rd_index r) target)) as [b Hb]; [rewrite blocks_length; lia|].
  destruct (seek_some target b Hne Hb) as (e & es & Hft & ->). destruct (block_lookup _ b Hb) as (ie & _ & Hat).
  pose proof (bo_seek _ _ (decodeDataBlock_ok _ _ _ (ba_decode _ _ _ Hat)) target) as Hseek. rewrite Hft in Hseek.
  destruct (read_payload _ b Hb) as [->|(? & err & -> & Herr)]; cbn; [rewrite Hseek; by left|right; eauto].
Qed.
End reads.

(** ** The contents of a table *)

Definition table_entries (bs : list stored) : store := entry_of <$> all_entries bs.
(** The entries a full decoding of the table's blocks returns. *)
Definition table_contents (r : Reader) : store :=
  entry_of <$> concat ((fun i => match loadDataBlockUnlocked r i with Ok b => k_entries b | Err _ => [] end) <$> seq 0 (length (rd_index r))).

Lemma load_block_exact r bs i b : table_ok r bs -> bs !! i = Some b -> loadDataBlockUnlocked r i = Ok (st_block b).
Proof.
  intros Hok Hi. destruct (block_lookup r bs Hok i b Hi) as (ie & Hie & Hb). unfold loadDataBlockUnlocked, readDataPayloadUnlocked. rewrite Hie.
  fold (region_end ie). rewrite (ba_read _ _ _ Hb). cbn. rewrite (to_crcs _ _ Hok), list_lookup_fmap, Hi. cbn. rewrite Z.eqb_refl, andb_false_r. cbn. apply Hb.
Qed.
Lemma table_contents_ok r bs : table_ok r bs -> table_contents r = table_entries bs.
Proof.
  intros Hok. unfold table_contents, table_entries, all_entries. do 2 f_equal. rewrite <- (blocks_length r bs Hok).
  apply list_eq. intros i. rewrite !list_lookup_fmap. destruct (bs !! i) as [b|] eqn:Hi; cbn.
  - rewrite lookup_seq_lt by (by eapply lookup_lt_Some). cbn. by rewrite (load_block_exact r bs i b).
  - rewrite lookup_seq_ge; [done|]. by apply lookup_ge_None.
Qed.
Lemma table_entries_sorted r bs : table_ok r bs -> store_sorted (table_entries bs).
Proof. intros Hok. eapply StronglySorted_fmap; [|apply Hok]. done. Qed.
Lemma all_entries_ok r bs : table_ok r bs -> Forall entry_ok (all_entries bs).
Proof.
  intros Hok. apply Forall_forall. intros e He. unfold all_entries in He. apply list_elem_of_In, in_concat in He as (es & Hes & He).
  apply list_elem_of_In, list_elem_of_fmap in Hes as (b & -> & Hb). apply list_elem_of_lookup_1 in Hb as [i Hi]. apply list_elem_of_In in He.
  destruct (block_lookup r bs Hok i b Hi) as (ie & _ & Hat). pose proof (bo_entries _ _ (decodeDataBlock_ok _ _ _ (ba_decode _ _ _ Hat))) as Hall.
  rewrite Forall_forall in Hall. by apply Hall.
Qed.
Lemma table_entries_wf r bs : table_ok r bs -> Forall (fun e => key_wf e.1) (table_entries bs).
Proof.
  intros Hok. apply Forall_fmap. eapply Forall_impl; [by apply (all_entries_ok r)|]. intros e He. by apply key_encode_decode in He as [? _] || (destruct (key_encode_decode _ _ (eo_key _ He)); done).
Qed.
Lemma entries_from_target target es : block_sorted es -> entry_of <$> from_target target es = lower_bound target (entry_of <$> es).
Proof.
  intros Hs. rewrite lower_bound_filter by (by eapply StronglySorted_fmap; [|exact Hs]). clear Hs. induction es as [|e es IH]; [done|].
  rewrite from_target_cons. rewrite fmap_cons, filter_cons. cbn [entry_of fst]. destruct (decide (~ key_lt (e_key e) target)); cbn; by rewrite IH.
Qed.
Lemma Seek_spec r bs f target : table_ok r bs -> same_bytes (rd_file r) f ->
  flaky f (Seek (with_file f r) target) (not_found (head (lower_bound target (table_entries bs)))).
Proof.
  intros Hok Hs. unfold Seek, table_entries. rewrite <- entries_from_target by apply Hok.
  destruct (seekEntry_spec r bs f Hok Hs target) as [->|(? & e & -> & He)]; [|right; eauto]. left. by destruct (from_target target (all_entries bs)).
Qed.
Lemma Get_spec r bs f key : table_ok r bs -> same_bytes (rd_file r) f ->
  flaky f (Get (with_file f r) key) (not_found ((fun v => (key, v)) <$> MvccStore.get key (table_entries bs))).
Proof.
  intros Hok Hs. unfold Get. rewrite get_lower_bound by (by eapply table_entries_sorted).
  destruct (Seek_spec r bs f key Hok Hs) as [->|(? & e & -> & He)]; [|right; eauto]. left.
  destruct (head (lower_bound key (table_entries bs))) as [e|]; [|done]. cbn. by destruct (CompareInternal e.1 key).
Qed.
(** The filter answers no only for keys without a version. *)
Lemma bloom_negative r bs user target : table_ok r bs -> mayContain (rd_bloom r) user = false -> candidate user target (table_entries bs) = None.
Proof.
  intros Hok Hm. apply candidate_None, Forall_fmap. eapply Forall_impl; [apply Hok|]. cbn. intros e He. unfold relevant.
  destruct (bytes_eqb (userKey (e_key e)) user) eqn:Hu; [|done]. apply bytes_eqb_eq in Hu. congruence.
Qed.
Lemma GetCandidate_spec r bs f user target : table_ok r bs -> same_bytes (rd_file r) f -> len user <= MaxUserKeySize ->
  flaky f (GetCandidate (with_file f r) user target) (not_found (candidate user target (table_entries bs))).
Proof.
  intros Hok Hs Hu. unfold GetCandidate, MayContain, candidateSeekKey. rewrite (proj2 (Z.leb_le _ _)) by done. cbn [rd_closed rd_bloom with_file].
  rewrite (to_open _ _ Hok). cbn. destruct (mayContain (rd_bloom r) user) eqn:Hm; cbn; [|rewrite (bloom_negative r) by done; by left].
  change {| userKey := user; sequence := target; kind := KindDelete |} with (seek_key user target).
  rewrite candidate_lower_bound by (by eapply table_entries_sorted).
  destruct (Seek_spec r bs f (seek_key user target) Hok Hs) as [->|(? & e & -> & He)]; [|right; eauto]. left.
  destruct (head (lower_bound (seek_key user target) (table_entries bs))) as [e|]; [|done]. cbn. by destruct (bytes_eqb (userKey e.1) user).
Qed.
