(* ===== verification/SSTableIterators.v ===== *)
(** * Iterators of an opened table

    An iterator of storage/sstable walks the contents of the table from its
    starting point, one decoded block at a time; it stops at the end of its
    range, at the end of the table or at an error of the file, and never
    yields an entry again after that. *)

From S2P Require Import Prelude InternalKey Files MvccStore SSTable SSTableBlock SSTableWriter SSTableReader SSTableReads.
Import sstable writer reader.

Lemma all_entries_cons b bs : all_entries (b :: bs) = k_entries (st_block b) ++ all_entries bs.
Proof. done. Qed.
Lemma block_nonempty r bs i b : table_ok r bs -> bs !! i = Some b -> k_entries (st_block b) <> [].
Proof.
  intros Hok Hi. destruct (block_lookup r bs Hok i b Hi) as (ie & _ & Hat). apply (bo_nonempty _ _ (decodeDataBlock_ok _ _ _ (ba_decode _ _ _ Hat))).
Qed.

(** The iterator has still to yield [rem]: the rest of its block and the
    blocks after it. *)
Record pos (bs : list stored) (it : Iterator) (rem : list decodedEntry) : Prop := {
  po_open : it_closed it = false;
  po_err : it_err it = None;
  po_block : -1 <= it_blockIndex it;
  po_entry : -1 <= it_entryIndex it;
  po_fresh : it_started it = false -> k_entries (it_block it) = [] -> it_blockIndex it = -1 /\ it_entryIndex it = -1;
  po_rem : rem = drop (Z.to_nat (it_entryIndex it + 1)) (k_entries (it_block it)) ++ all_entries (drop (Z.to_nat (it_blockIndex it + 1)) bs)
}.

(** What one call of [Next] does with [rem] left, on a file [f]. *)
Definition failed (f : randomAccessFile) (it : Iterator) : Prop := faulty f /\ exists e, it_err it = Some e /\ io_failure e.
Definition outcome (f : randomAccessFile) (bs : list stored) (endKey : option bytes) (rem : list decodedEntry) (out : Iterator * bool) : Prop :=
  it_end out.1 = endKey /\
  (out.2 = false /\ failed f out.1 \/
   match rem with
   | [] => out.2 = false /\ pos bs out.1 []
   | e :: rem' =>
       if before_end endKey (entry_of e) then out.2 = true /\ Entry out.1 = Some (entry_of e) /\ pos bs out.1 rem'
       else out.2 = false /\ exists rem'', pos bs out.1 rem'' /\ rem'' `suffix_of` rem'
   end).

Section walk.
Context (r : Reader) (bs : list stored) (f : randomAccessFile) (Hok : table_ok r bs) (Hsame : same_bytes (rd_file r) f).

(** [loadBlock] past the last block, or at a block. *)
Lemma loadBlock_end it p : len (rd_index r) <= p ->
  loadBlock (with_file f r) p it = (set_iterator zero_block (len (rd_index r)) (it_entryIndex it) false (it_err it) it, false).
Proof. intros Hp. unfold loadBlock. cbn [with_file rd_closed rd_index]. rewrite (to_open _ _ Hok). by rewrite (proj2 (Z.leb_le _ _)). Qed.
Lemma loadBlock_at it i b : bs !! i = Some b ->
  loadBlock (with_file f r) (Z.of_nat i) it = (set_iterator (st_block b) (Z.of_nat i) (it_entryIndex it) false (it_err it) it, true) \/
  faulty f /\ exists e, io_failure e /\
    loadBlock (with_file f r) (Z.of_nat i) it = (set_iterator (it_block it) (it_blockIndex it) (it_entryIndex it) false (Some e) it, false).
Proof.
  intros Hi. unfold loadBlock. cbn [with_file rd_closed rd_index]. rewrite (to_open _ _ Hok).
  pose proof (lookup_lt_Some _ _ _ Hi) as Hlt. rewrite (blocks_length r bs Hok) in Hlt.
  rewrite (proj2 (Z.leb_gt _ _)) by (unfold len; lia). rewrite Nat2Z.id. fold (with_file f r).
  destruct (load_block r bs f Hok Hsame i b Hi) as [->|(Hf & e & -> & He)]; [by left|right; eauto].
Qed.

(** The end of [Next]: the entry found is compared with the end key. *)
Definition finish (out : Iterator * bool) : Iterator * bool :=
  let '(it, ok) := out in
  if negb ok then (it, false)
  else
    match it_end it, k_entries (it_block it) !! Z.to_nat (it_entryIndex it) with
    | Some e, Some x =>
        if negb (bytes_ltb (userKey (e_key x)) e)
        then (set_iterator zero_block (it_blockIndex it) (it_entryIndex it) false (it_err it) it, false)
        else (set_iterator (it_block it) (it_blockIndex it) (it_entryIndex it) true (it_err it) it, true)
    | _, _ => (set_iterator (it_block it) (it_blockIndex it) (it_entryIndex it) true (it_err it) it, true)
    end.

Lemma finish_found it e es : it_closed it = false -> it_err it = None -> -1 <= it_blockIndex it -> 0 <= it_entryIndex it ->
  drop (Z.to_nat (it_entryIndex it)) (k_entries (it_block it)) = e :: es ->
  outcome f bs (it_end it) (e :: es ++ all_entries (drop (Z.to_nat (it_blockIndex it + 1)) bs)) (finish (it, true)).
Proof.
  intros Hc He Hi Hj Hd. assert (k_entries (it_block it) !! Z.to_nat (it_entryIndex it) = Some e) as Hx.
  { rewrite <- (Nat.add_0_r (Z.to_nat _)), <- lookup_drop, Hd. done. }
  assert (drop (Z.to_nat (it_entryIndex it + 1)) (k_entries (it_block it)) = es) as Hd'.
  { replace (Z.to_nat (it_entryIndex it + 1)) with (Z.to_nat (it_entryIndex it) + 1)%nat by lia. by rewrite <- drop_drop, Hd. }
  set (later := all_entries (drop (Z.to_nat (it_blockIndex it + 1)) bs)).
  unfold finish. cbn [negb]. rewrite Hx. unfold outcome, before_end. cbn [entry_of fst].
  assert (forall v, pos bs (set_iterator (it_block it) (it_blockIndex it) (it_entryIndex it) v (it_err it) it) (es ++ later)) as Hpos.
  { intros v. split; cbn; [done|done|lia|lia|done|]. by rewrite Hd'. }
  destruct (it_end it) as [k|] eqn:Hk; [destruct (bytes_ltb (userKey (e_key e)) k) eqn:Hlt; cbn [negb]|];
    (split; [done|right]); cbn [fst snd]; [|split; [done|]|]; [split_and!; [done| |apply Hpos]| |split_and!; [done| |apply Hpos]].
  - unfold Entry. cbn. rewrite Hc, Hx. done.
  - exists later. split; [|by apply suffix_app_r || by eexists]. split; cbn; [done|done|lia|lia|done|].
    by rewrite drop_nil.
  - unfold Entry. cbn. rewrite Hc, Hx. done.
Qed.

Lemma finish_skip it n : it_closed it = false -> it_err it = None -> -1 <= it_blockIndex it -> 0 <= it_entryIndex it ->
  outcome f bs (it_end it) (drop (Z.to_nat (it_entryIndex it)) (k_entries (it_block it)) ++ all_entries (drop (Z.to_nat (it_blockIndex it + 1)) bs))
    (finish (skip_blocks (S n) (with_file f r) it)).
Proof.
  intros Hc He Hi Hj. cbn [skip_blocks]. destruct (Z.ltb_spec (it_entryIndex it) (len (k_entries (it_block it)))) as [Hlt|Hge].
  { destruct (drop (Z.to_nat (it_entryIndex it)) (k_entries (it_block it))) as [|e es] eqn:Hd; [|by apply finish_found].
    apply (f_equal length) in Hd. rewrite length_drop in Hd. cbn in Hd. unfold len in Hlt. lia. }
  rewrite (drop_ge (k_entries _)) by (unfold len in Hge; lia). cbn [app].
  destruct (bs !! Z.to_nat (it_blockIndex it + 1)) as [b|] eqn:Hb.
  2: { pose proof (lookup_ge_None_1 _ _ Hb) as Hn. rewrite drop_ge by done. rewrite (blocks_length r bs Hok) in Hn.
       rewrite loadBlock_end by (unfold len; lia). cbn. split; [done|]. right. split; [done|].
       split; cbn; [done|done|unfold len; lia|lia|done|]. rewrite drop_nil. rewrite drop_ge; [done|]. rewrite (blocks_length r bs Hok). unfold len. lia. }
  rewrite (drop_S _ _ _ Hb), all_entries_cons. set (m := Z.to_nat (it_blockIndex it + 1)) in *. assert (it_blockIndex it + 1 = Z.of_nat m) as -> by lia.
  destruct (loadBlock_at it _ _ Hb) as [->|(Hf & e & Hfe & ->)]; [|cbn; split; [done|]; left; split; [done|]; split; [done|]; exists e; done].
  pose proof (block_nonempty r bs _ b Hok Hb) as Hne. set (it' := set_iterator _ _ 0 _ _ _).
  assert (skip_blocks n (with_file f r) it' = (it', true)) as ->.
  { assert (it_entryIndex it' <? len (k_entries (it_block it')) = true) as Hl by (apply Z.ltb_lt; cbn; unfold len; destruct (k_entries (st_block b)); cbn; [done|lia]).
    destruct n; cbn [skip_blocks]; by rewrite Hl. }
  destruct (k_entries (st_block b)) as [|e es] eqn:Hes; [done|]. change (it_end it) with (it_end it').
  pose proof (finish_found it' e es Hc He) as Hfin. cbn [it' set_iterator it_blockIndex it_entryIndex it_block] in Hfin.
  replace (Z.to_nat (Z.of_nat m + 1)) with (S m) in Hfin by lia.
  apply Hfin; [lia|lia|]. by rewrite drop_0.
Qed.

(** One call of [Next]. *)
Lemma Next_spec it rem : pos bs it rem -> outcome f bs (it_end it) rem (Next (with_file f r) it).
Proof.
  intros [Hc He Hi Hj Hfresh ->]. unfold Next. cbn [with_file rd_closed rd_index]. rewrite Hc, He, (to_open _ _ Hok). cbn [orb]. fold (with_file f r).
  destruct (negb (it_started it) && (len (k_entries (it_block it)) =? 0)) eqn:Hs.
  2: { cbn [negb]. fold (finish (skip_blocks (S (length (rd_index r))) (with_file f r) (set_iterator (it_block it) (it_blockIndex it) (it_entryIndex it + 1) false (it_err it) it))).
       apply (finish_skip (set_iterator (it_block it) (it_blockIndex it) (it_entryIndex it + 1) false None it)); cbn; [done|done|lia|lia]. }
  apply andb_prop in Hs as [Hst%negb_true_iff Hemp%Z.eqb_eq]. assert (k_entries (it_block it) = []) as Hnil by (destruct (k_entries (it_block it)); [done|unfold len in Hemp; cbn in Hemp; lia]).
  destruct (Hfresh Hst Hnil) as [Hi0 Hj0]. rewrite Hnil, Hi0, drop_nil. cbn [app]. change (Z.to_nat (-1 + 1)) with 0%nat. rewrite drop_0.
  destruct (bs !! 0%nat) as [b|] eqn:Hb.
  2: { pose proof (lookup_ge_None_1 _ _ Hb) as Hn. assert (all_entries bs = []) as -> by (destruct bs; [done|cbn in Hn; lia]).
       rewrite loadBlock_end by (unfold len; rewrite <- (blocks_length r bs Hok); lia).
       cbn. split; [done|]. right. split; [done|]. split; cbn; [done|done|unfold len; lia|lia|done|]. rewrite drop_nil, drop_ge; [done|]. lia. }
  pose proof (loadBlock_at it 0 b Hb) as Hload. change (Z.of_nat 0) with 0 in Hload. destruct Hload as [->|(Hf & e & Hfe & ->)]; [|cbn; split; [done|]; left; split; [done|]; split; [done|]; exists e; done].
  cbn [negb]. set (it' := set_iterator _ _ (_ + 1) _ _ _). fold (finish (skip_blocks (S (length (rd_index r))) (with_file f r) it')).
  pose proof (finish_skip it' (length (rd_index r)) Hc He) as Hfin. cbn [it' set_iterator it_blockIndex it_entryIndex it_block it_end] in Hfin.
  rewrite Hj0 in Hfin. cbn in Hfin. rewrite drop_0 in Hfin. 
  assert (all_entries bs = k_entries (st_block b) ++ all_entries (drop 1 bs)) as ->; [|apply Hfin; lia].
  by rewrite <- all_entries_cons, <- (drop_S _ _ _ Hb), drop_0.
Qed.
End walk.

(** ** Walking to the end *)

(** The loop [for it.Next() { it.Entry() }] of a client. *)
Fixpoint drain (fuel : nat) (r : Reader) (it : Iterator) : list entry * Iterator :=
  match fuel with
  | O => ([], it)
  | S fuel' =>
      let '(it, more) := Next r it in
      if more : bool then let '(es, last) := drain fuel' r it in (option_list (Entry it) ++ es, last) else ([], it)
  end.
Definition collect (fuel : nat) (r : Reader) (it : res Iterator) : res (list entry) :=
  it ← it;
  let '(es, last) := drain fuel r it in
  match it_err last with Some e => Err e | None => Ok es end.

(** Nothing is left before the end key, or the iterator failed. *)
Definition ended (bs : list stored) (it : Iterator) : Prop :=
  (exists e, it_err it = Some e) \/
  exists rem, pos bs it rem /\ Forall (fun e => before_end (it_end it) (entry_of e) = false) rem.

Lemma before_end_later endKey x y : key_lt (e_key x) (e_key y) -> before_end endKey (entry_of x) = false -> before_end endKey (entry_of y) = false.
Proof.
  destruct endKey as [k|]; [|done]. cbn. intros Hlt%(entry_lt_user (entry_of x) (entry_of y)) Hx. cbn in Hlt.
  destruct (bytes_ltb (userKey (e_key y)) k) eqn:Hy; [|done]. apply bytes_ltb_lt in Hy.
  assert (bytes_ltb (userKey (e_key x)) k = true); [|congruence]. apply bytes_ltb_lt. by eapply bytes_le_lt_trans.
Qed.

Section drain.
Context (r : Reader) (bs : list stored) (f : randomAccessFile) (Hok : table_ok r bs) (Hsame : same_bytes (rd_file r) f).

(** [Next] "remains false after EOF, Close or an error". *)
Lemma ended_Next it : ended bs it -> (Next (with_file f r) it).2 = false /\ ended bs (Next (with_file f r) it).1.
Proof.
  intros [[e He]|(rem & Hpos & Hall)].
  { assert (Next (with_file f r) it = (it, false)) as -> by (unfold Next; by rewrite He, orb_true_r). split; [done|]. left. by exists e. }
  destruct (Next_spec r bs f Hok Hsame it rem Hpos) as (Hend & [(H2 & _ & e & He & _)|H]); [split; [done|]; left; by exists e|].
  destruct rem as [|e rem]; [destruct H as [? ?]; split; [done|]; right; by exists []|].
  apply Forall_cons_1 in Hall as [He Hall]. rewrite He in H. destruct H as (? & rem' & Hp & [pre ->]). split; [done|]. right. exists rem'.
  split; [done|]. rewrite Hend. by apply Forall_app in Hall as [_ ?].
Qed.

Lemma drain_spec fuel : forall it rem, pos bs it rem -> block_sorted rem -> (length rem < fuel)%nat ->
  ended bs (drain fuel (with_file f r) it).2 /\
  (failed f (drain fuel (with_file f r) it).2 \/
   it_err (drain fuel (with_file f r) it).2 = None /\ (drain fuel (with_file f r) it).1 = upto (it_end it) (entry_of <$> rem)).
Proof.
  induction fuel as [|fuel IH]; intros it rem Hpos Hs Hlen; [lia|]. cbn [drain].
  pose proof (Next_spec r bs f Hok Hsame it rem Hpos) as (Hend & Hout).
  destruct (Next (with_file f r) it) as [it' more]. cbn [fst snd] in *. destruct Hout as [(-> & Hf & e & He & Hio)|Hout].
  { cbn. split; [left; by exists e|]. left. split; [done|]. by exists e. }
  destruct rem as [|e rem].
  { destruct Hout as [-> Hp]. cbn. split; [right; by exists []|]. right. split; [apply Hp|done]. }
  inversion_clear Hs as [|? ? Hs' Hlt]. cbn [fmap list_fmap upto]. destruct (before_end (it_end it) (entry_of e)) eqn:He.
  - destruct Hout as (-> & HE & Hp). cbn in Hlen. specialize (IH it' rem Hp Hs' ltac:(lia)). rewrite Hend in IH.
    destruct (drain fuel (with_file f r) it') as [es last]. cbn [fst snd] in *. destruct IH as [He' [?|[? ->]]]; [by split; [|left]|].
    split; [done|]. right. split; [done|]. by rewrite HE.
  - destruct Hout as (-> & rem' & Hp & [pre ->]). cbn. split; [|right; split; [apply Hp|done]]. right. exists rem'. split; [done|]. rewrite Hend.
    apply Forall_app in Hlt as [_ Hlt]. eapply Forall_impl; [exact Hlt|]. intros x Hx. exact (before_end_later _ _ _ Hx He).
Qed.

(** A started iterator is at a sorted remainder that agrees with [es] up to
    the end key. *)
Definition starts (endKey : option bytes) (es : list decodedEntry) (m : res Iterator) : Prop :=
  (exists it rem, m = Ok it /\ it_end it = endKey /\ pos bs it rem /\ block_sorted rem /\ (length rem <= length es)%nat /\
    upto endKey (entry_of <$> rem) = upto endKey (entry_of <$> es)) \/
  faulty f /\ exists e, m = Err e /\ io_failure e.

Lemma exhausted_pos endKey : pos bs (exhausted (with_file f r) endKey) [].
Proof.
  split; cbn; [done|done|unfold len; lia|lia|done|]. rewrite (drop_ge bs); [done|]. rewrite (blocks_length r bs Hok). unfold len. lia.
Qed.
Lemma positioned_starts endKey rangeMode i b n e es : bs !! i = Some b -> drop n (k_entries (st_block b)) = e :: es ->
  block_sorted ((e :: es) ++ all_entries (drop (S i) bs)) ->
  starts endKey ((e :: es) ++ all_entries (drop (S i) bs)) (Ok (positioned (st_block b) i n endKey (with_file f r) rangeMode)).
Proof.
  intros Hi Hd Hs. left. assert (k_entries (st_block b) !! n = Some e) as Hx by (rewrite <- (Nat.add_0_r n), <- lookup_drop, Hd; done).
  unfold positioned. rewrite Hx. set (past := match endKey with Some k => _ | None => false end). destruct past eqn:Hp.
  - eexists _, []. split; [done|]. split; [done|]. split; [|split; [constructor|split; [cbn; lia|]]].
    + split; cbn; [done|done|unfold len; lia|lia|done|]. rewrite drop_nil, drop_ge; [done|]. rewrite (blocks_length r bs Hok). unfold len. lia.
    + unfold past in Hp. destruct endKey as [k|]; [|done]. apply andb_prop in Hp as [_ Hp%negb_true_iff]. cbn. by rewrite Hp.
  - eexists _, _. split; [done|]. split; [done|]. split; [|split; [exact Hs|done]].
    split; cbn; [done|done|lia|lia|intros _ Hn; by rewrite Hn in Hx|].
    replace (Z.to_nat (Z.of_nat n - 1 + 1)) with n by lia. replace (Z.to_nat (Z.of_nat i + 1)) with (S i) by lia. by rewrite Hd.
Qed.

Lemma newIteratorAt_spec target rangeMode endKey :
  starts endKey (match target with Some t => from_target t (all_entries bs) | None => all_entries bs end)
    (newIteratorAt (with_file f r) target rangeMode endKey).
Proof.
  unfold newIteratorAt. cbn [with_file rd_closed rd_index]. rewrite (to_open _ _ Hok). cbn [negb require mbind result_bind]. fold (with_file f r).
  destruct target as [t|].
  2: { left. exists (new_iterator endKey), (all_entries bs). split_and!; [done|done| |apply Hok|done|done]. by split. }
  destruct (Nat.eqb_spec (lowerBoundIndex (rd_index r) t) (length (rd_index r))) as [He|Hne].
  { rewrite (seek_none r bs Hok) by done. left. eexists _, []. split_and!; [done|done|apply exhausted_pos|constructor|done|done]. }
  pose proof (search_all _ t (to_index _ _ Hok)) as (Hle & _ & _). rewrite length_fmap in Hle. fold (lowerBoundIndex (rd_index r) t) in Hle.
  destruct (lookup_lt_is_Some_2 bs (lowerBoundIndex (rd_index r) t)) as [b Hb]; [rewrite (blocks_length r bs Hok); lia|].
  destruct (seek_some r bs Hok t b Hne Hb) as (e & es & Hft & Hall). destruct (block_lookup r bs Hok _ b Hb) as (ie & _ & Hat).
  destruct (load_block r bs f Hok Hsame _ b Hb) as [->|(Hf & err & -> & Hio)]; [|right; split; [done|]; by exists err]. cbn [mbind result_bind].
  pose proof (bo_lower _ _ (decodeDataBlock_ok _ _ _ (ba_decode _ _ _ Hat)) t) as Hlow. rewrite Hft in Hlow.
  destruct (Nat.eqb_spec (lowerBound (st_block b) t) (length (k_entries (st_block b)))) as [Hl|_]; [by rewrite Hl, drop_all in Hlow|].
  rewrite Hall. apply positioned_starts; [done|done|]. rewrite <- Hall. apply sorted_filter, Hok.
Qed.

(** Collecting what an iterator yields. *)
Lemma collect_spec fuel endKey es m : starts endKey es m -> (length es < fuel)%nat ->
  flaky f (collect fuel (with_file f r) m) (Ok (upto endKey (entry_of <$> es))).
Proof.
  intros [(it & rem & -> & Hend & Hpos & Hs & Hlen & Hup)|(Hf & e & -> & He)] Hfuel; [|right; split; [done|]; by exists e].
  cbn. pose proof (drain_spec fuel it rem Hpos Hs ltac:(lia)) as (_ & Hd). destruct (drain fuel (with_file f r) it) as [es' last]. cbn [fst snd] in Hd.
  destruct Hd as [(Hf & e & -> & He)|(-> & ->)]; [right; split; [done|]; by exists e|left]. by rewrite Hend, Hup.
Qed.
Lemma table_Range_spec fuel start endKey : len (default [] start) <= MaxUserKeySize -> len (default [] endKey) <= MaxUserKeySize ->
  match start, endKey with Some s, Some e => bytes_leb s e | _, _ => true end = true -> (length (table_entries bs) < fuel)%nat ->
  flaky f (collect fuel (with_file f r) (Range (with_file f r) start endKey)) (Ok (filter (in_range start endKey) (table_entries bs))).
Proof.
  intros Hls Hle Hr Hfuel. unfold table_entries in Hfuel. rewrite length_fmap in Hfuel. unfold Range. rewrite Hr, !(proj2 (Z.leb_le _ _)) by done. cbn [andb require mbind result_bind].
  rewrite <- range_filter by (by eapply table_entries_sorted || by eapply table_entries_wf). destruct start as [s|].
  - cbn in Hls. cbn [NewInternalKey kind_valid require mbind result_bind].
    change {| userKey := s; sequence := MaxUint64; kind := KindDelete |} with (seek_key s MaxUint64).
    unfold table_entries. rewrite <- entries_from_target by apply Hok. apply collect_spec; [apply newIteratorAt_spec|].
    eapply Nat.le_lt_trans; [apply length_filter|done].
  - apply collect_spec; [apply newIteratorAt_spec|done].
Qed.
End drain.
