(* ===== verification/SSTableRoundTrip.v ===== *)
(** * From the table writer to the table reader

    The invariant of a [Writer] of storage/sstable (what its file and its
    fields hold after any calls of [Add]) and the round trip: a table whose
    [Finish] succeeds opens, and holds exactly the entries that were
    accepted. *)

From S2P Require Import Prelude Varint InternalKey Crc32c Codec Files MvccStore SSTable SSTableBlock SSTableFormat SSTableWriter SSTableReader SSTableLayout SSTableReads.
Import sstable writer reader.

(** ** The layout of the data region *)

Definition enc (e : entry) : decodedEntry := {| e_key := e.1; e_encoded := Encode e.1; e_value := e.2 |}.
Definition payload_of (interval : Z) (g : store) : bytes := builder_finish (add_entries (newDataBlockBuilder interval) (enc <$> g)).
Definition stored_bytes (interval : Z) (g : store) : bytes := appendBlockTrailer (payload_of interval g) blockData.
Definition data_bytes (interval : Z) (gs : list store) : bytes := concat (stored_bytes interval <$> gs).
Definition zero_key : InternalKey := {| userKey := []; sequence := 0; kind := KindDelete |}.
Definition last_key (l : store) : InternalKey := default zero_key (fst <$> list.last l).
Definition first_key (l : store) : InternalKey := default zero_key (fst <$> head l).
(** The index entry of the block [g] at [offset]. *)
Definition index_at (interval : Z) (offset : Z) (g : store) : decodedIndexEntry :=
  {| i_key := last_key g; i_encoded := Encode (last_key g); i_handle := {| Offset := offset; Length := len (stored_bytes interval g) |} |}.
Fixpoint index_of (interval : Z) (offset : Z) (gs : list store) : list decodedIndexEntry :=
  match gs with [] => [] | g :: gs' => index_at interval offset g :: index_of interval (offset + len (stored_bytes interval g)) gs' end.
Definition raw_size (l : store) : Z := foldr (fun e n => len (Encode e.1) + len e.2 + n) 0 l.
Definition deletions (l : store) : Z := len (filter (fun e => is_delete e.1 = true) l).

Lemma data_bytes_app interval gs hs : data_bytes interval (gs ++ hs) = data_bytes interval gs ++ data_bytes interval hs.
Proof. unfold data_bytes. by rewrite fmap_app, concat_app. Qed.
Lemma data_bytes_one interval g : data_bytes interval [g] = stored_bytes interval g.
Proof. apply app_nil_r. Qed.
Lemma index_of_app interval gs : forall offset hs,
  index_of interval offset (gs ++ hs) = index_of interval offset gs ++ index_of interval (offset + len (data_bytes interval gs)) hs.
Proof.
  induction gs as [|g gs IH]; intros offset hs; cbn [app index_of]; [by rewrite Z.add_0_r|]. rewrite IH. cbn [app]. do 3 f_equal.
  change (data_bytes interval (g :: gs)) with (stored_bytes interval g ++ data_bytes interval gs). rewrite len_app. lia.
Qed.
Lemma index_of_length interval gs : forall offset, length (index_of interval offset gs) = length gs.
Proof. induction gs as [|g gs IH]; intros offset; cbn; [done|by rewrite IH]. Qed.
Lemma raw_size_cons e l : raw_size (e :: l) = len (Encode e.1) + len e.2 + raw_size l.
Proof. done. Qed.
Lemma raw_size_app l m : raw_size (l ++ m) = raw_size l + raw_size m.
Proof. induction l as [|e l IH]; [done|]. cbn [app]. rewrite !raw_size_cons, IH. lia. Qed.
Lemma raw_size_nonneg l : 0 <= raw_size l.
Proof. induction l as [|e l IH]; [done|]. rewrite raw_size_cons. pose proof (len_nonneg (Encode e.1)). pose proof (len_nonneg e.2). lia. Qed.
Lemma deletions_snoc l e : deletions (l ++ [e]) = deletions l + (if is_delete e.1 then 1 else 0).
Proof.
  unfold deletions. rewrite filter_app, len_app, filter_cons, filter_nil. destruct (is_delete e.1) eqn:He; [rewrite decide_True by done|rewrite decide_False by done]; done.
Qed.
Lemma deletions_le l : 0 <= deletions l <= len l.
Proof. unfold deletions, len. pose proof (length_filter (fun e : entry => is_delete e.1 = true) l). lia. Qed.
Lemma last_key_snoc l e : last_key (l ++ [e]) = e.1.
Proof. unfold last_key. by rewrite last_snoc. Qed.
Lemma first_key_app l m : l <> [] -> first_key (l ++ m) = first_key l.
Proof. by destruct l. Qed.
Lemma last_key_app l m : m <> [] -> last_key (l ++ m) = last_key m.
Proof. intros Hm. unfold last_key. rewrite last_app. destruct (list.last m) eqn:Hl; [done|]. by apply last_None in Hl. Qed.

Lemma add_entries_count es : forall b, b_entries (add_entries b es) = b_entries b + len es.
Proof.
  induction es as [|e es IH]; intros b; cbn [add_entries foldl]; [by rewrite Z.add_0_r|]. fold (add_entries (add_entry b e) es).
  rewrite IH, len_cons. cbn. lia.
Qed.
Lemma add_entries_interval es : forall b, b_restartInterval (add_entries b es) = b_restartInterval b.
Proof. induction es as [|e es IH]; intros b; [done|]. cbn [add_entries foldl]. fold (add_entries (add_entry b e) es). by rewrite IH. Qed.
Lemma add_entries_snoc b es e : add_entries b (es ++ [e]) = add_entry (add_entries b es) e.
Proof. unfold add_entries. by rewrite foldl_app. Qed.

(** What [Add] guarantees of an accepted entry. *)
Record accepted (e : entry) : Prop := { ac_wf : key_wf e.1; ac_user : len (userKey e.1) <= MaxUserKeySize; ac_ok : entry_ok (enc e) }.
Lemma check_entry_ok key value : key_wf key -> check_entry key value = Ok tt -> accepted (key, value).
Proof.
  unfold check_entry. intros Hwf H. ok_inv H. clear H.
  repeat match goal with H : require _ _ = Ok _ |- _ => apply require_ok in H end.
  apply Z.leb_le in Hx, Hx0, Hx1. split; [done|done|]. split; cbn; [by apply key_decode_encode| |done|].
  - split; [|done]. unfold len. rewrite Encode_length. lia.
  - intros Hc. rewrite Hc in Hx2. cbn in Hx2. apply Z.eqb_eq in Hx2. destruct value; [done|]. rewrite len_cons in Hx2. pose proof (len_nonneg value). lia.
Qed.

(** ** The image of a table *)

Definition disk_metadata (gs : list store) : decodedMetadata := {|
  m_entryCount := len (concat gs); m_deletionCount := deletions (concat gs); m_dataBlockCount := u32 (len gs); m_rawKeyValueBytes := raw_size (concat gs);
  m_smallestInternal := Encode (first_key (concat gs)); m_largestInternal := Encode (last_key (concat gs));
  m_smallestUser := userKey (first_key (concat gs)); m_largestUser := userKey (last_key (concat gs)) |}.
Definition index_block (interval : Z) (gs : list store) : bytes := appendBlockTrailer (encode_index (index_entry <$> index_of interval 0 gs)) blockIndex.
Definition metadata_block (gs : list store) : bytes := appendBlockTrailer (encode_metadata (disk_metadata gs)) blockMetadata.
Definition filter_block (fp : option bytes) : bytes := match fp with Some p => appendBlockTrailer p blockFilter | None => [] end.
Definition footer_state (interval : Z) (gs : list store) (fp : option bytes) : footerState :=
  let dataEnd := len (data_bytes interval gs) in
  let indexEnd := dataEnd + len (index_block interval gs) in
  let metadataEnd := indexEnd + len (metadata_block gs) in
  {| f_index := {| Offset := dataEnd; Length := len (index_block interval gs) |};
     f_metadata := {| Offset := indexEnd; Length := len (metadata_block gs) |};
     f_filter := match fp with Some _ => {| Offset := metadataEnd; Length := len (filter_block fp) |} | None => no_handle end;
     f_dataEnd := dataEnd |}.
Definition table_image (interval : Z) (gs : list store) (fp : option bytes) : bytes :=
  data_bytes interval gs ++ index_block interval gs ++ metadata_block gs ++ filter_block fp ++ encode_state (footer_state interval gs fp).
Definition metadata_of (number : Z) (gs : list store) (size : Z) : Metadata := {|
  FileNumber := number; FileSize := size; EntryCount := len (concat gs); DeletionCount := deletions (concat gs); RawKeyValueBytes := raw_size (concat gs);
  DataBlockCount := u32 (len gs); SmallestInternal := first_key (concat gs); LargestInternal := last_key (concat gs);
  SmallestUser := userKey (first_key (concat gs)); LargestUser := userKey (last_key (concat gs)) |}.
(** What makes [table_image] a table. *)
Record groups_ok (interval : Z) (bloom : bool) (gs : list store) (fp : option bytes) : Prop := {
  go_nonempty : concat gs <> [];
  go_blocks : len gs <= MaxUint32;
  go_groups : Forall (fun g => g <> [] /\ len (payload_of interval g) <= MaxDataBlockSize) gs;
  go_sorted : store_sorted (concat gs);
  go_entries : Forall accepted (concat gs);
  go_count : len (concat gs) <= MaxUint64;
  go_raw : raw_size (concat gs) <= MaxUint64;
  go_size : len (table_image interval gs fp) <= MaxTableSize;
  go_filter : if bloom then exists hashes p, fp = Some p /\ encodeBloom hashes = Ok p /\ Forall (fun e => hashBloomKey (userKey e.1) ∈ hashes) (concat gs)
              else fp = None
}.

(** ** The writer *)

Section writer_inv.
Context `{HP : Publication} `{!FileLaws}.
Implicit Types w : Writer.

Lemma bind_M {A B} (m : M A) (k : A -> M B) w : @mbind M M_bind A B k m w = match m w with (w', Ok a) => k a w' | (w', Err e) => (w', Err e) end.
Proof. done. Qed.
Lemma poison_spec {A} (P : A -> Prop) c w w' (r : res A) : poison c w = (w', r) -> match r with Ok a => P a | Err _ => failed w' <> None end.
Proof. unfold poison. destruct (failed w) eqn:Hf; intros [= <- <-]; [congruence|done]. Qed.
Lemma write_loop_spec fuel : forall data w w' r, (length data <= fuel)%nat -> is_u64 (offset w) -> write_loop fuel data w = (w', r) ->
  match r with
  | Ok _ => exists f, w' = set_offset (u64 (offset w + len data)) (set_file f w) /\ contents f = contents (file w) ++ data
  | Err _ => failed w' <> None
  end.
Proof.
  assert (forall w, is_u64 (offset w) -> exists f, w = set_offset (u64 (offset w + len (@nil byte))) (set_file f w) /\ contents f = contents (file w) ++ []) as Hnil.
  { intros w Hu. exists (file w). rewrite app_nil_r. split; [|done]. rewrite Z.add_0_r, u64_id by done. by destruct w. }
  induction fuel as [|fuel IH]; intros data w w' r Hlen Hu; cbn [write_loop].
  { destruct data; [|cbn in Hlen; lia]. intros [= <- <-]. by apply Hnil. }
  destruct data as [|x data]; [intros [= <- <-]; by apply Hnil|]. set (d := x :: data) in *.
  destruct (file_write (file w) d) as [f [n err]] eqn:Hw. apply write_contents in Hw as (Hn & Hc & _).
  rewrite (proj2 (Z.ltb_ge n 0)), (proj2 (Z.ltb_ge (len d) n)) by lia. cbn [orb].
  destruct err; [apply poison_spec|]. destruct (Z.eqb_spec n 0); [apply poison_spec|].
  intros Hloop. apply IH in Hloop; [|rewrite length_drop; unfold len in *; lia|apply u64_range]. destruct r; [|done].
  destruct Hloop as (f' & -> & Hf'). exists f'. cbn [file set_file set_offset] in Hf'. rewrite Hf', Hc. split.
  - unfold set_offset, set_file. cbn. f_equal. unfold u64. rewrite Zplus_mod_idemp_l. f_equal. unfold len. rewrite length_drop. unfold len in *. lia.
  - rewrite <- app_assoc. by rewrite take_drop.
Qed.
Lemma writeBlock_spec payload k w w' r : 0 <= offset w <= MaxInt64 -> writeBlock payload k w = (w', r) ->
  match r with
  | Ok h => h = {| Offset := offset w; Length := len (appendBlockTrailer payload k) |} /\
      offset w + len (appendBlockTrailer payload k) <= MaxTableSize - FooterSize /\
      exists f, w' = set_offset (offset w + len (appendBlockTrailer payload k)) (set_file f w) /\ contents f = contents (file w) ++ appendBlockTrailer payload k
  | Err _ => failed w' <> None
  end.
Proof.
  intros Ho. unfold writeBlock. set (d := appendBlockTrailer payload k). destruct (checkedAdd (offset w) (len d)) as [e|] eqn:Hc; [|apply poison_spec].
  apply checkedAdd_inv in Hc as [-> Hc]. destruct (Z.leb_spec (offset w + len d) (MaxTableSize - FooterSize)) as [Hle|]; [|apply poison_spec].
  rewrite bind_M. unfold writeAll. destruct (write_loop (length d) d w) as [w1 r1] eqn:Hw. change MaxUint64 with (2 ^ 64 - 1) in Hc. pose proof (len_nonneg d).
  apply write_loop_spec in Hw; [|done|unfold is_u64; lia]. destruct r1; intros [= <- <-]; [|done]. destruct Hw as (f & -> & Hf). split_and!; [done|done|].
  exists f. split; [|done]. by rewrite u64_id by (unfold is_u64; lia).
Qed.

(** The state after entries [concat gs ++ cur] were accepted: [gs] is on the
    file and [cur] in the block builder. *)
Record written (number interval : Z) (bloom : bool) (w : Writer) (gs : list store) (cur : store) : Prop := {
  wr_file : contents (file w) = data_bytes interval gs;
  wr_offset : offset w = len (data_bytes interval gs);
  wr_max : len (data_bytes interval gs) <= MaxTableSize - FooterSize;
  wr_index : index w = index_entry <$> index_of interval 0 gs;
  wr_blocks : len gs <= MaxUint32;
  wr_block : block w = add_entries (newDataBlockBuilder interval) (enc <$> cur);
  wr_groups : Forall (fun g => g <> [] /\ len (payload_of interval g) <= MaxDataBlockSize) gs;
  wr_sorted : store_sorted (concat gs ++ cur);
  wr_entries : Forall accepted (concat gs ++ cur);
  wr_count : entryCount w = len (concat gs ++ cur) /\ entryCount w <= MaxUint64;
  wr_deletions : deletionCount w = deletions (concat gs ++ cur);
  wr_raw : rawBytes w = raw_size (concat gs ++ cur) /\ rawBytes w <= MaxUint64;
  wr_have : haveEntry w = bool_decide (concat gs ++ cur <> []);
  wr_last : concat gs ++ cur <> [] -> lastKey w = last_key (concat gs ++ cur) /\ lastEncoded w = Encode (last_key (concat gs ++ cur)) /\
    largestUser w = userKey (last_key (concat gs ++ cur)) /\ lastBloomUser w = userKey (last_key (concat gs ++ cur)) /\
    smallestKey w = first_key (concat gs ++ cur) /\ smallestUser w = userKey (first_key (concat gs ++ cur));
  wr_haveBloom : haveBloomUser w = bool_decide (concat gs ++ cur <> []);
  wr_bloom : Forall (fun e => hashBloomKey (userKey e.1) ∈ bloomHashes w) (concat gs ++ cur);
  wr_live : failed w = None /\ finished w = false /\ aborted w = false /\ metadata w = None;
  wr_options : fileNumber w = number /\ enableBloom w = bloom
}.
Lemma newWriter_written number size interval bloom f s : contents f = [] -> written number interval bloom (newWriter f s number size interval bloom) [] [].
Proof. intros Hf. split; cbn; try done; try (split; done); try constructor. Qed.

Section invariant.
Context (number interval : Z) (bloom : bool).
Abbreviation written := (written number interval bloom).

Lemma block_empty w gs cur : written w gs cur -> builder_empty (block w) = bool_decide (cur = []).
Proof.
  intros Hw. unfold builder_empty. rewrite (wr_block _ _ _ _ _ _ Hw), add_entries_count. unfold len. rewrite length_fmap. destruct cur; [done|]. cbn [b_entries newDataBlockBuilder length].
  rewrite (bool_decide_false (_ = [])) by done. apply Z.eqb_neq. lia.
Qed.
Lemma flushed gs (cur : store) : concat (gs ++ [cur]) ++ [] = concat gs ++ cur.
Proof. rewrite app_nil_r, concat_app. cbn. by rewrite app_nil_r. Qed.
Lemma flushDataBlock_spec w gs cur w' r : written w gs cur -> flushDataBlock w = (w', r) ->
  match r with
  | Ok _ => exists gs', written w' gs' [] /\ concat gs' = concat gs ++ cur
  | Err _ => failed w' <> None
  end.
Proof.
  intros Hw. unfold flushDataBlock. rewrite (block_empty w gs cur Hw). destruct (decide (cur = [])) as [->|Hne].
  { rewrite bool_decide_true by done. intros [= <- <-]. exists gs. split; [done|]. by rewrite app_nil_r. }
  rewrite bool_decide_false by done. destruct (Z.leb_spec MaxUint32 (len (index w))) as [|Hi]; [apply poison_spec|].
  rewrite (wr_block _ _ _ _ _ _ Hw). fold (payload_of interval cur). destruct (Z.ltb_spec MaxDataBlockSize (len (payload_of interval cur))) as [|Hp]; [apply poison_spec|].
  rewrite bind_M. destruct (writeBlock (payload_of interval cur) blockData w) as [w1 r1] eqn:Hwb.
  pose proof (wr_max _ _ _ _ _ _ Hw) as Hmax. pose proof (len_nonneg (data_bytes interval gs)). unfold MaxTableSize, FooterSize in *.
  apply writeBlock_spec in Hwb; [|rewrite (wr_offset _ _ _ _ _ _ Hw); lia]. fold (stored_bytes interval cur) in Hwb.
  destruct r1; [|by intros [= <- <-]]. destruct Hwb as (-> & Hle & f & -> & Hf). intros [= <- <-]. exists (gs ++ [cur]). split; [|by rewrite <- flushed, app_nil_r].
  assert (concat gs ++ cur <> []) as Hall by (by intros [_ ?]%app_nil). destruct (wr_last _ _ _ _ _ _ Hw Hall) as (Hlk & Hle' & _).
  pose proof (wr_offset _ _ _ _ _ _ Hw) as Hoff.
  destruct Hw; split; rewrite ?flushed; cbn; try done.
  - by rewrite Hf, data_bytes_app, data_bytes_one, wr_file0.
  - by rewrite data_bytes_app, data_bytes_one, len_app, Hoff.
  - rewrite data_bytes_app, data_bytes_one, len_app. lia.
  - rewrite index_of_app, fmap_app, wr_index0. f_equal. cbn. unfold index_entry, index_at. cbn. by rewrite Hle', last_key_app, Hoff.
  - rewrite len_app. unfold len at 2. cbn. rewrite wr_index0 in Hi. unfold len in *. rewrite length_fmap, index_of_length in Hi. lia.
  - unfold builder_reset. by rewrite wr_block0, add_entries_interval.
  - apply Forall_app. split; [done|]. by constructor.
Qed.

(** The bookkeeping of an accepted entry. *)
Definition appended (key : InternalKey) (value : bytes) (raw : Z) (w : Writer) : Writer :=
  let w := set_block (builder_add (block w) (Encode key) value) w in
  let w := set_entryCount (entryCount w + 1) w in
  let w := if is_delete key then set_deletionCount (deletionCount w + 1) w else w in
  record_entry key (set_rawBytes raw w).
Lemma appended_fields key value raw w : let w' := appended key value raw w in
  file w' = file w /\ offset w' = offset w /\ index w' = index w /\ block w' = builder_add (block w) (Encode key) value /\
  entryCount w' = entryCount w + 1 /\ deletionCount w' = deletionCount w + (if is_delete key then 1 else 0) /\ rawBytes w' = raw /\
  haveEntry w' = true /\ lastKey w' = key /\ lastEncoded w' = Encode key /\ largestUser w' = userKey key /\ lastBloomUser w' = userKey key /\
  smallestKey w' = (if haveEntry w then smallestKey w else key) /\ smallestUser w' = (if haveEntry w then smallestUser w else userKey key) /\
  haveBloomUser w' = true /\
  bloomHashes w' = (if negb (haveBloomUser w) || negb (bytes_eqb (lastBloomUser w) (userKey key)) then bloomHashes w ++ [hashBloomKey (userKey key)] else bloomHashes w) /\
  failed w' = failed w /\ finished w' = finished w /\ aborted w' = aborted w /\ metadata w' = metadata w /\ fileNumber w' = fileNumber w /\ enableBloom w' = enableBloom w.
Proof.
  destruct w. unfold appended, record_entry. cbn. destruct (is_delete key); cbn;
  (destruct haveEntry0; cbn; (destruct haveBloomUser0; cbn; [destruct (bytes_eqb lastBloomUser0 (userKey key)) eqn:Hb; cbn|])); rewrite ?Z.add_0_r; split_and!; try done; by apply bytes_eqb_eq.
Qed.
Lemma sorted_snoc l (e : entry) : store_sorted l -> (l = [] \/ key_lt (last_key l) e.1) -> store_sorted (l ++ [e]).
Proof.
  intros Hs Hl. apply StronglySorted_app_2; [|done|by repeat constructor]. intros x y Hx ->%list_elem_of_singleton.
  destruct Hl as [->|Hl]; [by apply not_elem_of_nil in Hx|]. unfold last_key in Hl. destruct (list.last l) as [z|] eqn:Hz; [|apply last_None in Hz; subst; by apply not_elem_of_nil in Hx].
  apply last_Some in Hz as [m ->]. cbn in Hl. apply elem_of_app in Hx as [Hx| ->%list_elem_of_singleton]; [|done].
  assert (key_lt x.1 z.1) as Hxz by (eapply (StronglySorted_app_1_elem_of (fun a b : entry => key_lt a.1 b.1)); [exact Hs|done|by apply list_elem_of_singleton]).
  exact (key_lt_trans _ _ _ Hxz Hl).
Qed.
Lemma appended_written w gs cur key value raw : written w gs cur -> accepted (key, value) ->
  (concat gs ++ cur = [] \/ key_lt (last_key (concat gs ++ cur)) key) -> entryCount w < MaxUint64 ->
  raw = rawBytes w + len (Encode key) + len value -> raw <= MaxUint64 -> written (appended key value raw w) gs (cur ++ [(key, value)]).
Proof.
  intros Hw Hacc Hord Hcount Hraw Hmax. set (all := concat gs ++ cur) in *.
  assert (concat gs ++ cur ++ [(key, value)] = all ++ [(key, value)]) as Hall by apply app_assoc.
  assert (all ++ [(key, value)] <> []) as Hne by (by intros [_ ?]%app_nil).
  destruct Hw. fold all in wr_sorted0, wr_entries0, wr_count0, wr_deletions0, wr_raw0, wr_have0, wr_last0, wr_haveBloom0, wr_bloom0.
  destruct (appended_fields key value raw w) as (E1 & E2 & E3 & E4 & E5 & E6 & E7 & E8 & E9 & E10 & E11 & E12 & E13 & E14 & E15 & E16 & E17 & E18 & E19 & E20 & E21 & E22).
  split; rewrite ?Hall, ?E1, ?E2, ?E3, ?E4, ?E5, ?E6, ?E7, ?E8, ?E9, ?E10, ?E11, ?E12, ?E13, ?E14, ?E15, ?E16, ?E17, ?E18, ?E19, ?E20, ?E21, ?E22; try done.
  - rewrite fmap_app, wr_block0. symmetry. apply (add_entries_snoc _ _ (enc (key, value))).
  - by apply sorted_snoc.
  - apply Forall_app. split; [done|by apply Forall_singleton].
  - rewrite len_app. destruct wr_count0 as [Hc _]. rewrite Hc in Hcount |- *. split; [done|lia].
  - rewrite deletions_snoc, wr_deletions0. cbn. destruct (is_delete key); lia.
  - rewrite raw_size_app, raw_size_cons. cbn. destruct wr_raw0 as [Hr _]. rewrite Hr in Hraw. split; [|done]. change (raw_size []) with 0. lia.
  - by rewrite bool_decide_true.
  - intros _. rewrite last_key_snoc, wr_have0. split_and!; try done; (destruct (decide (all = [])) as [->|Hna]; [done|]);
      rewrite bool_decide_true, first_key_app by done; apply wr_last0; done.
  - by rewrite bool_decide_true.
  - apply Forall_app. split.
    + eapply Forall_impl; [exact wr_bloom0|]. cbn. intros x Hx. case_match; [apply elem_of_app; by left|done].
    + constructor; [|constructor]. cbn. rewrite wr_haveBloom0. destruct (decide (all = [])) as [He|Hna]; [rewrite bool_decide_false by (by intros ?); cbn; apply elem_of_app; right; by apply list_elem_of_singleton|].
      rewrite bool_decide_true by done. cbn. destruct (bytes_eqb (lastBloomUser w) (userKey key)) eqn:Hb; cbn; [|apply elem_of_app; right; by apply list_elem_of_singleton].
      apply bytes_eqb_eq in Hb. destruct (wr_last0 Hna) as (_ & _ & _ & Hlb & _). rewrite Hlb in Hb. rewrite <- Hb.
      rewrite Forall_forall in wr_bloom0. unfold last_key. destruct (list.last all) as [z|] eqn:Hz; [|by apply last_None in Hz].
      apply (wr_bloom0 z). apply last_Some in Hz as [l ->]. apply elem_of_app. right. by apply list_elem_of_singleton.
Qed.

(** [l] was accepted, or the writer failed. *)
Definition holds (l : store) (w : Writer) : Prop := exists gs cur, written w gs cur /\ concat gs ++ cur = l.
Lemma stateError_live w gs cur : written w gs cur -> stateError w = (w, Ok tt).
Proof. intros Hw. destruct (wr_live _ _ _ _ _ _ Hw) as (Hf & Hfi & Ha & _). unfold stateError. by rewrite Hfi, Ha, Hf. Qed.
Lemma set_raw_twice a b w : set_rawBytes a (set_rawBytes b w) = set_rawBytes a w.
Proof. done. Qed.
Lemma count_raw_spec n w w' r : count_raw n w = (w', r) ->
  match r with Ok _ => w' = set_rawBytes (rawBytes w + n) w /\ rawBytes w + n <= MaxUint64 | Err _ => failed w' <> None end.
Proof.
  unfold count_raw. destruct (checkedAdd (rawBytes w) n) as [raw|] eqn:Hc; [|apply poison_spec]. apply checkedAdd_inv in Hc as [-> Hc]. by intros [= <- <-].
Qed.
Lemma check_order_ok w gs cur key : written w gs cur -> check_order w key = Ok tt -> concat gs ++ cur = [] \/ key_lt (last_key (concat gs ++ cur)) key.
Proof.
  intros Hw. unfold check_order. rewrite (wr_have _ _ _ _ _ _ Hw). destruct (decide (concat gs ++ cur = [])) as [|Hne]; [by left|]. rewrite bool_decide_true by done.
  destruct (wr_last _ _ _ _ _ _ Hw Hne) as (-> & _). destruct (CompareInternal _ key) eqn:Hc; [done|by right|done].
Qed.
(** The rest of [Add] once the entry fits in the block. *)
Lemma append_spec w gs cur key value w' r : written w gs cur -> accepted (key, value) ->
  (concat gs ++ cur = [] \/ key_lt (last_key (concat gs ++ cur)) key) -> (entryCount w =? MaxUint64) = false ->
  (let w1 := if is_delete key then set_deletionCount (deletionCount w + 1) (set_entryCount (entryCount w + 1) (set_block (builder_add (block w) (Encode key) value) w))
             else set_entryCount (entryCount w + 1) (set_block (builder_add (block w) (Encode key) value) w) in
   match count_raw (len (Encode key)) w1 with
   | (w2, Ok _) => match count_raw (len value) w2 with (w3, Ok _) => modify (record_entry key) w3 | (w3, Err e) => (w3, Err e) end
   | (w2, Err e) => (w2, Err e)
   end) = (w', r) ->
  match r with Ok _ => holds ((concat gs ++ cur) ++ [(key, value)]) w' | Err _ => failed w' <> None end.
Proof.
  intros Hw Hacc Hord Hcount. set (w1 := if is_delete key then _ else _). cbn zeta.
  assert (rawBytes w1 = rawBytes w) as Hr by (unfold w1; by destruct (is_delete key)).
  assert (forall raw, appended key value raw w = record_entry key (set_rawBytes raw w1)) as Hap by done. clearbody w1.
  destruct (count_raw (len (Encode key)) w1) as [w2 r2] eqn:H2. apply count_raw_spec in H2. destruct r2; [|by intros [= <- <-]]. destruct H2 as [-> _].
  destruct (count_raw (len value) _) as [w3 r3] eqn:H3. apply count_raw_spec in H3. destruct r3; [|by intros [= <- <-]]. destruct H3 as [-> Hmax].
  intros [<- <-]%pair_eq. exists gs, (cur ++ [(key, value)]). split; [|by rewrite app_assoc].
  rewrite set_raw_twice. change (rawBytes (set_rawBytes _ w1)) with (rawBytes w1 + len (Encode key)) in Hmax |- *. rewrite Hr in Hmax |- *.
  pose proof (appended_written w gs cur key value (rawBytes w + len (Encode key) + len value) Hw Hacc Hord) as Happ. destruct (wr_count _ _ _ _ _ _ Hw) as [_ Hc]. apply Z.eqb_neq in Hcount.
  specialize (Happ ltac:(lia) eq_refl Hmax). by rewrite Hap in Happ.
Qed.
Lemma Add_spec w gs cur key value w' r : written w gs cur -> key_wf key -> Add key value w = (w', r) ->
  match r with
  | Ok _ => holds ((concat gs ++ cur) ++ [(key, value)]) w'
  | Err _ => failed w' <> None \/ holds (concat gs ++ cur) w'
  end.
Proof.
  intros Hw Hwf. unfold Add. rewrite bind_M, (stateError_live w gs cur Hw), bind_M. destruct (check_entry key value) as [[]|e] eqn:Hce; [|intros [= <- <-]; right; by exists gs, cur].
  apply check_entry_ok in Hce; [|done]. rewrite bind_M. destruct (check_order w key) as [[]|e] eqn:Hco; [|intros [= <- <-]; right; by exists gs, cur].
  apply (check_order_ok w gs cur) in Hco; [|done]. rewrite bind_M.
  assert (forall w1 r1, (if negb (builder_empty (block w)) && (blockSize w <? projectedSize (block w) (Encode key) value) then flushDataBlock w else (w, Ok tt)) = (w1, r1) ->
    match r1 with Ok _ => holds (concat gs ++ cur) w1 | Err _ => failed w1 <> None end) as Hflush.
  { intros w1 r1. destruct (_ && _); [|intros [= <- <-]; by exists gs, cur]. intros Hf. apply (flushDataBlock_spec w gs cur) in Hf; [|done]. destruct r1; [|done].
    destruct Hf as (gs' & Hw' & Hc). exists gs', []. by rewrite app_nil_r. }
  destruct (if negb _ && _ then _ else _) as [w1 r1]. specialize (Hflush w1 r1 eq_refl). destruct r1; [|intros [= <- <-]; by left].
  destruct Hflush as (gs1 & cur1 & Hw1 & Hall). rewrite <- Hall in *. rewrite bind_M. destruct (_ <? projectedSize _ _ _); [intros [= <- <-]; right; by exists gs1, cur1|].
  rewrite bind_M. destruct ((entryCount w1 =? MaxUint64) || _) eqn:Hmax.
  { destruct (poison _ w1) as [w2 r2] eqn:Hp. apply (poison_spec (fun _ => False)) in Hp. destruct r2; [done|]. intros [= <- <-]. by left. }
  apply orb_false_elim in Hmax as [Hmax _]. intros Hrest. pose proof (append_spec w1 gs1 cur1 key value w' r Hw1 Hce Hco Hmax) as Happ.
  destruct r; [by apply Happ|left; by apply Happ].
Qed.

Lemma stateError_failed w : failed w <> None -> exists e, stateError w = (w, Err e).
Proof. intros Hf. unfold stateError. destruct (finished w); [eauto|]. destruct (aborted w); [eauto|]. destruct (failed w); [eauto|done]. Qed.
(** A sequence of calls of [Add], and the entries it accepts. *)
Fixpoint adds (calls : list entry) (w : Writer) : Writer * store :=
  match calls with
  | [] => (w, [])
  | e :: calls' =>
      let '(w, r) := Add e.1 e.2 w in
      let '(w, acc) := adds calls' w in (w, match r with Ok _ => e :: acc | Err _ => acc end)
  end.
Lemma adds_spec calls : forall w l w' acc, (failed w <> None \/ holds l w) -> Forall (fun e => key_wf e.1) calls -> adds calls w = (w', acc) ->
  failed w' <> None \/ holds (l ++ acc) w'.
Proof.
  induction calls as [|e calls IH]; intros w l w' acc Hw Hwf; cbn [adds]; [intros [= <- <-]; by rewrite app_nil_r|].
  apply Forall_cons in Hwf as [He Hwf]. destruct (Add e.1 e.2 w) as [w1 r] eqn:Hadd. destruct (adds calls w1) as [w2 acc'] eqn:Hadds. intros [<- <-]%pair_eq.
  destruct Hw as [Hf|(gs & cur & Hw & <-)].
  { unfold Add in Hadd. rewrite bind_M in Hadd. destruct (stateError_failed w Hf) as [er Her]. rewrite Her in Hadd. apply pair_eq in Hadd as [<- <-].
    eapply IH; [by left|done|exact Hadds]. }
  apply (Add_spec w gs cur) in Hadd; [|done|done]. destruct r as [[]|er].
  - rewrite cons_middle, app_assoc. eapply IH; [|done|exact Hadds]. right. by destruct e.
  - by eapply IH.
Qed.

(** The writer with another file and offset. *)
Definition at_file (f : File) (o : Z) (w : Writer) : Writer := set_offset o (set_file f w).
Lemma at_file_twice f o f' o' w : at_file f o (at_file f' o' w) = at_file f o w.
Proof. done. Qed.
Lemma encodeIndex_written f o w gs : written w gs [] -> encodeIndex (at_file f o w) = encode_index (index_entry <$> index_of interval 0 gs).
Proof. intros Hw. unfold encodeIndex, at_file. cbn [index set_offset set_file]. by rewrite (wr_index _ _ _ _ _ _ Hw). Qed.
Lemma encodeMetadata_written f o w gs : written w gs [] -> concat gs <> [] -> encodeMetadata (at_file f o w) = encode_metadata (disk_metadata gs).
Proof.
  intros Hw Hne. destruct Hw. rewrite app_nil_r in *. destruct (wr_last0 Hne) as (Hlk & _ & Hlu & _ & Hsk & Hsu). destruct wr_count0 as [Hc _], wr_raw0 as [Hr _].
  unfold encodeMetadata, encode_metadata, at_file, appendLengthPrefixed32. cbn [entryCount deletionCount index rawBytes smallestKey lastKey smallestUser largestUser set_offset set_file
    disk_metadata m_entryCount m_deletionCount m_dataBlockCount m_rawKeyValueBytes m_smallestInternal m_largestInternal m_smallestUser m_largestUser].
  rewrite Hc, wr_deletions0, Hr, wr_index0, Hlk, Hlu, Hsk, Hsu. unfold len at 2. rewrite length_fmap, index_of_length. fold (len gs). by rewrite <- !app_assoc.
Qed.
(** A block written after the data region. *)
Lemma write_part payload k w f o w' r : 0 <= o <= MaxInt64 -> writeBlock payload k (at_file f o w) = (w', r) ->
  match r with
  | Ok h => h = {| Offset := o; Length := len (appendBlockTrailer payload k) |} /\ o + len (appendBlockTrailer payload k) <= MaxTableSize - FooterSize /\
      exists f', w' = at_file f' (o + len (appendBlockTrailer payload k)) w /\ contents f' = contents f ++ appendBlockTrailer payload k
  | Err _ => failed w' <> None
  end.
Proof.
  intros Ho Hw. apply writeBlock_spec in Hw; [|done]. destruct r; [|done]. destruct Hw as (-> & Hle & f' & -> & Hf). split_and!; [done|done|]. exists f'. split; [done|]. exact Hf.
Qed.
Lemma write_filter_spec w f o w' r gs : written w gs [] -> 0 <= o <= MaxInt64 -> write_filter (at_file f o w) = (w', r) ->
  match r with
  | Ok h => exists fp f', h = match fp with Some _ => {| Offset := o; Length := len (filter_block fp) |} | None => no_handle end /\
      w' = at_file f' (o + len (filter_block fp)) w /\ contents f' = contents f ++ filter_block fp /\ (o <= MaxTableSize - FooterSize -> o + len (filter_block fp) <= MaxTableSize - FooterSize) /\
      (if bloom then exists hashes p, fp = Some p /\ encodeBloom hashes = Ok p /\ Forall (fun e => hashBloomKey (userKey e.1) ∈ hashes) (concat gs) else fp = None)
  | Err _ => failed w' <> None
  end.
Proof.
  intros Hw Ho. unfold write_filter. change (enableBloom (at_file f o w)) with (enableBloom w). destruct (wr_options _ _ _ _ _ _ Hw) as [_ ->]. destruct bloom.
  - change (bloomHashes (at_file f o w)) with (bloomHashes w). destruct (encodeBloom (bloomHashes w)) as [p|e] eqn:He; [|apply poison_spec].
    intros Hp. apply write_part in Hp; [|done]. destruct r; [|done]. destruct Hp as (-> & Hle & f' & -> & Hf). exists (Some p), f'. split_and!; try done.
    exists (bloomHashes w), p. split_and!; [done|done|]. pose proof (wr_bloom _ _ _ _ _ _ Hw) as Hb. by rewrite app_nil_r in Hb.
  - intros [= <- <-]. exists None, f. cbn. rewrite app_nil_r, Z.add_0_r. split_and!; done.
Qed.

Lemma at_file_id w : w = at_file (file w) (offset w) w.
Proof. by destruct w. Qed.
Lemma written_parts w gs fp : written w gs [] -> concat gs <> [] -> len (table_image interval gs fp) <= MaxTableSize ->
  (if bloom then exists hashes p, fp = Some p /\ encodeBloom hashes = Ok p /\ Forall (fun e => hashBloomKey (userKey e.1) ∈ hashes) (concat gs) else fp = None) ->
  groups_ok interval bloom gs fp.
Proof. intros Hw Hne Hs Hfp. destruct Hw. rewrite app_nil_r in *. split; try done; [destruct wr_count0 as [<- ?]|destruct wr_raw0 as [<- ?]]; done. Qed.
Lemma image_len gs fp : len (table_image interval gs fp) =
  len (data_bytes interval gs) + len (index_block interval gs) + len (metadata_block gs) + len (filter_block fp) + FooterSize.
Proof. unfold table_image. rewrite !len_app, footer_len. lia. Qed.
(** [Finish] before the file is synced: the file holds the image of a table. *)
Lemma write_table_spec w gs0 cur w' r : written w gs0 cur -> concat gs0 ++ cur <> [] -> write_table w = (w', r) ->
  match r with
  | Ok _ => exists gs fp w1 f, written w1 gs [] /\ concat gs = concat gs0 ++ cur /\ groups_ok interval bloom gs fp /\
      w' = at_file f (len (table_image interval gs fp)) w1 /\ contents f = table_image interval gs fp
  | Err _ => failed w' <> None
  end.
Proof.
  intros Hw Hne. unfold write_table. rewrite bind_M. destruct (flushDataBlock w) as [w1 r1] eqn:Hs1. apply (flushDataBlock_spec w gs0 cur) in Hs1; [|done].
  destruct r1; [|by intros [<- <-]%pair_eq]. destruct Hs1 as (gs & Hw1 & Hcc). rewrite <- Hcc in Hne. rewrite !bind_M.
  pose proof (wr_offset _ _ _ _ _ _ Hw1) as Ho. pose proof (wr_max _ _ _ _ _ _ Hw1) as Hmax. pose proof (wr_file _ _ _ _ _ _ Hw1) as Hfile. pose proof (len_nonneg (data_bytes interval gs)).
  rewrite (at_file_id w1), Ho. set (f0 := file w1) in *. rewrite (encodeIndex_written _ _ w1 gs) by done. change (offset (at_file f0 _ w1)) with (len (data_bytes interval gs)).
  unfold MaxTableSize, FooterSize in *.
  destruct (writeBlock _ blockIndex _) as [w2 r2] eqn:Hs2. apply write_part in Hs2; [|lia]. fold (index_block interval gs) in Hs2. pose proof (len_nonneg (index_block interval gs)).
  destruct r2; [|by intros [<- <-]%pair_eq]. destruct Hs2 as (-> & Hle2 & f2 & -> & Hf2). unfold MaxTableSize, FooterSize in *. rewrite !bind_M, (encodeMetadata_written _ _ w1 gs) by done.
  destruct (writeBlock _ blockMetadata _) as [w3 r3] eqn:Hs3. apply write_part in Hs3; [|lia]. fold (metadata_block gs) in Hs3. pose proof (len_nonneg (metadata_block gs)).
  destruct r3; [|by intros [<- <-]%pair_eq]. destruct Hs3 as (-> & Hle3 & f3 & -> & Hf3). unfold MaxTableSize, FooterSize in *. rewrite bind_M.
  destruct (write_filter _) as [w4 r4] eqn:Hs4. apply (write_filter_spec w1 _ _ _ _ gs) in Hs4; [|done|lia].
  destruct r4 as [h|]; [|by intros [<- <-]%pair_eq]. destruct Hs4 as (fp & f4 & -> & -> & Hf4 & Hle4 & Hfp). unfold MaxTableSize, FooterSize in *. specialize (Hle4 ltac:(lia)).
  unfold writeAll. fold (footer_state interval gs fp).
  match goal with |- write_loop (length ?e) _ _ = _ -> _ => change e with (encode_state (footer_state interval gs fp)) end.
  intros Hs5. pose proof (len_nonneg (filter_block fp)). pose proof (image_len gs fp) as Himg. unfold FooterSize in Himg.
  assert (MaxInt64 < 2 ^ 64) by done. apply write_loop_spec in Hs5; [|done|cbn; unfold is_u64; lia]. destruct r; [|done]. destruct Hs5 as (f5 & -> & Hf5). exists gs, fp, w1, f5.
  split_and!; [done|done|apply (written_parts w1); try done; unfold MaxTableSize; lia| |].
  - change (set_offset ?o (set_file f5 (at_file f4 ?p w1))) with (at_file f5 o w1). f_equal. rewrite footer_len. cbn [offset at_file set_offset]. unfold FooterSize. rewrite u64_id by (unfold is_u64; lia). lia.
  - cbn [file at_file set_file set_offset] in Hf5. rewrite Hf5, Hf4, Hf3, Hf2, Hfile. unfold table_image. by rewrite <- !app_assoc.
Qed.

Lemma table_metadata_written f w gs size : written w gs [] -> concat gs <> [] -> table_metadata (at_file f size w) = metadata_of number gs size.
Proof.
  intros Hw Hne. destruct Hw. rewrite app_nil_r in *. destruct (wr_last0 Hne) as (Hlk & _ & Hlu & _ & Hsk & Hsu). destruct wr_count0 as [Hc _], wr_raw0 as [Hr _], wr_options0 as [Hn _].
  unfold table_metadata, metadata_of, at_file, cloneInternalKey. cbn. rewrite Hc, wr_deletions0, Hr, wr_index0, Hlk, Hlu, Hsk, Hsu, Hn. unfold len at 2. by rewrite length_fmap, index_of_length.
Qed.
Lemma sync_and_close_spec w w' r : sync_and_close w = (w', r) ->
  match r with Ok _ => contents (file w') = contents (file w) /\ durable (file w') >= len (contents (file w)) /\ table_metadata w' = table_metadata w | Err _ => failed w' <> None end.
Proof.
  unfold sync_and_close. destruct (file_sync (file w)) as [f1 e1] eqn:Hs1. apply sync_contents in Hs1 as (Hc1 & _ & Hd1). destruct e1; [apply poison_spec|].
  cbn [file set_file]. destruct (file_close f1) as [f2 e2] eqn:Hs2. apply close_contents in Hs2 as (Hc2 & Hd2). destruct e2; [apply poison_spec|].
  intros [<- <-]%pair_eq. cbn [file set_file set_fileClosed]. specialize (Hd1 eq_refl). split_and!; [congruence|lia|done].
Qed.
Lemma publish_spec w w' r : publish w = (w', r) ->
  match r with Ok _ => file w' = file w /\ table_metadata w' = table_metadata w | Err _ => failed w' <> None end.
Proof.
  unfold publish. destruct (rename (fs w)) as [s1 e1]. destruct e1; [apply poison_spec|]. destruct (openDirectory _) as [s2 [d|]]; [|apply poison_spec].
  destruct (dir_sync d); [apply poison_spec|]. destruct (dir_close d); [apply poison_spec|]. by intros [<- <-]%pair_eq.
Qed.
(** [Add] never finishes the writer. *)
Definition keeps {A} (m : M A) : Prop := forall w, finished (m w).1 = finished w.
Lemma keeps_bind {A B} (m : M A) (k : A -> M B) : keeps m -> (forall a, keeps (k a)) -> keeps (@mbind M M_bind A B k m).
Proof. intros Hm Hk w. rewrite bind_M. specialize (Hm w). destruct (m w) as [w' [a|e]]; cbn in Hm |- *; [|done]. by rewrite Hk. Qed.
Lemma keeps_poison {A} c : keeps (@poison _ _ A c).
Proof. intros w. unfold poison. by destruct (failed w). Qed.
Lemma keeps_write_loop fuel : forall data, keeps (write_loop fuel data).
Proof.
  induction fuel as [|fuel IH]; intros data w; cbn [write_loop]; [done|]. destruct data as [|x data]; [done|]. destruct (file_write _ _) as [f [n e]].
  destruct (_ || _); [by rewrite keeps_poison|]. destruct e; [by rewrite keeps_poison|]. destruct (n =? 0); [by rewrite keeps_poison|by rewrite IH].
Qed.
Lemma keeps_writeBlock payload k : keeps (writeBlock payload k).
Proof.
  intros w. unfold writeBlock. destruct (checkedAdd _ _) as [e|]; [destruct (e <=? _); [|by rewrite keeps_poison]|by rewrite keeps_poison].
  apply (keeps_bind (writeAll _) (fun _ => mret _)); [apply keeps_write_loop|done].
Qed.
Lemma keeps_flush : keeps flushDataBlock.
Proof.
  intros w. unfold flushDataBlock. destruct (builder_empty _); [done|]. destruct (MaxUint32 <=? _); [by rewrite keeps_poison|]. destruct (MaxDataBlockSize <? _); [by rewrite keeps_poison|].
  apply (keeps_bind (writeBlock _ _) (fun handle => modify _)); [apply keeps_writeBlock|done].
Qed.
Lemma keeps_count n : keeps (count_raw n).
Proof. intros w. unfold count_raw. destruct (checkedAdd _ _); [done|by rewrite keeps_poison]. Qed.
Lemma keeps_Add key value : keeps (Add key value).
Proof.
  unfold Add. repeat (apply keeps_bind; [|intros []]); try apply keeps_count; intros w; try done.
  - unfold stateError. destruct (finished w) eqn:Hf, (aborted w), (failed w); done.
  - destruct (_ && _); [apply keeps_flush|done].
  - by destruct (_ <? _).
  - destruct (_ || _); [by rewrite keeps_poison|done].
  - cbn. by destruct (is_delete key).
  - unfold modify, record_entry. cbn. destruct (haveEntry w); cbn; by destruct (_ || _).
Qed.
Lemma keeps_adds calls : forall w, finished (adds calls w).1 = finished w.
Proof.
  induction calls as [|e calls IH]; intros w; cbn [adds]; [done|]. pose proof (keeps_Add e.1 e.2 w) as Hk. destruct (Add e.1 e.2 w) as [w1 r]. specialize (IH w1).
  destruct (adds calls w1) as [w2 acc]. cbn in *. congruence.
Qed.
Lemma Finish_failed w : failed w <> None -> finished w = false -> forall w' r, Finish w = (w', r) -> exists e, r = Err e.
Proof.
  intros Hf Hfi w' r. unfold Finish, finish_new. rewrite Hfi, bind_M. destruct (stateError_failed w Hf) as [e ->]. intros [_ <-]%pair_eq. eauto.
Qed.
(** A successful [Finish] leaves a synced table of the accepted entries. *)
Lemma Finish_spec w l w' meta : holds l w -> Finish w = (w', Ok meta) ->
  exists gs fp, concat gs = l /\ groups_ok interval bloom gs fp /\ contents (file w') = table_image interval gs fp /\
    durable (file w') >= len (contents (file w')) /\ meta = metadata_of number gs (len (table_image interval gs fp)).
Proof.
  intros (gs0 & cur & Hw & <-). unfold Finish. destruct (wr_live _ _ _ _ _ _ Hw) as (_ & -> & _). unfold finish_new.
  rewrite bind_M, (stateError_live w gs0 cur Hw), bind_M, (wr_have _ _ _ _ _ _ Hw). destruct (decide (concat gs0 ++ cur = [])) as [He|Hne]; [by rewrite bool_decide_false by (by intros ?)|].
  rewrite bool_decide_true, bind_M by done. destruct (write_table w) as [w1 r1] eqn:Hs1. apply (write_table_spec w gs0 cur) in Hs1; [|done|done]. destruct r1; [|done].
  destruct Hs1 as (gs & fp & w0 & f & Hw0 & Hcc & Hok & -> & Hf). rewrite bind_M. destruct (sync_and_close _) as [w2 r2] eqn:Hs2. apply sync_and_close_spec in Hs2. destruct r2; [|done].
  destruct Hs2 as (Hc2 & Hd2 & Hm2). rewrite bind_M. destruct (publish w2) as [w3 r3] eqn:Hs3. apply publish_spec in Hs3. destruct r3; [|done]. destruct Hs3 as [Hf3 Hm3].
  intros [<- [= <-]]%pair_eq. change (file (set_finished true (set_metadata (Some (table_metadata w3)) w3))) with (file w3). exists gs, fp. rewrite Hf3, Hc2.
  change (file (at_file f _ w0)) with f in *. rewrite Hf in *. split_and!; [done|done|done|done|]. rewrite Hm3, Hm2. apply table_metadata_written; [done|]. by rewrite Hcc.
Qed.
End invariant.
End writer_inv.
