(* ===== verification/SSTableOpen.v ===== *)
(** * Opening what the table writer wrote

    [openReader] accepts the image of a table (SSTableRoundTrip.v) and serves
    the entries it was made from. *)

From S2P Require Import Prelude Varint InternalKey Crc32c Codec Files MvccStore SSTable SSTableBlock SSTableFormat SSTableWriter SSTableReader SSTableLayout SSTableReads SSTableRoundTrip.
Import sstable writer reader.

(** ** Groups of entries *)

Section groups.
Context (interval : Z).

Lemma data_bytes_cons g gs : data_bytes interval (g :: gs) = stored_bytes interval g ++ data_bytes interval gs.
Proof. done. Qed.
Lemma last_key_in (l : store) : l <> [] -> exists e, e ∈ l /\ last_key l = e.1.
Proof.
  intros Hl. unfold last_key. destruct (list.last l) as [e|] eqn:He; [|by apply last_None in He]. exists e. split; [|done]. apply last_Some in He as [m ->].
  apply elem_of_app. right. by apply list_elem_of_singleton.
Qed.
Lemma first_key_in (l : store) : l <> [] -> exists e, e ∈ l /\ first_key l = e.1.
Proof. destruct l as [|e l]; [done|]. intros _. exists e. split; [by left|done]. Qed.
Lemma accepted_key e : accepted e -> 9 <= len (Encode e.1) <= MaxInternalKeySize /\ DecodeInternalKey (Encode e.1) = Ok e.1 /\ len (userKey e.1) <= MaxUserKeySize.
Proof. intros [Hwf Hu He]. split_and!; [apply He|apply He|by apply key_decode_encode|done]. Qed.
Lemma accepted_last l : l <> [] -> Forall accepted l -> exists e, accepted e /\ last_key l = e.1.
Proof. intros Hl Ha. destruct (last_key_in l Hl) as (e & He & ->). rewrite Forall_forall in Ha. eauto. Qed.
Lemma accepted_first l : l <> [] -> Forall accepted l -> exists e, accepted e /\ first_key l = e.1.
Proof. intros Hl Ha. destruct (first_key_in l Hl) as (e & He & ->). rewrite Forall_forall in Ha. eauto. Qed.
Lemma stored_len g : len (stored_bytes interval g) = len (payload_of interval g) + BlockTrailerSize.
Proof. apply trailer_len. Qed.

(** The index of the groups. *)
Lemma index_of_ok gs : forall o, 0 <= o -> o + len (data_bytes interval gs) <= MaxInt64 -> Forall (fun g => g <> []) gs -> Forall accepted (concat gs) ->
  Forall index_entry_ok (index_of interval o gs).
Proof.
  assert (MaxInt64 < 2 ^ 64) as Hmax by done. induction gs as [|g gs IH]; intros o Ho Hle Hne Hacc; cbn [index_of]; [constructor|].
  rewrite data_bytes_cons, len_app in Hle. apply Forall_cons in Hne as [Hg Hne]. cbn [concat] in Hacc. apply Forall_app in Hacc as [Hag Hacc].
  pose proof (len_nonneg (stored_bytes interval g)). pose proof (len_nonneg (data_bytes interval gs)). constructor; [|apply IH; done || lia].
  destruct (accepted_last g Hg Hag) as (e & He & Hl). destruct (accepted_key e He) as (H9 & Hd & _). split; cbn; rewrite ?Hl; [done|done|unfold is_u64; lia..].
Qed.
Lemma index_of_sorted gs : forall o, store_sorted (concat gs) -> Forall (fun g => g <> []) gs -> StronglySorted key_lt (i_key <$> index_of interval o gs).
Proof.
  induction gs as [|g gs IH]; intros o Hs Hne; cbn [index_of fmap list_fmap]; [constructor|]. apply Forall_cons in Hne as [Hg Hne]. cbn [concat] in Hs.
  constructor; [apply IH; [by eapply StronglySorted_app_1_r|done]|]. cbn [index_at i_key]. destruct (last_key_in g Hg) as (e & He & ->). clear IH.
  assert (forall x, x ∈ concat gs -> key_lt e.1 x.1) as Hlt.
  { intros x Hx. by eapply (StronglySorted_app_1_elem_of (fun a b : entry => key_lt a.1 b.1)). }
  clear Hs. generalize (o + len (stored_bytes interval g)). induction gs as [|g' gs IH]; intros o'; cbn [index_of fmap list_fmap]; [constructor|].
  apply Forall_cons in Hne as [Hg' Hne]. constructor.
  - cbn. destruct (last_key_in g' Hg') as (e' & He' & ->). apply Hlt. cbn. apply elem_of_app. by left.
  - apply IH; [done|]. intros x Hx. apply Hlt. cbn. apply elem_of_app. by right.
Qed.
Lemma validate_handles_ok gs : forall o dataEnd, 0 <= o -> o + len (data_bytes interval gs) <= dataEnd -> dataEnd <= MaxInt64 ->
  validate_handles (index_of interval o gs) dataEnd o = Ok (o + len (data_bytes interval gs)).
Proof.
  assert (MaxInt64 < 2 ^ 64) as Hmax by done. induction gs as [|g gs IH]; intros o dataEnd Ho Hle Hm; cbn [index_of validate_handles].
  { by rewrite Z.add_0_r. }
  rewrite data_bytes_cons, len_app in Hle |- *. pose proof (len_nonneg (data_bytes interval gs)). pose proof (stored_len g) as Hs. pose proof (len_nonneg (payload_of interval g)). unfold BlockTrailerSize in *.
  cbn [index_at i_handle Offset Length]. rewrite Z.eqb_refl. cbn [require mbind result_bind]. rewrite validateHandle_ok by (cbn; unfold BlockTrailerSize; lia). cbn [mbind result_bind].
  rewrite u64_id by (unfold is_u64; lia). rewrite IH by lia. f_equal. lia.
Qed.

(** ** The data stream *)

Definition stream_of (gs : list store) : stream := {|
  s_count := len (concat gs); s_deletions := deletions (concat gs); s_raw := raw_size (concat gs); s_first := enc <$> head (concat gs);
  s_last := enc <$> list.last (concat gs); s_crcs := (fun g => blockPayloadChecksum (payload_of interval g) blockData) <$> gs |}.
Lemma raw_size_one e : raw_size [e] = len (Encode e.1) + len e.2.
Proof. rewrite raw_size_cons. change (raw_size []) with 0. lia. Qed.
Lemma deletions_cons e l : deletions (e :: l) = (if is_delete e.1 then 1 else 0) + deletions l.
Proof. unfold deletions. rewrite filter_cons. destruct (is_delete e.1) eqn:He; [rewrite decide_True by done|rewrite decide_False by done]; [|done]. rewrite len_cons. lia. Qed.
Lemma deletions_app l m : deletions (l ++ m) = deletions l + deletions m.
Proof. unfold deletions. by rewrite filter_app, len_app. Qed.
Lemma validate_entries_ok f l : forall s, Forall (fun e => mayContain f (userKey e.1) = true) l -> 0 <= s_raw s -> s_count s + len l <= MaxUint64 -> s_raw s + raw_size l <= MaxUint64 ->
  validate_entries f s (enc <$> l) = Ok {| s_count := s_count s + len l; s_deletions := s_deletions s + deletions l; s_raw := s_raw s + raw_size l;
    s_first := s_first s; s_last := s_last s; s_crcs := s_crcs s |}.
Proof.
  induction l as [|e l IH]; intros s Hm Hr Hc Hraw; cbn [fmap list_fmap validate_entries].
  { change (len []) with 0. change (deletions []) with 0. change (raw_size []) with 0. rewrite !Z.add_0_r. by destruct s. }
  apply Forall_cons in Hm as [He Hm]. rewrite len_cons in Hc |- *. rewrite raw_size_cons in Hraw |- *. pose proof (raw_size_nonneg l). pose proof (len_nonneg l).
  pose proof (len_nonneg (Encode e.1)). pose proof (len_nonneg e.2). unfold validate_entry. cbn [enc e_key e_encoded e_value]. rewrite He, (proj2 (Z.eqb_neq (s_count s) _)) by lia.
  cbn [negb check require mbind result_bind]. rewrite !checkedAdd_ok by lia. cbn [mbind result_bind]. rewrite IH; cbn [s_count s_raw s_deletions s_first s_last s_crcs]; [|done|lia|lia|lia].
  rewrite deletions_cons. do 2 f_equal; [lia|destruct (is_delete e.1); lia|lia].
Qed.
Lemma group_decodes g handle : g <> [] -> Forall accepted g -> store_sorted g -> len (payload_of interval g) <= MaxDataBlockSize ->
  exists block, decodeDataBlock (payload_of interval g) handle = Ok block /\ k_entries block = enc <$> g.
Proof.
  intros Hne Ha Hs Hm. destruct (block_roundtrip interval (enc <$> g) handle) as (block & Hd & He & _); [by intros ?%fmap_nil_inv| | |done|eauto].
  - apply Forall_fmap. eapply Forall_impl; [exact Ha|]. intros e He. apply He.
  - eapply StronglySorted_fmap; [|exact Hs]. done.
Qed.
(** One group, read back from the file. *)
Lemma read_group pre g post : len pre + len (stored_bytes interval g) <= MaxInt64 -> len (payload_of interval g) <= MaxDataBlockSize ->
  readBlockUnlocked (healthy (pre ++ stored_bytes interval g ++ post)) {| Offset := len pre; Length := len (stored_bytes interval g) |} blockData
    (u64 (len pre + len (stored_bytes interval g))) = Ok (payload_of interval g).
Proof.
  assert (MaxInt64 < 2 ^ 64) by done. pose proof (len_nonneg pre). pose proof (len_nonneg (stored_bytes interval g)). intros Hle Hm.
  rewrite u64_id by (unfold is_u64; lia). by apply read_written.
Qed.
Lemma head_app_store (l m : store) : head (l ++ m) = match head l with None => head m | some => some end.
Proof. by destruct l. Qed.
Lemma validate_blocks_ok f post gs : forall dn, len (data_bytes interval (dn ++ gs)) <= MaxInt64 ->
  Forall (fun g => g <> [] /\ len (payload_of interval g) <= MaxDataBlockSize) gs -> Forall accepted (concat (dn ++ gs)) -> store_sorted (concat (dn ++ gs)) ->
  len (concat (dn ++ gs)) <= MaxUint64 -> raw_size (concat (dn ++ gs)) <= MaxUint64 -> Forall (fun e => mayContain f (userKey e.1) = true) (concat (dn ++ gs)) ->
  validate_blocks (healthy (data_bytes interval (dn ++ gs) ++ post)) f (stream_of dn) (index_of interval (len (data_bytes interval dn)) gs) = Ok (stream_of (dn ++ gs)).
Proof.
  induction gs as [|g gs IH]; intros dn Hmax Hg Ha Hs Hc Hr Hm; cbn [index_of validate_blocks]; [by rewrite app_nil_r|]. apply Forall_cons in Hg as [[Hne Hp] Hg].
  assert (dn ++ g :: gs = (dn ++ [g]) ++ gs) as Heq by (by rewrite <- app_assoc).
  assert (data_bytes interval (dn ++ g :: gs) ++ post = data_bytes interval dn ++ stored_bytes interval g ++ (data_bytes interval gs ++ post)) as Hb by (by rewrite data_bytes_app, data_bytes_cons, <- !app_assoc).
  assert (len (data_bytes interval dn) + len (stored_bytes interval g) <= MaxInt64) as Hle.
  { rewrite data_bytes_app, data_bytes_cons, !len_app in Hmax. pose proof (len_nonneg (data_bytes interval gs)). lia. }
  assert (concat (dn ++ g :: gs) = concat dn ++ g ++ concat gs) as Hcc by (by rewrite concat_app).
  unfold validate_block. cbn [index_at i_handle i_encoded Offset Length]. rewrite Hb at 1. rewrite read_group by done. cbn [mbind result_bind].
  pose proof Ha as Ha'. rewrite Hcc in Ha'. apply Forall_app in Ha' as [_ [Hag _]%Forall_app]. pose proof Hs as Hs'. rewrite Hcc in Hs'.
  assert (store_sorted g) as Hsg by (by eapply StronglySorted_app_1_l, StronglySorted_app_1_r).
  destruct (group_decodes g {| Offset := len (data_bytes interval dn); Length := len (stored_bytes interval g) |} Hne Hag Hsg Hp) as (block & -> & He). cbn [mbind result_bind]. rewrite He.
  destruct (list.last g) as [z|] eqn:Hz; [|by apply last_None in Hz]. destruct (head g) as [h|] eqn:Hh; [|by destruct g].
  rewrite fmap_last, Hz. assert (head (enc <$> g) = Some (enc h)) as -> by (destruct g; cbn in *; congruence). cbn [fmap option_fmap option_map enc e_encoded e_key].
  unfold last_key at 1. rewrite Hz. cbn [fmap option_fmap option_map default from_option]. rewrite bytes_eqb_refl. cbn [check require mbind result_bind].
  assert (match s_last (stream_of dn) with Some l => negb (not_before (e_key l) h.1) | None => true end = true) as ->.
  { cbn. destruct (list.last (concat dn)) as [y|] eqn:Hy; [|done]. cbn. rewrite (proj2 (not_before_false _ _)); [done|].
    eapply (StronglySorted_app_1_elem_of (fun a b : entry => key_lt a.1 b.1)); [exact Hs'| |apply elem_of_app; left; destruct g; [done|injection Hh as ->; by left]].
    apply last_Some in Hy as [m ->]. apply elem_of_app. right. by apply list_elem_of_singleton. }
  cbn [check require mbind result_bind]. pose proof (len_nonneg (concat gs)). pose proof (raw_size_nonneg (concat gs)). pose proof (raw_size_nonneg (concat dn)).
  rewrite Hcc, !len_app in Hc. rewrite Hcc, !raw_size_app in Hr. pose proof Hm as Hm'. rewrite Hcc in Hm'. apply Forall_app in Hm' as [_ [Hmg _]%Forall_app].
  rewrite validate_entries_ok; cbn [s_count s_raw s_deletions s_first s_last s_crcs stream_of]; [|done|done|lia|lia]. cbn [mbind result_bind].
  match goal with |- validate_blocks _ _ ?s _ = _ => assert (s = stream_of (dn ++ [g])) as -> end.
  { unfold stream_of. assert (concat (dn ++ [g]) = concat dn ++ g) as -> by (rewrite concat_app; cbn; by rewrite app_nil_r).
    rewrite len_app, deletions_app, raw_size_app, last_app, Hz, head_app_store, Hh, fmap_app. f_equal. by destruct (head (concat dn)). }
  rewrite Heq in *. rewrite <- IH; [|done|done|done|done|rewrite concat_app, concat_app in *; cbn; rewrite app_nil_r, !len_app in *; lia| |done].
  - do 2 f_equal. by rewrite data_bytes_app, data_bytes_one, len_app.
  - rewrite concat_app, concat_app. cbn. rewrite app_nil_r, !raw_size_app. lia.
Qed.
End groups.

(** The steps of [openReader]. *)
Lemma openReader_steps f size base maxIndex footer st indexPayload index metadataPayload disk bloom metadata crcs :
  let limit := if maxIndex =? 0 then DefaultMaxIndexBlockSize else maxIndex in
  BlockTrailerSize <= limit -> FooterSize <= size <= MaxTableSize -> readAtExact f FooterSize (size - FooterSize) = Ok footer ->
  decodeFooter footer (size - FooterSize) = Ok st -> Length (f_metadata st) <= maximumMetadata ->
  readBlockUnlocked f (f_index st) blockIndex (size - FooterSize) = Ok indexPayload -> decodeIndex indexPayload = Ok index ->
  readBlockUnlocked f (f_metadata st) blockMetadata (size - FooterSize) = Ok metadataPayload -> decodeMetadata metadataPayload = Ok disk ->
  len index = m_dataBlockCount disk ->
  (if Length (f_filter st) =? 0 then Ok noBloom
   else filterPayload ← readBlockUnlocked f (f_filter st) blockFilter (size - FooterSize); decodeBloom filterPayload) = Ok bloom ->
  validateDataHandles index (f_dataEnd st) = Ok tt ->
  validateDataStream f bloom index disk (parseFileNumber base) size = Ok (metadata, crcs) ->
  openReader f size base maxIndex =
    if Length (f_index st) <=? limit then
      Ok {| rd_file := f; rd_size := size; rd_index := index; rd_dataCRCs := crcs; rd_metadata := Some metadata; rd_bloom := bloom; rd_maxIndex := limit; rd_closed := false |}
    else Err [ErrResourceLimit].
Proof.
  intros limit Hl [Hs1 Hs2] Hf Hd Hm Hi Hi' Hmb Hmd Hc Hb Hh Hst. unfold openReader. fold limit. rewrite (proj2 (Z.leb_le BlockTrailerSize limit) Hl), (proj2 (Z.leb_le _ _) Hs1), (proj2 (Z.leb_le _ _) Hs2), Hf. cbn [andb require mbind result_bind].
  rewrite Hd. cbn [mbind result_bind]. destruct (Length (f_index st) <=? limit); [|done]. rewrite (proj2 (Z.leb_le _ _) Hm), Hi. cbn [require mbind result_bind]. rewrite Hi'. cbn [mbind result_bind].
  rewrite Hmb. cbn [mbind result_bind]. rewrite Hmd. cbn [mbind result_bind]. rewrite Hc, Z.eqb_refl, Hb. cbn [check require mbind result_bind]. rewrite Hh. cbn [mbind result_bind]. by rewrite Hst.
Qed.

Section image.
Context (interval : Z) (bloom : bool) (gs : list store) (fp : option bytes) (Hok : groups_ok interval bloom gs fp).
Abbreviation image := (table_image interval gs fp).
Abbreviation state := (footer_state interval gs fp).
Abbreviation data := (data_bytes interval gs).

(** ** Sizes *)

Lemma group_entries g : g ∈ gs -> Forall accepted g /\ store_sorted g /\ g <> [] /\ len (payload_of interval g) <= MaxDataBlockSize.
Proof.
  intros Hg. pose proof (go_groups _ _ _ _ Hok) as Hgr. pose proof (go_entries _ _ _ _ Hok) as Hent. pose proof (go_sorted _ _ _ _ Hok) as Hso.
  rewrite Forall_forall in Hgr. destruct (Hgr g Hg). apply list_elem_of_split in Hg as (l1 & l2 & Heq). rewrite Heq in Hent, Hso.
  rewrite concat_app in Hent, Hso. cbn in Hent, Hso. apply Forall_app in Hent as [_ [? _]%Forall_app]. split_and!; [done| |done|done].
  apply StronglySorted_app_1_r, StronglySorted_app_1_l in Hso. done.
Qed.
(** ** The footer *)

Lemma image_parts_max : len data + len (index_block interval gs) + len (metadata_block gs) + len (filter_block fp) + FooterSize <= MaxInt64.
Proof. pose proof (go_size _ _ _ _ Hok) as Hs. unfold table_image in Hs. rewrite !len_app, footer_len in Hs. unfold MaxTableSize in Hs. lia. Qed.
Lemma bloom_payload_len hashes p : encodeBloom hashes = Ok p -> bloomHeaderSize <= len p <= maxBloomBytes + bloomHeaderSize.
Proof.
  unfold encodeBloom. destruct (_ <? len hashes); [done|]. destruct (bloom_bit_count_ok hashes) as [H64 _]. set (n := bloom_bit_count hashes) in *.
  destruct (Z.ltb_spec maxBloomBytes (n / 8)) as [|Hmax]; [done|]. destruct (MaxUint32 <? n); [done|]. cbn [orb]. set (f := {| bits := replicate _ _; probes := _ |}). intros <-%Ok_inj.
  assert (1 <= n / 8) by (apply Z.div_le_lower_bound; lia).
  assert (len (bits f) = n / 8) as Hlen by (unfold f, len; cbn [bits]; rewrite length_replicate; lia).
  destruct (bloom_adds hashes f) as (Hl & _); [lia|]. rewrite !len_app, !len_le_put, !len_cons, len_nil. assert (len (bits (foldl bloom_add f hashes)) = n / 8) by (unfold len in *; lia). unfold bloomHeaderSize. lia.
Qed.
Lemma filter_len : match fp with Some p => bloomHeaderSize + BlockTrailerSize <= len (filter_block fp) <= maxBloomBytes + bloomHeaderSize + BlockTrailerSize | None => True end.
Proof.
  pose proof (go_filter _ _ _ _ Hok) as Hf. destruct bloom; [|by rewrite Hf]. destruct Hf as (hashes & p & -> & He & _). apply bloom_payload_len in He. cbn [filter_block]. rewrite trailer_len. lia.
Qed.
Lemma image_footer_ok : footer_ok state (len image - FooterSize).
Proof.
  pose proof image_parts_max as Hmax. pose proof filter_len as Hfl. pose proof (image_len interval gs fp) as Hlen. pose proof (len_nonneg data).
  assert (BlockTrailerSize <= len (index_block interval gs) /\ BlockTrailerSize <= len (metadata_block gs)) as [Hi Hm].
  { unfold index_block, metadata_block. rewrite !trailer_len. split; match goal with |- _ <= len ?x + _ => pose proof (len_nonneg x) end; lia. }
  unfold FooterSize in *. split; cbn; try done; try lia.
  - destruct fp; cbn [Length]; [|cbn [filter_block] in Hlen; rewrite len_nil in Hlen; cbn [no_handle Length Z.eqb]; lia]. rewrite (proj2 (Z.eqb_neq _ 0)) by (unfold bloomHeaderSize, BlockTrailerSize in *; lia). done.
  - destruct fp; cbn [Length]; [|done]. rewrite (proj2 (Z.eqb_neq _ 0)) by (unfold bloomHeaderSize, BlockTrailerSize in *; lia). cbn [Offset]. split; [lia|done].
Qed.

(** ** The structural blocks *)

Lemma groups_nonempty : Forall (fun g : store => g <> []) gs.
Proof. eapply Forall_impl; [apply Hok|]. by intros g [? _]. Qed.
Lemma image_index : decodeIndex (encode_index (index_entry <$> index_of interval 0 gs)) = Ok (index_of interval 0 gs).
Proof.
  pose proof image_parts_max as Hmax. pose proof (len_nonneg (index_block interval gs)). pose proof (len_nonneg (metadata_block gs)). pose proof (len_nonneg (filter_block fp)). unfold FooterSize in Hmax.
  apply decodeIndex_encode.
  - intros Hn. apply (f_equal length) in Hn. rewrite index_of_length in Hn. apply (go_nonempty _ _ _ _ Hok). by destruct gs.
  - unfold len. rewrite index_of_length. apply (go_blocks _ _ _ _ Hok).
  - apply index_of_ok; [done|lia|apply groups_nonempty|apply Hok].
  - apply index_of_sorted; [apply Hok|apply groups_nonempty].
Qed.
Lemma first_le_last (l : store) : store_sorted l -> l <> [] -> key_le (first_key l) (last_key l) /\ bytes_leb (userKey (first_key l)) (userKey (last_key l)) = true.
Proof.
  intros Hs Hl. destruct l as [|e l]; [done|]. change (first_key (e :: l)) with e.1. destruct (decide (l = [])) as [->|Hne].
  { split; [apply key_le_lt_eq; by right|]. apply bytes_leb_lt. unfold bytes_lt. by rewrite bytes_compare_refl. }
  change (e :: l) with ([e] ++ l); rewrite (last_key_app [e]) by done. destruct (last_key_in l Hne) as (x & Hx & ->). apply StronglySorted_cons in Hs as [Hf _]. rewrite Forall_forall in Hf.
  specialize (Hf x Hx). split; [apply key_le_lt_eq; by left|]. apply bytes_leb_lt. by apply (entry_lt_user e x).
Qed.
Lemma image_metadata_ok : metadata_ok (disk_metadata gs) (first_key (concat gs)) (last_key (concat gs)).
Proof.
  pose proof (go_nonempty _ _ _ _ Hok) as Hne. pose proof (go_entries _ _ _ _ Hok) as Ha. pose proof (go_count _ _ _ _ Hok) as Hc. pose proof (go_raw _ _ _ _ Hok) as Hr. pose proof (go_blocks _ _ _ _ Hok) as Hb.
  destruct (accepted_first _ Hne Ha) as (e & He & Hf). destruct (accepted_last _ Hne Ha) as (x & Hx & Hl). destruct (accepted_key e He) as (He1 & He2 & He3). destruct (accepted_key x Hx) as (Hx1 & Hx2 & Hx3).
  destruct (first_le_last (concat gs) (go_sorted _ _ _ _ Hok) Hne) as [Ho Hu]. pose proof (deletions_le (concat gs)). pose proof (raw_size_nonneg (concat gs)).
  assert (0 < len (concat gs)) by (destruct (concat gs); [done|rewrite len_cons; match goal with |- context [len ?l] => pose proof (len_nonneg l) end; lia]).
  assert (0 < len gs) by (destruct gs; [done|rewrite len_cons; match goal with |- context [len ?l] => pose proof (len_nonneg l) end; lia]).
  change MaxUint64 with (2 ^ 64 - 1) in *. change MaxUint32 with (2 ^ 32 - 1) in *.
  split; cbn [disk_metadata m_entryCount m_deletionCount m_dataBlockCount m_rawKeyValueBytes m_smallestInternal m_largestInternal m_smallestUser m_largestUser]; rewrite ?u32_id by (unfold is_u32; lia);
    rewrite ?Hf, ?Hl; rewrite ?Hf, ?Hl in Ho; rewrite ?Hf, ?Hl in Hu; try done; try lia. unfold is_u64. lia.
Qed.

(** ** Reading the parts of the image *)

Abbreviation footerOffset := (len image - FooterSize).
Lemma footer_bound : 0 <= footerOffset <= MaxInt64 /\ len image = footerOffset + FooterSize.
Proof.
  pose proof image_parts_max as Hmax. pose proof (image_len interval gs fp) as Hl. pose proof (len_nonneg data). pose proof (len_nonneg (index_block interval gs)).
  pose proof (len_nonneg (metadata_block gs)). pose proof (len_nonneg (filter_block fp)). unfold FooterSize in *. lia.
Qed.
Lemma read_footer : readAtExact (healthy image) FooterSize footerOffset = Ok (encode_state state).
Proof.
  pose proof footer_bound as [Hb _]. pose proof (image_len interval gs fp) as Hl.
  set (pre := data ++ index_block interval gs ++ metadata_block gs ++ filter_block fp).
  assert (image = pre ++ encode_state state ++ []) as Hi by (unfold pre, table_image; by rewrite app_nil_r, <- !app_assoc).
  assert (len pre = footerOffset) as Hpre by (rewrite Hl; unfold pre; rewrite !len_app; lia).
  rewrite Hi at 1. rewrite <- Hpre, <- (footer_len state). apply readAtExact_ok. lia.
Qed.
(** A structural block between [pre] and [post]. *)
Lemma read_part pre payload k post h : image = pre ++ appendBlockTrailer payload k ++ post -> h = {| Offset := len pre; Length := len (appendBlockTrailer payload k) |} ->
  FooterSize <= len post -> k <> blockData -> readBlockUnlocked (healthy image) h k footerOffset = Ok payload.
Proof.
  intros Hi -> Hp Hk. pose proof footer_bound as [Hb _]. assert (len image = len pre + len (appendBlockTrailer payload k) + len post) as Hl by (rewrite Hi, !len_app; lia).
  rewrite Hi at 1. apply read_written; [lia|lia|done].
Qed.
Lemma post_footer (x : bytes) : FooterSize <= len (x ++ encode_state state).
Proof. rewrite len_app, footer_len. pose proof (len_nonneg x). lia. Qed.
Lemma read_index : readBlockUnlocked (healthy image) (f_index state) blockIndex footerOffset = Ok (encode_index (index_entry <$> index_of interval 0 gs)).
Proof. eapply (read_part data _ _ (metadata_block gs ++ filter_block fp ++ encode_state state)); [done|done|rewrite app_assoc; apply post_footer|done]. Qed.
Lemma read_metadata : readBlockUnlocked (healthy image) (f_metadata state) blockMetadata footerOffset = Ok (encode_metadata (disk_metadata gs)).
Proof.
  eapply (read_part (data ++ index_block interval gs) _ _ (filter_block fp ++ encode_state state)); [unfold table_image; by rewrite <- app_assoc| |apply post_footer|done].
  cbn. by rewrite len_app.
Qed.
Lemma read_filter : exists f, (if Length (f_filter state) =? 0 then Ok noBloom
    else filterPayload ← readBlockUnlocked (healthy image) (f_filter state) blockFilter footerOffset; decodeBloom filterPayload) = Ok f /\
  Forall (fun e => mayContain f (userKey e.1) = true) (concat gs).
Proof.
  pose proof (go_filter _ _ _ _ Hok) as Hf. pose proof filter_len as Hlen. assert (bloom = false \/ bloom = true) as [Hb|Hb] by (destruct bloom; auto); rewrite Hb in Hf.
  { exists noBloom. split; [cbn; by rewrite Hf|]. by apply Forall_true. }
  destruct Hf as (hashes & p & Hfp & He & Hall). destruct (bloom_roundtrip hashes p He) as (f & Hd & Hmay). exists f. split.
  - rewrite (proj2 (Z.eqb_neq _ 0)) by (cbn; rewrite Hfp in *; cbn [Length]; unfold bloomHeaderSize, BlockTrailerSize in *; lia).
    erewrite (read_part (data ++ index_block interval gs ++ metadata_block gs) p _ (encode_state state)); [exact Hd| | |by rewrite footer_len|done].
    + unfold table_image. rewrite <- !app_assoc. do 3 f_equal. by rewrite Hfp.
    + cbn. rewrite Hfp. rewrite !len_app. cbn. f_equal. lia.
  - eapply Forall_impl; [exact Hall|]. cbn. intros e Hin. by apply Hmay.
Qed.
Lemma image_handles : validateDataHandles (index_of interval 0 gs) (f_dataEnd state) = Ok tt.
Proof.
  pose proof image_parts_max as Hmax. pose proof (len_nonneg (index_block interval gs)). pose proof (len_nonneg (metadata_block gs)). pose proof (len_nonneg (filter_block fp)).
  unfold validateDataHandles, FooterSize in *. rewrite validate_handles_ok by (cbn; lia). cbn [mbind result_bind]. cbn [f_dataEnd footer_state]. rewrite Z.add_0_l, Z.eqb_refl.
  unfold len at 1. rewrite index_of_length. pose proof (go_nonempty _ _ _ _ Hok). destruct gs; done.
Qed.
Lemma image_stream f number size : Forall (fun e => mayContain f (userKey e.1) = true) (concat gs) ->
  validateDataStream (healthy image) f (index_of interval 0 gs) (disk_metadata gs) number size =
    Ok (metadata_of number gs size, (fun g => blockPayloadChecksum (payload_of interval g) blockData) <$> gs).
Proof.
  intros Hm. pose proof image_parts_max as Hmax. pose proof (len_nonneg (index_block interval gs)). pose proof (len_nonneg (metadata_block gs)). pose proof (len_nonneg (filter_block fp)).
  unfold FooterSize in Hmax. unfold validateDataStream.
  pose proof (validate_blocks_ok interval f (index_block interval gs ++ metadata_block gs ++ filter_block fp ++ encode_state state) gs []) as Hv. cbn [app] in Hv.
  change (stream_of interval []) with empty_stream in Hv. change (len (data_bytes interval [])) with 0 in Hv. fold image in Hv.
  rewrite Hv; [|lia|apply Hok|apply Hok|apply Hok|apply Hok|apply Hok|done]. cbn [mbind result_bind stream_of s_first s_last s_count s_deletions s_raw s_crcs].
  pose proof (go_nonempty _ _ _ _ Hok) as Hne. destruct (head (concat gs)) as [h|] eqn:Hh; [|by destruct (concat gs)]. destruct (list.last (concat gs)) as [z|] eqn:Hz; [|by apply last_None in Hz].
  cbn [fmap option_fmap option_map]. assert (first_key (concat gs) = h.1) as Hf by (unfold first_key; by rewrite Hh). assert (last_key (concat gs) = z.1) as Hl by (unfold last_key; by rewrite Hz).
  unfold disk_metadata, metadata_of. cbn [m_entryCount m_deletionCount m_rawKeyValueBytes m_smallestInternal m_largestInternal m_smallestUser m_largestUser enc e_encoded e_key]. rewrite Hf, Hl.
  rewrite !Z.eqb_refl, !bytes_eqb_refl. cbn [andb check require mbind result_bind]. do 3 f_equal. unfold len. by rewrite index_of_length.
Qed.

(** ** Opening the image *)

Lemma open_image base maxIndex : let limit := if maxIndex =? 0 then DefaultMaxIndexBlockSize else maxIndex in BlockTrailerSize <= limit ->
  if Length (f_index state) <=? limit then
    exists r, openReader (healthy image) (len image) base maxIndex = Ok r /\ rd_file r = healthy image /\ rd_index r = index_of interval 0 gs /\
      rd_metadata r = Some (metadata_of (parseFileNumber base) gs (len image))
  else openReader (healthy image) (len image) base maxIndex = Err [ErrResourceLimit].
Proof.
  intros limit Hlimit. pose proof footer_bound as [Hb Hl]. destruct read_filter as (f & Hf & Hmay).
  assert (FooterSize <= len image <= MaxTableSize) as Hsize by (split; [lia|apply (go_size _ _ _ _ Hok)]).
  assert (Length (f_metadata state) <= maximumMetadata) as Hmeta.
  { pose proof (encode_metadata_len _ _ _ image_metadata_ok) as [_ Hm]. cbn [footer_state f_metadata Length]. unfold metadata_block. rewrite trailer_len. lia. }
  assert (len (index_of interval 0 gs) = m_dataBlockCount (disk_metadata gs)) as Hcount.
  { cbn [disk_metadata m_dataBlockCount]. pose proof (go_blocks _ _ _ _ Hok) as Hbl. pose proof (len_nonneg gs). change MaxUint32 with (2 ^ 32 - 1) in Hbl. rewrite u32_id by (unfold is_u32; lia).
    unfold len. by rewrite index_of_length. }
  rewrite (openReader_steps _ _ _ _ _ _ _ _ _ _ f _ _ Hlimit Hsize read_footer (decodeFooter_encode _ _ image_footer_ok) Hmeta read_index image_index read_metadata
    (decodeMetadata_encode _ _ _ image_metadata_ok) Hcount Hf image_handles (image_stream f _ _ Hmay)).
  cbv zeta. fold limit. destruct (Length (f_index state) <=? limit); [|done]. by eexists.
Qed.
(** The blocks of the reader are the groups. *)
Lemma image_blocks hs : forall o bs pre post, image = pre ++ data_bytes interval hs ++ post -> o = len pre -> len pre + len (data_bytes interval hs) <= MaxInt64 -> Forall (fun g => g ∈ gs) hs ->
  Forall2 (block_at (healthy image)) (index_of interval o hs) bs -> all_entries bs = enc <$> concat hs.
Proof.
  induction hs as [|g hs IH]; intros o bs pre post Hi -> Hle Hin Hb; cbn [index_of] in Hb; [by inversion Hb|]. inversion_clear Hb as [|? b ? bs' [Hread Hdec _] Hbs].
  apply Forall_cons in Hin as [Hg Hin]. destruct (group_entries g Hg) as (Ha & Hs & Hne & Hp). rewrite data_bytes_cons in Hi. rewrite <- app_assoc in Hi. rewrite data_bytes_cons, len_app in Hle.
  pose proof (len_nonneg (data_bytes interval hs)). cbn [index_at i_handle] in *. unfold region_end in Hread. cbn [index_at i_handle Offset Length] in *. rewrite Hi in Hread at 1.
  rewrite read_group in Hread by (done || lia). apply Ok_inj in Hread. rewrite <- Hread in Hdec.
  destruct (group_decodes interval g {| Offset := len pre; Length := len (stored_bytes interval g) |} Hne Ha Hs Hp) as (block & Hd & He). rewrite Hd in Hdec. apply Ok_inj in Hdec. subst block.
  cbn [concat]. rewrite fmap_app, <- He. change (all_entries (b :: bs')) with (k_entries (st_block b) ++ all_entries bs'). f_equal.
  eapply (IH _ _ (pre ++ stored_bytes interval g) post); [by rewrite Hi, <- app_assoc|by rewrite len_app|rewrite len_app; lia|done|exact Hbs].
Qed.
Lemma image_contents r bs : rd_file r = healthy image -> rd_index r = index_of interval 0 gs -> table_ok r bs -> table_contents r = concat gs.
Proof.
  intros Hf Hi Ht. rewrite (table_contents_ok r bs Ht). unfold table_entries. pose proof (to_blocks _ _ Ht) as Hb. rewrite Hf, Hi in Hb.
  pose proof image_parts_max as Hmax. pose proof (len_nonneg (index_block interval gs)). pose proof (len_nonneg (metadata_block gs)). pose proof (len_nonneg (filter_block fp)). unfold FooterSize in Hmax.
  rewrite (image_blocks gs 0 bs [] (index_block interval gs ++ metadata_block gs ++ filter_block fp ++ encode_state state)); [|done|done|rewrite len_nil; lia|by apply Forall_forall|done].
  rewrite <- list_fmap_compose. rewrite <- (list_fmap_id (concat gs)) at 2. apply list_fmap_ext. by intros i [].
Qed.
End image.
