(* ===== verification/SSTableCorrupt.v ===== *)
(** * Detection of corrupted tables

    Every byte of a table lies under a checksum: the regions a reader
    validates tile the file, so that a file with one byte changed does not
    open. *)

From S2P Require Import Prelude Varint InternalKey Crc32c Codec Files MvccStore SSTable SSTableBlock SSTableFormat SSTableWriter SSTableReader SSTableLayout SSTableReads.
Import sstable writer reader.

(** ** Strings that differ in one byte *)

Definition one_diff (a b : bytes) : Prop := exists pre x y post, a = pre ++ x :: post /\ b = pre ++ y :: post /\ x <> y.
Lemma one_diff_irrefl a : ~ one_diff a a.
Proof. intros (pre & x & y & post & -> & He & Hne). apply app_inv_head in He. congruence. Qed.
Lemma one_diff_length a b : one_diff a b -> length a = length b.
Proof. intros (pre & x & y & post & -> & -> & _). by rewrite !length_app. Qed.
Lemma one_diff_app a : forall a' r r', length a = length a' -> one_diff (a ++ r) (a' ++ r') -> (one_diff a a' /\ r = r') \/ (a = a' /\ one_diff r r').
Proof.
  induction a as [|z a IH]; intros [|z' a'] r r' Hl H; cbn in Hl; try done; [by right|]. destruct H as (pre & x & y & post & He & He' & Hne). destruct pre as [|w pre]; cbn in He, He'.
  - injection He as -> <-. injection He' as -> Hp. apply app_inj_1 in Hp as [<- <-]; [|lia]. left. split; [|done]. by exists [], x, y, a'.
  - injection He as -> He. injection He' as -> He'. destruct (IH a' r r') as [[(p & x' & y' & q & -> & -> & Hd) ->]|[-> Hd]]; [lia|by exists pre, x, y, post| |by right].
    left. split; [|done]. by exists (w :: p), x', y', q.
Qed.
Lemma one_diff_concat l : forall l', Forall2 (fun a b : bytes => length a = length b) l l' -> one_diff (concat l) (concat l') -> exists i a b, l !! i = Some a /\ l' !! i = Some b /\ one_diff a b.
Proof.
  induction l as [|a l IH]; intros l' Hl H; inversion Hl as [|? b ? l'' Hab Hl']; subst; [by apply one_diff_irrefl in H|]. cbn in H.
  apply one_diff_app in H as [[H _]|[_ H]]; [by exists 0%nat, a, b|by destruct (IH _ Hl' H) as (i & ? & ? & ? & ? & ?); exists (S i); eauto|done].
Qed.
Lemma one_diff_crc a b : one_diff a b -> crc32_checksum a <> crc32_checksum b.
Proof. intros (pre & x & y & post & -> & -> & Hne). rewrite !crc32_checksum_update. by apply crc32_detects_byte_error. Qed.
Lemma le_get_inj (a b : bytes) : length a = length b -> le_get a = le_get b -> a = b.
Proof. intros Hl He. rewrite <- (le_put_get a (length a)), <- (le_put_get b (length a)) by done. by rewrite He. Qed.

(** [c] is the checksum of [a ++ b]: one changed byte in [a ++ c ++ b] is noticed. *)
Lemma checksum_detects a c b a' c' b' : length a = length a' -> length c = length c' -> crc32_checksum (a ++ b) = le_get c -> crc32_checksum (a' ++ b') = le_get c' ->
  ~ one_diff (a ++ c ++ b) (a' ++ c' ++ b').
Proof.
  intros Ha Hc H H' Hd. apply one_diff_app in Hd as [[Hd He]|[-> Hd]]; [| |done].
  - apply app_inj_1 in He as [-> ->]; [|done]. destruct Hd as (pre & x & y & post & -> & -> & Hne). apply (one_diff_crc ((pre ++ x :: post) ++ b') ((pre ++ y :: post) ++ b')); [|congruence].
    exists pre, x, y, (post ++ b'). by rewrite <- !app_assoc.
  - apply one_diff_app in Hd as [[Hd ->]|[-> Hd]]; [| |done].
    + rewrite H in H'. apply le_get_inj in H'; [|done]. subst. by apply one_diff_irrefl in Hd.
    + destruct Hd as (pre & x & y & post & -> & -> & Hne). apply (one_diff_crc (a' ++ pre ++ x :: post) (a' ++ pre ++ y :: post)); [|congruence].
      exists (a' ++ pre), x, y, post. by rewrite <- !app_assoc.
Qed.

(** ** Sealed regions *)

(** A block with a correct trailer. *)
Definition sealed (buffer : bytes) : Prop := (7 <= length buffer)%nat /\ crc32_checksum (take (length buffer - 4) buffer) = le_get (drop (length buffer - 4) buffer).
Lemma sealed_detects a b : sealed a -> sealed b -> ~ one_diff a b.
Proof.
  intros [Ha1 Ha2] [Hb1 Hb2] Hd. pose proof (one_diff_length a b Hd) as Hl.
  apply (checksum_detects (take (length a - 4) a) (drop (length a - 4) a) [] (take (length b - 4) b) (drop (length b - 4) b) []); rewrite ?app_nil_r, ?take_drop, ?length_take, ?length_drop; done || lia.
Qed.
Lemma slice_full (s : bytes) n : n = length s -> slice 0 n s = s.
Proof. intros ->. by apply slice_exact. Qed.
Lemma readAtExact_inv f n o b : 0 <= o -> 0 <= n -> readAtExact f n o = Ok b -> b = slice (Z.to_nat o) (Z.to_nat (o + n)) (ra_bytes f) /\ o + n <= len (ra_bytes f) /\ len b = n.
Proof.
  intros Ho Hn. unfold readAtExact, ReadAt. destruct (MaxInt64 <? o); [done|]. destruct (ra_fault f o n) as [[]|]; try done. destruct (Z.leb_spec (o + n) (len (ra_bytes f))) as [Hle|]; [|done].
  intros <-%Ok_inj. split_and!; [done|done|]. unfold len in *. rewrite slice_length; lia.
Qed.
Lemma validateHandle_inv h limit minimum u : validateHandle h limit minimum = Ok u -> minimum <= Length h /\ Offset h + Length h <= limit /\ Offset h <= MaxInt64 /\ Length h <= MaxInt64.
Proof.
  unfold validateHandle. intros H. ok_inv H. apply require_ok, negb_true_iff in Hx. repeat apply orb_false_elim in Hx as [Hx ?]. destruct (checkedAdd _ _) as [e|] eqn:Hc; [|done].
  apply checkedAdd_inv in Hc as [-> _]. apply require_ok, negb_true_iff in H. repeat apply orb_false_elim in H as [H ?]. lia.
Qed.
Lemma readBlock_sealed f h k regionEnd payload : 0 <= Offset h -> readBlockUnlocked f h k regionEnd = Ok payload ->
  let buffer := slice (Z.to_nat (Offset h)) (Z.to_nat (Offset h + Length h)) (ra_bytes f) in
  sealed buffer /\ len buffer = Length h /\ Offset h + Length h <= len (ra_bytes f) /\ payload = take (length buffer - 7) buffer.
Proof.
  intros Ho H. unfold readBlockUnlocked in H. ok_inv H. apply validateHandle_inv in Hx as (Hmin & _). unfold BlockTrailerSize in Hmin.
  apply readAtExact_inv in Hx1 as (-> & Hle & Hlen); [|lia|lia]. apply Ok_inj in H. apply require_ok, Z.eqb_eq in Hx5. set (buffer := slice _ _ _) in *. cbn zeta.
  assert (7 <= length buffer)%nat as H7 by (unfold len in Hlen; lia). split_and!; [|done|done|done]. split; [done|].
  replace (length buffer - 4)%nat with (length buffer - 7 + 3)%nat by lia. rewrite Hx5. f_equal.
  replace (length buffer - 7 + 7)%nat with (length buffer) by lia. apply slice_drop.
Qed.

(** ** The regions tile the file *)

Lemma handleEndsAt_inv h e : handleEndsAt h e = true -> Offset h + Length h = e.
Proof. unfold handleEndsAt. destruct (checkedAdd _ _) as [s|] eqn:Hc; [|done]. apply checkedAdd_inv in Hc as [-> _]. apply Z.eqb_eq. Qed.
Lemma handle_at_nonneg b i : 0 <= Offset (handle_at b i).
Proof. cbn. apply le_get_range. Qed.
Definition footer_sealed (footer : bytes) : Prop := length footer = 80%nat /\ crc32_checksum (take 68 footer ++ drop 72 footer) = le_get (slice 68 72 footer).
Lemma footer_detects a b : footer_sealed a -> footer_sealed b -> ~ one_diff a b.
Proof.
  intros [Ha1 Ha2] [Hb1 Hb2]. assert (forall s : bytes, s = take 68 s ++ slice 68 72 s ++ drop 72 s) as Hsplit by (intros s; rewrite slice_join_drop by lia; by rewrite take_drop).
  rewrite (Hsplit a), (Hsplit b). apply checksum_detects; [|rewrite !slice_length by lia; done|done|done]. rewrite !length_take. lia.
Qed.
(** Where the parts named by a footer lie. *)
Record footer_places (st : footerState) (footerOffset : Z) : Prop := {
  fp_start : 0 <= f_dataEnd st;
  fp_index : Offset (f_index st) = f_dataEnd st;
  fp_metadata : Offset (f_index st) + Length (f_index st) = Offset (f_metadata st);
  fp_sizes : 7 <= Length (f_index st) /\ 7 <= Length (f_metadata st);
  fp_rest : if Length (f_filter st) =? 0 then Offset (f_metadata st) + Length (f_metadata st) = footerOffset
            else Offset (f_metadata st) + Length (f_metadata st) = Offset (f_filter st) /\ Offset (f_filter st) + Length (f_filter st) = footerOffset /\ 7 <= Length (f_filter st)
}.
Lemma decodeFooter_inv footer footerOffset st : decodeFooter footer footerOffset = Ok st -> footer_sealed footer /\ footer_places st footerOffset.
Proof.
  unfold decodeFooter. intros H. ok_inv H. apply Ok_inj in H. set (flags := le_get (slice 60 64 footer)) in *. set (present := negb (Z.land flags footerFilterPresentFlag =? 0)) in *.
  repeat match goal with H : require _ _ = Ok _ |- _ => apply require_ok in H end. apply Z.eqb_eq in Hx, Hx0. rewrite crc32_checksum_update, crc32_update_app, <- crc32_checksum_update in Hx0.
  split; [split; [unfold len, FooterSize in Hx; lia|done]|]. rewrite H in *. pose proof (handle_at_nonneg footer 0) as Hnn. replace (handle_at footer 0) with (f_index st) in Hnn by (by rewrite <- H).
  repeat match goal with H : _ && _ = true |- _ => apply andb_prop in H as [H ?] end.
  apply eqb_prop in Hx4. clearbody present. clear H.
  apply Z.eqb_eq in Hx5. apply handleEndsAt_inv in H2, H1. apply validateHandle_inv in Hx6 as (Hi & _), Hx7 as (Hm & _). unfold BlockTrailerSize in *.
  split; [lia|done|done|done|]. destruct present.
  - ok_inv Hx8. apply validateHandle_inv in Hx8 as (Hfl & _). unfold bloomHeaderSize in Hfl. cbn in H0. apply handleEndsAt_inv in H0. rewrite (proj2 (Z.eqb_neq _ 0)) by lia. split_and!; [done|done|lia].
  - symmetry in Hx4. apply negb_false_iff, bool_decide_eq_true in Hx4. by rewrite Hx4.
Qed.

(** Cutting a string. *)
Lemma cut_slices (s : bytes) a b c : 0 <= a <= b -> b <= c -> slice (Z.to_nat a) (Z.to_nat c) s = slice (Z.to_nat a) (Z.to_nat b) s ++ slice (Z.to_nat b) (Z.to_nat c) s.
Proof. intros. symmetry. apply slice_join; lia. Qed.
Lemma blocks_tile f index : forall bs next stop dataEnd, validate_handles index dataEnd next = Ok stop -> Forall2 (block_at f) index bs -> 0 <= next ->
  next <= stop /\ exists bufs, slice (Z.to_nat next) (Z.to_nat stop) (ra_bytes f) = concat bufs /\ Forall2 (fun ie b => sealed b /\ len b = Length (i_handle ie)) index bufs.
Proof.
  induction index as [|ie index IH]; intros bs next stop dataEnd H Hb Hn; cbn [validate_handles] in H.
  { apply Ok_inj in H as <-. split; [done|]. exists []. split; [|constructor]. unfold slice. by rewrite Nat.sub_diag. }
  ok_inv H. apply require_ok, Z.eqb_eq in Hx. apply validateHandle_inv in Hx0 as (Hmin & _ & Ho & Hl). inversion_clear Hb as [|? b ? bs' [Hread _ _] Hbs]. unfold BlockTrailerSize in Hmin.
  assert (MaxInt64 * 2 < 2 ^ 64) as Hmax by done. rewrite u64_id in H by (unfold is_u64; lia).
  destruct (IH bs' _ _ _ H Hbs ltac:(lia)) as (Hle & bufs & Hc & Hf). assert (0 <= Offset (i_handle ie)) as Ho0 by lia. destruct (readBlock_sealed _ _ _ _ _ Ho0 Hread) as (Hseal & Hlen & _ & _).
  split; [lia|]. rewrite Hx in Hlen, Hseal, Hc, Hle. exists (slice (Z.to_nat next) (Z.to_nat (next + Length (i_handle ie))) (ra_bytes f) :: bufs). split.
  - cbn [concat]. rewrite <- Hc. apply cut_slices; lia.
  - by constructor.
Qed.
Record tiles (bytes : bytes) (st : footerState) (index : list decodedIndexEntry) (bufs : list (list byte)) (bi bm bf footer : list byte) : Prop := {
  ti_bytes : bytes = concat bufs ++ bi ++ bm ++ bf ++ footer;
  ti_footer : footer_sealed footer /\ decodeFooter footer (len bytes - FooterSize) = Ok st;
  ti_index : sealed bi /\ len bi = Length (f_index st) /\ decodeIndex (take (length bi - 7) bi) = Ok index;
  ti_metadata : sealed bm /\ len bm = Length (f_metadata st);
  ti_filter : if Length (f_filter st) =? 0 then bf = [] else sealed bf /\ len bf = Length (f_filter st);
  ti_blocks : Forall2 (fun ie b => sealed b /\ len b = Length (i_handle ie)) index bufs
}.
Lemma openReader_tiles f size base maxIndex r : size = len (ra_bytes f) -> openReader f size base maxIndex = Ok r ->
  exists st index bufs bi bm bf footer, tiles (ra_bytes f) st index bufs bi bm bf footer.
Proof.
  intros -> H. unfold openReader in H. ok_inv H. clear H. rename x1 into footer, x2 into st, x6 into index.
  apply require_ok, andb_prop in Hx0 as [Hsize%Z.leb_le _]. unfold FooterSize in *. set (bytes := ra_bytes f) in *.
  apply readAtExact_inv in Hx1 as (Hfooter & _ & _); [|lia|lia]. destruct (decodeFooter_inv _ _ _ Hx2) as [Hsealed [Hs Hi Hm [Hil Hml] Hrest]].
  assert (0 <= Offset (f_index st)) as Ho1 by lia. assert (0 <= Offset (f_metadata st)) as Ho2 by lia. apply readBlock_sealed in Hx5 as (Hbi & Hbil & _ & ->); [|done]. apply readBlock_sealed in Hx7 as (Hbm & Hbml & _ & _); [|done].
  unfold validateDataHandles in Hx11. ok_inv Hx11. apply require_ok, andb_prop in Hx11 as [_ Hend%Z.eqb_eq]. subst. unfold validateDataStream in Hx12. ok_inv Hx12. clear Hx12.
  match goal with H : validate_blocks _ _ _ _ = Ok _ |- _ => apply validate_blocks_inv in H as (bs & Hbs & _) end.
  match goal with H : validate_handles _ _ _ = Ok _ |- _ => destruct (blocks_tile f index bs _ _ _ H Hbs ltac:(done)) as (_ & bufs & Hcat & Hbufs) end. fold bytes in Hcat, Hbi, Hbil, Hbm, Hbml, Hx6.
  set (mend := Offset (f_metadata st) + Length (f_metadata st)) in *. set (off := len bytes - 80) in *.
  exists st, index, bufs, (slice (Z.to_nat (Offset (f_index st))) (Z.to_nat (Offset (f_index st) + Length (f_index st))) bytes),
    (slice (Z.to_nat (Offset (f_metadata st))) (Z.to_nat mend) bytes), (slice (Z.to_nat mend) (Z.to_nat off) bytes), (slice (Z.to_nat off) (Z.to_nat (off + 80)) bytes).
  assert (mend <= off) as Hmo by (revert Hrest; destruct (Length (f_filter st) =? 0); lia).
  split; [|done|done|done| |done].
  - rewrite <- Hcat, Hm, Hi.
    rewrite <- !cut_slices by lia. replace (off + 80) with (len bytes) by lia. rewrite len_to_nat. symmetry. by apply slice_full.
  - revert Hrest Hx10. destruct (Z.eqb_spec (Length (f_filter st)) 0) as [H0|H0]; intros Hrest Hx10; [rewrite Hrest; unfold slice; by rewrite Nat.sub_diag|].
    destruct Hrest as (Hr1 & Hr2 & _). ok_inv Hx10. match goal with H : readBlockUnlocked _ _ blockFilter _ = Ok _ |- _ => apply readBlock_sealed in H as (Hbf & Hbfl & _); [|lia] end.
    fold bytes in Hbf, Hbfl. rewrite Hr2 in Hbf, Hbfl. rewrite Hr1. done.
Qed.
(** A file with one byte changed does not open. *)
Lemma one_diff_rejected b b' st st' index index' bufs bufs' bi bi' bm bm' bf bf' footer footer' :
  tiles b st index bufs bi bm bf footer -> tiles b' st' index' bufs' bi' bm' bf' footer' -> ~ one_diff b b'.
Proof.
  intros [Hb [Hfs Hfd] (Hi1 & Hi2 & Hi3) (Hm1 & Hm2) Hf Hbl] [Hb' [Hfs' Hfd'] (Hi1' & Hi2' & Hi3') (Hm1' & Hm2') Hf' Hbl'] Hd.
  pose proof (one_diff_length _ _ Hd) as Hlen. assert (len b = len b') as Hlen' by (unfold len; by rewrite Hlen). rewrite Hb, Hb', !app_assoc in Hd.
  assert (length footer = 80 /\ length footer' = 80)%nat as [H80 H80'] by (split; [apply Hfs|apply Hfs']).
  apply one_diff_app in Hd as [[Hd ->]|[_ Hd]]; [|by apply (footer_detects footer footer')|].
  2: { rewrite Hb, Hb', !length_app in Hlen. rewrite !length_app. lia. }
  assert (st = st') as -> by (rewrite Hlen', Hfd' in Hfd; by apply Ok_inj in Hfd). clear Hfd Hfd'.
  assert (length bi = length bi' /\ length bm = length bm' /\ length bf = length bf') as (Hli & Hlm & Hlf).
  { revert Hf Hf'. destruct (Length (f_filter st') =? 0); [intros -> ->|intros [_ ?] [_ ?]]; unfold len in *; split_and!; done || lia. }
  assert (length (concat bufs) = length (concat bufs')) as Hlc by (rewrite Hb, Hb', !length_app in Hlen; lia).
  apply one_diff_app in Hd as [[Hd _]|[_ Hd]]; [| |rewrite !length_app; lia].
  2: { revert Hf Hf'. destruct (Length (f_filter st') =? 0); [intros -> ->; by apply one_diff_irrefl in Hd|intros [? _] [? _]; by apply (sealed_detects bf bf')]. }
  apply one_diff_app in Hd as [[Hd _]|[_ Hd]]; [|by apply (sealed_detects bm bm')|rewrite !length_app; lia].
  apply one_diff_app in Hd as [[Hd ->]|[_ Hd]]; [|by apply (sealed_detects bi bi')|done].
  rewrite Hi3' in Hi3. apply Ok_inj in Hi3 as <-.
  assert (Forall2 (fun a b : bytes => length a = length b) bufs bufs') as Hl.
  { clear -Hbl Hbl'. revert bufs' Hbl'. induction Hbl as [|ie a index bufs [_ Ha] _ IH]; intros bufs' Hbl'; inversion_clear Hbl' as [|? a' ? bufs'' [_ Ha'] Hr]; [constructor|].
    constructor; [unfold len in *; lia|by apply IH]. }
  destruct (one_diff_concat _ _ Hl Hd) as (i & a & a' & Ha & Ha' & Hdd).
  destruct (Forall2_lookup_r _ _ _ _ _ Hbl Ha) as (? & _ & Hsa & _). destruct (Forall2_lookup_r _ _ _ _ _ Hbl' Ha') as (? & _ & Hsa' & _). by apply (sealed_detects a a').
Qed.
