(* ===== verification/SSTableProps.v ===== *)
(** * Properties of sorted tables (storage/sstable) *)

From S2P Require Import Prelude Varint InternalKey Crc32c Codec Files MvccStore SSTable SSTableBlock SSTableFormat SSTableWriter SSTableReader SSTableLayout SSTableReads SSTableIterators SSTableRoundTrip SSTableOpen SSTableCorrupt.
Import sstable writer reader.

(** ** File names *)

Lemma parse_uint_app a : forall v b, parse_uint v (a ++ b) = parse_uint v a ≫= fun v' => parse_uint v' b.
Proof. induction a as [|x a IH]; intros v b; cbn [app parse_uint]; [done|]. destruct (_ && _); [apply IH|done]. Qed.
Lemma digit_value z : byte.unsigned (digit z) - 48 = z mod 10.
Proof. unfold digit. pose proof (Z.mod_pos_bound z 10 ltac:(lia)). rewrite unsigned_of_Z_small by lia. lia. Qed.
Lemma parse_digits n : forall v z, 0 <= z < 10 ^ Z.of_nat n -> parse_uint v (digits n z) = Some (v * 10 ^ Z.of_nat n + z).
Proof.
  induction n as [|n IH]; intros v z Hz; cbn [digits]; [cbn [parse_uint]; f_equal; change (10 ^ Z.of_nat 0) with 1 in *; lia|].
  rewrite Nat2Z.inj_succ, Z.pow_succ_r in * by lia. rewrite parse_uint_app, IH by (split; [apply Z.div_pos; lia|apply Z.div_lt_upper_bound; lia]).
  cbn [mbind option_bind parse_uint]. rewrite digit_value. pose proof (Z.mod_pos_bound z 10 ltac:(lia)). pose proof (Z.div_mod z 10 ltac:(lia)).
  rewrite (proj2 (Z.leb_le 0 _)), (proj2 (Z.leb_le _ 9)) by lia. cbn [andb]. f_equal. lia.
Qed.
Lemma digits_length n : forall z, length (digits n z) = n.
Proof. induction n as [|n IH]; intros z; cbn [digits]; [done|]. rewrite length_app, IH. cbn. lia. Qed.
Lemma parse_FileName number : 1 <= number <= MaxFileNumber -> parseFileNumber (FileName number) = number.
Proof.
  intros Hn. unfold parseFileNumber, FileName. unfold len. rewrite length_app, digits_length.
  rewrite (drop_app_length' _ _ 12), (take_app_length' _ _ 12), bytes_eqb_refl by (by rewrite digits_length).
  change (negb (Z.of_nat (12 + length suffix) =? 16)) with false. cbn [negb orb].
  change MaxFileNumber with (10 ^ 12 - 1) in *. rewrite (parse_digits 12) by (change (Z.of_nat 12) with 12; lia). rewrite Z.mul_0_l, Z.add_0_l.
  rewrite (proj2 (Z.eqb_neq _ 0)), (proj2 (Z.ltb_ge _ number)) by lia. done.
Qed.

(** ** Reads *)

(** C17. Whatever file [openReader] accepts is a table in strictly increasing
    internal-key order of well-formed keys.  Through any file of the same
    bytes, however its reads fail, [Seek], [Get] and [GetCandidate] (with its
    Bloom filter) return what the reference reads of the table's contents
    return, and iterating over [Range] to the end yields exactly the entries of
    the range in order, or the call reports a failed read of the file; a
    failure is reported only when the file has faults. *)
Theorem table_reads f size base maxIndex r f' :
  openReader f size base maxIndex = Ok r -> same_bytes f f' ->
  store_sorted (table_contents r) /\ Forall (fun e => key_wf e.1) (table_contents r) /\
  (forall target, flaky f' (Seek (with_file f' r) target) (not_found (head (lower_bound target (table_contents r))))) /\
  (forall key, flaky f' (Get (with_file f' r) key) (not_found ((fun v => (key, v)) <$> MvccStore.get key (table_contents r)))) /\
  (forall user target, len user <= MaxUserKeySize ->
     flaky f' (GetCandidate (with_file f' r) user target) (not_found (candidate user target (table_contents r)))) /\
  (forall fuel start endKey, len (default [] start) <= MaxUserKeySize -> len (default [] endKey) <= MaxUserKeySize ->
     match start, endKey with Some s, Some e => bytes_leb s e | _, _ => true end = true -> (length (table_contents r) < fuel)%nat ->
     flaky f' (collect fuel (with_file f' r) (Range (with_file f' r) start endKey)) (Ok (filter (in_range start endKey) (table_contents r)))).
Proof.
  intros Ho Hs. destruct (openReader_ok _ _ _ _ _ Ho) as (bs & Hok & Hf & _). rewrite <- Hf in Hs. rewrite (table_contents_ok r bs Hok).
  split_and!; [by eapply table_entries_sorted|by eapply table_entries_wf| | | |]; intros.
  - by apply Seek_spec.
  - by apply Get_spec.
  - by apply GetCandidate_spec.
  - by apply table_Range_spec.
Qed.

(** ** The round trip *)

(** The length of the index block, from the footer of a table. *)
Definition index_length (b : bytes) : Z := Length (handle_at (drop (length b - 80) b) 0).
Lemma index_length_image interval bloom gs fp : groups_ok interval bloom gs fp -> index_length (table_image interval gs fp) = Length (f_index (footer_state interval gs fp)).
Proof.
  intros Hok. pose proof (image_footer_ok _ _ _ _ Hok) as Hfo. unfold index_length. set (image := table_image interval gs fp) in *. set (st := footer_state interval gs fp) in *.
  assert (drop (length image - 80) image = encode_state st) as ->.
  { unfold image, table_image. rewrite !app_assoc. apply drop_app_length'. rewrite !length_app. pose proof (footer_len st) as Hl. unfold len, FooterSize in Hl. fold st. lia. }
  f_equal. apply (fl_index _ _ (encode_state_layout st (footer_ok_u64 _ _ Hfo))).
Qed.

(** C18. A table written by any calls of [Add] (rejected ones included) and a
    successful [Finish] is on disk when [Finish] returns.  [openReader] then
    accepts it and serves exactly the entries that were accepted, with the
    metadata [Finish] returned; the only exception is an index block above the
    reader's limit, which is refused with [ErrResourceLimit]. *)
Theorem table_roundtrip `{HP : Publication} `{!FileLaws} f s number size interval bloom calls w acc w' meta maxIndex :
  contents f = [] -> 1 <= number <= MaxFileNumber -> Forall (fun e => key_wf e.1) calls ->
  adds calls (newWriter f s number size interval bloom) = (w, acc) -> Finish w = (w', Ok meta) ->
  let b := contents (file w') in
  let limit := if maxIndex =? 0 then DefaultMaxIndexBlockSize else maxIndex in
  BlockTrailerSize <= limit ->
  durable (file w') >= len b /\
  if index_length b <=? limit then
    exists r, openReader (healthy b) (len b) (FileName number) maxIndex = Ok r /\ table_contents r = acc /\ rd_metadata r = Some meta
  else openReader (healthy b) (len b) (FileName number) maxIndex = Err [ErrResourceLimit].
Proof.
  intros Hf Hn Hwf Hadds Hfin b limit Hlimit.
  assert (failed w <> None \/ holds number interval bloom acc w) as [Hfail|Hh].
  { eapply (adds_spec number interval bloom calls _ []); [right; exists [], []; split; [by apply newWriter_written|done]|done|done]. }
  { pose proof (keeps_adds calls (newWriter f s number size interval bloom)) as Hk. rewrite Hadds in Hk. by destruct (Finish_failed w Hfail Hk w' (Ok meta) Hfin). }
  destruct (Finish_spec number interval bloom w acc w' meta Hh Hfin) as (gs & fp & Hcc & Hok & Hc & Hd & Hm). fold b in Hc, Hd. split; [done|].
  rewrite Hc, (index_length_image _ _ _ _ Hok). pose proof (open_image _ _ _ _ Hok (FileName number) maxIndex Hlimit) as Ho. fold limit in Ho.
  destruct (_ <=? limit); [|done]. destruct Ho as (r & Hr & Hrf & Hri & Hrm). exists r. split_and!; [done| |by rewrite Hrm, parse_FileName, Hm].
  destruct (openReader_ok _ _ _ _ _ Hr) as (bs & Ht & _). rewrite <- Hcc. by apply (image_contents _ _ _ _ Hok r bs).
Qed.

(** ** Corruption *)

(** C32. One changed byte anywhere in a table (a data block, the index, the
    metadata, the filter, a trailer or the footer) is noticed: if a file opens,
    a file that differs from it in exactly one byte does not. *)
Theorem table_corruption_detected f base maxIndex r f' base' maxIndex' :
  openReader f (len (ra_bytes f)) base maxIndex = Ok r -> one_diff (ra_bytes f) (ra_bytes f') ->
  exists e, openReader f' (len (ra_bytes f')) base' maxIndex' = Err e.
Proof.
  intros Ho Hd. destruct (openReader f' (len (ra_bytes f')) base' maxIndex') as [r'|e] eqn:Ho'; [|by exists e].
  apply openReader_tiles in Ho as (st & index & bufs & bi & bm & bf & footer & Ht); [|done]. apply openReader_tiles in Ho' as (st' & index' & bufs' & bi' & bm' & bf' & footer' & Ht'); [|done].
  by destruct (one_diff_rejected _ _ _ _ _ _ _ _ _ _ _ _ _ _ _ _ Ht Ht' Hd).
Qed.

(** ** An example *)

Module Example.
#[local] Existing Instances disk_file disk_laws.
#[local] Instance disk_publication : Publication := {|
  FS := unit; rename s := (s, false); remove s := (s, None); openDirectory s := (s, Some tt) |}.
Definition ikey (user : byte) (seq : Z) (k : ValueKind) : InternalKey := {| userKey := [user]; sequence := seq; kind := k |}.
(** The second call repeats a key and the third is out of order. *)
Definition calls : list entry :=
  [(ikey Byte.x61 7 KindValue, [Byte.x78]); (ikey Byte.x61 7 KindValue, [Byte.x79]); (ikey Byte.x61 9 KindValue, []);
   (ikey Byte.x61 5 KindDelete, []); (ikey Byte.x62 9 KindValue, [Byte.x7a])].
Definition start : Writer := newWriter {| d_bytes := []; d_synced := 0; d_capacity := 1000 |} tt 42 24 2 true.
Definition filled : Writer * store := adds calls start.
Definition finished : Writer * res Metadata := Finish filled.1.
Definition image : bytes := contents (file finished.1).
Definition meta : Metadata := match finished.2 with Ok m => m | Err _ => metadata_of 0 [] 0 end.
(** A file of the same bytes that fails the read of the first block. *)
Definition failing : randomAccessFile := {| ra_bytes := image; ra_fault := fun o _ => if o =? 0 then Some Failed else None; ra_later := fun _ _ => None |}.
End Example.
Import Example.
#[local] Existing Instances disk_file disk_laws disk_publication.

Lemma table_roundtrip_witness : durable (file Example.finished.1) >= len image /\
  exists r, openReader (healthy image) (len image) (FileName 42) 0 = Ok r /\
    table_contents r = [(ikey Byte.x61 7 KindValue, [Byte.x78]); (ikey Byte.x61 5 KindDelete, []); (ikey Byte.x62 9 KindValue, [Byte.x7a])] /\
    rd_metadata r = Some meta.
Proof.
  destruct (table_roundtrip (HP := disk_publication) (H0 := disk_laws) {| d_bytes := []; d_synced := 0; d_capacity := 1000 |} tt 42 24 2 true calls filled.1 filled.2 Example.finished.1 meta 0) as [Hd Ho].
  - done.
  - by split.
  - repeat constructor; by vm_compute.
  - exact (surjective_pairing filled).
  - vm_compute. reflexivity.
  - by vm_compute.
  - split; [exact Hd|]. assert (index_length image <=? DefaultMaxIndexBlockSize = true) as E by (vm_compute; reflexivity).
    change (contents (file Example.finished.1)) with image in Ho. cbn [Z.eqb] in Ho. rewrite E in Ho.
    assert (filled.2 = [(ikey Byte.x61 7 KindValue, [Byte.x78]); (ikey Byte.x61 5 KindDelete, []); (ikey Byte.x62 9 KindValue, [Byte.x7a])]) as Hacc by (vm_compute; reflexivity).
    rewrite Hacc in Ho. exact Ho.
Defined.
Lemma table_reads_witness : exists r, openReader (healthy image) (len image) (FileName 42) 0 = Ok r /\
  store_sorted (table_contents r) /\
  flaky failing (GetCandidate (with_file failing r) [Byte.x61] 6) (not_found (candidate [Byte.x61] 6 (table_contents r))).
Proof.
  destruct (openReader (healthy image) (len image) (FileName 42) 0) as [r|e] eqn:Ho; [|vm_compute in Ho; discriminate].
  exists r. destruct (table_reads _ _ _ _ r failing Ho eq_refl) as (Hs & _ & _ & _ & Hc & _). split_and!; [done|exact Hs|]. by apply Hc.
Defined.
Lemma table_corruption_detected_witness :
  exists e, openReader (healthy (take 10 image ++ Byte.x41 :: drop 11 image)) (len (take 10 image ++ Byte.x41 :: drop 11 image)) (FileName 42) 0 = Err e.
Proof.
  destruct (openReader (healthy image) (len image) (FileName 42) 0) as [r|e] eqn:Ho; [|vm_compute in Ho; discriminate].
  apply (table_corruption_detected (healthy image) (FileName 42) 0 r (healthy (take 10 image ++ Byte.x41 :: drop 11 image)) (FileName 42) 0 Ho).
  exists (take 10 image), (default Byte.x00 (image !! 10%nat)), Byte.x41, (drop 11 image). split; [vm_compute; reflexivity|].
  split; [done|].
  intros Hx. vm_compute in Hx. discriminate Hx.
Defined.
