(* ===== verification/Merge.v ===== *)
(** * Merging of ordered iterators (storage/compaction/merge.go)

    A heap of cursors, one per input, yields the entries of all inputs in the
    order of their internal keys.  The inputs implement one interface; the
    iterators of sorted tables and of memtables are its instances. *)

From S2P Require Import Prelude InternalKey Loops Files MvccStore SSTable SSTableWriter SSTableReader MemTable Heap.

Module merge.

Inductive compaction_error :=
  | ErrInvalidOptions | ErrNoCompaction | ErrInvalidPlan | ErrStalePlan | ErrInputCorrupt | ErrDuplicateInternalKey | ErrClosed
  | ErrInvalidTransition.
#[export] Instance compaction_error_eq_dec : EqDecision compaction_error.
Proof. solve_decision. Defined.

(** [EntryIterator]; an error is a list of sentinels.  The error of [Close]
    is joined to others, [[]] is nil there. *)
Class EntryIterator (I E : Type) := {
  it_Next : I -> I * bool;
  it_Entry : I -> option entry;
  it_Error : I -> option (list E);
  it_Close : I -> I * list E
}.

Section merge.
Context {I E : Type} `{EntryIterator I E}.

Inductive merge_error := Merge (e : compaction_error) | Input (e : E).
Abbreviation errors := (list merge_error).

(** A nil iterator is [None]. *)
Record MergeInput := mkInput { mi_FileNumber : Z; mi_Iterator : option I }.
(** The iterator of a cursor is the one of the input with its ordinal: both
    hold the same pointer. *)
Record cursor := mkCursor { cu_entry : entry; cu_file : Z; cu_ordinal : nat }.
Definition Less (a b : cursor) : bool :=
  match CompareInternal (cu_entry a).1 (cu_entry b).1 with
  | Lt => true
  | Gt => false
  | Eq => if negb (cu_file a =? cu_file b) then cu_file a <? cu_file b else Nat.ltb (cu_ordinal a) (cu_ordinal b)
  end.

Record MergeIterator := mkMerge {
  m_heap : list cursor; m_inputs : list MergeInput; m_current : entry; m_currentFile : Z; m_valid : bool; m_closed : bool; m_err : option errors
}.
Definition zero_entry : entry := ({| userKey := []; sequence := 0; kind := KindDelete |}, []).
Definition set_iterator (ordinal : nat) (it : I) (m : MergeIterator) : MergeIterator :=
  mkMerge (m_heap m) (alter (fun input => mkInput (mi_FileNumber input) (Some it)) ordinal (m_inputs m)) (m_current m) (m_currentFile m)
    (m_valid m) (m_closed m) (m_err m).
Definition push (c : cursor) (m : MergeIterator) : MergeIterator :=
  mkMerge (heap.Push Less c (m_heap m)) (m_inputs m) (m_current m) (m_currentFile m) (m_valid m) (m_closed m) (m_err m).
Definition fail (e : errors) (m : MergeIterator) : MergeIterator :=
  mkMerge (m_heap m) (m_inputs m) (m_current m) (m_currentFile m) false (m_closed m) (Some e).

(** The loop of [Close]: [None] is the panic on a nil iterator. *)
Fixpoint close_inputs (inputs : list MergeInput) : option (list MergeInput * errors) :=
  match inputs with
  | [] => Some ([], [])
  | input :: inputs =>
      it ← mi_Iterator input;
      let '(it, err) := it_Close it in
      '(inputs, errs) ← close_inputs inputs;
      Some (mkInput (mi_FileNumber input) (Some it) :: inputs, (Input <$> err) ++ errs)
  end.
Definition Close (m : MergeIterator) : option (MergeIterator * errors) :=
  if m_closed m then Some (m, [])
  else
    '(inputs, errs) ← close_inputs (m_inputs m);
    Some (mkMerge (m_heap m) inputs (m_current m) (m_currentFile m) (m_valid m) true (m_err m), errs).

(** [if closeErr := m.Close(); closeErr != nil { return nil, closeErr }; return nil, err] *)
Definition abandon (m : MergeIterator) (err : errors) : option (result errors MergeIterator) :=
  '(_, closeErr) ← Close m; Some (Err (match closeErr with [] => err | _ => closeErr end)).
(** The loop that reads the first entry of every input. *)
Fixpoint prime (ordinals : list nat) (m : MergeIterator) : option (result errors MergeIterator) :=
  match ordinals with
  | [] => Some (Ok m)
  | ordinal :: ordinals =>
      input ← m_inputs m !! ordinal;
      match mi_Iterator input with
      | None => abandon m [Merge ErrInvalidOptions]
      | Some it =>
          let '(it, more) := it_Next it in
          let m := set_iterator ordinal it m in
          if more : bool then
            match it_Entry it with
            | None => abandon m [Merge ErrInputCorrupt]
            | Some e => prime ordinals (push (mkCursor e (mi_FileNumber input) ordinal) m)
            end
          else
            match it_Error it with
            | None => prime ordinals m
            | Some err => abandon m (Input <$> err)
            end
      end
  end.
Definition NewMergeIterator (inputs : list MergeInput) : option (result errors MergeIterator) :=
  prime (seq 0 (length inputs)) (mkMerge [] inputs zero_entry 0 false false None).

Definition Next (m : MergeIterator) : option (MergeIterator * bool) :=
  if m_closed m || match m_err m with None => false | Some _ => true end || (len (m_heap m) =? 0) then Some (m, false)
  else
    '(item, h) ← heap.Pop Less (m_heap m);
    let m := mkMerge h (m_inputs m) (cu_entry item) (cu_file item) true (m_closed m) (m_err m) in
    input ← m_inputs m !! cu_ordinal item;
    it ← mi_Iterator input;
    let '(it, more) := it_Next it in
    let m := set_iterator (cu_ordinal item) it m in
    if more : bool then
      match it_Entry it with
      | None => Some (fail [Merge ErrInputCorrupt] m, false)
      | Some e => Some (push (mkCursor e (cu_file item) (cu_ordinal item)) m, true)
      end
    else
      match it_Error it with
      | None => Some (m, true)
      | Some err => Some (fail (Input <$> err) m, false)
      end.
Definition Entry (m : MergeIterator) : option entry := if negb (m_valid m) || m_closed m then None else Some (m_current m).
Definition SourceFileNumber (m : MergeIterator) : option Z := if negb (m_valid m) || m_closed m then None else Some (m_currentFile m).

(** [for m.Next() { body }]: the body goes on with a state or returns. *)
Fixpoint for_each {S R} (fuel : nat) (body : S -> MergeIterator -> S + R) (s : S) (m : MergeIterator) : option ((S + R) * MergeIterator) :=
  match fuel with
  | O => None
  | Datatypes.S fuel' =>
      '(m, more) ← Next m;
      if more : bool then
        match body s m with
        | inl s => for_each fuel' body s m
        | inr r => Some (inr r, m)
        end
      else Some (inl s, m)
  end.
End merge.
Arguments merge_error : clear implicits.
Arguments MergeInput : clear implicits.
Arguments MergeIterator : clear implicits.
End merge.
