(* ===== verification/MergeProofs.v ===== *)
(** * What a merge yields

    Proved against the interface of the inputs: an iterator that is ahead of a
    sorted list yields it, unless it fails.  The merge of such iterators never
    panics and yields the entries of all of them in the order of internal
    key, file number and input, until an input fails. *)

From S2P Require Import Prelude InternalKey Loops MvccStore Heap Merge.
Import merge.

(** ** The order of cursors *)

Definition cursor_compare (a b : cursor) : comparison :=
  then_by (CompareInternal (cu_entry a).1 (cu_entry b).1) (then_by (cu_file a ?= cu_file b) (Nat.compare (cu_ordinal a) (cu_ordinal b))).
Lemma Less_compare a b : Less a b = match cursor_compare a b with Lt => true | _ => false end.
Proof.
  unfold Less, cursor_compare. destruct (CompareInternal _ _); [|done..]. cbn [then_by].
  destruct (Z.compare_spec (cu_file a) (cu_file b)) as [He|Hl|Hg]; cbn [then_by].
  - rewrite He, Z.eqb_refl. cbn [negb]. destruct (Nat.compare_spec (cu_ordinal a) (cu_ordinal b)); [apply Nat.ltb_ge|apply Nat.ltb_lt|apply Nat.ltb_ge]; lia.
  - rewrite (proj2 (Z.eqb_neq _ _)) by lia. cbn. by apply Z.ltb_lt.
  - rewrite (proj2 (Z.eqb_neq _ _)) by lia. cbn. apply Z.ltb_ge. lia.
Qed.
Lemma cursor_antisym a b : cursor_compare b a = CompOpp (cursor_compare a b).
Proof.
  unfold cursor_compare. rewrite !then_by_opp. rewrite (compare_antisym (cu_entry a).1), (Z.compare_antisym (cu_file a)), (Nat.compare_antisym (cu_ordinal a)). done.
Qed.
Lemma then_by_lt_trans (c1 c2 c3 d1 d2 d3 : comparison) :
  (c1 = Eq -> c3 = c2) -> (c2 = Eq -> c3 = c1) -> (c1 = Lt -> c2 = Lt -> c3 = Lt) -> (d1 = Lt -> d2 = Lt -> d3 = Lt) ->
  then_by c1 d1 = Lt -> then_by c2 d2 = Lt -> then_by c3 d3 = Lt.
Proof. destruct c1, c2; cbn; intros H1 H2 H3 H4; try done; rewrite ?H1, ?H2, ?H3 by done; cbn; auto. Qed.
Lemma cursor_lt_trans a b c : cursor_compare a b = Lt -> cursor_compare b c = Lt -> cursor_compare a c = Lt.
Proof.
  unfold cursor_compare. apply then_by_lt_trans; [by intros ->%compare_eq|by intros ->%compare_eq|apply compare_lt_trans|].
  apply then_by_lt_trans; rewrite ?Z.compare_eq_iff, ?Z.compare_lt_iff, ?Nat.compare_lt_iff; [by intros ->|by intros ->|lia|lia].
Qed.
Lemma cursor_compare_eq a b : cursor_compare a b = Eq <-> (cu_entry a).1 = (cu_entry b).1 /\ cu_file a = cu_file b /\ cu_ordinal a = cu_ordinal b.
Proof. unfold cursor_compare. by rewrite !then_by_Eq, compare_eq, Z.compare_eq_iff, Nat.compare_eq_iff. Qed.
Lemma cursor_compare_eq_l a b c : cursor_compare a b = Eq -> cursor_compare a c = cursor_compare b c.
Proof. intros (H1 & H2 & H3)%cursor_compare_eq. unfold cursor_compare. by rewrite H1, H2, H3. Qed.
Lemma cursor_le_trans a b c : cursor_compare a b <> Gt -> cursor_compare b c <> Gt -> cursor_compare a c <> Gt.
Proof.
  intros Hab Hbc. destruct (cursor_compare a b) eqn:H1; [by rewrite (cursor_compare_eq_l a b c H1)| |done].
  destruct (cursor_compare b c) eqn:H2; [|by rewrite (cursor_lt_trans a b c)|done].
  assert (cursor_compare c b = Eq) as H3 by (rewrite cursor_antisym, H2; done). rewrite (cursor_antisym c a), (cursor_compare_eq_l c b a H3), (cursor_antisym a b), H1. done.
Qed.
(** The heap's order is the order of the comparator. *)
Lemma heap_le a b : heap.le Less a b <-> cursor_compare a b <> Gt.
Proof. unfold heap.le. rewrite Less_compare, (cursor_antisym a b). destruct (cursor_compare a b); naive_solver. Qed.
Lemma heap_le_trans a b c : heap.le Less a b -> heap.le Less b c -> heap.le Less a c.
Proof. rewrite !heap_le. apply cursor_le_trans. Qed.
Lemma heap_less_le a b : Less a b = true -> heap.le Less a b.
Proof. rewrite heap_le, Less_compare. by destruct (cursor_compare a b). Qed.

(** ** Laws of the inputs *)

(** [ahead it l]: [it] has still to yield [l]; it may fail only if it is
    [unreliable]. *)
Class IteratorLaws (I E : Type) `{EntryIterator I E} := {
  ahead : I -> list entry -> Prop;
  unreliable : I -> Prop;
  next_law it l : ahead it l -> forall it' more, it_Next it = (it', more) ->
    more = false /\ it_Error it' <> None /\ unreliable it \/
    it_Error it' = None /\ (unreliable it' -> unreliable it) /\
      match l with [] => more = false | e :: l' => more = true /\ it_Entry it' = Some e /\ ahead it' l' end;
  close_law it : (it_Close it).2 = []
}.

Section merging.
Context {I E : Type} `{Laws : IteratorLaws I E}.

Definition tag (file : Z) (ordinal : nat) (e : entry) : cursor := mkCursor e file ordinal.
(** What an input still holds: the cursor in the heap and what its iterator
    is ahead of. *)
Definition input_holds (ordinal : nat) (input : MergeInput I) (cs : list cursor) : Prop :=
  match cs with
  | [] => True
  | c :: cs' => exists e l it, c = tag (mi_FileNumber input) ordinal e /\ cs' = tag (mi_FileNumber input) ordinal <$> l /\
      store_sorted (e :: l) /\ mi_Iterator input = Some it /\ ahead it l
  end.
Record merging (m : MergeIterator I E) (st : list (list cursor)) : Prop := {
  mg_open : m_closed m = false;
  mg_err : m_err m = None;
  mg_heap : heap.heap_ok Less (length (m_heap m)) (m_heap m);
  mg_heads : m_heap m ≡ₚ omap head st;
  mg_length : length st = length (m_inputs m);
  mg_inputs : forall i input cs, m_inputs m !! i = Some input -> st !! i = Some cs -> input_holds i input cs
}.
(** Some input may fail. *)
Definition may_fail (m : MergeIterator I E) : Prop := exists i input it, m_inputs m !! i = Some input /\ mi_Iterator input = Some it /\ unreliable it.

Lemma heads_middle (st1 st2 : list (list cursor)) cs : omap head (st1 ++ cs :: st2) ≡ₚ option_list (head cs) ++ omap head (st1 ++ st2).
Proof.
  rewrite !omap_app. cbn. destruct cs as [|c cs]; cbn; [done|]. symmetry. apply Permutation_middle.
Qed.
Lemma concat_middle (st1 st2 : list (list cursor)) cs : concat (st1 ++ cs :: st2) ≡ₚ cs ++ concat (st1 ++ st2).
Proof. rewrite !concat_app. cbn. rewrite !app_assoc. by rewrite (Permutation_app_comm (concat st1) cs). Qed.
Lemma split_at {A} (l : list A) i x : l !! i = Some x -> exists l1 l2, l = l1 ++ x :: l2 /\ length l1 = i /\ forall y, <[i:=y]> l = l1 ++ y :: l2.
Proof.
  intros Hi. exists (take i l), (drop (S i) l). assert (length (take i l) = i) as Hl by (rewrite length_take; apply lookup_lt_Some in Hi; lia).
  split; [by rewrite take_drop_middle|]. split; [done|]. intros y. rewrite <- (take_drop_middle l i x Hi) at 1.
  rewrite insert_app_r_alt by lia. by rewrite Hl, Nat.sub_diag.
Qed.
Lemma input_cursors i input cs : input_holds i input cs ->
  Forall (fun c => cu_ordinal c = i /\ cu_file c = mi_FileNumber input) cs /\ StronglySorted (fun a b => cursor_compare a b = Lt) cs.
Proof.
  destruct cs as [|c cs]; [by split; constructor|]. intros (e & l & it & -> & -> & Hs & _). cbn. change (_ :: _) with (tag (mi_FileNumber input) i <$> e :: l).
  split; [by apply Forall_fmap, Forall_true|]. generalize (e :: l), Hs. clear. intros l. induction 1 as [|a l Hl IH Ha]; cbn; constructor; [done|].
  apply Forall_fmap. eapply Forall_impl; [exact Ha|]. intros b Hb. unfold cursor_compare. cbn. unfold entry_lt, key_lt in Hb. by rewrite Hb.
Qed.
Lemma holds_input m st i cs : merging m st -> st !! i = Some cs -> exists input, m_inputs m !! i = Some input /\ input_holds i input cs.
Proof.
  intros Hm Hi. destruct (lookup_lt_is_Some_2 (m_inputs m) i) as [input Hin]; [rewrite <- (mg_length _ _ Hm); by apply lookup_lt_Some in Hi|].
  exists input. split; [done|]. by apply (mg_inputs _ _ Hm).
Qed.
Lemma least_pending m st x : merging m st -> Forall (heap.le Less x) (m_heap m) -> Forall (fun y => cursor_compare x y <> Gt) (concat st).
Proof.
  intros Hm Hx. apply Forall_forall. intros y (cs & [i Hi]%list_elem_of_lookup & Hy)%elem_of_concat. destruct (holds_input m st i cs Hm Hi) as (input & _ & Hin).
  apply input_cursors in Hin as [_ Hs]. destruct cs as [|c cs]; [by apply elem_of_nil in Hy|].
  assert (cursor_compare x c <> Gt) as Hc.
  { apply heap_le. rewrite Forall_forall in Hx. apply Hx. rewrite (mg_heads _ _ Hm). apply list_elem_of_omap. exists (c :: cs). split; [by eapply list_elem_of_lookup_2|done]. }
  apply elem_of_cons in Hy as [->|Hy]; [done|]. apply StronglySorted_inv in Hs as [_ Hs]. rewrite Forall_forall in Hs.
  apply (cursor_le_trans _ c); [done|]. by rewrite Hs.
Qed.
(** The input of a cursor in the heap. *)
Lemma heap_input m st x : merging m st -> x ∈ m_heap m -> exists cs input, st !! cu_ordinal x = Some (x :: cs) /\
  m_inputs m !! cu_ordinal x = Some input /\ input_holds (cu_ordinal x) input (x :: cs).
Proof.
  intros Hm. rewrite (mg_heads _ _ Hm). intros (cs & [i Hi]%list_elem_of_lookup & Hh)%list_elem_of_omap. destruct cs as [|c cs]; [done|]. injection Hh as ->.
  destruct (holds_input m st i _ Hm Hi) as (input & Hin & Hho). pose proof (input_cursors _ _ _ Hho) as [[[<- _] _]%Forall_cons _]. eauto.
Qed.

(** The state after the iterator of input [i] moved. *)
Lemma moved m st i old input it' new h e z b : merging m st -> st !! i = Some old -> m_inputs m !! i = Some input ->
  heap.heap_ok Less (length h) h -> h ≡ₚ option_list (head new) ++ omap head (Delete i st) ->
  input_holds i (mkInput (mi_FileNumber input) (Some it')) new ->
  merging (mkMerge h (alter (fun input => mkInput (mi_FileNumber input) (Some it')) i (m_inputs m)) e z b false None) (<[i:=new]> st).
Proof.
  intros Hm Hi Hin Hh Hp Hho. split; cbn; [done|done|done| |by rewrite length_insert, length_alter, (mg_length _ _ Hm)|].
  - destruct (split_at st i _ Hi) as (st1 & st2 & -> & Hl & Hins). rewrite Hins, heads_middle, Hp. unfold Delete.
    rewrite take_app_length', drop_app_ge by lia. by replace (S i - length st1)%nat with 1%nat by lia.
  - intros j input' cs'. destruct (decide (i = j)) as [<-|Hne].
    + rewrite list_lookup_alter_eq, Hin, list_lookup_insert_eq by (by apply lookup_lt_Some in Hi). by intros [= <-] [= <-].
    + rewrite list_lookup_alter_ne, list_lookup_insert_ne by done. apply (mg_inputs _ _ Hm).
Qed.

Lemma heads_nil (st : list (list cursor)) : omap head st = [] -> concat st = [].
Proof. induction st as [|[|c cs] st IH]; cbn; [done|apply IH|done]. Qed.
Lemma may_fail_moved m i input it it' h e z b c err : m_inputs m !! i = Some input -> mi_Iterator input = Some it -> (unreliable it' -> unreliable it) ->
  may_fail (mkMerge h (alter (fun input => mkInput (mi_FileNumber input) (Some it')) i (m_inputs m)) e z b c err) -> may_fail m.
Proof.
  intros Hin Hit Hu (j & input' & it'' & Hj & Hit'' & Hf). cbn in Hj. destruct (decide (i = j)) as [<-|Hne].
  - rewrite list_lookup_alter_eq, Hin in Hj. cbn in Hj. injection Hj as <-. injection Hit'' as <-. exists i, input, it. auto.
  - rewrite list_lookup_alter_ne in Hj by done. by exists j, input', it''.
Qed.

(** One call of [Next]. *)
Definition stepped (m : MergeIterator I E) (st : list (list cursor)) : Prop :=
  exists x m' st', Next m = Some (m', true) /\ merging m' st' /\ concat st ≡ₚ x :: concat st' /\
    Forall (fun y => cursor_compare x y <> Gt) (concat st) /\ Entry m' = Some (cu_entry x) /\ SourceFileNumber m' = Some (cu_file x) /\
    (may_fail m' -> may_fail m).
Lemma Next_merge m st : merging m st ->
  concat st = [] /\ Next m = Some (m, false) \/ stepped m st \/ exists m', Next m = Some (m', false) /\ m_err m' <> None /\ may_fail m.
Proof.
  intros Hm. unfold stepped, Next. rewrite (mg_open _ _ Hm), (mg_err _ _ Hm). cbn [orb]. destruct (decide (m_heap m = [])) as [Hn|Hn].
  { left. rewrite Hn. split; [|done]. apply heads_nil, Permutation_nil_r. by rewrite <- (mg_heads _ _ Hm), Hn. }
  right. rewrite (proj2 (Z.eqb_neq _ _)) by (destruct (m_heap m); [done|unfold len; cbn; lia]).
  destruct (heap.Pop_spec Less heap_le_trans heap_less_le (m_heap m) (mg_heap _ _ Hm) Hn) as (x & h & -> & Hp & Hh & Hx). cbn [mbind option_bind].
  destruct (heap_input m st x Hm) as (cs & input & Hi & Hin & Hho); [rewrite Hp; left|]. cbn [m_inputs]. rewrite Hin. cbn [mbind option_bind].
  set (i := cu_ordinal x) in *. pose proof Hho as (e & l & it & Hxe & -> & Hs & Hit & Ha). rewrite Hit. cbn [mbind option_bind].
  apply (least_pending m st x Hm) in Hx. destruct (it_Next it) as [it' more] eqn:Hnext. unfold set_iterator. cbn.
  destruct (next_law it l Ha it' more Hnext) as [(-> & He & Hu)|(He & Hu & Hl)].
  { right. destruct (it_Error it') as [err|]; [|done]. eexists. split; [reflexivity|]. split; [done|]. by exists i, input, it. }
  assert (h ≡ₚ omap head (Delete i st)) as Hrest.
  { apply (Permutation_cons_inv (a := x)). rewrite <- Hp, (mg_heads _ _ Hm). by rewrite (Delete_Permutation st i _ Hi) at 1. }
  left. exists x. destruct l as [|e' l].
  - rewrite Hl, He. eexists _, (<[i:=[]]> st). split; [reflexivity|]. split; [by eapply moved|]. split; [|split; [done|split; [done|split; [done|]]]].
    + destruct (split_at st i _ Hi) as (st1 & st2 & -> & _ & ->). by rewrite !concat_middle.
    + by eapply may_fail_moved.
  - destruct Hl as (-> & -> & Ha'). eexists _, (<[i:=tag (mi_FileNumber input) i <$> e' :: l]> st). split; [reflexivity|].
    assert (cu_file x = mi_FileNumber input) as -> by by rewrite Hxe. unfold push. cbn [m_heap m_inputs m_current m_currentFile m_valid m_closed m_err].
    destruct (heap.Push_spec Less heap_le_trans heap_less_le (mkCursor e' (mi_FileNumber input) i) h Hh) as [Hpush Hph].
    split; [|split; [|split; [done|split; [done|split; [done|]]]]].
    + replace (mi_FileNumber input) with (cu_file x) at 2 by by rewrite Hxe.
      eapply moved; [done..|by rewrite Hpush, Hrest|]. exists e', l, it'. split; [done|]. split; [done|]. apply StronglySorted_inv in Hs as [Hs _]. done.
    + destruct (split_at st i _ Hi) as (st1 & st2 & -> & _ & ->). by rewrite !concat_middle.
    + by eapply may_fail_moved.
Qed.

(** ** The whole merge *)

(** The pending cursors in the order of the heap. *)
Definition merge_order (st : list (list cursor)) : list cursor := SortFunc cursor_compare (concat st).
Lemma pending_ties m st a b : merging m st -> a ∈ concat st -> b ∈ concat st -> cursor_compare a b = Eq -> a = b.
Proof.
  intros Hm (cs & [i Hi]%list_elem_of_lookup & Ha)%elem_of_concat (cs' & [j Hj]%list_elem_of_lookup & Hb)%elem_of_concat Hc.
  destruct (holds_input m st i cs Hm Hi) as (input & Hin & [Ho Hs]%input_cursors). destruct (holds_input m st j cs' Hm Hj) as (input' & Hin' & [Ho' _]%input_cursors).
  rewrite Forall_forall in Ho, Ho'. pose proof (Ho a Ha) as [Hai _]. pose proof (Ho' b Hb) as [Hbj _].
  pose proof Hc as (_ & _ & Hij)%cursor_compare_eq. assert (j = i) as -> by congruence. assert (cs' = cs) as -> by congruence.
  clear -Hs Ha Hb Hc. induction Hs as [|c cs Hs IH Hall]; [by apply elem_of_nil in Ha|]. rewrite Forall_forall in Hall.
  apply elem_of_cons in Ha as [->|Ha]; apply elem_of_cons in Hb as [->|Hb]; [done| | |auto].
  - specialize (Hall b Hb). congruence.
  - specialize (Hall a Ha). rewrite cursor_antisym, Hc in Hall. done.
Qed.
Lemma order_step m st x cs : merging m st -> concat st ≡ₚ x :: cs -> Forall (fun y => cursor_compare x y <> Gt) (concat st) ->
  merge_order st = x :: SortFunc cursor_compare cs.
Proof.
  intros Hm Hp Hx. apply SortFunc_unique; [apply cursor_antisym|apply cursor_le_trans|intros a b; by apply (pending_ties m st)| |].
  - constructor; [apply SortFunc_sorted; [apply cursor_antisym|apply cursor_le_trans]|]. rewrite SortFunc_Permutation. rewrite Hp in Hx. by apply Forall_cons in Hx as [_ ?].
  - by rewrite SortFunc_Permutation.
Qed.

(** The reference for a loop over a merge. *)
Fixpoint fold_until {S R} (body : S -> cursor -> S + R) (s : S) (cs : list cursor) : S + R :=
  match cs with
  | [] => inl s
  | c :: cs => match body s c with inl s => fold_until body s cs | inr r => inr r end
  end.

Section loop.
Context {S R : Type} (body : S -> MergeIterator I E -> S + R) (body' : S -> cursor -> S + R).
Context (Hbody : forall s m x, Entry m = Some (cu_entry x) -> SourceFileNumber m = Some (cu_file x) -> body s m = body' s x).

(** A loop over the merge is the loop over the sorted entries, cut short by
    the body or by a failing input. *)
Lemma for_each_merge fuel : forall s m st, merging m st -> (length (concat st) < fuel)%nat ->
  exists r m', for_each fuel body s m = Some (r, m') /\
    (m_err m' = None /\ r = fold_until body' s (merge_order st) \/
     m_err m' <> None /\ may_fail m /\ exists k s', r = inl s' /\ fold_until body' s (take k (merge_order st)) = inl s').
Proof using Hbody.
  induction fuel as [|fuel IH]; intros s m st Hm Hf; [lia|]. cbn [for_each].
  destruct (Next_merge m st Hm) as [[Hnil ->]|[(x & m' & st' & -> & Hm' & Hp & Hx & HE & HS & Hu)|(m' & -> & He & Hu)]]; cbn [mbind option_bind].
  - exists (inl s), m. split; [done|]. left. split; [apply Hm|]. unfold merge_order. by rewrite Hnil.
  - rewrite (order_step m st x (concat st') Hm Hp Hx). fold (merge_order st'). rewrite (Hbody s m' x HE HS). apply Permutation_length in Hp. cbn in Hp.
    destruct (body' s x) as [s'|r] eqn:Hb.
    + destruct (IH s' m' st' Hm') as (r & m'' & Hr & [[? ->]|(? & ? & k & s'' & -> & Hk)]); [lia|exists (fold_until body' s' (merge_order st')), m''|exists (inl s''), m''].
      * split; [done|]. left. split; [done|]. cbn. by rewrite Hb.
      * split; [done|]. right. split; [done|]. split; [auto|]. exists (Datatypes.S k), s''. split; [done|]. cbn. by rewrite Hb.
    + exists (inr r), m'. split; [done|]. left. split; [apply Hm'|]. cbn. by rewrite Hb.
  - exists (inl s), m'. split; [done|]. right. split; [done|]. split; [done|]. by exists 0%nat, s.
Qed.
End loop.

(** ** Opening and closing *)

(** No input is nil. *)
Definition live_inputs (m : MergeIterator I E) : Prop := Forall (fun input => is_Some (mi_Iterator input)) (m_inputs m).
Lemma live_alter i it (inputs : list (MergeInput I)) : Forall (fun input => is_Some (mi_Iterator input)) inputs ->
  Forall (fun input => is_Some (mi_Iterator input)) (alter (fun input => mkInput (mi_FileNumber input) (Some it)) i inputs).
Proof. intros Hl. apply Forall_alter; [done|]. cbn. eauto. Qed.
Lemma Next_live m m' b : live_inputs m -> Next m = Some (m', b) -> live_inputs m'.
Proof.
  unfold live_inputs, Next. intros Hl. case_match; [by intros [= <- <-]|]. destruct (heap.Pop Less (m_heap m)) as [[item h]|]; [|done].
  cbn [mbind option_bind m_inputs]. destruct (m_inputs m !! cu_ordinal item) as [input|]; [|done]. cbn [mbind option_bind].
  destruct (mi_Iterator input) as [it|]; [|done]. cbn [mbind option_bind]. destruct (it_Next it) as [it' more].
  destruct more; [destruct (it_Entry it')|destruct (it_Error it')]; intros [= <- <-]; by apply live_alter.
Qed.
Lemma for_each_live {S R} (body : S -> MergeIterator I E -> S + R) fuel : forall s m r m', live_inputs m -> for_each fuel body s m = Some (r, m') -> live_inputs m'.
Proof.
  induction fuel as [|fuel IH]; intros s m r m' Hl; [done|]. cbn. destruct (Next m) as [[m1 more]|] eqn:Hn; [|done]. cbn.
  apply (Next_live _ _ _ Hl) in Hn. destruct more; [|by intros [= <- <-]]. destruct (body s m1); [by apply IH|by intros [= <- <-]].
Qed.
Lemma close_inputs_ok inputs : Forall (fun input => is_Some (mi_Iterator input)) inputs -> exists inputs', close_inputs inputs = Some (inputs', []).
Proof.
  induction 1 as [|input inputs [it Hit] Hl [inputs' IH]]; [by exists []|]. cbn. rewrite Hit. cbn. pose proof (close_law it) as Hc.
  destruct (it_Close it) as [it' err]. cbn in Hc. subst err. rewrite IH. cbn. eauto.
Qed.
Lemma Close_ok m : live_inputs m -> exists m', Close m = Some (m', []).
Proof. intros Hl. unfold Close. destruct (m_closed m); [by exists m|]. destruct (close_inputs_ok _ Hl) as [inputs' ->]. cbn. eauto. Qed.
Lemma abandon_ok m err : live_inputs m -> abandon m err = Some (Err err).
Proof. intros Hl. unfold abandon. destruct (Close_ok m Hl) as [m' ->]. done. Qed.

(** An input before its first entry. *)
Definition ready (input : MergeInput I) (l : list entry) : Prop := exists it, mi_Iterator input = Some it /\ ahead it l /\ store_sorted l.
(** The pending cursors of new inputs. *)
Definition pending (inputs : list (MergeInput I)) (ls : list (list entry)) : list (list cursor) :=
  imap (fun i p => tag (mi_FileNumber p.1) i <$> p.2) (zip inputs ls).
Definition input_may_fail (input : MergeInput I) : Prop := exists it, mi_Iterator input = Some it /\ unreliable it.

Section prime.
Context (inputs : list (MergeInput I)) (ls : list (list entry)) (Hready : Forall2 ready inputs ls).
(** The first [k] inputs are primed. *)
Record primed (k : nat) (m : MergeIterator I E) (st : list (list cursor)) : Prop := {
  pr_merging : merging m st;
  pr_live : live_inputs m;
  pr_done : forall i, (i < k)%nat -> st !! i = pending inputs ls !! i;
  pr_todo : forall i, (k <= i)%nat -> m_inputs m !! i = inputs !! i /\ (i < length st -> st !! i = Some [])%nat;
  pr_fail : may_fail m -> Exists input_may_fail inputs
}.
Lemma pending_lookup i input l : inputs !! i = Some input -> ls !! i = Some l -> pending inputs ls !! i = Some (tag (mi_FileNumber input) i <$> l).
Proof using. intros Hi Hl. unfold pending. rewrite list_lookup_imap, lookup_zip_with, Hi. cbn. by rewrite Hl. Qed.
Lemma primed_start : primed 0 (mkMerge [] inputs zero_entry 0 false false None) (replicate (length inputs) []).
Proof using Hready.
  assert (Forall (fun input => is_Some (mi_Iterator input)) inputs) as Hl by (eapply Forall2_Forall_l; [exact Hready|apply Forall_true; intros l input (it & -> & _); eauto]).
  split; [split| | | |].
  - done.
  - done.
  - intros k Hk. cbn in Hk. lia.
  - cbn. clear. by induction (length inputs).
  - cbn. apply length_replicate.
  - intros i input cs _ [-> _]%lookup_replicate. done.
  - done.
  - lia.
  - intros i _. split; [done|]. rewrite length_replicate. intros Hi. by apply lookup_replicate_2.
  - intros (i & input & it & Hi & Hit & Hu). apply Exists_exists. exists input. split; [by eapply list_elem_of_lookup_2|]. by exists it.
Qed.

Lemma primed_next k m st input l it it' new h e z b : primed k m st -> inputs !! k = Some input -> ls !! k = Some l -> mi_Iterator input = Some it ->
  (unreliable it' -> unreliable it) -> new = (tag (mi_FileNumber input) k <$> l) -> heap.heap_ok Less (length h) h ->
  h ≡ₚ option_list (head new) ++ omap head (Delete k st) -> input_holds k (mkInput (mi_FileNumber input) (Some it')) new ->
  primed (S k) (mkMerge h (alter (fun input => mkInput (mi_FileNumber input) (Some it')) k (m_inputs m)) e z b false None) (<[k:=new]> st).
Proof using Hready.
  intros [Hm Hl Hd Ht Hf] Hk Hlk Hit Hu -> Hh Hp Hho. destruct (Ht k ltac:(lia)) as [Hmk Hnil]. rewrite Hk in Hmk.
  assert (k < length st)%nat as Hlt by (rewrite (mg_length _ _ Hm); by apply lookup_lt_Some in Hmk). specialize (Hnil Hlt).
  split.
  - by eapply moved.
  - by apply live_alter.
  - intros i Hi. destruct (decide (k = i)) as [<-|Hne]; [rewrite list_lookup_insert_eq by done; symmetry; by apply pending_lookup|].
    rewrite list_lookup_insert_ne by done. apply Hd. lia.
  - intros i Hi. cbn. rewrite list_lookup_alter_ne, list_lookup_insert_ne, length_insert by lia. apply Ht. lia.
  - intros Hfail. apply Hf. by eapply may_fail_moved.
Qed.
Lemma prime_spec n : forall k m st, primed k m st -> (k + n = length inputs)%nat ->
  (exists m' st', prime (seq k n) m = Some (Ok m') /\ primed (length inputs) m' st') \/
  exists err, prime (seq k n) m = Some (Err err) /\ Exists input_may_fail inputs.
Proof using Hready.
  induction n as [|n IH]; intros k m st Hpr Hkn; [left; exists m, st; cbn; split; [done|]; by replace (length inputs) with k by lia|].
  cbn [seq prime]. destruct (lookup_lt_is_Some_2 inputs k) as [input Hk]; [lia|]. pose proof Hpr as [Hm Hl Hd Ht Hf]. destruct (Ht k ltac:(lia)) as [Hmk Hnil]. rewrite Hk in Hmk.
  rewrite Hmk. cbn [mbind option_bind]. destruct (Forall2_lookup_l _ _ _ _ _ Hready Hk) as (l & Hlk & it & Hit & Ha & Hs). rewrite Hit.
  destruct (it_Next it) as [it' more] eqn:Hn. assert (live_inputs (set_iterator k it' m)) as Hl' by by apply live_alter.
  assert (k < length st)%nat as Hlt by (rewrite (mg_length _ _ Hm); by apply lookup_lt_Some in Hmk). specialize (Hnil Hlt).
  assert (m_heap m ≡ₚ omap head (Delete k st)) as Hrest by (rewrite (mg_heads _ _ Hm); by rewrite (Delete_Permutation st k _ Hnil) at 1).
  pose proof (mg_open _ _ Hm) as Hc. pose proof (mg_err _ _ Hm) as He0.
  destruct (next_law it l Ha it' more Hn) as [(-> & He & Hu)|(He & Hu & Hcase)].
  { right. destruct (it_Error it') as [err|] eqn:Hee; [|done]. rewrite abandon_ok by done. eexists. split; [done|].
    apply Exists_exists. exists input. split; [by eapply list_elem_of_lookup_2|]. by exists it. }
  destruct l as [|e l].
  - rewrite Hcase, He. destruct (IH (S k) (set_iterator k it' m) (<[k:=[]]> st)) as [?|?]; [|lia|by left|by right].
    unfold set_iterator. rewrite Hc, He0. eapply primed_next; try done. apply Hm.
  - destruct Hcase as (-> & -> & Ha').
    destruct (heap.Push_spec Less heap_le_trans heap_less_le (mkCursor e (mi_FileNumber input) k) (m_heap m) (mg_heap _ _ Hm)) as [Hpush Hph].
    destruct (IH (S k) (push (mkCursor e (mi_FileNumber input) k) (set_iterator k it' m)) (<[k:=tag (mi_FileNumber input) k <$> e :: l]> st)) as [?|?]; [|lia|by left|by right].
    unfold push, set_iterator. cbn [m_heap m_inputs m_current m_currentFile m_valid m_closed m_err]. rewrite Hc, He0.
    eapply primed_next; try done; [by rewrite Hpush, Hrest|]. by exists e, l, it'.
Qed.
(** [NewMergeIterator] of readable inputs. *)
Lemma NewMergeIterator_spec :
  (exists m, NewMergeIterator inputs = Some (Ok m) /\ merging m (pending inputs ls) /\ live_inputs m /\ (may_fail m -> Exists input_may_fail inputs)) \/
  exists err, NewMergeIterator inputs = Some (Err err) /\ Exists input_may_fail inputs.
Proof using Hready.
  unfold NewMergeIterator. destruct (prime_spec (length inputs) 0 _ _ primed_start) as [(m & st & -> & [Hm Hl Hd Ht Hf])|?]; [lia| |by right].
  left. exists m. split; [done|]. assert (st = pending inputs ls) as <-; [|done]. apply list_eq. intros i. destruct (decide (i < length inputs)%nat) as [Hi|Hi]; [by apply Hd|].
  rewrite !lookup_ge_None_2; [done|unfold pending; rewrite length_imap, length_zip; lia|].
  rewrite (mg_length _ _ Hm). destruct (Ht (length inputs)) as [Hn _]; [lia|]. rewrite (lookup_ge_None_2 inputs) in Hn by done. apply lookup_ge_None in Hn. lia.
Qed.
End prime.
End merging.
