(* ===== verification/MergeInputs.v ===== *)
(** * The inputs of a merge

    The iterators of sorted tables and of memtables implement the interface of
    merge.go and obey its laws; a slice of inputs of both kinds dispatches on
    the kind. *)

From S2P Require Import Prelude InternalKey Files MvccStore SSTable SSTableBlock SSTableWriter SSTableReader SSTableReads SSTableIterators MemTable MemTableProofs MemTableProps Merge MergeProofs.
Import merge.

(** A reader of a table that holds [l], on a file that may fail. *)
Definition reads (r : reader.Reader) (l : store) : Prop :=
  exists r0 bs, r = with_file (reader.rd_file r) r0 /\ table_ok r0 bs /\ same_bytes (reader.rd_file r0) (reader.rd_file r) /\ l = table_entries bs.

(** ** [sstable.Iterator] *)

Record table_iterator := { ti_reader : reader.Reader; ti_iterator : reader.Iterator }.
#[export] Instance table_EntryIterator : EntryIterator table_iterator sstable.sst_error := {
  it_Next t := let '(it, more) := reader.Next (ti_reader t) (ti_iterator t) in ({| ti_reader := ti_reader t; ti_iterator := it |}, more);
  it_Entry t := reader.Entry (ti_iterator t);
  it_Error t := reader.it_err (ti_iterator t);
  it_Close t := ({| ti_reader := ti_reader t; ti_iterator := reader.iterator_Close (ti_iterator t) |}, [])
}.
Definition table_ahead (t : table_iterator) (l : list entry) : Prop :=
  exists r0 bs rem, ti_reader t = with_file (reader.rd_file (ti_reader t)) r0 /\ table_ok r0 bs /\
    same_bytes (reader.rd_file r0) (reader.rd_file (ti_reader t)) /\ pos bs (ti_iterator t) rem /\
    l = upto (reader.it_end (ti_iterator t)) (entry_of <$> rem).
#[export] Program Instance table_IteratorLaws : IteratorLaws table_iterator sstable.sst_error := {
  ahead := table_ahead;
  unreliable t := faulty (reader.rd_file (ti_reader t))
}.
Next Obligation.
  intros [r it] l (r0 & bs & rem & Hr & Hok & Hsame & Hpos & ->) t' more. cbn in *. destruct (reader.Next r it) as [it' m] eqn:Hn. intros [= <- <-]. cbn.
  pose proof (Next_spec r0 bs (reader.rd_file r) Hok Hsame it rem Hpos) as [Hend Hout]. rewrite <- Hr, Hn in Hend, Hout. cbn [fst snd] in *.
  destruct Hout as [(-> & Hf & e & He & _)|Hout]; [left; by rewrite He|right]. destruct rem as [|e rem].
  - destruct Hout as [-> Hp]. split; [apply Hp|]. done.
  - cbn [fmap list_fmap upto]. destruct (before_end (reader.it_end it) (entry_of e)).
    + destruct Hout as (-> & HE & Hp). split; [apply Hp|]. split; [done|]. split; [done|]. split; [done|].
      exists r0, bs, rem. cbn. rewrite Hend. done.
    + destruct Hout as (-> & rem' & Hp & _). split; [apply Hp|]. done.
Qed.
Next Obligation. done. Qed.

(** An iterator a reader returns for a range. *)
Lemma table_starts r l start endKey : reads r l -> len (default [] start) <= sstable.MaxUserKeySize -> len (default [] endKey) <= sstable.MaxUserKeySize ->
  match start, endKey with Some s, Some e => bytes_leb s e | _, _ => true end = true ->
  (exists it, reader.Range r start endKey = Ok it /\ table_ahead {| ti_reader := r; ti_iterator := it |} (filter (in_range start endKey) l)) \/
  faulty (reader.rd_file r) /\ exists e, reader.Range r start endKey = Err e.
Proof.
  intros (r0 & bs & Hr & Hok & Hsame & ->) Hls Hle Hrange. rewrite <- range_filter by (by eapply table_entries_sorted || by eapply table_entries_wf).
  unfold reader.Range. rewrite Hrange, !(proj2 (Z.leb_le _ _)) by done. cbn [andb require mbind result_bind].
  assert (forall target, starts bs (reader.rd_file r) endKey (match target with Some t => from_target t (all_entries bs) | None => all_entries bs end) (reader.newIteratorAt r target true endKey)) as Hst.
  { intros target. rewrite Hr at 2. by apply newIteratorAt_spec. }
  assert (exists target, (match start with None => reader.newIteratorAt r None true endKey | Some s => match NewInternalKey s MaxUint64 KindDelete with Ok key => reader.newIteratorAt r (Some key) true endKey | Err _ => Err [] end end) = reader.newIteratorAt r target true endKey /\
    match start with Some s => lower_bound (seek_key s MaxUint64) (table_entries bs) | None => table_entries bs end = entry_of <$> match target with Some t => from_target t (all_entries bs) | None => all_entries bs end) as (target & -> & ->).
  { destruct start as [s|]; [|by exists None]. exists (Some (seek_key s MaxUint64)). split; [done|]. unfold table_entries. rewrite entries_from_target by apply Hok. done. }
  destruct (Hst target) as [(it & rem & -> & Hend & Hpos & _ & _ & Hup)|(Hf & e & -> & _)]; [left|right; eauto]. exists it. split; [done|].
  exists r0, bs, rem. cbn. by rewrite Hend, Hup.
Qed.
Lemma table_starts_all r l : reads r l ->
  (exists it, reader.NewIterator r = Ok it /\ table_ahead {| ti_reader := r; ti_iterator := it |} l) \/ faulty (reader.rd_file r) /\ exists e, reader.NewIterator r = Err e.
Proof.
  intros (r0 & bs & Hr & Hok & Hsame & ->). unfold reader.NewIterator.
  assert (starts bs (reader.rd_file r) None (all_entries bs) (reader.newIteratorAt r None false None)) as Hst by (rewrite Hr at 2; by apply (newIteratorAt_spec _ _ _ Hok Hsame None)).
  destruct Hst as [(it & rem & -> & Hend & Hpos & _ & _ & Hup)|(Hf & e & -> & _)]; [left|right; eauto]. exists it. split; [done|].
  exists r0, bs, rem. cbn. rewrite Hend. rewrite !upto_None in *. by rewrite Hup.
Qed.

(** ** [memIterator] (storage/engine/read.go) *)

(** [BorrowedEntry] of a valid iterator is in range. *)
#[export] Instance mem_EntryIterator {E} : EntryIterator memtable.Iterator E := {
  it_Next := memtable.Next;
  it_Entry it := default None (memtable.Entry it);
  it_Error _ := None;
  it_Close it := (it, [])
}.
Definition mem_ahead (it : memtable.Iterator) (l : list entry) : Prop := -1 <= memtable.it_index it /\ l = drop (Z.to_nat (memtable.it_index it + 1)) (memtable.it_entries it).
#[export] Program Instance mem_IteratorLaws {E} : IteratorLaws memtable.Iterator E := { ahead := mem_ahead; unreliable _ := False }.
Next Obligation.
  intros E it l [Hi ->] it' more. cbn. unfold memtable.Next. right. split; [done|]. split; [done|]. destruct (Z.leb_spec (len (memtable.it_entries it)) (memtable.it_index it)) as [Hle|Hlt].
  - injection H as <- <-. rewrite drop_ge by (unfold len in Hle; lia). done.
  - injection H as <- <-. unfold mem_ahead, memtable.Entry. cbn [memtable.it_entries memtable.it_index memtable.it_valid].
    destruct (Z.ltb_spec (memtable.it_index it + 1) (len (memtable.it_entries it))) as [Hl|Hg].
    + destruct (lookup_lt_is_Some_2 (memtable.it_entries it) (Z.to_nat (memtable.it_index it + 1))) as [e He]; [unfold len in Hl; lia|].
      rewrite (drop_S _ _ _ He). split; [done|]. rewrite (proj2 (Z.ltb_ge _ 0)), He by lia. split; [done|]. split; [lia|]. f_equal. lia.
    + rewrite drop_ge by (unfold len in Hg; lia). done.
Qed.
Next Obligation. done. Qed.
Lemma new_ahead l : mem_ahead (memtable.newIterator l) l.
Proof. split; [cbn; lia|]. cbn. by rewrite drop_0. Qed.

(** ** Inputs of both kinds *)

Section sum.
Context {I J E : Type} `{EntryIterator I E, EntryIterator J E}.
#[export] Instance sum_EntryIterator : EntryIterator (I + J) E := {
  it_Next it := match it with inl i => let '(i, more) := it_Next i in (inl i, more) | inr j => let '(j, more) := it_Next j in (inr j, more) end;
  it_Entry it := match it with inl i => it_Entry i | inr j => it_Entry j end;
  it_Error it := match it with inl i => it_Error i | inr j => it_Error j end;
  it_Close it := match it with inl i => let '(i, e) := it_Close i in (inl i, e) | inr j => let '(j, e) := it_Close j in (inr j, e) end
}.
Context {L : IteratorLaws I E} {K : IteratorLaws J E}.
#[export] Program Instance sum_IteratorLaws : IteratorLaws (I + J) E := {
  ahead it l := match it with inl i => ahead i l | inr j => ahead j l end;
  unreliable it := match it with inl i => unreliable i | inr j => unreliable j end
}.
Next Obligation.
  intros [i|j] l Ha it' more; cbn.
  - destruct (it_Next i) as [i' m] eqn:Hn. intros [= <- <-]. exact (next_law i l Ha i' m Hn).
  - destruct (it_Next j) as [j' m] eqn:Hn. intros [= <- <-]. exact (next_law j l Ha j' m Hn).
Qed.
Next Obligation. intros [i|j]; cbn; [pose proof (close_law i)|pose proof (close_law j)]; by destruct (it_Close _). Qed.
End sum.
