(* ===== verification/Manifest.v ===== *)
(** * Version edits (storage/manifest/edit.go)

    The table metadata and the edits the manifest log records: their
    validation and their tag-length-value encoding.  Versions are in
    ManifestVersion.v and the manifest store in ManifestStore.v. *)

From S2P Require Import Prelude InternalKey Codec Loops MvccStore SSTable SSTableWriter.
From Stdlib Require Strings.String.

Module manifest.

(** errors.go; [ErrStorage] wraps an error of the internal-key decoder, and
    the invariants are the panics of [invariant.Assert]. *)
Inductive manifest_error :=
  | ErrInvalidOptions | ErrInvalidEdit | ErrUnsupportedVersion | ErrManifestCorrupt | ErrCurrentCorrupt
  | ErrMissingManifest | ErrMissingLiveTable | ErrCorruptLiveTable | ErrFileNumberCollision | ErrFileNumberExhausted
  | ErrSequenceRegression | ErrSequenceExhausted | ErrFrontierRegression | ErrFrontierGap | ErrFrontierSplitsBatch
  | ErrWriterPoisoned | ErrClosed | ErrCurrentAmbiguous | ErrCurrentTempExists | ErrManifestNumberExhausted
  | ErrInvalidLevel | ErrDuplicateFile | ErrUnknownFile | ErrOverlappingLevel | ErrMetadataMismatch
  | ErrComparatorMismatch | ErrStaleVersion | ErrModeMismatch | ErrReplicatedFrontierGap
  | ErrStorage (e : storage_error) | ErrIO
  | STORAGE_62 | STORAGE_81 | REPLICA_9.
#[export] Instance manifest_error_eq_dec : EqDecision manifest_error.
Proof. solve_decision. Defined.
Abbreviation errors := (list manifest_error).
Abbreviation res := (result errors).

Definition EditVersion : Z := 1.
Definition MaxEditSize : Z := Z.shiftl 16 20.
Definition MaxChangesPerEdit : Z := 4096.
Definition MaxLevels : Z := 8.
Section names.
Import Stdlib.Strings.String.
Definition ComparatorName : bytes := list_byte_of_string "rivetdb.internal-key.v1"%string.
End names.
#[global] Arguments ComparatorName : simpl never.
Definition editHeaderSize : Z := 8.
Definition fieldHeaderSize : Z := 5.
(** Little-endian bytes that spell RVED. *)
Definition editMagic : Z := 0x44455652.

Definition fieldComparator : byte := Byte.x01.
Definition fieldNextFile : byte := Byte.x02.
Definition fieldLastSequence : byte := Byte.x03.
Definition fieldReplayFrontier : byte := Byte.x04.
Definition fieldDeleteFile : byte := Byte.x05.
Definition fieldAddFile : byte := Byte.x06.
Definition fieldStorageMode : byte := Byte.x07.
Definition fieldReplicatedFrontier : byte := Byte.x08.
Definition fieldMaxAppliedMVCC : byte := Byte.x81.

(** [type StorageMode uint8] *)
Abbreviation StorageMode := byte.
Definition ModeStandalone : StorageMode := Byte.x01.
Definition ModeReplicated : StorageMode := Byte.x02.
Definition ModeReplicatedMVCC : StorageMode := Byte.x03.
Definition mode_valid (m : StorageMode) : bool :=
  Byte.eqb m ModeStandalone || Byte.eqb m ModeReplicated || Byte.eqb m ModeReplicatedMVCC.

Record DeletedFile := { d_Level : Z; d_FileNumber : Z }.
#[export] Instance DeletedFile_eq_dec : EqDecision DeletedFile.
Proof. solve_decision. Defined.
Record TableMetadata := {
  Level : Z; FileNumber : Z; FlushGeneration : Z; FileSize : Z; EntryCount : Z; DeletionCount : Z; RawKeyValueBytes : Z;
  DataBlockCount : Z; SmallestSequence : Z; LargestSequence : Z; SmallestInternal : InternalKey; LargestInternal : InternalKey;
  SmallestUser : bytes; LargestUser : bytes
}.
#[export] Instance TableMetadata_eq_dec : EqDecision TableMetadata.
Proof. solve_decision. Defined.
(** Pointer fields are options. *)
Record VersionEdit := mkEdit {
  e_Comparator : option bytes; e_NextFileNumber : option Z; e_LastSequence : option Z; e_ReplayFrontier : option Z;
  e_StorageMode : option StorageMode; e_ReplicatedAppliedThrough : option Z; e_MaxAppliedMVCC : option Z;
  e_DeletedFiles : list DeletedFile; e_AddedFiles : list TableMetadata
}.
#[export] Instance VersionEdit_eq_dec : EqDecision VersionEdit.
Proof. solve_decision. Defined.
Definition no_edit : VersionEdit := mkEdit None None None None None None None [] [].

(** The values of the Go types: machine integers and valid internal keys. *)
Record table_wf (t : TableMetadata) : Prop := {
  wf_level : is_u32 (Level t);
  wf_numbers : Forall is_u64 [FileNumber t; FlushGeneration t; FileSize t; EntryCount t; DeletionCount t; RawKeyValueBytes t];
  wf_blocks : is_u32 (DataBlockCount t);
  wf_sequences : is_u64 (SmallestSequence t) /\ is_u64 (LargestSequence t);
  wf_keys : key_wf (SmallestInternal t) /\ key_wf (LargestInternal t)
}.
Definition deleted_wf (d : DeletedFile) : Prop := is_u32 (d_Level d) /\ is_u64 (d_FileNumber d).
Record edit_wf (e : VersionEdit) : Prop := {
  wf_next : forall n, e_NextFileNumber e = Some n -> is_u64 n;
  wf_last : forall n, e_LastSequence e = Some n -> is_u64 n;
  wf_frontier : forall n, e_ReplayFrontier e = Some n -> is_u64 n;
  wf_replicated : forall n, e_ReplicatedAppliedThrough e = Some n -> is_u64 n;
  wf_mvcc : forall n, e_MaxAppliedMVCC e = Some n -> is_u64 n;
  wf_deleted : Forall deleted_wf (e_DeletedFiles e);
  wf_added : Forall table_wf (e_AddedFiles e)
}.

(** ** Validation *)

Definition present {A} (o : option A) : bool := match o with Some _ => true | None => false end.

Definition validateTable (table : TableMetadata) : res unit :=
  if MaxLevels <=? Level table then Err [ErrInvalidEdit; ErrInvalidLevel]
  else if (FileNumber table =? 0) || (sstable.MaxFileNumber <? FileNumber table) || (FileSize table <? sstable.FooterSize) ||
    (EntryCount table =? 0) || (DataBlockCount table =? 0) || (EntryCount table <? DeletionCount table) ||
    (LargestSequence table <? SmallestSequence table)
  then Err [ErrInvalidEdit]
  else if (sstable.MaxUserKeySize <? len (SmallestUser table)) || (sstable.MaxUserKeySize <? len (LargestUser table)) ||
    negb (bytes_eqb (userKey (SmallestInternal table)) (SmallestUser table)) ||
    negb (bytes_eqb (userKey (LargestInternal table)) (LargestUser table)) ||
    (match CompareInternal (SmallestInternal table) (LargestInternal table) with Gt => true | _ => false end) ||
    negb (bytes_leb (SmallestUser table) (LargestUser table))
  then Err [ErrInvalidEdit]
  else Ok tt.

Definition validateDeleted (deleted : DeletedFile) : res unit :=
  if (MaxLevels <=? d_Level deleted) || (d_FileNumber deleted =? 0) || (sstable.MaxFileNumber <? d_FileNumber deleted)
  then Err [ErrInvalidEdit] else Ok tt.

Definition validateEditShape (edit : VersionEdit) : res unit :=
  if negb (present (e_Comparator edit)) && negb (present (e_NextFileNumber edit)) && negb (present (e_LastSequence edit)) &&
    negb (present (e_ReplayFrontier edit)) && negb (present (e_StorageMode edit)) && negb (present (e_ReplicatedAppliedThrough edit)) &&
    negb (present (e_MaxAppliedMVCC edit)) && (len (e_AddedFiles edit) =? 0) && (len (e_DeletedFiles edit) =? 0)
  then Err [ErrInvalidEdit]
  else if (MaxChangesPerEdit <? len (e_AddedFiles edit)) || (MaxChangesPerEdit <? len (e_DeletedFiles edit))
  then Err [ErrInvalidEdit]
  else if match e_StorageMode edit with Some m => negb (mode_valid m) | None => false end ||
    (present (e_ReplayFrontier edit) && present (e_ReplicatedAppliedThrough edit)) ||
    (present (e_MaxAppliedMVCC edit) && negb (present (e_ReplicatedAppliedThrough edit)))
  then Err [ErrInvalidEdit]
  else if match e_Comparator edit with Some c => (len c =? 0) || (128 <? len c) | None => false end
  then Err [ErrInvalidEdit]
  else
    seen ← foldM (visit validateDeleted d_FileNumber [ErrInvalidEdit]) ∅ (e_DeletedFiles edit);
    _ ← foldM (visit validateTable FileNumber [ErrInvalidEdit]) seen (e_AddedFiles edit);
    Ok tt.

(** [cloneTable]: decodes the encoded keys and asserts that this succeeds. *)
Definition cloneKey (k : InternalKey) : res InternalKey :=
  match DecodeInternalKey (Encode k) with Ok k => Ok k | Err _ => Err [STORAGE_62] end.
Definition cloneTable (table : TableMetadata) : res TableMetadata :=
  smallest ← cloneKey (SmallestInternal table);
  largest ← cloneKey (LargestInternal table);
  Ok {| Level := Level table; FileNumber := FileNumber table; FlushGeneration := FlushGeneration table; FileSize := FileSize table;
        EntryCount := EntryCount table; DeletionCount := DeletionCount table; RawKeyValueBytes := RawKeyValueBytes table;
        DataBlockCount := DataBlockCount table; SmallestSequence := SmallestSequence table;
        LargestSequence := LargestSequence table; SmallestInternal := smallest; LargestInternal := largest;
        SmallestUser := SmallestUser table; LargestUser := LargestUser table |}.
Fixpoint cloneTables (tables : list TableMetadata) : res (list TableMetadata) :=
  match tables with
  | [] => Ok []
  | table :: tables => table ← cloneTable table; tables ← cloneTables tables; Ok (table :: tables)
  end.

Definition NewTableMetadata (level generation smallestSequence largestSequence : Z) (metadata : writer.Metadata) : res TableMetadata :=
  let table :=
    {| Level := level; FileNumber := writer.FileNumber metadata; FlushGeneration := generation;
       FileSize := writer.FileSize metadata; EntryCount := writer.EntryCount metadata;
       DeletionCount := writer.DeletionCount metadata; RawKeyValueBytes := writer.RawKeyValueBytes metadata;
       DataBlockCount := writer.DataBlockCount metadata; SmallestSequence := smallestSequence;
       LargestSequence := largestSequence; SmallestInternal := writer.SmallestInternal metadata;
       LargestInternal := writer.LargestInternal metadata; SmallestUser := writer.SmallestUser metadata;
       LargestUser := writer.LargestUser metadata |} in
  _ ← validateTable table;
  cloneTable table.

(** ** Encoding *)

Definition cmpUint64 (left right : Z) : comparison :=
  if left <? right then Lt else if right <? left then Gt else Eq.
(** The sign of [int(left.Level) - int(right.Level)], or of the file numbers. *)
Definition compareIdentity (leftLevel leftNumber rightLevel rightNumber : Z) : comparison :=
  if negb (leftLevel =? rightLevel) then leftLevel - rightLevel ?= 0 else cmpUint64 leftNumber rightNumber.
Definition compareDeleted (left right : DeletedFile) : comparison :=
  compareIdentity (d_Level left) (d_FileNumber left) (d_Level right) (d_FileNumber right).
Definition compareTableIdentity (left right : TableMetadata) : comparison :=
  compareIdentity (Level left) (FileNumber left) (Level right) (FileNumber right).

(** One length-prefixed part of a table's encoding. *)
Definition encode_part (result value : bytes) : res bytes :=
  if MaxUint32 <? len value then Err [ErrInvalidEdit] else Ok (result ++ le_put 4 (len value) ++ value).
Definition table_fixed (table : TableMetadata) : bytes :=
  le_put 4 (Level table) ++
  foldr (fun value rest => le_put 8 value ++ rest) []
    [FileNumber table; FlushGeneration table; FileSize table; EntryCount table; DeletionCount table; RawKeyValueBytes table] ++
  le_put 4 (DataBlockCount table) ++ le_put 8 (SmallestSequence table) ++ le_put 8 (LargestSequence table).
Definition encodeTable (table : TableMetadata) : res bytes :=
  _ ← validateTable table;
  foldM encode_part (table_fixed table)
    [Encode (SmallestInternal table); Encode (LargestInternal table); SmallestUser table; LargestUser table].

Record encodedField := { tag : byte; payload : bytes }.
Definition scalar {A} (t : byte) (enc : A -> bytes) (o : option A) : list encodedField :=
  match o with Some v => [{| tag := t; payload := enc v |}] | None => [] end.
Definition deletion_field (deleted : DeletedFile) : encodedField :=
  {| tag := fieldDeleteFile; payload := le_put 4 (d_Level deleted) ++ le_put 8 (d_FileNumber deleted) |}.
Definition addition_field (fields : list encodedField) (table : TableMetadata) : res (list encodedField) :=
  payload ← encodeTable table; Ok (fields ++ [{| tag := fieldAddFile; payload := payload |}]).
Definition scalar_fields (edit : VersionEdit) : list encodedField :=
  scalar fieldComparator id (e_Comparator edit) ++
  scalar fieldNextFile (le_put 8) (e_NextFileNumber edit) ++
  scalar fieldLastSequence (le_put 8) (e_LastSequence edit) ++
  scalar fieldReplayFrontier (le_put 8) (e_ReplayFrontier edit) ++
  scalar fieldStorageMode (fun m => [m]) (e_StorageMode edit) ++
  scalar fieldReplicatedFrontier (le_put 8) (e_ReplicatedAppliedThrough edit) ++
  scalar fieldMaxAppliedMVCC (le_put 8) (e_MaxAppliedMVCC edit).
Definition append_field (result : bytes) (field : encodedField) : res bytes :=
  if (MaxUint32 <? len (payload field)) || (MaxEditSize - fieldHeaderSize - len (payload field) <? len result)
  then Err [ErrInvalidEdit]
  else Ok (result ++ [tag field] ++ le_put 4 (len (payload field)) ++ payload field).

Definition EncodeVersionEdit (edit : VersionEdit) : res bytes :=
  _ ← validateEditShape edit;
  let deletions := SortFunc compareDeleted (e_DeletedFiles edit) in
  let fields := scalar_fields edit ++ (deletion_field <$> deletions) in
  additions ← cloneTables (e_AddedFiles edit);
  let additions := SortFunc compareTableIdentity additions in
  fields ← foldM addition_field fields additions;
  if 65535 <? len fields then Err [ErrInvalidEdit]
  else
    let header := le_put 4 editMagic ++ le_put 2 EditVersion ++ le_put 2 (u16 (len fields)) in
    foldM append_field header fields.

(** ** Decoding *)

(** The parts and what follows them; [rest] is [payload[offset:]]. *)
Fixpoint decode_parts (count : nat) (rest : bytes) : res (list bytes * bytes) :=
  match count with
  | O => Ok ([], rest)
  | S count' =>
      if len rest <? 4 then Err [ErrInvalidEdit]
      else
        let length := le_get (slice 0 4 rest) in
        let rest := drop 4 rest in
        if len rest <? length then Err [ErrInvalidEdit]
        else
          '(parts, rest') ← decode_parts count' (drop (Z.to_nat length) rest);
          Ok (take (Z.to_nat length) rest :: parts, rest')
  end.

Definition decode_key (encoded : bytes) : res InternalKey :=
  match DecodeInternalKey encoded with Ok k => Ok k | Err e => Err (ErrStorage <$> e) end.
Definition decodeTable (payload : bytes) : res TableMetadata :=
  let fixed := 4 + 6 * 8 + 4 + 2 * 8 in
  if len payload <? fixed + 4 * 4 then Err [ErrInvalidEdit]
  else
    let uint64 offset := le_get (slice offset (offset + 8) payload) in
    '(parts, rest) ← decode_parts 4 (drop 72 payload);
    match parts with
    | [smallestInternal; largestInternal; smallestUser; largestUser] =>
        if negb (len rest =? 0) then Err [ErrInvalidEdit]
        else if (sstable.MaxInternalKeySize <? len smallestInternal) || (sstable.MaxInternalKeySize <? len largestInternal) ||
          (sstable.MaxUserKeySize <? len smallestUser) || (sstable.MaxUserKeySize <? len largestUser)
        then Err [ErrInvalidEdit]
        else
          smallest ← decode_key smallestInternal;
          largest ← decode_key largestInternal;
          let table :=
            {| Level := le_get (slice 0 4 payload); FileNumber := uint64 4%nat; FlushGeneration := uint64 12%nat;
               FileSize := uint64 20%nat; EntryCount := uint64 28%nat; DeletionCount := uint64 36%nat;
               RawKeyValueBytes := uint64 44%nat; DataBlockCount := le_get (slice 52 56 payload);
               SmallestSequence := uint64 56%nat; LargestSequence := uint64 64%nat;
               SmallestInternal := smallest; LargestInternal := largest;
               SmallestUser := smallestUser; LargestUser := largestUser |} in
          _ ← validateTable table;
          Ok table
    | _ => Err [ErrInvalidEdit]
    end.

(** The variables of the decoding loop. *)
Record decoder := mkDecoder { d_edit : VersionEdit; seenScalar : gset byte; seenFiles : gset Z }.

Definition set_uint64 (t : byte) (value : Z) (e : VersionEdit) : VersionEdit :=
  let 'mkEdit c n l f m r x ds ts := e in
  if Byte.eqb t fieldNextFile then mkEdit c (Some value) l f m r x ds ts
  else if Byte.eqb t fieldLastSequence then mkEdit c n (Some value) f m r x ds ts
  else if Byte.eqb t fieldReplayFrontier then mkEdit c n l (Some value) m r x ds ts
  else if Byte.eqb t fieldReplicatedFrontier then mkEdit c n l f m (Some value) x ds ts
  else if Byte.eqb t fieldMaxAppliedMVCC then mkEdit c n l f m r (Some value) ds ts
  else e.
Definition decode_field (d : decoder) (field : encodedField) : res decoder :=
  let t := tag field in
  let payload := payload field in
  let 'mkDecoder edit seen files := d in
  let 'mkEdit c n l f m r x ds ts := edit in
  if Byte.eqb t fieldComparator then
    if bool_decide (t ∈ seen) || (len payload =? 0) || (128 <? len payload) then Err [ErrInvalidEdit]
    else Ok (mkDecoder (mkEdit (Some payload) n l f m r x ds ts) ({[t]} ∪ seen) files)
  else if Byte.eqb t fieldNextFile || Byte.eqb t fieldLastSequence || Byte.eqb t fieldReplayFrontier ||
    Byte.eqb t fieldReplicatedFrontier || Byte.eqb t fieldMaxAppliedMVCC
  then
    if bool_decide (t ∈ seen) || negb (len payload =? 8) then Err [ErrInvalidEdit]
    else Ok (mkDecoder (set_uint64 t (le_get payload) edit) ({[t]} ∪ seen) files)
  else if Byte.eqb t fieldStorageMode then
    if bool_decide (t ∈ seen) || negb (len payload =? 1) then Err [ErrInvalidEdit]
    else Ok (mkDecoder (mkEdit c n l f (Some (default Byte.x00 (payload !! 0%nat))) r x ds ts) ({[t]} ∪ seen) files)
  else if Byte.eqb t fieldDeleteFile then
    if negb (len payload =? 12) || (MaxChangesPerEdit <=? len ds) then Err [ErrInvalidEdit]
    else
      let deleted := {| d_Level := le_get (slice 0 4 payload); d_FileNumber := le_get (slice 4 12 payload) |} in
      if bool_decide (d_FileNumber deleted ∈ files) then Err [ErrInvalidEdit]
      else Ok (mkDecoder (mkEdit c n l f m r x (ds ++ [deleted]) ts) seen ({[d_FileNumber deleted]} ∪ files))
  else if Byte.eqb t fieldAddFile then
    if MaxChangesPerEdit <=? len ts then Err [ErrInvalidEdit]
    else
      match decodeTable payload with
      | Err e => Err (ErrInvalidEdit :: e)
      | Ok table =>
          if bool_decide (FileNumber table ∈ files) then Err [ErrInvalidEdit]
          else Ok (mkDecoder (mkEdit c n l f m r x ds (ts ++ [table])) seen ({[FileNumber table]} ∪ files))
      end
  else if Z.land (byte.unsigned t) 0x80 =? 0 then Err [ErrUnsupportedVersion]
  else Ok d.

(** The loop over the fields; [rest] is [encoded[offset:]]. *)
Fixpoint decode_fields (count : nat) (rest : bytes) (d : decoder) : res (decoder * bytes) :=
  match count with
  | O => Ok (d, rest)
  | S count' =>
      if len rest <? fieldHeaderSize then Err [ErrInvalidEdit]
      else
        let t := default Byte.x00 (rest !! 0%nat) in
        let length := le_get (slice 1 5 rest) in
        let rest := drop 5 rest in
        if len rest <? length then Err [ErrInvalidEdit]
        else
          d ← decode_field d {| tag := t; payload := take (Z.to_nat length) rest |};
          decode_fields count' (drop (Z.to_nat length) rest) d
  end.

Definition DecodeVersionEdit (encoded : bytes) : res VersionEdit :=
  if (len encoded <? editHeaderSize) || (MaxEditSize <? len encoded) then Err [ErrInvalidEdit]
  else if negb (le_get (slice 0 4 encoded) =? editMagic) then Err [ErrInvalidEdit; ErrManifestCorrupt]
  else if negb (le_get (slice 4 6 encoded) =? EditVersion) then Err [ErrUnsupportedVersion]
  else
    let count := Z.to_nat (le_get (slice 6 8 encoded)) in
    '(d, rest) ← decode_fields count (drop 8 encoded) (mkDecoder no_edit ∅ ∅);
    if negb (len rest =? 0) then Err [ErrInvalidEdit]
    else
      _ ← validateEditShape (d_edit d);
      Ok (d_edit d).

End manifest.
