(* ===== verification/ManifestCodec.v ===== *)
(** * Version edits survive the manifest log (storage/manifest/edit.go)

    What [EncodeVersionEdit] writes, [DecodeVersionEdit] reads back, with the
    file lists in the order of the encoding. *)

From S2P Require Import Prelude InternalKey Codec Loops MvccStore SSTable SSTableWriter Manifest.
Import manifest.

(** ** Comparators *)

Lemma cmpUint64_compare a b : cmpUint64 a b = (a ?= b).
Proof. unfold cmpUint64. destruct (Z.compare_spec a b); repeat case_match; lia || done. Qed.
Lemma compareIdentity_then l n l' n' : compareIdentity l n l' n' = then_by (l ?= l') (n ?= n').
Proof.
  unfold compareIdentity. rewrite cmpUint64_compare. destruct (Z.eqb_spec l l') as [->|Hne]; cbn.
  - by rewrite Z.compare_refl.
  - rewrite <- Z.compare_sub. by destruct (Z.compare_spec l l').
Qed.
Lemma compareIdentity_antisym l n l' n' : compareIdentity l' n' l n = CompOpp (compareIdentity l n l' n').
Proof. by rewrite !compareIdentity_then, then_by_opp, <- !Z.compare_antisym. Qed.
Lemma compareIdentity_trans l1 n1 l2 n2 l3 n3 : compareIdentity l1 n1 l2 n2 <> Gt -> compareIdentity l2 n2 l3 n3 <> Gt ->
  compareIdentity l1 n1 l3 n3 <> Gt.
Proof.
  rewrite !compareIdentity_then.
  destruct (Z.compare_spec l1 l2), (Z.compare_spec l2 l3), (Z.compare_spec l1 l3); cbn; try done; try lia; rewrite !Z.compare_le_iff; lia.
Qed.
Lemma compareIdentity_Eq l n l' n' : compareIdentity l n l' n' = Eq <-> l = l' /\ n = n'.
Proof. by rewrite compareIdentity_then, then_by_Eq, !Z.compare_eq_iff. Qed.

(** ** Validation *)

Lemma validateTable_ok t : validateTable t = Ok tt <->
  Level t < 8 /\ FileNumber t <> 0 /\ FileNumber t <= sstable.MaxFileNumber /\ sstable.FooterSize <= FileSize t /\
  EntryCount t <> 0 /\ DataBlockCount t <> 0 /\ DeletionCount t <= EntryCount t /\ SmallestSequence t <= LargestSequence t /\
  len (SmallestUser t) <= sstable.MaxUserKeySize /\ len (LargestUser t) <= sstable.MaxUserKeySize /\
  userKey (SmallestInternal t) = SmallestUser t /\ userKey (LargestInternal t) = LargestUser t /\
  key_le (SmallestInternal t) (LargestInternal t) /\ ~ bytes_lt (LargestUser t) (SmallestUser t).
Proof.
  unfold validateTable, MaxLevels, key_le. rewrite <- bytes_leb_lt, <- !bytes_eqb_eq.
  destruct (Z.leb_spec 8 (Level t)); [split; [done|lia]|].
  destruct (_ || _) eqn:H1.
  { split; [done|]. rewrite !orb_true_iff, !Z.eqb_eq, !Z.ltb_lt in H1. lia. }
  rewrite !orb_false_iff, !Z.eqb_neq, !Z.ltb_ge in H1.
  destruct (_ || _) eqn:H2.
  { split; [done|]. rewrite !orb_true_iff, !Z.ltb_lt, !negb_true_iff in H2.
    intros (_ & _ & _ & _ & _ & _ & _ & _ & ? & ? & ? & ? & ? & ?).
    destruct H2 as [[[[[?|?]|?]|?]|?]|?]; try lia; try congruence. by destruct (CompareInternal _ _). }
  rewrite !orb_false_iff, !Z.ltb_ge, !negb_false_iff in H2. split; [|done]. intros _.
  destruct H2 as [[[[[? ?] ?] ?] ?] ?]. split_and!; try lia; try done; [by rewrite !bytes_eqb_eq..|].
  by destruct (CompareInternal _ _).
Qed.

Lemma validateDeleted_ok d : validateDeleted d = Ok tt <->
  d_Level d < 8 /\ d_FileNumber d <> 0 /\ d_FileNumber d <= sstable.MaxFileNumber.
Proof.
  unfold validateDeleted, MaxLevels. destruct (_ || _) eqn:H.
  - split; [done|]. rewrite !orb_true_iff, Z.leb_le, Z.eqb_eq, Z.ltb_lt in H. lia.
  - rewrite !orb_false_iff, Z.leb_gt, Z.eqb_neq, Z.ltb_ge in H. split; [lia|done].
Qed.

(** The file numbers an edit names. *)
Definition edit_numbers (e : VersionEdit) : list Z := (d_FileNumber <$> e_DeletedFiles e) ++ (FileNumber <$> e_AddedFiles e).

(** An accepted edit, its scalar checks apart. *)
Record files_ok (e : VersionEdit) : Prop := {
  ok_deleted : Forall (fun d => validateDeleted d = Ok tt) (e_DeletedFiles e);
  ok_added : Forall (fun t => validateTable t = Ok tt) (e_AddedFiles e);
  ok_distinct : NoDup (edit_numbers e);
  ok_deleted_count : len (e_DeletedFiles e) <= MaxChangesPerEdit;
  ok_added_count : len (e_AddedFiles e) <= MaxChangesPerEdit
}.
Definition scalars_ok (e : VersionEdit) : Prop :=
  (e_Comparator e <> None \/ e_NextFileNumber e <> None \/ e_LastSequence e <> None \/ e_ReplayFrontier e <> None \/
   e_StorageMode e <> None \/ e_ReplicatedAppliedThrough e <> None \/ e_MaxAppliedMVCC e <> None \/
   e_AddedFiles e <> [] \/ e_DeletedFiles e <> []) /\
  (forall m, e_StorageMode e = Some m -> mode_valid m = true) /\
  (e_ReplayFrontier e = None \/ e_ReplicatedAppliedThrough e = None) /\
  (e_MaxAppliedMVCC e <> None -> e_ReplicatedAppliedThrough e <> None) /\
  (forall c, e_Comparator e = Some c -> 0 < len c <= 128).

Lemma len_zero {A} (l : list A) : len l =? 0 = bool_decide (l = []).
Proof. destruct l; [done|]. rewrite bool_decide_false by done. apply Z.eqb_neq. rewrite len_cons. pose proof (len_nonneg l). lia. Qed.
Lemma present_Some {A} (o : option A) : present o = true <-> o <> None.
Proof. destruct o; naive_solver. Qed.

Lemma validate_files e seen : (foldM (visit validateDeleted d_FileNumber [ErrInvalidEdit]) ∅ (e_DeletedFiles e) ≫=
    fun seen => foldM (visit validateTable FileNumber [ErrInvalidEdit]) seen (e_AddedFiles e)) = Ok seen ->
  Forall (fun d => validateDeleted d = Ok tt) (e_DeletedFiles e) /\ Forall (fun t => validateTable t = Ok tt) (e_AddedFiles e) /\
  NoDup (edit_numbers e).
Proof.
  rewrite bind_ok. intros (s1 & (Hd & Hnd & _ & ->)%visits_ok & (Ha & Hna & Hdis & _)%visits_ok).
  split_and!; [done..|]. apply NoDup_app. split_and!; [done| |done].
  intros n Hn Hn'. apply (Hdis n Hn'). set_solver.
Qed.
Lemma validate_files_ok e : Forall (fun d => validateDeleted d = Ok tt) (e_DeletedFiles e) ->
  Forall (fun t => validateTable t = Ok tt) (e_AddedFiles e) -> NoDup (edit_numbers e) ->
  exists s1 s2, foldM (visit validateDeleted d_FileNumber [ErrInvalidEdit]) ∅ (e_DeletedFiles e) = Ok s1 /\
    foldM (visit validateTable FileNumber [ErrInvalidEdit]) s1 (e_AddedFiles e) = Ok s2.
Proof.
  intros Hd Ha Hn. apply NoDup_app in Hn as (Hnd & Hdis & Hna). eexists _, _. split; apply visits_ok; (split; [done|]; split; [done|]; split).
  - set_solver.
  - done.
  - intros n Hn Hin. apply elem_of_union in Hin as [Hin|Hin]; [|set_solver]. apply elem_of_list_to_set in Hin. by apply (Hdis n).
  - done.
Qed.

Lemma validateEditShape_ok e : validateEditShape e = Ok tt <-> scalars_ok e /\ files_ok e.
Proof.
  unfold validateEditShape, scalars_ok. rewrite !len_zero. destruct e as [c n l f m r x ds ts]. cbn.
  destruct (_ && _) eqn:H1.
  { split; [done|]. rewrite !andb_true_iff, !negb_true_iff, !bool_decide_eq_true in H1.
    intros [[H _] _]. destruct c, n, l, f, m, r, x; naive_solver. }
  destruct (_ || _) eqn:H2.
  { split; [done|]. rewrite orb_true_iff, !Z.ltb_lt in H2. intros [_ [_ _ _ ? ?]]. cbn in *. lia. }
  rewrite orb_false_iff, !Z.ltb_ge in H2.
  destruct (_ || _) eqn:H3.
  { split; [done|]. rewrite !orb_true_iff, !andb_true_iff, !present_Some, negb_true_iff in H3. intros [(_ & Hm & Hf & Hx & _) _].
    destruct H3 as [[Hm'|[? ?]]|[Hx' Hr]]; [|by destruct Hf|by apply Hx in Hx'; destruct r].
    destruct m; [|done]. by rewrite (Hm _ eq_refl) in Hm'. }
  rewrite !orb_false_iff in H3. destruct H3 as [[Hm Hf] Hx].
  destruct (match c with Some _ => _ | None => _ end) eqn:H4.
  { split; [done|]. intros [(_ & _ & _ & _ & Hc) _]. destruct c as [c|]; [|done]. specialize (Hc _ eq_refl).
    rewrite orb_true_iff, Z.ltb_lt, Z.eqb_eq in H4. lia. }
  split.
  - intros H. assert (exists s, (foldM (visit validateDeleted d_FileNumber [ErrInvalidEdit]) ∅ ds ≫=
      fun seen => foldM (visit validateTable FileNumber [ErrInvalidEdit]) seen ts) = Ok s) as [s Hs].
    { apply bind_ok in H as (s1 & H1' & H). apply bind_ok in H as (s2 & H2' & _). exists s2. by rewrite H1'. }
    apply (validate_files (mkEdit c n l f m r x ds ts)) in Hs as (? & ? & ?). split; [|split; try done; cbn; lia].
    split; [|split; [|split; [|split]]].
    + destruct c, n, l, f, m, r, x; cbn in H1; try (naive_solver fail). destruct ts; [|naive_solver]. destruct ds; [done|naive_solver].
    + intros m' ->. by apply negb_false_iff.
    + destruct f, r; naive_solver.
    + destruct x, r; naive_solver.
    + intros c' ->. rewrite orb_false_iff, Z.eqb_neq, Z.ltb_ge in H4. pose proof (len_nonneg c'). lia.
  - intros [_ [Hd Ha Hn _ _]]. destruct (validate_files_ok _ Hd Ha Hn) as (s1 & s2 & Hs1 & Hs2). cbn in *. by rewrite Hs1; cbn; rewrite Hs2.
Qed.

(** ** Table metadata *)

Lemma cloneTable_id t : table_wf t -> cloneTable t = Ok t.
Proof.
  intros [_ _ _ _ [Hs Hl]]. unfold cloneTable, cloneKey. rewrite (key_decode_encode _ Hs). cbn. rewrite (key_decode_encode _ Hl). by destruct t.
Qed.
Lemma cloneTables_id ts : Forall table_wf ts -> cloneTables ts = Ok ts.
Proof. induction 1 as [|t ts Ht Hts IH]; [done|]. cbn. rewrite cloneTable_id by done. cbn. by rewrite IH. Qed.

Lemma decode_part count part rest : is_u32 (len part) ->
  decode_parts (S count) ((le_put 4 (len part) ++ part) ++ rest) = ('(parts, rest') ← decode_parts count rest; Ok (part :: parts, rest')).
Proof.
  intros Hp. cbn [decode_parts]. rewrite <- app_assoc. rewrite (slice_here 4), (drop_skip 4), drop_0 by (apply le_put_length || lia).
  rewrite le_get_put32 by done. rewrite !len_app, len_le_put. pose proof (len_nonneg rest). pose proof (len_nonneg part).
  rewrite (proj2 (Z.ltb_ge _ _)) by lia. rewrite (proj2 (Z.ltb_ge _ _)) by lia.
  by rewrite len_to_nat, take_app_length, drop_app_length.
Qed.
Definition table_parts (t : TableMetadata) : list bytes :=
  [Encode (SmallestInternal t); Encode (LargestInternal t); SmallestUser t; LargestUser t].
Definition parts_bytes (parts : list bytes) : bytes := flat_map (fun p => le_put 4 (len p) ++ p) parts.
Lemma encode_part_ok b p : is_u32 (len p) -> encode_part b p = Ok (b ++ le_put 4 (len p) ++ p).
Proof. intros Hp. unfold encode_part, MaxUint32. unfold is_u32 in Hp. by rewrite (proj2 (Z.ltb_ge _ _)) by lia. Qed.
Lemma encode_parts parts : forall b, Forall (fun p => is_u32 (len p)) parts -> foldM encode_part b parts = Ok (b ++ parts_bytes parts).
Proof.
  induction parts as [|p parts IH]; intros b Hp; cbn; [by rewrite app_nil_r|]. apply Forall_cons in Hp as [Hp Hps].
  rewrite encode_part_ok by done. cbn. rewrite IH by done. by rewrite !app_assoc.
Qed.
Lemma decode_parts_ok parts : Forall (fun p => is_u32 (len p)) parts -> decode_parts (length parts) (parts_bytes parts) = Ok (parts, []).
Proof.
  induction 1 as [|p parts Hp Hps IH]; [done|]. cbn [length parts_bytes flat_map]. rewrite decode_part by done.
  change (flat_map _ parts) with (parts_bytes parts). by rewrite IH.
Qed.
Lemma len_Encode k : len (Encode k) = len (userKey k) + 9.
Proof. unfold len. rewrite Encode_length. lia. Qed.
Lemma table_parts_u32 t : validateTable t = Ok tt -> Forall (fun p => is_u32 (len p)) (table_parts t).
Proof.
  intros (_ & _ & _ & _ & _ & _ & _ & _ & Hs & Hl & Hsu & Hlu & _)%validateTable_ok. unfold table_parts, is_u32.
  change sstable.MaxUserKeySize with 1048576 in *.
  rewrite !Forall_cons. split_and!; [..|done]; rewrite ?len_Encode, ?Hsu, ?Hlu; match goal with |- context [len ?x] => pose proof (len_nonneg x) end; lia.
Qed.
Lemma encodeTable_bytes t : validateTable t = Ok tt -> encodeTable t = Ok (table_fixed t ++ parts_bytes (table_parts t)).
Proof. intros Ht. unfold encodeTable. rewrite Ht. cbn -[foldM]. apply (encode_parts (table_parts t)), table_parts_u32, Ht. Qed.

Lemma table_fixed_length t : length (table_fixed t) = 72%nat.
Proof. unfold table_fixed. cbn [foldr]. by rewrite !length_app, !le_put_length. Qed.
Lemma table_bytes_bound t : validateTable t = Ok tt -> 88 <= len (table_fixed t ++ parts_bytes (table_parts t)) < 2 ^ 23.
Proof.
  intros Ht. pose proof Ht as (_ & _ & _ & _ & _ & _ & _ & _ & Hs & Hl & Hsu & Hlu & _)%validateTable_ok.
  rewrite len_app. unfold len at 1 3. rewrite table_fixed_length. unfold table_parts, parts_bytes. cbn [flat_map].
  rewrite !len_app, !len_le_put, !len_Encode, len_nil, Hsu, Hlu. change sstable.MaxUserKeySize with 1048576 in *.
  pose proof (len_nonneg (SmallestUser t)). pose proof (len_nonneg (LargestUser t)). lia.
Qed.

Lemma decodeTable_encode t b : table_wf t -> encodeTable t = Ok b -> decodeTable b = Ok t.
Proof.
  intros [Hlv Hnum Hblk [Hss Hls] [Hsk Hlk]] Henc. assert (validateTable t = Ok tt) as Ht.
  { unfold encodeTable in Henc. by apply bind_ok in Henc as ([] & ? & _). }
  rewrite encodeTable_bytes in Henc by done. apply Ok_inj in Henc as <-. pose proof (table_bytes_bound t Ht) as Hb.
  unfold decodeTable. rewrite (proj2 (Z.ltb_ge _ _)) by lia.
  rewrite (drop_skip 72) by (apply table_fixed_length || lia). rewrite drop_0.
  pose proof (decode_parts_ok _ (table_parts_u32 t Ht)) as Hparts. change (length (table_parts t)) with 4%nat in Hparts. rewrite Hparts. clear Hparts.
  cbn [mbind result_bind table_parts]. rewrite len_nil. cbn [negb Z.eqb].
  pose proof Ht as (_ & _ & _ & _ & _ & _ & _ & _ & Hs & Hl & Hsu & Hlu & _)%validateTable_ok.
  rewrite !len_Encode, Hsu, Hlu. unfold sstable.MaxInternalKeySize. rewrite !(proj2 (Z.ltb_ge _ _)) by lia. cbn [orb].
  unfold decode_key. rewrite (key_decode_encode _ Hsk). cbn [mbind result_bind]. rewrite (key_decode_encode _ Hlk). cbn [mbind result_bind].
  unfold table_fixed. cbn [foldr Nat.add]. rewrite <- !app_assoc, app_nil_l. fields. apply Forall_cons in Hnum as [? Hnum]. repeat (apply Forall_cons in Hnum as [? Hnum]).
  rewrite !le_get_put64, !le_get_put32 by done.
  match goal with |- context [validateTable ?x] => replace x with t by by destruct t end. by rewrite Ht.
Qed.

(** ** Fields *)

Definition field_bytes (f : encodedField) : bytes := [tag f] ++ le_put 4 (len (payload f)) ++ payload f.
Lemma len_field_bytes f : len (field_bytes f) = 5 + len (payload f).
Proof. unfold field_bytes. rewrite !len_app, len_le_put, len_cons, len_nil. lia. Qed.
Definition fields_bytes (fs : list encodedField) : bytes := flat_map field_bytes fs.
Definition small_field (f : encodedField) : Prop := is_u32 (len (payload f)).

Lemma append_field_ok b f r : append_field b f = Ok r -> r = b ++ field_bytes f /\ small_field f /\ len r <= MaxEditSize.
Proof.
  unfold append_field, small_field, is_u32, MaxUint32, fieldHeaderSize. destruct (_ || _) eqn:H; [done|]. intros <-%Ok_inj.
  rewrite orb_false_iff, !Z.ltb_ge in H. pose proof (len_nonneg (payload f)). split; [done|]. split; [lia|].
  rewrite len_app. change (len (_ ++ _ ++ _)) with (len (field_bytes f)). rewrite len_field_bytes. lia.
Qed.
Lemma append_fields_ok fs : forall b r, len b <= MaxEditSize -> foldM append_field b fs = Ok r ->
  r = b ++ fields_bytes fs /\ Forall small_field fs /\ len r <= MaxEditSize.
Proof.
  induction fs as [|f fs IH]; intros b r Hb H; cbn in H.
  { injection H as <-. by rewrite app_nil_r. }
  apply bind_ok in H as (b' & (-> & Hf & Hb')%append_field_ok & H). apply IH in H as (-> & Hfs & Hr); [|done].
  cbn [fields_bytes flat_map]. rewrite <- app_assoc. split_and!; [done|by constructor|by rewrite <- app_assoc in Hr].
Qed.
(** The size check is the only one: a smaller edit is encoded. *)
Lemma append_field_total b f : len (b ++ field_bytes f) <= MaxEditSize -> append_field b f = Ok (b ++ field_bytes f).
Proof.
  rewrite len_app, len_field_bytes. pose proof (len_nonneg (payload f)). pose proof (len_nonneg b).
  unfold append_field, fieldHeaderSize, MaxUint32. change MaxEditSize with 16777216. intros Hb.
  by rewrite !(proj2 (Z.ltb_ge _ _)) by lia.
Qed.
Lemma append_fields_total fs : forall b, len (b ++ fields_bytes fs) <= MaxEditSize -> foldM append_field b fs = Ok (b ++ fields_bytes fs).
Proof.
  induction fs as [|f fs IH]; intros b Hb; cbn [foldM]; [by rewrite app_nil_r|]. cbn [fields_bytes flat_map] in *.
  change (flat_map field_bytes fs) with (fields_bytes fs) in *. rewrite app_assoc in *.
  rewrite append_field_total; [by apply IH|]. rewrite len_app in Hb. pose proof (len_nonneg (fields_bytes fs)). lia.
Qed.

Lemma decode_fields_cons n f rest d : small_field f ->
  decode_fields (S n) (field_bytes f ++ rest) d = (d ← decode_field d f; decode_fields n rest d).
Proof.
  intros Hf. cbn [decode_fields]. unfold field_bytes, fieldHeaderSize. rewrite <- !app_assoc.
  fields. rewrite le_get_put32 by done. rewrite !len_app, len_le_put. pose proof (len_nonneg rest). pose proof (len_nonneg (payload f)).
  rewrite len_cons, len_nil. rewrite (proj2 (Z.ltb_ge _ _)) by lia. rewrite (proj2 (Z.ltb_ge _ _)) by lia.
  rewrite len_to_nat, take_app_length, drop_app_length. by destruct f.
Qed.
Lemma decode_fields_ok fs : forall d, Forall small_field fs ->
  decode_fields (length fs) (fields_bytes fs) d = (d ← foldM decode_field d fs; Ok (d, [])).
Proof.
  induction fs as [|f fs IH]; intros d Hfs; [done|]. apply Forall_cons in Hfs as [Hf Hfs]. cbn [length fields_bytes flat_map foldM].
  rewrite decode_fields_cons by done. destruct (decode_field d f); cbn [mbind result_bind]; [|done]. by apply IH.
Qed.

(** *** Scalars *)

Definition opt_tag {A} (t : byte) (o : option A) : gset byte := match o with Some _ => {[t]} | None => ∅ end.
Lemma opt_tag_in {A} t (o : option A) x : x ∈ opt_tag t o -> x = t.
Proof. destruct o; set_solver. Qed.

Section scalars.
Context (c : option bytes) (n l f r x : option Z) (m : option StorageMode) (ds : list DeletedFile) (ts : list TableMetadata).
Context (seen : gset byte) (files : gset Z).

Lemma decode_comparator c' : fieldComparator ∉ seen -> (forall s, c' = Some s -> 0 < len s <= 128) ->
  foldM decode_field (mkDecoder (mkEdit None n l f m r x ds ts) seen files) (scalar fieldComparator id c') =
    Ok (mkDecoder (mkEdit c' n l f m r x ds ts) (opt_tag fieldComparator c' ∪ seen) files).
Proof.
  intros Hs Hc. destruct c' as [s|]; cbn -[union]; [|by rewrite union_empty_l_L]. specialize (Hc s eq_refl). cbn.
  rewrite bool_decide_false by done. rewrite (proj2 (Z.eqb_neq _ _)), (proj2 (Z.ltb_ge _ _)) by lia. done.
Qed.
Lemma decode_mode m' : fieldStorageMode ∉ seen ->
  foldM decode_field (mkDecoder (mkEdit c n l f None r x ds ts) seen files) (scalar fieldStorageMode (fun m => [m]) m') =
    Ok (mkDecoder (mkEdit c n l f m' r x ds ts) (opt_tag fieldStorageMode m' ∪ seen) files).
Proof. intros Hs. destruct m'; cbn -[union]; [|by rewrite union_empty_l_L]. by rewrite bool_decide_false. Qed.
(** The five [uint64] fields. *)
Lemma decode_uint64 t o e e' :
  t ∈ [fieldNextFile; fieldLastSequence; fieldReplayFrontier; fieldReplicatedFrontier; fieldMaxAppliedMVCC] ->
  t ∉ seen -> (forall z, o = Some z -> is_u64 z) -> e' = match o with Some z => set_uint64 t z e | None => e end ->
  foldM decode_field (mkDecoder e seen files) (scalar t (le_put 8) o) = Ok (mkDecoder e' (opt_tag t o ∪ seen) files).
Proof.
  intros Ht Hs Ho ->. destruct o as [z|]; cbn -[union]; [|by rewrite union_empty_l_L]. specialize (Ho z eq_refl).
  unfold decode_field. cbn [tag payload]. rewrite bool_decide_false, len_le_put, le_get_put64 by done. destruct e.
  rewrite !elem_of_cons, elem_of_nil in Ht. by destruct Ht as [->|[->|[->|[->|[->|[]]]]]].
Qed.
End scalars.

Lemma decode_scalars e : edit_wf e -> scalars_ok e -> exists seen,
  foldM decode_field (mkDecoder no_edit ∅ ∅) (scalar_fields e) =
    Ok (mkDecoder (mkEdit (e_Comparator e) (e_NextFileNumber e) (e_LastSequence e) (e_ReplayFrontier e) (e_StorageMode e)
      (e_ReplicatedAppliedThrough e) (e_MaxAppliedMVCC e) [] []) seen ∅).
Proof.
  intros [Hn Hl Hf Hr Hx _ _] (_ & _ & _ & _ & Hc). destruct e as [c n l f m r x ds ts]. cbn in *.
  unfold scalar_fields, no_edit. cbn [e_Comparator e_NextFileNumber e_LastSequence e_ReplayFrontier e_StorageMode e_ReplicatedAppliedThrough e_MaxAppliedMVCC].
  assert (forall (t : byte) (s s' : gset byte), t ∉ s -> t ∉ s' -> t ∉ s ∪ s') as Hun by set_solver.
  assert (forall A (t t' : byte) (o : option A), t <> t' -> t ∉ opt_tag t' o) as Hne by (intros A t t' o H ->%opt_tag_in; done).
  assert (forall t : byte, t ∉ (∅ : gset byte)) as Hem by set_solver.
  eexists. rewrite foldM_app, decode_comparator by auto. cbn [mbind result_bind].
  rewrite foldM_app, (decode_uint64 _ _ fieldNextFile n _ (mkEdit c n None None None None None [] [])); [|set_solver|by auto|done|by destruct n].
  cbn [mbind result_bind].
  rewrite foldM_app, (decode_uint64 _ _ fieldLastSequence l _ (mkEdit c n l None None None None [] [])); [|set_solver|by auto|done|by destruct l].
  cbn [mbind result_bind].
  rewrite foldM_app, (decode_uint64 _ _ fieldReplayFrontier f _ (mkEdit c n l f None None None [] [])); [|set_solver|by auto 10|done|by destruct f].
  cbn [mbind result_bind]. rewrite foldM_app, decode_mode by auto 10. cbn [mbind result_bind].
  rewrite foldM_app, (decode_uint64 _ _ fieldReplicatedFrontier r _ (mkEdit c n l f m r None [] [])); [|set_solver|by auto 10|done|by destruct r].
  cbn [mbind result_bind].
  rewrite (decode_uint64 _ _ fieldMaxAppliedMVCC x _ (mkEdit c n l f m r x [] [])); [done|set_solver|by auto 12|done|by destruct x].
Qed.

(** *** Files *)

Lemma decode_deletion c n l f m r x ds ts seen files d : deleted_wf d -> len ds < MaxChangesPerEdit -> d_FileNumber d ∉ files ->
  decode_field (mkDecoder (mkEdit c n l f m r x ds ts) seen files) (deletion_field d) =
    Ok (mkDecoder (mkEdit c n l f m r x (ds ++ [d]) ts) seen ({[d_FileNumber d]} ∪ files)).
Proof.
  intros [Hl Hn] Hlen Hd. unfold decode_field, deletion_field. cbn [tag payload].
  rewrite len_app, !len_le_put, (proj2 (Z.leb_gt _ _)) by lia. cbn -[union]. fields.
  rewrite le_get_put32, le_get_put64, bool_decide_false by done. by destruct d.
Qed.
Lemma decode_deletions c n l f m r x ts seen ds' : forall ds files, Forall deleted_wf ds' -> len (ds ++ ds') <= MaxChangesPerEdit ->
  NoDup (d_FileNumber <$> ds') -> (forall d, d ∈ ds' -> d_FileNumber d ∉ files) ->
  foldM decode_field (mkDecoder (mkEdit c n l f m r x ds ts) seen files) (deletion_field <$> ds') =
    Ok (mkDecoder (mkEdit c n l f m r x (ds ++ ds') ts) seen (list_to_set (d_FileNumber <$> ds') ∪ files)).
Proof.
  induction ds' as [|d ds' IH]; intros ds files Hwf Hlen Hnd Hdis; cbn [fmap list_fmap foldM list_to_set].
  { by rewrite app_nil_r, union_empty_l_L. }
  apply Forall_cons in Hwf as [Hd Hwf]. apply NoDup_cons in Hnd as [Hnin Hnd]. rewrite len_app, len_cons in Hlen. pose proof (len_nonneg ds').
  rewrite decode_deletion; [|done|lia|by apply Hdis; left]. cbn [mbind result_bind]. rewrite IH; [|done| |done|].
  - rewrite <- app_assoc. cbn. do 2 f_equal. set_solver.
  - rewrite !len_app, len_cons, len_nil. lia.
  - intros d' Hd'. assert (d_FileNumber d' <> d_FileNumber d). { intros He. apply Hnin. rewrite <- He. by apply list_elem_of_fmap_2. }
    assert (d_FileNumber d' ∉ files) by (apply Hdis; by right). set_solver.
Qed.

Definition table_field (t : TableMetadata) : encodedField :=
  {| tag := fieldAddFile; payload := table_fixed t ++ parts_bytes (table_parts t) |}.
Lemma addition_fields ts : forall fields, Forall (fun t => validateTable t = Ok tt) ts ->
  foldM addition_field fields ts = Ok (fields ++ (table_field <$> ts)).
Proof.
  induction ts as [|t ts IH]; intros fields Hts; cbn; [by rewrite app_nil_r|]. apply Forall_cons in Hts as [Ht Hts].
  unfold addition_field at 2. rewrite encodeTable_bytes by done. cbn. rewrite IH by done. by rewrite <- app_assoc.
Qed.
Lemma decode_addition c n l f m r x ds ts seen files t : table_wf t -> validateTable t = Ok tt -> len ts < MaxChangesPerEdit ->
  FileNumber t ∉ files ->
  decode_field (mkDecoder (mkEdit c n l f m r x ds ts) seen files) (table_field t) =
    Ok (mkDecoder (mkEdit c n l f m r x ds (ts ++ [t])) seen ({[FileNumber t]} ∪ files)).
Proof.
  intros Hwf Hok Hlen Ht. unfold decode_field, table_field. cbn [tag payload].
  assert (decodeTable (table_fixed t ++ parts_bytes (table_parts t)) = Ok t) as Hdec.
  { apply decodeTable_encode; [done|]. by apply encodeTable_bytes. }
  rewrite Hdec, (proj2 (Z.leb_gt MaxChangesPerEdit (len ts))) by lia. cbn -[union]. by rewrite bool_decide_false.
Qed.
Lemma decode_additions c n l f m r x ds seen ts' : forall ts files, Forall table_wf ts' -> Forall (fun t => validateTable t = Ok tt) ts' ->
  len (ts ++ ts') <= MaxChangesPerEdit -> NoDup (FileNumber <$> ts') -> (forall t, t ∈ ts' -> FileNumber t ∉ files) ->
  exists files', foldM decode_field (mkDecoder (mkEdit c n l f m r x ds ts) seen files) (table_field <$> ts') =
    Ok (mkDecoder (mkEdit c n l f m r x ds (ts ++ ts')) seen files').
Proof.
  induction ts' as [|t ts' IH]; intros ts files Hwf Hok Hlen Hnd Hdis; cbn [fmap list_fmap foldM].
  { exists files. by rewrite app_nil_r. }
  apply Forall_cons in Hwf as [Ht Hwf]. apply Forall_cons in Hok as [Hok1 Hok]. apply NoDup_cons in Hnd as [Hnin Hnd].
  rewrite len_app, len_cons in Hlen. pose proof (len_nonneg ts').
  rewrite decode_addition; [|done|done|lia|by apply Hdis; left]. cbn [mbind result_bind].
  destruct (IH (ts ++ [t]) ({[FileNumber t]} ∪ files)) as [files' Hf]; [done|done| |done| |].
  - rewrite !len_app, len_cons, len_nil. lia.
  - intros t' Ht'. assert (FileNumber t' <> FileNumber t). { intros He. apply Hnin. rewrite <- He. by apply list_elem_of_fmap_2. }
    assert (FileNumber t' ∉ files) by (apply Hdis; by right). set_solver.
  - exists files'. by rewrite Hf, <- app_assoc.
Qed.

(** ** Edits *)

(** The order of the encoding. *)
Definition canonical (e : VersionEdit) : VersionEdit :=
  mkEdit (e_Comparator e) (e_NextFileNumber e) (e_LastSequence e) (e_ReplayFrontier e) (e_StorageMode e)
    (e_ReplicatedAppliedThrough e) (e_MaxAppliedMVCC e)
    (SortFunc compareDeleted (e_DeletedFiles e)) (SortFunc compareTableIdentity (e_AddedFiles e)).
Definition edit_fields (e : VersionEdit) : list encodedField :=
  scalar_fields e ++ (deletion_field <$> e_DeletedFiles e) ++ (table_field <$> e_AddedFiles e).
Definition edit_bytes (e : VersionEdit) : bytes :=
  (le_put 4 editMagic ++ le_put 2 EditVersion ++ le_put 2 (len (edit_fields e))) ++ fields_bytes (edit_fields e).

Lemma canonical_files_ok e : files_ok e -> files_ok (canonical e).
Proof.
  intros [Hd Ha Hn Hdc Hac]. unfold canonical. split; cbn.
  - by rewrite SortFunc_Permutation.
  - by rewrite SortFunc_Permutation.
  - unfold edit_numbers in *. cbn. by rewrite !SortFunc_Permutation.
  - unfold len in *. by rewrite SortFunc_Permutation.
  - unfold len in *. by rewrite SortFunc_Permutation.
Qed.
Lemma canonical_scalars_ok e : scalars_ok e -> scalars_ok (canonical e).
Proof.
  intros (H1 & H2). split; [|done]. cbn. repeat (destruct H1 as [H1|H1]; [by auto 10|]).
  assert (forall A (c : A -> A -> comparison) l, l <> [] -> SortFunc c l <> []) as Hs.
  { intros A cmp k Hk He. apply Hk. pose proof (SortFunc_Permutation cmp k) as Hp. rewrite He in Hp. by apply Permutation_nil in Hp. }
  destruct H1 as [H1|H1]; [apply (Hs _ compareTableIdentity) in H1|apply (Hs _ compareDeleted) in H1]; auto 12.
Qed.
Lemma canonical_wf e : edit_wf e -> edit_wf (canonical e).
Proof. intros []. unfold canonical. split; cbn; [done..| |]; by rewrite SortFunc_Permutation. Qed.
Lemma canonical_shape e : validateEditShape e = Ok tt -> validateEditShape (canonical e) = Ok tt.
Proof. rewrite !validateEditShape_ok. intros [? ?]. split; [by apply canonical_scalars_ok|by apply canonical_files_ok]. Qed.

Lemma scalar_count {A} t (enc : A -> bytes) o : (length (scalar t enc o) <= 1)%nat.
Proof. destruct o; cbn; lia. Qed.
Lemma edit_fields_count e : files_ok e -> len (edit_fields e) < 2 ^ 16.
Proof.
  intros [_ _ _ Hd Ha]. unfold edit_fields, scalar_fields, len, MaxChangesPerEdit in *. rewrite !length_app, !length_fmap.
  repeat match goal with |- context [length (scalar ?t ?f ?o)] => pose proof (scalar_count t f o); generalize dependent (length (scalar t f o)); intros end. lia.
Qed.

Lemma EncodeVersionEdit_bytes e : edit_wf e -> EncodeVersionEdit e =
  if is_ok (validateEditShape e) then
    if len (edit_bytes (canonical e)) <=? MaxEditSize then Ok (edit_bytes (canonical e)) else Err [ErrInvalidEdit]
  else validateEditShape e ≫= fun _ => Ok [].
Proof.
  intros Hwf. unfold EncodeVersionEdit. destruct (validateEditShape e) as [[]|err] eqn:Hv; [|done]. cbn [mbind result_bind is_ok].
  rewrite cloneTables_id by apply Hwf. cbn [mbind result_bind]. apply canonical_shape, validateEditShape_ok in Hv as [_ Hf].
  rewrite (addition_fields (SortFunc compareTableIdentity (e_AddedFiles e))) by apply (ok_added _ Hf). cbn [mbind result_bind].
  rewrite <- app_assoc. change (scalar_fields e ++ _ ++ _) with (edit_fields (canonical e)).
  pose proof (edit_fields_count _ Hf) as Hc. rewrite (proj2 (Z.ltb_ge _ _)) by lia.
  unfold u16. rewrite Z.mod_small by (pose proof (len_nonneg (edit_fields (canonical e))); lia). unfold edit_bytes.
  set (b := _ ++ _ ++ _). assert (len b <= MaxEditSize) as Hb by (unfold b; by rewrite !len_app, !len_le_put).
  clearbody b. destruct (Z.leb_spec (len (b ++ fields_bytes (edit_fields (canonical e)))) MaxEditSize) as [Hle|Hgt].
  - by apply append_fields_total.
  - destruct (foldM _ _ _) as [r|e'] eqn:Hr.
    + apply append_fields_ok in Hr as (-> & _ & ?); [lia|done].
    + f_equal. clear -Hr. revert b Hr. induction (edit_fields (canonical e)) as [|f fs IH]; intros b Hr; [done|]. cbn in Hr.
      destruct (append_field b f) as [b'|e''] eqn:Ha; cbn in Hr; [by eapply IH|]. injection Hr as ->.
      unfold append_field in Ha. destruct (_ || _); by simplify_eq.
Qed.

Lemma small_fields e b : EncodeVersionEdit e = Ok b -> edit_wf e -> Forall small_field (edit_fields (canonical e)).
Proof.
  intros He Hwf. rewrite EncodeVersionEdit_bytes in He by done. destruct (is_ok _) eqn:Hv; [|by destruct (validateEditShape e)].
  destruct (Z.leb_spec (len (edit_bytes (canonical e))) MaxEditSize) as [Hle|]; [|done]. unfold edit_bytes in Hle.
  apply append_fields_total in Hle. by apply append_fields_ok in Hle as (_ & ? & _); [|by rewrite !len_app, !len_le_put].
Qed.
Lemma decode_edit_fields e : edit_wf e -> validateEditShape e = Ok tt -> exists d,
  foldM decode_field (mkDecoder no_edit ∅ ∅) (edit_fields e) = Ok d /\ d_edit d = e.
Proof.
  intros Hwf [Hs [Hd Ha Hn Hdc Hac]]%validateEditShape_ok. destruct (decode_scalars e Hwf Hs) as [seen Hsc].
  apply NoDup_app in Hn as (Hnd & Hdis & Hna). unfold edit_fields. rewrite !foldM_app, Hsc. cbn [mbind result_bind].
  rewrite foldM_app, decode_deletions; [|by apply Hwf|done|done|set_solver]. cbn [mbind result_bind app].
  destruct (decode_additions (e_Comparator e) (e_NextFileNumber e) (e_LastSequence e) (e_ReplayFrontier e) (e_StorageMode e)
    (e_ReplicatedAppliedThrough e) (e_MaxAppliedMVCC e) (e_DeletedFiles e) seen (e_AddedFiles e) []
    (list_to_set (d_FileNumber <$> e_DeletedFiles e) ∪ ∅)) as [files' ->]; [by apply Hwf|done|done|done| |by eexists; split; [done|destruct e]].
  intros t Ht. rewrite union_empty_r_L, elem_of_list_to_set. intros Hin. apply (Hdis _ Hin). by apply list_elem_of_fmap_2.
Qed.
(** A written edit is read back in the order of the encoding. *)
Lemma edit_roundtrip e b : edit_wf e -> EncodeVersionEdit e = Ok b -> DecodeVersionEdit b = Ok (canonical e).
Proof.
  intros Hwf He. pose proof (small_fields e b He Hwf) as Hsmall. rewrite EncodeVersionEdit_bytes in He by done.
  destruct (validateEditShape e) as [[]|err] eqn:Hv; [|done]. cbn [is_ok] in He.
  destruct (Z.leb_spec (len (edit_bytes (canonical e))) MaxEditSize) as [Hle|]; [|done]. apply Ok_inj in He as <-.
  apply canonical_shape in Hv. pose proof (canonical_wf e Hwf) as Hwf'. set (c := canonical e) in *. clearbody c. clear e Hwf.
  destruct (decode_edit_fields c Hwf' Hv) as (d & Hd & Hde). pose proof Hv as [_ Hf]%validateEditShape_ok.
  apply edit_fields_count in Hf. pose proof (len_nonneg (edit_fields c)). unfold DecodeVersionEdit, editHeaderSize.
  rewrite (proj2 (Z.ltb_ge MaxEditSize _)) by lia. unfold edit_bytes in *. rewrite <- !app_assoc. fields. rewrite !len_app, !len_le_put.
  pose proof (len_nonneg (fields_bytes (edit_fields c))). rewrite (proj2 (Z.ltb_ge _ 8)) by lia. cbn [orb].
  rewrite !le_get_put. rewrite (Z.mod_small (len _)) by lia. change (_ mod _ =? editMagic) with true. change (_ mod _ =? EditVersion) with true. cbn [negb].
  rewrite len_to_nat, decode_fields_ok, Hd by done. cbn [mbind result_bind]. rewrite len_nil. cbn [Z.eqb negb]. by rewrite Hde, Hv.
Qed.

(** The edits of the manifest log.  Encoding an edit fails only when its
    shape is invalid or its encoding exceeds [MaxEditSize]; otherwise decoding
    the bytes gives the edit back, its deletions and additions sorted by level
    and file number, and nothing is lost or added by the sorting. *)
Theorem edit_codec e : edit_wf e ->
  match EncodeVersionEdit e with
  | Ok b => DecodeVersionEdit b = Ok (canonical e) /\ len b <= MaxEditSize
  | Err err => validateEditShape e = Err err \/
      validateEditShape e = Ok tt /\ err = [ErrInvalidEdit] /\ MaxEditSize < len (edit_bytes (canonical e))
  end /\ e_DeletedFiles (canonical e) ≡ₚ e_DeletedFiles e /\ e_AddedFiles (canonical e) ≡ₚ e_AddedFiles e.
Proof.
  intros Hwf. split; [|split; apply SortFunc_Permutation]. destruct (EncodeVersionEdit e) as [b|err] eqn:He.
  - split; [by apply edit_roundtrip|]. rewrite EncodeVersionEdit_bytes in He by done. destruct (is_ok _) eqn:Hv; [|by destruct (validateEditShape e)].
    destruct (Z.leb_spec (len (edit_bytes (canonical e))) MaxEditSize) as [Hle|]; [|done]. by apply Ok_inj in He as <-.
  - rewrite EncodeVersionEdit_bytes in He by done. destruct (validateEditShape e) as [[]|err'] eqn:Hv; cbn in He; [right|left; by injection He as ->].
    destruct (Z.leb_spec (len (edit_bytes (canonical e))) MaxEditSize) as [Hle|]; [done|]. by injection He as <-.
Qed.

Module EditExample.
Definition key (u : byte) (s : Z) : InternalKey := {| userKey := [u]; sequence := s; kind := KindValue |}.
Definition table (level number first last : Z) (a b : byte) : TableMetadata :=
  {| Level := level; FileNumber := number; FlushGeneration := number; FileSize := 1000; EntryCount := 2; DeletionCount := 0;
     RawKeyValueBytes := 4; DataBlockCount := 1; SmallestSequence := first; LargestSequence := last;
     SmallestInternal := key a last; LargestInternal := key b first; SmallestUser := [a]; LargestUser := [b] |}.
Definition edit : VersionEdit :=
  mkEdit (Some ComparatorName) (Some 9) (Some 40) (Some 20) (Some ModeStandalone) None None
    [{| d_Level := 1; d_FileNumber := 3 |}; {| d_Level := 0; d_FileNumber := 2 |}]
    [table 1 8 11 20 Byte.x63 Byte.x64; table 0 7 1 10 Byte.x61 Byte.x62].
Lemma key_ok u s : is_u64 s -> key_wf (key u s).
Proof. done. Qed.
Lemma table_ok level number first last a b : is_u32 level -> is_u64 number -> is_u64 first -> is_u64 last -> table_wf (table level number first last a b).
Proof. intros. split; cbn; [done|rewrite !Forall_cons; split_and!; done|done|done|split; by apply key_ok]. Qed.
End EditExample.
Import EditExample.

Lemma edit_codec_witness :
  match EncodeVersionEdit edit with
  | Ok b => DecodeVersionEdit b = Ok (canonical edit) /\ len b <= MaxEditSize
  | Err err => validateEditShape edit = Err err \/
      validateEditShape edit = Ok tt /\ err = [ErrInvalidEdit] /\ MaxEditSize < len (edit_bytes (canonical edit))
  end /\ e_DeletedFiles (canonical edit) ≡ₚ e_DeletedFiles edit /\ e_AddedFiles (canonical edit) ≡ₚ e_AddedFiles edit.
Proof.
  apply edit_codec. split; cbn; try (by intros ? [= <-]).
  - by rewrite !Forall_cons.
  - rewrite !Forall_cons. split_and!; [by apply table_ok..|done].
Defined.
