(* ===== verification/ManifestVersion.v ===== *)
(** * Versions (storage/manifest/version.go)

    The immutable view of the live tables, level by level, with the durable
    authorities (next file number, last sequence, frontiers), and [apply],
    the one transition of the manifest. *)

From S2P Require Import Prelude InternalKey Codec Loops MvccStore SSTable SSTableWriter Manifest.
Import manifest.

Module version.

(** [levels] is the array of [MaxLevels] slices. *)
Record Version := mkVersion {
  generation : Z; comparator : bytes; levels : list (list TableMetadata); nextFileNumber : Z; haveLastSequence : bool;
  lastSequence : Z; haveFrontier : bool; frontier : Z; mode : StorageMode; modeExplicit : bool; replicatedApplied : Z;
  haveReplicatedApplied : bool; maxAppliedMVCC : Z; haveMaxAppliedMVCC : bool
}.
#[export] Instance Version_eq_dec : EqDecision Version.
Proof. solve_decision. Defined.
Definition initialVersion : Version :=
  mkVersion 0 [] (replicate 8 []) 1 false 0 false 0 ModeStandalone false 0 false 0 false.

Definition set_levels (ls : list (list TableMetadata)) (v : Version) : Version :=
  mkVersion (generation v) (comparator v) ls (nextFileNumber v) (haveLastSequence v) (lastSequence v) (haveFrontier v) (frontier v)
    (mode v) (modeExplicit v) (replicatedApplied v) (haveReplicatedApplied v) (maxAppliedMVCC v) (haveMaxAppliedMVCC v).

(** [v.levels[level]] *)
Definition level_of (level : Z) (v : Version) : list TableMetadata := default [] (levels v !! Z.to_nat level).
Definition set_level (level : Z) (f : list TableMetadata -> list TableMetadata) (v : Version) : Version :=
  set_levels (alter f (Z.to_nat level) (levels v)) v.
(** The live tables, in the order of the loops over the levels. *)
Definition live (v : Version) : list TableMetadata := concat (levels v).

Definition Files (level : Z) (v : Version) : res (list TableMetadata) :=
  if MaxLevels <=? level then Ok [] else cloneTables (level_of level v).
Definition LiveTableCount (v : Version) : Z := foldl (fun count level => count + len level) 0 (levels v).
Definition LiveFileNumbers (v : Version) : list Z := SortFunc Z.compare (FileNumber <$> live v).

Definition findFile (tables : list TableMetadata) (fileNumber : Z) : option nat :=
  IndexFunc (fun table => FileNumber table =? fileNumber) tables.
Definition hasFile (fileNumber : Z) (v : Version) : bool :=
  existsb (fun level => match findFile level fileNumber with Some _ => true | None => false end) (levels v).
Definition highestFile (v : Version) : Z := foldl (fun highest table => Z.max highest (FileNumber table)) 0 (live v).

Definition tableEqual (left right : TableMetadata) : bool :=
  (Level left =? Level right) && (FileNumber left =? FileNumber right) && (FlushGeneration left =? FlushGeneration right) &&
  (FileSize left =? FileSize right) && (EntryCount left =? EntryCount right) && (DeletionCount left =? DeletionCount right) &&
  (RawKeyValueBytes left =? RawKeyValueBytes right) && (DataBlockCount left =? DataBlockCount right) &&
  (SmallestSequence left =? SmallestSequence right) && (LargestSequence left =? LargestSequence right) &&
  bytes_eqb (Encode (SmallestInternal left)) (Encode (SmallestInternal right)) &&
  bytes_eqb (Encode (LargestInternal left)) (Encode (LargestInternal right)) &&
  bytes_eqb (SmallestUser left) (SmallestUser right) && bytes_eqb (LargestUser left) (LargestUser right).

Definition Contains (table : TableMetadata) (v : Version) : bool :=
  if MaxLevels <=? Level table then false
  else
    match findFile (level_of (Level table) v) (FileNumber table) with
    | None => false
    | Some index => match level_of (Level table) v !! index with Some found => tableEqual found table | None => false end
    end.

(** ** Ordering of a level *)

Definition compareRecency (left right : TableMetadata) : comparison :=
  then_by (cmpUint64 (LargestSequence right) (LargestSequence left))
    (then_by (cmpUint64 (FlushGeneration right) (FlushGeneration left)) (cmpUint64 (FileNumber right) (FileNumber left))).
Definition compareSmallest (left right : TableMetadata) : comparison :=
  then_by (bytes_compare (SmallestUser left) (SmallestUser right)) (cmpUint64 (FileNumber left) (FileNumber right)).
Definition sortLevel (level : nat) (tables : list TableMetadata) : list TableMetadata :=
  if Nat.eqb level 0 then SortFunc compareRecency tables else SortFunc compareSmallest tables.

Fixpoint overlaps (tables : list TableMetadata) : bool :=
  match tables with
  | previous :: (table :: _) as rest =>
      (match bytes_compare (LargestUser previous) (SmallestUser table) with Lt => false | _ => true end) || overlaps rest
  | _ => false
  end.
(** The loop that sorts and checks the levels from [level] on. *)
Fixpoint sort_levels (level : nat) (ls : list (list TableMetadata)) : res (list (list TableMetadata)) :=
  match ls with
  | [] => Ok []
  | tables :: ls =>
      let tables := sortLevel level tables in
      if (0 <? Z.of_nat level) && overlaps tables then Err [ErrOverlappingLevel]
      else ls ← sort_levels (S level) ls; Ok (tables :: ls)
  end.

(** ** Frontiers *)

Record sequenceSpan := { first : Z; last : Z }.
Definition span_of (table : TableMetadata) : sequenceSpan := {| first := SmallestSequence table; last := LargestSequence table |}.
Definition compareSpan (left right : sequenceSpan) : comparison :=
  then_by (cmpUint64 (first left) (first right)) (cmpUint64 (last right) (last left)).

Fixpoint cover_loop (target cursor : Z) (spans : list sequenceSpan) : bool :=
  match spans with
  | [] => false
  | span :: spans =>
      if cursor <? first span then false
      else if last span <? cursor then cover_loop target cursor spans
      else if target <=? last span then true
      else cover_loop target (u64 (last span + 1)) spans
  end.
Definition frontierCovered (target : Z) (v : Version) : bool :=
  if haveFrontier v && (target =? frontier v) then true
  else if haveFrontier v && (frontier v =? MaxUint64) then target =? MaxUint64
  else
    let start := if haveFrontier v then u64 (frontier v + 1) else 0 in
    let spans := span_of <$> filter (fun table => start <= LargestSequence table /\ SmallestSequence table <= target) (live v) in
    cover_loop target start (SortFunc compareSpan spans).

(** The loop of [maximumContiguousFrontier]: [inl] is its early return. *)
Fixpoint contiguous_loop (cursor : Z) (advanced : bool) (spans : list sequenceSpan) : Z + Z * bool :=
  match spans with
  | [] => inr (cursor, advanced)
  | span :: spans =>
      if cursor <? first span then inr (cursor, advanced)
      else if last span <? cursor then contiguous_loop cursor advanced spans
      else if last span =? MaxUint64 then inl MaxUint64
      else contiguous_loop (u64 (last span + 1)) true spans
  end.
Definition maximumContiguousFrontier (v : Version) : Z * bool :=
  if haveFrontier v && (frontier v =? MaxUint64) then (frontier v, true)
  else
    let start := if haveFrontier v then u64 (frontier v + 1) else 0 in
    let spans := span_of <$> filter (fun table => start <= LargestSequence table) (live v) in
    match contiguous_loop start false (SortFunc compareSpan spans) with
    | inl maximum => (maximum, true)
    | inr (cursor, advanced) => if negb advanced then (frontier v, haveFrontier v) else (u64 (cursor - 1), true)
    end.

(** ** Transitions *)

Definition sstableMaxFileNumberPlusOne : Z := 1000000000000.
Definition maxNextFileNumber : Z := sstableMaxFileNumberPlusOne.

Fixpoint clone_levels (ls : list (list TableMetadata)) : res (list (list TableMetadata)) :=
  match ls with
  | [] => Ok []
  | level :: ls => level ← cloneTables level; ls ← clone_levels ls; Ok (level :: ls)
  end.
Definition clone (v : Version) : res Version := ls ← clone_levels (levels v); Ok (set_levels ls v).

(** The loops over the deleted and the added files, with the numbers seen. *)
Definition apply_deletion (state : Version * gset Z) (deletion : DeletedFile) : res (Version * gset Z) :=
  let '(next, seen) := state in
  if bool_decide (d_FileNumber deletion ∈ seen) then Err [ErrInvalidEdit]
  else
    match findFile (level_of (d_Level deletion) next) (d_FileNumber deletion) with
    | None => Err [ErrUnknownFile]
    | Some index => Ok (set_level (d_Level deletion) (Delete index) next, {[d_FileNumber deletion]} ∪ seen)
    end.
Definition apply_addition (state : Version * gset Z) (table : TableMetadata) : res (Version * gset Z) :=
  let '(next, seen) := state in
  if bool_decide (FileNumber table ∈ seen) then Err [ErrInvalidEdit]
  else if hasFile (FileNumber table) next then Err [ErrDuplicateFile]
  else if nextFileNumber next <=? FileNumber table then Err [ErrFileNumberCollision]
  else
    table ← cloneTable table;
    Ok (set_level (Level table) (fun level => level ++ [table]) next, {[FileNumber table]} ∪ seen).

(** The scalar fields that come before the files. *)
Definition apply_head (edit : VersionEdit) (next : Version) : res Version :=
  let 'mkVersion g c ls n hl l hf f m me r hr x hx := next in
  if g =? MaxUint64 then Err [ErrInvalidEdit]
  else
    c ← match e_Comparator edit with
        | Some name =>
            if negb (bytes_eqb name ComparatorName) || (negb (bytes_eqb c []) && negb (bytes_eqb c name))
            then Err [ErrComparatorMismatch] else Ok name
        | None => Ok c
        end;
    _ ← require (negb (bytes_eqb c [])) [ErrComparatorMismatch];
    '(m, me) ← match e_StorageMode edit with
        | Some mode => if negb (mode_valid mode) || me || negb (g =? 0) then Err [ErrModeMismatch] else Ok (mode, true)
        | None => Ok (m, me)
        end;
    n ← match e_NextFileNumber edit with
        | Some number =>
            if (number <? n) || (number =? 0) || (maxNextFileNumber <? number) then Err [ErrFileNumberCollision] else Ok number
        | None => Ok n
        end;
    '(l, hl) ← match e_LastSequence edit with
        | Some last => if hl && (last <? l) then Err [ErrSequenceRegression] else Ok (last, true)
        | None => Ok (l, hl)
        end;
    Ok (mkVersion g c ls n hl l hf f m me r hr x hx).

Definition apply_files (edit : VersionEdit) (next : Version) : res Version :=
  deleted ← foldM apply_deletion (next, ∅) (e_DeletedFiles edit);
  '(next, _) ← foldM apply_addition deleted (e_AddedFiles edit);
  ls ← sort_levels 0 (levels next);
  Ok (set_levels ls next).

(** The frontiers and the last checks. *)
Definition apply_tail (edit : VersionEdit) (next : Version) : res Version :=
  let 'mkVersion g c ls n hl l hf f m me r hr x hx := next in
  '(f, hf) ← match e_ReplayFrontier edit with
      | Some target =>
          if negb (Byte.eqb m ModeStandalone) then Err [ErrModeMismatch]
          else if hf && (target <? f) then Err [ErrFrontierRegression]
          else if negb hl || (l <? target) then Err [ErrFrontierGap]
          else if negb (frontierCovered target next) then Err [ErrFrontierGap]
          else Ok (target, true)
      | None => Ok (f, hf)
      end;
  '(r, hr) ← match e_ReplicatedAppliedThrough edit with
      | Some applied =>
          if negb (Byte.eqb m ModeReplicated) && negb (Byte.eqb m ModeReplicatedMVCC) || hr && (applied <? r)
          then Err [ErrModeMismatch] else Ok (applied, true)
      | None => Ok (r, hr)
      end;
  '(x, hx) ← match e_MaxAppliedMVCC edit with
      | Some maximum =>
          if negb (Byte.eqb m ModeReplicatedMVCC) || (maximum =? 0) || hx && (maximum <? x)
          then Err [ErrSequenceRegression] else Ok (maximum, true)
      | None => Ok (x, hx)
      end;
  let next := mkVersion g c ls n hl l hf f m me r hr x hx in
  if Byte.eqb m ModeStandalone && hr || (Byte.eqb m ModeReplicated || Byte.eqb m ModeReplicatedMVCC) && hf ||
    negb (Byte.eqb m ModeReplicatedMVCC) && hx
  then Err [ErrModeMismatch]
  else if n <=? highestFile next then Err [ErrFileNumberCollision]
  else Ok (mkVersion (u64 (g + 1)) c ls n hl l hf f m me r hr x hx).

Definition apply (edit : VersionEdit) (v : Version) : res Version :=
  _ ← validateEditShape edit;
  next ← clone v;
  next ← apply_head edit next;
  next ← apply_files edit next;
  apply_tail edit next.

(** ** Snapshots *)

Definition guard_field {A} (have : bool) (a : A) : option A := if have then Some a else None.
Definition snapshotEdit (v : Version) : res VersionEdit :=
  ls ← clone_levels (levels v);
  let edit :=
    mkEdit (Some (comparator v)) (Some (nextFileNumber v)) (guard_field (haveLastSequence v) (lastSequence v))
      (guard_field (haveFrontier v) (frontier v))
      (guard_field (Byte.eqb (mode v) ModeReplicated || Byte.eqb (mode v) ModeReplicatedMVCC) (mode v))
      (guard_field (haveReplicatedApplied v) (replicatedApplied v)) (guard_field (haveMaxAppliedMVCC v) (maxAppliedMVCC v))
      [] (concat ls) in
  _ ← apply edit initialVersion;
  Ok edit.

Fixpoint tables_equal (left right : list TableMetadata) : bool :=
  match left, right with
  | [], [] => true
  | a :: ls, b :: rs => tableEqual a b && tables_equal ls rs
  | _, _ => false
  end.
Fixpoint levels_equal (left right : list (list TableMetadata)) : bool :=
  match left, right with
  | [], [] => true
  | a :: ls, b :: rs => tables_equal a b && levels_equal ls rs
  | _, _ => false
  end.
Definition validateEquivalent (left right : Version) : res unit :=
  if negb (bytes_eqb (comparator left) (comparator right)) || negb (nextFileNumber left =? nextFileNumber right) ||
    negb (eqb (haveLastSequence left) (haveLastSequence right)) || negb (lastSequence left =? lastSequence right) ||
    negb (eqb (haveFrontier left) (haveFrontier right)) || negb (frontier left =? frontier right) ||
    negb (Byte.eqb (mode left) (mode right)) || negb (eqb (haveReplicatedApplied left) (haveReplicatedApplied right)) ||
    negb (replicatedApplied left =? replicatedApplied right) ||
    negb (eqb (haveMaxAppliedMVCC left) (haveMaxAppliedMVCC right)) || negb (maxAppliedMVCC left =? maxAppliedMVCC right)
  then Err [ErrManifestCorrupt]
  else if levels_equal (levels left) (levels right) then Ok tt
  else Err [ErrManifestCorrupt].

End version.
