(* ===== verification/ManifestApply.v ===== *)
(** * What applying an edit does (storage/manifest/version.go)

    The loops of [apply] in closed form: the deleted files are filtered out,
    the added ones appended to their levels, and the levels sorted.  It
    follows that the order of the files in an edit does not matter, so that
    the edit the log gives back leads to the version that was published. *)

From S2P Require Import Prelude InternalKey Codec Loops MvccStore SSTable SSTableWriter Manifest ManifestCodec ManifestVersion.
Import manifest version.

(** ** Orders *)

Lemma compareRecency_then a b : compareRecency a b =
  then_by (LargestSequence b ?= LargestSequence a) (then_by (FlushGeneration b ?= FlushGeneration a) (FileNumber b ?= FileNumber a)).
Proof. unfold compareRecency. by rewrite !cmpUint64_compare. Qed.
Lemma compareRecency_antisym a b : compareRecency b a = CompOpp (compareRecency a b).
Proof. by rewrite !compareRecency_then, !then_by_opp, <- !Z.compare_antisym. Qed.
Lemma compareRecency_le a b : compareRecency a b <> Gt <->
  LargestSequence b < LargestSequence a \/ LargestSequence b = LargestSequence a /\
  (FlushGeneration b < FlushGeneration a \/ FlushGeneration b = FlushGeneration a /\ FileNumber b <= FileNumber a).
Proof.
  rewrite compareRecency_then.
  destruct (Z.compare_spec (LargestSequence b) (LargestSequence a)), (Z.compare_spec (FlushGeneration b) (FlushGeneration a)),
    (Z.compare_spec (FileNumber b) (FileNumber a)); cbn; split; try done; lia.
Qed.
Lemma compareRecency_trans a b c : compareRecency a b <> Gt -> compareRecency b c <> Gt -> compareRecency a c <> Gt.
Proof. rewrite !compareRecency_le. lia. Qed.
Lemma compareRecency_Eq a b : compareRecency a b = Eq -> FileNumber a = FileNumber b.
Proof. rewrite compareRecency_then, !then_by_Eq, !Z.compare_eq_iff. lia. Qed.

Lemma compareSmallest_then a b : compareSmallest a b =
  then_by (bytes_compare (SmallestUser a) (SmallestUser b)) (FileNumber a ?= FileNumber b).
Proof. unfold compareSmallest. by rewrite cmpUint64_compare. Qed.
Lemma compareSmallest_antisym a b : compareSmallest b a = CompOpp (compareSmallest a b).
Proof. by rewrite !compareSmallest_then, !then_by_opp, <- Z.compare_antisym, <- bytes_compare_antisym. Qed.
Lemma compareSmallest_le a b : compareSmallest a b <> Gt <->
  bytes_lt (SmallestUser a) (SmallestUser b) \/ SmallestUser a = SmallestUser b /\ FileNumber a <= FileNumber b.
Proof.
  rewrite compareSmallest_then, <- bytes_compare_eq. unfold bytes_lt.
  destruct (bytes_compare _ _), (Z.compare_spec (FileNumber a) (FileNumber b)); cbn; split; try done; try lia; naive_solver lia.
Qed.
Lemma compareSmallest_trans a b c : compareSmallest a b <> Gt -> compareSmallest b c <> Gt -> compareSmallest a c <> Gt.
Proof.
  rewrite !compareSmallest_le. intros [H1|[E1 H1]] [H2|[E2 H2]]; [left; by etrans|left; by rewrite <- E2|left; by rewrite E1|].
  right. split; [congruence|lia].
Qed.
Lemma compareSmallest_Eq a b : compareSmallest a b = Eq -> FileNumber a = FileNumber b.
Proof. rewrite compareSmallest_then, then_by_Eq, Z.compare_eq_iff. by intros [_ ?]. Qed.

Lemma sortLevel_Permutation i l : sortLevel i l ≡ₚ l.
Proof. unfold sortLevel. destruct (Nat.eqb i 0); apply SortFunc_Permutation. Qed.
Lemma sortLevel_recent l : StronglySorted (fun a b => compareRecency a b <> Gt) (sortLevel 0 l).
Proof. apply SortFunc_sorted; [apply compareRecency_antisym|apply compareRecency_trans]. Qed.
Lemma sortLevel_smallest i l : i <> 0%nat -> StronglySorted (fun a b => compareSmallest a b <> Gt) (sortLevel i l).
Proof.
  intros Hi. unfold sortLevel. rewrite (proj2 (Nat.eqb_neq i 0)) by done.
  apply SortFunc_sorted; [apply compareSmallest_antisym|apply compareSmallest_trans].
Qed.
Lemma distinct_ties (l : list TableMetadata) a b : NoDup (FileNumber <$> l) -> a ∈ l -> b ∈ l -> FileNumber a = FileNumber b -> a = b.
Proof.
  induction l as [|c l IH]; cbn; [by intros _ ?%not_elem_of_nil|]. rewrite NoDup_cons, !elem_of_cons. intros [Hn Hnd] [->|Ha] [->|Hb] He.
  - done.
  - destruct Hn. rewrite He. by apply list_elem_of_fmap_2.
  - destruct Hn. rewrite <- He. by apply list_elem_of_fmap_2.
  - by apply IH.
Qed.
(** The tables of a level have one order. *)
Lemma sortLevel_unique i l k : NoDup (FileNumber <$> l) -> l ≡ₚ k -> sortLevel i l = sortLevel i k.
Proof.
  intros Hnd Hp. destruct (decide (i = 0%nat)) as [->|Hi].
  - apply SortFunc_unique; [apply compareRecency_antisym|apply compareRecency_trans| |apply sortLevel_recent|by rewrite sortLevel_Permutation].
    intros a b Ha Hb ?%compareRecency_Eq. by eapply distinct_ties.
  - unfold sortLevel at 1. rewrite (proj2 (Nat.eqb_neq i 0)) by done.
    apply SortFunc_unique; [apply compareSmallest_antisym|apply compareSmallest_trans| |by apply sortLevel_smallest|by rewrite sortLevel_Permutation].
    intros a b Ha Hb ?%compareSmallest_Eq. by eapply distinct_ties.
Qed.
Lemma sortLevel_idem i l : NoDup (FileNumber <$> l) -> sortLevel i (sortLevel i l) = sortLevel i l.
Proof. intros Hnd. apply sortLevel_unique; [by rewrite sortLevel_Permutation|apply sortLevel_Permutation]. Qed.

(** Tables in key order with no key in common. *)
Definition disjoint_tables : list TableMetadata -> Prop := StronglySorted (fun a b => bytes_lt (LargestUser a) (SmallestUser b)).
Definition bounded_table (t : TableMetadata) : Prop := ~ bytes_lt (LargestUser t) (SmallestUser t).
Lemma overlaps_false l : Forall bounded_table l -> overlaps l = false <-> disjoint_tables l.
Proof.
  unfold disjoint_tables. induction 1 as [|a l Ha Hl IH]; [split; [constructor|done]|]. destruct l as [|b l].
  { split; [|done]. intros _. by repeat constructor. }
  cbn [overlaps]. fold (overlaps (b :: l)). rewrite orb_false_iff, IH. split.
  - intros [Hab Hs]. assert (bytes_lt (LargestUser a) (SmallestUser b)) as Hlt by (unfold bytes_lt; by destruct (bytes_compare _ _)).
    constructor; [done|]. inversion Hs as [|? ? Hs' Hf]; subst. constructor; [done|]. apply Forall_cons in Hl as [Hb _].
    eapply Forall_impl; [exact Hf|]. cbn. intros x Hx. eapply bytes_lt_le_trans; [exact Hlt|]. intros Hxb. apply Hb. by etrans.
  - inversion 1 as [|? ? Hs Hf]; subst. apply Forall_cons in Hf as [Hab _]. unfold bytes_lt in Hab. by rewrite Hab.
Qed.

(** ** Files of a version *)

Definition distinct (v : Version) : Prop := NoDup (FileNumber <$> live v).

Lemma set_levels_twice ls ls' v : set_levels ls (set_levels ls' v) = set_levels ls v.
Proof. done. Qed.
Lemma set_levels_id v : set_levels (levels v) v = v.
Proof. by destruct v. Qed.
Lemma findFile_Some l n i : findFile l n = Some i -> exists t, l !! i = Some t /\ FileNumber t = n.
Proof. intros (t & Ht & Hn)%IndexFunc_Some. exists t. by apply Z.eqb_eq in Hn. Qed.
Lemma findFile_None l n : findFile l n = None <-> n ∉ FileNumber <$> l.
Proof.
  unfold findFile. rewrite IndexFunc_None, list_elem_of_fmap. split.
  - intros H (t & -> & Ht). specialize (H t Ht). cbn in H. by rewrite Z.eqb_refl in H.
  - intros H t Ht. apply Z.eqb_neq. intros <-. eauto.
Qed.
Lemma hasFile_live n v : hasFile n v = true <-> n ∈ FileNumber <$> live v.
Proof.
  unfold hasFile, live. rewrite existsb_exists. setoid_rewrite <- list_elem_of_In.
  assert (forall l, match findFile l n with Some _ => true | None => false end = true <-> n ∈ FileNumber <$> l) as Hf.
  { intros l. destruct (findFile l n) eqn:H; [|apply findFile_None in H; naive_solver].
    apply findFile_Some in H as (t & Ht & <-). split; [|done]. intros _. apply list_elem_of_fmap_2. by eapply list_elem_of_lookup_2. }
  setoid_rewrite Hf. induction (levels v) as [|l ls IH]; cbn.
  - split; [by intros (? & ?%not_elem_of_nil & _)|by intros ?%not_elem_of_nil].
  - rewrite fmap_app, elem_of_app, <- IH. setoid_rewrite elem_of_cons. naive_solver.
Qed.
Lemma level_live i l v : levels v !! i = Some l -> l ⊆ live v.
Proof. intros Hl t Ht. unfold live. apply elem_of_concat. exists l. split; [by eapply list_elem_of_lookup_2|done]. Qed.
Lemma distinct_level v i l : distinct v -> levels v !! i = Some l -> NoDup (FileNumber <$> l).
Proof.
  unfold distinct, live. intros Hd Hl. rewrite <- (take_drop_middle _ _ _ Hl) in Hd. rewrite concat_app in Hd. cbn in Hd.
  rewrite !fmap_app, !NoDup_app in Hd. by destruct Hd as (_ & _ & ? & _).
Qed.

(** ** Deletions *)

(** Filters the tables with a number of [ns] out of every level. *)
Definition without (ns : list Z) (v : Version) : Version := set_levels ((fun l => filter (fun t => FileNumber t ∉ ns) l) <$> levels v) v.

Lemma Delete_filter (l : list TableMetadata) i t : NoDup (FileNumber <$> l) -> l !! i = Some t ->
  Delete i l = filter (fun x => FileNumber x ∉ [FileNumber t]) l.
Proof.
  intros Hnd Hi. unfold Delete. rewrite <- (take_drop_middle l i t Hi) in Hnd |- * at 3.
  rewrite fmap_app, fmap_cons in Hnd. apply NoDup_app in Hnd as (_ & Hdis & [Hnin _]%NoDup_cons).
  rewrite filter_app, filter_cons_False by (intros H; by apply H; left). f_equal; symmetry; apply filter_all, Forall_forall.
  - intros x Hx He%list_elem_of_singleton. apply (Hdis (FileNumber x)); [by apply list_elem_of_fmap_2|]. rewrite He. left.
  - intros x Hx He%list_elem_of_singleton. apply Hnin. rewrite <- He. by apply list_elem_of_fmap_2.
Qed.
Lemma distinct_two (v : Version) i j l k t u : distinct v -> levels v !! i = Some l -> levels v !! j = Some k ->
  t ∈ l -> u ∈ k -> FileNumber t = FileNumber u -> i = j.
Proof.
  unfold distinct, live. revert i j. induction (levels v) as [|x ls IH]; intros i j Hd Hi Hj Ht Hu He; [done|]. cbn in Hd.
  rewrite fmap_app in Hd. apply NoDup_app in Hd as (_ & Hdis & Hd).
  assert (forall n (y : list TableMetadata) w, ls !! n = Some y -> w ∈ y -> FileNumber w ∈ FileNumber <$> concat ls) as Hin.
  { intros n y w Hn Hw. apply list_elem_of_fmap_2, elem_of_concat. exists y. split; [by eapply list_elem_of_lookup_2|done]. }
  destruct i as [|i], j as [|j]; cbn in Hi, Hj; simplify_eq.
  - done.
  - destruct (Hdis (FileNumber t)); [by apply list_elem_of_fmap_2|]. rewrite He. by eapply Hin.
  - destruct (Hdis (FileNumber u)); [by apply list_elem_of_fmap_2|]. rewrite <- He. by eapply Hin.
  - f_equal. by apply IH.
Qed.
Lemma delete_without v level n i : distinct v -> findFile (level_of level v) n = Some i ->
  set_level level (Delete i) v = without [n] v.
Proof.
  intros Hd Hf. apply findFile_Some in Hf as (t & Ht & <-). unfold level_of in Ht.
  destruct (levels v !! Z.to_nat level) as [l|] eqn:Hl; [|done]. cbn in Ht. unfold set_level, without. f_equal.
  apply list_eq. intros j. rewrite list_lookup_fmap. destruct (decide (j = Z.to_nat level)) as [->|Hne].
  - rewrite list_lookup_alter_eq, Hl. cbn. f_equal. apply Delete_filter; [by eapply distinct_level|done].
  - rewrite list_lookup_alter_ne by done. destruct (levels v !! j) as [k|] eqn:Hk; [|done]. cbn. f_equal. symmetry.
    apply filter_all, Forall_forall. intros u Hu He%list_elem_of_singleton. apply Hne.
    by eapply distinct_two; [done|exact Hk|exact Hl|exact Hu|by eapply list_elem_of_lookup_2|].
Qed.
Lemma live_without ns v : live (without ns v) = filter (fun t => FileNumber t ∉ ns) (live v).
Proof. unfold live, without. cbn. by rewrite concat_filter. Qed.
Lemma without_distinct ns v : distinct v -> distinct (without ns v).
Proof. unfold distinct. rewrite live_without. apply NoDup_fmap_filter. Qed.
Lemma without_app ns ms v : without ms (without ns v) = without (ns ++ ms) v.
Proof.
  unfold without. rewrite set_levels_twice. f_equal. cbn. rewrite <- list_fmap_compose. apply list_fmap_ext. intros i l _. cbn.
  rewrite list_filter_filter. apply list_filter_iff. intros t. rewrite elem_of_app. tauto.
Qed.
Lemma without_nil v : without [] v = v.
Proof.
  unfold without. assert ((fun l => filter (fun t => FileNumber t ∉ []) l) <$> levels v = levels v) as ->; [|apply set_levels_id].
  rewrite <- (list_fmap_id (levels v)) at 2. apply list_fmap_ext.
  intros i l _. apply filter_all, Forall_forall. intros t _. apply not_elem_of_nil.
Qed.
Lemma level_of_without level ns v : level_of level (without ns v) = filter (fun t => FileNumber t ∉ ns) (level_of level v).
Proof. unfold level_of, without. cbn. rewrite list_lookup_fmap. by destruct (levels v !! _). Qed.

(** The file a deletion names is live at its level. *)
Definition names_live (v : Version) (d : DeletedFile) : Prop := d_FileNumber d ∈ FileNumber <$> level_of (d_Level d) v.

Lemma apply_deletion_ok v seen d v' seen' : distinct v ->
  apply_deletion (v, seen) d = Ok (v', seen') <->
  d_FileNumber d ∉ seen /\ names_live v d /\ v' = without [d_FileNumber d] v /\ seen' = {[d_FileNumber d]} ∪ seen.
Proof.
  intros Hd. unfold apply_deletion, names_live. case_bool_decide; [naive_solver|].
  destruct (findFile _ _) as [i|] eqn:Hf.
  - rewrite (delete_without _ _ _ _ Hd Hf). split; [intros [= <- <-]|by intros (_ & _ & -> & ->)]. split_and!; try done.
    apply findFile_Some in Hf as (t & Ht & <-). apply list_elem_of_fmap_2. by eapply list_elem_of_lookup_2.
  - apply findFile_None in Hf. naive_solver.
Qed.
Lemma apply_deletions_ok ds : forall v seen v' seen', distinct v ->
  foldM apply_deletion (v, seen) ds = Ok (v', seen') <->
  NoDup (d_FileNumber <$> ds) /\ (forall n, n ∈ d_FileNumber <$> ds -> n ∉ seen) /\ (forall d, d ∈ ds -> names_live v d) /\
  v' = without (d_FileNumber <$> ds) v /\ seen' = list_to_set (d_FileNumber <$> ds) ∪ seen.
Proof.
  induction ds as [|d ds IH]; intros v seen v' seen' Hv.
  { cbn. rewrite without_nil, union_empty_l_L. split; [intros [= <- <-]|by intros (_ & _ & _ & -> & ->)].
    split_and!; [constructor|by intros n ?%not_elem_of_nil..|done|done]. }
  cbn [foldM]. rewrite bind_ok. cbn [fmap list_fmap list_to_set]. rewrite NoDup_cons. split.
  - intros ([v1 s1] & (Hn & Hl & -> & ->)%apply_deletion_ok & H); [|done]. apply IH in H as (Hnd & Hdis & Hlive & -> & ->); [|by apply without_distinct].
    assert (d_FileNumber d ∉ d_FileNumber <$> ds) by (intros Hin; apply (Hdis _ Hin); set_solver).
    split_and!; [done|done| | |by rewrite without_app|set_solver].
    + intros n [->|Hin]%elem_of_cons; [done|]. specialize (Hdis n Hin). set_solver.
    + intros d' [->|Hd']%elem_of_cons; [done|]. specialize (Hlive d' Hd'). unfold names_live in *. rewrite level_of_without in Hlive.
      apply list_elem_of_fmap in Hlive as (t & Ht & [_ Hin]%list_elem_of_filter). rewrite Ht. by apply list_elem_of_fmap_2.
  - intros ((Hnin & Hnd) & Hdis & Hlive & -> & ->). eexists (_, _). rewrite apply_deletion_ok by done.
    split; [split_and!; [apply Hdis; left|apply Hlive; left|done|done]|]. apply IH; [by apply without_distinct|].
    split_and!; [done| | |by rewrite without_app|set_solver].
    + intros n Hin. assert (n ∉ seen) by (apply Hdis; by right). set_solver.
    + intros d' Hd'. assert (names_live v d') as Hld by (apply Hlive; by right). unfold names_live in *. rewrite level_of_without.
      apply list_elem_of_fmap in Hld as (t & Ht & Hin). rewrite Ht. apply list_elem_of_fmap_2, list_elem_of_filter. split; [|done].
      intros He%list_elem_of_singleton. apply Hnin. rewrite <- He, <- Ht. by apply list_elem_of_fmap_2.
Qed.

(** ** Additions *)

(** The tables of [ts] at the end of their levels. *)
Definition with_tables (ts : list TableMetadata) (v : Version) : Version :=
  set_levels (imap (fun i l => l ++ filter (fun t => Level t = Z.of_nat i) ts) (levels v)) v.
(** The level of a table exists. *)
Definition level_fits (v : Version) (t : TableMetadata) : Prop := 0 <= Level t < len (levels v).

Lemma filter_split {A} (P Q R : A -> Prop) `{!forall x, Decision (P x), !forall x, Decision (Q x), !forall x, Decision (R x)} l :
  (forall x, R x <-> P x \/ Q x) -> (forall x, P x -> ~ Q x) -> filter R l ≡ₚ filter P l ++ filter Q l.
Proof.
  intros HR HPQ. induction l as [|x l IH]; [done|]. rewrite !filter_cons. specialize (HR x). specialize (HPQ x).
  repeat case_decide; try tauto; cbn; rewrite IH; first [done|apply Permutation_middle].
Qed.
Lemma concat_spread (ts : list TableMetadata) ls : forall k : nat,
  concat (imap (fun i l => l ++ filter (fun t => Level t = Z.of_nat (k + i)) ts) ls) ≡ₚ
    concat ls ++ filter (fun t => Z.of_nat k <= Level t < Z.of_nat k + len ls) ts.
Proof.
  induction ls as [|l ls IH]; intros k; cbn [imap concat].
  { rewrite filter_none; [done|]. apply Forall_forall. intros t _. rewrite len_nil. lia. }
  rewrite (imap_ext _ (fun i l => l ++ filter (fun t => Level t = Z.of_nat (S k + i)) ts)).
  2:{ intros i l' _. cbn. f_equal. apply list_filter_iff. intros t. lia. }
  rewrite IH. rewrite (filter_split (fun t => Level t = Z.of_nat (k + 0)) (fun t => Z.of_nat (S k) <= Level t < Z.of_nat (S k) + len ls)
    (fun t => Z.of_nat k <= Level t < Z.of_nat k + len (l :: ls))).
  - rewrite <- !app_assoc. apply Permutation_app_head. rewrite !app_assoc. apply Permutation_app_tail, Permutation_app_comm.
  - intros t. rewrite len_cons. pose proof (len_nonneg ls). lia.
  - intros t. lia.
Qed.
Lemma live_with ts v : Forall (level_fits v) ts -> live (with_tables ts v) ≡ₚ live v ++ ts.
Proof.
  intros Hf. unfold live, with_tables. cbn. rewrite (concat_spread ts (levels v) 0). apply Permutation_app_head.
  rewrite filter_all; [done|]. eapply Forall_impl; [exact Hf|]. unfold level_fits. lia.
Qed.
Lemma with_app ts us v : with_tables us (with_tables ts v) = with_tables (ts ++ us) v.
Proof.
  unfold with_tables. rewrite set_levels_twice. f_equal. cbn. apply list_eq. intros i. rewrite !list_lookup_imap.
  destruct (levels v !! i); cbn; [|done]. by rewrite filter_app, app_assoc.
Qed.
Lemma with_nil v : with_tables [] v = v.
Proof.
  unfold with_tables. assert (imap (fun i l => l ++ filter (fun t => Level t = Z.of_nat i) []) (levels v) = levels v) as ->; [|apply set_levels_id].
  apply list_eq. intros i. rewrite list_lookup_imap. destruct (levels v !! i); cbn; [by rewrite app_nil_r|done].
Qed.
Lemma with_one t v : 0 <= Level t -> set_level (Level t) (fun level => level ++ [t]) v = with_tables [t] v.
Proof.
  intros Ht. unfold set_level, with_tables. f_equal. apply list_eq. intros i. rewrite list_lookup_imap.
  destruct (decide (i = Z.to_nat (Level t))) as [->|Hne].
  - rewrite list_lookup_alter_eq. destruct (levels v !! _); cbn [fmap option_fmap option_map]; [|done]. by rewrite filter_cons_True by lia.
  - rewrite list_lookup_alter_ne by done. destruct (levels v !! i); cbn [fmap option_fmap option_map]; [|done]. by rewrite filter_cons_False, app_nil_r by lia.
Qed.
Lemma with_lookup ts v i : levels (with_tables ts v) !! i = (fun l => l ++ filter (fun t => Level t = Z.of_nat i) ts) <$> levels v !! i.
Proof. apply list_lookup_imap. Qed.
Lemma with_levels_len ts v : len (levels (with_tables ts v)) = len (levels v).
Proof. unfold len, with_tables. cbn. by rewrite length_imap. Qed.

(** The number of an added table is reserved and not in use. *)
Definition number_fits (v : Version) (t : TableMetadata) : Prop :=
  FileNumber t ∉ FileNumber <$> live v /\ FileNumber t < nextFileNumber v.
Lemma apply_addition_ok v seen t v' seen' : table_wf t ->
  apply_addition (v, seen) t = Ok (v', seen') <->
  FileNumber t ∉ seen /\ number_fits v t /\ v' = with_tables [t] v /\ seen' = {[FileNumber t]} ∪ seen.
Proof.
  intros Ht. unfold apply_addition, number_fits. rewrite (cloneTable_id _ Ht). cbn [mbind result_bind].
  rewrite with_one by apply Ht. case_bool_decide; [naive_solver|].
  destruct (hasFile _ _) eqn:Hh.
  { apply hasFile_live in Hh. naive_solver. }
  assert (FileNumber t ∉ FileNumber <$> live v) by (rewrite <- hasFile_live; congruence).
  destruct (Z.leb_spec (nextFileNumber v) (FileNumber t)); [split; [done|lia]|]. naive_solver.
Qed.
Lemma number_fits_with v t u : level_fits v t -> number_fits (with_tables [t] v) u <-> number_fits v u /\ FileNumber u <> FileNumber t.
Proof.
  intros Ht. unfold number_fits. rewrite live_with by by constructor. rewrite fmap_app, elem_of_app; cbn [fmap list_fmap]; rewrite list_elem_of_singleton. cbn. tauto.
Qed.
Lemma apply_additions_ok ts : forall v seen v' seen', Forall table_wf ts -> Forall (level_fits v) ts ->
  foldM apply_addition (v, seen) ts = Ok (v', seen') <->
  NoDup (FileNumber <$> ts) /\ (forall n, n ∈ FileNumber <$> ts -> n ∉ seen) /\ Forall (number_fits v) ts /\
  v' = with_tables ts v /\ seen' = list_to_set (FileNumber <$> ts) ∪ seen.
Proof.
  induction ts as [|t ts IH]; intros v seen v' seen' Hwf Hfit.
  { cbn. rewrite with_nil, union_empty_l_L. split; [intros [= <- <-]|by intros (_ & _ & _ & -> & ->)].
    split_and!; [constructor|by intros n ?%not_elem_of_nil|done..]. }
  apply Forall_cons in Hwf as [Ht Hwf]. apply Forall_cons in Hfit as [Hlt Hfit].
  assert (Forall (level_fits (with_tables [t] v)) ts) as Hfit'.
  { eapply Forall_impl; [exact Hfit|]. unfold level_fits. by rewrite with_levels_len. }
  cbn [foldM]. rewrite bind_ok. cbn [fmap list_fmap list_to_set]. rewrite NoDup_cons, Forall_cons. split.
  - intros ([v1 s1] & (Hn & Hl & -> & ->)%apply_addition_ok & H); [|done]. apply IH in H as (Hnd & Hdis & Hlive & -> & ->); [|done..].
    assert (FileNumber t ∉ FileNumber <$> ts) by (intros Hin; apply (Hdis _ Hin); set_solver).
    split_and!; [done|done| |done| |by rewrite with_app|set_solver].
    + intros n [->|Hin]%elem_of_cons; [done|]. specialize (Hdis n Hin). set_solver.
    + eapply Forall_impl; [exact Hlive|]. cbn. intros u Hu. by apply number_fits_with in Hu as [? _].
  - intros ((Hnin & Hnd) & Hdis & (Hnt & Hlive) & -> & ->). eexists (_, _). rewrite apply_addition_ok by done.
    split; [split_and!; [apply Hdis; left|done..]|]. apply IH; [done..|].
    split_and!; [done| | |by rewrite with_app|set_solver].
    + intros n Hin. assert (n ∉ seen) by (apply Hdis; by right). set_solver.
    + rewrite Forall_forall in *. intros u Hu. apply number_fits_with; [done|]. split; [by apply Hlive|].
      intros He. apply Hnin. rewrite <- He. by apply list_elem_of_fmap_2.
Qed.

(** ** Sorting *)

Lemma sort_levels_ok ls : forall k ls', sort_levels k ls = Ok ls' <->
  ls' = imap (fun i l => sortLevel (k + i) l) ls /\
  (forall i l, ls !! i = Some l -> (0 < k + i)%nat -> overlaps (sortLevel (k + i) l) = false).
Proof.
  induction ls as [|l ls IH]; intros k ls'; cbn [sort_levels imap].
  { split; [intros [= <-]|by intros [-> _]]. split; [done|]. by intros [|i] l. }
  rewrite Nat.add_0_r. destruct (_ && _) eqn:H.
  { split; [done|]. apply andb_true_iff in H as [Hk Ho]. intros [_ Hall]. specialize (Hall 0%nat l eq_refl).
    rewrite Nat.add_0_r, Ho in Hall. apply Z.ltb_lt in Hk. by specialize (Hall ltac:(lia)). }
  rewrite bind_ok. setoid_rewrite IH.
  assert (imap (fun i l => sortLevel (S k + i) l) ls = imap ((fun i l => sortLevel (k + i) l) ∘ S) ls) as He.
  { apply imap_ext. intros i x _. unfold compose. by replace (k + S i)%nat with (S k + i)%nat by lia. }
  split.
  - intros (ls1 & (-> & Hall) & <-%Ok_inj). rewrite He. split; [done|]. intros [|i] x Hx Hpos.
    + cbn in Hx. injection Hx as ->. rewrite Nat.add_0_r in *. apply andb_false_iff in H as [H|H]; [lia|done].
    + cbn in Hx. replace (k + S i)%nat with (S k + i)%nat in * by lia. by apply Hall.
  - intros (-> & Hall). eexists. split; [split; [reflexivity|]|by rewrite He]. intros i x Hx Hpos.
    specialize (Hall (S i) x Hx). replace (k + S i)%nat with (S k + i)%nat in * by lia. by apply Hall.
Qed.

(** ** All files of an edit *)

Definition unsorted (e : VersionEdit) (v : Version) : Version :=
  with_tables (e_AddedFiles e) (without (d_FileNumber <$> e_DeletedFiles e) v).
Definition next_levels (e : VersionEdit) (v : Version) : list (list TableMetadata) :=
  imap sortLevel (levels (unsorted e v)).
Record edit_fits (e : VersionEdit) (v : Version) : Prop := {
  fits_deleted : forall d, d ∈ e_DeletedFiles e -> names_live v d;
  fits_added : Forall (number_fits (without (d_FileNumber <$> e_DeletedFiles e) v)) (e_AddedFiles e);
  fits_disjoint : forall i l, next_levels e v !! i = Some l -> (0 < i)%nat -> overlaps l = false
}.

Lemma number_fits_next ns v t : number_fits (without ns v) t -> FileNumber t < nextFileNumber v.
Proof. by intros [_ ?]. Qed.
Lemma added_levels_fit e v : edit_wf e -> files_ok e -> len (levels v) = 8 -> Forall (level_fits v) (e_AddedFiles e).
Proof.
  intros Hwf Hf Hv. apply Forall_forall. intros t Ht. pose proof (proj1 (Forall_forall _ _) (ok_added _ Hf) t Ht) as Hok. cbn in Hok.
  apply validateTable_ok in Hok as [Hl _]. unfold level_fits. rewrite Hv.
  pose proof (proj1 (Forall_forall _ _) (wf_added _ Hwf) t Ht) as [[? _] _ _ _ _]. lia.
Qed.
Lemma without_levels_len ns v : len (levels (without ns v)) = len (levels v).
Proof. unfold len, without. cbn. by rewrite length_fmap. Qed.
Lemma sorted_lookup e v i : next_levels e v !! i = sortLevel i <$> levels (unsorted e v) !! i.
Proof. apply list_lookup_imap. Qed.

Lemma apply_files_ok e v v' : distinct v -> len (levels v) = 8 -> edit_wf e -> files_ok e ->
  apply_files e v = Ok v' <-> edit_fits e v /\ v' = set_levels (next_levels e v) v.
Proof.
  intros Hd H8 Hwf Hf. pose proof (ok_distinct _ Hf) as Hn. unfold edit_numbers in Hn. apply NoDup_app in Hn as (Hnd & Hdis & Hna).
  assert (Forall (level_fits (without (d_FileNumber <$> e_DeletedFiles e) v)) (e_AddedFiles e)) as Hfit.
  { apply added_levels_fit; [done..|]. by rewrite without_levels_len. }
  unfold apply_files. rewrite bind_ok. split.
  - intros ([v1 s1] & (_ & _ & Hlive & -> & ->)%apply_deletions_ok & H); [|done]. apply bind_ok in H as ([v2 s2] & H2 & H).
    apply apply_additions_ok in H2 as (_ & _ & Hnum & -> & _); [|apply Hwf|done].
    apply bind_ok in H as (ls & Hs & <-%Ok_inj). apply sort_levels_ok in Hs as [-> Hov].
    split; [|done]. split; [done|done|]. intros i l. rewrite sorted_lookup. intros Hl Hi. apply fmap_Some in Hl as (k & Hk & ->). by apply Hov.
  - intros [[Hlive Hnum Hov] ->]. eexists (_, _). rewrite apply_deletions_ok by done.
    split; [split_and!; [done|set_solver|done|reflexivity|reflexivity]|]. rewrite bind_ok. eexists (_, _).
    rewrite apply_additions_ok by (done || apply Hwf). split.
    { split_and!; [done| |done|reflexivity|reflexivity]. intros n Hn Hin. rewrite union_empty_r_L, elem_of_list_to_set in Hin. by apply (Hdis n). }
    rewrite bind_ok. eexists. rewrite sort_levels_ok. split; [split; [reflexivity|]|done]. cbn [Nat.add]. intros i l Hl Hi.
    apply (Hov i); [|done]. rewrite sorted_lookup. unfold unsorted. by rewrite Hl.
Qed.

(** ** The order of the files does not matter *)

Lemma without_perm ns ms v : ns ≡ₚ ms -> without ns v = without ms v.
Proof.
  intros Hp. unfold without. f_equal. apply list_fmap_ext. intros i l _. apply list_filter_iff. intros t. by rewrite Hp.
Qed.
Lemma unsorted_live e v : edit_wf e -> files_ok e -> len (levels v) = 8 ->
  live (unsorted e v) ≡ₚ filter (fun t => FileNumber t ∉ d_FileNumber <$> e_DeletedFiles e) (live v) ++ e_AddedFiles e.
Proof.
  intros Hwf Hf H8. unfold unsorted. rewrite live_with; [by rewrite live_without|]. apply added_levels_fit; [done..|].
  by rewrite without_levels_len.
Qed.
Lemma unsorted_distinct e v : distinct v -> edit_wf e -> files_ok e -> len (levels v) = 8 ->
  Forall (number_fits (without (d_FileNumber <$> e_DeletedFiles e) v)) (e_AddedFiles e) -> distinct (unsorted e v).
Proof.
  intros Hd Hwf Hf H8 Hnum. unfold distinct. rewrite unsorted_live, <- live_without, fmap_app by done. apply NoDup_app.
  pose proof (ok_distinct _ Hf) as Hn. unfold edit_numbers in Hn. apply NoDup_app in Hn as (_ & _ & Hna).
  split_and!; [by apply without_distinct| |done]. intros n Hin Hn. apply list_elem_of_fmap in Hn as (t & -> & Ht).
  rewrite Forall_forall in Hnum. by apply (Hnum t Ht).
Qed.
Lemma sorted_levels_perm e e' v : distinct (unsorted e v) -> e_DeletedFiles e ≡ₚ e_DeletedFiles e' -> e_AddedFiles e ≡ₚ e_AddedFiles e' ->
  next_levels e v = next_levels e' v.
Proof.
  intros Hd Hds Hts. apply list_eq. intros i. rewrite !sorted_lookup. unfold unsorted in *.
  rewrite (without_perm (d_FileNumber <$> e_DeletedFiles e') (d_FileNumber <$> e_DeletedFiles e)) by by rewrite Hds.
  set (w := without _ _) in *. destruct (levels w !! i) as [l|] eqn:Hl; [|by rewrite !with_lookup, Hl].
  assert (levels (with_tables (e_AddedFiles e) w) !! i = Some (l ++ filter (fun t => Level t = Z.of_nat i) (e_AddedFiles e))) as H1.
  { by rewrite with_lookup, Hl. }
  assert (levels (with_tables (e_AddedFiles e') w) !! i = Some (l ++ filter (fun t => Level t = Z.of_nat i) (e_AddedFiles e'))) as H2.
  { by rewrite with_lookup, Hl. }
  rewrite H1, H2. cbn. f_equal. apply sortLevel_unique; [by apply (distinct_level _ _ _ Hd H1)|]. by rewrite Hts.
Qed.
Lemma apply_files_perm e e' v v' : distinct v -> len (levels v) = 8 -> edit_wf e -> files_ok e -> edit_wf e' -> files_ok e' ->
  e_DeletedFiles e ≡ₚ e_DeletedFiles e' -> e_AddedFiles e ≡ₚ e_AddedFiles e' ->
  apply_files e v = Ok v' -> apply_files e' v = Ok v'.
Proof.
  intros Hd H8 Hwf Hf Hwf' Hf' Hds Hts. rewrite !apply_files_ok by done. intros [[Hlive Hnum Hov] ->].
  rewrite <- (sorted_levels_perm e e') by (done || by apply unsorted_distinct). split; [|done]. split.
  - intros d Hin. apply Hlive. by rewrite Hds.
  - rewrite <- Hts, (without_perm _ (d_FileNumber <$> e_DeletedFiles e)) by by rewrite Hds. done.
  - rewrite <- (sorted_levels_perm e e') by (done || by apply unsorted_distinct). done.
Qed.
