(* ===== verification/ManifestProps.v ===== *)
(** * Invariants of versions (storage/manifest/version.go)

    Every version the manifest reaches is well formed, its authorities never
    move back, the replay frontier is covered by live tables, and a snapshot
    of a version rebuilds it. *)

From S2P Require Import Prelude InternalKey Codec Loops MvccStore SSTable SSTableWriter Manifest ManifestCodec ManifestVersion ManifestApply.
Import manifest version.

(** ** Sequence coverage *)

(** The sequence [s] lies in the span of a live table. *)
Definition holds_sequence (v : Version) (s : Z) : Prop := exists t, t ∈ live v /\ SmallestSequence t <= s <= LargestSequence t.
(** Where the search for coverage starts: after the frontier. *)
Definition after_frontier (v : Version) : Z := if haveFrontier v then frontier v + 1 else 0.

Definition in_spans (spans : list sequenceSpan) (s : Z) : Prop := exists p, p ∈ spans /\ first p <= s <= last p.
Abbreviation by_first := (StronglySorted (fun p q => first p <= first q)).
Lemma in_spans_cons p spans s : in_spans (p :: spans) s <-> first p <= s <= last p \/ in_spans spans s.
Proof. unfold in_spans. setoid_rewrite elem_of_cons. naive_solver. Qed.
Lemma in_spans_nil s : ~ in_spans [] s.
Proof. by intros (p & ?%not_elem_of_nil & _). Qed.
(** Nothing covers a sequence before the first span of a sorted list. *)
Lemma before_spans p spans s : by_first (p :: spans) -> s < first p -> ~ in_spans (p :: spans) s.
Proof.
  inversion 1 as [|? ? _ Hf]; subst. intros Hs (q & [->|Hq]%elem_of_cons & ?); [lia|]. rewrite Forall_forall in Hf.
  specialize (Hf q Hq). cbn in Hf. lia.
Qed.

Lemma cover_loop_ok target spans : is_u64 target -> by_first spans -> forall cursor, cursor <= target -> 0 <= cursor ->
  cover_loop target cursor spans = true <-> forall s, cursor <= s <= target -> in_spans spans s.
Proof.
  intros Ht. induction spans as [|p spans IH]; intros Hs cursor Hc Hc0; cbn [cover_loop].
  { split; [done|]. intros H. exfalso. apply (in_spans_nil cursor), H. lia. }
  destruct (Z.ltb_spec cursor (first p)) as [H1|H1].
  { split; [done|]. intros H. exfalso. apply (before_spans p spans cursor Hs H1), H. lia. }
  setoid_rewrite in_spans_cons. inversion Hs as [|? ? Hs' _]; subst. destruct (Z.ltb_spec (last p) cursor) as [H2|H2].
  { rewrite IH by done. split; intros H s Hr; [by right; apply H|]. destruct (H s Hr); [lia|done]. }
  destruct (Z.leb_spec target (last p)) as [H3|H3]; [split; [|done]; intros _ s Hr; left; lia|].
  unfold is_u64 in Ht. rewrite u64_id by (unfold is_u64; lia). rewrite IH by (done || lia). split; intros H s Hr.
  - destruct (Z.le_gt_cases s (last p)); [left; lia|right; apply H; lia].
  - destruct (H s ltac:(lia)); [lia|done].
Qed.

Lemma compareSpan_then p q : compareSpan p q = then_by (first p ?= first q) (last q ?= last p).
Proof. unfold compareSpan. by rewrite !cmpUint64_compare. Qed.
Lemma sorted_spans l : by_first (SortFunc compareSpan l).
Proof.
  assert (StronglySorted (fun p q => compareSpan p q <> Gt) (SortFunc compareSpan l)) as Hs.
  { apply SortFunc_sorted.
    - intros p q. by rewrite !compareSpan_then, then_by_opp, <- !Z.compare_antisym.
    - intros p q r. rewrite !compareSpan_then.
      destruct (Z.compare_spec (first p) (first q)), (Z.compare_spec (first q) (first r)), (Z.compare_spec (first p) (first r)); cbn; try done; try lia;
        rewrite !Z.compare_le_iff; lia. }
  induction Hs as [|p l' Hs IH Hf]; constructor; [done|]. eapply Forall_impl; [exact Hf|]. cbn. intros q. rewrite compareSpan_then.
  destruct (Z.compare_spec (first p) (first q)); cbn; try done; lia.
Qed.
Lemma in_sorted_spans (P : TableMetadata -> Prop) `{!forall t, Decision (P t)} v s :
  (forall t, t ∈ live v -> SmallestSequence t <= s <= LargestSequence t -> P t) ->
  in_spans (SortFunc compareSpan (span_of <$> filter P (live v))) s <-> holds_sequence v s.
Proof.
  intros HP. unfold in_spans, holds_sequence. setoid_rewrite SortFunc_Permutation. setoid_rewrite list_elem_of_fmap.
  setoid_rewrite list_elem_of_filter. split.
  - intros (p & (t & -> & _ & Ht) & Hs). by exists t.
  - intros (t & Ht & Hs). exists (span_of t). split; [|done]. exists t. split_and!; [done|by apply HP|done].
Qed.
Lemma after_frontier_u64 v : is_u64 (frontier v) -> (haveFrontier v && (frontier v =? MaxUint64)) = false ->
  (if haveFrontier v then u64 (frontier v + 1) else 0) = after_frontier v /\ is_u64 (after_frontier v).
Proof.
  unfold after_frontier, MaxUint64, two64, is_u64. destruct (haveFrontier v); [|done]. cbn. intros Hf H%Z.eqb_neq.
  split; [apply u64_id; unfold is_u64|]; lia.
Qed.

(** The frontier may move to [target] exactly when every sequence after the
    old frontier up to [target] is in a live table. *)
Lemma frontierCovered_ok target v : is_u64 target -> is_u64 (frontier v) -> (haveFrontier v = true -> frontier v <= target) ->
  frontierCovered target v = true <-> forall s, after_frontier v <= s <= target -> holds_sequence v s.
Proof.
  intros Ht Hf Hle. unfold frontierCovered. destruct (haveFrontier v && (target =? frontier v)) eqn:H1.
  { apply andb_true_iff in H1 as [H1 ->%Z.eqb_eq]. unfold after_frontier. rewrite H1. split; [lia|done]. }
  destruct (haveFrontier v && (frontier v =? MaxUint64)) eqn:H2.
  { apply andb_true_iff in H2 as [H2 He%Z.eqb_eq]. rewrite H2 in H1. specialize (Hle H2). unfold is_u64, MaxUint64, two64 in *.
    apply Z.eqb_neq in H1. lia. }
  destruct (after_frontier_u64 v Hf H2) as [-> [Ha _]]. assert (after_frontier v <= target) as Hat.
  { unfold after_frontier in *. destruct (haveFrontier v); [|by destruct Ht]. apply Z.eqb_neq in H1. specialize (Hle eq_refl). lia. }
  rewrite cover_loop_ok; [|done|apply sorted_spans|done..]. split; intros H s Hs.
  - eapply in_sorted_spans; [|by apply H]. cbn. lia.
  - apply in_sorted_spans; [cbn; lia|by apply H].
Qed.

Lemma contiguous_loop_ok spans : by_first spans -> Forall (fun p => last p <= MaxUint64) spans ->
  forall cursor advanced, 0 <= cursor <= MaxUint64 ->
  match contiguous_loop cursor advanced spans with
  | inl m => m = MaxUint64 /\ forall s, cursor <= s <= m -> in_spans spans s
  | inr (c, adv) => cursor <= c <= MaxUint64 /\ (forall s, cursor <= s < c -> in_spans spans s) /\ ~ in_spans spans c /\
      adv = (advanced || (cursor <? c))
  end.
Proof.
  induction spans as [|p spans IH]; intros Hs Hb cursor adv Hc; cbn [contiguous_loop].
  { split_and!; [lia..| |apply in_spans_nil|]; [intros s; lia|]. by rewrite Z.ltb_irrefl, orb_false_r. }
  destruct (Z.ltb_spec cursor (first p)) as [H1|H1].
  { split_and!; [lia..|intros s; lia|by apply before_spans|]. by rewrite Z.ltb_irrefl, orb_false_r. }
  inversion Hs as [|? ? Hs' Hf]; subst. apply Forall_cons in Hb as [Hp Hb].
  destruct (Z.ltb_spec (last p) cursor) as [H2|H2].
  { specialize (IH Hs' Hb cursor adv Hc). destruct (contiguous_loop _ _ _) as [m|[c a]].
    - destruct IH as [-> IH]. split; [done|]. intros s Hr. apply in_spans_cons. right. by apply IH.
    - destruct IH as (? & Hin & Hout & ->). split_and!; [lia..| |rewrite in_spans_cons; naive_solver lia|done]. intros s Hr. apply in_spans_cons. right. by apply Hin. }
  destruct (Z.eqb_spec (last p) MaxUint64) as [H3|H3].
  { split; [done|]. intros s Hr. apply in_spans_cons. left. lia. }
  assert (u64 (last p + 1) = last p + 1) as Hu. { apply u64_id. unfold is_u64, MaxUint64, two64 in *. lia. }
  rewrite Hu. specialize (IH Hs' Hb (last p + 1) true ltac:(lia)). destruct (contiguous_loop _ _ _) as [m|[c a]].
  - destruct IH as [-> IH]. split; [done|]. intros s Hr. apply in_spans_cons. destruct (Z.le_gt_cases s (last p)); [left; lia|right; apply IH; lia].
  - destruct IH as (? & Hin & Hout & ->). split_and!; [lia..| |rewrite in_spans_cons; naive_solver lia|].
    + intros s Hr. apply in_spans_cons. destruct (Z.le_gt_cases s (last p)); [left; lia|right; apply Hin; lia].
    + rewrite (proj2 (Z.ltb_lt cursor c)) by lia. by rewrite orb_true_r.
Qed.

(** The frontier [maximumContiguousFrontier] finds is the largest covered one. *)
Lemma maximumContiguousFrontier_ok v : is_u64 (frontier v) -> Forall (fun t => LargestSequence t <= MaxUint64) (live v) ->
  match maximumContiguousFrontier v with
  | (f, true) => is_u64 f /\ after_frontier v <= f + 1 /\ (forall s, after_frontier v <= s <= f -> holds_sequence v s) /\
      (f = MaxUint64 \/ ~ holds_sequence v (f + 1))
  | (_, false) => haveFrontier v = false /\ ~ holds_sequence v 0
  end.
Proof.
  intros Hf Hl. unfold maximumContiguousFrontier. destruct (haveFrontier v && (frontier v =? MaxUint64)) eqn:H2.
  { apply andb_true_iff in H2 as [H2 He%Z.eqb_eq]. unfold after_frontier. rewrite H2. split; [done|]. split_and!; [lia|lia|by left]. }
  destruct (after_frontier_u64 v Hf H2) as [-> Ha]. set (start := after_frontier v) in *.
  set (spans := SortFunc _ _). assert (forall s, start <= s -> in_spans spans s <-> holds_sequence v s) as Hin.
  { intros s Hs. apply in_sorted_spans. intros t _. lia. }
  pose proof (contiguous_loop_ok spans (sorted_spans _)) as Hloop. assert (Forall (fun p => last p <= MaxUint64) spans) as Hb.
  { unfold spans. rewrite SortFunc_Permutation, Forall_fmap. apply Forall_forall. intros t [_ Ht]%list_elem_of_filter.
    by apply (proj1 (Forall_forall _ _) Hl). }
  specialize (Hloop Hb start false ltac:(unfold is_u64, MaxUint64, two64 in *; lia)). unfold is_u64 in Ha.
  assert (MaxUint64 = 2 ^ 64 - 1) as HM by done.
  destruct (contiguous_loop _ _ _) as [m|[c a]].
  - destruct Hloop as [-> Hc]. split; [unfold is_u64; lia|]. split_and!; [lia| |by left]. intros s Hs. apply Hin; [lia|by apply Hc].
  - destruct Hloop as (Hc & Hcov & Hout & ->). cbn [orb]. destruct (Z.ltb_spec start c) as [Hlt|Hge]; cbn [negb].
    + rewrite u64_id by (unfold is_u64; lia). split; [unfold is_u64; lia|]. split_and!; [lia| |].
      * intros s Hs. apply Hin; [lia|]. apply Hcov. lia.
      * right. replace (c - 1 + 1) with c by lia. by rewrite <- Hin by lia.
    + assert (c = start) as -> by lia. assert (~ holds_sequence v start) as Hno by by rewrite <- Hin by lia.
      unfold start, after_frontier in *. destruct (haveFrontier v); [|done]. split; [done|]. split_and!; [lia|lia|by right].
Qed.

(** ** The invariant *)

(** The authorities of a version fit each other. *)
Record scalars_inv (v : Version) : Prop := {
  si_generation : is_u64 (generation v);
  si_comparator : (generation v = 0 /\ comparator v = []) \/ comparator v = ComparatorName;
  si_next : 1 <= nextFileNumber v <= maxNextFileNumber;
  si_mode : mode_valid (mode v) = true;
  si_last : is_u64 (lastSequence v) /\ (haveLastSequence v = false -> lastSequence v = 0);
  si_frontier : is_u64 (frontier v) /\ (haveFrontier v = false -> frontier v = 0) /\
    (haveFrontier v = true -> mode v = ModeStandalone /\ haveLastSequence v = true /\ frontier v <= lastSequence v);
  si_replicated : is_u64 (replicatedApplied v) /\ (haveReplicatedApplied v = false -> replicatedApplied v = 0) /\
    (haveReplicatedApplied v = true -> mode v <> ModeStandalone);
  si_mvcc : is_u64 (maxAppliedMVCC v) /\ (haveMaxAppliedMVCC v = false -> maxAppliedMVCC v = 0) /\
    (haveMaxAppliedMVCC v = true -> mode v = ModeReplicatedMVCC /\ haveReplicatedApplied v = true /\ maxAppliedMVCC v <> 0)
}.
Definition live_ok (v : Version) (t : TableMetadata) : Prop :=
  table_wf t /\ validateTable t = Ok tt /\ FileNumber t < nextFileNumber v.
Record version_ok (v : Version) : Prop := {
  vo_levels : len (levels v) = 8;
  vo_placed : forall i l t, levels v !! i = Some l -> t ∈ l -> Level t = Z.of_nat i;
  vo_tables : Forall (live_ok v) (live v);
  vo_distinct : distinct v;
  vo_sorted : forall i l, levels v !! i = Some l -> sortLevel i l = l;
  vo_disjoint : forall i l, (0 < i)%nat -> levels v !! i = Some l -> disjoint_tables l;
  vo_scalars : scalars_inv v
}.

Lemma initial_ok : version_ok initialVersion.
Proof.
  assert (forall i l, levels initialVersion !! i = Some l -> l = []) as Hl.
  { intros i l Hl. apply list_elem_of_lookup_2 in Hl. cbn in Hl. rewrite !elem_of_cons in Hl. set_solver. }
  split.
  - done.
  - by intros i l t ->%Hl ?%not_elem_of_nil.
  - constructor.
  - constructor.
  - intros [|i] l ->%Hl; done.
  - intros i l _ ->%Hl. constructor.
  - split; try done. by left.
Qed.

(** What [apply] did to the authorities. *)
Definition present_or {A} (have : bool) (o : option A) : bool := have || present o.
Record applied (e : VersionEdit) (v v' : Version) : Prop := {
  ap_generation : generation v' = generation v + 1;
  ap_comparator : comparator v' = ComparatorName;
  ap_levels : levels v' = next_levels e v;
  ap_mode : mode v' = default (mode v) (e_StorageMode e) /\ (mode v' = mode v \/ generation v = 0);
  ap_next : nextFileNumber v' = default (nextFileNumber v) (e_NextFileNumber e) /\ nextFileNumber v <= nextFileNumber v';
  ap_last : lastSequence v' = default (lastSequence v) (e_LastSequence e) /\
    haveLastSequence v' = present_or (haveLastSequence v) (e_LastSequence e) /\
    (haveLastSequence v = true -> lastSequence v <= lastSequence v');
  ap_frontier : frontier v' = default (frontier v) (e_ReplayFrontier e) /\
    haveFrontier v' = present_or (haveFrontier v) (e_ReplayFrontier e) /\
    (haveFrontier v = true -> frontier v <= frontier v') /\
    (e_ReplayFrontier e <> None -> forall s, after_frontier v <= s <= frontier v' -> holds_sequence v' s);
  ap_replicated : replicatedApplied v' = default (replicatedApplied v) (e_ReplicatedAppliedThrough e) /\
    haveReplicatedApplied v' = present_or (haveReplicatedApplied v) (e_ReplicatedAppliedThrough e) /\
    (haveReplicatedApplied v = true -> replicatedApplied v <= replicatedApplied v');
  ap_mvcc : maxAppliedMVCC v' = default (maxAppliedMVCC v) (e_MaxAppliedMVCC e) /\
    haveMaxAppliedMVCC v' = present_or (haveMaxAppliedMVCC v) (e_MaxAppliedMVCC e) /\
    (haveMaxAppliedMVCC v = true -> maxAppliedMVCC v <= maxAppliedMVCC v')
}.

(** *** The head of [apply] *)

Record head_of (e : VersionEdit) (v w : Version) : Prop := {
  hd_same : levels w = levels v /\ generation w = generation v /\ haveFrontier w = haveFrontier v /\ frontier w = frontier v /\
    replicatedApplied w = replicatedApplied v /\ haveReplicatedApplied w = haveReplicatedApplied v /\
    maxAppliedMVCC w = maxAppliedMVCC v /\ haveMaxAppliedMVCC w = haveMaxAppliedMVCC v;
  hd_generation : generation v <> MaxUint64;
  hd_comparator : comparator w = ComparatorName;
  hd_mode : mode w = default (mode v) (e_StorageMode e) /\ mode_valid (mode w) = true /\ (mode w = mode v \/ generation v = 0);
  hd_next : nextFileNumber w = default (nextFileNumber v) (e_NextFileNumber e) /\
    nextFileNumber v <= nextFileNumber w <= maxNextFileNumber;
  hd_last : lastSequence w = default (lastSequence v) (e_LastSequence e) /\
    haveLastSequence w = present_or (haveLastSequence v) (e_LastSequence e) /\
    (haveLastSequence v = true -> lastSequence v <= lastSequence w)
}.
Lemma apply_head_inv e v w : scalars_inv v -> apply_head e v = Ok w -> head_of e v w.
Proof.
  intros [Hg Hcmp Hnext Hmode _ _ _ _]. destruct v as [g c ls n hl l hf f m me r hr x hx]. cbn in *. unfold apply_head, present_or.
  destruct (Z.eqb_spec g MaxUint64) as [|Hmax]; [done|]. intros H. ok_inv H.
  rename x0 into c', b into m', b0 into me', x2 into n', z into l', b1 into hl'. apply require_ok in Hx0.
  injection H as <-.
  assert (c' = ComparatorName) as ->.
  { destruct (e_Comparator e) as [name|].
    - destruct (bytes_eqb name ComparatorName) eqn:Hn; cbn in Hx; [|done]. destruct (_ && _); [done|]. injection Hx as <-. by apply bytes_eqb_eq.
    - injection Hx as ->. destruct Hcmp as [[_ ->]|?]; done. }
  assert (m' = default m (e_StorageMode e) /\ mode_valid m' = true /\ (m' = m \/ g = 0)) as Hm.
  { destruct (e_StorageMode e) as [m0|]; cbn; [|injection Hx1 as <- <-; auto]. destruct (mode_valid m0) eqn:Hv; cbn in Hx1; [|done].
    destruct me; [done|]. cbn in Hx1. destruct (Z.eqb_spec g 0); [|done]. injection Hx1 as <- _. auto. }
  assert (n' = default n (e_NextFileNumber e) /\ n <= n' <= maxNextFileNumber) as Hn.
  { destruct (e_NextFileNumber e) as [n0|]; cbn; [|injection Hx2 as <-; lia]. destruct (_ || _) eqn:Hv; [done|]. injection Hx2 as <-.
    rewrite !orb_false_iff, !Z.ltb_ge in Hv. lia. }
  assert (l' = default l (e_LastSequence e) /\ hl' = hl || present (e_LastSequence e) /\ (hl = true -> l <= l')) as Hl.
  { destruct (e_LastSequence e) as [l0|]; cbn; [|injection Hx3 as <- <-; rewrite orb_false_r; auto with lia].
    destruct hl; cbn in *; [|injection Hx3 as <- <-; naive_solver]. destruct (Z.ltb_spec l0 l); [done|]. by injection Hx3 as <- <-. }
  split; cbn; unfold present_or; naive_solver.
Qed.

(** *** The tail of [apply] *)

Lemma highestFile_bound v n : highestFile v < n -> Forall (fun t => FileNumber t < n) (live v).
Proof.
  unfold highestFile. assert (forall l a, foldl (fun h t => Z.max h (FileNumber t)) a l < n -> a < n /\ Forall (fun t => FileNumber t < n) l) as H.
  { induction l as [|t l IH]; intros a Ha; cbn in Ha; [done|]. apply IH in Ha as [Ha Hl]. split; [lia|]. constructor; [lia|done]. }
  by intros [_ ?]%H.
Qed.
Lemma mode_cases m : mode_valid m = true -> m = ModeStandalone \/ m = ModeReplicated \/ m = ModeReplicatedMVCC.
Proof. unfold mode_valid. rewrite !orb_true_iff. intros [[H|H]|H]; apply Byte.byte_dec_bl in H; auto. Qed.
Lemma is_mode_iff (a b : StorageMode) : Byte.eqb a b = true <-> a = b.
Proof. split; [apply Byte.byte_dec_bl|intros ->; apply Byte.byte_dec_lb; done]. Qed.

Lemma apply_tail_inv e w v' : scalars_ok e -> edit_wf e -> mode_valid (mode w) = true -> is_u64 (frontier w) -> apply_tail e w = Ok v' ->
  (generation v' = u64 (generation w + 1) /\ comparator v' = comparator w /\ levels v' = levels w /\ mode v' = mode w /\
   nextFileNumber v' = nextFileNumber w /\ lastSequence v' = lastSequence w /\ haveLastSequence v' = haveLastSequence w) /\
  (frontier v' = default (frontier w) (e_ReplayFrontier e) /\ haveFrontier v' = present_or (haveFrontier w) (e_ReplayFrontier e) /\
   (haveFrontier w = true -> frontier w <= frontier v') /\
   (e_ReplayFrontier e <> None -> haveLastSequence w = true /\ frontier v' <= lastSequence w /\
     forall s, after_frontier w <= s <= frontier v' -> holds_sequence w s)) /\
  (replicatedApplied v' = default (replicatedApplied w) (e_ReplicatedAppliedThrough e) /\
   haveReplicatedApplied v' = present_or (haveReplicatedApplied w) (e_ReplicatedAppliedThrough e) /\
   (haveReplicatedApplied w = true -> replicatedApplied w <= replicatedApplied v')) /\
  (maxAppliedMVCC v' = default (maxAppliedMVCC w) (e_MaxAppliedMVCC e) /\
   haveMaxAppliedMVCC v' = present_or (haveMaxAppliedMVCC w) (e_MaxAppliedMVCC e) /\
   (haveMaxAppliedMVCC w = true -> maxAppliedMVCC w <= maxAppliedMVCC v') /\
   (e_MaxAppliedMVCC e <> None -> maxAppliedMVCC v' <> 0)) /\
  ((haveReplicatedApplied v' = true -> mode w <> ModeStandalone) /\ (haveFrontier v' = true -> mode w = ModeStandalone) /\
   (haveMaxAppliedMVCC v' = true -> mode w = ModeReplicatedMVCC)) /\
  Forall (fun t => FileNumber t < nextFileNumber w) (live w).
Proof.
  intros Hsc Hwf Hmode Hfr. destruct w as [g c ls n hl l hf f m me r hr x hx]. cbn [mode frontier] in *. unfold apply_tail, present_or. cbn -[apply_tail].
  intros H. ok_inv H. rename z into f', b into hf', z0 into r', b0 into hr', z1 into x', b1 into hx'.
  destruct (_ || _ || _) eqn:Hmodes in H; [done|]. destruct (n <=? _) eqn:Hhigh in H; [done|]. apply Z.leb_gt in Hhigh.
  injection H as <-. cbn. split; [done|]. apply (highestFile_bound (mkVersion g c ls n hl l hf f m me r hr x hx)) in Hhigh.
  rewrite !orb_false_iff, !andb_false_iff, negb_false_iff, !orb_false_iff in Hmodes.
  split; [|split; [|split; [|split; [|exact Hhigh]]]].
  - destruct (e_ReplayFrontier e) as [t|] eqn:He; cbn; [|injection Hx as <- <-; rewrite orb_false_r; naive_solver lia].
    destruct (negb (Byte.eqb m ModeStandalone)); [done|]. destruct (hf && (t <? f)) eqn:Hreg; [done|].
    destruct (negb hl || (l <? t)) eqn:Hgap; [done|]. destruct (frontierCovered t _) eqn:Hcov; [|done]. injection Hx as <- <-.
    apply orb_false_iff in Hgap as [Hhl%negb_false_iff Hl%Z.ltb_ge].
    assert (hf = true -> f <= t) as Hle. { intros ->. cbn in Hreg. lia. }
    pose proof (proj1 (frontierCovered_ok t (mkVersion g c ls n hl l hf f m me r hr x hx) (wf_frontier _ Hwf t He) Hfr Hle) Hcov). rewrite orb_true_r. naive_solver.
  - destruct (e_ReplicatedAppliedThrough e) as [t|] eqn:He; cbn; [|injection Hx0 as <- <-; rewrite orb_false_r; naive_solver lia].
    destruct (_ || _) eqn:Hreg in Hx0; [done|]. injection Hx0 as <- <-. apply orb_false_iff in Hreg as [_ Hreg]. rewrite orb_true_r.
    split_and!; [done..|]. intros ->. cbn in Hreg. lia.
  - destruct (e_MaxAppliedMVCC e) as [t|] eqn:He; cbn; [|injection Hx1 as <- <-; rewrite orb_false_r; naive_solver lia].
    destruct (_ || _) eqn:Hreg in Hx1; [done|]. injection Hx1 as <- <-. rewrite !orb_false_iff, Z.eqb_neq in Hreg. rewrite orb_true_r.
    split_and!; [done..| |tauto]. intros ->. cbn in Hreg. lia.
  - destruct Hmodes as [[Hm1 Hm2] Hm3]. apply mode_cases in Hmode. split_and!; intros ->.
    + intros ->. by destruct Hm1.
    + destruct Hmode as [->|[->| ->]]; [done| |]; by destruct Hm2 as [[? ?]|?].
    + destruct Hmode as [->|[->| ->]]; [| |done]; by destruct Hm3.
Qed.

(** *** The whole transition *)

Lemma clone_levels_id ls : Forall table_wf (concat ls) -> clone_levels ls = Ok ls.
Proof.
  induction ls as [|l ls IH]; [done|]. cbn. rewrite Forall_app. intros [Hl Hls]. rewrite cloneTables_id by done. cbn. by rewrite IH.
Qed.
Lemma version_wf v : version_ok v -> Forall table_wf (live v).
Proof. intros Hv. eapply Forall_impl; [apply Hv|]. by intros t (? & _). Qed.
Lemma clone_id v : version_ok v -> clone v = Ok v.
Proof. intros Hv. unfold clone. rewrite clone_levels_id by by apply version_wf. cbn. by rewrite set_levels_id. Qed.

(** [apply] in terms of its three parts. *)
Lemma apply_parts e v v' : version_ok v -> edit_wf e -> apply e v = Ok v' <->
  scalars_ok e /\ files_ok e /\ exists w, apply_head e v = Ok w /\ edit_fits e w /\ apply_tail e (set_levels (next_levels e v) w) = Ok v'.
Proof.
  intros Hv Hwf. unfold apply. rewrite (clone_id v Hv). rewrite bind_ok.
  assert (forall w, apply_head e v = Ok w -> next_levels e w = next_levels e v /\ distinct w /\ len (levels w) = 8) as Hw.
  { intros w Hw. apply apply_head_inv in Hw; [|apply Hv]. pose proof (hd_same _ _ _ Hw) as [Hl _]. unfold next_levels, unsorted, with_tables, without, distinct, live. cbn.
    rewrite Hl. split_and!; [done|apply Hv..]. }
  split.
  - intros ([] & [Hs Hf]%validateEditShape_ok & H). cbn [mbind result_bind] in H. apply bind_ok in H as (w & Hh & H). apply bind_ok in H as (w2 & Hfi & H).
    destruct (Hw w Hh) as (Hn & Hd & H8). apply apply_files_ok in Hfi as [Hfit ->]; [|done..]. rewrite Hn in H. eauto 10.
  - intros (Hs & Hf & w & Hh & Hfit & Ht). destruct (Hw w Hh) as (Hn & Hd & H8). exists tt. split; [by apply validateEditShape_ok|].
    cbn [mbind result_bind]. rewrite bind_ok. exists w. split; [done|]. rewrite bind_ok. eexists. split; [by apply apply_files_ok|]. by rewrite Hn.
Qed.

Lemma levels_concat_perm (ls : list (list TableMetadata)) : concat (imap sortLevel ls) ≡ₚ concat ls.
Proof.
  apply concat_Permutation, Forall2_lookup. intros i. rewrite list_lookup_imap. destruct (ls !! i); cbn; constructor. apply sortLevel_Permutation.
Qed.
Lemma next_live e v w : edit_wf e -> files_ok e -> len (levels v) = 8 -> levels w = next_levels e v ->
  live w ≡ₚ filter (fun t => FileNumber t ∉ d_FileNumber <$> e_DeletedFiles e) (live v) ++ e_AddedFiles e.
Proof. intros Hwf Hf H8 Hw. rewrite <- unsorted_live by done. unfold live at 1. rewrite Hw. apply levels_concat_perm. Qed.

(** The new levels satisfy the structural part of the invariant. *)
Lemma next_structure e v w : version_ok v -> edit_wf e -> files_ok e -> edit_fits e w -> levels w = levels v ->
  let ls := next_levels e v in
  len ls = 8 /\ (forall i l t, ls !! i = Some l -> t ∈ l -> Level t = Z.of_nat i) /\ NoDup (FileNumber <$> concat ls) /\
  (forall i l, ls !! i = Some l -> sortLevel i l = l) /\ (forall i l, (0 < i)%nat -> ls !! i = Some l -> overlaps l = false).
Proof.
  intros [H8 Hplaced _ Hd _ _ _] Hwf Hf [_ Hnum Hov] Hlv. cbv zeta.
  assert (unsorted e w = set_levels (levels (unsorted e v)) w) as Hun. { unfold unsorted, with_tables, without. cbn. by rewrite Hlv. }
  assert (next_levels e w = next_levels e v) as Hnl. { unfold next_levels. by rewrite Hun. }
  assert (distinct (unsorted e v)) as Hdu.
  { assert (distinct (unsorted e w)) as Hdw. { apply unsorted_distinct; try done; unfold distinct, live; by rewrite Hlv. }
    unfold distinct, live in *. by rewrite Hun in Hdw. }
  split_and!.
  - unfold next_levels, len. rewrite length_imap. change (len (levels (unsorted e v)) = 8). unfold unsorted.
    by rewrite with_levels_len, without_levels_len.
  - intros i l t. rewrite sorted_lookup. intros (k & Hk & ->)%fmap_Some Ht. rewrite sortLevel_Permutation in Ht. unfold unsorted in Hk.
    rewrite with_lookup in Hk. apply fmap_Some in Hk as (k0 & Hk0 & ->). apply elem_of_app in Ht as [Ht|Ht].
    + unfold without in Hk0. cbn in Hk0. rewrite list_lookup_fmap in Hk0. apply fmap_Some in Hk0 as (k1 & Hk1 & ->).
      apply list_elem_of_filter in Ht as [_ Ht]. by eapply Hplaced.
    + by apply list_elem_of_filter in Ht as [? _].
  - unfold next_levels. rewrite levels_concat_perm. exact Hdu.
  - intros i l. rewrite sorted_lookup. intros (k & Hk & ->)%fmap_Some. apply sortLevel_idem. by eapply distinct_level.
  - intros i l Hi Hl. eapply Hov; [|done]. by rewrite Hnl.
Qed.

Lemma head_u64 e v w : edit_wf e -> scalars_inv v -> head_of e v w -> is_u64 (lastSequence w) /\ is_u64 (frontier w).
Proof.
  intros Hwf Hs [(_ & _ & _ & Hf & _) _ _ _ _ (Hl & _)]. rewrite Hf, Hl. split; [|apply Hs].
  destruct (e_LastSequence e) eqn:He; cbn; [by apply (wf_last _ Hwf)|apply Hs].
Qed.
Lemma present_or_false {A} have (o : option A) : present_or have o = false <-> have = false /\ o = None.
Proof. unfold present_or. destruct have, o; naive_solver. Qed.
Lemma present_or_true {A} have (o : option A) : present_or have o = true <-> have = true \/ o <> None.
Proof. unfold present_or. destruct have, o; naive_solver. Qed.

Lemma edit_applied e v v' : version_ok v -> edit_wf e -> apply e v = Ok v' -> applied e v v'.
Proof.
  intros Hv Hwf (Hs & Hf & w & Hh & Hfit & Ht)%apply_parts; [|done..]. pose proof (vo_scalars _ Hv) as Hsi.
  apply apply_head_inv in Hh; [|done]. destruct (head_u64 _ _ _ Hwf Hsi Hh) as [_ Hfw].
  apply apply_tail_inv in Ht as ((Hg & Hc & Hl & Hm & Hn & Hls & Hhl) & (Hfr & Hhf & Hfle & Hcov) & Hrep & (Hx & Hhx & Hxle & _) & _ & _);
    [|done|done|by apply Hh|done].
  destruct Hh as [(_ & Hgw & Hhfw & Hfrw & Hrw & Hhrw & Hxw & Hhxw) Hmax Hcw [Hmw1 [_ Hmw2]] [Hnw1 [Hnw2 _]] [Hlw1 Hlw2]]. cbn in *.
  split; rewrite ?Hm, ?Hn, ?Hls, ?Hhl.
  - rewrite Hg, Hgw. apply u64_id. pose proof (si_generation _ Hsi) as Hg0. unfold is_u64, MaxUint64, two64 in *. lia.
  - by rewrite Hc.
  - done.
  - done.
  - done.
  - done.
  - rewrite Hhfw, Hfrw in *. split_and!; [done..|]. intros He s Hr. apply Hcov in He as (_ & _ & He).
    unfold after_frontier in He. cbn in He. rewrite Hhfw, Hfrw in He. specialize (He s Hr). unfold holds_sequence, live in *. by rewrite Hl.
  - by rewrite Hhrw, Hrw in Hrep.
  - by rewrite Hhxw, Hxw in *.
Qed.

Lemma apply_scalars e v v' : version_ok v -> edit_wf e -> apply e v = Ok v' -> scalars_inv v'.
Proof.
  intros Hv Hwf Ha. pose proof (edit_applied e v v' Hv Hwf Ha) as [Ag Ac _ _ _ (Al & Ahl & _) (Af & Ahf & _) (Ar & Ahr & _) (Ax & Ahx & _)].
  apply apply_parts in Ha as (Hs & Hf & w & Hh & Hfit & Ht); [|done..]. pose proof (vo_scalars _ Hv) as Hsi.
  apply apply_head_inv in Hh; [|done]. destruct (head_u64 _ _ _ Hwf Hsi Hh) as [Hlw Hfw].
  apply apply_tail_inv in Ht as ((Hg & _ & _ & Hm & Hn & Hls & Hhl) & (_ & _ & _ & Hcov) & _ & (_ & _ & _ & Hx0) & (Hm1 & Hm2 & Hm3) & _);
    [|done|done|by apply Hh|done].
  destruct Hh as [(_ & Hgw & Hhfw & Hfrw & _) _ _ (_ & Hmv & _) [_ Hnw] (Hlw1 & Hhlw & Hlle)]. cbn in *.
  pose proof Hs as (_ & _ & _ & Hxr & _).
  split.
  - rewrite Hg. apply u64_range.
  - by right.
  - rewrite Hn. pose proof (si_next _ Hsi). lia.
  - by rewrite Hm.
  - rewrite Hls, Hhl. split; [done|]. rewrite Hhlw. intros [Hh He]%present_or_false. rewrite Hlw1, He. by apply Hsi.
  - rewrite Af, Ahf, Hm, Hls, Hhl. destruct (si_frontier _ Hsi) as (F1 & F2 & F3). split_and!.
    + destruct (e_ReplayFrontier e) eqn:He; cbn; [by apply (wf_frontier _ Hwf)|done].
    + intros [Hh He]%present_or_false. rewrite He. by apply F2.
    + intros Hp. rewrite Ahf in Hm2. split; [by apply Hm2|]. apply present_or_true in Hp as [Hh|He].
      * destruct (e_ReplayFrontier e) eqn:He; cbn; [destruct Hcov as (? & ? & _); [done|]; by rewrite Af in *|].
        destruct (F3 Hh) as (_ & Hhave & Hfl). rewrite Hhlw, Hhave. split; [done|]. specialize (Hlle Hhave). lia.
      * destruct (Hcov He) as (? & ? & _). by rewrite Af in *.
  - rewrite Ar, Ahr, Hm. destruct (si_replicated _ Hsi) as (F1 & F2 & F3). rewrite Ahr in Hm1. split_and!; [| |done].
    + destruct (e_ReplicatedAppliedThrough e) eqn:He; cbn; [by apply (wf_replicated _ Hwf)|done].
    + intros [Hh He]%present_or_false. rewrite He. by apply F2.
  - rewrite Ax, Ahx, Hm, Ahr. destruct (si_mvcc _ Hsi) as (F1 & F2 & F3). rewrite Ahx in Hm3. split_and!.
    + destruct (e_MaxAppliedMVCC e) eqn:He; cbn; [by apply (wf_mvcc _ Hwf)|done].
    + intros [Hh He]%present_or_false. rewrite He. by apply F2.
    + intros Hp. split; [by apply Hm3|]. destruct (e_MaxAppliedMVCC e) eqn:He; cbn.
      * split; [apply present_or_true; right; by apply Hxr|]. rewrite Ax in Hx0. by apply Hx0.
      * apply present_or_true in Hp as [Hh|]; [|done]. destruct (F3 Hh) as (_ & Hr & ?). split; [|done]. apply present_or_true. by left.
Qed.

Lemma apply_ok e v v' : version_ok v -> edit_wf e -> apply e v = Ok v' -> version_ok v'.
Proof.
  intros Hv Hwf Ha. pose proof (edit_applied e v v' Hv Hwf Ha) as Happ. pose proof (apply_scalars e v v' Hv Hwf Ha) as Hsi'.
  apply apply_parts in Ha as (Hs & Hf & w & Hh & Hfit & Ht); [|done..]. pose proof (vo_scalars _ Hv) as Hsi.
  apply apply_head_inv in Hh; [|done]. destruct (head_u64 _ _ _ Hwf Hsi Hh) as [_ Hfw].
  apply apply_tail_inv in Ht as (_ & _ & _ & _ & _ & Hhigh); [|done|done|by apply Hh|done]. cbn in Hhigh.
  pose proof (hd_same _ _ _ Hh) as [Hlv _]. pose proof (next_structure e v w Hv Hwf Hf Hfit Hlv) as (H8 & Hplaced & Hd & Hsorted & Hov).
  pose proof (ap_levels _ _ _ Happ) as Hl. pose proof (next_live e v v' Hwf Hf (vo_levels _ Hv) Hl) as Hlive. cbn [levels set_levels] in Hhigh.
  assert (Forall (fun t => table_wf t /\ validateTable t = Ok tt) (live v')) as Htab.
  { rewrite Hlive. apply Forall_app. split; apply Forall_forall; intros t Hin.
    - apply list_elem_of_filter in Hin as [_ Hin]. destruct (proj1 (Forall_forall _ _) (vo_tables _ Hv) t Hin) as (? & ? & _). done.
    - split; [by apply (proj1 (Forall_forall _ _) (wf_added _ Hwf))|by apply (proj1 (Forall_forall _ _) (ok_added _ Hf))]. }
  split; try (rewrite Hl; done); [|unfold distinct, live; by rewrite Hl| |done].
  - apply Forall_forall. intros t Hin. destruct (proj1 (Forall_forall _ _) Htab t Hin) as [Ht1 Ht2]. split_and!; [done..|].
    destruct (ap_next _ _ _ Happ) as [-> _]. destruct (hd_next _ _ _ Hh) as [<- _].
    unfold live in Hhigh, Hin. cbn in Hhigh. rewrite Hl in Hin. by apply (proj1 (Forall_forall _ _) Hhigh).
  - intros i l Hi Hli. apply overlaps_false; [|rewrite Hl in Hli; by apply (Hov i)]. apply Forall_forall. intros t Hin.
    assert (t ∈ live v') as Hlt by by eapply level_live. destruct (proj1 (Forall_forall _ _) Htab t Hlt) as [_ Hval].
    apply validateTable_ok in Hval. unfold bounded_table. tauto.
Qed.

(** ** Edits read back from the log *)

(** The edit the log gives back has the effect of the one that was written. *)
Lemma apply_canonical e v v' : version_ok v -> edit_wf e -> apply e v = Ok v' -> apply (canonical e) v = Ok v'.
Proof.
  intros Hv Hwf H. pose proof (canonical_wf e Hwf) as Hwf'. rewrite apply_parts in H |- * by done.
  destruct H as (Hs & Hf & w & Hh & Hfit & Ht). pose proof (canonical_files_ok e Hf) as Hf'.
  split; [by apply canonical_scalars_ok|]. split; [done|]. exists w. split; [done|].
  pose proof (apply_head_inv e v w (vo_scalars _ Hv) Hh) as Hi. pose proof (hd_same _ _ _ Hi) as [Hl _].
  assert (distinct w) as Hd by (unfold distinct, live; rewrite Hl; apply Hv). assert (len (levels w) = 8) as H8 by (rewrite Hl; apply Hv).
  assert (apply_files e w = Ok (set_levels (next_levels e w) w)) as Hfi by by apply apply_files_ok.
  apply (apply_files_perm e (canonical e)) in Hfi; try done; try (symmetry; apply SortFunc_Permutation).
  apply apply_files_ok in Hfi as [Hfit' Heq]; try done. split; [done|].
  assert (next_levels (canonical e) v = next_levels e v) as Hnl.
  { apply (f_equal levels) in Heq. cbn [levels set_levels] in Heq. unfold next_levels, unsorted, with_tables, without in *. cbn in *.
    by rewrite Hl in Heq. }
  rewrite Hnl. exact Ht.
Qed.

(** ** Snapshots *)

Definition snapshot_of (v : Version) : VersionEdit :=
  mkEdit (Some (comparator v)) (Some (nextFileNumber v)) (guard_field (haveLastSequence v) (lastSequence v))
    (guard_field (haveFrontier v) (frontier v))
    (guard_field (Byte.eqb (mode v) ModeReplicated || Byte.eqb (mode v) ModeReplicatedMVCC) (mode v))
    (guard_field (haveReplicatedApplied v) (replicatedApplied v)) (guard_field (haveMaxAppliedMVCC v) (maxAppliedMVCC v))
    [] (live v).
(** The version a snapshot of [v] leads to: its history and whether its mode
    was given are forgotten. *)
Definition rebuilt (v : Version) : Version :=
  mkVersion 1 (comparator v) (levels v) (nextFileNumber v) (haveLastSequence v) (lastSequence v) (haveFrontier v) (frontier v) (mode v)
    (Byte.eqb (mode v) ModeReplicated || Byte.eqb (mode v) ModeReplicatedMVCC)
    (replicatedApplied v) (haveReplicatedApplied v) (maxAppliedMVCC v) (haveMaxAppliedMVCC v).

Lemma filter_level (ls : list (list TableMetadata)) : forall (k i : nat),
  (forall j l t, ls !! j = Some l -> t ∈ l -> Level t = Z.of_nat (k + j)) ->
  filter (fun t => Level t = Z.of_nat (k + i)) (concat ls) = default [] (ls !! i).
Proof.
  induction ls as [|l ls IH]; intros k i Hp; [done|]. cbn [concat]. rewrite filter_app.
  assert (forall j l t, ls !! j = Some l -> t ∈ l -> Level t = Z.of_nat (S k + j)) as Hp'.
  { intros j l' t Hj Ht. rewrite (Hp (S j) l' t Hj Ht). lia. }
  assert (Forall (fun t => Level t = Z.of_nat k) l) as Hl.
  { apply Forall_forall. intros t Ht. rewrite (Hp 0%nat l t eq_refl Ht). lia. }
  destruct i as [|i].
  - rewrite Nat.add_0_r, filter_all by done. rewrite filter_none; [by rewrite app_nil_r|].
    apply Forall_forall. intros t (l' & Hl' & Ht)%elem_of_concat. apply list_elem_of_lookup in Hl' as [j Hj]. rewrite (Hp' j l' t Hj Ht). lia.
  - rewrite filter_none; [|eapply Forall_impl; [exact Hl|]; cbn; lia]. cbn [app].
    transitivity (filter (fun t => Level t = Z.of_nat (S k + i)) (concat ls)); [apply list_filter_iff; intros t; lia|by apply IH].
Qed.
Lemma snapshot_levels v : version_ok v -> next_levels (snapshot_of v) initialVersion = levels v.
Proof.
  intros [H8 Hp _ _ Hs _ _]. apply list_eq. intros i. rewrite sorted_lookup. unfold unsorted. cbn [e_AddedFiles e_DeletedFiles snapshot_of].
  rewrite with_lookup. change (d_FileNumber <$> []) with (@nil Z). rewrite without_nil.
  assert (filter (fun t => Level t = Z.of_nat i) (live v) = default [] (levels v !! i)) as Hf by by apply (filter_level (levels v) 0 i).
  rewrite Hf. destruct (decide (i < 8)%nat) as [Hi|Hi].
  - destruct (lookup_lt_is_Some_2 (levels v) i) as [l Hl]; [unfold len in H8; lia|]. rewrite Hl.
    assert (levels initialVersion !! i = Some []) as ->. { do 8 (destruct i as [|i]; [done|]). lia. }
    cbn [fmap option_fmap option_map from_option default id app]. f_equal. by apply Hs.
  - rewrite (lookup_ge_None_2 (levels v)) by (unfold len in H8; lia). rewrite (lookup_ge_None_2 (levels initialVersion)) by (cbn; lia). done.
Qed.

Section snapshot.
Context (v : Version) (Hv : version_ok v) (Hgen : generation v <> 0).

Lemma snapshot_comparator : comparator v = ComparatorName.
Proof using Hv Hgen. by destruct (si_comparator _ (vo_scalars _ Hv)) as [[? _]|?]. Qed.
Lemma snapshot_wf : edit_wf (snapshot_of v).
Proof using Hv.
  pose proof (vo_scalars _ Hv) as [_ _ Hn _ [Hl _] [Hf _] [Hr _] [Hx _]]. unfold guard_field. split; cbn; unfold guard_field.
  - intros n [= <-]. unfold is_u64, maxNextFileNumber, sstableMaxFileNumberPlusOne in *. lia.
  - intros n. destruct (haveLastSequence v); by intros [= <-].
  - intros n. destruct (haveFrontier v); by intros [= <-].
  - intros n. destruct (haveReplicatedApplied v); by intros [= <-].
  - intros n. destruct (haveMaxAppliedMVCC v); by intros [= <-].
  - constructor.
  - by apply version_wf.
Qed.
Lemma snapshot_scalars : scalars_ok (snapshot_of v).
Proof using Hv Hgen.
  pose proof (vo_scalars _ Hv) as [_ _ Hn Hmode [Hl _] [Hf [_ Hf3]] [Hr [_ Hr3]] [Hx [_ Hx3]]]. unfold scalars_ok. cbn. unfold guard_field. split_and!.
  - by left.
  - intros m. destruct (_ || _); by intros [= <-].
  - destruct (haveFrontier v), (haveReplicatedApplied v); auto. destruct (Hf3 eq_refl) as [Hm _]. by destruct (Hr3 eq_refl).
  - destruct (haveMaxAppliedMVCC v); [|done]. destruct (Hx3 eq_refl) as (_ & -> & _). done.
  - intros c [= <-]. by rewrite snapshot_comparator.
Qed.
Lemma snapshot_files : files_ok (snapshot_of v) <-> len (live v) <= MaxChangesPerEdit.
Proof using Hv.
  split; [by intros []|]. intros Hl. split; cbn; [done| | |done|done].
  - eapply Forall_impl; [apply Hv|]. by intros t (_ & ? & _).
  - unfold edit_numbers. cbn. apply Hv.
Qed.
Definition snapshot_head : Version :=
  mkVersion 0 (comparator v) (replicate 8 []) (nextFileNumber v) (haveLastSequence v) (lastSequence v) false 0 (mode v)
    (Byte.eqb (mode v) ModeReplicated || Byte.eqb (mode v) ModeReplicatedMVCC) 0 false 0 false.
Lemma snapshot_apply_head : apply_head (snapshot_of v) initialVersion = Ok snapshot_head.
Proof using Hv Hgen.
  pose proof (vo_scalars _ Hv) as [_ _ [Hn1 Hn2] Hmode [_ Hl] _ _ _]. unfold apply_head, snapshot_head, initialVersion, snapshot_of.
  cbn [e_Comparator e_StorageMode e_NextFileNumber e_LastSequence]. change (0 =? MaxUint64) with false.
  rewrite snapshot_comparator, bytes_eqb_refl. change (bytes_eqb [] []) with true. cbn [negb andb orb mbind result_bind].
  change (bytes_eqb ComparatorName []) with false. cbn [negb require mbind result_bind].
  rewrite (proj2 (Z.ltb_ge _ 1)), (proj2 (Z.eqb_neq _ 0)), (proj2 (Z.ltb_ge maxNextFileNumber _)) by lia. cbn [orb].
  apply mode_cases in Hmode. destruct (haveLastSequence v); cbn [guard_field andb mbind result_bind]; [|rewrite Hl by done];
    destruct Hmode as [->|[->| ->]]; reflexivity.
Qed.
Lemma snapshot_fits : edit_fits (snapshot_of v) snapshot_head.
Proof using Hv.
  assert (next_levels (snapshot_of v) snapshot_head = levels v) as Hnl by by rewrite <- snapshot_levels. split.
  - by intros d ?%not_elem_of_nil.
  - cbn. change (d_FileNumber <$> []) with (@nil Z). rewrite without_nil. eapply Forall_impl; [apply Hv|]. intros t (_ & _ & Ht).
    split; [|done]. unfold live. cbn. apply not_elem_of_nil.
  - rewrite Hnl. intros i l Hl Hi. apply overlaps_false; [|by eapply Hv]. apply Forall_forall. intros t Hin.
    assert (t ∈ live v) as Hlt by by eapply level_live. destruct (proj1 (Forall_forall _ _) (vo_tables _ Hv) t Hlt) as (_ & Hval & _).
    apply validateTable_ok in Hval. unfold bounded_table. tauto.
Qed.

(** The frontier of [v] is covered from the first sequence on. *)
Definition covered_from_zero : Prop := haveFrontier v = true -> forall s, 0 <= s <= frontier v -> holds_sequence v s.
Lemma highestFile_lt n : 0 < n -> Forall (fun t => FileNumber t < n) (live v) -> forall w, levels w = levels v -> n <=? highestFile w = false.
Proof using.
  clear Hv Hgen. intros Hn Hall w Hw. apply Z.leb_gt. unfold highestFile, live in *. rewrite Hw. clear Hw. revert Hn. generalize 0.
  induction (concat (levels v)) as [|t l IH]; intros a Ha; cbn; [done|]. apply Forall_cons in Hall as [Ht Hl]. apply IH; [done|lia].
Qed.
Lemma snapshot_apply_tail : apply_tail (snapshot_of v) (set_levels (levels v) snapshot_head) =
  if haveFrontier v && negb (frontierCovered (frontier v) (set_levels (levels v) snapshot_head)) then Err [ErrFrontierGap] else Ok (rebuilt v).
Proof using Hv Hgen.
  pose proof (vo_scalars _ Hv) as [_ _ Hn Hmode [_ Hl] (_ & Hf2 & Hf3) (_ & Hr2 & Hr3) (_ & Hx2 & Hx3)].
  assert (forall w, levels w = levels v -> nextFileNumber v <=? highestFile w = false) as Hhigh.
  { apply highestFile_lt; [lia|]. eapply Forall_impl; [apply Hv|]. by intros t (_ & _ & ?). }
  unfold apply_tail, snapshot_of, rebuilt. cbn [e_ReplayFrontier e_ReplicatedAppliedThrough e_MaxAppliedMVCC].
  set (w := set_levels _ _). change w with (mkVersion 0 (comparator v) (levels v) (nextFileNumber v) (haveLastSequence v) (lastSequence v) false 0 (mode v)
    (Byte.eqb (mode v) ModeReplicated || Byte.eqb (mode v) ModeReplicatedMVCC) 0 false 0 false) at 1. cbv iota beta zeta.
  destruct (haveFrontier v) eqn:Hhf; cbn [guard_field andb].
  - destruct (Hf3 eq_refl) as (Hm & Hhl & Hfl). rewrite Hm, Hhl, (proj2 (Z.ltb_ge _ _)) by lia. cbn [negb orb]. change (Byte.eqb ModeStandalone ModeStandalone) with true. cbn [negb].
    destruct (frontierCovered _ w) eqn:Hc; cbn [negb mbind result_bind]; [|done].
    destruct (haveReplicatedApplied v); [by destruct (Hr3 eq_refl)|]. destruct (haveMaxAppliedMVCC v); [by destruct (Hx3 eq_refl) as (He & _); rewrite Hm in He|].
    cbn [guard_field mbind result_bind]. rewrite Hhigh by done. cbn. by rewrite Hr2, Hx2.
  - rewrite Hf2 by done. cbn [mbind result_bind]. apply mode_cases in Hmode.
    destruct (haveMaxAppliedMVCC v) eqn:Hhx.
    { destruct (Hx3 eq_refl) as (Hm & Hhr & Hx0). rewrite Hm, Hhr. cbn [guard_field]. cbn -[highestFile]. rewrite (proj2 (Z.eqb_neq _ 0)) by done. cbn -[highestFile].
      by rewrite Hhigh. }
    rewrite Hx2 by done. destruct (haveReplicatedApplied v) eqn:Hhr.
    + specialize (Hr3 eq_refl). destruct Hmode as [Hm|[Hm|Hm]]; [done| |]; rewrite Hm; cbn -[highestFile]; by rewrite Hhigh.
    + rewrite Hr2 by done. destruct Hmode as [Hm|[Hm|Hm]]; rewrite Hm; cbn -[highestFile]; by rewrite Hhigh.
Qed.
Lemma snapshot_covered : haveFrontier v = true -> frontierCovered (frontier v) (set_levels (levels v) snapshot_head) = true <->
  forall s, 0 <= s <= frontier v -> holds_sequence v s.
Proof using Hv.
  intros Hh. pose proof (vo_scalars _ Hv) as [_ _ _ _ _ (Hf & _ & _) _ _]. rewrite frontierCovered_ok; [done|done|done|done].
Qed.
Lemma apply_snapshot v' : apply (snapshot_of v) initialVersion = Ok v' <->
  len (live v) <= MaxChangesPerEdit /\ covered_from_zero /\ v' = rebuilt v.
Proof using Hv Hgen.
  rewrite apply_parts by (apply initial_ok || apply snapshot_wf). rewrite snapshot_files, snapshot_apply_head, snapshot_levels by done. split.
  - intros (_ & Hl & w & [= <-] & _ & Ht). rewrite snapshot_apply_tail in Ht. split; [done|]. unfold covered_from_zero.
    destruct (haveFrontier v) eqn:Hh; cbn [andb] in Ht; [|by injection Ht as <-].
    destruct (frontierCovered _ _) eqn:Hc; [|done]. injection Ht as <-. split; [|done]. intros _. by apply snapshot_covered.
  - intros (Hl & Hc & ->). split; [apply snapshot_scalars|]. split; [done|]. exists snapshot_head. split; [done|]. split; [apply snapshot_fits|].
    rewrite snapshot_apply_tail. destruct (haveFrontier v) eqn:Hh; [|done]. cbn [andb]. rewrite (proj2 (snapshot_covered Hh)); [done|by apply Hc].
Qed.
End snapshot.

Lemma tableEqual_refl t : tableEqual t t = true.
Proof. unfold tableEqual. by rewrite !Z.eqb_refl, !bytes_eqb_refl. Qed.
Lemma levels_equal_refl ls : levels_equal ls ls = true.
Proof.
  assert (forall l, tables_equal l l = true) as H. { induction l as [|t l IH]; [done|]. cbn. by rewrite tableEqual_refl. }
  induction ls as [|l ls IH]; [done|]. cbn. by rewrite H.
Qed.
Lemma validateEquivalent_refl v w : comparator w = comparator v -> levels w = levels v -> nextFileNumber w = nextFileNumber v ->
  haveLastSequence w = haveLastSequence v -> lastSequence w = lastSequence v -> haveFrontier w = haveFrontier v -> frontier w = frontier v ->
  mode w = mode v -> replicatedApplied w = replicatedApplied v -> haveReplicatedApplied w = haveReplicatedApplied v ->
  maxAppliedMVCC w = maxAppliedMVCC v -> haveMaxAppliedMVCC w = haveMaxAppliedMVCC v -> validateEquivalent v w = Ok tt.
Proof.
  unfold validateEquivalent. intros -> -> -> -> -> -> -> -> -> -> -> ->.
  rewrite bytes_eqb_refl, !Z.eqb_refl, !eqb_reflx, (proj2 (is_mode_iff (mode v) (mode v)) eq_refl), levels_equal_refl. done.
Qed.
Lemma snapshotEdit_of v : version_ok v -> snapshotEdit v = (_ ← apply (snapshot_of v) initialVersion; Ok (snapshot_of v)).
Proof. intros Hv. unfold snapshotEdit. rewrite clone_levels_id by by apply version_wf. done. Qed.

(** ** Properties *)

(** The versions a manifest can reach. *)
Inductive reachable : Version -> Prop :=
  | reach_initial : reachable initialVersion
  | reach_apply v e v' : reachable v -> edit_wf e -> apply e v = Ok v' -> reachable v'.
Lemma reachable_ok v : reachable v -> version_ok v.
Proof. induction 1 as [|v e v' _ IH Hwf Ha]; [apply initial_ok|by eapply apply_ok]. Qed.

(** C19. Versions.  In every version the manifest can reach, each live table is
    valid and stored at its level, file numbers are unique and below the next
    one to allocate, levels below the first hold disjoint key ranges in key
    order, the first is ordered by recency, and the authorities fit the
    storage mode.  An accepted edit removes exactly the files it deletes and
    adds exactly those it adds, never moves an authority back, and moves the
    replay frontier only over sequences held by live tables. *)
Theorem version_invariant v : reachable v ->
  version_ok v /\ forall e v', edit_wf e -> apply e v = Ok v' ->
    version_ok v' /\ applied e v v' /\
    live v' ≡ₚ filter (fun t => FileNumber t ∉ d_FileNumber <$> e_DeletedFiles e) (live v) ++ e_AddedFiles e.
Proof.
  intros Hv%reachable_ok. split; [done|]. intros e v' Hwf Ha. split; [by eapply apply_ok|].
  pose proof (edit_applied e v v' Hv Hwf Ha) as Happ. split; [done|].
  apply apply_parts in Ha as (_ & Hf & _); [|done..]. eapply next_live; [done..|apply Hv|apply Happ].
Qed.

(** C39. The replay frontier [maximumContiguousFrontier] proposes is accepted
    by the check of [apply], and it is the largest one that is: one more
    sequence is refused.  When it proposes none, none is accepted. *)
Theorem frontier_maximal v : version_ok v ->
  match maximumContiguousFrontier v with
  | (f, true) => is_u64 f /\ (haveFrontier v = true -> frontier v <= f) /\ frontierCovered f v = true /\
      forall g, f < g -> is_u64 g -> frontierCovered g v = false
  | (_, false) => haveFrontier v = false /\ forall g, is_u64 g -> frontierCovered g v = false
  end.
Proof.
  intros Hv. pose proof (vo_scalars _ Hv) as [_ _ _ _ _ (Hf & _ & _) _ _].
  assert (Forall (fun t => LargestSequence t <= MaxUint64) (live v)) as Hl.
  { eapply Forall_impl; [apply Hv|]. intros t ([_ _ _ [_ Hs] _] & _). unfold is_u64, MaxUint64, two64 in *. lia. }
  pose proof (maximumContiguousFrontier_ok v Hf Hl) as Hm. destruct (maximumContiguousFrontier v) as [f [|]].
  - destruct Hm as (Hfu & Hle & Hcov & Hmax). assert (haveFrontier v = true -> frontier v <= f) as Hle'.
    { unfold after_frontier in Hle. intros H. rewrite H in Hle. lia. }
    split; [done|]. split; [done|]. split; [by apply frontierCovered_ok|]. intros g Hg Hgu. apply not_true_iff_false.
    rewrite frontierCovered_ok; [|done|done|intros H; specialize (Hle' H); lia]. intros Hall.
    destruct Hmax as [->|Hno]; [unfold is_u64, MaxUint64, two64 in *; lia|]. apply Hno, Hall. lia.
  - destruct Hm as [Hno H0]. split; [done|]. intros g Hg. apply not_true_iff_false. rewrite frontierCovered_ok; [|done|done|congruence].
    intros Hall. apply H0, Hall. unfold after_frontier. rewrite Hno. unfold is_u64 in Hg. lia.
Qed.

(** Manifest snapshots.  For a reachable version with at most
    [MaxChangesPerEdit] live tables whose replay frontier the live tables
    cover from sequence 0, [snapshotEdit] gives one edit that rebuilds an
    equivalent version from nothing; otherwise it fails. *)
Theorem snapshot_rebuilds v : version_ok v -> generation v <> 0 ->
  match snapshotEdit v with
  | Ok e => (len (live v) <= MaxChangesPerEdit /\ covered_from_zero v) /\ edit_wf e /\
      apply e initialVersion = Ok (rebuilt v) /\ validateEquivalent v (rebuilt v) = Ok tt
  | Err _ => ~ (len (live v) <= MaxChangesPerEdit /\ covered_from_zero v)
  end.
Proof.
  intros Hv Hg. rewrite snapshotEdit_of by done. destruct (apply (snapshot_of v) initialVersion) as [v'|e] eqn:Ha; cbn [mbind result_bind].
  - pose proof Ha as (? & ? & ->)%apply_snapshot; [|done..]. split; [done|]. split; [by apply snapshot_wf|]. split; [done|].
    by apply validateEquivalent_refl.
  - intros [Hl Hc]. pose proof (proj2 (apply_snapshot v Hv Hg (rebuilt v)) (conj Hl (conj Hc eq_refl))). congruence.
Qed.

Module VersionExample.
Import EditExample.
Definition create : VersionEdit := mkEdit (Some ComparatorName) (Some 1) None None None None None [] [].
Definition flush : VersionEdit :=
  mkEdit None (Some 9) (Some 40) (Some 20) None None None [] [table 1 8 11 20 Byte.x63 Byte.x64; table 0 7 0 10 Byte.x61 Byte.x62].
Definition after (e : VersionEdit) (v : Version) : Version := match apply e v with Ok v' => v' | Err _ => v end.
Definition v1 : Version := after create initialVersion.
Definition v2 : Version := after flush v1.
Lemma create_wf : edit_wf create.
Proof. split; cbn; try done; by intros ? [= <-]. Qed.
Lemma flush_wf : edit_wf flush.
Proof.
  split; cbn; try (by intros ? [= <-]); [done|]. rewrite !Forall_cons. split_and!; [by apply table_ok..|done].
Qed.
Lemma create_ok : apply create initialVersion = Ok v1.
Proof. vm_compute. reflexivity. Qed.
Lemma flush_ok : apply flush v1 = Ok v2.
Proof. vm_compute. reflexivity. Qed.
Lemma v1_reachable : reachable v1.
Proof. apply (reach_apply initialVersion create); [constructor|apply create_wf|apply create_ok]. Qed.
Lemma v2_reachable : reachable v2.
Proof. apply (reach_apply v1 flush); [apply v1_reachable|apply flush_wf|apply flush_ok]. Qed.
Lemma v2_ok : version_ok v2.
Proof. apply reachable_ok, v2_reachable. Qed.
End VersionExample.
Import VersionExample.

Lemma version_invariant_witness :
  version_ok v2 /\ applied flush v1 v2 /\ live v2 ≡ₚ filter (fun t => FileNumber t ∉ d_FileNumber <$> e_DeletedFiles flush) (live v1) ++ e_AddedFiles flush.
Proof. apply (proj2 (version_invariant v1 v1_reachable) flush v2 flush_wf flush_ok). Defined.

Lemma frontier_maximal_witness : maximumContiguousFrontier v2 = (20, true) /\ frontierCovered 20 v2 = true /\ frontierCovered 21 v2 = false.
Proof.
  split; [vm_compute; reflexivity|]. pose proof (frontier_maximal v2 v2_ok) as H. change (maximumContiguousFrontier v2) with (20, true) in H.
  destruct H as (_ & _ & H20 & Hg). split; [exact H20|]. apply Hg; done.
Defined.

Lemma snapshot_rebuilds_witness : exists e, snapshotEdit v2 = Ok e /\ apply e initialVersion = Ok (rebuilt v2) /\ validateEquivalent v2 (rebuilt v2) = Ok tt.
Proof.
  pose proof (snapshot_rebuilds v2 v2_ok ltac:(vm_compute; discriminate)) as H. destruct (snapshotEdit v2) as [e|err] eqn:He.
  - exists e. split; [reflexivity|]. apply H.
  - exfalso. vm_compute in He. discriminate He.
Defined.
