(* ===== verification/ManifestStore.v ===== *)
(** * The manifest store (storage/manifest/store.go, recovery.go, current.go)

    The store serializes version edits through a write-ahead log, publishes
    the version an edit leads to once the edit is durable, and recovers the
    version from the log.  The log's writer and reader are those of Wal.v, the
    tables are read by SSTableReader.v.  Mutexes, loggers and the counters of
    [Stats] are not modelled; the test hook [afterDurable] is a parameter. *)

From S2P Require Import Prelude InternalKey Batch Codec Loops Files Wal MvccStore SSTable SSTableWriter SSTableReader MemTable Manifest ManifestVersion.
From Stdlib Require Strings.String.
Import manifest version.

Module store.

(** An error is the sentinels of the packages it joins. *)
Inductive store_error := Manifest (e : manifest_error) | Log (e : wal_error) | Table (e : sstable.sst_error) | Storage (e : storage_error) | Mem (e : memtable.mem_error).
Abbreviation serrors := (list store_error).
Abbreviation sres := (result serrors).
Definition lift {A} (r : res A) : sres A := match r with Ok a => Ok a | Err e => Err (Manifest <$> e) end.

(** ** Physical tables (recovery.go) *)

(** What opening a path gives: [os.ErrNotExist], another error, or a file and
    whether closing it fails. *)
Inductive opened := Missing | Unopenable | Opened (f : randomAccessFile) (closeErr : bool).

Definition sstableMetadataEqual (expected : TableMetadata) (actual : writer.Metadata) : bool :=
  (FileNumber expected =? writer.FileNumber actual) && (FileSize expected =? writer.FileSize actual) &&
  (EntryCount expected =? writer.EntryCount actual) && (DeletionCount expected =? writer.DeletionCount actual) &&
  (RawKeyValueBytes expected =? writer.RawKeyValueBytes actual) && (DataBlockCount expected =? writer.DataBlockCount actual) &&
  (match CompareInternal (SmallestInternal expected) (writer.SmallestInternal actual) with Eq => true | _ => false end) &&
  (match CompareInternal (LargestInternal expected) (writer.LargestInternal actual) with Eq => true | _ => false end) &&
  bytes_eqb (SmallestUser expected) (writer.SmallestUser actual) && bytes_eqb (LargestUser expected) (writer.LargestUser actual).

(** [sstable.Open] of the file [name]; the reader's later reads may fail
    where the validation did not. *)
Definition open_table (name : bytes) (o : opened) : sres reader.Reader :=
  match o with
  | Missing => Err [Manifest ErrMissingLiveTable]
  | Unopenable => Err [Table sstable.ErrIO]
  | Opened f _ =>
      match reader.openReader f (len (ra_bytes f)) name 0 with
      | Ok r => Ok (with_file (later f) r)
      | Err e => Err (Table <$> e)
      end
  end.
Definition validatePhysicalTable (directory : bytes -> opened) (expected : TableMetadata) : sres unit :=
  let name := reader.FileName (FileNumber expected) in
  match directory name with
  | Missing => Err [Manifest ErrMissingLiveTable]
  | file =>
      match open_table name file with
      | Err e => Err (Manifest ErrCorruptLiveTable :: e)
      | Ok r =>
          match file with
          | Opened _ true => Err [Manifest ErrCorruptLiveTable; Table sstable.ErrIO]
          | _ =>
              match reader.rd_metadata r with
              | Some actual =>
                  if negb (sstableMetadataEqual expected actual) then Err [Manifest ErrCorruptLiveTable; Manifest ErrMetadataMismatch]
                  else Ok tt
              | None => Err [Manifest ErrCorruptLiveTable; Manifest ErrMetadataMismatch]
              end
          end
      end
  end.

(** [strconv.ParseUint] of twelve digits never fails. *)
Definition parseSSTableName (name : bytes) (temporary : bool) : option Z :=
  let suffix := if temporary then reader.suffix ++ [Byte.x2e; Byte.x74; Byte.x6d; Byte.x70] else reader.suffix in
  if negb (len name =? 12 + len suffix) || negb (bytes_eqb (drop 12 name) suffix) then None
  else
    match reader.parse_uint 0 (take 12 name) with
    | Some number => if negb (number =? 0) && (number <=? sstable.MaxFileNumber) then Some number else None
    | None => None
    end.

(** ** Recovery of the log (recovery.go) *)

(** The callback of [recoverManifest]: the version, how many edits were
    applied, and the error it returned. *)
Record replay := mkReplay { rp_version : Version; rp_applied : Z; rp_error : option serrors }.
Definition replay_edit (s : replay) (rec : WalRecord) : replay * bool :=
  match DecodeVersionEdit (Payload rec) with
  | Err e => (mkReplay (rp_version s) (rp_applied s) (Some (Manifest <$> e)), true)
  | Ok edit =>
      match apply edit (rp_version s) with
      | Err e => (mkReplay (rp_version s) (rp_applied s) (Some (Manifest <$> e)), true)
      | Ok candidate => (mkReplay candidate (u64 (rp_applied s + 1)) None, false)
      end
  end.
(** [wal.Recover] of an opened path: the callback's state, the result and the
    joined errors ([[]] is nil); [consumed] is the error the callback returned. *)
Definition source_of (f : randomAccessFile) : Source :=
  {| data := ra_bytes f; fault := fun o n => match ra_fault f o n with Some _ => true | None => false end |}.
Definition file_reader (f : randomAccessFile) : Reader :=
  mkReader (source_of f) (len (ra_bytes f)) None 0 0 zero_record 0 [] false 0 None None false false None.
Definition no_recovery : RecoveryResult := {| ValidEnd := 0; FileEnd := 0; Records := 0; TailTruncated := false |}.
Definition recover_file {S} (consume : S -> WalRecord -> S * bool) (consumed : S -> serrors) (s : S) (o : opened)
    : S * (RecoveryResult * serrors) :=
  match o with
  | Opened f closeErr =>
      let '(s, (result, err)) := recoverFromReader consume s (file_reader f) in
      let scanErr :=
        match err with
        | None => []
        | Some (ReadFailed _ ErrConsume) => Log ErrConsume :: consumed s
        | Some e => [Log (scan_cause e)]
        end in
      (s, (result, scanErr ++ (if closeErr then [Log Wal.ErrIO] else [])))
  | _ => (s, (no_recovery, [Log Wal.ErrIO]))
  end.

Definition recoverManifest (o : opened) : sres (Version * RecoveryResult) :=
  let '(s, (result, err)) := recover_file replay_edit (fun s => default [] (rp_error s)) (mkReplay initialVersion 0 None) o in
  match err with
  | _ :: _ => Err (Manifest ErrManifestCorrupt :: err)
  | [] =>
      if (rp_applied s =? 0) || negb (bytes_eqb (comparator (rp_version s)) ComparatorName)
      then Err [Manifest ErrManifestCorrupt; Manifest ErrComparatorMismatch]
      else Ok (rp_version s, result)
  end.

Definition nextSequence (maximum : Z) (found : bool) : Z * bool :=
  if negb found then (0, false) else if maximum =? MaxUint64 then (0, true) else (u64 (maximum + 1), false).

Definition maximumVersionSequence (v : Version) : Z * bool :=
  foldl (fun '(maximum, found) table =>
    if negb found || (maximum <? LargestSequence table) then (LargestSequence table, true) else (maximum, found))
    (0, false) (live v).

(** ** Replay of the write-ahead log (recovery.go) *)

(** The memtable, how many mutations were applied, and the error the callback
    returned; [None] is a panic of the memtable. *)
Record wal_replay := mkWalReplay { wr_table : memtable.MemTable; wr_applied : Z; wr_error : serrors }.
Section replay.
Context (random : nat -> Z) (expensive : bool) (frontier : option Z).
Definition replay_batch (s : option wal_replay) (rec : WalRecord) : option wal_replay * bool :=
  match s with
  | None => (None, true)
  | Some st =>
      let fail e := (Some (mkWalReplay (wr_table st) (wr_applied st) e), true) in
      match DecodeWriteBatch (Payload rec) with
      | Err e => fail (Storage <$> e)
      | Ok batch =>
          let last := u64 (u64 (FirstSequence batch + len (Mutations batch)) - 1) in
          let action :=
            match frontier with
            | Some f => if last <=? f then Ok false else if FirstSequence batch <=? f then Err [Manifest ErrFrontierSplitsBatch] else Ok true
            | None => Ok true
            end in
          match action with
          | Err e => fail e
          | Ok false => (Some st, false)
          | Ok true =>
              match memtable.ApplyBatch random expensive batch (wr_table st) with
              | None => (None, true)
              | Some (m, Err e) => (Some (mkWalReplay m (wr_applied st) [Mem e]), true)
              | Some (m, Ok _) => (Some (mkWalReplay m (u64 (wr_applied st + len (Mutations batch))) []), false)
              end
          end
      end
  end.
(** The memtable, the count and the error ([[]] is nil). *)
Definition ReplayWAL (o : opened) (table : memtable.MemTable) : option (memtable.MemTable * Z * serrors) :=
  if memtable.t_frozen table then Some (table, 0, [Manifest ErrInvalidOptions])
  else
    let '(s, (_, err)) := recover_file replay_batch (fun s => match s with Some st => wr_error st | None => [] end)
                            (Some (mkWalReplay table 0 [])) o in
    st ← s; Some (wr_table st, wr_applied st, err).
End replay.

(** ** The store (store.go) *)

(** A [context.Context]: nil, or whether it is cancelled. *)
Inductive context := NilContext | Context (cancelled : bool).
Definition check_context (ctx : context) : sres unit :=
  match ctx with
  | NilContext => Err [Manifest ErrInvalidOptions]
  | Context true => Err []
  | Context false => Ok tt
  end.

(** [pipeline.TableInstallation]; [i_Path] is the cleaned path. *)
Record TableInstallation := {
  i_Generation : Z; i_SmallestSequence : Z; i_LargestSequence : Z; i_HaveAppliedCoverage : bool; i_FirstAppliedIndex : Z;
  i_LastAppliedIndex : Z; i_MaxMVCCTimestamp : Z; i_Path : bytes; i_Metadata : writer.Metadata
}.

Section store.
Context `{WritableFile}.
(** The directory of tables, its path, and the test hook. *)
Context (directory : bytes -> opened) (path : bytes) (afterDurable : Version -> bool).

Record Store := mkStore {
  st_writer : Writer; st_manifestNumber : Z; st_nextManifest : Z; st_current : Version; st_nextSequence : Z; st_seqExhausted : bool;
  st_poisoned : option serrors; st_closed : bool; st_closeErr : option (list wal_error); st_obsolete : list Z
}.
Definition newStore (w : Writer) (number : Z) (v : Version) : Store :=
  mkStore w number (u64 (number + 1)) v 0 false None false None [].
Definition with_writer (w : Writer) (s : Store) : Store :=
  mkStore w (st_manifestNumber s) (st_nextManifest s) (st_current s) (st_nextSequence s) (st_seqExhausted s) (st_poisoned s)
    (st_closed s) (st_closeErr s) (st_obsolete s).
Definition poison_store (e : serrors) (s : Store) : Store :=
  mkStore (st_writer s) (st_manifestNumber s) (st_nextManifest s) (st_current s) (st_nextSequence s) (st_seqExhausted s) (Some e)
    (st_closed s) (st_closeErr s) (st_obsolete s).
Definition publish (v : Version) (s : Store) : Store :=
  let '(next, exhausted) :=
    if haveLastSequence v then nextSequence (lastSequence v) true else (st_nextSequence s, st_seqExhausted s) in
  mkStore (st_writer s) (st_manifestNumber s) (st_nextManifest s) v next exhausted (st_poisoned s) (st_closed s) (st_closeErr s) (st_obsolete s).

Definition Current (s : Store) : sres Version := if st_closed s then Err [Manifest ErrClosed] else Ok (st_current s).

Definition installLocked (edit : VersionEdit) (s : Store) : Store * sres unit :=
  if st_closed s then (s, Err [Manifest ErrClosed])
  else
    match st_poisoned s with
    | Some e => (s, Err (Manifest ErrWriterPoisoned :: e))
    | None =>
        match (candidate ← lift (apply edit (st_current s)); encoded ← lift (EncodeVersionEdit edit); Ok (candidate, encoded)) with
        | Err e => (s, Err e)
        | Ok (candidate, encoded) =>
            match Append encoded (st_writer s) with
            | (w, Err e) => (poison_store (Log <$> e) (with_writer w s), Err (Manifest ErrWriterPoisoned :: (Log <$> e)))
            | (w, Ok _) =>
                let s := with_writer w s in
                if afterDurable candidate then (poison_store [Manifest ErrIO] s, Err [Manifest ErrIO])
                else (publish candidate s, Ok tt)
            end
        end
    end.

(** The loop over the tables of an edit that are checked on disk. *)
Fixpoint validate_tables (tables : list TableMetadata) : sres unit :=
  match tables with
  | [] => Ok tt
  | table :: tables => _ ← validatePhysicalTable directory table; validate_tables tables
  end.
Definition Install (edit : VersionEdit) (s : Store) : Store * sres unit :=
  if present (e_StorageMode edit) || present (e_ReplicatedAppliedThrough edit) || present (e_MaxAppliedMVCC edit)
  then (s, Err [Manifest ErrModeMismatch])
  else
    match validate_tables (e_AddedFiles edit) with
    | Err e => (s, Err e)
    | Ok _ => installLocked edit s
    end.

Definition AllocateFileNumber (ctx : context) (s : Store) : Store * sres Z :=
  match check_context ctx with
  | Err e => (s, Err e)
  | Ok _ =>
      if st_closed s then (s, Err [Manifest ErrClosed])
      else
        let number := nextFileNumber (st_current s) in
        if (number =? 0) || (sstable.MaxFileNumber <? number) then (s, Err [Manifest ErrFileNumberExhausted])
        else
          match installLocked (mkEdit None (Some (u64 (number + 1))) None None None None None [] []) s with
          | (s, Err e) => (s, Err e)
          | (s, Ok _) => (s, Ok number)
          end
  end.

(** The edit of [InstallTable], once the table is known to be on disk. *)
Definition table_edit (installation : TableInstallation) (table : TableMetadata) (v : Version) : sres VersionEdit :=
  let last := if haveLastSequence v && (i_LargestSequence installation <? lastSequence v) then lastSequence v
              else i_LargestSequence installation in
  if Byte.eqb (mode v) ModeReplicated || Byte.eqb (mode v) ModeReplicatedMVCC then
    if negb (i_HaveAppliedCoverage installation) || negb (i_FirstAppliedIndex installation =? u64 (replicatedApplied v + 1)) ||
      (i_LastAppliedIndex installation <? i_FirstAppliedIndex installation)
    then Err [Manifest ErrReplicatedFrontierGap]
    else
      let frontier := Some (i_LastAppliedIndex installation) in
      if Byte.eqb (mode v) ModeReplicatedMVCC then
        let maximum := i_MaxMVCCTimestamp installation in
        if maximum =? 0 then Err [Manifest ErrSequenceRegression]
        else
          let maximum := if haveMaxAppliedMVCC v then Z.max maximum (maxAppliedMVCC v) else maximum in
          Ok (mkEdit None None (Some last) None None frontier (Some maximum) [] [table])
      else Ok (mkEdit None None (Some last) None None frontier None [] [table])
  else
    let edit := mkEdit None None (Some last) None None None None [] [table] in
    preliminary ← lift (apply edit v);
    let '(frontier', ok) := maximumContiguousFrontier preliminary in
    if ok && (negb (haveFrontier v) || (frontier v <? frontier'))
    then Ok (mkEdit None None (Some last) (Some frontier') None None None [] [table])
    else Ok edit.
Definition InstallTable (ctx : context) (installation : TableInstallation) (s : Store) : Store * sres unit :=
  match (_ ← check_context ctx;
         table ← lift (NewTableMetadata 0 (i_Generation installation) (i_SmallestSequence installation)
                         (i_LargestSequence installation) (i_Metadata installation));
         _ ← require (bytes_eqb (i_Path installation) (path ++ [Byte.x2f] ++ reader.FileName (FileNumber table)))
               [Manifest ErrMetadataMismatch; Manifest ErrInvalidOptions];
         _ ← validatePhysicalTable directory table;
         table_edit installation table (st_current s)) with
  | Err e => (s, Err e)
  | Ok edit => installLocked edit s
  end.

Definition deletion_of (input : TableMetadata) : DeletedFile := {| d_Level := Level input; d_FileNumber := FileNumber input |}.
Definition add_obsolete (inputs : list TableMetadata) (s : Store) : Store :=
  mkStore (st_writer s) (st_manifestNumber s) (st_nextManifest s) (st_current s) (st_nextSequence s) (st_seqExhausted s) (st_poisoned s)
    (st_closed s) (st_closeErr s) (st_obsolete s ++ (FileNumber <$> inputs)).
(** The last two checks are the assertions STORAGE-81 and REPLICA-9. *)
Definition InstallCompaction (ctx : context) (inputs outputs : list TableMetadata) (s : Store) : Store * sres unit :=
  match ctx with
  | NilContext => (s, Err [Manifest ErrInvalidOptions])
  | Context cancelled =>
      if (len inputs =? 0) || (len outputs =? 0) then (s, Err [Manifest ErrInvalidOptions])
      else if cancelled then (s, Err [])
      else
        match (_ ← validate_tables outputs;
               _ ← require (forallb (fun input => Contains input (st_current s)) inputs) [Manifest ErrStaleVersion];
               added ← lift (cloneTables outputs);
               let edit := mkEdit None None None None None None None (deletion_of <$> inputs) added in
               match apply edit (st_current s) with
               | Err e => Err (Manifest ErrStaleVersion :: (Manifest <$> e))
               | Ok _ => Ok edit
               end) with
        | Err e => (s, Err e)
        | Ok edit =>
            let before := st_current s in
            match installLocked edit s with
            | (s, Err e) => (s, Err e)
            | (s, Ok _) =>
                if negb ((frontier (st_current s) =? frontier before) && eqb (haveFrontier (st_current s)) (haveFrontier before))
                then (s, Err [Manifest STORAGE_81])
                else if negb ((replicatedApplied (st_current s) =? replicatedApplied before) &&
                  eqb (haveReplicatedApplied (st_current s)) (haveReplicatedApplied before))
                then (s, Err [Manifest REPLICA_9])
                else (add_obsolete inputs s, Ok tt)
            end
        end
  end.

Definition CloseStore (s : Store) : Store * option (list wal_error) :=
  if st_closed s then (s, st_closeErr s)
  else
    let '(w, e) := Close (st_writer s) in
    (mkStore w (st_manifestNumber s) (st_nextManifest s) (st_current s) (st_nextSequence s) (st_seqExhausted s) (st_poisoned s)
       true e (st_obsolete s), e).

End store.
Arguments Store {_}.

End store.
