(* ===== verification/ManifestOpen.v ===== *)
(** * Opening and rewriting a manifest (storage/manifest/current.go, store.go, recovery.go)

    The CURRENT file that names the manifest in use and its replacement by a
    rename, [Create], [Rewrite] and [Open] with the scan of the storage
    directory. *)

From S2P Require Import Prelude InternalKey Batch Codec Loops Files Wal MvccStore SSTable SSTableWriter SSTableReader MemTable Manifest ManifestVersion ManifestStore.
From Stdlib Require Strings.String.
Import manifest version store.

Module current.

(** ** CURRENT (current.go) *)

Section names.
Import Stdlib.Strings.String.
Definition manifestPrefix : bytes := list_byte_of_string "MANIFEST-"%string.
Definition currentTempName : bytes := list_byte_of_string "CURRENT.tmp"%string.
Definition manifestTempSuffix : bytes := list_byte_of_string ".manifest.tmp"%string.
Definition walSuffix : bytes := list_byte_of_string ".wal"%string.
End names.
Definition maxManifestNumber : Z := 999999.
Definition newline : byte := Byte.x0a.

(** How many decimal digits a [uint64] has. *)
Definition decimal_width (z : Z) : nat := S (length (filter (fun k => 10 ^ Z.of_nat (S k) <= z) (seq 0 19))).
(** [%06d] *)
Definition manifestFileName (number : Z) : bytes := manifestPrefix ++ reader.digits (Nat.max 6 (decimal_width number)) number.
Definition parseManifestName (name : bytes) : res Z :=
  if negb (len name =? len manifestPrefix + 6) || negb (bytes_eqb (take 9 name) manifestPrefix) then Err [ErrCurrentCorrupt]
  else
    match reader.parse_uint 0 (drop 9 name) with
    | Some number => if (number =? 0) || (maxManifestNumber <? number) then Err [ErrCurrentCorrupt] else Ok number
    | None => Err [ErrCurrentCorrupt]
    end.

Definition bytesCount (b : bytes) (value : byte) : Z := foldl (fun count current => if Byte.eqb current value then count + 1 else count) 0 b.
(** [readCurrent] of the contents of CURRENT, if it can be read. *)
Definition readCurrent (file : option bytes) : res Z :=
  match file with
  | None => Err [ErrCurrentCorrupt]
  | Some b =>
      if (len b <? 2) || negb (Byte.eqb (default Byte.x00 (b !! (length b - 1)%nat)) newline) || negb (bytesCount b newline =? 1)
      then Err [ErrCurrentCorrupt]
      else parseManifestName (take (length b - 1) b)
  end.

(** The contents of CURRENT and whether CURRENT.tmp exists. *)
Record current_files := { cur_contents : option bytes; cur_temp : bool }.
(** The operations of [currentOps] that fail. *)
Record current_faults := {
  cf_open : bool; cf_write : bool; cf_sync : bool; cf_close : bool; cf_rename : bool; cf_opendir : bool; cf_dirsync : bool;
  cf_dirclose : bool; cf_remove : bool
}.
Definition no_current_faults : current_faults :=
  {| cf_open := false; cf_write := false; cf_sync := false; cf_close := false; cf_rename := false; cf_opendir := false;
     cf_dirsync := false; cf_dirclose := false; cf_remove := false |}.
Definition io (b : bool) : errors := if b then [ErrIO] else [].
(** The deferred removal of the temporary file. *)
Definition remove_temp (faults : current_faults) (fs : current_files) (err : errors) : current_files * (bool * errors) :=
  ({| cur_contents := cur_contents fs; cur_temp := cf_remove faults |}, (false, err ++ io (cf_remove faults))).
(** The files, whether the publication is ambiguous, and the joined errors. *)
Definition publishCurrent (number : Z) (faults : current_faults) (fs : current_files) : current_files * (bool * errors) :=
  let name := manifestFileName number in
  match parseManifestName name with
  | Err e => (fs, (false, e))
  | Ok _ =>
      if cur_temp fs then (fs, (false, [ErrCurrentTempExists]))
      else if cf_open faults then (fs, (false, [ErrIO]))
      else if cf_write faults then remove_temp faults fs ([ErrIO] ++ io (cf_close faults))
      else if cf_sync faults then remove_temp faults fs ([ErrIO] ++ io (cf_close faults))
      else if cf_close faults then remove_temp faults fs [ErrIO]
      else if cf_rename faults then remove_temp faults fs [ErrIO]
      else
        let fs := {| cur_contents := Some (name ++ [newline]); cur_temp := false |} in
        if cf_opendir faults then (fs, (true, [ErrIO]))
        else if cf_dirsync faults then (fs, (true, [ErrIO] ++ io (cf_dirclose faults)))
        else if cf_dirclose faults then (fs, (true, [ErrIO]))
        else (fs, (false, []))
  end.

(** ** The storage directory *)

Record dir_entry := { de_name : bytes; de_isDir : bool; de_file : opened }.
(** [strings.HasSuffix] *)
Definition has_suffix (s suffix : bytes) : bool :=
  (len suffix <=? len s) && bytes_eqb (drop (length s - length suffix) s) suffix.

(** [entries] is what [os.ReadDir] returns, [None] its error. *)
Definition nextManifestNumber (entries : option (list dir_entry)) : sres Z :=
  match entries with
  | None => Err [Manifest ErrIO]
  | Some entries =>
      let highest := foldl (fun highest entry =>
        match parseManifestName (de_name entry) with Ok number => Z.max highest number | Err _ => highest end) 0 entries in
      if maxManifestNumber <=? highest then Err [Manifest ErrManifestNumberExhausted] else Ok (u64 (highest + 1))
  end.

Record Discovery := { Live : list Z; Orphans : list Z; Temporary : list bytes; Invalid : list bytes }.
(** The report, the highest number observed, and the live numbers seen. *)
Record scan := mkScan { sc_report : Discovery; sc_max : Z; sc_seen : gset Z }.
Definition add_live (n : Z) (d : Discovery) := {| Live := Live d ++ [n]; Orphans := Orphans d; Temporary := Temporary d; Invalid := Invalid d |}.
Definition add_orphan (n : Z) (d : Discovery) := {| Live := Live d; Orphans := Orphans d ++ [n]; Temporary := Temporary d; Invalid := Invalid d |}.
Definition add_temporary (n : bytes) (d : Discovery) := {| Live := Live d; Orphans := Orphans d; Temporary := Temporary d ++ [n]; Invalid := Invalid d |}.
Definition add_invalid (n : bytes) (d : Discovery) := {| Live := Live d; Orphans := Orphans d; Temporary := Temporary d; Invalid := Invalid d ++ [n] |}.
(** One entry; an open of the entry's path opens the entry. *)
Definition discover_entry (v : Version) (s : scan) (entry : dir_entry) : sres scan :=
  let name := de_name entry in
  let 'mkScan report maximum seen := s in
  match parseSSTableName name false with
  | Some number =>
      let maximum := Z.max maximum number in
      match find (fun table => FileNumber table =? number) (live v) with
      | Some expected =>
          _ ← validatePhysicalTable (fun _ => de_file entry) expected;
          Ok (mkScan (add_live number report) maximum ({[number]} ∪ seen))
      | None =>
          match open_table name (de_file entry) with
          | Err _ => Ok (mkScan (add_invalid name report) maximum seen)
          | Ok _ =>
              match de_file entry with
              | Opened _ true => Err [Table sstable.ErrIO]
              | _ => Ok (mkScan (add_orphan number report) maximum seen)
              end
          end
      end
  | None =>
      match parseSSTableName name true with
      | Some number => Ok (mkScan (add_temporary name report) (Z.max maximum number) seen)
      | None =>
          if bytes_eqb name currentTempName || has_suffix name manifestTempSuffix
          then Ok (mkScan (add_temporary name report) maximum seen) else Ok s
      end
  end.
Definition discoverAndValidate (entries : option (list dir_entry)) (v : Version) : sres (Discovery * Z) :=
  match entries with
  | None => Err [Manifest ErrIO]
  | Some entries =>
      s ← foldM (discover_entry v) (mkScan {| Live := []; Orphans := []; Temporary := []; Invalid := [] |} 0 ∅) entries;
      if forallb (fun table => bool_decide (FileNumber table ∈ sc_seen s)) (live v)
      then Ok ({| Live := SortFunc Z.compare (Live (sc_report s)); Orphans := SortFunc Z.compare (Orphans (sc_report s));
                  Temporary := SortFunc bytes_compare (Temporary (sc_report s)); Invalid := SortFunc bytes_compare (Invalid (sc_report s)) |},
               sc_max s)
      else Err [Manifest ErrMissingLiveTable]
  end.

(** The callback of [maximumWALSequence]: the maximum, and the decoding error. *)
Definition note_batch (s : (Z * bool) * serrors) (rec : WalRecord) : ((Z * bool) * serrors) * bool :=
  let '((maximum, found), _) := s in
  match DecodeWriteBatch (Payload rec) with
  | Err e => (((maximum, found), Storage <$> e), true)
  | Ok batch =>
      let last := u64 (u64 (FirstSequence batch + len (Mutations batch)) - 1) in
      ((if negb found || (maximum <? last) then (last, true) else (maximum, found), []), false)
  end.
Definition note_wal (s : Z * bool) (entry : dir_entry) : sres (Z * bool) :=
  if de_isDir entry || negb (has_suffix (de_name entry) walSuffix) then Ok s
  else
    let '((s, _), (_, err)) := recover_file note_batch snd (s, []) (de_file entry) in
    match err with [] => Ok s | _ => Err err end.
Definition maximumWALSequence (entries : option (list dir_entry)) : sres (Z * bool) :=
  match entries with None => Err [Manifest ErrIO] | Some entries => foldM note_wal (0, false) entries end.

Section opening.
Context `{WritableFile}.
Context (afterDurable : Version -> bool).

(** ** [Create] *)

(** The result of looking for a path: [os.Lstat] found it, did not, or failed. *)
Inductive lookup_result := Exists | Absent | LookupFailed.
(** [openManifestWriter]: [f] and [d] are the new file and its directory. *)
Definition openManifestWriter (number : Z) (look : lookup_result) (f : File) (d : option Dir) (b : bytes) (os : os_faults) : sres Writer :=
  if (number =? 0) || (maxManifestNumber <? number) then Err [Manifest ErrManifestNumberExhausted]
  else
    match look with
    | Exists => Err [Manifest ErrFileNumberCollision]
    | LookupFailed => Err [Manifest ErrIO]
    | Absent => match OpenWriter f d b SyncBatch os with Ok w => Ok w | Err e => Err (Log <$> e) end
    end.
Definition close_errors (w : Writer) : serrors := match snd (Close w) with Some e => Log <$> e | None => [] end.

(** The edit of a new manifest. *)
Definition initial_edit (m : StorageMode) : VersionEdit :=
  if Byte.eqb m ModeReplicated || Byte.eqb m ModeReplicatedMVCC
  then mkEdit (Some ComparatorName) (Some 1) None None (Some m) (Some 0) None [] []
  else mkEdit (Some ComparatorName) (Some 1) None None None None None [] [].
(** [Create], after its options are checked: [look] is for CURRENT. *)
Definition Create (m : StorageMode) (entries : option (list dir_entry)) (look lookManifest : lookup_result) (f : File) (d : option Dir)
    (b : bytes) (os : os_faults) (faults : current_faults) (fs : current_files) : current_files * sres Store :=
  match look with
  | Exists => (fs, Err [Manifest ErrCurrentCorrupt])
  | LookupFailed => (fs, Err [Manifest ErrIO])
  | Absent =>
      match (number ← nextManifestNumber entries; w ← openManifestWriter number lookManifest f d b os; Ok (number, w)) with
      | Err e => (fs, Err e)
      | Ok (number, w) =>
          match (v ← lift (apply (initial_edit m) initialVersion); encoded ← lift (EncodeVersionEdit (initial_edit m)); Ok (v, encoded)) with
          | Err e => (fs, Err (e ++ close_errors w))
          | Ok (v, encoded) =>
              match Append encoded w with
              | (w, Err e) => (fs, Err ((Log <$> e) ++ close_errors w))
              | (w, Ok _) =>
                  match publishCurrent number faults fs with
                  | (fs, (_, [])) => (fs, Ok (newStore w number v))
                  | (fs, (ambiguous, e)) =>
                      (fs, Err ((if ambiguous : bool then [Manifest ErrCurrentAmbiguous] else []) ++ (Manifest <$> e) ++ close_errors w))
                  end
              end
          end
      end
  end.

(** ** [Rewrite] *)

Definition switch (w : Writer) (number : Z) (s : Store) : Store :=
  mkStore w number (u64 (number + 1)) (st_current s) (st_nextSequence s) (st_seqExhausted s) (st_poisoned s) (st_closed s) (st_closeErr s)
    (st_obsolete s).
(** [image] gives what a reader of the new file sees. *)
Definition Rewrite (look : lookup_result) (f : File) (d : option Dir) (b : bytes) (os : os_faults) (image : File -> opened)
    (faults : current_faults) (s : Store) (fs : current_files) : Store * current_files * sres unit :=
  if st_closed s then (s, fs, Err [Manifest ErrClosed])
  else
    match st_poisoned s with
    | Some e => (s, fs, Err (Manifest ErrWriterPoisoned :: e))
    | None =>
        if (st_nextManifest s =? 0) || (maxManifestNumber <? st_nextManifest s) then (s, fs, Err [Manifest ErrManifestNumberExhausted])
        else
          let number := st_nextManifest s in
          match (edit ← lift (snapshotEdit (st_current s)); encoded ← lift (EncodeVersionEdit edit);
                 w ← openManifestWriter number look f d b os; Ok (encoded, w)) with
          | Err e => (s, fs, Err e)
          | Ok (encoded, w) =>
              match Append encoded w with
              | (w, Err e) => (s, fs, Err ((Log <$> e) ++ close_errors w))
              | (w, Ok _) =>
                  match ('(recovered, _) ← recoverManifest (image (file w)); lift (validateEquivalent (st_current s) recovered)) with
                  | Err e => (s, fs, Err (e ++ close_errors w))
                  | Ok _ =>
                      match publishCurrent number faults fs with
                      | (fs, (_, [])) =>
                          match Close (st_writer s) with
                          | (_, None) => (switch w number s, fs, Ok tt)
                          | (_, Some e) => (switch w number s, fs, Err (Log <$> e))
                          end
                      | (fs, (true, e)) =>
                          let e := Manifest ErrCurrentAmbiguous :: (Manifest <$> e) in
                          (poison_store e s, fs, Err (e ++ close_errors w))
                      | (fs, (false, e)) => (s, fs, Err ((Manifest <$> e) ++ close_errors w))
                      end
                  end
              end
          end
    end.

(** ** [Open] *)

(** The edit that brings the authorities past everything found on disk. *)
Definition recovery_edit (v : Version) (maxObserved : Z) (maximum : Z * bool) : VersionEdit :=
  let next := if nextFileNumber v <=? maxObserved then
      Some (if sstable.MaxFileNumber <=? maxObserved then maxNextFileNumber else u64 (maxObserved + 1)) else None in
  let last := if snd maximum && (negb (haveLastSequence v) || (lastSequence v <? fst maximum)) then Some (fst maximum) else None in
  mkEdit None next last None None None None [] [].
(** The highest sequence of the tables, the logs and the manifest. *)
Definition join_maximum (a b : Z * bool) : Z * bool := if snd b && (negb (snd a) || (fst a <? fst b)) then (fst b, true) else a.
Definition highest_sequence (m : StorageMode) (entries : option (list dir_entry)) (v : Version) : sres (Z * bool) :=
  let tables := maximumVersionSequence v in
  logs ← (if Byte.eqb m ModeStandalone then maximumWALSequence entries else Ok (0, false));
  Ok (join_maximum (join_maximum tables logs) (lastSequence v, haveLastSequence v)).
Definition set_sequence (maximum : Z * bool) (s : Store) : Store :=
  let '(next, exhausted) := nextSequence (fst maximum) (snd maximum) in
  mkStore (st_writer s) (st_manifestNumber s) (st_nextManifest s) (st_current s) next exhausted (st_poisoned s) (st_closed s)
    (st_closeErr s) (st_obsolete s).
Definition set_nextManifest (n : Z) (s : Store) : Store :=
  mkStore (st_writer s) (st_manifestNumber s) n (st_current s) (st_nextSequence s) (st_seqExhausted s) (st_poisoned s) (st_closed s)
    (st_closeErr s) (st_obsolete s).

(** [Open], after its options are checked.  [manifest] opens the file CURRENT
    names, [reopen] is the file with the given bytes that the writer
    continues. *)
Definition Open (m : StorageMode) (fs : current_files) (manifest : Z -> opened) (reopen : bytes -> File) (osRepair os : os_faults)
    (entries : option (list dir_entry)) : sres (Store * Discovery) :=
  number ← lift (readCurrent (cur_contents fs));
  match manifest number with
  | Missing => Err [Manifest ErrMissingManifest]
  | Unopenable => Err [Manifest ErrIO]
  | Opened f closeErr =>
      '(recovered, result) ← recoverManifest (Opened f closeErr);
      b ← (if TailTruncated result then
             match RepairTail (ra_bytes f) result osRepair with (b, None) => Ok b | (_, Some e) => Err (Log <$> e) end
           else Ok (ra_bytes f));
      _ ← require (Byte.eqb (mode recovered) m) [Manifest ErrModeMismatch];
      w ← match OpenWriter (reopen b) None b SyncBatch os with Ok w => Ok w | Err e => Err (Log <$> e) end;
      let fail {A} (e : serrors) : sres A := Err (e ++ close_errors w) in
      match nextManifestNumber entries with
      | Err e => fail e
      | Ok next =>
          let s := set_nextManifest next (newStore w number recovered) in
          match (report ← discoverAndValidate entries recovered; maximum ← highest_sequence m entries recovered; Ok (report, maximum)) with
          | Err e => fail e
          | Ok ((report, maxObserved), maximum) =>
              let edit := recovery_edit recovered maxObserved maximum in
              if present (e_NextFileNumber edit) || present (e_LastSequence edit) then
                match installLocked afterDurable edit s with
                | (s, Err e) => Err (e ++ close_errors (st_writer s))
                | (s, Ok _) => Ok (set_sequence maximum s, report)
                end
              else Ok (set_sequence maximum s, report)
          end
      end
  end.

End opening.

End current.
