(* ===== verification/ManifestDurable.v ===== *)
(** * Durability of the manifest (storage/manifest/store.go, recovery.go)

    Composition of the store with the write-ahead log: whatever fails and
    wherever the machine stops, recovery gives the version that was published
    or the one of the single edit being written, and no file number is handed
    out twice. *)

From S2P Require Import Prelude InternalKey Batch Codec Loops Files Wal WalProofs MvccStore SSTable SSTableWriter SSTableReader MemTable Manifest ManifestCodec ManifestVersion ManifestApply ManifestProps ManifestStore ManifestOpen.
Import manifest version store current.

(** ** Replaying a log *)

Lemma accepts_app {S} (consume : S -> WalRecord -> S * bool) ps qs : forall s, accepts consume s ps ->
  (forall recs, Payload <$> recs = ps -> accepts consume (foldl (fun s rec => fst (consume s rec)) s recs) qs) ->
  accepts consume s (ps ++ qs).
Proof.
  induction ps as [|p ps IH]; intros s Hps Hqs; cbn; [by apply (Hqs [])|]. intros rec Hrec. destruct (Hps rec Hrec) as [He Hps'].
  split; [done|]. apply IH; [done|]. intros recs Hr. apply (Hqs (rec :: recs)). cbn. by rewrite Hrec, Hr.
Qed.

(** The payloads of a manifest log and the version they lead to. *)
Inductive logged : list bytes -> Version -> Prop :=
  | logged_nil : logged [] initialVersion
  | logged_snoc ps v e p v' : logged ps v -> edit_wf e -> EncodeVersionEdit e = Ok p -> apply e v = Ok v' -> logged (ps ++ [p]) v'.

Lemma logged_reachable ps v : logged ps v -> reachable v.
Proof. induction 1; [constructor|by eapply reach_apply]. Qed.
Lemma logged_ok ps v : logged ps v -> version_ok v.
Proof. intros H. by eapply reachable_ok, logged_reachable. Qed.
Lemma logged_generation ps v : logged ps v -> generation v = len ps.
Proof.
  induction 1 as [|ps v e p v' Hl IH Hwf He Ha]; [done|]. apply edit_applied in Ha; [|by eapply logged_ok|done].
  rewrite (ap_generation _ _ _ Ha), IH, len_app, len_cons, len_nil. lia.
Qed.
Lemma edit_writable e p : edit_wf e -> EncodeVersionEdit e = Ok p -> writable p.
Proof.
  intros Hwf He. rewrite EncodeVersionEdit_bytes in He by done. destruct (is_ok _) eqn:Hv; [|by destruct (validateEditShape e)].
  destruct (Z.leb_spec (len (edit_bytes (canonical e))) MaxEditSize) as [Hle|]; [|done]. apply Ok_inj in He as <-.
  unfold writable, MaxRecordSize. change (Z.shiftl 64 20) with 67108864. change MaxEditSize with 16777216 in Hle. lia.
Qed.
Lemma logged_writable ps v : logged ps v -> Forall writable ps.
Proof.
  induction 1 as [|ps v e p v' Hl IH Hwf He Ha]; [constructor|]. apply Forall_app. split; [done|]. constructor; [by eapply edit_writable|constructor].
Qed.
Lemma logged_replay ps v : logged ps v -> accepts replay_edit (mkReplay initialVersion 0 None) ps /\
  forall recs, Payload <$> recs = ps ->
    foldl (fun s rec => fst (replay_edit s rec)) (mkReplay initialVersion 0 None) recs = mkReplay v (len ps) None.
Proof.
  induction 1 as [|ps v e p v' Hl [IHa IHf] Hwf He Ha]; [split; [done|]; by intros [|] |].
  pose proof (logged_ok ps v Hl) as Hv.
  assert (forall rec, Payload rec = p -> replay_edit (mkReplay v (len ps) None) rec = (mkReplay v' (len (ps ++ [p])) None, false)) as Hstep.
  { intros rec Hrec. unfold replay_edit. rewrite Hrec, (edit_roundtrip e p Hwf He). cbn. rewrite (apply_canonical e v v' Hv Hwf Ha).
    rewrite len_app, len_cons, len_nil, u64_id; [done|]. pose proof (logged_generation ps v Hl) as Hg.
    pose proof (logged_generation (ps ++ [p]) v' (logged_snoc _ _ _ _ _ Hl Hwf He Ha)) as Hg'. rewrite len_app, len_cons, len_nil in Hg'.
    pose proof (apply_scalars e v v' Hv Hwf Ha) as Hs. apply si_generation in Hs. rewrite Hg' in Hs. exact Hs. }
  split.
  - apply accepts_app; [done|]. intros recs Hr. rewrite (IHf recs Hr). cbn. intros rec Hrec. by rewrite (Hstep rec Hrec).
  - intros recs Hr. destruct recs as [|rec recs _] using rev_ind; [by destruct ps|]. rewrite fmap_app in Hr. cbn in Hr.
    apply app_inj_tail in Hr as [Hr Hp]. rewrite foldl_app, (IHf recs Hr). cbn. by rewrite (Hstep rec Hp).
Qed.

Definition crash_image (b : bytes) : opened := Opened (healthy b) false.
Lemma recoverManifest_torn ps v p k : logged ps v -> ps <> [] -> torn_ok ps p k ->
  recoverManifest (crash_image (torn_log ps p k)) = Ok (v, torn_result ps p k).
Proof.
  intros Hl Hne Hok. unfold recoverManifest, recover_file, crash_image, recoverFromReader.
  change (file_reader (healthy (torn_log ps p k))) with (start_reader (torn_log ps p k)).
  cbn [size r_offset start_reader]. rewrite Z.sub_0_r, len_to_nat. destruct (logged_replay ps v Hl) as [Ha Hf].
  destruct (recover_loop_torn replay_edit ps p k (mkReplay initialVersion 0 None) Ha Hok) as (r' & recs & -> & Hp & _).
  rewrite (Hf recs Hp). cbn [rp_applied rp_version app]. pose proof (logged_ok ps v Hl) as Hv.
  destruct (si_comparator _ (vo_scalars _ Hv)) as [[Hg _]|Hc].
  - rewrite (logged_generation ps v Hl) in Hg. destruct ps; [done|]. rewrite len_cons in Hg. pose proof (len_nonneg ps). lia.
  - rewrite Hc, bytes_eqb_refl, (proj2 (Z.eqb_neq (len ps) 0)); [done|]. destruct ps; [done|]. rewrite len_cons. pose proof (len_nonneg ps). lia.
Qed.

(** ** The store and its log *)

Section durable.
Context {WF : WritableFile} {Laws : FileLaws}.
Context (directory : bytes -> opened) (path : bytes) (afterDurable : Version -> bool).

(** One edit further than [v]. *)
Definition one_more (v v' : Version) : Prop := exists e, edit_wf e /\ apply e v = Ok v'.

(** [ps] is the acknowledged log and [v] the version it leads to. *)
Record store_inv (s : Store) (ps : list bytes) (v : Version) : Prop := {
  in_logged : logged ps v;
  in_nonempty : ps <> [];
  in_ok : version_ok (st_current s);
  in_sync : durability (st_writer s) = SyncBatch;
  in_offset : offset (st_writer s) = len (contents (file (st_writer s)));
  in_durable : len (encode_all 0 ps) <= durable (file (st_writer s));
  in_current : v = st_current s \/ st_poisoned s <> None /\ one_more (st_current s) v;
  in_tail : exists p k, writable p /\ (k <= length (encode_record (len (encode_all 0 ps)) p))%nat /\
    contents (file (st_writer s)) = torn_log ps p k /\
    (is_torn ps k = false /\ (k < length (encode_record (len (encode_all 0 ps)) p))%nat \/
     st_poisoned s <> None /\ v = st_current s /\ exists e v', edit_wf e /\ EncodeVersionEdit e = Ok p /\ apply e v = Ok v')
}.

Lemma torn_lt ps p k : is_torn ps k = false -> (k < length (encode_record (len (encode_all 0 ps)) p))%nat.
Proof.
  unfold is_torn. rewrite negb_false_iff, orb_true_iff, !Z.eqb_eq. set (off := len (encode_all 0 ps)). clearbody off.
  pose proof (encode_record_nonempty off p) as Hne. intros [Hk|Hk]; [unfold len in Hne; lia|]. rewrite (encode_record_padded off p), length_app.
  pose proof (encode_record_nonempty (off + pad_of off) p) as Hne'. unfold len in Hne'. pose proof (pad_of_range off).
  unfold zeros. rewrite length_replicate. lia.
Qed.

Lemma inv_current_ok s ps v : store_inv s ps v -> st_poisoned s = None -> v = st_current s.
Proof. intros [_ _ _ _ _ _ [H|[H _]] _] Hp; [done|]. by rewrite Hp in H. Qed.

(** A step that leaves the log alone. *)
Lemma store_inv_same s s' ps v : store_inv s ps v -> contents (file (st_writer s')) = contents (file (st_writer s)) ->
  durable (file (st_writer s)) <= durable (file (st_writer s')) -> offset (st_writer s') = offset (st_writer s) ->
  durability (st_writer s') = durability (st_writer s) -> st_current s' = st_current s ->
  (st_poisoned s <> None -> st_poisoned s' <> None) -> store_inv s' ps v.
Proof.
  intros [H1 H2 H3 H4 H5 H6 H7 (p & k & Hp & Hk & Hc & Ht)] Hc' Hd Ho Hdu Hcur Hpo.
  split; [done|done|by rewrite Hcur|congruence|congruence|lia|rewrite Hcur; naive_solver|].
  exists p, k. rewrite Hc', Hcur. split_and!; [done..|]. naive_solver.
Qed.

(** An append of the edit of a store that is not poisoned, on both branches. *)
Lemma append_ok s ps v e p v' : store_inv s ps v -> st_poisoned s = None -> edit_wf e -> EncodeVersionEdit e = Ok p -> apply e v = Ok v' ->
  let '(w, r) := Append p (st_writer s) in
  durability w = SyncBatch /\ offset w = len (contents (file w)) /\ len (encode_all 0 ps) <= durable (file w) /\
  if is_ok r then contents (file w) = encode_all 0 (ps ++ [p]) /\ len (encode_all 0 (ps ++ [p])) <= durable (file w)
  else exists q k, writable q /\ (k <= length (encode_record (len (encode_all 0 ps)) q))%nat /\ contents (file w) = torn_log ps q k /\
    (is_torn ps k = false \/ q = p).
Proof.
  intros [Hl Hne _ Hsync Hoff Hdur _ (q & k & Hq & Hk & Hc & Ht)] Hpo Hwf He Ha.
  assert (is_torn ps k = false) as Htorn by (destruct Ht as [[? _]|[? _]]; done).
  pose proof (Append_spec p (st_writer s)) as Hs. destruct (Append p (st_writer s)) as [w r].
  destruct Hs as [[-> ->]|(Hp & Hf & [(j & Hj & Hjf & Hc' & Ho') Hd Hdu _ _] & Hd')].
  { split_and!; [done..|]. exists q, k. auto. }
  assert (offset w = len (contents (file w))) as Ho by by rewrite Ho', Hoff, Hc', len_app, len_take.
  rewrite Hoff, Hc in *. pose proof (torn_log_length ps q k p Htorn Hk) as Hlen. rewrite (torn_log_append ps q k p j Htorn Hk) in Hc'.
  split_and!; [congruence|done|lia|]. destruct (is_ok r).
  - rewrite (Hjf eq_refl), Hlen in Hc'. rewrite torn_log_full in Hc' by done. split; [done|]. rewrite (Hd' eq_refl Hsync), Hc'. done.
  - exists p, (k + j)%nat. split_and!; [done|lia|done|by right].
Qed.

Lemma installLocked_inv e s s' r ps v : store_inv s ps v -> edit_wf e -> installLocked afterDurable e s = (s', r) ->
  (exists ps' v', store_inv s' ps' v') /\
  match r with
  | Ok _ => apply e (st_current s) = Ok (st_current s') /\ st_poisoned s' = None
  | Err _ => st_current s' = st_current s
  end.
Proof.
  intros Hi Hwf. unfold installLocked. destruct (st_closed s); [intros [= <- <-]; eauto|].
  destruct (st_poisoned s) as [e0|] eqn:Hpo; [intros [= <- <-]; eauto|]. pose proof (inv_current_ok s ps v Hi Hpo) as ->.
  destruct (apply e (st_current s)) as [c|err] eqn:Ha; cbn [lift mbind result_bind]; [|intros [= <- <-]; eauto].
  destruct (EncodeVersionEdit e) as [p|err] eqn:He; cbn [lift mbind result_bind]; [|intros [= <- <-]; eauto].
  pose proof (append_ok s ps _ e p c Hi Hpo Hwf He Ha) as Happ. destruct (Append p (st_writer s)) as [w [pos|err]]; cbn [is_ok] in Happ.
  - destruct Happ as (Hsy & Ho & _ & Hc & Hd).
    assert (logged (ps ++ [p]) c) as Hl by (eapply logged_snoc; [apply Hi|done..]).
    assert (version_ok c) as Hcok by by eapply logged_ok.
    assert (forall s2, st_writer s2 = w -> version_ok (st_current s2) -> (c = st_current s2 \/ st_poisoned s2 <> None /\ one_more (st_current s2) c) -> store_inv s2 (ps ++ [p]) c) as Hmk.
    { intros s2 Hw Hok Hcur. split; rewrite ?Hw; try done; [by destruct ps|]. exists [], 0%nat. rewrite torn_log_nil.
      split_and!; [by apply Z.leb_le|lia|done|]. left. split; [done|]. by apply torn_lt. }
    destruct (afterDurable c); intros [= <- <-].
    + split; [|done]. exists (ps ++ [p]), c. apply Hmk; [done|apply Hi|]. right. split; [done|]. by exists e.
    + split; [exists (ps ++ [p]), c; apply Hmk|]; unfold publish; destruct (haveLastSequence c); try destruct (nextSequence _ _); cbn; auto.
  - intros [= <- <-]. split; [|done]. destruct Happ as (Hsy & Ho & Hd & q & k & Hq & Hk & Hc & Ht). exists ps, (st_current s).
    split; cbn; try done; [apply Hi|apply Hi|apply Hi|by left|]. exists q, k. split_and!; [done..|].
    destruct Ht as [Ht| ->]; [left; split; [done|by apply torn_lt]|right; eauto 10].
Qed.

(** What a crash leaves is recovered. *)
Lemma crash_recovers s ps v k : store_inv s ps v -> durable (file (st_writer s)) <= Z.of_nat k -> (k <= length (contents (file (st_writer s))))%nat ->
  exists v' res, recoverManifest (crash_image (take k (contents (file (st_writer s))))) = Ok (v', res) /\ version_ok v' /\
    (v' = st_current s \/ st_poisoned s <> None /\ one_more (st_current s) v').
Proof.
  intros [Hl Hne _ _ _ Hdur Hcur (p & j & Hp & Hj & Hc & Ht)] Hd Hk. rewrite Hc in *.
  assert (exists i, take k (torn_log ps p j) = torn_log ps p i /\ (i <= j)%nat) as (i & -> & Hi).
  { unfold torn_log in *. set (a := encode_all 0 ps) in *. exists (k - length a)%nat. rewrite length_app, length_take in Hk.
    rewrite take_app_ge by (unfold len in Hdur; lia). rewrite take_take. split; [do 2 f_equal; lia|lia]. }
  destruct (decide (i = length (encode_record (len (encode_all 0 ps)) p))) as [Hfull|Hpart].
  - destruct Ht as [[_ Hlt]|(Hpo & Hv & e & v' & Hwf & He & Ha)]; [lia|]. rewrite torn_log_full by done.
    assert (logged (ps ++ [p]) v') as Hl' by by eapply logged_snoc. rewrite <- torn_log_nil.
    exists v'. eexists. rewrite (recoverManifest_torn (ps ++ [p]) v' [] 0); [|done|by destruct ps|apply torn_ok_nil; by eapply logged_writable].
    split; [done|]. split; [by eapply logged_ok|]. right. split; [done|]. exists e. by rewrite <- Hv.
  - exists v. eexists. rewrite (recoverManifest_torn ps v p i); [|done|done|split_and!; [by eapply logged_writable|done|lia]].
    split; [done|]. split; [by eapply logged_ok|done].
Qed.

(** ** Operations of a store *)

Inductive store_op :=
  | OpInstall (e : VersionEdit)
  | OpAllocate (ctx : context)
  | OpTable (ctx : context) (i : TableInstallation)
  | OpCompaction (ctx : context) (inputs outputs : list TableMetadata)
  | OpClose.
(** The store and the file numbers it handed out. *)
Definition store_step (op : store_op) (st : Store * list Z) : Store * list Z :=
  let '(s, numbers) := st in
  match op with
  | OpInstall e => (fst (Install directory afterDurable e s), numbers)
  | OpAllocate ctx =>
      match AllocateFileNumber afterDurable ctx s with
      | (s, Ok n) => (s, numbers ++ [n])
      | (s, Err _) => (s, numbers)
      end
  | OpTable ctx i => (fst (InstallTable directory path afterDurable ctx i s), numbers)
  | OpCompaction ctx ins outs => (fst (InstallCompaction directory afterDurable ctx ins outs s), numbers)
  | OpClose => (fst (CloseStore s), numbers)
  end.
Definition store_run (ops : list store_op) (st : Store * list Z) : Store * list Z := foldl (fun st op => store_step op st) st ops.

(** The arguments are values of their Go types. *)
Record installation_wf (i : TableInstallation) : Prop := {
  iw_numbers : Forall is_u64 [i_Generation i; i_SmallestSequence i; i_LargestSequence i; i_LastAppliedIndex i; i_MaxMVCCTimestamp i];
  iw_metadata : Forall is_u64 [writer.FileNumber (i_Metadata i); writer.FileSize (i_Metadata i); writer.EntryCount (i_Metadata i);
    writer.DeletionCount (i_Metadata i); writer.RawKeyValueBytes (i_Metadata i)];
  iw_blocks : is_u32 (writer.DataBlockCount (i_Metadata i));
  iw_keys : key_wf (writer.SmallestInternal (i_Metadata i)) /\ key_wf (writer.LargestInternal (i_Metadata i))
}.
Definition store_op_wf (op : store_op) : Prop :=
  match op with
  | OpInstall e => edit_wf e
  | OpTable _ i => installation_wf i
  | OpCompaction _ ins outs => Forall (fun t => is_u32 (Level t) /\ is_u64 (FileNumber t)) ins /\ Forall table_wf outs
  | _ => True
  end.

(** A store with a good log; the numbers handed out are distinct and below the
    next one. *)
Definition good (st : Store * list Z) : Prop :=
  (exists ps v, store_inv (fst st) ps v) /\ NoDup (snd st) /\ Forall (fun n => n < nextFileNumber (st_current (fst st))) (snd st).


(** An installation keeps the numbers below the next one. *)
Lemma good_install e s s' r numbers : good (s, numbers) -> edit_wf e -> installLocked afterDurable e s = (s', r) -> good (s', numbers).
Proof.
  intros [(ps & v & Hi) [Hnd Hlt]] Hwf Hin. destruct (installLocked_inv e s s' r ps v Hi Hwf Hin) as [Hi' Hr]. cbn in *.
  split; [done|]. split; [done|]. cbn. destruct r as [u|err]; [|by rewrite Hr]. destruct Hr as [Ha _].
  apply edit_applied in Ha; [|apply Hi|done].
  destruct (ap_next _ _ _ Ha) as [_ Hle]. eapply Forall_impl; [exact Hlt|]. cbn. lia.
Qed.

Lemma table_edit_wf i t v e : version_ok v -> installation_wf i -> table_wf t -> table_edit i t v = Ok e -> edit_wf e.
Proof.
  intros Hv [Hn _ _ _] Ht. rewrite !Forall_cons in Hn. destruct Hn as (_ & _ & Hlast & Happ & Hmv & _).
  pose proof (vo_scalars _ Hv) as [_ _ _ _ [Hl _] _ _ [Hx _]]. unfold table_edit.
  set (last := if _ && _ then _ else _). assert (is_u64 last) as Hlu by (unfold last; destruct (_ && _); done). clearbody last.
  assert (forall f r x, (forall z, f = Some z -> is_u64 z) -> (forall z, r = Some z -> is_u64 z) -> (forall z, x = Some z -> is_u64 z) ->
    edit_wf (mkEdit None None (Some last) f None r x [] [t])) as Hmk.
  { intros f r x Hf Hr Hx'. split; cbn; try done; [by intros z [= <-]|constructor; [done|constructor]]. }
  assert (forall z, None = Some z -> is_u64 z) as Hno by done.
  destruct (_ || _).
  - destruct (_ || _); [done|]. assert (forall z, Some (i_LastAppliedIndex i) = Some z -> is_u64 z) as Hli by by intros z [= <-].
    destruct (Byte.eqb (mode v) ModeReplicatedMVCC); [|intros [= <-]; by apply Hmk].
    destruct (_ =? 0); [done|]. intros [= <-]. apply Hmk; [done..|]. intros z [= <-].
    destruct (haveMaxAppliedMVCC v); [|done]. unfold is_u64 in *. lia.
  - destruct (apply _ v) as [pre|] eqn:Ha; cbn; [|done]. apply apply_ok in Ha; [|done|by apply Hmk].
    pose proof (maximumContiguousFrontier_ok pre) as Hm. destruct (maximumContiguousFrontier pre) as [f [|]]; cbn; [|intros [= <-]; by apply Hmk].
    destruct (negb (haveFrontier v) || (frontier v <? f)); intros [= <-]; apply Hmk; try done. intros z [= <-].
    apply Hm; [apply (si_frontier _ (vo_scalars _ Ha))|]. eapply Forall_impl; [apply Ha|]. intros u ([_ _ _ [_ Hs] _] & _).
    unfold is_u64, MaxUint64, two64 in *. lia.
Qed.
Lemma NewTableMetadata_wf i t : installation_wf i ->
  NewTableMetadata 0 (i_Generation i) (i_SmallestSequence i) (i_LargestSequence i) (i_Metadata i) = Ok t -> table_wf t.
Proof.
  intros [Hn Hm Hb [Hs Hl]]. unfold NewTableMetadata. intros H. apply bind_ok in H as ([] & _ & H).
  rewrite !Forall_cons in Hn, Hm. match type of H with cloneTable ?x = _ => assert (table_wf x) as Hx end.
  { split; cbn; [done|rewrite !Forall_cons; tauto|done|tauto|done]. }
  rewrite cloneTable_id in H by done. by injection H as <-.
Qed.

Lemma number_edit_wf n : is_u64 n -> edit_wf (mkEdit None (Some n) None None None None None [] []).
Proof. intros Hn. split; cbn; try done. by intros z [= <-]. Qed.
Lemma good_allocate ctx s numbers : good (s, numbers) -> good (store_step (OpAllocate ctx) (s, numbers)).
Proof.
  intros Hg. cbn. unfold AllocateFileNumber. destruct (check_context ctx); [|done]. destruct (st_closed s); [done|].
  destruct (_ || _) eqn:Hn; [done|]. apply orb_false_iff in Hn as [_ Hn%Z.ltb_ge]. destruct Hg as [(ps & v & Hi) [Hnd Hlt]]. cbn in *.
  pose proof (si_next _ (vo_scalars _ (in_ok _ _ _ Hi))) as Hpos. unfold sstable.MaxFileNumber in Hn.
  set (n := nextFileNumber (st_current s)) in *. assert (u64 (n + 1) = n + 1) as Hu by (apply u64_id; unfold is_u64; lia).
  assert (edit_wf (mkEdit None (Some (u64 (n + 1))) None None None None None [] [])) as Hwf by apply number_edit_wf, u64_range.
  destruct (installLocked _ _ _) as [s' r] eqn:Hin.
  assert (good (s', numbers)) as Hg' by (eapply good_install; [split; [by eauto|done]|exact Hwf|exact Hin]).
  destruct (installLocked_inv _ s s' r ps v Hi Hwf Hin) as [Hi' Hr]. destruct r as [u|err]; [|done].
  destruct Hr as [Ha _]. apply edit_applied in Ha; [|apply Hi|done]. destruct (ap_next _ _ _ Ha) as [Hnext _]. cbn in Hnext. rewrite Hu in Hnext.
  destruct Hg' as [? [_ Hlt']]. split; [done|]. cbn in *. split.
  - apply NoDup_app. split; [done|]. split; [|apply NoDup_singleton]. intros m Hm ->%list_elem_of_singleton.
    rewrite Forall_forall in Hlt. specialize (Hlt n Hm). cbn in Hlt. lia.
  - apply Forall_app. split; [done|]. constructor; [lia|constructor].
Qed.

Lemma good_step op st : good st -> store_op_wf op -> good (store_step op st).
Proof.
  destruct st as [s numbers]. intros Hg Hwf. pose proof Hg as [(ps & v & Hi) _]. cbn in Hi. destruct op as [e|ctx|ctx i|ctx ins outs|]; cbn [store_step].
  - unfold Install. destruct (_ || _ || _); [done|]. destruct (validate_tables _ _); [|done].
    destruct (installLocked _ _ _) as [s' r] eqn:Hin. by eapply good_install.
  - by apply good_allocate.
  - unfold InstallTable. destruct (_ ≫= _) as [e|err] eqn:He; [|done]. ok_inv He.
    destruct (installLocked _ _ _) as [s' r] eqn:Hin. eapply good_install; [exact Hg| |exact Hin].
    destruct (NewTableMetadata _ _ _ _ _) as [t|] eqn:Ht; [|done]. apply Ok_inj in Hx0 as <-.
    eapply table_edit_wf; [apply Hi|exact Hwf|by eapply NewTableMetadata_wf|exact He].
  - destruct Hwf as [Hins Houts]. unfold InstallCompaction. destruct ctx as [|cancelled]; [done|]. destruct (_ || _); [done|]. destruct cancelled; [done|].
    destruct (_ ≫= _) as [e|err] eqn:He; [|done]. ok_inv He. rewrite cloneTables_id in Hx1 by done. apply Ok_inj in Hx1 as <-.
    destruct (apply _ _) in He; [|done]. apply Ok_inj in He as <-.
    destruct (installLocked _ _ _) as [s' r] eqn:Hin. eapply good_install in Hin as Hg'; [|exact Hg|].
    + destruct r; [|done]. destruct (negb _); [done|]. destruct (negb _); [done|]. destruct Hg' as [(ps' & v' & Hi') Hrest].
      split; [|done]. exists ps', v'. by eapply store_inv_same.
    + split; cbn; try done. apply Forall_fmap. eapply Forall_impl; [exact Hins|]. done.
  - destruct Hg as [_ Hrest]. unfold CloseStore. destruct (st_closed s); [split; [eauto|done]|].
    unfold Close. destruct (closed (st_writer s)); cbn.
    + split; [|done]. exists ps, v. by eapply store_inv_same.
    + destruct (file_close (file (st_writer s))) as [f' e] eqn:Hcl. destruct (close_contents _ _ _ Hcl) as [Hc Hdu]. cbn.
      split; [|done]. exists ps, v. by eapply store_inv_same.
Qed.
Lemma good_run ops : forall st, good st -> Forall store_op_wf ops -> good (store_run ops st).
Proof.
  induction ops as [|op ops IH]; intros st Hg Hwf; [done|]. apply Forall_cons in Hwf as [Hop Hops]. cbn. apply IH; [by apply good_step|done].
Qed.
End durable.
