(* ===== verification/ManifestRewrite.v ===== *)
(** * Creating and rewriting a manifest (storage/manifest/store.go, current.go) *)

From S2P Require Import Prelude InternalKey Batch Codec Loops Files Wal WalProofs MvccStore SSTable SSTableWriter SSTableReader SSTableProps MemTable Manifest ManifestCodec ManifestVersion ManifestApply ManifestProps ManifestStore ManifestOpen ManifestDurable.
Import manifest version store current.

(** ** CURRENT *)

#[local] Arguments manifestFileName : simpl never.
#[local] Arguments parseManifestName : simpl never.

Lemma digits_not_newline n z : Forall (fun b => Byte.eqb b newline = false) (reader.digits n z).
Proof.
  revert z. induction n as [|n IH]; intros z; cbn [reader.digits]; [constructor|]. apply Forall_app. split; [done|]. constructor; [|constructor].
  unfold reader.digit. pose proof (Z.mod_pos_bound z 10 ltac:(lia)) as Hm. generalize dependent (z mod 10). intros m Hm.
  assert (m = 0 \/ m = 1 \/ m = 2 \/ m = 3 \/ m = 4 \/ m = 5 \/ m = 6 \/ m = 7 \/ m = 8 \/ m = 9) as Hc by lia.
  repeat (destruct Hc as [->|Hc]; [done|]). by subst m.
Qed.
Lemma bytesCount_none b : Forall (fun x => Byte.eqb x newline = false) b -> bytesCount (b ++ [newline]) newline = 1.
Proof.
  intros Hb. unfold bytesCount. rewrite foldl_app. assert (forall n, foldl (fun count current => if Byte.eqb current newline then count + 1 else count) n b = n) as ->; [|done].
  induction Hb as [|x b Hx Hb IH]; intros n; cbn; [done|]. rewrite Hx. apply IH.
Qed.
Lemma decimal_width_small z : 0 <= z < 10 ^ 6 -> Nat.max 6 (decimal_width z) = 6%nat.
Proof.
  intros Hz. unfold decimal_width. assert (length (filter (fun k => (10 ^ Z.of_nat (S k) <= z)%Z) (seq 0 19)) <= 5)%nat; [|lia].
  rewrite (seq_app 5 14), filter_app, length_app. rewrite (filter_none _ (seq (0 + 5) 14)).
  - pose proof (length_filter (fun k => (10 ^ Z.of_nat (S k) <= z)%Z) (seq 0 5)) as Hf. rewrite length_seq in Hf. cbn [length]. lia.
  - apply Forall_forall. intros k Hk%elem_of_seq. assert (10 ^ 6 <= 10 ^ Z.of_nat (S k)); [|lia]. apply Z.pow_le_mono_r; lia.
Qed.
Lemma parseManifestName_ok number : 1 <= number <= maxManifestNumber -> parseManifestName (manifestFileName number) = Ok number.
Proof.
  unfold maxManifestNumber. intros Hn. unfold manifestFileName. rewrite decimal_width_small by lia. unfold parseManifestName, maxManifestNumber.
  assert (length manifestPrefix = 9%nat) as H9 by done. rewrite len_app, (take_app_length' _ _ 9), (drop_app_length' _ _ 9), bytes_eqb_refl by done.
  unfold len at 2. rewrite digits_length, Z.eqb_refl. cbn [negb orb]. rewrite (parse_digits 6) by (change (Z.of_nat 6) with 6; lia).
  rewrite Z.mul_0_l, Z.add_0_l, (proj2 (Z.eqb_neq _ 0)), (proj2 (Z.ltb_ge _ number)) by lia. done.
Qed.
Lemma readCurrent_ok number : 1 <= number <= maxManifestNumber -> readCurrent (Some (manifestFileName number ++ [newline])) = Ok number.
Proof.
  intros Hn. unfold readCurrent. set (b := manifestFileName number ++ [newline]).
  assert (length (manifestFileName number) = 15%nat) as Hl.
  { unfold manifestFileName. rewrite decimal_width_small by (unfold maxManifestNumber in Hn; lia). by rewrite length_app, digits_length. }
  assert (bytesCount b newline = 1) as ->.
  { apply bytesCount_none. unfold manifestFileName. apply Forall_app. split; [by repeat constructor|apply digits_not_newline]. }
  assert (length b = 16%nat) as Hb by (unfold b; rewrite length_app, Hl; done). unfold len. rewrite Hb. cbn [Z.of_nat Z.ltb].
  unfold b. rewrite lookup_app_r, Hl by lia. change (16 - 1)%nat with 15%nat. rewrite Nat.sub_diag.
  rewrite take_app_length' by done. exact (parseManifestName_ok number Hn).
Qed.

(** Whatever fails, CURRENT keeps its contents or names the new manifest; it
    changes only when the publication succeeded or is reported ambiguous. *)
Lemma publishCurrent_atomic number faults fs fs' ambiguous errs : 1 <= number <= maxManifestNumber ->
  publishCurrent number faults fs = (fs', (ambiguous, errs)) ->
  if ambiguous || bool_decide (errs = []) then readCurrent (cur_contents fs') = Ok number
  else cur_contents fs' = cur_contents fs.
Proof.
  intros Hn. unfold publishCurrent, remove_temp. rewrite parseManifestName_ok by done.
  destruct (cur_temp fs); [by intros [= <- <- <-]|]. destruct (cf_open faults); [by intros [= <- <- <-]|].
  destruct (cf_write faults); [by intros [= <- <- <-]|]. destruct (cf_sync faults); [by intros [= <- <- <-]|].
  destruct (cf_close faults); [by intros [= <- <- <-]|]. destruct (cf_rename faults); [by intros [= <- <- <-]|].
  pose proof (readCurrent_ok number Hn) as Hr. set (c := Some _) in *. clearbody c.
  destruct (cf_opendir faults); [by intros [= <- <- <-]|]. destruct (cf_dirsync faults); [by intros [= <- <- <-]|].
  by destruct (cf_dirclose faults); intros [= <- <- <-].
Qed.

(** ** New manifests *)

Section fresh.
Context {WF : WritableFile} {Laws : FileLaws}.
Context (directory : bytes -> opened) (path : bytes) (afterDurable : Version -> bool).

Lemma fresh_writer f d os w : OpenWriter f d [] SyncBatch os = Ok w -> w = newWriterWithDirectory f d 0 SyncBatch.
Proof.
  intros Ho. assert (torn_ok [] [] 0) as Ht by (apply torn_ok_nil; constructor).
  change (@nil byte) with (torn_log [] [] 0) in Ho. by apply OpenWriter_ok in Ho as [_ ->].
Qed.
(** The first record of a new log. *)
Lemma fresh_append f d p w pos : contents f = [] -> 0 <= durable f -> Append p (newWriterWithDirectory f d 0 SyncBatch) = (w, Ok pos) ->
  durability w = SyncBatch /\ offset w = len (contents (file w)) /\ contents (file w) = encode_all 0 [p] /\
  durable (file w) = len (encode_all 0 [p]).
Proof.
  intros Hc Hd Ha. pose proof (Append_spec p (newWriterWithDirectory f d 0 SyncBatch)) as Hs. rewrite Ha in Hs.
  destruct Hs as [[_ Hs]|(Hp & _ & Hw & Hdur)]; [done|]. pose proof (wr_durability _ _ _ _ Hw) as Hdu. apply wrote_full in Hw as [Hcw Ho]. cbn in *.
  rewrite Hc in Hcw. cbn in Hcw. rewrite app_nil_r. split_and!; [done|by rewrite Ho, Hcw|done|]. by rewrite Hdur, Hcw.
Qed.
(** A store on a log of one edit. *)
Lemma fresh_inv s p v e : logged [p] v -> durability (st_writer s) = SyncBatch -> offset (st_writer s) = len (contents (file (st_writer s))) ->
  contents (file (st_writer s)) = encode_all 0 [p] -> durable (file (st_writer s)) = len (encode_all 0 [p]) -> edit_wf e ->
  st_current s = v -> store_inv s [p] v.
Proof.
  intros Hl Hsy Ho Hc Hd Hwf Hv. split; try done; [rewrite Hv; by eapply logged_ok|lia|by left|].
  exists [], 0%nat. rewrite torn_log_nil. split_and!; [by apply Z.leb_le|lia|done|]. left. split; [done|]. by apply torn_lt.
Qed.

Lemma initial_edit_wf m : edit_wf (initial_edit m).
Proof. unfold initial_edit. destruct (_ || _); split; cbn; try done; by intros z [= <-]. Qed.

Lemma Create_good m entries look lookM f d os faults fs fs' s : contents f = [] -> 0 <= durable f ->
  Create m entries look lookM f d [] os faults fs = (fs', Ok s) -> good (s, []).
Proof.
  intros Hc Hd. unfold Create. destruct look; [done| |done]. destruct (_ ≫= _) as [[number w]|err] eqn:Hw; [|done]. ok_inv Hw.
  injection Hw as -> ->. unfold openManifestWriter in Hx0. destruct (_ || _); [done|]. destruct lookM; [done| |done].
  destruct (OpenWriter f d [] SyncBatch os) as [w'|] eqn:Ho; [|done]. apply Ok_inj in Hx0 as ->. apply fresh_writer in Ho as ->.
  destruct (_ ≫= _) as [[v encoded]|err] eqn:Ha; [|done]. ok_inv Ha. injection Ha as -> ->.
  destruct (apply (initial_edit m) initialVersion) as [v'|] eqn:Hap; [|done]. apply Ok_inj in Hx0 as ->.
  destruct (EncodeVersionEdit (initial_edit m)) as [p|] eqn:He; [|done]. apply Ok_inj in Hx1 as ->.
  destruct (Append encoded _) as [w [pos|err]] eqn:Happ; [|done]. apply fresh_append in Happ as (Hsy & Hof & Hcw & Hdw); [|done..].
  destruct (publishCurrent number faults fs) as [fs1 [amb errs]]. destruct errs; [|done]. intros [= <- <-].
  pose proof (initial_edit_wf m) as Hwf. split; [|split; constructor]. exists [encoded], v. eapply fresh_inv; try done.
  by apply (logged_snoc [] initialVersion (initial_edit m)); [constructor|..].
Qed.
End fresh.

(** C9. Durability of the manifest.  Create a manifest and run any
    installations, file-number allocations, table installations, compaction
    installations and closes, with the file failing or short-writing as it
    likes.  Whatever prefix of the log a crash leaves, as long as it keeps
    what was synced, recovery gives the version the store had published or,
    only after an installation that reported a failure, the version of that
    one edit; and every file number handed out is handed out once and stays
    below the next number the recovered manifest allocates. *)
Theorem manifest_durability `{FileLaws} directory path afterDurable m entries look lookManifest f d os faults fs fs' s0 ops k :
  contents f = [] -> 0 <= durable f ->
  Create m entries look lookManifest f d [] os faults fs = (fs', Ok s0) -> Forall store_op_wf ops ->
  let '(s, numbers) := store_run directory path afterDurable ops (s0, []) in
  let b := contents (file (st_writer s)) in
  durable (file (st_writer s)) <= Z.of_nat k -> (k <= length b)%nat ->
  exists v res, recoverManifest (crash_image (take k b)) = Ok (v, res) /\ version_ok v /\
    (v = st_current s \/ st_poisoned s <> None /\ one_more (st_current s) v) /\
    NoDup numbers /\ Forall (fun n => n < nextFileNumber v) numbers.
Proof.
  intros Hc Hd Hcr Hwf. pose proof (Create_good m entries look lookManifest f d os faults fs fs' s0 Hc Hd Hcr) as Hg.
  pose proof (good_run directory path afterDurable ops (s0, []) Hg Hwf) as Hg'. destruct (store_run _ _ _ _ _) as [s numbers]. intros b Hdk Hk.
  destruct Hg' as [(ps & v & Hi) [Hnd Hlt]]. cbn in *. destruct (crash_recovers s ps v k Hi Hdk Hk) as (v' & res & Hrec & Hok & Hcur).
  exists v', res. split_and!; [done..|]. destruct Hcur as [->|(_ & e & Hwe & Ha)]; [done|].
  apply edit_applied in Ha; [|apply Hi|done]. destruct (ap_next _ _ _ Ha) as [_ Hle]. eapply Forall_impl; [exact Hlt|]. cbn. lia.
Qed.

(** A recovery that succeeds on a file whose reads may fail is that of its
    bytes. *)
Lemma recoverManifest_healthy g c x : recoverManifest (Opened g c) = Ok x -> recoverManifest (crash_image (ra_bytes g)) = Ok x.
Proof.
  unfold recoverManifest, crash_image, recover_file, recoverFromReader. cbn [size r_offset file_reader healthy ra_bytes].
  change (file_reader (healthy (ra_bytes g))) with (calm (file_reader g)).
  pose proof (recover_calm replay_edit (S (Z.to_nat (len (ra_bytes g) - 0))) 0 (mkReplay initialVersion 0 None) (file_reader g)) as Hc.
  destruct (recover_loop _ _ _ _ (file_reader g)) as [[s r] [res e]]. destruct Hc as [->|[y ->]].
  - by destruct e as [[]|]; [destruct cause|destruct cause|]; destruct c.
  - by destruct y as [|? []].
Qed.

(** C38. Rewriting a manifest.  Whatever fails, the read-back of the new
    manifest included, the published version is unchanged.  Either nothing changed, CURRENT included; or CURRENT reads
    back as the new manifest, whose log recovers, from any prefix that keeps
    what was synced, to a version equivalent to the published one; or the
    switch is ambiguous and the store refuses further edits. *)
Theorem rewrite_equivalent `{FileLaws} s numbers look f d os image faults fs s' fs' r :
  (forall f g c, image f = Opened g c -> ra_bytes g = contents f) ->
  good (s, numbers) -> is_u64 (st_nextManifest s) -> contents f = [] -> 0 <= durable f ->
  Rewrite look f d [] os image faults s fs = (s', fs', r) ->
  st_current s' = st_current s /\
  ((s' = s /\ cur_contents fs' = cur_contents fs /\ is_ok r = false) \/
   (st_manifestNumber s' = st_nextManifest s /\ readCurrent (cur_contents fs') = Ok (st_manifestNumber s') /\
    (forall k, durable (file (st_writer s')) <= Z.of_nat k -> (k <= length (contents (file (st_writer s'))))%nat ->
      exists v res, recoverManifest (crash_image (take k (contents (file (st_writer s'))))) = Ok (v, res) /\
        validateEquivalent (st_current s) v = Ok tt)) \/
   (st_poisoned s' <> None /\ st_writer s' = st_writer s /\ is_ok r = false)).
Proof.
  intros Himg [(ps & v & Hi) _] [Hnn _] Hc Hd. cbn in Hi. unfold Rewrite. destruct (st_closed s); [intros [= <- <- <-]; auto|].
  destruct (st_poisoned s) as [e0|] eqn:Hpo; [intros [= <- <- <-]; auto|]. destruct (_ || _) eqn:Hnum; [intros [= <- <- <-]; auto|].
  destruct (_ ≫= _) as [[encoded w]|err] eqn:Hw; [|intros [= <- <- <-]; auto]. ok_inv Hw. injection Hw as -> ->.
  unfold openManifestWriter in Hx1. rewrite Hnum in Hx1. destruct look; [done| |done].
  destruct (OpenWriter f d [] SyncBatch os) as [w'|] eqn:Ho; [|done]. apply Ok_inj in Hx1 as ->. apply fresh_writer in Ho as ->.
  destruct (Append encoded _) as [w [pos|err]] eqn:Happ; [|intros [= <- <- <-]; auto]. apply fresh_append in Happ as (Hsy & Hof & Hcw & Hdw); [|done..].
  destruct (_ ≫= _) as [u|err] eqn:Hrec; [|intros [= <- <- <-]; auto]. ok_inv Hrec. rename v0 into rv, r0 into res.
  destruct (validateEquivalent (st_current s) rv) as [[]|] eqn:Heq; [|done].
  assert (recoverManifest (crash_image (contents (file w))) = Ok (rv, res)) as Hback.
  { destruct (image (file w)) as [| |g c] eqn:Hg; [done..|]. rewrite <- (Himg _ _ _ Hg). by apply (recoverManifest_healthy g c). }
  assert (forall k, durable (file w) <= Z.of_nat k -> (k <= length (contents (file w)))%nat -> take k (contents (file w)) = contents (file w)) as Htake.
  { intros k Hk1 Hk2. apply take_ge. rewrite Hcw in *. unfold len in Hdw. lia. }
  assert (1 <= st_nextManifest s <= maxManifestNumber) as Hrange.
  { rewrite orb_false_iff, Z.eqb_neq, Z.ltb_ge in Hnum. lia. }
  destruct (publishCurrent _ faults fs) as [fs1 [amb errs]] eqn:Hpub. pose proof (publishCurrent_atomic _ _ _ _ _ _ Hrange Hpub) as Hat.
  destruct errs as [|e errs].
  - rewrite orb_true_r in Hat. destruct amb, (Close (st_writer s)) as [w0 [ce|]]; intros [= <- <- <-]; (split; [done|]); right; left; cbn;
      (split_and!; [done..|]); intros k Hk1 Hk2; exists rv, res; by rewrite Htake.
  - destruct amb; intros [= <- <- <-]; (split; [done|]); auto.
Qed.

Module ManifestExample.
#[local] Existing Instances disk_file disk_laws.
(** A disk that fills up while the second number is reserved. *)
Definition small : disk := {| d_bytes := []; d_synced := 0; d_capacity := 130 |}.
Definition large : disk := {| d_bytes := []; d_synced := 0; d_capacity := 1000 |}.
Definition no_current : current_files := {| cur_contents := None; cur_temp := false |}.
Definition create (f : disk) : current_files * sres Store :=
  Create ModeReplicatedMVCC (Some []) Absent Absent (f : @File disk_file) (Some tt) [] no_faults no_current_faults no_current.
Definition store_of (r : current_files * sres Store) : Store :=
  match snd r with Ok s => s | Err _ => newStore (newWriter (small : @File disk_file) 0 SyncBatch) 0 initialVersion end.
Definition s0 (f : disk) : Store := store_of (create f).
Definition ops : list store_op := [OpAllocate (Context false); OpAllocate (Context false); OpAllocate (Context false); OpClose].
Definition final : Store * list Z := store_run (fun _ => Missing) [] (fun _ => false) ops (s0 small, []).
Lemma created (f : disk) : is_ok (snd (create f)) = true -> create f = (fst (create f), Ok (s0 f)).
Proof. unfold s0, store_of. destruct (create f) as [fs [s|e]]; [reflexivity|discriminate]. Qed.
End ManifestExample.

Section witnesses.
Import ManifestExample.
#[local] Existing Instances disk_file disk_laws.

Lemma manifest_durability_witness :
  exists v res, recoverManifest (crash_image (take 120 (contents (file (st_writer (fst final)))))) = Ok (v, res) /\ version_ok v /\
    (v = st_current (fst final) \/ st_poisoned (fst final) <> None /\ one_more (st_current (fst final)) v) /\
    NoDup (snd final) /\ Forall (fun n => n < nextFileNumber v) (snd final).
Proof.
  pose proof (manifest_durability (fun _ => Missing) [] (fun _ => false) ModeReplicatedMVCC (Some []) Absent Absent (small : @File disk_file) (Some tt)
    no_faults no_current_faults no_current (fst (create small)) (s0 small) ops 120) as H.
  fold final in H. destruct final as [s numbers] eqn:Hf. apply H.
  - reflexivity.
  - reflexivity.
  - apply created. vm_compute. reflexivity.
  - unfold ops. rewrite !Forall_cons. repeat split; constructor.
  - change s with (fst (s, numbers)). rewrite <- Hf. vm_compute. discriminate.
  - change s with (fst (s, numbers)). rewrite <- Hf. apply Nat.leb_le. vm_compute. reflexivity.
Defined.

Lemma rewrite_equivalent_witness :
  let r := Rewrite Absent (large : @File disk_file) (Some tt) [] no_faults (fun f => crash_image (contents f)) no_current_faults (s0 large)
             (fst (create large)) in
  is_ok (snd r) = true /\ st_current (fst (fst r)) = st_current (s0 large).
Proof.
  intros r. split; [vm_compute; reflexivity|]. destruct r as [[s' fs'] res] eqn:Hr.
  refine (proj1 (rewrite_equivalent (s0 large) [] Absent (large : @File disk_file) (Some tt) no_faults (fun f => crash_image (contents f)) no_current_faults (fst (create large)) s' fs' res _ _ _ _ _ Hr)).
  - intros f g c [= <- _]. reflexivity.
  - eapply (Create_good ModeReplicatedMVCC (Some []) Absent Absent (large : @File disk_file) (Some tt) no_faults no_current_faults no_current (fst (create large)));
      [reflexivity|reflexivity|]. apply created. vm_compute. reflexivity.
  - vm_compute. split; [discriminate|reflexivity].
  - reflexivity.
  - vm_compute. discriminate.
Defined.
End witnesses.
