(* ===== verification/ManifestReplay.v ===== *)
(** * Replay of the write-ahead log into a memtable (storage/manifest/recovery.go)

    Composition of the log, the batch codec and the memtable: replaying what a
    crash left of a log of batches, beyond the manifest's frontier, rebuilds
    the entries of the batches the tables do not hold yet. *)

From S2P Require Import Prelude InternalKey Batch Codec Loops Files Wal WalProofs MvccStore SSTable SSTableWriter SSTableReader MemTable MemTableProofs MemTableProps Manifest ManifestVersion ManifestStore ManifestDurable.
Import manifest version store memtable.

(** ** Batches and the frontier *)

Definition last_sequence (b : WriteBatch) : Z := FirstSequence b + len (Mutations b) - 1.
(** The batch is not in the tables yet. *)
Definition beyond (frontier : option Z) (b : WriteBatch) : bool :=
  match frontier with Some f => f <? last_sequence b | None => true end.
(** The frontier does not lie inside of the batch. *)
Definition whole (frontier : option Z) (b : WriteBatch) : Prop :=
  match frontier with Some f => last_sequence b <= f \/ f < FirstSequence b | None => True end.
Definition store_batch (l : MvccStore.store) (b : WriteBatch) : MvccStore.store :=
  put_seq (FirstSequence b) (stored_mutation <$> Mutations b) l.

Lemma stored_good ms : Forall (fun m => kind_valid (mKind m) = true) ms -> first_bad (stored_mutation <$> ms) = None.
Proof.
  induction 1 as [|m ms Hm Hms IH]; [done|]. rewrite fmap_cons, first_bad_cons, IH. unfold bad_mutation, stored_mutation. cbn.
  rewrite Hm. cbn. by destruct (CarriesValue (mKind m)).
Qed.

Section replaying.
Context (random : nat -> Z) (expensive : bool) (frontier : option Z).

(** A memtable in use. *)
Definition usable (m : MemTable) : Prop := wf m /\ t_frozen m = false.
Lemma replay_batch_ok st rec b p : usable (wr_table st) -> is_u64 (FirstSequence b) -> EncodeWriteBatch b = Ok p -> Payload rec = p ->
  whole frontier b -> exists st', replay_batch random expensive frontier (Some st) rec = (Some st', false) /\ usable (wr_table st') /\
    contents (wr_table st') = if beyond frontier b then store_batch (contents (wr_table st)) b else contents (wr_table st).
Proof.
  intros [Hwf Hfr] Hfirst He Hp Hw. pose proof (proj1 (batch_decode_encode b p (proj1 Hfirst) He)) as Hdec.
  apply EncodeWriteBatch_ok in He as ([Hc1 Hc2] & Hseq & Hkinds & _ & _). unfold replay_batch. rewrite Hp, Hdec. cbn [FirstSequence Mutations stored_batch].
  assert (len (stored_mutation <$> Mutations b) = len (Mutations b)) as Hlen by (unfold len; by rewrite length_fmap). rewrite Hlen.
  assert (u64 (u64 (FirstSequence b + len (Mutations b)) - 1) = last_sequence b) as Hlast.
  { unfold u64, last_sequence. rewrite Zminus_mod_idemp_l. apply Z.mod_small. unfold is_u64, MaxUint64, two64, MaxUint32 in *. lia. }
  rewrite Hlast.
  assert (match frontier with Some f => if last_sequence b <=? f then Ok false else if FirstSequence b <=? f then Err [Manifest ErrFrontierSplitsBatch] else Ok true
    | None => Ok true end = Ok (beyond frontier b)) as ->.
  { unfold beyond, whole in *. destruct frontier as [f|]; [|done]. destruct (Z.leb_spec (last_sequence b) f); [by rewrite (proj2 (Z.ltb_ge _ _)) by lia|].
    rewrite (proj2 (Z.leb_gt _ _)), (proj2 (Z.ltb_lt _ _)) by lia. done. }
  destruct (beyond frontier b); [|by exists st].
  destruct (mem_op_spec random expensive (OpBatch (stored_batch b)) (wr_table st) Hwf Hfirst) as (m' & Hm' & Hwf' & Ha').
  assert (abs_op (OpBatch (stored_batch b)) (abs_of (wr_table st)) = ((store_batch (contents (wr_table st)) b, false), Ok tt)) as Habs.
  { cbn [abs_op]. cbn [FirstSequence Mutations stored_batch]. rewrite Hlen, (proj2 (Z.eqb_neq _ 0)), (proj2 (Z.ltb_ge _ _)) by lia.
    unfold abs_write. rewrite stored_good by done. cbn. by rewrite Hfr. }
  rewrite Habs in Hm', Ha'. cbn [snd fst] in Hm', Ha'. cbn [run_op] in Hm'. rewrite Hm'. injection Ha' as Hc Hf.
  eexists. split; [reflexivity|]. done.
Qed.

Lemma replay_all bs ps : Forall2 (fun b p => is_u64 (FirstSequence b) /\ EncodeWriteBatch b = Ok p) bs ps -> Forall (whole frontier) bs ->
  forall st, usable (wr_table st) -> accepts (replay_batch random expensive frontier) (Some st) ps /\
    forall recs, Payload <$> recs = ps -> exists st',
      foldl (fun s rec => fst (replay_batch random expensive frontier s rec)) (Some st) recs = Some st' /\ usable (wr_table st') /\
      contents (wr_table st') = foldl store_batch (contents (wr_table st)) (filter (fun b => beyond frontier b = true) bs).
Proof.
  induction 1 as [|b p bs ps [Hb He] Hbs IH]; intros Hw st Hu; [split; [done|]; intros [|]; [by exists st|done]|].
  apply Forall_cons in Hw as [Hwb Hw]. split.
  - intros rec Hrec. destruct (replay_batch_ok st rec b p Hu Hb He Hrec Hwb) as (st1 & Hst1 & Hu1 & _). rewrite Hst1. split; [done|]. by apply IH.
  - intros [|rec recs] Hr; [done|]. cbn in Hr. injection Hr as Hrec Hr.
    destruct (replay_batch_ok st rec b p Hu Hb He Hrec Hwb) as (st1 & Hst1 & Hu1 & Hc1).
    destruct (IH Hw st1 Hu1) as [_ Hall]. destruct (Hall recs Hr) as (st2 & Hst2 & Hu2 & Hc2). exists st2. cbn [foldl]. rewrite Hst1. cbn [fst].
    split; [done|]. split; [done|]. rewrite Hc2, Hc1. rewrite filter_cons. by destruct (beyond frontier b).
Qed.
End replaying.

(** C20. Restart.  Cut the log of any batches at any byte and replay it over a
    memtable in use, with a manifest frontier that lies inside no batch.  The
    replay succeeds, and the table then holds what it held plus the entries
    of exactly those complete batches that lie beyond the frontier, each
    mutation under its own sequence number. *)
Theorem replay_restores random expensive frontier bs ps p k m :
  Forall2 (fun b p => is_u64 (FirstSequence b) /\ EncodeWriteBatch b = Ok p) bs ps -> Forall (whole frontier) bs ->
  torn_ok ps p k -> wf m -> t_frozen m = false ->
  exists m' applied, ReplayWAL random expensive frontier (crash_image (torn_log ps p k)) m = Some (m', applied, []) /\ wf m' /\
    t_frozen m' = false /\ contents m' = foldl store_batch (contents m) (filter (fun b => beyond frontier b = true) bs).
Proof.
  intros Hbs Hw Hok Hwf Hfr. unfold ReplayWAL. rewrite Hfr. unfold recover_file, crash_image, recoverFromReader.
  change (file_reader (healthy (torn_log ps p k))) with (start_reader (torn_log ps p k)).
  cbn [size r_offset start_reader]. rewrite Z.sub_0_r, len_to_nat.
  destruct (replay_all random expensive frontier bs ps Hbs Hw (mkWalReplay m 0 []) (conj Hwf Hfr)) as [Ha Hf].
  destruct (recover_loop_torn (replay_batch random expensive frontier) ps p k (Some (mkWalReplay m 0 [])) Ha Hok) as (r' & recs & -> & Hp & _).
  destruct (Hf recs Hp) as (st & -> & [Hwf' Hfr'] & Hc). exists (wr_table st), (wr_applied st). done.
Qed.

Module ReplayExample.
Definition batch (first : Z) (k : Byte.byte) : WriteBatch :=
  {| FirstSequence := first; Mutations := [{| mKind := KindValue; mKey := [k]; mValue := [Byte.x76] |}; {| mKind := KindDelete; mKey := [k; k]; mValue := [] |}] |}.
Definition batches : list WriteBatch := [batch 1 Byte.x61; batch 3 Byte.x62; batch 5 Byte.x63].
Definition payloads : list bytes := (fun b => match EncodeWriteBatch b with Ok p => p | Err _ => [] end) <$> batches.
End ReplayExample.

Lemma replay_restores_witness : exists m' applied,
  ReplayWAL (fun _ => 0) true (Some 2) (crash_image (torn_log ReplayExample.payloads (replicate 9 Byte.x78) 11)) newWithRandom = Some (m', applied, []) /\ wf m' /\
    t_frozen m' = false /\ contents m' = foldl store_batch [] (drop 1 ReplayExample.batches).
Proof.
  destruct (replay_restores (fun _ => 0) true (Some 2) ReplayExample.batches ReplayExample.payloads (replicate 9 Byte.x78) 11 newWithRandom)
    as (m' & applied & H1 & H2 & H3 & H4).
  - repeat (constructor; [split; [by vm_compute|vm_compute; reflexivity]|]). constructor.
  - unfold ReplayExample.batches, whole. rewrite !Forall_cons, Forall_nil. vm_compute. intuition congruence.
  - unfold torn_ok. split; [repeat (constructor; [by vm_compute|]); constructor|]. split; [by vm_compute|]. apply Nat.ltb_lt. vm_compute. reflexivity.
  - apply new_wf.
  - done.
  - exists m', applied. split; [exact H1|]. split; [exact H2|]. split; [exact H3|]. rewrite H4. vm_compute. reflexivity.
Defined.
