(* ===== verification/Compaction.v ===== *)
(** * Compaction (storage/compaction/plan.go, state.go, executor.go)

    The picker that selects level-0 work, and the executor that merges the
    selected tables into new ones of level 1 and has the manifest replace
    them.  Loggers, clocks and the elapsed time in [Stats] are not modelled;
    the test hook [beforeInstall] is a parameter. *)

From S2P Require Import Prelude InternalKey Codec Loops Files Wal MvccStore SSTable SSTableWriter SSTableReader MemTable Heap Merge MergeProofs MergeInputs Manifest ManifestVersion ManifestStore.
Import manifest version store.

Module compaction.

(** ** Plans (plan.go) *)

Definition DefaultL0Trigger : Z := 4.
Record Plan := mkPlan {
  BaseGeneration : Z; SourceLevel : Z; TargetLevel : Z; SourceInputs : list TableMetadata; TargetInputs : list TableMetadata;
  p_SmallestUser : bytes; p_LargestUser : bytes
}.
Definition Inputs (p : Plan) : list TableMetadata := SourceInputs p ++ TargetInputs p.

Definition rangesOverlap (a0 a1 b0 b1 : bytes) : bool := bytes_leb a0 b1 && bytes_leb b0 a1.
Definition expandRange (range : bytes * bytes) (table : TableMetadata) : bytes * bytes :=
  (if bytes_ltb (SmallestUser table) range.1 then SmallestUser table else range.1,
   if bytes_ltb range.2 (LargestUser table) then LargestUser table else range.2).

(** The numbers selected in one level, the range, and whether the pass
    changed anything. *)
Record selection := mkSelection { sel_files : gset Z; sel_range : bytes * bytes; sel_changed : bool }.
Definition select (s : selection) (table : TableMetadata) : selection :=
  let 'mkSelection files range changed := s in
  if negb (bool_decide (FileNumber table ∈ files)) && rangesOverlap range.1 range.2 (SmallestUser table) (LargestUser table)
  then mkSelection ({[FileNumber table]} ∪ files) (expandRange range table) true
  else s.
(** [for changed := true; changed; { ... }] *)
Fixpoint select_loop (fuel : nat) (source target : list TableMetadata) (selectedSource selectedTarget : gset Z) (range : bytes * bytes)
    : option (gset Z * gset Z * (bytes * bytes)) :=
  match fuel with
  | O => None
  | S fuel' =>
      let '(mkSelection selectedSource range changed) := foldl select (mkSelection selectedSource range false) source in
      let '(mkSelection selectedTarget range changed) := foldl select (mkSelection selectedTarget range changed) target in
      if changed then select_loop fuel' source target selectedSource selectedTarget range
      else Some (selectedSource, selectedTarget, range)
  end.

Abbreviation cres := (result (list merge.compaction_error)).
(** [version.Files(level)]; a failed assertion of [cloneTable] is its sentinel. *)
Definition files_of (level : Z) (v : Version) : cres (list TableMetadata) :=
  match Files level v with Ok ts => Ok ts | Err _ => Err [merge.ErrInputCorrupt] end.
Definition Validate (p : Plan) (v : Version) : cres unit :=
  if negb (SourceLevel p =? 0) || negb (TargetLevel p =? 1) || (len (SourceInputs p) =? 0) || negb (bytes_leb (p_SmallestUser p) (p_LargestUser p))
  then Err [merge.ErrInvalidPlan]
  else
    let overlapping table := rangesOverlap (p_SmallestUser p) (p_LargestUser p) (SmallestUser table) (LargestUser table) in
    _ ← require (forallb (fun table => Contains table v && overlapping table) (Inputs p)) [merge.ErrInvalidPlan];
    let selected := list_to_set (C := gset Z) (FileNumber <$> Inputs p) in
    let closed tables := forallb (fun table => negb (overlapping table) || bool_decide (FileNumber table ∈ selected)) tables in
    source ← files_of (SourceLevel p) v;
    _ ← require (closed source) [merge.ErrInvalidPlan];
    target ← files_of (TargetLevel p) v;
    require (closed target) [merge.ErrInvalidPlan].

(** [None] is the nil plan below the trigger; [fuel] bounds the selection. *)
Definition Pick (L0Trigger : Z) (v : Version) : cres (option Plan) :=
  let trigger := if L0Trigger =? 0 then DefaultL0Trigger else L0Trigger in
  if trigger <? 1 then Err [merge.ErrInvalidOptions]
  else
    source ← files_of 0 v;
    target ← files_of 1 v;
    if len source <? trigger then Ok None
    else
      match source !! (length source - 1)%nat with
      | None => Err [merge.ErrInvalidPlan]   (* an index out of range *)
      | Some seed =>
          match select_loop (S (length source + length target)) source target {[FileNumber seed]} ∅ (SmallestUser seed, LargestUser seed) with
          | None => Err []
          | Some (selectedSource, selectedTarget, range) =>
              let plan := mkPlan (generation v) 0 1 (filter (fun t => FileNumber t ∈ selectedSource) source)
                            (filter (fun t => FileNumber t ∈ selectedTarget) target) range.1 range.2 in
              _ ← Validate plan v;
              Ok (Some plan)
          end
      end.

(** ** States (state.go) *)

Inductive State := StatePlanned | StateRunning | StateOutputDurable | StateInstalling | StateInstalled | StateFailed | StateStale.
#[export] Instance State_eq_dec : EqDecision State.
Proof. solve_decision. Defined.
Definition validTransition (from to : State) : bool :=
  match from, to with
  | StatePlanned, StateRunning
  | StateRunning, (StateOutputDurable | StateFailed)
  | StateOutputDurable, (StateInstalling | StateStale | StateFailed)
  | StateInstalling, (StateInstalled | StateFailed | StateStale) => true
  | _, _ => false
  end.

(** ** The executor (executor.go) *)

Definition DefaultTargetFileSize : Z := 4 * 2 ^ 20.
Inductive compact_error := Comp (e : merge.compaction_error) | Store_ (e : store_error) | Table_ (e : sstable.sst_error).
Abbreviation cerrors := (list compact_error).
Abbreviation xres := (result cerrors).
Definition merge_failure (e : merge.merge_error sstable.sst_error) : compact_error :=
  match e with merge.Merge e => Comp e | merge.Input e => Table_ e end.

Record Result := mkResult {
  JobID : Z; r_State : State; r_Inputs : list TableMetadata; r_Outputs : list TableMetadata; r_InputBytes : Z; r_OutputBytes : Z; r_Entries : Z
}.
Record Stats := mkStats {
  Started : Z; Succeeded : Z; Failed : Z; Stale : Z; InputFiles : Z; OutputFiles : Z; InputBytes : Z; OutputBytes : Z; Entries : Z;
  OrphanOutputs : Z
}.

Definition metadataMatches (table : TableMetadata) (actual : writer.Metadata) : bool := sstableMetadataEqual table actual.
(** [sstableMetadataEqual] of this package compares two metadata of tables. *)
Definition metadata_equal (a b : writer.Metadata) : bool :=
  (writer.FileNumber a =? writer.FileNumber b) && (writer.FileSize a =? writer.FileSize b) && (writer.EntryCount a =? writer.EntryCount b) &&
  (writer.DeletionCount a =? writer.DeletionCount b) && (writer.RawKeyValueBytes a =? writer.RawKeyValueBytes b) &&
  (writer.DataBlockCount a =? writer.DataBlockCount b) &&
  (match CompareInternal (writer.SmallestInternal a) (writer.SmallestInternal b) with Eq => true | _ => false end) &&
  (match CompareInternal (writer.LargestInternal a) (writer.LargestInternal b) with Eq => true | _ => false end) &&
  bytes_eqb (writer.SmallestUser a) (writer.SmallestUser b) && bytes_eqb (writer.LargestUser a) (writer.LargestUser b).

(** [sstable.Open] of a table by its number. *)
Definition open_number (directory : bytes -> opened) (number : Z) : result (list store_error) reader.Reader :=
  open_table (reader.FileName number) (directory (reader.FileName number)).

(** [closeReaders] of the readers of these tables: an error of every reader
    whose file fails to close. *)
Definition closeReaders (directory : bytes -> opened) (tables : list TableMetadata) : cerrors :=
  concat ((fun table => match directory (reader.FileName (FileNumber table)) with Opened _ true => [Table_ sstable.ErrIO] | _ => [] end) <$> tables).
(** The loop over the tables: the inputs of the merge, the tables whose
    readers are open, and the sum of the sizes. *)
Fixpoint open_inputs (directory : bytes -> opened) (tables opened_ : list TableMetadata) (inputs : list (merge.MergeInput table_iterator)) (total : Z)
    : xres (list (merge.MergeInput table_iterator) * Z) :=
  match tables with
  | [] => Ok (inputs, total)
  | table :: tables =>
      match open_number directory (FileNumber table) with
      | Err e => Err (Comp merge.ErrInputCorrupt :: (Store_ <$> e) ++ closeReaders directory opened_)
      | Ok r =>
          if negb (match reader.rd_metadata r with Some actual => metadataMatches table actual | None => false end)
          then Err (Comp merge.ErrInputCorrupt :: closeReaders directory [table] ++ closeReaders directory opened_)
          else
            match reader.NewIterator r with
            | Err e => Err ((Table_ <$> e) ++ closeReaders directory [table] ++ closeReaders directory opened_)
            | Ok it =>
                open_inputs directory tables (opened_ ++ [table])
                  (inputs ++ [merge.mkInput (FileNumber table) (Some {| ti_reader := r; ti_iterator := it |})]) (u64 (total + FileSize table))
            end
      end
  end.
(** [None] is a panic of the merge. *)
Definition openInputs (directory : bytes -> opened) (tables : list TableMetadata)
    : option (xres (merge.MergeIterator table_iterator sstable.sst_error * Z)) :=
  match open_inputs directory tables [] [] 0 with
  | Err e => Some (Err e)
  | Ok (inputs, total) =>
      match merge.NewMergeIterator inputs with
      | None => None
      | Some (Ok m) => Some (Ok (m, total))
      | Some (Err e) => Some (Err ((merge_failure <$> e) ++ closeReaders directory tables))
      end
  end.

Section executor.
Context `{writer.Publication}.
(** Creating the file of a table (in [sstable.OpenWriter]), what opening the
    published file gives, the options of the writer, the size at which an
    output is finished, whether the context is cancelled once so many entries
    were written, the hooks, and the path of the directory. *)
Context (create : Z -> result (list sstable.sst_error) (File * writer.FS)) (image : Z -> File -> opened).
Context (blockSize restartInterval : Z) (bloom : bool) (TargetFileSize : Z) (cancelled : Z -> bool).
Context (beforeInstall : bool) (afterDurable : Version -> bool).

(** The variables of [buildOutputs], with the store and the directory. *)
Record build := mkBuild {
  b_store : Store; b_directory : bytes -> opened; b_outputs : list TableMetadata; b_writer : option writer.Writer; b_logical : Z;
  b_entries : Z; b_total : Z; b_smallestSeq : Z; b_largestSeq : Z; b_haveSeq : bool; b_lastUser : bytes; b_previous : option InternalKey
}.
Definition place (name : bytes) (o : opened) (directory : bytes -> opened) : bytes -> opened :=
  fun other => if bytes_eqb other name then o else directory other.

(** [sstable.OpenWriter] *)
Definition openOutput (number : Z) : result (list sstable.sst_error) writer.Writer :=
  if (number =? 0) || (sstable.MaxFileNumber <? number) then Err [sstable.ErrInvalidFileNumber]
  else
    '(size, interval) ← writer.normalizeOptions blockSize restartInterval;
    '(f, s) ← create number;
    Ok (writer.newWriter f s number size interval bloom).
Definition abort_errors (w : option writer.Writer) : cerrors :=
  match w with Some w => match snd (writer.Abort w) with Err e => Table_ <$> e | Ok _ => [] end | None => [] end.

(** The closure [finish].  A [Finish] that fails may leave a file behind; its
    number is never used again. *)
Definition finish (job level : Z) (b : build) : build * option cerrors :=
  let 'mkBuild s directory outputs w logical entries total smallest largest have lastUser previous := b in
  match w with
  | None => (b, None)
  | Some w =>
      match writer.Finish w with
      | (w, Err e) => (mkBuild s directory outputs (Some w) logical entries total smallest largest have lastUser previous, Some (Table_ <$> e))
      | (w, Ok metadata) =>
          let number := writer.FileNumber metadata in
          let directory := place (reader.FileName number) (image number (writer.file w)) directory in
          let b := mkBuild s directory outputs (Some w) logical entries total smallest largest have lastUser previous in
          match open_number directory number with
          | Err e => (b, Some (Store_ <$> e))
          | Ok r =>
              match directory (reader.FileName number) with
              | Opened _ true => (b, Some [Table_ sstable.ErrIO])
              | _ =>
                  if negb (match reader.rd_metadata r with Some actual => metadata_equal metadata actual | None => false end)
                  then (b, Some [Comp merge.ErrInputCorrupt])
                  else
                    match NewTableMetadata level job smallest largest metadata with
                    | Err e => (b, Some (Store_ ∘ store.Manifest <$> e))
                    | Ok table =>
                        (mkBuild s directory (outputs ++ [table]) None 0 entries (u64 (total + writer.FileSize metadata)) smallest largest false
                           lastUser previous, None)
                    end
              end
          end
      end
  end.

(** The rest of the loop's body once there is a writer. *)
Definition add_entry (e : entry) (w : writer.Writer) (b : build) : build + build * cerrors :=
  let 'mkBuild s directory outputs _ logical entries total smallest largest have lastUser previous := b in
  let '(key, value) := e in
  match writer.Add key value w with
  | (w, Err err) =>
      inr (mkBuild s directory outputs (Some w) logical entries total smallest largest have lastUser previous,
           (Table_ <$> err) ++ abort_errors (Some w))
  | (w, Ok _) =>
      let '(smallest, largest) :=
        if negb have then (sequence key, sequence key) else (Z.min smallest (sequence key), Z.max largest (sequence key)) in
      inl (mkBuild s directory outputs (Some w) (u64 (logical + (len (Encode key) + len value))) (u64 (entries + 1)) total smallest largest true
             (userKey key) (Some key))
  end.
(** Allocating the number and opening the writer of a new output. *)
Definition new_output (b : build) : build * xres writer.Writer :=
  let 'mkBuild s directory outputs w logical entries total smallest largest have lastUser previous := b in
  let '(s, number) := AllocateFileNumber afterDurable (Context (cancelled entries)) s in
  let b := mkBuild s directory outputs w logical entries total smallest largest have lastUser previous in
  match number with
  | Err e => (b, Err (Store_ <$> e))
  | Ok number => (b, match openOutput number with Err e => Err (Table_ <$> e) | Ok w => Ok w end)
  end.
(** One entry of the merge: the state the loop goes on with, or the state and
    the error it returns. *)
Definition build_entry (job level : Z) (b : build) (e : entry) : build + build * cerrors :=
  if cancelled (b_entries b) then inr (b, abort_errors (b_writer b))
  else if match b_previous b with Some previous => match CompareInternal previous e.1 with Eq => true | _ => false end | None => false end
  then inr (b, Comp merge.ErrDuplicateInternalKey :: abort_errors (b_writer b))
  else
    let '(b, err) :=
      if match b_writer b with Some _ => true | None => false end && (TargetFileSize <=? b_logical b) && negb (bytes_eqb (b_lastUser b) (userKey e.1))
      then finish job level b else (b, None) in
    match err with
    | Some err => inr (b, err)
    | None =>
        match b_writer b with
        | Some w => add_entry e w b
        | None =>
            match new_output b with
            | (b, Err err) => inr (b, err)
            | (b, Ok w) => add_entry e w b
            end
        end
    end.
Definition build_body (job level : Z) (b : build) (m : merge.MergeIterator table_iterator sstable.sst_error) : build + build * cerrors :=
  match merge.Entry m with
  | None => if cancelled (b_entries b) then inr (b, abort_errors (b_writer b)) else inr (b, [Comp merge.ErrInputCorrupt])
  | Some e => build_entry job level b e
  end.
(** [fuel] bounds the entries of the merge; the error is [None] for nil. *)
Definition buildOutputs (fuel : nat) (job level : Z) (b : build) (m : merge.MergeIterator table_iterator sstable.sst_error)
    : option (build * option cerrors * merge.MergeIterator table_iterator sstable.sst_error) :=
  '(r, m) ← merge.for_each fuel (build_body job level) b m;
  match r with
  | inr (b, err) => Some (b, Some err, m)
  | inl b =>
      match merge.m_err m with
      | Some err => Some (b, Some ((merge_failure <$> err) ++ abort_errors (b_writer b)), m)
      | None => let '(b, err) := finish job level b in Some (b, err, m)
      end
  end.

Record Executor := mkExecutor { x_nextJob : Z; x_stats : Stats }.
Definition count_started (x : Stats) : Stats :=
  mkStats (u64 (Started x + 1)) (Succeeded x) (Failed x) (Stale x) (InputFiles x) (OutputFiles x) (InputBytes x) (OutputBytes x) (Entries x) (OrphanOutputs x).
Definition count_failed (x : Stats) : Stats :=
  mkStats (Started x) (Succeeded x) (u64 (Failed x + 1)) (Stale x) (InputFiles x) (OutputFiles x) (InputBytes x) (OutputBytes x) (Entries x) (OrphanOutputs x).
Definition count_stale (x : Stats) : Stats :=
  mkStats (Started x) (Succeeded x) (Failed x) (u64 (Stale x + 1)) (InputFiles x) (OutputFiles x) (InputBytes x) (OutputBytes x) (Entries x) (OrphanOutputs x).
Definition count_orphans (n : Z) (x : Stats) : Stats :=
  mkStats (Started x) (Succeeded x) (Failed x) (Stale x) (InputFiles x) (OutputFiles x) (InputBytes x) (OutputBytes x) (Entries x) (u64 (OrphanOutputs x + n)).
Definition count_installed (r : Result) (x : Stats) : Stats :=
  mkStats (Started x) (u64 (Succeeded x + 1)) (Failed x) (Stale x) (u64 (InputFiles x + len (r_Inputs r))) (u64 (OutputFiles x + len (r_Outputs r)))
    (u64 (InputBytes x + r_InputBytes r)) (u64 (OutputBytes x + r_OutputBytes r)) (u64 (Entries x + r_Entries r)) (OrphanOutputs x).

(** [errors.Is(err, manifest.ErrStaleVersion)] *)
Definition is_stale (e : store_error) : bool := match e with store.Manifest ErrStaleVersion => true | _ => false end.
(** What [Run] leaves: the executor, the store, the directory, the result and
    the error, [None] for nil. *)
Record run := mkRun { run_executor : Executor; run_store : Store; run_directory : bytes -> opened; run_result : Result; run_error : option cerrors }.
(** As many entries as the inputs declare, and one call that ends the loop. *)
Definition entry_fuel (tables : list TableMetadata) : nat := S (Z.to_nat (foldr (fun table n => EntryCount table + n) 0 tables)).

Definition Run (plan : Plan) (x : Executor) (s : Store) (directory : bytes -> opened) : option run :=
  let job := x_nextJob x in
  let stats := count_started (x_stats x) in
  let next := u64 (job + 1) in
  let result state outputs inputBytes outputBytes entries := mkResult job state (Inputs plan) outputs inputBytes outputBytes entries in
  let fail s directory stats outputs inputBytes outputBytes entries err :=
    Some (mkRun (mkExecutor next (count_failed stats)) s directory (result StateFailed outputs inputBytes outputBytes entries) (Some err)) in
  if negb (validTransition StatePlanned StateRunning) then fail s directory stats [] 0 0 0 [Comp merge.ErrInvalidTransition]
  else
    match Current s with
    | Err e => fail s directory stats [] 0 0 0 (Store_ <$> e)
    | Ok current =>
        match Validate plan current with
        | Err e => Some (mkRun (mkExecutor next (count_stale stats)) s directory (result StateStale [] 0 0 0) (Some (Comp merge.ErrStalePlan :: (Comp <$> e))))
        | Ok _ =>
            opened_ ← openInputs directory (Inputs plan);
            match opened_ with
            | Err e => fail s directory stats [] 0 0 0 e
            | Ok (m, inputBytes) =>
                '(b, err, m) ← buildOutputs (entry_fuel (Inputs plan)) job (TargetLevel plan) (mkBuild s directory [] None 0 0 0 0 0 false [] None) m;
                '(_, closeErr) ← merge.Close m;
                let '(s, directory, outputs) := (b_store b, b_directory b, b_outputs b) in
                match err, closeErr with
                | None, [] =>
                    if beforeInstall then fail s directory (count_orphans (len outputs) stats) outputs inputBytes (b_total b) (b_entries b) []
                    else if negb (validTransition StateOutputDurable StateInstalling)
                    then fail s directory stats outputs inputBytes (b_total b) (b_entries b) [Comp merge.ErrInvalidTransition]
                    else
                      match InstallCompaction directory afterDurable (Context (cancelled (b_entries b))) (Inputs plan) outputs s with
                      | (s, Err e) =>
                          let stats := count_orphans (len outputs) stats in
                          if existsb is_stale e
                          then Some (mkRun (mkExecutor next (count_stale stats)) s directory (result StateStale outputs inputBytes (b_total b) (b_entries b))
                                       (Some (Comp merge.ErrStalePlan :: (Store_ <$> e))))
                          else fail s directory stats outputs inputBytes (b_total b) (b_entries b) (Store_ <$> e)
                      | (s, Ok _) =>
                          let r := result StateInstalled outputs inputBytes (b_total b) (b_entries b) in
                          Some (mkRun (mkExecutor next (count_installed r stats)) s directory r None)
                      end
                | err, closeErr =>
                    fail s directory (count_orphans (len outputs) stats) outputs inputBytes 0 0 (default [] err ++ (merge_failure <$> closeErr))
                end
            end
        end
    end.
(** [CompactOnce] returns before [Run] when there is nothing to compact. *)
Definition CompactOnce (L0Trigger : Z) (x : Executor) (s : Store) (directory : bytes -> opened) : option (run + cerrors) :=
  match Current s with
  | Err e => Some (inr (Store_ <$> e))
  | Ok current =>
      match Pick L0Trigger current with
      | Err e => Some (inr (Comp <$> e))
      | Ok None => Some (inr [Comp merge.ErrNoCompaction])
      | Ok (Some plan) => r ← Run plan x s directory; Some (inl r)
      end
  end.
End executor.
End compaction.
