(* ===== verification/CompactionPlan.v ===== *)
(** * Selection of compaction work

    [Pick] terminates within its fuel, and the plan it returns is the closure
    of the oldest level-0 table under overlap: exactly the tables of levels 0
    and 1 that overlap the range of the plan. *)

From S2P Require Import Prelude InternalKey Codec Loops Files Wal MvccStore SSTable SSTableWriter SSTableReader MemTable Merge Manifest ManifestCodec ManifestVersion ManifestApply ManifestProps ManifestStore Compaction.
Import manifest version compaction.

(** ** Ranges *)

Lemma bytes_le_trans a b c : ~ bytes_lt b a -> ~ bytes_lt c b -> ~ bytes_lt c a.
Proof. intros H1 H2 H3. apply H2. by eapply bytes_lt_le_trans. Qed.
(** [b] includes [a]. *)
Definition wider (a b : bytes * bytes) : Prop := ~ bytes_lt a.1 b.1 /\ ~ bytes_lt b.2 a.2.
Definition ordered (range : bytes * bytes) : Prop := ~ bytes_lt range.2 range.1.
Definition covers (range : bytes * bytes) (t : TableMetadata) : bool := rangesOverlap range.1 range.2 (SmallestUser t) (LargestUser t).
#[local] Instance wider_refl : Reflexive wider.
Proof. intros [a b]. split; cbn; apply irreflexivity, _. Qed.
#[local] Instance wider_trans : Transitive wider.
Proof. intros a b c [H1 H2] [H3 H4]. split; [by apply (bytes_le_trans _ b.1)|by apply (bytes_le_trans _ b.2)]. Qed.
Lemma covers_iff range t : covers range t = true <-> ~ bytes_lt (LargestUser t) range.1 /\ ~ bytes_lt range.2 (SmallestUser t).
Proof. unfold covers, rangesOverlap. by rewrite andb_true_iff, !bytes_leb_lt. Qed.
Lemma covers_wider a b t : wider a b -> covers a t = true -> covers b t = true.
Proof. rewrite !covers_iff. intros [H1 H2] [H3 H4]. split; [by apply (bytes_le_trans _ a.1)|by apply (bytes_le_trans _ a.2)]. Qed.
Lemma expand_wider range t : wider range (expandRange range t).
Proof.
  unfold expandRange. split; cbn.
  - destruct (bytes_ltb _ _) eqn:H; [|apply irreflexivity, _]. apply bytes_ltb_lt in H. intros H'. by apply (irreflexivity bytes_lt range.1); transitivity (SmallestUser t).
  - destruct (bytes_ltb _ _) eqn:H; [|apply irreflexivity, _]. apply bytes_ltb_lt in H. intros H'. by apply (irreflexivity bytes_lt range.2); transitivity (LargestUser t).
Qed.
Lemma wider_ordered a b : wider a b -> ordered a -> ordered b.
Proof. intros [H1 H2] Ho. apply (bytes_le_trans _ a.1); [done|]. by apply (bytes_le_trans _ a.2). Qed.
Lemma covers_self range t : bounded_table t -> wider (SmallestUser t, LargestUser t) range -> covers range t = true.
Proof. intros Hb [H1 H2]. cbn in *. apply covers_iff. split; [by apply (bytes_le_trans _ (SmallestUser t))|by apply (bytes_le_trans _ (LargestUser t))]. Qed.

(** ** One pass *)

Definition unselected (files : gset Z) (ts : list TableMetadata) : nat := length (filter (fun t => FileNumber t ∉ files) ts).
Lemma unselected_cons files t ts : unselected files (t :: ts) = if bool_decide (FileNumber t ∈ files) then unselected files ts else S (unselected files ts).
Proof. unfold unselected. rewrite filter_cons. by repeat case_bool_decide; case_decide. Qed.
Arguments unselected : simpl never.
Lemma unselected_mono files files' ts : files ⊆ files' -> (unselected files' ts <= unselected files ts)%nat.
Proof. intros Hs. induction ts as [|t ts IH]; [done|]. rewrite !unselected_cons. repeat case_bool_decide; [lia..|set_solver|lia]. Qed.

(** What a pass over [ts] does to the selection. *)
Record passed (ts : list TableMetadata) (s s' : selection) : Prop := {
  pa_files : sel_files s ⊆ sel_files s';
  pa_range : wider (sel_range s) (sel_range s');
  pa_new : forall t, t ∈ ts -> FileNumber t ∈ sel_files s' -> FileNumber t ∈ sel_files s \/ covers (sel_range s') t = true;
  pa_own : forall n, n ∈ sel_files s' -> n ∈ sel_files s \/ n ∈ FileNumber <$> ts;
  pa_same : sel_changed s' = false -> s' = s /\ forall t, t ∈ ts -> FileNumber t ∈ sel_files s \/ covers (sel_range s) t = false;
  pa_changed : sel_changed s = true -> sel_changed s' = true;
  pa_less : sel_changed s = false -> sel_changed s' = true -> (unselected (sel_files s') ts < unselected (sel_files s) ts)%nat
}.
Lemma select_pass ts : NoDup (FileNumber <$> ts) -> forall s, passed ts s (foldl select s ts).
Proof.
  induction ts as [|t ts IH]; intros Hnd s.
  { cbn. split; try done; [set_solver|set_solver| |congruence]. intros _. split; [done|]. by intros t ?%not_elem_of_nil. }
  cbn [fmap list_fmap] in Hnd. apply NoDup_cons in Hnd as [Hni Hnd]. destruct s as [files range changed]. cbn [foldl select].
  destruct (negb _ && _) eqn:Hsel.
  - apply andb_prop in Hsel as [Hn%negb_true_iff%bool_decide_eq_false_1 Hcov]. fold (covers range t) in Hcov.
    destruct (IH Hnd (mkSelection ({[FileNumber t]} ∪ files) (expandRange range t) true)) as [H1 H2 H3 H4 H5 H6 H7]. cbn in *.
    assert (wider range (sel_range (foldl select (mkSelection ({[FileNumber t]} ∪ files) (expandRange range t) true) ts))) as Hw by (etrans; [apply expand_wider|done]).
    split; cbn.
    + set_solver.
    + done.
    + intros t' [->|Ht']%elem_of_cons Hin; [right; by eapply covers_wider|]. destruct (H3 t' Ht' Hin) as [[Heq%elem_of_singleton|?]%elem_of_union|?]; [|by left|by right].
      destruct Hni. rewrite <- Heq. by apply list_elem_of_fmap_2.
    + intros n Hin. destruct (H4 n Hin) as [[->%elem_of_singleton|?]%elem_of_union|?]; [right; left|by left|right; by right].
    + intros Hc. by rewrite H6 in Hc.
    + auto.
    + intros -> _. rewrite !unselected_cons, (bool_decide_eq_true_2 (FileNumber t ∈ sel_files _)), bool_decide_eq_false_2 by set_solver.
      apply Nat.lt_succ_r, unselected_mono. set_solver.
  - destruct (IH Hnd (mkSelection files range changed)) as [H1 H2 H3 H4 H5 H6 H7]. cbn in *. split; cbn; try done.
    + intros t' [->|Ht']%elem_of_cons Hin; [|by apply H3]. destruct (H4 _ Hin) as [?|?]; [by left|done].
    + intros n Hin. destruct (H4 n Hin) as [?|?]; [by left|right; by right].
    + intros Hc. destruct (H5 Hc) as [-> Hall]. split; [done|]. intros t' [->|Ht']%elem_of_cons; [|by apply Hall].
      apply andb_false_iff in Hsel as [Hs|Hs]; [left|by right]. apply negb_false_iff, bool_decide_eq_true_1 in Hs. done.
    + intros Hc Hc'. specialize (H7 Hc Hc'). rewrite !unselected_cons. repeat case_bool_decide; try lia. exfalso. naive_solver.
Qed.

(** ** The loop *)

Section loop.
Context (source target : list TableMetadata) (Hsource : NoDup (FileNumber <$> source)) (Htarget : NoDup (FileNumber <$> target)).

(** The selection is among the tables, and what is selected overlaps. *)
Definition selected_ok (ts : list TableMetadata) (files : gset Z) (range : bytes * bytes) : Prop :=
  (forall n, n ∈ files -> n ∈ FileNumber <$> ts) /\ forall t, t ∈ ts -> FileNumber t ∈ files -> covers range t = true.
Lemma pass_selected ts s s' : passed ts s s' -> selected_ok ts (sel_files s) (sel_range s) -> selected_ok ts (sel_files s') (sel_range s').
Proof using.
  intros [_ Hr Hn Ho _ _ _] [H1 H2]. split.
  - intros n Hin. destruct (Ho n Hin); auto.
  - intros t Ht Hin. destruct (Hn t Ht Hin) as [Hs|]; [|done]. eapply covers_wider; [done|by apply H2].
Qed.
Lemma selected_wider ts files a b : wider a b -> selected_ok ts files a -> selected_ok ts files b.
Proof using. intros Hw [H1 H2]. split; [done|]. intros t Ht Hin. eapply covers_wider; [done|by apply H2]. Qed.

Lemma select_loop_spec fuel : forall ss st range, selected_ok source ss range -> selected_ok target st range ->
  (unselected ss source + unselected st target < fuel)%nat ->
  exists ss' st' range', select_loop fuel source target ss st range = Some (ss', st', range') /\ ss ⊆ ss' /\ wider range range' /\
    selected_ok source ss' range' /\ selected_ok target st' range' /\
    (forall t, t ∈ source -> covers range' t = true -> FileNumber t ∈ ss') /\ (forall t, t ∈ target -> covers range' t = true -> FileNumber t ∈ st').
Proof using Hsource Htarget.
  induction fuel as [|fuel IH]; intros ss st range Hs Ht Hf; [lia|]. cbn [select_loop].
  pose proof (select_pass source Hsource (mkSelection ss range false)) as Hp1. destruct (foldl select (mkSelection ss range false) source) as [ss1 range1 changed1].
  pose proof (select_pass target Htarget (mkSelection st range1 changed1)) as Hp2. destruct (foldl select (mkSelection st range1 changed1) target) as [st1 range2 changed2].
  pose proof (pass_selected _ _ _ Hp1 Hs) as Hs1. pose proof (selected_wider _ _ _ _ (pa_range _ _ _ Hp1) Ht) as Ht1. cbn in Ht1.
  pose proof (pass_selected _ _ _ Hp2 Ht1) as Ht2. pose proof (selected_wider _ _ _ _ (pa_range _ _ _ Hp2) Hs1) as Hs2. cbn in *.
  destruct Hp1 as [Hf1 Hr1 _ _ Hsame1 _ Hless1], Hp2 as [Hf2 Hr2 _ _ Hsame2 Hch2 Hless2]. cbn in *. destruct changed2.
  - destruct (IH ss1 st1 range2 Hs2 Ht2) as (ss' & st' & range' & He & Hss & Hw & Hrest).
    + pose proof (unselected_mono ss ss1 source Hf1). pose proof (unselected_mono st st1 target Hf2). destruct changed1; [specialize (Hless1 eq_refl eq_refl)|specialize (Hless2 eq_refl eq_refl)]; lia.
    + exists ss', st', range'. split; [done|]. split; [by etrans|]. split; [by do 2 etrans|done].
  - destruct (Hsame2 eq_refl) as [E2 Hall2]. injection E2 as ? ? ?. subst. destruct (Hsame1 eq_refl) as [E1 Hall1]. injection E1 as ? ?. subst.
    eexists _, _, _. split; [reflexivity|]. split_and!; [done..| |].
    + intros t Hin Hc. destruct (Hall1 t Hin) as [?|?]; [done|congruence].
    + intros t Hin Hc. destruct (Hall2 t Hin) as [?|?]; [done|congruence].
Qed.
End loop.

(** ** The plan *)

Section plan.
Context (v : Version) (Hv : version_ok v).
Lemma level_lookup (i : nat) : (i < 8)%nat -> levels v !! i = Some (level_of (Z.of_nat i) v).
Proof using Hv.
  intros Hi. unfold level_of. rewrite Nat2Z.id. destruct (lookup_lt_is_Some_2 (levels v) i) as [l Hl]; [pose proof (vo_levels _ Hv) as H; unfold len in H; lia|]. by rewrite Hl.
Qed.
Lemma level_tables (i : nat) t : (i < 8)%nat -> t ∈ level_of (Z.of_nat i) v -> live_ok v t /\ Level t = Z.of_nat i /\ bounded_table t.
Proof using Hv.
  intros Hi Ht. pose proof (level_lookup i Hi) as Hl. pose proof (level_live i _ v Hl t Ht) as Hlive. pose proof (vo_tables _ Hv) as Hf. rewrite Forall_forall in Hf.
  specialize (Hf t Hlive). split; [done|]. split; [by eapply vo_placed|]. destruct Hf as (_ & Hval%validateTable_ok & _). unfold bounded_table. naive_solver.
Qed.
Lemma files_of_level (i : nat) : (i < 8)%nat -> files_of (Z.of_nat i) v = Ok (level_of (Z.of_nat i) v).
Proof using Hv.
  intros Hi. unfold files_of, Files, MaxLevels. rewrite (proj2 (Z.leb_gt _ _)) by lia. rewrite cloneTables_id; [done|].
  apply Forall_forall. intros t Ht. by destruct (level_tables i t Hi Ht) as ((? & _) & _).
Qed.
Lemma files_of_0 : files_of 0 v = Ok (level_of 0 v).
Proof using Hv. apply (files_of_level 0). lia. Qed.
Lemma files_of_1 : files_of 1 v = Ok (level_of 1 v).
Proof using Hv. apply (files_of_level 1). lia. Qed.
Lemma level_distinct (i : nat) : (i < 8)%nat -> NoDup (FileNumber <$> level_of (Z.of_nat i) v).
Proof using Hv. intros Hi. eapply distinct_level; [apply Hv|by apply level_lookup]. Qed.
Lemma Contains_level (i : nat) t : (i < 8)%nat -> t ∈ level_of (Z.of_nat i) v -> Contains t v = true.
Proof using Hv.
  intros Hi Ht. destruct (level_tables i t Hi Ht) as (_ & Hlev & _). unfold Contains, MaxLevels. rewrite Hlev, (proj2 (Z.leb_gt _ _)) by lia.
  destruct (findFile _ _) as [k|] eqn:Hf.
  - apply findFile_Some in Hf as (t' & Hk & Hn). rewrite Hk. assert (t' = t) as ->; [|apply tableEqual_refl].
    pose proof (level_distinct i Hi) as Hnd. apply list_elem_of_lookup in Ht as [j Hj]. assert (k = j) as ->; [|congruence].
    eapply NoDup_lookup; [exact Hnd| |]; rewrite list_lookup_fmap; [by rewrite Hk; cbn; rewrite Hn|by rewrite Hj].
  - apply findFile_None in Hf. destruct Hf. by apply list_elem_of_fmap_2.
Qed.

(** The tables of levels 0 and 1 that overlap the range of a plan. *)
Definition closed_plan (p : Plan) : Prop :=
  SourceInputs p = filter (fun t => covers (p_SmallestUser p, p_LargestUser p) t = true) (level_of 0 v) /\
  TargetInputs p = filter (fun t => covers (p_SmallestUser p, p_LargestUser p) t = true) (level_of 1 v).
Lemma filter_selected ts files range : selected_ok ts files range -> (forall t, t ∈ ts -> covers range t = true -> FileNumber t ∈ files) ->
  filter (fun t => FileNumber t ∈ files) ts = filter (fun t => covers range t = true) ts.
Proof using. intros [_ H1] H2. apply filter_iff_Forall, Forall_forall. naive_solver. Qed.

Lemma Validate_closed p : closed_plan p -> SourceLevel p = 0 -> TargetLevel p = 1 -> SourceInputs p <> [] -> ~ bytes_lt (p_LargestUser p) (p_SmallestUser p) ->
  Validate p v = Ok tt.
Proof using Hv.
  intros [Hs Ht] H0 H1 Hne Hr. unfold Validate. rewrite H0, H1, (proj2 (Z.eqb_neq (len _) 0)), (proj2 (bytes_leb_lt _ _) Hr) by (destruct (SourceInputs p); [done|unfold len; cbn; lia]).
  cbn [Z.eqb negb orb]. set (range := (p_SmallestUser p, p_LargestUser p)) in *. fold (covers range).
  assert (forall t, rangesOverlap (p_SmallestUser p) (p_LargestUser p) (SmallestUser t) (LargestUser t) = covers range t) as Hc by done.
  rewrite (proj2 (forallb_forall _ (Inputs p))).
  2: { intros t Hin%list_elem_of_In. unfold Inputs in Hin. rewrite Hs, Ht in Hin. rewrite Hc. apply andb_true_iff.
       apply elem_of_app in Hin as [[? ?]%list_elem_of_filter|[? ?]%list_elem_of_filter]; (split; [|done]); [by apply (Contains_level 0); [lia|]|by apply (Contains_level 1); [lia|]]. }
  cbn [require mbind result_bind]. rewrite files_of_0, files_of_1. cbn [mbind result_bind].
  assert (forall t, t ∈ level_of 0 v \/ t ∈ level_of 1 v -> covers range t = true -> FileNumber t ∈ list_to_set (C := gset Z) (FileNumber <$> Inputs p)) as Hin.
  { intros t Hor Hcov. apply elem_of_list_to_set, list_elem_of_fmap_2. unfold Inputs. rewrite Hs, Ht. apply elem_of_app. destruct Hor; [left|right]; by apply list_elem_of_filter. }
  assert (forall ts, (forall t, t ∈ ts -> t ∈ level_of 0 v \/ t ∈ level_of 1 v) -> forallb (fun t => negb (rangesOverlap (p_SmallestUser p) (p_LargestUser p) (SmallestUser t) (LargestUser t)) || bool_decide (FileNumber t ∈ list_to_set (C := gset Z) (FileNumber <$> Inputs p))) ts = true) as Hall.
  { intros ts Hts. apply forallb_forall. intros t Hint%list_elem_of_In. rewrite Hc. destruct (covers range t) eqn:E; [|done]. apply bool_decide_eq_true_2, Hin; auto. }
  rewrite !Hall by auto. done.
Qed.

(** [Pick], at or above the trigger; the last table of level 0 is the oldest. *)
Lemma Pick_plan trigger seed : 0 < trigger -> trigger <= len (level_of 0 v) -> level_of 0 v !! (length (level_of 0 v) - 1)%nat = Some seed ->
  exists p, Pick trigger v = Ok (Some p) /\ closed_plan p /\ Validate p v = Ok tt /\ seed ∈ SourceInputs p.
Proof using Hv.
  intros Ht Hlen Hseed. unfold Pick. rewrite (proj2 (Z.eqb_neq trigger 0)), (proj2 (Z.ltb_ge trigger 1)) by lia. rewrite files_of_0, files_of_1. cbn [mbind result_bind].
  rewrite (proj2 (Z.ltb_ge _ _)), Hseed by lia. set (source := level_of 0 v) in *. set (target := level_of 1 v).
  pose proof (list_elem_of_lookup_2 _ _ _ Hseed) as Hin. destruct (level_tables 0 seed ltac:(lia) Hin) as (_ & _ & Hb).
  destruct (select_loop_spec source target (level_distinct 0 ltac:(lia)) (level_distinct 1 ltac:(lia)) (S (length source + length target)) {[FileNumber seed]} ∅
    (SmallestUser seed, LargestUser seed)) as (ss & st & range & -> & Hss & Hw & Hs & Htt & Hcs & Hct).
  - split; [intros n ->%elem_of_singleton; by apply list_elem_of_fmap_2|]. intros t Htin Hn%elem_of_singleton. assert (t = seed) as ->; [|by apply covers_self].
    apply list_elem_of_lookup in Htin as [j Hj]. assert (j = (length source - 1)%nat) as ->; [|congruence].
    apply (NoDup_lookup (FileNumber <$> source) _ _ (FileNumber seed)); [exact (level_distinct 0 ltac:(lia))| |]; rewrite list_lookup_fmap; [rewrite Hj; cbn; by rewrite Hn|by rewrite Hseed].
  - split; [set_solver|]. intros t _ Hn. by apply not_elem_of_empty in Hn.
  - assert (forall f ts, unselected f ts <= length ts)%nat as Hun by (intros; apply length_filter). pose proof (Hun {[FileNumber seed]} source). pose proof (Hun ∅ target). lia.
  - cbn [mbind result_bind]. rewrite (filter_selected source ss range), (filter_selected target st range) by done. set (p := mkPlan _ _ _ _ _ _ _).
    assert (closed_plan p) as Hcl by (destruct range; done). assert (seed ∈ SourceInputs p) as Hsp.
    { apply list_elem_of_filter. split; [by apply covers_self|done]. }
    assert (Validate p v = Ok tt) as Hval; [|rewrite Hval; by exists p]. apply Validate_closed; [done..| |].
    + intros Hnil. rewrite Hnil in Hsp. by apply not_elem_of_nil in Hsp.
    + by apply (wider_ordered _ _ Hw).
Qed.
End plan.

(** C40. Selection of compaction work.  On a reachable version [Pick] ends
    within its fuel.  Below the trigger it selects nothing; otherwise it
    returns a valid plan that holds the oldest level-0 table and is closed
    under overlap: its inputs are exactly the tables of levels 0 and 1 that
    overlap its key range, so no older version of a key stays above or beside
    the outputs. *)
Theorem pick_closed v trigger : version_ok v -> 0 < trigger ->
  match Pick trigger v with
  | Ok None => len (level_of 0 v) < trigger
  | Ok (Some p) => trigger <= len (level_of 0 v) /\ closed_plan v p /\ Validate p v = Ok tt /\
      exists seed, level_of 0 v !! (length (level_of 0 v) - 1)%nat = Some seed /\ seed ∈ SourceInputs p
  | Err _ => False
  end.
Proof.
  intros Hv Ht. destruct (Z.lt_ge_cases (len (level_of 0 v)) trigger) as [Hlt|Hge].
  - unfold Pick. rewrite (proj2 (Z.eqb_neq trigger 0)), (proj2 (Z.ltb_ge trigger 1)) by lia. rewrite files_of_0, files_of_1 by done. cbn [mbind result_bind].
    by rewrite (proj2 (Z.ltb_lt _ _)).
  - destruct (lookup_lt_is_Some_2 (level_of 0 v) (length (level_of 0 v) - 1)) as [seed Hseed]; [unfold len in Hge; lia|].
    destruct (Pick_plan v Hv trigger seed Ht Hge Hseed) as (p & -> & Hc & Hval & Hin). split_and!; [done..|]. by exists seed.
Qed.

Module PlanExample.
Import EditExample VersionExample.
(** Table 5 is the oldest; 8 overlaps it, 6 overlaps 8 and 7 overlaps 6. *)
Definition tables : list TableMetadata :=
  [table 0 7 30 40 Byte.x61 Byte.x63; table 0 5 10 20 Byte.x65 Byte.x67; table 0 6 21 29 Byte.x62 Byte.x64; table 0 9 41 50 Byte.x78 Byte.x7a;
   table 1 8 5 9 Byte.x64 Byte.x66; table 1 4 0 4 Byte.x68 Byte.x69].
Definition flushes : VersionEdit := mkEdit None (Some 10) (Some 50) None None None None [] tables.
Definition version : Version := after flushes v1.
Lemma version_is_ok : version_ok version.
Proof.
  apply reachable_ok, (reach_apply v1 flushes); [apply v1_reachable| |vm_compute; reflexivity].
  split; cbn; try (by intros ? [= <-]); [done|]. unfold tables. rewrite !Forall_cons. split_and!; [by apply table_ok..|done].
Qed.
End PlanExample.

Lemma pick_closed_witness : exists p, Pick 4 PlanExample.version = Ok (Some p) /\ FileNumber <$> Inputs p = [7; 6; 5; 8] /\
  Validate p PlanExample.version = Ok tt.
Proof.
  pose proof (pick_closed PlanExample.version 4 PlanExample.version_is_ok eq_refl) as H.
  destruct (Pick 4 PlanExample.version) as [[p|]|e] eqn:Hp; [|exfalso; vm_compute in Hp; discriminate Hp..].
  exists p. split; [reflexivity|]. split; [|apply H]. vm_compute in Hp. injection Hp as <-. reflexivity.
Defined.
