(* ===== verification/CompactionBuild.v ===== *)
(** * The outputs of a compaction (storage/compaction/executor.go)

    What [buildOutputs] leaves: tables that hold exactly the merged entries,
    in order, no user key in two of them, under file numbers the version has
    never used. *)

From S2P Require Import Prelude InternalKey Files Wal Loops MvccStore SSTable SSTableBlock SSTableFormat SSTableWriter SSTableReader SSTableReads SSTableLayout SSTableRoundTrip SSTableOpen SSTableProps Manifest ManifestCodec ManifestVersion ManifestApply ManifestProps ManifestStore ManifestOpen ManifestDurable Merge MergeProofs MergeInputs Compaction.
Import manifest version store current compaction.
#[local] Arguments reader.FileName : simpl never.

(** ** Opening a file whose reads may fail *)

Section reopen.
Context (f : randomAccessFile).
Let whole : randomAccessFile := healthy (ra_bytes f).
Lemma healthy_reliable b : ~ faulty (healthy b).
Proof using. intros (o & n & H). done. Qed.
Lemma flaky_healthy {A} b (m m0 : result (list sstable.sst_error) A) : flaky (healthy b) m m0 -> m = m0.
Proof using. intros [?|[H _]]; [done|by destruct (healthy_reliable b)]. Qed.
Lemma readAtExact_healthy n o b : reader.readAtExact f n o = Ok b -> reader.readAtExact whole n o = Ok b.
Proof. intros H. apply (flaky_healthy (ra_bytes f)). by apply (readAtExact_flaky f). Qed.
Lemma readBlock_healthy h k e b : reader.readBlockUnlocked f h k e = Ok b -> reader.readBlockUnlocked whole h k e = Ok b.
Proof. intros H. apply (flaky_healthy (ra_bytes f)). by apply (readBlock_flaky f). Qed.
Lemma validate_blocks_healthy bloom index : forall s s', reader.validate_blocks f bloom s index = Ok s' -> reader.validate_blocks whole bloom s index = Ok s'.
Proof.
  induction index as [|ie index IH]; intros s s'; cbn [reader.validate_blocks]; [done|]. intros (s1 & H1 & H2)%bind_ok.
  unfold reader.validate_block in *. apply bind_ok in H1 as (p & Hp & H1). rewrite (readBlock_healthy _ _ _ _ Hp). cbn [mbind result_bind].
  rewrite H1. by apply IH.
Qed.
Lemma openReader_healthy size base maxIndex r : reader.openReader f size base maxIndex = Ok r ->
  reader.openReader whole size base maxIndex = Ok (with_file whole r).
Proof.
  unfold reader.openReader. intros H. ok_inv H. apply Ok_inj in H as <-.
  repeat match goal with
  | E : reader.readAtExact f _ _ = Ok _ |- _ => apply readAtExact_healthy in E; rewrite E; clear E
  | E : reader.readBlockUnlocked f _ _ _ = Ok _ |- _ => apply readBlock_healthy in E; rewrite E; clear E
  | E : ?x = Ok _ |- context [?x] => rewrite E; clear E
  | _ => progress cbn [mbind result_bind]
  end.
  destruct (sstable.Length (reader.f_filter _) =? 0).
  1: apply Ok_inj in Hx10 as <-. 2: apply bind_ok in Hx10 as (p & ->%readBlock_healthy & Hx10); cbn [mbind result_bind]; rewrite Hx10.
  all: cbn [mbind result_bind]; unfold reader.validateDataStream in *; apply bind_ok in Hx12 as (s & ->%validate_blocks_healthy & Hx12);
    cbn [mbind result_bind]; by rewrite Hx12.
Qed.
Lemma table_ok_healthy r bs : reader.rd_file r = f -> table_ok r bs -> table_ok (with_file whole r) bs.
Proof.
  intros Hf [H1 H2 H3 H4 H5 H6 H7 H8]. split; try done. cbn. eapply Forall2_impl; [exact H1|]. intros ie b [Hr Hd Hl]. rewrite Hf in Hr.
  split; [by apply readBlock_healthy|done|done].
Qed.
Lemma contents_healthy size base maxIndex r : reader.openReader f size base maxIndex = Ok r -> table_contents (with_file whole r) = table_contents r.
Proof.
  intros (bs & Hok & Hf & _)%openReader_ok. by rewrite (table_contents_ok r bs), (table_contents_ok _ bs (table_ok_healthy r bs Hf Hok)).
Qed.
End reopen.

Section output.
Context `{HP : writer.Publication} {Laws : FileLaws}.
(** A finished table that opens holds what was added. *)
Lemma opened_output number interval bloom l w w' meta g r : 1 <= number <= sstable.MaxFileNumber -> holds number interval bloom l w ->
  writer.Finish w = (w', Ok meta) -> ra_bytes g = contents (writer.file w') ->
  reader.openReader g (len (ra_bytes g)) (reader.FileName number) 0 = Ok r ->
  table_contents r = l /\ exists gs fp, concat gs = l /\ groups_ok interval bloom gs fp /\ meta = metadata_of number gs (len (table_image interval gs fp)).
Proof.
  intros Hn Hh Hfin Hb Hr. destruct (Finish_spec number interval bloom w l w' meta Hh Hfin) as (gs & fp & Hcc & Hok & Hc & _ & Hm).
  split; [|by exists gs, fp]. rewrite <- (contents_healthy g _ _ _ _ Hr). apply openReader_healthy in Hr. rewrite Hb, Hc in *.
  pose proof (open_image _ _ _ _ Hok (reader.FileName number) 0 ltac:(done)) as Ho. cbv zeta in Ho. destruct (_ <=? _).
  - destruct Ho as (r' & Hr' & Hrf & Hri & _). rewrite Hr' in Hr. apply Ok_inj in Hr as <-. destruct (openReader_ok _ _ _ _ _ Hr') as (bs & Ht & _).
    rewrite <- Hcc. by apply (image_contents _ _ _ _ Hok r' bs).
  - rewrite Ho in Hr. done.
Qed.
End output.

(** ** The store during a compaction *)

(** The entries of a table, by its number, and of all live tables: those its
    bytes hold, whatever reads of it fail. *)
Definition stored (directory : bytes -> opened) (number : Z) : MvccStore.store :=
  match open_number directory number with Ok r => table_contents (with_file (healthy (ra_bytes (reader.rd_file r))) r) | Err _ => [] end.
Definition version_entries (directory : bytes -> opened) (v : Version) : MvccStore.store := concat (stored directory <$> (FileNumber <$> live v)).
(** Every user key of [l] is below every one of [l']. *)
Definition users_below (l l' : MvccStore.store) : Prop := forall e e', e ∈ l -> e' ∈ l' -> bytes_lt (userKey e.1) (userKey e'.1).
Fixpoint separated (ls : list MvccStore.store) : Prop := match ls with [] => True | l :: ls => users_below l (concat ls) /\ separated ls end.

Lemma FileName_inj m n : 1 <= m <= sstable.MaxFileNumber -> 1 <= n <= sstable.MaxFileNumber -> reader.FileName m = reader.FileName n -> m = n.
Proof. intros Hm Hn H. by rewrite <- (parse_FileName m Hm), H, parse_FileName. Qed.
Lemma stored_ext directory directory' n : directory (reader.FileName n) = directory' (reader.FileName n) -> stored directory n = stored directory' n.
Proof. unfold stored, open_number. by intros ->. Qed.
Lemma place_same name o directory : place name o directory name = o.
Proof. unfold place. by rewrite bytes_eqb_refl. Qed.
Lemma place_other name o directory other : other <> name -> place name o directory other = directory other.
Proof. intros H. unfold place. destruct (bytes_eqb other name) eqn:E; [|done]. by apply bytes_eqb_eq in E. Qed.
Lemma separated_app ls ls' : separated (ls ++ ls') <-> separated ls /\ separated ls' /\ users_below (concat ls) (concat ls').
Proof.
  induction ls as [|l ls IH]; cbn [app separated concat].
  - split; [|naive_solver]. intros H. split_and!; [done..|]. intros e e' He. by apply not_elem_of_nil in He.
  - rewrite IH. unfold users_below. setoid_rewrite concat_app. setoid_rewrite elem_of_app. naive_solver.
Qed.

Section frame.
Context `{HP : writer.Publication} {Laws : FileLaws}.
Context (afterDurable : Version -> bool) (s0 : Store) (directory0 : bytes -> opened).
Abbreviation v0 := (st_current s0).
(** The version and the tables it names are as they were. *)
Record framed (s : Store) (directory : bytes -> opened) : Prop := {
  fr_store : exists ps v, store_inv s ps v;
  fr_live : live (st_current s) ≡ₚ live v0;
  fr_next : nextFileNumber v0 <= nextFileNumber (st_current s);
  fr_directory : forall n, 1 <= n <= sstable.MaxFileNumber -> n < nextFileNumber v0 -> directory (reader.FileName n) = directory0 (reader.FileName n)
}.
Lemma framed_ok s directory : framed s directory -> version_ok (st_current s).
Proof using. intros [(ps & v & Hi) _ _ _]. apply Hi. Qed.
Lemma framed_place s directory n o : framed s directory -> 1 <= n <= sstable.MaxFileNumber -> nextFileNumber v0 <= n ->
  framed s (place (reader.FileName n) o directory).
Proof using.
  intros [H1 H2 H3 H4] Hn Hnew. split; [done..|]. intros m Hm Hlt. rewrite place_other; [by apply H4|]. intros Heq%FileName_inj; [lia|done..].
Qed.
Lemma AllocateFileNumber_framed ctx s directory s' r : framed s directory -> AllocateFileNumber afterDurable ctx s = (s', r) ->
  framed s' directory /\
  match r with
  | Ok n => 1 <= n <= sstable.MaxFileNumber /\ n = nextFileNumber (st_current s) /\ nextFileNumber (st_current s') = n + 1
  | Err _ => nextFileNumber (st_current s') = nextFileNumber (st_current s)
  end.
Proof using Laws.
  intros Hfr. pose proof (framed_ok _ _ Hfr) as Hv. pose proof Hfr as [(ps & v & Hi) Hl Hn Hd]. unfold AllocateFileNumber.
  destruct (check_context ctx); [|by intros [= <- <-]]. destruct (st_closed s); [by intros [= <- <-]|].
  destruct (_ || _) eqn:Hnum; [by intros [= <- <-]|]. apply orb_false_iff in Hnum as [Hne%Z.eqb_neq Hmax%Z.ltb_ge].
  pose proof (si_next _ (vo_scalars _ Hv)) as Hpos. set (n := nextFileNumber (st_current s)) in *.
  assert (u64 (n + 1) = n + 1) as Hu by (apply u64_id; unfold is_u64, sstable.MaxFileNumber in *; lia).
  assert (edit_wf (mkEdit None (Some (u64 (n + 1))) None None None None None [] [])) as Hwf by apply number_edit_wf, u64_range.
  destruct (installLocked _ _ _) as [s1 r1] eqn:Hin. destruct (installLocked_inv afterDurable _ s s1 r1 ps v Hi Hwf Hin) as [Hi' Hr].
  destruct r1 as [u|err]; intros [= <- <-]; [|rewrite Hr; split; [split; rewrite ?Hr|]; done].
  destruct Hr as [Ha _]. pose proof (edit_applied _ _ _ Hv Hwf Ha) as Happ. destruct (ap_next _ _ _ Happ) as [Hnext _]. cbn in Hnext. rewrite Hu in Hnext.
  apply apply_parts in Ha as (_ & Hf & _); [|done..]. pose proof (next_live _ _ _ Hwf Hf (vo_levels _ Hv) (ap_levels _ _ _ Happ)) as Hlive. cbn in Hlive.
  rewrite app_nil_r, filter_all in Hlive.
  - split; [split; [done|by rewrite Hlive|lia|done]|lia].
  - apply Forall_forall. intros t _ Ht. by apply not_elem_of_nil in Ht.
Qed.
End frame.

(** ** One output *)

Lemma NewTableMetadata_inv level job smallest largest meta t : NewTableMetadata level job smallest largest meta = Ok t ->
  is_u32 level -> is_u64 job -> is_u64 smallest -> is_u64 largest ->
  Forall is_u64 [writer.FileNumber meta; writer.FileSize meta; writer.EntryCount meta; writer.DeletionCount meta; writer.RawKeyValueBytes meta] ->
  is_u32 (writer.DataBlockCount meta) -> key_wf (writer.SmallestInternal meta) -> key_wf (writer.LargestInternal meta) ->
  table_wf t /\ Level t = level /\ FileNumber t = writer.FileNumber meta /\ SmallestSequence t = smallest /\ LargestSequence t = largest /\
  SmallestInternal t = writer.SmallestInternal meta /\ LargestInternal t = writer.LargestInternal meta.
Proof.
  unfold NewTableMetadata. intros Ht Hl Hj Hs Hg Hm Hb Hk1 Hk2. apply bind_ok in Ht as ([] & _ & Ht). rewrite !Forall_cons in Hm.
  match type of Ht with cloneTable ?x = _ => assert (table_wf x) as Hx end.
  { split; cbn; [done|rewrite !Forall_cons; tauto|done|tauto|done]. }
  rewrite cloneTable_id in Ht by done. injection Ht as <-. done.
Qed.
Lemma metadata_u64 number interval bloom gs fp : 1 <= number <= sstable.MaxFileNumber -> groups_ok interval bloom gs fp ->
  let meta := metadata_of number gs (len (table_image interval gs fp)) in
  Forall is_u64 [writer.FileNumber meta; writer.FileSize meta; writer.EntryCount meta; writer.DeletionCount meta; writer.RawKeyValueBytes meta] /\
  is_u32 (writer.DataBlockCount meta) /\ key_wf (writer.SmallestInternal meta) /\ key_wf (writer.LargestInternal meta).
Proof.
  intros Hn Hok meta. pose proof (go_count _ _ _ _ Hok) as Hc. pose proof (go_raw _ _ _ _ Hok) as Hr. pose proof (go_size _ _ _ _ Hok) as Hs.
  pose proof (deletions_le (concat gs)). pose proof (raw_size_nonneg (concat gs)). pose proof (len_nonneg (table_image interval gs fp)).
  pose proof (go_nonempty _ _ _ _ Hok) as Hne. pose proof (go_entries _ _ _ _ Hok) as Ha.
  destruct (accepted_first _ Hne Ha) as (e & He & Hf). destruct (accepted_last _ Hne Ha) as (x & Hx & Hl).
  change MaxUint64 with (2 ^ 64 - 1) in *. change sstable.MaxTableSize with (2 ^ 63 - 1) in *. unfold sstable.MaxFileNumber in Hn.
  split; [|split; [|split]]; cbn [writer.FileNumber writer.FileSize writer.EntryCount writer.DeletionCount writer.RawKeyValueBytes
    writer.DataBlockCount writer.SmallestInternal writer.LargestInternal meta metadata_of].
  - rewrite !Forall_cons. unfold is_u64. repeat split; try lia; try constructor. 
  - unfold is_u32, u32. apply Z.mod_pos_bound. lia.
  - rewrite Hf. apply He.
  - rewrite Hl. apply Hx.
Qed.

Lemma Forall2_weaken {A B} (P Q : A -> B -> Prop) l k : Forall2 P l k -> (forall x y, x ∈ l -> P x y -> Q x y) -> Forall2 Q l k.
Proof.
  induction 1 as [|x y l k Hxy Hlk IH]; intros HPQ; constructor; [apply HPQ; [left|done]|]. apply IH. intros x' y' Hx. apply HPQ. by right.
Qed.
(** ** The order of the entries *)

Abbreviation weakly_sorted := (StronglySorted (fun x y : entry => key_le x.1 y.1)).
Lemma key_le_user (x y : entry) : key_le x.1 y.1 -> ~ bytes_lt (userKey y.1) (userKey x.1).
Proof.
  unfold key_le, CompareInternal, bytes_lt. rewrite (bytes_compare_antisym (userKey x.1)). by destruct (bytes_compare _ _).
Qed.
(** The next entry has another user key than the last: the output may end. *)
Lemma users_switch (xs : MvccStore.store) e l : weakly_sorted (xs ++ [e]) -> list.last xs = Some l -> userKey l.1 <> userKey e.1 -> users_below xs [e].
Proof.
  intros Hs Hl Hne x e' Hx ->%list_elem_of_singleton. apply last_Some in Hl as [xs' ->]. apply StronglySorted_app in Hs as (Hle & Hs & _).
  assert (bytes_lt (userKey l.1) (userKey e.1)) as Hlt.
  { destruct (bytes_lt_cases (userKey l.1) (userKey e.1)) as [?|[?|Hgt]]; [done..|]. by apply key_le_user in Hgt; [|apply Hle; set_solver]. }
  apply StronglySorted_app in Hs as (Hs & _). apply elem_of_app in Hx as [Hx| ->%list_elem_of_singleton]; [|done].
  eapply bytes_le_lt_trans; [|exact Hlt]. apply key_le_user, Hs; set_solver.
Qed.
(** The next entry goes to the current output. *)
Lemma users_stay (ls : list MvccStore.store) (cur : MvccStore.store) e : cur <> [] -> weakly_sorted ((concat ls ++ cur) ++ [e]) -> users_below (concat ls) cur ->
  users_below (concat ls) (cur ++ [e]).
Proof.
  intros Hne Hs Hb x y Hx Hy. apply elem_of_app in Hy as [Hy| ->%list_elem_of_singleton]; [by apply Hb|].
  destruct cur as [|c cur]; [done|]. apply StronglySorted_app in Hs as (Hle & _). eapply bytes_lt_le_trans; [apply (Hb x c); [done|left]|].
  apply key_le_user, Hle; [|by left]. apply elem_of_app. right. left.
Qed.

Section build.
Context `{HP : writer.Publication} {Laws : FileLaws}.
Context (create : Z -> result (list sstable.sst_error) (File * writer.FS)) (image : Z -> File -> opened).
Context (blockSize restartInterval : Z) (bloom : bool) (TargetFileSize : Z) (cancelled : Z -> bool) (afterDurable : Version -> bool).
(** A created file is empty; opening a published file reads what was written. *)
Context (create_empty : forall n f s, create n = Ok (f, s) -> contents f = []).
Context (image_contents : forall n f g c, image n f = Opened g c -> ra_bytes g = contents f).
Context (s0 : Store) (directory0 : bytes -> opened) (job level : Z) (Hjob : is_u64 job) (Hlevel : is_u32 level).
Abbreviation framed := (framed s0 directory0).
Abbreviation finish := (finish image job level).

(** The table [t] is on disk and holds [l]. *)
Record output_ok (directory : bytes -> opened) (t : TableMetadata) (l : MvccStore.store) : Prop := {
  oo_wf : table_wf t;
  oo_level : Level t = level;
  oo_number : 1 <= FileNumber t <= sstable.MaxFileNumber /\ nextFileNumber (st_current s0) <= FileNumber t;
  oo_stored : stored directory (FileNumber t) = l;
  oo_nonempty : l <> [];
  oo_span : Forall (fun e => SmallestSequence t <= sequence e.1 <= LargestSequence t) l;
  oo_keys : SmallestInternal t = first_key l /\ LargestInternal t = last_key l
}.
Record outputs_ok (b : build) (ls : list MvccStore.store) : Prop := {
  ou_frame : framed (b_store b) (b_directory b);
  ou_tables : Forall2 (output_ok (b_directory b)) (b_outputs b) ls;
  ou_distinct : NoDup (FileNumber <$> b_outputs b);
  ou_below : Forall (fun t => FileNumber t < nextFileNumber (st_current (b_store b))) (b_outputs b);
  ou_separated : separated ls
}.
(** [cur] was added to the writer [w] of the table [n]. *)
Record writing (b : build) (cur : MvccStore.store) (w : writer.Writer) (n : Z) : Prop := {
  wi_holds : exists interval, holds n interval bloom cur w;
  wi_valid : 1 <= n <= sstable.MaxFileNumber;
  wi_new : nextFileNumber (st_current s0) <= n < nextFileNumber (st_current (b_store b));
  wi_fresh : n ∉ FileNumber <$> b_outputs b;
  wi_span : cur = [] /\ b_haveSeq b = false \/
    b_haveSeq b = true /\ is_u64 (b_smallestSeq b) /\ is_u64 (b_largestSeq b) /\ Forall (fun e => b_smallestSeq b <= sequence e.1 <= b_largestSeq b) cur
}.

Lemma output_place directory n o t l : output_ok directory t l -> 1 <= n <= sstable.MaxFileNumber -> n <> FileNumber t ->
  output_ok (place (reader.FileName n) o directory) t l.
Proof using.
  intros [Hwf Hlv Hnum Hst Hne Hsp Hk] Hn Hneq. split; try done. rewrite <- Hst. apply stored_ext, place_other. intros Heq%FileName_inj; [by apply Hneq|apply Hnum|done].
Qed.
Lemma finish_spec b ls cur w n b' err : outputs_ok b ls -> b_writer b = Some w -> writing b cur w n -> users_below (concat ls) cur -> finish b = (b', err) ->
  match err with
  | None => outputs_ok b' (ls ++ [cur]) /\ b_writer b' = None /\ b_haveSeq b' = false /\ b_lastUser b' = b_lastUser b /\ b_previous b' = b_previous b
  | Some _ => framed (b_store b') (b_directory b')
  end.
Proof using Laws Hjob Hlevel image_contents.
  destruct b as [s directory outputs w0 logical entries total smallest largest have lastUser previous].
  cbn beta iota zeta delta [compaction.finish b_store b_directory b_outputs b_writer b_haveSeq b_smallestSeq b_largestSeq b_lastUser b_previous].
  intros [Hfr Ht Hnd Hbe Hse] -> [(interval & Hh) Hv Hnew Hfresh Hspan] Hbelow. cbn in *. destruct (writer.Finish w) as [w' [meta|e]] eqn:Hfin; [|by intros [= <- <-]].
  destruct (Finish_spec n interval bloom w cur w' meta Hh Hfin) as (gs0 & fp0 & _ & _ & _ & _ & Hm0).
  assert (writer.FileNumber meta = n) as -> by by rewrite Hm0. clear gs0 fp0 Hm0.
  set (directory' := place (reader.FileName n) (image n (writer.file w')) directory).
  assert (framed s directory') as Hfr' by (apply framed_place; [done|done|lia]).
  destruct (open_number directory' n) as [r|e] eqn:Ho; [|by intros [= <- <-]]. destruct (directory' (reader.FileName n)) as [| |g c] eqn:Hd.
  1-2: unfold open_number in Ho; rewrite Hd in Ho; done.
  destruct c; [by intros [= <- <-]|]. destruct (negb _); [by intros [= <- <-]|].
  destruct (NewTableMetadata level job smallest largest meta) as [t|e] eqn:Htab; [|by intros [= <- <-]]. intros [= <- <-]. cbn.
  split; [|done]. pose proof Ho as Hstored. unfold open_number in Ho. rewrite Hd in Ho. cbn in Ho. destruct (reader.openReader g _ _ _) as [r'|] eqn:Hr; [|done]. apply Ok_inj in Ho as <-.
  unfold directory' in Hd. rewrite place_same in Hd. apply image_contents in Hd.
  destruct (opened_output n interval bloom cur w w' meta g r' Hv Hh Hfin Hd Hr) as [Hcur (gs & fp & Hcc & Hok & Hm)].
  destruct (metadata_u64 n interval bloom gs fp Hv Hok) as (Hu & Hb32 & Hk1 & Hk2). rewrite <- Hm in *.
  assert (cur <> []) as Hne by (rewrite <- Hcc; apply Hok). destruct Hspan as [[? _]|(_ & Hus & Hul & Hspan)]; [done|].
  destruct (NewTableMetadata_inv _ _ _ _ _ _ Htab Hlevel Hjob Hus Hul Hu Hb32 Hk1 Hk2) as (Hwf & Hlv & Hnum & Hss & Hls & Hsi & Hli).
  assert (FileNumber t = n) as Htn by by rewrite Hnum, Hm. split; cbn.
  - done.
  - apply Forall2_app.
    + eapply Forall2_weaken; [exact Ht|]. intros t' l Hin Hoo. apply output_place; [done|done|]. intros ->. by apply Hfresh, list_elem_of_fmap_2.
    + constructor; [|constructor]. split; rewrite ?Htn, ?Hss, ?Hls, ?Hsi, ?Hli; try done; [split; [done|lia]|unfold stored; rewrite Hstored; etransitivity; [exact (contents_healthy g _ _ _ _ Hr)|done]|].
      rewrite Hm. cbn. by rewrite Hcc.
  - rewrite fmap_app. apply NoDup_app. split; [done|]. split; [|apply NoDup_singleton]. cbn. intros m Hm' ->%list_elem_of_singleton. by rewrite Htn in Hm'.
  - apply Forall_app. split; [done|]. constructor; [lia|constructor].
  - apply separated_app. split; [done|]. cbn. rewrite app_nil_r. split; [|done]. split; [|done]. intros e e' _ He'. by apply not_elem_of_nil in He'.
Qed.

(** ** The loop *)

(** The state of the loop once the entries [concat ls ++ cur] are written. *)
Record built (b : build) (ls : list MvccStore.store) (cur : MvccStore.store) : Prop := {
  bu_outputs : outputs_ok b ls;
  bu_writer : match b_writer b with
              | None => ls = [] /\ cur = [] /\ b_haveSeq b = false
              | Some w => cur <> [] /\ exists n, writing b cur w n
              end;
  bu_below : users_below (concat ls) cur;
  bu_last : match list.last (concat ls ++ cur) with
            | Some e => b_previous b = Some e.1 /\ b_lastUser b = userKey e.1
            | None => b_previous b = None
            end
}.
Lemma built_start s directory : framed s directory -> built (mkBuild s directory [] None 0 0 0 0 0 false [] None) [] [].
Proof using. intros Hfr. split; cbn; try done; [split; cbn; done || constructor|]. intros e e' He. by apply not_elem_of_nil in He. Qed.

Lemma add_entry_spec e b ls cur w n : outputs_ok b ls -> writing b cur w n -> users_below (concat ls) (cur ++ [e]) -> key_wf e.1 ->
  match add_entry e w b with
  | inl b' => built b' ls (cur ++ [e])
  | inr (b', _) => framed (b_store b') (b_directory b')
  end.
Proof using Laws.
  destruct b as [s directory outputs w0 logical entries total smallest largest have lastUser previous], e as [key value].
  intros [Hfr Ht Hnd Hbe Hse] [(interval & gs & gcur & Hw & Hcur) Hv Hnew Hfresh Hspan] Hbelow Hwf. cbn in *.
  destruct (writer.Add key value w) as [w' r] eqn:Hadd. apply (Add_spec n interval bloom w gs gcur) in Hadd; [|done|done]. rewrite Hcur in Hadd.
  destruct r as [u|err]; [|done]. destruct Hwf as [Hseq _]. assert (list.last (concat ls ++ cur ++ [(key, value)]) = Some (key, value)) as Hlast by by rewrite app_assoc, last_snoc.
  destruct (if negb have then _ else _) as [smallest' largest'] eqn:Hsl. split; cbn; rewrite ?Hlast; try done.
  split; [by destruct cur|]. exists n. split; cbn; try done; [by exists interval|]. right. split; [done|]. destruct Hspan as [[-> ->]|(-> & Hs & Hl & Hall)]; cbn in Hsl; injection Hsl as <- <-.
  - split; [done|]. split; [done|]. cbn. constructor; [cbn; lia|constructor].
  - unfold is_u64 in *. split; [lia|]. split; [lia|]. apply Forall_app. split; [|constructor; [cbn; lia|constructor]]. eapply Forall_impl; [exact Hall|]. cbn. lia.
Qed.
Lemma new_output_spec b ls : outputs_ok b ls -> b_haveSeq b = false ->
  match new_output create blockSize restartInterval bloom cancelled afterDurable b with
  | (b', Ok w) => outputs_ok b' ls /\ exists n, writing b' [] w n
  | (b', Err _) => framed (b_store b') (b_directory b')
  end.
Proof using Laws create_empty.
  destruct b as [s directory outputs w0 logical entries total smallest largest have lastUser previous]. intros [Hfr Ht Hnd Hbe Hse] Hhave. cbn in *.
  destruct (AllocateFileNumber _ _ _) as [s' r] eqn:Ha. destruct (AllocateFileNumber_framed _ _ _ _ _ _ _ _ Hfr Ha) as [Hfr' Hr].
  destruct r as [n|err]; [|done]. destruct Hr as (Hn & -> & Hnext). destruct (openOutput _ _ _ _ _) as [w|err] eqn:Hw; [|done].
  split.
  - split; cbn; try done. eapply Forall_impl; [exact Hbe|]. cbn. lia.
  - exists (nextFileNumber (st_current s)). unfold openOutput in Hw. destruct (_ || _); [done|]. apply bind_ok in Hw as ([size interval] & _ & Hw).
    apply bind_ok in Hw as ([f fs] & Hc & [= <-]). split; cbn; try done.
    + exists interval, [], []. split; [|done]. apply newWriter_written. by eapply create_empty.
    + pose proof (fr_next _ _ _ _ Hfr). lia.
    + intros Hin. apply list_elem_of_fmap in Hin as (t & Heq & Hin). rewrite Forall_forall in Hbe. specialize (Hbe t Hin). cbn in Hbe. lia.
    + by left.
Qed.

Abbreviation build_entry := (build_entry create image blockSize restartInterval bloom TargetFileSize cancelled afterDurable job level).
Lemma build_entry_spec b ls cur e : built b ls cur -> key_wf e.1 -> weakly_sorted ((concat ls ++ cur) ++ [e]) ->
  match build_entry b e with
  | inl b' => exists ls' cur', built b' ls' cur' /\ concat ls' ++ cur' = (concat ls ++ cur) ++ [e]
  | inr (b', _) => framed (b_store b') (b_directory b')
  end.
Proof using Laws Hjob Hlevel image_contents create_empty.
  intros [Hou Hwr Hbe Hla] Hwf Hs. pose proof (ou_frame _ _ Hou) as Hfr. unfold compaction.build_entry. destruct (cancelled (b_entries b)); [done|].
  destruct (match b_previous b with Some _ => _ | None => _ end); [done|].
  assert (forall b ls, outputs_ok b ls -> b_haveSeq b = false -> b_writer b = None -> users_below (concat ls) [e] ->
    match (match b_writer b with Some w => add_entry e w b | None =>
      match new_output create blockSize restartInterval bloom cancelled afterDurable b with (b, Err err) => inr (b, err) | (b, Ok w) => add_entry e w b end end) with
    | inl b' => built b' ls [e]
    | inr (b', _) => framed (b_store b') (b_directory b')
    end) as Hnew.
  { clear -Laws create_empty Hwf. intros b ls Hou Hh -> Hbe. pose proof (new_output_spec b ls Hou Hh) as Hn. destruct (new_output _ _ _ _ _ _ _) as [b' [w|err]]; [|done].
    destruct Hn as (Hou' & n & Hwi). apply (add_entry_spec e b' ls [] w n); done. }
  destruct (b_writer b) as [w|] eqn:Hw; cbn [andb].
  - destruct Hwr as (Hne & n & Hwi). destruct (_ && _) eqn:Hsw.
    + apply andb_true_iff in Hsw as [_ Hu]. destruct (finish b) as [b1 err] eqn:Hf. pose proof (finish_spec b ls cur w n b1 err Hou Hw Hwi Hbe Hf) as Hfin.
      destruct err as [err|]; [done|]. destruct Hfin as (Hou' & Hw' & Hh & Hlu & Hpr). specialize (Hnew b1 (ls ++ [cur]) Hou' Hh Hw').
      assert (concat (ls ++ [cur]) = concat ls ++ cur) as Hcc by (rewrite concat_app; cbn; by rewrite app_nil_r). rewrite Hcc in Hnew.
      destruct (list.last (concat ls ++ cur)) as [l|] eqn:Hl; [|by apply last_None, app_nil in Hl as [_ ?]]. destruct Hla as [_ Hla]. rewrite Hla in Hu.
      assert (users_below (concat ls ++ cur) [e]) as Hsep.
      { eapply users_switch; [done|done|]. intros Heq. rewrite Heq, bytes_eqb_refl in Hu. done. }
      specialize (Hnew Hsep). destruct (match b_writer b1 with Some _ => _ | None => _ end) as [b'|[b' err]]; [|done]. exists (ls ++ [cur]), [e]. by rewrite Hcc.
    + rewrite Hw. pose proof (add_entry_spec e b ls cur w n Hou Hwi (users_stay ls cur e Hne Hs Hbe) Hwf) as Hadd.
      destruct (add_entry e w b) as [b'|[b' err]]; [|done]. exists ls, (cur ++ [e]). by rewrite app_assoc.
  - destruct Hwr as (-> & -> & Hh). specialize (Hnew b [] Hou Hh Hw). destruct (match b_writer b with Some _ => _ | None => _ end) as [b'|[b' err]].
    + exists [], [e]. split; [|done]. apply Hnew. intros x e' Hx. by apply not_elem_of_nil in Hx.
    + apply Hnew. intros x e' Hx. by apply not_elem_of_nil in Hx.
Qed.
End build.
