(* ===== verification/CompactionProps.v ===== *)
(** * A compaction keeps the contents of the store (storage/compaction/executor.go)

    The composition of the merge, the table reader and writer and the
    manifest: whatever fails, the live tables hold the entries they held
    before; a compaction that succeeds replaced its inputs by sorted tables. *)

From S2P Require Import Prelude InternalKey Files Wal Loops MvccStore SSTable SSTableBlock SSTableFormat SSTableWriter SSTableReader SSTableReads SSTableLayout SSTableRoundTrip SSTableOpen SSTableProps Manifest ManifestCodec ManifestVersion ManifestApply ManifestProps ManifestStore ManifestOpen ManifestDurable ManifestRewrite Merge MergeProofs MergeInputs Compaction CompactionPlan CompactionBuild.
Import manifest version store current compaction.
#[local] Arguments reader.FileName : simpl never.

(** ** The inputs *)

Lemma open_number_reads directory n r : open_number directory n = Ok r ->
  exists r0 bs, r = with_file (reader.rd_file r) r0 /\ table_ok r0 bs /\ reads r (table_entries bs) /\ stored directory n = table_entries bs.
Proof.
  intros Ho. unfold stored. rewrite Ho. unfold open_number, open_table in Ho. destruct (directory _) as [| |f c]; [done..|].
  destruct (reader.openReader _ _ _ _) as [r'|] eqn:Hr; [|done]. apply Ok_inj in Ho as <-. destruct (openReader_ok _ _ _ _ _ Hr) as (bs & Hok & Hf & _).
  exists r', bs. split; [done|]. split; [done|]. split; [exists r', bs; split_and!; try done; unfold same_bytes; by rewrite Hf|].
  etransitivity; [exact (contents_healthy f _ _ _ _ Hr)|]. by apply table_contents_ok.
Qed.
Lemma stored_sorted directory n : store_sorted (stored directory n) /\ Forall (fun e => key_wf e.1) (stored directory n).
Proof.
  destruct (open_number directory n) as [r|e] eqn:Ho.
  - destruct (open_number_reads _ _ _ Ho) as (r0 & bs & _ & Hok & _ & ->). split; [by eapply table_entries_sorted|by eapply table_entries_wf].
  - unfold stored. rewrite Ho. split; constructor.
Qed.
Abbreviation contents_of directory tables := (stored directory <$> (FileNumber <$> tables)).
Lemma open_inputs_spec directory tables : forall opened_ inputs total inputs' total', open_inputs directory tables opened_ inputs total = Ok (inputs', total') ->
  exists new, inputs' = inputs ++ new /\ Forall2 ready new (contents_of directory tables) /\
    foldr (fun table n => EntryCount table + n) 0 tables = len (concat (contents_of directory tables)).
Proof.
  induction tables as [|t tables IH]; intros opened_ inputs total inputs' total'; cbn [open_inputs].
  { intros [= <- <-]. exists []. split; [by rewrite app_nil_r|]. split; [constructor|done]. }
  destruct (open_number directory (FileNumber t)) as [r|e] eqn:Ho; [|done]. destruct (negb _) eqn:Hm; [done|].
  destruct (reader.NewIterator r) as [it|e] eqn:Hit; [|done]. intros (new & -> & Hr & Hs)%IH.
  destruct (open_number_reads _ _ _ Ho) as (r0 & bs & Hr0 & Hok & Hre & Hst). rewrite <- app_assoc. eexists. split; [done|]. cbn [fmap list_fmap foldr concat app]. split.
  - constructor; [|done]. rewrite Hst. eexists. split; [done|]. split; [|by eapply table_entries_sorted].
    destruct (table_starts_all r _ Hre) as [(it' & Heq & Ha)|(_ & e & He)]; [|by rewrite He in Hit]. rewrite Hit in Heq. by apply Ok_inj in Heq as <-.
  - rewrite Hs, len_app, Hst. f_equal. destruct (to_metadata _ _ Hok) as (meta & Hrm & _ & _ & Hc). rewrite Hr0 in Hm. cbn [with_file reader.rd_metadata] in Hm. rewrite Hrm in Hm. apply negb_false_iff in Hm.
    unfold metadataMatches, sstableMetadataEqual in Hm. rewrite !andb_true_iff, !Z.eqb_eq in Hm. unfold table_entries, len. rewrite length_fmap. fold (len (all_entries bs)). lia.
Qed.

Lemma pending_entries {I} (inputs : list (merge.MergeInput I)) (ls : list MvccStore.store) : length inputs = length ls ->
  merge.cu_entry <$> concat (pending inputs ls) = concat ls.
Proof.
  unfold pending. set (f := fun (i : nat) (p : merge.MergeInput I * MvccStore.store) => MergeProofs.tag (merge.mi_FileNumber p.1) i <$> p.2).
  assert (forall i p, merge.cu_entry <$> f i p = p.2) as Hf.
  { intros i [a l]. unfold f. cbn. rewrite <- list_fmap_compose. rewrite <- (list_fmap_id l) at 2. by apply list_fmap_ext. }
  clearbody f. revert f Hf ls. induction inputs as [|a inputs IH]; intros f Hf [|l ls]; cbn; intros Hl; try done.
  rewrite fmap_app, Hf. f_equal. apply IH; [intros; apply Hf|lia].
Qed.
Lemma merge_order_sorted st : weakly_sorted (merge.cu_entry <$> merge_order st).
Proof.
  eapply StronglySorted_fmap; [|apply SortFunc_sorted; [apply cursor_antisym|apply cursor_le_trans]].
  intros a b. cbn. unfold cursor_compare, key_le. by destruct (CompareInternal _ _).
Qed.
Lemma merge_order_entries {I} (inputs : list (merge.MergeInput I)) (ls : list MvccStore.store) : length inputs = length ls ->
  merge.cu_entry <$> merge_order (pending inputs ls) ≡ₚ concat ls.
Proof. intros Hl. unfold merge_order. rewrite SortFunc_Permutation. by rewrite pending_entries. Qed.

(** ** The installation *)

Lemma Contains_live t v : version_ok v -> Contains t v = true -> exists t', t' ∈ live v /\ Level t' = Level t /\ FileNumber t' = FileNumber t.
Proof.
  intros Hv. unfold Contains. destruct (MaxLevels <=? Level t); [done|]. destruct (findFile _ _) as [i|]; [|done].
  destruct (level_of (Level t) v !! i) as [t'|] eqn:Ht; [|done]. intros Heq. exists t'. split.
  - unfold level_of in Ht. destruct (levels v !! Z.to_nat (Level t)) as [l|] eqn:Hl; [|done]. apply list_elem_of_lookup_2 in Ht. by eapply level_live.
  - unfold tableEqual in Heq. rewrite !andb_true_iff, !Z.eqb_eq in Heq. tauto.
Qed.
(** The tables of [v] that are no inputs. *)
Definition kept (inputs : list TableMetadata) (v : Version) : list TableMetadata := filter (fun t => FileNumber t ∉ FileNumber <$> inputs) (live v).
Section install.
Context `{HP : writer.Publication} {Laws : FileLaws}.
Context (afterDurable : Version -> bool) (s0 : Store) (directory0 : bytes -> opened).

Lemma InstallCompaction_framed directory ctx inputs outputs s s' r : framed s0 directory0 s directory -> Forall table_wf outputs ->
  InstallCompaction directory afterDurable ctx inputs outputs s = (s', r) ->
  match r with
  | Ok _ => (exists ps v, store_inv s' ps v) /\ live (st_current s') ≡ₚ kept inputs (st_current s) ++ outputs /\
      NoDup (FileNumber <$> inputs) /\ FileNumber <$> inputs ⊆ FileNumber <$> live (st_current s)
  | Err _ => framed s0 directory0 s' directory
  end.
Proof using Laws.
  intros Hfr Hwf. pose proof (framed_ok _ _ _ _ Hfr) as Hv. pose proof Hfr as [(ps & v & Hi) Hl Hn Hd]. unfold InstallCompaction.
  destruct ctx as [|cancelled]; [by intros [= <- <-]|]. destruct (_ || _); [by intros [= <- <-]|]. destruct cancelled; [by intros [= <- <-]|].
  destruct (_ ≫= _) as [e|err] eqn:He; [|by intros [= <- <-]]. ok_inv He. apply require_ok in Hx0. rewrite forallb_forall in Hx0.
  rewrite cloneTables_id in Hx1 by done. apply Ok_inj in Hx1 as <-. destruct (apply _ _) as [v1|] eqn:Ha in He; [|done]. apply Ok_inj in He as <-.
  assert (Forall (fun t => exists t', t' ∈ live (st_current s) /\ Level t' = Level t /\ FileNumber t' = FileNumber t) inputs) as Hin.
  { apply Forall_forall. intros t Ht. apply Contains_live; [done|]. by apply Hx0, list_elem_of_In. }
  set (e := mkEdit None None None None None None None (deletion_of <$> inputs) outputs) in *.
  assert (edit_wf e) as Hwe.
  { split; cbn; try done. apply Forall_fmap. eapply Forall_impl; [exact Hin|]. intros t (t' & Ht' & Hlv & Hnum). pose proof (vo_tables _ Hv) as Hall.
    rewrite Forall_forall in Hall. destruct (Hall t' Ht') as ([Hwl Hwn _ _ _] & _). rewrite Forall_cons in Hwn. cbn. split; cbn; [by rewrite <- Hlv|rewrite <- Hnum; apply Hwn]. }
  destruct (installLocked afterDurable e s) as [s1 r1] eqn:Hinst. destruct (installLocked_inv afterDurable e s s1 r1 ps v Hi Hwe Hinst) as [Hi' Hr].
  destruct r1 as [u|err]; [|intros [= <- <-]; split; by rewrite ?Hr]. destruct Hr as [Ha' _]. pose proof (edit_applied _ _ _ Hv Hwe Ha') as Happ.
  destruct (ap_frontier _ _ _ Happ) as (-> & -> & _). destruct (ap_replicated _ _ _ Happ) as (-> & -> & _).
  unfold present_or. cbn [e e_ReplayFrontier e_ReplicatedAppliedThrough default from_option present]. rewrite !orb_false_r.
  rewrite !Z.eqb_refl, !eqb_reflx. cbn [andb negb]. intros [= <- <-]. destruct Hi' as (ps' & v' & Hi').
  split; [exists ps', v'; by eapply store_inv_same|]. apply apply_parts in Ha' as (_ & Hf & _); [|done..].
  assert (d_FileNumber <$> e_DeletedFiles e = FileNumber <$> inputs) as Hdel by (cbn; by rewrite <- list_fmap_compose).
  split; [|split].
  - pose proof (next_live _ _ _ Hwe Hf (vo_levels _ Hv) (ap_levels _ _ _ Happ)) as Hlive. rewrite Hdel in Hlive. exact Hlive.
  - pose proof (ok_distinct _ Hf) as Hnd. unfold edit_numbers in Hnd. rewrite Hdel in Hnd. by apply NoDup_app in Hnd as [? _].
  - intros n (t & -> & Ht)%list_elem_of_fmap. rewrite Forall_forall in Hin. destruct (Hin t Ht) as (t' & Ht' & _ & <-). by apply list_elem_of_fmap_2.
Qed.
End install.

(** ** The outputs *)

Section run.
Context `{HP : writer.Publication} {Laws : FileLaws}.
Context (create : Z -> result (list sstable.sst_error) (File * writer.FS)) (image : Z -> File -> opened).
Context (blockSize restartInterval : Z) (bloom : bool) (TargetFileSize : Z) (cancelled : Z -> bool) (beforeInstall : bool) (afterDurable : Version -> bool).
Context (create_empty : forall n f s, create n = Ok (f, s) -> contents f = []).
Context (image_contents : forall n f g c, image n f = Opened g c -> ra_bytes g = contents f).
Abbreviation build_entry := (build_entry create image blockSize restartInterval bloom TargetFileSize cancelled afterDurable).
Abbreviation build_body := (build_body create image blockSize restartInterval bloom TargetFileSize cancelled afterDurable).
Abbreviation buildOutputs := (buildOutputs create image blockSize restartInterval bloom TargetFileSize cancelled afterDurable).
Abbreviation Run := (Run create image blockSize restartInterval bloom TargetFileSize cancelled beforeInstall afterDurable).

Section outputs.
Context (s0 : Store) (directory0 : bytes -> opened) (job level : Z) (Hjob : is_u64 job) (Hlevel : is_u32 level).
Lemma fold_built cs : forall b ls cur, built bloom s0 directory0 level b ls cur -> Forall (fun c => key_wf (merge.cu_entry c).1) cs ->
  weakly_sorted ((concat ls ++ cur) ++ (merge.cu_entry <$> cs)) ->
  match fold_until (fun b c => build_entry job level b (merge.cu_entry c)) b cs with
  | inl b' => exists ls' cur', built bloom s0 directory0 level b' ls' cur' /\ concat ls' ++ cur' = (concat ls ++ cur) ++ (merge.cu_entry <$> cs)
  | inr (b', _) => framed s0 directory0 (b_store b') (b_directory b')
  end.
Proof using Laws Hjob Hlevel create_empty image_contents.
  induction cs as [|c cs IH]; intros b ls cur Hb Hwf Hs; cbn [fold_until fmap list_fmap] in *; [exists ls, cur; by rewrite app_nil_r|].
  apply Forall_cons in Hwf as [Hc Hwf]. rewrite cons_middle, app_assoc in Hs.
  pose proof Hs as (_ & Hs1 & _)%StronglySorted_app.
  pose proof (build_entry_spec create image blockSize restartInterval bloom TargetFileSize cancelled afterDurable create_empty image_contents s0 directory0 job level Hjob Hlevel b ls cur _ Hb Hc Hs1) as Hbe.
  destruct (build_entry job level b (merge.cu_entry c)) as [b'|[b' err]]; [|done]. destruct Hbe as (ls' & cur' & Hb' & Heq). rewrite <- Heq in Hs.
  specialize (IH b' ls' cur' Hb' Hwf Hs). destruct (fold_until _ b' cs) as [b''|]; [|done]. destruct IH as (ls'' & cur'' & Hb'' & Heq'').
  exists ls'', cur''. split; [done|]. by rewrite Heq'', Heq, <- app_assoc.
Qed.

Lemma buildOutputs_spec fuel b m st : built bloom s0 directory0 level b [] [] -> merging m st -> live_inputs m -> Forall (fun c => key_wf (merge.cu_entry c).1) (concat st) ->
  (length (concat st) < fuel)%nat ->
  exists b' err m', buildOutputs fuel job level b m = Some (b', err, m') /\ live_inputs m' /\
    framed s0 directory0 (b_store b') (b_directory b') /\
    (err = None -> exists ls, outputs_ok s0 directory0 level b' ls /\ concat ls = merge.cu_entry <$> merge_order st).
Proof using Laws Hjob Hlevel create_empty image_contents.
  intros Hb Hm Hl Hwf Hfuel. unfold compaction.buildOutputs.
  destruct (for_each_merge (build_body job level) (fun b c => build_entry job level b (merge.cu_entry c))) with (fuel := fuel) (s := b) (m := m) (st := st) as (r & m' & Hfe & Hcase); [|done|done|].
  { intros b1 m1 c HE _. unfold compaction.build_body. by rewrite HE. }
  rewrite Hfe. cbn [mbind option_bind]. apply (for_each_live _ _ _ _ _ _ Hl) in Hfe.
  assert (forall cs, prefix cs (merge_order st) -> match fold_until (fun b c => build_entry job level b (merge.cu_entry c)) b cs with
    | inl b' => exists ls' cur', built bloom s0 directory0 level b' ls' cur' /\ concat ls' ++ cur' = merge.cu_entry <$> cs
    | inr (b', _) => framed s0 directory0 (b_store b') (b_directory b') end) as Hfold.
  { intros cs [rest Hrest]. apply (fold_built cs b [] [] Hb).
    - assert (Forall (fun c => key_wf (merge.cu_entry c).1) (merge_order st)) as Hall by (unfold merge_order; by rewrite SortFunc_Permutation).
      rewrite Hrest in Hall. by apply Forall_app in Hall as [? _].
    - pose proof (merge_order_sorted st) as Hs. rewrite Hrest, fmap_app in Hs. by apply StronglySorted_app in Hs as (_ & ? & _). }
  destruct Hcase as [[He ->]|(He & _ & k & b' & -> & Hk)].
  - specialize (Hfold (merge_order st) ltac:(done)). destruct (fold_until _ b (merge_order st)) as [b'|[b' err]].
    + rewrite He. destruct Hfold as (ls & cur & [Hou Hwr Hbe _] & Heq). destruct (finish image job level b') as [b2 err] eqn:Hf.
      exists b2, err, m'. split; [done|]. split; [done|]. destruct (b_writer b') as [w|] eqn:Hw.
      * destruct Hwr as (_ & n & Hwi). pose proof (finish_spec image bloom image_contents s0 directory0 job level Hjob Hlevel b' ls cur w n b2 err Hou Hw Hwi Hbe Hf) as Hfin.
        destruct err as [err|]; [done|]. destruct Hfin as [Hou' _]. split; [apply Hou'|]. intros _. exists (ls ++ [cur]). split; [done|].
        rewrite concat_app. cbn. by rewrite app_nil_r.
      * destruct Hwr as (-> & -> & _). unfold finish in Hf. destruct b'. cbn in Hw. rewrite Hw in Hf. injection Hf as <- <-. split; [apply Hou|]. intros _. exists [].
        rewrite Hw in Hou. done.
    + exists b', (Some err), m'. split; [done|]. split; [done|]. split; [done|]. done.
  - destruct (merge.m_err m') as [err|]; [|done]. specialize (Hfold (take k (merge_order st)) (prefix_take _ _)). rewrite Hk in Hfold. destruct Hfold as (ls & cur & Hb' & _).
    eexists b', _, m'. split; [done|]. split; [done|]. split; [apply Hb'|done].
Qed.
End outputs.

(** ** The contents of the version *)

Lemma live_number v t : version_ok v -> t ∈ live v -> 1 <= FileNumber t <= sstable.MaxFileNumber /\ FileNumber t < nextFileNumber v.
Proof using.
  intros Hv Ht. pose proof (vo_tables _ Hv) as Hall. rewrite Forall_forall in Hall. destruct (Hall t Ht) as ([_ Hn _ _ _] & Hval%validateTable_ok & Hlt).
  rewrite Forall_cons in Hn. destruct Hn as [[? _] _]. destruct Hval as (_ & ? & ? & _). lia.
Qed.
Lemma contents_agree s0 directory0 s directory ts : version_ok (st_current s0) -> framed s0 directory0 s directory -> ts ⊆ live (st_current s0) ->
  contents_of directory ts = contents_of directory0 ts.
Proof using.
  intros Hv Hfr Hts. rewrite <- !list_fmap_compose. apply list_fmap_ext. intros i t Hi. cbn. apply stored_ext.
  destruct (live_number _ t Hv) as [? ?]; [by apply Hts; eapply list_elem_of_lookup_2|]. by apply Hfr.
Qed.
Lemma contents_framed s0 directory0 s directory : version_ok (st_current s0) -> framed s0 directory0 s directory ->
  version_entries directory (st_current s) ≡ₚ version_entries directory0 (st_current s0).
Proof using.
  intros Hv Hfr. unfold version_entries. rewrite (fr_live _ _ _ _ Hfr). by rewrite (contents_agree s0 directory0 s directory (live (st_current s0))).
Qed.
(** The tables that are taken out are the inputs. *)
Lemma taken_out inputs v : version_ok v -> NoDup (FileNumber <$> inputs) -> FileNumber <$> inputs ⊆ FileNumber <$> live v ->
  FileNumber <$> live v ≡ₚ (FileNumber <$> inputs) ++ (FileNumber <$> kept inputs v).
Proof using.
  intros Hv Hnd Hsub. apply NoDup_Permutation.
  - apply Hv.
  - apply NoDup_app. split; [done|]. split.
    + intros n Hn (t & -> & Ht)%list_elem_of_fmap. by apply list_elem_of_filter in Ht as [? _].
    + eapply sublist_NoDup; [apply (vo_distinct _ Hv)|]. apply fmap_sublist, sublist_filter.
  - intros n. rewrite elem_of_app. split; [|intros [Hn|(t & -> & Ht)%list_elem_of_fmap]; [by apply Hsub|]].
    + intros (t & -> & Ht)%list_elem_of_fmap. destruct (decide (FileNumber t ∈ FileNumber <$> inputs)); [by left|right]. apply list_elem_of_fmap_2, list_elem_of_filter. done.
    + apply list_elem_of_filter in Ht as [_ Ht]. by apply list_elem_of_fmap_2.
Qed.
Lemma sorted_concat ls : Forall store_sorted ls -> separated ls -> store_sorted (concat ls).
Proof using.
  induction 1 as [|l ls Hl Hls IH]; [constructor|]. cbn. intros [Hb Hs]. apply StronglySorted_app. split; [|split; [done|by apply IH]].
  intros x y Hx Hy. specialize (Hb x y Hx Hy). change (key_lt x.1 y.1). unfold key_lt, CompareInternal. unfold bytes_lt in Hb. by rewrite Hb.
Qed.

(** ** The run *)

(** The live tables after a compaction installed [outputs] for the inputs of
    [plan]: sorted tables of the target level with the entries of the inputs
    and no user key in two of them. *)
Record replaced (plan : Plan) (outputs : list TableMetadata) (v v' : Version) (directory directory' : bytes -> opened) : Prop := {
  re_live : live v' ≡ₚ kept (Inputs plan) v ++ outputs;
  re_taken : FileNumber <$> live v ≡ₚ (FileNumber <$> Inputs plan) ++ (FileNumber <$> kept (Inputs plan) v);
  re_entries : concat (contents_of directory' outputs) ≡ₚ concat (contents_of directory (Inputs plan));
  re_sorted : store_sorted (concat (contents_of directory' outputs));
  re_separated : separated (contents_of directory' outputs);
  re_tables : Forall (fun t => Level t = TargetLevel plan /\ Forall (fun e => SmallestSequence t <= sequence e.1 <= LargestSequence t) (stored directory' (FileNumber t))) outputs
}.
Lemma replaced_entries s0 directory0 s directory plan outputs v' : version_ok (st_current s0) -> framed s0 directory0 s directory ->
  replaced plan outputs (st_current s0) v' directory0 directory -> version_entries directory v' ≡ₚ version_entries directory0 (st_current s0).
Proof using.
  intros Hv Hfr [Hl Ht He _ _ _]. unfold version_entries. rewrite Hl, Ht, !fmap_app, !concat_app, He.
  rewrite (contents_agree s0 directory0 s directory (kept (Inputs plan) (st_current s0))); [apply Permutation_app_comm|done|done|].
  intros t [_ ?]%list_elem_of_filter. done.
Qed.
Lemma Validate_levels plan v : Validate plan v = Ok tt -> TargetLevel plan = 1.
Proof using. unfold Validate. destruct (_ || _) eqn:Hc; [done|]. rewrite !orb_false_iff, !negb_false_iff, !Z.eqb_eq in Hc. clear -Hc. tauto. Qed.

Definition kept_contents (s0 : Store) (directory0 : bytes -> opened) (plan : Plan) (r : run) : Prop :=
  (exists ps v, store_inv (run_store r) ps v) /\
  version_entries (run_directory r) (st_current (run_store r)) ≡ₚ version_entries directory0 (st_current s0) /\
  match run_error r with
  | None => r_State (run_result r) = StateInstalled /\
      replaced plan (r_Outputs (run_result r)) (st_current s0) (st_current (run_store r)) directory0 (run_directory r)
  | Some _ => live (st_current (run_store r)) ≡ₚ live (st_current s0)
  end.
Lemma failed_keeps s0 directory0 plan r e : version_ok (st_current s0) -> framed s0 directory0 (run_store r) (run_directory r) -> run_error r = Some e ->
  kept_contents s0 directory0 plan r.
Proof using. intros Hv Hfr He. split; [apply Hfr|]. split; [by apply contents_framed|]. rewrite He. apply Hfr. Qed.
Lemma framed_start s directory ps v : store_inv s ps v -> framed s directory s directory.
Proof using. intros Hi. split; [by exists ps, v|done|lia|done]. Qed.

Section started.
Context (plan : Plan) (s0 : Store) (directory0 : bytes -> opened) (Hs0 : exists ps v, store_inv s0 ps v).
Let Hv : version_ok (st_current s0).
Proof. destruct Hs0 as (ps & v & Hi). apply Hi. Qed.
(** Opening the inputs, and the outputs built from them. *)
Lemma built_outputs job m inputBytes : is_u64 job -> is_u32 (TargetLevel plan) -> openInputs directory0 (Inputs plan) = Some (Ok (m, inputBytes)) ->
  exists b err m', buildOutputs (entry_fuel (Inputs plan)) job (TargetLevel plan) (mkBuild s0 directory0 [] None 0 0 0 0 0 false [] None) m = Some (b, err, m') /\
    live_inputs m' /\ framed s0 directory0 (b_store b) (b_directory b) /\
    (err = None -> Forall2 (output_ok s0 (TargetLevel plan) (b_directory b)) (b_outputs b) (contents_of (b_directory b) (b_outputs b)) /\
       concat (contents_of (b_directory b) (b_outputs b)) ≡ₚ concat (contents_of directory0 (Inputs plan)) /\
       separated (contents_of (b_directory b) (b_outputs b))).
Proof using Laws Hs0 create_empty image_contents.
  intros Hjob Hlevel. unfold openInputs. destruct (open_inputs directory0 (Inputs plan) [] [] 0) as [[inputs total]|e] eqn:Ho; [|done].
  destruct (open_inputs_spec _ _ _ _ _ _ _ Ho) as (new & -> & Hready & Hsum). cbn [app].
  destruct (NewMergeIterator_spec new _ Hready) as [(m1 & -> & Hm & Hl & _)|(err & -> & _)]; [|done]. intros [= <- <-].
  pose proof (Forall2_length _ _ _ Hready) as Hlen. set (ins := contents_of directory0 (Inputs plan)) in *.
  assert (concat (pending new ins) ≡ₚ merge_order (pending new ins)) as Hperm by (unfold merge_order; by rewrite SortFunc_Permutation).
  destruct (buildOutputs_spec s0 directory0 job (TargetLevel plan) Hjob Hlevel (entry_fuel (Inputs plan)) (mkBuild s0 directory0 [] None 0 0 0 0 0 false [] None) m1 (pending new ins)) as (b & err & m' & Hb & Hl' & Hfr & Hok).
  - apply built_start. destruct Hs0 as (ps & v & Hi). by eapply framed_start.
  - done.
  - done.
  - apply (Forall_fmap merge.cu_entry (fun e => key_wf e.1)). rewrite pending_entries by done. apply Forall_concat, Forall_fmap, Forall_forall. intros n _. apply stored_sorted.
  - rewrite <- (length_fmap merge.cu_entry), pending_entries by done. unfold entry_fuel. rewrite Hsum. unfold len. lia.
  - exists b, err, m'. split; [done|]. split; [done|]. split; [done|]. intros He. destruct (Hok He) as (ls & [_ Ht _ _ Hse] & Hcc).
    assert (contents_of (b_directory b) (b_outputs b) = ls) as Hls.
    { clear -Ht. induction Ht as [|t l ts ls Htl _ IH]; [done|]. cbn. f_equal; [apply Htl|exact IH]. }
    rewrite Hls. split; [done|]. split; [|done]. rewrite Hcc. by apply merge_order_entries.
Qed.
Lemma openInputs_total : exists r, openInputs directory0 (Inputs plan) = Some r.
Proof using.
  unfold openInputs. destruct (open_inputs directory0 (Inputs plan) [] [] 0) as [[inputs total]|e] eqn:Ho; [|eauto].
  destruct (open_inputs_spec _ _ _ _ _ _ _ Ho) as (new & -> & Hready & _). cbn [app].
  destruct (NewMergeIterator_spec new _ Hready) as [(m1 & -> & _)|(err & -> & _)]; eauto.
Qed.
Lemma outputs_installed s directory outputs ctx s' : framed s0 directory0 s directory ->
  Forall2 (output_ok s0 (TargetLevel plan) directory) outputs (contents_of directory outputs) ->
  concat (contents_of directory outputs) ≡ₚ concat (contents_of directory0 (Inputs plan)) -> separated (contents_of directory outputs) ->
  InstallCompaction directory afterDurable ctx (Inputs plan) outputs s = (s', Ok tt) ->
  (exists ps v, store_inv s' ps v) /\ replaced plan outputs (st_current s0) (st_current s') directory0 directory.
Proof using Laws Hs0.
  intros Hfr Ht He Hse Hin. apply (InstallCompaction_framed afterDurable s0 directory0) in Hin; [|done|].
  2: { eapply Forall2_Forall_l; [exact Ht|]. apply Forall_true. intros l t Hoo. apply Hoo. }
  destruct Hin as (Hi & Hl & Hnd & Hsub). split; [done|].
  assert (kept (Inputs plan) (st_current s) ≡ₚ kept (Inputs plan) (st_current s0)) as Hk by (unfold kept; by rewrite (fr_live _ _ _ _ Hfr)).
  split; [by rewrite Hl, Hk|apply taken_out; [done..|]|done| |done|].
  - intros n Hn. rewrite <- (fr_live _ _ _ _ Hfr). by apply Hsub.
  - apply sorted_concat; [|done]. apply Forall_fmap, Forall_forall. intros n _. apply stored_sorted.
  - apply Forall_forall. intros t Hin. apply list_elem_of_lookup in Hin as [i Hi']. destruct (Forall2_lookup_l _ _ _ _ _ Ht Hi') as (l & Hl' & [_ Hlv _ Hst _ Hsp _]).
    rewrite Hst. done.
Qed.
Lemma Run_keeps x : is_u64 (x_nextJob x) -> exists r, Run plan x s0 directory0 = Some r /\ kept_contents s0 directory0 plan r.
Proof using Laws Hs0 create_empty image_contents.
  intros Hjob. assert (framed s0 directory0 s0 directory0) as Hfr0 by (destruct Hs0 as (ps & v & Hi); by eapply framed_start).
  assert (forall x' s d res e, framed s0 directory0 s d -> exists r, Some (mkRun x' s d res (Some e)) = Some r /\ kept_contents s0 directory0 plan r) as Hfail.
  { intros x' s d res e Hfr. eexists. split; [done|]. by eapply failed_keeps. }
  unfold compaction.Run. cbn [validTransition negb]. destruct (Current s0) as [current|e] eqn:Hcur; [|by apply Hfail].
  destruct (Validate plan current) as [[]|e] eqn:Hval; [|by apply Hfail]. apply Validate_levels in Hval.
  destruct openInputs_total as [opened_ Ho]. rewrite Ho. cbn [mbind option_bind]. destruct opened_ as [[m inputBytes]|e]; [|by apply Hfail].
  destruct (built_outputs (x_nextJob x) m inputBytes Hjob) as (b & err & m' & Hb & Hl & Hfr & Hok); [by rewrite Hval|done|]. rewrite Hb. cbn [mbind option_bind].
  destruct (Close_ok m' Hl) as [m'' ->]. cbn [mbind option_bind]. destruct err as [err|]; [by apply Hfail|]. destruct (Hok eq_refl) as (Ht & He & Hse).
  destruct beforeInstall; [by apply Hfail|]. destruct (InstallCompaction _ _ _ _ _ _) as [s' [[]|e]] eqn:Hin.
  - destruct (outputs_installed _ _ _ _ _ Hfr Ht He Hse Hin) as [Hi Hre]. eexists. split; [done|]. split; [done|]. split; [|done].
    by eapply replaced_entries.
  - apply (InstallCompaction_framed afterDurable s0 directory0) in Hin; [|done|eapply Forall2_Forall_l; [exact Ht|]; apply Forall_true; intros l t Hoo; apply Hoo].
    destruct (existsb is_stale e); by apply Hfail.
Qed.
End started.
End run.

(** C8. A compaction keeps what is stored.  From any store with a good log,
    for any plan, whatever files cannot be created, written, published or read
    back and wherever the context is cancelled, [Run] never panics, ends
    within the entries its inputs declare and leaves a store with a good log
    whose live tables hold the same entries as before.  On an error the live
    tables are the same.  On success the inputs are replaced by tables of the
    target level that hold exactly their entries in order, inside the declared
    sequence spans and with no user key in two tables. *)
Theorem compaction_preserves `{HP : writer.Publication} {Laws : FileLaws} create image blockSize restartInterval bloom TargetFileSize cancelled beforeInstall afterDurable
    plan x s directory ps v :
  (forall n f fs, create n = Ok (f, fs) -> contents f = []) -> (forall n f g c, image n f = Opened g c -> ra_bytes g = contents f) ->
  store_inv s ps v -> is_u64 (x_nextJob x) ->
  exists r, Run create image blockSize restartInterval bloom TargetFileSize cancelled beforeInstall afterDurable plan x s directory = Some r /\
    kept_contents s directory plan r.
Proof. intros Hc Hi Hs Hx. apply Run_keeps; [done|done|by exists ps, v|done]. Qed.

(** ** An example *)

Module RunExample.
Import ManifestExample.
#[local] Existing Instances disk_file disk_laws.
#[local] Instance disk_publication : writer.Publication := {|
  writer.FS := unit; writer.rename s := (s, false); writer.remove s := (s, None); writer.openDirectory s := (s, Some tt) |}.
Definition ikey (user : byte) (seq : Z) (k : ValueKind) : InternalKey := {| userKey := [user]; sequence := seq; kind := k |}.
(** Two flushed tables; the second has a newer version of a key. *)
Definition finished (number : Z) (l : list entry) : writer.Writer * result (list sstable.sst_error) writer.Metadata :=
  writer.Finish (adds l (writer.newWriter (large : @File disk_file) tt number 64 2 true)).1.
Definition older := finished 1 [(ikey Byte.x61 7 KindValue, [Byte.x78]); (ikey Byte.x61 5 KindDelete, []); (ikey Byte.x62 6 KindValue, [Byte.x7a])].
Definition newer := finished 2 [(ikey Byte.x61 9 KindValue, [Byte.x79]); (ikey Byte.x63 8 KindValue, [])].
Definition table_of (r : writer.Writer * result (list sstable.sst_error) writer.Metadata) (generation smallest largest : Z) : list TableMetadata :=
  match r.2 with
  | Ok meta => match NewTableMetadata 0 generation smallest largest meta with Ok t => [t] | Err _ => [] end
  | Err _ => []
  end.
Definition create (number : Z) : Prelude.result (list sstable.sst_error) (@File disk_file * writer.FS) := Ok ((large : @File disk_file), tt).
Definition publish (number : Z) (f : @File disk_file) : opened := Opened (healthy (contents f)) false.
Definition directory : bytes -> opened :=
  place (reader.FileName 1) (publish 1 (writer.file older.1)) (place (reader.FileName 2) (publish 2 (writer.file newer.1)) (fun _ => Missing)).
Definition flushes : VersionEdit := mkEdit None None (Some 9) None None None None [] (table_of older 1 5 7 ++ table_of newer 2 8 9).
Definition ops : list store_op := [OpAllocate (Context false); OpAllocate (Context false); OpInstall flushes].
Definition created : current_files * sres Store :=
  Create ModeStandalone (Some []) Absent Absent (large : @File disk_file) (Some tt) [] no_faults no_current_faults no_current.
Definition before : Store * list Z := store_run directory [] (fun _ => false) ops (store_of created, []).
Definition plan : Plan :=
  match Pick 2 (st_current (fst before)) with Ok (Some p) => p | _ => mkPlan 0 0 0 [] [] [] [] end.
Definition result : option run :=
  Run create publish 64 2 true 1 (fun _ => false) false (fun _ => false) plan
    (mkExecutor 1 (mkStats 0 0 0 0 0 0 0 0 0 0)) (fst before) directory.
Lemma created_ok : created = (fst created, Ok (store_of created)).
Proof. assert (is_ok (snd created) = true) as Hok by (vm_compute; reflexivity). unfold store_of. destruct created as [fs [s|e]]; [reflexivity|discriminate]. Qed.
Lemma before_inv : exists ps v, store_inv (fst before) ps v.
Proof.
  eapply (good_run directory [] (fun _ => false) ops (store_of created, [])).
  - eapply (Create_good ModeStandalone (Some []) Absent Absent (large : @File disk_file) (Some tt) no_faults no_current_faults no_current (fst created));
      [reflexivity|reflexivity|apply created_ok].
  - unfold ops. rewrite !Forall_cons. split; [done|]. split; [done|]. split; [|constructor]. cbn [store_op_wf]. split; cbn [flushes e_NextFileNumber e_LastSequence
      e_ReplayFrontier e_ReplicatedAppliedThrough e_MaxAppliedMVCC e_DeletedFiles e_AddedFiles]; try (by intros ? [= <-]); try done.
    vm_compute. repeat constructor; discriminate.
Qed.
End RunExample.

Section witness.
Import RunExample.
#[local] Existing Instances disk_file disk_laws disk_publication.
(** The two tables are replaced by one table for each user key. *)
Lemma compaction_preserves_witness : exists r, result = Some r /\ kept_contents (fst before) directory plan r /\
  (run_error r, FileNumber <$> r_Inputs (run_result r), FileNumber <$> r_Outputs (run_result r)) = (None, [2; 1], [3; 4; 5]) /\
  ((fun e => (userKey e.1, sequence e.1)) <$> stored (run_directory r) 3) = [([Byte.x61], 9); ([Byte.x61], 7); ([Byte.x61], 5)].
Proof.
  destruct before_inv as (ps & v & Hi).
  destruct (compaction_preserves RunExample.create publish 64 2 true 1 (fun _ => false) false (fun _ => false) plan
    (mkExecutor 1 (mkStats 0 0 0 0 0 0 0 0 0 0)) (fst before) directory ps v) as (r & Hr & Hk).
  - intros n f fs [= <- <-]. reflexivity.
  - intros n f g c [= <- <-]. reflexivity.
  - exact Hi.
  - split; [discriminate|reflexivity].
  - exists r. split; [exact Hr|]. split; [exact Hk|].
    assert ((match result with
             | Some r => Some ((run_error r, FileNumber <$> r_Inputs (run_result r), FileNumber <$> r_Outputs (run_result r)),
                 (fun e => (userKey e.1, sequence e.1)) <$> stored (run_directory r) 3)
             | None => None
             end) = Some ((None, [2; 1], [3; 4; 5]), [([Byte.x61], 9); ([Byte.x61], 7); ([Byte.x61], 5)])) as Hc by (vm_compute; reflexivity).
    unfold result in Hc. rewrite Hr in Hc. injection Hc as H1 H2 H3 H4. rewrite H1, H2, H3, H4. split; reflexivity.
Defined.
End witness.
