(* ===== verification/StateMachine.v ===== *)
(** * The replicated range state machine (replicatedrange/state_machine.go)

    [Apply] interprets the committed commands of one range: single writes,
    the transaction protocol (create, prepare, decide, take over, resolve) and
    the split protocol.  The storage engine is the interface [MvccEngine];
    what the machine relies on is [EngineLaws], stated on the abstract
    versioned store.  [RefEngine] is the reference implementation of both.

    A command that fails keeps the mutations made before the failure, as the
    Go method does.  The observation hook is not modelled; the options
    [containsKey], [mvcc], [rangeID] and [generation] are [range_config]. *)

From Stdlib Require Strings.String.
From S2P Require Import Prelude InternalKey Batch RaftTypes Codec Hlc Txn Command Sha256 MvccStore.

(** ** The engine interface *)

(** [engine.MVCCEntry] and [engine.MVCCVersion] *)
Record MVCCVersion := { vKey : bytes; vValue : bytes; vTimestamp : Z; vKind : ValueKind }.
#[export] Instance MVCCVersion_eq_dec : EqDecision MVCCVersion.
Proof. solve_decision. Defined.
Definition version_of (e : entry) : MVCCVersion :=
  {| vKey := userKey e.1; vValue := e.2; vTimestamp := sequence e.1; vKind := kind e.1 |}.

Class MvccEngine := {
  eng : Type;
  DurableAppliedRaftIndex : eng -> result range_error Z;
  ApplyCommitted : Z -> Z -> bytes -> Mutation -> eng -> eng * result range_error unit;
  ApplyCommittedMVCC : Z -> Z -> Z -> bytes -> Mutation -> eng -> eng * result range_error unit;
  ApplyPreparedMVCCBatch : Z -> Z -> Z -> bytes -> list Mutation -> eng -> eng * result range_error unit;
  ResolveCommittedMVCCBatch : Z -> Z -> Z -> bytes -> list Mutation -> eng -> eng * result range_error unit;
  AdvanceApplied : Z -> eng -> eng * result range_error unit;
  GetMVCCAt : bytes -> Z -> eng -> result range_error MVCCVersion;
  ExportMVCCVersions : eng -> result range_error (list MVCCVersion);
  ReplicatedApplied : eng -> Z;
  Flush : eng -> eng * result range_error unit
}.

(** One materializing call of the engine at [index]: it installs the batch at
    [ts] and moves the applied index, or changes nothing; an index it has
    materialized before is refused with [ErrAlreadyApplied]. *)
Definition batch_law {E : Type} (engine_ok : E -> Prop) (contents : E -> store) (applied : E -> Z)
    (index ts : Z) (ms : list Mutation) (s : E) (r : E * result range_error unit) : Prop :=
  engine_ok s -> engine_ok r.1 /\
  match r.2 with
  | Ok _ => applied s < index /\ 0 <= ts /\ contents r.1 = put_all ts ms (contents s) /\ applied r.1 = index
  | Err e => contents r.1 = contents s /\ applied r.1 = applied s /\ (e = ErrAlreadyApplied -> index <= applied s)
  end.

(** What the state machine relies on: [engine_ok] is the engine's own
    invariant, [contents] the store it denotes. *)
Class EngineLaws `{MvccEngine} := {
  engine_ok : eng -> Prop;
  contents : eng -> store;
  contents_ok : forall s, engine_ok s -> store_ok (contents s);
  durable_le_applied : forall s d, engine_ok s -> DurableAppliedRaftIndex s = Ok d -> d <= ReplicatedApplied s;
  plain_law : forall index term cmd m s,
    batch_law engine_ok contents ReplicatedApplied index index [m] s (ApplyCommitted index term cmd m s);
  mvcc_law : forall index term ts cmd m s,
    batch_law engine_ok contents ReplicatedApplied index ts [m] s (ApplyCommittedMVCC index term ts cmd m s);
  prepared_law : forall index term ts cmd ms s,
    batch_law engine_ok contents ReplicatedApplied index ts ms s (ApplyPreparedMVCCBatch index term ts cmd ms s);
  resolve_law : forall index term ts cmd ms s,
    batch_law engine_ok contents ReplicatedApplied index ts ms s (ResolveCommittedMVCCBatch index term ts cmd ms s);
  advance_law : forall index s, engine_ok s ->
    let s' := (AdvanceApplied index s).1 in
    engine_ok s' /\ contents s' = contents s /\
    match (AdvanceApplied index s).2 with
    | Ok _ => ReplicatedApplied s <= index /\ ReplicatedApplied s' = index
    | Err _ => ReplicatedApplied s' = ReplicatedApplied s
    end;
  get_found : forall key target s v, engine_ok s -> GetMVCCAt key target s = Ok v ->
    exists e, visible key target (contents s) = Some e /\ v = version_of e;
  get_missing : forall key target s, engine_ok s -> GetMVCCAt key target s = Err ErrNotFound ->
    visible key target (contents s) = None;
  export_law : forall s vs, engine_ok s -> ExportMVCCVersions s = Ok vs -> vs = version_of <$> contents s;
  flush_law : forall s, engine_ok s ->
    engine_ok (Flush s).1 /\ contents (Flush s).1 = contents s /\ ReplicatedApplied (Flush s).1 = ReplicatedApplied s
}.

(** ** State *)

Record range_config := {
  containsKey : option (bytes -> bool); mvcc : bool; rangeID : Z; generation : Z
}.
Definition out_of_range (cfg : range_config) (key : bytes) : bool :=
  match containsKey cfg with Some f => negb (f key) | None => false end.

(** The fields of the split protocol. *)
Record split_state := {
  lifecycle : Z; splitID : Z; splitEpoch : Z; txnFence : bool; userFence : bool;
  bootstrapIndex : Z; bootstrapSplitID : Z; bootstrapParentID : Z; bootstrapParentGen : Z;
  bootstrapImage : bytes; fenceIndex : Z; parentReplayThrough : Z;
  provenance : gmap Z bytes; bootstrapSeen : gset bytes
}.

(** The reason string of a rejected prepare, as its bytes. *)
Module Export Reason.
Import Stdlib.Strings.String.
Definition conflict_reason : bytes := list_byte_of_string "newer committed write or foreign intent"%string.
End Reason.

Section machine.
Context `{MvccEngine}.

Record machine := {
  engine : eng; maxApplied : Timestamp; safeRead : Timestamp; clock : Clock;
  records : gmap ID TxnRecord; participants : gmap ID ParticipantRecord; split : split_state
}.

Definition set_engine (e : eng) (m : machine) : machine :=
  {| engine := e; maxApplied := maxApplied m; safeRead := safeRead m; clock := clock m;
     records := records m; participants := participants m; split := split m |}.
Definition set_maxApplied (t : Timestamp) (m : machine) : machine :=
  {| engine := engine m; maxApplied := t; safeRead := safeRead m; clock := clock m;
     records := records m; participants := participants m; split := split m |}.
Definition set_safeRead (t : Timestamp) (m : machine) : machine :=
  {| engine := engine m; maxApplied := maxApplied m; safeRead := t; clock := clock m;
     records := records m; participants := participants m; split := split m |}.
Definition observe (t : Timestamp) (m : machine) : machine :=
  {| engine := engine m; maxApplied := maxApplied m; safeRead := safeRead m; clock := Observe t (clock m);
     records := records m; participants := participants m; split := split m |}.
Definition set_record (id : ID) (r : TxnRecord) (m : machine) : machine :=
  {| engine := engine m; maxApplied := maxApplied m; safeRead := safeRead m; clock := clock m;
     records := <[id := r]> (records m); participants := participants m; split := split m |}.
Definition set_participant (id : ID) (p : ParticipantRecord) (m : machine) : machine :=
  {| engine := engine m; maxApplied := maxApplied m; safeRead := safeRead m; clock := clock m;
     records := records m; participants := <[id := p]> (participants m); split := split m |}.
Definition set_split (s : split_state) (m : machine) : machine :=
  {| engine := engine m; maxApplied := maxApplied m; safeRead := safeRead m; clock := clock m;
     records := records m; participants := participants m; split := s |}.

Abbreviation outcome := (machine * result (list range_error) unit)%type.
Definition protocol_conflict : list range_error := [TxnError ErrProtocolConflict].

(** Run an engine operation on the machine's engine. *)
Definition run_engine (op : eng -> eng * result range_error unit) (m : machine) : machine * result range_error unit :=
  let '(e, r) := op (engine m) in (set_engine e m, r).
(** [if err != nil && !errors.Is(err, engine.ErrAlreadyApplied) { return err }] *)
Definition materialized (r : result range_error unit) : result (list range_error) unit :=
  match r with Err e => if bool_decide (e = ErrAlreadyApplied) then Ok tt else Err [e] | Ok _ => Ok tt end.

Definition advanceMetadata (index : Z) (alreadyDurable : bool) (m : machine) : outcome :=
  if alreadyDurable then (m, Ok tt)
  else
    match run_engine (AdvanceApplied index) m with
    | (m, Err e) => (m, Err [e])
    | (m, Ok _) => (m, Ok tt)
    end.

(** ** Transactions *)

Definition applyCreate (cfg : range_config) (op : Operation) (m : machine) : outcome :=
  if negb (RangeID (oHome op) =? rangeID cfg) || (generation cfg <? Generation (oHome op))
  then (m, Err [ErrKeyOutOfRange])
  else
    let want := {| rID := oID op; rStatus := StatusPending; rReadTime := oReadTime op;
      rCommitTime := oCommitTime op; rEpoch := oEpoch op; rHome := oHome op; rParticipants := oParticipants op |} in
    match records m !! oID op with
    | Some existing => if EqualRecord existing want then (m, Ok tt) else (m, Err protocol_conflict)
    | None => (set_record (oID op) want m, Ok tt)
    end.

Definition with_status (status : Z) (r : TxnRecord) : TxnRecord :=
  {| rID := rID r; rStatus := status; rReadTime := rReadTime r; rCommitTime := rCommitTime r;
     rEpoch := rEpoch r; rHome := rHome r; rParticipants := rParticipants r |}.
Definition with_epoch (epoch : Z) (r : TxnRecord) : TxnRecord :=
  {| rID := rID r; rStatus := rStatus r; rReadTime := rReadTime r; rCommitTime := rCommitTime r;
     rEpoch := epoch; rHome := rHome r; rParticipants := rParticipants r |}.

Definition applyDecision (op : Operation) (status : Z) (m : machine) : outcome :=
  match records m !! oID op with
  | None => (m, Err protocol_conflict)
  | Some record =>
      if bool_decide (rHome record <> oHome op) || negb (rReadTime record =? oReadTime op)
         || negb (rCommitTime record =? oCommitTime op)
      then (m, Err protocol_conflict)
      else if oEpoch op <? rEpoch record then (m, Ok tt)
      else if negb (oEpoch op =? rEpoch record) then (m, Err protocol_conflict)
      else if rStatus record =? status then (m, Ok tt)
      else if Terminal (rStatus record) then (m, Err protocol_conflict)
      else (set_record (oID op) (with_status status record) m, Ok tt)
  end.

Definition applyTakeover (op : Operation) (m : machine) : outcome :=
  match records m !! oID op with
  | None => (m, Err protocol_conflict)
  | Some record =>
      if negb (rStatus record =? StatusPending) || bool_decide (rHome record <> oHome op)
         || negb (rReadTime record =? oReadTime op) || negb (rCommitTime record =? oCommitTime op)
      then (m, Err protocol_conflict)
      else if oEpoch op =? rEpoch record then (m, Ok tt)
      else if negb (oEpoch op =? u64 (rEpoch record + 1)) then (m, Ok tt)
      else (set_record (oID op) (with_epoch (oEpoch op) record) m, Ok tt)
  end.

(** The conflict loop of [applyPrepare]: [Ok true] on the first conflict. *)
Fixpoint prepare_conflict (e : eng) (readTime : Z) (ws : list Write) : result (list range_error) bool :=
  match ws with
  | [] => Ok false
  | w :: ws' =>
      match GetMVCCAt (wKey w) MaxUint64 e with
      | Err err => if bool_decide (err = ErrNotFound) then prepare_conflict e readTime ws' else Err [err]
      | Ok selected =>
          if Byte.eqb (vKind selected) KindIntent || (readTime <? vTimestamp selected) then Ok true
          else prepare_conflict e readTime ws'
      end
  end.
(** The loop that builds the intents. *)
Fixpoint intent_mutations (op : Operation) (ws : list Write) : result (list range_error) (list Mutation) :=
  match ws with
  | [] => Ok []
  | w :: ws' =>
      match EncodeIntent {| iID := oID op; iReadTime := oReadTime op; iCommitTime := oCommitTime op;
        iEpoch := oEpoch op; iHome := oHome op; iDelete := wDelete w; iValue := wValue w |} with
      | Err e => Err [TxnError e]
      | Ok value => rest ← intent_mutations op ws'; Ok ({| mKey := wKey w; mValue := value; mKind := KindIntent |} :: rest)
      end
  end.

Definition new_participant (op : Operation) (status : Z) (ws : list Write) (reason : bytes) : ParticipantRecord :=
  {| pID := oID op; pStatus := status; pReadTime := oReadTime op; pCommitTime := oCommitTime op;
     pEpoch := oEpoch op; pHome := oHome op; pWrites := ws; pReason := reason |}.

Definition applyPrepare (cfg : range_config) (ent : Entry) (op : Operation) (alreadyDurable : bool) (m : machine) : outcome :=
  if existsb (fun w => out_of_range cfg (wKey w)) (oWrites op) then (m, Err [ErrKeyOutOfRange])
  else
    match participants m !! oID op with
    | Some existing =>
        if ((pStatus existing =? ParticipantCommitted) || (pStatus existing =? ParticipantAborted))
           && (oEpoch op <=? pEpoch existing)
        then advanceMetadata (Index ent) alreadyDurable m
        else if (pReadTime existing =? oReadTime op) && (pCommitTime existing =? oCommitTime op)
                && (pEpoch existing =? oEpoch op) && bool_decide (pHome existing = oHome op)
                && EqualWrites (pWrites existing) (oWrites op)
        then advanceMetadata (Index ent) alreadyDurable m
        else (m, Err protocol_conflict)
    | None =>
        let participant := new_participant op ParticipantPrepared (oWrites op) [] in
        if alreadyDurable then (set_participant (oID op) participant m, Ok tt)
        else
          match prepare_conflict (engine m) (oReadTime op) (oWrites op) with
          | Err e => (m, Err e)
          | Ok true =>
              let rejected := new_participant op ParticipantRejected (oWrites op) conflict_reason in
              advanceMetadata (Index ent) false (set_participant (oID op) rejected m)
          | Ok false =>
              match intent_mutations op (oWrites op) with
              | Err e => (m, Err e)
              | Ok mutations =>
                  let '(m, r) := run_engine (ApplyPreparedMVCCBatch (Index ent) (RaftTypes.Term ent) (oCommitTime op)
                                               (RaftTypes.Command ent) mutations) m in
                  match materialized r with
                  | Err e => (m, Err e)
                  | Ok _ =>
                      (set_participant (oID op) participant (set_maxApplied (Z.max (maxApplied m) (oCommitTime op)) m), Ok tt)
                  end
              end
          end
    end.

Definition resolved (status epoch : Z) (p : ParticipantRecord) : ParticipantRecord :=
  {| pID := pID p; pStatus := status; pReadTime := pReadTime p; pCommitTime := pCommitTime p;
     pEpoch := epoch; pHome := pHome p; pWrites := pWrites p; pReason := pReason p |}.
(** The mutation that resolves one write. *)
Definition resolution_mutation (status : Z) (w : Write) : Mutation :=
  if status =? ParticipantCommitted then
    if wDelete w then {| mKey := wKey w; mValue := []; mKind := KindDelete |}
    else {| mKey := wKey w; mValue := wValue w; mKind := KindValue |}
  else {| mKey := wKey w; mValue := []; mKind := KindTxnAbort |}.

Definition applyResolution (ent : Entry) (op : Operation) (status : Z) (alreadyDurable : bool) (m : machine) : outcome :=
  match participants m !! oID op with
  | None => advanceMetadata (Index ent) alreadyDurable (set_participant (oID op) (new_participant op status [] []) m)
  | Some participant =>
      if negb (pReadTime participant =? oReadTime op) || negb (pCommitTime participant =? oCommitTime op)
         || bool_decide (pHome participant <> oHome op)
      then (m, Err protocol_conflict)
      else if oEpoch op <? pEpoch participant then advanceMetadata (Index ent) alreadyDurable m
      else if pStatus participant =? status then advanceMetadata (Index ent) alreadyDurable m
      else if (pStatus participant =? ParticipantCommitted) || (pStatus participant =? ParticipantAborted)
      then (m, Err protocol_conflict)
      else if pStatus participant =? ParticipantRejected then
        advanceMetadata (Index ent) alreadyDurable
          (set_participant (oID op) (resolved status (oEpoch op) participant) m)
      else if alreadyDurable then (set_participant (oID op) (resolved status (oEpoch op) participant) m, Ok tt)
      else
        let mutations := resolution_mutation status <$> pWrites participant in
        let '(m, r) := run_engine (ResolveCommittedMVCCBatch (Index ent) (RaftTypes.Term ent) (pCommitTime participant)
                                     (RaftTypes.Command ent) mutations) m in
        match materialized r with
        | Err e => (m, Err e)
        | Ok _ => (set_participant (oID op) (resolved status (oEpoch op) participant) m, Ok tt)
        end
  end.

(** The switch of [applyTransaction]. *)
Definition apply_operation (cfg : range_config) (ent : Entry) (c : RangeCommand) (op : Operation) (alreadyDurable : bool)
    (m : machine) : outcome :=
  if cType c =? CommandTxnCreate then applyCreate cfg op m
  else if cType c =? CommandTxnPrepare then applyPrepare cfg ent op alreadyDurable m
  else if cType c =? CommandTxnCommit then applyDecision op StatusCommitted m
  else if cType c =? CommandTxnAbort then applyDecision op StatusAborted m
  else if cType c =? CommandTxnTakeover then applyTakeover op m
  else if cType c =? CommandTxnResolveCommit then applyResolution ent op ParticipantCommitted alreadyDurable m
  else if cType c =? CommandTxnResolveAbort then applyResolution ent op ParticipantAborted alreadyDurable m
  else (m, Err [ErrInvalidCommand]).
Definition applyTransaction (cfg : range_config) (ent : Entry) (c : RangeCommand) (alreadyDurable : bool) (m : machine) : outcome :=
  let m := observe (cTimestamp c) m in
  if cType c =? CommandTxnBarrier then
    advanceMetadata (Index ent) alreadyDurable (set_safeRead (Z.max (safeRead m) (cTimestamp c)) m)
  else
    match DecodeOperation (cValue c) with
    | Err e => (m, Err [TxnError e])
    | Ok op =>
        match apply_operation cfg ent c op alreadyDurable m with
        | (m, Err e) => (m, Err e)
        | (m, Ok _) =>
            if (cType c =? CommandTxnPrepare) || (cType c =? CommandTxnResolveCommit) || (cType c =? CommandTxnResolveAbort)
            then (m, Ok tt)
            else advanceMetadata (Index ent) alreadyDurable m
        end
    end.

(** ** Splits *)

Definition with_lifecycle (l : Z) (s : split_state) : split_state :=
  {| lifecycle := l; splitID := splitID s; splitEpoch := splitEpoch s; txnFence := txnFence s; userFence := userFence s;
     bootstrapIndex := bootstrapIndex s; bootstrapSplitID := bootstrapSplitID s; bootstrapParentID := bootstrapParentID s;
     bootstrapParentGen := bootstrapParentGen s; bootstrapImage := bootstrapImage s; fenceIndex := fenceIndex s;
     parentReplayThrough := parentReplayThrough s; provenance := provenance s; bootstrapSeen := bootstrapSeen s |}.
Definition with_split (id epoch : Z) (fence : bool) (s : split_state) : split_state :=
  {| lifecycle := lifecycle s; splitID := id; splitEpoch := epoch; txnFence := fence; userFence := userFence s;
     bootstrapIndex := bootstrapIndex s; bootstrapSplitID := bootstrapSplitID s; bootstrapParentID := bootstrapParentID s;
     bootstrapParentGen := bootstrapParentGen s; bootstrapImage := bootstrapImage s; fenceIndex := fenceIndex s;
     parentReplayThrough := parentReplayThrough s; provenance := provenance s; bootstrapSeen := bootstrapSeen s |}.
Definition with_user_fence (index : Z) (s : split_state) : split_state :=
  {| lifecycle := lifecycle s; splitID := splitID s; splitEpoch := splitEpoch s; txnFence := txnFence s; userFence := true;
     bootstrapIndex := bootstrapIndex s; bootstrapSplitID := bootstrapSplitID s; bootstrapParentID := bootstrapParentID s;
     bootstrapParentGen := bootstrapParentGen s; bootstrapImage := bootstrapImage s; fenceIndex := index;
     parentReplayThrough := parentReplayThrough s; provenance := provenance s; bootstrapSeen := bootstrapSeen s |}.
Definition with_bootstrap_index (index : Z) (s : split_state) : split_state :=
  {| lifecycle := lifecycle s; splitID := splitID s; splitEpoch := splitEpoch s; txnFence := txnFence s; userFence := userFence s;
     bootstrapIndex := index; bootstrapSplitID := bootstrapSplitID s; bootstrapParentID := bootstrapParentID s;
     bootstrapParentGen := bootstrapParentGen s; bootstrapImage := bootstrapImage s; fenceIndex := fenceIndex s;
     parentReplayThrough := parentReplayThrough s; provenance := provenance s; bootstrapSeen := bootstrapSeen s |}.
Definition with_bootstrap (op : SplitOperation) (s : split_state) : split_state :=
  {| lifecycle := lifecycle s; splitID := splitID s; splitEpoch := splitEpoch s; txnFence := txnFence s; userFence := userFence s;
     bootstrapIndex := bootstrapIndex s; bootstrapSplitID := SplitID op; bootstrapParentID := ParentRangeID op;
     bootstrapParentGen := ParentGeneration op; bootstrapImage := ImageDigest op; fenceIndex := fenceIndex s;
     parentReplayThrough := parentReplayThrough s; provenance := provenance s; bootstrapSeen := bootstrapSeen s |}.
Definition with_replay (through : Z) (prov : gmap Z bytes) (s : split_state) : split_state :=
  {| lifecycle := lifecycle s; splitID := splitID s; splitEpoch := splitEpoch s; txnFence := txnFence s; userFence := userFence s;
     bootstrapIndex := bootstrapIndex s; bootstrapSplitID := bootstrapSplitID s; bootstrapParentID := bootstrapParentID s;
     bootstrapParentGen := bootstrapParentGen s; bootstrapImage := bootstrapImage s; fenceIndex := fenceIndex s;
     parentReplayThrough := through; provenance := prov; bootstrapSeen := bootstrapSeen s |}.
Definition with_seen (digest : bytes) (s : split_state) : split_state :=
  {| lifecycle := lifecycle s; splitID := splitID s; splitEpoch := splitEpoch s; txnFence := txnFence s; userFence := userFence s;
     bootstrapIndex := bootstrapIndex s; bootstrapSplitID := bootstrapSplitID s; bootstrapParentID := bootstrapParentID s;
     bootstrapParentGen := bootstrapParentGen s; bootstrapImage := bootstrapImage s; fenceIndex := fenceIndex s;
     parentReplayThrough := parentReplayThrough s; provenance := provenance s; bootstrapSeen := {[digest]} ∪ bootstrapSeen s |}.

(** The bootstrap barrier on a shadow range. *)
Definition shadow_barrier (op : SplitOperation) (s : split_state) : result (list range_error) split_state :=
  s ← (if bootstrapSplitID s =? 0 then
         if (ParentIndex op =? 0) || (sTimestamp op =? 0) || bytes_eqb (ImageDigest op) zero_digest
         then Err [ErrInvalidCommand] else Ok (with_bootstrap op s)
       else if negb (bootstrapIndex s =? ParentIndex op)
               || (negb (bytes_eqb (ImageDigest op) zero_digest) && negb (bytes_eqb (bootstrapImage s) (ImageDigest op)))
       then Err [ErrSplitFenced] else Ok s);
  Ok (with_replay (Z.max (parentReplayThrough s) (ParentIndex op)) (provenance s)
        (with_bootstrap_index (ParentIndex op) (with_split (SplitID op) (splitEpoch s) (txnFence s) s))).

(** Whether a version of the parent is new to the shadow: its bookkeeping, or
    [None] when it was seen before. *)
Definition fresh_parent_version (ent : Entry) (op : SplitOperation) (s : split_state) : result (list range_error) (option split_state) :=
  if sType op =? SplitOpBootstrapVersion then
    if negb (bytes_eqb (ImageDigest op) (bootstrapImage s)) then Err [ErrSplitFenced]
    else
      let digest := Sum256 (RaftTypes.Command ent) in
      if bool_decide (digest ∈ bootstrapSeen s) then Ok None else Ok (Some (with_seen digest s))
  else if negb (ParentIndex op =? u64 (parentReplayThrough s + 1)) then
    match provenance s !! ParentIndex op with
    | Some digest => if bytes_eqb digest (CommandDigest op) then Ok None else Err [ErrSplitReplayOrder]
    | None => Err [ErrSplitReplayOrder]
    end
  else Ok (Some (with_replay (ParentIndex op) (<[ParentIndex op := CommandDigest op]> (provenance s)) s)).

Definition apply_version (ent : Entry) (c : RangeCommand) (op : SplitOperation) (alreadyDurable : bool) (m : machine) : outcome :=
  match fresh_parent_version ent op (split m) with
  | Err e => (m, Err e)
  | Ok None => advanceMetadata (Index ent) alreadyDurable m
  | Ok (Some s) =>
      let m := set_split s m in
      if alreadyDurable then (m, Ok tt)
      else
        let '(m, r) := run_engine (ApplyPreparedMVCCBatch (Index ent) (RaftTypes.Term ent) (sTimestamp op)
          (RaftTypes.Command ent) [{| mKey := cKey c; mValue := sValue op; mKind := sKind op |}]) m in
        match materialized r with
        | Err e => (m, Err e)
        | Ok _ => (observe (sTimestamp op) (set_maxApplied (Z.max (maxApplied m) (sTimestamp op)) m), Ok tt)
        end
  end.

Definition applySplit (ent : Entry) (c : RangeCommand) (alreadyDurable : bool) (m : machine) : outcome :=
  match DecodeSplitOperation (cValue c) with
  | Err e => (m, Err e)
  | Ok op =>
      let s := split m in
      if negb (splitID s =? 0) && (negb (splitID s =? SplitID op) || (sEpoch op <? splitEpoch s))
      then (m, Err [ErrSplitFenced])
      else if (lifecycle s =? LifecycleShadow) && negb (bootstrapSplitID s =? 0)
              && (negb (bootstrapSplitID s =? SplitID op) || negb (bootstrapParentID s =? ParentRangeID op)
                  || negb (bootstrapParentGen s =? ParentGeneration op))
      then (m, Err [ErrSplitFenced])
      else
        let s := if splitEpoch s <? sEpoch op then with_split (splitID s) (sEpoch op) (txnFence s) s else s in
        let m := set_split s m in
        let advance m := advanceMetadata (Index ent) alreadyDurable m in
        if sType op =? SplitOpBegin then
          if negb (lifecycle s =? LifecycleActive) || (userFence s && negb (splitID s =? SplitID op))
          then (m, Err [ErrRangeNotServing])
          else advance (set_split (with_split (SplitID op) (splitEpoch s) true s) m)
        else if sType op =? SplitOpBootstrapBarrier then
          if lifecycle s =? LifecycleActive then
            if negb (txnFence s) then (m, Err [ErrSplitFenced])
            else advance (observe (sTimestamp op) (set_split (with_bootstrap_index (Index ent) s) m))
          else if lifecycle s =? LifecycleShadow then
            match shadow_barrier op s with
            | Err e => (m, Err e)
            | Ok s => advance (observe (sTimestamp op)
                (set_safeRead (Z.max (safeRead m) (sTimestamp op)) (set_split s m)))
            end
          else (m, Err [ErrRangeNotServing])
        else if (sType op =? SplitOpBootstrapVersion) || (sType op =? SplitOpReplayVersion) then
          if negb (lifecycle s =? LifecycleShadow) || Byte.eqb (sKind op) KindIntent
          then (m, Err [ErrSplitFenced])
          else apply_version ent c op alreadyDurable m
        else if sType op =? SplitOpReplayAdvance then
          if negb (lifecycle s =? LifecycleShadow) || negb (ParentIndex op =? u64 (parentReplayThrough s + 1))
          then (m, Err [ErrSplitReplayOrder])
          else advance (set_safeRead (Z.max (safeRead m) (sTimestamp op)) (observe (sTimestamp op)
                 (set_split (with_replay (ParentIndex op) (provenance s) s) m)))
        else if sType op =? SplitOpFinalFence then
          if negb (lifecycle s =? LifecycleActive) || negb (txnFence s) then (m, Err [ErrSplitFenced])
          else advance (set_split (with_user_fence (Index ent) s) m)
        else if sType op =? SplitOpActivate then
          if (lifecycle s =? LifecycleActive) && (splitID s =? 0) then advance m
          else if negb (lifecycle s =? LifecycleShadow) || (parentReplayThrough s =? 0) then (m, Err [ErrSplitFenced])
          else advance (set_split (with_lifecycle LifecycleActive (with_split 0 0 (txnFence s) s)) m)
        else if sType op =? SplitOpRetire then
          if lifecycle s =? LifecycleRetired then advance m
          else if negb (lifecycle s =? LifecycleActive) || negb (userFence s) then (m, Err [ErrSplitFenced])
          else advance (set_split (with_lifecycle LifecycleRetired s) m)
        else if sType op =? SplitOpAbort then
          if userFence s || negb (lifecycle s =? LifecycleActive) then (m, Err [ErrSplitFenced])
          else advance (set_split (with_bootstrap_index 0 (with_split 0 0 false s)) m)
        else (m, Err [ErrInvalidCommand])
  end.

(** ** Apply *)

(** The default mode of machines built without a lifecycle. *)
Definition default_lifecycle (m : machine) : machine :=
  if lifecycle (split m) =? 0 then set_split (with_lifecycle LifecycleActive (split m)) m else m.

(** A single write. *)
Definition apply_write (cfg : range_config) (ent : Entry) (c : RangeCommand) (alreadyDurable : bool) (m : machine) : outcome :=
  if mvcc cfg && negb alreadyDurable && (cTimestamp c <=? maxApplied m) then (m, Err [ErrMVCCRegression])
  else if negb ((cType c =? CommandPut) || (cType c =? CommandDelete)) then (m, Err [ErrInvalidCommand])
  else
    let mutation := {| mKey := cKey c; mValue := cValue c;
                       mKind := if cType c =? CommandPut then KindValue else KindDelete |} in
    let '(m, r) :=
      if mvcc cfg then run_engine (ApplyCommittedMVCC (Index ent) (RaftTypes.Term ent) (cTimestamp c) (RaftTypes.Command ent) mutation) m
      else run_engine (ApplyCommitted (Index ent) (RaftTypes.Term ent) (RaftTypes.Command ent) mutation) m in
    match materialized r with
    | Err e => (m, Err e)
    | Ok _ =>
        if mvcc cfg && negb alreadyDurable then (observe (cTimestamp c) (set_maxApplied (cTimestamp c) m), Ok tt)
        else (m, Ok tt)
    end.

Definition Apply (cfg : range_config) (ent : Entry) (m : machine) : outcome :=
  let m := default_lifecycle m in
  match DecodeCommand (RaftTypes.Command ent) with
  | Err e => (m, Err e)
  | Ok c =>
      if out_of_range cfg (cKey c) then (m, Err [ErrKeyOutOfRange])
      else if negb (cType c =? CommandSplit) && negb (Bool.eqb (mvcc cfg) (negb (cTimestamp c =? 0)))
      then (m, Err [ErrInvalidCommand])
      else
        match DurableAppliedRaftIndex (engine m) with
        | Err e => (m, Err [e])
        | Ok frontier =>
            let alreadyDurable := Index ent <=? frontier in
            if cType c =? CommandSplit then applySplit ent c alreadyDurable m
            else if negb (lifecycle (split m) =? LifecycleActive) && negb (lifecycle (split m) =? LifecycleLearner)
                    || userFence (split m)
            then (m, Err [ErrRangeNotServing])
            else if CommandTxnBarrier <=? cType c then
              if txnFence (split m) && ((cType c =? CommandTxnCreate) || (cType c =? CommandTxnPrepare))
              then (m, Err [ErrSplitFenced])
              else applyTransaction cfg ent c alreadyDurable m
            else apply_write cfg ent c alreadyDurable m
        end
  end.

(** The committed entries in order; the first failure stops the node. *)
Fixpoint ApplyAll (cfg : range_config) (es : list Entry) (m : machine) : outcome :=
  match es with
  | [] => (m, Ok tt)
  | e :: es' =>
      match Apply cfg e m with
      | (m, Ok _) => ApplyAll cfg es' m
      | (m, Err err) => (m, Err err)
      end
  end.
End machine.
