(* ===== verification/StateSnapshot.v ===== *)
(** * Range snapshots (replicatedrange/state_snapshot.go)

    The logical image of a range (its versions, transaction records and
    participants with the watermarks), its wire format with the trailing
    checksum, and taking and installing an image.  The decoder's offset is the
    suffix that remains. *)

From S2P Require Import Prelude InternalKey Batch RaftTypes Crc32c Codec Parser Hlc Txn Command Sha256 MvccStore StateMachine.

Definition stateSnapshotVersion : Z := 1.
Definition stateSnapshotMagic : bytes := [Byte.x52; Byte.x56; Byte.x52; Byte.x53].

Record logicalStateImage := {
  im_rangeID : Z; im_generation : Z; im_applied : Z; im_maxApplied : Z; im_safeRead : Z; im_hlc : Z;
  im_lifecycle : Z; im_versions : list MVCCVersion; im_records : list TxnRecord; im_participants : list ParticipantRecord
}.

(** ** Encoding *)

Definition appendBytes (value : bytes) : bytes := le_put 4 (u32 (len value)) ++ value.
Definition encode_version (v : MVCCVersion) : bytes :=
  appendBytes (vKey v) ++ appendBytes (vValue v) ++ le_put 8 (vTimestamp v) ++ [vKind v; Byte.x00; Byte.x00; Byte.x00].
Definition append_participant (p : Participant) : bytes := le_put 8 (RangeID p) ++ le_put 8 (Generation p).
Definition appendTxnRecord (r : TxnRecord) : bytes :=
  rID r ++ [byte.of_Z (rStatus r); Byte.x00; Byte.x00; Byte.x00]
  ++ le_put 8 (rReadTime r) ++ le_put 8 (rCommitTime r) ++ le_put 8 (rEpoch r)
  ++ le_put 8 (RangeID (rHome r)) ++ le_put 8 (Generation (rHome r))
  ++ le_put 4 (u32 (len (rParticipants r))) ++ flat_map append_participant (rParticipants r).
Definition append_write (w : Write) : bytes :=
  [if wDelete w then Byte.x01 else Byte.x00] ++ appendBytes (wKey w) ++ appendBytes (wValue w).
Definition appendParticipantRecord (r : ParticipantRecord) : bytes :=
  pID r ++ [byte.of_Z (pStatus r); Byte.x00; Byte.x00; Byte.x00]
  ++ le_put 8 (pReadTime r) ++ le_put 8 (pCommitTime r) ++ le_put 8 (pEpoch r)
  ++ le_put 8 (RangeID (pHome r)) ++ le_put 8 (Generation (pHome r))
  ++ appendBytes (pReason r) ++ le_put 4 (u32 (len (pWrites r))) ++ flat_map append_write (pWrites r).

Definition image_bytes (i : logicalStateImage) : bytes :=
  stateSnapshotMagic ++ le_put 2 stateSnapshotVersion ++ [byte.of_Z (im_lifecycle i); Byte.x00]
  ++ le_put 8 (im_rangeID i) ++ le_put 8 (im_generation i) ++ le_put 8 (im_applied i)
  ++ le_put 8 (im_maxApplied i) ++ le_put 8 (im_safeRead i) ++ le_put 8 (im_hlc i)
  ++ le_put 4 (u32 (len (im_versions i))) ++ flat_map encode_version (im_versions i)
  ++ le_put 4 (u32 (len (im_records i))) ++ flat_map appendTxnRecord (im_records i)
  ++ le_put 4 (u32 (len (im_participants i))) ++ flat_map appendParticipantRecord (im_participants i).
Definition encodeLogicalState (i : logicalStateImage) : result (list range_error) bytes :=
  if (im_rangeID i =? 0) || (im_generation i =? 0) || (4000000 <? len (im_versions i))
     || (1000000 <? len (im_records i)) || (1000000 <? len (im_participants i))
  then Err [ErrInvalidOptions]
  else
    let result := image_bytes i in
    if Z.shiftl 16 20 <? len result + 4 then Err [ErrInvalidOptions]
    else Ok (result ++ le_put 4 (crc32_checksum result)).

(** ** Decoding *)

Abbreviation decoder A := (@parser (list range_error) A).
Definition invalid : list range_error := [ErrInvalidOptions].

Definition d_take (n : Z) : decoder bytes := take_bytes invalid n.
Definition d_u32 : decoder Z := le_value invalid 4.
Definition d_u64 : decoder Z := le_value invalid 8.
Definition d_bytes (limit : Z) : decoder bytes := fun s =>
  '(n, s) ← d_u32 s;
  if limit <? n then Err invalid else d_take n s.

Definition decode_version : decoder MVCCVersion := fun s =>
  '(key, s) ← d_bytes (Z.shiftl 1 20) s;
  '(value, s) ← d_bytes (Z.shiftl 8 20) s;
  '(ts, s) ← d_u64 s;
  '(kind, s) ← d_take 4 s;
  if negb (byte_at 1 kind =? 0) || negb (byte_at 2 kind =? 0) || negb (byte_at 3 kind =? 0) then Err invalid
  else Ok ({| vKey := key; vValue := value; vTimestamp := ts; vKind := default Byte.x00 (kind !! 0%nat) |}, s).

Definition decode_participant : decoder Participant := fun s =>
  '(rid, s) ← d_u64 s;
  '(gen, s) ← d_u64 s;
  Ok ({| RangeID := rid; Generation := gen |}, s).
Definition decodeTxnRecord : decoder TxnRecord := fun s =>
  '(b, s) ← d_take 20 s;
  if negb (byte_at 17 b =? 0) || negb (byte_at 18 b =? 0) || negb (byte_at 19 b =? 0) then Err invalid
  else
    '(readTime, s) ← d_u64 s;
    '(commitTime, s) ← d_u64 s;
    '(epoch, s) ← d_u64 s;
    '(home, s) ← decode_participant s;
    '(n, s) ← d_u32 s;
    if MaxParticipants <? n then Err invalid
    else
      '(ps, s) ← many decode_participant (Z.to_nat n) s;
      let r := {| rID := slice 0 16 b; rStatus := byte_at 16 b; rReadTime := readTime; rCommitTime := commitTime;
                  rEpoch := epoch; rHome := home; rParticipants := ps |} in
      if IsZero (rID r) || negb (Status_Valid (rStatus r)) || (rEpoch r =? 0) then Err invalid else Ok (r, s).

Definition decode_write : decoder Write := fun s =>
  '(flag, s) ← d_take 1 s;
  if 1 <? byte_at 0 flag then Err invalid
  else
    '(key, s) ← d_bytes (Z.shiftl 1 20) s;
    '(value, s) ← d_bytes (Z.shiftl 8 20) s;
    Ok ({| wKey := key; wValue := value; wDelete := byte_at 0 flag =? 1 |}, s).
Definition decodeParticipantRecord : decoder ParticipantRecord := fun s =>
  '(b, s) ← d_take 20 s;
  if negb (byte_at 17 b =? 0) || negb (byte_at 18 b =? 0) || negb (byte_at 19 b =? 0) then Err invalid
  else
    '(readTime, s) ← d_u64 s;
    '(commitTime, s) ← d_u64 s;
    '(epoch, s) ← d_u64 s;
    '(home, s) ← decode_participant s;
    '(reason, s) ← d_bytes (Z.shiftl 1 16) s;
    '(n, s) ← d_u32 s;
    if MaxWrites <? n then Err invalid
    else
      '(ws, s) ← many decode_write (Z.to_nat n) s;
      let r := {| pID := slice 0 16 b; pStatus := byte_at 16 b; pReadTime := readTime; pCommitTime := commitTime;
                  pEpoch := epoch; pHome := home; pWrites := ws; pReason := reason |} in
      if IsZero (pID r) || negb (ParticipantStatus_Valid (pStatus r)) || (pEpoch r =? 0) then Err invalid else Ok (r, s).

(** A counted sequence: the count has a limit. *)
Definition counted {A} (limit : Z) (p : decoder A) : decoder (list A) := fun s =>
  '(n, s) ← d_u32 s;
  if limit <? n then Err invalid else many p (Z.to_nat n) s.

Definition decode_payload (payload : bytes) : result (list range_error) logicalStateImage :=
  '(magic, s) ← d_take 4 payload;
  if negb (bytes_eqb magic stateSnapshotMagic) then Err invalid
  else
    '(ver, s) ← d_take 2 s;
    if negb (le_get ver =? stateSnapshotVersion) then Err invalid
    else
      '(flags, s) ← d_take 2 s;
      if negb (byte_at 1 flags =? 0) then Err invalid
      else
        '(rangeID, s) ← d_u64 s;
        '(generation, s) ← d_u64 s;
        '(applied, s) ← d_u64 s;
        '(maxApplied, s) ← d_u64 s;
        '(safeRead, s) ← d_u64 s;
        '(hlc, s) ← d_u64 s;
        '(versions, s) ← counted 4000000 decode_version s;
        '(records, s) ← counted 1000000 decodeTxnRecord s;
        '(participants, s) ← counted 1000000 decodeParticipantRecord s;
        let lifecycle := byte_at 0 flags in
        if negb (len s =? 0) || (rangeID =? 0) || (generation =? 0) || (applied =? 0)
           || (lifecycle <? LifecycleActive) || (LifecycleLearner <? lifecycle)
        then Err invalid
        else Ok {| im_rangeID := rangeID; im_generation := generation; im_applied := applied;
                   im_maxApplied := maxApplied; im_safeRead := safeRead; im_hlc := hlc; im_lifecycle := lifecycle;
                   im_versions := versions; im_records := records; im_participants := participants |}.
Definition decodeLogicalState (encoded : bytes) : result (list range_error) logicalStateImage :=
  if (len encoded <? 64) || (Z.shiftl 16 20 <? len encoded) then Err invalid
  else
    let cut := (length encoded - 4)%nat in
    let want := le_get (drop cut encoded) in
    let payload := take cut encoded in
    if negb (crc32_checksum payload =? want) then Err invalid else decode_payload payload.

(** ** The decoders are exact *)

Definition version_ok (v : MVCCVersion) : Prop :=
  len (vKey v) <= Z.shiftl 1 20 /\ len (vValue v) <= Z.shiftl 8 20 /\ is_u64 (vTimestamp v).
Definition txn_record_ok (r : TxnRecord) : Prop :=
  length (rID r) = IDSize /\ IsZero (rID r) = false /\ Status_Valid (rStatus r) = true /\
  is_u64 (rReadTime r) /\ is_u64 (rCommitTime r) /\ is_u64 (rEpoch r) /\ rEpoch r <> 0 /\ participant_typed (rHome r) /\
  len (rParticipants r) <= MaxParticipants /\ Forall participant_typed (rParticipants r).
Definition write_ok (w : Write) : Prop := len (wKey w) <= Z.shiftl 1 20 /\ len (wValue w) <= Z.shiftl 8 20.
Definition participant_record_ok (p : ParticipantRecord) : Prop :=
  length (pID p) = IDSize /\ IsZero (pID p) = false /\ ParticipantStatus_Valid (pStatus p) = true /\
  is_u64 (pReadTime p) /\ is_u64 (pCommitTime p) /\ is_u64 (pEpoch p) /\ pEpoch p <> 0 /\ participant_typed (pHome p) /\
  len (pReason p) <= Z.shiftl 1 16 /\ len (pWrites p) <= MaxWrites /\ Forall write_ok (pWrites p).
Record image_ok (i : logicalStateImage) : Prop := {
  io_rangeID : is_u64 (im_rangeID i) /\ im_rangeID i <> 0;
  io_generation : is_u64 (im_generation i) /\ im_generation i <> 0;
  io_applied : is_u64 (im_applied i) /\ im_applied i <> 0;
  io_times : is_u64 (im_maxApplied i) /\ is_u64 (im_safeRead i) /\ is_u64 (im_hlc i);
  io_lifecycle : LifecycleActive <= im_lifecycle i <= LifecycleLearner;
  io_versions : Forall version_ok (im_versions i);
  io_records : Forall txn_record_ok (im_records i);
  io_participants : Forall participant_record_ok (im_participants i)
}.

#[export] Instance is_u64_dec z : Decision (is_u64 z).
Proof. unfold is_u64. apply _. Defined.
#[export] Instance participant_typed_dec p : Decision (participant_typed p).
Proof. unfold participant_typed. apply _. Defined.
#[export] Instance version_ok_dec v : Decision (version_ok v).
Proof. unfold version_ok. apply _. Defined.
#[export] Instance txn_record_ok_dec r : Decision (txn_record_ok r).
Proof. unfold txn_record_ok. apply _. Defined.
#[export] Instance write_ok_dec w : Decision (write_ok w).
Proof. unfold write_ok. apply _. Defined.
#[export] Instance participant_record_ok_dec p : Decision (participant_record_ok p).
Proof. unfold participant_record_ok. apply _. Defined.
(** The well-formedness of an image, decided. *)
Definition image_okb (i : logicalStateImage) : bool :=
  bool_decide (is_u64 (im_rangeID i) /\ im_rangeID i <> 0) && bool_decide (is_u64 (im_generation i) /\ im_generation i <> 0)
  && bool_decide (is_u64 (im_applied i) /\ im_applied i <> 0)
  && bool_decide (is_u64 (im_maxApplied i) /\ is_u64 (im_safeRead i) /\ is_u64 (im_hlc i))
  && bool_decide (LifecycleActive <= im_lifecycle i <= LifecycleLearner)
  && bool_decide (Forall version_ok (im_versions i)) && bool_decide (Forall txn_record_ok (im_records i))
  && bool_decide (Forall participant_record_ok (im_participants i)).
Lemma image_okb_ok i : image_okb i = true -> image_ok i.
Proof.
  unfold image_okb. rewrite !andb_true_iff, !bool_decide_eq_true. intros (((((((? & ?) & ?) & ?) & ?) & ?) & ?) & ?). by split.
Qed.

Lemma d_u32_exact : exact d_u32 (le_put 4) is_u32.
Proof. apply (le_value_exact invalid 4). Qed.
Lemma d_u64_exact : exact d_u64 (le_put 8) is_u64.
Proof. apply (le_value_exact invalid 8). Qed.
Lemma d_take_exact n : 0 <= n -> exact (d_take n) (fun b => b) (fun b => len b = n).
Proof. apply take_bytes_exact. Qed.

(** A decoder step in either direction. *)
Tactic Notation "read_step" hyp(Hd) constr(lem) simple_intropattern(a) simple_intropattern(s) :=
  apply (bind_exact _ _ _ _ _ _ lem) in Hd; destruct Hd as (a & s & ? & -> & Hd).
Tactic Notation "guard_step" hyp(Hd) simple_intropattern(Hb) :=
  match type of Hd with (if ?b then _ else _) = _ => destruct b eqn:Hb; [done|] end.
Ltac write_step lem := apply (bind_exact _ _ _ _ _ _ lem); eexists _, _; split; [|split; [reflexivity|]].

Lemma d_bytes_exact limit : limit < 2 ^ 32 -> exact (d_bytes limit) appendBytes (fun b => len b <= limit).
Proof.
  intros Hlim s a rest. unfold d_bytes, appendBytes. split.
  - intros Hd. read_step Hd d_u32_exact n s1. destruct (Z.ltb_spec limit n); [done|].
    apply d_take_exact in Hd as [Hlen ->]; [|unfold is_u32 in *; lia].
    rewrite Hlen. split; [done|]. rewrite u32_id by done. by rewrite <- app_assoc.
  - intros [Hlen ->]. pose proof (len_nonneg a). assert (is_u32 (len a)) as Hu by (unfold is_u32; lia).
    rewrite u32_id, <- app_assoc by done. write_step d_u32_exact; [done|].
    rewrite (proj2 (Z.ltb_ge _ _) Hlen). by apply d_take_exact.
Qed.
Lemma d_key_exact : exact (d_bytes (Z.shiftl 1 20)) appendBytes (fun b => len b <= Z.shiftl 1 20).
Proof. by apply d_bytes_exact. Qed.
Lemma d_value_exact : exact (d_bytes (Z.shiftl 8 20)) appendBytes (fun b => len b <= Z.shiftl 8 20).
Proof. by apply d_bytes_exact. Qed.
Lemma d_reason_exact : exact (d_bytes (Z.shiftl 1 16)) appendBytes (fun b => len b <= Z.shiftl 1 16).
Proof. by apply d_bytes_exact. Qed.

(** Four bytes whose last three are zero. *)
Lemma padded_byte b : len b = 4 ->
  negb (byte_at 1 b =? 0) || negb (byte_at 2 b =? 0) || negb (byte_at 3 b =? 0) = false ->
  b = [default Byte.x00 (b !! 0%nat); Byte.x00; Byte.x00; Byte.x00].
Proof.
  intros Hlen. do 4 (destruct b as [|? b]; [done|]). destruct b; [|unfold len in Hlen; cbn in Hlen; lia].
  unfold byte_at. cbn. intros [[H1 H2]%orb_false_iff H3]%orb_false_iff.
  apply negb_false_iff, Z.eqb_eq in H1, H2, H3. change 0 with (byte.unsigned Byte.x00) in H1, H2, H3.
  apply byte_unsigned_inj in H1, H2, H3. by subst.
Qed.
Lemma decode_version_exact : exact decode_version encode_version version_ok.
Proof.
  intros s v rest. unfold decode_version, encode_version. split.
  - intros Hd. read_step Hd d_key_exact key s1. read_step Hd d_value_exact value s2.
    read_step Hd d_u64_exact ts s3. read_step Hd (d_take_exact 4 (Zle_bool_imp_le 0 4 eq_refl)) b s4.
    guard_step Hd Hpad. injection Hd as <- <-. cbn. split; [done|].
    rewrite (padded_byte b) by done. by rewrite <- !app_assoc.
  - intros [(Hk & Hv & Ht) ->]. rewrite <- !app_assoc. write_step d_key_exact; [done|]. write_step d_value_exact; [done|].
    write_step d_u64_exact; [done|]. write_step (d_take_exact 4 (Zle_bool_imp_le 0 4 eq_refl)); [done|]. cbn. by destruct v.
Qed.
Lemma decode_participant_exact : exact decode_participant append_participant participant_typed.
Proof.
  intros s p rest. unfold decode_participant, append_participant. split.
  - intros Hd. read_step Hd d_u64_exact r s1. read_step Hd d_u64_exact g s2. injection Hd as <- <-.
    split; [by split|]. by rewrite <- app_assoc.
  - intros [[Hr Hg] ->]. rewrite <- app_assoc. write_step d_u64_exact; [done|]. write_step d_u64_exact; [done|]. by destruct p.
Qed.

(** The first 20 bytes of a record: the ID, the status and three zeros. *)
Lemma record_head b : len b = 20 -> negb (byte_at 17 b =? 0) || negb (byte_at 18 b =? 0) || negb (byte_at 19 b =? 0) = false ->
  b = slice 0 16 b ++ [byte.of_Z (byte_at 16 b); Byte.x00; Byte.x00; Byte.x00].
Proof.
  intros Hlen [[H1 H2]%orb_false_iff H3]%orb_false_iff. apply negb_false_iff, Z.eqb_eq in H1, H2, H3.
  change Byte.x00 with (byte.of_Z 0). rewrite (slice_bytes4 16 b (byte_at 16 b) 0 0 0); [|unfold len in *; lia|done..].
  rewrite slice_join by lia. unfold slice. rewrite drop_0, take_ge; [done|unfold len in *; lia].
Qed.
Lemma record_head_ok id status : length id = IDSize -> 0 <= status < 256 ->
  let b := id ++ [byte.of_Z status; Byte.x00; Byte.x00; Byte.x00] in
  len b = 20 /\ slice 0 16 b = id /\ byte_at 16 b = status /\
  negb (byte_at 17 b =? 0) || negb (byte_at 18 b =? 0) || negb (byte_at 19 b =? 0) = false.
Proof.
  intros Hid Hst b. unfold IDSize in Hid. subst b. rewrite !(byte_at_skip 16) by (done || lia). cbn.
  rewrite slice_here by done. split_and!; try done; [unfold len; rewrite length_app, Hid; done|].
  rewrite byte_at_0. by apply unsigned_of_Z_small.
Qed.

Lemma decodeTxnRecord_exact : exact decodeTxnRecord appendTxnRecord txn_record_ok.
Proof.
  intros s r rest. unfold decodeTxnRecord, appendTxnRecord. split.
  - intros Hd. read_step Hd (d_take_exact 20 (Zle_bool_imp_le 0 20 eq_refl)) b s1. guard_step Hd Hpad.
    read_step Hd d_u64_exact rt s2. read_step Hd d_u64_exact ct s3. read_step Hd d_u64_exact ep s4.
    read_step Hd decode_participant_exact home s5. read_step Hd d_u32_exact n s6. guard_step Hd Hn. apply Z.ltb_ge in Hn.
    read_step Hd (many_exact _ _ _ (Z.to_nat n) decode_participant_exact) ps s7. cbn zeta in Hd. guard_step Hd Hbad.
    injection Hd as <- <-. cbn in *. apply orb_false_iff in Hbad as [[Hz Hst]%orb_false_iff Hep].
    apply negb_false_iff in Hst. apply Z.eqb_neq in Hep. destruct H5 as [Hlen Hps].
    assert (len ps = n) as Hn' by (unfold len, is_u32 in *; lia). split.
    + unfold txn_record_ok. cbn. split_and!; try done; [|lia]. rewrite slice_length; unfold len, IDSize in *; lia.
    + rewrite Hn', u32_id by done. rewrite (record_head b) at 1 by done. by rewrite <- !app_assoc.
  - intros [(Hid & Hz & Hst & Hrt & Hct & Hep & Hep0 & Hh & Hn & Hps) ->].
    destruct (record_head_ok (rID r) (rStatus r) Hid) as (Hb & Hs & Hb16 & Hpad).
    { unfold Status_Valid, StatusPending, StatusCommitted, StatusAborted in Hst. lia. }
    rewrite <- !app_assoc, app_assoc. change (length (rID r) = 16%nat) in Hid.
    write_step (d_take_exact 20 (Zle_bool_imp_le 0 20 eq_refl)); [done|]. rewrite Hpad, Hs, Hb16.
    do 3 (write_step d_u64_exact; [done|]). rewrite (app_assoc (le_put 8 (RangeID _))).
    write_step decode_participant_exact; [done|]. pose proof (len_nonneg (rParticipants r)).
    assert (is_u32 (len (rParticipants r))) as Hu by (unfold is_u32, MaxParticipants in *; lia). rewrite u32_id by done.
    write_step d_u32_exact; [done|]. rewrite (proj2 (Z.ltb_ge _ _) Hn).
    write_step (many_exact _ _ _ (Z.to_nat (len (rParticipants r))) decode_participant_exact).
    { split; [unfold len; lia|done]. }
    cbn. rewrite Hz, Hst, (proj2 (Z.eqb_neq _ _) Hep0). cbn. by destruct r.
Qed.
Lemma flag_byte b : len b = 1 -> (1 <? byte_at 0 b) = false -> b = [if byte_at 0 b =? 1 then Byte.x01 else Byte.x00].
Proof.
  intros Hlen Hb. destruct b as [|x [|y b]]; [done| |unfold len in Hlen; cbn in Hlen; lia].
  rewrite byte_at_0 in *. apply Z.ltb_ge in Hb. pose proof (byte.unsigned_range x). f_equal. apply byte_unsigned_inj.
  destruct (Z.eqb_spec (byte.unsigned x) 1) as [->|]; [done|]. change (byte.unsigned Byte.x00) with 0. lia.
Qed.
Lemma decode_write_exact : exact decode_write append_write write_ok.
Proof.
  intros s w rest. unfold decode_write, append_write. split.
  - intros Hd. read_step Hd (d_take_exact 1 (Zle_bool_imp_le 0 1 eq_refl)) b s1. guard_step Hd Hflag.
    read_step Hd d_key_exact key s2. read_step Hd d_value_exact value s3. injection Hd as <- <-. cbn. split; [done|].
    rewrite (flag_byte b) at 1 by done. by rewrite <- !app_assoc.
  - intros [[Hk Hv] ->]. rewrite <- !app_assoc. write_step (d_take_exact 1 (Zle_bool_imp_le 0 1 eq_refl)); [done|].
    assert ((1 <? byte_at 0 [if wDelete w then Byte.x01 else Byte.x00]) = false
      /\ (byte_at 0 [if wDelete w then Byte.x01 else Byte.x00] =? 1) = wDelete w) as [-> ->] by by destruct (wDelete w).
    write_step d_key_exact; [done|]. write_step d_value_exact; [done|]. by destruct w.
Qed.
Lemma decodeParticipantRecord_exact : exact decodeParticipantRecord appendParticipantRecord participant_record_ok.
Proof.
  intros s r rest. unfold decodeParticipantRecord, appendParticipantRecord. split.
  - intros Hd. read_step Hd (d_take_exact 20 (Zle_bool_imp_le 0 20 eq_refl)) b s1. guard_step Hd Hpad.
    read_step Hd d_u64_exact rt s2. read_step Hd d_u64_exact ct s3. read_step Hd d_u64_exact ep s4.
    read_step Hd decode_participant_exact home s5. read_step Hd d_reason_exact reason s6.
    read_step Hd d_u32_exact n s7. guard_step Hd Hn. apply Z.ltb_ge in Hn.
    read_step Hd (many_exact _ _ _ (Z.to_nat n) decode_write_exact) ws s8. cbn zeta in Hd. guard_step Hd Hbad.
    injection Hd as <- <-. cbn in *. apply orb_false_iff in Hbad as [[Hz Hst]%orb_false_iff Hep].
    apply negb_false_iff in Hst. apply Z.eqb_neq in Hep. destruct H6 as [Hlen Hws].
    assert (len ws = n) as Hn' by (unfold len, is_u32 in *; lia). split.
    + unfold participant_record_ok. cbn. split_and!; try done; [|lia]. rewrite slice_length; unfold len, IDSize in *; lia.
    + rewrite Hn', u32_id by done. rewrite (record_head b) at 1 by done. unfold append_participant.
      rewrite <- !app_assoc. cbn [app]. by rewrite <- !app_assoc.
  - intros [(Hid & Hz & Hst & Hrt & Hct & Hep & Hep0 & Hh & Hre & Hn & Hws) ->].
    destruct (record_head_ok (pID r) (pStatus r) Hid) as (Hb & Hs & Hb16 & Hpad).
    { unfold ParticipantStatus_Valid, ParticipantPrepared, ParticipantAborted in Hst. lia. }
    rewrite <- !app_assoc, app_assoc. change (length (pID r) = 16%nat) in Hid.
    write_step (d_take_exact 20 (Zle_bool_imp_le 0 20 eq_refl)); [done|]. rewrite Hpad, Hs, Hb16.
    do 3 (write_step d_u64_exact; [done|]). rewrite (app_assoc (le_put 8 (RangeID _))).
    write_step decode_participant_exact; [done|]. write_step d_reason_exact; [done|]. pose proof (len_nonneg (pWrites r)).
    assert (is_u32 (len (pWrites r))) as Hu by (unfold is_u32, MaxWrites in *; lia). rewrite u32_id by done.
    write_step d_u32_exact; [done|]. rewrite (proj2 (Z.ltb_ge _ _) Hn).
    write_step (many_exact _ _ _ (Z.to_nat (len (pWrites r))) decode_write_exact).
    { split; [unfold len; lia|done]. }
    cbn. rewrite Hz, Hst, (proj2 (Z.eqb_neq _ _) Hep0). cbn. by destruct r.
Qed.

Lemma counted_exact {A} limit (p : decoder A) enc ok : limit < 2 ^ 32 -> exact p enc ok ->
  exact (counted limit p) (fun l => le_put 4 (u32 (len l)) ++ flat_map enc l) (fun l => len l <= limit /\ Forall ok l).
Proof.
  intros Hlim Hp s l rest. unfold counted. split.
  - intros Hd. read_step Hd d_u32_exact n s1. guard_step Hd Hn. apply Z.ltb_ge in Hn.
    apply (many_exact _ _ _ _ Hp) in Hd as [[Hlen Hf] ->]. assert (len l = n) as -> by (unfold len, is_u32 in *; lia).
    rewrite u32_id, <- app_assoc by done. done.
  - intros [[Hlen Hf] ->]. pose proof (len_nonneg l). assert (is_u32 (len l)) as Hu by (unfold is_u32; lia).
    rewrite u32_id, <- app_assoc by done. write_step d_u32_exact; [done|]. rewrite (proj2 (Z.ltb_ge _ _) Hlen).
    apply (many_exact _ _ _ _ Hp). split; [split; [unfold len; lia|done]|done].
Qed.
Lemma versions_exact : exact (counted 4000000 decode_version)
  (fun l => le_put 4 (u32 (len l)) ++ flat_map encode_version l) (fun l => len l <= 4000000 /\ Forall version_ok l).
Proof. by apply counted_exact; [|apply decode_version_exact]. Qed.
Lemma records_exact : exact (counted 1000000 decodeTxnRecord)
  (fun l => le_put 4 (u32 (len l)) ++ flat_map appendTxnRecord l) (fun l => len l <= 1000000 /\ Forall txn_record_ok l).
Proof. by apply counted_exact; [|apply decodeTxnRecord_exact]. Qed.
Lemma participants_exact : exact (counted 1000000 decodeParticipantRecord)
  (fun l => le_put 4 (u32 (len l)) ++ flat_map appendParticipantRecord l)
  (fun l => len l <= 1000000 /\ Forall participant_record_ok l).
Proof. by apply counted_exact; [|apply decodeParticipantRecord_exact]. Qed.

(** Within the limits on the number of parts. *)
Definition image_counts (i : logicalStateImage) : Prop :=
  len (im_versions i) <= 4000000 /\ len (im_records i) <= 1000000 /\ len (im_participants i) <= 1000000.

Lemma lifecycle_flags b : len b = 2 -> negb (byte_at 1 b =? 0) = false -> b = [byte.of_Z (byte_at 0 b); Byte.x00].
Proof.
  intros Hlen Hb. destruct b as [|x [|y [|z b]]]; try done; [|unfold len in Hlen; cbn in Hlen; lia].
  rewrite byte_at_S, byte_at_0 in *. apply negb_false_iff, Z.eqb_eq in Hb. change 0 with (byte.unsigned Byte.x00) in Hb.
  apply byte_unsigned_inj in Hb. by rewrite byte.of_Z_unsigned, Hb.
Qed.
Lemma decode_payload_exact payload i : decode_payload payload = Ok i <->
  image_ok i /\ image_counts i /\ payload = image_bytes i.
Proof.
  unfold decode_payload, image_bytes. split.
  - intros Hd. read_step Hd (d_take_exact 4 (Zle_bool_imp_le 0 4 eq_refl)) magic s1. guard_step Hd Hmagic.
    read_step Hd (d_take_exact 2 (Zle_bool_imp_le 0 2 eq_refl)) ver s2. guard_step Hd Hver.
    read_step Hd (d_take_exact 2 (Zle_bool_imp_le 0 2 eq_refl)) flags s3. guard_step Hd Hflags.
    read_step Hd d_u64_exact rid s4. read_step Hd d_u64_exact gen s5. read_step Hd d_u64_exact app s6.
    read_step Hd d_u64_exact mx s7. read_step Hd d_u64_exact sr s8. read_step Hd d_u64_exact hlc s9.
    read_step Hd versions_exact vs s10. read_step Hd records_exact rs s11. read_step Hd participants_exact ps s12.
    cbn zeta in Hd. guard_step Hd Hbad. injection Hd as <-.
    apply negb_false_iff, bytes_eqb_eq in Hmagic. apply negb_false_iff, Z.eqb_eq in Hver. subst magic.
    repeat (apply orb_false_iff in Hbad as [Hbad ?]). apply negb_false_iff, Z.eqb_eq in Hbad.
    assert (s12 = []) as -> by (destruct s12; [done|unfold len in Hbad; cbn in Hbad; lia]).
    assert (ver = le_put 2 stateSnapshotVersion) as -> by (rewrite <- Hver; symmetry; apply le_put_get; unfold len in *; lia).
    split; [|split].
    + split; cbn; first [split; [done|lia]|tauto|lia].
    + unfold image_counts. cbn. tauto.
    + cbn [im_rangeID im_generation im_applied im_maxApplied im_safeRead im_hlc im_lifecycle im_versions im_records im_participants].
      rewrite (lifecycle_flags flags) at 1 by done. by rewrite app_nil_r, <- !app_assoc.
  - intros ([[] [] [] (? & ? & ?) Hlc Hvs Hrs Hps] & (? & ? & ?) & ->).
    write_step (d_take_exact 4 (Zle_bool_imp_le 0 4 eq_refl)); [done|]. rewrite bytes_eqb_refl. cbn [negb].
    write_step (d_take_exact 2 (Zle_bool_imp_le 0 2 eq_refl)); [done|].
    write_step (d_take_exact 2 (Zle_bool_imp_le 0 2 eq_refl)); [done|].
    do 6 (write_step d_u64_exact; [done|]).
    rewrite (app_assoc (le_put 4 _)). write_step versions_exact; [done|].
    rewrite (app_assoc (le_put 4 _)). write_step records_exact; [done|].
    rewrite <- (app_nil_r (le_put 4 _ ++ flat_map appendParticipantRecord _)).
    write_step participants_exact; [done|]. cbn zeta.
    rewrite byte_at_0, unsigned_of_Z_small by (unfold LifecycleActive, LifecycleLearner in *; lia).
    rewrite (proj2 (Z.eqb_neq (im_rangeID i) 0)), (proj2 (Z.eqb_neq (im_generation i) 0)),
      (proj2 (Z.eqb_neq (im_applied i) 0)) by done.
    rewrite !(proj2 (Z.ltb_ge _ _)) by lia. by destruct i.
Qed.

Lemma image_bytes_len i : 64 <= len (image_bytes i) + 4.
Proof.
  unfold image_bytes. rewrite !len_app, !len_le_put. change (len stateSnapshotMagic) with 4.
  change (len [byte.of_Z (im_lifecycle i); Byte.x00]) with 2.
  pose proof (len_nonneg (flat_map encode_version (im_versions i))).
  pose proof (len_nonneg (flat_map appendTxnRecord (im_records i))).
  pose proof (len_nonneg (flat_map appendParticipantRecord (im_participants i))). lia.
Qed.
Lemma encodeLogicalState_Ok i e : image_ok i ->
  encodeLogicalState i = Ok e <-> image_counts i /\ len (image_bytes i) + 4 <= Z.shiftl 16 20 /\
    e = image_bytes i ++ le_put 4 (crc32_checksum (image_bytes i)).
Proof.
  intros [[_ Hr] [_ Hg] _ _ _ _ _ _]. unfold encodeLogicalState, image_counts.
  rewrite (proj2 (Z.eqb_neq _ _) Hr), (proj2 (Z.eqb_neq _ _) Hg). cbn [orb].
  destruct (Z.ltb_spec 4000000 (len (im_versions i))); [split; [done|lia]|].
  destruct (Z.ltb_spec 1000000 (len (im_records i))); [split; [done|lia]|].
  destruct (Z.ltb_spec 1000000 (len (im_participants i))); [split; [done|lia]|]. cbn [orb]. cbv zeta.
  destruct (Z.ltb_spec (Z.shiftl 16 20) (len (image_bytes i) + 4)); [split; [done|lia]|].
  split; [by intros [= <-]|]. by intros (_ & _ & ->).
Qed.

Lemma decode_logical_inv e i : decodeLogicalState e = Ok i -> image_ok i /\ encodeLogicalState i = Ok e.
Proof.
  unfold decodeLogicalState. destruct (Z.ltb_spec (len e) 64); [done|]. destruct (Z.ltb_spec (Z.shiftl 16 20) (len e)); [done|]. cbn [orb]. cbv zeta.
  set (payload := take _ e). destruct (Z.eqb_spec (crc32_checksum payload) (le_get (drop (length e - 4) e))) as [Hcrc|]; [|done].
  intros Hd. apply decode_payload_exact in Hd as (Hok & Hc & Hp). split; [done|]. apply encodeLogicalState_Ok; [done|].
  assert (len payload = len e - 4) as Hlen.
  { unfold payload. rewrite len_take by lia. unfold len in *. lia. }
  rewrite <- Hp. split_and!; [done|lia|]. rewrite Hcrc, le_put_get by (rewrite length_drop; unfold len in *; lia).
  unfold payload. by rewrite take_drop.
Qed.
Lemma decode_logical_state e i : image_ok i -> encodeLogicalState i = Ok e -> decodeLogicalState e = Ok i.
Proof.
  unfold decodeLogicalState. intros Hok He. apply encodeLogicalState_Ok in He as (Hc & Hsize & ->); [|done].
  pose proof (image_bytes_len i) as Hmin. set (p := image_bytes i) in *.
  rewrite len_app, len_le_put. change (Z.of_nat 4) with 4.
  rewrite (proj2 (Z.ltb_ge _ 64)), (proj2 (Z.ltb_ge (Z.shiftl 16 20) _)) by lia. cbn [orb]. cbv zeta.
  rewrite length_app, le_put_length. replace (length p + 4 - 4)%nat with (length p) by lia.
  rewrite take_app_length, drop_app_length, le_get_put, Z.mod_small by apply crc32_checksum_range.
  rewrite Z.eqb_refl. by apply decode_payload_exact.
Qed.

(** C33. Snapshot images round trip exactly: [decodeLogicalState] accepts a
    string precisely when it is the encoding of a well-formed image within the
    limits of the format, and returns that image.  In particular an image
    with a version of more than 8 MiB encodes to a string no range restores. *)
Theorem snapshot_codec e i :
  decodeLogicalState e = Ok i <-> image_ok i /\ encodeLogicalState i = Ok e.
Proof. split; [apply decode_logical_inv|]. intros [Hok He]. by apply decode_logical_state. Qed.
