(* ===== verification/RefEngine.v ===== *)
(** * The reference engine

    The simplest implementation of the engine interface: one versioned store
    with its applied and durable indexes.  It satisfies [EngineLaws], so the
    theorems about the state machine are not vacuous, and it runs. *)

From S2P Require Import Prelude InternalKey Batch Command MvccStore StateMachine.

Record ref_engine := { ref_store : store; ref_applied : Z; ref_durable : Z }.
Definition ref_empty : ref_engine := {| ref_store := []; ref_applied := 0; ref_durable := 0 |}.

Definition ref_batch (index ts : Z) (ms : list Mutation) (s : ref_engine) : ref_engine * result range_error unit :=
  if index <=? ref_applied s then (s, Err ErrAlreadyApplied)
  else if ts <? 0 then (s, Err ErrEngine)
  else ({| ref_store := put_all ts ms (ref_store s); ref_applied := index; ref_durable := ref_durable s |}, Ok tt).
Definition ref_advance (index : Z) (s : ref_engine) : ref_engine * result range_error unit :=
  if index <? ref_applied s then (s, Err ErrEngine)
  else ({| ref_store := ref_store s; ref_applied := index; ref_durable := ref_durable s |}, Ok tt).
Definition ref_get (key : bytes) (target : Z) (s : ref_engine) : result range_error MVCCVersion :=
  match visible key target (ref_store s) with Some e => Ok (version_of e) | None => Err ErrNotFound end.
Definition ref_flush (s : ref_engine) : ref_engine * result range_error unit :=
  ({| ref_store := ref_store s; ref_applied := ref_applied s; ref_durable := ref_applied s |}, Ok tt).

#[export] Instance RefEngine : MvccEngine := {|
  eng := ref_engine;
  DurableAppliedRaftIndex s := Ok (ref_durable s);
  ApplyCommitted index _ _ m := ref_batch index index [m];
  ApplyCommittedMVCC index _ ts _ m := ref_batch index ts [m];
  ApplyPreparedMVCCBatch index _ ts _ ms := ref_batch index ts ms;
  ResolveCommittedMVCCBatch index _ ts _ ms := ref_batch index ts ms;
  AdvanceApplied := ref_advance;
  GetMVCCAt := ref_get;
  ExportMVCCVersions s := Ok (version_of <$> ref_store s);
  ReplicatedApplied := ref_applied;
  Flush := ref_flush
|}.

Definition ref_ok (s : ref_engine) : Prop := store_ok (ref_store s) /\ ref_durable s <= ref_applied s.

Lemma ref_batch_law index ts ms s : batch_law ref_ok ref_store ref_applied index ts ms s (ref_batch index ts ms s).
Proof.
  intros [Hok Hd]. unfold ref_batch. destruct (Z.leb_spec index (ref_applied s)); [done|].
  destruct (Z.ltb_spec ts 0); [done|]. assert (store_ok (put_all ts ms (ref_store s))) by by apply put_all_ok.
  cbn. unfold ref_ok. cbn. split_and!; first [done|lia].
Qed.

#[export] Instance RefEngineLaws : @EngineLaws RefEngine.
Proof.
  refine (@Build_EngineLaws RefEngine ref_ok ref_store _ _ _ _ _ _ _ _ _ _ _).
  - by intros s [].
  - intros s d [_ Hd] [= <-]. done.
  - intros. apply ref_batch_law.
  - intros. apply ref_batch_law.
  - intros. apply ref_batch_law.
  - intros. apply ref_batch_law.
  - intros index s [Hok Hd]. cbn. unfold ref_advance. destruct (Z.ltb_spec index (ref_applied s)); [done|].
    cbn. unfold ref_ok. cbn. split_and!; first [done|lia].
  - intros key target s v _. cbn. unfold ref_get. destruct (visible key target (ref_store s)) as [e|]; [|done].
    intros [= <-]. by exists e.
  - intros key target s _. cbn. unfold ref_get. by destruct (visible key target (ref_store s)).
  - by intros s vs _ [= <-].
  - intros s [Hok Hd]. cbn. unfold ref_ok. cbn. split_and!; first [done|lia].
Defined.
