(* ===== verification/RangeSpec.v ===== *)
(** * The range protocol, abstractly

    The specification the state machine of a range implements: transaction
    records with final decisions, participants with final resolutions, and a
    versioned store that only the steps of the protocol extend.  [range_step]
    has one constructor per kind of transition; its flag tells a replay of an
    entry that is already durable from a first application.  The lemmas are
    the safety properties of the protocol, by cases on the step. *)

From S2P Require Import Prelude InternalKey Batch Codec Hlc Txn Command MvccStore StateMachine.

Record astate := {
  a_records : gmap ID TxnRecord; a_participants : gmap ID ParticipantRecord;
  a_store : store; a_shadow : bool
}.

Definition valid_operation (op : Operation) : Prop := operation_typed op /\ ValidateOperation op = Ok tt.

(** A foreign intent or a version newer than the snapshot. *)
Definition conflicting (readTime : Z) (e : entry) : bool :=
  Byte.eqb (kind e.1) KindIntent || (readTime <? sequence e.1).
Definition conflicts (l : store) (readTime : Z) (w : Write) : Prop :=
  exists e, visible (wKey w) MaxUint64 l = Some e /\ conflicting readTime e = true.

Definition pending_record (op : Operation) : TxnRecord :=
  {| rID := oID op; rStatus := StatusPending; rReadTime := oReadTime op; rCommitTime := oCommitTime op;
     rEpoch := oEpoch op; rHome := oHome op; rParticipants := oParticipants op |}.

Definition put_record (id : ID) (r : TxnRecord) (s : astate) : astate :=
  {| a_records := <[id := r]> (a_records s); a_participants := a_participants s;
     a_store := a_store s; a_shadow := a_shadow s |}.
Definition put_participant (id : ID) (p : ParticipantRecord) (s : astate) : astate :=
  {| a_records := a_records s; a_participants := <[id := p]> (a_participants s);
     a_store := a_store s; a_shadow := a_shadow s |}.
Definition put_versions (ts : Z) (ms : list Mutation) (s : astate) : astate :=
  {| a_records := a_records s; a_participants := a_participants s;
     a_store := put_all ts ms (a_store s); a_shadow := a_shadow s |}.
Definition activate (s : astate) : astate :=
  {| a_records := a_records s; a_participants := a_participants s; a_store := a_store s; a_shadow := false |}.

Definition resolution (status : Z) : Prop := status = ParticipantCommitted \/ status = ParticipantAborted.
Definition decision (status : Z) : Prop := status = StatusCommitted \/ status = StatusAborted.

Inductive range_step (replay : bool) (s : astate) : astate -> Prop :=
  | step_stutter : range_step replay s s
  | step_activate : range_step replay s (activate s)
  | step_write ts m :
      replay = false -> a_shadow s = false -> 0 <= ts -> (mKind m = KindValue \/ mKind m = KindDelete) ->
      range_step replay s (put_versions ts [m] s)
  | step_version ts m :
      replay = false -> a_shadow s = true -> 0 <= ts -> range_step replay s (put_versions ts [m] s)
  | step_create op :
      valid_operation op -> oType op = OpCreate -> a_records s !! oID op = None ->
      range_step replay s (put_record (oID op) (pending_record op) s)
  | step_decide id r status :
      a_records s !! id = Some r -> rStatus r = StatusPending -> decision status ->
      range_step replay s (put_record id (with_status status r) s)
  | step_takeover id r :
      a_records s !! id = Some r -> rStatus r = StatusPending -> u64 (rEpoch r + 1) <> 0 ->
      range_step replay s (put_record id (with_epoch (u64 (rEpoch r + 1)) r) s)
  | step_prepare op ms :
      replay = false -> a_shadow s = false ->
      valid_operation op -> oType op = OpPrepare -> a_participants s !! oID op = None ->
      (forall w, w ∈ oWrites op -> ~ conflicts (a_store s) (oReadTime op) w) ->
      intent_mutations op (oWrites op) = Ok ms ->
      range_step replay s (put_participant (oID op) (new_participant op ParticipantPrepared (oWrites op) [])
        (put_versions (oCommitTime op) ms s))
  | step_reject op w :
      replay = false -> a_shadow s = false ->
      valid_operation op -> oType op = OpPrepare -> a_participants s !! oID op = None ->
      w ∈ oWrites op -> conflicts (a_store s) (oReadTime op) w ->
      range_step replay s (put_participant (oID op) (new_participant op ParticipantRejected (oWrites op) conflict_reason) s)
  | step_prepare_again op :
      replay = true -> valid_operation op -> oType op = OpPrepare -> a_participants s !! oID op = None ->
      range_step replay s (put_participant (oID op) (new_participant op ParticipantPrepared (oWrites op) []) s)
  | step_adopt op status :
      valid_operation op -> resolution status -> a_participants s !! oID op = None ->
      range_step replay s (put_participant (oID op) (new_participant op status [] []) s)
  | step_resolve id p status epoch :
      replay = false -> a_shadow s = false ->
      a_participants s !! id = Some p -> pStatus p = ParticipantPrepared -> resolution status ->
      pEpoch p <= epoch -> is_u64 epoch -> 0 <= pCommitTime p ->
      range_step replay s (put_participant id (resolved status epoch p)
        (put_versions (pCommitTime p) (resolution_mutation status <$> pWrites p) s))
  | step_resolve_quietly id p status epoch :
      (pStatus p = ParticipantRejected \/ replay = true) -> a_participants s !! id = Some p ->
      pStatus p <> ParticipantCommitted -> pStatus p <> ParticipantAborted -> resolution status ->
      pEpoch p <= epoch -> is_u64 epoch ->
      range_step replay s (put_participant id (resolved status epoch p) s).

(** Sequences of first applications. *)
Inductive range_steps : astate -> astate -> Prop :=
  | steps_refl s : range_steps s s
  | steps_step s s1 s2 : range_step false s s1 -> range_steps s1 s2 -> range_steps s s2.

(** ** Type invariant *)

Record record_ok (id : ID) (r : TxnRecord) : Prop := {
  ro_id : rID r = id; ro_len : length id = IDSize; ro_nonzero : IsZero id = false;
  ro_status : Status_Valid (rStatus r) = true;
  ro_read : is_u64 (rReadTime r); ro_commit : is_u64 (rCommitTime r); ro_order : rReadTime r < rCommitTime r;
  ro_epoch : is_u64 (rEpoch r); ro_epoch0 : rEpoch r <> 0; ro_home : participant_typed (rHome r);
  ro_participants : Forall participant_typed (rParticipants r); ro_count : len (rParticipants r) <= MaxParticipants
}.
Record participant_ok (id : ID) (p : ParticipantRecord) : Prop := {
  po_id : pID p = id; po_len : length id = IDSize; po_nonzero : IsZero id = false;
  po_status : ParticipantStatus_Valid (pStatus p) = true;
  po_read : is_u64 (pReadTime p); po_commit : is_u64 (pCommitTime p); po_order : pReadTime p < pCommitTime p;
  po_epoch : is_u64 (pEpoch p); po_epoch0 : pEpoch p <> 0; po_home : participant_typed (pHome p);
  po_writes : check_writes None 0 (pWrites p) = Ok tt; po_count : len (pWrites p) <= MaxWrites;
  po_reason : len (pReason p) <= 65536
}.
Record astate_ok (s : astate) : Prop := {
  as_records : map_Forall record_ok (a_records s);
  as_participants : map_Forall participant_ok (a_participants s);
  as_store : store_ok (a_store s)
}.

Lemma valid_fields op : valid_operation op ->
  IsZero (oID op) = false /\ oEpoch op <> 0 /\ oReadTime op < oCommitTime op /\ check_writes None 0 (oWrites op) = Ok tt.
Proof.
  intros [_ Hv]. unfold ValidateOperation in Hv. destruct (IsZero (oID op)); [done|].
  destruct (Z.eqb_spec (oEpoch op) 0); [done|]. destruct (RangeID (oHome op) =? 0); [done|].
  destruct (Generation (oHome op) =? 0); [done|]. destruct (oReadTime op =? 0); [done|].
  destruct (Z.leb_spec (oCommitTime op) (oReadTime op)); [done|]. cbn [orb] in Hv.
  destruct (negb (operation_shape op)); [done|]. destruct (_ || _); [done|]. by destruct (negb _).
Qed.
Lemma new_participant_ok op status ws reason : valid_operation op -> ParticipantStatus_Valid status = true ->
  (ws = oWrites op \/ ws = []) -> len reason <= 65536 -> participant_ok (oID op) (new_participant op status ws reason).
Proof.
  intros Hop Hst Hws Hre. destruct (valid_fields op Hop) as (? & ? & ? & Hc).
  destruct Hop as [[] Hv]. destruct (ValidateOperation_bounds op Hv) as (_ & Hnw & _).
  by destruct Hws as [-> | ->]; split.
Qed.
Lemma pending_record_ok op : valid_operation op -> record_ok (oID op) (pending_record op).
Proof.
  intros Hop. destruct (valid_fields op Hop) as (? & ? & ? & Hc).
  destruct Hop as [[] Hv]. destruct (ValidateOperation_bounds op Hv) as (? & _ & _). by split.
Qed.
Lemma resolution_valid status : resolution status -> ParticipantStatus_Valid status = true.
Proof. by intros [-> | ->]. Qed.
Lemma resolved_ok id p status epoch : participant_ok id p -> resolution status -> pEpoch p <= epoch -> is_u64 epoch ->
  participant_ok id (resolved status epoch p).
Proof.
  intros [] Hs He Hu. split; cbn; try done; [by apply resolution_valid|]. unfold is_u64 in *. lia.
Qed.

Lemma range_step_ok replay s s' : range_step replay s s' -> astate_ok s -> astate_ok s'.
Proof.
  intros Hstep [Hr Hp Hst]. destruct Hstep; split; cbn; try done;
    repeat first [apply map_Forall_insert_2; [|done] | apply put_all_ok; [|done]]; try done.
  - by apply pending_record_ok.
  - destruct (Hr _ _ H). split; cbn; try done. by destruct H1 as [-> | ->].
  - destruct (Hr _ _ H). split; cbn; try done. apply u64_range.
  - by apply new_participant_ok; [|..|left|].
  - destruct H1 as [[] _]. unfold is_u64 in *. lia.
  - by apply new_participant_ok; [|..|left|].
  - by apply new_participant_ok; [|..|left|].
  - by apply new_participant_ok; [|apply resolution_valid|right|].
  - by apply resolved_ok; [apply Hp|..].
  - by apply resolved_ok; [apply Hp|..].
Qed.

(** ** Decisions and resolutions are final *)

Definition record_le (r r' : TxnRecord) : Prop :=
  rID r' = rID r /\ rReadTime r' = rReadTime r /\ rCommitTime r' = rCommitTime r /\ rHome r' = rHome r
  /\ rParticipants r' = rParticipants r /\ rEpoch r <= rEpoch r' /\ (Terminal (rStatus r) = true -> r' = r).
Definition participant_le (p p' : ParticipantRecord) : Prop :=
  pID p' = pID p /\ pReadTime p' = pReadTime p /\ pCommitTime p' = pCommitTime p /\ pHome p' = pHome p
  /\ pWrites p' = pWrites p /\ pEpoch p <= pEpoch p' /\ (resolution (pStatus p) -> p' = p)
  /\ (pStatus p' = pStatus p \/ resolution (pStatus p')).

#[export] Instance record_le_preorder : PreOrder record_le.
Proof.
  split; [intros r; unfold record_le; split_and!; done || lia|].
  intros r1 r2 r3 (? & ? & ? & ? & ? & ? & F1) (? & ? & ? & ? & ? & ? & F2).
  unfold record_le. split_and!; try congruence; [lia|]. intros Ht. specialize (F1 Ht) as ->. by apply F2.
Qed.
#[export] Instance participant_le_preorder : PreOrder participant_le.
Proof.
  split; [intros r; unfold participant_le; split_and!; first [done|lia|by left]|].
  intros r1 r2 r3 (? & ? & ? & ? & ? & ? & F1 & S1) (? & ? & ? & ? & ? & ? & F2 & S2).
  unfold participant_le. split_and!; try congruence; [lia| |].
  - intros Ht. specialize (F1 Ht) as ->. by apply F2.
  - destruct S2 as [S2|S2]; [|by right]. rewrite S2. destruct S1 as [S1|S1]; [by left|by right].
Qed.

Definition map_le {A} (R : A -> A -> Prop) (m m' : gmap ID A) : Prop :=
  forall id a, m !! id = Some a -> exists a', m' !! id = Some a' /\ R a a'.
Lemma map_le_refl {A} (R : A -> A -> Prop) `{!Reflexive R} m : map_le R m m.
Proof. intros id a Ha. by exists a. Qed.
Lemma map_le_trans {A} (R : A -> A -> Prop) `{!Transitive R} m1 m2 m3 : map_le R m1 m2 -> map_le R m2 m3 -> map_le R m1 m3.
Proof.
  intros H12 H23 id a Ha. destruct (H12 _ _ Ha) as (a2 & Ha2 & R2). destruct (H23 _ _ Ha2) as (a3 & ? & ?).
  exists a3. split; [done|by etransitivity].
Qed.
Lemma map_le_insert {A} (R : A -> A -> Prop) `{!Reflexive R} m id a' :
  (forall a, m !! id = Some a -> R a a') -> map_le R m (<[id := a']> m).
Proof.
  intros Hins id0 a Ha. destruct (decide (id0 = id)) as [->|Hne].
  - exists a'. rewrite lookup_insert_eq. auto.
  - exists a. by rewrite lookup_insert_ne.
Qed.

Lemma u64_succ_le n : is_u64 n -> u64 (n + 1) <> 0 -> n <= u64 (n + 1).
Proof.
  intros Hn Hz. unfold is_u64 in Hn. destruct (Z.eq_dec n (2 ^ 64 - 1)) as [->|]; [done|].
  rewrite u64_id; [lia|]. unfold is_u64. lia.
Qed.
Lemma resolved_le p status epoch : pStatus p <> ParticipantCommitted -> pStatus p <> ParticipantAborted ->
  resolution status -> pEpoch p <= epoch -> participant_le p (resolved status epoch p).
Proof. intros ? ? ? ?. unfold participant_le. cbn. split_and!; try done; [by intros [?|?]|by right]. Qed.

Lemma range_step_final replay s s' : astate_ok s -> range_step replay s s' ->
  map_le record_le (a_records s) (a_records s') /\ map_le participant_le (a_participants s) (a_participants s').
Proof.
  intros [Hr Hp _] Hstep. destruct Hstep; split; cbn; try apply map_le_refl; try apply _;
    apply map_le_insert; try apply _; intros a Ha; simplify_eq.
  - unfold record_le; cbn. split_and!; try done. by rewrite H0.
  - unfold record_le; cbn. split_and!; try done; [|by rewrite H0].
    apply u64_succ_le; [apply (Hr _ _ H)|done].
  - by apply resolved_le; rewrite ?H2.
  - by apply resolved_le.
Qed.

(** ** First committer wins *)

Lemma intent_mutations_shape op ws ms : intent_mutations op ws = Ok ms ->
  mKey <$> ms = wKey <$> ws /\ Forall (fun m => mKind m = KindIntent) ms.
Proof.
  revert ms. induction ws as [|w ws IH]; intros ms; cbn [intent_mutations]; [by intros [= <-]|].
  case_match; [|done]. rewrite bind_ok. intros (rest & Hrest & [= <-]). destruct (IH _ Hrest) as [Hk Hf].
  cbn. rewrite Hk. by split; [|constructor].
Qed.
Lemma check_writes_sorted ws : forall prev total, check_writes prev total ws = Ok tt ->
  StronglySorted bytes_lt (wKey <$> ws) /\ Forall (fun w => forall q, prev = Some q -> bytes_lt (wKey q) (wKey w)) ws.
Proof.
  induction ws as [|w ws IH]; intros prev total; cbn [check_writes]; [by repeat constructor|].
  destruct (_ || _) eqn:Hbad; [done|]. apply orb_false_iff in Hbad as [_ Hprev]. cbn zeta.
  destruct (_ <? _); [done|]. intros Hc. destruct (IH _ _ Hc) as [Hs Hf].
  assert (forall q, prev = Some q -> bytes_lt (wKey q) (wKey w)) as Hw.
  { intros q ->. by apply bytes_leb_false. }
  split; cbn; [constructor; [done|]|constructor; [done|]].
  - rewrite Forall_fmap. eapply Forall_impl; [exact Hf|]. cbn. auto.
  - eapply Forall_impl; [exact Hf|]. cbn. intros x Hx q Hq. by etransitivity; [apply Hw|apply Hx].
Qed.
Lemma check_writes_keys ws : check_writes None 0 ws = Ok tt -> NoDup (wKey <$> ws).
Proof. intros Hc. destruct (check_writes_sorted ws None 0 Hc) as [Hs _]. by apply (sorted_NoDup bytes_lt). Qed.

(** The versions of a participant's writes are in the store and not aborted. *)
Definition held (l : store) (p : ParticipantRecord) : Prop :=
  forall w, w ∈ pWrites p -> occupied l (wKey w) (pCommitTime p).
Definition shares_key (p q : ParticipantRecord) : Prop :=
  exists w w', w ∈ pWrites p /\ w' ∈ pWrites q /\ wKey w = wKey w'.
(** No other participant writes a key of [p] at the same commit time. *)
Definition distinct_times (ps : gmap ID ParticipantRecord) (id : ID) (p : ParticipantRecord) : Prop :=
  forall id' r, ps !! id' = Some r -> id' <> id -> shares_key p r -> pCommitTime r <> pCommitTime p.

Lemma distinct_times_mono ps ps' id p p' : map_le participant_le ps ps' ->
  pWrites p' = pWrites p -> pCommitTime p' = pCommitTime p ->
  distinct_times ps' id p' -> distinct_times ps id p.
Proof.
  intros Hle Hw Hc Hd id' r Hr Hne Hsh. destruct (Hle _ _ Hr) as (r' & Hr' & _ & _ & Hcr & _ & Hwr & _).
  rewrite <- Hcr, <- Hc. apply (Hd id' r'); [done|done|]. unfold shares_key. by rewrite Hw, Hwr.
Qed.

(** Only the abort of [p] itself takes its versions away. *)
Lemma held_step s s' id p p' : astate_ok s -> range_step false s s' -> a_shadow s = false ->
  a_participants s !! id = Some p -> a_participants s' !! id = Some p' -> pStatus p' <> ParticipantAborted ->
  distinct_times (a_participants s') id p -> held (a_store s) p -> held (a_store s') p.
Proof.
  intros [Hr Hp Hst] Hstep Hsh Hid Hid' Hna Hdist Hheld w Hw. specialize (Hheld w Hw).
  destruct Hstep; cbn in *; try done; try congruence; apply occupied_put_all; try done.
  - intros _ m' Hm' _. apply list_elem_of_singleton in Hm' as ->. by destruct H2 as [-> | ->].
  - destruct H1 as [[] _]. unfold is_u64 in *. lia.
  - intros _ m' Hm' _. destruct (intent_mutations_shape _ _ _ H5) as [_ Hf]. rewrite Forall_forall in Hf.
    by rewrite (Hf _ Hm').
  - intros Hct m' Hm' Hkey. apply list_elem_of_fmap in Hm' as (w' & -> & Hw').
    assert (mKey (resolution_mutation status w') = wKey w') as Hmk
      by (unfold resolution_mutation; repeat case_match; done).
    destruct H3 as [-> | ->]; [unfold resolution_mutation; cbn; by case_match|]. exfalso.
    destruct (decide (id0 = id)) as [->|Hne].
    + rewrite lookup_insert_eq in Hid'. by simplify_eq.
    + apply (Hdist id0 (resolved ParticipantAborted epoch p0)); [by rewrite lookup_insert_eq|done| |done].
      exists w, w'. split_and!; [done|done|congruence].
Qed.
Lemma range_step_shadow replay s s' : range_step replay s s' -> a_shadow s = false -> a_shadow s' = false.
Proof. by destruct 1. Qed.

Lemma range_steps_final s s' : astate_ok s -> range_steps s s' ->
  astate_ok s' /\ map_le record_le (a_records s) (a_records s') /\ map_le participant_le (a_participants s) (a_participants s').
Proof.
  intros Hok. induction 1 as [s|s s1 s2 Hstep Hsteps IH]; [split_and!; [done|apply map_le_refl, _..]|].
  destruct (range_step_final _ _ _ Hok Hstep). destruct (IH (range_step_ok _ _ _ Hstep Hok)) as (? & ? & ?).
  split_and!; [done|by eapply map_le_trans; [apply _|..]..].
Qed.

Lemma held_steps s s' id p p' : astate_ok s -> range_steps s s' -> a_shadow s = false ->
  a_participants s !! id = Some p -> a_participants s' !! id = Some p' -> pStatus p' <> ParticipantAborted ->
  distinct_times (a_participants s') id p' -> held (a_store s) p -> held (a_store s') p'.
Proof.
  intros Hok Hsteps. revert p Hok. induction Hsteps as [s|s s1 s2 Hstep Hsteps IH];
    intros p Hok Hsh Hid Hid' Hna Hdist Hheld; [by simplify_eq|].
  pose proof (range_step_ok _ _ _ Hstep Hok) as Hok1.
  destruct (range_step_final _ _ _ Hok Hstep) as [_ Hle1].
  destruct (range_steps_final _ _ Hok1 Hsteps) as (_ & _ & Hle2).
  destruct (Hle1 _ _ Hid) as (p1 & Hid1 & _ & _ & Hc1 & _ & Hw1 & _).
  destruct (Hle2 _ _ Hid1) as (p2 & Hid2 & _ & _ & Hc2 & _ & Hw2 & _ & Hfin & _). simplify_eq.
  apply (IH p1); try done; [by eapply range_step_shadow|].
  assert (pStatus p1 <> ParticipantAborted) as Hna1 by (intros Ha; apply Hna; rewrite Hfin; [done|by right]).
  assert (held (a_store s1) p) as Hh.
  { eapply (held_step s s1 id p p1); try done.
    eapply distinct_times_mono; [exact Hle2|..|exact Hdist]; congruence. }
  unfold held. by rewrite Hc1, Hw1.
Qed.

(** A participant that appears prepared passed the conflict check. *)
Lemma prepared_step s s' id q : range_step false s s' -> a_participants s !! id = None ->
  a_participants s' !! id = Some q -> pStatus q = ParticipantPrepared ->
  forall w, w ∈ pWrites q -> ~ conflicts (a_store s) (pReadTime q) w.
Proof.
  intros Hstep Hnone Hq Hprep. destruct Hstep; cbn in *; try congruence;
    rewrite lookup_insert_Some in Hq; destruct Hq as [[<- <-]|[_ Hq]]; try done; try congruence.
  by destruct H0 as [-> | ->].
Qed.
(** A prepare that succeeds on fresh commit times holds its versions. *)
Lemma prepare_held s s' id p : astate_ok s -> range_step false s s' -> a_participants s !! id = None ->
  a_participants s' !! id = Some p -> pStatus p = ParticipantPrepared ->
  (forall w, w ∈ pWrites p -> fresh_version (a_store s) (wKey w) (pCommitTime p)) -> held (a_store s') p.
Proof.
  intros [_ _ Hst] Hstep Hnone Hq Hprep Hfresh w Hw. destruct Hstep; cbn in *; try congruence;
    rewrite lookup_insert_Some in Hq; destruct Hq as [[<- <-]|[_ Hq]]; try done; try congruence;
    [|by destruct H0 as [-> | ->]].
  destruct (intent_mutations_shape _ _ _ H5) as [Hk Hf]. cbn in *.
  destruct (valid_fields op H1) as (_ & _ & _ & Hc). apply check_writes_keys in Hc. rewrite <- Hk in Hc.
  assert (wKey w ∈ mKey <$> ms) as Hin by (rewrite Hk; by apply list_elem_of_fmap_2).
  apply list_elem_of_fmap in Hin as (m & Hm & Hin). rewrite Hm. rewrite Forall_forall in Hf.
  apply occupied_put_all_fresh; try done.
  - destruct H1 as [[] _]. unfold is_u64 in *. lia.
  - rewrite <- Hm. by apply Hfresh.
  - by rewrite (Hf _ Hin).
Qed.
(** Snapshot isolation between two transactions of one range. *)
Lemma no_overlap s s' id p q id' : astate_ok s -> held (a_store s) p -> range_step false s s' ->
  is_u64 (pCommitTime p) -> a_participants s !! id' = None -> a_participants s' !! id' = Some q ->
  pStatus q = ParticipantPrepared -> a_participants s !! id = Some p -> shares_key p q -> pCommitTime p <= pReadTime q.
Proof.
  intros [_ _ Hst] Hheld Hstep Hu Hnone Hq Hprep Hp (w & w' & Hw & Hw' & Hk).
  pose proof (prepared_step _ _ _ _ Hstep Hnone Hq Hprep w' Hw') as Hnc. specialize (Hheld w Hw).
  destruct (visible_occupied _ _ _ MaxUint64 Hst Hheld) as (e & Hv & Hle); [unfold is_u64, MaxUint64, two64 in *; lia|].
  destruct (Z.le_gt_cases (pCommitTime p) (pReadTime q)); [done|]. exfalso. apply Hnc. exists e.
  rewrite <- Hk. split; [done|]. unfold conflicting. apply orb_true_iff. right. apply Z.ltb_lt. lia.
Qed.
