(* ===== verification/RangeEngine.v ===== *)
(** * What [Apply] does to the engine

    Every call keeps the engine's invariant and moves the applied index at
    most to the index of the entry. *)

From S2P Require Import Prelude InternalKey Batch RaftTypes Codec Hlc Txn Command Sha256 MvccStore StateMachine.

Section engine_moves.
Context `{EngineLaws}.

Definition engine_moves (index : Z) (e e' : eng) : Prop :=
  engine_ok e' /\ ReplicatedApplied e' <= Z.max (ReplicatedApplied e) index.
Lemma engine_stays index e : engine_ok e -> engine_moves index e e.
Proof. split; [done|lia]. Qed.

Lemma advance_applied index d m :
  engine_ok (engine m) -> engine_moves index (engine m) (engine (advanceMetadata index d m).1).
Proof.
  intros Hok. unfold advanceMetadata, run_engine. destruct d; [by apply engine_stays|].
  pose proof (advance_law index (engine m) Hok) as Hadv. unfold engine_moves.
  destruct (AdvanceApplied index (engine m)) as [e [?|?]]; cbn in *; split; [tauto|lia|tauto|lia].
Qed.
Lemma run_applied (op : eng -> eng * result range_error unit) index ts ms m :
  batch_law engine_ok contents ReplicatedApplied index ts ms (engine m) (op (engine m)) ->
  engine_ok (engine m) -> engine_moves index (engine m) (engine (run_engine op m).1).
Proof.
  unfold batch_law, run_engine. intros Hlaw Hok. specialize (Hlaw Hok). revert Hlaw. unfold engine_moves.
  destruct (op (engine m)) as [e [[]|err]]; cbn; intros (? & ?); split; [done|lia|done|lia].
Qed.

Ltac applied_branch :=
  match goal with
  | |- engine_moves _ _ (engine (advanceMetadata ?i ?d ?X).1) => by apply (advance_applied i d X)
  | |- _ => by apply engine_stays
  end.
Ltac applied_run law :=
  match goal with |- context [run_engine ?op ?m] =>
    let Hrun := fresh "Hrun" in
    pose proof (run_applied op _ _ _ m law ltac:(done)) as Hrun; destruct (run_engine op m) as [? ?];
    repeat case_match; done end.

Lemma applyPrepare_applied cfg ent op d m :
  engine_ok (engine m) -> engine_moves (Index ent) (engine m) (engine (applyPrepare cfg ent op d m).1).
Proof.
  intros Hok. unfold applyPrepare. destruct (existsb _ _); [applied_branch|]. destruct (participants m !! oID op).
  { repeat case_match; applied_branch. }
  destruct d; [applied_branch|]. destruct (prepare_conflict _ _ _) as [[]|]; [applied_branch| |applied_branch].
  destruct (intent_mutations _ _) as [ms|]; [|applied_branch].
  applied_run (prepared_law (Index ent) (RaftTypes.Term ent) (oCommitTime op) (RaftTypes.Command ent) ms (engine m)).
Qed.
Lemma applyResolution_applied ent op status d m :
  engine_ok (engine m) -> engine_moves (Index ent) (engine m) (engine (applyResolution ent op status d m).1).
Proof.
  intros Hok. unfold applyResolution. destruct (participants m !! oID op) as [p|]; [|applied_branch].
  repeat (destruct (_ : bool); [applied_branch|]).
  applied_run (resolve_law (Index ent) (RaftTypes.Term ent) (pCommitTime p) (RaftTypes.Command ent)
    (resolution_mutation status <$> pWrites p) (engine m)).
Qed.
Lemma apply_operation_applied cfg ent c op d m :
  engine_ok (engine m) -> engine_moves (Index ent) (engine m) (engine (apply_operation cfg ent c op d m).1).
Proof.
  intros Hok. unfold apply_operation. repeat (destruct (_ =? _);
    [first [by apply applyPrepare_applied|by apply applyResolution_applied
           |unfold applyCreate, applyDecision, applyTakeover; repeat case_match; applied_branch]|]). applied_branch.
Qed.
Lemma applyTransaction_applied cfg ent c d m :
  engine_ok (engine m) -> engine_moves (Index ent) (engine m) (engine (applyTransaction cfg ent c d m).1).
Proof.
  intros Hok. unfold applyTransaction. destruct (_ =? CommandTxnBarrier); [applied_branch|].
  destruct (DecodeOperation (cValue c)) as [op|]; [|applied_branch].
  pose proof (apply_operation_applied cfg ent c op d (observe (cTimestamp c) m) Hok) as Hres. cbv zeta.
  destruct (apply_operation _ _ _ _ _ _) as [m2 [[]|e]]; [|done]. destruct (_ || _); [done|]. destruct Hres as [Hok2 Hle].
  destruct (advance_applied (Index ent) d m2 Hok2) as [? ?]. split; [done|]. cbn in *. lia.
Qed.
Lemma applySplit_applied ent c d m :
  engine_ok (engine m) -> engine_moves (Index ent) (engine m) (engine (applySplit ent c d m).1).
Proof.
  intros Hok. unfold applySplit. destruct (DecodeSplitOperation (cValue c)) as [op|]; [|applied_branch].
  repeat (destruct (_ && _); [applied_branch|]). cbv zeta. set (s := if _ <? _ then _ else _).
  do 2 (destruct (sType op =? _); [repeat case_match; applied_branch|]).
  destruct (_ || _); [|repeat case_match; applied_branch]. destruct (_ || _); [applied_branch|].
  unfold apply_version. destruct (fresh_parent_version _ _ _) as [[s'|]|]; [|applied_branch..].
  destruct d; [applied_branch|].
  applied_run (prepared_law (Index ent) (RaftTypes.Term ent) (sTimestamp op) (RaftTypes.Command ent)
    [{| mKey := cKey c; mValue := sValue op; mKind := sKind op |}] (engine m)).
Qed.
Lemma apply_write_applied cfg ent c d m :
  engine_ok (engine m) -> engine_moves (Index ent) (engine m) (engine (apply_write cfg ent c d m).1).
Proof.
  intros Hok. unfold apply_write. do 2 (destruct (_ : bool); [applied_branch|]). set (mu := Build_Mutation _ _ _). destruct (mvcc cfg).
  - applied_run (mvcc_law (Index ent) (RaftTypes.Term ent) (cTimestamp c) (RaftTypes.Command ent) mu (engine m)).
  - applied_run (plain_law (Index ent) (RaftTypes.Term ent) (RaftTypes.Command ent) mu (engine m)).
Qed.
Lemma default_engine m : engine (default_lifecycle m) = engine m.
Proof. unfold default_lifecycle. by destruct (_ =? _). Qed.
Lemma apply_applied cfg ent m :
  engine_ok (engine m) -> engine_moves (Index ent) (engine m) (engine (Apply cfg ent m).1).
Proof.
  rewrite <- (default_engine m). intros Hok. unfold Apply. cbv zeta. set (m1 := default_lifecycle m) in *. clearbody m1.
  destruct (DecodeCommand _) as [c|]; [|applied_branch]. do 2 (destruct (_ : bool); [applied_branch|]).
  destruct (DurableAppliedRaftIndex (engine m1)) as [f|]; [|applied_branch].
  destruct (_ =? CommandSplit); [by apply applySplit_applied|]. destruct (_ || _); [applied_branch|].
  destruct (_ <=? _); [destruct (_ && _); [applied_branch|by apply applyTransaction_applied]|by apply apply_write_applied].
Qed.
End engine_moves.
