(* ===== verification/RangeRefine.v ===== *)
(** * The state machine implements the range protocol

    [abs] forgets the watermarks, the clock and the bookkeeping of splits and
    keeps the transaction records, the participants and the contents of the
    engine.  Every [Apply] is a step of [range_step], so the final-decision,
    final-resolution and conflict properties of the protocol hold of it. *)

From S2P Require Import Prelude InternalKey Batch RaftTypes Codec Hlc Txn Command Sha256 MvccStore StateMachine RangeSpec RangeEngine.

Section refine.
Context `{EngineLaws}.

Definition abs (m : machine) : astate :=
  {| a_records := records m; a_participants := participants m;
     a_store := contents (engine m); a_shadow := lifecycle (split m) =? LifecycleShadow |}.

(** An entry either is new to the engine or lies below its durable frontier. *)
Definition fresh_entry (ent : Entry) (m : machine) : Prop := ReplicatedApplied (engine m) < Index ent.
Definition replayed_entry (ent : Entry) (m : machine) : Prop :=
  exists d, DurableAppliedRaftIndex (engine m) = Ok d /\ Index ent <= d.

(** ** Engine calls *)

Lemma abs_engine m e : contents e = contents (engine m) -> abs (set_engine e m) = abs m.
Proof. intros He. unfold abs. cbn. by rewrite He. Qed.
Lemma abs_advance index d m : engine_ok (engine m) -> abs (advanceMetadata index d m).1 = abs m.
Proof.
  intros Hok. unfold advanceMetadata, run_engine. destruct d; [done|]. pose proof (advance_law index (engine m) Hok) as Hadv.
  destruct (AdvanceApplied index (engine m)) as [e [?|?]]; cbn in *; apply abs_engine; tauto.
Qed.
Lemma advance_split index d m : split (advanceMetadata index d m).1 = split m.
Proof. unfold advanceMetadata, run_engine. destruct d; [done|]. by destruct (AdvanceApplied index (engine m)) as [e [?|?]]. Qed.

(** A materializing call on a fresh index installs the batch or fails with no effect. *)
Lemma run_batch (op : eng -> eng * result range_error unit) index ts ms m :
  batch_law engine_ok contents ReplicatedApplied index ts ms (engine m) (op (engine m)) ->
  engine_ok (engine m) -> ReplicatedApplied (engine m) < index ->
  let '(m', r) := run_engine op m in
  match materialized r with
  | Ok _ => abs m' = put_versions ts ms (abs m) /\ 0 <= ts
  | Err _ => abs m' = abs m
  end.
Proof.
  unfold batch_law, run_engine. intros Hlaw Hok. specialize (Hlaw Hok). revert Hlaw.
  destruct (op (engine m)) as [e [[]|err]]; cbn.
  - intros (_ & _ & Hts & He & _) _. split; [|done]. unfold abs, put_versions. cbn. by rewrite He.
  - intros (_ & He & _ & Hal) Hfresh. case_bool_decide as Herr; [specialize (Hal Herr); lia|by apply abs_engine].
Qed.
(** On a replay the engine refuses it: nothing changes. *)
Lemma run_batch_replay (op : eng -> eng * result range_error unit) index ts ms m :
  batch_law engine_ok contents ReplicatedApplied index ts ms (engine m) (op (engine m)) ->
  engine_ok (engine m) -> index <= ReplicatedApplied (engine m) -> abs (run_engine op m).1 = abs m.
Proof.
  unfold batch_law, run_engine. intros Hlaw Hok. specialize (Hlaw Hok). revert Hlaw.
  destruct (op (engine m)) as [e [[]|err]]; cbn.
  - intros (_ & ? & _) ?. lia.
  - intros (_ & He & _ & Hal) _. by apply abs_engine.
Qed.

(** ** Transactions *)

Lemma decoded_valid e op : DecodeOperation e = Ok op -> valid_operation op.
Proof.
  intros Hd. apply operation_encode_decode in Hd as [Hty He]. split; [done|]. unfold EncodeOperation in He.
  rewrite bind_ok in He. by destruct He as ([] & ? & _).
Qed.

Lemma refine_create cfg op m replay : valid_operation op -> oType op = OpCreate ->
  range_step replay (abs m) (abs (applyCreate cfg op m).1).
Proof.
  intros Hop Hty. unfold applyCreate. destruct (_ || _); [constructor|].
  destruct (records m !! oID op) as [r|] eqn:Hr; [case_match; constructor|]. by apply step_create.
Qed.
Lemma record_pending id r m : astate_ok (abs m) -> records m !! id = Some r -> Terminal (rStatus r) = false ->
  rStatus r = StatusPending.
Proof.
  intros [Hr _ _] Hid Ht. destruct (Hr _ _ Hid) as [_ _ _ Hst _ _ _ _ _ _ _ _].
  unfold Status_Valid, Terminal in *. destruct (Z.eqb_spec (rStatus r) StatusPending); [done|].
  cbn [orb] in Hst. by rewrite Hst in Ht.
Qed.
Lemma refine_decision op status m replay : astate_ok (abs m) -> decision status ->
  range_step replay (abs m) (abs (applyDecision op status m).1).
Proof.
  intros Hok Hst. unfold applyDecision. destruct (records m !! oID op) as [r|] eqn:Hr; [|constructor].
  destruct (_ || _); [constructor|]. destruct (_ <? _); [constructor|]. destruct (negb _); [constructor|].
  destruct (_ =? status); [constructor|]. destruct (Terminal (rStatus r)) eqn:Ht; [constructor|].
  apply step_decide; [done|by eapply record_pending|done].
Qed.
Lemma refine_takeover op m replay : valid_operation op ->
  range_step replay (abs m) (abs (applyTakeover op m).1).
Proof.
  intros Hop. unfold applyTakeover. destruct (records m !! oID op) as [r|] eqn:Hr; [|constructor].
  destruct (Z.eqb_spec (rStatus r) StatusPending) as [Hp|]; [cbn [negb orb]|constructor].
  destruct (_ || _); [constructor|]. destruct (_ =? _); [constructor|].
  destruct (Z.eqb_spec (oEpoch op) (u64 (rEpoch r + 1))) as [He|]; [cbn [negb]|constructor].
  rewrite He. apply step_takeover; [done|done|]. rewrite <- He. by apply valid_fields.
Qed.

Lemma prepare_conflict_spec e readTime ws : engine_ok e ->
  match prepare_conflict e readTime ws with
  | Ok true => exists w, w ∈ ws /\ conflicts (contents e) readTime w
  | Ok false => forall w, w ∈ ws -> ~ conflicts (contents e) readTime w
  | Err _ => True
  end.
Proof.
  intros Hok. induction ws as [|w ws IH]; cbn [prepare_conflict]; [intros w Hw; by apply not_elem_of_nil in Hw|].
  destruct (GetMVCCAt (wKey w) MaxUint64 e) as [v|err] eqn:Hget.
  - apply get_found in Hget as (x & Hv & ->); [|done]. change (vKind (version_of x)) with (kind x.1).
    change (vTimestamp (version_of x)) with (sequence x.1). fold (conflicting readTime x).
    destruct (conflicting readTime x) eqn:Hc; [exists w; split; [by left|by exists x]|].
    destruct (prepare_conflict e readTime ws) as [[]|]; [|intros w' Hw'|done].
    + destruct IH as (w' & ? & ?). exists w'. split; [by right|done].
    + apply elem_of_cons in Hw' as [->|Hw']; [|by apply IH]. intros (y & Hy & Hcy). simplify_eq. congruence.
  - case_bool_decide as Herr; [|done]. subst err. apply get_missing in Hget; [|done].
    destruct (prepare_conflict e readTime ws) as [[]|]; [|intros w' Hw'|done].
    + destruct IH as (w' & ? & ?). exists w'. split; [by right|done].
    + apply elem_of_cons in Hw' as [->|Hw']; [|by apply IH]. intros (y & Hy & _). congruence.
Qed.

Lemma refine_prepare cfg ent op m : engine_ok (engine m) -> fresh_entry ent m -> valid_operation op -> oType op = OpPrepare ->
  (lifecycle (split m) =? LifecycleShadow) = false ->
  range_step false (abs m) (abs (applyPrepare cfg ent op false m).1).
Proof.
  intros He Hfresh Hop Hty Hsh. unfold applyPrepare. destruct (existsb _ _); [constructor|].
  destruct (participants m !! oID op) as [p|] eqn:Hp.
  { destruct (_ && _); [|destruct (_ && _)]; rewrite ?abs_advance by done; constructor. }
  pose proof (prepare_conflict_spec (engine m) (oReadTime op) (oWrites op) He) as Hconf.
  destruct (prepare_conflict _ _ _) as [[]|]; [| |constructor].
  - destruct Hconf as (w & Hw & Hc). rewrite abs_advance by done. by eapply step_reject.
  - destruct (intent_mutations op (oWrites op)) as [ms|] eqn:Hms; [|constructor].
    set (engine_op := ApplyPreparedMVCCBatch _ _ _ _ _).
    pose proof (run_batch engine_op (Index ent) (oCommitTime op) ms m (prepared_law _ _ _ _ _ _) He Hfresh) as Hrun.
    destruct (run_engine engine_op m) as [m' r]. destruct (materialized r); [|cbn; rewrite Hrun; constructor].
    destruct Hrun as [Habs Hts]. pose proof (step_prepare false (abs m) op ms) as Hstep. rewrite <- Habs in Hstep.
    by apply Hstep.
Qed.
Lemma replay_prepare cfg ent op m : engine_ok (engine m) -> valid_operation op -> oType op = OpPrepare ->
  range_step true (abs m) (abs (applyPrepare cfg ent op true m).1).
Proof.
  intros He Hop Hty. unfold applyPrepare. destruct (existsb _ _); [constructor|].
  destruct (participants m !! oID op) as [p|] eqn:Hp.
  { destruct (_ && _); [|destruct (_ && _)]; rewrite ?abs_advance by done; constructor. }
  by apply step_prepare_again.
Qed.

Lemma participant_prepared id p m : astate_ok (abs m) -> participants m !! id = Some p ->
  (pStatus p =? ParticipantCommitted) || (pStatus p =? ParticipantAborted) = false -> pStatus p <> ParticipantRejected ->
  pStatus p = ParticipantPrepared.
Proof.
  intros [_ Hp _] Hid [Hc Ha]%orb_false_iff Hr. destruct (Hp _ _ Hid) as [_ _ _ Hst _ _ _ _ _ _ _ _ _].
  apply andb_true_iff in Hst as [H1 H2]. apply Z.leb_le in H1, H2. apply Z.eqb_neq in Hc, Ha.
  unfold ParticipantPrepared, ParticipantCommitted, ParticipantAborted, ParticipantRejected in *. lia.
Qed.
(** The checks of [applyResolution] on an existing participant. *)
Lemma refine_resolution ent op status replay m : engine_ok (engine m) -> astate_ok (abs m) -> valid_operation op -> resolution status ->
  (replay = false -> fresh_entry ent m) -> (lifecycle (split m) =? LifecycleShadow) = false ->
  range_step replay (abs m) (abs (applyResolution ent op status replay m).1).
Proof.
  intros He Hok Hop Hst Hfresh Hsh. unfold applyResolution. destruct (participants m !! oID op) as [p|] eqn:Hp.
  2:{ rewrite abs_advance by done. by apply step_adopt. }
  destruct (_ || _); [constructor|]. destruct (Z.ltb_spec (oEpoch op) (pEpoch p)) as [|Hep]; [rewrite abs_advance by done; constructor|].
  destruct (_ =? status); [rewrite abs_advance by done; constructor|].
  destruct (_ || _) eqn:Hterm; [constructor|]. pose proof Hterm as [Hc Ha]%orb_false_iff. apply Z.eqb_neq in Hc, Ha.
  assert (is_u64 (oEpoch op)) as Hu by apply Hop.
  destruct (Z.eqb_spec (pStatus p) ParticipantRejected) as [Hrej|Hrej].
  { rewrite abs_advance by done. apply step_resolve_quietly; try done. by left. }
  destruct replay; [apply step_resolve_quietly; try done; by right|].
  pose proof (participant_prepared _ _ _ Hok Hp Hterm Hrej) as Hprep. specialize (Hfresh eq_refl).
  set (engine_op := ResolveCommittedMVCCBatch _ _ _ _ _).
  pose proof (run_batch engine_op (Index ent) (pCommitTime p) _ m (resolve_law _ _ _ _ _ _) He Hfresh) as Hrun.
  destruct (run_engine engine_op m) as [m' r]. destruct (materialized r); [|cbn; rewrite Hrun; constructor].
  destruct Hrun as [Habs Hts]. pose proof (step_resolve false (abs m) (oID op) p status (oEpoch op)) as Hstep.
  rewrite <- Habs in Hstep. by apply Hstep.
Qed.

(** The flag of [Apply] for an entry. *)
Definition entry_flag (replay : bool) (ent : Entry) (m : machine) : Prop :=
  if replay then replayed_entry ent m else fresh_entry ent m.

(** [DecodeCommand] has checked the payload of a transaction command. *)
Lemma decoded_command_operation e c op : DecodeCommand e = Ok c -> DecodeOperation (cValue c) = Ok op ->
  CommandTxnBarrier < cType c < CommandSplit -> oType op = wanted_operation (cType c) /\ oCommitTime op = cTimestamp c.
Proof.
  intros Hd Hop [H1 H2]. apply command_encode_decode in Hd as [_ He]. unfold EncodeCommand in He. rewrite bind_ok in He.
  destruct He as ([] & Hv & _). unfold validateCommand in Hv. rewrite Hop in Hv.
  repeat (destruct (_ || _); [done|]). destruct (_ && _); [done|]. destruct (_ && _ && _); [done|].
  apply Z.ltb_lt in H1, H2. rewrite H1, H2 in Hv. cbn [andb] in Hv. rewrite bind_ok in Hv. destruct Hv as ([] & Hv & _).
  destruct (Z.eqb_spec (oType op) (wanted_operation (cType c))); [|done].
  by destruct (Z.eqb_spec (oCommitTime op) (cTimestamp c)).
Qed.

Lemma abs_observe t m : abs (observe t m) = abs m.
Proof. done. Qed.

Lemma refine_operation cfg ent c op replay m : engine_ok (engine m) -> astate_ok (abs m) ->
  valid_operation op -> oType op = wanted_operation (cType c) ->
  (replay = false -> fresh_entry ent m) -> (lifecycle (split m) =? LifecycleShadow) = false ->
  range_step replay (abs m) (abs (apply_operation cfg ent c op replay m).1).
Proof.
  intros He Hok Hval Hwant Hfresh Hsh. unfold apply_operation, wanted_operation in *.
  destruct (cType c =? CommandTxnCreate); [by apply refine_create|].
  destruct (cType c =? CommandTxnPrepare).
  { destruct replay; [by apply replay_prepare|by apply refine_prepare; [done|apply Hfresh|..]]. }
  destruct (cType c =? CommandTxnCommit); [apply refine_decision; [done|by left]|].
  destruct (cType c =? CommandTxnAbort); [apply refine_decision; [done|by right]|].
  destruct (cType c =? CommandTxnTakeover); [by apply refine_takeover|].
  destruct (cType c =? CommandTxnResolveCommit); [apply refine_resolution; try done; by left|].
  destruct (cType c =? CommandTxnResolveAbort); [apply refine_resolution; try done; by right|]. constructor.
Qed.
Lemma refine_transaction cfg ent c replay m : engine_ok (engine m) -> DecodeCommand (RaftTypes.Command ent) = Ok c ->
  astate_ok (abs m) -> (replay = false -> fresh_entry ent m) -> CommandTxnBarrier <= cType c < CommandSplit ->
  (lifecycle (split m) =? LifecycleShadow) = false ->
  range_step replay (abs m) (abs (applyTransaction cfg ent c replay m).1).
Proof.
  intros He Hdec Hok Hfresh Hty Hsh. unfold applyTransaction. cbv zeta. change (abs m) with (abs (observe (cTimestamp c) m)) in *.
  destruct (Z.eqb_spec (cType c) CommandTxnBarrier) as [|Hnb]; [rewrite abs_advance by done; constructor|].
  destruct (DecodeOperation (cValue c)) as [op|] eqn:Hop; [|constructor].
  destruct (decoded_command_operation _ _ _ Hdec Hop) as [Hwant _]; [lia|]. pose proof (decoded_valid _ _ Hop) as Hval.
  pose proof (refine_operation cfg ent c op replay (observe (cTimestamp c) m) He Hok Hval Hwant Hfresh Hsh) as Hstep.
  destruct (apply_operation_applied cfg ent c op replay (observe (cTimestamp c) m) He) as [He2 _].
  destruct (apply_operation _ _ _ _ _ _) as [m2 [[]|e]]; [|done]. destruct (_ || _); [done|]. by rewrite abs_advance.
Qed.

(** ** Splits *)

Definition shadow (s : split_state) : bool := lifecycle s =? LifecycleShadow.
Lemma refine_quiet replay m m' : records m' = records m -> participants m' = participants m -> engine m' = engine m ->
  (shadow (split m') = shadow (split m) \/ shadow (split m') = false) -> range_step replay (abs m) (abs m').
Proof.
  intros Hr Hp He Hs. assert (abs m' = abs m \/ abs m' = activate (abs m)) as [-> | ->]; [|apply step_stutter|apply step_activate].
  unfold abs, activate, shadow in *. rewrite Hr, Hp, He. cbn. destruct Hs as [-> | ->]; [by left|by right].
Qed.

Lemma fresh_version_lifecycle ent op s s' : fresh_parent_version ent op s = Ok (Some s') -> lifecycle s' = lifecycle s.
Proof.
  unfold fresh_parent_version. repeat (case_match; try done); by intros [= <-].
Qed.
Lemma shadow_barrier_lifecycle op s s' : shadow_barrier op s = Ok s' -> lifecycle s' = lifecycle s.
Proof.
  unfold shadow_barrier. rewrite bind_ok. intros (s1 & Hs1 & [= <-]). cbn.
  repeat (case_match; try done); by injection Hs1 as <-.
Qed.

Lemma refine_version ent c op replay m : engine_ok (engine m) -> (replay = false -> fresh_entry ent m) -> shadow (split m) = true ->
  range_step replay (abs m) (abs (apply_version ent c op replay m).1).
Proof.
  intros He Hfresh Hsh. unfold apply_version. destruct (fresh_parent_version ent op (split m)) as [[s|]|] eqn:Hv;
    [|rewrite abs_advance by done; constructor|constructor].
  assert (abs (set_split s m) = abs m) as Habs.
  { unfold abs. cbn. by rewrite (fresh_version_lifecycle _ _ _ _ Hv). }
  rewrite <- Habs. assert (a_shadow (abs (set_split s m)) = true) as Hsh' by by rewrite Habs.
  assert (replay = false -> fresh_entry ent (set_split s m)) as Hfresh' by done.
  assert (engine_ok (engine (set_split s m))) as He' by done. set (m1 := set_split s m) in *. clearbody m1.
  destruct replay; [constructor|]. specialize (Hfresh' eq_refl). set (engine_op := ApplyPreparedMVCCBatch _ _ _ _ _).
  pose proof (run_batch engine_op (Index ent) (sTimestamp op) _ m1 (prepared_law _ _ _ _ _ _) He' Hfresh') as Hrun.
  destruct (run_engine engine_op m1) as [m' r]. destruct (materialized r); [|cbn; rewrite Hrun; constructor].
  destruct Hrun as [Hm' Hts]. change (range_step false (abs m1) (abs m')). rewrite Hm'. by apply step_version.
Qed.

Ltac quiet_split Hs := cbn [fst]; rewrite ?abs_advance by done; apply refine_quiet; [done..|];
  unfold shadow; cbn; first [left; by rewrite ?Hs | by right].

Lemma refine_split ent c replay m : engine_ok (engine m) -> (replay = false -> fresh_entry ent m) ->
  range_step replay (abs m) (abs (applySplit ent c replay m).1).
Proof.
  intros He Hfresh. unfold applySplit. destruct (DecodeSplitOperation (cValue c)) as [op|]; [|constructor]. cbv zeta.
  destruct (_ && _); [constructor|]. destruct (_ && _ && _); [constructor|].
  set (s := if _ <? _ then _ else _). assert (lifecycle s = lifecycle (split m)) as Hs by (subst s; by destruct (_ <? _)).
  clearbody s. destruct (sType op =? SplitOpBegin); [case_match; quiet_split Hs|].
  destruct (sType op =? SplitOpBootstrapBarrier).
  { destruct (lifecycle s =? LifecycleActive); [case_match; quiet_split Hs|].
    destruct (lifecycle s =? LifecycleShadow); [|quiet_split Hs].
    destruct (shadow_barrier op s) as [s'|] eqn:Hb; [|quiet_split Hs].
    apply shadow_barrier_lifecycle in Hb. rewrite Hs in Hb. quiet_split Hb. }
  destruct (_ || _).
  { destruct (Z.eqb_spec (lifecycle s) LifecycleShadow) as [Hsh|]; [cbn [negb orb]|quiet_split Hs].
    destruct (Byte.eqb _ _); [quiet_split Hs|].
    assert (abs m = abs (set_split s m)) as -> by (unfold abs; cbn; by rewrite Hs).
    apply refine_version; [done|done|]. unfold shadow. cbn. by rewrite Hsh. }
  destruct (sType op =? SplitOpReplayAdvance); [case_match; quiet_split Hs|].
  destruct (sType op =? SplitOpFinalFence); [case_match; quiet_split Hs|].
  destruct (sType op =? SplitOpActivate); [repeat case_match; quiet_split Hs|].
  destruct (sType op =? SplitOpRetire); [repeat case_match; quiet_split Hs|].
  destruct (sType op =? SplitOpAbort); [case_match; quiet_split Hs|]. quiet_split Hs.
Qed.

(** ** Writes and Apply *)

Lemma refine_write cfg ent c replay m : engine_ok (engine m) -> entry_flag replay ent m -> shadow (split m) = false ->
  range_step replay (abs m) (abs (apply_write cfg ent c replay m).1).
Proof.
  intros Heng Hflag Hsh. unfold apply_write. destruct (_ && _ && _); [constructor|]. destruct (negb _); [constructor|].
  set (mu := Build_Mutation _ _ _).
  assert (mKind mu = KindValue \/ mKind mu = KindDelete) as Hk by (subst mu; cbn; case_match; auto). clearbody mu.
  assert (exists op ts, (if mvcc cfg then run_engine (ApplyCommittedMVCC (Index ent) (RaftTypes.Term ent) (cTimestamp c) (RaftTypes.Command ent) mu) m
     else run_engine (ApplyCommitted (Index ent) (RaftTypes.Term ent) (RaftTypes.Command ent) mu) m) = run_engine op m
     /\ batch_law engine_ok contents ReplicatedApplied (Index ent) ts [mu] (engine m) (op (engine m))) as (op & ts & -> & Hlaw).
  { destruct (mvcc cfg); eexists _, _; (split; [reflexivity|]); [apply mvcc_law|apply plain_law]. }
  destruct replay; cbn in Hflag.
  - destruct Hflag as (d & Hd & Hle). apply durable_le_applied in Hd; [|done].
    pose proof (run_batch_replay op _ _ _ m Hlaw Heng ltac:(lia)) as Hrun. destruct (run_engine op m) as [m' r]. cbn in Hrun.
    enough (abs m' = abs m) as <- by (destruct (materialized r); [rewrite andb_false_r|]; constructor). done.
  - pose proof (run_batch op _ _ _ m Hlaw Heng Hflag) as Hrun. destruct (run_engine op m) as [m' r].
    destruct (materialized r); [|cbn; rewrite Hrun; constructor]. destruct Hrun as [Hm' Hts].
    enough (range_step false (abs m) (abs m')) by by destruct (mvcc cfg && _).
    rewrite Hm'. by apply step_write.
Qed.

Lemma abs_default m : lifecycle (split m) = 0 -> abs (set_split (with_lifecycle LifecycleActive (split m)) m) = abs m.
Proof. intros Hl. unfold abs. cbn. by rewrite Hl. Qed.
Lemma default_abs m : abs (default_lifecycle m) = abs m.
Proof. unfold default_lifecycle. destruct (Z.eqb_spec (lifecycle (split m)) 0); [by apply abs_default|done]. Qed.
Lemma apply_step cfg ent replay m : engine_ok (engine m) -> astate_ok (abs m) -> entry_flag replay ent m ->
  range_step replay (abs m) (abs (Apply cfg ent m).1).
Proof.
  intros He Hok Hflag. unfold Apply. cbv zeta. rewrite <- default_abs in Hok |- *. rewrite <- default_engine in He.
  assert (entry_flag replay ent (default_lifecycle m)) as Hflag'.
  { unfold entry_flag, fresh_entry, replayed_entry in *. by rewrite default_engine. }
  set (m1 := default_lifecycle m) in *. clearbody m1. clear Hflag m.
  destruct (DecodeCommand _) as [c|] eqn:Hdec; [|constructor]. destruct (out_of_range _ _); [constructor|].
  destruct (_ && _); [constructor|]. destruct (DurableAppliedRaftIndex (engine m1)) as [d|] eqn:Hd; [|constructor].
  assert ((Index ent <=? d) = replay) as ->.
  { destruct replay; cbn in Hflag'; [destruct Hflag' as (d' & Hd' & Hle)|pose proof (durable_le_applied _ _ He Hd)].
    - rewrite Hd in Hd'. injection Hd' as ->. by apply Z.leb_le.
    - apply Z.leb_gt. unfold fresh_entry in Hflag'. lia. }
  assert (replay = false -> fresh_entry ent m1) as Hfresh by (intros ->; done).
  destruct (Z.eqb_spec (cType c) CommandSplit) as [|Hns]; [by apply refine_split|].
  destruct (_ || _) eqn:Hserve; [constructor|]. assert (shadow (split m1) = false) as Hsh.
  { unfold shadow. apply orb_false_iff in Hserve as [Hl _].
    destruct (Z.eqb_spec (lifecycle (split m1)) LifecycleShadow) as [Heq|]; [by rewrite Heq in Hl|done]. }
  destruct (Z.leb_spec CommandTxnBarrier (cType c)); [|by apply refine_write].
  destruct (txnFence _ && _); [constructor|]. apply refine_transaction; try done.
  apply command_encode_decode in Hdec as [_ Henc]. unfold EncodeCommand in Henc. rewrite bind_ok in Henc.
  destruct Henc as ([] & Hv & _). unfold validateCommand in Hv.
  destruct (cType c <? CommandPut); [done|]. destruct (Z.ltb_spec CommandSplit (cType c)); [done|]. lia.
Qed.
End refine.
