(* ===== verification/RangeProps.v ===== *)
(** * Safety of the replicated range

    The properties of [Apply] and of sequences of committed entries: final
    decisions and resolutions, first committer wins, atomic visibility of
    resolved transactions, the final fence of a split, and replay. *)

From S2P Require Import Prelude InternalKey Batch RaftTypes Codec Hlc Txn Command Sha256 MvccStore StateMachine RefEngine RangeSpec RangeEngine RangeRefine.

Section props.
Context `{EngineLaws}.

(** The invariant of the machine: the engine's own, well-formed records and
    participants, a well-formed store. *)
Definition machine_ok (m : machine) : Prop := engine_ok (engine m) /\ astate_ok (abs m).

(** C6. Every [Apply] of a committed entry that is new to the engine, or
    already below its durable frontier, is a step of the abstract range
    protocol, whether it succeeds or fails, and keeps the invariant. *)
Theorem apply_refines cfg ent replay m : machine_ok m -> entry_flag replay ent m ->
  range_step replay (abs m) (abs (Apply cfg ent m).1) /\ machine_ok (Apply cfg ent m).1.
Proof.
  intros [He Ha] Hf. pose proof (apply_step cfg ent replay m He Ha Hf) as Hstep. split; [done|].
  split; [by apply apply_applied|by eapply range_step_ok].
Qed.

(** ** Sequences of entries *)

(** Indexes above [floor], in order. *)
Fixpoint ordered (floor : Z) (es : list Entry) : Prop :=
  match es with [] => True | e :: es' => floor < Index e /\ ordered (Index e) es' end.

Lemma ordered_mono es a b : a <= b -> ordered b es -> ordered a es.
Proof. destruct es; cbn; [done|]. intros ? [? ?]. split; [lia|done]. Qed.
Lemma apply_all_steps cfg es : forall m, machine_ok m -> ordered (ReplicatedApplied (engine m)) es ->
  range_steps (abs m) (abs (ApplyAll cfg es m).1) /\ machine_ok (ApplyAll cfg es m).1.
Proof.
  induction es as [|e es IH]; intros m [He Ha] Hord; [split; [constructor|done]|]. destruct Hord as [Hlt Hord]. cbn [ApplyAll].
  pose proof (apply_step cfg e false m He Ha Hlt) as Hstep. destruct (apply_applied cfg e m He) as [He1 Hle].
  pose proof (range_step_ok _ _ _ Hstep Ha) as Ha1.
  destruct (Apply cfg e m) as [m1 [[]|err]]; cbn [fst] in *.
  - destruct (IH m1) as [Hsteps Hok]; [done|eapply ordered_mono; [|exact Hord]; lia|].
    split; [by eapply steps_step|done].
  - split; [by eapply steps_step; [|constructor]|done].
Qed.

(** C11. Decisions and resolutions are final.  However many more committed
    entries a range applies, a transaction record keeps its identity, times,
    home and participants and its epoch never decreases; once committed or
    aborted it never changes.  The same holds of participants, whose status
    moves only to committed or aborted. *)
Theorem outcomes_final cfg es m : machine_ok m -> ordered (ReplicatedApplied (engine m)) es ->
  map_le record_le (records m) (records (ApplyAll cfg es m).1) /\
  map_le participant_le (participants m) (participants (ApplyAll cfg es m).1).
Proof.
  intros Hok Hord. destruct (apply_all_steps cfg es m Hok Hord) as [Hsteps _]. destruct Hok as [_ Ha].
  destruct (range_steps_final _ _ Ha Hsteps) as (_ & Hr & Hp). done.
Qed.

(** C5. First committer wins, between two starts of a range: every entry is
    applied for the first time, none is replayed below the durable frontier.
    On a range that is not the shadow of a split, a transaction prepares at a
    commit time its keys have no version at.  Later, after any number of
    entries during which it was not aborted, another transaction that writes
    one of its keys prepares on the range.  If no other participant with one
    of the first one's keys has the same commit time, the first one committed
    at or before the second one's snapshot: no two transactions with
    overlapping lifetimes both prepare a write of the same key.  A replay
    can break this, as shown below. *)
Theorem first_committer_wins cfg ent1 es ent2 m id p p' id' q :
  let m1 := (Apply cfg ent1 m).1 in
  let m2 := (ApplyAll cfg es m1).1 in
  let m3 := (Apply cfg ent2 m2).1 in
  machine_ok m -> shadow (split m) = false -> fresh_entry ent1 m ->
  participants m !! id = None -> participants m1 !! id = Some p -> pStatus p = ParticipantPrepared ->
  (forall w, w ∈ pWrites p -> fresh_version (contents (engine m)) (wKey w) (pCommitTime p)) ->
  ordered (ReplicatedApplied (engine m1)) es -> fresh_entry ent2 m2 ->
  participants m2 !! id = Some p' -> pStatus p' <> ParticipantAborted -> distinct_times (participants m2) id p' ->
  participants m2 !! id' = None -> participants m3 !! id' = Some q -> pStatus q = ParticipantPrepared ->
  shares_key p q ->
  pCommitTime p <= pReadTime q.
Proof.
  intros m1 m2 m3 [He Ha] Hsh Hf1 Hnone Hp Hprep Hfresh Hord Hf2 Hp' Hna Hdist Hnone' Hq Hqprep Hshare.
  pose proof (apply_step cfg ent1 false m He Ha Hf1) as Hstep1. fold m1 in Hstep1.
  assert (machine_ok m1) as Hok1 by (split; [by apply apply_applied|by eapply range_step_ok]).
  destruct (apply_all_steps cfg es m1 Hok1 Hord) as [Hsteps [He2 Ha2]]. fold m2 in Hsteps, He2, Ha2.
  pose proof (apply_step cfg ent2 false m2 He2 Ha2 Hf2) as Hstep2. fold m3 in Hstep2. destruct Hok1 as [He1 Ha1].
  pose proof (prepare_held _ _ id p Ha Hstep1 Hnone Hp Hprep Hfresh) as Hheld.
  destruct (range_steps_final _ _ Ha1 Hsteps) as (_ & _ & Hle).
  destruct (Hle _ _ Hp) as (p2 & Hp2 & _ & _ & Hct & _ & Hw & _).
  assert (p2 = p') as -> by (change (participants m2 !! id = Some p2) in Hp2; congruence).
  pose proof (held_steps _ _ id p p' Ha1 Hsteps (range_step_shadow _ _ _ Hstep1 Hsh) Hp Hp' Hna Hdist Hheld) as Hheld2.
  rewrite <- Hct. eapply (no_overlap _ _ id p' q id'); try done.
  - destruct Ha2 as [_ Hps _]. by destruct (Hps _ _ Hp').
  - unfold shares_key. by rewrite Hw.
Qed.

(** ** Resolution *)

Lemma materialized_batch (op : eng -> eng * result range_error unit) index ts ms m m' r :
  batch_law engine_ok contents ReplicatedApplied index ts ms (engine m) (op (engine m)) ->
  engine_ok (engine m) -> ReplicatedApplied (engine m) < index -> run_engine op m = (m', r) -> materialized r = Ok tt ->
  contents (engine m') = put_all ts ms (contents (engine m)) /\ 0 <= ts /\ participants m' = participants m.
Proof.
  unfold run_engine, batch_law. intros Hlaw Hok Hlt. specialize (Hlaw Hok). destruct (op (engine m)) as [e x]. cbn in Hlaw.
  intros [= <- <-] Hm. destruct x as [[]|err]; cbn in *; [split_and!; tauto|].
  case_bool_decide as Herr; [|done]. exfalso. destruct Hlaw as (_ & _ & _ & Hal). specialize (Hal Herr). lia.
Qed.
Lemma resolution_effect ent op status m m' p : engine_ok (engine m) -> fresh_entry ent m ->
  participants m !! oID op = Some p -> pStatus p = ParticipantPrepared -> pEpoch p <= oEpoch op -> resolution status ->
  applyResolution ent op status false m = (m', Ok tt) ->
  contents (engine m') = put_all (pCommitTime p) (resolution_mutation status <$> pWrites p) (contents (engine m)) /\
  participants m' = <[oID op := resolved status (oEpoch op) p]> (participants m).
Proof.
  intros He Hf Hp Hprep Hep Hst. unfold applyResolution. rewrite Hp, Hprep. destruct (_ || _); [done|].
  rewrite (proj2 (Z.ltb_ge _ _) Hep).
  assert ((ParticipantPrepared =? status) = false) as -> by by destruct Hst as [-> | ->].
  set (engine_op := ResolveCommittedMVCCBatch _ _ _ _ _). cbn [orb Z.eqb ParticipantPrepared ParticipantCommitted
    ParticipantAborted ParticipantRejected Pos.eqb].
  destruct (run_engine engine_op m) as [m1 r] eqn:Hrun. destruct (materialized r) as [[]|] eqn:Hm; [|done]. intros [= <-].
  destruct (materialized_batch _ _ _ _ _ _ _ (resolve_law _ _ _ _ _ _) He Hf Hrun Hm) as (Hc & _ & Hps).
  cbn. by rewrite Hc, Hps.
Qed.

(** A successful [Apply] of a transaction command went through [apply_operation]. *)
Lemma apply_operation_inv cfg ent c op m m' : engine_ok (engine m) -> fresh_entry ent m ->
  DecodeCommand (RaftTypes.Command ent) = Ok c -> DecodeOperation (cValue c) = Ok op ->
  CommandTxnBarrier < cType c < CommandSplit ->
  (cType c =? CommandTxnPrepare) || (cType c =? CommandTxnResolveCommit) || (cType c =? CommandTxnResolveAbort) = true ->
  Apply cfg ent m = (m', Ok tt) ->
  apply_operation cfg ent c op false (observe (cTimestamp c) (default_lifecycle m)) = (m', Ok tt).
Proof.
  intros He Hf Hdec Hop [Hlo Hhi] Hty. unfold Apply. cbv zeta. rewrite Hdec. destruct (out_of_range _ _); [done|].
  destruct (_ && _); [done|]. rewrite default_engine.
  destruct (DurableAppliedRaftIndex (engine m)) as [d|] eqn:Hd; [|done]. apply durable_le_applied in Hd; [|done].
  rewrite (proj2 (Z.leb_gt (Index ent) d)) by (unfold fresh_entry in Hf; lia).
  rewrite (proj2 (Z.eqb_neq (cType c) CommandSplit)) by lia. destruct (_ || userFence _); [done|].
  rewrite (proj2 (Z.leb_le _ _)) by lia. destruct (txnFence _ && _); [done|]. unfold applyTransaction.
  rewrite (proj2 (Z.eqb_neq (cType c) CommandTxnBarrier)), Hop by lia. cbv zeta.
  destruct (apply_operation _ _ _ _ _ _) as [m2 [[]|]]; [|done]. by rewrite Hty.
Qed.
Lemma default_participants m : participants (default_lifecycle m) = participants m.
Proof. unfold default_lifecycle. by destruct (_ =? _). Qed.

Definition resolves (c : RangeCommand) (status : Z) : Prop :=
  cType c = CommandTxnResolveCommit /\ status = ParticipantCommitted \/
  cType c = CommandTxnResolveAbort /\ status = ParticipantAborted.

Lemma resolution_mutation_key status w : mKey (resolution_mutation status w) = wKey w.
Proof. unfold resolution_mutation. by repeat case_match. Qed.
Lemma resolution_keys status (ws : list Write) : mKey <$> (resolution_mutation status <$> ws) = wKey <$> ws.
Proof. rewrite <- list_fmap_compose. apply list_fmap_ext. intros i w _. cbn. apply resolution_mutation_key. Qed.

(** C10. A resolved transaction becomes visible on a range as a whole or not at
    all.  When a prepared participant is resolved: reads of other keys and
    reads below its commit time are unchanged; after a commit, a read of a
    written key at or above the commit time sees exactly the transaction's
    value or tombstone unless a newer version shadows it; after an abort,
    reads are as if its provisional versions had never been there. *)
Theorem resolution_atomic cfg ent c op p status m m' :
  machine_ok m -> fresh_entry ent m ->
  DecodeCommand (RaftTypes.Command ent) = Ok c -> DecodeOperation (cValue c) = Ok op -> resolves c status ->
  participants m !! oID op = Some p -> pStatus p = ParticipantPrepared -> pEpoch p <= oEpoch op ->
  (forall w, w ∈ pWrites p -> provisional (contents (engine m)) (wKey w) (pCommitTime p)) ->
  Apply cfg ent m = (m', Ok tt) ->
  let before := contents (engine m) in
  let after := contents (engine m') in
  let ct := pCommitTime p in
  participants m' !! oID op = Some (resolved status (oEpoch op) p) /\
  (forall key t, (key ∉ (wKey <$> pWrites p) \/ t < ct) -> visible key t after = visible key t before) /\
  (forall w t, w ∈ pWrites p -> status = ParticipantCommitted -> ct <= t ->
     (forall k v, (k, v) ∈ before -> userKey k = wKey w -> ~ ct < sequence k <= t) ->
     visible (wKey w) t after =
       Some (if wDelete w then ({| userKey := wKey w; sequence := ct; kind := KindDelete |}, [])
             else ({| userKey := wKey w; sequence := ct; kind := KindValue |}, wValue w))) /\
  (forall w t, w ∈ pWrites p -> status = ParticipantAborted ->
     visible (wKey w) t after = visible (wKey w) t (strip (wKey w) ct before)).
Proof.
  intros [He Ha] Hf Hdec Hop Hres Hp Hprep Hep Hprov Happly before after ct.
  assert (resolution status) as Hst by (destruct Hres as [[_ ->]|[_ ->]]; [by left|by right]).
  apply (apply_operation_inv cfg ent c op m m' He Hf Hdec Hop) in Happly; [|destruct Hres as [[-> _]|[-> _]]; done..].
  set (m1 := observe (cTimestamp c) (default_lifecycle m)) in Happly.
  assert (engine m1 = engine m) as He1 by apply default_engine.
  assert (participants m1 = participants m) as Hp1 by apply default_participants.
  assert (applyResolution ent op status false m1 = (m', Ok tt)) as Hr
    by (unfold apply_operation in Happly; destruct Hres as [[Hc ->]|[Hc ->]]; by rewrite Hc in Happly).
  apply (resolution_effect ent op status m1 m' p) in Hr as [Hc Hps];
    [|by rewrite He1|unfold fresh_entry; by rewrite He1|by rewrite Hp1|done..]. rewrite He1 in Hc.
  destruct (as_participants _ Ha _ _ Hp) as [_ _ _ _ _ Hct _ _ _ _ Hws _ _]. apply check_writes_keys in Hws.
  pose proof (as_store _ Ha) as Hok. cbn in Hok. rewrite <- (resolution_keys status) in Hws.
  assert (0 <= ct) as Hct0 by (unfold is_u64 in Hct; lia). subst after. rewrite Hc, Hps. fold before in Hok |- *.
  split_and!.
  - by rewrite lookup_insert_eq.
  - intros key t Hor. apply visible_put_all_other; [done|done|]. by rewrite resolution_keys.
  - intros w t Hw -> Hle Hnew. rewrite <- (resolution_mutation_key ParticipantCommitted w) at 1.
    rewrite visible_put_all_at; [|done|done|done|by apply list_elem_of_fmap_2].
    unfold version_key, resolution_mutation. cbn. destruct (wDelete w); cbn; apply resolve_commit; auto.
  - intros w t Hw ->. rewrite <- (resolution_mutation_key ParticipantAborted w) at 1.
    rewrite visible_put_all_at; [|done|done|done|by apply list_elem_of_fmap_2].
    unfold version_key, resolution_mutation. cbn. apply resolve_abort; auto.
Qed.

(** ** The final fence of a split *)

Definition fenced (m : machine) : Prop := userFence (split m) = true /\ shadow (split m) = false.

Lemma fenced_quiet m m' : records m' = records m -> participants m' = participants m -> engine m' = engine m ->
  userFence (split m') = true -> shadow (split m') = false -> shadow (split m) = false -> abs m' = abs m /\ fenced m'.
Proof.
  intros Hr Hp He Hu Hs Hs'. split; [|done]. unfold abs, shadow in *. by rewrite Hr, Hp, He, Hs, Hs'.
Qed.
Lemma fenced_advance index d m m' : engine_ok (engine m) ->
  engine m' = engine m -> abs m' = abs m /\ fenced m' ->
  abs (advanceMetadata index d m').1 = abs m /\ fenced (advanceMetadata index d m').1.
Proof.
  intros He Heq [Habs Hf]. rewrite <- Heq in He. unfold fenced. by rewrite abs_advance, advance_split.
Qed.
Lemma fenced_split ent c d m : engine_ok (engine m) -> fenced m ->
  abs (applySplit ent c d m).1 = abs m /\ fenced (applySplit ent c d m).1.
Proof.
  intros He [Hu Hs]. unfold applySplit. destruct (DecodeSplitOperation (cValue c)) as [op|]; [|done]. cbv zeta.
  destruct (_ && _); [done|]. destruct (_ && _ && _); [done|].
  set (s := if _ <? _ then _ else _). assert (shadow s = false /\ userFence s = true) as [Hs1 Hu1]
    by (subst s; by destruct (_ <? _)). clearbody s. unfold shadow in Hs1. rewrite Hs1, Hu1.
  assert (abs (set_split s m) = abs m /\ fenced (set_split s m)) as Hset by by apply fenced_quiet.
  repeat match goal with
  | |- context [if ?b then _ else _] => destruct b eqn:?
  end; cbn [negb orb andb] in *; try done;
    first [by apply fenced_advance | apply fenced_advance; [done|done|]; by apply fenced_quiet].
Qed.
Lemma fenced_apply cfg ent m : engine_ok (engine m) -> fenced m ->
  abs (Apply cfg ent m).1 = abs m /\ fenced (Apply cfg ent m).1.
Proof.
  intros He Hf. unfold Apply. cbv zeta. rewrite <- (default_abs m).
  assert (fenced (default_lifecycle m)) as Hf1.
  { unfold default_lifecycle. destruct Hf as [Hu Hs]. by destruct (_ =? _). }
  rewrite <- default_engine in He. set (m1 := default_lifecycle m) in *. clearbody m1. clear Hf m.
  destruct (DecodeCommand _) as [c|]; [|done]. destruct (out_of_range _ _); [done|]. destruct (_ && _); [done|].
  destruct (DurableAppliedRaftIndex _) as [d|]; [|done]. destruct (_ =? CommandSplit); [by apply fenced_split|].
  destruct Hf1 as [Hu Hs]. rewrite Hu, orb_true_r. done.
Qed.

(** C13. After the final fence of a split the parent range is frozen: no
    sequence of committed entries, whatever their indexes and contents,
    changes its versions, transaction records or participants, and the fence
    is never lifted. *)
Theorem fence_freezes cfg es m : engine_ok (engine m) -> fenced m ->
  abs (ApplyAll cfg es m).1 = abs m /\ fenced (ApplyAll cfg es m).1.
Proof.
  revert m. induction es as [|e es IH]; intros m He Hf; [done|]. cbn [ApplyAll].
  destruct (fenced_apply cfg e m He Hf) as [Habs Hf1]. destruct (apply_applied cfg e m He) as [He1 _].
  destruct (Apply cfg e m) as [m1 [[]|err]]; cbn [fst] in *; [|done].
  destruct (IH m1 He1 Hf1) as [Habs2 Hf2]. split; [by etransitivity|done].
Qed.

(** ** Replay of a rejected prepare *)

(** The participant a prepare leaves as rejected is the one of its operation,
    whose keys are in the range, and nothing was written. *)
Lemma prepare_rejected cfg ent op d m p : engine_ok (engine m) -> participants m !! oID op = None ->
  participants (applyPrepare cfg ent op d m).1 !! oID op = Some p -> pStatus p = ParticipantRejected ->
  existsb (fun w => out_of_range cfg (wKey w)) (oWrites op) = false /\ p = new_participant op ParticipantRejected (oWrites op) conflict_reason /\
  contents (engine (applyPrepare cfg ent op d m).1) = contents (engine m).
Proof.
  intros He Hnone Hp Hr. unfold applyPrepare in *. destruct (existsb _ _); [cbn in Hp; congruence|]. split; [done|]. rewrite Hnone in Hp.
  assert (forall q, <[oID op := q]> (participants m) !! oID op = Some p -> p = q) as Hset by (intros q; rewrite lookup_insert_eq; congruence).
  rewrite Hnone. destruct d; [apply Hset in Hp; by subst p|].
  destruct (prepare_conflict _ _ _) as [[|]|e]; [..|cbn in Hp; congruence].
  - pose proof (abs_advance (Index ent) false (set_participant (oID op) (new_participant op ParticipantRejected (oWrites op) conflict_reason) m) He) as Ha.
    split; [|exact (f_equal a_store Ha)]. unfold advanceMetadata, run_engine in Hp. destruct (AdvanceApplied _ _) as [e [[]|err]]; by apply Hset in Hp.
  - destruct (intent_mutations _ _); [|cbn in Hp; congruence]. unfold run_engine in Hp. destruct (ApplyPreparedMVCCBatch _ _ _ _ _ _) as [e r].
    destruct (materialized r) as [[]|]; [apply Hset in Hp; by subst p|cbn in Hp; congruence].
Qed.

(** C35. A rejected prepare is recorded as prepared when its entry is
    replayed.  Take any prepare that a range rejects when it applies it.  Any
    serving replica that does not know the transaction and whose engine is
    already durable at the entry, as after a restart, records the same
    transaction with the same writes as prepared.  Neither the rejection nor
    the replay writes a version: the replay skips the conflict check and
    assumes that the intents are there. *)
Theorem rejected_prepare_replays_prepared cfg ent c op m p m0 d : engine_ok (engine m) ->
  DecodeCommand (RaftTypes.Command ent) = Ok c -> cType c = CommandTxnPrepare -> DecodeOperation (cValue c) = Ok op ->
  participants m !! oID op = None ->
  participants (Apply cfg ent m).1 !! oID op = Some p -> pStatus p = ParticipantRejected ->
  lifecycle (split m0) = LifecycleActive -> userFence (split m0) = false -> txnFence (split m0) = false ->
  DurableAppliedRaftIndex (engine m0) = Ok d -> Index ent <= d -> participants m0 !! oID op = None ->
  contents (engine (Apply cfg ent m).1) = contents (engine m) /\
  exists m1 q, Apply cfg ent m0 = (m1, Ok tt) /\ engine m1 = engine m0 /\
    participants m1 !! oID op = Some q /\ pStatus q = ParticipantPrepared /\
    pReadTime q = pReadTime p /\ pCommitTime q = pCommitTime p /\ pWrites q = pWrites p.
Proof.
  intros He Hdec Hty Hop Hnone Hp Hrej Hlife Huser Htxn Hd Hle Hnone0. unfold Apply, default_lifecycle in *. rewrite Hdec, Hty in *. cbv zeta in *.
  set (md := if lifecycle (split m) =? 0 then set_split (with_lifecycle LifecycleActive (split m)) m else m) in *.
  assert (participants md !! oID op = None /\ engine md = engine m) as [Hnone1 Hmd] by (unfold md; by destruct (_ =? 0)). clearbody md. rewrite <- Hmd in He |- *.
  destruct (out_of_range cfg (cKey c)) eqn:Hout; [cbn in Hp; congruence|]. cbn -[applyTransaction] in Hp |- *. destruct (negb (eqb _ _)); [cbn in Hp; congruence|].
  destruct (DurableAppliedRaftIndex (engine md)) as [d1|]; [|cbn in Hp; congruence]. destruct (_ || userFence (split md)); [cbn in Hp; congruence|].
  destruct (txnFence (split md)); [cbn in Hp; congruence|]. cbn [andb] in *.
  assert (forall x, participants (observe (cTimestamp c) x) = participants x) as Hobs by done.
  unfold applyTransaction, apply_operation in *. rewrite Hty, Hop in *. cbn -[applyPrepare] in Hp |- *.
  destruct (prepare_rejected cfg ent op (Index ent <=? d1) (observe (cTimestamp c) md) p) as (Hin & -> & Hc); [done|by rewrite Hobs| |done|].
  { destruct (applyPrepare _ _ _ _ _) as [m1 [[]|]]; exact Hp. }
  split; [destruct (applyPrepare _ _ _ _ (observe (cTimestamp c) md)) as [m1 [[]|]]; exact Hc|].
  rewrite Hlife. cbn -[applyPrepare]. rewrite Hd, Hlife, Huser, Htxn, (proj2 (Z.leb_le _ _) Hle). cbn -[applyPrepare].
  unfold applyPrepare. rewrite Hin, Hobs, Hnone0.
  eexists _, _. split; [reflexivity|]. split; [done|]. cbn. rewrite lookup_insert_eq. done.
Qed.
End props.

(** ** Runs on the reference engine *)

Module Runs.
Definition config : range_config := {| containsKey := None; mvcc := true; rangeID := 7; generation := 1 |}.
Definition active : split_state := {| lifecycle := LifecycleActive; splitID := 0; splitEpoch := 0; txnFence := false;
  userFence := false; bootstrapIndex := 0; bootstrapSplitID := 0; bootstrapParentID := 0; bootstrapParentGen := 0;
  bootstrapImage := zero_digest; fenceIndex := 0; parentReplayThrough := 0; provenance := ∅; bootstrapSeen := ∅ |}.
Definition opened (e : ref_engine) : machine := {| engine := e : @eng RefEngine; maxApplied := 1; safeRead := 1;
  clock := {| last := 1 |}; records := ∅; participants := ∅; split := active |}.
Definition empty : machine := opened ref_empty.

Definition key : bytes := [Byte.x6b].
Definition txn_id (b : byte) : ID := replicate 15 Byte.x00 ++ [b].
Definition home : Participant := {| RangeID := 7; Generation := 1 |}.
Definition operation (type : Z) (id : ID) (read commit : Z) (ws : list Write) : Operation :=
  {| oType := type; oID := id; oReadTime := read; oCommitTime := commit; oEpoch := 1; oHome := home;
     oParticipants := []; oWrites := ws |}.
Definition bytes_of {E} (r : result E bytes) : bytes := match r with Ok b => b | Err _ => [] end.
Definition txn_entry (index type : Z) (op : Operation) : Entry :=
  {| Index := index; RaftTypes.Term := 1; EType := EntryCommand;
     RaftTypes.Command := bytes_of (EncodeCommand {| cType := type; cKey := key;
       cValue := bytes_of (EncodeOperation op); cTimestamp := oCommitTime op |}) |}.
Definition put_entry (index ts : Z) (v : byte) : Entry :=
  {| Index := index; RaftTypes.Term := 1; EType := EntryCommand;
     RaftTypes.Command := bytes_of (EncodeCommand {| cType := CommandPut; cKey := key; cValue := [v]; cTimestamp := ts |}) |}.
Definition write (v : byte) : Write := {| wKey := key; wValue := [v]; wDelete := false |}.
Definition prepare (index : Z) (id : ID) (read commit : Z) (v : byte) : Entry :=
  txn_entry index CommandTxnPrepare (operation OpPrepare id read commit [write v]).
Definition commit (index : Z) (id : ID) (read ct : Z) : Entry :=
  txn_entry index CommandTxnResolveCommit (operation OpResolveCommit id read ct []).

Lemma empty_ok : machine_ok empty.
Proof.
  split; [split; [split; constructor|done]|]. split; [apply map_Forall_empty..|split; constructor].
Qed.

Definition idA : ID := txn_id Byte.x01.
Definition idB : ID := txn_id Byte.x02.
Definition prepareA : Entry := prepare 1 idA 10 20 Byte.x31.
Definition commitA : Entry := commit 2 idA 10 20.
Definition prepareB : Entry := prepare 3 idB 25 30 Byte.x32.
Definition participantA (status : Z) : ParticipantRecord :=
  {| pID := idA; pStatus := status; pReadTime := 10; pCommitTime := 20; pEpoch := 1; pHome := home;
     pWrites := [write Byte.x31]; pReason := [] |}.
Definition participantB : ParticipantRecord :=
  {| pID := idB; pStatus := ParticipantPrepared; pReadTime := 25; pCommitTime := 30; pEpoch := 1; pHome := home;
     pWrites := [write Byte.x32]; pReason := [] |}.
Definition afterA : machine := (Apply config prepareA empty).1.
Lemma afterA_participants : participants afterA = {[ idA := participantA ParticipantPrepared ]}.
Proof. apply (bool_decide_unpack _). vm_compute. exact I. Qed.
Lemma afterA_ok : machine_ok afterA.
Proof.
  destruct empty_ok as [He Ha]. split; [by apply apply_applied|].
  eapply range_step_ok; [apply (apply_step config prepareA false empty He Ha); by vm_compute|done].
Qed.
Lemma committedA_participants :
  participants (ApplyAll config [commitA] afterA).1 = {[ idA := participantA ParticipantCommitted ]}.
Proof. apply (bool_decide_unpack _). vm_compute. exact I. Qed.
End Runs.

Lemma apply_refines_witness :
  range_step false (abs Runs.empty) (abs (Apply Runs.config Runs.prepareA Runs.empty).1) /\
  machine_ok (Apply Runs.config Runs.prepareA Runs.empty).1.
Proof. apply apply_refines; [apply Runs.empty_ok|by vm_compute]. Defined.

Lemma outcomes_final_witness :
  map_le record_le (records Runs.empty) (records (ApplyAll Runs.config [Runs.prepareA; Runs.commitA] Runs.empty).1) /\
  map_le participant_le (participants Runs.empty)
    (participants (ApplyAll Runs.config [Runs.prepareA; Runs.commitA] Runs.empty).1).
Proof. apply outcomes_final; [apply Runs.empty_ok|by vm_compute]. Defined.

Lemma first_committer_wins_witness :
  pCommitTime (Runs.participantA ParticipantPrepared) <= pReadTime Runs.participantB.
Proof.
  apply (first_committer_wins Runs.config Runs.prepareA [Runs.commitA] Runs.prepareB Runs.empty
           Runs.idA (Runs.participantA ParticipantPrepared) (Runs.participantA ParticipantCommitted) Runs.idB Runs.participantB).
  - apply Runs.empty_ok.
  - done.
  - done.
  - done.
  - by vm_compute.
  - done.
  - intros w _ k v Hin. by apply not_elem_of_nil in Hin.
  - by vm_compute.
  - by vm_compute.
  - by vm_compute.
  - done.
  - intros id' r Hr Hne _. exfalso. change ((Apply Runs.config Runs.prepareA Runs.empty).1) with Runs.afterA in Hr.
    rewrite Runs.committedA_participants in Hr. apply lookup_singleton_Some in Hr as [<- _]. done.
  - by vm_compute.
  - by vm_compute.
  - done.
  - exists (Runs.write Byte.x31), (Runs.write Byte.x32). split_and!; [by left|by left|done].
Defined.

Lemma resolution_atomic_witness :
  visible Runs.key 20 (contents (engine (Apply Runs.config Runs.commitA Runs.afterA).1)) =
    Some ({| userKey := Runs.key; sequence := 20; kind := KindValue |}, [Byte.x31]).
Proof.
  destruct (resolution_atomic Runs.config Runs.commitA
    {| cType := CommandTxnResolveCommit; cKey := Runs.key; cTimestamp := 20;
       cValue := Runs.bytes_of (EncodeOperation (Runs.operation OpResolveCommit Runs.idA 10 20 [])) |}
    (Runs.operation OpResolveCommit Runs.idA 10 20 []) (Runs.participantA ParticipantPrepared) ParticipantCommitted
    Runs.afterA (Apply Runs.config Runs.commitA Runs.afterA).1) as (_ & _ & Hcommit & _).
  - apply Runs.afterA_ok.
  - by vm_compute.
  - by vm_compute.
  - by vm_compute.
  - by left.
  - by rewrite Runs.afterA_participants.
  - done.
  - done.
  - intros w Hw. apply list_elem_of_singleton in Hw as ->. split; [eexists; vm_compute; by left|].
    intros k v Hin. vm_compute in Hin. apply list_elem_of_singleton in Hin as [= -> _]. done.
  - by vm_compute.
  - apply (Hcommit (Runs.write Byte.x31) 20); [by left|done|done|]. intros k v _ _. cbn. lia.
Defined.

Lemma fence_freezes_witness :
  let m := set_split (with_user_fence 5 Runs.active) Runs.empty in
  abs (ApplyAll Runs.config [Runs.prepareA] m).1 = abs m /\ fenced (ApplyAll Runs.config [Runs.prepareA] m).1.
Proof. intros m. apply fence_freezes; [apply Runs.empty_ok|by split]. Defined.

Lemma rejected_prepare_replays_prepared_witness :
  let ent := Runs.prepare 2 Runs.idB 12 30 Byte.x32 in
  let written := (Apply Runs.config (Runs.put_entry 1 15 Byte.x30) Runs.empty).1 in
  let reopened := Runs.opened (ref_flush (engine (Apply Runs.config ent written).1)).1 in
  let replayed := (Apply Runs.config (Runs.put_entry 1 15 Byte.x30) reopened).1 in
  contents (engine (Apply Runs.config ent written).1) = contents (engine written) /\
  exists m1 q, Apply Runs.config ent replayed = (m1, Ok tt) /\ engine m1 = engine replayed /\
    participants m1 !! Runs.idB = Some q /\ pStatus q = ParticipantPrepared /\
    pReadTime q = 12 /\ pCommitTime q = 30 /\ pWrites q = [Runs.write Byte.x32].
Proof.
  intros ent written reopened replayed.
  apply (rejected_prepare_replays_prepared Runs.config ent
    {| cType := CommandTxnPrepare; cKey := Runs.key;
       cValue := Runs.bytes_of (EncodeOperation (Runs.operation OpPrepare Runs.idB 12 30 [Runs.write Byte.x32])); cTimestamp := 30 |}
    (Runs.operation OpPrepare Runs.idB 12 30 [Runs.write Byte.x32]) written
    (new_participant (Runs.operation OpPrepare Runs.idB 12 30 [Runs.write Byte.x32]) ParticipantRejected [Runs.write Byte.x32] conflict_reason)
    replayed 2).
  - apply apply_applied. apply Runs.empty_ok.
  - vm_compute. reflexivity.
  - reflexivity.
  - vm_compute. reflexivity.
  - vm_compute. reflexivity.
  - vm_compute. reflexivity.
  - reflexivity.
  - vm_compute. reflexivity.
  - vm_compute. reflexivity.
  - vm_compute. reflexivity.
  - vm_compute. reflexivity.
  - vm_compute. discriminate.
  - vm_compute. reflexivity.
Defined.
