(* ===== verification/RangeSnapshot.v ===== *)
(** * Taking and installing range snapshots (replicatedrange/state_snapshot.go)

    [encodeSnapshot] and [restoreSnapshot] on the state machine.  The theorems
    show what an installed snapshot carries over (versions, transaction
    records, participants, watermarks) and what it does not (the fences of a
    split in progress). *)

From S2P Require Import Prelude InternalKey Batch RaftTypes Codec Hlc Txn Command Sha256 MvccStore StateMachine StateSnapshot.
From S2P Require Import RefEngine RangeSpec RangeEngine RangeRefine RangeProps.

(** [sort.Slice] by ID on the values of a map. *)
Definition id_le {A} (f : A -> ID) (a b : A) : Prop := bytes_leb (f a) (f b) = true.
#[export] Instance id_le_dec {A} (f : A -> ID) : RelDecision (id_le f).
Proof. intros a b. unfold id_le. apply _. Defined.
Definition sorted_values {A} (f : A -> ID) (m : gmap ID A) : list A := merge_sort (id_le f) (map_to_list m).*2.
(** The loops that fill a map from a slice of values. *)
Definition values_map {A} (f : A -> ID) (l : list A) : gmap ID A := foldl (fun m a => <[f a := a]> m) ∅ l.

(** The local function [identity] of [restoreSnapshot], the map it indexes,
    and the two loops over the versions of the image. *)
Definition version_identity (v : MVCCVersion) : bytes := appendBytes (vKey v) ++ le_put 8 (vTimestamp v) ++ [vKind v].
Definition have_map (existing : list MVCCVersion) : gmap bytes bytes :=
  foldl (fun m v => <[version_identity v := vValue v]> m) ∅ existing.
Definition covered (have : gmap bytes bytes) (versions : list MVCCVersion) : bool :=
  forallb (fun v => match have !! version_identity v with
                    | Some value => bytes_eqb value (vValue v)
                    | None => false
                    end) versions.
Fixpoint missing (have : gmap bytes bytes) (versions : list MVCCVersion) : result (list range_error) (list MVCCVersion) :=
  match versions with
  | [] => Ok []
  | v :: vs =>
      match have !! version_identity v with
      | Some value => if negb (bytes_eqb value (vValue v)) then Err invalid else missing have vs
      | None => rest ← missing have vs; Ok (v :: rest)
      end
  end.

(** [sort.SliceStable] by timestamp, and the runs of equal timestamps. *)
Fixpoint insert_by_time (v : MVCCVersion) (l : list MVCCVersion) : list MVCCVersion :=
  match l with
  | [] => [v]
  | x :: r => if vTimestamp v <=? vTimestamp x then v :: l else x :: insert_by_time v r
  end.
Definition sort_by_time (l : list MVCCVersion) : list MVCCVersion := foldr insert_by_time [] l.
Fixpoint runs (l : list MVCCVersion) : list (Z * list MVCCVersion) :=
  match l with
  | [] => []
  | v :: r =>
      match runs r with
      | (ts, g) :: gs => if vTimestamp v =? ts then (ts, v :: g) :: gs else (vTimestamp v, [v]) :: (ts, g) :: gs
      | [] => [(vTimestamp v, [v])]
      end
  end.
Definition version_mutation (v : MVCCVersion) : Mutation := {| mKey := vKey v; mValue := vValue v; mKind := vKind v |}.

Section snapshot.
Context `{MvccEngine}.

Definition snapshot_image (cfg : range_config) (versions : list MVCCVersion) (m : machine) : logicalStateImage :=
  {| im_rangeID := rangeID cfg; im_generation := generation cfg; im_applied := ReplicatedApplied (engine m);
     im_maxApplied := maxApplied m; im_safeRead := safeRead m; im_hlc := last (clock m);
     im_lifecycle := lifecycle (split m); im_versions := versions;
     im_records := sorted_values rID (records m); im_participants := sorted_values pID (participants m) |}.
Definition encodeSnapshot (cfg : range_config) (m : machine) : result (list range_error) bytes :=
  match ExportMVCCVersions (engine m) with
  | Err e => Err [e]
  | Ok versions => encodeLogicalState (snapshot_image cfg versions m)
  end.

(** The loop that installs the missing versions, one index per timestamp. *)
Fixpoint restore_batches (groups : list (Z * list MVCCVersion)) (index : Z) (e : eng) : eng * result (list range_error) Z :=
  match groups with
  | [] => (e, Ok index)
  | (ts, g) :: gs =>
      let index := u64 (index + 1) in
      match ApplyPreparedMVCCBatch index 1 ts (Sum256 (le_put 8 index)) (version_mutation <$> g) e with
      | (e, Err err) => (e, Err [err])
      | (e, Ok _) => restore_batches gs index e
      end
  end.

(** The assignments at the end of [restoreSnapshot]. *)
Definition install_image (i : logicalStateImage) (m : machine) : machine :=
  {| engine := engine m; maxApplied := Z.max (maxApplied m) (im_maxApplied i); safeRead := im_safeRead i;
     clock := Observe (im_hlc i) (clock m); records := values_map rID (im_records i);
     participants := values_map pID (im_participants i);
     split := if negb (lifecycle (split m) =? LifecycleLearner) then with_lifecycle (im_lifecycle i) (split m) else split m |}.

Definition restore_engine (i : logicalStateImage) (durable : Z) (have : gmap bytes bytes) (e : eng) :
    eng * result (list range_error) unit :=
  match missing have (im_versions i) with
  | Err err => (e, Err err)
  | Ok versions =>
      match restore_batches (runs (sort_by_time versions)) durable e with
      | (e, Err err) => (e, Err err)
      | (e, Ok index) =>
          if im_applied i <? index then (e, Err invalid)
          else
            let '(e, advanced) := if index <? im_applied i then AdvanceApplied (im_applied i) e else (e, Ok tt) in
            match advanced with
            | Err err => (e, Err [err])
            | Ok _ => match Flush e with (e, Err err) => (e, Err [err]) | (e, Ok _) => (e, Ok tt) end
            end
      end
  end.
Definition restoreSnapshot (cfg : range_config) (encoded : bytes) (m : machine) : machine * result (list range_error) unit :=
  match decodeLogicalState encoded with
  | Err e => (m, Err e)
  | Ok i =>
      if negb (im_rangeID i =? rangeID cfg) || (generation cfg <? im_generation i) then (m, Err [ErrKeyOutOfRange])
      else
        match DurableAppliedRaftIndex (engine m) with
        | Err e => (m, Err [e])
        | Ok durable =>
            match ExportMVCCVersions (engine m) with
            | Err e => (m, Err [e])
            | Ok existing =>
                let have := have_map existing in
                if (im_applied i <? durable) && negb (covered have (im_versions i)) then (m, Err [ErrSnapshotBehind])
                else
                  let '(e, r) := if durable <=? im_applied i then restore_engine i durable have (engine m)
                                 else (engine m, Ok tt) in
                  match r with
                  | Err err => (set_engine e m, Err err)
                  | Ok _ => (install_image i (set_engine e m), Ok tt)
                  end
            end
        end
  end.
End snapshot.

(** ** The parts *)

Lemma values_map_sorted {A} (f : A -> ID) (m : gmap ID A) : (forall id a, m !! id = Some a -> f a = id) ->
  values_map f (sorted_values f m) = m.
Proof.
  intros Hf. assert (sorted_values f m ≡ₚ (map_to_list m).*2) as Hperm by apply merge_sort_Permutation.
  assert (f <$> (map_to_list m).*2 = (map_to_list m).*1) as Hkeys.
  { rewrite <- list_fmap_compose. apply list_fmap_ext. intros i [id a] Hi. apply Hf.
    apply elem_of_map_to_list. by eapply list_elem_of_lookup_2. }
  apply map_eq. intros id. apply option_eq. intros a. unfold values_map. rewrite (fold_insert_Some f (fun a => a)).
  - setoid_rewrite Hperm. split.
    + intros (b & Hb & <- & <-). apply list_elem_of_fmap in Hb as ([id' b'] & -> & Hb). cbn.
      apply elem_of_map_to_list in Hb. by rewrite (Hf _ _ Hb).
    + intros Ha. exists a. split_and!; [|by apply Hf|done]. apply list_elem_of_fmap. exists (id, a).
      split; [done|by apply elem_of_map_to_list].
  - rewrite Hperm, Hkeys. apply NoDup_fst_map_to_list.
Qed.

Definition key_of (v : MVCCVersion) : InternalKey := {| userKey := vKey v; sequence := vTimestamp v; kind := vKind v |}.
Lemma key_of_version e : key_of (version_of e) = e.1.
Proof. by destruct e as [[]]. Qed.
Lemma version_of_key v : version_of (key_of v, vValue v) = v.
Proof. by destruct v. Qed.

(** Keys and timestamps of the sizes the code handles. *)
Definition version_sized (v : MVCCVersion) : Prop := is_u32 (len (vKey v)) /\ is_u64 (vTimestamp v).
Lemma identity_inj a b : version_sized a -> version_sized b ->
  version_identity a = version_identity b <-> key_of a = key_of b.
Proof.
  intros [Ha1 Ha2] [Hb1 Hb2]. split; [|unfold version_identity, key_of; by intros [= -> -> ->]].
  unfold version_identity, appendBytes. rewrite <- !app_assoc, !u32_id by done. intros Heq.
  apply app_inj_1 in Heq as [Hl Heq]; [|by rewrite !le_put_length].
  apply (f_equal le_get) in Hl. rewrite !le_get_put, !Z.mod_small in Hl by done.
  apply app_inj_1 in Heq as [Hk Heq]; [|unfold len in Hl; lia].
  apply app_inj_1 in Heq as [Ht Hkind]; [|by rewrite !le_put_length].
  apply (f_equal le_get) in Ht. rewrite !le_get_put, !Z.mod_small in Ht by done. injection Hkind as Hkind.
  unfold key_of. congruence.
Qed.
Lemma identity_NoDup vs : Forall version_sized vs -> NoDup (key_of <$> vs) -> NoDup (version_identity <$> vs).
Proof.
  induction vs as [|v vs IH]; cbn; [constructor|]. intros [Hv Hvs]%Forall_cons [Hnin Hnd]%NoDup_cons.
  constructor; [|by apply IH]. intros (w & Hw & Hin)%list_elem_of_fmap. apply Hnin. rewrite Forall_forall in Hvs.
  apply identity_inj in Hw; [|done|by apply Hvs]. rewrite Hw. by apply list_elem_of_fmap_2.
Qed.
(** The index of the existing versions answers membership. *)
Lemma have_map_spec vs v x : Forall version_sized vs -> NoDup (key_of <$> vs) -> version_sized v ->
  have_map vs !! version_identity v = Some x <-> exists w, w ∈ vs /\ key_of w = key_of v /\ vValue w = x.
Proof.
  intros Hs Hnd Hv. unfold have_map. rewrite (fold_insert_Some version_identity vValue) by by apply identity_NoDup.
  rewrite Forall_forall in Hs. split; intros (w & Hw & Hid & Hx); exists w; split_and!; try done.
  - apply identity_inj; [by apply Hs|done|done].
  - apply identity_inj; [by apply Hs|done|done].
Qed.

Lemma insert_by_time_perm v l : insert_by_time v l ≡ₚ v :: l.
Proof.
  induction l as [|x l IH]; cbn; [done|]. case_match; [done|]. rewrite IH. apply Permutation_swap.
Qed.
Lemma sort_by_time_perm l : sort_by_time l ≡ₚ l.
Proof. induction l as [|v l IH]; cbn; [done|]. by rewrite insert_by_time_perm, IH. Qed.
Lemma runs_spec l : concat (runs l).*2 = l /\ Forall (fun g => Forall (fun v => vTimestamp v = g.1) g.2) (runs l).
Proof.
  induction l as [|v l [IHc IHf]]; cbn; [done|]. destruct (runs l) as [|[ts g] gs] eqn:Hr; cbn in *.
  - subst l. split; [done|]. by repeat constructor.
  - apply Forall_cons in IHf as [Hg Hgs]. destruct (Z.eqb_spec (vTimestamp v) ts) as [Heq|Hne]; cbn.
    + split; [by rewrite <- IHc|]. constructor; [by constructor|done].
    + split; [by rewrite <- IHc|]. constructor; [by repeat constructor|by constructor].
Qed.
Lemma missing_spec have vs vs' : missing have vs = Ok vs' ->
  vs' = filter (fun v => have !! version_identity v = None) vs /\
  (forall v x, v ∈ vs -> have !! version_identity v = Some x -> x = vValue v).
Proof.
  revert vs'. induction vs as [|v vs IH]; intros vs'; cbn [missing].
  { intros [= <-]. split; [done|]. intros v x Hv. by apply not_elem_of_nil in Hv. }
  rewrite filter_cons. destruct (have !! version_identity v) as [value|] eqn:Hv.
  - rewrite decide_False by done. destruct (bytes_eqb value (vValue v)) eqn:Heq; [|done]. cbn [negb].
    intros Hm. destruct (IH _ Hm) as [-> Hall]. split; [done|]. apply bytes_eqb_eq in Heq.
    intros w x [->|Hw]%elem_of_cons Hx; [congruence|by apply Hall].
  - rewrite decide_True by done. rewrite bind_ok. intros (rest & Hrest & [= <-]). destruct (IH _ Hrest) as [-> Hall].
    split; [done|]. intros w x [->|Hw]%elem_of_cons Hx; [congruence|by apply Hall].
Qed.

Section transfer.
Context `{EngineLaws}.

Lemma group_keys ts g : Forall (fun v => vTimestamp v = ts) g -> version_key ts <$> (version_mutation <$> g) = key_of <$> g.
Proof.
  intros Hg. rewrite <- list_fmap_compose. apply list_fmap_ext. intros i v Hv. rewrite Forall_forall in Hg.
  unfold compose, version_key, version_mutation, key_of. cbn. f_equal. symmetry. apply Hg. by eapply list_elem_of_lookup_2.
Qed.
Lemma restore_batches_spec gs : forall index e e' index',
  engine_ok e -> Forall (fun g => Forall (fun v => vTimestamp v = g.1) g.2) gs -> NoDup (key_of <$> concat gs.*2) ->
  restore_batches gs index e = (e', Ok index') ->
  engine_ok e' /\
  (forall k v, (k, v) ∈ contents e' <->
    (exists x, x ∈ concat gs.*2 /\ k = key_of x /\ v = vValue x) \/ (k ∉ (key_of <$> concat gs.*2) /\ (k, v) ∈ contents e)).
Proof.
  induction gs as [|[ts g] gs IH]; intros index e e' index' Hok Hgs Hnd; cbn [restore_batches].
  { intros [= <- <-]. split; [done|]. intros k v. cbn. split; [right; split; [apply not_elem_of_nil|done]|].
    intros [(x & Hx & _)|[_ ?]]; [by apply not_elem_of_nil in Hx|done]. }
  apply Forall_cons in Hgs as [Hg Hgs]. cbn in Hg, Hnd |- *. rewrite fmap_app in Hnd. apply NoDup_app in Hnd as (Hndg & Hdis & Hnd).
  set (i := u64 (index + 1)).
  pose proof (prepared_law i 1 ts (Sum256 (le_put 8 i)) (version_mutation <$> g) e Hok) as [Hok1 Hlaw].
  destruct (ApplyPreparedMVCCBatch _ _ _ _ _ _) as [e1 [[]|err]]; cbn in Hok1, Hlaw; [|done].
  destruct Hlaw as (_ & Hts & Hc & _). intros Hr. destruct (IH _ _ _ _ Hok1 Hgs Hnd Hr) as [Hok' Hin]. split; [done|].
  intros k v. rewrite Hin, Hc, elem_of_put_all, group_keys, fmap_app by (done || by apply contents_ok || by rewrite group_keys).
  rewrite not_elem_of_app. rewrite Forall_forall in Hg. split.
  - intros [(x & Hx & -> & ->)|[Hk [(m & Hm & -> & ->)|[Hk' Hl]]]].
    + left. exists x. rewrite elem_of_app. auto.
    + apply list_elem_of_fmap in Hm as (x & -> & Hx). left. exists x. rewrite elem_of_app. split_and!; [auto| |done].
      unfold version_key, version_mutation, key_of. cbn. by rewrite (Hg _ Hx).
    + right. auto.
  - intros [(x & [Hx|Hx]%elem_of_app & -> & ->)|[[Hk' Hk] Hl]].
    + right. split; [apply Hdis; by apply list_elem_of_fmap_2|]. left. exists (version_mutation x).
      split_and!; [by apply list_elem_of_fmap_2| |done]. unfold version_key, version_mutation, key_of. cbn. by rewrite (Hg _ Hx).
    + left. exists x. auto.
    + auto.
Qed.

(** The existing versions, as the export lists them. *)
Lemma exported_keys e : engine_ok e -> NoDup (key_of <$> (version_of <$> contents e)).
Proof.
  intros Hok. rewrite <- list_fmap_compose. rewrite (list_fmap_ext _ fst); [apply store_keys_NoDup, contents_ok, Hok|].
  intros j x _. apply key_of_version.
Qed.
Lemma exported_in e k v : (k, v) ∈ contents e <-> exists w, w ∈ (version_of <$> contents e) /\ key_of w = k /\ vValue w = v.
Proof.
  split; [intros Hin; exists (version_of (k, v)); rewrite key_of_version; split_and!; [by apply list_elem_of_fmap_2|done..]|].
  intros (w & (x & -> & Hx)%list_elem_of_fmap & <- & <-). rewrite key_of_version. by destruct x.
Qed.
Lemma have_exported e v x : engine_ok e -> Forall version_sized (version_of <$> contents e) -> version_sized v ->
  have_map (version_of <$> contents e) !! version_identity v = Some x <-> (key_of v, x) ∈ contents e.
Proof.
  intros Hok Hsz Hv. rewrite have_map_spec by (done || by apply exported_keys). rewrite exported_in. done.
Qed.

(** Installing what is missing gives the union. *)
Lemma missing_union e e1 vs : engine_ok e -> Forall version_sized (version_of <$> contents e) -> Forall version_sized vs ->
  let have := have_map (version_of <$> contents e) in
  let new := filter (fun v => have !! version_identity v = None) vs in
  (forall v x, v ∈ vs -> have !! version_identity v = Some x -> x = vValue v) ->
  (forall k v, (k, v) ∈ contents e1 <->
    (exists x, x ∈ new /\ k = key_of x /\ v = vValue x) \/ (k ∉ (key_of <$> new) /\ (k, v) ∈ contents e)) ->
  forall x, x ∈ contents e1 <-> x ∈ contents e \/ version_of x ∈ vs.
Proof.
  intros Hok Hsz Hvsz have new Hsame Hin [k v]. rewrite Hin. rewrite Forall_forall in Hvsz. split.
  - intros [(x & Hx & -> & ->)|[_ ?]]; [|by left]. apply list_elem_of_filter in Hx as [_ Hx]. right. by rewrite version_of_key.
  - assert ((k, v) ∈ contents e -> k ∉ (key_of <$> new)) as Hold.
    { intros Hkv (w & -> & Hw)%list_elem_of_fmap. apply list_elem_of_filter in Hw as [Hnone Hw].
      apply have_exported in Hkv; [|done|done|by apply Hvsz]. unfold have in Hnone. congruence. }
    intros [Hkv|Hv]; [by right; split; [apply Hold|]|].
    destruct (have !! version_identity (version_of (k, v))) as [x|] eqn:Hhave.
    + right. rewrite (Hsame _ _ Hv Hhave) in Hhave. apply have_exported in Hhave; [|done|done|by apply Hvsz].
      rewrite key_of_version in Hhave. split; [by apply Hold|done].
    + left. exists (version_of (k, v)). rewrite key_of_version. split_and!; [|done|done]. by apply list_elem_of_filter.
Qed.

(** The engine after a successful restore holds its old versions and those of
    the image. *)
Lemma restore_engine_spec i durable e e' : engine_ok e -> Forall version_sized (version_of <$> contents e) ->
  Forall version_sized (im_versions i) -> NoDup (key_of <$> im_versions i) ->
  restore_engine i durable (have_map (version_of <$> contents e)) e = (e', Ok tt) ->
  engine_ok e' /\ (forall x, x ∈ contents e' <-> x ∈ contents e \/ version_of x ∈ im_versions i).
Proof.
  intros Hok Hsz Hisz Hnd. unfold restore_engine. set (have := have_map _).
  destruct (missing have (im_versions i)) as [vs|] eqn:Hm; [|done]. destruct (missing_spec _ _ _ Hm) as [Hvs Hsame].
  destruct (restore_batches _ durable e) as [e1 [index|]] eqn:Hb; [|done].
  destruct (runs_spec (sort_by_time vs)) as [Hconcat Hruns].
  assert (NoDup (key_of <$> sort_by_time vs)) as Hnds.
  { rewrite sort_by_time_perm, Hvs. by apply NoDup_fmap_filter. }
  destruct (restore_batches_spec _ durable e e1 index Hok Hruns ltac:(by rewrite Hconcat) Hb) as [Hok1 Hin]. rewrite Hconcat in Hin.
  assert (forall x, x ∈ contents e1 <-> x ∈ contents e \/ version_of x ∈ im_versions i) as Hres.
  { apply missing_union; try done. intros k v. rewrite Hin. setoid_rewrite sort_by_time_perm. by rewrite Hvs. }
  destruct (_ <? index); [done|].
  assert (forall e2, engine_ok e2 -> contents e2 = contents e1 ->
    match Flush e2 with (e, Err err) => (e, Err [err]) | (e, Ok _) => (e, Ok tt) end = (e', Ok tt) ->
    engine_ok e' /\ (forall x, x ∈ contents e' <-> x ∈ contents e \/ version_of x ∈ im_versions i)) as Hflush.
  { intros e2 Hok2 Hc2. destruct (flush_law e2 Hok2) as (Hok3 & Hc3 & _).
    destruct (Flush e2) as [e3 [[]|]]; cbn in *; [|done]. intros [= <-]. split; [done|]. intros x. by rewrite Hc3, Hc2. }
  destruct (index <? im_applied i); [|by apply Hflush].
  pose proof (advance_law (im_applied i) e1 Hok1) as (Hok2 & Hc2 & _).
  destruct (AdvanceApplied (im_applied i) e1) as [e2 [[]|]]; cbn in *; [by apply Hflush|done].
Qed.

(** On every branch: a replica that is durable beyond the image already holds
    its versions, and keeps its own. *)
Lemma restored_contents i durable e e1 l : engine_ok e -> store_ok l ->
  Forall version_sized (version_of <$> contents e) -> Forall version_sized (im_versions i) ->
  im_versions i = version_of <$> l ->
  (im_applied i <? durable) && negb (covered (have_map (version_of <$> contents e)) (im_versions i)) = false ->
  (if durable <=? im_applied i then restore_engine i durable (have_map (version_of <$> contents e)) e else (e, Ok tt)) = (e1, Ok tt) ->
  engine_ok e1 /\ (forall x, x ∈ contents e1 <-> x ∈ contents e \/ x ∈ l).
Proof.
  intros Hok Hl Hsz Hisz Hvs Hcov.
  assert (forall x, version_of x ∈ im_versions i <-> x ∈ l) as Hin.
  { intros x. rewrite Hvs. split; [|by apply list_elem_of_fmap_2]. intros (y & Hxy & Hy)%list_elem_of_fmap.
    assert (x = y) as ->; [|done]. destruct x as [[]], y as [[]]. unfold version_of in Hxy. cbn in Hxy. congruence. }
  destruct (Z.leb_spec durable (im_applied i)) as [Hle|Hlt].
  - intros Hr. apply restore_engine_spec in Hr as [Hok1 Hr]; try done.
    + split; [done|]. intros x. by rewrite Hr, Hin.
    + rewrite Hvs, <- list_fmap_compose. rewrite (list_fmap_ext _ fst); [apply store_keys_NoDup, Hl|].
      intros j x _. apply key_of_version.
  - intros [= <-]. split; [done|]. intros [k v]. split; [by left|]. intros [?|Hkv]; [done|].
    rewrite (proj2 (Z.ltb_lt _ _) Hlt) in Hcov. apply negb_false_iff in Hcov. unfold covered in Hcov.
    rewrite forallb_forall in Hcov. rewrite Forall_forall in Hisz.
    assert (version_of (k, v) ∈ im_versions i) as Hv by by apply Hin.
    specialize (Hcov (version_of (k, v))). rewrite <- list_elem_of_In in Hcov. specialize (Hcov Hv).
    destruct (have_map _ !! _) as [x|] eqn:Hh; [|done]. apply bytes_eqb_eq in Hcov. subst x.
    apply have_exported in Hh; [|done|done|by apply Hisz]. by rewrite key_of_version in Hh.
Qed.

(** What decoding gives back of a snapshot that was taken. *)
Lemma decode_encoded cfg m data i : engine_ok (engine m) -> encodeSnapshot cfg m = Ok data ->
  image_ok (snapshot_image cfg (version_of <$> contents (engine m)) m) -> decodeLogicalState data = Ok i ->
  i = snapshot_image cfg (version_of <$> contents (engine m)) m.
Proof.
  intros Hok He Himg Hd. unfold encodeSnapshot in He. destruct (ExportMVCCVersions (engine m)) as [vs|] eqn:Hex; [|done].
  apply export_law in Hex as ->; [|done]. pose proof (decode_logical_state _ _ Himg He) as Hd'. congruence.
Qed.

(** What a successful restore leaves, the engine apart. *)
Lemma restored_machine cfg m data m0 m' : engine_ok (engine m) -> encodeSnapshot cfg m = Ok data ->
  image_ok (snapshot_image cfg (version_of <$> contents (engine m)) m) -> restoreSnapshot cfg data m0 = (m', Ok tt) ->
  exists e, m' = install_image (snapshot_image cfg (version_of <$> contents (engine m)) m) (set_engine e m0) /\
    exists durable existing, ExportMVCCVersions (engine m0) = Ok existing /\
    let i := snapshot_image cfg (version_of <$> contents (engine m)) m in
    (im_applied i <? durable) && negb (covered (have_map existing) (im_versions i)) = false /\
    (if durable <=? im_applied i then restore_engine i durable (have_map existing) (engine m0) else (engine m0, Ok tt)) = (e, Ok tt).
Proof.
  intros He Henc Himg. unfold restoreSnapshot. destruct (decodeLogicalState data) as [i|] eqn:Hd; [|done].
  rewrite (decode_encoded cfg m data i He Henc Himg Hd). destruct (_ || _); [done|].
  destruct (DurableAppliedRaftIndex (engine m0)) as [durable|]; [|done]. destruct (ExportMVCCVersions (engine m0)) as [existing|]; [|done]. cbv zeta.
  destruct (_ && _) eqn:Hcov; [done|]. match goal with |- context [let '(_, _) := ?x in _] => destruct x as [e r] eqn:Hr end.
  destruct r as [[]|]; [|done]. intros [= <-]. exists e. split; [done|]. by exists durable, existing.
Qed.

(** C14. Installing a snapshot that a range took.  After a successful restore,
    whatever versions the replica held and also when its engine was durable
    beyond the snapshot, it holds exactly its own versions and those of the
    range that took the snapshot; so if it held none the range does not have,
    it holds the versions of the range.  The transaction records, the
    participants and the safe read time are those of the range, and the
    version watermark and the clock are not behind.  The image is within the
    limits of the format, and the keys and timestamps of the replica have the
    sizes of the Go types. *)
Theorem snapshot_transfers cfg m data m0 m' :
  machine_ok m -> machine_ok m0 -> encodeSnapshot cfg m = Ok data ->
  image_ok (snapshot_image cfg (version_of <$> contents (engine m)) m) ->
  Forall version_sized (version_of <$> contents (engine m0)) ->
  restoreSnapshot cfg data m0 = (m', Ok tt) ->
  (forall x, x ∈ contents (engine m') <-> x ∈ contents (engine m0) \/ x ∈ contents (engine m)) /\
  ((forall x, x ∈ contents (engine m0) -> x ∈ contents (engine m)) -> contents (engine m') = contents (engine m)) /\
  records m' = records m /\ participants m' = participants m /\
  safeRead m' = safeRead m /\ maxApplied m <= maxApplied m' /\ last (clock m) <= last (clock m') /\ machine_ok m'.
Proof.
  intros [He Ha] [He0 Ha0] Henc Himg Hsz Hr.
  destruct (restored_machine cfg m data m0 m' He Henc Himg Hr) as (e & -> & durable & existing & Hex & Hcov & He1). clear Hr.
  apply export_law in Hex as ->; [|done].
  assert (Forall version_sized (version_of <$> contents (engine m))) as Hisz.
  { eapply Forall_impl; [apply (io_versions _ Himg)|]. intros v (Hk & _ & Ht). split; [|done].
    pose proof (len_nonneg (vKey v)). unfold is_u32. change (Z.shiftl 1 20) with 1048576 in Hk. lia. }
  destruct (restored_contents (snapshot_image cfg (version_of <$> contents (engine m)) m) durable (engine m0) e (contents (engine m)) He0 (contents_ok _ He) Hsz Hisz eq_refl Hcov He1) as [Hok' Hc].
  cbn. destruct Ha as [Hrs Hps Hst]. cbn in Hrs, Hps.
  assert (values_map rID (sorted_values rID (records m)) = records m) as Hrec
    by (apply values_map_sorted; intros id r Hid; by destruct (Hrs _ _ Hid)).
  assert (values_map pID (sorted_values pID (participants m)) = participants m) as Hpar
    by (apply values_map_sorted; intros id p Hid; by destruct (Hps _ _ Hid)).
  split_and!; try done; [|lia| |].
  - intros Hsub. apply store_eq; [by apply contents_ok|by apply contents_ok|]. intros x. rewrite Hc. naive_solver.
  - unfold Observe. destruct (Z.ltb_spec (last (clock m0)) (last (clock m))); cbn; lia.
  - split; [done|]. split; cbn; [by rewrite <- Hrec in Hrs|by rewrite <- Hpar in Hps|by apply contents_ok].
Qed.

(** C34. The image of a range has none of the fences of a split in progress.
    Take any active range past its final fence, which refuses a write, and
    restore any replica that has no fence of its own from the snapshot the
    range takes: the restored replica has no fence and applies the write as
    soon as its engine takes it. *)
Theorem snapshot_forgets_fence cfg m data m0 m' ent c d d' e' :
  engine_ok (engine m) -> userFence (split m) = true -> lifecycle (split m) = LifecycleActive ->
  encodeSnapshot cfg m = Ok data -> image_ok (snapshot_image cfg (version_of <$> contents (engine m)) m) ->
  restoreSnapshot cfg data m0 = (m', Ok tt) -> userFence (split m0) = false ->
  mvcc cfg = true -> DecodeCommand (RaftTypes.Command ent) = Ok c -> cType c = CommandPut -> out_of_range cfg (cKey c) = false ->
  0 < cTimestamp c -> maxApplied m' < cTimestamp c ->
  DurableAppliedRaftIndex (engine m) = Ok d -> DurableAppliedRaftIndex (engine m') = Ok d' -> d' < Index ent ->
  ApplyCommittedMVCC (Index ent) (RaftTypes.Term ent) (cTimestamp c) (RaftTypes.Command ent)
    {| mKey := cKey c; mValue := cValue c; mKind := KindValue |} (engine m') = (e', Ok tt) ->
  Apply cfg ent m = (m, Err [ErrRangeNotServing]) /\
  userFence (split m') = false /\
  Apply cfg ent m' = (observe (cTimestamp c) (set_maxApplied (cTimestamp c) (set_engine e' m')), Ok tt).
Proof.
  intros He Hfence Hlife Henc Himg Hr Hopen Hmv Hdec Hput Hin Hts Hmax Hd Hd' Hnew Hwrite.
  destruct (restored_machine cfg m data m0 m' He Henc Himg Hr) as (e & Hm' & _).
  assert (split m' = if negb (lifecycle (split m0) =? LifecycleLearner) then with_lifecycle LifecycleActive (split m0) else split m0) as Hs
    by (rewrite Hm'; cbn; by rewrite Hlife).
  assert (userFence (split m') = false /\ (lifecycle (split m') = LifecycleActive \/ lifecycle (split m') = LifecycleLearner)) as [Hno Hl'].
  { rewrite Hs. destruct (Z.eqb_spec (lifecycle (split m0)) LifecycleLearner); cbn; auto. }
  assert (lifecycle (split m') =? 0 = false) as Hz by (by destruct Hl' as [-> | ->]).
  assert (negb (lifecycle (split m') =? LifecycleActive) && negb (lifecycle (split m') =? LifecycleLearner) = false) as Hserve by (by destruct Hl' as [-> | ->]).
  unfold Apply, default_lifecycle. rewrite Hlife, Hz, Hdec, Hin, Hput, Hmv, (proj2 (Z.eqb_neq (cTimestamp c) 0)) by lia. cbn -[Apply].
  rewrite Hd, Hd', Hfence, Hno, Hserve, Hlife, (proj2 (Z.leb_gt _ _) Hnew). cbn. split; [done|]. split; [done|].
  unfold apply_write. rewrite Hmv, Hput, (proj2 (Z.leb_gt _ _) Hmax). cbn. unfold run_engine. by rewrite Hwrite.
Qed.
End transfer.

(** ** A range that takes over from a snapshot *)

Module Transfer.
Import Runs.
Definition source : machine := (ApplyAll config [prepareA; commitA] empty).1.
Definition data : bytes := bytes_of (encodeSnapshot config source).
Definition restored : machine := (restoreSnapshot config data empty).1.
Lemma source_ok : machine_ok source.
Proof. apply apply_all_steps; [apply empty_ok|by vm_compute]. Qed.
Lemma source_image : image_ok (snapshot_image config (version_of <$> contents (engine source)) source).
Proof. apply image_okb_ok. by vm_compute. Qed.
Lemma encoded : encodeSnapshot config source = Ok data.
Proof. vm_compute. reflexivity. Qed.
Lemma empty_sub x : x ∈ contents (engine empty) -> x ∈ contents (engine source).
Proof. intros Hx. by apply not_elem_of_nil in Hx. Qed.
Lemma empty_sized : Forall version_sized (version_of <$> contents (engine empty)).
Proof. constructor. Qed.
(** The range past the final fence of a split. *)
Definition fenced_source : machine := set_split (with_user_fence 3 (with_split 9 1 true active)) source.
Definition fenced_data : bytes := bytes_of (encodeSnapshot config fenced_source).
Definition fenced_restored : machine := (restoreSnapshot config fenced_data empty).1.
Definition late_put : Entry := put_entry 5 50 Byte.x30.
Lemma fenced_encoded : encodeSnapshot config fenced_source = Ok fenced_data.
Proof. vm_compute. reflexivity. Qed.
Lemma fenced_image : image_ok (snapshot_image config (version_of <$> contents (engine fenced_source)) fenced_source).
Proof. apply image_okb_ok. by vm_compute. Qed.
Lemma fenced_restores : restoreSnapshot config fenced_data empty = (fenced_restored, Ok tt).
Proof. apply injective_projections; [reflexivity|vm_compute; reflexivity]. Qed.
End Transfer.

Lemma snapshot_transfers_witness :
  contents (engine Transfer.restored) = contents (engine Transfer.source) /\
  participants Transfer.restored = participants Transfer.source.
Proof.
  assert (restoreSnapshot Runs.config Transfer.data Runs.empty = (Transfer.restored, Ok tt)) as Hr.
  { apply injective_projections; [reflexivity|vm_compute; reflexivity]. }
  pose proof (snapshot_transfers Runs.config Transfer.source Transfer.data Runs.empty Transfer.restored
    Transfer.source_ok Runs.empty_ok Transfer.encoded Transfer.source_image Transfer.empty_sized Hr) as (_ & Hc & _ & Hp & _).
  exact (conj (Hc Transfer.empty_sub) Hp).
Defined.

Lemma snapshot_forgets_fence_witness :
  Apply Runs.config Transfer.late_put Transfer.fenced_source = (Transfer.fenced_source, Err [ErrRangeNotServing]) /\
  (Apply Runs.config Transfer.late_put Transfer.fenced_restored).2 = Ok tt.
Proof.
  destruct (snapshot_forgets_fence Runs.config Transfer.fenced_source Transfer.fenced_data Runs.empty Transfer.fenced_restored Transfer.late_put
    {| cType := CommandPut; cKey := Runs.key; cValue := [Byte.x30]; cTimestamp := 50 |}
    0 2 (ApplyCommittedMVCC 5 1 50 (RaftTypes.Command Transfer.late_put) {| mKey := Runs.key; mValue := [Byte.x30]; mKind := KindValue |} (engine Transfer.fenced_restored)).1)
    as (H1 & _ & H2).
  - apply Transfer.source_ok.
  - reflexivity.
  - reflexivity.
  - exact Transfer.fenced_encoded.
  - exact Transfer.fenced_image.
  - exact Transfer.fenced_restores.
  - reflexivity.
  - reflexivity.
  - vm_compute. reflexivity.
  - reflexivity.
  - reflexivity.
  - reflexivity.
  - vm_compute. reflexivity.
  - vm_compute. reflexivity.
  - vm_compute. reflexivity.
  - reflexivity.
  - apply injective_projections; [reflexivity|vm_compute; reflexivity].
  - exact (conj H1 (f_equal snd H2)).
Defined.
