(* ===== verification/EngineRead.v ===== *)
(** * Reads of the storage engine (storage/engine/read.go)

    Point reads, scans and the export of all versions over one read view: the
    active and immutable memtables and the live tables of a version.  The
    counters and the read hook are not modelled.  [None] is a panic.

    [acquire] stands for the table cache: the reader a lease holds, with the
    errors its release returns.  TableCache.v models the cache and shows that
    it hands out what opening the table gives. *)

From S2P Require Import Prelude InternalKey Batch Loops Files Wal MvccStore SSTable SSTableWriter SSTableReader MemTable Heap Merge MergeInputs Manifest ManifestVersion ManifestStore Command StateMachine.
Import manifest version store.

Module read.

Inductive engine_error :=
  | ErrClosed | ErrNotFound | ErrInvalidOptions | ErrInvalidRange | ErrCorruption | ErrDuplicateEntry | ErrUnresolvedIntent | ErrDirectoryState
  | ErrWrongMode | ErrUnexpectedWAL | ErrAlreadyApplied | ErrConflictingApply | ErrApplyOrder | errActiveState | errImmutableState | errLevelOverlap
  | errSequenceBehind | errObsoleteStillLive.
(** An error of the engine or of a part it calls. *)
Inductive eerror :=
  | Eng (e : engine_error) | Table_ (e : sstable.sst_error) | Mem_ (e : memtable.mem_error) | Store_ (e : store_error) | Comp (e : merge.compaction_error)
  | Kind_.
Abbreviation errors := (list eerror).
Abbreviation eres := (result errors).

(** [pipeline.ReadGeneration] and [pipeline.ReadSnapshot] *)
Record ReadGeneration := mkReadGeneration { rg_Generation : Z; rg_FileNumber : Z; rg_Table : memtable.MemTable }.
Record ReadSnapshot := mkReadSnapshot {
  rs_Active : ReadGeneration; rs_Immutables : list ReadGeneration; rs_LatestSequence : Z; rs_HaveSequence : bool; rs_SequenceExhausted : bool
}.
Record readView := mkView { rv_memtables : ReadSnapshot; rv_version : Version }.
(** The first field of the Go struct is an [sstable.Entry]. *)
Record cand := mkCand { c_entry : entry; c_fileNumber : Z }.

(** [version.Files] of every level in turn. *)
Definition Files_all (v : Version) : result (list manifest_error) (list TableMetadata) :=
  foldM (fun tables level => ts ← Files (Z.of_nat level) v; Ok (tables ++ ts)) [] (seq 0 (Z.to_nat MaxLevels)).
Definition tablesForPoint (v : Version) (key : bytes) : option (list TableMetadata) :=
  let files level := match Files level v with Ok ts => Some ts | Err _ => None end in
  zero ← files 0;
  let result := filter (fun table => (bytes_leb (SmallestUser table) key && bytes_leb key (LargestUser table)) = true) zero in
  foldl (fun result level =>
    result ← result;
    tables ← files (Z.of_nat level);
    let position := Z.of_nat (Search (fun index => match tables !! index with Some t => bytes_ltb key (SmallestUser t) | None => true end) (length tables)) - 1 in
    Some (if 0 <=? position then
            match tables !! Z.to_nat position with
            | Some t => if bytes_leb key (LargestUser t) then result ++ [t] else result
            | None => result
            end
          else result)) (Some result) (seq 1 (Z.to_nat MaxLevels - 1)).

(** [errors.Is(err, sstable.ErrNotFound)] *)
Definition is_missing (e : sstable.sst_error) : bool := match e with sstable.ErrNotFound => true | _ => false end.
(** A context: nil, or whether it is cancelled at the n-th check. *)
Abbreviation ctx := (option (nat -> bool)).
Definition merge_failure (e : merge.merge_error sstable.sst_error) : eerror :=
  match e with merge.Merge e => Comp e | merge.Input e => Table_ e end.
(** A loop whose step may panic or return an error. *)
Fixpoint foldO {A S} (step : S -> A -> option (eres S)) (s : S) (l : list A) : option (eres S) :=
  match l with
  | [] => Some (Ok s)
  | a :: l => r ← step s a; match r with Ok s => foldO step s l | Err e => Some (Err e) end
  end.

Section reads.
Context (acquire : TableMetadata -> eres (reader.Reader * errors)).

(** The result with the errors of the deferred calls joined. *)
Definition join {A} (r : eres A) (deferred : errors) : eres A :=
  match r, deferred with
  | r, [] => r
  | Ok _, deferred => Err deferred
  | Err e, deferred => Err (e ++ deferred)
  end.
Definition tableCandidate (table : TableMetadata) (key : bytes) (sequence : Z) : eres (option entry) :=
  match acquire table with
  | Err e => Err (Eng ErrCorruption :: e)
  | Ok (r, release) =>
      join (match reader.MayContain r key with
            | Err e => Err (Eng ErrCorruption :: (Table_ <$> e))
            | Ok false => Ok None
            | Ok true =>
                match reader.GetCandidate r key sequence with
                | Ok e => Ok (Some e)
                | Err e => if existsb is_missing e then Ok None else Err (Eng ErrCorruption :: (Table_ <$> e))
                end
            end) release
  end.

(** The closure [consider]. *)
Definition consider (target : Z) (best : option cand) (value : cand) : eres (option cand) :=
  if target <? sequence (c_entry value).1 then Ok best
  else
    match best with
    | None => Ok (Some value)
    | Some b =>
        if sequence (c_entry b).1 <? sequence (c_entry value).1 then Ok (Some value)
        else if sequence (c_entry value).1 <? sequence (c_entry b).1 then Ok best
        else if negb (Byte.eqb (kind (c_entry value).1) (kind (c_entry b).1)) then
          Ok (if byte.unsigned (kind (c_entry value).1) <? byte.unsigned (kind (c_entry b).1) then Some value else best)
        else if negb (bytes_eqb (c_entry value).2 (c_entry b).2) then Err [Eng ErrCorruption; Eng ErrDuplicateEntry]
        else if (c_fileNumber value =? 0) || negb (c_fileNumber value =? c_fileNumber b) then Err [Eng ErrCorruption; Eng ErrDuplicateEntry]
        else Ok best
    end.

(** ** Point reads *)

Definition memory_candidate (key : bytes) (target : Z) (best : option cand) (g : ReadGeneration) : option (eres (option cand)) :=
  e ← memtable.GetCandidate key target (rg_Table g);
  Some (match e with Some e => consider target best (mkCand e (rg_FileNumber g)) | None => Ok best end).
Definition table_candidate (key : bytes) (target : Z) (best : option cand) (table : TableMetadata) : option (eres (option cand)) :=
  Some (match tableCandidate table key target with
        | Err e => Err e
        | Ok None => Ok best
        | Ok (Some e) => consider target best (mkCand e (FileNumber table))
        end).
(** The best candidate of all sources at one target. *)
Definition point_pass (view : readView) (key : bytes) (target : Z) : option (eres (option cand)) :=
  let memory := rs_Active (rv_memtables view) :: rs_Immutables (rv_memtables view) in
  best ← foldO (memory_candidate key target) None memory;
  match best with
  | Err e => Some (Err e)
  | Ok best =>
      if LiveTableCount (rv_version view) =? 0 then Some (Ok best)
      else tables ← tablesForPoint (rv_version view) key; foldO (table_candidate key target) best tables
  end.
Fixpoint point_loop (fuel : nat) (view : readView) (key : bytes) (target : Z) : option (eres MVCCVersion) :=
  match fuel with
  | O => None
  | S fuel' =>
      best ← point_pass view key target;
      match best with
      | Err e => Some (Err e)
      | Ok None => Some (Err [Eng ErrNotFound])
      | Ok (Some best) =>
          if Byte.eqb (kind (c_entry best).1) KindTxnAbort then
            if sequence (c_entry best).1 =? 0 then Some (Err [Eng ErrNotFound])
            else point_loop fuel' view key (u64 (sequence (c_entry best).1 - 1))
          else Some (Ok (version_of (c_entry best)))
      end
  end.
(** As many entries as the sources of the view hold, and one step more. *)
Definition view_fuel (view : readView) : nat :=
  S (Z.to_nat (foldr (fun g n => memtable.t_count (rg_Table g) + n) 0 (rs_Active (rv_memtables view) :: rs_Immutables (rv_memtables view)) +
               foldr (fun t n => EntryCount t + n) 0 (live (rv_version view)))).
(** The target of a read of a view at a requested sequence. *)
Definition read_target (view : readView) (requested : option Z) : Z :=
  match requested with
  | Some r => if r <? rs_LatestSequence (rv_memtables view) then r else rs_LatestSequence (rv_memtables view)
  | None => rs_LatestSequence (rv_memtables view)
  end.
(** [capture] is the result of [captureReadView]. *)
Definition getMVCCAt (closed : bool) (c : ctx) (capture : eres readView) (key : bytes) (requested : option Z) : option (eres MVCCVersion) :=
  if closed then Some (Err [Eng ErrClosed])
  else
    match c with
    | None => Some (Err [Eng ErrInvalidOptions])
    | Some cancelled =>
        if sstable.MaxUserKeySize <? len key then Some (Err [Eng ErrInvalidOptions])
        else if cancelled O then Some (Err [])
        else
          match capture with
          | Err e => Some (Err e)
          | Ok view =>
              if negb (rs_HaveSequence (rv_memtables view)) then Some (Err [Eng ErrNotFound])
              else point_loop (view_fuel view) view key (read_target view requested)
          end
    end.
Definition getAt (closed : bool) (c : ctx) (capture : eres readView) (key : bytes) (requested : option Z) : option (eres bytes) :=
  r ← getMVCCAt closed c capture key requested;
  Some (e ← r;
        if Byte.eqb (vKind e) KindValue then Ok (vValue e)
        else if Byte.eqb (vKind e) KindDelete then Err [Eng ErrNotFound]
        else if Byte.eqb (vKind e) KindIntent then Err [Eng ErrUnresolvedIntent]
        else Err [Eng ErrCorruption; Kind_]).

(** ** Scans *)

Definition tableOverlapsScan (table : TableMetadata) (start endKey : option bytes) : bool :=
  match start with None => true | Some s => bytes_leb s (LargestUser table) end &&
  match endKey with None => true | Some e => bytes_ltb (SmallestUser table) e end.
Abbreviation source := (memtable.Iterator + table_iterator)%type.
Definition addMemory (start endKey : option bytes) (inputs : list (merge.MergeInput source)) (g : ReadGeneration)
    : option (eres (list (merge.MergeInput source))) :=
  it ← memtable.Range start endKey (rg_Table g);
  Some (match it with
        | Err e => Err [Mem_ e]
        | Ok it => Ok (inputs ++ [merge.mkInput (rg_FileNumber g) (Some (inl it))])
        end).
(** One table of the loop over the levels: the inputs and what the leases
    return when they are released. *)
Definition add_table (start endKey : option bytes) (s : list (merge.MergeInput source) * errors) (table : TableMetadata)
    : option (eres (list (merge.MergeInput source) * errors)) :=
  let '(inputs, releases) := s in
  Some (if negb (tableOverlapsScan table start endKey) then Ok s
        else
          match acquire table with
          | Err e => Err (e ++ releases)
          | Ok (r, release) =>
              match reader.Range r start endKey with
              | Err e => Err ((Table_ <$> e) ++ release ++ releases)
              | Ok it =>
                  Ok (inputs ++ [merge.mkInput (FileNumber table) (Some (inr {| ti_reader := r; ti_iterator := it |}))], releases ++ release)
              end
          end).
Definition scanInputs (view : readView) (start endKey : option bytes) : option (eres (list (merge.MergeInput source) * errors)) :=
  inputs ← foldO (addMemory start endKey) [] (rs_Active (rv_memtables view) :: rs_Immutables (rv_memtables view));
  match inputs with
  | Err e => Some (Err e)
  | Ok inputs =>
      tables ← match Files_all (rv_version view) with Ok ts => Some ts | Err _ => None end;
      foldO (add_table start endKey) (inputs, []) tables
  end.

(** The variables of the loop of [scanMVCCAt]. *)
Record scan := mkScan {
  s_values : list MVCCVersion; s_currentUser : bytes; s_haveUser : bool; s_selected : cand; s_haveSelected : bool; s_checks : nat
}.
Definition emit (s : scan) : scan :=
  mkScan (if s_haveSelected s && negb (Byte.eqb (kind (c_entry (s_selected s)).1) KindTxnAbort)
          then s_values s ++ [{| vKey := s_currentUser s; vValue := (c_entry (s_selected s)).2; vTimestamp := sequence (c_entry (s_selected s)).1;
                                 vKind := kind (c_entry (s_selected s)).1 |}]
          else s_values s)
    (s_currentUser s) (s_haveUser s) (s_selected s) false (s_checks s).
Definition select_cand (value : cand) (s : scan) : scan := mkScan (s_values s) (s_currentUser s) (s_haveUser s) value true (s_checks s).
(** The body of the loop from the entry on. *)
Definition scan_entry (target : Z) (e : entry) (file : Z) (s : scan) : scan + errors :=
  let user := userKey e.1 in
  let s :=
    if negb (s_haveUser s) || negb (bytes_eqb (s_currentUser s) user)
    then let s := if s_haveUser s then emit s else s in mkScan (s_values s) user true (s_selected s) (s_haveSelected s) (s_checks s)
    else s in
  if target <? sequence e.1 then inl s
  else
    let value := mkCand e file in
    if negb (s_haveSelected s) then inl (select_cand value s)
    else
      let selected := c_entry (s_selected s) in
      if sequence e.1 =? sequence selected.1 then
        if negb (Byte.eqb (kind e.1) (kind selected.1))
        then inl (if byte.unsigned (kind e.1) <? byte.unsigned (kind selected.1) then select_cand value s else s)
        else if negb (bytes_eqb e.2 selected.2) || (file =? 0) || negb (file =? c_fileNumber (s_selected s))
        then inr [Eng ErrCorruption; Eng ErrDuplicateEntry]
        else inl s
      else if Byte.eqb (kind selected.1) KindTxnAbort then inl (select_cand value s)
      else inl s.
Definition scan_body (cancelled : nat -> bool) (target : Z) (s : scan) (m : merge.MergeIterator source sstable.sst_error) : scan + errors :=
  if cancelled (s_checks s) then inr []
  else
    match merge.Entry m, merge.SourceFileNumber m with
    | Some e, Some file => scan_entry target e file (mkScan (s_values s) (s_currentUser s) (s_haveUser s) (s_selected s) (s_haveSelected s) (S (s_checks s)))
    | _, _ => inr [Eng ErrCorruption; Comp merge.ErrInputCorrupt]
    end.
Definition scan_start : scan := mkScan [] [] false (mkCand merge.zero_entry 0) false 1.
(** What a loop over a merge returns: [finish] of the state it ends in, or an
    error; the merge is closed and the leases are released. *)
Definition over_merge {St A} (fuel : nat) (body : St -> merge.MergeIterator source sstable.sst_error -> St + errors) (s : St) (finish : St -> A)
    (inputs : list (merge.MergeInput source)) (releases : errors) : option (eres A) :=
  m ← merge.NewMergeIterator inputs;
  match m with
  | Err e => Some (join (Err (merge_failure <$> e)) releases)
  | Ok m =>
      '(r, m) ← merge.for_each fuel body s m;
      '(_, closing) ← merge.Close m;
      Some (join (join (match r with
                        | inr e => Err e
                        | inl s => match merge.m_err m with Some e => Err (Eng ErrCorruption :: (merge_failure <$> e)) | None => Ok (finish s) end
                        end) (merge_failure <$> closing)) releases)
  end.
Definition scanMVCCAt (closed : bool) (c : ctx) (capture : eres readView) (start endKey : option bytes) (requested : option Z) : option (eres (list MVCCVersion)) :=
  if closed then Some (Err [Eng ErrClosed])
  else
    match c with
    | None => Some (Err [Eng ErrInvalidOptions])
    | Some cancelled =>
        if (sstable.MaxUserKeySize <? len (default [] start)) || (sstable.MaxUserKeySize <? len (default [] endKey)) then Some (Err [Eng ErrInvalidOptions])
        else if memtable.invalid_range start endKey then Some (Err [Eng ErrInvalidRange])
        else if match start, endKey with Some s, Some e => bytes_eqb s e | _, _ => false end then Some (Ok [])
        else if cancelled O then Some (Err [])
        else
          match capture with
          | Err e => Some (Err e)
          | Ok view =>
              if negb (rs_HaveSequence (rv_memtables view)) then Some (Ok [])
              else
                inputs ← scanInputs view start endKey;
                match inputs with
                | Err e => Some (Err e)
                | Ok (inputs, releases) =>
                    over_merge (view_fuel view) (scan_body cancelled (read_target view requested)) scan_start
                      (fun s => s_values (if s_haveUser s then emit s else s)) inputs releases
                end
          end
    end.
(** The loop of [scanAt]. *)
Definition scanAt (closed : bool) (c : ctx) (capture : eres readView) (start endKey : option bytes) (requested : option Z) : option (eres (list (bytes * bytes))) :=
  r ← scanMVCCAt closed c capture start endKey requested;
  Some (entries ← r;
        foldM (fun values e =>
          if Byte.eqb (vKind e) KindValue then Ok (values ++ [(vKey e, vValue e)])
          else if Byte.eqb (vKind e) KindDelete then Ok values
          else if Byte.eqb (vKind e) KindIntent then Err [Eng ErrUnresolvedIntent]
          else Err [Eng ErrCorruption; Kind_]) [] entries).

(** ** The export of all versions *)

Record export := mkExport { x_result : list MVCCVersion; x_previous : option entry; x_checks : nat }.
Definition export_body (cancelled : nat -> bool) (s : export) (m : merge.MergeIterator source sstable.sst_error) : export + errors :=
  if cancelled (x_checks s) then inr []
  else
    match merge.Entry m with
    | None => inr [Eng ErrCorruption; Comp merge.ErrInputCorrupt]
    | Some e =>
        match x_previous s with
        | Some previous =>
            match CompareInternal previous.1 e.1 with
            | Eq => if negb (bytes_eqb previous.2 e.2) then inr [Eng ErrCorruption; Eng ErrDuplicateEntry] else inl (mkExport (x_result s) (x_previous s) (S (x_checks s)))
            | _ => inl (mkExport (x_result s ++ [version_of e]) (Some e) (S (x_checks s)))
            end
        | None => inl (mkExport (x_result s ++ [version_of e]) (Some e) (S (x_checks s)))
        end
    end.
Definition ExportMVCCVersions (closed : bool) (mode : byte) (c : ctx) (capture : eres readView) (start endKey : option bytes) : option (eres (list MVCCVersion)) :=
  if closed then Some (Err [Eng ErrClosed])
  else if negb (Byte.eqb mode ModeReplicatedMVCC) then Some (Err [Eng ErrInvalidOptions])
  else
    match c with
    | None => Some (Err [Eng ErrInvalidOptions])
    | Some cancelled =>
        if (sstable.MaxUserKeySize <? len (default [] start)) || (sstable.MaxUserKeySize <? len (default [] endKey)) then Some (Err [Eng ErrInvalidOptions])
        else if memtable.invalid_range start endKey then Some (Err [Eng ErrInvalidRange])
        else if match start, endKey with Some s, Some e => bytes_eqb s e | _, _ => false end then Some (Ok [])
        else if cancelled O then Some (Err [])
        else
          match capture with
          | Err e => Some (Err e)
          | Ok view =>
              inputs ← scanInputs view start endKey;
              match inputs with
              | Err e => Some (Err e)
              | Ok (inputs, releases) => over_merge (view_fuel view) (export_body cancelled) (mkExport [] None 1) x_result inputs releases
              end
          end
    end.
End reads.
End read.
