(* ===== verification/EngineView.v ===== *)
(** * The store a read view denotes

    A view reads several sorted sources.  [merges srcs u] says that [u] has the
    keys of all of them and for each key a value one of them has; reads that
    return a result return the one of every such store. *)

From S2P Require Import Prelude InternalKey Batch Loops Files Wal MvccStore SSTable SSTableWriter SSTableReader MemTable MemTableProofs MemTableProps Heap Merge MergeInputs Manifest ManifestCodec ManifestVersion ManifestApply ManifestProps ManifestStore Compaction CompactionPlan Command StateMachine EngineRead.
Import manifest version store read.

Definition merges (srcs : list MvccStore.store) (u : MvccStore.store) : Prop :=
  store_sorted u /\ (forall e, e ∈ u -> exists l, l ∈ srcs /\ e ∈ l) /\ (forall l e, l ∈ srcs -> e ∈ l -> e.1 ∈ u.*1).

Lemma store_NoDup l : store_sorted l -> NoDup l.
Proof. induction 1 as [|a l Hs IH Hf]; constructor; [|done]. intros Hin. rewrite Forall_forall in Hf. by apply (key_lt_irrefl a.1), (Hf a). Qed.
Lemma merges_length srcs u : merges srcs u -> (length u <= length (concat srcs))%nat.
Proof.
  intros (Hs & Hfrom & _). apply submseteq_length, NoDup_submseteq; [by apply store_NoDup|].
  intros e He. destruct (Hfrom e He) as (l & Hl & Hel). apply elem_of_concat. by exists l.
Qed.
Lemma merges_ok srcs u : Forall (Forall (fun e => 0 <= sequence e.1)) srcs -> merges srcs u -> store_ok u.
Proof.
  intros Hseq (Hs & Hfrom & _). split; [done|]. apply Forall_forall. intros e He. destruct (Hfrom e He) as (l & Hl & Hel).
  rewrite Forall_forall in Hseq. specialize (Hseq l Hl). rewrite Forall_forall in Hseq. by apply Hseq.
Qed.

(** The newest value of every key: sources are listed newest first. *)
Definition overlay (srcs : list MvccStore.store) : MvccStore.store := foldr puts [] srcs.
Lemma puts_sorted es : forall u, store_sorted u -> store_sorted (puts es u).
Proof. induction es as [|e es IH]; intros u Hu; [done|]. cbn. by apply IH, put_sorted. Qed.
Lemma elem_of_puts es : forall u e, store_sorted u -> NoDup es.*1 -> e ∈ puts es u <-> e ∈ es \/ e ∈ u /\ e.1 ∉ es.*1.
Proof.
  induction es as [|x es IH]; intros u e Hu Hnd; [cbn; set_solver|]. cbn in Hnd. apply NoDup_cons in Hnd as [Hx Hnd]. change (puts (x :: es) u) with (puts es (put x.1 x.2 u)).
  rewrite IH by (done || by apply put_sorted). destruct e as [k v], x as [k' v']. cbn [fst snd fmap list_fmap] in *. rewrite elem_of_put, !not_elem_of_cons, elem_of_cons by done.
  split.
  - intros [?|[[[-> ->]|[? ?]] ?]]; tauto.
  - intros [[[= -> ->]|?]|(? & ? & ?)]; tauto.
Qed.
Lemma sorted_keys_NoDup l : store_sorted l -> NoDup l.*1.
Proof.
  induction 1 as [|a l Hs IH Hf]; cbn; constructor; [|done]. intros (b & Hk & Hb)%list_elem_of_fmap. rewrite Forall_forall in Hf. specialize (Hf b Hb).
  unfold entry_lt in Hf. rewrite Hk in Hf. by apply key_lt_irrefl in Hf.
Qed.
Lemma overlay_merges srcs : Forall store_sorted srcs -> merges srcs (overlay srcs).
Proof.
  induction 1 as [|l srcs Hl Hs (Hu & Hfrom & Hkeys)]; [split; [constructor|split; set_solver]|]. cbn [overlay foldr]. fold (overlay srcs). pose proof (sorted_keys_NoDup l Hl) as Hnd. split; [by apply puts_sorted|]. split.
  - intros e. rewrite elem_of_puts by done. intros [He|[He _]]; [exists l; split; [left|done]|]. destruct (Hfrom e He) as (l' & ? & ?). exists l'. split; [by right|done].
  - intros l' e Hl' He. assert (e.1 ∈ l.*1 \/ e.1 ∉ l.*1 /\ e.1 ∈ (overlay srcs).*1) as [Hk|[Hn Hk]].
    { destruct (decide (e.1 ∈ l.*1)) as [|Hn]; [by left|right]. split; [done|]. apply elem_of_cons in Hl' as [->|Hl']; [|by eapply Hkeys]. destruct Hn. by apply list_elem_of_fmap_2. }
    + apply list_elem_of_fmap in Hk as (x & -> & Hx). apply list_elem_of_fmap_2, elem_of_puts; [done|done|by left].
    + apply list_elem_of_fmap in Hk as (x & Hxk & Hx). rewrite Hxk in *. apply list_elem_of_fmap_2, elem_of_puts; [done|done|by right].
Qed.

(** ** Candidates *)

Lemma candidate_Some key target l e : store_sorted l ->
  candidate key target l = Some e <-> e ∈ l /\ relevant key target e.1 = true /\ forall x, x ∈ l -> relevant key target x.1 = true -> x = e \/ entry_lt e x.
Proof.
  induction 1 as [|a l Hs IH Hf]; cbn [candidate].
  - split; [done|]. intros [He _]. by apply not_elem_of_nil in He.
  - rewrite Forall_forall in Hf. destruct (relevant key target a.1) eqn:Ha.
    + split.
      * intros [= <-]. split; [left|]. split; [done|]. intros x [->|Hx]%elem_of_cons _; [by left|right; by apply Hf].
      * intros (He & _ & Hmin). apply elem_of_cons in He as [->|He]; [done|]. destruct (Hmin a) as [->|Hlt]; [left|done|done|].
        exfalso. apply (key_lt_irrefl a.1). eapply key_lt_trans; [apply (Hf e He)|done].
    + rewrite IH. split; intros (He & Hr & Hmin).
      * split; [by right|]. split; [done|]. intros x [->|Hx]%elem_of_cons Hrx; [by rewrite Ha in Hrx|by apply Hmin].
      * apply elem_of_cons in He as [->|He]; [by rewrite Ha in Hr|]. split; [done|]. split; [done|]. intros x Hx. apply Hmin. by right.
Qed.
Lemma candidate_none key target l : candidate key target l = None <-> forall e, e ∈ l -> relevant key target e.1 = false.
Proof.
  induction l as [|a l IH]; cbn [candidate]; [split; [by intros _ e ?%not_elem_of_nil|done]|].
  destruct (relevant key target a.1) eqn:Ha.
  - split; [done|]. intros H. rewrite (H a) in Ha; [done|left].
  - rewrite IH. split; intros H e; [intros [->|He]%elem_of_cons; [done|by apply H]|intros He; apply H; by right].
Qed.
(** Skipping an aborted version restarts the search below it. *)
Lemma visible_candidate key target l : store_ok l ->
  visible key target l =
    match candidate key target l with
    | Some e => if Byte.eqb (kind e.1) KindTxnAbort then (if sequence e.1 =? 0 then None else visible key (sequence e.1 - 1) l) else Some e
    | None => None
    end.
Proof.
  intros [Hs _]. induction Hs as [|a l Hs IH Hf]; [done|]. cbn [visible candidate]. destruct (relevant key target a.1) eqn:Ha.
  - destruct (Byte.eqb (kind a.1) KindTxnAbort); [|done]. destruct (sequence a.1 =? 0); [done|].
    assert (relevant key (sequence a.1 - 1) a.1 = false) as -> by (unfold relevant; apply andb_false_iff; right; apply Z.leb_gt; lia). done.
  - rewrite IH. destruct (candidate key target l) as [e|] eqn:Hc; [|done]. destruct (Byte.eqb (kind e.1) KindTxnAbort); [|done]. destruct (sequence e.1 =? 0); [done|].
    apply candidate_Some in Hc as (He & Hre & _); [|done]. apply relevant_spec in Hre as [_ Hre].
    assert (relevant key (sequence e.1 - 1) a.1 = false) as ->; [|done]. apply not_true_is_false. intros [Hu Hq]%relevant_spec.
    rewrite (proj2 (relevant_spec key target a.1)) in Ha; [done|]. split; [done|lia].
Qed.
Lemma relevant_count key target l e : candidate key target l = Some e -> store_sorted l ->
  (length (filter (fun x => relevant key (sequence e.1 - 1) x.1 = true) l) < length (filter (fun x => relevant key target x.1 = true) l))%nat.
Proof.
  intros Hc Hs. apply candidate_Some in Hc as (He & Hr & _); [|done]. clear Hs. apply relevant_spec in Hr as [Hu Ht].
  assert (forall l : MvccStore.store, length (filter (fun x => relevant key (sequence e.1 - 1) x.1 = true) l) <= length (filter (fun x => relevant key target x.1 = true) l))%nat as Hle.
  { intros k. induction k as [|a k IH]; [done|]. rewrite !filter_cons. destruct (decide (relevant key (sequence e.1 - 1) a.1 = true)) as [Hra|Hra].
    - rewrite decide_True; [cbn; lia|]. apply relevant_spec in Hra as [? ?]. apply relevant_spec. split; [done|lia].
    - destruct (decide _); cbn; lia. }
  apply list_elem_of_split in He as (l1 & l2 & ->). rewrite !filter_app, !length_app, !filter_cons. rewrite decide_False, decide_True.
  - cbn. pose proof (Hle l1). pose proof (Hle l2). lia.
  - by apply relevant_spec.
  - intros Hra%relevant_spec. lia.
Qed.

(** ** The best candidate of all sources *)

(** A source: its file number and its entries. *)
Abbreviation numbered := (Z * MvccStore.store)%type.
Definition candidates (key : bytes) (target : Z) (srcs : list numbered) : list cand :=
  omap (fun src => (fun e => mkCand e src.1) <$> candidate key target src.2) srcs.
(** Two sources have the same key and are not the same table with the same
    entry. *)
Definition conflict (a b : Z * entry) : Prop := a.2.1 = b.2.1 /\ (a.2.2 <> b.2.2 \/ a.1 = 0 \/ a.1 <> b.1).
Definition conflicting (srcs : list numbered) : Prop :=
  exists a b e e', [a; b] `sublist_of` srcs /\ e ∈ a.2 /\ e' ∈ b.2 /\ conflict (b.1, e') (a.1, e).
Lemma conflicting_sublist srcs srcs' : srcs `sublist_of` srcs' -> conflicting srcs -> conflicting srcs'.
Proof. intros Hs (a & b & e & e' & Hab & H). exists a, b, e, e'. split; [by etransitivity|done]. Qed.

(** [best] is the newest of the candidates seen. *)
Definition best_ok (seen : list cand) (best : option cand) : Prop :=
  match best with
  | None => seen = []
  | Some b => b ∈ seen /\ forall c, c ∈ seen -> c_entry c = c_entry b \/ entry_lt (c_entry b) (c_entry c)
  end.
Section consider.
Context (key : bytes) (target : Z).
Definition at_key (c : cand) : Prop := userKey (c_entry c).1 = key /\ sequence (c_entry c).1 <= target.
Lemma consider_spec seen best c : best_ok seen best -> Forall at_key seen -> at_key c ->
  match consider target best c with
  | Ok best' => best_ok (seen ++ [c]) best'
  | Err e => e = [Eng ErrCorruption; Eng ErrDuplicateEntry] /\ exists b, b ∈ seen /\ conflict (c_fileNumber c, c_entry c) (c_fileNumber b, c_entry b)
  end.
Proof.
  intros Hb Hs [Hu Ht]. unfold consider. rewrite (proj2 (Z.ltb_ge _ _) Ht). destruct best as [b|]; cbn in Hb.
  2: { subst seen. cbn. split; [left|]. intros x ->%list_elem_of_singleton. by left. }
  destruct Hb as [Hin Hmin]. pose proof (proj1 (Forall_forall _ _) Hs b Hin) as [Hbu _].
  assert (entry_lt (c_entry c) (c_entry b) -> best_ok (seen ++ [c]) (Some c)) as Hnew.
  { intros Hlt. split; [set_solver|]. intros x [Hx| ->%list_elem_of_singleton]%elem_of_app; [|by left]. right.
    destruct (Hmin x Hx) as [->|Hbx]; [done|]. by eapply key_lt_trans. }
  assert (entry_lt (c_entry b) (c_entry c) \/ c_entry c = c_entry b -> best_ok (seen ++ [c]) (Some b)) as Hold.
  { intros Hlt. split; [set_solver|]. intros x [Hx| ->%list_elem_of_singleton]%elem_of_app; [by apply Hmin|tauto]. }
  assert (bytes_compare (userKey (c_entry c).1) (userKey (c_entry b).1) = Eq) as He by (by rewrite bytes_compare_eq, Hu, Hbu).
  assert (bytes_compare (userKey (c_entry b).1) (userKey (c_entry c).1) = Eq) as He' by (by rewrite bytes_compare_eq, Hu, Hbu).
  unfold entry_lt, key_lt, CompareInternal in Hnew, Hold. rewrite He in Hnew. rewrite He' in Hold.
  destruct (Z.ltb_spec (sequence (c_entry b).1) (sequence (c_entry c).1)) as [Hlt|Hge]; [by apply Hnew|].
  destruct (Z.ltb_spec (sequence (c_entry c).1) (sequence (c_entry b).1)) as [Hlt|Hge']; [apply Hold; by left|].
  destruct (Byte.eqb (kind (c_entry c).1) (kind (c_entry b).1)) eqn:Hk; cbn [negb].
  - apply Byte.byte_dec_bl in Hk. assert ((c_entry c).1 = (c_entry b).1) as Hkey.
    { destruct (c_entry c) as [[] ?], (c_entry b) as [[] ?]; cbn in *. f_equal; [congruence|lia|done]. }
    destruct (bytes_eqb (c_entry c).2 (c_entry b).2) eqn:Hv; cbn [negb].
    + apply bytes_eqb_eq in Hv. destruct (_ || _) eqn:Hf.
      * split; [done|]. exists b. split; [done|]. split; [done|]. cbn. apply orb_true_iff in Hf as [Hf|Hf]; [apply Z.eqb_eq in Hf; auto|].
        apply negb_true_iff, Z.eqb_neq in Hf. auto.
      * apply Hold. right. destruct (c_entry c), (c_entry b); cbn in *; congruence.
    + apply bytes_eqb_neq in Hv. split; [done|]. exists b. split; [done|]. split; [done|]. cbn. auto.
  - assert (kind (c_entry c).1 <> kind (c_entry b).1) as Hne by (intros Heq; rewrite Heq in Hk; by rewrite (Byte.byte_dec_lb eq_refl) in Hk).
    assert (byte.unsigned (kind (c_entry c).1) <> byte.unsigned (kind (c_entry b).1)) as Hne' by (intros Heq; by apply Hne, byte.unsigned_inj).
    destruct (Z.ltb_spec (byte.unsigned (kind (c_entry c).1)) (byte.unsigned (kind (c_entry b).1))) as [Hlt|Hgt]; [by apply Hnew|].
    apply Hold. left. by rewrite (proj2 (Z.ltb_lt _ _)) by lia.
Qed.
End consider.

Section sources.
Context (key : bytes) (target : Z).
Lemma candidates_app srcs srcs' : candidates key target (srcs ++ srcs') = candidates key target srcs ++ candidates key target srcs'.
Proof. apply omap_app. Qed.
Lemma candidates_elem srcs c : Forall (fun s => store_sorted s.2) srcs -> c ∈ candidates key target srcs ->
  exists i s, srcs !! i = Some s /\ c_fileNumber c = s.1 /\ c_entry c ∈ s.2 /\ relevant key target (c_entry c).1 = true.
Proof.
  intros Hs (s & Hin & Hc)%list_elem_of_omap. destruct (candidate key target s.2) as [e|] eqn:He; [|done]. injection Hc as <-.
  apply list_elem_of_lookup in Hin as [i Hi]. exists i, s. rewrite Forall_forall in Hs. apply candidate_Some in He as (He & Hr & _); [done|]. apply Hs. by eapply list_elem_of_lookup_2.
Qed.
Lemma candidates_at srcs : Forall (fun s => store_sorted s.2) srcs -> Forall (at_key key target) (candidates key target srcs).
Proof. intros Hs. apply Forall_forall. intros c (i & s & _ & _ & _ & Hr)%candidates_elem; [|done]. by apply relevant_spec in Hr. Qed.
(** The best candidate of the sources is the candidate of their merge. *)
Lemma best_merges srcs u best : Forall (fun s => store_sorted s.2) srcs -> merges srcs.*2 u -> best_ok (candidates key target srcs) best ->
  candidate key target u = c_entry <$> best.
Proof.
  intros Hs (Hu & Hfrom & Hkeys) Hb. rewrite Forall_forall in Hs.
  assert (forall l e, l ∈ srcs.*2 -> e ∈ l -> relevant key target e.1 = true ->
    exists c, c ∈ candidates key target srcs /\ c_entry c ∈ l /\ (e = c_entry c \/ entry_lt (c_entry c) e)) as Hall.
  { intros l e (s & -> & Hin)%list_elem_of_fmap He Hr. destruct (candidate key target s.2) as [x|] eqn:Hx.
    - exists (mkCand x s.1). split; [apply list_elem_of_omap; exists s; by rewrite Hx|]. apply candidate_Some in Hx as (Hx & _ & Hmin); [|by apply Hs]. split; [done|]. by apply Hmin.
    - rewrite candidate_none in Hx. by rewrite (Hx e He) in Hr. }
  destruct best as [b|]; cbn in Hb |- *.
  - destruct Hb as [Hin Hmin]. pose proof (candidates_elem srcs b) as Hbs. rewrite Forall_forall in Hbs. destruct (Hbs Hs Hin) as (i & s & Hi & _ & Hbin & Hr).
    apply candidate_Some; [done|]. assert (c_entry b ∈ u) as Hbu.
    { assert ((c_entry b).1 ∈ u.*1) as Hk by (apply (Hkeys s.2); [apply list_elem_of_fmap_2; by eapply list_elem_of_lookup_2|done]).
      apply list_elem_of_fmap in Hk as (e & Hke & Heu). destruct (Hfrom e Heu) as (l & Hl & Hel).
      assert (relevant key target e.1 = true) as Hre by by rewrite <- Hke. destruct (Hall l e Hl Hel Hre) as (c & Hc & Hcl & Hce).
      assert (c_entry c = e) as Hcee.
      { destruct Hce as [->|Hlt]; [done|]. exfalso. destruct (Hmin c Hc) as [Heq|Hbc].
        - unfold entry_lt in Hlt. rewrite Heq, Hke in Hlt. by apply key_lt_irrefl in Hlt.
        - apply (key_lt_irrefl e.1). rewrite <- Hke at 1. by eapply key_lt_trans. }
      destruct (Hmin c Hc) as [Heq|Hbc]; [congruence|]. exfalso. unfold entry_lt in Hbc. rewrite Hcee, Hke in Hbc. by apply key_lt_irrefl in Hbc. }
    split; [done|]. split; [done|]. intros x Hx Hrx. destruct (Hfrom x Hx) as (l & Hl & Hxl). destruct (Hall l x Hl Hxl Hrx) as (c & Hc & _ & Hcx).
    assert (entry_lt (c_entry b) x \/ x.1 = (c_entry b).1) as [Hlt|Hk].
    { destruct (Hmin c Hc) as [Heq|Hbc], Hcx as [->|Hlt]; rewrite ?Heq in *; auto. left. by eapply key_lt_trans. }
    + by right.
    + left. destruct x as [xk xv], (c_entry b) as [bk bv]. cbn in Hk. subst xk. f_equal. by eapply store_key_unique.
  - apply candidate_none. intros e He. destruct (Hfrom e He) as (l & Hl & Hel). apply not_true_is_false. intros Hr.
    destruct (Hall l e Hl Hel Hr) as (c & Hc & _). rewrite Hb in Hc. by apply not_elem_of_nil in Hc.
Qed.

(** The pass over the sources, when every read succeeds. *)
Definition consider_source (best : option cand) (s : numbered) : option (eres (option cand)) :=
  Some (match candidate key target s.2 with Some e => consider target best (mkCand e s.1) | None => Ok best end).
Lemma consider_sources srcs : forall pre best, Forall (fun s => store_sorted s.2) (pre ++ srcs) -> best_ok (candidates key target pre) best ->
  match foldO consider_source best srcs with
  | Some (Ok best') => best_ok (candidates key target (pre ++ srcs)) best'
  | Some (Err e) => e = [Eng ErrCorruption; Eng ErrDuplicateEntry] /\ conflicting (pre ++ srcs)
  | None => False
  end.
Proof.
  induction srcs as [|s srcs IH]; intros pre best Hs Hb; cbn [foldO]; [by rewrite app_nil_r|]. change (consider_source best s) with (Some (match candidate key target s.2 with Some e => consider target best (mkCand e s.1) | None => Ok best end)).
  cbn [mbind option_bind].
  rewrite cons_middle, app_assoc in *. pose proof Hs as Hs1. apply Forall_app in Hs1 as [Hs1 _]. pose proof Hs1 as Hs2. apply Forall_app in Hs2 as [Hpre Hs2]. rewrite Forall_singleton in Hs2.
  assert (candidates key target (pre ++ [s]) = candidates key target pre ++ option_list ((fun e => mkCand e s.1) <$> candidate key target s.2)) as Hc.
  { rewrite candidates_app. unfold candidates. cbn. by destruct (candidate key target s.2). }
  destruct (candidate key target s.2) as [e|] eqn:He; cbn in Hc.
  - assert (at_key key target (mkCand e s.1)) as Hat.
    { apply candidate_Some in He as (_ & Hr & _); [|done]. by apply relevant_spec in Hr. }
    pose proof (consider_spec key target _ best (mkCand e s.1) Hb (candidates_at pre Hpre) Hat) as Hcs.
    destruct (consider target best (mkCand e s.1)) as [best'|err]; [apply IH; [done|by rewrite Hc]|]. destruct Hcs as (-> & b & Hbin & Hconf).
    split; [done|]. apply candidates_elem in Hbin as (i & sb & Hi & Hfile & Hein & _); [|done].
    exists sb, s, (c_entry b), e. split; [|split; [done|split; [|by rewrite <- Hfile]]].
    + rewrite <- app_assoc. apply (sublist_app [sb] pre [s]); [|by constructor; apply sublist_nil_l]. apply singleton_sublist_l. by eapply list_elem_of_lookup_2.
    + by apply candidate_Some in He as (? & _).
  - rewrite app_nil_r in Hc. apply IH; [done|by rewrite Hc].
Qed.
End sources.
