(* ===== verification/TableCache.v ===== *)
(** * The cache of open tables (storage/engine/table_cache.go)

    Entries and readers are shared objects: leases keep a pointer to an entry
    and to its reader, also when the map no longer holds the entry.  [objects]
    and [readers] are the heap of both, addressed by position; every operation
    runs under the mutex of the cache.  An error of the operating system that
    is none of the sentinels is the empty list. *)

From S2P Require Import Prelude InternalKey Batch Loops Files Wal MvccStore SSTable SSTableWriter SSTableReader MemTable Heap Merge MergeInputs Manifest ManifestVersion ManifestStore Command StateMachine EngineRead.
Import manifest version store read.

Module cache.

Record tableCacheEntry := mkEntry { te_fileNumber : Z; te_reader : nat; te_references : Z; te_obsolete : bool }.
(** The least recently used entry is the last of [lru]. *)
Record tableCache := mkCache {
  tc_capacity : Z; tc_entries : gmap Z nat; tc_lru : list nat; tc_closed : bool; tc_hits : Z; tc_misses : Z; tc_opens : Z; tc_evictions : Z; tc_active : Z;
  tc_objects : list tableCacheEntry; tc_readers : list (reader.Reader * bool)
}.
Record tableLease := mkLease { l_entry : option nat; l_Reader : nat; l_released : option errors }.
Definition newTableCache (capacity : Z) : tableCache := mkCache capacity ∅ [] false 0 0 0 0 0 [] [].

(** Changes of a single part. *)
Definition set_objects (f : list tableCacheEntry -> list tableCacheEntry) (c : tableCache) : tableCache :=
  mkCache (tc_capacity c) (tc_entries c) (tc_lru c) (tc_closed c) (tc_hits c) (tc_misses c) (tc_opens c) (tc_evictions c) (tc_active c) (f (tc_objects c)) (tc_readers c).
Definition set_readers (f : list (reader.Reader * bool) -> list (reader.Reader * bool)) (c : tableCache) : tableCache :=
  mkCache (tc_capacity c) (tc_entries c) (tc_lru c) (tc_closed c) (tc_hits c) (tc_misses c) (tc_opens c) (tc_evictions c) (tc_active c) (tc_objects c) (f (tc_readers c)).
Definition set_active (z : Z) (c : tableCache) : tableCache :=
  mkCache (tc_capacity c) (tc_entries c) (tc_lru c) (tc_closed c) (tc_hits c) (tc_misses c) (tc_opens c) (tc_evictions c) (u64 z) (tc_objects c) (tc_readers c).
Definition set_lru (f : list nat -> list nat) (c : tableCache) : tableCache :=
  mkCache (tc_capacity c) (tc_entries c) (f (tc_lru c)) (tc_closed c) (tc_hits c) (tc_misses c) (tc_opens c) (tc_evictions c) (tc_active c) (tc_objects c) (tc_readers c).
Definition set_entries (f : gmap Z nat -> gmap Z nat) (c : tableCache) : tableCache :=
  mkCache (tc_capacity c) (f (tc_entries c)) (tc_lru c) (tc_closed c) (tc_hits c) (tc_misses c) (tc_opens c) (tc_evictions c) (tc_active c) (tc_objects c) (tc_readers c).
Definition set_closed (c : tableCache) : tableCache :=
  mkCache (tc_capacity c) (tc_entries c) (tc_lru c) true (tc_hits c) (tc_misses c) (tc_opens c) (tc_evictions c) (tc_active c) (tc_objects c) (tc_readers c).
Definition count (hits misses opens evictions : Z) (c : tableCache) : tableCache :=
  mkCache (tc_capacity c) (tc_entries c) (tc_lru c) (tc_closed c) (u64 (tc_hits c + hits)) (u64 (tc_misses c + misses)) (u64 (tc_opens c + opens))
    (u64 (tc_evictions c + evictions)) (tc_active c) (tc_objects c) (tc_readers c).
Definition set_references (f : Z -> Z) (e : tableCacheEntry) : tableCacheEntry := mkEntry (te_fileNumber e) (te_reader e) (u64 (f (te_references e))) (te_obsolete e).
Definition set_obsolete (e : tableCacheEntry) : tableCacheEntry := mkEntry (te_fileNumber e) (te_reader e) (te_references e) true.
(** [list.List.Remove] and [list.List.MoveToFront] *)
Definition Remove (id : nat) : list nat -> list nat := filter (fun x => x <> id).
Definition MoveToFront (id : nat) (l : list nat) : list nat := if bool_decide (id ∈ l) then id :: Remove id l else l.

(** [sstable.Open] of a table, with whether closing its file fails. *)
Definition open (directory : bytes -> opened) (number : Z) : eres (reader.Reader * bool) :=
  match directory (reader.FileName number) with
  | Missing | Unopenable => Err []
  | Opened f closeErr =>
      match reader.openReader f (len (ra_bytes f)) (reader.FileName number) 0 with
      | Ok r => Ok (with_file (later f) r, closeErr)
      | Err e => Err (Table_ <$> e)
      end
  end.
(** [reader.Close()] of a shared reader. *)
Definition close_reader (id : nat) (c : tableCache) : tableCache * errors :=
  match tc_readers c !! id with
  | None => (c, [])
  | Some (r, closeErr) =>
      let '(r, result) := reader.Close closeErr r in
      (set_readers (fun l => <[id:=(r, closeErr)]> l) c, match result with Ok _ => [] | Err e => Table_ <$> e end)
  end.
(** [delete(c.entries, ...)], [c.lru.Remove(...)] and [c.evictions++] *)
Definition forget (fileNumber : Z) (id : nat) (c : tableCache) : tableCache :=
  count 0 0 0 1 (set_lru (Remove id) (set_entries (delete fileNumber) c)).
Definition removeLocked (id : nat) (e : tableCacheEntry) (c : tableCache) : tableCache * errors := close_reader (te_reader e) (forget (te_fileNumber e) id c).

(** The walk of [evictOneIdleLocked] from the back of the list; the elements
    of the list are entries of the cache. *)
Fixpoint idle (objects : list tableCacheEntry) (back : list nat) : option (nat * tableCacheEntry) :=
  match back with
  | [] => None
  | id :: back =>
      match objects !! id with
      | Some e => if te_references e =? 0 then Some (id, e) else idle objects back
      | None => idle objects back
      end
  end.
Definition evictOneIdleLocked (c : tableCache) : tableCache * (bool * errors) :=
  match idle (tc_objects c) (rev (tc_lru c)) with
  | None => (c, (false, []))
  | Some (id, e) => let '(c, err) := removeLocked id e c in (c, (true, err))
  end.
(** The loop that makes room; an eviction shortens the list. *)
Fixpoint make_room (fuel : nat) (c : tableCache) : tableCache * errors :=
  match fuel with
  | O => (c, [])
  | S fuel' =>
      if tc_capacity c <=? Z.of_nat (base.size (tc_entries c)) then
        let '(c, (evicted, err)) := evictOneIdleLocked c in
        match err with
        | [] => if evicted : bool then make_room fuel' c else (c, [])
        | _ => (c, err)
        end
      else (c, [])
  end.
Definition matches (table : TableMetadata) (r : reader.Reader) : bool :=
  match reader.rd_metadata r with Some actual => sstableMetadataEqual table actual | None => false end.
Definition mismatch : errors := [Eng ErrCorruption; Store_ (Manifest ErrMetadataMismatch)].
Definition acquire_miss (directory : bytes -> opened) (table : TableMetadata) (c : tableCache) : tableCache * eres tableLease :=
  let c := count 0 1 0 0 c in
  let '(c, evictErr) := make_room (S (length (tc_lru c))) c in
  match evictErr with
  | _ :: _ => (c, Err evictErr)
  | [] =>
      match open directory (FileNumber table) with
      | Err e => (c, Err e)
      | Ok r =>
          let rid := length (tc_readers c) in
          let c := count 0 0 1 0 (set_readers (fun l => l ++ [r]) c) in
          if negb (matches table r.1) then let '(c, e) := close_reader rid c in (c, Err (mismatch ++ e))
          else
            let c := set_active (tc_active c + 1) c in
            if tc_capacity c <=? Z.of_nat (base.size (tc_entries c)) then (c, Ok (mkLease None rid None))
            else
              let id := length (tc_objects c) in
              let c := set_objects (fun l => l ++ [mkEntry (FileNumber table) rid 1 false]) c in
              (set_entries (fun m => <[FileNumber table := id]> m) (set_lru (cons id) c), Ok (mkLease (Some id) rid None))
      end
  end.
Definition acquire (directory : bytes -> opened) (table : TableMetadata) (c : tableCache) : tableCache * eres tableLease :=
  if tc_closed c then (c, Err [Eng ErrClosed])
  else
    match (id ← tc_entries c !! FileNumber table; e ← tc_objects c !! id; Some (id, e)) with
    | Some (id, e) =>
        if negb (te_obsolete e) then
          if negb (match tc_readers c !! te_reader e with Some r => matches table r.1 | None => false end) then (c, Err mismatch)
          else
            (set_lru (MoveToFront id) (count 1 0 0 0 (set_active (tc_active c + 1) (set_objects (alter (set_references (fun z => z + 1)) id) c))),
             Ok (mkLease (Some id) (te_reader e) None))
        else acquire_miss directory table c
    | None => acquire_miss directory table c
    end.

Definition release (entry : option nat) (r : nat) (c : tableCache) : tableCache * errors :=
  let c := set_active (tc_active c - 1) c in
  match (id ← entry; e ← tc_objects c !! id; Some (id, e)) with
  | None => close_reader r c
  | Some (id, e) =>
      let e := set_references (fun z => z - 1) e in
      let c := set_objects (<[id:=e]>) c in
      if (te_references e =? 0) && (te_obsolete e || tc_closed c) then close_reader (te_reader e) (forget (te_fileNumber e) id c)
      else (c, [])
  end.
(** [Release] runs once and remembers its error. *)
Definition Release (lease : tableLease) (c : tableCache) : tableCache * tableLease * errors :=
  match l_released lease with
  | Some err => (c, lease, err)
  | None => let '(c, err) := release (l_entry lease) (l_Reader lease) c in (c, mkLease (l_entry lease) (l_Reader lease) (Some err), err)
  end.
Definition evict (fileNumber : Z) (c : tableCache) : tableCache * (bool * errors) :=
  match (id ← tc_entries c !! fileNumber; e ← tc_objects c !! id; Some (id, e)) with
  | None => (c, (true, []))
  | Some (id, e) =>
      let c := set_objects (<[id:=set_obsolete e]>) c in
      if negb (te_references e =? 0) then (c, (false, []))
      else let '(c, err) := close_reader (te_reader e) (forget fileNumber id c) in (c, (match err with [] => true | _ => false end, err))
  end.
(** The body of the loop of [close]; the order in which Go walks a map is not
    specified, and only orders the joined errors. *)
Definition close_entry (state : tableCache * errors) (id : nat) : tableCache * errors :=
  let '(c, result) := state in
  match tc_objects c !! id with
  | None => (c, result)
  | Some e =>
      let c := set_objects (<[id:=set_obsolete e]>) c in
      if te_references e =? 0 then let '(c, err) := close_reader (te_reader e) (forget (te_fileNumber e) id c) in (c, result ++ err) else (c, result)
  end.
Definition close (c : tableCache) : tableCache * errors :=
  if tc_closed c then (c, [])
  else let c := set_closed c in foldl close_entry (c, []) (map_to_list (tc_entries c)).*2.
End cache.
