(* ===== verification/TableCacheProofs.v ===== *)
(** * The cache hands out what opening a table gives (storage/engine/table_cache.go)

    The invariant is about the cache and all leases it handed out.  The engine
    evicts a table only under its exclusive lock, when no lease is
    outstanding; the theorem is about runs with this discipline. *)

From S2P Require Import Prelude InternalKey Batch Loops Files Wal MvccStore SSTable SSTableWriter SSTableReader MemTable Heap Merge MergeInputs Manifest ManifestVersion ManifestStore Command StateMachine EngineRead TableCache.
Import manifest version store read cache.
#[local] Arguments reader.FileName : simpl never.

Section inv.
Context (directory : bytes -> opened).
Abbreviation leases := (list (TableMetadata * tableLease)).

(** ** Leases *)

Definition outstanding (l : tableLease) : bool := match l_released l with None => true | Some _ => false end.
Definition holds_entry (id : nat) (p : TableMetadata * tableLease) : bool := outstanding p.2 && bool_decide (l_entry p.2 = Some id).
Definition refs (id : nat) (ls : leases) : Z := len (filter (fun p => holds_entry id p = true) ls).
Definition active (ls : leases) : Z := len (filter (fun p => outstanding p.2 = true) ls).
(** The reader of an outstanding lease without an entry. *)
Definition uncached (p : TableMetadata * tableLease) : option nat :=
  if outstanding p.2 then match l_entry p.2 with None => Some (l_Reader p.2) | Some _ => None end else None.
Definition cached_readers (c : tableCache) : list nat := omap (fun id => te_reader <$> tc_objects c !! id) (tc_lru c).
(** The readers that something will close. *)
Definition owned (c : tableCache) (ls : leases) : list nat := cached_readers c ++ omap uncached ls.
(** The reader at [rid] is open and is the one opening table [n] gives. *)
Definition open_as (c : tableCache) (rid : nat) (n : Z) : Prop := exists r, tc_readers c !! rid = Some r /\ open directory n = Ok r.
Definition lease_ok (c : tableCache) (t : TableMetadata) (l : tableLease) : Prop :=
  (exists r, tc_readers c !! l_Reader l = Some r /\ open directory (FileNumber t) = Ok r /\ matches t r.1 = true) /\
  forall id, l_entry l = Some id -> id ∈ tc_lru c /\ exists e, tc_objects c !! id = Some e /\ te_reader e = l_Reader l.
Record entry_ok (c : tableCache) (ls : leases) (id : nat) (e : tableCacheEntry) : Prop := {
  eo_map : tc_entries c !! te_fileNumber e = Some id;
  eo_refs : te_references e = refs id ls;
  eo_obsolete : tc_closed c = false -> te_obsolete e = false;
  eo_open : open_as c (te_reader e) (te_fileNumber e)
}.
Record cache_inv (c : tableCache) (ls : leases) : Prop := {
  ci_lru : NoDup (tc_lru c);
  ci_entry : forall id, id ∈ tc_lru c -> exists e, tc_objects c !! id = Some e /\ entry_ok c ls id e;
  ci_map : forall n id, tc_entries c !! n = Some id -> id ∈ tc_lru c /\ exists e, tc_objects c !! id = Some e /\ te_fileNumber e = n;
  ci_lease : forall t l, (t, l) ∈ ls -> outstanding l = true -> lease_ok c t l;
  ci_owned : NoDup (owned c ls);
  ci_open : forall rid r, tc_readers c !! rid = Some r -> reader.rd_closed r.1 = false -> rid ∈ owned c ls;
  ci_size : 0 <= tc_capacity c -> Z.of_nat (base.size (tc_entries c)) <= tc_capacity c;
  ci_active : tc_active c = active ls
}.

Lemma refs_range id ls : 0 <= refs id ls <= len ls.
Proof. unfold refs, len. pose proof (length_filter (fun p => holds_entry id p = true) ls). lia. Qed.
Lemma refs_zero id ls t l : refs id ls = 0 -> (t, l) ∈ ls -> outstanding l = true -> l_entry l <> Some id.
Proof.
  intros Hr Hin Ho He. unfold refs in Hr. assert ((t, l) ∈ filter (fun p => holds_entry id p = true) ls) as Hf.
  { apply list_elem_of_filter. split; [|done]. unfold holds_entry. cbn. rewrite Ho, He. by rewrite bool_decide_true. }
  destruct (filter _ ls); [by apply not_elem_of_nil in Hf|]. unfold len in Hr. cbn in Hr. lia.
Qed.
Lemma opened_open n r : open directory n = Ok r -> reader.rd_closed r.1 = false.
Proof.
  unfold open. destruct (directory _) as [| |f b]; [done..|]. destruct (reader.openReader _ _ _ _) as [r'|] eqn:Ho; [|done]. intros [= <-]. cbn.
  unfold reader.openReader in Ho. repeat (apply bind_ok in Ho as (? & _ & Ho) || case_match); simplify_eq; try done.
Qed.

(** ** Removing an idle entry *)

Lemma close_reader_spec (rid : nat) (c : tableCache) (r : reader.Reader * bool) : tc_readers c !! rid = Some r -> reader.rd_closed r.1 = false ->
  exists r' : reader.Reader * bool, close_reader rid c = (set_readers (fun l => <[rid:=r']> l) c, if r.2 then [Table_ sstable.ErrIO] else []) /\ reader.rd_closed r'.1 = true.
Proof.
  intros Hr Ho. unfold close_reader. rewrite Hr. destruct r as [r b]. unfold reader.Close. cbn in Ho. rewrite Ho. eexists (_, b). split; [by destruct b|done].
Qed.
Lemma lru_split c ls id e : cache_inv c ls -> id ∈ tc_lru c -> tc_objects c !! id = Some e -> forall e',
  tc_lru c ≡ₚ id :: Remove id (tc_lru c) /\
  owned c ls ≡ₚ te_reader e :: owned (forget (te_fileNumber e) id (set_objects (<[id:=e']>) c)) ls.
Proof.
  intros Hi Hin He e'. assert (tc_lru c ≡ₚ id :: Remove id (tc_lru c)) as Hp.
  { pose proof (ci_lru _ _ Hi) as Hnd. revert Hin Hnd. generalize (tc_lru c). intros l. induction l as [|x l IH]; intros Hin Hnd; [by apply not_elem_of_nil in Hin|].
    apply NoDup_cons in Hnd as [Hx Hnd]. unfold Remove. rewrite filter_cons. destruct (decide (x <> id)) as [Hne|Heq].
    - apply elem_of_cons in Hin as [?|Hin]; [congruence|]. rewrite (IH Hin Hnd) at 1. apply Permutation_swap.
    - apply dec_stable in Heq. subst x. rewrite filter_all; [done|]. apply Forall_forall. by intros y Hy ->. }
  split; [done|]. unfold owned, cached_readers. cbn [forget count set_lru set_entries set_objects tc_lru tc_objects].
  rewrite Hp at 1. cbn [omap list_omap]. rewrite He. cbn [fmap option_fmap option_map app]. 
  assert (omap (fun x => te_reader <$> tc_objects c !! x) (Remove id (tc_lru c)) = omap (fun x => te_reader <$> <[id:=e']> (tc_objects c) !! x) (Remove id (tc_lru c))) as ->; [|done].
  apply list_omap_ext, Forall_Forall2_diag, Forall_forall. intros x Hx. unfold Remove in Hx. apply list_elem_of_filter in Hx as [Hx _]. by rewrite list_lookup_insert_ne.
Qed.
(** The state without entry [id], whose reader is closed. *)
Definition dropped (id : nat) (e e' : tableCacheEntry) (c : tableCache) : tableCache * errors :=
  close_reader (te_reader e) (forget (te_fileNumber e) id (set_objects (<[id:=e']>) c)).
Lemma dropped_inv c ls id e e' : cache_inv c ls -> id ∈ tc_lru c -> tc_objects c !! id = Some e -> refs id ls = 0 ->
  cache_inv (dropped id e e' c).1 ls /\ tc_lru (dropped id e e' c).1 = Remove id (tc_lru c) /\ tc_closed (dropped id e e' c).1 = tc_closed c /\
  tc_capacity (dropped id e e' c).1 = tc_capacity c /\ (forall n, tc_entries c !! n = None -> tc_entries (dropped id e e' c).1 !! n = None) /\
  ((dropped id e e' c).2 = [] \/ exists n r, open directory n = Ok (r, true)).
Proof.
  intros Hi Hin He Hz. destruct (ci_entry _ _ Hi id Hin) as (e0 & He0 & Heo). assert (e0 = e) as -> by congruence.
  destruct (eo_open _ _ _ _ Heo) as (r & Hr & Hop). pose proof (opened_open _ _ Hop) as Hopen.
  destruct (lru_split c ls id e Hi Hin He e') as [Hp Hown]. set (c1 := forget (te_fileNumber e) id (set_objects (<[id:=e']>) c)) in *.
  destruct (close_reader_spec (te_reader e) c1 r Hr Hopen) as (r' & Hc & Hr'). unfold dropped. fold c1. rewrite Hc. cbn [fst snd].
  assert (NoDup (te_reader e :: owned c1 ls)) as Hnd by (rewrite <- Hown; apply Hi). apply NoDup_cons in Hnd as [Hnot Hnd].
  assert (forall rid, rid ∈ owned c1 ls -> tc_readers (set_readers (fun l => <[te_reader e:=r']> l) c1) !! rid = tc_readers c !! rid) as Hsame.
  { intros rid Hrid. cbn. rewrite list_lookup_insert_ne; [done|]. by intros <-. }
  assert (forall j, j <> id -> tc_objects c1 !! j = tc_objects c !! j) as Hobj by (intros j Hj; cbn; by rewrite list_lookup_insert_ne).
  assert (forall j, j ∈ Remove id (tc_lru c) -> j <> id /\ j ∈ tc_lru c) as Hrem by (intros j Hj; unfold Remove in Hj; by apply list_elem_of_filter in Hj).
  assert (forall j ej, j ∈ Remove id (tc_lru c) -> tc_objects c !! j = Some ej -> te_reader ej ∈ owned c1 ls) as Hcached.
  { intros j ej Hj Hej. apply elem_of_app. left. unfold cached_readers. apply list_elem_of_omap. exists j. split; [done|]. destruct (Hrem j Hj). by rewrite Hobj, Hej. }
  split; [|split; [done|split; [done|split; [done|split; [cbn; intros n Hn; by rewrite lookup_delete_None; right|]]]]].
  2: { destruct r as [r []]; [right; eauto|by left]. }
  split; cbn [tc_lru tc_objects tc_entries set_readers tc_closed tc_capacity tc_active].
  - pose proof (ci_lru _ _ Hi) as Hnl. rewrite Hp in Hnl. by apply NoDup_cons in Hnl as [_ ?].
  - intros j Hj. destruct (Hrem j Hj) as [Hne Hjl]. destruct (ci_entry _ _ Hi j Hjl) as (ej & Hej & [Hm Hrf Hob Hoa]). exists ej. split; [by rewrite Hobj|]. split; [|done|done|].
    + cbn. rewrite lookup_delete_ne; [done|]. intros Heq. rewrite <- Heq, (eo_map _ _ _ _ Heo) in Hm. congruence.
    + destruct Hoa as (rj & Hrj & Hoj). exists rj. split; [|done]. rewrite Hsame; [done|]. by eapply Hcached.
  - intros n j Hn. cbn in Hn. apply lookup_delete_Some in Hn as [Hne Hn]. destruct (ci_map _ _ Hi n j Hn) as (Hjl & ej & Hej & <-).
    assert (j <> id) as Hji by (intros ->; congruence). split; [unfold Remove; by apply list_elem_of_filter|]. exists ej. by rewrite Hobj.
  - intros t l Hl Ho. destruct (ci_lease _ _ Hi t l Hl Ho) as ((rl & Hrl & Hol & Hml) & Hent). pose proof (refs_zero id ls t l Hz Hl Ho) as Hnid. split.
    + exists rl. split; [|done]. rewrite Hsame; [done|]. destruct (l_entry l) as [j|] eqn:Hle.
      * destruct (Hent j eq_refl) as (Hjl & ej & Hej & <-). apply (Hcached j); [|done]. unfold Remove. apply list_elem_of_filter. split; [congruence|done].
      * apply elem_of_app. right. apply list_elem_of_omap. exists (t, l). split; [done|]. unfold uncached. cbn. by rewrite Ho, Hle.
    + intros j Hj. destruct (Hent j Hj) as (Hjl & ej & Hej & Hrj). assert (j <> id) as Hji by congruence. split; [unfold Remove; by apply list_elem_of_filter|]. exists ej. by rewrite Hobj.
  - exact Hnd.
  - intros rid rr Hrid Hop'. change (<[te_reader e:=r']> (tc_readers c) !! rid = Some rr) in Hrid. destruct (decide (rid = te_reader e)) as [->|Hne].
    + rewrite list_lookup_insert_eq in Hrid by (by eapply lookup_lt_Some). congruence.
    + rewrite list_lookup_insert_ne in Hrid by done. assert (rid ∈ owned c ls) as Hro by (by eapply (ci_open _ _ Hi)). rewrite Hown in Hro. apply elem_of_cons in Hro as [?|?]; [done|done].
  - intros Hcap. pose proof (ci_size _ _ Hi Hcap) as Hs. cbn. pose proof (map_size_delete (te_fileNumber e) (tc_entries c)) as Hd. rewrite (eo_map _ _ _ _ Heo) in Hd. rewrite Hd. lia.
  - apply Hi.
Qed.

(** ** Making room *)

Lemma set_objects_id c id e : tc_objects c !! id = Some e -> set_objects (<[id:=e]>) c = c.
Proof. intros He. destruct c. unfold set_objects. cbn in *. by rewrite list_insert_id. Qed.
Lemma idle_spec objects back id e : idle objects back = Some (id, e) -> id ∈ back /\ objects !! id = Some e /\ te_references e = 0.
Proof.
  induction back as [|j back IH]; cbn; [done|]. destruct (objects !! j) as [ej|] eqn:Hj; [|intros (? & ? & ?)%IH; split; [by right|done]].
  destruct (Z.eqb_spec (te_references ej) 0); [intros [= <- <-]; split; [left|done]|]. intros (? & ? & ?)%IH. split; [by right|done].
Qed.
Definition room_made (c c' : tableCache) (err : errors) : Prop :=
  tc_closed c' = tc_closed c /\ tc_capacity c' = tc_capacity c /\ (forall n, tc_entries c !! n = None -> tc_entries c' !! n = None) /\
  (err = [] \/ exists n r, open directory n = Ok (r, true)).
Lemma make_room_inv fuel : forall c ls, cache_inv c ls -> cache_inv (make_room fuel c).1 ls /\ room_made c (make_room fuel c).1 (make_room fuel c).2.
Proof.
  induction fuel as [|fuel IH]; intros c ls Hi; cbn [make_room]; [split; [done|]; split_and!; auto|].
  destruct (tc_capacity c <=? _); [|split; [done|]; split_and!; auto]. unfold evictOneIdleLocked.
  destruct (idle (tc_objects c) (rev (tc_lru c))) as [[id e]|] eqn:Hid; [|split; [done|]; split_and!; auto].
  apply idle_spec in Hid as (Hin & He & Hz). assert (id ∈ tc_lru c) as Hl by (by apply list_elem_of_In, in_rev, list_elem_of_In).
  assert (refs id ls = 0) as Hr0 by (destruct (ci_entry _ _ Hi id Hl) as (e0 & He0 & Heo); pose proof (eo_refs _ _ _ _ Heo); congruence).
  destruct (dropped_inv c ls id e e Hi Hl He Hr0) as (Hi' & _ & Hcl & Hcap & Hnone & Herr). unfold dropped in *. rewrite set_objects_id in * by done. unfold removeLocked.
  destruct (close_reader _ _) as [c1 err]. cbn [fst snd] in *. destruct err as [|x err].
  - destruct (IH c1 ls Hi') as [Hi2 (Hcl2 & Hcap2 & Hn2 & He2)]. split; [done|]. split_and!; [congruence|congruence|auto|done].
  - split; [done|]. split_and!; auto.
Qed.
(** The fuel of the loop is enough: it ends before it is used up. *)
Lemma make_room_fuel fuel : forall c, (length (tc_lru c) < fuel)%nat -> make_room (S fuel) c = make_room fuel c.
Proof.
  induction fuel as [|fuel IH]; intros c Hf; [lia|]. change (make_room (S (S fuel)) c) with
    (if tc_capacity c <=? Z.of_nat (base.size (tc_entries c)) then
       let '(c, (evicted, err)) := evictOneIdleLocked c in
       match err with [] => if evicted : bool then make_room (S fuel) c else (c, []) | _ => (c, err) end
     else (c, [])). cbn [make_room].
  destruct (tc_capacity c <=? _); [|done]. unfold evictOneIdleLocked. destruct (idle (tc_objects c) (rev (tc_lru c))) as [[id e]|] eqn:Hid; [|done].
  apply idle_spec in Hid as (Hin & _). assert (id ∈ tc_lru c) as Hl by (by apply list_elem_of_In, in_rev, list_elem_of_In).
  assert (tc_lru (removeLocked id e c).1 = Remove id (tc_lru c)) as Hlru.
  { unfold removeLocked, close_reader. case_match; [|done]. case_match. by destruct (reader.Close _ _). }
  destruct (removeLocked id e c) as [c1 err]. cbn [fst] in Hlru. destruct err; [|done]. apply IH. rewrite Hlru.
  assert (length (Remove id (tc_lru c)) < length (tc_lru c))%nat; [|lia]. unfold Remove. apply list_elem_of_split in Hl as (l1 & l2 & ->).
  rewrite filter_app, filter_cons_False, !length_app by tauto. cbn. pose proof (length_filter (fun x => x <> id) l1). pose proof (length_filter (fun x => x <> id) l2). lia.
Qed.

(** ** Changes that close no reader *)

Lemma inv_update c ls c' ls' : cache_inv c ls ->
  tc_entries c' = tc_entries c -> tc_readers c' = tc_readers c -> tc_closed c' = tc_closed c -> tc_capacity c' = tc_capacity c -> tc_lru c' ≡ₚ tc_lru c ->
  (forall j e, j ∈ tc_lru c -> tc_objects c !! j = Some e -> exists e', tc_objects c' !! j = Some e' /\ te_fileNumber e' = te_fileNumber e /\
     te_reader e' = te_reader e /\ (tc_closed c = false -> te_obsolete e' = te_obsolete e) /\ te_references e' = refs j ls') ->
  (forall t l, (t, l) ∈ ls' -> outstanding l = true -> lease_ok c t l) -> omap uncached ls' = omap uncached ls -> tc_active c' = active ls' -> cache_inv c' ls'.
Proof.
  intros Hi Hen Hre Hcl Hcap Hlru Hobj Hls Hun Hact. assert (cached_readers c' ≡ₚ cached_readers c) as Hcr.
  { unfold cached_readers. rewrite Hlru. apply eq_subrelation; [typeclasses eauto|]. apply list_omap_ext, Forall_Forall2_diag, Forall_forall. intros j Hj.
    destruct (ci_entry _ _ Hi j Hj) as (e & He & _). destruct (Hobj j e Hj He) as (e' & He' & _ & Hrd & _). rewrite He, He'. cbn. by rewrite Hrd. }
  assert (owned c' ls' ≡ₚ owned c ls) as Hown by (unfold owned; by rewrite Hcr, Hun).
  split.
  - rewrite Hlru. apply Hi.
  - intros j Hj. rewrite Hlru in Hj. destruct (ci_entry _ _ Hi j Hj) as (e & He & [Hm Hrf Hob Hoa]). destruct (Hobj j e Hj He) as (e' & He' & Hfn & Hrd & Hob' & Hrf').
    exists e'. split; [done|]. split; [by rewrite Hen, Hfn|done| |].
    + rewrite Hcl. intros Hc. rewrite Hob' by done. by apply Hob.
    + destruct Hoa as (r & Hr & Ho). exists r. by rewrite Hre, Hrd, Hfn.
  - intros n j Hn. rewrite Hen in Hn. destruct (ci_map _ _ Hi n j Hn) as (Hj & e & He & <-). split; [by rewrite Hlru|]. destruct (Hobj j e Hj He) as (e' & He' & Hfn & _). by exists e'.
  - intros t l Hl Ho. destruct (Hls t l Hl Ho) as ((r & Hr & Hop & Hma) & Hent). split; [exists r; by rewrite Hre|]. intros j Hj. destruct (Hent j Hj) as (Hjl & e & He & Hrd).
    split; [by rewrite Hlru|]. destruct (Hobj j e Hjl He) as (e' & He' & _ & Hrd' & _). exists e'. split; [done|congruence].
  - rewrite Hown. apply Hi.
  - intros rid r Hr Ho. rewrite Hown. rewrite Hre in Hr. by eapply (ci_open _ _ Hi).
  - rewrite Hcap, Hen. apply Hi.
  - done.
Qed.

(** ** [acquire] *)

Definition new_lease (t : TableMetadata) (entry : option nat) (rid : nat) : TableMetadata * tableLease := (t, mkLease entry rid None).
Lemma refs_snoc j ls t entry rid : refs j (ls ++ [new_lease t entry rid]) = refs j ls + if bool_decide (entry = Some j) then 1 else 0.
Proof.
  unfold refs, len. rewrite filter_app, length_app, filter_cons, filter_nil. change (holds_entry j (new_lease t entry rid)) with (bool_decide (entry = Some j)).
  destruct (bool_decide (entry = Some j)); [rewrite decide_True by done|rewrite decide_False by done]; cbn [length]; lia.
Qed.
Lemma active_snoc ls t entry rid : active (ls ++ [new_lease t entry rid]) = active ls + 1.
Proof. unfold active, len. rewrite filter_app, length_app, filter_cons_True, filter_nil by done. cbn. lia. Qed.
Lemma active_range ls : 0 <= active ls <= len ls.
Proof. unfold active, len. pose proof (length_filter (fun p : TableMetadata * tableLease => outstanding p.2 = true) ls). lia. Qed.
Lemma MoveToFront_perm id l : NoDup l -> MoveToFront id l ≡ₚ l.
Proof.
  intros Hnd. unfold MoveToFront. case_bool_decide as Hin; [|done]. revert Hin Hnd. induction l as [|x l IH]; intros Hin Hnd; [by apply not_elem_of_nil in Hin|].
  apply NoDup_cons in Hnd as [Hx Hnd]. unfold Remove. rewrite filter_cons. destruct (decide (x <> id)) as [Hne|Heq].
  - apply elem_of_cons in Hin as [?|Hin]; [congruence|]. rewrite <- (IH Hin Hnd) at 2. apply Permutation_swap.
  - apply dec_stable in Heq. subst x. rewrite filter_all; [done|]. apply Forall_forall. by intros y Hy ->.
Qed.
Lemma hit_inv c ls t id e : cache_inv c ls -> len ls < MaxUint64 -> tc_entries c !! FileNumber t = Some id -> tc_objects c !! id = Some e ->
  match tc_readers c !! te_reader e with Some r => matches t r.1 | None => false end = true ->
  cache_inv (set_lru (MoveToFront id) (count 1 0 0 0 (set_active (tc_active c + 1) (set_objects (alter (set_references (fun z => z + 1)) id) c))))
    (ls ++ [new_lease t (Some id) (te_reader e)]).
Proof.
  intros Hi Hlen Hn He Hma. destruct (ci_map _ _ Hi _ _ Hn) as (Hl & e0 & He0 & Hfn). assert (e0 = e) as -> by congruence.
  destruct (ci_entry _ _ Hi id Hl) as (e1 & He1 & Heo). assert (e1 = e) as -> by congruence. destruct (eo_open _ _ _ _ Heo) as (r & Hr & Hop). rewrite Hr in Hma. rewrite Hfn in Hop.
  apply (inv_update c ls); try done.
  - cbn. apply MoveToFront_perm, Hi.
  - intros j ej Hj Hej. destruct (ci_entry _ _ Hi j Hj) as (ej' & Hej' & Heoj). assert (ej' = ej) as -> by congruence. cbn [tc_objects set_lru count set_active set_objects].
    rewrite refs_snoc, <- (eo_refs _ _ _ _ Heoj). pose proof (eo_refs _ _ _ _ Heoj) as Hrf. pose proof (refs_range j ls). destruct (decide (j = id)) as [->|Hne].
    + rewrite list_lookup_alter_eq, Hej. cbn [fmap option_fmap option_map]. eexists. split; [done|]. cbn. rewrite bool_decide_true by done. rewrite u64_id by (unfold is_u64, MaxUint64, two64 in *; lia). done.
    + rewrite list_lookup_alter_ne, Hej by done. exists ej. rewrite bool_decide_false by congruence. split_and!; [done..|lia].
  - intros t' l' [Hl'|Hl']%elem_of_app Ho; [by apply (ci_lease _ _ Hi)|]. apply list_elem_of_singleton in Hl'. injection Hl' as -> ->.
    split; [by exists r|]. intros j [= <-]. split; [done|]. by exists e.
  - rewrite omap_app. cbn. by rewrite app_nil_r.
  - cbn. rewrite active_snoc, (ci_active _ _ Hi). apply u64_id. pose proof (active_range ls). unfold is_u64, MaxUint64, two64 in *. lia.
Qed.
(** The state after a reader was opened. *)
Lemma lookup_fresh {A} (l : list A) (a : A) i x : (l ++ [a]) !! i = Some x -> l !! i = Some x \/ i = length l /\ x = a.
Proof. intros H. apply lookup_app_Some in H as [?|[? H]]; [by left|right]. apply list_lookup_singleton_Some in H as [? <-]. split; [lia|done]. Qed.
Lemma owned_bound c ls rid : cache_inv c ls -> rid ∈ owned c ls -> (rid < length (tc_readers c))%nat.
Proof.
  intros Hi [Hr|Hr]%elem_of_app.
  - unfold cached_readers in Hr. apply list_elem_of_omap in Hr as (id & Hid & Hr). destruct (ci_entry _ _ Hi id Hid) as (e & He & Heo). rewrite He in Hr. injection Hr as <-.
    destruct (eo_open _ _ _ _ Heo) as (r & Hr & _). by eapply lookup_lt_Some.
  - apply list_elem_of_omap in Hr as ([t l] & Hl & Hr). unfold uncached in Hr. cbn in Hr. destruct (outstanding l) eqn:Ho; [|done]. destruct (l_entry l); [done|]. injection Hr as <-.
    destruct (ci_lease _ _ Hi t l Hl Ho) as ((r & Hr & _) & _). by eapply lookup_lt_Some.
Qed.
Lemma lease_ok_mono c c' t l : lease_ok c t l -> (forall rid r, tc_readers c !! rid = Some r -> tc_readers c' !! rid = Some r) ->
  (forall id e, tc_objects c !! id = Some e -> tc_objects c' !! id = Some e) -> tc_lru c ⊆ tc_lru c' -> lease_ok c' t l.
Proof.
  intros ((r & Hr & Hop & Hma) & Hent) Hrd Hob Hlru. split; [exists r; auto|]. intros id Hid. destruct (Hent id Hid) as (Hl & e & He & Hre). split; [by apply Hlru|]. exists e. auto.
Qed.
Lemma holds_bound c ls j : cache_inv c ls -> refs j ls <> 0 -> (j < length (tc_objects c))%nat.
Proof.
  intros Hi Hr. unfold refs in Hr. destruct (filter (fun p => holds_entry j p = true) ls) as [|[t l] q] eqn:Hf; [done|].
  assert ((t, l) ∈ filter (fun p => holds_entry j p = true) ls) as Hin by (rewrite Hf; left). apply list_elem_of_filter in Hin as [Hh Hin].
  unfold holds_entry in Hh. apply andb_true_iff in Hh as [Ho He%bool_decide_eq_true]. destruct (ci_lease _ _ Hi t l Hin Ho) as [_ Hent].
  destruct (Hent j He) as (_ & e & He' & _). by eapply lookup_lt_Some.
Qed.
Section miss.
Context (c : tableCache) (ls : leases) (t : TableMetadata) (r : reader.Reader * bool) (Hi : cache_inv c ls) (Hlen : len ls < MaxUint64).
Context (Hop : open directory (FileNumber t) = Ok r) (Hma : matches t r.1 = true).
Let rid : nat := length (tc_readers c).
Lemma fresh_reader : (tc_readers c ++ [r]) !! rid = Some r.
Proof. unfold rid. rewrite lookup_app_r, Nat.sub_diag by lia. done. Qed.
Lemma kept_reader i x : tc_readers c !! i = Some x -> (tc_readers c ++ [r]) !! i = Some x.
Proof. intros H. rewrite lookup_app_l; [done|]. by eapply lookup_lt_Some. Qed.
Lemma fresh_not_owned : rid ∉ owned c ls.
Proof using Hi. intros Hin%(owned_bound c ls rid Hi). unfold rid in Hin. lia. Qed.
Lemma miss_uncached :
  cache_inv (set_active (tc_active c + 1) (count 0 0 1 0 (set_readers (fun l => l ++ [r]) c))) (ls ++ [new_lease t None rid]).
Proof using Hi Hlen Hop Hma.
  pose proof fresh_not_owned as Hfresh. pose proof (active_range ls). split.
  - apply Hi.
  - intros id Hid. destruct (ci_entry _ _ Hi id Hid) as (e & He & [Hm Hrf Hob (r' & Hr' & Ho')]). exists e. split; [done|]. split; [done| |done|].
    + rewrite refs_snoc, Hrf. rewrite bool_decide_false by done. lia.
    + exists r'. split; [by apply kept_reader|done].
  - apply Hi.
  - intros t' l' [Hl'|Hl']%elem_of_app Ho.
    + eapply lease_ok_mono; [by apply (ci_lease _ _ Hi)|intros; by apply kept_reader|done|done].
    + apply list_elem_of_singleton in Hl'. injection Hl' as -> ->. split; [exists r; split; [apply fresh_reader|done]|done].
  - unfold owned. rewrite omap_app. cbn. rewrite app_assoc. apply NoDup_app. split; [apply Hi|]. split; [|apply NoDup_singleton].
    intros x Hx ->%list_elem_of_singleton. done.
  - intros i x Hx Hc. unfold owned. rewrite omap_app, app_assoc. apply elem_of_app. apply lookup_fresh in Hx as [Hx|[-> ->]]; [left; by apply (ci_open _ _ Hi i x)|right]. cbn. by apply list_elem_of_singleton.
  - apply Hi.
  - cbn. rewrite active_snoc, (ci_active _ _ Hi). apply u64_id. unfold is_u64, MaxUint64, two64 in *. lia.
Qed.
Let id : nat := length (tc_objects c).
Let fresh_entry : tableCacheEntry := mkEntry (FileNumber t) rid 1 false.
Lemma fresh_object : (tc_objects c ++ [fresh_entry]) !! id = Some fresh_entry.
Proof. unfold id. rewrite lookup_app_r, Nat.sub_diag by lia. done. Qed.
Lemma kept_object i x : tc_objects c !! i = Some x -> (tc_objects c ++ [fresh_entry]) !! i = Some x.
Proof. intros H. rewrite lookup_app_l; [done|]. by eapply lookup_lt_Some. Qed.
Lemma fresh_not_listed : id ∉ tc_lru c.
Proof using Hi. intros Hin. destruct (ci_entry _ _ Hi id Hin) as (e & He & _). apply lookup_lt_Some in He. unfold id in He. lia. Qed.
Definition with_fresh : tableCache :=
  set_entries (fun m => <[FileNumber t := id]> m) (set_lru (cons id) (set_objects (fun l => l ++ [fresh_entry])
    (set_active (tc_active c + 1) (count 0 0 1 0 (set_readers (fun l => l ++ [r]) c))))).
Lemma owned_fresh : owned with_fresh (ls ++ [new_lease t (Some id) rid]) = rid :: owned c ls.
Proof using Hi.
  unfold owned, cached_readers. rewrite omap_app. change (omap uncached [new_lease t (Some id) rid]) with (@nil nat). rewrite app_nil_r.
  change (tc_lru with_fresh) with (id :: tc_lru c). cbn [omap list_omap]. change (tc_objects with_fresh) with (tc_objects c ++ [fresh_entry]). rewrite fresh_object.
  cbn [fmap option_fmap option_map te_reader fresh_entry app]. f_equal. f_equal. apply list_omap_ext, Forall_Forall2_diag, Forall_forall.
  intros j Hj. destruct (ci_entry _ _ Hi j Hj) as (e & He & _). by rewrite (kept_object j e He), He.
Qed.
Lemma miss_cached : tc_entries c !! FileNumber t = None -> Z.of_nat (base.size (tc_entries c)) < tc_capacity c ->
  cache_inv with_fresh (ls ++ [new_lease t (Some id) rid]).
Proof using Hi Hlen Hop Hma.
  intros Hnone Hroom. pose proof fresh_not_owned as Hfresh. pose proof fresh_not_listed as Hnl. pose proof (active_range ls).
  assert (refs id ls = 0) as Hr0. { destruct (decide (refs id ls = 0)) as [|Hne]; [done|]. apply (holds_bound c ls id Hi) in Hne. unfold id in Hne. lia. }
  assert (forall j, j ∈ tc_lru c -> j <> id) as Hne by (intros j Hj ->; done). split.
  - cbn. apply NoDup_cons. split; [done|apply Hi].
  - intros j [->|Hj]%elem_of_cons.
    + exists fresh_entry. split; [apply fresh_object|]. split; [apply lookup_insert_eq| |done|exists r; split; [apply fresh_reader|done]]. rewrite refs_snoc, Hr0. by rewrite bool_decide_true.
    + destruct (ci_entry _ _ Hi j Hj) as (e & He & [Hm Hrf Hob (r' & Hr' & Ho')]). exists e. split; [by apply kept_object|]. split.
      * cbn. rewrite lookup_insert_ne; [done|]. intros Heq. rewrite <- Heq in Hm. congruence.
      * rewrite refs_snoc, Hrf. rewrite bool_decide_false by (intros [= <-]; by destruct (Hne id)). lia.
      * done.
      * exists r'. split; [by apply kept_reader|done].
  - intros n j Hn. cbn in Hn. apply lookup_insert_Some in Hn as [[<- <-]|[Hnn Hn]].
    + split; [left|]. exists fresh_entry. split; [apply fresh_object|done].
    + destruct (ci_map _ _ Hi n j Hn) as (Hj & e & He & Hf). split; [by right|]. exists e. split; [by apply kept_object|done].
  - intros t' l' [Hl'|Hl']%elem_of_app Ho.
    + eapply lease_ok_mono; [by apply (ci_lease _ _ Hi)|intros; by apply kept_reader|intros; by apply kept_object|cbn; set_solver].
    + apply list_elem_of_singleton in Hl'. injection Hl' as -> ->. split; [exists r; split; [apply fresh_reader|done]|]. intros j [= <-]. split; [left|].
      exists fresh_entry. split; [apply fresh_object|done].
  - rewrite owned_fresh. apply NoDup_cons. split; [exact Hfresh|apply Hi].
  - intros i x Hx Hc. rewrite owned_fresh. apply elem_of_cons. apply lookup_fresh in Hx as [Hx|[-> ->]]; [right; by apply (ci_open _ _ Hi i x)|by left].
  - intros _. cbn. rewrite map_size_insert_None by done. lia.
  - cbn. rewrite active_snoc, (ci_active _ _ Hi). apply u64_id. unfold is_u64, MaxUint64, two64 in *. lia.
Qed.
End miss.
Lemma inv_count c ls a b d f : cache_inv c ls -> cache_inv (count a b d f c) ls.
Proof.
  intros Hi. apply (inv_update c ls); try done; [|by intros; apply (ci_lease _ _ Hi)|apply Hi]. intros j e Hj He. exists e. split_and!; try done.
  destruct (ci_entry _ _ Hi j Hj) as (e' & He' & Heo). assert (e' = e) as -> by congruence. apply (eo_refs _ _ _ _ Heo).
Qed.
(** A reader that was opened and closed again. *)
Lemma inv_closed_reader c ls r : cache_inv c ls -> reader.rd_closed r.1 = true -> cache_inv (set_readers (fun l => l ++ [r]) c) ls.
Proof.
  intros Hi Hc. split; try apply Hi.
  - intros id Hid. destruct (ci_entry _ _ Hi id Hid) as (e & He & [Hm Hrf Hob (r' & Hr' & Ho')]). exists e. split; [done|]. split; try done. exists r'. split; [by apply kept_reader|done].
  - intros t l Hl Ho. eapply lease_ok_mono; [by apply (ci_lease _ _ Hi)|intros; by apply kept_reader|done|done].
  - intros i x Hx Hxc. apply lookup_fresh in Hx as [Hx|[-> ->]]; [by apply (ci_open _ _ Hi i x)|congruence].
Qed.
Lemma open_close r c : tc_readers c !! length (tc_readers c) = None -> reader.rd_closed r.1 = false ->
  exists r' err, close_reader (length (tc_readers c)) (count 0 0 1 0 (set_readers (fun l => l ++ [r]) c)) = (count 0 0 1 0 (set_readers (fun l => l ++ [r']) c), err) /\
    reader.rd_closed r'.1 = true.
Proof.
  intros _ Ho. destruct (close_reader_spec (length (tc_readers c)) (count 0 0 1 0 (set_readers (fun l => l ++ [r]) c)) r) as (r' & -> & Hr'); [apply fresh_reader|done|].
  eexists r', _. split; [|done]. f_equal. unfold count, set_readers. cbn. f_equal. rewrite insert_app_r_alt, Nat.sub_diag by lia. done.
Qed.
(** Why a lease is not granted. *)
Definition not_granted (c : tableCache) (t : TableMetadata) (e : errors) : Prop :=
  tc_closed c = true /\ e = [Eng ErrClosed] \/ open directory (FileNumber t) = Err e \/
  (exists r, open directory (FileNumber t) = Ok r /\ matches t r.1 = false) \/ exists n r, open directory n = Ok (r, true).
Definition granted (c' : tableCache) (ls : leases) (t : TableMetadata) (l : tableLease) : Prop := cache_inv c' (ls ++ [(t, l)]) /\ outstanding l = true.
Lemma acquire_miss_spec c ls t : cache_inv c ls -> len ls < MaxUint64 -> tc_entries c !! FileNumber t = None ->
  tc_closed (acquire_miss directory t c).1 = tc_closed c /\
  match (acquire_miss directory t c).2 with
  | Ok l => granted (acquire_miss directory t c).1 ls t l
  | Err e => cache_inv (acquire_miss directory t c).1 ls /\ not_granted c t e
  end.
Proof.
  intros Hi Hlen Hnone. unfold acquire_miss. apply (inv_count c ls 0 1 0 0) in Hi. set (c0 := count 0 1 0 0 c) in *. change (tc_entries c) with (tc_entries c0) in Hnone. change (tc_closed c) with (tc_closed c0).
  assert (forall e, not_granted c0 t e -> not_granted c t e) as Hng by done. clearbody c0.
  destruct (make_room_inv (S (length (tc_lru c0))) c0 ls Hi) as [Hi1 (Hcl & Hcap & Hn1 & He1)]. destruct (make_room (S (length (tc_lru c0))) c0) as [c1 err]. cbn [fst snd] in *.
  destruct err as [|x err]; cbn [fst snd]; [|split; [done|]; split; [done|]; destruct He1 as [?|?]; [done|]; apply Hng; right; right; by right].
  destruct (open directory (FileNumber t)) as [r|e] eqn:Hop; cbn [fst snd]; [|split; [done|]; split; [done|]; apply Hng; right; by left].
  pose proof (opened_open _ _ Hop) as Ho. destruct (matches t r.1) eqn:Hma; cbn [negb].
  - change (tc_capacity (set_active (tc_active (count 0 0 1 0 (set_readers (fun l => l ++ [r]) c1)) + 1) (count 0 0 1 0 (set_readers (fun l => l ++ [r]) c1)))) with (tc_capacity c1).
    change (tc_entries (set_active (tc_active (count 0 0 1 0 (set_readers (fun l => l ++ [r]) c1)) + 1) (count 0 0 1 0 (set_readers (fun l => l ++ [r]) c1)))) with (tc_entries c1).
    destruct (Z.leb_spec (tc_capacity c1) (Z.of_nat (base.size (tc_entries c1)))) as [Hfull|Hroom]; cbn [fst snd].
    + split; [done|]. split; [|done]. exact (miss_uncached c1 ls t r Hi1 Hlen Hop Hma).
    + split; [done|]. split; [|done]. exact (miss_cached c1 ls t r Hi1 Hlen Hop Hma (Hn1 _ Hnone) Hroom).
  - destruct (open_close r c1) as (r' & e & -> & Hr'); [by apply lookup_ge_None|done|]. cbn [fst snd]. split; [done|]. split; [by apply inv_count, inv_closed_reader|].
    apply Hng. right. right. left. eauto.
Qed.
Lemma acquire_spec c ls t : cache_inv c ls -> len ls < MaxUint64 ->
  tc_closed (acquire directory t c).1 = tc_closed c /\
  match (acquire directory t c).2 with
  | Ok l => granted (acquire directory t c).1 ls t l /\ tc_closed c = false
  | Err e => cache_inv (acquire directory t c).1 ls /\ not_granted c t e
  end.
Proof.
  intros Hi Hlen. unfold acquire. destruct (tc_closed c) eqn:Hcl; cbn [fst snd]; [split; [done|]; split; [done|]; by left|].
  destruct (tc_entries c !! FileNumber t) as [id|] eqn:Hn; cbn [mbind option_bind].
  - destruct (ci_map _ _ Hi _ _ Hn) as (Hl & e & He & Hf). rewrite He. cbn [mbind option_bind]. destruct (ci_entry _ _ Hi id Hl) as (e' & He' & Heo). assert (e' = e) as -> by congruence.
    rewrite (eo_obsolete _ _ _ _ Heo Hcl). cbn [negb]. destruct (eo_open _ _ _ _ Heo) as (r & Hr & Hop). rewrite Hf in Hop. rewrite Hr. destruct (matches t r.1) eqn:Hma; cbn [negb fst snd].
    + split; [done|]. split; [|done]. split; [|done]. apply (hit_inv c ls t id e); try done. by rewrite Hr.
    + split; [done|]. split; [done|]. right. right. left. eauto.
  - destruct (acquire_miss_spec c ls t Hi Hlen Hn) as [Hc Hm]. rewrite Hc. split; [done|]. by destruct (acquire_miss directory t c) as [c' [l|e]].
Qed.

(** ** [Release] *)

Section release.
Context (c : tableCache) (l1 l2 : leases) (t : TableMetadata) (l : tableLease) (err : errors).
Definition done_lease : tableLease := mkLease (l_entry l) (l_Reader l) (Some err).
Abbreviation ls := (l1 ++ (t, l) :: l2).
Abbreviation l' := done_lease.
Abbreviation ls' := (l1 ++ (t, l') :: l2).
Context (Hi : cache_inv c ls) (Hout : outstanding l = true) (Hlen : len ls <= MaxUint64).
Lemma refs_released j : refs j ls' = refs j ls - if bool_decide (l_entry l = Some j) then 1 else 0.
Proof using Hout.
  unfold refs, len. rewrite !filter_app, !filter_cons, !length_app. change (holds_entry j (t, l')) with false. change (holds_entry j (t, l)) with (outstanding l && bool_decide (l_entry l = Some j)).
  rewrite Hout. cbn [andb]. rewrite decide_False by done. destruct (bool_decide (l_entry l = Some j)); [rewrite decide_True by done|rewrite decide_False by done]; cbn [length]; lia.
Qed.
Lemma active_released : active ls' = active ls - 1.
Proof using Hout. unfold active, len. rewrite !filter_app, !length_app, filter_cons_False, filter_cons_True by done. cbn [length]. lia. Qed.
Lemma still_out t' x : (t', x) ∈ ls' -> outstanding x = true -> (t', x) ∈ ls.
Proof using. rewrite !elem_of_app, !elem_of_cons. intros [?|[[= -> ->]|?]]; [auto|done|auto]. Qed.
Lemma active_now : tc_active (set_active (tc_active c - 1) c) = active ls'.
Proof using Hi Hout Hlen.
  cbn. rewrite active_released, (ci_active _ _ Hi). apply u64_id. pose proof (active_range ls). assert (0 < active ls); [|unfold is_u64, MaxUint64, two64 in *; lia].
  unfold active, len. rewrite filter_app, filter_cons_True by done. rewrite length_app. cbn [length]. lia.
Qed.
Lemma release_uncached : l_entry l = None -> cache_inv (close_reader (l_Reader l) (set_active (tc_active c - 1) c)).1 ls'.
Proof using Hi Hout Hlen.
  intros He. assert (owned c ls ≡ₚ l_Reader l :: owned c ls') as Hown.
  { unfold owned. rewrite !omap_app. cbn [omap list_omap]. change (uncached (t, l')) with (@None nat).
    assert (uncached (t, l) = Some (l_Reader l)) as -> by (unfold uncached; cbn [snd]; by rewrite Hout, He). rewrite <- !Permutation_middle. done. }
  destruct (ci_lease _ _ Hi t l) as ((r & Hr & Hop & _) & _); [set_solver|done|]. pose proof (opened_open _ _ Hop) as Hopen.
  destruct (close_reader_spec (l_Reader l) (set_active (tc_active c - 1) c) r Hr Hopen) as (r' & -> & Hr'). cbn [fst].
  assert (NoDup (l_Reader l :: owned c ls')) as Hnd by (rewrite <- Hown; apply Hi). apply NoDup_cons in Hnd as [Hnot Hnd].
  assert (forall rid, rid ∈ owned c ls' -> <[l_Reader l:=r']> (tc_readers c) !! rid = tc_readers c !! rid) as Hsame by (intros rid Hrid; rewrite list_lookup_insert_ne; [done|]; by intros <-).
  split; try apply Hi; try done.
  - intros id Hid. destruct (ci_entry _ _ Hi id Hid) as (e & Hoe & [Hm Hrf Hob (re & Hre & Hoe')]). exists e. split; [done|]. split; [done| |done|].
    + rewrite refs_released, He, bool_decide_false by done. lia.
    + exists re. split; [|done]. cbn. rewrite Hsame; [done|]. apply elem_of_app. left. unfold cached_readers. apply list_elem_of_omap. exists id. split; [done|]. by rewrite Hoe.
  - intros t' x Hx Hox. pose proof (still_out t' x Hx Hox) as Hx'. destruct (ci_lease _ _ Hi t' x Hx' Hox) as ((rx & Hrx & Hopx & Hmx) & Hent). split; [|done]. exists rx. split; [|done].
    cbn. rewrite Hsame; [done|]. apply elem_of_app. destruct (l_entry x) as [j|] eqn:Hex.
    + left. destruct (Hent j eq_refl) as (Hj & e & Hoe & <-). unfold cached_readers. apply list_elem_of_omap. exists j. split; [done|]. by rewrite Hoe.
    + right. apply list_elem_of_omap. exists (t', x). split; [done|]. unfold uncached. cbn. by rewrite Hox, Hex.
  - intros rid rr Hrid Hop'. change (<[l_Reader l:=r']> (tc_readers c) !! rid = Some rr) in Hrid. destruct (decide (rid = l_Reader l)) as [->|Hne].
    + rewrite list_lookup_insert_eq in Hrid by (by eapply lookup_lt_Some). congruence.
    + rewrite list_lookup_insert_ne in Hrid by done. assert (rid ∈ owned c ls) as Hro by (by eapply (ci_open _ _ Hi)). rewrite Hown in Hro. by apply elem_of_cons in Hro as [?|?].
  - apply active_now.
Qed.
Lemma release_cached id e : l_entry l = Some id -> tc_objects c !! id = Some e ->
  cache_inv (set_objects (<[id:=set_references (fun z => z - 1) e]>) (set_active (tc_active c - 1) c)) ls' /\ te_references (set_references (fun z => z - 1) e) = refs id ls'.
Proof using Hi Hout Hlen.
  intros He Hoe. destruct (ci_lease _ _ Hi t l) as [_ Hent]; [set_solver|done|]. destruct (Hent id He) as (Hid & e0 & He0 & _). assert (e0 = e) as -> by congruence.
  destruct (ci_entry _ _ Hi id Hid) as (e0 & He0' & Heo). assert (e0 = e) as -> by congruence. pose proof (refs_released id) as Hrr. rewrite He, bool_decide_true in Hrr by done.
  pose proof (refs_range id ls'). pose proof (refs_range id ls). assert (u64 (te_references e - 1) = refs id ls') as Href.
  { rewrite (eo_refs _ _ _ _ Heo), Hrr. apply u64_id. unfold is_u64, MaxUint64, two64 in *. lia. }
  split; [|exact Href]. apply (inv_update c ls); try done.
  - intros j ej Hj Hej. cbn. destruct (decide (j = id)) as [->|Hne].
    + assert (ej = e) as -> by congruence. rewrite list_lookup_insert_eq by (by eapply lookup_lt_Some). eexists. split; [done|]. done.
    + rewrite list_lookup_insert_ne by done. exists ej. split_and!; try done. destruct (ci_entry _ _ Hi j Hj) as (ej' & Hej' & Heoj). assert (ej' = ej) as -> by congruence.
      rewrite refs_released, He, bool_decide_false, (eo_refs _ _ _ _ Heoj) by congruence. lia.
  - intros t' x Hx Hox. apply (ci_lease _ _ Hi); [by apply still_out|done].
  - rewrite !omap_app. cbn [omap list_omap]. change (uncached (t, l')) with (@None nat).
    assert (uncached (t, l) = None) as -> by (unfold uncached; cbn [snd]; by rewrite Hout, He). done.
  - apply active_now.
Qed.
(** A closed cache keeps only entries with leases. *)
Definition closed_ok (c : tableCache) (ls : leases) : Prop := tc_closed c = true -> forall id, id ∈ tc_lru c -> refs id ls <> 0.
Lemma release_inv : closed_ok c ls -> cache_inv (release (l_entry l) (l_Reader l) c).1 ls' /\ closed_ok (release (l_entry l) (l_Reader l) c).1 ls' /\
  tc_closed (release (l_entry l) (l_Reader l) c).1 = tc_closed c.
Proof using Hi Hout Hlen.
  intros Hco. unfold release. destruct (l_entry l) as [id|] eqn:He; cbn [mbind option_bind].
  - destruct (ci_lease _ _ Hi t l) as [_ Hent]; [set_solver|done|]. destruct (Hent id He) as (Hid & e & Hoe & _). cbn [tc_objects set_active]. rewrite Hoe. cbn [mbind option_bind].
    destruct (release_cached id e He Hoe) as [Hi1 Hrf]. set (c1 := set_objects _ _) in *. set (e1 := set_references (fun z => z - 1) e) in *.
    assert (tc_objects c1 !! id = Some e1) as He1 by (cbn; apply list_lookup_insert_eq; by eapply lookup_lt_Some).
    assert (forall j, j <> id -> j ∈ tc_lru c -> tc_closed c = true -> refs j ls' <> 0) as Hothers.
    { intros j Hne Hj Hc. rewrite refs_released, He, bool_decide_false by congruence. rewrite Z.sub_0_r. by apply Hco. }
    destruct (Z.eqb_spec (te_references e1) 0) as [Hz|Hnz]; cbn [andb].
    + destruct (te_obsolete e1 || tc_closed c1) eqn:Hoc.
      * destruct (dropped_inv c1 ls' id e1 e1 Hi1 Hid He1 ltac:(congruence)) as (Hi2 & Hlru & Hcl & _). unfold dropped in *. rewrite (set_objects_id c1 id e1 He1) in *.
        split; [done|]. split; [|by rewrite Hcl]. intros Hc j Hj. rewrite Hlru in Hj. unfold Remove in Hj. apply list_elem_of_filter in Hj as [Hne Hj]. rewrite Hcl in Hc. by apply Hothers.
      * apply orb_false_iff in Hoc as [_ Hoc]. split; [done|]. split; [|done]. intros Hc. cbn [fst] in Hc. congruence.
    + split; [done|]. split; [|done]. intros Hc j Hj. destruct (decide (j = id)) as [->|Hne]; [congruence|]. by apply Hothers.
  - split; [by apply release_uncached|]. destruct (ci_lease _ _ Hi t l) as ((r & Hr & Hop & _) & _); [set_solver|done|].
    destruct (close_reader_spec (l_Reader l) (set_active (tc_active c - 1) c) r Hr (opened_open _ _ Hop)) as (r' & -> & _). split; [|done].
    intros Hc j Hj. rewrite refs_released, He, bool_decide_false by done. rewrite Z.sub_0_r. by apply Hco.
Qed.
End release.

(** ** [evict] and [close] *)

Lemma idle_refs j ls : active ls = 0 -> refs j ls = 0.
Proof.
  intros Ha. unfold refs. rewrite filter_none; [done|]. apply Forall_forall. intros [t l] Hl Hh. unfold holds_entry in Hh. apply andb_true_iff in Hh as [Ho _]. cbn in Ho.
  assert ((t, l) ∈ filter (fun p : TableMetadata * tableLease => outstanding p.2 = true) ls) as Hf by (by apply list_elem_of_filter).
  unfold active in Ha. destruct (filter _ ls); [by apply not_elem_of_nil in Hf|]. unfold len in Ha. cbn in Ha. lia.
Qed.
Lemma evict_inv c ls n : cache_inv c ls -> closed_ok c ls -> active ls = 0 ->
  cache_inv (evict n c).1 ls /\ closed_ok (evict n c).1 ls /\ ((evict n c).2 = (true, []) \/ exists n r, open directory n = Ok (r, true)) /\ tc_entries (evict n c).1 !! n = None.
Proof.
  intros Hi Hco Ha. unfold evict. destruct (tc_entries c !! n) as [id|] eqn:Hn; cbn [mbind option_bind]; [|split_and!; [done|done|by left|done]].
  destruct (ci_map _ _ Hi _ _ Hn) as (Hl & e & He & Hf). rewrite He. cbn [mbind option_bind]. destruct (ci_entry _ _ Hi id Hl) as (e' & He' & Heo). assert (e' = e) as -> by congruence.
  pose proof (idle_refs id ls Ha) as Hr0. rewrite (eo_refs _ _ _ _ Heo), Hr0. cbn [Z.eqb negb]. destruct (dropped_inv c ls id e (set_obsolete e) Hi Hl He Hr0) as (Hi' & Hlru & Hcl & _ & _ & Herr).
  unfold dropped in *. rewrite Hf in *. assert (tc_entries (close_reader (te_reader e) (forget n id (set_objects (<[id:=set_obsolete e]>) c))).1 !! n = None) as Hgone.
  { assert (forall rid x, tc_entries (close_reader rid x).1 = tc_entries x) as Hcr by (intros rid x; unfold close_reader; case_match; [|done]; case_match; by destruct (reader.Close _ _)). rewrite Hcr. cbn. apply lookup_delete_eq. }
  destruct (close_reader _ _) as [c1 err]. cbn [fst snd] in *. split; [done|]. split; [|split; [|done]].
  - intros Hc j Hj. rewrite Hlru in Hj. unfold Remove in Hj. apply list_elem_of_filter in Hj as [_ Hj]. apply Hco; congruence.
  - destruct Herr as [->|?]; [by left|by right].
Qed.
Lemma close_entry_inv c ls id res : cache_inv c ls -> tc_closed c = true -> id ∈ tc_lru c ->
  cache_inv (close_entry (c, res) id).1 ls /\ tc_closed (close_entry (c, res) id).1 = true /\
  (forall j, j ∈ tc_lru (close_entry (c, res) id).1 -> j ∈ tc_lru c /\ (j = id -> refs j ls <> 0)) /\ (forall j, j ∈ tc_lru c -> j <> id -> j ∈ tc_lru (close_entry (c, res) id).1).
Proof.
  intros Hi Hc Hl. destruct (ci_entry _ _ Hi id Hl) as (e & He & Heo). unfold close_entry. rewrite He. rewrite (eo_refs _ _ _ _ Heo). destruct (Z.eqb_spec (refs id ls) 0) as [Hz|Hnz].
  - destruct (dropped_inv c ls id e (set_obsolete e) Hi Hl He Hz) as (Hi' & Hlru & Hcl & _). unfold dropped in *. destruct (close_reader _ _) as [c1 err]. cbn [fst] in *.
    split; [done|]. split; [congruence|]. rewrite Hlru. unfold Remove. split; [intros j [? ?]%list_elem_of_filter; done|intros j Hj Hne; by apply list_elem_of_filter].
  - cbn [fst]. split; [|split; [done|split; [intros j Hj; split; [done|congruence]|done]]]. apply (inv_update c ls); try done; [|by intros; apply (ci_lease _ _ Hi)|apply Hi].
    intros j ej Hj Hej. cbn. destruct (decide (j = id)) as [->|Hne].
    + assert (ej = e) as -> by congruence. rewrite list_lookup_insert_eq by (by eapply lookup_lt_Some). eexists. split; [done|]. split_and!; try done; [congruence|apply Heo].
    + rewrite list_lookup_insert_ne by done. exists ej. split_and!; try done. destruct (ci_entry _ _ Hi j Hj) as (ej' & Hej' & Heoj). assert (ej' = ej) as -> by congruence. apply Heoj.
Qed.
Lemma close_fold ids : forall c res ls, cache_inv c ls -> tc_closed c = true -> NoDup ids -> ids ⊆ tc_lru c ->
  cache_inv (foldl close_entry (c, res) ids).1 ls /\ tc_closed (foldl close_entry (c, res) ids).1 = true /\
  forall j, j ∈ tc_lru (foldl close_entry (c, res) ids).1 -> j ∈ tc_lru c /\ (j ∈ ids -> refs j ls <> 0).
Proof.
  induction ids as [|id ids IH]; intros c res ls Hi Hc Hnd Hsub; cbn [foldl]; [split; [done|]; split; [done|]; intros j Hj; split; [done|]; by intros ?%not_elem_of_nil|].
  apply NoDup_cons in Hnd as [Hid Hnd]. destruct (close_entry_inv c ls id res Hi Hc ltac:(set_solver)) as (Hi1 & Hc1 & Hl1 & Hl2). destruct (close_entry (c, res) id) as [c1 res1]. cbn [fst] in *.
  destruct (IH c1 res1 ls Hi1 Hc1 Hnd) as (Hi2 & Hc2 & Hl). { intros j Hj. apply Hl2; [set_solver|]. by intros ->. }
  split; [done|]. split; [done|]. intros j Hj. destruct (Hl j Hj) as [Hj1 Hj2]. destruct (Hl1 j Hj1) as [Hjc Hje]. split; [done|]. intros [->|Hin]%elem_of_cons; [by apply Hje|by apply Hj2].
Qed.
Lemma close_inv c ls : cache_inv c ls -> closed_ok c ls -> cache_inv (close c).1 ls /\ closed_ok (close c).1 ls /\ tc_closed (close c).1 = true.
Proof.
  intros Hi Hco. unfold close. destruct (tc_closed c) eqn:Hc; [done|]. assert (cache_inv (set_closed c) ls) as Hi'.
  { split; try apply Hi. intros id Hid. destruct (ci_entry _ _ Hi id Hid) as (e & He & [Hm Hrf Hob Hop]). exists e. split; [done|]. by split. }
  destruct (close_fold (map_to_list (tc_entries c)).*2 (set_closed c) [] ls Hi' eq_refl) as (Hi2 & Hc2 & Hl).
  - assert (forall n m id, (n, id) ∈ map_to_list (tc_entries c) -> (m, id) ∈ map_to_list (tc_entries c) -> n = m) as Hinj.
    { intros n m id Hn%elem_of_map_to_list Hm%elem_of_map_to_list. destruct (ci_map _ _ Hi _ _ Hn) as (_ & e & He & <-). destruct (ci_map _ _ Hi _ _ Hm) as (_ & e' & He' & <-). congruence. }
    pose proof (NoDup_map_to_list (tc_entries c)) as Hnd. revert Hinj Hnd. generalize (map_to_list (tc_entries c)). intros l Hinj. induction l as [|[n id] l IH]; intros Hnd; cbn; [constructor|].
    apply NoDup_cons in Hnd as [Hx Hnd]. constructor; [|apply IH; [|done]; intros ? ? ? ? ?; eapply Hinj; by right]. intros ([m id'] & -> & Hm)%list_elem_of_fmap.
    cbn in *. apply Hx. rewrite (Hinj n m id'); [done|left|by right].
  - intros id ([n id'] & -> & Hn%elem_of_map_to_list)%list_elem_of_fmap. by destruct (ci_map _ _ Hi _ _ Hn).
  - split; [done|]. split; [|done]. intros _ j Hj. destruct (Hl j Hj) as [Hjl Hr]. apply Hr. destruct (ci_entry _ _ Hi j Hjl) as (e & _ & Heo).
    apply list_elem_of_fmap. exists (te_fileNumber e, j). split; [done|]. apply elem_of_map_to_list, Heo.
Qed.
End inv.
