(* ===== verification/EngineReadProofs.v ===== *)
(** * What the reads of the engine return (storage/engine/read.go) *)

From S2P Require Import Prelude InternalKey Batch Loops Files Wal MvccStore SSTable SSTableBlock SSTableWriter SSTableReader SSTableReads SSTableIterators MemTable MemTableProofs MemTableProps Heap Merge MergeProofs MergeInputs Manifest ManifestCodec ManifestVersion ManifestApply ManifestProps ManifestStore Compaction CompactionPlan CompactionBuild Command StateMachine EngineRead EngineView.
Import manifest version store read.

(** ** The tables of a point *)

Definition covers_key (key : bytes) (t : TableMetadata) : bool := bytes_leb (SmallestUser t) key && bytes_leb key (LargestUser t).
Lemma covers_false key t : covers_key key t = false <-> bytes_lt key (SmallestUser t) \/ bytes_lt (LargestUser t) key.
Proof.
  unfold covers_key. rewrite andb_false_iff. split; (intros [H|H]; [left|right]); try by apply bytes_leb_false.
  all: apply not_true_is_false; rewrite bytes_leb_lt; tauto.
Qed.
Lemma smallest_sorted l i j a b : disjoint_tables l -> l !! i = Some a -> l !! j = Some b -> (i < j)%nat -> bytes_lt (LargestUser a) (SmallestUser b).
Proof.
  intros Hd. revert i j. induction Hd as [|x l' Hs IH Hf]; intros i j Ha Hb' Hij; [done|]. rewrite Forall_forall in Hf.
  destruct j as [|j]; [lia|]. cbn in Hb'. destruct i as [|i]; cbn in Ha.
  - injection Ha as <-. apply Hf. by eapply list_elem_of_lookup_2.
  - eapply IH; [done|done|lia].
Qed.
Section level.
Context (l : list TableMetadata) (Hd : disjoint_tables l) (Hb : Forall bounded_table l) (key : bytes).
Let above (index : nat) : bool := match l !! index with Some t => bytes_ltb key (SmallestUser t) | None => true end.
Lemma level_search : let n := Search above (length l) in
  (n <= length l)%nat /\ (forall k t, l !! k = Some t -> (k < n)%nat -> ~ bytes_lt key (SmallestUser t)) /\ (forall k t, l !! k = Some t -> (n <= k)%nat -> bytes_lt key (SmallestUser t)).
Proof using Hd Hb.
  intros n. destruct (Search_spec above (length l)) as (Hn & Hlo & Hhi).
  { intros i j Hij Hi. unfold above in *. destruct (lookup_lt_is_Some_2 l i) as [a Ha]; [lia|]. destruct (lookup_lt_is_Some_2 l j) as [b Hb']; [lia|]. rewrite Ha in Hi. rewrite Hb'.
    apply bytes_ltb_lt in Hi. apply bytes_ltb_lt. destruct (decide (i = j)) as [->|Hne]; [congruence|].
    pose proof (smallest_sorted l i j a b Hd Ha Hb' ltac:(lia)) as Hlt. rewrite Forall_forall in Hb. pose proof (Hb a ltac:(by eapply list_elem_of_lookup_2)) as Hab.
    transitivity (SmallestUser a); [done|]. by eapply bytes_le_lt_trans. }
  split; [done|]. split; intros k t Hk Hkn.
  - intros Hlt. specialize (Hlo k Hkn). unfold above in Hlo. rewrite Hk in Hlo. apply bytes_ltb_lt in Hlt. congruence.
  - specialize (Hhi k). unfold above in Hhi. rewrite Hk in Hhi. apply bytes_ltb_lt, Hhi. split; [done|]. by eapply lookup_lt_Some.
Qed.
Lemma level_point (result : list TableMetadata) :
  let position := Z.of_nat (Search above (length l)) - 1 in
  (if 0 <=? position then
     match l !! Z.to_nat position with
     | Some t => if bytes_leb key (LargestUser t) then result ++ [t] else result
     | None => result
     end
   else result) = result ++ filter (fun t => covers_key key t = true) l.
Proof using Hd Hb.
  intros position. destruct level_search as (Hn & Hlo & Hhi). unfold position. set (n := Search above (length l)) in *.
  assert (forall k, (n <= k)%nat -> filter (fun t => covers_key key t = true) (drop k l) = []) as Hdrop.
  { intros k Hk. apply filter_none, Forall_forall. intros t Ht. apply list_elem_of_lookup in Ht as [i Hi]. rewrite lookup_drop in Hi.
    assert (covers_key key t = false) as ->; [|done]. apply covers_false. left. apply (Hhi _ _ Hi). lia. }
  destruct n as [|m] eqn:En.
  { cbn [Z.of_nat Z.sub Z.add Z.opp Z.leb Z.compare]. rewrite <- (drop_0 l), Hdrop, app_nil_r by lia. done. }
  rewrite (proj2 (Z.leb_le _ _)) by lia. replace (Z.to_nat (Z.of_nat (S m) - 1)) with m by lia. destruct (lookup_lt_is_Some_2 l m) as [t Ht]; [lia|]. rewrite Ht.
  rewrite <- (take_drop_middle l m t Ht) at 1. rewrite filter_app, filter_cons, Hdrop by lia.
  rewrite (filter_none _ (take m l)).
  2: { apply Forall_forall. intros a Ha. apply list_elem_of_lookup in Ha as [i Hi]. apply lookup_take_Some in Hi as [Hi Him].
       assert (covers_key key a = false) as ->; [|done]. apply covers_false. right.
       eapply bytes_lt_le_trans; [eapply (smallest_sorted l i m a t); [done..|lia]|]. apply (Hlo m t); [done|lia]. }
  unfold covers_key. rewrite (proj2 (bytes_leb_lt (SmallestUser t) key)) by (apply (Hlo m t); [done|lia]). cbn [andb app].
  destruct (bytes_leb key (LargestUser t)); [rewrite decide_True by done|rewrite decide_False by done]; by rewrite ?app_nil_r.
Qed.
End level.

Lemma live_levels v : version_ok v -> live v = concat ((fun i => level_of (Z.of_nat i) v) <$> seq 0 8).
Proof.
  intros Hv. unfold live. f_equal. pose proof (vo_levels _ Hv) as H8. apply list_eq. intros i. rewrite list_lookup_fmap.
  destruct (decide (i < 8)%nat) as [Hi|Hi].
  - rewrite lookup_seq_lt by lia. cbn [fmap option_fmap option_map]. rewrite Nat.add_0_l. by apply level_lookup.
  - rewrite lookup_seq_ge by lia. apply lookup_ge_None. unfold len in H8. lia.
Qed.
Lemma Files_level v : version_ok v -> forall i, (i < 8)%nat -> Files (Z.of_nat i) v = Ok (level_of (Z.of_nat i) v).
Proof. intros Hv i Hi. pose proof (files_of_level v Hv i Hi) as Hf. unfold compaction.files_of in Hf. destruct (Files _ _); [by injection Hf as ->|done]. Qed.
Lemma tablesForPoint_spec v key : version_ok v -> tablesForPoint v key = Some (filter (fun t => covers_key key t = true) (live v)).
Proof.
  intros Hv. unfold tablesForPoint. pose proof (Files_level v Hv) as Hfiles.
  pose proof (Hfiles 0%nat ltac:(lia)) as H0. change (Z.of_nat 0) with 0 in H0. rewrite H0. cbn [mbind option_bind]. rewrite live_levels by done.
  change (seq 0 8) with (0%nat :: seq 1 (Z.to_nat MaxLevels - 1)). cbn [fmap list_fmap concat]. rewrite filter_app.
  change (Z.of_nat 0) with 0. change (filter (fun table => (bytes_leb (SmallestUser table) key && bytes_leb key (LargestUser table)) = true) (level_of 0 v))
    with (filter (fun t => covers_key key t = true) (level_of 0 v)).
  generalize (filter (fun t => covers_key key t = true) (level_of 0 v)).
  assert (Forall (fun i => 0 < i < 8)%nat (seq 1 (Z.to_nat MaxLevels - 1))) as Hls by (apply Forall_seq; intros j Hj; change (Z.to_nat MaxLevels) with 8%nat in Hj; lia).
  revert Hls. generalize (seq 1 (Z.to_nat MaxLevels - 1)). intros ls. induction ls as [|i ls IH]; intros Hls result; [cbn; by rewrite app_nil_r|].
  apply Forall_cons in Hls as [Hi Hls]. cbn [foldl mbind option_bind]. rewrite Hfiles by lia. cbn [mbind option_bind]. rewrite (level_point (level_of (Z.of_nat i) v)).
  - rewrite IH by done. cbn [fmap list_fmap concat]. by rewrite filter_app, app_assoc.
  - apply (vo_disjoint _ Hv i); [lia|]. apply level_lookup; [done|lia].
  - apply Forall_forall. intros t Ht. by apply (level_tables v Hv i t ltac:(lia)).
Qed.

Lemma foldO_app {A S} (step : S -> A -> option (eres S)) l l' s :
  foldO step s (l ++ l') = (r ← foldO step s l; match r with Ok s => foldO step s l' | Err e => Some (Err e) end).
Proof. revert s. induction l as [|a l IH]; intros s; cbn [app foldO]; [done|]. destruct (step s a) as [[s'|e]|]; cbn; [apply IH|done..]. Qed.
Lemma foldO_fmap {A B S} (f : A -> B) (step : S -> B -> option (eres S)) l s : foldO step s (f <$> l) = foldO (fun s a => step s (f a)) s l.
Proof. revert s. induction l as [|a l IH]; intros s; cbn [fmap list_fmap foldO]; [done|]. destruct (step s (f a)) as [[s'|e]|]; cbn; [apply IH|done..]. Qed.
Lemma LiveTableCount_live v : LiveTableCount v = len (live v).
Proof.
  unfold LiveTableCount, live. assert (forall (ls : list (list TableMetadata)) z, foldl (fun count level => count + len level) z ls = z + len (concat ls)) as H.
  { intros ls. induction ls as [|l ls IH]; intros z; cbn [foldl concat]; [unfold len; cbn; lia|]. rewrite IH. unfold len. rewrite length_app. lia. }
  by rewrite H.
Qed.

(** ** A view and what it holds *)

Definition memory (view : readView) : list ReadGeneration := rs_Active (rv_memtables view) :: rs_Immutables (rv_memtables view).
Definition memory_source (g : ReadGeneration) : numbered := (rg_FileNumber g, MemTableProofs.contents (rg_Table g)).
(** The entries [l] are those the metadata of a table describes. *)
Record described (t : TableMetadata) (l : MvccStore.store) : Prop := {
  de_sorted : store_sorted l;
  de_wf : Forall (fun e => key_wf e.1) l;
  de_within : forall e, e ∈ l -> covers_key (userKey e.1) t = true;
  de_count : EntryCount t = len l
}.
Lemma duplicate_quiet : Eng ErrNotFound ∉ [Eng ErrCorruption; Eng ErrDuplicateEntry].
Proof. rewrite !not_elem_of_cons. split; [done|]. split; [done|]. apply not_elem_of_nil. Qed.
Section views.
Context (acquire : TableMetadata -> eres (reader.Reader * errors)) (tc : TableMetadata -> MvccStore.store) (view : readView).
Definition table_source (t : TableMetadata) : numbered := (FileNumber t, tc t).
Definition sources : list numbered := (memory_source <$> memory view) ++ (table_source <$> live (rv_version view)).
(** A lease cannot be had or released without an error, or its file fails. *)
Definition unavailable (t : TableMetadata) : Prop :=
  match acquire t with Err _ => True | Ok (r, release) => release <> [] \/ faulty (reader.rd_file r) end.
Definition impaired : Prop := (exists t, t ∈ live (rv_version view) /\ unavailable t) \/ conflicting sources.
(** No error of a lease says that a key is missing. *)
Definition quiet (t : TableMetadata) : Prop :=
  match acquire t with Err e => Eng ErrNotFound ∉ e | Ok (_, release) => Eng ErrNotFound ∉ release end.
Record view_ok : Prop := {
  vk_memory : Forall (fun g => MemTableProofs.wf (rg_Table g)) (memory view);
  vk_version : version_ok (rv_version view);
  vk_tables : forall t, t ∈ live (rv_version view) -> described t (tc t);
  vk_acquire : forall t r release, t ∈ live (rv_version view) -> acquire t = Ok (r, release) -> reads r (tc t);
  vk_quiet : forall t, t ∈ live (rv_version view) -> quiet t
}.
Context (Hok : view_ok).

Lemma sources_sorted : Forall (fun s => store_sorted s.2) sources.
Proof using Hok.
  apply Forall_app. split; apply Forall_fmap, Forall_forall.
  - intros g Hg. pose proof (proj1 (Forall_forall _ _) (vk_memory Hok) g Hg) as [cs Hr]. by apply (MemTableProps.contents_ok _ cs).
  - intros t Ht. apply (vk_tables Hok t Ht).
Qed.
Lemma tableCandidate_spec t key target : t ∈ live (rv_version view) -> len key <= sstable.MaxUserKeySize ->
  tableCandidate acquire t key target = Ok (candidate key target (tc t)) \/
  unavailable t /\ exists e, tableCandidate acquire t key target = Err e /\ Eng ErrNotFound ∉ e.
Proof using Hok.
  intros Ht Hk. unfold tableCandidate, unavailable. pose proof (vk_quiet Hok t Ht) as Hq. unfold quiet in Hq. destruct (acquire t) as [[r release]|e] eqn:Ha.
  2: { right. split; [done|]. eexists. split; [done|]. set_solver. }
  destruct (vk_acquire Hok t r release Ht Ha) as (r0 & bs & Hr & Hto & Hsame & Htc).
  assert (reader.MayContain r key = Ok (sstable.mayContain (reader.rd_bloom r0) key)) as ->.
  { rewrite Hr. unfold reader.MayContain. rewrite (proj2 (Z.leb_le _ _)) by done. cbn. by rewrite (to_open _ _ Hto). }
  assert (forall o, o = candidate key target (tc t) -> join (Ok o) release = Ok (candidate key target (tc t)) \/ (release <> [] \/ faulty (reader.rd_file r)) /\ exists e, join (Ok o) release = Err e /\ Eng ErrNotFound ∉ e) as Hdone.
  { intros o ->. destruct release; [by left|]. right. split; [by left|]. by eexists. }
  destruct (sstable.mayContain (reader.rd_bloom r0) key) eqn:Hm.
  - pose proof (GetCandidate_spec r0 bs (reader.rd_file r) key target Hto Hsame Hk) as Hg. rewrite <- Hr, <- Htc in Hg. destruct Hg as [->|(Hf & e & -> & He)].
    + destruct (candidate key target (tc t)) as [e|]; cbn [not_found existsb is_missing orb]; by apply Hdone.
    + right. split; [by right|]. assert (existsb is_missing e = false) as -> by (destruct He as [->|[->| ->]]; done).
      exists (Eng ErrCorruption :: (Table_ <$> e) ++ release). split; [destruct release; cbn; by rewrite ?app_nil_r|].
      rewrite not_elem_of_cons, not_elem_of_app. split; [done|]. split; [|done]. by intros (? & ? & _)%list_elem_of_fmap.
  - apply Hdone. rewrite Htc. symmetry. by eapply bloom_negative.
Qed.

Lemma memory_pass key target best gs : gs ⊆ memory view ->
  foldO (memory_candidate key target) best gs = foldO (consider_source key target) best (memory_source <$> gs).
Proof using Hok.
  rewrite foldO_fmap. revert best. induction gs as [|g gs IH]; intros best Hin; cbn [foldO]; [done|].
  assert (memory_candidate key target best g = consider_source key target best (memory_source g)) as ->.
  { unfold memory_candidate. rewrite GetCandidate_contents by (apply (proj1 (Forall_forall _ _) (vk_memory Hok)); set_solver). done. }
  destruct (consider_source _ _ _ _) as [[best'|e]|]; [|done..]. apply IH. set_solver.
Qed.
Lemma table_pass key target best ts : len key <= sstable.MaxUserKeySize -> ts ⊆ live (rv_version view) ->
  foldO (table_candidate acquire key target) best ts = foldO (consider_source key target) best (table_source <$> ts) \/
  exists e, foldO (table_candidate acquire key target) best ts = Some (Err e) /\ Eng ErrNotFound ∉ e /\ exists t, t ∈ ts /\ unavailable t.
Proof using Hok.
  intros Hk. rewrite foldO_fmap. revert best. induction ts as [|t ts IH]; intros best Hin; cbn [foldO]; [by left|].
  assert (ts ⊆ live (rv_version view)) as Hin' by set_solver.
  destruct (tableCandidate_spec t key target ltac:(set_solver) Hk) as [Hc|(Hu & e & Hc & He)].
  - assert (table_candidate acquire key target best t = consider_source key target best (table_source t)) as -> by (unfold table_candidate, consider_source; rewrite Hc; done).
    destruct (consider_source _ _ _ _) as [[best'|e]|]; [|by left..].
    destruct (IH best' Hin') as [Hr|(e & Hr & He & t' & Ht & Hu)]; [by left|right]. exists e. split; [done|]. split; [done|]. exists t'. split; [by right|done].
  - right. exists e. assert (table_candidate acquire key target best t = Some (Err e)) as -> by (unfold table_candidate; by rewrite Hc). split; [done|]. split; [done|]. exists t. split; [left|done].
Qed.
(** Tables that do not cover the key have no candidate. *)
Lemma covering_candidates key target ts : ts ⊆ live (rv_version view) ->
  candidates key target (table_source <$> filter (fun t => covers_key key t = true) ts) = candidates key target (table_source <$> ts).
Proof using Hok.
  induction ts as [|t ts IH]; intros Hin; [done|]. rewrite filter_cons. cbn [fmap list_fmap]. unfold candidates in *. cbn [omap list_omap table_source fst snd].
  destruct (decide (covers_key key t = true)) as [Hc|Hc]; cbn [fmap list_fmap omap list_omap table_source fst snd]; [by rewrite IH by set_solver|].
  rewrite (proj2 (candidate_none key target (tc t))); [apply IH; set_solver|]. intros e He. apply not_true_is_false. intros [Hu _]%relevant_spec.
  apply Hc. rewrite <- Hu. apply (de_within _ _ (vk_tables Hok t ltac:(set_solver)) e He).
Qed.
Lemma point_pass_spec u key target : merges sources.*2 u -> len key <= sstable.MaxUserKeySize ->
  match point_pass acquire view key target with
  | Some (Ok best) => candidate key target u = c_entry <$> best
  | Some (Err e) => impaired /\ Eng ErrNotFound ∉ e
  | None => False
  end.
Proof using Hok.
  intros Hm Hk. set (covering := filter (fun t => covers_key key t = true) (live (rv_version view))).
  assert (point_pass acquire view key target = (r ← foldO (memory_candidate key target) None (memory view); match r with Ok best => foldO (table_candidate acquire key target) best covering | Err e => Some (Err e) end)) as ->.
  { unfold point_pass. fold (memory view). destruct (foldO _ None (memory view)) as [[best|e]|]; [|done..]. cbn [mbind option_bind]. rewrite tablesForPoint_spec by apply Hok.
    rewrite LiveTableCount_live. destruct (Z.eqb_spec (len (live (rv_version view))) 0) as [He|]; [|done]. unfold covering. destruct (live (rv_version view)); [done|]. unfold len in He. cbn in He. lia. }
  pose proof (consider_sources key target ((memory_source <$> memory view) ++ (table_source <$> covering)) [] None) as Hall. cbn [app] in Hall.
  assert ((memory_source <$> memory view) ++ (table_source <$> covering) `sublist_of` sources) as Hsub by (apply sublist_app; [done|]; apply fmap_sublist, sublist_filter).
  specialize (Hall ltac:(apply Forall_forall; intros x Hx; apply (proj1 (Forall_forall _ _) sources_sorted); by eapply elem_of_sublist) eq_refl). rewrite foldO_app, <- memory_pass in Hall by done.
  destruct (foldO _ None (memory view)) as [[best|e]|]; cbn [mbind option_bind] in *; [|destruct Hall as [-> Hc]; split; [right; by eapply conflicting_sublist|apply duplicate_quiet]|done].
  destruct (table_pass key target best covering Hk) as [->|(e & -> & He & t & Ht & Hu)]; [apply sublist_subseteq, sublist_filter| |].
  2: { split; [left; exists t; split; [by apply list_elem_of_filter in Ht as [_ ?]|done]|done]. }
  destruct (foldO _ best _) as [[best'|e]|]; [|destruct Hall as [-> Hc]; split; [right; by eapply conflicting_sublist|apply duplicate_quiet]|done].
  apply (best_merges key target sources); [apply sources_sorted|done|]. unfold sources. rewrite candidates_app, <- covering_candidates by done. by rewrite <- candidates_app.
Qed.

(** ** The loop past aborted versions *)

Lemma sources_wf : Forall (Forall (fun e => key_wf e.1)) sources.*2.
Proof using Hok.
  unfold sources. rewrite fmap_app, <- !list_fmap_compose. apply Forall_app. split; apply Forall_fmap, Forall_forall.
  - intros g Hg. pose proof (proj1 (Forall_forall _ _) (vk_memory Hok) g Hg) as [cs Hr]. by apply (MemTableProps.contents_ok _ cs).
  - intros t Ht. apply (vk_tables Hok t Ht).
Qed.
Lemma fuel_enough : (length (concat sources.*2) < view_fuel view)%nat.
Proof using Hok.
  unfold view_fuel. fold (memory view). apply Nat.lt_succ_r. unfold sources.
  rewrite fmap_app, <- !list_fmap_compose, concat_app, length_app.
  assert (foldr (fun g n => memtable.t_count (rg_Table g) + n) 0 (memory view) = len (concat (snd ∘ memory_source <$> memory view))) as ->.
  { pose proof (vk_memory Hok) as Hmem. induction Hmem as [|g gs [cs Hr] Hgs IH]; [done|]. cbn [foldr fmap list_fmap concat]. rewrite IH. unfold len. rewrite length_app.
    rewrite (rep_count _ _ Hr). cbn. rewrite (contents_rep _ _ Hr). unfold entries. rewrite length_fmap. unfold len. lia. }
  assert (foldr (fun t n => EntryCount t + n) 0 (live (rv_version view)) = len (concat (snd ∘ table_source <$> live (rv_version view)))) as ->.
  { assert (forall ts, ts ⊆ live (rv_version view) -> foldr (fun t n => EntryCount t + n) 0 ts = len (concat (snd ∘ table_source <$> ts))) as Hts; [|by apply Hts].
    intros ts. induction ts as [|t ts IH]; intros Hin; [done|]. cbn [foldr fmap list_fmap concat]. rewrite IH by set_solver. unfold len. rewrite length_app.
    rewrite (de_count _ _ (vk_tables Hok t ltac:(set_solver))). cbn. unfold len. lia. }
  unfold len. lia.
Qed.
Definition point_outcome (u : MvccStore.store) (key : bytes) (target : Z) (r : eres MVCCVersion) : Prop :=
  match r with
  | Ok v => exists e, visible key target u = Some e /\ v = version_of e
  | Err e => e = [Eng ErrNotFound] /\ visible key target u = None \/ impaired /\ Eng ErrNotFound ∉ e
  end.
Lemma point_loop_spec u key : merges sources.*2 u -> len key <= sstable.MaxUserKeySize -> forall fuel target,
  (length (filter (fun x => relevant key target x.1 = true) u) < fuel)%nat ->
  exists r, point_loop acquire fuel view key target = Some r /\ point_outcome u key target r.
Proof using Hok.
  intros Hm Hk. assert (Forall (fun e => key_wf e.1) u) as Hwf.
  { apply Forall_forall. intros e He. destruct (proj1 (proj2 Hm) e He) as (l & Hl & Hel). by apply (proj1 (Forall_forall _ _) (proj1 (Forall_forall _ _) sources_wf l Hl)). }
  assert (store_ok u) as Hu by (split; [apply Hm|]; eapply Forall_impl; [exact Hwf|]; intros e [[? _] _]; done).
  intros fuel. induction fuel as [|fuel IH]; intros target Hf; [lia|]. cbn [point_loop]. pose proof (point_pass_spec u key target Hm Hk) as Hp.
  destruct (point_pass acquire view key target) as [[[best|]|e]|]; cbn [mbind option_bind fmap option_fmap option_map] in *; [| | |done].
  - pose proof (proj1 (candidate_Some _ _ _ _ (proj1 Hu)) Hp) as (Hin & _). pose proof (proj1 (Forall_forall _ _) Hwf _ Hin) as [Hseq _].
    unfold point_outcome. rewrite (visible_candidate key target u Hu), Hp. destruct (Byte.eqb _ KindTxnAbort); [|eexists; split; [done|]; by exists (c_entry best)].
    destruct (Z.eqb_spec (sequence (c_entry best).1) 0) as [|Hne]; [eexists; split; [done|]; by left|]. rewrite u64_id by (unfold is_u64 in *; lia). apply IH.
    pose proof (relevant_count key target u _ Hp (proj1 Hu)). lia.
  - eexists. split; [done|]. left. split; [done|]. by rewrite visible_candidate, Hp.
  - eexists. split; [done|]. by right.
Qed.
End views.
