(* ===== verification/EngineScan.v ===== *)
(** * What scans and exports of the engine return (storage/engine/read.go)

    The rows of a scan are, in order, the visible version of every user key of
    the range; an export is every version of the range. *)

From S2P Require Import Prelude InternalKey Batch Loops Files Wal MvccStore SSTable SSTableBlock SSTableWriter SSTableReader SSTableReads SSTableIterators MemTable MemTableProofs MemTableProps Heap Merge MergeProofs MergeInputs Manifest ManifestCodec ManifestVersion ManifestApply ManifestProps ManifestStore Compaction CompactionPlan CompactionBuild CompactionProps Command StateMachine EngineRead EngineView EngineReadProofs.
Import manifest version store read.

(** ** The rows of a scan *)

Fixpoint users (l : MvccStore.store) : list bytes :=
  match l with
  | [] => []
  | e :: l => userKey e.1 :: filter (fun u => u <> userKey e.1) (users l)
  end.
Definition row (target : Z) (l : MvccStore.store) (user : bytes) : option MVCCVersion := version_of <$> visible user target l.
Definition rows (target : Z) (l : MvccStore.store) : list MVCCVersion := omap (row target l) (users l).

Definition others (user : bytes) (l : MvccStore.store) : MvccStore.store := filter (fun e => userKey e.1 <> user) l.
Lemma users_others user l : users (others user l) = filter (fun u => u <> user) (users l).
Proof.
  induction l as [|e l IH]; [done|]. unfold others. rewrite filter_cons. cbn [users]. destruct (decide (userKey e.1 <> user)) as [Hne|He].
  - cbn [users]. fold (others user l). rewrite IH, filter_cons_True by done. f_equal. rewrite !list_filter_filter. apply list_filter_iff. tauto.
  - fold (others user l). rewrite IH, filter_cons_False by done. rewrite list_filter_filter. apply list_filter_iff. apply dec_stable in He. subst user. tauto.
Qed.
Lemma visible_other user target e l : userKey e.1 <> user -> visible user target (e :: l) = visible user target l.
Proof. intros Hne. cbn. assert (relevant user target e.1 = false) as ->; [|done]. apply not_true_is_false. by intros [? _]%relevant_spec. Qed.
Lemma visible_others user user' target l : user' <> user -> visible user' target (others user l) = visible user' target l.
Proof.
  intros Hne. revert target. induction l as [|e l IH]; intros target; [done|]. unfold others. rewrite filter_cons. destruct (decide _) as [Hu|Hu]; fold (others user l).
  - cbn. rewrite !IH. done.
  - rewrite IH, visible_other; [done|]. apply dec_stable in Hu. congruence.
Qed.
Lemma users_other l user : user ∈ users (others user l) -> False.
Proof. rewrite users_others, list_elem_of_filter. tauto. Qed.
(** The rows of a list, the first user key apart. *)
Lemma rows_cons target e l :
  rows target (e :: l) = option_list (row target (e :: l) (userKey e.1)) ++ rows target (others (userKey e.1) l).
Proof.
  unfold rows. cbn [users]. rewrite <- users_others. cbn [omap list_omap].
  assert (omap (row target (e :: l)) (users (others (userKey e.1) l)) = omap (row target (others (userKey e.1) l)) (users (others (userKey e.1) l))) as ->.
  { assert (forall us : list bytes, userKey e.1 ∉ us -> omap (row target (e :: l)) us = omap (row target (others (userKey e.1) l)) us) as H; [|apply H; intros Hin; by apply users_other in Hin].
    intros us. induction us as [|u us IH]; intros Hin; [done|]. cbn [omap list_omap]. rewrite not_elem_of_cons in Hin. destruct Hin as [Hu Hin].
    assert (row target (e :: l) u = row target (others (userKey e.1) l) u) as ->; [|by rewrite IH]. unfold row. by rewrite visible_other, visible_others by done. }
  by destruct (row target (e :: l) (userKey e.1)).
Qed.

(** Repeated entries change no read. *)
Lemma visible_repeated user target e l : visible user target (e :: e :: l) = visible user target (e :: l).
Proof.
  cbn. destruct (relevant user target e.1); [|done]. destruct (Byte.eqb _ _); [|done].
  assert (relevant user (sequence e.1 - 1) e.1 = false) as ->; [|done]. unfold relevant. apply andb_false_iff. right. apply Z.leb_gt. lia.
Qed.
Lemma users_repeated e l : users (e :: e :: l) = users (e :: l).
Proof. cbn [users]. rewrite filter_cons_False by tauto. f_equal. rewrite list_filter_filter. apply list_filter_iff. tauto. Qed.

(** ** Lists of entries with repetitions *)

Definition functional (l : MvccStore.store) : Prop := forall e e', e ∈ l -> e' ∈ l -> e.1 = e'.1 -> e = e'.
Lemma repeated_head e l : weakly_sorted (e :: l) -> functional (e :: l) -> e ∈ l -> exists l', l = e :: l'.
Proof.
  intros Hs Hf Hin. destruct l as [|x l]; [by apply not_elem_of_nil in Hin|]. exists l. f_equal. apply Hf; [by right; left|left|].
  apply elem_of_cons in Hin as [->|Hin]; [done|]. apply StronglySorted_inv in Hs as [Hs Hx]. apply Forall_cons in Hx as [Hex _].
  apply StronglySorted_inv in Hs as [_ Hx]. rewrite Forall_forall in Hx. specialize (Hx e Hin). unfold key_le in *.
  apply compare_eq. destruct (CompareInternal x.1 e.1) eqn:Hc; [done| |done]. by rewrite compare_antisym, Hc in Hex.
Qed.
Lemma functional_tail e l : functional (e :: l) -> functional l.
Proof. intros Hf a b Ha Hb. apply Hf; by right. Qed.
Lemma remove_dups_reads l : weakly_sorted l -> functional l ->
  (forall user target, visible user target (remove_dups l) = visible user target l) /\ users (remove_dups l) = users l.
Proof.
  induction 1 as [|e l Hs IH Hx]; intros Hf; [done|]. destruct IH as [IHv IHu]; [by eapply functional_tail|]. cbn [remove_dups]. destruct (decide_rel _ e l) as [Hin|Hin].
  - destruct (repeated_head e l) as [l' ->]; [by constructor|done|done|]. split; [|by rewrite IHu, users_repeated]. intros user target. by rewrite IHv, visible_repeated.
  - split; [|cbn [users]; by rewrite IHu]. intros user target. cbn. by rewrite !IHv.
Qed.
Lemma remove_dups_sorted l : weakly_sorted l -> functional l -> store_sorted (remove_dups l).
Proof.
  induction 1 as [|e l Hs IH Hx]; intros Hf; [constructor|]. specialize (IH (functional_tail _ _ Hf)). cbn [remove_dups]. destruct (decide_rel _ e l) as [Hin|Hin]; [done|].
  constructor; [done|]. apply Forall_forall. intros x Hxin. rewrite elem_of_remove_dups in Hxin. rewrite Forall_forall in Hx. specialize (Hx x Hxin). unfold key_le in Hx.
  unfold entry_lt, key_lt. destruct (CompareInternal e.1 x.1) eqn:Hc; [|done|done]. apply compare_eq in Hc. destruct Hin. by rewrite (Hf e x) by (done || left || by right).
Qed.
Lemma sorted_ext l l' : store_sorted l -> store_sorted l' -> (forall e, e ∈ l <-> e ∈ l') -> l = l'.
Proof.
  intros Hs. revert l'. induction Hs as [|e l Hs IH Hx]; intros l' Hs' Heq.
  - destruct l' as [|x l']; [done|]. exfalso. apply (not_elem_of_nil x), Heq. left.
  - destruct Hs' as [|x l' Hs' Hx']; [exfalso; apply (not_elem_of_nil e), Heq; left|]. rewrite Forall_forall in Hx, Hx'.
    assert (e = x) as ->.
    { assert (e ∈ x :: l') as [He|He]%elem_of_cons by (apply Heq; left); [done|]. assert (x ∈ e :: l) as [Hxe|Hxe]%elem_of_cons by (apply Heq; left); [done|].
      exfalso. apply (key_lt_irrefl e.1). eapply key_lt_trans; [apply (Hx x Hxe)|apply (Hx' e He)]. }
    f_equal. apply IH; [done|]. intros e. specialize (Heq e). rewrite !elem_of_cons in Heq. split; intros He.
    + destruct Heq as [Heq _]. destruct Heq as [->|?]; [by right| |done]. exfalso. by apply (key_lt_irrefl x.1), (Hx x).
    + destruct Heq as [_ Heq]. destruct Heq as [->|?]; [by right| |done]. exfalso. by apply (key_lt_irrefl x.1), (Hx' x).
Qed.

(** A later cursor repeats the key of an earlier one. *)
Definition clashes (cs : list merge.cursor) : Prop :=
  exists x c, [x; c] `sublist_of` cs /\ conflict (merge.cu_file c, merge.cu_entry c) (merge.cu_file x, merge.cu_entry x).
Lemma clashes_at pre x c rest : x ∈ pre -> conflict (merge.cu_file c, merge.cu_entry c) (merge.cu_file x, merge.cu_entry x) -> clashes (pre ++ c :: rest).
Proof.
  intros Hx Hc. exists x, c. split; [|done]. apply (sublist_app [x] pre [c]); [by apply singleton_sublist_l|]. constructor. apply sublist_nil_l.
Qed.

(** ** The loop of a scan *)

Lemma bytes_not_lt a b : ~ bytes_lt a b -> ~ bytes_lt b a -> b = a.
Proof. unfold bytes_lt. rewrite (bytes_compare_antisym a b). intros H1 H2. symmetry. apply bytes_compare_eq. by destruct (bytes_compare a b). Qed.
Section scan.
Context (cancelled : nat -> bool) (target : Z).
Definition checked (s : scan) : scan := mkScan (s_values s) (s_currentUser s) (s_haveUser s) (s_selected s) (s_haveSelected s) (S (s_checks s)).
Definition scan_step (s : scan) (c : merge.cursor) : scan + errors :=
  if cancelled (s_checks s) then inr [] else scan_entry target (merge.cu_entry c) (merge.cu_file c) (checked s).
Lemma scan_body_step s (m : merge.MergeIterator (memtable.Iterator + table_iterator) sstable.sst_error) x :
  merge.Entry m = Some (merge.cu_entry x) -> merge.SourceFileNumber m = Some (merge.cu_file x) -> scan_body cancelled target s m = scan_step s x.
Proof. intros HE HS. unfold scan_body, scan_step. by rewrite HE, HS. Qed.

(** What [user]'s row will be when the entries [rest] follow the selected one. *)
Definition visible_from (user : bytes) (selected : option entry) (rest : MvccStore.store) : option entry :=
  match selected with
  | None => visible user target rest
  | Some e => if Byte.eqb (kind e.1) KindTxnAbort then if sequence e.1 =? 0 then None else visible user (sequence e.1 - 1) rest else Some e
  end.
Definition selection (s : scan) : option entry := if s_haveSelected s then Some (c_entry (s_selected s)) else None.
(** The rows of the whole scan, from the state before [rest]. *)
Definition scan_rows (s : scan) (rest : MvccStore.store) : list MVCCVersion :=
  s_values s ++
  (if s_haveUser s then option_list (version_of <$> visible_from (s_currentUser s) (selection s) rest) ++ rows target (others (s_currentUser s) rest)
   else rows target rest).
Record scan_inv (pre : list merge.cursor) (s : scan) : Prop := {
  si_user : s_haveUser s = true -> exists x, x ∈ pre /\ userKey (merge.cu_entry x).1 = s_currentUser s;
  si_selected : s_haveSelected s = true -> s_haveUser s = true /\
    exists x, x ∈ pre /\ s_selected s = mkCand (merge.cu_entry x) (merge.cu_file x) /\ userKey (merge.cu_entry x).1 = s_currentUser s /\
      sequence (merge.cu_entry x).1 <= target
}.
Lemma scan_rows_end s : s_haveUser s = true -> scan_rows s [] = s_values s ++ option_list (version_of <$> visible_from (s_currentUser s) (selection s) []).
Proof. intros Hu. unfold scan_rows. rewrite Hu. change (rows target (others (s_currentUser s) [])) with (@nil MVCCVersion). by rewrite app_nil_r. Qed.
Lemma emit_rows s pre : scan_inv pre s -> s_haveUser s = true -> s_values (emit s) = scan_rows s [].
Proof.
  intros Hi Hu. rewrite scan_rows_end by done. unfold emit, selection. cbn [s_values].
  destruct (s_haveSelected s) eqn:Hs; cbn [andb visible_from fmap option_fmap option_map option_list visible]; [|by rewrite app_nil_r].
  destruct (si_selected _ _ Hi Hs) as (_ & x & _ & -> & Hx & _). cbn [c_entry]. destruct (Byte.eqb _ KindTxnAbort); cbn [negb]; [|unfold version_of; cbn; by rewrite Hx].
  destruct (_ =? 0); cbn; by rewrite app_nil_r.
Qed.
Lemma no_user user sel l : (forall e, e ∈ l -> userKey e.1 <> user) -> others user l = l /\ visible_from user sel l = visible_from user sel [].
Proof.
  intros Hne. assert (forall t, visible user t l = None) as Hv.
  { intros t. induction l as [|e l IH]; [done|]. rewrite visible_other by (apply Hne; left). apply IH. intros x Hx. apply Hne. by right. }
  split; [|unfold visible_from; destruct sel as [e|]; rewrite ?Hv; done]. unfold others. apply filter_all, Forall_forall. intros e He. by apply Hne.
Qed.
(** The step to the next user key. *)
Definition switched (s : scan) (user : bytes) : scan :=
  if negb (s_haveUser s) || negb (bytes_eqb (s_currentUser s) user)
  then let s := if s_haveUser s then emit s else s in mkScan (s_values s) user true (s_selected s) (s_haveSelected s) (s_checks s)
  else s.
Lemma switched_spec pre s (e : entry) rest : scan_inv pre s -> weakly_sorted ((merge.cu_entry <$> pre) ++ e :: rest) ->
  scan_rows (switched s (userKey e.1)) (e :: rest) = scan_rows s (e :: rest) /\ s_haveUser (switched s (userKey e.1)) = true /\
  s_currentUser (switched s (userKey e.1)) = userKey e.1 /\
  (s_haveSelected (switched s (userKey e.1)) = true -> switched s (userKey e.1) = s).
Proof.
  intros Hi Hs. unfold switched. destruct (s_haveUser s) eqn:Hu; cbn [negb orb].
  - destruct (bytes_eqb (s_currentUser s) (userKey e.1)) eqn:Heq; cbn [negb]; [apply bytes_eqb_eq in Heq; done|]. apply bytes_eqb_neq in Heq.
    split; [|done]. unfold scan_rows at 1. unfold selection at 1. cbn [s_values s_haveUser s_currentUser s_haveSelected]. rewrite (emit_rows s pre) by done.
    change (s_haveSelected (emit s)) with false.
    assert (forall x, x ∈ e :: rest -> userKey x.1 <> s_currentUser s) as Hne.
    { destruct (si_user _ _ Hi Hu) as (p & Hp & Hpu). apply StronglySorted_app in Hs as (Hcross & _ & Hs). apply StronglySorted_inv in Hs as [_ Hs]. rewrite Forall_forall in Hs.
      pose proof (Hcross (merge.cu_entry p) e ltac:(by apply list_elem_of_fmap_2) ltac:(left)) as Hpe. intros x Hx Hxu.
      assert (key_le e.1 x.1) as Hex by (apply elem_of_cons in Hx as [->|Hx]; [unfold key_le; by rewrite compare_refl|by apply Hs]).
      apply key_le_user in Hpe, Hex. apply Heq. rewrite <- Hpu in *. rewrite Hxu in Hex. by apply bytes_not_lt. }
    destruct (no_user (s_currentUser s) (selection s) _ Hne) as [Ho Hv]. rewrite scan_rows_end by done. unfold scan_rows. rewrite Hu, Ho, Hv, <- app_assoc. f_equal. f_equal.
    rewrite rows_cons. unfold row. unfold others at 1. by rewrite filter_cons_False by tauto.
  - assert (s_haveSelected s = false) as Hsel by (destruct (s_haveSelected s) eqn:Hsel; [|done]; destruct (si_selected _ _ Hi Hsel); congruence).
    cbn [s_haveSelected]. split; [|split; [done|split; [done|congruence]]]. unfold scan_rows. rewrite Hu. cbn [s_values s_haveUser s_currentUser selection s_haveSelected]. rewrite Hsel. f_equal.
    rewrite rows_cons. unfold row. unfold others at 1. by rewrite filter_cons_False by tauto.
Qed.
(** The rest of the step. *)
Definition chosen (e : entry) (file : Z) (s : scan) : scan + errors :=
  if target <? sequence e.1 then inl s
  else
    let value := mkCand e file in
    if negb (s_haveSelected s) then inl (select_cand value s)
    else
      let selected := c_entry (s_selected s) in
      if sequence e.1 =? sequence selected.1 then
        if negb (Byte.eqb (kind e.1) (kind selected.1))
        then inl (if byte.unsigned (kind e.1) <? byte.unsigned (kind selected.1) then select_cand value s else s)
        else if negb (bytes_eqb e.2 selected.2) || (file =? 0) || negb (file =? c_fileNumber (s_selected s))
        then inr [Eng ErrCorruption; Eng ErrDuplicateEntry]
        else inl s
      else if Byte.eqb (kind selected.1) KindTxnAbort then inl (select_cand value s)
      else inl s.
(** Only the selection changes, so that the row of the user does not. *)
Lemma same_rows s s' e rest : s_haveUser s = true -> s_currentUser s = userKey e.1 ->
  s_values s' = s_values s -> s_haveUser s' = true -> s_currentUser s' = s_currentUser s ->
  visible_from (userKey e.1) (selection s') rest = visible_from (userKey e.1) (selection s) (e :: rest) -> scan_rows s' rest = scan_rows s (e :: rest).
Proof.
  intros Hu Hc Hv Hu' Hc' Hrow. unfold scan_rows. rewrite Hu, Hu', Hv, Hc', Hc, Hrow. unfold others at 2. by rewrite filter_cons_False by tauto.
Qed.
Lemma chosen_rows e file s rest : s_haveUser s = true -> s_currentUser s = userKey e.1 -> 0 <= sequence e.1 ->
  (s_haveSelected s = true -> key_le (c_entry (s_selected s)).1 e.1 /\ userKey (c_entry (s_selected s)).1 = userKey e.1 /\ sequence (c_entry (s_selected s)).1 <= target) ->
  match chosen e file s with
  | inl s' => scan_rows s' rest = scan_rows s (e :: rest)
  | inr err => s_haveSelected s = true /\ conflict (file, e) (c_fileNumber (s_selected s), c_entry (s_selected s))
  end.
Proof.
  intros Hu Hc H0 Hsel. unfold chosen. assert (forall t, relevant (userKey e.1) t e.1 = (sequence e.1 <=? t)) as Hrel by (intros t; unfold relevant; by rewrite bytes_eqb_refl).
  destruct (Z.ltb_spec target (sequence e.1)) as [Hlt|Hge].
  { apply same_rows; [done..|]. unfold selection. destruct (s_haveSelected s); unfold visible_from.
    - destruct (Hsel eq_refl) as (_ & _ & Ht). destruct (Byte.eqb _ _); [|done]. destruct (_ =? 0); [done|]. cbn [visible]. by rewrite Hrel, (proj2 (Z.leb_gt _ _)) by lia.
    - cbn [visible]. by rewrite Hrel, (proj2 (Z.leb_gt _ _)) by lia. }
  destruct (s_haveSelected s) eqn:Hs; cbn [negb].
  2: { apply same_rows; [done..|]. unfold selection. rewrite Hs. cbn [select_cand s_haveSelected s_selected c_entry visible_from visible].
       rewrite Hrel, (proj2 (Z.leb_le _ _)) by done. destruct (Byte.eqb _ _); [|done]. destruct (Z.eqb_spec (sequence e.1) 0); done. }
  destruct (Hsel eq_refl) as (Hle & Huser & Ht). set (x := c_entry (s_selected s)) in *. clear Hsel.
  unfold key_le, CompareInternal in Hle. rewrite Huser, bytes_compare_refl in Hle.
  destruct (Z.eqb_spec (sequence e.1) (sequence x.1)) as [Heq|Hne].
  - rewrite Heq, Z.ltb_irrefl in Hle. assert (scan_rows s rest = scan_rows s (e :: rest)) as Hkeep.
    { apply same_rows; [done..|]. unfold selection. rewrite Hs. fold x. cbn [visible_from visible]. destruct (Byte.eqb _ _); [|done]. destruct (_ =? 0); [done|].
      rewrite Hrel, (proj2 (Z.leb_gt _ _)) by lia. done. }
    destruct (Byte.eqb (kind e.1) (kind x.1)) eqn:Hk; cbn [negb].
    + apply Byte.byte_dec_bl in Hk. assert (e.1 = x.1) as Hkey by (destruct e as [[] ?], x as [[] ?]; cbn in *; f_equal; congruence).
      destruct (_ || _) eqn:Hf; [|done]. split; [done|]. split; [done|]. cbn. rewrite !orb_true_iff, !negb_true_iff, bytes_eqb_neq, Z.eqb_eq, Z.eqb_neq in Hf. tauto.
    + destruct (Z.ltb_spec (byte.unsigned (kind e.1)) (byte.unsigned (kind x.1))) as [Hlt|]; [|done]. exfalso.
      rewrite (proj2 (Z.ltb_ge (byte.unsigned (kind x.1)) _)) in Hle by lia. done.
  - assert (sequence e.1 < sequence x.1) as Hlt.
    { destruct (Z.ltb_spec (sequence x.1) (sequence e.1)); [|lia]. exfalso. apply Hle. destruct (Z.ltb_spec (sequence e.1) (sequence x.1)); [lia|done]. }
    destruct (Byte.eqb (kind x.1) KindTxnAbort) eqn:Ha; apply same_rows; try done; unfold selection; rewrite Hs; fold x; cbn [select_cand s_haveSelected s_selected c_entry visible_from]; rewrite Ha; [|done].
    rewrite (proj2 (Z.eqb_neq (sequence x.1) 0)) by lia. cbn [visible]. rewrite Hrel, (proj2 (Z.leb_le _ _)) by lia.
    destruct (Byte.eqb (kind e.1) KindTxnAbort); [|done]. destruct (Z.eqb_spec (sequence e.1) 0); done.
Qed.
(** The selected candidate was read from a cursor of [pre]. *)
Definition selected_from (pre : list merge.cursor) (user : bytes) (s : scan) : Prop :=
  s_haveSelected s = true -> exists x, x ∈ pre /\ s_selected s = mkCand (merge.cu_entry x) (merge.cu_file x) /\ userKey (merge.cu_entry x).1 = user /\
    sequence (merge.cu_entry x).1 <= target.
Lemma chosen_inv pre s s' c : chosen (merge.cu_entry c) (merge.cu_file c) s = inl s' -> s_haveUser s = true -> s_currentUser s = userKey (merge.cu_entry c).1 ->
  selected_from pre (userKey (merge.cu_entry c).1) s -> scan_inv (pre ++ [c]) s'.
Proof.
  intros Hch Hu Hc Hsel. assert (scan_inv (pre ++ [c]) s) as Hold.
  { split; [intros _; exists c; split; [set_solver|done]|]. intros Hs. destruct (Hsel Hs) as (x & Hx & ?). split; [done|]. exists x. rewrite Hc. split; [set_solver|done]. }
  assert (sequence (merge.cu_entry c).1 <= target -> scan_inv (pre ++ [c]) (select_cand (mkCand (merge.cu_entry c) (merge.cu_file c)) s)) as Hnew.
  { intros Ht. split; [apply Hold|]. intros _. split; [done|]. exists c. split; [set_solver|]. done. }
  unfold chosen in Hch. destruct (Z.ltb_spec target (sequence (merge.cu_entry c).1)) as [|Hle]; [by injection Hch as <-|]. specialize (Hnew Hle).
  repeat case_match; simplify_eq; done.
Qed.
Lemma scan_step_spec pre s c rest : scan_inv pre s -> weakly_sorted ((merge.cu_entry <$> pre) ++ merge.cu_entry c :: rest) -> 0 <= sequence (merge.cu_entry c).1 ->
  match scan_step s c with
  | inl s' => scan_rows s' rest = scan_rows s (merge.cu_entry c :: rest) /\ scan_inv (pre ++ [c]) s'
  | inr err => cancelled (s_checks s) = true \/ exists x, x ∈ pre /\ conflict (merge.cu_file c, merge.cu_entry c) (merge.cu_file x, merge.cu_entry x)
  end.
Proof.
  intros Hi Hs H0. unfold scan_step. destruct (cancelled (s_checks s)); [by left|]. assert (scan_inv pre (checked s)) as Hi' by (split; apply Hi).
  assert (scan_rows s (merge.cu_entry c :: rest) = scan_rows (checked s) (merge.cu_entry c :: rest)) as -> by done. generalize dependent (checked s). clear s Hi. intros s Hi.
  set (e := merge.cu_entry c) in *. set (file := merge.cu_file c). change (scan_entry target e file s) with (chosen e file (switched s (userKey e.1))).
  destruct (switched_spec pre s e rest Hi Hs) as (Hrows & Hu & Hc & Hsel). rewrite <- Hrows. set (s1 := switched s (userKey e.1)) in *.
  assert (scan_inv pre s1 \/ s_haveSelected s1 = false) as Hi1 by (destruct (s_haveSelected s1); [rewrite Hsel by done; by left|by right]).
  assert (selected_from pre (userKey e.1) s1) as Hx.
  { intros Hs1. destruct Hi1 as [Hi1|]; [|congruence]. destruct (si_selected _ _ Hi1 Hs1) as (_ & x & ? & ? & ? & ?). exists x. rewrite <- Hc. done. }
  pose proof (chosen_rows e file s1 rest Hu Hc H0) as Hch. destruct (chosen e file s1) as [s'|err] eqn:Hch'.
  - split.
    + apply Hch. intros (x & Hxp & -> & Hxu & Hxt)%Hx. cbn. split; [|done]. apply StronglySorted_app in Hs as (Hcross & _). apply Hcross; [by apply list_elem_of_fmap_2|left].
    + by eapply chosen_inv.
  - destruct Hch as [Hs1 Hconf].
    + intros (x & Hxp & -> & Hxu & Hxt)%Hx. cbn. split; [|done]. apply StronglySorted_app in Hs as (Hcross & _). apply Hcross; [by apply list_elem_of_fmap_2|left].
    + right. destruct (Hx Hs1) as (x & Hxp & Heq & _). exists x. split; [done|]. by rewrite Heq in Hconf.
Qed.
Lemma scan_fold cs : forall pre s, scan_inv pre s -> weakly_sorted (merge.cu_entry <$> pre ++ cs) -> Forall (fun c => 0 <= sequence (merge.cu_entry c).1) cs ->
  match fold_until scan_step s cs with
  | inl s' => scan_rows s' [] = scan_rows s (merge.cu_entry <$> cs) /\ scan_inv (pre ++ cs) s'
  | inr err => (exists n, cancelled n = true) \/ clashes (pre ++ cs)
  end.
Proof.
  induction cs as [|c cs IH]; intros pre s Hi Hs H0; cbn [fold_until]; [by rewrite app_nil_r|]. apply Forall_cons in H0 as [Hc0 H0].
  assert (weakly_sorted ((merge.cu_entry <$> pre) ++ merge.cu_entry c :: (merge.cu_entry <$> cs))) as Hs' by (by rewrite fmap_app in Hs).
  pose proof (scan_step_spec pre s c (merge.cu_entry <$> cs) Hi Hs' Hc0) as Hstep. destruct (scan_step s c) as [s'|err].
  - destruct Hstep as [Hr Hi']. specialize (IH (pre ++ [c]) s' Hi'). rewrite <- app_assoc in IH. cbn [app] in IH. specialize (IH Hs H0).
    cbn [fmap list_fmap]. rewrite <- Hr. exact IH.
  - destruct Hstep as [Hc|(x & Hx & Hconf)]; [left; eauto|right]. by eapply clashes_at.
Qed.
Lemma scan_all cs : weakly_sorted (merge.cu_entry <$> cs) -> Forall (fun c => 0 <= sequence (merge.cu_entry c).1) cs ->
  match fold_until scan_step scan_start cs with
  | inl s => s_values (if s_haveUser s then emit s else s) = rows target (merge.cu_entry <$> cs)
  | inr err => (exists n, cancelled n = true) \/ clashes cs
  end.
Proof.
  intros Hs H0. pose proof (scan_fold cs [] scan_start) as Hf. cbn [app] in Hf. destruct (fold_until scan_step scan_start cs) as [s|err]; [|by apply Hf].
  destruct Hf as [Hr Hi]; [done..|]. change (scan_rows scan_start (merge.cu_entry <$> cs)) with (rows target (merge.cu_entry <$> cs)) in Hr. rewrite <- Hr.
  destruct (s_haveUser s) eqn:Hu; [by eapply emit_rows|]. unfold scan_rows. rewrite Hu. change (rows target []) with (@nil MVCCVersion). by rewrite app_nil_r.
Qed.
End scan.

(** ** The loop of an export *)

Section export.
Context (cancelled : nat -> bool).
Definition export_step (s : export) (c : merge.cursor) : export + errors :=
  if cancelled (x_checks s) then inr []
  else
    let e := merge.cu_entry c in
    match x_previous s with
    | Some previous =>
        match CompareInternal previous.1 e.1 with
        | Eq => if negb (bytes_eqb previous.2 e.2) then inr [Eng ErrCorruption; Eng ErrDuplicateEntry] else inl (mkExport (x_result s) (x_previous s) (S (x_checks s)))
        | _ => inl (mkExport (x_result s ++ [version_of e]) (Some e) (S (x_checks s)))
        end
    | None => inl (mkExport (x_result s ++ [version_of e]) (Some e) (S (x_checks s)))
    end.
Lemma export_body_step s (m : merge.MergeIterator (memtable.Iterator + table_iterator) sstable.sst_error) x :
  merge.Entry m = Some (merge.cu_entry x) -> merge.SourceFileNumber m = Some (merge.cu_file x) -> export_body cancelled s m = export_step s x.
Proof. intros HE _. unfold export_body, export_step. by rewrite HE. Qed.
(** The distinct entries of [pre] were exported. *)
Definition exported (pre : list merge.cursor) (s : export) : Prop :=
  exists d, store_sorted d /\ (forall e, e ∈ d <-> e ∈ merge.cu_entry <$> pre) /\ x_result s = version_of <$> d /\ x_previous s = list.last d.
Lemma sorted_append (d : MvccStore.store) e : store_sorted d -> (forall p, list.last d = Some p -> key_lt p.1 e.1) -> store_sorted (d ++ [e]).
Proof.
  intros Hs Hl. apply StronglySorted_app. split; [|split; [done|repeat constructor]]. intros x y Hx ->%list_elem_of_singleton.
  destruct (list.last d) as [p|] eqn:Hp; [|apply last_None in Hp; subst d; by apply not_elem_of_nil in Hx]. specialize (Hl p eq_refl).
  apply last_Some in Hp as [d' ->]. apply elem_of_app in Hx as [Hx| ->%list_elem_of_singleton]; [|done].
  apply StronglySorted_app in Hs as (Hcross & _). eapply key_lt_trans; [|exact Hl]. apply (Hcross x p Hx). by apply list_elem_of_singleton.
Qed.
Lemma export_step_spec pre s c : exported pre s -> weakly_sorted (merge.cu_entry <$> pre ++ [c]) ->
  match export_step s c with
  | inl s' => exported (pre ++ [c]) s'
  | inr err => cancelled (x_checks s) = true \/ exists x, x ∈ pre /\ conflict (merge.cu_file c, merge.cu_entry c) (merge.cu_file x, merge.cu_entry x)
  end.
Proof.
  intros (d & Hs & Hel & Hr & Hp) Hw. unfold export_step. destruct (cancelled (x_checks s)); [by left|]. set (e := merge.cu_entry c).
  assert ((forall p, list.last d = Some p -> key_lt p.1 e.1) -> exported (pre ++ [c]) (mkExport (x_result s ++ [version_of e]) (Some e) (S (x_checks s)))) as Hnew.
  { intros Hlast. exists (d ++ [e]). split; [by apply sorted_append|]. split; [|split; [cbn; by rewrite fmap_app, Hr|by rewrite last_snoc]].
    intros x. rewrite fmap_app, !elem_of_app, Hel. done. }
  rewrite Hp. destruct (list.last d) as [p|] eqn:Hl; [|by apply Hnew].
  assert (p ∈ merge.cu_entry <$> pre) as Hpin by (apply Hel; apply last_Some in Hl as [d' ->]; set_solver).
  rewrite fmap_app in Hw. apply StronglySorted_app in Hw as (Hcross & _). pose proof (Hcross p e Hpin ltac:(by apply list_elem_of_singleton)) as Hle. unfold key_le in Hle.
  destruct (CompareInternal p.1 e.1) eqn:Hc; [|apply Hnew; by intros ? [= <-]|done]. apply compare_eq in Hc. destruct (bytes_eqb p.2 e.2) eqn:Hv; cbn [negb].
  - apply bytes_eqb_eq in Hv. assert (p = e) as -> by (destruct p, e; cbn in *; congruence). exists d. split; [done|]. split; [|done].
    intros x. rewrite fmap_app, elem_of_app, Hel. cbn. fold e. rewrite list_elem_of_singleton. split; [by left|]. by intros [?| ->].
  - apply bytes_eqb_neq in Hv. right. apply list_elem_of_fmap in Hpin as (x & -> & Hx). exists x. split; [done|]. split; [done|]. cbn. left. congruence.
Qed.
Lemma export_fold cs : forall pre s, exported pre s -> weakly_sorted (merge.cu_entry <$> pre ++ cs) ->
  match fold_until export_step s cs with
  | inl s' => exported (pre ++ cs) s'
  | inr err => (exists n, cancelled n = true) \/ clashes (pre ++ cs)
  end.
Proof.
  induction cs as [|c cs IH]; intros pre s He Hs; cbn [fold_until]; [by rewrite app_nil_r|]. rewrite cons_middle, app_assoc in *.
  pose proof (export_step_spec pre s c He) as Hstep. destruct (export_step s c) as [s'|err].
  - apply IH; [|done]. apply Hstep. rewrite fmap_app in Hs. by apply StronglySorted_app in Hs as (_ & ? & _).
  - destruct Hstep as [Hc|(x & Hx & Hconf)]; [rewrite fmap_app in Hs; by apply StronglySorted_app in Hs as (_ & ? & _)|left; eauto|right]. rewrite <- app_assoc. by eapply clashes_at.
Qed.
End export.

(** ** A loop over the merge of the inputs *)

Abbreviation input := (merge.MergeInput (memtable.Iterator + table_iterator)).
Lemma over_merge_spec {St A} (inputs : list input) ls (body : St -> merge.MergeIterator (memtable.Iterator + table_iterator) sstable.sst_error -> St + errors)
    (body' : St -> merge.cursor -> St + errors) fuel s (finish : St -> A) releases :
  Forall2 ready inputs ls -> (length (concat ls) < fuel)%nat ->
  (forall s m x, merge.Entry m = Some (merge.cu_entry x) -> merge.SourceFileNumber m = Some (merge.cu_file x) -> body s m = body' s x) ->
  exists r, over_merge fuel body s finish inputs releases = Some r /\
    match r with
    | Ok a => releases = [] /\ exists s', fold_until body' s (merge_order (pending inputs ls)) = inl s' /\ a = finish s'
    | Err _ => releases <> [] \/ Exists input_may_fail inputs \/ exists e, fold_until body' s (merge_order (pending inputs ls)) = inr e
    end.
Proof.
  intros Hready Hfuel Hbody. unfold over_merge. assert (forall (x : eres A), exists r, Some (join x releases) = Some r /\ match r with Ok a => releases = [] /\ x = Ok a | Err _ => releases <> [] \/ exists e, x = Err e end) as Hjoin.
  { intros x. exists (join x releases). split; [done|]. destruct x as [a|e], releases as [|r rs]; cbn; eauto. }
  destruct (NewMergeIterator_spec inputs ls Hready) as [(m & -> & Hm & Hl & Hfail)|(err & -> & Hfail)]; cbn [mbind option_bind].
  2: { destruct (Hjoin (Err (merge_failure <$> err))) as (r & -> & Hr). exists r. split; [done|]. destruct r as [a|e]; [by destruct Hr|]. auto. }
  destruct (for_each_merge body body' Hbody fuel s m (pending inputs ls) Hm) as (r & m' & Hfe & Hcase).
  { enough (length (concat (pending inputs ls)) = length (concat ls)) by lia. rewrite <- (length_fmap merge.cu_entry). rewrite pending_entries; [done|]. by eapply Forall2_length. }
  rewrite Hfe. cbn [mbind option_bind]. destruct (Close_ok m' (for_each_live body fuel s m r m' Hl Hfe)) as [m'' ->]. cbn [mbind option_bind fmap list_fmap].
  match goal with |- context [join (join ?x []) releases] => assert (join x [] = x) as -> by (by destruct x); destruct (Hjoin x) as (res & -> & Hres) end.
  exists res. split; [done|]. destruct Hcase as [[Herr ->]|(Herr & Hmf & k & s' & -> & _)].
  - rewrite Herr in Hres. destruct (fold_until body' s _) as [s'|e]; destruct res as [a|e']; cbn in Hres.
    + destruct Hres as [-> [= <-]]. eauto.
    + destruct Hres as [?|[? ?]]; [by left|done].
    + by destruct Hres as [_ ?].
    + destruct Hres; eauto.
  - destruct (merge.m_err m') as [e|]; [|done]. destruct res as [a|e']; [by destruct Hres|]. auto.
Qed.

(** ** The inputs of a view *)

Lemma Files_all_live v : version_ok v -> Files_all v = Ok (live v).
Proof.
  intros Hv. unfold Files_all. pose proof (Files_level v Hv) as Hfiles.
  rewrite live_levels by done. change (Z.to_nat MaxLevels) with 8%nat. assert (Forall (fun i => i < 8)%nat (seq 0 8)) as Hls by (apply Forall_seq; intros j Hj; lia).
  revert Hls. generalize (seq 0 8). intros ls. assert (forall acc, Forall (fun i => i < 8)%nat ls ->
    foldM (fun tables level => ts ← Files (Z.of_nat level) v; Ok (tables ++ ts)) acc ls = Ok (acc ++ concat ((fun i => level_of (Z.of_nat i) v) <$> ls))) as H; [|intros Hls; by apply H].
  induction ls as [|i ls IH]; intros acc Hls; cbn [foldM]; [cbn; by rewrite app_nil_r|]. apply Forall_cons in Hls as [Hi Hls]. rewrite Hfiles by done. cbn [mbind result_bind].
  rewrite IH by done. cbn [fmap list_fmap concat]. by rewrite app_assoc.
Qed.

Section inputs.
Context (acquire : TableMetadata -> eres (reader.Reader * errors)) (tc : TableMetadata -> MvccStore.store) (view : readView) (Hok : view_ok acquire tc view).
Context (start endKey : option bytes) (Hstart : len (default [] start) <= sstable.MaxUserKeySize) (Hend : len (default [] endKey) <= sstable.MaxUserKeySize).
Context (Hvalid : memtable.invalid_range start endKey = false).
(** An input that lists the range of a source. *)
Definition input_of (i : input) (s : numbered) : Prop := merge.mi_FileNumber i = s.1 /\ ready i (filter (in_range start endKey) s.2).
(** The sources of a scan: tables outside of the range are left out. *)
Definition scanned : list numbered :=
  (memory_source <$> memory view) ++ (table_source tc <$> filter (fun t => tableOverlapsScan t start endKey = true) (live (rv_version view))).
Lemma scanned_sublist : scanned `sublist_of` sources tc view.
Proof. apply sublist_app; [done|]. apply fmap_sublist, sublist_filter. Qed.

Lemma memory_inputs gs : gs ⊆ memory view -> forall inputs, exists new, foldO (addMemory start endKey) inputs gs = Some (Ok (inputs ++ new)) /\
  Forall2 input_of new (memory_source <$> gs) /\ Forall (fun i => ~ input_may_fail i) new.
Proof using Hok Hstart Hend Hvalid.
  induction gs as [|g gs IH]; intros Hin inputs; cbn [foldO]; [exists []; rewrite app_nil_r; by split_and!|].
  pose proof (proj1 (Forall_forall _ _) (vk_memory _ _ _ Hok) g ltac:(set_solver)) as [cs Hr].
  assert (addMemory start endKey inputs g = Some (Ok (inputs ++ [merge.mkInput (rg_FileNumber g) (Some (inl (memtable.newIterator (filter (in_range start endKey) (MemTableProofs.contents (rg_Table g))))))]))) as ->.
  { unfold addMemory. rewrite (MemTableProps.Range_spec _ cs) by done. by rewrite Hvalid. }
  cbn [mbind option_bind]. destruct (IH ltac:(set_solver) (inputs ++ [merge.mkInput (rg_FileNumber g) (Some (inl (memtable.newIterator (filter (in_range start endKey) (MemTableProofs.contents (rg_Table g))))))])) as (new & -> & Hnew & Hf).
  eexists. rewrite <- app_assoc. split; [done|]. cbn [app fmap list_fmap]. split; constructor; [|done| |done].
  - split; [done|]. eexists. split; [done|]. split; [apply new_ahead|]. apply filter_sorted. by apply (MemTableProps.contents_ok _ cs).
  - by intros (it & [= <-] & ?).
Qed.
Lemma range_ordered : match start, endKey with Some s, Some e => bytes_leb s e | _, _ => true end = true.
Proof using Hvalid. clear -Hvalid. unfold memtable.invalid_range in Hvalid. destruct start, endKey; [|done..]. by apply negb_false_iff in Hvalid. Qed.
(** The loop over the tables. *)
Definition tables_ok (pre : list numbered) (s : list input * errors) : Prop :=
  Forall2 input_of s.1 pre /\ (s.2 <> [] -> impaired acquire tc view) /\ (Exists input_may_fail s.1 -> impaired acquire tc view).
Lemma table_inputs ts : ts ⊆ live (rv_version view) -> forall pre s, tables_ok pre s ->
  exists r, foldO (add_table acquire start endKey) s ts = Some r /\
    match r with
    | Ok s' => tables_ok (pre ++ (table_source tc <$> filter (fun t => tableOverlapsScan t start endKey = true) ts)) s'
    | Err _ => impaired acquire tc view
    end.
Proof using Hok Hstart Hend Hvalid.
  induction ts as [|t ts IH]; intros Hin pre [inputs releases] Hs; cbn [foldO]; [eexists; split; [done|]; by rewrite app_nil_r|]. rewrite filter_cons. cbn [add_table].
  assert (t ∈ live (rv_version view)) as Ht by set_solver. assert (ts ⊆ live (rv_version view)) as Hts by set_solver.
  destruct (tableOverlapsScan t start endKey); cbn [negb]; [rewrite decide_True by done|rewrite decide_False by done; cbn [mbind option_bind]; by apply IH].
  assert (unavailable acquire t -> impaired acquire tc view) as Hun by (intros Hu; left; by exists t). unfold unavailable in Hun.
  destruct (acquire t) as [[r release]|e] eqn:Ha; cbn [mbind option_bind]; [|eexists; split; [done|by apply Hun]].
  destruct (table_starts r (tc t) start endKey (vk_acquire _ _ _ Hok t r release Ht Ha) Hstart Hend range_ordered) as [(it & -> & Hit)|(Hf & e & ->)]; cbn [mbind option_bind].
  2: { eexists. split; [done|]. apply Hun. by right. }
  destruct Hs as (Hi & Hrel & Hmf). cbn [fst snd] in *.
  destruct (IH Hts (pre ++ [table_source tc t]) (inputs ++ [merge.mkInput (FileNumber t) (Some (inr {| ti_reader := r; ti_iterator := it |}))], releases ++ release)) as (res & -> & Hres).
  - split_and!; cbn [fst snd].
    + apply Forall2_app; [done|]. constructor; [|done]. split; [done|]. eexists. split; [done|]. split; [done|]. apply filter_sorted, (vk_tables _ _ _ Hok t Ht).
    + intros Hne. destruct releases; [|by apply Hrel]. apply Hun. left. done.
    + intros [Hex|Hex]%Exists_app; [by apply Hmf|]. apply Exists_cons in Hex as [(it' & [= <-] & Hu)|Hex]; [|by apply Exists_nil in Hex]. apply Hun. by right.
  - exists res. split; [done|]. cbn [fmap list_fmap]. destruct res; [|done]. by rewrite cons_middle, app_assoc.
Qed.
Lemma scanInputs_spec : exists r, scanInputs acquire view start endKey = Some r /\
  match r with Ok s => tables_ok scanned s | Err _ => impaired acquire tc view end.
Proof using Hok Hstart Hend Hvalid.
  unfold scanInputs. fold (memory view). destruct (memory_inputs (memory view) ltac:(done) []) as (new & -> & Hnew & Hf). cbn [mbind option_bind app].
  rewrite Files_all_live by apply Hok. cbn [mbind option_bind]. apply table_inputs; [done|]. split; [done|]. split; [done|]. cbn [fst]. intros Hex%Exists_exists.
  destruct Hex as (i & Hi & Hm). rewrite Forall_forall in Hf. by destruct (Hf i Hi).
Qed.
End inputs.

(** ** Cursors and sources *)

Lemma tagged_NoDup {A} (l : list A) : forall (k : nat) (f : nat -> A -> list merge.cursor),
  (forall i a, l !! i = Some a -> NoDup (f i a) /\ forall c, c ∈ f i a -> merge.cu_ordinal c = (k + i)%nat) -> NoDup (concat (imap f l)).
Proof.
  induction l as [|a l IH]; intros k f Hf; [constructor|]. rewrite imap_cons. cbn [concat]. destruct (Hf 0%nat a eq_refl) as [Ha Hk].
  apply NoDup_app. split; [done|]. split.
  - intros c Hc (cs & Hcs & Hin)%elem_of_concat. apply elem_of_lookup_imap in Hcs as (i & x & -> & Hi). destruct (Hf (S i) x Hi) as [_ Hx].
    specialize (Hk c Hc). specialize (Hx c Hin). lia.
  - apply (IH (S k)). intros i x Hi. destruct (Hf (S i) x Hi) as [? Hx]. split; [done|]. intros c Hc. rewrite (Hx c Hc). lia.
Qed.
Lemma pair_sublist {A} (l : list A) i j a b : l !! i = Some a -> l !! j = Some b -> (i < j)%nat -> [a; b] `sublist_of` l.
Proof.
  intros Hi Hj Hij. rewrite <- (take_drop j l). apply (sublist_app [a] (take j l) [b] (drop j l)); apply singleton_sublist_l.
  - eapply list_elem_of_lookup_2. by rewrite lookup_take_lt.
  - eapply (list_elem_of_lookup_2 _ 0). by rewrite lookup_drop, Nat.add_0_r.
Qed.
Lemma conflict_sym a b : conflict a b -> conflict b a.
Proof. intros [Hk H]. split; [done|]. destruct (decide (a.1 = b.1)) as [Heq|]; [|auto]. rewrite <- Heq. destruct H as [?|[?|?]]; auto. Qed.

Section cursors.
Context (start endKey : option bytes) (inputs : list input) (srcs : list numbered).
Context (Hin : Forall2 (input_of start endKey) inputs srcs) (Hsorted : Forall (fun s => store_sorted s.2) srcs).
Let ranges : list MvccStore.store := (fun s : numbered => filter (in_range start endKey) s.2) <$> srcs.
Let cs : list merge.cursor := merge_order (pending inputs ranges).
Lemma inputs_ready : Forall2 ready inputs ranges.
Proof using Hin. unfold ranges. rewrite Forall2_fmap_r. eapply Forall2_impl; [exact Hin|]. by intros i s [_ ?]. Qed.
Lemma cursor_source c : c ∈ cs -> exists s, srcs !! merge.cu_ordinal c = Some s /\ merge.cu_file c = s.1 /\ merge.cu_entry c ∈ s.2 /\ in_range start endKey (merge.cu_entry c).
Proof using Hin.
  unfold cs, merge_order. rewrite SortFunc_Permutation. intros (l & Hl & Hc)%elem_of_concat. unfold pending in Hl. apply elem_of_lookup_imap in Hl as (i & [x l'] & -> & Hi).
  apply lookup_zip_with_Some in Hi as (x' & l'' & [= <- <-] & Hx & Hl). unfold ranges in Hl. apply list_lookup_fmap_Some in Hl as (s & -> & Hs).
  apply list_elem_of_fmap in Hc as (e & -> & He). cbn in *. destruct (Forall2_lookup_lr _ _ _ _ _ _ Hin Hx Hs) as [Hf _].
  apply list_elem_of_filter in He as [Hr He]. by exists s.
Qed.
Lemma cursors_NoDup : NoDup cs.
Proof using Hin Hsorted.
  unfold cs, merge_order. rewrite SortFunc_Permutation. unfold pending. apply (tagged_NoDup _ 0). intros i [x l] Hi.
  apply lookup_zip_with_Some in Hi as (x' & l'' & [= <- <-] & Hx & Hl). unfold ranges in Hl. apply list_lookup_fmap_Some in Hl as (s & -> & Hs). cbn. split.
  - rewrite Forall_forall in Hsorted. pose proof (Hsorted s ltac:(by eapply list_elem_of_lookup_2)) as Hss. apply NoDup_fmap_2; [by intros a b [= ->]|].
    by apply store_NoDup, filter_sorted.
  - by intros c (e & -> & _)%list_elem_of_fmap.
Qed.
Lemma clashes_conflicting : clashes cs -> conflicting srcs.
Proof using Hin Hsorted.
  intros (x & c & Hsub & Hconf). assert (x ∈ cs /\ c ∈ cs) as [Hx Hc] by (split; eapply elem_of_sublist; [|exact Hsub| |exact Hsub]; set_solver).
  destruct (cursor_source x Hx) as (sx & Hix & Hfx & Hex & _). destruct (cursor_source c Hc) as (sc & Hic & Hfc & Hec & _). rewrite Hfx, Hfc in Hconf.
  assert (merge.cu_ordinal x <> merge.cu_ordinal c) as Hne.
  { intros Heq. assert (x = c) as ->.
    { rewrite Heq in Hix. assert (sx = sc) as -> by congruence. destruct Hconf as [Hk _]. cbn in Hk.
      assert (merge.cu_entry x = merge.cu_entry c) as Hee.
      { rewrite Forall_forall in Hsorted. pose proof (Hsorted sc ltac:(by eapply list_elem_of_lookup_2)) as Hss.
        destruct (merge.cu_entry x) as [kx vx], (merge.cu_entry c) as [kc vc]. cbn in Hk. subst kx. f_equal. by eapply store_key_unique. }
      destruct x, c; cbn in *; congruence. }
    pose proof (sublist_NoDup _ _ cursors_NoDup Hsub) as Hnd. apply NoDup_cons in Hnd as [Hn _]. apply Hn. left. }
  destruct (Nat.lt_ge_cases (merge.cu_ordinal x) (merge.cu_ordinal c)) as [Hlt|Hge].
  - exists sx, sc, (merge.cu_entry x), (merge.cu_entry c). split; [by eapply pair_sublist|done].
  - exists sc, sx, (merge.cu_entry c), (merge.cu_entry x). split; [eapply pair_sublist; [done|done|lia]|]. split; [done|]. split; [done|]. by apply conflict_sym.
Qed.
Lemma cursor_entries e : e ∈ merge.cu_entry <$> cs <-> exists s, s ∈ srcs /\ e ∈ s.2 /\ in_range start endKey e.
Proof using Hin.
  unfold cs. rewrite merge_order_entries by (rewrite (Forall2_length _ _ _ Hin); unfold ranges; by rewrite length_fmap). rewrite elem_of_concat. unfold ranges. split.
  - intros (l & (s & -> & Hs)%list_elem_of_fmap & He). apply list_elem_of_filter in He as [? ?]. by exists s.
  - intros (s & Hs & He & Hr). eexists. split; [by apply (list_elem_of_fmap_2 _ _ s)|]. by apply list_elem_of_filter.
Qed.
Lemma cursors_functional : ~ conflicting srcs -> functional (merge.cu_entry <$> cs).
Proof using Hin Hsorted.
  intros Hn e e' (s & [i Hi]%list_elem_of_lookup & He & _)%cursor_entries (s' & [j Hj]%list_elem_of_lookup & He' & _)%cursor_entries Hk.
  assert (e.2 = e'.2) as Hv; [|destruct e, e'; cbn in *; congruence]. apply dec_stable. intros Hne.
  destruct (Nat.lt_trichotomy i j) as [Hlt|[->|Hlt]].
  - apply Hn. exists s, s', e, e'. split; [by eapply pair_sublist|]. split; [done|]. split; [done|]. split; cbn; [done|left; congruence].
  - rewrite Hi in Hj. injection Hj as <-. rewrite Forall_forall in Hsorted. pose proof (Hsorted s ltac:(by eapply list_elem_of_lookup_2)) as Hss.
    destruct e as [k v], e' as [k' v']. cbn in Hk, Hne. subst k'. apply Hne. by eapply store_key_unique.
  - apply Hn. exists s', s, e', e. split; [by eapply pair_sublist|]. split; [done|]. split; [done|]. split; cbn; [done|left; congruence].
Qed.
End cursors.

(** ** Scans and exports of a view *)

Section reads.
Context (acquire : TableMetadata -> eres (reader.Reader * errors)) (tc : TableMetadata -> MvccStore.store) (view : readView) (Hok : view_ok acquire tc view).
Context (start endKey : option bytes) (u : MvccStore.store) (Hu : merges (sources tc view).*2 u).
Lemma outside_table t e : t ∈ live (rv_version view) -> tableOverlapsScan t start endKey = false -> e ∈ tc t -> ~ in_range start endKey e.
Proof using Hok.
  intros Ht Hov He [Hs Hb]. pose proof (de_within _ _ (vk_tables _ _ _ Hok t Ht) e He) as Hw. unfold covers_key in Hw. apply andb_true_iff in Hw as [Hlo Hhi].
  rewrite !bytes_leb_lt in *. unfold tableOverlapsScan in Hov. apply andb_false_iff in Hov as [Hov|Hov].
  - destruct start as [s|]; [|done]. rewrite bytes_leb_lt in Hs. apply bytes_leb_false in Hov. apply Hs. eapply bytes_le_lt_trans; [exact Hhi|done].
  - destruct endKey as [b|]; [|done]. cbn in Hb. apply bytes_ltb_lt in Hb. apply not_true_iff_false in Hov. apply Hov, bytes_ltb_lt. by eapply bytes_le_lt_trans.
Qed.
Lemma scanned_entries e : in_range start endKey e -> (exists s, s ∈ scanned tc view start endKey /\ e ∈ s.2) <-> (exists s, s ∈ sources tc view /\ e ∈ s.2).
Proof using Hok.
  intros Hr. split; intros (s & Hs & He).
  - exists s. split; [|done]. eapply elem_of_sublist; [exact Hs|apply scanned_sublist].
  - exists s. split; [|done]. unfold sources, scanned in *. apply elem_of_app in Hs as [Hs|Hs]; apply elem_of_app; [by left|right].
    apply list_elem_of_fmap in Hs as (t & -> & Ht). apply list_elem_of_fmap_2, list_elem_of_filter. split; [|done].
    destruct (tableOverlapsScan t start endKey) eqn:Ho; [done|]. by destruct (outside_table t e Ht Ho He).
Qed.
Lemma range_store d : store_sorted d -> (forall e, e ∈ d <-> exists s, s ∈ scanned tc view start endKey /\ e ∈ s.2 /\ in_range start endKey e) -> d = filter (in_range start endKey) u.
Proof using Hok Hu.
  destruct Hu as (Hs & Hfrom & Hkeys). intros Hd Hel. assert (forall e, e ∈ u -> in_range start endKey e -> e ∈ d) as Hud.
  { intros e He Hr. destruct (Hfrom e He) as (l & (s & -> & Hsin)%list_elem_of_fmap & Hel'). destruct (proj2 (scanned_entries e Hr)) as (s' & ? & ?); [by exists s|]. apply Hel. eauto. }
  apply sorted_ext; [done|by apply filter_sorted|]. intros e. rewrite list_elem_of_filter. split; [|intros [? ?]; by apply Hud].
  intros He. pose proof He as (s & Hsin & Hes & Hr)%Hel. split; [done|]. assert (exists s, s ∈ sources tc view /\ e ∈ s.2) as (s' & Hs' & Hes') by (apply (scanned_entries e Hr); eauto).
  assert (e.1 ∈ u.*1) as (e' & Hk & He')%list_elem_of_fmap by (apply (Hkeys s'.2); [by apply list_elem_of_fmap_2|done]).
  assert (in_range start endKey e') as Hr' by (unfold in_range, before_end in *; rewrite <- Hk; done).
  specialize (Hud e' He' Hr'). destruct e as [k v], e' as [k' v']. cbn in Hk. subst k'. by rewrite (store_key_unique d k v v').
Qed.
Lemma ranges_fuel : (length (concat ((fun s : numbered => filter (in_range start endKey) s.2) <$> scanned tc view start endKey)) < view_fuel view)%nat.
Proof using Hok.
  eapply Nat.le_lt_trans; [|exact (fuel_enough acquire tc view Hok)]. pose proof (scanned_sublist tc view start endKey) as Hsub. clear Hu. induction Hsub as [|s l l' Hsub IH|s l l' Hsub IH]; cbn [fmap list_fmap concat]; rewrite ?length_app; [done| |].
  - pose proof (length_filter (in_range start endKey) s.2). lia.
  - etransitivity; [exact IH|]. apply Nat.le_add_l.
Qed.

Context (Hstart : len (default [] start) <= sstable.MaxUserKeySize) (Hend : len (default [] endKey) <= sstable.MaxUserKeySize).
Context (Hvalid : memtable.invalid_range start endKey = false) (cancelled : nat -> bool).
(** The loop over the inputs of the view. *)
Lemma over_view {St A} (body : St -> merge.MergeIterator (memtable.Iterator + table_iterator) sstable.sst_error -> St + errors)
    (body' : St -> merge.cursor -> St + errors) (s : St) (finish : St -> A) :
  (forall s m x, merge.Entry m = Some (merge.cu_entry x) -> merge.SourceFileNumber m = Some (merge.cu_file x) -> body s m = body' s x) ->
  (forall cs e, weakly_sorted (merge.cu_entry <$> cs) -> Forall (fun c => 0 <= sequence (merge.cu_entry c).1) cs -> fold_until body' s cs = inr e -> (exists n, cancelled n = true) \/ clashes cs) ->
  exists r, (inputs ← scanInputs acquire view start endKey;
             match inputs with
             | Err e => Some (Err e)
             | Ok (inputs, releases) => over_merge (view_fuel view) body s finish inputs releases
             end) = Some r /\
    match r with
    | Ok a => exists cs s', fold_until body' s cs = inl s' /\ a = finish s' /\ weakly_sorted (merge.cu_entry <$> cs) /\ Forall (fun c => 0 <= sequence (merge.cu_entry c).1) cs /\
        (forall e, e ∈ merge.cu_entry <$> cs <-> exists s, s ∈ scanned tc view start endKey /\ e ∈ s.2 /\ in_range start endKey e) /\
        (~ conflicting (sources tc view) -> functional (merge.cu_entry <$> cs))
    | Err _ => impaired acquire tc view \/ exists n, cancelled n = true
    end.
Proof using Hok Hstart Hend Hvalid.
  intros Hbody Hstop. destruct (scanInputs_spec acquire tc view Hok start endKey Hstart Hend Hvalid) as ([[inputs releases]|e] & -> & Hin); cbn [mbind option_bind]; [|eexists; split; [done|by left]].
  destruct Hin as (Hin & Hrel & Hmf). cbn [fst snd] in *. set (srcs := scanned tc view start endKey) in *.
  assert (Forall (fun s => store_sorted s.2) srcs) as Hs.
  { apply Forall_forall. intros x Hx. apply (proj1 (Forall_forall _ _) (sources_sorted acquire tc view Hok)). eapply elem_of_sublist; [exact Hx|apply scanned_sublist]. }
  pose proof (inputs_ready start endKey inputs srcs Hin) as Hready. set (cs := merge_order (pending inputs ((fun s : numbered => filter (in_range start endKey) s.2) <$> srcs))) in *.
  assert (Forall (fun c => 0 <= sequence (merge.cu_entry c).1) cs) as H0.
  { apply Forall_forall. intros c (x & Hi & _ & He & _)%(cursor_source start endKey inputs srcs Hin).
    pose proof (proj1 (Forall_forall _ _) (sources_wf acquire tc view Hok) x.2) as Hwf. rewrite Forall_forall in Hwf.
    destruct (Hwf ltac:(apply list_elem_of_fmap_2; eapply elem_of_sublist; [by eapply list_elem_of_lookup_2|apply scanned_sublist]) _ He) as [[? _] _]. done. }
  assert (weakly_sorted (merge.cu_entry <$> cs)) as Hws by apply merge_order_sorted.
  destruct (over_merge_spec inputs _ body body' (view_fuel view) s finish releases Hready ranges_fuel Hbody) as (r & -> & Hr).
  exists r. split; [done|]. fold cs in Hr. destruct r as [a|e].
  - destruct Hr as (_ & s' & Hf & ->). exists cs, s'. split_and!; [done..| |].
    + intros e. apply (cursor_entries start endKey inputs srcs Hin).
    + intros Hn. apply (cursors_functional start endKey inputs srcs Hin Hs). intros Hc. apply Hn. eapply conflicting_sublist; [apply scanned_sublist|exact Hc].
  - destruct Hr as [Hr|[Hr|(err & Hr)]]; [left; by apply Hrel|left; by apply Hmf|]. destruct (Hstop cs err Hws H0 Hr) as [?|Hc]; [by right|left; right].
    eapply conflicting_sublist; [apply scanned_sublist|]. by apply (clashes_conflicting start endKey inputs srcs Hin Hs).
Qed.
Lemma scan_view target : exists r, (inputs ← scanInputs acquire view start endKey;
    match inputs with
    | Err e => Some (Err e)
    | Ok (inputs, releases) => over_merge (view_fuel view) (scan_body cancelled target) scan_start (fun s => s_values (if s_haveUser s then emit s else s)) inputs releases
    end) = Some r /\
  match r with
  | Ok a => ~ conflicting (sources tc view) -> a = rows target (filter (in_range start endKey) u)
  | Err _ => impaired acquire tc view \/ exists n, cancelled n = true
  end.
Proof using Hok Hu Hstart Hend Hvalid.
  destruct (over_view (scan_body cancelled target) (scan_step cancelled target) scan_start (fun s => s_values (if s_haveUser s then emit s else s))) as (r & -> & Hr).
  - apply scan_body_step.
  - intros cs e Hs H0 Hf. pose proof (scan_all cancelled target cs Hs H0) as Ha. by rewrite Hf in Ha.
  - exists r. split; [done|]. destruct r as [a|e]; [|done]. destruct Hr as (cs & s' & Hf & -> & Hs & H0 & Hel & Hfun).
    pose proof (scan_all cancelled target cs Hs H0) as Ha. rewrite Hf in Ha. rewrite Ha. set (es := merge.cu_entry <$> cs) in *.
    intros Hn. specialize (Hfun Hn). destruct (remove_dups_reads es Hs Hfun) as [Hv Hus]. rewrite <- (range_store (remove_dups es)).
    + unfold rows. rewrite Hus. apply list_omap_ext. apply Forall_Forall2_diag, Forall_forall. intros user _. unfold row. by rewrite Hv.
    + by apply remove_dups_sorted.
    + intros e. rewrite elem_of_remove_dups. apply Hel.
Qed.
Lemma export_view : exists r, (inputs ← scanInputs acquire view start endKey;
    match inputs with
    | Err e => Some (Err e)
    | Ok (inputs, releases) => over_merge (view_fuel view) (export_body cancelled) (mkExport [] None 1) x_result inputs releases
    end) = Some r /\
  match r with
  | Ok a => a = version_of <$> filter (in_range start endKey) u
  | Err _ => impaired acquire tc view \/ exists n, cancelled n = true
  end.
Proof using Hok Hu Hstart Hend Hvalid.
  assert (exported [] (mkExport [] None 1)) as He0 by (exists []; split; [constructor|done]).
  destruct (over_view (export_body cancelled) (export_step cancelled) (mkExport [] None 1) x_result) as (r & -> & Hr).
  - apply export_body_step.
  - intros cs e Hs _ Hf. pose proof (export_fold cancelled cs [] _ He0 Hs) as Ha. by rewrite Hf in Ha.
  - exists r. split; [done|]. destruct r as [a|e]; [|done]. destruct Hr as (cs & s' & Hf & -> & Hs & H0 & Hel & _).
    pose proof (export_fold cancelled cs [] _ He0 Hs) as Ha. rewrite Hf in Ha. destruct Ha as (d & Hd & Hde & -> & _). f_equal. apply range_store; [done|].
    intros e. rewrite Hde. apply Hel.
Qed.
End reads.
