(* ===== verification/EngineReadProps.v ===== *)
(** * Reads of the engine are reads of the store its sources denote (storage/engine/read.go) *)

From S2P Require Import Prelude InternalKey Batch Loops Files Wal MvccStore SSTable SSTableBlock SSTableWriter SSTableReader SSTableReads SSTableIterators MemTable MemTableProofs MemTableProps Heap Merge MergeProofs MergeInputs Manifest ManifestCodec ManifestVersion ManifestApply ManifestProps ManifestStore ManifestDurable Compaction CompactionPlan CompactionBuild CompactionProps Command StateMachine EngineRead EngineView EngineReadProofs EngineScan.
Import manifest version store compaction read.

(** ** Point reads *)

Section point.
Context (acquire : TableMetadata -> eres (reader.Reader * errors)) (tc : TableMetadata -> MvccStore.store) (view : readView) (u : MvccStore.store).
Definition value_outcome (key : bytes) (target : Z) (r : eres bytes) : Prop :=
  match r with
  | Ok v => exists e, visible key target u = Some e /\ kind e.1 = KindValue /\ v = e.2
  | Err e =>
      e = [Eng ErrNotFound] /\ (forall x, visible key target u = Some x -> kind x.1 = KindDelete) \/
      e = [Eng ErrUnresolvedIntent] /\ (exists x, visible key target u = Some x /\ kind x.1 = KindIntent) \/
      impaired acquire tc view /\ Eng ErrNotFound ∉ e
  end.
Lemma visible_sound key target l e : visible key target l = Some e -> e ∈ l /\ kind e.1 <> KindTxnAbort.
Proof.
  revert target. induction l as [|a l IH]; intros target; cbn; [done|]. destruct (relevant key target a.1).
  - destruct (Byte.eqb (kind a.1) KindTxnAbort) eqn:Hk.
    + destruct (_ =? 0); [done|]. intros [? ?]%IH. split; [by right|done].
    + intros [= <-]. split; [left|]. intros Heq. rewrite Heq in Hk. done.
  - intros [? ?]%IH. split; [by right|done].
Qed.
Context (Hok : view_ok acquire tc view) (Hu : merges (sources tc view).*2 u).
Lemma merged_wf e : e ∈ u -> key_wf e.1.
Proof using Hok Hu.
  destruct Hu as (_ & Hfrom & _). intros (l & Hl & He)%Hfrom. pose proof (proj1 (Forall_forall _ _) (sources_wf acquire tc view Hok) l Hl) as Hwf. rewrite Forall_forall in Hwf. by apply Hwf.
Qed.
Lemma getMVCCAt_view cancelled key requested : (rs_HaveSequence (rv_memtables view) = false -> u = []) -> cancelled O = false -> len key <= sstable.MaxUserKeySize ->
  exists r, getMVCCAt acquire false (Some cancelled) (Ok view) key requested = Some r /\ point_outcome acquire tc view u key (read_target view requested) r.
Proof using Hok Hu.
  intros Hempty Hc Hk. unfold getMVCCAt. rewrite (proj2 (Z.ltb_ge _ _)), Hc by done. destruct (rs_HaveSequence (rv_memtables view)); cbn [negb].
  - apply (point_loop_spec acquire tc view Hok u key Hu Hk). eapply Nat.le_lt_trans; [|exact (fuel_enough acquire tc view Hok)].
    etransitivity; [apply length_filter|]. by apply merges_length.
  - eexists. split; [done|]. rewrite Hempty by done. left. done.
Qed.
Lemma getAt_outcome key target (r : eres MVCCVersion) : point_outcome acquire tc view u key target r ->
  value_outcome key target (e ← r;
    if Byte.eqb (vKind e) KindValue then Ok (vValue e)
    else if Byte.eqb (vKind e) KindDelete then Err [Eng ErrNotFound]
    else if Byte.eqb (vKind e) KindIntent then Err [Eng ErrUnresolvedIntent]
    else Err [Eng ErrCorruption; Kind_]).
Proof using Hok Hu.
  destruct r as [v|e]; cbn [point_outcome mbind result_bind].
  - intros (e & Hv & ->). destruct (visible_sound _ _ _ _ Hv) as [Hin Hna]. pose proof (merged_wf e Hin) as [_ Hk]. cbn [version_of vKind vValue].
    destruct (Byte.eqb (kind e.1) KindValue) eqn:H1; [apply Byte.byte_dec_bl in H1; by exists e|].
    destruct (Byte.eqb (kind e.1) KindDelete) eqn:H2; [apply Byte.byte_dec_bl in H2; left; split; [done|]; intros x; rewrite Hv; by intros [= <-]|].
    destruct (Byte.eqb (kind e.1) KindIntent) eqn:H3; [apply Byte.byte_dec_bl in H3; right; left; split; [done|]; by exists e|].
    exfalso. destruct (kind e.1); done.
  - intros [[-> Hn]|[? ?]]; [left|by right; right]. split; [done|]. intros x. by rewrite Hn.
Qed.
End point.

(** C7. A point read of a view (active and immutable memtables, and the live
    tables of a version, with their Bloom filters and the search within each
    level) never panics and its loop past aborted versions ends.  What it
    returns is what the reference read of the merged store returns at the
    target: the newest version that is not aborted, or [ErrNotFound] when
    there is none; [getAt] turns deletions into [ErrNotFound] and intents into
    [ErrUnresolvedIntent].  It fails otherwise only when a table cannot be read or two sources hold
    the same key, and such a failure never looks like a missing key. *)
Theorem point_reads acquire tc view u cancelled key requested :
  view_ok acquire tc view -> merges (sources tc view).*2 u -> (rs_HaveSequence (rv_memtables view) = false -> u = []) ->
  cancelled O = false -> len key <= sstable.MaxUserKeySize ->
  (exists r, getMVCCAt acquire false (Some cancelled) (Ok view) key requested = Some r /\
     point_outcome acquire tc view u key (read_target view requested) r) /\
  (exists r, getAt acquire false (Some cancelled) (Ok view) key requested = Some r /\ value_outcome acquire tc view u key (read_target view requested) r).
Proof.
  intros Hok Hu Hempty Hc Hk. destruct (getMVCCAt_view acquire tc view u Hok Hu cancelled key requested Hempty Hc Hk) as (r & Hr & Ho). split; [by exists r|].
  unfold getAt. rewrite Hr. cbn [mbind option_bind]. eexists. split; [done|]. by apply getAt_outcome.
Qed.

(** ** Scans and exports *)

Definition refused (start endKey : option bytes) (e : errors) : Prop :=
  e = [Eng ErrInvalidOptions] /\ (sstable.MaxUserKeySize < len (default [] start) \/ sstable.MaxUserKeySize < len (default [] endKey)) \/
  e = [Eng ErrInvalidRange] /\ memtable.invalid_range start endKey = true.
Section ranges.
Context (acquire : TableMetadata -> eres (reader.Reader * errors)) (tc : TableMetadata -> MvccStore.store) (view : readView) (u : MvccStore.store).
Definition range_failure (cancelled : nat -> bool) (start endKey : option bytes) (e : errors) : Prop :=
  refused start endKey e \/ impaired acquire tc view \/ exists n, cancelled n = true.
Lemma empty_range (start endKey : option bytes) : match start, endKey with Some s, Some e => bytes_eqb s e | _, _ => false end = true -> filter (in_range start endKey) u = [].
Proof.
  destruct start as [s|], endKey as [b|]; try done. intros ->%bytes_eqb_eq. apply filter_none, Forall_forall. intros e _ [Hs Hb]. cbn in Hb.
  apply bytes_ltb_lt in Hb. by apply bytes_leb_lt in Hs.
Qed.
(** The guards of the two operations, and what follows them. *)
Lemma guarded {A} (cancelled : nat -> bool) start endKey (inner : option (eres (list A))) (P : list A -> Prop) :
  (filter (in_range start endKey) u = [] -> P []) ->
  (len (default [] start) <= sstable.MaxUserKeySize -> len (default [] endKey) <= sstable.MaxUserKeySize -> memtable.invalid_range start endKey = false ->
   exists r, inner = Some r /\ match r with Ok rs => P rs | Err e => impaired acquire tc view \/ exists n, cancelled n = true end) ->
  exists r, (if (sstable.MaxUserKeySize <? len (default [] start)) || (sstable.MaxUserKeySize <? len (default [] endKey)) then Some (Err [Eng ErrInvalidOptions])
    else if memtable.invalid_range start endKey then Some (Err [Eng ErrInvalidRange])
    else if match start, endKey with Some s, Some e => bytes_eqb s e | _, _ => false end then Some (Ok [])
    else if cancelled O then Some (Err []) else inner) = Some r /\
  match r with Ok rs => P rs | Err e => range_failure cancelled start endKey e end.
Proof.
  intros Hempty Hinner. destruct (_ || _) eqn:Hl.
  { eexists. split; [done|]. left. left. split; [done|]. by rewrite orb_true_iff, !Z.ltb_lt in Hl. }
  rewrite orb_false_iff, !Z.ltb_ge in Hl. destruct Hl as [Hs He]. destruct (memtable.invalid_range start endKey) eqn:Hv; [eexists; split; [done|]; left; by right|].
  destruct (match start, endKey with Some s, Some e => bytes_eqb s e | _, _ => false end) eqn:Heq; [eexists; split; [done|]; by apply Hempty, empty_range|].
  destruct (cancelled O) eqn:Hc; [eexists; split; [done|]; right; right; eauto|]. destruct (Hinner Hs He eq_refl) as (r & -> & Hr). exists r. split; [done|]. destruct r; [done|]. by right.
Qed.
End ranges.

(** C12. A scan of a view never panics and ends.  Without conflicting sources
    its rows are, in order of the user keys of the range, the versions a point
    read of each key returns; an export returns every version of the range of
    the merged store, in order and once.  They fail only for invalid
    arguments, when cancelled, when a table cannot be read or when two sources
    hold the same key. *)
Theorem range_reads acquire tc view u cancelled start endKey requested :
  view_ok acquire tc view -> merges (sources tc view).*2 u -> (rs_HaveSequence (rv_memtables view) = false -> u = []) ->
  (exists r, scanMVCCAt acquire false (Some cancelled) (Ok view) start endKey requested = Some r /\
     match r with
     | Ok rs => ~ conflicting (sources tc view) -> rs = rows (read_target view requested) (filter (in_range start endKey) u)
     | Err e => range_failure acquire tc view cancelled start endKey e
     end) /\
  (exists r, read.ExportMVCCVersions acquire false ModeReplicatedMVCC (Some cancelled) (Ok view) start endKey = Some r /\
     match r with
     | Ok rs => rs = version_of <$> filter (in_range start endKey) u
     | Err e => range_failure acquire tc view cancelled start endKey e
     end).
Proof.
  intros Hok Hu Hempty. split.
  - apply (guarded acquire tc view u cancelled start endKey _ (fun rs => ~ conflicting (sources tc view) -> rs = rows (read_target view requested) (filter (in_range start endKey) u))).
    + by intros ->.
    + intros Hs He Hv. destruct (rs_HaveSequence (rv_memtables view)); cbn [negb]; [by apply scan_view|]. eexists. split; [done|]. by rewrite Hempty.
  - apply (guarded acquire tc view u cancelled start endKey _ (fun rs => rs = version_of <$> filter (in_range start endKey) u)).
    + by intros ->.
    + intros Hs He Hv. by apply export_view.
Qed.

(** ** Views over a directory of tables *)

(** A lease that opens the table; TableCache.v models the cache. *)
Definition open_lease (directory : bytes -> opened) (t : TableMetadata) : eres (reader.Reader * errors) :=
  match open_number directory (FileNumber t) with Ok r => Ok (r, []) | Err _ => Err [Eng ErrCorruption] end.
Definition described_in (directory : bytes -> opened) (t : TableMetadata) : bool :=
  forallb (fun e => covers_key (userKey e.1) t) (stored directory (FileNumber t)) && (EntryCount t =? len (stored directory (FileNumber t))).
Lemma directory_view directory view : Forall (fun g => wf (rg_Table g)) (memory view) -> version_ok (rv_version view) ->
  forallb (described_in directory) (live (rv_version view)) = true ->
  view_ok (open_lease directory) (fun t => stored directory (FileNumber t)) view.
Proof.
  intros Hm Hv Hd. split; [done|done| | |].
  - intros t Ht. rewrite forallb_forall in Hd. specialize (Hd t (proj1 (list_elem_of_In _ _) Ht)). unfold described_in in Hd. apply andb_true_iff in Hd as [Hw Hc].
    destruct (stored_sorted directory (FileNumber t)) as [Hs Hwf]. split; [done|done| |by apply Z.eqb_eq].
    intros e He. rewrite forallb_forall in Hw. by apply Hw, list_elem_of_In.
  - intros t r release _. unfold open_lease. destruct (open_number directory (FileNumber t)) as [r'|e] eqn:Ho; [|done]. intros [= <- <-].
    destruct (open_number_reads _ _ _ Ho) as (r0 & bs & _ & Hto & Hre & ->). done.
  - intros t _. unfold quiet, open_lease. destruct (open_number _ _); set_solver.
Qed.

(** ** An example *)

Module ViewExample.
Import RunExample.
#[local] Existing Instances disk_file disk_laws disk_publication.
(** A memtable with a newer version of a key of the two flushed tables. *)
Definition ops : list mem_op :=
  [OpVersion 12 [{| mKey := [Byte.x61]; mValue := []; mKind := KindTxnAbort |}; {| mKey := [Byte.x64]; mValue := [Byte.x31]; mKind := KindValue |}]].
Definition mem : memtable.MemTable := match run_ops MemTableProps.Example.draws true ops memtable.newWithRandom with Some (m, _) => m | None => memtable.newWithRandom end.
Lemma mem_wf : wf mem.
Proof.
  destruct (mem_ops_spec MemTableProps.Example.draws true ops memtable.newWithRandom new_wf) as (m & Hr & Hw & _); [repeat constructor; vm_compute; done|]. unfold mem. by rewrite Hr.
Qed.
Definition acquire : TableMetadata -> eres (reader.Reader * errors) := open_lease directory.
Definition table (t : TableMetadata) : MvccStore.store := stored directory (FileNumber t).
Definition view : readView := mkView (mkReadSnapshot (mkReadGeneration 3 3 mem) [] 12 true false) (st_current (fst before)).
Definition merged : MvccStore.store := overlay (sources table view).*2.
Lemma view_good : view_ok acquire table view.
Proof.
  apply directory_view.
  - apply Forall_singleton, mem_wf.
  - destruct before_inv as (ps & v & Hi). exact (in_ok _ _ _ Hi).
  - vm_compute. reflexivity.
Qed.
Lemma merged_ok : merges (sources table view).*2 merged.
Proof. apply overlay_merges, Forall_fmap. exact (sources_sorted acquire table view view_good). Qed.
End ViewExample.
Section witness.
Import ViewExample.
Lemma point_reads_witness :
  (exists r, getMVCCAt acquire false (Some (fun _ => false)) (Ok view) [Byte.x61] None = Some r /\ point_outcome acquire table view merged [Byte.x61] 12 r) /\
  visible [Byte.x61] 12 merged = Some (RunExample.ikey Byte.x61 9 KindValue, [Byte.x79]) /\
  match getMVCCAt acquire false (Some (fun _ => false)) (Ok view) [Byte.x61] None with Some (Ok v) => Some (vTimestamp v, vValue v) | _ => None end = Some (9, [Byte.x79]).
Proof.
  destruct (point_reads acquire table view merged (fun _ => false) [Byte.x61] None) as [Hr _].
  - exact view_good.
  - exact merged_ok.
  - discriminate.
  - reflexivity.
  - discriminate.
  - split; [exact Hr|]. split; vm_compute; reflexivity.
Defined.
Lemma range_reads_witness :
  (exists r, scanMVCCAt acquire false (Some (fun _ => false)) (Ok view) (Some [Byte.x61]) None (Some 8) = Some r /\
     match r with
     | Ok rs => ~ conflicting (sources table view) -> rs = rows 8 (filter (in_range (Some [Byte.x61]) None) merged)
     | Err e => range_failure acquire table view (fun _ => false) (Some [Byte.x61]) None e
     end) /\
  match scanMVCCAt acquire false (Some (fun _ => false)) (Ok view) (Some [Byte.x61]) None (Some 8) with Some (Ok rs) => (fun v => (vKey v, vTimestamp v)) <$> rs | _ => [] end =
    [([Byte.x61], 7); ([Byte.x62], 6); ([Byte.x63], 8)].
Proof.
  destruct (range_reads acquire table view merged (fun _ => false) (Some [Byte.x61]) None (Some 8)) as [Hr _].
  - exact view_good.
  - exact merged_ok.
  - discriminate.
  - split; [exact Hr|]. vm_compute. reflexivity.
Defined.
End witness.
