(* ===== verification/TableCacheProps.v ===== *)
(** * The table cache is transparent (storage/engine/table_cache.go) *)

From S2P Require Import Prelude InternalKey Batch Loops Files Wal MvccStore SSTable SSTableBlock SSTableWriter SSTableReader SSTableReads MemTable MemTableProofs Heap Merge MergeInputs Manifest ManifestVersion ManifestApply ManifestProps ManifestStore ManifestDurable Compaction CompactionPlan CompactionBuild CompactionProps Command StateMachine EngineRead EngineView EngineReadProofs EngineScan EngineReadProps TableCache TableCacheProofs.
Import manifest version store compaction read cache.
#[local] Arguments reader.FileName : simpl never.

(** ** Runs

    Leases are granted, released in any order and any number of times; a table
    is evicted only when no lease is outstanding, as the engine does under its
    exclusive lock. *)
Inductive cache_runs (directory : bytes -> opened) (capacity : Z) : tableCache -> list (TableMetadata * tableLease) -> Prop :=
  | runs_new : cache_runs directory capacity (newTableCache capacity) []
  | runs_acquire c ls t c' r : cache_runs directory capacity c ls -> len ls < MaxUint64 -> acquire directory t c = (c', r) ->
      cache_runs directory capacity c' (match r with Ok l => ls ++ [(t, l)] | Err _ => ls end)
  | runs_release c ls k t l c' l' err : cache_runs directory capacity c ls -> ls !! k = Some (t, l) -> Release l c = (c', l', err) ->
      cache_runs directory capacity c' (<[k:=(t, l')]> ls)
  | runs_evict c ls n : cache_runs directory capacity c ls -> active ls = 0 -> cache_runs directory capacity (evict n c).1 ls
  | runs_close c ls : cache_runs directory capacity c ls -> cache_runs directory capacity (close c).1 ls.

Lemma new_inv directory capacity : cache_inv directory (newTableCache capacity) [].
Proof.
  split; try done; cbn.
  - constructor.
  - by intros id ?%not_elem_of_nil.
  - by intros t l ?%not_elem_of_nil.
  - constructor.
Qed.
Lemma runs_inv directory capacity c ls : cache_runs directory capacity c ls -> cache_inv directory c ls /\ closed_ok c ls /\ len ls <= MaxUint64.
Proof.
  induction 1 as [|c ls t c' r Hr (Hi & Hco & Hlen) Hl Ha|c ls k t l c' l' err Hr (Hi & Hco & Hlen) Hk Hre|c ls n Hr (Hi & Hco & Hlen) Hact|c ls Hr (Hi & Hco & Hlen)].
  - split; [apply new_inv|]. split; [done|]. unfold len, MaxUint64, two64. cbn. lia.
  - destruct (acquire_spec directory c ls t Hi Hl) as [Hcl Hsp]. rewrite Ha in Hcl, Hsp. cbn [fst snd] in *. destruct r as [l|e].
    + destruct Hsp as [[Hi' _] Hc]. split; [done|]. split; [intros Hc'; congruence|]. unfold len in *. rewrite length_app. cbn. lia.
    + destruct Hsp as [Hi' Hng]. split; [done|]. split; [|done]. intros Hc' j Hj. rewrite Hcl in Hc'. unfold acquire in Ha. rewrite Hc' in Ha. injection Ha as <- _. by apply Hco.
  - unfold Release in Hre. destruct (l_released l) as [e|] eqn:Hrel; [injection Hre as <- <- <-; by rewrite list_insert_id|].
    destruct (release (l_entry l) (l_Reader l) c) as [c1 e1] eqn:Hr1. injection Hre as <- <- <-.
    rewrite insert_take_drop in * by (by eapply lookup_lt_Some). rewrite <- (take_drop_middle ls k (t, l) Hk) in Hi, Hco, Hlen at 1. set (l1 := take k ls) in *. set (l2 := drop (S k) ls) in *.
    destruct (release_inv directory c l1 l2 t l e1 Hi) as (Hi' & Hco' & _); [unfold outstanding; by rewrite Hrel|done|done|]. rewrite Hr1 in Hi', Hco'. split; [exact Hi'|]. split; [exact Hco'|]. unfold len in *. rewrite length_app in *. cbn [length] in *. lia.
  - destruct (evict_inv directory c ls n Hi Hco Hact) as (? & ? & _). done.
  - destruct (close_inv directory c ls Hi Hco) as (? & ? & _). done.
Qed.

(** C21. Whatever leases are acquired and released, in whatever order, the
    cache is transparent.  The reader of every outstanding lease is open and
    is the one that opening its table gives, with the metadata of the
    manifest; a lease is refused only when the cache is closed, when opening
    the table fails or gives other metadata, or when closing an evicted table
    fails.  The cache keeps at most [capacity] entries and counts the
    outstanding leases, and once it is closed and all leases are released, no
    reader it ever opened is left open. *)
Theorem cache_transparent directory capacity c ls : cache_runs directory capacity c ls ->
  (forall t l, (t, l) ∈ ls -> outstanding l = true ->
     exists r, tc_readers c !! l_Reader l = Some r /\ open directory (FileNumber t) = Ok r /\ matches t r.1 = true /\ reader.rd_closed r.1 = false) /\
  (0 <= tc_capacity c -> Z.of_nat (base.size (tc_entries c)) <= tc_capacity c) /\ tc_active c = active ls /\
  (forall t, len ls < MaxUint64 ->
     match (acquire directory t c).2 with
     | Ok l => exists r, tc_readers (acquire directory t c).1 !! l_Reader l = Some r /\ open directory (FileNumber t) = Ok r /\ matches t r.1 = true
     | Err e => not_granted directory c t e
     end) /\
  (tc_closed c = true -> active ls = 0 -> forall rid r, tc_readers c !! rid = Some r -> reader.rd_closed r.1 = true).
Proof.
  intros Hr. destruct (runs_inv _ _ _ _ Hr) as (Hi & Hco & _). split_and!.
  - intros t l Hl Ho. destruct (ci_lease _ _ _ Hi t l Hl Ho) as ((r & Hrd & Hop & Hma) & _). exists r. split_and!; try done. by eapply opened_open.
  - apply Hi.
  - apply Hi.
  - intros t Hlen. destruct (acquire_spec directory c ls t Hi Hlen) as [_ Hsp]. destruct (acquire directory t c) as [c' [l|e]]; cbn [fst snd] in *; [|by destruct Hsp].
    destruct Hsp as [[Hi' Ho] _]. destruct (ci_lease _ _ _ Hi' t l) as ((r & Hrd) & _); [set_solver|done|]. by exists r.
  - intros Hc Ha rid r Hrd. destruct (reader.rd_closed r.1) eqn:Hop; [done|]. pose proof (ci_open _ _ _ Hi rid r Hrd Hop) as Hown. exfalso.
    assert (tc_lru c = []) as Hl. { destruct (tc_lru c) as [|id l] eqn:Hlru; [done|]. destruct (Hco Hc id); [rewrite Hlru; left|by apply idle_refs]. }
    unfold owned, cached_readers in Hown. rewrite Hl in Hown. cbn in Hown. apply list_elem_of_omap in Hown as ([t l] & Hin & Hu). unfold uncached in Hu. cbn in Hu.
    destruct (outstanding l) eqn:Ho; [|done]. unfold active in Ha. assert ((t, l) ∈ filter (fun p : TableMetadata * tableLease => outstanding p.2 = true) ls) as Hf by (by apply list_elem_of_filter).
    destruct (filter _ ls); [by apply not_elem_of_nil in Hf|]. unfold len in Ha. cbn in Ha. lia.
Qed.

(** ** A lease of the cache is what the reads need *)

Section leased.
Context (directory : bytes -> opened).
(** The lease a read takes in a state of the cache, with the error its release
    gives. *)
Definition cached_lease (c : tableCache) (t : TableMetadata) : eres (reader.Reader * errors) :=
  let '(c', r) := acquire directory t c in
  match r with
  | Err e => Err e
  | Ok l =>
      match tc_readers c' !! l_Reader l with
      | Some r => Ok (r.1, (Release l c').2)
      | None => Err []
      end
  end.
Definition no_not_found (e : errors) : Prop := Eng ErrNotFound ∉ e.
Lemma close_quiet rid c : no_not_found (close_reader rid c).2.
Proof.
  unfold close_reader, no_not_found. destruct (tc_readers c !! rid) as [[r b]|]; [|apply not_elem_of_nil]. destruct (reader.Close b r) as [r' [?|e]]; cbn; [apply not_elem_of_nil|].
  by intros (x & [=] & _)%list_elem_of_fmap.
Qed.
Lemma open_quiet n e : open directory n = Err e -> no_not_found e.
Proof.
  unfold open, no_not_found. destruct (directory _) as [| |f b]; [intros [= <-]; apply not_elem_of_nil..|]. destruct (reader.openReader _ _ _ _) as [r|es]; [done|].
  intros [= <-] (x & [=] & _)%list_elem_of_fmap.
Qed.
Lemma room_quiet fuel : forall c, no_not_found (make_room fuel c).2.
Proof.
  induction fuel as [|fuel IH]; intros c; cbn [make_room]; [apply not_elem_of_nil|]. case_match; [|apply not_elem_of_nil]. unfold evictOneIdleLocked, removeLocked.
  destruct (idle _ _) as [[id e]|]; [|apply not_elem_of_nil]. pose proof (close_quiet (te_reader e) (forget (te_fileNumber e) id c)) as Hq. destruct (close_reader _ _) as [c1 [|x err]]; [apply IH|exact Hq].
Qed.
Lemma acquire_quiet c t e : (acquire directory t c).2 = Err e -> no_not_found e.
Proof.
  assert ((acquire_miss directory t c).2 = Err e -> no_not_found e) as Hmiss.
  { unfold acquire_miss. set (c0 := count _ _ _ _ _). pose proof (room_quiet (S (length (tc_lru c0))) c0) as Hq. destruct (make_room _ c0) as [c1 [|x err]]; [|intros [= <-]; exact Hq].
    destruct (open directory (FileNumber t)) as [r|e'] eqn:Ho; [|intros [= <-]; by eapply open_quiet]. set (c2 := count _ _ _ _ _). destruct (negb _); [|by case_match].
    pose proof (close_quiet (length (tc_readers c1)) c2) as Hc. destruct (close_reader _ c2) as [c3 e3]. intros [= <-]. unfold no_not_found, mismatch in *. cbn [snd] in Hc. set_solver. }
  unfold acquire. destruct (tc_closed c); [intros [= <-]; unfold no_not_found; set_solver|]. destruct (_ ≫= _) as [[id x]|]; [|done]. destruct (negb (te_obsolete x)); [|done].
  destruct (negb _); [|done]. intros [= <-]. unfold no_not_found, mismatch. set_solver.
Qed.
Lemma Release_quiet l c : l_released l = None -> no_not_found (Release l c).2.
Proof.
  intros Hl. unfold Release. rewrite Hl. destruct (release (l_entry l) (l_Reader l) c) as [c1 e1] eqn:Hr. cbn [snd]. unfold release in Hr.
  destruct (_ ≫= _) as [[id e]|]; [case_match; [|injection Hr as _ <-; apply not_elem_of_nil]|]; pose proof (close_quiet) as Hq; unfold no_not_found in *; intros Hin; eapply Hq; by rewrite Hr.
Qed.
(** In every state of the cache, its leases discharge the assumption of the
    reads on the lease they are given. *)
Lemma cached_view capacity c ls view : cache_runs directory capacity c ls -> len ls < MaxUint64 ->
  view_ok (open_lease directory) (fun t => stored directory (FileNumber t)) view ->
  view_ok (cached_lease c) (fun t => stored directory (FileNumber t)) view.
Proof.
  intros Hr Hlen [Hm Hv Hd _ _]. destruct (runs_inv _ _ _ _ Hr) as (Hi & _). split; [done..| |].
  - intros t r re _ Hl. unfold cached_lease in Hl. destruct (acquire_spec directory c ls t Hi Hlen) as [_ Hsp]. destruct (acquire directory t c) as [c' [l|e]]; [|done]. cbn [fst snd] in Hsp.
    destruct Hsp as [[Hi' Ho] _]. destruct (ci_lease _ _ _ Hi' t l) as ((r' & Hrd & Hop & _) & _); [set_solver|done|]. rewrite Hrd in Hl. injection Hl as <- _.
    unfold open in Hop. destruct (directory (reader.FileName (FileNumber t))) as [| |f b] eqn:Hf; [done..|]. destruct (reader.openReader _ _ _ _) as [r0|es] eqn:Hor; [|done]. injection Hop as <-.
    destruct (open_number_reads directory (FileNumber t) (with_file (later f) r0)) as (r1 & bs & _ & Hto & Hre & ->); [|done]. unfold open_number, open_table. by rewrite Hf, Hor.
  - intros t _. unfold quiet, cached_lease. destruct (acquire directory t c) as [c' [l|e]] eqn:Ha; [|apply (acquire_quiet c t e); by rewrite Ha].
    destruct (tc_readers c' !! l_Reader l) as [r|]; [|apply not_elem_of_nil]. apply Release_quiet.
    destruct (acquire_spec directory c ls t Hi Hlen) as [_ Hsp]. rewrite Ha in Hsp. destruct Hsp as [[_ Ho] _]. unfold outstanding in Ho. by destruct (l_released l).
Qed.
End leased.

(** ** An example *)

Inductive cache_op := DoAcquire (t : TableMetadata) | DoRelease (k : nat) | DoEvict (n : Z) | DoClose.
Definition cache_do (directory : bytes -> opened) (s : tableCache * list (TableMetadata * tableLease)) (op : cache_op) : tableCache * list (TableMetadata * tableLease) :=
  let '(c, ls) := s in
  match op with
  | DoAcquire t => ((acquire directory t c).1, match (acquire directory t c).2 with Ok l => ls ++ [(t, l)] | Err _ => ls end)
  | DoRelease k => match ls !! k with Some (t, l) => ((Release l c).1.1, <[k:=(t, (Release l c).1.2)]> ls) | None => s end
  | DoEvict n => ((evict n c).1, ls)
  | DoClose => ((close c).1, ls)
  end.
Definition idle_evictions (s : tableCache * list (TableMetadata * tableLease)) (op : cache_op) : bool :=
  match op with DoEvict _ => active s.2 =? 0 | DoAcquire _ => len s.2 <? MaxUint64 | _ => true end.
Lemma do_runs directory capacity s op : cache_runs directory capacity s.1 s.2 -> idle_evictions s op = true ->
  cache_runs directory capacity (cache_do directory s op).1 (cache_do directory s op).2.
Proof.
  destruct s as [c ls]. cbn [fst snd]. intros Hr Hok. destruct op as [t|k|n|]; cbn [cache_do idle_evictions fst snd] in *.
  - apply Z.ltb_lt in Hok. apply (runs_acquire directory capacity c ls t _ (acquire directory t c).2 Hr Hok), surjective_pairing.
  - destruct (ls !! k) as [[t l]|] eqn:Hk; [|exact Hr]. cbn [fst snd]. apply (runs_release directory capacity c ls k t l _ _ (Release l c).2 Hr Hk). rewrite <- !surjective_pairing. reflexivity.
  - apply Z.eqb_eq in Hok. by apply runs_evict.
  - by apply runs_close.
Qed.
Fixpoint legal_run (directory : bytes -> opened) (s : tableCache * list (TableMetadata * tableLease)) (ops : list cache_op) : bool :=
  match ops with [] => true | op :: ops => idle_evictions s op && legal_run directory (cache_do directory s op) ops end.
Lemma legal_runs directory capacity ops : forall s, cache_runs directory capacity s.1 s.2 -> legal_run directory s ops = true ->
  cache_runs directory capacity (foldl (cache_do directory) s ops).1 (foldl (cache_do directory) s ops).2.
Proof.
  induction ops as [|op ops IH]; intros s Hr Hl; cbn [foldl]; [exact Hr|]. cbn [legal_run] in Hl. apply andb_true_iff in Hl as [Ho Hl]. apply IH; [by apply do_runs|exact Hl].
Qed.

Module CacheExample.
Import RunExample.
#[local] Existing Instances disk_file disk_laws disk_publication.
Definition tables : list TableMetadata := table_of older 1 5 7 ++ table_of newer 2 8 9.
Definition table (k : nat) : list cache_op := match tables !! k with Some t => [DoAcquire t] | None => [] end.
(** The second lease does not fit into the cache of one entry; the third is a
    hit. *)
Definition busy : tableCache * list (TableMetadata * tableLease) :=
  foldl (cache_do directory) (newTableCache 1, []) (table 0 ++ table 1 ++ table 0 ++ [DoRelease 0]).
Lemma busy_legal : legal_run directory (newTableCache 1, []) (table 0 ++ table 1 ++ table 0 ++ [DoRelease 0]) = true.
Proof. vm_compute. reflexivity. Qed.
Lemma busy_runs : cache_runs directory 1 busy.1 busy.2.
Proof. exact (legal_runs directory 1 _ (newTableCache 1, []) (runs_new directory 1) busy_legal). Qed.
Definition open_readers (c : tableCache) : list bool := (fun r => negb (reader.rd_closed r.1)) <$> tc_readers c.
End CacheExample.
Section witness.
Import CacheExample.
Lemma cache_transparent_witness :
  (forall t l, (t, l) ∈ busy.2 -> outstanding l = true ->
     exists r, tc_readers busy.1 !! l_Reader l = Some r /\ open RunExample.directory (FileNumber t) = Ok r /\ matches t r.1 = true /\ reader.rd_closed r.1 = false) /\
  (fun p => (FileNumber p.1, l_entry p.2, l_Reader p.2, outstanding p.2)) <$> busy.2 = [(1, Some 0%nat, 0%nat, false); (2, None, 1%nat, true); (1, Some 0%nat, 0%nat, true)] /\
  (tc_active busy.1, tc_hits busy.1, tc_misses busy.1, open_readers busy.1) = (2, 1, 2, [true; true]) /\
  open_readers (foldl (cache_do RunExample.directory) busy [DoClose; DoRelease 1; DoRelease 2]).1 = [false; false].
Proof.
  destruct (cache_transparent RunExample.directory 1 busy.1 busy.2) as [Hl _].
  - exact busy_runs.
  - split; [exact Hl|]. split; [vm_compute; reflexivity|]. split; vm_compute; reflexivity.
Defined.
(** The bound on evictions is needed: when a table is evicted while it is
    borrowed and is then opened again, the release of the old lease removes
    the new entry from the map, and closing the cache misses its reader. *)
Lemma borrowed_eviction_leaks :
  let s := foldl (cache_do RunExample.directory) (newTableCache 2, []) (table 0 ++ [DoEvict 1] ++ table 0 ++ [DoRelease 0; DoRelease 1; DoClose]) in
  (tc_active s.1, tc_closed s.1, open_readers s.1) = (0, true, [false; true]).
Proof. vm_compute. reflexivity. Qed.
End witness.
